(* ===== verification/_CoqProject ===== *)
-Q . S2P
Prelude.v
CString.v
Regex.v
Array.v
Convert.v
RbTree.v
RbInv.v
RbRep.v
RbInsert.v
RbErase.v
RbQuery.v
RbCorrect.v
Map.v
MapCorrect.v
StrMap.v
StringUtil.v
Wildcard.v
Verify.v
Path.v
SymlinkScope.v
ImageName.v
IpNet.v
Ipv6.v
Subnet.v
Filters.v
CniConf.v
NativeNetwork.v
NativeCorrect.v
NativeHistory.v
NativeRestart.v
Threads.v
IdNameManager.v
ImageStore.v
ImageSpec.v
ImageInfo.v
ImageLoad.v
ContainerState.v
RestartManager.v
LinkedList.v
EventsHandler.v
GarbageCollector.v
BlockingQueue.v
Mailbox.v
Volume.v
VolumeCorrect.v
VolumeInit.v
HealthCheck.v
ContainersStore.v
ImageCorrect.v
ImageChange.v
ImageUpdate.v
ImageData.v
ImageHistory.v
ImageReport.v
ImageRestart.v
