(* ===== verification/Prelude.v ===== *)
(** * iSulad: a verification of the core of the container engine

    iSulad is a container engine written in C.  A daemon keeps the containers
    of a host in a store, drives their processes through runtimes, reacts to
    the events of these processes and answers clients.  This library models
    the parts of the daemon that hold its state and decide what happens to a
    container, and the utilities these parts are built on, and proves them
    correct.  Paths below are relative to the repository's [src] directory.

    ** How the C code is represented

    - A C integer is a [Z]; an operation that can leave its width is wrapped
      with [u32], [u64], [i32] or [i64] of this file.
    - Code that reads and writes memory is a computation [M S A] over the
      memory [S] it works on (this file).  [None] is undefined behaviour (a
      dead pointer, an access outside an array, a signed overflow, unlocking a
      mutex that is not locked) or a loop that ran out of fuel.  The triple [wp m Q s]
      says that [m] started in [s] ends, without any of these, in a result that
      satisfies [Q]; so every theorem stated with [wp] includes memory safety
      and termination.
    - The fuel of a loop is a function of the data: the number of live nodes
      plus one for trees and lists, the length plus one for strings, the number
      of private subnets for the search of a free one.  It is
      part of the definition that models the C function, and the [wp] theorems
      show that it is enough.
    - Results of the operating system (allocation, locks, clocks, random
      numbers, thread creation, files) are arguments of the definitions, so the
      theorems cover every outcome.  [util_strdup_s] aborts the process when it
      fails and is therefore total.
    - A string is a [string], or a [cstr] (CString) where the absence of a
      zero byte matters; [NULL] is [None].
    - A function that holds a mutex from beginning to end is one atomic step.
      Threads are sequences of such steps ([prog] and [pstep] of Threads) or a
      step relation of their own ([sstep] of EventsHandler).

    ** The parts and how they fit together

    Utilities ([utils/cutils]):
    - CString: C strings and [rbtree_str_cmp].
    - RbTree: [map/rb_tree.c], one definition per function, at the level of
      pointers.  RbInv (trees, colours, order), RbRep (how a heap represents a
      tree), RbInsert, RbErase and RbQuery prove the operations; RbCorrect
      states the results: refinement of a finite map, the red-black invariant,
      logarithmic search, iteration, destruction.
    - Map: [map/map.c], the eleven kinds of typed maps over the tree;
      MapCorrect states refinement and the release of all copies.  StrMap is
      the interface that the string-keyed stores of the daemon use, with its
      instances by [map_t].
    - LinkedList: [linked_list.h] over a heap of nodes, and the interface
      [Queue] with its instance.
    - Array, StringUtil, Convert: [utils_array.c], [utils_string.c],
      [utils_convert.c].
    - Regex, Wildcard, Verify: POSIX extended regular expressions as far as the
      code uses them (a parser of patterns and a matcher proved against the
      inductive semantics), [utils_regex.c] and the validators of
      [utils_verify.c].
    - Path: the lexical part of [path.c]: [util_clean_path] against a stack of
      components, and the helpers on path strings.
    - SymlinkScope: the rest of [path.c]: the resolution of symbolic links
      below a root directory, over an interface of file systems
      ([file_system], with [lstat] and [readlink]); the buffer that the code
      edits and enlarges refines a walk over a stack of components.
    - BlockingQueue: [blocking_queue.c] over a heap of nodes, the threads that
      push, pop and wait, and the interface [BQueue] with its instance.
    - IpNet, Ipv6: [utils_network.c]: reading and printing of addresses and
      networks, membership in a network, and the validators; Ipv6 proves the
      printing of IPv6 addresses with their shortened zeros.
    - Filters: [filters.c], sets of values per field over a heap of maps, and
      the exact, regular-expression and label matches, as a map of sets.

    Daemon:
    - IdNameManager: [daemon/common/id_name_manager.c], the registry of ids and
      names, with threads that register at the same time.
    - ContainerState: [daemon/modules/container/container_state.c].
    - ContainersStore: [daemon/modules/container/containers_store.c] with the
      reference counts of [container_unix.c].
    - RestartManager: [daemon/modules/container/restart_manager], its back-off,
      its policies and the restart thread.
    - EventsHandler: [daemon/modules/container/container_events_handler.c]: the
      queue of events of a container, the handling thread and the effect of an
      event on the state and the restart manager.
    - Mailbox: [daemon/mailbox]: messages with reference counts, the queue of
      the topic, its thread and its subscribers, proved against [BQueue].
    - Volume, VolumeCorrect, VolumeInit: [daemon/modules/volume]: the store of
      volumes and their users over the local driver; the specification it
      refines; and the loading of volumes from the disk at the start.
    - GarbageCollector: [daemon/modules/container/container_gc]: the containers
      whose processes must go away, the file that remembers them, and the thread
      that collects them, over the list of LinkedList.
    - HealthCheck: [daemon/modules/container/health_check]: what the results of
      probes do to the health of a container, and the monitor thread with the
      calls that start and stop it.
    - Subnet: the part of [daemon/modules/network/native/adaptor_native.c] that
      compares and chooses subnets and gateways, and the check of a request in
      [daemon/executor/network_cb/network_cb.c].
    - CniConf: [daemon/modules/network/cni_operator]: finding, reading and
      checking the configuration files of a directory.
    - NativeNetwork: the store of networks of [adaptor_native.c] with its
      configuration files and connected containers.  NativeCorrect proves each
      operation against a finite map of networks, NativeHistory sequences of
      them and the separation of networks, and NativeRestart that what is
      written to the directory is what is loaded at the next start.
    - ImageName: [daemon/modules/image/oci/utils_images.c]: hosts, tags and
      digests in references to images and the normal form of a reference.
    - ImageStore, ImageInfo, ImageLoad: [daemon/modules/image/oci/storage/image_store]: the
      store of images with its indices by id, name and digest, its reference
      counts, locks and files; and how the files are loaded at the start.
      ImageInfo: what is told of the data of images and of the images to clients.
      ImageSpec says what the operations do to a map of images; ImageCorrect
      relates a store to it and proves the lookups, ImageChange the creation and
      deletion of images, ImageUpdate the changes of names and ImageData those of
      data; ImageHistory has the theorems on sequences of calls, ImageReport those
      on reading and reports, and ImageRestart that on loading.

    ** What the theorems show

    Refinement: the tree, the typed maps and the list implement finite maps
    and queues for every sequence of calls; the stores of volumes, networks and
    images implement maps with the users, containers or names of their entries.
    Invariants: red-black colouring, consistency of the container state, one
    handling thread per container, reference counts equal to the number of owners,
    files that have what the store has.  Separation: networks have their own
    bridges and addresses whatever was created before.  Safety under interleaving: no id or name is given twice, events are handled in order,
    only one removal is granted, messages are freed once and reach every
    subscriber in order.  Scope: a path resolved below a root stays below it,
    for every file system.  Functional behaviour: what a lookup, an exit
    of a process, a restart policy or a validator answers, errors included.
    Round trips and bounds: splitting and joining, printing and reading
    numbers, addresses and networks, stores and their files over a restart, ranges
    of conversions, the back-off and its deadline.  Theorems
    whose comment speaks of an error state what the code does where that is
    not what it means to do.

    ** Not modelled

    Layers, storage drivers and registries, the running of CNI plugins, runtimes,
    the OCI specification builder, CRI, the gRPC and REST layers and the command
    line clients: they are file systems, processes, generated code or protocols of
    other programs.  Of the store of images, the conversion of images of schema
    version 1 (a parameter of the loading) and the statistics of the file system.
    Of the modelled files, the functions left out are those that use floating
    point ([util_safe_strtod] and the size parser on it) or generated JSON code,
    and destructors whose only effect is to free memory that the model does not
    track. *)
From stdpp Require Import base gmap strings list fin_maps numbers sorting.
From Stdlib Require Import ZArith Lia.

(** ** Machine integers

    A C integer is a [Z]; the operation that can leave its width writes the
    wrap-around out.  A signed overflow is undefined in C: where the code can
    overflow a signed integer the model fails, and a conversion to a signed type
    wraps as gcc does. *)
Declare Scope isulad_scope.
Delimit Scope isulad_scope with isulad.

Definition two32 : Z := 4294967296.
Definition two64 : Z := 18446744073709551616.
Definition INT_MAX : Z := 2147483647.
Definition INT64_MAX : Z := 9223372036854775807.

Definition u32 (z : Z) : Z := (z mod two32)%Z.
Definition u64 (z : Z) : Z := (z mod two64)%Z.
Definition i32 (z : Z) : Z := ((z + 2147483648) mod two32 - 2147483648)%Z.
Definition i64 (z : Z) : Z := ((z + 9223372036854775808) mod two64 - 9223372036854775808)%Z.

Section machine_integers.
Local Open Scope Z_scope.

Lemma u64_small z : 0 <= z < two64 → u64 z = z.
Proof. intros; unfold u64; apply Z.mod_small; lia. Qed.

Lemma u64_range z : 0 <= u64 z < two64.
Proof. unfold u64. apply Z.mod_pos_bound. reflexivity. Qed.

Lemma u32_small z : 0 <= z < two32 → u32 z = z.
Proof. intros; unfold u32; apply Z.mod_small; lia. Qed.

Lemma i32_small z : -2147483648 <= z < 2147483648 → i32 z = z.
Proof. intros; unfold i32, two32 in *. rewrite Z.mod_small; lia. Qed.

Lemma i32_range z : -2147483648 <= i32 z < 2147483648.
Proof.
  unfold i32. pose proof (Z.mod_pos_bound (z + 2147483648) two32 eq_refl).
  unfold two32 in *. lia.
Qed.

Lemma i64_small z : -9223372036854775808 <= z < 9223372036854775808 → i64 z = z.
Proof. intros; unfold i64, two64 in *. rewrite Z.mod_small; lia. Qed.

Lemma i32_u32 z : -2147483648 <= z < 2147483648 → i32 (u32 z) = z.
Proof.
  intros H. unfold i32, u32, two32.
  rewrite Zplus_mod_idemp_l, Z.mod_small; lia.
Qed.
End machine_integers.

(** ** A state monad with failure

    [None] stands for undefined behaviour (a dereference of a pointer that is
    not live) or for a loop that ran out of fuel: a theorem that a computation
    is [Some _] shows that neither happens. *)
Definition M (S A : Type) : Type := S → option (A * S).

#[global] Instance M_ret S : MRet (M S) := λ A a s, Some (a, s).
#[global] Instance M_bind S : MBind (M S) := λ A B k m s,
  match m s with
  | Some (a, s') => k a s'
  | None => None
  end.

Definition fail {S A} : M S A := λ _, None.
Definition get {S} : M S S := λ s, Some (s, s).
Definition modify {S} (f : S → S) : M S unit := λ s, Some (tt, f s).

(** Total-correctness weakest precondition of a computation. *)
Definition wp {S A} (m : M S A) (Q : A → S → Prop) (s : S) : Prop :=
  match m s with
  | Some (a, s') => Q a s'
  | None => False
  end.

Section wp_rules.
Context {S : Type}.

Lemma wp_ret {A} (a : A) (Q : A → S → Prop) s : Q a s → wp (mret a) Q s.
Proof. done. Qed.

Lemma wp_bind {A B} (m : M S A) (k : A → M S B) Q s :
  wp m (λ a s', wp (k a) Q s') s → wp (m ≫= k) Q s.
Proof. unfold wp, mbind, M_bind. by destruct (m s) as [[??]|]. Qed.

Lemma wp_get (Q : S → S → Prop) s : Q s s → wp get Q s.
Proof. done. Qed.

Lemma wp_modify f (Q : unit → S → Prop) s : Q tt (f s) → wp (modify f) Q s.
Proof. done. Qed.

Lemma wp_mono {A} (m : M S A) (P Q : A → S → Prop) s :
  wp m P s → (∀ a s', P a s' → Q a s') → wp m Q s.
Proof. unfold wp. destruct (m s) as [[??]|]; naive_solver. Qed.

Lemma wp_run {A} (m : M S A) (Q : A → S → Prop) s :
  wp m Q s ↔ ∃ a s', m s = Some (a, s') ∧ Q a s'.
Proof. unfold wp. destruct (m s) as [[??]|]; naive_solver. Qed.

(** What is known of the result of a run. *)
Lemma wp_result {A} (m : M S A) (Q : A → S → Prop) s a s' : wp m Q s → m s = Some (a, s') → Q a s'.
Proof. unfold wp. intros HQ E. by rewrite E in HQ. Qed.
End wp_rules.

(** [s ⊨ m ⇓ r s', Q]: from [s] the computation [m] returns some [r] and ends in
    some [s'] with [Q]. *)
Notation "s ⊨ m ⇓ r s' , Q" := (wp m (λ r s', Q) s)
  (at level 199, m at level 99, r binder, s' binder, Q at level 200) : isulad_scope.

(** Rules of [wp] for goals that the syntax of the computation decides. *)
Create HintDb wp.
#[export] Hint Resolve wp_ret wp_get wp_modify : wp.

(** Symbolic execution of the basic operations, up to the next call. *)
Ltac wp_simpl :=
  repeat first [apply wp_bind | apply wp_get | apply wp_modify | apply wp_ret; cbn beta].

(** Apply the specification [H] of a call to the first computation. *)
Ltac wp_call H := try apply wp_bind; eapply wp_mono; [eapply H|]; cbn beta.
