(* ===== verification/CString.v ===== *)
(** * C strings

    A [char *] that the code uses as a string denotes the bytes before its
    terminating NUL: a string without NUL bytes.  Byte comparison is at type
    [char], whose signedness the platform chooses; the definitions that depend
    on it take it as an argument and the theorems hold for both choices. *)
From stdpp Require Import base strings countable numbers list.
From Stdlib Require Import ZArith Lia Ascii.
From S2P Require Import Prelude.

Fixpoint nul_free (s : string) : bool :=
  match s with
  | EmptyString => true
  | String c s => negb (Ascii.eqb c Ascii.zero) && nul_free s
  end.

Record cstr := Cstr { cstr_s : string; cstr_ok : nul_free cstr_s = true }.

#[global] Instance cstr_inj : Inj (=) (=) cstr_s.
Proof. intros [s Hs] [t Ht] E. simpl in E. subst t. f_equal. apply (proof_irrel Hs Ht). Qed.

#[global] Instance cstr_eq_dec : EqDecision cstr := λ s t,
  match decide (cstr_s s = cstr_s t) with
  | left E => left (cstr_inj _ _ E)
  | right N => right (λ E, N (f_equal cstr_s E))
  end.

(** The C string held by a buffer: the bytes before the first NUL. *)
Fixpoint c_bytes (s : string) : string :=
  match s with
  | EmptyString => EmptyString
  | String c s => if Ascii.eqb c Ascii.zero then EmptyString else String c (c_bytes s)
  end.

Lemma c_bytes_ok s : nul_free (c_bytes s) = true.
Proof. induction s as [|c s IH]; simpl; [done|]. destruct (Ascii.eqb c Ascii.zero) eqn:E; simpl; by rewrite ?E. Qed.

Definition cstr_of (s : string) : cstr := Cstr (c_bytes s) (c_bytes_ok s).

Lemma c_bytes_nul_free s : nul_free s = true → c_bytes s = s.
Proof.
  induction s as [|c s IH]; simpl; [done|]. intros [Hc Hs]%andb_true_iff.
  destruct (Ascii.eqb c Ascii.zero); [done|]. by rewrite IH.
Qed.

Lemma cstr_of_s (s : cstr) : cstr_of (cstr_s s) = s.
Proof. apply (inj cstr_s). simpl. apply c_bytes_nul_free, cstr_ok. Qed.

#[global] Program Instance cstr_countable : Countable cstr :=
  inj_countable' cstr_s cstr_of cstr_of_s.

(** The value of a byte read at type [char]. *)
Definition char_val (signed : bool) (c : ascii) : Z :=
  let n := Z.of_N (N_of_ascii c) in if signed && (128 <=? n)%Z then (n - 256)%Z else n.

Lemma N_of_ascii_lt c : (N_of_ascii c < 256)%N.
Proof. apply N_ascii_bounded. Qed.

Lemma char_val_inj signed c d : char_val signed c = char_val signed d → c = d.
Proof.
  unfold char_val. pose proof (N_of_ascii_lt c). pose proof (N_of_ascii_lt d). intros E.
  rewrite <- (ascii_N_embedding c), <- (ascii_N_embedding d). f_equal.
  destruct signed; simpl in E; repeat case_match; lia.
Qed.

(** The byte at the current position: NUL at the end of the string. *)
Definition char_at (signed : bool) (s : string) : Z :=
  match s with EmptyString => 0%Z | String c _ => char_val signed c end.

(** The loop of [rbtree_str_cmp] in [rb_tree.c]. *)
Fixpoint str_cmp_loop (signed : bool) (key1 key2 : string) : Z :=
  let a := char_at signed key1 in
  let b := char_at signed key2 in
  let result := (Z.b2z (b <? a)%Z - Z.b2z (a <? b)%Z)%Z in
  match key1, key2 with
  | String _ key1, String _ key2 =>
    if (a =? 0)%Z || negb (a =? b)%Z then result else str_cmp_loop signed key1 key2
  | _, _ => result
  end.

Definition rbtree_str_cmp (signed : bool) (first last : cstr) : Z :=
  str_cmp_loop signed (cstr_s first) (cstr_s last).

Lemma char_val_nonzero signed c : Ascii.eqb c Ascii.zero = false → char_val signed c ≠ 0%Z.
Proof.
  intros Hc E. apply Ascii.eqb_neq in Hc. apply Hc, (char_val_inj signed). rewrite E. by destruct signed.
Qed.

Lemma str_cmp_cons signed c s d t :
  char_val signed c ≠ 0%Z →
  str_cmp_loop signed (String c s) (String d t) =
  if (char_val signed c =? char_val signed d)%Z then str_cmp_loop signed s t
  else (Z.b2z (char_val signed d <? char_val signed c) - Z.b2z (char_val signed c <? char_val signed d))%Z.
Proof.
  intros Hc. simpl. rewrite (proj2 (Z.eqb_neq _ _) Hc). simpl. by destruct (char_val signed c =? char_val signed d)%Z.
Qed.

(** The heads of NUL-free strings are not zero; case analysis on comparisons. *)
Ltac str_heads signed :=
  repeat match goal with
  | H : nul_free (String _ _) = true |- _ =>
    let Hc := fresh "Hc" in
    simpl in H; apply andb_true_iff in H as [Hc H];
    apply negb_true_iff, (char_val_nonzero signed) in Hc
  end.
Ltac cmp_cases :=
  repeat match goal with
  | |- context [(?a =? ?b)%Z] => destruct (Z.eqb_spec a b)
  | |- context [(?a <? ?b)%Z] => destruct (Z.ltb_spec a b)
  end; simpl in *.

Lemma str_cmp_eq signed s t :
  nul_free s = true → nul_free t = true → str_cmp_loop signed s t = 0%Z ↔ s = t.
Proof.
  revert t. induction s as [|c s IH]; intros [|d t] Hs Ht; str_heads signed.
  - done.
  - split; [|done]. simpl. cmp_cases; lia.
  - split; [|done]. simpl. cmp_cases; lia.
  - rewrite str_cmp_cons by done.
    destruct (Z.eqb_spec (char_val signed c) (char_val signed d)) as [->%char_val_inj|Hne].
    + rewrite IH by done. naive_solver.
    + split; [cmp_cases; lia|]. by intros [= -> ->].
Qed.

Lemma str_cmp_sym signed s t :
  nul_free s = true → nul_free t = true → str_cmp_loop signed t s = (- str_cmp_loop signed s t)%Z.
Proof.
  revert t. induction s as [|c s IH]; intros [|d t] Hs Ht; [done|simpl; lia..|].
  str_heads signed. rewrite !str_cmp_cons by done.
  rewrite Z.eqb_sym. destruct (Z.eqb_spec (char_val signed c) (char_val signed d)); [by apply IH|lia].
Qed.

Lemma str_cmp_trans signed s t u :
  nul_free s = true → nul_free t = true → nul_free u = true →
  (str_cmp_loop signed s t < 0 → str_cmp_loop signed t u < 0 → str_cmp_loop signed s u < 0)%Z.
Proof.
  revert t u. induction s as [|c s IH]; intros [|d t] [|e u] Hs Ht Hu; str_heads signed;
    rewrite ?str_cmp_cons by done; simpl; try (cmp_cases; lia).
  specialize (IH t u). cmp_cases; auto; lia.
Qed.
