(* ===== verification/Regex.v ===== *)
(** * POSIX extended regular expressions

    [util_reg_match] of [src/utils/cutils/utils_regex.c] compiles a pattern
    with [regcomp (REG_EXTENDED | REG_NOSUB)] and runs [regexec].  This file
    models that part of the C library for the patterns of the code base: a
    parser for extended regular expressions in the C locale, a matcher by
    partial derivatives, and its correctness against the usual semantics.  Anchors are
    supported where the patterns have them, at the two ends of the pattern. *)
From stdpp Require Import base list strings numbers.
From Stdlib Require Import ZArith Lia Ascii.
From S2P Require Import Prelude.

Abbreviation chars := (list ascii).
Definition chars_of (s : string) : chars := String.list_ascii_of_string s.

Lemma length_chars_of s : length (chars_of s) = String.length s.
Proof. induction s as [|c s IH]; simpl; [done|by rewrite <- IH]. Qed.

(** A bracket expression: ranges of bytes, possibly negated. *)
Record cls := mk_cls { cls_neg : bool; cls_ranges : list (ascii * ascii) }.

Definition in_range (c : ascii) (r : ascii * ascii) : bool :=
  (N_of_ascii r.1 <=? N_of_ascii c)%N && (N_of_ascii c <=? N_of_ascii r.2)%N.
Definition in_cls (s : cls) (c : ascii) : bool := xorb (cls_neg s) (existsb (in_range c) (cls_ranges s)).

Inductive re :=
| Void
| Eps
| Cls (s : cls)
| Cat (r1 r2 : re)
| Alt (r1 r2 : re)
| Star (r : re).

#[global] Instance cls_eq_dec : EqDecision cls.
Proof. solve_decision. Defined.
#[global] Instance re_eq_dec : EqDecision re.
Proof. solve_decision. Defined.

Definition Any : re := Cls (mk_cls true []).
Definition Lit (c : ascii) : re := Cls (mk_cls false [(c, c)]).
Definition Plus (r : re) : re := Cat r (Star r).
Definition Opt (r : re) : re := Alt Eps r.
Fixpoint upto (n : nat) (r : re) : re :=
  match n with O => Eps | S n => Opt (Cat r (upto n r)) end.
(** [r{m,n}], and [r{m,}] for [None]. *)
Fixpoint Rep (m : nat) (n : option nat) (r : re) : re :=
  match m with
  | O => match n with None => Star r | Some n => upto n r end
  | S m => Cat r (Rep m (option_map pred n) r)
  end.

(** ** Semantics *)
Inductive matches : re → chars → Prop :=
| m_eps : matches Eps []
| m_cls s c : in_cls s c = true → matches (Cls s) [c]
| m_cat r1 r2 s1 s2 : matches r1 s1 → matches r2 s2 → matches (Cat r1 r2) (s1 ++ s2)
| m_alt_l r1 r2 s : matches r1 s → matches (Alt r1 r2) s
| m_alt_r r1 r2 s : matches r2 s → matches (Alt r1 r2) s
| m_star_nil r : matches (Star r) []
| m_star_app r s1 s2 : matches r s1 → matches (Star r) s2 → matches (Star r) (s1 ++ s2).

(** ** Matching by partial derivatives *)
Fixpoint nullable (r : re) : bool :=
  match r with
  | Void | Cls _ => false
  | Eps | Star _ => true
  | Cat r1 r2 => nullable r1 && nullable r2
  | Alt r1 r2 => nullable r1 || nullable r2
  end.

Definition cat (r1 r2 : re) : re := match r1 with Eps => r2 | _ => Cat r1 r2 end.

(** The expressions one of which must match the rest after reading [c]. *)
Fixpoint pderiv (c : ascii) (r : re) : list re :=
  match r with
  | Void | Eps => []
  | Cls s => if in_cls s c then [Eps] else []
  | Cat r1 r2 => ((λ r, cat r r2) <$> pderiv c r1) ++ (if nullable r1 then pderiv c r2 else [])
  | Alt r1 r2 => pderiv c r1 ++ pderiv c r2
  | Star r => (λ r', cat r' (Star r)) <$> pderiv c r
  end.

Fixpoint states_match (rs : list re) (s : chars) : bool :=
  match s with
  | [] => existsb nullable rs
  | c :: s => states_match (remove_dups (rs ≫= pderiv c)) s
  end.

Definition re_match (r : re) (s : chars) : bool := states_match [r] s.

Lemma matches_cat_iff r1 r2 s : matches (Cat r1 r2) s ↔ ∃ s1 s2, s = s1 ++ s2 ∧ matches r1 s1 ∧ matches r2 s2.
Proof. split; [inversion 1; subst; eauto|]. intros (? & ? & -> & ? & ?). by constructor. Qed.
Lemma matches_alt_iff r1 r2 s : matches (Alt r1 r2) s ↔ matches r1 s ∨ matches r2 s.
Proof. split; [inversion 1; subst; eauto|]. intros []; by constructor. Qed.
Lemma matches_eps_iff s : matches Eps s ↔ s = [].
Proof. split; [by inversion 1|]. intros ->. constructor. Qed.
Lemma matches_cls_iff k s : matches (Cls k) s ↔ ∃ c, s = [c] ∧ in_cls k c = true.
Proof. split; [inversion 1; eauto|]. intros (c & -> & ?). by constructor. Qed.
Lemma matches_void s : matches Void s ↔ False.
Proof. split; [inversion 1|done]. Qed.

Lemma matches_cat r1 r2 s : matches (cat r1 r2) s ↔ matches (Cat r1 r2) s.
Proof.
  destruct r1; simpl; try done. rewrite matches_cat_iff. split.
  - intros Hs. exists [], s. split_and!; [done|constructor|done].
  - by intros (? & ? & -> & ->%matches_eps_iff & ?).
Qed.

Lemma nullable_ok r : nullable r = true ↔ matches r [].
Proof.
  induction r; simpl.
  - by rewrite matches_void.
  - by rewrite matches_eps_iff.
  - rewrite matches_cls_iff. split; [done|]. by intros (? & ? & _).
  - rewrite andb_true_iff, IHr1, IHr2, matches_cat_iff. split; [intros []; by exists [], []|].
    intros (s1 & s2 & E & ?). symmetry in E. apply app_nil in E as [-> ->]. done.
  - by rewrite orb_true_iff, IHr1, IHr2, matches_alt_iff.
  - split; [constructor|done].
Qed.

Lemma star_cons_inv r c s :
  matches (Star r) (c :: s) → ∃ s1 s2, s = s1 ++ s2 ∧ matches r (c :: s1) ∧ matches (Star r) s2.
Proof.
  intros H. remember (Star r) as r' eqn:Er. remember (c :: s) as s' eqn:Es.
  induction H; try done. simplify_eq. destruct s1 as [|d s1]; simplify_eq/=; [by apply IHmatches2|].
  by eauto.
Qed.

(** Some expression of the list matches. *)
Definition any_matches (rs : list re) (s : chars) : Prop := ∃ r, r ∈ rs ∧ matches r s.

Lemma any_matches_app rs1 rs2 s : any_matches (rs1 ++ rs2) s ↔ any_matches rs1 s ∨ any_matches rs2 s.
Proof. unfold any_matches. setoid_rewrite elem_of_app. naive_solver. Qed.

Lemma any_matches_cat rs r2 s :
  any_matches ((λ r, cat r r2) <$> rs) s ↔ ∃ s1 s2, s = s1 ++ s2 ∧ any_matches rs s1 ∧ matches r2 s2.
Proof.
  unfold any_matches. setoid_rewrite list_elem_of_fmap. split.
  - intros (? & (r & -> & Hr) & (s1 & s2 & -> & ? & ?)%matches_cat%matches_cat_iff). by eauto 10.
  - intros (s1 & s2 & -> & (r & ? & ?) & ?). exists (cat r r2). split; [by eauto|]. apply matches_cat. by constructor.
Qed.

Lemma pderiv_ok c r s : any_matches (pderiv c r) s ↔ matches r (c :: s).
Proof.
  revert s. induction r; intros s'; simpl.
  - rewrite matches_void. unfold any_matches. setoid_rewrite elem_of_nil. naive_solver.
  - rewrite matches_eps_iff. unfold any_matches. setoid_rewrite elem_of_nil. naive_solver.
  - rewrite matches_cls_iff. unfold any_matches. destruct (in_cls s c) eqn:E.
    + setoid_rewrite list_elem_of_singleton. split.
      * intros (? & -> & ->%matches_eps_iff). by exists c.
      * intros (? & [= -> ->] & _). exists Eps. split; [done|constructor].
    + setoid_rewrite elem_of_nil. split; [by intros (? & ? & _)|]. intros (? & [= -> ->] & ?). congruence.
  - rewrite any_matches_app, any_matches_cat, matches_cat_iff. setoid_rewrite IHr1. split.
    + intros [(s1 & s2 & -> & ? & ?)|Hs]; [by exists (c :: s1), s2|].
      destruct (nullable r1) eqn:E; [|by destruct Hs as (? & ?%elem_of_nil & _)].
      exists [], (c :: s'). split_and!; [done|by apply nullable_ok|by apply IHr2].
    + intros ([|d s1] & s2 & E & H1 & H2); simplify_eq/=; [right|left; by eauto].
      rewrite (proj2 (nullable_ok r1) H1). by apply IHr2.
  - by rewrite any_matches_app, matches_alt_iff, IHr1, IHr2.
  - rewrite any_matches_cat. setoid_rewrite IHr. split.
    + intros (s1 & s2 & -> & ? & ?). change (c :: s1 ++ s2) with ((c :: s1) ++ s2). by constructor.
    + apply star_cons_inv.
Qed.

Lemma states_match_ok rs s : states_match rs s = true ↔ any_matches rs s.
Proof.
  revert rs. induction s as [|c s IH]; intros rs; simpl.
  - rewrite existsb_exists. unfold any_matches. setoid_rewrite nullable_ok. by setoid_rewrite list_elem_of_In.
  - rewrite IH. unfold any_matches. setoid_rewrite elem_of_remove_dups. setoid_rewrite list_elem_of_bind. split.
    + intros (r & (r' & Hr & Hr') & Hs). exists r'. split; [done|]. apply pderiv_ok. by exists r.
    + intros (r & Hr & (r' & ? & ?)%pderiv_ok). by eauto 10.
Qed.

Lemma re_match_ok r s : re_match r s = true ↔ matches r s.
Proof.
  unfold re_match. rewrite states_match_ok. unfold any_matches. setoid_rewrite list_elem_of_singleton. naive_solver.
Qed.

(** ** The pattern parser *)
Definition is_digit (c : ascii) : bool := in_range c ("0", "9")%char.
Definition digit_val (c : ascii) : nat := N.to_nat (N_of_ascii c) - 48.

Fixpoint parse_num (acc : option nat) (s : chars) : option nat * chars :=
  match s with
  | c :: s' => if is_digit c then parse_num (Some (10 * default 0 acc + digit_val c)) s' else (acc, s)
  | [] => (acc, s)
  end.

(** The items of a bracket expression; a [']'] in first position is literal. *)
Fixpoint parse_items (first : bool) (s : chars) : option (list (ascii * ascii) * chars) :=
  match s with
  | [] => None
  | a :: s1 =>
    if Ascii.eqb a "]" && negb first then Some ([], s1)
    else if Ascii.eqb a "[" then None
    else
      match s1 with
      | d :: b :: s3 =>
        if Ascii.eqb d "-" && negb (Ascii.eqb b "]") then
          if (N_of_ascii a <=? N_of_ascii b)%N then
            '(items, rest) ← parse_items false s3; Some ((a, b) :: items, rest)
          else None
        else '(items, rest) ← parse_items false s1; Some ((a, a) :: items, rest)
      | _ => '(items, rest) ← parse_items false s1; Some ((a, a) :: items, rest)
      end
  end.

Definition parse_bracket (s : chars) : option (re * chars) :=
  match s with
  | "^"%char :: s => '(items, rest) ← parse_items true s; Some (Cls (mk_cls true items), rest)
  | _ => '(items, rest) ← parse_items true s; Some (Cls (mk_cls false items), rest)
  end.

(** [{m}], [{m,}] and [{m,n}], after the opening brace. *)
Definition parse_interval (s : chars) : option (nat * option nat * chars) :=
  match parse_num None s with
  | (Some m, "}"%char :: s) => Some (m, Some m, s)
  | (Some m, ","%char :: s) =>
    match parse_num None s with
    | (n, "}"%char :: s) => if default m n <? m then None else Some (m, n, s)
    | _ => None
    end
  | _ => None
  end.

(** The repetition operators after an atom. *)
Fixpoint parse_postfix (fuel : nat) (r : re) (s : chars) : option (re * chars) :=
  match fuel with
  | O => None
  | S fuel =>
    match s with
    | "*"%char :: s => parse_postfix fuel (Star r) s
    | "+"%char :: s => parse_postfix fuel (Plus r) s
    | "?"%char :: s => parse_postfix fuel (Opt r) s
    | "{"%char :: s =>
      match parse_interval s with
      | Some (m, n, s) => parse_postfix fuel (Rep m n r) s
      | None => None
      end
    | _ => Some (r, s)
    end
  end.

(** A backslash before one of these is the character itself; glibc gives other
    escapes a meaning of its own (["\<"] is the start of a word), which no
    pattern of the code base uses. *)
Definition literal_escape (c : ascii) : bool :=
  existsb (Ascii.eqb c) (chars_of "^.[]$()|*+?{}\-/").

(** Characters that end a sequence or cannot start an atom. *)
Definition ends_seq (c : ascii) : bool := existsb (Ascii.eqb c) (chars_of ")|$").
Definition not_atom (c : ascii) : bool := existsb (Ascii.eqb c) (chars_of "^*+?{").

Fixpoint parse_seq (fuel : nat) (s : chars) : option (re * chars) :=
  match fuel with
  | O => None
  | S fuel =>
    match s with
    | [] => Some (Eps, [])
    | c :: s' =>
      if ends_seq c then Some (Eps, s)
      else if not_atom c then None
      else
        '(a, s1) ←
          (if Ascii.eqb c "(" then
             match parse_alt fuel s' with
             | Some (r, ")"%char :: s2) => Some (r, s2)
             | _ => None
             end
           else if Ascii.eqb c "[" then parse_bracket s'
           else if Ascii.eqb c "." then Some (Any, s')
           else if Ascii.eqb c "\" then
             match s' with
             | d :: s2 => if literal_escape d then Some (Lit d, s2) else None
             | [] => None
             end
           else Some (Lit c, s'));
        '(p, s2) ← parse_postfix fuel a s1;
        '(q, s3) ← parse_seq fuel s2;
        Some (match q with Eps => p | _ => Cat p q end, s3)
    end
  end
with parse_alt (fuel : nat) (s : chars) : option (re * chars) :=
  match fuel with
  | O => None
  | S fuel =>
    match parse_seq fuel s with
    | Some (r1, "|"%char :: s1) =>
      '(r2, s2) ← parse_alt fuel s1; Some (Alt r1 r2, s2)
    | other => other
    end
  end.

(** A compiled pattern: the body and whether it is anchored at each end. *)
Record regex := mk_regex { rx_start : bool; rx_body : re; rx_end : bool }.

Definition regcomp (patten : string) : option regex :=
  let s := chars_of patten in
  let fuel := S (S (length s)) in
  let '(start, s) := match s with "^"%char :: s => (true, s) | _ => (false, s) end in
  match parse_seq fuel s with
  | Some (r, []) => Some (mk_regex start r false)
  | Some (r, ["$"%char]) => Some (mk_regex start r true)
  | _ => None
  end.

Definition rx_re (rx : regex) : re :=
  let r := if rx_end rx then rx_body rx else Cat (rx_body rx) (Star Any) in
  if rx_start rx then r else Cat (Star Any) r.

Definition regexec (rx : regex) (str : string) : bool := re_match (rx_re rx) (chars_of str).

(** [util_reg_match]: 0 for a match, 1 for none, -1 for an invalid call. *)
Definition util_reg_match (patten str : option string) : Z :=
  match patten, str with
  | Some patten, Some str =>
    match regcomp patten with
    | None => (-1)%Z
    | Some rx => if regexec rx str then 0%Z else 1%Z
    end
  | _, _ => (-1)%Z
  end.

Lemma regexec_ok rx s : regexec rx s = true ↔ matches (rx_re rx) (chars_of s).
Proof. apply re_match_ok. Qed.

(** ** The languages of the common patterns *)
Lemma matches_star_cls k s : matches (Star (Cls k)) s ↔ Forall (λ c, in_cls k c = true) s.
Proof.
  split.
  - induction s as [|c s IH]; [constructor|].
    intros (s1 & s2 & -> & (d & [= -> ->] & Hd)%matches_cls_iff & Hs)%star_cons_inv. constructor; [done|by apply IH].
  - induction 1 as [|c s Hc Hs IH]; [constructor|]. change (c :: s) with ([c] ++ s). constructor; [by constructor|done].
Qed.

Lemma matches_cls_cat k r s : matches (Cat (Cls k) r) s ↔ ∃ c s', s = c :: s' ∧ in_cls k c = true ∧ matches r s'.
Proof.
  rewrite matches_cat_iff. split.
  - intros (? & s2 & -> & (c & -> & Hc)%matches_cls_iff & Hr). by exists c, s2.
  - intros (c & s' & -> & Hc & Hr). exists [c], s'. split_and!; [done|by constructor|done].
Qed.

Lemma matches_plus_cls k s : matches (Plus (Cls k)) s ↔ s ≠ [] ∧ Forall (λ c, in_cls k c = true) s.
Proof.
  unfold Plus. rewrite matches_cls_cat. setoid_rewrite matches_star_cls. split.
  - intros (c & s' & -> & Hc & Hs). split; [done|by constructor].
  - intros [Hne Hs]. destruct s as [|c s]; [done|]. inversion Hs; subst. by eauto.
Qed.

Lemma matches_upto_cls n k s : matches (upto n (Cls k)) s ↔ length s ≤ n ∧ Forall (λ c, in_cls k c = true) s.
Proof.
  revert s. induction n as [|n IH]; intros s; simpl.
  - rewrite matches_eps_iff. split; [intros ->; by split|]. intros [? _]. destruct s; [done|simpl in *; lia].
  - unfold Opt. rewrite matches_alt_iff, matches_eps_iff, matches_cls_cat. setoid_rewrite IH. split.
    + intros [->|(c & s' & -> & Hc & Hl & Hs)]; [split; [simpl; lia|constructor]|]. split; [simpl; lia|by constructor].
    + intros [Hl Hs]. destruct s as [|c s]; [by left|]. right. inversion Hs; subst. simpl in Hl.
      exists c, s. split_and!; [done|done|lia|done].
Qed.

Lemma matches_rep_cls m n k s :
  m ≤ n → matches (Rep m (Some n) (Cls k)) s ↔ m ≤ length s ≤ n ∧ Forall (λ c, in_cls k c = true) s.
Proof.
  revert n s. induction m as [|m IH]; intros n s Hmn; simpl.
  - rewrite matches_upto_cls. naive_solver lia.
  - rewrite matches_cls_cat. destruct n as [|n]; [lia|]. simpl. setoid_rewrite (IH n); [|lia]. split.
    + intros (c & s' & -> & Hc & Hl & Hs). split; [simpl; lia|by constructor].
    + intros [Hl Hs]. destruct s as [|c s]; [simpl in Hl; lia|]. inversion Hs; subst. simpl in Hl.
      exists c, s. split_and!; [done|done|lia|lia|done].
Qed.
