(* ===== verification/Array.v ===== *)
(** * Growable arrays of [src/utils/cutils/utils_array.c]

    Two kinds of array: NULL-terminated [char **] vectors, and the
    [string_array] / [common_array] records with a length and a capacity.  An
    array is the list of its allocated cells, a [NULL] cell being [None]; an
    access outside the allocated cells fails.  [mem] says whether [calloc]
    succeeds when the size passes the checks of [util_smart_calloc_s]. *)
From stdpp Require Import base list strings numbers.
From Stdlib Require Import ZArith Lia.
From S2P Require Import Prelude.

Local Open Scope Z_scope.

(** The 64-bit limits of [utils.h]. *)
Definition MAX_MEMORY_SIZE : Z := 140737488355328.
Definition PTR_SIZE : Z := 8.

Definition util_smart_calloc_s (mem : bool) (unit_size count : Z) : bool :=
  if unit_size =? 0 then false
  else if MAX_MEMORY_SIZE / unit_size <? count then false
  else mem.

Definition util_common_calloc_s (mem : bool) (size : Z) : bool :=
  if (size =? 0) || (MAX_MEMORY_SIZE <? size) then false else mem.

Section cells.
Context {A : Type}.
Implicit Types (cells : list (option A)).

Definition null_cells (n : Z) : list (option A) := replicate (Z.to_nat n) None.

(** [array[i] = v]; [None] when [i] is outside the allocation. *)
Definition write_cell (i : Z) (v : option A) cells : option (list (option A)) :=
  if (0 <=? i) && (i <? Z.of_nat (length cells)) then Some (<[Z.to_nat i := v]> cells) else None.

(** [memcpy] of the first [n] cells into a fresh array of [size] cells. *)
Definition copy_cells (size n : Z) cells : option (list (option A)) :=
  if (n <=? Z.of_nat (length cells)) && (n <=? size)
  then Some (take (Z.to_nat n) cells ++ null_cells (size - n))
  else None.

(** ** NULL-terminated arrays *)

(** [util_array_len]: the cells before the first [NULL]; reading past the
    allocation fails. *)
Fixpoint cells_len cells : option nat :=
  match cells with
  | [] => None
  | None :: _ => Some 0%nat
  | Some _ :: cells => S <$> cells_len cells
  end.

Definition util_array_len (array : option (list (option A))) : option Z :=
  match array with None => Some 0 | Some cells => Z.of_nat <$> cells_len cells end.

(** [util_array_append]: the new array, or [None] for undefined behaviour. *)
Definition util_array_append (mem : bool) (array : option (list (option A))) (element : option A)
    : option (Z * option (list (option A))) :=
  match element with
  | None => Some (-1, array)
  | Some e =>
    len ← util_array_len array;
    if util_smart_calloc_s mem PTR_SIZE (u64 (len + 2)) then
      new_array ←
        match array with
        | None => Some (null_cells (len + 2))
        | Some cells => copy_cells (len + 2) len cells
        end;
      new_array ← write_cell len (Some e) new_array;
      Some (0, Some new_array)
    else Some (-1, array)
  end.

(** [util_common_array_append_pointer]: the same for arrays of pointers. *)
Definition util_common_array_append_pointer (mem : bool) (array : option (list (option A))) (element : option A)
    : option (Z * option (list (option A))) :=
  match element with
  | None => Some (-1, array)
  | Some e =>
    len ← util_array_len array;
    if two64 - 1 - 2 <? len then Some (-1, array)
    else if util_smart_calloc_s mem PTR_SIZE (u64 (len + 2)) then
      new_array ←
        match array with
        | None => Some (null_cells (len + 2))
        | Some cells => copy_cells (len + 2) len cells
        end;
      new_array ← write_cell len (Some e) new_array;
      Some (0, Some new_array)
    else Some (-1, array)
  end.

(** The loop [while (size + 1 > add_capacity) add_capacity += increment]. *)
Fixpoint grow_loop (fuel : nat) (size add_capacity increment : Z) : option Z :=
  match fuel with
  | O => None
  | S fuel =>
    if add_capacity <? u64 (size + 1)
    then grow_loop fuel size (u64 (add_capacity + increment)) increment
    else Some add_capacity
  end.

(** [util_grow_array]: the return code, the array and its capacity. *)
Definition util_grow_array (mem : bool) (orig_array : option (list (option A))) (orig_capacity size increment : Z)
    : option (Z * option (list (option A)) * Z) :=
  if increment =? 0 then Some (-1, orig_array, orig_capacity) else
  let '(array, capacity) :=
    match orig_array with
    | None => (None, 0)
    | Some _ => if orig_capacity =? 0 then (None, 0) else (orig_array, orig_capacity)
    end in
  add_capacity ← grow_loop (S (S (Z.to_nat (size / increment)))) size capacity increment;
  if add_capacity =? capacity then Some (0, array, capacity)
  else if util_smart_calloc_s mem PTR_SIZE add_capacity then
    add_array ←
      match array with
      | None => Some (null_cells add_capacity)
      | Some cells => copy_cells add_capacity capacity cells
      end;
    Some (0, Some add_array, add_capacity)
  else Some (-1, array, capacity).

(** ** Arrays with a length and a capacity *)

(** [struct string_array_t] and [struct common_array_t]; the items of an array
    that has none are [[]]. *)
Record c_array := mk_array { items : list (option A); len : Z; cap : Z }.

Definition get_array_scale_size (old_size : Z) : Z :=
  let max_threshold := MAX_MEMORY_SIZE / PTR_SIZE in
  if old_size =? 0 then 1
  else if old_size <? 1024 then u64 (Z.shiftl old_size 1)
  else if u64 (max_threshold - Z.shiftr old_size 2) <? old_size then max_threshold
  else u64 (old_size + Z.shiftr old_size 2).

(** [do_expand_array] (and [do_expand_common_array]), with [util_mem_realloc]
    inlined: the cells in use are copied into a larger allocation. *)
Definition do_expand_array (mem : bool) : M c_array bool := λ a,
  let new_size := get_array_scale_size (cap a) in
  if new_size =? cap a then Some (false, a)
  else if util_common_calloc_s mem (u64 (new_size * PTR_SIZE)) then
    match copy_cells new_size (Z.min new_size (len a)) (items a) with
    | Some cells => Some (true, mk_array cells (len a) new_size)
    | None => None
    end
  else Some (false, a).

(** [sarr->items[sarr->len] = val; sarr->len += 1;] *)
Definition put_item (v : A) : M c_array unit := λ a,
  match write_cell (len a) (Some v) (items a) with
  | Some cells => Some (tt, mk_array cells (u64 (len a + 1)) (cap a))
  | None => None
  end.

Definition util_append_string_array (mem : bool) (val : option A) : M c_array Z :=
  match val with
  | None => mret 0
  | Some v =>
    a ← get;
    if len a <? cap a then put_item v;; mret 0
    else
      ok ← do_expand_array mem;
      if (ok : bool) then put_item v;; mret 0 else mret (-1)
  end.

Definition util_string_array_new (mem_rec mem_items : bool) (n : Z) : option c_array :=
  if n =? 0 then None
  else if mem_rec then
    if util_smart_calloc_s mem_items PTR_SIZE n then Some (mk_array (null_cells n) 0 n) else None
  else None.

(** [util_copy_string_array]: the strings of the first [len] cells are
    duplicated into an array of the same capacity. *)
Fixpoint copy_items (l : list (option A)) (a : c_array) : option c_array :=
  match l with
  | [] => Some a
  | None :: _ => None
  | Some v :: l =>
    match put_item v a with
    | Some (_, a) => copy_items l a
    | None => None
    end
  end.

Definition util_copy_string_array (mem_rec mem_items : bool) (sarr : c_array) : option (option c_array) :=
  match util_string_array_new mem_rec mem_items (cap sarr) with
  | None => Some None
  | Some ptr =>
    if len sarr <=? Z.of_nat (length (items sarr))
    then Some <$> copy_items (take (Z.to_nat (len sarr)) (items sarr)) ptr
    else None
  end.

(** [util_merge_common_array]: appends every item of [src_arr]; stops at the
    first failure, keeping what was appended. *)
Fixpoint merge_items (mem : nat → bool) (l : list (option A)) : M c_array Z :=
  match l with
  | [] => mret 0
  | v :: l =>
    r ← util_append_string_array (mem (length l)) v;
    if r =? 0 then merge_items mem l else mret (-1)
  end.

Definition util_merge_common_array (mem : nat → bool) (src : c_array) : M c_array Z :=
  merge_items mem (take (Z.to_nat (len src)) (items src)).
End cells.
Arguments c_array _ : clear implicits.

Definition util_array_contain (array : option (list (option string))) (element : option string) : option bool :=
  match array, element with
  | Some cells, Some e => n ← cells_len cells; Some (bool_decide (Some e ∈ take n cells))
  | _, _ => Some false
  end.

Definition util_string_array_contain (sarr : option (c_array string)) (elem : option string) : bool :=
  match sarr, elem with
  | Some a, Some e => bool_decide (Some e ∈ take (Z.to_nat (len a)) (items a))
  | _, _ => false
  end.

Section array_proofs.
Context {A : Type}.
Implicit Types (a : c_array A) (cells : list (option A)).

Definition max_items : Z := MAX_MEMORY_SIZE / PTR_SIZE.

Lemma max_items_eq : max_items = 17592186044416.
Proof. done. Qed.

(** The type invariant: [cap] cells are allocated and the first [len] of them
    are in use. *)
Record wf_array a : Prop := {
  wa_len : 0 ≤ len a ≤ cap a;
  wa_cap : cap a ≤ max_items;
  wa_items : Z.of_nat (length (items a)) = cap a;
  wa_used : Forall is_Some (take (Z.to_nat (len a)) (items a))
}.

(** The items in use. *)
Definition used a : list A := omap id (take (Z.to_nat (len a)) (items a)).

Lemma get_array_scale_size_grows n :
  0 ≤ n ≤ max_items → n ≤ get_array_scale_size n ≤ max_items ∧ (n < max_items → n < get_array_scale_size n).
Proof.
  unfold get_array_scale_size, max_items, MAX_MEMORY_SIZE, PTR_SIZE. intros Hn.
  change (140737488355328 / 8) with 17592186044416 in *.
  rewrite Z.shiftl_mul_pow2, Z.shiftr_div_pow2 by lia. change (2 ^ 1) with 2. change (2 ^ 2) with 4.
  pose proof (Z.div_mod n 4 ltac:(lia)). pose proof (Z.mod_pos_bound n 4 ltac:(lia)).
  destruct (Z.eqb_spec n 0); [lia|]. destruct (Z.ltb_spec n 1024); [rewrite u64_small; unfold two64; lia|].
  rewrite (u64_small (_ - _)) by (unfold two64; lia).
  destruct (Z.ltb_spec (17592186044416 - n / 4) n); [lia|].
  rewrite u64_small by (unfold two64; lia). lia.
Qed.

Lemma copy_cells_ok size n cells :
  0 ≤ n ≤ size → n ≤ Z.of_nat (length cells) →
  ∃ cells', copy_cells size n cells = Some cells' ∧ Z.of_nat (length cells') = size ∧
    take (Z.to_nat n) cells' = take (Z.to_nat n) cells ∧ drop (Z.to_nat n) cells' = null_cells (size - n).
Proof.
  intros Hn Hc. unfold copy_cells. rewrite (proj2 (Z.leb_le _ _) Hc), (proj2 (Z.leb_le n size)) by lia. simpl.
  assert (Hl : length (take (Z.to_nat n) cells) = Z.to_nat n) by (rewrite length_take; lia).
  eexists. split; [done|]. split_and!.
  - unfold null_cells. rewrite length_app, Hl, length_replicate. lia.
  - by rewrite <- Hl at 1; rewrite take_app_length.
  - rewrite <- Hl at 1. by rewrite drop_app_length.
Qed.

Lemma do_expand_array_ok mem a :
  wf_array a →
  wp (do_expand_array mem) (λ b a', wf_array a' ∧ used a' = used a ∧ (b = true → len a' < cap a') ∧
    (mem = true → cap a < max_items → b = true)) a ∨ len a < cap a.
Proof.
  intros [Hl Hc Hi Hu]. destruct (Z.lt_ge_cases (len a) (cap a)) as [|Hfull]; [by right|left].
  unfold wp, do_expand_array. pose proof (get_array_scale_size_grows (cap a)) as [Hs Hs']; [lia|].
  destruct (Z.eqb_spec (get_array_scale_size (cap a)) (cap a)) as [E|E].
  { split_and!; [by split|done|done|lia]. }
  assert (Hcap : cap a < max_items) by lia. specialize (Hs' Hcap).
  assert (Hz : u64 (get_array_scale_size (cap a) * PTR_SIZE) = get_array_scale_size (cap a) * 8).
  { apply u64_small. rewrite max_items_eq in *. unfold PTR_SIZE, two64. lia. }
  destruct (util_common_calloc_s mem (u64 (get_array_scale_size (cap a) * PTR_SIZE))) eqn:Ec.
  - rewrite Z.min_r by lia.
    destruct (copy_cells_ok (get_array_scale_size (cap a)) (len a) (items a)) as (cells & -> & H1 & H2 & H3); [lia..|].
    unfold used. simpl. rewrite H2. split_and!; [|done|lia|done]. split; simpl; [lia|lia|done|by rewrite H2].
  - split_and!; [by split|done|done|]. intros -> _. exfalso. unfold util_common_calloc_s in Ec. rewrite Hz in Ec.
    destruct (_ || _) eqn:Eo; [|done]. apply orb_true_iff in Eo as [Eo%Z.eqb_eq|Eo%Z.ltb_lt].
    + lia.
    + rewrite max_items_eq in *. unfold MAX_MEMORY_SIZE in *. lia.
Qed.

Lemma put_item_ok v a :
  wf_array a → len a < cap a → wp (put_item v) (λ _ a', wf_array a' ∧ used a' = used a ++ [v] ∧ cap a' = cap a) a.
Proof.
  intros [Hl Hc Hi Hu] Hlt. unfold wp, put_item, write_cell.
  rewrite (proj2 (Z.leb_le _ _)), (proj2 (Z.ltb_lt _ _)) by lia. simpl.
  assert (Hsz : u64 (len a + 1) = len a + 1).
  { apply u64_small. rewrite max_items_eq in *. unfold PTR_SIZE, two64. lia. }
  assert (Ht : take (Z.to_nat (len a + 1)) (<[Z.to_nat (len a):=Some v]> (items a)) =
               take (Z.to_nat (len a)) (items a) ++ [Some v]).
  { rewrite Z2Nat.inj_add, Nat.add_1_r by lia. rewrite (take_S_r _ _ (Some v)).
    - by rewrite take_insert_ge by lia.
    - apply list_lookup_insert_eq. lia. }
  split_and!; [|unfold used; simpl; rewrite Hsz, Ht; by rewrite omap_app|done].
  split; simpl; rewrite ?length_insert, ?Hsz, ?Ht; [lia|done|done|]. apply Forall_app. split; [done|]. repeat constructor. by eexists.
Qed.

Lemma util_append_string_array_ok mem v a :
  wf_array a →
  wp (util_append_string_array mem (Some v))
     (λ r a', wf_array a' ∧ (r = 0 ∧ used a' = used a ++ [v] ∨ r = -1 ∧ used a' = used a) ∧
        (mem = true → len a < max_items → r = 0)) a.
Proof.
  intros Ha. unfold util_append_string_array. apply wp_bind, wp_get.
  destruct (Z.ltb_spec (len a) (cap a)) as [Hlt|Hge].
  - apply wp_bind. eapply wp_mono; [by apply put_item_ok|]. intros [] a' (? & ? & _). apply wp_ret. by auto.
  - apply wp_bind. destruct (do_expand_array_ok mem a Ha) as [Hx|]; [|lia].
    eapply wp_mono; [exact Hx|]. intros [] a1 (Ha1 & Hu1 & Hb & Hm).
    + apply wp_bind. eapply wp_mono; [apply put_item_ok; auto|]. intros [] a' (? & Hu & _). apply wp_ret.
      rewrite Hu, Hu1. by auto.
    + apply wp_ret. split_and!; [done|by auto|]. intros -> Hlt. destruct Ha as [Hl _ _ _].
      specialize (Hm eq_refl). assert (cap a < max_items) by lia. by specialize (Hm H).
Qed.

(** ** NULL-terminated arrays *)

(** [vector array l]: the strings of [array] before its first [NULL] are [l]. *)
Definition vector (array : option (list (option A))) (l : list A) : Prop :=
  match array with
  | None => l = []
  | Some cells => ∃ rest, cells = (Some <$> l) ++ None :: rest
  end.

Lemma cells_len_app l rest : cells_len ((Some <$> l) ++ None :: rest : list (option A)) = Some (length l).
Proof. induction l as [|x l IH]; [done|]. rewrite fmap_cons. simpl. by rewrite IH. Qed.

Lemma util_array_len_vector array (l : list A) : vector array l → util_array_len array = Some (Z.of_nat (length l)).
Proof. destruct array as [cells|]; [intros [rest ->]|intros ->]; simpl; [by rewrite cells_len_app|done]. Qed.

Lemma null_cells_S n : 0 ≤ n → null_cells (A:=A) (n + 1) = None :: null_cells n.
Proof. intros Hn. unfold null_cells. by rewrite Z2Nat.inj_add, Nat.add_1_r by lia. Qed.

Lemma write_cell_app (l : list (option A)) v x rest :
  write_cell (Z.of_nat (length l)) v (l ++ x :: rest) = Some (l ++ v :: rest).
Proof.
  unfold write_cell. rewrite length_app. simpl.
  rewrite (proj2 (Z.leb_le _ _)), (proj2 (Z.ltb_lt _ _)) by lia. simpl.
  rewrite Nat2Z.id. rewrite insert_app_r_alt by lia. by rewrite Nat.sub_diag.
Qed.

Lemma util_array_append_ok mem array (l : list A) e :
  vector array l → Z.of_nat (length l) + 2 ≤ max_items →
  util_array_append mem array (Some e) =
  Some (if mem then (0, Some ((Some <$> (l ++ [e])) ++ [None])) else (-1, array)).
Proof.
  intros Hv Hl. unfold util_array_append. rewrite (util_array_len_vector _ _ Hv). simpl.
  assert (Hc : util_smart_calloc_s mem PTR_SIZE (u64 (Z.of_nat (length l) + 2)) = mem).
  { unfold util_smart_calloc_s. rewrite u64_small by (rewrite max_items_eq in *; unfold two64; lia).
    change (MAX_MEMORY_SIZE / PTR_SIZE) with max_items. by rewrite (proj2 (Z.ltb_ge _ _)) by lia. }
  rewrite Hc. destruct mem; [|done].
  assert (Hcopy : match array with None => Some (null_cells (Z.of_nat (length l) + 2))
    | Some cells => copy_cells (Z.of_nat (length l) + 2) (Z.of_nat (length l)) cells end
    = Some ((Some <$> l) ++ [None; None])).
  { destruct array as [cells|]; [destruct Hv as [rest ->]|simpl in Hv; by subst].
    unfold copy_cells. rewrite length_app, length_fmap. simpl.
    rewrite !(proj2 (Z.leb_le _ _)) by lia. simpl. rewrite Nat2Z.id.
    rewrite take_app_le, take_ge by (rewrite length_fmap; lia).
    by replace (Z.of_nat (length l) + 2 - Z.of_nat (length l)) with 2 by lia. }
  rewrite Hcopy. simpl. rewrite <- (length_fmap Some l) at 1. rewrite write_cell_app. simpl.
  by rewrite fmap_app, <- app_assoc.
Qed.

(** [util_grow_array] from an array of [capacity] cells: afterwards there is
    room for [size] elements and a final [NULL], the old cells are kept, and
    the new ones are [NULL]. *)
Lemma grow_loop_ok fuel size c inc :
  0 < inc → 0 ≤ c → 0 ≤ size → size + inc < two64 - 1 → c ≤ size + inc →
  Z.of_nat fuel * inc + c > size + inc →
  ∃ c', grow_loop fuel size c inc = Some c' ∧ c ≤ c' ∧ size < c' ∧ (c' = c ∨ c' ≤ size + inc).
Proof.
  revert c. induction fuel as [|fuel IH]; intros c Hi Hc Hs Hb Hcb Hf; [lia|]. simpl.
  rewrite (u64_small (size + 1)) by lia. destruct (Z.ltb_spec c (size + 1)).
  - rewrite (u64_small (c + inc)) by lia. destruct (IH (c + inc)) as (c' & -> & ? & ? & ?); [lia..|].
    exists c'. split; [done|]. lia.
  - exists c. split; [done|]. lia.
Qed.

Lemma util_grow_array_ok mem cells size inc :
  0 < inc → 0 ≤ size → size + inc ≤ max_items → Z.of_nat (length cells) ≤ size + inc →
  let array := if decide (cells = []) then None else Some cells in
  ∃ r array' c', util_grow_array mem array (Z.of_nat (length cells)) size inc = Some (r, array', c') ∧
    (r = 0 ∧ (∃ cells', array' = Some cells' ∧ Z.of_nat (length cells') = c' ∧ size < c' ≤ size + inc ∧
                 ∃ n, 0 ≤ n ∧ cells' = cells ++ null_cells n) ∨
     r = -1 ∧ mem = false ∧ array' = array ∧ c' = Z.of_nat (length cells)).
Proof.
  intros Hi Hs Hb Hc. rewrite max_items_eq in Hb.
  assert (Hfuel : Z.of_nat (S (S (Z.to_nat (size / inc)))) * inc + Z.of_nat (length cells) > size + inc).
  { pose proof (Z.div_mod size inc ltac:(lia)). pose proof (Z.mod_pos_bound size inc ltac:(lia)).
    assert (0 ≤ size / inc) by (apply Z.div_pos; lia). nia. }
  destruct (grow_loop_ok _ size (Z.of_nat (length cells)) inc Hi ltac:(lia) Hs ltac:(unfold two64; lia) Hc Hfuel)
    as (c' & Hg & Hge & Hlt & Hub).
  assert (Hsm : util_smart_calloc_s mem PTR_SIZE c' = mem).
  { unfold util_smart_calloc_s. change (MAX_MEMORY_SIZE / PTR_SIZE) with 17592186044416.
    by rewrite (proj2 (Z.ltb_ge _ _)) by lia. }
  unfold util_grow_array. rewrite (proj2 (Z.eqb_neq inc 0)) by lia.
  remember (S (S (Z.to_nat (size / inc)))) as fuel eqn:Ef.
  destruct (decide (cells = [])) as [->|Hne].
  - change (Z.of_nat (length [])) with 0 in *. simpl. rewrite Hg. simpl. rewrite (proj2 (Z.eqb_neq c' 0)) by lia. rewrite Hsm.
    destruct mem; [|eexists _, _, _; split; [done|]; right; by split_and!]. eexists _, _, _. split; [done|]. left. split; [done|].
    eexists. split; [done|]. unfold null_cells. rewrite length_replicate. split; [lia|]. split; [lia|]. exists c'. split; [lia|done].
  - assert (0 < Z.of_nat (length cells)) by (destruct cells; [done|simpl; lia]).
    rewrite (proj2 (Z.eqb_neq (Z.of_nat (length cells)) 0)) by lia. rewrite Hg. simpl.
    destruct (Z.eqb_spec c' (Z.of_nat (length cells))) as [->|Hd].
    + eexists _, _, _. split; [done|]. left. split; [done|]. exists cells. split_and!; [done|done|lia|lia|].
      exists 0. split; [lia|]. by rewrite app_nil_r.
    + rewrite Hsm. destruct mem; [|eexists _, _, _; split; [done|]; right; by split_and!].
      destruct (copy_cells_ok c' (Z.of_nat (length cells)) cells) as (cells' & -> & H1 & H2 & H3); [lia..|].
      eexists _, _, _. split; [done|]. left. split; [done|]. exists cells'. split_and!; [done|done|lia|lia|].
      exists (c' - Z.of_nat (length cells)). split; [lia|]. rewrite Nat2Z.id in *.
      rewrite <- (take_drop (length cells) cells'), H2, H3. by rewrite take_ge by lia.
Qed.
End array_proofs.
