(* ===== verification/Convert.v ===== *)
(** * Number conversion of [src/utils/cutils/utils_convert.c]

    [strtol], [strtoul] and their [long long] variants as the C library defines
    them for 64-bit [long] and the C locale, the checked conversions built on
    them, and the printers [util_uint_to_string] and [util_int_to_string]. *)
From stdpp Require Import base list strings numbers.
From Stdlib Require Import ZArith Lia Ascii.
From S2P Require Import Prelude CString Regex.

Local Open Scope Z_scope.

(** ** [ctype.h] in the C locale *)
Definition byte (c : ascii) : Z := Z.of_N (N_of_ascii c).
Definition isspace (c : ascii) : bool := (byte c =? 32) || ((9 <=? byte c) && (byte c <=? 13)).
Definition isdigit (c : ascii) : bool := (48 <=? byte c) && (byte c <=? 57).
Definition tolower (c : ascii) : ascii :=
  if (65 <=? byte c) && (byte c <=? 90) then ascii_of_N (N_of_ascii c + 32) else c.
Definition toupper (c : ascii) : ascii :=
  if (97 <=? byte c) && (byte c <=? 122) then ascii_of_N (N_of_ascii c - 32) else c.

Definition EINVAL : Z := 22.
Definition ERANGE : Z := 34.
Definition ENOMEM : Z := 12.
Definition LONG_MAX : Z := 9223372036854775807.
Definition LONG_MIN : Z := -9223372036854775808.
Definition ULONG_MAX : Z := 18446744073709551615.
Definition UINT_MAX : Z := 4294967295.
Definition INT_MIN : Z := -2147483648.

(** ** The [strto*] family *)
Fixpoint skip_space (s : chars) : chars :=
  match s with
  | c :: s' => if isspace c then skip_space s' else s
  | [] => []
  end.

Definition digit_value (c : ascii) : option Z :=
  let b := byte c in
  if (48 <=? b) && (b <=? 57) then Some (b - 48)
  else if (97 <=? b) && (b <=? 122) then Some (b - 87)
  else if (65 <=? b) && (b <=? 90) then Some (b - 55)
  else None.

Definition digit_in (base : Z) (c : ascii) : option Z :=
  match digit_value c with Some d => if d <? base then Some d else None | None => None end.

(** The longest run of digits: its value and what follows. *)
Fixpoint read_digits (base acc : Z) (s : chars) : Z * chars :=
  match s with
  | c :: s' =>
    match digit_in base c with
    | Some d => read_digits base (acc * base + d) s'
    | None => (acc, s)
    end
  | [] => (acc, [])
  end.

(** The prefix of the subject sequence and the base it selects. *)
Definition select_base (base : Z) (s : chars) : Z * chars :=
  match s with
  | "0"%char :: x :: d :: s' =>
    if ((base =? 0) || (base =? 16)) && ((x =? "x")%char || (x =? "X")%char) && bool_decide (is_Some (digit_in 16 d))
    then (16, d :: s')
    else if base =? 0 then (8, s) else (base, s)
  | "0"%char :: _ => if base =? 0 then (8, s) else (base, s)
  | _ => if base =? 0 then (10, s) else (base, s)
  end.

(** Sign, magnitude and remaining characters; [None] when no digit follows. *)
Definition scan (base : Z) (s : chars) : option (bool * Z * chars) :=
  let s := skip_space s in
  let '(neg, s) :=
    match s with
    | "-"%char :: s => (true, s)
    | "+"%char :: s => (false, s)
    | _ => (false, s)
    end in
  let '(base, s) := select_base base s in
  match s with
  | c :: _ =>
    if bool_decide (is_Some (digit_in base c))
    then let '(v, rest) := read_digits base 0 s in Some (neg, v, rest)
    else None
  | [] => None
  end.

(** The value, whether [ERANGE] is raised, and [err_str]: [None] when it is the
    start of the string, and otherwise the characters it points to. *)
Definition strtol (base : Z) (s : string) : Z * bool * option chars :=
  match scan base (chars_of s) with
  | None => (0, false, None)
  | Some (neg, v, rest) =>
    let v := if (neg : bool) then - v else v in
    if LONG_MAX <? v then (LONG_MAX, true, Some rest)
    else if v <? LONG_MIN then (LONG_MIN, true, Some rest)
    else (v, false, Some rest)
  end.

Definition strtoul (base : Z) (s : string) : Z * bool * option chars :=
  match scan base (chars_of s) with
  | None => (0, false, None)
  | Some (neg, v, rest) =>
    if ULONG_MAX <? v then (ULONG_MAX, true, Some rest)
    else (u64 (if (neg : bool) then - v else v), false, Some rest)
  end.

(** ** The checked conversions: [inl] is the (negative) return code *)
Definition is_invalid_error_str (err_str : option chars) : bool :=
  match err_str with Some [] => false | _ => true end.

Definition util_safe_u16 (numstr : option string) : Z + Z :=
  match numstr with
  | None => inl (- EINVAL)
  | Some numstr =>
    let '(ui, range, err_str) := strtoul 0 numstr in
    if range : bool then inl (- ERANGE)
    else if is_invalid_error_str err_str then inl (- EINVAL)
    else if 65535 <? ui then inl (- ERANGE)
    else inr ui
  end.

Definition util_safe_int (num_str : option string) : Z + Z :=
  match num_str with
  | None => inl (- EINVAL)
  | Some num_str =>
    let '(li, range, err_str) := strtol 0 num_str in
    if range : bool then inl (- ERANGE)
    else if is_invalid_error_str err_str then inl (- EINVAL)
    else if (INT_MAX <? li) || (li <? INT_MIN) then inl (- ERANGE)
    else inr li
  end.

Definition util_safe_uint (numstr : option string) : Z + Z :=
  match numstr with
  | None => inl (- EINVAL)
  | Some numstr =>
    let '(ull, range, err_str) := strtoul 0 numstr in
    if range : bool then inl (- ERANGE)
    else if is_invalid_error_str err_str then inl (- EINVAL)
    else if UINT_MAX <? ull then inl (- ERANGE)
    else inr ull
  end.

Definition util_safe_uint64 (numstr : option string) : Z + Z :=
  match numstr with
  | None => inl (- EINVAL)
  | Some numstr =>
    let '(ull, range, err_str) := strtoul 0 numstr in
    if range : bool then inl (- ERANGE)
    else if is_invalid_error_str err_str then inl (- EINVAL)
    else inr ull
  end.

Definition util_parse_octal_uint32 (numstr : option string) : Z + Z :=
  match numstr with
  | None => inl (- EINVAL)
  | Some numstr =>
    let '(ll, range, err_str) := strtol 8 numstr in
    if range : bool then inl (- ERANGE)
    else if is_invalid_error_str err_str || (ll <? 0) || (UINT_MAX <? ll) then inl (- EINVAL)
    else inr ll
  end.

Definition util_safe_llong (numstr : option string) : Z + Z :=
  match numstr with
  | None => inl (- EINVAL)
  | Some numstr =>
    let '(ll, range, err_str) := strtol 0 numstr in
    if range : bool then inl (- ERANGE)
    else if is_invalid_error_str err_str then inl (- EINVAL)
    else inr ll
  end.

Definition is_valid_str_bool_true (str : string) : bool :=
  bool_decide (str ∈ ["1"; "t"; "T"; "true"; "TRUE"; "True"]%string).
Definition is_valid_str_bool_false (str : string) : bool :=
  bool_decide (str ∈ ["0"; "f"; "F"; "false"; "FALSE"; "False"]%string).

Definition util_str_to_bool (boolstr : option string) : Z + bool :=
  match boolstr with
  | None => inl (- EINVAL)
  | Some s =>
    if is_valid_str_bool_true s then inr true
    else if is_valid_str_bool_false s then inr false
    else inl (- EINVAL)
  end.

(** ** Printing *)
Definition digit_char (d : Z) : ascii := ascii_of_N (Z.to_N (d + 48)).

(** The digits of [n], most significant first, before [acc]. *)
Fixpoint print_digits (fuel : nat) (n : Z) (acc : chars) : chars :=
  match fuel with
  | O => acc
  | S fuel =>
    let acc := digit_char (n mod 10) :: acc in
    if n <? 10 then acc else print_digits fuel (n / 10) acc
  end.

(** [snprintf] of [%llu] and [%lld]: 20 digits are enough for 64 bits. *)
Definition fmt_llu (n : Z) : chars := print_digits 20 n [].
Definition fmt_lld (n : Z) : chars := if n <? 0 then "-"%char :: fmt_llu (- n) else fmt_llu n.

Definition hex_digit (n : Z) : ascii :=
  ascii_of_N (Z.to_N (if (n <? 10) then (48 + n) else (87 + n))).

(** What the format [%02x] prints for a byte. *)
Definition fmt_02x (rs : Z) : chars := [hex_digit (rs / 16); hex_digit (rs mod 16)].

Definition MAX_NUM_STR_LEN : Z := 21.

Definition to_string_of (s : chars) : option string :=
  if MAX_NUM_STR_LEN <=? Z.of_nat (length s) then None else Some (String.string_of_list_ascii s).

Definition util_uint_to_string (data : Z) : option string := to_string_of (fmt_llu data).
Definition util_int_to_string (data : Z) : option string := to_string_of (fmt_lld data).

(** ** Printing and reading back *)
Lemma digit_cases d : 0 ≤ d < 10 → d ∈ [0; 1; 2; 3; 4; 5; 6; 7; 8; 9].
Proof. intros Hd. rewrite !elem_of_cons. lia. Qed.

(** A property of the ten digits, by evaluation. *)
Ltac digits Hd := apply digit_cases in Hd; repeat (apply elem_of_cons in Hd as [->|Hd]; [reflexivity|]); by apply elem_of_nil in Hd.

Lemma digit_in_char d : 0 ≤ d < 10 → digit_in 10 (digit_char d) = Some d.
Proof. intros Hd. digits Hd. Qed.

Lemma isdigit_char d : 0 ≤ d < 10 → isdigit (digit_char d) = true.
Proof. intros Hd. digits Hd. Qed.

Lemma print_digits_spec fuel n acc :
  0 ≤ n < 10 ^ Z.of_nat fuel →
  (0 < fuel)%nat →
  ∃ d ds, print_digits fuel n acc = digit_char d :: ds ++ acc ∧ (S (length ds) ≤ fuel)%nat ∧ 0 ≤ d < 10 ∧
    (n = 0 → ds = []) ∧ (0 < n → 0 < d) ∧ Forall (λ c, isdigit c = true) ds ∧
    ∀ a rest, read_digits 10 a (digit_char d :: ds ++ rest) =
              read_digits 10 (a * 10 ^ Z.of_nat (S (length ds)) + n) rest.
Proof.
  revert n acc. induction fuel as [|fuel IH]; intros n acc Hn Hf; [lia|]. simpl print_digits.
  rewrite Nat2Z.inj_succ, Z.pow_succ_r in Hn by lia.
  destruct (Z.ltb_spec n 10) as [Hlt|Hge].
  - exists n, []. rewrite Z.mod_small by lia. split_and!; [done|simpl; lia|lia|lia|done|lia|constructor|].
    intros a rest. simpl. by rewrite digit_in_char by lia.
  - pose proof (Z.div_mod n 10 ltac:(lia)). pose proof (Z.mod_pos_bound n 10 ltac:(lia)).
    destruct (IH (n / 10) (digit_char (n mod 10) :: acc)) as (d & ds & -> & Hl & Hd & _ & Hd0 & Hds & Hr).
    { split; [apply Z.div_pos; lia|]. apply Z.div_lt_upper_bound; lia. }
    { destruct fuel; [simpl in Hn; lia|lia]. }
    exists d, (ds ++ [digit_char (n mod 10)]). rewrite <- app_assoc, length_app. cbn [length app].
    split_and!; [done|lia|lia|lia|lia|intros _; apply Hd0; lia| |].
    + apply Forall_app. split; [done|]. constructor; [by apply isdigit_char|constructor].
    + intros a rest. rewrite <- app_assoc. rewrite Hr. simpl. rewrite digit_in_char by lia. f_equal.
      rewrite Nat.add_1_r, !Nat2Z.inj_succ, !Z.pow_succ_r by lia. lia.
Qed.

Lemma print_digits_fuel fuel fuel' n acc :
  0 ≤ n < 10 ^ Z.of_nat fuel → (0 < fuel ≤ fuel')%nat → print_digits fuel' n acc = print_digits fuel n acc.
Proof.
  revert fuel' n acc. induction fuel as [|fuel IH]; intros [|fuel'] n acc Hn Hf; [lia..|]. simpl.
  rewrite Nat2Z.inj_succ, Z.pow_succ_r in Hn by lia. destruct (Z.ltb_spec n 10); [done|].
  apply IH; [|destruct fuel; [simpl in Hn|]; lia].
  split; [apply Z.div_pos; lia|]. apply Z.div_lt_upper_bound; lia.
Qed.

Lemma fmt_llu_spec n :
  0 ≤ n ≤ ULONG_MAX →
  ∃ d ds, fmt_llu n = digit_char d :: ds ∧ (length ds < 20)%nat ∧ 0 ≤ d < 10 ∧ (n = 0 → ds = []) ∧ (0 < n → 0 < d) ∧
    read_digits 10 0 (digit_char d :: ds) = (n, []).
Proof.
  intros Hn. destruct (print_digits_spec 20 n []) as (d & ds & Hp & Hl & Hd & H0 & Hd0 & _ & Hr).
  { unfold ULONG_MAX in Hn. change (10 ^ Z.of_nat 20) with 100000000000000000000. lia. }
  { lia. }
  exists d, ds. unfold fmt_llu. rewrite Hp, app_nil_r. split_and!; [done|lia|lia|lia|done|done|].
  specialize (Hr 0 []). rewrite app_nil_r in Hr. rewrite Hr. simpl. done.
Qed.

(** A printed number is read back, in the base [0] the code uses. *)
Lemma scan_digits d ds :
  0 < d < 10 →
  scan 0 (digit_char d :: ds) =
    (let '(v, rest) := read_digits 10 0 (digit_char d :: ds) in Some (false, v, rest)) ∧
  scan 0 ("-"%char :: digit_char d :: ds) =
    (let '(v, rest) := read_digits 10 0 (digit_char d :: ds) in Some (true, v, rest)).
Proof.
  intros Hd. assert (Hd' : 0 ≤ d < 10) by lia.
  apply digit_cases, elem_of_cons in Hd' as [->|Hd']; [lia|].
  repeat (apply elem_of_cons in Hd' as [->|Hd']; [split; reflexivity|]). by apply elem_of_nil in Hd'.
Qed.

Lemma scan_fmt n : 0 ≤ n ≤ ULONG_MAX → scan 0 (fmt_llu n) = Some (false, n, []).
Proof.
  intros Hn. destruct (decide (n = 0)) as [->|Hne]; [done|].
  destruct (fmt_llu_spec n Hn) as (d & ds & -> & _ & Hd & _ & Hd0 & Hr).
  pose proof (scan_digits d ds ltac:(lia)) as Hs. rewrite Hr in Hs. apply Hs.
Qed.

Lemma scan_fmt_neg n : 0 < n ≤ ULONG_MAX → scan 0 ("-"%char :: fmt_llu n) = Some (true, n, []).
Proof.
  intros Hn. destruct (fmt_llu_spec n ltac:(lia)) as (d & ds & -> & _ & Hd & _ & Hd0 & Hr).
  pose proof (scan_digits d ds ltac:(lia)) as Hs. rewrite Hr in Hs. apply Hs.
Qed.

Lemma chars_of_string s : chars_of (String.string_of_list_ascii s) = s.
Proof. apply String.list_ascii_of_string_of_list_ascii. Qed.

Lemma util_uint_to_string_ok n :
  0 ≤ n ≤ ULONG_MAX → ∃ s, util_uint_to_string n = Some s ∧ chars_of s = fmt_llu n.
Proof.
  intros Hn. unfold util_uint_to_string, to_string_of.
  destruct (fmt_llu_spec n Hn) as (d & ds & Hf & Hl & _). rewrite Hf. simpl length.
  unfold MAX_NUM_STR_LEN. rewrite (proj2 (Z.leb_gt _ _)) by lia. eexists. split; [done|]. by rewrite chars_of_string.
Qed.

Lemma util_int_to_string_ok n :
  LONG_MIN ≤ n ≤ LONG_MAX → ∃ s, util_int_to_string n = Some s ∧ chars_of s = fmt_lld n.
Proof.
  intros Hn. unfold util_int_to_string, to_string_of.
  assert (Hl : (length (fmt_lld n) < 21)%nat).
  { unfold fmt_lld. destruct (Z.ltb_spec n 0).
    - assert (Hb : 0 ≤ - n < 10 ^ Z.of_nat 19).
      { change (10 ^ Z.of_nat 19) with 10000000000000000000. unfold LONG_MIN in Hn. lia. }
      destruct (print_digits_spec 19 (- n) [] Hb) as (d & ds & Hp & Hl & _); [lia|].
      unfold fmt_llu. rewrite (print_digits_fuel 19 20) by (done || lia). rewrite Hp. simpl. rewrite app_nil_r. lia.
    - destruct (fmt_llu_spec n) as (d & ds & -> & Hl & _); [unfold ULONG_MAX, LONG_MAX in *; lia|]. simpl. lia. }
  unfold MAX_NUM_STR_LEN. rewrite (proj2 (Z.leb_gt _ _)) by lia. eexists. split; [done|]. by rewrite chars_of_string.
Qed.

(** C33: Every 64-bit number is printed, and the checked conversions read the
    printed string back: signed numbers with [util_safe_llong], and with
    [util_safe_int] when they fit an [int]; unsigned numbers with
    [util_safe_uint64], and with [util_safe_uint] when they fit. *)
Theorem convert_roundtrip n :
  (LONG_MIN ≤ n ≤ LONG_MAX → ∃ s, util_int_to_string n = Some s ∧ util_safe_llong (Some s) = inr n ∧
     util_safe_int (Some s) = (if (INT_MAX <? n) || (n <? INT_MIN) then inl (- ERANGE) else inr n)) ∧
  (0 ≤ n ≤ ULONG_MAX → ∃ s, util_uint_to_string n = Some s ∧ util_safe_uint64 (Some s) = inr n ∧
     util_safe_uint (Some s) = (if UINT_MAX <? n then inl (- ERANGE) else inr n)).
Proof.
  split.
  - intros Hn. destruct (util_int_to_string_ok n Hn) as (s & Hs & Hc). exists s. split; [done|].
    assert (Hl : strtol 0 s = (n, false, Some [])).
    { unfold strtol. rewrite Hc. unfold fmt_lld, LONG_MIN, LONG_MAX in *. destruct (Z.ltb_spec n 0).
      - rewrite scan_fmt_neg by (unfold ULONG_MAX; lia). rewrite !(proj2 (Z.ltb_ge _ _)) by lia. do 2 f_equal. lia.
      - rewrite scan_fmt by (unfold ULONG_MAX; lia). by rewrite !(proj2 (Z.ltb_ge _ _)) by lia. }
    unfold util_safe_llong, util_safe_int. by rewrite Hl.
  - intros Hn. destruct (util_uint_to_string_ok n Hn) as (s & Hs & Hc). exists s. split; [done|].
    assert (Hl : strtoul 0 s = (n, false, Some [])).
    { unfold strtoul. rewrite Hc, scan_fmt by done. rewrite (proj2 (Z.ltb_ge _ _)) by lia.
      by rewrite u64_small by (unfold ULONG_MAX, two64 in *; lia). }
    unfold util_safe_uint64, util_safe_uint. by rewrite Hl.
Qed.

Lemma strtoul_range base s v e r : strtoul base s = (v, e, r) → 0 ≤ v ≤ ULONG_MAX.
Proof.
  unfold strtoul. destruct (scan base (chars_of s)) as [[[neg m] rest]|]; [|intros [= <- <- <-]; unfold ULONG_MAX; lia].
  destruct (_ <? _); intros [= <- <- <-]; [unfold ULONG_MAX; lia|].
  pose proof (u64_range (if neg then - m else m)). unfold ULONG_MAX, two64 in *. lia.
Qed.

Lemma strtol_range base s v e r : strtol base s = (v, e, r) → LONG_MIN ≤ v ≤ LONG_MAX.
Proof.
  unfold strtol. destruct (scan base (chars_of s)) as [[[neg m] rest]|];
    [|intros [= <- <- <-]; unfold LONG_MIN, LONG_MAX; lia].
  destruct (Z.ltb_spec LONG_MAX (if neg then - m else m)); [intros [= <- <- <-]; unfold LONG_MIN, LONG_MAX; lia|].
  destruct (Z.ltb_spec (if neg then - m else m) LONG_MIN); intros [= <- <- <-]; unfold LONG_MIN, LONG_MAX in *; lia.
Qed.

(** A converted number always fits its type, whatever the string. *)
Theorem convert_in_range s v :
  (util_safe_u16 (Some s) = inr v → 0 ≤ v ≤ 65535) ∧
  (util_safe_int (Some s) = inr v → INT_MIN ≤ v ≤ INT_MAX) ∧
  (util_safe_uint (Some s) = inr v → 0 ≤ v ≤ UINT_MAX) ∧
  (util_safe_uint64 (Some s) = inr v → 0 ≤ v ≤ ULONG_MAX) ∧
  (util_safe_llong (Some s) = inr v → LONG_MIN ≤ v ≤ LONG_MAX) ∧
  (util_parse_octal_uint32 (Some s) = inr v → 0 ≤ v ≤ UINT_MAX).
Proof.
  unfold util_safe_u16, util_safe_int, util_safe_uint, util_safe_uint64, util_safe_llong, util_parse_octal_uint32.
  destruct (strtoul 0 s) as [[u []] r] eqn:Eu; destruct (strtol 0 s) as [[l []] r'] eqn:El;
    destruct (strtol 8 s) as [[o []] r''] eqn:Eo;
    apply strtoul_range in Eu; apply strtol_range in El; apply strtol_range in Eo;
    split_and!; intros H; repeat case_match; simplify_eq; try done;
    repeat match goal with
    | H : (_ <? _) = false |- _ => apply Z.ltb_ge in H
    | H : (_ || _) = false |- _ => apply orb_false_iff in H as [? ?]
    end; lia.
Qed.

(** The unsigned conversions accept a negative numeral and return it modulo
    [2^64], so a numeral just above [-2^64] passes as a small number. *)
Theorem convert_unsigned_negative n :
  0 < n ≤ ULONG_MAX →
  let s := String.string_of_list_ascii ("-"%char :: fmt_llu n) in
  util_safe_uint64 (Some s) = inr (two64 - n) ∧
  (two64 - n ≤ UINT_MAX → util_safe_uint (Some s) = inr (two64 - n)) ∧
  (two64 - n ≤ 65535 → util_safe_u16 (Some s) = inr (two64 - n)).
Proof.
  intros Hn s.
  assert (Hl : strtoul 0 s = (two64 - n, false, Some [])).
  { unfold strtoul, s. rewrite chars_of_string, scan_fmt_neg by done.
    rewrite (proj2 (Z.ltb_ge _ _)) by lia. do 2 f_equal. unfold u64.
    rewrite <- (Z_mod_plus_full _ 1), Z.mod_small; unfold ULONG_MAX, two64 in *; lia. }
  unfold util_safe_uint64, util_safe_uint, util_safe_u16. rewrite Hl. simpl.
  split_and!; [done|intros; by rewrite (proj2 (Z.ltb_ge _ _)) by lia..].
Qed.

Lemma convert_unsigned_negative_witness :
  util_safe_uint64 (Some "-1"%string) = inr 18446744073709551615 ∧
  (18446744073709551615 ≤ UINT_MAX → util_safe_uint (Some "-1"%string) = inr 18446744073709551615) ∧
  (18446744073709551615 ≤ 65535 → util_safe_u16 (Some "-1"%string) = inr 18446744073709551615).
Proof. exact (convert_unsigned_negative 1 ltac:(unfold ULONG_MAX; lia)). Defined.
