(* ===== verification/RbTree.v ===== *)
(** * The red-black tree of [src/utils/cutils/map/rb_tree.c]

    Pointer-level model: a heap of nodes with [left], [right] and [parent]
    pointers, a sentinel [nil] node, and one definition per C function that
    reads and writes node fields in the order the C code does.  A computation
    that dereferences a pointer that is not live fails, and so does a loop that
    exceeds its fuel; the fuel of every loop is the number of live nodes plus
    one, which [RbInsert] and [RbErase] show is enough. *)
From stdpp Require Import base gmap strings list fin_maps numbers.
From Stdlib Require Import ZArith Lia.
From S2P Require Import Prelude.

(** A pointer; [NULL] is [0]. *)
Abbreviation ptr := N.
Definition NULL : ptr := 0%N.

Inductive rbtree_colour := RED | BLACK.

#[global] Instance rbtree_colour_eq_dec : EqDecision rbtree_colour.
Proof. solve_decision. Defined.

(** [struct rb_node]; a [NULL] key or value pointer is [None]. *)
Record rb_node (K V : Type) := mk_node {
  n_key : option K;
  n_value : option V;
  n_colour : rbtree_colour;
  n_left : ptr;
  n_right : ptr;
  n_parent : ptr
}.
Arguments mk_node {K V} _ _ _ _ _ _.
Arguments n_key {K V} _.
Arguments n_value {K V} _.
Arguments n_colour {K V} _.
Arguments n_left {K V} _.
Arguments n_right {K V} _.
Arguments n_parent {K V} _.

(** [struct rb_tree] with the part of the C heap it owns.  [kvfreer] says
    whether the tree has a key-value destructor, and [freed] records the calls
    made to it, oldest first; [next_ptr] is the next address [calloc] returns. *)
Record rb_tree (K V : Type) := mk_tree {
  root : ptr;
  nil : ptr;
  nodes : gmap ptr (rb_node K V);
  next_ptr : ptr;
  kvfreer : bool;
  freed : list (option K * option V)
}.
Arguments mk_tree {K V} _ _ _ _ _ _.
Arguments root {K V} _.
Arguments nil {K V} _.
Arguments nodes {K V} _.
Arguments next_ptr {K V} _.
Arguments kvfreer {K V} _.
Arguments freed {K V} _.

(** [rbtree_ptr_cmp]: addresses compared as unsigned integers. *)
Definition rbtree_ptr_cmp (first last : N) : Z :=
  (Z.b2z (last <? first)%N - Z.b2z (first <? last)%N)%Z.

Definition rbtree_int_cmp (key1 key2 : Z) : Z :=
  (Z.b2z (key2 <? key1)%Z - Z.b2z (key1 <? key2)%Z)%Z.

Section rb_tree.
Context {K V : Type}.
Implicit Types (t : rb_tree K V) (n : rb_node K V).

(** The comparator function pointer of the tree. *)
Variable comparator : K → K → Z.

(** ** Field accesses *)
Definition deref (p : ptr) : M (rb_tree K V) (rb_node K V) := λ t,
  match nodes t !! p with
  | Some n => Some (n, t)
  | None => None
  end.

Definition set_nodes (h : gmap ptr (rb_node K V)) t : rb_tree K V :=
  mk_tree (root t) (nil t) h (next_ptr t) (kvfreer t) (freed t).

Definition store (p : ptr) (f : rb_node K V → rb_node K V) : M (rb_tree K V) unit := λ t,
  match nodes t !! p with
  | Some n => Some (tt, set_nodes (<[p:=f n]> (nodes t)) t)
  | None => None
  end.

Definition with_value (v : option V) n :=
  mk_node (n_key n) v (n_colour n) (n_left n) (n_right n) (n_parent n).
Definition with_colour (c : rbtree_colour) n :=
  mk_node (n_key n) (n_value n) c (n_left n) (n_right n) (n_parent n).
Definition with_left (p : ptr) n :=
  mk_node (n_key n) (n_value n) (n_colour n) p (n_right n) (n_parent n).
Definition with_right (p : ptr) n :=
  mk_node (n_key n) (n_value n) (n_colour n) (n_left n) p (n_parent n).
Definition with_parent (p : ptr) n :=
  mk_node (n_key n) (n_value n) (n_colour n) (n_left n) (n_right n) p.

Definition get_left (p : ptr) : M (rb_tree K V) ptr := n ← deref p; mret (n_left n).
Definition get_right (p : ptr) : M (rb_tree K V) ptr := n ← deref p; mret (n_right n).
Definition get_parent (p : ptr) : M (rb_tree K V) ptr := n ← deref p; mret (n_parent n).
Definition get_colour (p : ptr) : M (rb_tree K V) rbtree_colour := n ← deref p; mret (n_colour n).
(** A key passed to the comparator is dereferenced, so a [NULL] key fails. *)
Definition get_key (p : ptr) : M (rb_tree K V) K := n ← deref p;
  match n_key n with Some k => mret k | None => fail end.

Definition set_left (p q : ptr) : M (rb_tree K V) unit := store p (with_left q).
Definition set_right (p q : ptr) : M (rb_tree K V) unit := store p (with_right q).
Definition set_parent (p q : ptr) : M (rb_tree K V) unit := store p (with_parent q).
Definition set_colour (p : ptr) (c : rbtree_colour) : M (rb_tree K V) unit := store p (with_colour c).
Definition set_value (p : ptr) (v : option V) : M (rb_tree K V) unit := store p (with_value v).

Definition get_root : M (rb_tree K V) ptr := λ t, Some (root t, t).
Definition get_nil : M (rb_tree K V) ptr := λ t, Some (nil t, t).
Definition set_root (p : ptr) : M (rb_tree K V) unit := λ t,
  Some (tt, mk_tree p (nil t) (nodes t) (next_ptr t) (kvfreer t) (freed t)).

(** [calloc] of a node: [mem] tells whether the allocation succeeds. *)
Definition rbtree_create_node (mem : bool) (key : option K) (value : option V)
    (left right parent : ptr) : M (rb_tree K V) ptr := λ t,
  if mem then
    let p := next_ptr t in
    Some (p, mk_tree (root t) (nil t)
      (<[p := mk_node key value BLACK left right parent]> (nodes t))
      (N.succ p) (kvfreer t) (freed t))
  else Some (NULL, t).

(** [free(node)]: the node is no longer live. *)
Definition free_node (p : ptr) : M (rb_tree K V) unit := λ t,
  match nodes t !! p with
  | Some _ => Some (tt, set_nodes (delete p (nodes t)) t)
  | None => None
  end.

(** [if (tree->kvfreer != NULL) tree->kvfreer(key, value);] *)
Definition call_kvfreer (key : option K) (value : option V) : M (rb_tree K V) unit := λ t,
  if kvfreer t
  then Some (tt, mk_tree (root t) (nil t) (nodes t) (next_ptr t) (kvfreer t) (freed t ++ [(key, value)]))
  else Some (tt, t).

(** The fuel of a loop over the tree. *)
Definition loop_fuel t : nat := S (size (nodes t)).

(** ** Search *)
Fixpoint rbtree_recursive_search (fuel : nat) (node : ptr) (key : K) : M (rb_tree K V) ptr :=
  match fuel with
  | O => fail
  | S fuel =>
    nl ← get_nil;
    if decide (node = nl) then mret node else
    k ← get_key node;
    if decide (comparator key k = 0%Z) then mret node else
    if decide (comparator key k < 0)%Z
    then l ← get_left node; rbtree_recursive_search fuel l key
    else r ← get_right node; rbtree_recursive_search fuel r key
  end.

Definition rbtree_find (key : K) : M (rb_tree K V) ptr := λ t,
  rbtree_recursive_search (loop_fuel t) (root t) key t.

Definition rbtree_search (key : option K) : M (rb_tree K V) (option V) :=
  match key with
  | None => mret None
  | Some key =>
    find ← rbtree_find key;
    nl ← get_nil;
    if decide (find = nl) then mret None else n ← deref find; mret (n_value n)
  end.

(** ** Construction and destruction *)

(** [rbtree_new]: the first allocation is the tree, the second the sentinel. *)
Definition rbtree_new (mem_tree mem_nil : bool) (freer : bool) : option (rb_tree K V) :=
  if mem_tree then
    if mem_nil then
      let p := 1%N in
      Some (mk_tree p p {[p := mk_node None None BLACK NULL NULL NULL]} 2%N freer [])
    else None
  else None.

Fixpoint rbtree_destroy_all (fuel : nat) (node : ptr) : M (rb_tree K V) unit :=
  match fuel with
  | O => fail
  | S fuel =>
    nl ← get_nil;
    if decide (node = nl) then mret tt else
    l ← get_left node;
    (if decide (l = nl) then mret tt else rbtree_destroy_all fuel l);;
    r ← get_right node;
    (if decide (r = nl) then mret tt else rbtree_destroy_all fuel r);;
    n ← deref node;
    call_kvfreer (n_key n) (n_value n);;
    free_node node
  end.

Definition rbtree_clear : M (rb_tree K V) unit := λ t,
  (rbtree_destroy_all (loop_fuel t) (root t);; nl ← get_nil; set_root nl) t.

(** [rbtree_free]: clears the tree, then frees the sentinel; what is left is
    the heap just before [free(tree)]. *)
Definition rbtree_free : M (rb_tree K V) unit :=
  rbtree_clear;; nl ← get_nil; free_node nl.

(** ** Rotations *)
Definition left_rot (node : ptr) : M (rb_tree K V) unit :=
  nl ← get_nil;
  y ← get_right node;
  yl ← get_left y;
  set_right node yl;;
  yl ← get_left y;
  (if decide (yl = nl) then mret tt else yl ← get_left y; set_parent yl node);;
  np ← get_parent node;
  set_parent y np;;
  np ← get_parent node;
  (if decide (np = nl) then set_root y else
   npl ← get_left np;
   if decide (node = npl) then set_left np y else set_right np y);;
  set_left y node;;
  set_parent node y.

Definition right_rot (node : ptr) : M (rb_tree K V) unit :=
  nl ← get_nil;
  y ← get_left node;
  yr ← get_right y;
  set_left node yr;;
  yr ← get_right y;
  (if decide (yr = nl) then mret tt else yr ← get_right y; set_parent yr node);;
  np ← get_parent node;
  set_parent y np;;
  np ← get_parent node;
  (if decide (np = nl) then set_root y else
   npr ← get_right np;
   if decide (node = npr) then set_right np y else set_left np y);;
  set_right y node;;
  set_parent node y.

(** ** Insertion *)
Fixpoint rbtree_insert_fixup_loop (fuel : nat) (node : ptr) : M (rb_tree K V) unit :=
  match fuel with
  | O => fail
  | S fuel =>
    p ← get_parent node;
    c ← get_colour p;
    match c with
    | BLACK => r ← get_root; set_colour r BLACK
    | RED =>
      g ← get_parent p;
      gl ← get_left g;
      if decide (p = gl) then
        y ← get_right g;
        if decide (y = NULL) then mret tt else
        yc ← get_colour y;
        match yc with
        | RED =>
          set_colour p BLACK;;
          set_colour y BLACK;;
          set_colour g RED;;
          rbtree_insert_fixup_loop fuel g
        | BLACK =>
          pr ← get_right p;
          node ← (if decide (node = pr) then left_rot p;; mret p else mret node);
          p ← get_parent node;
          set_colour p BLACK;;
          g ← get_parent p;
          set_colour g RED;;
          right_rot g;;
          rbtree_insert_fixup_loop fuel node
        end
      else
        y ← get_left g;
        if decide (y = NULL) then mret tt else
        yc ← get_colour y;
        match yc with
        | RED =>
          set_colour p BLACK;;
          set_colour y BLACK;;
          set_colour g RED;;
          rbtree_insert_fixup_loop fuel g
        | BLACK =>
          pl ← get_left p;
          node ← (if decide (node = pl) then right_rot p;; mret p else mret node);
          p ← get_parent node;
          set_colour p BLACK;;
          g ← get_parent p;
          set_colour g RED;;
          left_rot g;;
          rbtree_insert_fixup_loop fuel node
        end
    end
  end.

Definition rbtree_insert_fixup (node : ptr) : M (rb_tree K V) unit := λ t,
  rbtree_insert_fixup_loop (loop_fuel t) node t.

(** The descent of [insert_node]: returns [previous]. *)
Fixpoint insert_node_loop (fuel : nat) (key : K) (previous index : ptr) : M (rb_tree K V) ptr :=
  match fuel with
  | O => fail
  | S fuel =>
    nl ← get_nil;
    if decide (index = nl) then mret previous else
    k ← get_key index;
    if decide (comparator key k < 0)%Z
    then l ← get_left index; insert_node_loop fuel key index l
    else r ← get_right index; insert_node_loop fuel key index r
  end.

Definition insert_node (node : ptr) : M (rb_tree K V) unit :=
  nl ← get_nil;
  index ← get_root;
  key ← get_key node;
  t ← get;
  previous ← insert_node_loop (loop_fuel t) key nl index;
  set_parent node previous;;
  (if decide (previous = nl) then set_root node else
   k ← get_key previous;
   if decide (comparator key k < 0)%Z then set_left previous node else set_right previous node);;
  set_left node nl;;
  set_right node nl;;
  set_colour node RED;;
  rbtree_insert_fixup node.

Definition rbtree_insert (mem : bool) (key : option K) (value : option V) : M (rb_tree K V) bool :=
  match key, value with
  | Some k, Some v =>
    find ← rbtree_find k;
    nl ← get_nil;
    if decide (find = nl) then
      node ← rbtree_create_node mem (Some k) (Some v) nl nl nl;
      if decide (node = NULL) then mret false else
      insert_node node;;
      mret true
    else mret false
  | _, _ => mret false
  end.

Definition rbtree_replace (mem : bool) (key : option K) (value : option V) : M (rb_tree K V) bool :=
  match key, value with
  | Some k, Some v =>
    node ← rbtree_find k;
    nl ← get_nil;
    if decide (node = nl) then rbtree_insert mem key value else
    n ← deref node;
    call_kvfreer key (n_value n);;
    set_value node value;;
    mret true
  | _, _ => mret false
  end.

(** ** Minimum and maximum *)
Fixpoint rbtree_minimum_loop (fuel : nat) (node : ptr) : M (rb_tree K V) ptr :=
  match fuel with
  | O => fail
  | S fuel =>
    nl ← get_nil;
    l ← get_left node;
    if decide (l = nl) then mret node else rbtree_minimum_loop fuel l
  end.

Definition rbtree_minimum (node : ptr) : M (rb_tree K V) ptr := λ t,
  if decide (node = nil t) then Some (nil t, t) else rbtree_minimum_loop (loop_fuel t) node t.

Fixpoint rbtree_maximum_loop (fuel : nat) (node : ptr) : M (rb_tree K V) ptr :=
  match fuel with
  | O => fail
  | S fuel =>
    nl ← get_nil;
    r ← get_right node;
    if decide (r = nl) then mret node else rbtree_maximum_loop fuel r
  end.

Definition rbtree_maximum (node : ptr) : M (rb_tree K V) ptr := λ t,
  if decide (node = nil t) then Some (nil t, t) else rbtree_maximum_loop (loop_fuel t) node t.

(** ** Removal *)

(** [p == tree->nil || p->colour == BLACK] *)
Definition nil_or_black (p : ptr) : M (rb_tree K V) bool :=
  nl ← get_nil;
  if decide (p = nl) then mret true else
  c ← get_colour p; mret (bool_decide (c = BLACK)).

(** First part of [do_with_left_node_not_null]: the sibling, after a red
    sibling was rotated away. *)
Definition do_with_left_node_not_null_sibling (node : ptr) : M (rb_tree K V) ptr :=
  p ← get_parent node;
  sibling ← get_right p;
  sc ← get_colour sibling;
  match sc with
  | RED =>
      p ← get_parent node; set_colour p RED;;
      set_colour sibling BLACK;;
      p ← get_parent node; left_rot p;;
      p ← get_parent node; get_right p
  | BLACK => mret sibling
  end.

(** Second part: the sibling is black. *)
Definition do_with_left_node_not_null_rest (node sibling : ptr) : M (rb_tree K V) ptr :=
  sl ← get_left sibling;
  lb ← nil_or_black sl;
  flag ← (if (lb : bool) then sr ← get_right sibling; nil_or_black sr else mret false);
  if (flag : bool) then
    set_colour sibling RED;;
    get_parent node
  else
    sr ← get_right sibling;
    flag ← nil_or_black sr;
    sibling ← (if (flag : bool) then
        set_colour sibling RED;;
        sl ← get_left sibling; set_colour sl BLACK;;
        right_rot sibling;;
        p ← get_parent node; get_right p
      else mret sibling);
    p ← get_parent node; pc ← get_colour p; set_colour sibling pc;;
    p ← get_parent node; set_colour p BLACK;;
    sr ← get_right sibling; set_colour sr BLACK;;
    p ← get_parent node; left_rot p;;
    get_root.

(** Returns the value left in [*node]. *)
Definition do_with_left_node_not_null (node : ptr) : M (rb_tree K V) ptr :=
  sibling ← do_with_left_node_not_null_sibling node;
  do_with_left_node_not_null_rest node sibling.

(** First part of [do_with_left_node_null]: the sibling, after a red
    sibling was rotated away. *)
Definition do_with_left_node_null_sibling (node : ptr) : M (rb_tree K V) ptr :=
  p ← get_parent node;
  sibling ← get_left p;
  sc ← get_colour sibling;
  match sc with
  | RED =>
      set_colour sibling BLACK;;
      p ← get_parent node; set_colour p RED;;
      p ← get_parent node; right_rot p;;
      p ← get_parent node; get_left p
  | BLACK => mret sibling
  end.

(** Second part: the sibling is black. *)
Definition do_with_left_node_null_rest (node sibling : ptr) : M (rb_tree K V) ptr :=
  sr ← get_right sibling;
  rb ← nil_or_black sr;
  flag ← (if (rb : bool) then sl ← get_left sibling; nil_or_black sl else mret false);
  if (flag : bool) then
    set_colour sibling RED;;
    get_parent node
  else
    sl ← get_left sibling;
    flag ← nil_or_black sl;
    sibling ← (if (flag : bool) then
        set_colour sibling RED;;
        sr ← get_right sibling; set_colour sr BLACK;;
        left_rot sibling;;
        p ← get_parent node; get_left p
      else mret sibling);
    p ← get_parent node; pc ← get_colour p; set_colour sibling pc;;
    p ← get_parent node; set_colour p BLACK;;
    sl ← get_left sibling; set_colour sl BLACK;;
    p ← get_parent node; right_rot p;;
    get_root.

(** Returns the value left in [*node]. *)
Definition do_with_left_node_null (node : ptr) : M (rb_tree K V) ptr :=
  sibling ← do_with_left_node_null_sibling node;
  do_with_left_node_null_rest node sibling.

Fixpoint rbtree_erase_fixup_loop (fuel : nat) (node : ptr) : M (rb_tree K V) unit :=
  match fuel with
  | O => fail
  | S fuel =>
    b ← nil_or_black node;
    r ← get_root;
    if (b : bool) && bool_decide (node ≠ r) then
      p ← get_parent node;
      pl ← get_left p;
      node ← (if decide (node = pl)
              then do_with_left_node_not_null node
              else do_with_left_node_null node);
      rbtree_erase_fixup_loop fuel node
    else
      if decide (node = NULL) then mret tt else set_colour node BLACK
  end.

Definition rbtree_erase_fixup (node : ptr) : M (rb_tree K V) unit := λ t,
  rbtree_erase_fixup_loop (loop_fuel t) node t.

Definition rbtree_transplant (u v : ptr) : M (rb_tree K V) unit :=
  nl ← get_nil;
  up ← get_parent u;
  (if decide (up = nl) then set_root v else
   upl ← get_left up;
   if decide (u = upl) then set_left up v else set_right up v);;
  up ← get_parent u;
  set_parent v up.

(** The unlinking part of [rbtree_erase]: returns [x] and [y_original_colour]. *)
Definition rbtree_erase_unlink (node : ptr) : M (rb_tree K V) (ptr * rbtree_colour) :=
  nl ← get_nil;
  c ← get_colour node;
  l ← get_left node;
  if decide (l = nl) then
    x ← get_right node;
    rbtree_transplant node x;;
    mret (x, c)
  else
  r ← get_right node;
  if decide (r = nl) then
    x ← get_left node;
    rbtree_transplant node x;;
    mret (x, c)
  else
    r ← get_right node;
    y ← rbtree_minimum r;
    yc ← get_colour y;
    x ← get_right y;
    yp ← get_parent y;
    (if decide (yp = node) then set_parent x y else
     yr ← get_right y;
     rbtree_transplant y yr;;
     r ← get_right node;
     set_right y r;;
     yr ← get_right y;
     set_parent yr y);;
    rbtree_transplant node y;;
    l ← get_left node;
    set_left y l;;
    yl ← get_left y;
    set_parent yl y;;
    nc ← get_colour node;
    set_colour y nc;;
    mret (x, yc).

Definition rbtree_erase (node : ptr) : M (rb_tree K V) unit :=
  '(x, y_original_colour) ← rbtree_erase_unlink node;
  (match (y_original_colour : rbtree_colour) with
   | BLACK => rbtree_erase_fixup x
   | RED => mret tt
   end);;
  n ← deref node;
  call_kvfreer (n_key n) (n_value n);;
  free_node node.

Definition rbtree_remove (key : option K) : M (rb_tree K V) bool :=
  match key with
  | None => mret false
  | Some k =>
    node ← rbtree_find k;
    nl ← get_nil;
    if decide (node = nl) then mret false else
    rbtree_erase node;;
    mret true
  end.

(** ** Size *)
Fixpoint number_of_nodes (fuel : nat) (node : ptr) : M (rb_tree K V) Z :=
  match fuel with
  | O => fail
  | S fuel =>
    nl ← get_nil;
    if decide (node = nl) then mret 0%Z else
    l ← get_left node;
    cl ← number_of_nodes fuel l;
    r ← get_right node;
    cr ← number_of_nodes fuel r;
    mret (u64 (1 + cl + cr))
  end.

Definition rbtree_size : M (rb_tree K V) Z := λ t,
  number_of_nodes (loop_fuel t) (root t) t.

(** ** Iterators: [struct rb_iterator] is the current node pointer *)
Definition rbtree_iterator_valid (itor : ptr) : M (rb_tree K V) bool :=
  nl ← get_nil; mret (bool_decide (itor ≠ nl)).

Fixpoint rbtree_successor_loop (fuel : nat) (node successor : ptr) : M (rb_tree K V) ptr :=
  match fuel with
  | O => fail
  | S fuel =>
    nl ← get_nil;
    if decide (successor = nl) then mret successor else
    r ← get_right successor;
    if decide (node = r)
    then p ← get_parent successor; rbtree_successor_loop fuel successor p
    else mret successor
  end.

Definition rbtree_successor (node : ptr) : M (rb_tree K V) ptr :=
  if decide (node = NULL) then mret NULL else
  nl ← get_nil;
  r ← get_right node;
  if decide (r = nl) then
    p ← get_parent node;
    t ← get;
    rbtree_successor_loop (loop_fuel t) node p
  else r ← get_right node; rbtree_minimum r.

Fixpoint rbtree_predecessor_loop (fuel : nat) (node predecessor : ptr) : M (rb_tree K V) ptr :=
  match fuel with
  | O => fail
  | S fuel =>
    nl ← get_nil;
    if decide (predecessor = nl) then mret predecessor else
    l ← get_left predecessor;
    if decide (node = l)
    then p ← get_parent predecessor; rbtree_predecessor_loop fuel predecessor p
    else mret predecessor
  end.

Definition rbtree_predecessor (node : ptr) : M (rb_tree K V) ptr :=
  nl ← get_nil;
  l ← get_left node;
  if decide (l = nl) then
    p ← get_parent node;
    t ← get;
    rbtree_predecessor_loop (loop_fuel t) node p
  else l ← get_left node; rbtree_maximum l.

(** The iterator operations return the flag and the new current node. *)
Definition rbtree_iterator_next (itor : ptr) : M (rb_tree K V) (bool * ptr) :=
  nl ← get_nil;
  if decide (itor = nl) then mret (false, itor) else
  s ← rbtree_successor itor;
  mret (bool_decide (s ≠ nl), s).

Definition rbtree_iterator_prev (itor : ptr) : M (rb_tree K V) (bool * ptr) :=
  nl ← get_nil;
  if decide (itor = nl) then mret (false, itor) else
  s ← rbtree_predecessor itor;
  mret (bool_decide (s ≠ nl), s).

Definition rbtree_iterator_first : M (rb_tree K V) (bool * ptr) :=
  nl ← get_nil;
  r ← get_root;
  p ← rbtree_minimum r;
  mret (bool_decide (p ≠ nl), p).

Definition rbtree_iterator_last : M (rb_tree K V) (bool * ptr) :=
  nl ← get_nil;
  r ← get_root;
  p ← rbtree_maximum r;
  mret (bool_decide (p ≠ nl), p).

(** [rbtree_iterator_new]: [None] when the allocation fails. *)
Definition rbtree_iterator_new (mem : bool) : M (rb_tree K V) (option ptr) :=
  if mem then '(_, p) ← rbtree_iterator_first; mret (Some p) else mret None.

Definition rbtree_iterator_key (itor : ptr) : M (rb_tree K V) (option K) :=
  if decide (itor = NULL) then mret None else n ← deref itor; mret (n_key n).

Definition rbtree_iterator_value (itor : ptr) : M (rb_tree K V) (option V) :=
  if decide (itor = NULL) then mret None else n ← deref itor; mret (n_value n).
End rb_tree.

Lemma loop_fuel_eq {K V} (t : rb_tree K V) : loop_fuel t = S (size (nodes t)).
Proof. done. Qed.

#[global] Opaque loop_fuel.
