(* ===== verification/RbInv.v ===== *)
(** * Trees, contexts and the red-black invariant

    The mathematical side of the pointer trees of [RbTree]: binary trees whose
    nodes carry their address, one-hole contexts (the path from a node up to
    the root), the red-black invariant of both, and their in-order contents. *)
From stdpp Require Import base gmap list fin_maps numbers sorting.
From Stdlib Require Import ZArith Lia.
From S2P Require Import Prelude RbTree.

Inductive tree (K V : Type) :=
| Leaf
| Node (c : rbtree_colour) (l : tree K V) (p : ptr) (k : K) (v : V) (r : tree K V).
Arguments Leaf {K V}.
Arguments Node {K V} _ _ _ _ _ _.

(** A frame is a node with a hole for its left ([FL]) or right ([FR]) child;
    a context lists the frames from the hole up to the root. *)
Inductive frame (K V : Type) :=
| FL (c : rbtree_colour) (p : ptr) (k : K) (v : V) (r : tree K V)
| FR (c : rbtree_colour) (l : tree K V) (p : ptr) (k : K) (v : V).
Arguments FL {K V} _ _ _ _ _.
Arguments FR {K V} _ _ _ _ _.

Section trees.
Context {K V : Type}.
Implicit Types (t l r : tree K V) (f : frame K V) (ctx : list (frame K V)).

Definition fill f t : tree K V :=
  match f with
  | FL c p k v r => Node c t p k v r
  | FR c l p k v => Node c l p k v t
  end.

Fixpoint plug ctx t : tree K V :=
  match ctx with
  | [] => t
  | f :: ctx => plug ctx (fill f t)
  end.

Definition fptr f : ptr := match f with FL _ p _ _ _ => p | FR _ _ p _ _ => p end.
Definition fcolour f : rbtree_colour := match f with FL c _ _ _ _ => c | FR c _ _ _ _ => c end.
Definition tcolour t : rbtree_colour := match t with Leaf => BLACK | Node c _ _ _ _ _ => c end.

(** In-order contents, with the address of each node. *)
Fixpoint elems t : list (ptr * (K * V)) :=
  match t with
  | Leaf => []
  | Node _ l p k v r => elems l ++ (p, (k, v)) :: elems r
  end.

(** Contents to the left and to the right of the hole. *)
Fixpoint cleft ctx : list (ptr * (K * V)) :=
  match ctx with
  | [] => []
  | FL _ _ _ _ _ :: ctx => cleft ctx
  | FR _ l p k v :: ctx => cleft ctx ++ elems l ++ [(p, (k, v))]
  end.
Fixpoint cright ctx : list (ptr * (K * V)) :=
  match ctx with
  | [] => []
  | FL _ p k v r :: ctx => (p, (k, v)) :: elems r ++ cright ctx
  | FR _ _ _ _ _ :: ctx => cright ctx
  end.

Lemma elems_plug ctx t : elems (plug ctx t) = cleft ctx ++ elems t ++ cright ctx.
Proof.
  revert t. induction ctx as [|[c p k v r|c l p k v] ctx IH]; intros t; simpl.
  - by rewrite app_nil_r.
  - rewrite IH. simpl. by rewrite <- !app_assoc.
  - rewrite IH. simpl. by rewrite <- !app_assoc.
Qed.

Lemma cleft_app ctx1 ctx2 : cleft (ctx1 ++ ctx2) = cleft ctx2 ++ cleft ctx1.
Proof. induction ctx1 as [|[] ctx1 IH]; simpl; rewrite ?app_nil_r, ?IH, ?app_assoc; done. Qed.

Lemma cright_app ctx1 ctx2 : cright (ctx1 ++ ctx2) = cright ctx1 ++ cright ctx2.
Proof. induction ctx1 as [|[] ctx1 IH]; simpl; rewrite ?IH, ?app_assoc; done. Qed.

Lemma plug_app ctx1 ctx2 t : plug (ctx1 ++ ctx2) t = plug ctx2 (plug ctx1 t).
Proof. revert t. induction ctx1; intros; simpl; auto. Qed.

(** ** The red-black invariant

    [rbt c n t]: no red node has a red child, every path of [t] has [n] black
    nodes, and the root of [t] has colour [c].  [rbc c n ctx]: plugging a tree
    of colour [c] and black height [n] gives a valid tree with a black root. *)
Inductive rbt : rbtree_colour → nat → tree K V → Prop :=
| rbt_leaf : rbt BLACK 0 Leaf
| rbt_red n l p k v r : rbt BLACK n l → rbt BLACK n r → rbt RED n (Node RED l p k v r)
| rbt_black n cl cr l p k v r :
    rbt cl n l → rbt cr n r → rbt BLACK (S n) (Node BLACK l p k v r).

Inductive rbc : rbtree_colour → nat → list (frame K V) → Prop :=
| rbc_nil n : rbc BLACK n []
| rbc_red_l n p k v r ctx : rbc RED n ctx → rbt BLACK n r → rbc BLACK n (FL RED p k v r :: ctx)
| rbc_red_r n l p k v ctx : rbc RED n ctx → rbt BLACK n l → rbc BLACK n (FR RED l p k v :: ctx)
| rbc_black_l c cr n p k v r ctx :
    rbc BLACK (S n) ctx → rbt cr n r → rbc c n (FL BLACK p k v r :: ctx)
| rbc_black_r c cl n l p k v ctx :
    rbc BLACK (S n) ctx → rbt cl n l → rbc c n (FR BLACK l p k v :: ctx).

(** The invariant of a whole tree: a black root and some black height. *)
Definition redblack t : Prop := ∃ n, rbt BLACK n t.

Lemma rbt_plug c n ctx t : rbc c n ctx → rbt c n t → redblack (plug ctx t).
Proof.
  intros Hc. revert t. induction Hc; intros t Ht; simpl;
    [by exists n | apply IHHc .. ]; econstructor; eauto.
Qed.

Lemma rbt_plug_inv ctx t : redblack (plug ctx t) → ∃ c n, rbt c n t ∧ rbc c n ctx.
Proof.
  revert t. induction ctx as [|f ctx IH]; intros t Ht; simpl in *.
  - destruct Ht as [n Hn]. exists BLACK, n. split; [done|constructor].
  - apply IH in Ht as (c & n & Ht & Hc).
    destruct f; simpl in Ht; inversion Ht; subst;
      eexists _, _; (split; [eassumption|]); econstructor; eassumption.
Qed.

Lemma rbt_colour c n t : rbt c n t → tcolour t = c.
Proof. by inversion 1. Qed.

(** A black-height argument bounds the depth: a context of a red-black tree
    never asks for a red root at the top. *)
Lemma rbc_red_inv n ctx : rbc RED n ctx →
  ∃ f ctx', ctx = f :: ctx' ∧ fcolour f = BLACK ∧ rbc BLACK (S n) ctx'.
Proof. inversion 1; subst; eauto. Qed.

Lemma rbc_weaken n ctx : rbc RED n ctx → rbc BLACK n ctx.
Proof. inversion 1; subst; econstructor; eauto. Qed.

(** The invariant does not depend on what a frame holds. *)
Lemma rbc_subst_r c n ctx1 cf l p k v p' k' v' ctx2 :
  rbc c n (ctx1 ++ FR cf l p k v :: ctx2) → rbc c n (ctx1 ++ FR cf l p' k' v' :: ctx2).
Proof.
  revert c n. induction ctx1 as [|f ctx1 IH]; intros c n; simpl; inversion 1; subst; econstructor; eauto.
Qed.

(** The black height of a node of colour [c] over children of height [n]. *)
Definition bh (c : rbtree_colour) (n : nat) : nat := match c with RED => n | BLACK => S n end.

Lemma rbt_bh c n l p k v r : rbt BLACK n l → rbt BLACK n r → rbt c (bh c n) (Node c l p k v r).
Proof. destruct c; simpl; econstructor; eauto. Qed.

(** ** Height *)
Fixpoint height t : nat :=
  match t with Leaf => 0 | Node _ l _ _ _ r => S (height l `max` height r) end.

Lemma height_elems t : height t ≤ length (elems t).
Proof. induction t as [|c l IHl p k v r IHr]; simpl; [done|]. rewrite length_app. simpl. lia. Qed.

Lemma rbt_height c n t : rbt c n t → height t ≤ 2 * n + (if c is RED then 1 else 0).
Proof. induction 1 as [|n l p k v r Hl IHl Hr IHr|n cl cr l p k v r Hl IHl Hr IHr]; simpl; [lia..|]. destruct cl, cr; lia. Qed.

Lemma rbt_elems c n t : rbt c n t → 2 ^ n ≤ S (length (elems t)).
Proof. induction 1; simpl; rewrite ?length_app; simpl; lia. Qed.

(** The height of a red-black tree is logarithmic in its size. *)
Lemma redblack_height t : redblack t → height t ≤ 2 * Nat.log2 (S (length (elems t))).
Proof.
  intros [n Hn]. pose proof (rbt_height _ _ _ Hn) as Hh. apply rbt_elems, Nat.log2_le_mono in Hn.
  rewrite Nat.log2_pow2 in Hn by lia. simpl in *. lia.
Qed.

(** ** Addresses

    [tcnt q t] counts the nodes of [t] at address [q]: that a pointer occurs at
    most once in a structure is an inequality, and disjointness is arithmetic. *)
Definition ind (q p : ptr) : nat := if decide (q = p) then 1 else 0.

Lemma ind_refl p : ind p p = 1.
Proof. unfold ind. by rewrite decide_True. Qed.
Lemma ind_ne q p : q ≠ p → ind q p = 0.
Proof. intros. unfold ind. by rewrite decide_False. Qed.

Fixpoint tcnt (q : ptr) t : nat :=
  match t with
  | Leaf => 0
  | Node _ l p _ _ r => tcnt q l + ind q p + tcnt q r
  end.

Fixpoint ccnt (q : ptr) ctx : nat :=
  match ctx with
  | [] => 0
  | FL _ p _ _ r :: ctx => ind q p + tcnt q r + ccnt q ctx
  | FR _ l p _ _ :: ctx => tcnt q l + ind q p + ccnt q ctx
  end.

Lemma tcnt_plug q ctx t : tcnt q (plug ctx t) = ccnt q ctx + tcnt q t.
Proof. revert t. induction ctx as [|[]]; intros; simpl; rewrite ?IHctx; simpl; lia. Qed.

Lemma ccnt_app q ctx1 ctx2 : ccnt q (ctx1 ++ ctx2) = ccnt q ctx1 + ccnt q ctx2.
Proof. induction ctx1 as [|[] ? IH]; simpl; rewrite ?IH; lia. Qed.

(** Number of entries at address [q]. *)
Fixpoint ecnt (q : ptr) (e : list (ptr * (K * V))) : nat :=
  match e with
  | [] => 0
  | (p, _) :: e => ind q p + ecnt q e
  end.

Lemma ecnt_app q e1 e2 : ecnt q (e1 ++ e2) = ecnt q e1 + ecnt q e2.
Proof. induction e1 as [|[]]; simpl; lia. Qed.

Lemma tcnt_elems q t : tcnt q t = ecnt q (elems t).
Proof. induction t as [|c l IHl p k v r IHr]; simpl; rewrite ?ecnt_app; simpl; lia. Qed.

Lemma ecnt_zero q e : ecnt q e = 0 ↔ q ∉ e.*1.
Proof.
  induction e as [|[p kv] e IH]; simpl; [split; [intros _; apply not_elem_of_nil|done]|].
  rewrite not_elem_of_cons, <- IH. unfold ind. case_decide; split; intros; naive_solver lia.
Qed.

Lemma ecnt_nodup e : (∀ q, ecnt q e ≤ 1) ↔ NoDup e.*1.
Proof.
  induction e as [|[p kv] e IH]; simpl; [split; [constructor|lia]|].
  rewrite list.NoDup_cons, <- ecnt_zero, <- IH. split.
  - intros H. pose proof (H p) as Hp. rewrite ind_refl in Hp. split; [lia|].
    intros q. specialize (H q). lia.
  - intros [H1 H2] q. specialize (H2 q). unfold ind. case_decide; subst; lia.
Qed.

(** Depth of the hole. *)
Lemma length_elems_plug ctx t : length ctx + length (elems t) ≤ length (elems (plug ctx t)).
Proof.
  revert t. induction ctx as [|[c p k v r|c l p k v] ctx IH]; intros t; simpl; [lia|..];
    (etrans; [|apply IH]); simpl; rewrite length_app; simpl; lia.
Qed.
End trees.

(** ** Order

    What the tree relies on in its comparator function. *)
Class CmpSpec {K} (cmp : K → K → Z) : Prop := {
  cmp_eq a b : cmp a b = 0%Z ↔ a = b;
  cmp_sym a b : (cmp a b < 0 ↔ 0 < cmp b a)%Z;
  cmp_trans a b c : (cmp a b < 0 → cmp b c < 0 → cmp a c < 0)%Z
}.

#[global] Instance rbtree_int_cmp_spec : CmpSpec rbtree_int_cmp.
Proof.
  assert (H : ∀ x y, rbtree_int_cmp x y = match (x ?= y)%Z with Eq => 0 | Lt => -1 | Gt => 1 end%Z).
  { intros x y. unfold rbtree_int_cmp.
    destruct (Z.compare_spec x y); destruct (Z.ltb_spec x y), (Z.ltb_spec y x); simpl; lia. }
  split; intros; rewrite ?H in *;
    repeat match goal with |- context [(?x ?= ?y)%Z] => destruct (Z.compare_spec x y)
           | H' : context [(?x ?= ?y)%Z] |- _ => destruct (Z.compare_spec x y) end; lia.
Qed.

#[global] Instance rbtree_ptr_cmp_spec : CmpSpec rbtree_ptr_cmp.
Proof.
  assert (H : ∀ x y, rbtree_ptr_cmp x y = rbtree_int_cmp (Z.of_N x) (Z.of_N y)).
  { intros x y. unfold rbtree_ptr_cmp, rbtree_int_cmp.
    destruct (N.ltb_spec x y), (N.ltb_spec y x), (Z.ltb_spec (Z.of_N x) (Z.of_N y)),
      (Z.ltb_spec (Z.of_N y) (Z.of_N x)); simpl; lia. }
  split; intros; rewrite ?H in *.
  - rewrite cmp_eq. lia.
  - apply cmp_sym.
  - eapply cmp_trans; eassumption.
Qed.

Section order.
Context {K V : Type} (cmp : K → K → Z) `{!CmpSpec cmp}.
Implicit Types (e : list (ptr * (K * V))) (ctx : list (frame K V)).

Lemma cmp_refl a : cmp a a = 0%Z.
Proof. by apply cmp_eq. Qed.

Definition elt (x y : ptr * (K * V)) : Prop := (cmp x.2.1 y.2.1 < 0)%Z.

(** The search-tree order: the in-order contents are strictly increasing. *)
Definition ordered e : Prop := StronglySorted elt e.

Definition keys_lt e (k : K) : Prop := Forall (λ x, cmp x.2.1 k < 0)%Z e.
Definition keys_gt e (k : K) : Prop := Forall (λ x, cmp k x.2.1 < 0)%Z e.

Lemma ordered_app e1 e2 :
  ordered (e1 ++ e2) ↔ ordered e1 ∧ ordered e2 ∧ Forall (λ x, Forall (elt x) e2) e1.
Proof.
  induction e1 as [|x e1 IH]; simpl.
  - split; [intros; split_and!; [constructor|done|constructor]|naive_solver].
  - split.
    + intros H. apply StronglySorted_inv in H as [H1 H2]. apply IH in H1 as (?&?&?).
      apply Forall_app in H2 as [??]. split_and!; [by constructor|done|by constructor].
    + intros (H1 & H2 & H3). apply StronglySorted_inv in H1 as [??]. inversion H3; subst.
      constructor; [by apply IH|]. by apply Forall_app.
Qed.

Lemma ordered_cons x e : ordered (x :: e) ↔ ordered e ∧ Forall (elt x) e.
Proof. split; [apply StronglySorted_inv|intros []; by constructor]. Qed.

Lemma ordered_mid e1 p k v e2 :
  ordered (e1 ++ (p, (k, v)) :: e2) ↔
  ordered e1 ∧ ordered e2 ∧ keys_lt e1 k ∧ keys_gt e2 k ∧ Forall (λ x, Forall (elt x) e2) e1.
Proof.
  rewrite ordered_app, ordered_cons. unfold keys_lt, keys_gt.
  assert (Forall (λ x, Forall (elt x) ((p, (k, v)) :: e2)) e1 ↔
    Forall (λ x, cmp x.2.1 k < 0)%Z e1 ∧ Forall (λ x, Forall (elt x) e2) e1) as ->.
  { rewrite <- Forall_and. apply Forall_iff. intros x. by rewrite Forall_cons. }
  unfold elt at 2. simpl. tauto.
Qed.

(** Two parts that are separated by a key are ordered together. *)
Lemma ordered_split e1 e2 k :
  ordered e1 → ordered e2 → keys_lt e1 k → keys_gt e2 k → ordered (e1 ++ e2).
Proof.
  intros H1 H2 Hl Hg. apply ordered_app. split_and!; [done..|].
  eapply Forall_impl; [exact Hl|]. intros x Hx. eapply Forall_impl; [exact Hg|].
  intros y Hy. unfold elt. simpl in *. eapply cmp_trans; eassumption.
Qed.

Lemma keys_gt_trans e k k' : (cmp k' k < 0)%Z → keys_gt e k → keys_gt e k'.
Proof. intros Hk H. eapply Forall_impl; [exact H|]. intros x Hx. simpl in *. eapply cmp_trans; eassumption. Qed.
Lemma keys_lt_trans e k k' : (cmp k k' < 0)%Z → keys_lt e k → keys_lt e k'.
Proof. intros Hk H. eapply Forall_impl; [exact H|]. intros x Hx. simpl in *. eapply cmp_trans; eassumption. Qed.

Lemma keys_lt_not_in e k : keys_lt e k → k ∉ e.*2.*1.
Proof.
  unfold keys_lt. induction e as [|x e IH]; intros H; simpl; [apply not_elem_of_nil|].
  inversion H; subst. apply not_elem_of_cons. split; [|by apply IH].
  intros ->. rewrite cmp_refl in *. lia.
Qed.
Lemma keys_gt_not_in e k : keys_gt e k → k ∉ e.*2.*1.
Proof.
  unfold keys_gt. induction e as [|x e IH]; intros H; simpl; [apply not_elem_of_nil|].
  inversion H; subst. apply not_elem_of_cons. split; [|by apply IH].
  intros ->. rewrite cmp_refl in *. lia.
Qed.

(** The key of an ordered list is in one place only. *)
Lemma ordered_nodup e : ordered e → NoDup e.*2.*1.
Proof.
  induction e as [|x e IH]; simpl; intros H; [constructor|].
  apply ordered_cons in H as [H1 H2]. constructor; [|by apply IH].
  by apply keys_gt_not_in.
Qed.

(** The key lies strictly between the parts of the context. *)
Definition between (k : K) ctx : Prop := keys_lt (cleft ctx) k ∧ keys_gt (cright ctx) k.
End order.

Create HintDb rb.
#[export] Hint Constructors rbt rbc : rb.
#[export] Hint Resolve rbt_plug rbc_weaken rbt_bh : rb.
