(* ===== verification/RbRep.v ===== *)
(** * Representation of trees in the node heap, and the rotations

    [rep st ctx t]: the heap of [st] holds the tree [plug ctx t], with every
    left, right and parent pointer in place and each address used once.  The
    tactics below execute the C code of [RbTree] symbolically: each field
    write carries every known assertion to the new heap, and the address
    disequalities it needs are solved by arithmetic on occurrence counts. *)
From stdpp Require Import base gmap list fin_maps numbers.
From Stdlib Require Import ZArith Lia.
From S2P Require Import Prelude RbTree RbInv.

Section rep.
Context {K V : Type}.
Implicit Types (st : rb_tree K V) (t l r : tree K V) (ctx : list (frame K V)).

Definition tptr (nl : ptr) t : ptr := match t with Leaf => nl | Node _ _ p _ _ _ => p end.
Definition cptr (nl : ptr) ctx : ptr := match ctx with [] => nl | f :: _ => fptr f end.
Fixpoint rootp ctx (q : ptr) : ptr := match ctx with [] => q | f :: ctx => rootp ctx (fptr f) end.

Fixpoint trep st (nl : ptr) t (par : ptr) : Prop :=
  match t with
  | Leaf => True
  | Node c l p k v r =>
    nodes st !! p = Some (mk_node (Some k) (Some v) c (tptr nl l) (tptr nl r) par) ∧
    trep st nl l p ∧ trep st nl r p
  end.

Fixpoint crep st (nl : ptr) ctx (hole : ptr) : Prop :=
  match ctx with
  | [] => True
  | FL c p k v r :: ctx =>
    nodes st !! p = Some (mk_node (Some k) (Some v) c hole (tptr nl r) (cptr nl ctx)) ∧
    trep st nl r p ∧ crep st nl ctx p
  | FR c l p k v :: ctx =>
    nodes st !! p = Some (mk_node (Some k) (Some v) c (tptr nl l) hole (cptr nl ctx)) ∧
    trep st nl l p ∧ crep st nl ctx p
  end.

(** No address occurs twice among [NULL], the sentinel, the context and the tree. *)
Definition uniq (nl : ptr) ctx t : Prop :=
  ∀ q, ind q NULL + ind q nl + ccnt q ctx + tcnt q t ≤ 1.

(** [rep st nl np ctx t]: the sentinel of [st] is [nl], its cell is black and
    has parent field [np], and the heap holds [plug ctx t]. *)
Record rep st (nl np : ptr) ctx t : Prop := mk_rep {
  rep_nil : nil st = nl;
  rep_nilcell : ∃ lp rp, nodes st !! nl = Some (mk_node None None BLACK lp rp np);
  rep_root : root st = rootp ctx (tptr nl t);
  rep_ctx : crep st nl ctx (tptr nl t);
  rep_tree : trep st nl t (cptr nl ctx);
  rep_uniq : uniq nl ctx t
}.

(** What the pointer surgery leaves alone: the sentinel's address, the
    allocator, the destructor and its log, and the key and value of each node. *)
Definition kv (n : rb_node K V) : option K * option V := (n_key n, n_value n).

Record same_data st st' : Prop := {
  sd_nil : nil st' = nil st;
  sd_next : next_ptr st' = next_ptr st;
  sd_kvfreer : kvfreer st' = kvfreer st;
  sd_freed : freed st' = freed st;
  sd_kv q : kv <$> nodes st' !! q = kv <$> nodes st !! q
}.

#[global] Instance same_data_preorder : PreOrder same_data.
Proof. split; [by split|]. intros ? ? ? [] []. split; etrans; eauto. Qed.

(** [updated w m st st']: [st'] is [st] with the cell at [w] set to [m]. *)
Record updated (w : ptr) (m : rb_node K V) st st' : Prop := {
  upd_root : root st' = root st;
  upd_nil : nil st' = nil st;
  upd_next : next_ptr st' = next_ptr st;
  upd_kvfreer : kvfreer st' = kvfreer st;
  upd_freed : freed st' = freed st;
  upd_eq : nodes st' !! w = Some m;
  upd_ne q : q ≠ w → nodes st' !! q = nodes st !! q
}.

Lemma wp_store w f m st (Q : unit → rb_tree K V → Prop) :
  nodes st !! w = Some m →
  (∀ st', updated w (f m) st st' → Q tt st') →
  wp (store w f) Q st.
Proof.
  intros Hm HQ. unfold wp, store. rewrite Hm. apply HQ.
  split; simpl; try done; [apply lookup_insert_eq|].
  intros q Hq. by rewrite lookup_insert_ne.
Qed.

Lemma wp_deref w m st (Q : _ → rb_tree K V → Prop) :
  nodes st !! w = Some m → Q m st → wp (deref w) Q st.
Proof. intros Hm HQ. unfold wp, deref. by rewrite Hm. Qed.

Lemma wp_get_root st (Q : ptr → rb_tree K V → Prop) : Q (root st) st → wp get_root Q st.
Proof. done. Qed.
Lemma wp_get_nil st (Q : ptr → rb_tree K V → Prop) : Q (nil st) st → wp get_nil Q st.
Proof. done. Qed.

(** [rerooted q st st']: only the root pointer differs. *)
Record rerooted (q : ptr) st st' : Prop := {
  rr_root : root st' = q;
  rr_nil : nil st' = nil st;
  rr_next : next_ptr st' = next_ptr st;
  rr_kvfreer : kvfreer st' = kvfreer st;
  rr_freed : freed st' = freed st;
  rr_nodes : nodes st' = nodes st
}.

Lemma wp_set_root q st (Q : unit → rb_tree K V → Prop) :
  (∀ st', rerooted q st st' → Q tt st') → wp (set_root q) Q st.
Proof. intros HQ. apply HQ. by split. Qed.

(** ** Carrying assertions across a write *)
Lemma trep_ext st st' nl t par :
  (∀ q, tcnt q t ≠ 0 → nodes st' !! q = nodes st !! q) →
  trep st nl t par → trep st' nl t par.
Proof.
  revert par. induction t as [|c l IHl p k v r IHr]; intros par Hq; simpl; [done|].
  intros (Hp & Hl & Hr). split_and!.
  - rewrite Hq; [done|]. simpl. rewrite ind_refl. lia.
  - apply IHl; [|done]. intros q ?. apply Hq. simpl. lia.
  - apply IHr; [|done]. intros q ?. apply Hq. simpl. lia.
Qed.

Lemma trep_updated st st' nl w m t par :
  updated w m st st' → tcnt w t = 0 → trep st nl t par → trep st' nl t par.
Proof.
  intros Hu Hw. apply trep_ext. intros q Hq. apply Hu. intros ->. lia.
Qed.

Lemma trep_rerooted st st' nl q t par : rerooted q st st' → trep st nl t par → trep st' nl t par.
Proof. intros [????? Hh]. apply trep_ext. by rewrite Hh. Qed.

Lemma crep_ext st st' nl ctx hole :
  (∀ q, ccnt q ctx ≠ 0 → nodes st' !! q = nodes st !! q) →
  crep st nl ctx hole → crep st' nl ctx hole.
Proof.
  revert hole. induction ctx as [|f ctx IH]; intros hole Hq; simpl; [done|].
  destruct f as [c p k v r|c l p k v]; intros (Hp & Ht & Hc); (split_and!;
    [ rewrite Hq; [done|]; simpl; rewrite ind_refl; lia
    | eapply trep_ext; [..|done]; intros q ?; apply Hq; simpl; lia
    | apply IH; [|done]; intros q ?; apply Hq; simpl; lia ]).
Qed.

Lemma crep_updated st st' nl w m ctx hole :
  updated w m st st' → ccnt w ctx = 0 → crep st nl ctx hole → crep st' nl ctx hole.
Proof.
  intros Hu Hw. apply crep_ext. intros q Hq. apply Hu. intros ->. lia.
Qed.

Lemma crep_rerooted st st' nl q ctx hole :
  rerooted q st st' → crep st nl ctx hole → crep st' nl ctx hole.
Proof. intros [????? Hh]. apply crep_ext. by rewrite Hh. Qed.

Lemma same_data_updated st0 st st' w m m' :
  updated w m' st st' → nodes st !! w = Some m → kv m' = kv m →
  same_data st0 st → same_data st0 st'.
Proof.
  intros Hu Hm Hkv Hsd. etrans; [exact Hsd|]. split; try apply Hu.
  intros q. destruct (decide (q = w)) as [->|Hne].
  - rewrite (upd_eq _ _ _ _ Hu), Hm. simpl. by rewrite Hkv.
  - by rewrite (upd_ne _ _ _ _ Hu).
Qed.

Lemma same_data_rerooted st0 st st' q : rerooted q st st' → same_data st0 st → same_data st0 st'.
Proof. intros [????? Hh] Hsd. etrans; [exact Hsd|]. split; try done. by rewrite Hh. Qed.

Lemma updated_lookup st st' w m q (x : rb_node K V) :
  updated w m st st' → q ≠ w → nodes st !! q = Some x → nodes st' !! q = Some x.
Proof. intros Hu Hq Hx. by rewrite (upd_ne _ _ _ _ Hu). Qed.

Lemma rerooted_lookup st st' w q (x : rb_node K V) :
  rerooted w st st' → nodes st !! q = Some x → nodes st' !! q = Some x.
Proof. intros Hu Hx. by rewrite (rr_nodes _ _ _ Hu). Qed.

Lemma tptr_ne nl q t : q ≠ nl → tcnt q t = 0 → q ≠ tptr nl t.
Proof. destruct t; simpl; [done|]. intros _ Hq ->. rewrite ind_refl in Hq. lia. Qed.

(** ** Moving the focus *)
Lemma rep_up st nl np f ctx t : rep st nl np (f :: ctx) t ↔ rep st nl np ctx (fill f t).
Proof.
  split; intros [Hnl Hn Hr Hc Ht Hu]; destruct f; simpl in *; destruct_and?;
    (split; simpl; [done|done|done|by eauto|by eauto|]);
    intros q; specialize (Hu q); simpl in *; lia.
Qed.

Lemma rep_plug st nl np ctx t : rep st nl np ctx t ↔ rep st nl np [] (plug ctx t).
Proof. revert t. induction ctx; intros; simpl; [done|]. by rewrite rep_up, IHctx. Qed.

Lemma rep_plug_app st nl np ctx1 ctx2 t :
  rep st nl np (ctx1 ++ ctx2) t ↔ rep st nl np ctx2 (plug ctx1 t).
Proof. rewrite rep_plug, plug_app, <- rep_plug. done. Qed.
End rep.

(** ** Symbolic execution *)

(** Disequalities and non-membership of addresses, from a [uniq] hypothesis. *)
Ltac addr_at w :=
  match goal with
  | U : uniq _ _ _ |- _ =>
    let X := fresh "X" in
    pose proof (U w) as X; simpl in X; rewrite ?ind_refl in X; lia
  end.

Ltac addr :=
  simpl;
  lazymatch goal with
  | |- tcnt ?w _ = 0 => addr_at w
  | |- ccnt ?w _ = 0 => addr_at w
  | |- _ ≠ tptr _ _ => apply tptr_ne; addr
  | |- tptr _ _ ≠ _ => apply not_eq_sym, tptr_ne; addr
  | |- ?a ≠ ?b =>
    let E := fresh "E" in
    intros E; exfalso;
    match goal with U : uniq _ _ _ |- _ =>
      let X := fresh "X" in
      pose proof (U a) as X; simpl in X; rewrite ?E in X; rewrite ?ind_refl in X; lia
    end
  end.

(** Carry the context across the write [U : updated w m st st']. *)
Ltac transport U :=
  lazymatch type of U with
  | updated ?w ?m ?st ?st' =>
    repeat match goal with
    | H : same_data _ st |- _ =>
      eapply (same_data_updated _ _ _ _ _ _ U) in H; [|eassumption|reflexivity]
    end;
    repeat match goal with
    | H : nodes st !! ?q = Some _ |- _ =>
      first [ constr_eq q w; clear H
            | apply (updated_lookup _ _ _ _ _ _ U) in H; [|addr] ]
    | H : trep st _ _ _ |- _ => apply (trep_updated _ _ _ _ _ _ _ U) in H; [|addr]
    | H : crep st _ _ _ |- _ => apply (crep_updated _ _ _ _ _ _ _ U) in H; [|addr]
    | H : nil st = _ |- _ => rewrite <- (upd_nil _ _ _ _ U) in H
    | H : root st = _ |- _ => rewrite <- (upd_root _ _ _ _ U) in H
    end;
    let E := fresh "C" in
    pose proof (upd_eq _ _ _ _ U) as E;
    unfold with_left, with_right, with_parent, with_colour in E; simpl in E;
    clear U
  | rerooted ?q ?st ?st' =>
    repeat match goal with
    | H : same_data _ st |- _ => eapply (same_data_rerooted _ _ _ _ U) in H
    | H : nodes st !! _ = Some _ |- _ => apply (rerooted_lookup _ _ _ _ _ U) in H
    | H : trep st _ _ _ |- _ => apply (trep_rerooted _ _ _ _ _ _ U) in H
    | H : crep st _ _ _ |- _ => apply (crep_rerooted _ _ _ _ _ _ U) in H
    | H : nil st = _ |- _ => rewrite <- (rr_nil _ _ _ U) in H
    | H : root st = _ |- _ => clear H
    end;
    let E := fresh "C" in
    pose proof (rr_root _ _ _ U) as E; clear U
  end.

(** One step of the C code. *)
Ltac wstep :=
  lazymatch goal with
  | |- wp (mbind _ _) _ _ => apply wp_bind
  | |- wp (mret _) _ _ => apply wp_ret
  | |- wp get_nil _ ?st =>
    apply wp_get_nil; try match goal with H : nil st = _ |- _ => rewrite H end
  | |- wp get_root _ ?st =>
    apply wp_get_root; match goal with H : root st = _ |- _ => rewrite H end
  | |- wp get _ _ => apply wp_get
  | |- wp (deref _) _ _ => eapply wp_deref; [eassumption|]; simpl
  | |- wp (get_left _) _ _ => apply wp_bind; eapply wp_deref; [eassumption|]; apply wp_ret; simpl
  | |- wp (get_right _) _ _ => apply wp_bind; eapply wp_deref; [eassumption|]; apply wp_ret; simpl
  | |- wp (get_parent _) _ _ => apply wp_bind; eapply wp_deref; [eassumption|]; apply wp_ret; simpl
  | |- wp (get_colour _) _ _ => apply wp_bind; eapply wp_deref; [eassumption|]; apply wp_ret; simpl
  | |- wp (get_key _) _ _ => apply wp_bind; eapply wp_deref; [eassumption|]; apply wp_ret; simpl
  | |- wp (set_root _) _ _ =>
    let st' := fresh "st" in let U := fresh "U" in
    apply wp_set_root; intros st' U; transport U
  | |- wp (set_left _ _) _ _ => unfold set_left
  | |- wp (set_right _ _) _ _ => unfold set_right
  | |- wp (set_parent _ _) _ _ => unfold set_parent
  | |- wp (set_colour _ _) _ _ => unfold set_colour
  | |- wp (store _ _) _ _ =>
    let st' := fresh "st" in let U := fresh "U" in
    eapply wp_store; [eassumption|]; intros st' U; transport U
  | |- wp (if decide (?a = ?a) then _ else _) _ _ => rewrite decide_True by reflexivity
  | |- wp (if decide (?a = ?b) then _ else _) _ _ => rewrite decide_False by addr
  end.

Ltac wsteps := repeat wstep.

(** Expose the assertions of a [rep] hypothesis. *)
Ltac open_rep H :=
  let Hnl := fresh "Hnl" in let Hn := fresh "Hn" in let Hr := fresh "Hr" in
  let Hc := fresh "Hc" in let Ht := fresh "Ht" in let Hu := fresh "Hu" in
  destruct H as [Hnl (? & ? & Hn) Hr Hc Ht Hu]; simpl in Hr, Hc, Ht; destruct_and?.

Ltac close_rep :=
  split; simpl;
  [ assumption | by eauto | assumption | by eauto | by eauto
  | let q := fresh "q" in intros q;
    match goal with U : uniq _ _ _ |- _ => specialize (U q); simpl in *; lia end ].

(** Open the assertions of [H], keeping [H]. *)
Ltac inspect H := let H' := fresh "H" in pose proof H as H'; open_rep H'.

Ltac same_elems := rewrite ?elems_plug; repeat progress (simpl; rewrite <- ?app_assoc); reflexivity.

Section rotations.
Context {K V : Type}.
Implicit Types (st : rb_tree K V) (a b g : tree K V) (ctx : list (frame K V)).

Lemma left_rot_spec st0 st nl np ctx c a p k v c' b y k' v' g Q :
  rep st nl np ctx (Node c a p k v (Node c' b y k' v' g)) →
  same_data st0 st →
  (∀ st', rep st' nl np ctx (Node c' (Node c a p k v b) y k' v' g) →
     same_data st0 st' → Q tt st') →
  wp (left_rot p) Q st.
Proof.
  intros H Hsd HQ. open_rep H. unfold left_rot.
  destruct b as [|cb bl pb kb vb br], ctx as [|[cf pf kf vf rf|cf lf pf kf vf] ctx];
    simpl in *; destruct_and?; wsteps; (apply HQ; [close_rep|assumption]).
Qed.

Lemma right_rot_spec st0 st nl np ctx c a p k v c' b y k' v' g Q :
  rep st nl np ctx (Node c' (Node c a p k v b) y k' v' g) →
  same_data st0 st →
  (∀ st', rep st' nl np ctx (Node c a p k v (Node c' b y k' v' g)) →
     same_data st0 st' → Q tt st') →
  wp (right_rot y) Q st.
Proof.
  intros H Hsd HQ. open_rep H. unfold right_rot.
  destruct b as [|cb bl pb kb vb br], ctx as [|[cf pf kf vf rf|cf lf pf kf vf] ctx];
    simpl in *; destruct_and?; wsteps; (apply HQ; [close_rep|assumption]).
Qed.
End rotations.

(** ** Well-formed trees *)
Section wf.
Context {K V : Type} (cmp : K → K → Z).
Implicit Types (st : rb_tree K V) (t T : tree K V) (ctx : list (frame K V)).

(** [wf st T]: the heap of [st] is exactly the sentinel and the nodes of the
    search tree [T], and new addresses are above all of them. *)
Record wf st T : Prop := {
  wf_rep : ∃ np, rep st (nil st) np [] T;
  wf_redblack : redblack T;
  wf_ordered : ordered cmp (elems T);
  wf_dom q : is_Some (nodes st !! q) ↔ q = nil st ∨ q ∈ (elems T).*1;
  wf_next q : is_Some (nodes st !! q) → (q < next_ptr st)%N
}.

(** The key-value pairs in order. *)
Definition contents T : list (K * V) := (elems T).*2.

Lemma rep_live st nl np T q :
  rep st nl np [] T → q = nl ∨ q ∈ (elems T).*1 → is_Some (nodes st !! q).
Proof.
  intros [_ (? & ? & Hn) _ _ Ht _] [->|Hq]; [by eauto|]. clear Hn.
  revert Ht. generalize (cptr nl ([] : list (frame K V))).
  induction T as [|c l IHl p k v r IHr]; intros par; simpl in *; [by apply not_elem_of_nil in Hq|].
  intros (Hp & Hl & Hr). rewrite fmap_app, elem_of_app in Hq. simpl in Hq. rewrite elem_of_cons in Hq.
  destruct Hq as [Hq|[->|Hq]]; eauto.
Qed.

Lemma rep_nodup st nl np T : rep st nl np [] T → NoDup (NULL :: nl :: (elems T).*1).
Proof.
  intros H. pose proof (rep_uniq _ _ _ _ _ H) as Hu.
  assert (Hn : ∀ q, ind q NULL + ind q nl + ecnt q (elems T) ≤ 1).
  { intros q. specialize (Hu q). simpl in Hu. rewrite tcnt_elems in Hu. lia. }
  rewrite !list.NoDup_cons, not_elem_of_cons, <- !ecnt_zero, <- ecnt_nodup. split_and!.
  - intros E. specialize (Hn nl). rewrite E, !ind_refl in Hn. lia.
  - specialize (Hn NULL). rewrite ind_refl in Hn. lia.
  - specialize (Hn nl). rewrite ind_refl in Hn. lia.
  - intros q. specialize (Hn q). lia.
Qed.

(** The representation only depends on the cells it mentions. *)
Lemma rep_ext st st' nl np T :
  nil st' = nil st → root st' = root st →
  (∀ q, q = nl ∨ q ∈ (elems T).*1 → nodes st' !! q = nodes st !! q) →
  rep st nl np [] T → rep st' nl np [] T.
Proof.
  intros Hnl Hroot Hq [? (lp & rp & Hn) ? _ Ht Hu]. split; [congruence| |congruence|done| |done].
  - exists lp, rp. rewrite Hq by auto. done.
  - eapply trep_ext; [|done]. intros q Hc. apply Hq. right.
    rewrite tcnt_elems in Hc. destruct (decide (q ∈ (elems T).*1)) as [|Hn']; [done|].
    apply ecnt_zero in Hn'. done.
Qed.

Lemma same_data_live st st' q : same_data st st' → is_Some (nodes st' !! q) ↔ is_Some (nodes st !! q).
Proof.
  intros Hsd. pose proof (sd_kv _ _ Hsd q) as Hq. rewrite <- !(fmap_is_Some kv). by rewrite Hq.
Qed.

(** The heap has room for the sentinel besides the nodes of the tree. *)
Lemma rep_size st nl np T : rep st nl np [] T → length (elems T) < size (nodes st).
Proof.
  intros H. pose proof (rep_nodup _ _ _ _ H) as [_ Hnd]%list.NoDup_cons.
  rewrite <- size_dom.
  change (S (length (elems T)) ≤ size (dom (nodes st))).
  transitivity (size (list_to_set (nl :: (elems T).*1) : gset ptr)).
  { rewrite size_list_to_set by done. simpl. rewrite length_fmap. lia. }
  apply subseteq_size. intros q. rewrite elem_of_list_to_set, elem_of_cons, elem_of_dom.
  by apply (rep_live _ _ _ _ _ H).
Qed.

Lemma wf_contents_nodup `{!CmpSpec cmp} st T : wf st T → NoDup (contents T).*1.
Proof. intros [_ _ Ho _ _]. unfold contents. by eapply ordered_nodup. Qed.
End wf.
