(* ===== verification/RbInsert.v ===== *)
(** * Insertion into the pointer red-black tree

    [rbtree_insert] keeps the representation and the red-black invariant, adds
    exactly the new node to the in-order contents, and needs no more fuel than
    the depth of the tree. *)
From stdpp Require Import base gmap list fin_maps numbers.
From Stdlib Require Import ZArith Lia.
From S2P Require Import Prelude RbTree RbInv RbRep.

Section insert.
Context {K V : Type}.
Implicit Types (st : rb_tree K V) (t l r : tree K V) (ctx : list (frame K V)).

Definition blacken t : tree K V :=
  match t with Leaf => Leaf | Node _ l p k v r => Node BLACK l p k v r end.

Lemma elems_blacken t : elems (blacken t) = elems t.
Proof. by destruct t. Qed.

Lemma set_colour_spec st0 st nl np ctx c c' l p k v r Q :
  rep st nl np ctx (Node c l p k v r) → same_data st0 st →
  (∀ st', rep st' nl np ctx (Node c' l p k v r) → same_data st0 st' → Q tt st') →
  wp (set_colour p c') Q st.
Proof.
  intros H Hsd HQ. open_rep H. wsteps. apply HQ; [close_rep|assumption].
Qed.

(** The result of a fix-up: a red-black tree with the given contents. *)
Definition fixed st0 nl np (e : list (ptr * (K * V))) st' : Prop :=
  ∃ T, rep st' nl np [] T ∧ redblack T ∧ elems T = e ∧ same_data st0 st'.

Lemma blacken_root_spec st0 st nl np c l p k v r :
  rep st nl np [] (Node c l p k v r) → same_data st0 st → redblack (Node BLACK l p k v r) →
  wp (r ← get_root; set_colour r BLACK)
     (λ _ st', fixed st0 nl np (elems (Node c l p k v r)) st') st.
Proof.
  intros H Hsd Hrb. apply wp_bind, wp_get_root. rewrite (rep_root _ _ _ _ _ H). simpl.
  eapply set_colour_spec; [done..|]. intros st' H' Hsd'. by eexists.
Qed.

Lemma plug_node ctx c l p k v r : ∃ c' l' p' k' v' r',
  plug ctx (Node c l p k v r) = Node c' l' p' k' v' r'.
Proof.
  revert c l p k v r. induction ctx as [|[] ctx IH]; intros; simpl; [by eauto 10|apply IH..].
Qed.

(** The loop exits at a node whose parent is black. *)
Lemma insert_fixup_black st0 st nl np f ctx c l p k v r fuel :
  rep st nl np (f :: ctx) (Node c l p k v r) → fcolour f = BLACK →
  redblack (plug (f :: ctx) (Node c l p k v r)) → same_data st0 st →
  wp (rbtree_insert_fixup_loop (S fuel) p)
     (λ _ st', fixed st0 nl np (elems (plug (f :: ctx) (Node c l p k v r))) st') st.
Proof.
  intros H Hf Hrb Hsd. simpl rbtree_insert_fixup_loop.
  pose proof (proj1 (rep_plug _ _ _ _ _) H) as HT.
  destruct (plug_node (f :: ctx) c l p k v r) as (c' & l' & p' & k' & v' & r' & Heq).
  rewrite Heq in *. open_rep H.
  assert (Hcell : ∃ n, nodes st !! fptr f = Some n ∧ n_colour n = BLACK)
    by (destruct f; simpl in *; subst; destruct_and?; eauto).
  destruct Hcell as (n & Hfc & Hn'). wsteps. rewrite Hn'.
  eapply blacken_root_spec; [done..|]. destruct Hrb as [m Hrb]. by inversion Hrb; subst; eexists.
Qed.

Lemma fixed_elems st0 nl np (e e' : list (ptr * (K * V))) (m : M (rb_tree K V) unit) st :
  e = e' → wp m (λ _ st', fixed st0 nl np e st') st → wp m (λ _ st', fixed st0 nl np e' st') st.
Proof. by intros ->. Qed.

(** The four rebalancing cases with a black uncle end in a red node whose
    parent is black; [fixup_done] closes them. *)
Lemma fixup_done st0 st nl np f ctx l p k v r n fuel e :
  rep st nl np (f :: ctx) (Node RED l p k v r) → same_data st0 st → fcolour f = BLACK →
  rbc BLACK (S n) ctx → rbt BLACK (S n) (fill f (Node RED l p k v r)) → 0 < fuel →
  e = elems (plug (f :: ctx) (Node RED l p k v r)) →
  wp (rbtree_insert_fixup_loop fuel p) (λ _ st', fixed st0 nl np e st') st.
Proof.
  intros H Hsd Hf Hc Hb Hfuel ->. destruct fuel; [lia|].
  eapply insert_fixup_black; eauto. simpl. eauto with rb.
Qed.

Ltac finish f :=
  match goal with H : rep _ ?nl ?np ?ctx _, Hc : rbc BLACK (S ?n) ?ctx |- _ =>
    eapply (fixup_done _ _ nl np f ctx _ _ _ _ _ n);
    [apply rep_up; exact H|eassumption|reflexivity|exact Hc|simpl; eauto with rb|lia|same_elems]
  end.

(** The cell that a child pointer designates: the root of the subtree, or the
    black sentinel. *)
Lemma tree_cell st nl np lp rp t par :
  nodes st !! nl = Some (mk_node None None BLACK lp rp np) → trep st nl t par →
  ∃ m, nodes st !! tptr nl t = Some m ∧ n_colour m = tcolour t.
Proof. intros Hn. destruct t; simpl; intros; destruct_and?; eauto. Qed.

Section black_uncle.
Context (fuel : nat) (st0 st : rb_tree K V) (nl np : ptr) (ctx : list (frame K V)) (n : nat).
Context (l : tree K V) (p : ptr) (k : K) (v : V) (r sib : tree K V) (pp : ptr) (kp : K) (vp : V)
        (pg : ptr) (kg : K) (vg : V) (unc : tree K V).
Hypotheses (Hsd : same_data st0 st) (Hl : rbt BLACK n l) (Hr : rbt BLACK n r)
  (Hsib : rbt BLACK n sib) (Hunc : rbt BLACK n unc) (Hctx : rbc BLACK (S n) ctx) (Hfuel : 0 < fuel).

(** Run the code up to the first rotation. *)
Ltac start H :=
  simpl rbtree_insert_fixup_loop;
  pose proof Hsd; inspect H;
  let mu := fresh "mu" in let Hmu := fresh "Hmu" in let Hmc := fresh "Hmc" in
  match goal with
  | Hn : nodes st !! nl = Some _, Ht : trep st nl unc _ |- _ =>
    destruct (tree_cell _ _ _ _ _ _ _ Hn Ht) as (mu & Hmu & Hmc)
  end;
  rewrite (rbt_colour _ _ _ Hunc) in Hmc; wsteps; rewrite Hmc; wsteps.

Abbreviation goal_of ctx' :=
  (wp (rbtree_insert_fixup_loop (S fuel) p)
      (λ _ st', fixed st0 nl np (elems (plug ctx' (Node RED l p k v r))) st') st).

Lemma fixup_left_outer :
  let ctx' := FL RED pp kp vp sib :: FL BLACK pg kg vg unc :: ctx in
  rep st nl np ctx' (Node RED l p k v r) → goal_of ctx'.
Proof using All.
  intros ctx' H. subst ctx'. start H.
  eapply (right_rot_spec st0 _ nl np ctx BLACK (Node RED l p k v r) pp kp vp RED sib pg kg vg unc);
    [close_rep|eassumption|].
  intros st' H' Hsd'. finish (FL BLACK pp kp vp (Node RED sib pg kg vg unc)).
Qed.

Lemma fixup_left_inner :
  let ctx' := FR RED sib pp kp vp :: FL BLACK pg kg vg unc :: ctx in
  rep st nl np ctx' (Node RED l p k v r) → goal_of ctx'.
Proof using All.
  intros ctx' H. subst ctx'. start H.
  eapply (left_rot_spec st0 _ nl np (FL BLACK pg kg vg unc :: ctx) RED sib pp kp vp RED l p k v r);
    [close_rep|eassumption|].
  intros st1 H1' Hsd1. inspect H1'; wsteps.
  eapply (right_rot_spec st0 _ nl np ctx BLACK (Node RED sib pp kp vp l) p k v RED r pg kg vg unc);
    [close_rep|eassumption|].
  intros st' H' Hsd'. finish (FL BLACK p k v (Node RED r pg kg vg unc)).
Qed.

Lemma fixup_right_outer :
  let ctx' := FR RED sib pp kp vp :: FR BLACK unc pg kg vg :: ctx in
  rep st nl np ctx' (Node RED l p k v r) → goal_of ctx'.
Proof using All.
  intros ctx' H. subst ctx'. start H.
  eapply (left_rot_spec st0 _ nl np ctx RED unc pg kg vg BLACK sib pp kp vp (Node RED l p k v r));
    [close_rep|eassumption|].
  intros st' H' Hsd'. finish (FR BLACK (Node RED unc pg kg vg sib) pp kp vp).
Qed.

Lemma fixup_right_inner :
  let ctx' := FL RED pp kp vp sib :: FR BLACK unc pg kg vg :: ctx in
  rep st nl np ctx' (Node RED l p k v r) → goal_of ctx'.
Proof using All.
  intros ctx' H. subst ctx'. start H.
  eapply (right_rot_spec st0 _ nl np (FR BLACK unc pg kg vg :: ctx) RED l p k v RED r pp kp vp sib);
    [close_rep|eassumption|].
  intros st1 H1' Hsd1. inspect H1'; wsteps.
  eapply (left_rot_spec st0 _ nl np ctx RED unc pg kg vg BLACK l p k v (Node RED r pp kp vp sib));
    [close_rep|eassumption|].
  intros st' H' Hsd'. finish (FR BLACK (Node RED unc pg kg vg l) p k v).
Qed.
End black_uncle.

(** A red uncle: parent and uncle become black, the grandparent red. *)
Definition fblack (f : frame K V) : frame K V :=
  match f with FL _ p k v r => FL BLACK p k v r | FR _ l p k v => FR BLACK l p k v end.
Definition fred_blacken (f : frame K V) : frame K V :=
  match f with FL _ p k v r => FL RED p k v (blacken r) | FR _ l p k v => FR RED (blacken l) p k v end.
Definition fsub (f : frame K V) : tree K V := match f with FL _ _ _ _ r => r | FR _ l _ _ _ => l end.

Lemma fixup_red_uncle fuel st0 st nl np fp fg ctx l p k v r Q :
  rep st nl np (fp :: fg :: ctx) (Node RED l p k v r) → same_data st0 st →
  fcolour fp = RED → tcolour (fsub fg) = RED →
  (∀ st', rep st' nl np ctx (fill (fred_blacken fg) (fill (fblack fp) (Node RED l p k v r))) →
     same_data st0 st' → wp (rbtree_insert_fixup_loop fuel (fptr fg)) Q st') →
  wp (rbtree_insert_fixup_loop (S fuel) p) Q st.
Proof.
  intros H Hsd Hfp Hfg HQ. simpl rbtree_insert_fixup_loop.
  destruct fp as [cp pp kp vp rp|cp lp pp kp vp], fg as [cg pg kg vg ug|cg ug pg kg vg];
    simpl in Hfp, Hfg; subst cp; destruct ug as [|[] ul up uk uv ur]; try done;
    inspect H; wsteps; (apply HQ; [close_rep|assumption]).
Qed.

(** The invariant of the loop of [rbtree_insert_fixup]: the focus is a red node
    whose children are fine, and the context would accept it if it were black. *)
Lemma rbtree_insert_fixup_loop_spec fuel st0 st nl np ctx l p k v r n :
  rep st nl np ctx (Node RED l p k v r) → same_data st0 st →
  rbt BLACK n l → rbt BLACK n r → rbc BLACK n ctx → length ctx < fuel →
  wp (rbtree_insert_fixup_loop fuel p)
     (λ _ st', fixed st0 nl np (elems (plug ctx (Node RED l p k v r))) st') st.
Proof.
  revert st ctx l p k v r n. induction fuel as [|fuel IH]; [lia|].
  intros st ctx l p k v r n H Hsd Hl Hr Hctx Hfuel.
  inversion Hctx as [n'|n' pp kp vp sib ctx' Hctx' Hsib|n' sib pp kp vp ctx' Hctx' Hsib
                    |c cs n' pp kp vp sib ctx' Hctx' Hsib|c cs n' sib pp kp vp ctx' Hctx' Hsib]; subst;
    [|inversion Hctx' as [| | |c2 cu n2 pg kg vg unc ctx2 Hctx2 Hunc|c2 cu n2 unc pg kg vg ctx2 Hctx2 Hunc];
      subst; simpl in Hfuel; destruct cu ..| |];
    try solve [eapply insert_fixup_black; eauto with rb].
  { (* the root *)
    simpl rbtree_insert_fixup_loop. inspect H. wsteps. exists (Node BLACK l p k v r).
    split_and!; [close_rep|eexists; eauto with rb|done|done]. }
  all: try solve [first [eapply fixup_left_outer | eapply fixup_left_inner | eapply fixup_right_outer
                        |eapply fixup_right_inner]; eauto; lia].
  all: eapply (fixup_red_uncle _ st0); [eassumption..|done|by eapply rbt_colour|];
    intros st' H' Hsd'; simpl in H'; inversion Hunc; subst;
    (eapply fixed_elems; [|eapply IH; [exact H'|..]]; [same_elems|simpl; eauto with rb..|lia]).
Qed.
End insert.

Section find_insert.
Context {K V : Type} `{!EqDecision K} (cmp : K → K → Z) `{!CmpSpec cmp}.
Implicit Types (st : rb_tree K V) (t l r T : tree K V) (ctx : list (frame K V)).

(** Descending to the side of the key keeps it between the parts of the context. *)
Lemma between_left key ctx c p k v r l :
  between cmp key ctx → ordered cmp (elems (plug ctx (Node c l p k v r))) →
  (cmp key k < 0)%Z → between cmp key (FL c p k v r :: ctx).
Proof.
  intros [Hl Hr] Ho Hk. split; [done|]. simpl. rewrite elems_plug in Ho. simpl in Ho.
  apply ordered_app in Ho as (_ & Ho & _). rewrite <- app_assoc in Ho.
  apply ordered_mid in Ho as (_ & _ & _ & Hg & _).
  constructor; [done|]. apply Forall_app in Hg as [Hg _].
  apply Forall_app. split; [|done]. by eapply keys_gt_trans.
Qed.

Lemma between_right key ctx c p k v r l :
  between cmp key ctx → ordered cmp (elems (plug ctx (Node c l p k v r))) →
  (0 < cmp key k)%Z → between cmp key (FR c l p k v :: ctx).
Proof.
  intros [Hl Hr] Ho Hk. apply cmp_sym in Hk. split; [|done]. simpl. rewrite elems_plug in Ho. simpl in Ho.
  apply ordered_app in Ho as (_ & Ho & _). rewrite <- app_assoc in Ho.
  apply ordered_mid in Ho as (_ & _ & Hg & _ & _).
  apply Forall_app. split; [done|]. apply Forall_app. split; [|by repeat constructor].
  by eapply keys_lt_trans.
Qed.

Lemma between_absent key ctx : between cmp key ctx → key ∉ (elems (plug ctx Leaf)).*2.*1.
Proof.
  intros [Hl Hr]. rewrite elems_plug. simpl. rewrite !fmap_app, elem_of_app.
  intros [H|H]; revert H; [by eapply keys_lt_not_in|by eapply keys_gt_not_in].
Qed.

Lemma elem_of_key_plug ctx c l p k v r : k ∈ (elems (plug ctx (Node c l p k v r))).*2.*1.
Proof.
  rewrite elems_plug, !fmap_app. apply elem_of_app; right. apply elem_of_app; left. simpl.
  rewrite !fmap_app. apply elem_of_app; right. simpl. apply elem_of_cons. by left.
Qed.

(** The result of a search: the sentinel when the key is absent, and otherwise
    the node that holds it. *)
Definition found T nl key (q : ptr) : Prop :=
  (q = nl ∧ key ∉ (elems T).*2.*1) ∨
  (∃ ctx c l v r, T = plug ctx (Node c l q key v r)).

Lemma rbtree_recursive_search_spec fuel st nl np ctx t key :
  rep st nl np ctx t → between cmp key ctx → ordered cmp (elems (plug ctx t)) →
  height t < fuel →
  wp (rbtree_recursive_search cmp fuel (tptr nl t) key)
     (λ q st', st' = st ∧ found (plug ctx t) nl key q) st.
Proof.
  revert ctx t. induction fuel as [|fuel IH]; [lia|]. intros ctx t H Hb Ho Hf.
  simpl rbtree_recursive_search. destruct t as [|c l p k v r]; simpl tptr.
  - inspect H. wsteps. split; [done|]. left. split; [done|]. by apply between_absent.
  - simpl in Hf. inspect H. wsteps.
    case_decide as E0.
    { wsteps. split; [done|]. apply cmp_eq in E0 as ->. right. by eauto 10. }
    case_decide; wsteps.
    + eapply (IH (FL c p k v r :: ctx)); [by apply rep_up|by eapply between_left|done|lia].
    + eapply (IH (FR c l p k v :: ctx)); [by apply rep_up|eapply between_right; eauto; lia|done|lia].
Qed.

Lemma rbtree_find_spec st T key :
  wf cmp st T → wp (rbtree_find cmp key) (λ q st', st' = st ∧ found T (nil st) key q) st.
Proof.
  intros [[np H] _ Ho _ _]. unfold rbtree_find, wp.
  rewrite (rep_root _ _ _ _ _ H).
  apply (rbtree_recursive_search_spec _ _ _ np [] T); [done|by split; constructor|done|].
  apply rep_size in H. pose proof (height_elems T). rewrite loop_fuel_eq. lia.
Qed.

Lemma insert_node_loop_spec fuel st nl np ctx t key :
  rep st nl np ctx t → between cmp key ctx → ordered cmp (elems (plug ctx t)) →
  key ∉ (elems (plug ctx t)).*2.*1 → length (elems t) < fuel →
  wp (insert_node_loop cmp fuel key (cptr nl ctx) (tptr nl t))
     (λ q st', st' = st ∧ ∃ ctx', q = cptr nl ctx' ∧ plug ctx' Leaf = plug ctx t ∧ between cmp key ctx') st.
Proof.
  revert ctx t. induction fuel as [|fuel IH]; [lia|]. intros ctx t H Hb Ho Hk Hf.
  simpl insert_node_loop. destruct t as [|c l p k v r]; simpl tptr.
  - inspect H. wsteps. by eauto.
  - simpl in Hf. rewrite length_app in Hf. simpl in Hf. inspect H. wsteps.
    case_decide; wsteps.
    + eapply (IH (FL c p k v r :: ctx)); [by apply rep_up|by eapply between_left|done|done|lia].
    + eapply (IH (FR c l p k v :: ctx)); [by apply rep_up|eapply between_right; eauto|done|done|lia].
      enough (cmp key k ≠ 0%Z) by lia. intros ->%cmp_eq. apply Hk.
      apply elem_of_key_plug.
Qed.

(** Linking the new node below [previous]. *)
Lemma insert_node_link_spec st0 st nl np ctx p key v n :
  rep st nl np ctx Leaf → uniq nl ctx (Node RED Leaf p key v Leaf) →
  same_data st0 st → between cmp key ctx → rbc BLACK n ctx → n = 0 →
  nodes st !! p = Some (mk_node (Some key) (Some v) BLACK nl nl nl) →
  wp (set_parent p (cptr nl ctx);;
      (if decide (cptr nl ctx = nl) then set_root p else
       k ← get_key (cptr nl ctx);
       if decide (cmp key k < 0)%Z then set_left (cptr nl ctx) p else set_right (cptr nl ctx) p);;
      set_left p nl;; set_right p nl;; set_colour p RED;; rbtree_insert_fixup p)
     (λ _ st', fixed st0 nl np (elems (plug ctx (Node RED Leaf p key v Leaf))) st') st.
Proof.
  intros H Hun Hsd [Hl Hr] Hc -> Hp.
  assert (Hfix : ∀ st', rep st' nl np ctx (Node RED Leaf p key v Leaf) → same_data st0 st' →
    wp (rbtree_insert_fixup p)
       (λ _ st', fixed st0 nl np (elems (plug ctx (Node RED Leaf p key v Leaf))) st') st').
  { intros st' H' Hsd'. unfold rbtree_insert_fixup, wp.
    eapply (rbtree_insert_fixup_loop_spec _ st0 st' nl np ctx); eauto with rb.
    apply rep_plug, rep_size in H'. pose proof (length_elems_plug ctx (Node RED Leaf p key v Leaf)).
    rewrite loop_fuel_eq. simpl in *. lia. }
  destruct ctx as [|[cf pf kf vf rf|cf lf pf kf vf] ctx]; simpl in Hl, Hr;
    inspect H; simpl cptr in *; wsteps.
  - apply Hfix; [close_rep|done].
  - rewrite decide_True by (by inversion Hr). wsteps. apply Hfix; [close_rep|done].
  - rewrite decide_False; [wsteps; apply Hfix; [close_rep|done]|].
    apply Forall_app in Hl as [_ Hl]. apply Forall_app in Hl as [_ Hl]. inversion Hl; subst; simpl in *.
    match goal with X : (cmp kf key < 0)%Z |- _ => apply cmp_sym in X end. lia.
Qed.

Lemma insert_node_spec st0 st nl np T p key v :
  rep st nl np [] T → redblack T → ordered cmp (elems T) → key ∉ (elems T).*2.*1 →
  same_data st0 st → uniq nl [] (Node RED T p key v Leaf) →
  nodes st !! p = Some (mk_node (Some key) (Some v) BLACK nl nl nl) →
  wp (insert_node cmp p)
     (λ _ st', ∃ ctx, plug ctx Leaf = T ∧ between cmp key ctx ∧
        fixed st0 nl np (elems (plug ctx (Node RED Leaf p key v Leaf))) st') st.
Proof.
  intros H Hrb Ho Hk Hsd Hun Hp. unfold insert_node. inspect H. wsteps.
  eapply wp_mono.
  { eapply (insert_node_loop_spec _ st nl np []); [done|by split; constructor|done|done|].
    apply rep_size in H. rewrite loop_fuel_eq. lia. }
  intros q st' (-> & ctx & -> & Hplug & Hb). simpl in Hplug. subst T.
  destruct (rbt_plug_inv ctx Leaf Hrb) as (c & n & Hlf & Hc). inversion Hlf; subst.
  eapply wp_mono; [apply (insert_node_link_spec st0 st (nil st) np ctx p key v 0); try done|intros; by exists ctx].
  - by apply rep_plug.
  - intros q. specialize (Hun q). simpl in *. rewrite tcnt_plug in Hun. simpl in *. lia.
Qed.

(** Adding the new pair keeps the order. *)
Lemma ordered_plug_insert ctx p key v :
  ordered cmp (elems (plug ctx Leaf)) → between cmp key ctx →
  ordered cmp (elems (plug ctx (Node RED Leaf p key v Leaf))).
Proof.
  rewrite !elems_plug. simpl. intros Ho [Hl Hr]. apply ordered_app in Ho as (H1 & H2 & H3).
  by apply ordered_mid.
Qed.

Lemma wf_fresh st T : wf cmp st T → nodes st !! next_ptr st = None.
Proof.
  intros H. destruct (nodes st !! next_ptr st) eqn:E; [|done].
  assert (next_ptr st < next_ptr st)%N; [|lia]. apply (wf_next _ _ _ H). by rewrite E.
Qed.

(** A fresh node does not occur in the tree. *)
Lemma wf_fresh_uniq st T key v :
  wf cmp st T → uniq (nil st) [] (Node RED T (next_ptr st) key v Leaf).
Proof.
  intros H. pose proof (wf_fresh _ _ H) as Hf. pose proof H as [[np Hrep] _ _ Hdom Hnext].
  pose proof (rep_nodup _ _ _ _ Hrep) as Hnd.
  assert (Hnl : next_ptr st ≠ nil st ∧ next_ptr st ∉ (elems T).*1).
  { split; [intros E|intros E]; assert (is_Some (nodes st !! next_ptr st)) as [? ?]
      by (apply Hdom; auto); congruence. }
  assert (next_ptr st ≠ NULL).
  { assert (nil st < next_ptr st)%N by (apply Hnext, Hdom; auto). unfold NULL. lia. }
  intros q. pose proof (rep_uniq _ _ _ _ _ Hrep q) as Hu. simpl in *.
  destruct (decide (q = next_ptr st)) as [->|Hq]; [|rewrite (ind_ne q (next_ptr st)) by done; lia].
  rewrite !ind_refl, !ind_ne, tcnt_elems by naive_solver.
  destruct Hnl as [_ Hnl]. apply ecnt_zero in Hnl. lia.
Qed.

(** What [rbtree_insert] promises: an existing key or a failed allocation
    leaves the tree as it was; otherwise the pair is added. *)
Definition insert_post (mem : bool) st T key v (b : bool) st' : Prop :=
  if decide (key ∈ (contents T).*1) then b = false ∧ st' = st
  else if mem then
    b = true ∧ nil st' = nil st ∧ kvfreer st' = kvfreer st ∧ freed st' = freed st ∧
    ∃ T', wf cmp st' T' ∧ contents T' ≡ₚ (key, v) :: contents T
  else b = false ∧ st' = st.

Lemma wf_insert st st1 st' T np ctx key v (n : rb_node K V) :
  wf cmp st T → plug ctx Leaf = T → between cmp key ctx →
  nil st1 = nil st → nodes st1 = <[next_ptr st := n]> (nodes st) → next_ptr st1 = N.succ (next_ptr st) →
  fixed st1 (nil st) np (elems (plug ctx (Node RED Leaf (next_ptr st) key v Leaf))) st' →
  ∃ T', wf cmp st' T' ∧ contents T' ≡ₚ (key, v) :: contents T.
Proof.
  intros [_ _ Ho Hdom Hnext] <- Hb Hnl Hh Hnx (T' & Hrep & Hrb & He & Hsd). exists T'.
  assert (Hnl' : nil st' = nil st) by (rewrite (sd_nil _ _ Hsd); done).
  assert (Hlive : ∀ q, is_Some (nodes st' !! q) ↔ q = next_ptr st ∨ is_Some (nodes st !! q)).
  { intros q. rewrite (same_data_live _ _ _ Hsd), Hh, lookup_insert_is_Some.
    destruct (decide (next_ptr st = q)); naive_solver. }
  split; [split|].
  - rewrite Hnl'. by exists np.
  - done.
  - rewrite He. by apply ordered_plug_insert.
  - intros q. rewrite Hlive, Hnl', He, Hdom. rewrite !elems_plug, !fmap_app. simpl. set_solver.
  - intros q. rewrite Hlive, (sd_next _ _ Hsd), Hnx. intros [->|Hq]; [lia|].
    apply Hnext in Hq. lia.
  - unfold contents. rewrite He, !elems_plug. simpl. rewrite !fmap_app. simpl. by rewrite Permutation_middle.
Qed.

Lemma rbtree_insert_spec mem st T key v :
  wf cmp st T → wp (rbtree_insert cmp mem (Some key) (Some v)) (insert_post mem st T key v) st.
Proof.
  intros Hwf. simpl. apply wp_bind. eapply wp_mono; [by apply rbtree_find_spec|].
  intros q st' (-> & Hf). pose proof Hwf as [[np H] Hrb Ho Hdom Hnext].
  wstep. wstep. unfold insert_post. destruct Hf as [[-> Hk]|(ctx & c & l & v' & r & ->)].
  - rewrite decide_True by done. destruct (decide (key ∈ (contents T).*1)) as [|_]; [done|].
    destruct mem; [|by wsteps].
    apply wp_bind. unfold wp at 1. simpl. set (st1 := mk_tree _ _ _ _ _ _).
    pose proof (wf_fresh_uniq _ _ key v Hwf) as Hun.
    rewrite decide_False by addr. apply wp_bind.
    assert (H1 : rep st1 (nil st) np [] T).
    { eapply rep_ext; [..|exact H]; [done..|]. intros q Hq%Hdom. simpl. apply lookup_insert_ne.
      intros <-. rewrite (wf_fresh _ _ Hwf) in Hq. by destruct Hq. }
    eapply wp_mono.
    { eapply (insert_node_spec st1 st1); [exact H1|done..|]. simpl. apply lookup_insert_eq. }
    intros [] st' (ctx & Hplug & Hb & Hfix). apply wp_ret. pose proof Hfix as (_ & _ & _ & _ & Hsd).
    split_and!; [done|by rewrite (sd_nil _ _ Hsd)|by rewrite (sd_kvfreer _ _ Hsd)|by rewrite (sd_freed _ _ Hsd)|].
    by eapply (wf_insert st st1).
  - assert (Hin : key ∈ (contents (plug ctx (Node c l q key v' r))).*1) by apply elem_of_key_plug.
    rewrite decide_False; [|apply rep_plug in H; destruct H as [_ _ _ _ _ Hu]; addr].
    destruct (decide (key ∈ _)) as [_|]; [by wsteps|done].
Qed.
End find_insert.
