(* ===== verification/RbErase.v ===== *)
(** * Removal from the pointer red-black tree

    [rbtree_remove] keeps the representation and the red-black invariant,
    removes exactly the node of the key from the in-order contents, hands its
    key and value to the destructor and frees the node. *)
From stdpp Require Import base gmap list fin_maps numbers sorting.
From Stdlib Require Import ZArith Lia.
From S2P Require Import Prelude RbTree RbInv RbRep RbInsert.

Section fixup.
Context {K V : Type}.
Implicit Types (st : rb_tree K V) (t l r x s T : tree K V) (ctx : list (frame K V)).

Lemma nil_or_black_spec st nl np lp rp t par (Q : bool → rb_tree K V → Prop) :
  nil st = nl → nodes st !! nl = Some (mk_node None None BLACK lp rp np) →
  trep st nl t par → tcnt nl t = 0 →
  Q (bool_decide (tcolour t = BLACK)) st → wp (nil_or_black (tptr nl t)) Q st.
Proof.
  intros Hnl Hn Ht Hc HQ. unfold nil_or_black. apply wp_bind, wp_get_nil. rewrite Hnl.
  destruct t as [|c l p k v r]; simpl in *; [by rewrite decide_True|].
  destruct Ht as (Hp & _). rewrite decide_False by (intros ->; rewrite ind_refl in Hc; lia).
  wsteps. done.
Qed.

Lemma nil_or_black_node st nl q (m : rb_node K V) (Q : bool → rb_tree K V → Prop) :
  nil st = nl → nodes st !! q = Some m → q ≠ nl →
  Q (bool_decide (n_colour m = BLACK)) st → wp (nil_or_black q) Q st.
Proof.
  intros Hnl Hm Hq HQ. unfold nil_or_black. apply wp_bind, wp_get_nil.
  rewrite decide_False by congruence. wsteps. done.
Qed.

(** The loop invariant of [rbtree_erase_fixup]: the context asks for one black
    node more than the focus has; the focus is black, or red with children of
    any colour (it is then about to be blackened). *)
Definition deficit (n : nat) ctx t : Prop :=
  rbc BLACK (S n) ctx ∧
  (rbt BLACK n t ∨
   ∃ l p k v r cl cr, t = Node RED l p k v r ∧ rbt cl n l ∧ rbt cr n r).

(** The outcome of one iteration: a focus further up, or the finished tree.
    [d] bounds the iterations that remain. *)
Definition step_post st0 nl np (e : list (ptr * (K * V))) (d : nat) (q : ptr) st' : Prop :=
  same_data st0 st' ∧
  ((∃ ctx t n, q = tptr nl t ∧ t ≠ Leaf ∧ rep st' nl np ctx t ∧ deficit n ctx t ∧
      elems (plug ctx t) = e ∧ (tcolour t = RED ∨ length ctx ≤ d)) ∨
   (∃ T, q = tptr nl T ∧ T ≠ Leaf ∧ rep st' nl np [] T ∧ redblack T ∧ elems T = e)).

Lemma step_post_elems st0 nl np (e e' : list (ptr * (K * V))) d m st :
  e = e' → wp m (step_post st0 nl np e d) st → wp m (step_post st0 nl np e' d) st.
Proof. by intros ->. Qed.

(** The cell of the focus, a node or the sentinel, has the frame as parent. *)
Lemma focus_cell st nl np f ctx x :
  rep st nl np (f :: ctx) x → (x = Leaf → np = fptr f) →
  ∃ kx vx cx lx rx, nodes st !! tptr nl x = Some (mk_node kx vx cx lx rx (fptr f)).
Proof.
  intros [_ (? & ? & Hn) _ _ Ht _] Hnp. destruct x; simpl in *; destruct_and?; [|by eauto 10].
  specialize (Hnp eq_refl). subst. by eauto 10.
Qed.

Ltac inspect_focus H Hnp :=
  let Hx := fresh "Hx" in
  destruct (focus_cell _ _ _ _ _ _ H Hnp) as (? & ? & ? & ? & ? & Hx); simpl in Hx; inspect H.

(** Read a test [nil_or_black] of a subtree with a known colour. *)
Ltac test_colour E :=
  eapply nil_or_black_spec; [eassumption|eassumption|eassumption|addr|]; rewrite E; simpl.

Lemma finish_tree st nl np ctx c n l p k v r e :
  rep st nl np ctx (Node c l p k v r) → elems (plug ctx (Node c l p k v r)) = e →
  (rbc c n ctx ∧ rbt c n (Node c l p k v r)) →
  ∃ T, root st = tptr nl T ∧ T ≠ Leaf ∧ rep st nl np [] T ∧ redblack T ∧ elems T = e.
Proof.
  intros H He [Hc Ht]. apply rep_plug in H. exists (plug ctx (Node c l p k v r)).
  destruct (plug_node ctx c l p k v r) as (? & ? & ? & ? & ? & ? & Heq).
  split_and!; [apply H|by rewrite Heq|done|by eapply rbt_plug|done].
Qed.

(** Read the test at a node whose cell is in the context. *)
Ltac test_node :=
  eapply nil_or_black_node; [eassumption|eassumption|addr|]; simpl;
  change (bool_decide (RED = BLACK)) with false; change (bool_decide (BLACK = BLACK)) with true;
  cbv iota.

Section left_child.
Context (st0 : rb_tree K V) (nl np : ptr) (ctx : list (frame K V)) (x : tree K V) (n : nat)
        (p : ptr) (k : K) (v : V) (ps : ptr) (ks : K) (vs : V).
Hypothesis Hnp : x = Leaf → np = p.

(** A red sibling is rotated above the parent. *)
Lemma left_sibling_red st sl sr (Q : ptr → rb_tree K V → Prop) :
  rep st nl np (FL BLACK p k v (Node RED sl ps ks vs sr) :: ctx) x → same_data st0 st →
  (∀ st', rep st' nl np (FL RED p k v sl :: FL BLACK ps ks vs sr :: ctx) x → same_data st0 st' →
     Q (tptr nl sl) st') →
  wp (do_with_left_node_not_null_sibling (tptr nl x)) Q st.
Proof using Hnp.
  intros H Hsd HQ. unfold do_with_left_node_not_null_sibling.
  inspect_focus H Hnp; wsteps.
  eapply (left_rot_spec st0 _ nl np ctx RED x p k v BLACK sl ps ks vs sr); [close_rep|eassumption|].
  intros st' H' Hsd'.
  assert (Hrot : rep st' nl np (FL RED p k v sl :: FL BLACK ps ks vs sr :: ctx) x) by (by rewrite !rep_up).
  inspect_focus Hrot Hnp. wsteps. by apply HQ.
Qed.

Lemma left_sibling_black st cp sl sr (Q : ptr → rb_tree K V → Prop) :
  rep st nl np (FL cp p k v (Node BLACK sl ps ks vs sr) :: ctx) x → Q ps st →
  wp (do_with_left_node_not_null_sibling (tptr nl x)) Q st.
Proof using Hnp.
  intros H HQ. unfold do_with_left_node_not_null_sibling. inspect_focus H Hnp; wsteps. done.
Qed.

(** Both nephews black: the sibling turns red and the deficit moves up. *)
Lemma left_rest_black st cp sl sr (Q : ptr → rb_tree K V → Prop) :
  rep st nl np (FL cp p k v (Node BLACK sl ps ks vs sr) :: ctx) x → same_data st0 st →
  tcolour sl = BLACK → tcolour sr = BLACK →
  (∀ st', rep st' nl np ctx (Node cp x p k v (Node RED sl ps ks vs sr)) → same_data st0 st' → Q p st') →
  wp (do_with_left_node_not_null_rest (tptr nl x) ps) Q st.
Proof using Hnp.
  intros H Hsd Hl Hr HQ. unfold do_with_left_node_not_null_rest. inspect_focus H Hnp. wsteps.
  test_colour Hl. wsteps. test_colour Hr. wsteps. apply HQ; [close_rep|done].
Qed.

(** Far nephew red: one rotation at the parent finishes. *)
Lemma left_rest_far st cp sl srl psr ksr vsr srr (Q : ptr → rb_tree K V → Prop) :
  rep st nl np (FL cp p k v (Node BLACK sl ps ks vs (Node RED srl psr ksr vsr srr)) :: ctx) x →
  same_data st0 st →
  (∀ st', rep st' nl np ctx (Node cp (Node BLACK x p k v sl) ps ks vs (Node BLACK srl psr ksr vsr srr)) →
     same_data st0 st' → Q (root st') st') →
  wp (do_with_left_node_not_null_rest (tptr nl x) ps) Q st.
Proof using Hnp.
  intros H Hsd HQ. unfold do_with_left_node_not_null_rest. inspect_focus H Hnp. wsteps.
  eapply nil_or_black_spec; [eassumption|eassumption|eassumption|addr|].
  destruct (bool_decide _); wsteps; repeat (test_node; wsteps);
    (eapply (left_rot_spec st0 _ nl np ctx BLACK x p k v cp sl ps ks vs (Node BLACK srl psr ksr vsr srr));
      [close_rep|eassumption|]);
    intros st' H' Hsd'; apply wp_get_root; by apply HQ.
Qed.

(** Near nephew red, far nephew black: a rotation at the sibling first. *)
Lemma left_rest_near st cp sll psl ksl vsl slr sr (Q : ptr → rb_tree K V → Prop) :
  rep st nl np (FL cp p k v (Node BLACK (Node RED sll psl ksl vsl slr) ps ks vs sr) :: ctx) x →
  same_data st0 st → tcolour sr = BLACK →
  (∀ st', rep st' nl np ctx (Node cp (Node BLACK x p k v sll) psl ksl vsl (Node BLACK slr ps ks vs sr)) →
     same_data st0 st' → Q (root st') st') →
  wp (do_with_left_node_not_null_rest (tptr nl x) ps) Q st.
Proof using Hnp.
  intros H Hsd Hr HQ. unfold do_with_left_node_not_null_rest. inspect_focus H Hnp. wsteps.
  test_node; wsteps. test_colour Hr. wsteps.
  eapply (right_rot_spec st0 _ nl np (FR cp x p k v :: ctx) BLACK sll psl ksl vsl RED slr ps ks vs sr);
    [close_rep|eassumption|].
  intros sa Ha Hsda.
  assert (Hrot : rep sa nl np (FL cp p k v (Node BLACK sll psl ksl vsl (Node RED slr ps ks vs sr)) :: ctx) x)
    by (apply rep_up in Ha; by apply rep_up).
  inspect_focus Hrot Hnp. wsteps.
  eapply (left_rot_spec st0 _ nl np ctx BLACK x p k v cp sll psl ksl vsl (Node BLACK slr ps ks vs sr));
    [close_rep|eassumption|].
  intros st' H' Hsd'. apply wp_get_root. by apply HQ.
Qed.

(** The second part, on every colouring of the nephews. *)
Lemma left_rest st cp sl sr cl cr d :
  rep st nl np (FL cp p k v (Node BLACK sl ps ks vs sr) :: ctx) x → same_data st0 st →
  rbt BLACK n x → rbt cl n sl → rbt cr n sr → rbc cp (bh cp (S n)) ctx →
  (cp = BLACK → length ctx ≤ d) →
  wp (do_with_left_node_not_null_rest (tptr nl x) ps)
     (step_post st0 nl np (elems (plug (FL cp p k v (Node BLACK sl ps ks vs sr) :: ctx) x)) d) st.
Proof using Hnp.
  intros H Hsd Hx Hl Hr Hc Hd. destruct cr.
  - inversion Hr; subst. eapply left_rest_far; eauto. intros st' H' Hsd'. split; [done|]. right.
    eapply finish_tree; [exact H'|same_elems|]. eauto with rb.
  - destruct cl.
    + inversion Hl; subst. eapply left_rest_near; eauto; [by eapply rbt_colour|].
      intros st' H' Hsd'. split; [done|]. right. eapply finish_tree; [exact H'|same_elems|]. eauto with rb.
    + eapply left_rest_black; eauto; [by eapply rbt_colour..|].
      intros st' H' Hsd'. split; [done|]. left. eexists ctx, _, (pred (bh cp (S n))).
      split; [|split; [|split; [exact H'|split; [|split; [same_elems|]]]]]; [done|done| |];
        destruct cp; simpl in *; auto.
      * split; [eauto with rb|]. right. eauto 12 with rb.
      * split; [done|]. left. eauto with rb.
Qed.
End left_child.

Lemma left_step st0 st nl np ctx cp p k v s x n :
  rep st nl np (FL cp p k v s :: ctx) x → same_data st0 st → (x = Leaf → np = p) →
  rbt BLACK n x → rbc BLACK (S n) (FL cp p k v s :: ctx) →
  wp (do_with_left_node_not_null (tptr nl x))
     (step_post st0 nl np (elems (plug (FL cp p k v s :: ctx) x)) (length ctx)) st.
Proof.
  intros H Hsd Hnp Hx Hc. unfold do_with_left_node_not_null. apply wp_bind.
  inversion Hc as [|? ? ? ? ? ? Hc' Hs| |? cs ? ? ? ? ? ? Hc' Hs|]; subst.
  - inversion Hs; subst. eapply left_sibling_black; [done..|].
    eapply left_rest; eauto.
  - destruct cs; inversion Hs; subst.
    + match goal with Hl : rbt BLACK (S n) ?sl, Hr : rbt BLACK (S n) _ |- _ => inversion Hl; subst end.
      eapply left_sibling_red; [done..|]. intros st' H' Hsd'.
      eapply step_post_elems; [|eapply left_rest; eauto with rb]; [same_elems|done].
    + eapply left_sibling_black; [done..|]. eapply left_rest; eauto.
Qed.

Section right_child.
Context (st0 : rb_tree K V) (nl np : ptr) (ctx : list (frame K V)) (x : tree K V) (n : nat)
        (p : ptr) (k : K) (v : V) (ps : ptr) (ks : K) (vs : V).
Hypothesis Hnp : x = Leaf → np = p.

Lemma right_sibling_red st sl sr (Q : ptr → rb_tree K V → Prop) :
  rep st nl np (FR BLACK (Node RED sl ps ks vs sr) p k v :: ctx) x → same_data st0 st →
  (∀ st', rep st' nl np (FR RED sr p k v :: FR BLACK sl ps ks vs :: ctx) x → same_data st0 st' →
     Q (tptr nl sr) st') →
  wp (do_with_left_node_null_sibling (tptr nl x)) Q st.
Proof using Hnp.
  intros H Hsd HQ. unfold do_with_left_node_null_sibling.
  inspect_focus H Hnp; wsteps.
  eapply (right_rot_spec st0 _ nl np ctx BLACK sl ps ks vs RED sr p k v x); [close_rep|eassumption|].
  intros st' H' Hsd'.
  assert (Hrot : rep st' nl np (FR RED sr p k v :: FR BLACK sl ps ks vs :: ctx) x) by (by rewrite !rep_up).
  inspect_focus Hrot Hnp. wsteps. by apply HQ.
Qed.

Lemma right_sibling_black st cp sl sr (Q : ptr → rb_tree K V → Prop) :
  rep st nl np (FR cp (Node BLACK sl ps ks vs sr) p k v :: ctx) x → Q ps st →
  wp (do_with_left_node_null_sibling (tptr nl x)) Q st.
Proof using Hnp.
  intros H HQ. unfold do_with_left_node_null_sibling. inspect_focus H Hnp; wsteps. done.
Qed.

Lemma right_rest_black st cp sl sr (Q : ptr → rb_tree K V → Prop) :
  rep st nl np (FR cp (Node BLACK sl ps ks vs sr) p k v :: ctx) x → same_data st0 st →
  tcolour sl = BLACK → tcolour sr = BLACK →
  (∀ st', rep st' nl np ctx (Node cp (Node RED sl ps ks vs sr) p k v x) → same_data st0 st' → Q p st') →
  wp (do_with_left_node_null_rest (tptr nl x) ps) Q st.
Proof using Hnp.
  intros H Hsd Hl Hr HQ. unfold do_with_left_node_null_rest. inspect_focus H Hnp. wsteps.
  test_colour Hr. wsteps. test_colour Hl. wsteps. apply HQ; [close_rep|done].
Qed.

Lemma right_rest_far st cp sll psl ksl vsl slr sr (Q : ptr → rb_tree K V → Prop) :
  rep st nl np (FR cp (Node BLACK (Node RED sll psl ksl vsl slr) ps ks vs sr) p k v :: ctx) x →
  same_data st0 st →
  (∀ st', rep st' nl np ctx (Node cp (Node BLACK sll psl ksl vsl slr) ps ks vs (Node BLACK sr p k v x)) →
     same_data st0 st' → Q (root st') st') →
  wp (do_with_left_node_null_rest (tptr nl x) ps) Q st.
Proof using Hnp.
  intros H Hsd HQ. unfold do_with_left_node_null_rest. inspect_focus H Hnp. wsteps.
  eapply nil_or_black_spec; [eassumption|eassumption|eassumption|addr|].
  destruct (bool_decide _); wsteps; repeat (test_node; wsteps);
    (eapply (right_rot_spec st0 _ nl np ctx cp (Node BLACK sll psl ksl vsl slr) ps ks vs BLACK sr p k v x);
      [close_rep|eassumption|]);
    intros st' H' Hsd'; apply wp_get_root; by apply HQ.
Qed.

Lemma right_rest_near st cp sl srl psr ksr vsr srr (Q : ptr → rb_tree K V → Prop) :
  rep st nl np (FR cp (Node BLACK sl ps ks vs (Node RED srl psr ksr vsr srr)) p k v :: ctx) x →
  same_data st0 st → tcolour sl = BLACK →
  (∀ st', rep st' nl np ctx (Node cp (Node BLACK sl ps ks vs srl) psr ksr vsr (Node BLACK srr p k v x)) →
     same_data st0 st' → Q (root st') st') →
  wp (do_with_left_node_null_rest (tptr nl x) ps) Q st.
Proof using Hnp.
  intros H Hsd Hr HQ. unfold do_with_left_node_null_rest. inspect_focus H Hnp. wsteps.
  test_node; wsteps. test_colour Hr. wsteps.
  eapply (left_rot_spec st0 _ nl np (FL cp p k v x :: ctx) RED sl ps ks vs BLACK srl psr ksr vsr srr);
    [close_rep|eassumption|].
  intros sa Ha Hsda.
  assert (Hrot : rep sa nl np (FR cp (Node BLACK (Node RED sl ps ks vs srl) psr ksr vsr srr) p k v :: ctx) x)
    by (apply rep_up in Ha; by apply rep_up).
  inspect_focus Hrot Hnp. wsteps.
  eapply (right_rot_spec st0 _ nl np ctx cp (Node BLACK sl ps ks vs srl) psr ksr vsr BLACK srr p k v x);
    [close_rep|eassumption|].
  intros st' H' Hsd'. apply wp_get_root. by apply HQ.
Qed.

Lemma right_rest st cp sl sr cl cr d :
  rep st nl np (FR cp (Node BLACK sl ps ks vs sr) p k v :: ctx) x → same_data st0 st →
  rbt BLACK n x → rbt cl n sl → rbt cr n sr → rbc cp (bh cp (S n)) ctx →
  (cp = BLACK → length ctx ≤ d) →
  wp (do_with_left_node_null_rest (tptr nl x) ps)
     (step_post st0 nl np (elems (plug (FR cp (Node BLACK sl ps ks vs sr) p k v :: ctx) x)) d) st.
Proof using Hnp.
  intros H Hsd Hx Hl Hr Hc Hd. destruct cl.
  - inversion Hl; subst. eapply right_rest_far; eauto. intros st' H' Hsd'. split; [done|]. right.
    eapply finish_tree; [exact H'|same_elems|]. eauto with rb.
  - destruct cr.
    + inversion Hr; subst. eapply right_rest_near; eauto; [by eapply rbt_colour|].
      intros st' H' Hsd'. split; [done|]. right. eapply finish_tree; [exact H'|same_elems|]. eauto with rb.
    + eapply right_rest_black; eauto; [by eapply rbt_colour..|].
      intros st' H' Hsd'. split; [done|]. left. eexists ctx, _, (pred (bh cp (S n))).
      split; [|split; [|split; [exact H'|split; [|split; [same_elems|]]]]]; [done|done| |];
        destruct cp; simpl in *; auto.
      * split; [eauto with rb|]. right. eauto 12 with rb.
      * split; [done|]. left. eauto with rb.
Qed.
End right_child.

Lemma right_step st0 st nl np ctx cp p k v s x n :
  rep st nl np (FR cp s p k v :: ctx) x → same_data st0 st → (x = Leaf → np = p) →
  rbt BLACK n x → rbc BLACK (S n) (FR cp s p k v :: ctx) →
  wp (do_with_left_node_null (tptr nl x))
     (step_post st0 nl np (elems (plug (FR cp s p k v :: ctx) x)) (length ctx)) st.
Proof.
  intros H Hsd Hnp Hx Hc. unfold do_with_left_node_null. apply wp_bind.
  inversion Hc as [| |? ? ? ? ? ? Hc' Hs| |? cs ? ? ? ? ? ? Hc' Hs]; subst.
  - inversion Hs; subst. eapply right_sibling_black; [done..|].
    eapply right_rest; eauto.
  - destruct cs; inversion Hs; subst.
    + match goal with Hl : rbt BLACK (S n) _, Hr : rbt BLACK (S n) ?sr |- context [Node RED _ _ _ _ ?sr] => inversion Hr; subst end.
      eapply right_sibling_red; [done..|]. intros st' H' Hsd'.
      eapply step_post_elems; [|eapply right_rest; eauto with rb]; [same_elems|done].
    + eapply right_sibling_black; [done..|]. eapply right_rest; eauto.
Qed.

Lemma rootp_in f ctx : ccnt (rootp ctx (fptr f)) (f :: ctx) ≠ 0.
Proof.
  revert f. induction ctx as [|g ctx IH]; intros f.
  - destruct f; simpl; rewrite ind_refl; lia.
  - specialize (IH g). destruct f; simpl in *; lia.
Qed.

(** Below a frame, the focus is not the root of the tree. *)
Lemma focus_not_root st nl np f ctx t :
  rep st nl np (f :: ctx) t → tptr nl t ≠ root st.
Proof.
  intros H. rewrite (rep_root _ _ _ _ _ H). simpl. intros E.
  pose proof (rootp_in f ctx) as Hin. rewrite <- E in Hin.
  pose proof (rep_uniq _ _ _ _ _ H (tptr nl t)) as Hu.
  destruct t; simpl tptr in *; simpl tcnt in Hu; rewrite ?ind_refl in Hu; lia.
Qed.

(** The loop exits at the root, which is black. *)
Lemma erase_fixup_exit st0 st nl np T :
  rep st nl np [] T → same_data st0 st → redblack T →
  wp (if decide (tptr nl T = NULL) then mret tt else set_colour (tptr nl T) BLACK)
     (λ _ st', fixed st0 nl np (elems T) st') st.
Proof.
  intros H Hsd [n Hn]. destruct T as [|c l p k v r]; simpl tptr; inspect H; wsteps.
  - exists Leaf. split_and!; [close_rep|by eexists|done|done].
  - destruct c; [by inversion Hn|]. exists (Node BLACK l p k v r). split_and!; [close_rep|by eexists|done|done].
Qed.

(** The loop of [rbtree_erase_fixup] repairs the deficit. *)
Lemma rbtree_erase_fixup_loop_spec fuel st0 st nl np ctx t n :
  rep st nl np ctx t → same_data st0 st → deficit n ctx t →
  (t = Leaf → np = cptr nl ctx) → (tcolour t = RED ∧ 0 < fuel ∨ S (length ctx) < fuel) →
  wp (rbtree_erase_fixup_loop fuel (tptr nl t))
     (λ _ st', fixed st0 nl np (elems (plug ctx t)) st') st.
Proof.
  revert st ctx t n. induction fuel as [|fuel IH]; [naive_solver lia|].
  intros st ctx t n H Hsd [Hc Ht] Hnp Hfuel. simpl rbtree_erase_fixup_loop.
  apply wp_bind. pose proof H as [Hnl (lp & rp & Hn) _ _ Htr Hu].
  eapply nil_or_black_spec; [exact Hnl|exact Hn|exact Htr|addr|]. apply wp_bind, wp_get_root.
  destruct Ht as [Ht|(l & p & k & v & r & cl & cr & -> & Hl & Hr)].
  - rewrite (rbt_colour _ _ _ Ht) in *. change (bool_decide (BLACK = BLACK)) with true. rewrite andb_true_l.
    destruct ctx as [|f ctx].
    { rewrite (rep_root _ _ _ _ _ H). simpl. rewrite bool_decide_eq_false_2 by auto.
      apply erase_fixup_exit; [done|done|]. by eexists. }
    rewrite bool_decide_eq_true_2 by (by eapply focus_not_root).
    assert (Hstep : ∀ q st', step_post st0 nl np (elems (plug (f :: ctx) t)) (length ctx) q st' →
      wp (rbtree_erase_fixup_loop fuel q) (λ _ st', fixed st0 nl np (elems (plug (f :: ctx) t)) st') st').
    { intros q st' [Hsd' [(ctx' & t' & n' & -> & Hlf & H' & Hd & <- & Hlen)|(T & -> & Hlf & H' & [m Hm] & <-)]].
      - eapply IH; eauto; [done|]. destruct Hfuel as [[? _]|Hfuel]; [done|]. simpl in Hfuel.
        destruct Hlen; [left; split; [done|lia]|right; lia].
      - eapply (IH st' [] T m); eauto; [split; [constructor|by left]|done|].
        destruct Hfuel as [[? _]|Hfuel]; [done|]. simpl in *. right; lia. }
    destruct f as [cp p k v s|cp s p k v]; inspect_focus H Hnp; wstep; wstep; wstep; wstep; apply wp_bind.
    + rewrite decide_True by done. eapply wp_mono; [eapply left_step; eauto|]. apply Hstep.
    + rewrite decide_False.
      * eapply wp_mono; [eapply right_step; eauto|]. apply Hstep.
      * assert (s ≠ Leaf) by (intros ->; inversion Hc; subst;
          match goal with X : rbt _ (S _) Leaf |- _ => inversion X end).
        destruct s; [done|]. simpl tptr. addr.
  - change (bool_decide (tcolour _ = BLACK)) with false. rewrite andb_false_l.
    inspect H. wsteps. exists (plug ctx (Node BLACK l p k v r)).
    split_and!; [apply (proj1 (rep_plug _ _ _ ctx _)); close_rep|eauto with rb|same_elems|done].
Qed.
End fixup.

Section unlink.
Context {K V : Type}.
Implicit Types (st : rb_tree K V) (t l r x T : tree K V) (ctx : list (frame K V)).

Lemma rbtree_minimum_loop_spec fuel st nl np ctx c l p k v r :
  rep st nl np ctx (Node c l p k v r) → length (elems l) < fuel →
  wp (rbtree_minimum_loop fuel p) (λ q st', st' = st ∧ ∃ mctx cm km vm rm,
    Node c l p k v r = plug mctx (Node cm Leaf q km vm rm) ∧ cleft mctx = []) st.
Proof.
  revert ctx c l p k v r. induction fuel as [|fuel IH]; [lia|]. intros ctx c l p k v r H Hf.
  simpl rbtree_minimum_loop. destruct l as [|c' l' p' k' v' r']; inspect H; wsteps.
  - split; [done|]. by exists [], c, k, v, r.
  - simpl in Hf. rewrite length_app in Hf. simpl in Hf.
    eapply wp_mono; [eapply (IH (FL c p k v r :: ctx)); [by apply rep_up|lia]|].
    intros q st' (-> & mctx & cm & km & vm & rm & -> & Hm). split; [done|].
    exists (mctx ++ [FL c p k v r]), cm, km, vm, rm. by rewrite plug_app, cleft_app, Hm.
Qed.

Lemma rbtree_minimum_spec st nl np ctx c l p k v r :
  rep st nl np ctx (Node c l p k v r) →
  wp (rbtree_minimum p) (λ q st', st' = st ∧ ∃ mctx cm km vm rm,
    Node c l p k v r = plug mctx (Node cm Leaf q km vm rm) ∧ cleft mctx = []) st.
Proof.
  intros H. unfold rbtree_minimum, wp. rewrite (rep_nil _ _ _ _ _ H).
  rewrite decide_False by (destruct H; addr).
  eapply rbtree_minimum_loop_spec; [done|].
  apply rep_plug, rep_size in H. pose proof (length_elems_plug ctx (Node c l p k v r)) as Hl.
  simpl in Hl. rewrite length_app in Hl. rewrite loop_fuel_eq. lia.
Qed.

(** Replacing a node by its only subtree. *)
Lemma transplant_right st0 st nl np ctx c p k v r (Q : unit → rb_tree K V → Prop) :
  rep st nl np ctx (Node c Leaf p k v r) → same_data st0 st →
  (∀ st' np', rep st' nl np' ctx r → (r = Leaf → np' = cptr nl ctx) →
     nodes st' !! p = Some (mk_node (Some k) (Some v) c nl (tptr nl r) (cptr nl ctx)) → same_data st0 st' → Q tt st') →
  wp (rbtree_transplant p (tptr nl r)) Q st.
Proof.
  intros H Hsd HQ. unfold rbtree_transplant.
  destruct r as [|cr rl pr kr vr rr], ctx as [|[cf pf kf vf rf|cf lf pf kf vf] ctx];
    simpl tptr; inspect H; simpl in *; wsteps;
    (eapply HQ; [close_rep|done|assumption|assumption]).
Qed.

Lemma transplant_left st0 st nl np ctx c p k v l (Q : unit → rb_tree K V → Prop) :
  rep st nl np ctx (Node c l p k v Leaf) → same_data st0 st →
  (∀ st' np', rep st' nl np' ctx l → (l = Leaf → np' = cptr nl ctx) →
     nodes st' !! p = Some (mk_node (Some k) (Some v) c (tptr nl l) nl (cptr nl ctx)) → same_data st0 st' → Q tt st') →
  wp (rbtree_transplant p (tptr nl l)) Q st.
Proof.
  intros H Hsd HQ. unfold rbtree_transplant.
  destruct l as [|cr rl pr kr vr rr], ctx as [|[cf pf kf vf rf|cf lf pf kf vf] ctx];
    simpl tptr; inspect H; simpl in *; wsteps;
    (eapply HQ; [close_rep|done|assumption|assumption]).
Qed.

(** The shared tail of the two-children case: [y], which already has the right
    subtree [r], takes the place, the left subtree and the colour of [p]. *)
Lemma erase_tail st0 st nl np ctx c l p k v y ky vy cy r rp0 yl yp {A} (m : M (rb_tree K V) A) Q :
  nil st = nl → (∃ lp rp, nodes st !! nl = Some (mk_node None None BLACK lp rp np)) →
  root st = rootp ctx p → crep st nl ctx p →
  nodes st !! p = Some (mk_node (Some k) (Some v) c (tptr nl l) rp0 (cptr nl ctx)) →
  nodes st !! y = Some (mk_node (Some ky) (Some vy) cy yl (tptr nl r) yp) →
  trep st nl l p → trep st nl r y → l ≠ Leaf →
  uniq nl ctx (Node c l p k v (Node cy Leaf y ky vy r)) → same_data st0 st →
  (∀ st', rep st' nl np ctx (Node c l y ky vy r) → same_data st0 st' → wp m Q st') →
  wp (rbtree_transplant p y;;
      l ← get_left p; set_left y l;;
      yl ← get_left y; set_parent yl y;;
      nc ← get_colour p; set_colour y nc;; m) Q st.
Proof.
  intros Hnl (lp & rp & Hn) Hroot Hc Hp Hy Hl Hr Hlf Hu Hsd HQ. unfold rbtree_transplant.
  destruct l as [|cl ll pl kl vl lr]; [done|].
  destruct ctx as [|[cf pf kf vf rf|cf lf pf kf vf] ctx]; simpl in *; destruct_and?; wsteps;
    (apply HQ; [close_rep|done]).
Qed.

(** What [rbtree_erase_unlink] leaves: the tree without the node, a focus [x]
    that replaced the unlinked position, and a deficit at [x] when the colour
    that was lost is black. *)
Definition unlinked st0 nl (e : list (ptr * (K * V))) (res : ptr * rbtree_colour) st' : Prop :=
  ∃ np ctx t, res.1 = tptr nl t ∧ rep st' nl np ctx t ∧ (t = Leaf → np = cptr nl ctx) ∧
    elems (plug ctx t) = e ∧ same_data st0 st' ∧
    match res.2 with
    | RED => redblack (plug ctx t)
    | BLACK => ∃ c n, rbt c n t ∧ rbc BLACK (S n) ctx
    end.

(** One child missing: the colour and height argument. *)
Lemma unlinked_one c ctx l p k v r t :
  redblack (plug ctx (Node c l p k v r)) → (l = Leaf ∧ t = r ∨ r = Leaf ∧ t = l) →
  match c with
  | RED => redblack (plug ctx t)
  | BLACK => ∃ c' n, rbt c' n t ∧ rbc BLACK (S n) ctx
  end.
Proof.
  intros Hrb Ht. apply rbt_plug_inv in Hrb as (c' & n & Hn & Hc).
  inversion Hn; subst; destruct Ht as [[-> ->]|[-> ->]]; eauto with rb.
Qed.

Lemma unlinked_two c ctx l p k v rctx cy y ky vy ry :
  redblack (plug ctx (Node c l p k v (plug rctx (Node cy Leaf y ky vy ry)))) →
  match cy with
  | RED => redblack (plug (rctx ++ FR c l y ky vy :: ctx) ry)
  | BLACK => ∃ c' n, rbt c' n ry ∧ rbc BLACK (S n) (rctx ++ FR c l y ky vy :: ctx)
  end.
Proof.
  intros Hrb.
  assert (Hrb' : redblack (plug (rctx ++ FR c l p k v :: ctx) (Node cy Leaf y ky vy ry)))
    by (by rewrite plug_app).
  apply rbt_plug_inv in Hrb' as (c' & n & Hn & Hc). apply (rbc_subst_r _ _ _ _ _ _ _ _ y ky vy) in Hc.
  inversion Hn; subst; eauto with rb.
Qed.

Lemma plug_cons_node f ctx t : ∃ c l p k v r, plug (f :: ctx) t = Node c l p k v r.
Proof. destruct f; simpl; apply plug_node. Qed.

(** The node and its in-order successor [y], which is deeper than its child. *)
Lemma unlink_two_deep st0 st nl np ctx c l p k v f rctx cy y ky vy ry {A} (m : M (rb_tree K V) A) Q :
  let r := plug (f :: rctx) (Node cy Leaf y ky vy ry) in
  rep st nl np ctx (Node c l p k v r) → same_data st0 st → l ≠ Leaf →
  (∀ st' np', rep st' nl np' (f :: rctx ++ FR c l y ky vy :: ctx) ry →
     (ry = Leaf → np' = fptr f) → same_data st0 st' → wp m Q st') →
  wp ((yr ← get_right y; rbtree_transplant y yr;;
       r ← get_right p; set_right y r;; yr ← get_right y; set_parent yr y);;
      rbtree_transplant p y;;
      l ← get_left p; set_left y l;;
      yl ← get_left y; set_parent yl y;;
      nc ← get_colour p; set_colour y nc;; m) Q st.
Proof.
  intros r0 H Hsd Hlf HQ. subst r0.
  assert (Hy : rep st nl np (f :: rctx ++ FR c l p k v :: ctx) (Node cy Leaf y ky vy ry)).
  { change (f :: rctx ++ FR c l p k v :: ctx) with ((f :: rctx) ++ FR c l p k v :: ctx).
    rewrite rep_plug_app. by apply rep_up. }
  pose proof (rep_uniq _ _ _ _ _ H) as Hu0.
  inspect Hy. wsteps. eapply (transplant_right st0); [exact Hy|done|].
  intros st1 np1 H1 Hnp1 Hy1 Hsd1. simpl cptr in *.
  change (f :: rctx ++ FR c l p k v :: ctx) with ((f :: rctx) ++ FR c l p k v :: ctx) in H1.
  apply rep_plug_app, rep_up in H1. simpl fill in H1.
  assert (Hcnt : ∀ q, tcnt q (plug (f :: rctx) (Node cy Leaf y ky vy ry)) = ind q y + tcnt q (plug (f :: rctx) ry))
    by (intros q; rewrite !tcnt_plug; simpl; lia).
  destruct (plug_cons_node f rctx ry) as (c' & l' & rr & k' & v' & r' & Heq).
  simpl in H1, Hcnt. simpl in Heq. rewrite Heq in H1. setoid_rewrite Heq in Hcnt.
  assert (Hu' : uniq nl ctx (Node c l p k v (Node cy Leaf y ky vy (Node c' l' rr k' v' r')))).
  { intros q. specialize (Hu0 q). simpl in Hu0. specialize (Hcnt q). simpl in *. lia. }
  clear - HQ H1 Hnp1 Hy1 Hsd1 Hlf Hu' Heq. open_rep H1.
  repeat lazymatch goal with |- wp (rbtree_transplant _ _ ≫= _) _ _ => fail | _ => wstep end.
  eapply (erase_tail st0 _ nl np1 ctx c l p k v y ky vy cy (Node c' l' rr k' v' r')); eauto; [by simpl; eauto|].
  intros st' H' Hsd'. apply (HQ _ np1); [|done|done].
  change (f :: rctx ++ FR c l y ky vy :: ctx) with ((f :: rctx) ++ FR c l y ky vy :: ctx).
  rewrite rep_plug_app. simpl. rewrite Heq. by apply rep_up.
Qed.

(** The successor is the right child itself. *)
Lemma unlink_two_shallow st0 st nl np ctx c l p k v cy y ky vy ry {A} (m : M (rb_tree K V) A) Q :
  rep st nl np ctx (Node c l p k v (Node cy Leaf y ky vy ry)) → same_data st0 st → l ≠ Leaf →
  (∀ st' np', rep st' nl np' (FR c l y ky vy :: ctx) ry →
     (ry = Leaf → np' = y) → same_data st0 st' → wp m Q st') →
  wp (set_parent (tptr nl ry) y;;
      rbtree_transplant p y;;
      l ← get_left p; set_left y l;;
      yl ← get_left y; set_parent yl y;;
      nc ← get_colour p; set_colour y nc;; m) Q st.
Proof.
  intros H Hsd Hlf HQ. destruct ry as [|cr rl pr kr vr rr]; simpl tptr; open_rep H;
    repeat lazymatch goal with |- wp (rbtree_transplant _ _ ≫= _) _ _ => fail | _ => wstep end.
  - eapply (erase_tail st0 _ nl y ctx c l p k v y ky vy cy Leaf); eauto; [done|].
    intros st' H' Hsd'. apply (HQ _ y); [by apply rep_up|done|done].
  - eapply (erase_tail st0 _ nl np ctx c l p k v y ky vy cy (Node cr rl pr kr vr rr)); eauto; [by simpl; eauto|].
    intros st' H' Hsd'. apply (HQ _ np); [by apply rep_up|done|done].
Qed.

Lemma rbtree_erase_unlink_spec st0 st nl np ctx c l p k v r :
  rep st nl np ctx (Node c l p k v r) → redblack (plug ctx (Node c l p k v r)) → same_data st0 st →
  wp (rbtree_erase_unlink p)
     (λ res st', unlinked st0 nl (cleft ctx ++ elems l ++ elems r ++ cright ctx) res st') st.
Proof.
  intros H Hrb Hsd. unfold rbtree_erase_unlink.
  destruct l as [|cl ll pl kl vl lr].
  { inspect H. wsteps. eapply (transplant_right st0); [done..|]. intros st' np' H' Hnp' _ Hsd'. wsteps.
    exists np', ctx, r. split_and!; [done..|same_elems|done|]. eapply (unlinked_one c); eauto. }
  destruct r as [|cr rl pr kr vr rr].
  { inspect H. wsteps. eapply (transplant_left st0 _ _ _ _ _ _ _ _ (Node cl ll pl kl vl lr)); [done..|].
    intros st' np' H' Hnp' _ Hsd'. wsteps.
    exists np', ctx, (Node cl ll pl kl vl lr). split_and!; [done..|same_elems|done|]. eapply (unlinked_one c); eauto. }
  remember (elems (Node cr rl pr kr vr rr)) as er eqn:Her.
  inspect H. wsteps.
  eapply wp_mono; [eapply (rbtree_minimum_spec _ nl np (FR c (Node cl ll pl kl vl lr) p k v :: ctx)); by apply rep_up|].
  intros y st' (-> & rctx & cy & ky & vy & ry & Heq & Hm). rewrite Heq in *.
  assert (Hy : rep st nl np (rctx ++ FR c (Node cl ll pl kl vl lr) p k v :: ctx) (Node cy Leaf y ky vy ry)).
  { rewrite rep_plug_app. by apply rep_up. }
  assert (Hfin : ∀ st' np', rep st' nl np' (rctx ++ FR c (Node cl ll pl kl vl lr) y ky vy :: ctx) ry →
    (ry = Leaf → np' = cptr nl (rctx ++ FR c (Node cl ll pl kl vl lr) y ky vy :: ctx)) → same_data st0 st' →
    wp (mret (tptr nl ry, cy))
       (λ res st', unlinked st0 nl (cleft ctx ++ elems (Node cl ll pl kl vl lr) ++ er ++ cright ctx) res st') st').
  { intros st' np' H' Hnp' Hsd'. wsteps. eexists np', _, ry. split; [done|]. split; [exact H'|].
    split_and!; [done| |done|by eapply unlinked_two].
    rewrite Her, !elems_plug, cleft_app, cright_app, Hm. same_elems. }
  clear - H Hy Hfin Hsd. pose proof Hy as Hy0. destruct rctx as [|f rctx]; simpl app in *; open_rep Hy0.
  - wstep. wstep. wstep. wstep. wstep. wstep. rewrite decide_True by done.
    eapply unlink_two_shallow; [exact H|done|done|exact Hfin].
  - wstep. wstep. wstep. wstep. wstep. wstep. rewrite decide_False.
    + eapply unlink_two_deep; [exact H|done|done|exact Hfin].
    + pose proof (rep_uniq _ _ _ _ _ Hy p) as Hup. destruct f; simpl; intros ->; simpl in Hup;
        rewrite ccnt_app in Hup; simpl in Hup; rewrite ?ind_refl in Hup; lia.
Qed.
End unlink.

Section remove.
Context {K V : Type} `{!EqDecision K} (cmp : K → K → Z) `{!CmpSpec cmp}.
Implicit Types (st : rb_tree K V) (t l r T : tree K V) (ctx : list (frame K V)).

Lemma rbt_deficit c n ctx t : rbt c n t → rbc BLACK (S n) ctx → deficit n ctx t.
Proof. intros Ht Hc. split; [done|]. inversion Ht; subst; eauto 15 with rb. Qed.

(** Repairing the deficit, with the fuel the code provides. *)
Lemma rbtree_erase_fixup_spec st0 st nl np ctx t c n p :
  rep st nl np ctx t → same_data st0 st → rbt c n t → rbc BLACK (S n) ctx →
  (t = Leaf → np = cptr nl ctx) →
  is_Some (nodes st !! p) → p ≠ nl → p ∉ (elems (plug ctx t)).*1 →
  wp (rbtree_erase_fixup (tptr nl t))
     (λ _ st', fixed st0 nl np (elems (plug ctx t)) st') st.
Proof.
  intros H Hsd Ht Hc Hnp Hp Hpn Hpt. unfold rbtree_erase_fixup, wp.
  eapply rbtree_erase_fixup_loop_spec; eauto; [by eapply rbt_deficit|]. right.
  assert (Hlen : S (S (length (elems (plug ctx t)))) ≤ size (nodes st)).
  { apply rep_plug in H. pose proof (rep_nodup _ _ _ _ H) as [_ Hnd]%list.NoDup_cons.
    rewrite <- size_dom.
    transitivity (size (list_to_set (p :: nl :: (elems (plug ctx t)).*1) : gset ptr)).
    { rewrite size_list_to_set; [simpl; rewrite length_fmap; lia|].
      constructor; [|done]. by apply not_elem_of_cons. }
    apply subseteq_size. intros q. rewrite elem_of_list_to_set, elem_of_cons, elem_of_cons, elem_of_dom.
    intros [->|[->|Hq]]; [done|eapply rep_live; eauto..]. }
  pose proof (length_elems_plug ctx t). rewrite loop_fuel_eq. lia.
Qed.

(** The log of the destructor after one more call. *)
Definition log_free st (k : option K) (v : option V) : list (option K * option V) :=
  if kvfreer st then freed st ++ [(k, v)] else freed st.

Lemma call_kvfreer_spec st k v (Q : unit → rb_tree K V → Prop) :
  Q tt (mk_tree (root st) (nil st) (nodes st) (next_ptr st) (kvfreer st) (log_free st k v)) →
  wp (call_kvfreer k v) Q st.
Proof. unfold log_free, wp, call_kvfreer, modify. destruct st as [? ? ? ? [] ?]; simpl; auto. Qed.

Lemma free_node_spec st p n (Q : unit → rb_tree K V → Prop) :
  nodes st !! p = Some n →
  Q tt (mk_tree (root st) (nil st) (delete p (nodes st)) (next_ptr st) (kvfreer st) (freed st)) →
  wp (free_node p) Q st.
Proof. intros Hn HQ. unfold free_node, wp. by rewrite Hn. Qed.

Lemma elems_plug_node ctx c l p k v r :
  elems (plug ctx (Node c l p k v r)) = (cleft ctx ++ elems l) ++ (p, (k, v)) :: elems r ++ cright ctx.
Proof. same_elems. Qed.

Lemma rep_apart st nl np T e1 e2 p x :
  rep st nl np [] T → elems T = e1 ++ (p, x) :: e2 → p ≠ nl ∧ p ∉ (e1 ++ e2).*1.
Proof.
  intros H He. pose proof (rep_nodup _ _ _ _ H) as Hnd. rewrite He, fmap_app in Hnd. simpl in Hnd.
  rewrite !list.NoDup_cons, list.NoDup_app, list.NoDup_cons in Hnd.
  destruct Hnd as (_ & Hnl & _ & Hd & Hp & _). rewrite fmap_app, not_elem_of_app.
  split_and!; [intros ->; apply Hnl, elem_of_app; right|intros Hin; apply (Hd p Hin)|done]; by left.
Qed.

(** Removing the cell [p] that the repaired tree no longer mentions. *)
Lemma wf_delete st st1 st' T T' np p e1 e2 k v :
  wf cmp st T → elems T = e1 ++ (p, (k, v)) :: e2 → elems T' = e1 ++ e2 →
  rep st1 (nil st) np [] T' → redblack T' → same_data st st1 →
  nil st' = nil st1 → root st' = root st1 → next_ptr st' = next_ptr st1 → nodes st' = delete p (nodes st1) →
  wf cmp st' T'.
Proof.
  intros [[np0 H] _ Ho Hdom Hnext] He He' H1 Hrb Hsd Hnl Hroot Hnx Hh.
  pose proof (rep_apart _ _ _ _ _ _ _ _ H He) as Hp. rewrite <- He' in Hp.
  assert (Hnl' : nil st' = nil st) by (rewrite Hnl; apply Hsd).
  assert (Hlive : ∀ q, is_Some (nodes st' !! q) ↔ q ≠ p ∧ is_Some (nodes st !! q)).
  { intros q. rewrite Hh, lookup_delete_is_Some, (same_data_live _ _ _ Hsd). naive_solver. }
  split.
  - rewrite Hnl'. exists np. eapply rep_ext; [..|exact H1]; [done..|].
    intros q Hq. rewrite Hh. apply lookup_delete_ne. intros <-. naive_solver.
  - done.
  - rewrite He'. rewrite He, ordered_mid in Ho. apply ordered_app. naive_solver.
  - intros q. rewrite Hlive, Hdom, Hnl', He, He', !fmap_app in *. simpl.
    rewrite !elem_of_app, elem_of_cons in *. destruct (decide (q = p)) as [->|]; tauto.
  - intros q. rewrite Hlive, Hnx, (sd_next _ _ Hsd). naive_solver.
Qed.

(** What [rbtree_erase] does to a node of a well-formed tree. *)
Lemma rbtree_erase_spec st T ctx c l p k v r :
  wf cmp st T → T = plug ctx (Node c l p k v r) →
  wp (rbtree_erase p)
     (λ _ st', nil st' = nil st ∧ kvfreer st' = kvfreer st ∧ freed st' = log_free st (Some k) (Some v) ∧
        ∃ T' e1 e2, wf cmp st' T' ∧ contents T = e1 ++ (k, v) :: e2 ∧ contents T' = e1 ++ e2) st.
Proof.
  intros Hwf ->. pose proof Hwf as [[np H] Hrb Ho Hdom Hnext]. unfold rbtree_erase. apply wp_bind.
  pose proof (proj2 (rep_plug _ _ _ _ _) H) as Hp.
  pose proof (elems_plug_node ctx c l p k v r) as He.
  assert (Hcell : kv <$> nodes st !! p = Some (Some k, Some v)) by (destruct Hp as [_ _ _ _ (Hn & _) _]; by rewrite Hn).
  eapply wp_mono; [eapply (rbtree_erase_unlink_spec st); [done..|reflexivity]|].
  intros [x yc] st1 (np1 & ctx1 & t1 & Hx & H1 & Hnp1 & Hel & Hsd1 & Hcol). simpl in Hx, Hcol. subst x.
  apply wp_bind. eapply (wp_mono _ (λ _ st', fixed st (nil st) np1 ((cleft ctx ++ elems l) ++ elems r ++ cright ctx) st')).
  { rewrite <- app_assoc, <- Hel. destruct yc; simpl.
    - apply wp_ret. exists (plug ctx1 t1). split_and!; [by apply (proj1 (rep_plug _ _ _ ctx1 _))|done..].
    - destruct Hcol as (c' & n & Ht & Hc). eapply rbtree_erase_fixup_spec; eauto.
      + apply (same_data_live _ _ _ Hsd1). rewrite <- (fmap_is_Some kv), Hcell. eauto.
      + by eapply rep_apart.
      + rewrite Hel, app_assoc. by eapply rep_apart. }
  intros [] st2 (T' & H2 & Hrb' & He' & Hsd2). 
  pose proof (sd_kv _ _ Hsd2 p) as Hkv. rewrite Hcell in Hkv.
  apply fmap_Some in Hkv as (n & Hn & Hkv). unfold kv in Hkv. injection Hkv as Hk Hv.
  apply wp_bind. eapply wp_deref; [done|]. rewrite <- Hk, <- Hv. apply wp_bind, call_kvfreer_spec.
  eapply free_node_spec; [done|]. simpl.
  split_and!; [apply Hsd2..| |].
  - unfold log_free. by rewrite (sd_kvfreer _ _ Hsd2), (sd_freed _ _ Hsd2).
  - exists T', (cleft ctx ++ elems l).*2, (elems r ++ cright ctx).*2. split_and!.
    + eapply (wf_delete st st2); eauto.
    + unfold contents. by rewrite He, fmap_app.
    + unfold contents. by rewrite He', fmap_app.
Qed.

(** What [rbtree_remove] promises. *)
Definition remove_post st T (key : K) (b : bool) st' : Prop :=
  if decide (key ∈ (contents T).*1) then
    b = true ∧ nil st' = nil st ∧ kvfreer st' = kvfreer st ∧
    ∃ T' v e1 e2, wf cmp st' T' ∧ contents T = e1 ++ (key, v) :: e2 ∧ contents T' = e1 ++ e2 ∧
      freed st' = log_free st (Some key) (Some v)
  else b = false ∧ st' = st.

Lemma rbtree_remove_spec st T key :
  wf cmp st T → wp (rbtree_remove cmp (Some key)) (remove_post st T key) st.
Proof.
  intros Hwf. simpl. apply wp_bind. eapply wp_mono; [by apply rbtree_find_spec|].
  intros q st' (-> & Hf). apply wp_bind, wp_get_nil. unfold remove_post. destruct Hf as [[-> Hk]|(ctx & c & l & v & r & ->)].
  - rewrite decide_True by done. destruct (decide (key ∈ (contents T).*1)); [done|by apply wp_ret].
  - destruct (decide (key ∈ _)) as [_|[]]; [|apply elem_of_key_plug].
    rewrite decide_False; [|destruct Hwf as [[np H] _ _ _ _]; eapply rep_apart; [done|apply elems_plug_node]].
    apply wp_bind. eapply wp_mono; [by eapply rbtree_erase_spec|].
    intros [] st' (Hnl & Hkf & Hfr & T' & e1 & e2 & HT' & Hc & Hc'). apply wp_ret.
    split_and!; [done..|]. by exists T', v, e1, e2.
Qed.
End remove.
