(* ===== verification/RbQuery.v ===== *)
(** * Lookup, replacement, size, iteration and destruction

    The remaining operations of [RbTree], specified over well-formed trees:
    lookup and size agree with the contents, [rbtree_replace] overwrites one
    value, the iterators visit the contents in key order in both directions,
    and destruction hands every pair to the destructor exactly once. *)
From stdpp Require Import base gmap list fin_maps numbers sorting.
From Stdlib Require Import ZArith Lia.
From S2P Require Import Prelude RbTree RbInv RbRep RbInsert RbErase.

Section query.
Context {K V : Type} `{Countable K} (cmp : K → K → Z) `{!CmpSpec cmp}.
Implicit Types (st : rb_tree K V) (t l r T : tree K V) (ctx : list (frame K V)).

(** The finite map a tree holds. *)
Definition amap T : gmap K V := list_to_map (contents T).

Lemma amap_plug ctx c l q key v r st :
  wf cmp st (plug ctx (Node c l q key v r)) → amap (plug ctx (Node c l q key v r)) !! key = Some v.
Proof.
  intros Hwf. apply elem_of_list_to_map; [by eapply wf_contents_nodup|].
  unfold contents. rewrite elems_plug_node, fmap_app, elem_of_app. right. by left.
Qed.

Lemma amap_lookup_None T key : amap T !! key = None ↔ key ∉ (contents T).*1.
Proof. symmetry. apply not_elem_of_list_to_map. Qed.

Lemma amap_split T e1 e2 key v :
  NoDup (contents T).*1 → contents T = e1 ++ (key, v) :: e2 →
  amap T !! key = Some v ∧ (list_to_map (e1 ++ e2) : gmap K V) = delete key (amap T) ∧
  ∀ v', (list_to_map (e1 ++ (key, v') :: e2) : gmap K V) = <[key:=v']> (amap T).
Proof.
  intros Hnd Hc. unfold amap. rewrite Hc in *.
  assert (Hd : NoDup ((key, v) :: e1 ++ e2).*1) by (by rewrite (Permutation_middle e1 e2)).
  assert (Hk : (list_to_map (e1 ++ e2) : gmap K V) !! key = None).
  { apply not_elem_of_list_to_map. simpl in Hd. by apply list.NoDup_cons in Hd as [? _]. }
  assert (Hm : ∀ v', list_to_map (e1 ++ (key, v') :: e2) = <[key:=v']> (list_to_map (e1 ++ e2) : gmap K V)).
  { intros v'. rewrite <- list_to_map_cons. symmetry. apply list_to_map_proper; [done|].
    by rewrite (Permutation_middle e1 e2). }
  split_and!.
  - rewrite Hm. by simplify_map_eq.
  - rewrite Hm. by rewrite delete_insert_id.
  - intros v'. rewrite !Hm. by rewrite insert_insert_eq.
Qed.

Lemma wf_size st T : wf cmp st T → size (amap T) = length (elems T).
Proof.
  intros Hwf. unfold amap. rewrite map_size_list_to_map by (by eapply wf_contents_nodup).
  unfold contents. by rewrite length_fmap.
Qed.

Lemma wf_focus_nil st ctx c l q key v r :
  wf cmp st (plug ctx (Node c l q key v r)) → q ≠ nil st.
Proof. intros [[np Hr] _ _ _ _]. apply (rep_apart _ _ _ _ _ _ _ _ Hr (elems_plug_node _ _ _ _ _ _ _)). Qed.

Lemma wf_focus st ctx t : wf cmp st (plug ctx t) → ∃ np, rep st (nil st) np ctx t.
Proof. intros [[np Hr] _ _ _ _]. exists np. by apply (proj2 (rep_plug _ _ _ ctx _)). Qed.

(** The log of the destructor is not part of the representation. *)
Lemma wf_log st T fr :
  wf cmp st T → wf cmp (mk_tree (root st) (nil st) (nodes st) (next_ptr st) (kvfreer st) fr) T.
Proof.
  intros [[np Hr] Hrb Ho Hdom Hnext]. split; [|done..]. exists np. by eapply rep_ext; [..|exact Hr].
Qed.

(** ** Lookup *)
Lemma rbtree_search_spec st T key :
  wf cmp st T → wp (rbtree_search cmp (Some key)) (λ v st', st' = st ∧ v = amap T !! key) st.
Proof.
  intros Hwf. simpl. apply wp_bind. eapply wp_mono; [by apply rbtree_find_spec|].
  intros q st' (-> & Hf). apply wp_bind, wp_get_nil. destruct Hf as [[-> Hk]|(ctx & c & l & v & r & ->)].
  - rewrite decide_True by done. apply wp_ret. split; [done|]. by symmetry; apply amap_lookup_None.
  - rewrite decide_False by (by eapply wf_focus_nil).
    destruct (wf_focus _ _ _ Hwf) as (np & [_ _ _ _ (Hn & _) _]).
    apply wp_bind. eapply wp_deref; [done|]. apply wp_ret. split; [done|].
    symmetry. by eapply amap_plug.
Qed.

(** ** Size *)
Lemma number_of_nodes_spec fuel st nl np ctx t :
  rep st nl np ctx t → length (elems t) < fuel →
  wp (number_of_nodes fuel (tptr nl t)) (λ n st', st' = st ∧ n = u64 (Z.of_nat (length (elems t)))) st.
Proof.
  revert ctx t. induction fuel as [|fuel IH]; [lia|]. intros ctx t Hr Hf.
  simpl number_of_nodes. destruct t as [|c l p k v r]; simpl tptr; inspect Hr; wsteps; [done|].
  simpl in Hf. rewrite length_app in Hf. simpl in Hf.
  eapply wp_mono; [eapply (IH (FL c p k v r :: ctx)); [by apply rep_up|lia]|].
  intros n1 st' (-> & ->). wsteps.
  eapply wp_mono; [eapply (IH (FR c l p k v :: ctx)); [by apply rep_up|lia]|].
  intros n2 st' (-> & ->). wsteps. split; [done|]. simpl. rewrite length_app. simpl.
  unfold u64. rewrite Zplus_mod_idemp_r, <- Zplus_assoc, (Zplus_comm (_ mod _)), Zplus_assoc, Zplus_mod_idemp_r.
  f_equal. lia.
Qed.

Lemma rbtree_size_spec st T :
  wf cmp st T → wp rbtree_size (λ n st', st' = st ∧ n = u64 (Z.of_nat (size (amap T)))) st.
Proof.
  intros Hwf. rewrite (wf_size _ _ Hwf). destruct Hwf as [[np Hr] _ _ _ _].
  unfold rbtree_size, wp. rewrite (rep_root _ _ _ _ _ Hr). simpl.
  eapply (number_of_nodes_spec _ _ _ np []); [done|]. apply rep_size in Hr. rewrite loop_fuel_eq. lia.
Qed.

(** ** Replacement *)
Lemma redblack_value ctx c l p k v r v' :
  redblack (plug ctx (Node c l p k v r)) → redblack (plug ctx (Node c l p k v' r)).
Proof.
  intros (c' & n & Ht & Hc)%rbt_plug_inv. eapply rbt_plug; [done|]. inversion Ht; subst; by econstructor.
Qed.

Lemma rep_value st st' nl np ctx c l p k v r v' :
  rep st nl np ctx (Node c l p k v r) →
  updated p (mk_node (Some k) (Some v') c (tptr nl l) (tptr nl r) (cptr nl ctx)) st st' →
  rep st' nl np ctx (Node c l p k v' r).
Proof. intros Hr U. open_rep Hr. transport U. close_rep. Qed.

Lemma set_value_spec st ctx c l p k v r v' :
  wf cmp st (plug ctx (Node c l p k v r)) →
  wp (set_value p (Some v'))
     (λ _ st', nil st' = nil st ∧ kvfreer st' = kvfreer st ∧ freed st' = freed st ∧
        wf cmp st' (plug ctx (Node c l p k v' r))) st.
Proof.
  intros Hwf. destruct (wf_focus _ _ _ Hwf) as (np & Hr). pose proof Hwf as [_ Hrb Ho Hdom Hnext].
  pose proof Hr as [_ _ _ _ (Hn & _) _]. unfold set_value. eapply wp_store; [exact Hn|]. intros st' U.
  assert (Hlive : ∀ q, is_Some (nodes st' !! q) ↔ is_Some (nodes st !! q)).
  { intros q. destruct (decide (q = p)) as [->|Hq].
    - rewrite (upd_eq _ _ _ _ U). split; eauto.
    - by rewrite (upd_ne _ _ _ _ U). }
  split_and!; [apply U..|]. split.
  - rewrite (upd_nil _ _ _ _ U). exists np. apply (proj1 (rep_plug _ _ _ ctx _)). by eapply rep_value.
  - by eapply redblack_value.
  - rewrite elems_plug_node, ordered_mid in *. done.
  - intros q. rewrite Hlive, Hdom, (upd_nil _ _ _ _ U), !elems_plug_node, !fmap_app. done.
  - intros q. rewrite Hlive, (upd_next _ _ _ _ U). apply Hnext.
Qed.

(** [rbtree_replace] overwrites the value of a present key, handing the key it
    was given and the old value to the destructor, and inserts an absent one. *)
Definition replace_post (mem : bool) st T key v (b : bool) st' : Prop :=
  match amap T !! key with
  | Some old => b = true ∧ nil st' = nil st ∧ kvfreer st' = kvfreer st ∧
      freed st' = log_free st (Some key) (Some old) ∧
      ∃ T', wf cmp st' T' ∧ amap T' = <[key:=v]> (amap T)
  | None => insert_post cmp mem st T key v b st'
  end.

Lemma rbtree_replace_spec mem st T key v :
  wf cmp st T → wp (rbtree_replace cmp mem (Some key) (Some v)) (replace_post mem st T key v) st.
Proof.
  intros Hwf. unfold rbtree_replace. apply wp_bind. eapply wp_mono; [by apply rbtree_find_spec|].
  intros q st' (-> & Hf). apply wp_bind, wp_get_nil. unfold replace_post.
  destruct Hf as [[-> Hk]|(ctx & c & l & old & r & ->)].
  - rewrite decide_True by done. rewrite (proj2 (amap_lookup_None T key) Hk). by apply rbtree_insert_spec.
  - rewrite decide_False by (by eapply wf_focus_nil). rewrite (amap_plug _ _ _ _ _ _ _ _ Hwf).
    destruct (wf_focus _ _ _ Hwf) as (np & [_ _ _ _ (Hn & _) _]).
    apply wp_bind. eapply wp_deref; [done|]. apply wp_bind, call_kvfreer_spec. apply wp_bind.
    eapply wp_mono; [eapply (set_value_spec _ ctx c l q key old r v)|].
    { by eapply wf_log. }
    intros [] st' (Hnl & Hkf & Hfr & Hwf'). apply wp_ret. split_and!; [done..|].
    eexists; split; [exact Hwf'|].
    pose proof (elems_plug_node ctx c l q key old r) as He%(f_equal (fmap snd)). rewrite fmap_app in He.
    destruct (amap_split _ _ _ _ _ (wf_contents_nodup _ _ _ Hwf) He) as (_ & _ & <-).
    unfold amap, contents. by rewrite elems_plug_node, fmap_app.
Qed.

(** ** Iteration *)

(** The address of the first and of the last pair of a sequence. *)
Definition head_ptr (nl : ptr) (e : list (ptr * (K * V))) : ptr := from_option fst nl (head e).
Definition last_ptr (nl : ptr) (e : list (ptr * (K * V))) : ptr := from_option fst nl (last e).

Lemma elems_split T e1 p k v e2 :
  elems T = e1 ++ (p, (k, v)) :: e2 →
  ∃ ctx c l r, T = plug ctx (Node c l p k v r) ∧ cleft ctx ++ elems l = e1 ∧ elems r ++ cright ctx = e2.
Proof.
  revert e1 e2. induction T as [|c l IHl q k' v' r IHr]; intros e1 e2 He; simpl in He; [by destruct e1|].
  apply app_eq_inv in He as [([|x e] & He1 & He2)|([|x e] & He1 & He2)];
    simpl in He2; apply (inj2 cons) in He2 as [Hx He2]; simplify_eq.
  - exists [], c, l, r. rewrite He1. by rewrite !app_nil_r.
  - apply IHl in He1 as (ctx & c1 & l1 & r1 & -> & <- & <-).
    exists (ctx ++ [FL c q k' v' r]), c1, l1, r1. rewrite plug_app, cleft_app, cright_app. simpl.
    by rewrite !app_nil_r, <- app_assoc.
  - exists [], c, l, r. by rewrite !app_nil_r.
  - apply IHr in He2 as (ctx & c1 & l1 & r1 & -> & <- & <-).
    exists (ctx ++ [FR c l q k' v']), c1, l1, r1. rewrite plug_app, cleft_app, cright_app. simpl.
    by rewrite !app_nil_r, <- !app_assoc.
Qed.

Lemma rbtree_successor_loop_spec fuel st nl np ctx t :
  rep st nl np ctx t → t ≠ Leaf → length ctx < fuel →
  wp (rbtree_successor_loop fuel (tptr nl t) (cptr nl ctx)) (λ q st', st' = st ∧ q = head_ptr nl (cright ctx)) st.
Proof.
  revert ctx t. induction fuel as [|fuel IH]; [lia|]. intros ctx [|c l p k v r] Hr Ht Hf; [done|].
  simpl rbtree_successor_loop. destruct ctx as [|[c' p' k' v' r'|c' l' p' k' v'] ctx]; simpl in *.
  - inspect Hr. by wsteps.
  - inspect Hr. simpl in *. destruct_and?. destruct r'; by wsteps.
  - inspect Hr. simpl in *. destruct_and?. wsteps.
    apply (IH ctx (fill (FR c' l' p' k' v') (Node c l p k v r))); [by apply (proj1 (rep_up _ _ _ _ _ _))|done|lia].
Qed.

Lemma rbtree_predecessor_loop_spec fuel st nl np ctx t :
  rep st nl np ctx t → t ≠ Leaf → length ctx < fuel →
  wp (rbtree_predecessor_loop fuel (tptr nl t) (cptr nl ctx)) (λ q st', st' = st ∧ q = last_ptr nl (cleft ctx)) st.
Proof.
  revert ctx t. induction fuel as [|fuel IH]; [lia|]. intros ctx [|c l p k v r] Hr Ht Hf; [done|].
  simpl rbtree_predecessor_loop. destruct ctx as [|[c' p' k' v' r'|c' l' p' k' v'] ctx]; simpl in *.
  - inspect Hr. by wsteps.
  - inspect Hr. simpl in *. destruct_and?. wsteps.
    apply (IH ctx (fill (FL c' p' k' v' r') (Node c l p k v r))); [by apply (proj1 (rep_up _ _ _ _ _ _))|done|lia].
  - inspect Hr. simpl in *. destruct_and?. unfold last_ptr. rewrite app_assoc, last_snoc.
    destruct l'; by wsteps.
Qed.

Lemma rep_depth st nl np ctx t : rep st nl np ctx t → length ctx < loop_fuel st.
Proof.
  intros Hr. apply rep_plug, rep_size in Hr. pose proof (length_elems_plug ctx t).
  rewrite loop_fuel_eq. lia.
Qed.

Lemma rbtree_maximum_loop_spec fuel st nl np ctx c l p k v r :
  rep st nl np ctx (Node c l p k v r) → length (elems r) < fuel →
  wp (rbtree_maximum_loop fuel p) (λ q st', st' = st ∧ q = last_ptr nl (elems (Node c l p k v r))) st.
Proof.
  revert ctx c l p k v r. induction fuel as [|fuel IH]; [lia|]. intros ctx c l p k v r Hr Hf.
  simpl rbtree_maximum_loop. unfold last_ptr. simpl. rewrite last_app. destruct r as [|c' l' p' k' v' r']; inspect Hr; wsteps.
  - done.
  - simpl in Hf. rewrite length_app in Hf. simpl in Hf.
    eapply wp_mono; [eapply (IH (FR c l p k v :: ctx)); [by apply rep_up|lia]|].
    intros q st' (-> & ->). split; [done|]. unfold last_ptr. simpl. rewrite last_cons, !last_app, last_cons.
    by destruct (last (elems r')).
Qed.

Lemma rbtree_maximum_spec st nl np ctx t :
  rep st nl np ctx t → wp (rbtree_maximum (tptr nl t)) (λ q st', st' = st ∧ q = last_ptr nl (elems t)) st.
Proof.
  intros Hr. unfold rbtree_maximum, wp. rewrite (rep_nil _ _ _ _ _ Hr). destruct t as [|c l p k v r]; simpl tptr.
  - by rewrite decide_True by done.
  - rewrite decide_False by (destruct Hr; addr). eapply rbtree_maximum_loop_spec; [done|].
    apply rep_plug, rep_size in Hr. pose proof (length_elems_plug ctx (Node c l p k v r)) as Hl.
    simpl in Hl. rewrite length_app in Hl. simpl in Hl. rewrite loop_fuel_eq. lia.
Qed.

Lemma rbtree_minimum_head st nl np ctx t :
  rep st nl np ctx t → wp (rbtree_minimum (tptr nl t)) (λ q st', st' = st ∧ q = head_ptr nl (elems t)) st.
Proof.
  intros Hr. destruct t as [|c l p k v r]; simpl tptr.
  - unfold rbtree_minimum, wp. by rewrite (rep_nil _ _ _ _ _ Hr), decide_True by done.
  - eapply wp_mono; [by eapply rbtree_minimum_spec|].
    intros q st' (-> & mctx & cm & km & vm & rm & -> & Hm). split; [done|].
    by rewrite elems_plug, Hm.
Qed.

Lemma rbtree_successor_spec st nl np ctx c l p k v r :
  rep st nl np ctx (Node c l p k v r) →
  wp (rbtree_successor p) (λ q st', st' = st ∧ q = head_ptr nl (elems r ++ cright ctx)) st.
Proof.
  intros Hr. unfold rbtree_successor. inspect Hr. wsteps. destruct r as [|c' l' p' k' v' r']; simpl tptr in *.
  - rewrite decide_True by done. wsteps.
    eapply (rbtree_successor_loop_spec _ _ _ np ctx (Node c l p k v Leaf)); [done..|by eapply rep_depth].
  - wsteps. eapply wp_mono; [eapply (rbtree_minimum_head _ _ _ (FR c l p k v :: ctx) (Node c' l' p' k' v' r')); by apply rep_up|].
    intros q st' (-> & ->). split; [done|]. unfold head_ptr. simpl. by destruct (elems l').
Qed.

Lemma rbtree_predecessor_spec st nl np ctx c l p k v r :
  rep st nl np ctx (Node c l p k v r) →
  wp (rbtree_predecessor p) (λ q st', st' = st ∧ q = last_ptr nl (cleft ctx ++ elems l)) st.
Proof.
  intros Hr. unfold rbtree_predecessor. inspect Hr. wsteps. destruct l as [|c' l' p' k' v' r']; simpl tptr in *.
  - rewrite decide_True by done. wsteps. rewrite app_nil_r.
    eapply (rbtree_predecessor_loop_spec _ _ _ np ctx (Node c Leaf p k v r)); [done..|by eapply rep_depth].
  - wsteps. eapply wp_mono; [eapply (rbtree_maximum_spec _ _ _ (FL c p k v r :: ctx) (Node c' l' p' k' v' r')); by apply rep_up|].
    intros q st' (-> & ->). split; [done|]. unfold last_ptr. rewrite last_app. simpl. rewrite last_app. simpl.
    by destruct (last (_ :: elems r')) eqn:E; [|by apply last_None in E].
Qed.

(** The loop of the callers of the iterators,
    [for (; rbtree_iterator_valid(itor); rbtree_iterator_next(itor))], reading
    the key and the value of each node it visits; [rbtree_walk_back] is the
    same loop with [rbtree_iterator_prev]. *)
Fixpoint rbtree_walk (next : ptr → M (rb_tree K V) (bool * ptr)) (fuel : nat) (itor : ptr)
    : M (rb_tree K V) (list (option K * option V)) :=
  match fuel with
  | O => fail
  | S fuel =>
    valid ← rbtree_iterator_valid itor;
    if (valid : bool) then
      k ← rbtree_iterator_key itor;
      v ← rbtree_iterator_value itor;
      '(_, itor) ← next itor;
      rest ← rbtree_walk next fuel itor;
      mret ((k, v) :: rest)
    else mret []
  end.

Definition visited (e : list (ptr * (K * V))) : list (option K * option V) :=
  (λ x, (Some x.2.1, Some x.2.2)) <$> e.

Lemma iterator_step st T e1 p k v e2 :
  wf cmp st T → elems T = e1 ++ (p, (k, v)) :: e2 →
  (p ≠ nil st) ∧
  wp (rbtree_iterator_key p) (λ a st', st' = st ∧ a = Some k) st ∧
  wp (rbtree_iterator_value p) (λ a st', st' = st ∧ a = Some v) st ∧
  wp (rbtree_iterator_next p) (λ a st', st' = st ∧ a.2 = head_ptr (nil st) e2) st ∧
  wp (rbtree_iterator_prev p) (λ a st', st' = st ∧ a.2 = last_ptr (nil st) e1) st.
Proof.
  intros Hwf He. apply elems_split in He as (ctx & c & l & r & -> & <- & <-).
  destruct (wf_focus _ _ _ Hwf) as (np & Hr). pose proof (wf_focus_nil _ _ _ _ _ _ _ _ Hwf) as Hp.
  split; [done|]. inspect Hr.
  unfold rbtree_iterator_key, rbtree_iterator_value, rbtree_iterator_next, rbtree_iterator_prev.
  split_and!.
  - by wsteps.
  - by wsteps.
  - wsteps. eapply wp_mono; [by eapply rbtree_successor_spec|]. intros q st' (-> & ->). by apply wp_ret.
  - wsteps. eapply wp_mono; [by eapply rbtree_predecessor_spec|]. intros q st' (-> & ->). by apply wp_ret.
Qed.

Lemma rbtree_walk_nil next fuel st :
  wp (rbtree_walk next (S fuel) (nil st)) (λ a st', st' = st ∧ a = []) st.
Proof.
  simpl. apply wp_bind, wp_bind, wp_get_nil, wp_ret. rewrite bool_decide_false by tauto. by apply wp_ret.
Qed.

Lemma rbtree_walk_cons next fuel st T e1 p k v e2 q e :
  wf cmp st T → elems T = e1 ++ (p, (k, v)) :: e2 →
  wp (next p) (λ a st', st' = st ∧ a.2 = q) st →
  wp (rbtree_walk next fuel q) (λ a st', st' = st ∧ a = e) st →
  wp (rbtree_walk next (S fuel) p) (λ a st', st' = st ∧ a = (Some k, Some v) :: e) st.
Proof.
  intros Hwf He Hnx Hq. destruct (iterator_step _ _ _ _ _ _ _ Hwf He) as (Hp & Hk & Hv & _). simpl.
  apply wp_bind, wp_bind, wp_get_nil, wp_ret. rewrite bool_decide_true by done.
  apply wp_bind. eapply wp_mono; [exact Hk|]. intros ? ? (-> & ->).
  apply wp_bind. eapply wp_mono; [exact Hv|]. intros ? ? (-> & ->).
  apply wp_bind. eapply wp_mono; [exact Hnx|]. intros [? ?] ? (-> & <-).
  apply wp_bind. eapply wp_mono; [exact Hq|]. intros ? ? (-> & ->). by apply wp_ret.
Qed.

Lemma rbtree_walk_spec st T fuel e1 e2 :
  wf cmp st T → elems T = e1 ++ e2 → length e2 < fuel →
  wp (rbtree_walk rbtree_iterator_next fuel (head_ptr (nil st) e2)) (λ a st', st' = st ∧ a = visited e2) st.
Proof.
  intros Hwf. revert e1 e2. induction fuel as [|fuel IH]; [lia|]. intros e1 [|[p [k v]] e2] He Hf.
  - apply rbtree_walk_nil.
  - eapply rbtree_walk_cons; [done..|eapply iterator_step; eassumption|].
    apply (IH (e1 ++ [(p, (k, v))])); [by rewrite He, <- app_assoc|simpl in Hf; lia].
Qed.

Lemma rbtree_walk_back_spec st T fuel e1 e2 :
  wf cmp st T → elems T = e1 ++ e2 → length e1 < fuel →
  wp (rbtree_walk rbtree_iterator_prev fuel (last_ptr (nil st) e1)) (λ a st', st' = st ∧ a = visited (reverse e1)) st.
Proof.
  intros Hwf. revert e1 e2. induction fuel as [|fuel IH]; [lia|]. intros e1 e2 He Hf.
  destruct e1 as [|[p [k v]] e1 _] using rev_ind; [apply rbtree_walk_nil|].
  rewrite <- app_assoc in He. rewrite length_app in Hf. simpl in He, Hf.
  unfold last_ptr at 1. rewrite last_snoc, reverse_snoc.
  eapply rbtree_walk_cons; [done..|eapply iterator_step; eassumption|]. eapply IH; [done|lia].
Qed.

(** Starting at [rbtree_iterator_first] (or [last]) the loop visits every pair
    once, in ascending (descending) order of the keys. *)
Lemma rbtree_iterator_first_spec st T :
  wf cmp st T → wp rbtree_iterator_first (λ a st', st' = st ∧ a = (bool_decide (amap T ≠ ∅), head_ptr (nil st) (elems T))) st.
Proof.
  intros Hwf. pose proof Hwf as [[np Hr] _ _ _ _]. unfold rbtree_iterator_first.
  apply wp_bind, wp_get_nil, wp_bind, wp_get_root, wp_bind. rewrite (rep_root _ _ _ _ _ Hr). simpl.
  eapply wp_mono; [by eapply rbtree_minimum_head|]. intros q st' (-> & ->). apply wp_ret. split; [done|].
  f_equal. apply bool_decide_ext. rewrite <- map_size_empty_iff, (wf_size _ _ Hwf).
  destruct (elems T) as [|[p [k v]] e] eqn:E; [done|]. simpl.
  destruct (iterator_step _ _ [] _ _ _ _ Hwf E) as (? & _). unfold head_ptr. naive_solver.
Qed.

Lemma rbtree_iterator_last_spec st T :
  wf cmp st T → wp rbtree_iterator_last (λ a st', st' = st ∧ a.2 = last_ptr (nil st) (elems T)) st.
Proof.
  intros [[np Hr] _ _ _ _]. unfold rbtree_iterator_last.
  apply wp_bind, wp_get_nil, wp_bind, wp_get_root, wp_bind. rewrite (rep_root _ _ _ _ _ Hr). simpl.
  eapply wp_mono; [by eapply rbtree_maximum_spec|]. intros q st' (-> & ->). by apply wp_ret.
Qed.

(** ** Construction and destruction *)
Lemma rbtree_new_spec freer st :
  rbtree_new true true freer = Some st → wf cmp st Leaf ∧ kvfreer st = freer ∧ freed st = [].
Proof.
  intros [= <-]. split; [|done]. split.
  - exists NULL. split; [done|by eexists _, _|done..|]. intros q. simpl. unfold ind.
    repeat case_decide; subst; try done; lia.
  - exists 0. constructor.
  - constructor.
  - intros q. simpl. rewrite lookup_singleton_is_Some. rewrite elem_of_nil. naive_solver.
  - intros q. simpl. rewrite lookup_singleton_is_Some. naive_solver lia.
Qed.

(** The order in which [rbtree_destroy_all] frees the nodes. *)
Fixpoint postorder t : list (ptr * (K * V)) :=
  match t with
  | Leaf => []
  | Node _ l p k v r => postorder l ++ postorder r ++ [(p, (k, v))]
  end.

Lemma postorder_elems t : postorder t ≡ₚ elems t.
Proof.
  induction t as [|c l IHl p k v r IHr]; simpl; [done|].
  rewrite IHl, IHr. f_equiv. by rewrite Permutation_app_comm.
Qed.

(** The log after the destructor is called on each pair of [e] in turn. *)
Definition log_all st (e : list (ptr * (K * V))) : list (option K * option V) :=
  if kvfreer st then freed st ++ visited e else freed st.

(** The effect of freeing the nodes of [e]. *)
Record destroyed (e : list (ptr * (K * V))) st st' : Prop := {
  ds_root : root st' = root st;
  ds_nil : nil st' = nil st;
  ds_next : next_ptr st' = next_ptr st;
  ds_kvfreer : kvfreer st' = kvfreer st;
  ds_freed : freed st' = log_all st e;
  ds_in q : q ∈ e.*1 → nodes st' !! q = None;
  ds_out q : q ∉ e.*1 → nodes st' !! q = nodes st !! q
}.

Lemma destroyed_nil st : destroyed [] st st.
Proof. split; try done; [unfold log_all; destruct (kvfreer st); by rewrite ?app_nil_r|]. intros q []%elem_of_nil. Qed.

Lemma destroyed_app e1 e2 st st1 st2 :
  destroyed e1 st st1 → destroyed e2 st1 st2 → destroyed (e1 ++ e2) st st2.
Proof.
  intros [] []. split; try congruence.
  - unfold log_all in *. rewrite ds_kvfreer0 in *. rewrite ds_freed1, ds_freed0. unfold visited.
    destruct (kvfreer st); [by rewrite fmap_app, app_assoc|done].
  - intros q. rewrite fmap_app, elem_of_app. intros [Hq|Hq]; [|auto].
    destruct (decide (q ∈ e2.*1)); [auto|]. rewrite ds_out1; auto.
  - intros q. rewrite fmap_app, not_elem_of_app. intros []. rewrite ds_out1; auto.
Qed.

(** [free_node] after the destructor call, for one node. *)
Lemma destroy_node_spec st p k v n :
  nodes st !! p = Some n → n_key n = Some k → n_value n = Some v →
  wp (n ← deref p; call_kvfreer (n_key n) (n_value n);; free_node p)
     (λ _ st', destroyed [(p, (k, v))] st st') st.
Proof.
  intros Hn Hk Hv. apply wp_bind. eapply wp_deref; [done|]. rewrite Hk, Hv.
  apply wp_bind, call_kvfreer_spec. eapply free_node_spec; [done|]. simpl. split; simpl; try done.
  - intros q ->%list_elem_of_singleton. apply lookup_delete_eq.
  - intros q Hq. apply lookup_delete_ne. set_solver.
Qed.

(** A child is destroyed unless it is the sentinel. *)
Lemma destroy_child_spec fuel st nl t :
  nl ∉ (elems t).*1 →
  (t ≠ Leaf → wp (rbtree_destroy_all fuel (tptr nl t)) (λ _ st', destroyed (postorder t) st st') st) →
  wp (if decide (tptr nl t = nl) then mret tt else rbtree_destroy_all fuel (tptr nl t))
     (λ _ st', destroyed (postorder t) st st') st.
Proof.
  intros Hnl Ht. destruct t as [|c l p k v r]; simpl in *.
  - rewrite decide_True by done. apply wp_ret, destroyed_nil.
  - rewrite decide_False; [by apply Ht|]. intros ->. apply Hnl. rewrite fmap_app, elem_of_app. right. by left.
Qed.

Lemma trep_destroyed e st st' nl t par :
  destroyed e st st' → (∀ q, q ∈ (elems t).*1 → q ∉ e.*1) → trep st nl t par → trep st' nl t par.
Proof.
  intros [] He. apply trep_ext. intros q Hq. apply ds_out0, He.
  rewrite tcnt_elems in Hq. destruct (decide (q ∈ (elems t).*1)) as [|Hn]; [done|]. by apply ecnt_zero in Hn.
Qed.

Lemma elem_of_postorder q t : q ∈ (postorder t).*1 ↔ q ∈ (elems t).*1.
Proof. by rewrite postorder_elems. Qed.

Lemma rbtree_destroy_all_spec fuel st nl t par :
  nil st = nl → trep st nl t par → NoDup (nl :: (elems t).*1) → length (elems t) < fuel →
  wp (rbtree_destroy_all fuel (tptr nl t)) (λ _ st', destroyed (postorder t) st st') st.
Proof.
  revert st t par. induction fuel as [|fuel IH]; [lia|]. intros st [|c l p k v r] par Hnil Ht Hnd Hf; simpl tptr.
  - simpl. apply wp_bind, wp_get_nil. rewrite Hnil, decide_True by done. apply wp_ret, destroyed_nil.
  - destruct Ht as (Hp & Hl & Hr). simpl in Hnd, Hf. rewrite fmap_app in Hnd. rewrite length_app in Hf. simpl in Hnd, Hf.
    apply list.NoDup_cons in Hnd as [Hn Hnd]. apply list.NoDup_app in Hnd as (Hndl & Hd & Hndr).
    apply list.NoDup_cons in Hndr as [Hpr Hndr]. rewrite not_elem_of_app, not_elem_of_cons in Hn. destruct Hn as (Hnl & Hnp & Hnr).
    simpl rbtree_destroy_all. apply wp_bind, wp_get_nil. rewrite Hnil, decide_False by done.
    apply wp_bind, wp_bind. eapply wp_deref; [done|]. apply wp_ret, wp_bind. simpl.
    eapply wp_mono; [apply destroy_child_spec; [done|]; intros _; eapply IH; eauto; [by constructor|lia]|].
    intros [] st1 D1.
    assert (Hp1 : nodes st1 !! p = nodes st !! p).
    { apply (ds_out _ _ _ D1). rewrite elem_of_postorder. intros Hin. apply (Hd _ Hin). by left. }
    apply wp_bind, wp_bind. eapply wp_deref; [by rewrite Hp1|]. apply wp_ret, wp_bind. simpl.
    eapply wp_mono; [apply destroy_child_spec; [done|]; intros _; eapply IH|].
    + rewrite (ds_nil _ _ _ D1). done.
    + eapply trep_destroyed; [exact D1| |exact Hr]. intros q Hq. rewrite elem_of_postorder. intros Hin.
      apply (Hd _ Hin). by right.
    + by constructor.
    + lia.
    + intros [] st2 D2. simpl.
      assert (Hp2 : nodes st2 !! p = nodes st !! p).
      { rewrite <- Hp1. apply (ds_out _ _ _ D2). by rewrite elem_of_postorder. }
      eapply wp_mono; [eapply destroy_node_spec; [by rewrite Hp2|done..]|].
      intros [] st3 D3. eapply destroyed_app; [exact D1|]. by eapply destroyed_app.
Qed.

(** Clearing leaves the empty tree: the sentinel is the only live node, and
    the destructor has been called once on every pair. *)
Lemma rbtree_clear_spec st T :
  wf cmp st T →
  wp rbtree_clear (λ _ st', wf cmp st' Leaf ∧ nil st' = nil st ∧ kvfreer st' = kvfreer st ∧
                            freed st' = log_all st (postorder T)) st.
Proof.
  intros [[np Hr] Hrb Ho Hdom Hnext]. unfold rbtree_clear, wp. apply wp_bind.
  rewrite (rep_root _ _ _ _ _ Hr). simpl. pose proof (rep_nodup _ _ _ _ Hr) as [Hnull Hnd]%list.NoDup_cons.
  eapply wp_mono; [eapply (rbtree_destroy_all_spec _ st (nil st)); [done|apply Hr|done|]|].
  { apply rep_size in Hr. rewrite loop_fuel_eq. lia. }
  intros [] st1 [D1 D2 D3 D4 D5 Din Dout]. apply wp_bind, wp_get_nil. apply wp_set_root. intros st2 [R1 R2 R3 R4 R5 R6].
  assert (Hlive : ∀ q, is_Some (nodes st2 !! q) ↔ q = nil st).
  { intros q. rewrite R6. destruct (decide (q ∈ (postorder T).*1)) as [Hq|Hq].
    - rewrite Din by done. rewrite elem_of_postorder in Hq. split; [by intros []|]. intros ->.
      by apply list.NoDup_cons in Hnd as [? _].
    - rewrite Dout, Hdom by done. rewrite elem_of_postorder in Hq. naive_solver. }
  split_and!; [|congruence..]. split.
  - rewrite R2, D2. exists np. destruct Hr as [_ (lp & rp & Hn) _ _ _ Hu]. split; [congruence| |simpl; congruence|done|done|].
    + exists lp, rp. rewrite R6, Dout; [done|]. rewrite elem_of_postorder. by apply list.NoDup_cons in Hnd as [? _].
    + intros q. specialize (Hu q). simpl in *. lia.
  - exists 0. constructor.
  - constructor.
  - intros q. rewrite Hlive, R2, D2, elem_of_nil. tauto.
  - intros q. rewrite Hlive, R3, D3. intros ->. apply Hnext, Hdom. by left.
Qed.

(** [rbtree_free] leaves no live node. *)
Lemma rbtree_free_spec st T :
  wf cmp st T →
  wp rbtree_free (λ _ st', nodes st' = ∅ ∧ freed st' = log_all st (postorder T)) st.
Proof.
  intros Hwf. unfold rbtree_free. apply wp_bind. eapply wp_mono; [by eapply rbtree_clear_spec|].
  intros [] st1 (Hwf1 & Hnl & _ & Hfr). pose proof Hwf1 as [_ _ _ Hdom _].
  apply wp_bind, wp_get_nil. destruct (proj2 (Hdom (nil st1))) as [n Hn]; [by left|].
  eapply free_node_spec; [done|]. simpl. split; [|done]. apply map_eq. intros q.
  rewrite lookup_empty. destruct (decide (nil st1 = q)) as [<-|Hq]; [apply lookup_delete_eq|].
  rewrite lookup_delete_ne by done. apply eq_None_not_Some. rewrite Hdom. intros [?|[]%elem_of_nil]. done.
Qed.

(** ** The tree as a finite map *)

(** [holds st g]: [st] is a well-formed tree with the contents [g]. *)
Definition holds st (g : gmap K V) : Prop := ∃ T, wf cmp st T ∧ amap T = g.

Lemma rbtree_insert_holds mem st g key v :
  holds st g →
  wp (rbtree_insert cmp mem (Some key) (Some v))
     (λ b st', b = mem && bool_decide (g !! key = None) ∧ kvfreer st' = kvfreer st ∧ freed st' = freed st ∧
        holds st' (if b then <[key:=v]> g else g)) st.
Proof.
  intros (T & Hwf & <-). eapply wp_mono; [by eapply rbtree_insert_spec|]. intros b st'. unfold insert_post.
  destruct (decide (key ∈ (contents T).*1)) as [Hk|Hk].
  - intros [-> ->]. rewrite bool_decide_false, andb_false_r by (by rewrite amap_lookup_None; auto).
    split_and!; [done..|]. by exists T.
  - rewrite bool_decide_true, andb_true_r by (by apply amap_lookup_None). destruct mem.
    + intros (-> & _ & Hkf & Hfr & T' & Hwf' & Hc). split_and!; [done..|]. exists T'. split; [done|].
      unfold amap. rewrite <- list_to_map_cons. apply list_to_map_proper; [|done]. by eapply wf_contents_nodup.
    + intros [-> ->]. split_and!; [done..|]. by exists T.
Qed.

Lemma rbtree_remove_holds st g key :
  holds st g →
  wp (rbtree_remove cmp (Some key))
     (λ b st', b = bool_decide (is_Some (g !! key)) ∧ kvfreer st' = kvfreer st ∧
        freed st' = (if g !! key is Some v then log_free st (Some key) (Some v) else freed st) ∧
        holds st' (delete key g)) st.
Proof.
  intros (T & Hwf & <-). eapply wp_mono; [by eapply rbtree_remove_spec|]. intros b st'. unfold remove_post.
  destruct (decide (key ∈ (contents T).*1)) as [Hk|Hk].
  - intros (-> & _ & Hkf & T' & v & e1 & e2 & Hwf' & Hc & Hc' & Hfr).
    destruct (amap_split _ _ _ _ _ (wf_contents_nodup _ _ _ Hwf) Hc) as (Hv & Hd & _).
    rewrite Hv, bool_decide_true by done. split_and!; [done..|]. exists T'. split; [done|].
    unfold amap at 1. by rewrite Hc'.
  - intros [-> ->]. apply amap_lookup_None in Hk. rewrite Hk, bool_decide_false by (by intros []).
    split_and!; [done..|]. exists T. by rewrite delete_id.
Qed.

Lemma rbtree_replace_holds mem st g key v :
  holds st g →
  wp (rbtree_replace cmp mem (Some key) (Some v))
     (λ b st', b = mem || bool_decide (is_Some (g !! key)) ∧ kvfreer st' = kvfreer st ∧
        freed st' = (if g !! key is Some old then log_free st (Some key) (Some old) else freed st) ∧
        holds st' (if b then <[key:=v]> g else g)) st.
Proof.
  intros (T & Hwf & <-). destruct (amap T !! key) as [old|] eqn:E.
  - eapply wp_mono; [by eapply rbtree_replace_spec|]. intros b st'. unfold replace_post. rewrite E.
    intros (-> & _ & Hkf & Hfr & T' & Hwf' & HT'). rewrite bool_decide_true, orb_true_r by done.
    split_and!; [done..|]. by exists T'.
  - rewrite bool_decide_false, orb_false_r by (by intros []).
    unfold rbtree_replace. apply wp_bind. eapply wp_mono; [by apply rbtree_find_spec|].
    intros q st' (-> & Hf). apply wp_bind, wp_get_nil.
    destruct Hf as [[-> Hk]|(ctx & c & l & old & r & ->)]; [|by rewrite (amap_plug _ _ _ _ _ _ _ _ Hwf) in E].
    rewrite decide_True by done.
    eapply wp_mono; [apply (rbtree_insert_holds mem st (amap T)); by exists T|].
    intros b st' (-> & H'). rewrite bool_decide_true, andb_true_r in * by done. done.
Qed.

Lemma rbtree_search_holds st g key :
  holds st g → wp (rbtree_search cmp (Some key)) (λ v st', st' = st ∧ v = g !! key) st.
Proof. intros (T & Hwf & <-). by apply rbtree_search_spec. Qed.

Lemma rbtree_size_holds st g : holds st g → wp rbtree_size (λ n st', st' = st ∧ n = u64 (Z.of_nat (size g))) st.
Proof. intros (T & Hwf & <-). by apply rbtree_size_spec. Qed.

Lemma rbtree_clear_holds st g :
  holds st g →
  wp rbtree_clear (λ _ st', holds st' ∅ ∧ kvfreer st' = kvfreer st ∧
    ∃ e, freed st' = freed st ++ (if kvfreer st then (λ x, (Some x.1, Some x.2)) <$> e else []) ∧ e ≡ₚ map_to_list g) st.
Proof.
  intros (T & Hwf & <-). eapply wp_mono; [by eapply rbtree_clear_spec|].
  intros [] st' (Hwf' & _ & Hkf & Hfr). split_and!; [by exists Leaf|done|]. exists ((postorder T).*2). split.
  - rewrite Hfr. unfold log_all, visited. rewrite <- list_fmap_compose.
    destruct (kvfreer st); [done|by rewrite app_nil_r].
  - rewrite postorder_elems. unfold amap. rewrite map_to_list_to_map; [done|]. by eapply wf_contents_nodup.
Qed.
End query.
