(* ===== verification/RbCorrect.v ===== *)
(** * Correctness of the red-black tree

    The theorems about [src/utils/cutils/map/rb_tree.c] as a whole: any
    sequence of calls on a fresh tree behaves like the same sequence on a
    finite map, the tree stays a balanced search tree whose nodes are exactly
    the live allocations, the iterators enumerate it in both orders, and
    destruction frees every pair once. *)
From stdpp Require Import base gmap list fin_maps numbers sorting.
From Stdlib Require Import ZArith Lia.
From S2P Require Import Prelude RbTree RbInv RbRep RbInsert RbErase RbQuery.

(** The calls a client makes; the flag of an insertion says whether the node
    can be allocated, and a [None] key or value is a [NULL] argument. *)
Inductive rb_op (K V : Type) :=
| OpInsert (mem : bool) (key : option K) (value : option V)
| OpReplace (mem : bool) (key : option K) (value : option V)
| OpRemove (key : option K)
| OpSearch (key : option K)
| OpSize
| OpClear.
Arguments OpInsert {K V} _ _ _.
Arguments OpReplace {K V} _ _ _.
Arguments OpRemove {K V} _.
Arguments OpSearch {K V} _.
Arguments OpSize {K V}.
Arguments OpClear {K V}.

Inductive rb_res (V : Type) := RBool (b : bool) | RValue (v : option V) | RSize (n : Z) | RUnit.
Arguments RBool {V} _.
Arguments RValue {V} _.
Arguments RSize {V} _.
Arguments RUnit {V}.

Section correctness.
Context {K V : Type} `{Countable K} (cmp : K → K → Z).
Implicit Types (st : rb_tree K V) (g : gmap K V) (op : rb_op K V).

Definition run_op op : M (rb_tree K V) (rb_res V) :=
  match op with
  | OpInsert mem key value => b ← rbtree_insert cmp mem key value; mret (RBool b)
  | OpReplace mem key value => b ← rbtree_replace cmp mem key value; mret (RBool b)
  | OpRemove key => b ← rbtree_remove cmp key; mret (RBool b)
  | OpSearch key => v ← rbtree_search cmp key; mret (RValue v)
  | OpSize => n ← rbtree_size; mret (RSize n)
  | OpClear => rbtree_clear;; mret RUnit
  end.

Fixpoint run_ops (ops : list (rb_op K V)) : M (rb_tree K V) (list (rb_res V)) :=
  match ops with
  | [] => mret []
  | op :: ops => r ← run_op op; rs ← run_ops ops; mret (r :: rs)
  end.

(** The specification: a finite map and the pairs handed to the destructor. *)
Definition spec_state : Type := gmap K V * list (option K * option V).

Definition spec_op (freer : bool) op (s : spec_state) : rb_res V * spec_state :=
  let '(g, log) := s in
  let drop k v := if freer then log ++ [(Some k, Some v)] else log in
  match op with
  | OpInsert mem (Some k) (Some v) =>
    if mem && bool_decide (g !! k = None) then (RBool true, (<[k:=v]> g, log)) else (RBool false, s)
  | OpReplace mem (Some k) (Some v) =>
    match g !! k with
    | Some old => (RBool true, (<[k:=v]> g, drop k old))
    | None => if mem then (RBool true, (<[k:=v]> g, log)) else (RBool false, s)
    end
  | OpRemove (Some k) =>
    match g !! k with
    | Some v => (RBool true, (delete k g, drop k v))
    | None => (RBool false, s)
    end
  | OpSearch (Some k) => (RValue (g !! k), s)
  | OpSize => (RSize (u64 (Z.of_nat (size g))), s)
  | OpClear => (RUnit, (∅, if freer then log ++ ((λ x, (Some x.1, Some x.2)) <$> map_to_list g) else log))
  | OpSearch None => (RValue None, s)
  | OpInsert _ _ _ | OpReplace _ _ _ | OpRemove None => (RBool false, s)
  end.

Fixpoint spec_ops (freer : bool) (ops : list (rb_op K V)) (s : spec_state) : list (rb_res V) * spec_state :=
  match ops with
  | [] => ([], s)
  | op :: ops =>
    let '(r, s) := spec_op freer op s in
    let '(rs, s) := spec_ops freer ops s in
    (r :: rs, s)
  end.

(** The simulation: the tree holds the map, and the destructor has been called
    on the logged pairs, in some order. *)
Record simulates (freer : bool) st (s : spec_state) : Prop := {
  sim_holds : holds cmp st s.1;
  sim_freer : kvfreer st = freer;
  sim_freed : freed st ≡ₚ s.2
}.

Context `{!CmpSpec cmp}.

Lemma log_free_perm freer st s k v :
  simulates freer st s → log_free st (Some k) (Some v) ≡ₚ (if freer then s.2 ++ [(Some k, Some v)] else s.2).
Proof. intros [_ <- Hf]. unfold log_free. destruct (kvfreer st); by rewrite Hf. Qed.

Lemma run_op_simulates freer op st s :
  simulates freer st s →
  wp (run_op op) (λ r st', r = (spec_op freer op s).1 ∧ simulates freer st' (spec_op freer op s).2) st.
Proof.
  intros Hs. pose proof Hs as [Hh Hkf Hfr]. destruct s as [g log]; simpl in *.
  destruct op as [mem [k|] [v|]|mem [k|] [v|]|[k|]|[k|]| |]; simpl; try done; apply wp_bind.
  - eapply wp_mono; [by apply rbtree_insert_holds|]. intros b st' (-> & Hk & Hf & Hh').
    apply wp_ret. destruct (mem && _); (split; [done|]; split; simpl; congruence || by rewrite Hf).
  - eapply wp_mono; [by apply rbtree_replace_holds|]. intros b st' (-> & Hk & Hf & Hh'). apply wp_ret.
    destruct (g !! k) as [old|] eqn:E.
    + rewrite bool_decide_true, orb_true_r in * by done.
      split; [done|]. split; simpl; [done|congruence|]. rewrite Hf. by apply (log_free_perm freer st (g, log)).
    + rewrite bool_decide_false, orb_false_r in * by (by intros []).
      destruct mem; (split; [done|]; split; simpl; congruence || by rewrite Hf).
  - eapply wp_mono; [by apply rbtree_remove_holds|]. intros b st' (-> & Hk & Hf & Hh'). apply wp_ret.
    destruct (g !! k) as [old|] eqn:E.
    + rewrite bool_decide_true in * by done.
      split; [done|]. split; simpl; [done|congruence|]. rewrite Hf. by apply (log_free_perm freer st (g, log)).
    + rewrite bool_decide_false in * by (by intros []). rewrite delete_id in Hh' by done.
      split; [done|]. split; simpl; congruence || by rewrite Hf.
  - eapply wp_mono; [by apply rbtree_search_holds|]. intros v st' (-> & ->). by apply wp_ret.
  - eapply wp_mono; [by eapply rbtree_size_holds|]. intros n st' (-> & ->). by apply wp_ret.
  - eapply wp_mono; [by eapply rbtree_clear_holds|]. intros [] st' (Hh' & Hk & e & Hf & He). apply wp_ret.
    split; [done|]. split; simpl; [done|congruence|]. rewrite Hf, Hkf.
    destruct freer; [by rewrite Hfr, He|by rewrite app_nil_r].
Qed.

Lemma run_ops_simulates freer ops st s :
  simulates freer st s →
  wp (run_ops ops) (λ rs st', rs = (spec_ops freer ops s).1 ∧ simulates freer st' (spec_ops freer ops s).2) st.
Proof.
  revert st s. induction ops as [|op ops IH]; intros st s Hs; simpl; [by apply wp_ret|].
  apply wp_bind. eapply wp_mono; [by apply run_op_simulates|]. intros r st1 (-> & Hs1).
  destruct (spec_op freer op s) as [r s1]. simpl in Hs1.
  apply wp_bind. eapply wp_mono; [by apply IH|]. intros rs st2 (-> & Hs2). apply wp_ret.
  by destruct (spec_ops freer ops s1).
Qed.

(** The state after a run, for a run that is known to return. *)
Definition ran ops st : rb_tree K V := match run_ops ops st with Some (_, st') => st' | None => st end.

Lemma ran_holds freer ops st s : simulates freer st s → holds cmp (ran ops st) (spec_ops freer ops s).2.1.
Proof.
  intros Hs. destruct (proj1 (wp_run _ _ _) (run_ops_simulates freer ops st s Hs)) as (rs & st' & Hrun & _ & [Hh _ _]).
  unfold ran. by rewrite Hrun.
Qed.

Lemma new_simulates freer st : rbtree_new true true freer = Some st → simulates freer st (∅, []).
Proof.
  intros (Hwf & Hk & Hf)%(rbtree_new_spec cmp). split; simpl; [by exists Leaf|done|by rewrite Hf].
Qed.

(** C1: Refinement of the tree by a finite map: any sequence of calls on a tree
    made by [rbtree_new] runs without touching a dead node, terminates, and
    returns what the same calls return on a finite map; the destructor is
    called on the pairs the specification drops and on no other. *)
Theorem rbtree_refines_map freer st ops :
  rbtree_new true true freer = Some st →
  wp (run_ops ops) (λ rs st', rs = (spec_ops freer ops (∅, [])).1 ∧
    simulates freer st' (spec_ops freer ops (∅, [])).2) st.
Proof. intros Hnew. by apply run_ops_simulates, new_simulates. Qed.

(** C20: The invariant of [rb_tree.c]: after any sequence of calls the root is
    black, no red node has a red child, all paths have as many black nodes,
    the keys are in order, and the live allocations are the sentinel and the
    nodes of the tree, whose height is at most [2 log2 (n + 1)]. *)
Theorem rbtree_balanced_search_tree freer st ops :
  rbtree_new true true freer = Some st →
  wp (run_ops ops) (λ _ st', ∃ T n,
    rbt BLACK n T ∧ ordered cmp (elems T) ∧ (∃ np, rep st' (nil st') np [] T) ∧
    (∀ q, is_Some (nodes st' !! q) ↔ q = nil st' ∨ q ∈ (elems T).*1) ∧
    height T ≤ 2 * Nat.log2 (S (length (elems T)))) st.
Proof.
  intros Hnew. eapply wp_mono; [by apply run_ops_simulates, new_simulates|].
  intros _ st' (_ & [(T & [Hr [n Hn] Ho Hd _] & _) _ _]). exists T, n. split_and!; try done.
  apply redblack_height. by exists n.
Qed.

(** Cost of a lookup: in a tree of [n] pairs the search returns, with the
    right node, after at most [2 log2 (n + 1)] comparisons. *)
Theorem rbtree_search_logarithmic st g key :
  holds cmp st g →
  wp (rbtree_recursive_search cmp (S (2 * Nat.log2 (S (size g)))) (root st) key)
     (λ q st', st' = st ∧ (q = nil st ↔ g !! key = None) ∧
        ∀ v, g !! key = Some v → n_value <$> nodes st !! q = Some (Some v)) st.
Proof.
  intros (T & Hwf & <-). pose proof Hwf as [[np Hr] Hrb Ho _ _]. rewrite (rep_root _ _ _ _ _ Hr).
  rewrite (wf_size _ _ _ Hwf).
  eapply wp_mono; [apply (rbtree_recursive_search_spec _ _ _ _ np [] T);
    [done|by split; constructor|done|by apply redblack_height in Hrb; lia]|].
  intros q st' (-> & Hf). split; [done|]. simpl in Hf. destruct Hf as [[-> Hk]|(ctx & c & l & v & r & ->)]; simpl in *.
  - apply amap_lookup_None in Hk. rewrite Hk. done.
  - pose proof (wf_focus_nil _ _ _ _ _ _ _ _ _ Hwf) as Hq. rewrite (amap_plug _ _ _ _ _ _ _ _ _ Hwf).
    split; [done|]. intros ? [= <-]. destruct (wf_focus _ _ _ _ Hwf) as (np' & Hr'). inspect Hr'.
    by simplify_option_eq.
Qed.

(** Iteration: the loop from [rbtree_iterator_first] visits every pair once in
    ascending order of the keys, and the loop from [rbtree_iterator_last]
    visits the same pairs in the opposite order; neither changes the tree. *)
Theorem rbtree_iteration st g :
  holds cmp st g →
  ∃ e, e ≡ₚ map_to_list g ∧ StronglySorted (λ x y, cmp x.1 y.1 < 0)%Z e ∧
    wp (a ← rbtree_iterator_first; rbtree_walk rbtree_iterator_next (S (size g)) a.2)
       (λ l st', st' = st ∧ l = (λ x, (Some x.1, Some x.2)) <$> e) st ∧
    wp (a ← rbtree_iterator_last; rbtree_walk rbtree_iterator_prev (S (size g)) a.2)
       (λ l st', st' = st ∧ l = (λ x, (Some x.1, Some x.2)) <$> reverse e) st.
Proof.
  intros (T & Hwf & <-). exists (contents T). rewrite (wf_size _ _ _ Hwf). split_and!.
  - unfold amap. rewrite map_to_list_to_map; [done|]. by eapply wf_contents_nodup.
  - destruct Hwf as [_ _ Ho _ _]. unfold contents. induction Ho; simpl; constructor; [done|]. by apply Forall_fmap.
  - apply wp_bind. eapply wp_mono; [by eapply rbtree_iterator_first_spec|]. intros ? ? (-> & ->).
    eapply wp_mono; [by eapply (rbtree_walk_spec _ _ _ _ [] (elems T)); [..|lia]|]. intros l ? (-> & ->).
    split; [done|]. unfold visited, contents. by rewrite <- list_fmap_compose.
  - apply wp_bind. eapply wp_mono; [by eapply rbtree_iterator_last_spec|]. intros ? ? (-> & ->).
    eapply wp_mono; [by eapply (rbtree_walk_back_spec _ _ _ _ (elems T) []); [..|rewrite app_nil_r|lia]|].
    intros l ? (-> & ->). split; [done|]. unfold visited, contents.
    by rewrite <- fmap_reverse, <- list_fmap_compose.
Qed.

(** Destruction: [rbtree_free] frees every node including the sentinel, and
    calls the destructor on every stored pair exactly once. *)
Theorem rbtree_free_complete st g :
  holds cmp st g →
  wp rbtree_free (λ _ st', nodes st' = ∅ ∧ ∃ e, e ≡ₚ map_to_list g ∧
    freed st' = freed st ++ (if kvfreer st then (λ x, (Some x.1, Some x.2)) <$> e else [])) st.
Proof.
  intros (T & Hwf & <-). eapply wp_mono; [by eapply rbtree_free_spec|]. intros [] st' (Hn & Hf).
  split; [done|]. exists ((postorder T).*2). split.
  - rewrite postorder_elems. unfold amap. rewrite map_to_list_to_map; [done|]. by eapply wf_contents_nodup.
  - rewrite Hf. unfold log_all, visited. rewrite <- list_fmap_compose.
    destruct (kvfreer st); [done|by rewrite app_nil_r].
Qed.
End correctness.

(** ** Instances on a concrete tree *)
Section examples.
Definition sample_ops : list (rb_op Z Z) :=
  [OpInsert true (Some 3) (Some 30); OpInsert true (Some 1) (Some 10); OpInsert true (Some 2) (Some 20);
   OpInsert true (Some 2) (Some 21); OpInsert false (Some 9) (Some 90); OpReplace true (Some 3) (Some 33);
   OpInsert true (Some 4) (Some 40); OpRemove (Some 1); OpSearch (Some 2); OpSize]%Z.

Definition fresh_tree : rb_tree Z Z := default (mk_tree NULL NULL ∅ 0%N false []) (rbtree_new true true true).

Definition sample_tree : rb_tree Z Z := ran rbtree_int_cmp sample_ops fresh_tree.

Definition sample_map : gmap Z Z := {[2 := 20; 3 := 33; 4 := 40]}%Z.

Lemma sample_holds : holds rbtree_int_cmp sample_tree sample_map.
Proof.
  assert ((spec_ops true sample_ops (∅, [])).2.1 = sample_map) as <- by (vm_compute; reflexivity).
  apply ran_holds, new_simulates; [apply _|reflexivity].
Qed.

Lemma fresh_tree_new : rbtree_new true true true = Some fresh_tree.
Proof. reflexivity. Qed.

Lemma rbtree_refines_map_witness :
  (spec_ops true sample_ops (∅, [])).1 =
    [RBool true; RBool true; RBool true; RBool false; RBool false; RBool true; RBool true;
     RBool true; RValue (Some 20%Z); RSize 3] ∧
  wp (run_ops rbtree_int_cmp sample_ops) (λ rs st', rs = (spec_ops true sample_ops (∅, [])).1 ∧
    simulates rbtree_int_cmp true st' (spec_ops true sample_ops (∅, [])).2) fresh_tree.
Proof.
  split; [reflexivity|].
  exact (rbtree_refines_map rbtree_int_cmp true fresh_tree sample_ops fresh_tree_new).
Defined.

Lemma rbtree_balanced_search_tree_witness :
  wp (run_ops rbtree_int_cmp sample_ops) (λ _ st', ∃ T n,
    rbt BLACK n T ∧ ordered rbtree_int_cmp (elems T) ∧ (∃ np, rep st' (nil st') np [] T) ∧
    (∀ q, is_Some (nodes st' !! q) ↔ q = nil st' ∨ q ∈ (elems T).*1) ∧
    height T ≤ 2 * Nat.log2 (S (length (elems T)))) fresh_tree.
Proof. exact (rbtree_balanced_search_tree rbtree_int_cmp true fresh_tree sample_ops fresh_tree_new). Defined.

Lemma rbtree_search_logarithmic_witness :
  holds rbtree_int_cmp sample_tree sample_map ∧
  wp (rbtree_recursive_search rbtree_int_cmp (S (2 * Nat.log2 (S (size sample_map)))) (root sample_tree) 3%Z)
     (λ q st', st' = sample_tree ∧ (q = nil sample_tree ↔ sample_map !! 3%Z = None) ∧
        ∀ v, sample_map !! 3%Z = Some v → n_value <$> nodes sample_tree !! q = Some (Some v)) sample_tree.
Proof. exact (conj sample_holds (rbtree_search_logarithmic rbtree_int_cmp _ _ 3%Z sample_holds)). Defined.

Lemma rbtree_iteration_witness :
  holds rbtree_int_cmp sample_tree sample_map ∧
  ∃ e, e ≡ₚ map_to_list sample_map ∧ StronglySorted (λ x y, rbtree_int_cmp x.1 y.1 < 0)%Z e ∧
    wp (a ← rbtree_iterator_first; rbtree_walk rbtree_iterator_next (S (size sample_map)) a.2)
       (λ l st', st' = sample_tree ∧ l = (λ x, (Some x.1, Some x.2)) <$> e) sample_tree ∧
    wp (a ← rbtree_iterator_last; rbtree_walk rbtree_iterator_prev (S (size sample_map)) a.2)
       (λ l st', st' = sample_tree ∧ l = (λ x, (Some x.1, Some x.2)) <$> reverse e) sample_tree.
Proof. exact (conj sample_holds (rbtree_iteration rbtree_int_cmp _ _ sample_holds)). Defined.

Lemma rbtree_free_complete_witness :
  holds rbtree_int_cmp sample_tree sample_map ∧
  wp rbtree_free (λ _ st', nodes st' = ∅ ∧ ∃ e, e ≡ₚ map_to_list sample_map ∧
    freed st' = freed sample_tree ++
      (if kvfreer sample_tree then (λ x, (Some x.1, Some x.2)) <$> e else [])) sample_tree.
Proof. exact (conj sample_holds (rbtree_free_complete rbtree_int_cmp _ _ sample_holds)). Defined.
End examples.
