(* ===== verification/Map.v ===== *)
(** * The typed map of [src/utils/cutils/map/map.c]

    [map_t] wraps a red-black tree whose keys and values are C objects of the
    kinds named by [map_type_t].  A [void *] argument is used at the type the
    map's kind gives it, so keys and values are indexed by the kind, and a
    [NULL] argument is [None].  The map copies integer, boolean and string
    arguments before it stores them: the counters of [map_t] record the copies
    made and the copies freed again on the error paths, which the accounting
    theorem below uses. *)
From stdpp Require Import base gmap list fin_maps numbers sorting strings.
From Stdlib Require Import ZArith Lia.
From S2P Require Import Prelude CString RbTree RbInv RbRep RbInsert RbErase RbQuery.

Inductive map_type_t :=
| MAP_INT_INT | MAP_INT_BOOL | MAP_INT_STR | MAP_INT_PTR
| MAP_STR_BOOL | MAP_STR_INT | MAP_STR_PTR | MAP_STR_STR
| MAP_PTR_INT | MAP_PTR_STR | MAP_PTR_PTR.

(** The C type behind a [void *] key or value; [P] stands for the objects a
    pointer value refers to. *)
Definition key_of (type : map_type_t) : Type :=
  match type with
  | MAP_INT_INT | MAP_INT_BOOL | MAP_INT_STR | MAP_INT_PTR => Z
  | MAP_STR_BOOL | MAP_STR_INT | MAP_STR_PTR | MAP_STR_STR => cstr
  | MAP_PTR_INT | MAP_PTR_STR | MAP_PTR_PTR => N
  end.
Definition val_of (P : Type) (type : map_type_t) : Type :=
  match type with
  | MAP_INT_INT | MAP_STR_INT | MAP_PTR_INT => Z
  | MAP_INT_BOOL | MAP_STR_BOOL => bool
  | MAP_INT_STR | MAP_STR_STR | MAP_PTR_STR => cstr
  | MAP_INT_PTR | MAP_STR_PTR | MAP_PTR_PTR => P
  end.

#[global] Instance key_of_eq_dec type : EqDecision (key_of type).
Proof. destruct type; simpl; apply _. Defined.
#[global] Instance key_of_countable type : Countable (key_of type).
Proof. destruct type; simpl; apply _. Defined.

Definition is_key_int (type : map_type_t) : bool :=
  match type with MAP_INT_INT | MAP_INT_STR | MAP_INT_PTR | MAP_INT_BOOL => true | _ => false end.
Definition is_key_str (type : map_type_t) : bool :=
  match type with MAP_STR_INT | MAP_STR_STR | MAP_STR_PTR | MAP_STR_BOOL => true | _ => false end.
Definition is_key_ptr (type : map_type_t) : bool :=
  match type with MAP_PTR_INT | MAP_PTR_STR | MAP_PTR_PTR => true | _ => false end.
Definition is_val_bool (type : map_type_t) : bool :=
  match type with MAP_STR_BOOL | MAP_INT_BOOL => true | _ => false end.
Definition is_val_int (type : map_type_t) : bool :=
  match type with MAP_INT_INT | MAP_STR_INT | MAP_PTR_INT => true | _ => false end.
Definition is_val_str (type : map_type_t) : bool :=
  match type with MAP_INT_STR | MAP_STR_STR | MAP_PTR_STR => true | _ => false end.
Definition is_val_ptr (type : map_type_t) : bool :=
  match type with MAP_INT_PTR | MAP_STR_PTR | MAP_PTR_PTR => true | _ => false end.

(** The comparator [map_new] installs for a kind. *)
Definition map_cmp (signed : bool) (type : map_type_t) : key_of type → key_of type → Z :=
  match type with
  | MAP_INT_INT | MAP_INT_BOOL | MAP_INT_STR | MAP_INT_PTR => rbtree_int_cmp
  | MAP_STR_BOOL | MAP_STR_INT | MAP_STR_PTR | MAP_STR_STR => rbtree_str_cmp signed
  | MAP_PTR_INT | MAP_PTR_STR | MAP_PTR_PTR => rbtree_ptr_cmp
  end.

(** Which of the allocations of one call succeed: the copy of the key, the
    copy of the value and the tree node.  [util_strdup_s] aborts the process
    instead of returning [NULL], so string copies always succeed. *)
Record map_mem := mk_map_mem { mem_key : bool; mem_value : bool; mem_node : bool }.
Definition mem_ok : map_mem := mk_map_mem true true true.

(** [struct _map_t], with the counters of copies made and dropped. *)
Record map_t (P : Type) (type : map_type_t) := mk_map {
  store : rb_tree (key_of type) (val_of P type);
  keys_made : nat;
  keys_dropped : nat;
  vals_made : nat;
  vals_dropped : nat
}.
Arguments mk_map {P type} _ _ _ _ _.
Arguments store {P type} _.
Arguments keys_made {P type} _.
Arguments keys_dropped {P type} _.
Arguments vals_made {P type} _.
Arguments vals_dropped {P type} _.

Section map.
Context {P : Type} (signed : bool) {type : map_type_t}.
Implicit Types (m : map_t P type).
Let MM := M (map_t P type).

(** Run a tree operation on [map->store]. *)
Definition on_store {A} (f : M (rb_tree (key_of type) (val_of P type)) A) : MM A := λ m,
  match f (store m) with
  | Some (a, s) => Some (a, mk_map s (keys_made m) (keys_dropped m) (vals_made m) (vals_dropped m))
  | None => None
  end.

Definition made_key : MM unit := modify (λ m,
  mk_map (store m) (S (keys_made m)) (keys_dropped m) (vals_made m) (vals_dropped m)).
Definition made_val : MM unit := modify (λ m,
  mk_map (store m) (keys_made m) (keys_dropped m) (S (vals_made m)) (vals_dropped m)).
(** [free(tmp)] and [free(tmp_value)] on an error path. *)
Definition drop_key : MM unit := modify (λ m,
  mk_map (store m) (keys_made m) (S (keys_dropped m)) (vals_made m) (vals_dropped m)).
Definition drop_val : MM unit := modify (λ m,
  mk_map (store m) (keys_made m) (keys_dropped m) (vals_made m) (S (vals_dropped m))).

Definition map_convert_key (mem : bool) (key : key_of type) : MM (option (key_of type)) :=
  if is_key_ptr type then mret (Some key)
  else if is_key_int type then
    if mem then made_key;; mret (Some key) else mret None
  else if is_key_str type then made_key;; mret (Some key)
  else mret None.

Definition map_convert_value (mem : bool) (value : val_of P type) : MM (option (val_of P type)) :=
  if is_val_ptr type then mret (Some value)
  else if is_val_bool type then
    if mem then made_val;; mret (Some value) else mret None
  else if is_val_int type then
    if mem then made_val;; mret (Some value) else mret None
  else if is_val_str type then made_val;; mret (Some value)
  else mret None.

Definition map_remove (key : option (key_of type)) : MM bool :=
  match key with
  | None => mret false
  | Some _ => on_store (rbtree_remove (map_cmp signed type) key)
  end.

Definition map_search (key : option (key_of type)) : MM (option (val_of P type)) :=
  match key with
  | None => mret None
  | Some _ => on_store (rbtree_search (map_cmp signed type) key)
  end.

Definition map_size : MM Z := on_store rbtree_size.

Definition map_replace (mem : map_mem) (key : option (key_of type)) (value : option (val_of P type)) : MM bool :=
  match key, value with
  | Some key, Some value =>
    tmp ← map_convert_key (mem_key mem) key;
    match tmp with
    | None => mret false
    | Some tmp =>
      tmp_value ← map_convert_value (mem_value mem) value;
      match tmp_value with
      | None => (if is_key_ptr type then mret tt else drop_key);; mret false
      | Some tmp_value =>
        ret ← on_store (rbtree_replace (map_cmp signed type) (mem_node mem) (Some tmp) (Some tmp_value));
        (if (ret : bool) then mret tt else
          (if is_key_ptr type then mret tt else drop_key);;
          (if is_val_ptr type then mret tt else drop_val));;
        mret ret
      end
    end
  | _, _ => mret false
  end.

Definition map_insert (mem : map_mem) (key : option (key_of type)) (value : option (val_of P type)) : MM bool :=
  match key, value with
  | Some key, Some value =>
    tmp ← map_convert_key (mem_key mem) key;
    match tmp with
    | None => mret false
    | Some tmp =>
      tmp_value ← map_convert_value (mem_value mem) value;
      match tmp_value with
      | None => (if is_key_ptr type then mret tt else drop_key);; mret false
      | Some tmp_value =>
        ret ← on_store (rbtree_insert (map_cmp signed type) (mem_node mem) (Some tmp) (Some tmp_value));
        (if (ret : bool) then mret tt else
          (if is_key_ptr type then mret tt else drop_key);;
          (if is_val_ptr type then mret tt else drop_val));;
        mret ret
      end
    end
  | _, _ => mret false
  end.

(** [map_new]: [default_cmp] says whether the caller passes
    [MAP_DEFAULT_CMP_FUNC]; the destructor is the caller's or
    [map_free_key_value], so the tree always has one. *)
Definition map_new (mem_map mem_tree mem_nil : bool) (default_cmp : bool) : option (map_t P type) :=
  if mem_map then
    if (is_key_ptr type || is_key_int type || is_key_str type) && default_cmp then
      match rbtree_new mem_tree mem_nil true with
      | Some s => Some (mk_map s 0 0 0 0)
      | None => None
      end
    else None
  else None.

Definition map_clear : MM unit := on_store rbtree_clear.
Definition map_free : MM unit := on_store rbtree_free.

(** An iterator is the current node; [None] is a [NULL] iterator. *)
Definition map_itor_new (mem : bool) : MM (option ptr) := on_store (rbtree_iterator_new mem).
Definition map_itor_first (itor : option ptr) : MM (bool * option ptr) :=
  match itor with
  | None => mret (false, None)
  | Some _ => '(b, p) ← on_store rbtree_iterator_first; mret (b, Some p)
  end.
Definition map_itor_last (itor : option ptr) : MM (bool * option ptr) :=
  match itor with
  | None => mret (false, None)
  | Some _ => '(b, p) ← on_store rbtree_iterator_last; mret (b, Some p)
  end.
Definition map_itor_next (itor : option ptr) : MM (bool * option ptr) :=
  match itor with
  | None => mret (false, None)
  | Some p => '(b, p) ← on_store (rbtree_iterator_next p); mret (b, Some p)
  end.
Definition map_itor_prev (itor : option ptr) : MM (bool * option ptr) :=
  match itor with
  | None => mret (false, None)
  | Some p => '(b, p) ← on_store (rbtree_iterator_prev p); mret (b, Some p)
  end.
Definition map_itor_valid (itor : option ptr) : MM bool :=
  match itor with
  | None => mret false
  | Some p => on_store (rbtree_iterator_valid p)
  end.
Definition map_itor_key (itor : option ptr) : MM (option (key_of type)) :=
  match itor with
  | None => mret None
  | Some p => on_store (rbtree_iterator_key p)
  end.
Definition map_itor_value (itor : option ptr) : MM (option (val_of P type)) :=
  match itor with
  | None => mret None
  | Some p => on_store (rbtree_iterator_value p)
  end.

(** The loop of the map's clients,
    [for (; map_itor_valid(itor); map_itor_next(itor))], collecting the keys
    and values it reads. *)
Fixpoint map_walk (fuel : nat) (itor : option ptr) : MM (list (option (key_of type) * option (val_of P type))) :=
  match fuel with
  | O => fail
  | S fuel =>
    valid ← map_itor_valid itor;
    if (valid : bool) then
      k ← map_itor_key itor;
      v ← map_itor_value itor;
      '(_, itor) ← map_itor_next itor;
      rest ← map_walk fuel itor;
      mret ((k, v) :: rest)
    else mret []
  end.

(** The whole loop, from [map_itor_new]; [None] when the iterator cannot be
    allocated. *)
Definition map_pairs (mem : bool) : MM (option (list (option (key_of type) * option (val_of P type)))) :=
  itor ← map_itor_new mem;
  match itor with
  | None => mret None
  | Some _ => m ← get; l ← map_walk (loop_fuel (store m)) itor; mret (Some l)
  end.
End map.

#[global] Instance rbtree_str_cmp_spec signed : CmpSpec (rbtree_str_cmp signed).
Proof.
  split; unfold rbtree_str_cmp.
  - intros a b. rewrite str_cmp_eq by apply cstr_ok. split; [apply (inj cstr_s)|by intros ->].
  - intros a b. rewrite (str_cmp_sym _ (cstr_s a)) by apply cstr_ok. lia.
  - intros a b c. apply str_cmp_trans; apply cstr_ok.
Qed.

#[global] Instance map_cmp_spec signed type : CmpSpec (map_cmp signed type).
Proof. destruct type; apply _. Qed.

Section map_proofs.
Context {P : Type} (signed : bool) {type : map_type_t}.
Implicit Types (m : map_t P type) (g : gmap (key_of type) (val_of P type)).

(** Whether a call copies its key or value, and whether the copy can be made. *)
Definition key_copy : nat := if is_key_ptr type then 0 else 1.
Definition val_copy : nat := if is_val_ptr type then 0 else 1.
Definition key_room (mem : map_mem) : bool := negb (is_key_int type) || mem_key mem.
Definition val_room (mem : map_mem) : bool := negb (is_val_int type || is_val_bool type) || mem_value mem.

(** [models m g]: the tree of [m] is well formed and holds exactly [g], and
    every copy made is stored, was freed by an error path, or was handed to
    the destructor. *)
Record models m g : Prop := {
  md_tree : holds (map_cmp signed type) (store m) g;
  md_freer : kvfreer (store m) = true;
  md_keys : keys_made m = keys_dropped m + key_copy * (length (freed (store m)) + size g);
  md_vals : vals_made m = vals_dropped m + val_copy * (length (freed (store m)) + size g)
}.

(** The common shape of [map_insert] and [map_replace]. *)
Definition put_result (op : M (rb_tree (key_of type) (val_of P type)) bool) (mem : map_mem) m : option (bool * map_t P type) :=
  if key_room mem then
    if val_room mem then
      match op (store m) with
      | Some (b, s) =>
        Some (b, mk_map s (key_copy + keys_made m) ((if b then 0 else key_copy) + keys_dropped m)
                          (val_copy + vals_made m) ((if b then 0 else val_copy) + vals_dropped m))
      | None => None
      end
    else Some (false, mk_map (store m) (key_copy + keys_made m) (key_copy + keys_dropped m) (vals_made m) (vals_dropped m))
  else Some (false, m).

#[local] Ltac unfold_put :=
  unfold put_result, key_room, val_room, key_copy, val_copy, map_insert, map_replace, map_convert_key,
    map_convert_value, on_store, made_key, made_val, drop_key, drop_val, modify, mbind, M_bind, mret, M_ret.

Lemma map_insert_eq mem k v m :
  map_insert signed mem (Some k) (Some v) m =
  put_result (rbtree_insert (map_cmp signed type) (mem_node mem) (Some k) (Some v)) mem m.
Proof.
  destruct m as [st ka kd va vd], mem as [mk mv mn]. unfold_put.
  destruct type, mk, mv; cbn -[rbtree_insert]; try reflexivity;
    match goal with |- context [rbtree_insert ?c ?a ?b ?d ?e] => destruct (rbtree_insert c a b d e) as [[[] ?]|] end;
    reflexivity.
Qed.

Lemma map_replace_eq mem k v m :
  map_replace signed mem (Some k) (Some v) m =
  put_result (rbtree_replace (map_cmp signed type) (mem_node mem) (Some k) (Some v)) mem m.
Proof.
  destruct m as [st ka kd va vd], mem as [mk mv mn]. unfold_put.
  destruct type, mk, mv; cbn -[rbtree_replace]; try reflexivity;
    match goal with |- context [rbtree_replace ?c ?a ?b ?d ?e] => destruct (rbtree_replace c a b d e) as [[[] ?]|] end;
    reflexivity.
Qed.

(** Effect of a tree operation on the map around it. *)
Lemma wp_on_store {A} (f : M (rb_tree (key_of type) (val_of P type)) A) (Q : A → map_t P type → Prop) m :
  wp f (λ a s, Q a (mk_map s (keys_made m) (keys_dropped m) (vals_made m) (vals_dropped m))) (store m) →
  wp (on_store f) Q m.
Proof. unfold wp, on_store. by destruct (f (store m)) as [[]|]. Qed.

(** A call that stores one more pair, replaces the value of a stored one
    (handing a copy of the key and the old value to the destructor), or fails. *)
Lemma put_spec op mem m g g' fr :
  models m g →
  wp op (λ b s, (b = false → g' = g ∧ freed s = freed (store m)) ∧
                (b = true → size g' + length (freed s) = S (size g + length (freed (store m)))) ∧
                kvfreer s = true ∧ holds (map_cmp signed type) s g' ∧ fr b (freed s)) (store m) →
  ∃ b m', put_result op mem m = Some (b, m') ∧
    (if key_room mem && val_room mem then fr b (freed (store m')) ∧ models m' g'
     else b = false ∧ models m' g ∧ freed (store m') = freed (store m)).
Proof.
  intros [Ht Hf Hk Hv] Hop. unfold put_result. destruct (key_room mem); [destruct (val_room mem)|]; simpl.
  - apply wp_run in Hop as (b & s & -> & H0 & H1 & Hkf & Hh & Hfr). eexists _, _. split; [done|]. split; [done|].
    destruct b; split; simpl; try done; rewrite ?Hk, ?Hv.
    + specialize (H1 eq_refl). nia.
    + specialize (H1 eq_refl). nia.
    + destruct (H0 eq_refl) as [-> ->]. lia.
    + destruct (H0 eq_refl) as [-> ->]. lia.
  - eexists _, _. split; [done|]. split; [done|]. split; [|done]. split; simpl; try done; lia.
  - eexists _, _. split; [done|]. split; [done|]. split; [|done]. by split.
Qed.

(** [map_insert] succeeds exactly when the memory suffices and the key is new. *)
Definition insert_ok (mem : map_mem) g (k : key_of type) : bool :=
  key_room mem && val_room mem && mem_node mem && bool_decide (g !! k = None).

Lemma map_insert_models mem m g k v :
  models m g →
  wp (map_insert signed mem (Some k) (Some v))
     (λ b m', b = insert_ok mem g k ∧ models m' (if insert_ok mem g k then <[k:=v]> g else g) ∧
        freed (store m') = freed (store m)) m.
Proof.
  intros Hm. unfold wp. rewrite map_insert_eq. unfold insert_ok.
  destruct (put_spec (rbtree_insert (map_cmp signed type) (mem_node mem) (Some k) (Some v)) mem m g
    (if mem_node mem && bool_decide (g !! k = None) then <[k:=v]> g else g)
    (λ b fr, b = mem_node mem && bool_decide (g !! k = None) ∧ fr = freed (store m)) Hm) as (b & m' & -> & Hb).
  { eapply wp_mono; [apply rbtree_insert_holds; [apply _|apply Hm]|].  simpl. intros b s (-> & Hkf & Hfr & Hh).
    rewrite Hkf, Hfr. split_and!; [by intros ->| |apply Hm|done|done|done].
    intros Hb. rewrite Hb. apply andb_true_iff in Hb as [_ Hb%bool_decide_eq_true].
    rewrite map_size_insert_None by done. lia. }
  destruct (key_room mem && val_room mem); simpl; [|naive_solver]. tauto.
Qed.

(** What the destructor has been called on after the old value of [k] is dropped. *)
Definition dropped_by m g (k : key_of type) : list (option (key_of type) * option (val_of P type)) :=
  freed (store m) ++ match g !! k with Some old => [(Some k, Some old)] | None => [] end.

Definition replace_ok (mem : map_mem) g (k : key_of type) : bool :=
  key_room mem && val_room mem && (mem_node mem || bool_decide (is_Some (g !! k))).

Lemma length_log_free (st : rb_tree (key_of type) (val_of P type)) k v :
  kvfreer st = true → length (log_free st k v) = S (length (freed st)).
Proof. unfold log_free. intros ->. rewrite length_app. simpl. lia. Qed.

Lemma log_drop m g k :
  kvfreer (store m) = true →
  (if g !! k is Some old then log_free (store m) (Some k) (Some old) else freed (store m)) = dropped_by m g k.
Proof. intros Hk. unfold dropped_by, log_free. rewrite Hk. destruct (g !! k); [done|by rewrite app_nil_r]. Qed.

Lemma map_replace_models mem m g k v :
  models m g →
  wp (map_replace signed mem (Some k) (Some v))
     (λ b m', b = replace_ok mem g k ∧ models m' (if replace_ok mem g k then <[k:=v]> g else g) ∧
        freed (store m') = (if replace_ok mem g k then dropped_by m g k else freed (store m))) m.
Proof.
  intros Hm. unfold wp. rewrite map_replace_eq. unfold replace_ok.
  destruct (put_spec (rbtree_replace (map_cmp signed type) (mem_node mem) (Some k) (Some v)) mem m g
    (if mem_node mem || bool_decide (is_Some (g !! k)) then <[k:=v]> g else g)
    (λ b fr, b = mem_node mem || bool_decide (is_Some (g !! k)) ∧ fr = dropped_by m g k) Hm) as (b & m' & -> & Hb).
  { eapply wp_mono; [apply rbtree_replace_holds; [apply _|apply Hm]|]. simpl. intros b s (-> & Hkf & Hfr & Hh).
    rewrite Hkf. split_and!; [| |apply Hm|done|done|by rewrite Hfr; apply log_drop, Hm]; rewrite Hfr.
    - intros Hb. rewrite Hb. apply orb_false_iff in Hb as [_ Hb%bool_decide_eq_false].
      by rewrite (proj2 (eq_None_not_Some _) Hb).
    - intros Hb. rewrite Hb. destruct (g !! k) as [old|] eqn:E.
      + rewrite map_size_insert_Some by done. rewrite length_log_free by apply Hm. lia.
      + rewrite map_size_insert_None by done. lia. }
  destruct (key_room mem && val_room mem); simpl; [|naive_solver].
  destruct Hb as [[-> Hfr] Hm']. split_and!; [done|done|]. rewrite Hfr.
  destruct (mem_node mem || bool_decide (is_Some (g !! k))) eqn:Hb; [done|].
  apply orb_false_iff in Hb as [_ Hb%bool_decide_eq_false]. unfold dropped_by.
  by rewrite (proj2 (eq_None_not_Some _) Hb), app_nil_r.
Qed.

Lemma map_remove_models m g k :
  models m g →
  wp (map_remove signed (Some k)) (λ b m', b = bool_decide (is_Some (g !! k)) ∧ models m' (delete k g) ∧
    freed (store m') = dropped_by m g k) m.
Proof.
  intros [Ht Hf Hk Hv]. apply wp_on_store. eapply wp_mono; [apply rbtree_remove_holds; [apply _|exact Ht]|].
  intros b s (-> & Hkf & Hfr & Hh). split; [done|]. split; [|by simpl; rewrite Hfr; apply log_drop].
  assert (length (freed s) + size (delete k g) = length (freed (store m)) + size g) as Hlen.
  { rewrite Hfr. destruct (g !! k) as [v|] eqn:E; [|by rewrite delete_id].
    rewrite length_log_free by done. rewrite map_size_delete_Some by done.
    assert (size g ≠ 0); [|lia]. apply (map_size_ne_0_lookup_2 _ k). by rewrite E. }
  split; simpl; rewrite ?Hlen; congruence.
Qed.

Lemma map_search_models m g k :
  models m g → wp (map_search signed (Some k)) (λ v m', m' = m ∧ v = g !! k) m.
Proof.
  intros [Ht Hf Hk Hv]. apply wp_on_store. eapply wp_mono; [apply rbtree_search_holds; [apply _|exact Ht]|].
  intros v s (-> & ->). by destruct m.
Qed.

Lemma map_size_models m g : models m g → wp map_size (λ n m', m' = m ∧ n = u64 (Z.of_nat (size g))) m.
Proof.
  intros [Ht Hf Hk Hv]. apply wp_on_store. eapply wp_mono; [eapply rbtree_size_holds; [|exact Ht]; apply _|].
  intros v s (-> & ->). by destruct m.
Qed.

Lemma map_clear_models m g : models m g → wp map_clear (λ _ m', models m' ∅) m.
Proof.
  intros [Ht Hf Hk Hv]. apply wp_on_store. eapply wp_mono; [eapply rbtree_clear_holds; [|exact Ht]; apply _|].
  intros [] s (Hh & Hkf & e & Hfr & He). rewrite Hf in *.
  assert (length (freed s) = length (freed (store m)) + size g) as Hlen.
  { rewrite Hfr, length_app, length_fmap, He. by rewrite length_map_to_list. }
  split; simpl; rewrite ?Hlen, ?map_size_empty; congruence || lia.
Qed.

Lemma map_new_models m : map_new true true true true = Some m → models m ∅.
Proof.
  unfold map_new. destruct (_ && _); [|done].
  destruct (rbtree_new (K:=key_of type) (V:=val_of P type) true true true) as [s|] eqn:E; [|done]. intros [= <-].
  apply (rbtree_new_spec (map_cmp signed type)) in E as (Hwf & Hkf & Hfr).
  split; [by exists Leaf|done|simpl; rewrite Hfr, map_size_empty; simpl; lia..].
Qed.

(** ** Iteration *)
Lemma on_store_bind {A B} (f : M (rb_tree (key_of type) (val_of P type)) A) (h : A → M _ B) m :
  on_store (f ≫= h) m = (on_store f ≫= λ a, on_store (h a)) m.
Proof. unfold on_store, mbind, M_bind. by destruct (f (store m)) as [[]|]. Qed.

Lemma M_bind_ext {S A B} (f : M S A) (h h' : A → M S B) s :
  (∀ a s', h a s' = h' a s') → (f ≫= h) s = (f ≫= h') s.
Proof. intros Hh. unfold mbind, M_bind. by destruct (f s) as [[]|]. Qed.

Lemma map_walk_eq fuel p m :
  map_walk fuel (Some p) m = on_store (rbtree_walk rbtree_iterator_next fuel p) m.
Proof.
  revert p m. induction fuel as [|fuel IH]; intros p m; [done|]. simpl.
  rewrite on_store_bind. apply M_bind_ext. intros [] ?; [|by unfold on_store; destruct s'].
  rewrite on_store_bind. apply M_bind_ext. intros k ?.
  rewrite on_store_bind. apply M_bind_ext. intros v ?.
  rewrite on_store_bind. simpl.
  transitivity ((on_store (rbtree_iterator_next p) ≫= λ x, rest ← map_walk fuel (Some x.2); mret ((k, v) :: rest)) s'1).
  { unfold mbind, M_bind. by destruct (on_store (rbtree_iterator_next p) s'1) as [[[] ?]|]. }
  apply M_bind_ext. intros [b q] ?. rewrite on_store_bind. unfold mbind, M_bind. rewrite IH.
  by destruct (on_store _ _) as [[? []]|].
Qed.

Lemma map_pairs_models m g :
  models m g →
  wp (map_pairs true) (λ l m', m' = m ∧ ∃ e, l = Some ((λ x, (Some x.1, Some x.2)) <$> e) ∧
    e ≡ₚ map_to_list g ∧ StronglySorted (λ x y, map_cmp signed type x.1 y.1 < 0)%Z e) m.
Proof.
  intros [(T & Hwf & <-) _ _ _]. unfold map_pairs. apply wp_bind, wp_on_store. simpl. apply wp_bind.
  eapply wp_mono; [by eapply (rbtree_iterator_first_spec (map_cmp signed type) _ T)|]. intros ? s (-> & ->). apply wp_ret. simpl.
  apply wp_bind, wp_get. destruct m as [st ? ? ? ?]; simpl in *. apply wp_bind. unfold wp at 1. rewrite map_walk_eq.
  apply wp_on_store. simpl.
  eapply wp_mono; [eapply (rbtree_walk_spec (map_cmp signed type) st T _ [] (elems T)); [done|done|]|].
  { destruct Hwf as [[np Hr] _ _ _ _]. apply rep_size in Hr. rewrite loop_fuel_eq. lia. }
  intros l s (-> & ->). apply wp_ret. split; [done|]. exists (contents T). split_and!.
  - unfold visited, contents. by rewrite <- list_fmap_compose.
  - unfold amap. rewrite map_to_list_to_map; [done|].
    by eapply (wf_contents_nodup (map_cmp signed type)).
  - destruct Hwf as [_ _ Ho _ _]. unfold contents. induction Ho as [|x e Hs IH Hx]; simpl; constructor; [done|].
    by apply Forall_fmap.
Qed.
End map_proofs.
