(* ===== verification/MapCorrect.v ===== *)
(** * Correctness of the typed map

    The theorems about [src/utils/cutils/map/map.c] as a whole: a sequence of
    calls on a new map agrees with the same calls on a finite map for every
    kind of key and value and every pattern of failing allocations, and no
    copy of a key or value is leaked or freed twice. *)
From stdpp Require Import base gmap list fin_maps numbers sorting strings.
From Stdlib Require Import ZArith Lia.
From S2P Require Import Prelude CString RbTree RbInv RbRep RbInsert RbErase RbQuery Map.

(** The calls a client makes; a [None] key or value is a [NULL] argument. *)
Inductive map_op (P : Type) (type : map_type_t) :=
| MInsert (mem : map_mem) (key : option (key_of type)) (value : option (val_of P type))
| MReplace (mem : map_mem) (key : option (key_of type)) (value : option (val_of P type))
| MRemove (key : option (key_of type))
| MSearch (key : option (key_of type))
| MSize
| MClear.
Arguments MInsert {P type} _ _ _.
Arguments MReplace {P type} _ _ _.
Arguments MRemove {P type} _.
Arguments MSearch {P type} _.
Arguments MSize {P type}.
Arguments MClear {P type}.

Inductive map_res (V : Type) := MBool (b : bool) | MValue (v : option V) | MCount (n : Z) | MDone.
Arguments MBool {V} _.
Arguments MValue {V} _.
Arguments MCount {V} _.
Arguments MDone {V}.

Section correctness.
Context {P : Type} (signed : bool) {type : map_type_t}.
Implicit Types (m : map_t P type) (g : gmap (key_of type) (val_of P type)) (op : map_op P type).

Definition map_run_op op : M (map_t P type) (map_res (val_of P type)) :=
  match op with
  | MInsert mem key value => b ← map_insert signed mem key value; mret (MBool b)
  | MReplace mem key value => b ← map_replace signed mem key value; mret (MBool b)
  | MRemove key => b ← map_remove signed key; mret (MBool b)
  | MSearch key => v ← map_search signed key; mret (MValue v)
  | MSize => n ← map_size; mret (MCount n)
  | MClear => map_clear;; mret MDone
  end.

Fixpoint map_run (ops : list (map_op P type)) : M (map_t P type) (list (map_res (val_of P type))) :=
  match ops with
  | [] => mret []
  | op :: ops => r ← map_run_op op; rs ← map_run ops; mret (r :: rs)
  end.

(** The specification on finite maps. *)
Definition map_spec_op op g : map_res (val_of P type) * gmap (key_of type) (val_of P type) :=
  match op with
  | MInsert mem (Some k) (Some v) =>
    if insert_ok mem g k then (MBool true, <[k:=v]> g) else (MBool false, g)
  | MReplace mem (Some k) (Some v) =>
    if replace_ok mem g k then (MBool true, <[k:=v]> g) else (MBool false, g)
  | MRemove (Some k) => (MBool (bool_decide (is_Some (g !! k))), delete k g)
  | MSearch (Some k) => (MValue (g !! k), g)
  | MSize => (MCount (u64 (Z.of_nat (size g))), g)
  | MClear => (MDone, ∅)
  | MSearch None => (MValue None, g)
  | MInsert _ _ _ | MReplace _ _ _ | MRemove None => (MBool false, g)
  end.

Fixpoint map_spec (ops : list (map_op P type)) g : list (map_res (val_of P type)) * gmap (key_of type) (val_of P type) :=
  match ops with
  | [] => ([], g)
  | op :: ops =>
    let '(r, g) := map_spec_op op g in
    let '(rs, g) := map_spec ops g in
    (r :: rs, g)
  end.

Lemma map_run_op_models op m g :
  models signed m g →
  wp (map_run_op op) (λ r m', r = (map_spec_op op g).1 ∧ models signed m' (map_spec_op op g).2) m.
Proof.
  intros Hm. destruct op as [mem [k|] [v|]|mem [k|] [v|]|[k|]|[k|]| |]; simpl; try done; apply wp_bind.
  - eapply wp_mono; [by apply map_insert_models|]. intros b m' (-> & Hm' & _).
    apply wp_ret. by destruct (insert_ok mem g k).
  - eapply wp_mono; [by apply map_replace_models|]. intros b m' (-> & Hm' & _).
    apply wp_ret. by destruct (replace_ok mem g k).
  - eapply wp_mono; [by apply map_remove_models|]. intros b m' (-> & Hm' & _). by apply wp_ret.
  - eapply wp_mono; [by apply map_search_models|]. intros v m' (-> & ->). by apply wp_ret.
  - eapply wp_mono; [by eapply (map_size_models signed)|]. intros n m' (-> & ->). by apply wp_ret.
  - eapply wp_mono; [by eapply (map_clear_models signed)|]. intros [] m' Hm'. by apply wp_ret.
Qed.

Lemma map_run_models ops m g :
  models signed m g →
  wp (map_run ops) (λ rs m', rs = (map_spec ops g).1 ∧ models signed m' (map_spec ops g).2) m.
Proof.
  revert m g. induction ops as [|op ops IH]; intros m g Hm; simpl; [by apply wp_ret|].
  apply wp_bind. eapply wp_mono; [by apply map_run_op_models|]. intros r m1 (-> & Hm1).
  destruct (map_spec_op op g) as [r g1]. simpl in Hm1.
  apply wp_bind. eapply wp_mono; [by apply IH|]. intros rs m2 (-> & Hm2). apply wp_ret.
  by destruct (map_spec ops g1).
Qed.

(** C4: Refinement of [map.c] by a finite map, for every kind of map: any sequence
    of calls on a map made by [map_new] runs, returns what the finite map
    returns (a failed allocation or a [NULL] argument returns [false] and
    changes nothing), and leaves the map in step with the finite map. *)
Theorem map_refines_gmap m ops :
  map_new true true true true = Some m →
  wp (map_run ops) (λ rs m', rs = (map_spec ops ∅).1 ∧ models signed m' (map_spec ops ∅).2) m.
Proof. intros Hnew. by apply map_run_models, map_new_models. Qed.

(** Ownership of the copies: after any sequence of calls, [map_free] leaves no
    live node, and every copy of a key (of a value) made by the map has been
    released exactly once, by an error path or through the destructor. *)
Theorem map_copies_released m ops :
  map_new true true true true = Some m →
  wp (map_run ops;; map_free) (λ _ m',
    nodes (store m') = ∅ ∧
    keys_made m' = keys_dropped m' + key_copy (type:=type) * length (freed (store m')) ∧
    vals_made m' = vals_dropped m' + val_copy (type:=type) * length (freed (store m'))) m.
Proof.
  intros Hnew. apply wp_bind. eapply wp_mono; [by eapply map_run_models, (map_new_models signed)|].
  intros rs m1 (_ & [(T & Hwf & Hg) Hf Hk Hv]). apply wp_on_store.
  eapply wp_mono; [by eapply (rbtree_free_spec (map_cmp signed type))|].
  intros [] s (Hn & Hfr). simpl. split; [done|].
  assert (length (freed s) = length (freed (store m1)) + size (map_spec ops ∅).2) as ->; [|lia].
  rewrite Hfr. unfold log_all. rewrite Hf, length_app. unfold visited. rewrite length_fmap.
  rewrite <- Hg, (wf_size (map_cmp signed type) _ _ Hwf). by rewrite postorder_elems.
Qed.

(** [map_new] gives no map when an allocation fails or when the caller passes a
    comparator of its own, and an empty map otherwise. *)
Theorem map_new_result mem_map mem_tree mem_nil default_cmp :
  match map_new (P:=P) (type:=type) mem_map mem_tree mem_nil default_cmp with
  | Some m => mem_map && mem_tree && mem_nil && default_cmp = true ∧ models signed m ∅
  | None => mem_map && mem_tree && mem_nil && default_cmp = false
  end.
Proof.
  destruct mem_map, mem_tree, mem_nil, default_cmp; unfold map_new; rewrite ?andb_false_r; try done; simpl.
  - destruct (map_new (P:=P) (type:=type) true true true true) as [m|] eqn:E.
    + pose proof (map_new_models signed _ E). revert E. unfold map_new. destruct type; simpl; by intros [= <-].
    + revert E. unfold map_new. by destruct type.
  - by destruct (_ && _).
  - by destruct (_ && _).
  - by destruct (_ && _).
Qed.
End correctness.

(** ** Instances on a concrete map *)
Section examples.
Definition sample_key (s : string) (H : nul_free s = true) : cstr := Cstr s H.

Definition sample_calls : list (map_op unit MAP_STR_INT) :=
  [@MInsert unit MAP_STR_INT mem_ok (Some (sample_key "one" eq_refl)) (Some 1%Z);
   @MInsert unit MAP_STR_INT (mk_map_mem true false true) (Some (sample_key "two" eq_refl)) (Some 2%Z);
   @MInsert unit MAP_STR_INT (mk_map_mem true true false) (Some (sample_key "two" eq_refl)) (Some 2%Z);
   @MInsert unit MAP_STR_INT mem_ok (Some (sample_key "one" eq_refl)) (Some 7%Z);
   @MReplace unit MAP_STR_INT mem_ok (Some (sample_key "one" eq_refl)) (Some 11%Z);
   @MReplace unit MAP_STR_INT mem_ok (Some (sample_key "two" eq_refl)) (Some 2%Z);
   @MRemove unit MAP_STR_INT (Some (sample_key "two" eq_refl)); @MRemove unit MAP_STR_INT None;
   @MSearch unit MAP_STR_INT (Some (sample_key "one" eq_refl)); MSize].

Definition new_map : map_t unit MAP_STR_INT :=
  default (mk_map (mk_tree NULL NULL ∅ 0%N false []) 0 0 0 0) (map_new true true true true).

Lemma new_map_eq : map_new true true true true = Some new_map.
Proof. reflexivity. Qed.

Lemma map_refines_gmap_witness :
  (map_spec sample_calls ∅).1 =
    [MBool true; MBool false; MBool false; MBool false; MBool true; MBool true; MBool true; MBool false;
     MValue (Some 11%Z); MCount 1] ∧
  wp (map_run true sample_calls) (λ rs m', rs = (map_spec sample_calls ∅).1 ∧
    models true m' (map_spec sample_calls ∅).2) new_map.
Proof. split; [vm_compute; reflexivity|]. exact (map_refines_gmap true new_map sample_calls new_map_eq). Defined.

Lemma map_copies_released_witness :
  wp (map_run true sample_calls;; map_free) (λ _ m',
    nodes (store m') = ∅ ∧
    keys_made m' = keys_dropped m' + key_copy (type:=MAP_STR_INT) * length (freed (store m')) ∧
    vals_made m' = vals_dropped m' + val_copy (type:=MAP_STR_INT) * length (freed (store m'))) new_map.
Proof. exact (map_copies_released true new_map sample_calls new_map_eq). Defined.
End examples.
