(* ===== verification/StrMap.v ===== *)
(** * What a string-keyed map promises to its clients

    The interface between [map.c] and the stores built on it: the operations a
    client calls, their effect on an abstract finite map, and the instances
    that show that [map_t] keeps these promises.  The stores of the daemon are
    proved against [StrMap] and run on the instances. *)
From stdpp Require Import base gmap list fin_maps numbers strings sorting.
From Stdlib Require Import ZArith Lia.
From S2P Require Import Prelude CString RbTree RbInv RbRep RbQuery Map.

Class StrMap (V MT : Type) := {
  sm_models : MT → gmap cstr V → Prop;
  (** The values handed to the destructor so far, in order. *)
  sm_dropped : MT → list V;
  (** Whether the allocations of an insertion suffice. *)
  sm_room : map_mem → bool;
  (** [map_new], with the outcomes of its three allocations. *)
  sm_new : bool → bool → bool → option MT;
  sm_free : M MT unit;
  sm_search : cstr → M MT (option V);
  sm_insert : map_mem → cstr → V → M MT bool;
  sm_replace : map_mem → cstr → V → M MT bool;
  sm_remove : cstr → M MT bool;
  sm_size : M MT Z;
  (** The iterator loop; [None] when the iterator cannot be allocated. *)
  sm_pairs : bool → M MT (option (list (cstr * V)));

  sm_room_ok : sm_room mem_ok = true;
  sm_new_ok a b c :
    match sm_new a b c with Some m => sm_models m ∅ ∧ sm_dropped m = [] | None => a && b && c = false end;
  sm_free_ok m g : sm_models m g → wp sm_free (λ _ _, True) m;
  sm_search_ok m g k : sm_models m g → wp (sm_search k) (λ v m', m' = m ∧ v = g !! k) m;
  sm_insert_ok mem m g k v : sm_models m g →
    wp (sm_insert mem k v) (λ b m', b = sm_room mem && bool_decide (g !! k = None) ∧
      sm_models m' (if b then <[k:=v]> g else g) ∧ sm_dropped m' = sm_dropped m) m;
  (** A present key needs no room for a node. *)
  sm_replace_ok mem m g k v : sm_models m g →
    wp (sm_replace mem k v) (λ b m', (sm_room mem = true → b = true) ∧ (g !! k = None → b = sm_room mem) ∧
      sm_models m' (if b then <[k:=v]> g else g) ∧
      sm_dropped m' = sm_dropped m ++ (if b then option_list (g !! k) else [])) m;
  sm_remove_ok m g k : sm_models m g →
    wp (sm_remove k) (λ b m', b = bool_decide (is_Some (g !! k)) ∧ sm_models m' (delete k g) ∧
      sm_dropped m' = sm_dropped m ++ option_list (g !! k)) m;
  sm_size_ok m g : sm_models m g → wp sm_size (λ n m', m' = m ∧ n = u64 (Z.of_nat (size g))) m;
  sm_pairs_ok mem m g : sm_models m g →
    wp (sm_pairs mem) (λ l m', m' = m ∧
      if mem then ∃ e, l = Some e ∧ e ≡ₚ map_to_list g else l = None) m
}.

(** There are maps with one entry. *)
Lemma one_entry {V MT} {SM' : StrMap V MT} k v : ∃ m, sm_models m ({[k := v]} : gmap cstr V).
Proof.
  pose proof (sm_new_ok (StrMap:=SM') true true true) as Hn.
  destruct (sm_new (StrMap:=SM') true true true) as [m|]; [|done]. destruct Hn as [Hn _].
  pose proof (sm_insert_ok mem_ok m ∅ k v Hn) as (b & m' & _ & -> & Hm' & _)%wp_run.
  exists m'. by rewrite sm_room_ok in Hm'.
Qed.

(** The pairs read by the iterator: no stored key or value is [NULL]. *)
Definition both {A B} (x : option A * option B) : option (A * B) :=
  match x with (Some a, Some b) => Some (a, b) | _ => None end.

Lemma omap_both {A B} (e : list (A * B)) : omap both ((λ x, (Some x.1, Some x.2)) <$> e) = e.
Proof. induction e as [|[a b] e IH]; [done|]. cbn. f_equal. exact IH. Qed.

Definition typed_pairs {P type} (mem : bool) : M (map_t P type) (option (list (key_of type * val_of P type))) :=
  l ← map_pairs mem; mret (fmap (M:=option) (omap both) l).

Lemma typed_pairs_models {P type} signed mem (m : map_t P type) g :
  models signed m g →
  wp (typed_pairs mem) (λ l m', m' = m ∧ if mem then ∃ e, l = Some e ∧ e ≡ₚ map_to_list g else l = None) m.
Proof.
  intros Hm. unfold typed_pairs. apply wp_bind. destruct mem; [|by destruct m].
  eapply wp_mono; [by eapply map_pairs_models|]. intros l m' (-> & e & -> & He & _). apply wp_ret.
  split; [done|]. exists e. simpl. by rewrite omap_both.
Qed.

(** The values in the log of the destructor. *)
Definition map_dropped {P type} (m : map_t P type) : list (val_of P type) := omap snd (freed (store m)).

Lemma map_dropped_by {P type} (m m' : map_t P type) g k :
  freed (store m') = dropped_by m g k → map_dropped m' = map_dropped m ++ option_list (g !! k).
Proof. unfold map_dropped, dropped_by. intros ->. rewrite omap_app. by destruct (g !! k). Qed.

Lemma map_dropped_eq {P type} (m m' : map_t P type) : freed (store m') = freed (store m) → map_dropped m' = map_dropped m.
Proof. unfold map_dropped. by intros ->. Qed.

Lemma new_map_ok {P type} signed a b c :
  match map_new (P:=P) (type:=type) a b c true with
  | Some m => models signed m ∅ ∧ map_dropped m = []
  | None => a && b && c = false
  end.
Proof.
  destruct (map_new a b c true) as [m|] eqn:E.
  - split; [apply map_new_models|]; by destruct a, b, c, type; (done || injection E as <-).
  - by destruct a, b, c, type.
Qed.

Lemma free_map_ok {P type} signed (m : map_t P type) g : models signed m g → wp map_free (λ _ _, True) m.
Proof.
  intros [(T & Hwf & _) _ _ _]. apply wp_on_store.
  by eapply wp_mono; [eapply (rbtree_free_spec (map_cmp signed type)); exact Hwf|].
Qed.

(** With room for everything a replacement succeeds, and a new key needs the room. *)
Lemma replace_ok_room {P type} mem (g : gmap (key_of type) (val_of P type)) k :
  (key_room (type:=type) mem && val_room (type:=type) mem && mem_node mem = true → replace_ok mem g k = true) ∧
  (g !! k = None → replace_ok mem g k = key_room (type:=type) mem && val_room (type:=type) mem && mem_node mem).
Proof.
  unfold replace_ok. split.
  - intros [Hr ->]%andb_true_iff. by rewrite Hr.
  - intros Hk. rewrite bool_decide_false by (rewrite Hk; by intros []). by rewrite orb_false_r.
Qed.

Definition room {type} (mem : map_mem) : bool :=
  key_room (type:=type) mem && val_room (type:=type) mem && mem_node mem.

Section laws.
Context {P : Type} {type : map_type_t} (signed : bool).
Implicit Types (m : map_t P type) (g : gmap (key_of type) (val_of P type)).

Lemma insert_law mem m g k v :
  models signed m g →
  wp (map_insert signed mem (Some k) (Some v)) (λ b m', b = room (type:=type) mem && bool_decide (g !! k = None) ∧
    models signed m' (if b then <[k:=v]> g else g) ∧ map_dropped m' = map_dropped m) m.
Proof.
  intros Hm. eapply wp_mono; [by apply map_insert_models|]. intros b m' (-> & Hm' & Hd).
  split; [done|]. split; [done|]. by apply map_dropped_eq.
Qed.

Lemma replace_law mem m g k v :
  models signed m g →
  wp (map_replace signed mem (Some k) (Some v)) (λ b m', (room (type:=type) mem = true → b = true) ∧
    (g !! k = None → b = room (type:=type) mem) ∧ models signed m' (if b then <[k:=v]> g else g) ∧
    map_dropped m' = map_dropped m ++ (if b then option_list (g !! k) else [])) m.
Proof.
  intros Hm. eapply wp_mono; [by apply map_replace_models|]. intros b m' (-> & Hm' & Hd).
  destruct (replace_ok_room mem g k) as [H1 H2]. split_and!; [done|done|done|].
  destruct (replace_ok mem g k); [by apply map_dropped_by|]. rewrite app_nil_r. by apply map_dropped_eq.
Qed.

Lemma remove_law m g k :
  models signed m g →
  wp (map_remove signed (Some k)) (λ b m', b = bool_decide (is_Some (g !! k)) ∧ models signed m' (delete k g) ∧
    map_dropped m' = map_dropped m ++ option_list (g !! k)) m.
Proof.
  intros Hm. eapply wp_mono; [by apply map_remove_models|]. intros b m' (-> & Hm' & Hd).
  split; [done|]. split; [done|]. by apply map_dropped_by.
Qed.
End laws.

(** The laws of [StrMap] for a map of kind [type], from the lemmas of [Map]. *)
Ltac solve_str_map signed P type :=
  first
  [ reflexivity
  | intros m g k; apply (map_search_models signed m g k)
  | intros m g; apply (map_size_models signed m g)
  | intros mem m g; apply (typed_pairs_models signed mem m g)
  | intros a b c; exact (new_map_ok (P:=P) (type:=type) signed a b c)
  | intros m g; apply (free_map_ok signed m g)
  | intros m g k; exact (remove_law (P:=P) (type:=type) signed m g k)
  | intros mem m g k v; exact (insert_law (P:=P) (type:=type) signed mem m g k v)
  | intros mem m g k v; exact (replace_law (P:=P) (type:=type) signed mem m g k v) ].

Section instances.
Context (signed : bool) {P : Type}.

#[refine] Instance str_ptr_map : StrMap P (map_t P MAP_STR_PTR) := {
  sm_models := models signed (type:=MAP_STR_PTR);
  sm_dropped := map_dropped (type:=MAP_STR_PTR);
  sm_room := room (type:=MAP_STR_PTR);
  sm_new a b c := map_new (type:=MAP_STR_PTR) a b c true;
  sm_free := map_free (type:=MAP_STR_PTR);
  sm_search k := map_search signed (type:=MAP_STR_PTR) (Some k);
  sm_insert mem k v := map_insert signed (type:=MAP_STR_PTR) mem (Some k) (Some v);
  sm_replace mem k v := map_replace signed (type:=MAP_STR_PTR) mem (Some k) (Some v);
  sm_remove k := map_remove signed (type:=MAP_STR_PTR) (Some k);
  sm_size := map_size (type:=MAP_STR_PTR);
  sm_pairs := typed_pairs (type:=MAP_STR_PTR)
}.
Proof. all: solve_str_map signed P MAP_STR_PTR. Defined.

#[refine] Instance str_bool_map : StrMap bool (map_t P MAP_STR_BOOL) := {
  sm_models := models signed (type:=MAP_STR_BOOL);
  sm_dropped := map_dropped (type:=MAP_STR_BOOL);
  sm_room := room (type:=MAP_STR_BOOL);
  sm_new a b c := map_new (type:=MAP_STR_BOOL) a b c true;
  sm_free := map_free (type:=MAP_STR_BOOL);
  sm_search k := map_search signed (type:=MAP_STR_BOOL) (Some k);
  sm_insert mem k v := map_insert signed (type:=MAP_STR_BOOL) mem (Some k) (Some v);
  sm_replace mem k v := map_replace signed (type:=MAP_STR_BOOL) mem (Some k) (Some v);
  sm_remove k := map_remove signed (type:=MAP_STR_BOOL) (Some k);
  sm_size := map_size (type:=MAP_STR_BOOL);
  sm_pairs := typed_pairs (type:=MAP_STR_BOOL)
}.
Proof. all: solve_str_map signed P MAP_STR_BOOL. Defined.

#[refine] Instance str_str_map : StrMap cstr (map_t P MAP_STR_STR) := {
  sm_models := models signed (type:=MAP_STR_STR);
  sm_dropped := map_dropped (type:=MAP_STR_STR);
  sm_room := room (type:=MAP_STR_STR);
  sm_new a b c := map_new (type:=MAP_STR_STR) a b c true;
  sm_free := map_free (type:=MAP_STR_STR);
  sm_search k := map_search signed (type:=MAP_STR_STR) (Some k);
  sm_insert mem k v := map_insert signed (type:=MAP_STR_STR) mem (Some k) (Some v);
  sm_replace mem k v := map_replace signed (type:=MAP_STR_STR) mem (Some k) (Some v);
  sm_remove k := map_remove signed (type:=MAP_STR_STR) (Some k);
  sm_size := map_size (type:=MAP_STR_STR);
  sm_pairs := typed_pairs (type:=MAP_STR_STR)
}.
Proof. all: solve_str_map signed P MAP_STR_STR. Defined.
End instances.
