(* ===== verification/StringUtil.v ===== *)
(** * String helpers of [src/utils/cutils/utils_string.c]

    A [char *] the code reads is a [string] (the bytes before the NUL).  The
    routines that edit a string in place work on its buffer, a list of bytes
    with the terminating NUL: they read and write by index and fail outside
    the buffer.  [char] comparisons against an [unsigned char] go through
    [int], so they depend on the signedness of [char]. *)
From stdpp Require Import base gmap list strings numbers sorting.
From Stdlib Require Import ZArith Lia Ascii.
From S2P Require Import Prelude CString Regex Array Convert RbTree RbQuery Map.

Local Open Scope Z_scope.

Abbreviation to_str := String.string_of_list_ascii.

(** ** Buffers *)
Definition NUL : ascii := Ascii.zero.
Definition cbuf (s : string) : chars := chars_of s ++ [NUL].

(** The string a buffer holds. *)
Fixpoint until_nul (b : chars) : chars :=
  match b with [] => [] | c :: b => if Ascii.eqb c NUL then [] else c :: until_nul b end.
Definition buf_str (b : chars) : string := to_str (until_nul b).

Definition rd (i : Z) : M chars ascii := λ b,
  if i <? 0 then None else match b !! Z.to_nat i with Some c => Some (c, b) | None => None end.
Definition wr (i : Z) (c : ascii) : M chars unit := λ b,
  if i <? 0 then None else
  match b !! Z.to_nat i with Some _ => Some (tt, <[Z.to_nat i := c]> b) | None => None end.
(** [strlen] reads up to the NUL. *)
Definition buf_strlen : M chars Z := λ b,
  if existsb (Ascii.eqb NUL) b then Some (Z.of_nat (length (until_nul b)), b) else None.

(** [char] against [unsigned char], after the integer promotions. *)
Definition char_eq_uchar (signed : bool) (a c : ascii) : bool := char_val signed a =? Z.of_N (N_of_ascii c).

(** ** Queries *)
Definition util_strings_contains_any (str substr : option string) : bool :=
  match str, substr with
  | Some str, Some substr => existsb (λ a, existsb (Ascii.eqb a) (chars_of substr)) (chars_of str)
  | _, _ => false
  end.

Fixpoint prefix_by (eq : ascii → ascii → bool) (p s : chars) : bool :=
  match p, s with
  | [], _ => true
  | a :: p, b :: s => eq a b && prefix_by eq p s
  | _ :: _, [] => false
  end.
Definition case_eqb (a b : ascii) : bool := Ascii.eqb (tolower a) (tolower b).

(** [strcasestr]: some suffix of [s] starts with [p], ignoring case. *)
Fixpoint infix_by (eq : ascii → ascii → bool) (p s : chars) : bool :=
  prefix_by eq p s || match s with [] => false | _ :: s => infix_by eq p s end.

Definition util_strings_contains_word (str substr : option string) : bool :=
  match str, substr with
  | Some str, Some substr => infix_by case_eqb (chars_of substr) (chars_of str)
  | _, _ => false
  end.

Fixpoint count_loop (signed : bool) (c : ascii) (s : chars) (res : Z) : Z :=
  match s with
  | [] => res
  | a :: s => count_loop signed c s (if char_eq_uchar signed a c then u64 (res + 1) else res)
  end.
Definition util_strings_count (signed : bool) (str : option string) (c : ascii) : Z :=
  match str with None => 0 | Some str => count_loop signed c (chars_of str) 0 end.

Fixpoint strcaseeq (s t : chars) : bool :=
  match s, t with
  | [], [] => true
  | a :: s, b :: t => case_eqb a b && strcaseeq s t
  | _, _ => false
  end.

Definition util_strings_in_slice (strarray : option (list (option string))) (str : option string) : bool :=
  match strarray, str with
  | Some l, Some str =>
    existsb (λ x, match x with Some x => strcaseeq (chars_of x) (chars_of str) | None => false end) l
  | _, _ => false
  end.

Definition util_strings_to_lower (str : option string) : option string :=
  (λ s, to_str (tolower <$> chars_of s)) <$> str.
Definition util_strings_to_upper (str : option string) : option string :=
  (λ s, to_str (toupper <$> chars_of s)) <$> str.

Definition util_has_prefix (str prefix : option string) : bool :=
  match str, prefix with
  | Some str, Some prefix =>
    if (String.length str <? String.length prefix)%nat then false
    else prefix_by Ascii.eqb (chars_of prefix) (chars_of str)
  | _, _ => false
  end.

Definition util_has_suffix (str suffix : option string) : bool :=
  match str, suffix with
  | Some str, Some suffix =>
    let s := chars_of str in
    let p := chars_of suffix in
    if (length s <? length p)%nat then false else bool_decide (drop (length s - length p) s = p)
  | _, _ => false
  end.

Definition util_is_space_string (str : option string) : bool :=
  match str with None => false | Some str => forallb isspace (chars_of str) end.

(** [util_str_skip_str]: the rest of [str] after the prefix [skip]. *)
Fixpoint skip_loop (str skip : chars) : option chars :=
  match skip with
  | [] => Some str
  | k :: skip => match str with c :: str => if Ascii.eqb c k then skip_loop str skip else None | [] => None end
  end.
Definition util_str_skip_str (str skip : option string) : option string :=
  match str, skip with
  | Some str, Some skip => to_str <$> skip_loop (chars_of str) (chars_of skip)
  | _, _ => None
  end.

Definition util_sub_string (mem : bool) (source : option string) (offset length : Z) : option string :=
  match source with
  | None => None
  | Some source =>
    if length =? 0 then None else
    let total_len := Z.of_nat (String.length source) in
    if total_len <? offset then None else
    let substr_len := (if length <=? total_len - offset then length else total_len - offset) + 1 in
    if util_common_calloc_s mem substr_len
    then Some (to_str (take (Z.to_nat (substr_len - 1)) (drop (Z.to_nat offset) (chars_of source))))
    else None
  end.

(** ** Sizes and percentages *)
Definition SIZE_KB : Z := 1024.
Definition SIZE_MB : Z := 1024 * SIZE_KB.
Definition SIZE_GB : Z := 1024 * SIZE_MB.
Definition SIZE_TB : Z := 1024 * SIZE_GB.
Definition SIZE_PB : Z := 1024 * SIZE_TB.

Definition g_unit_map : list (Z * string) :=
  [(1, "I"); (1, "B"); (1, "IB"); (SIZE_KB, "K"); (SIZE_KB, "KI"); (SIZE_KB, "KB"); (SIZE_KB, "KIB");
   (SIZE_MB, "M"); (SIZE_MB, "MI"); (SIZE_MB, "MB"); (SIZE_MB, "MIB"); (SIZE_GB, "G"); (SIZE_GB, "GI");
   (SIZE_GB, "GB"); (SIZE_GB, "GIB"); (SIZE_TB, "T"); (SIZE_TB, "TI"); (SIZE_TB, "TB"); (SIZE_TB, "TIB");
   (SIZE_PB, "P"); (SIZE_PB, "PI"); (SIZE_PB, "PB"); (SIZE_PB, "PIB")]%string.

Fixpoint unit_lookup (unit : chars) (m : list (Z * string)) : option Z :=
  match m with
  | [] => None
  | (mltpl, name) :: m => if strcaseeq unit (chars_of name) then Some mltpl else unit_lookup unit m
  end.
Definition parse_unit_multiple (unit : chars) : Z + Z :=
  match unit with
  | [] => inr 1
  | _ => match unit_lookup unit g_unit_map with Some m => inr m | None => inl (- EINVAL) end
  end.

(** [util_parse_percent_string]; [errno] is its value at the call, which the
    function does not reset. *)
Definition util_parse_percent_string (errno : Z) (s : option string) : Z + Z :=
  match s with
  | None => inl (- EINVAL)
  | Some s =>
    let l := chars_of s in
    if (length l <? 2)%nat || negb (bool_decide (last l = Some "%"%char)) ||
       negb (forallb (λ c, isdigit c || Ascii.eqb c "%") l)
    then inl (- EINVAL)
    else
      let '(converted, range, _) := strtol 10 (to_str (take (length l - 1) l)) in
      let errno := if range : bool then ERANGE else errno in
      if ((errno =? ERANGE) && ((converted =? LONG_MAX) || (converted =? LONG_MIN))) ||
         (negb (errno =? 0) && (converted =? 0)) || (converted <? 0) || (100 <? converted)
      then inl (- EINVAL)
      else inr converted
  end.

(** ** Editing in place *)
Fixpoint delchar_loop (signed : bool) (c : ascii) (slen : Z) (fuel : nat) (i j : Z) : M chars unit :=
  match fuel with
  | O => fail
  | S fuel =>
    if i <? slen then
      if j =? slen then wr i NUL
      else
        a ← rd j;
        wr i a;;
        b ← rd i;
        if char_eq_uchar signed b c
        then delchar_loop signed c slen fuel i (j + 1)
        else delchar_loop signed c slen fuel (i + 1) (j + 1)
    else mret tt
  end.

Definition util_string_delchar_inplace (signed : bool) (c : ascii) : M chars unit :=
  slen ← buf_strlen;
  delchar_loop signed c slen (S (Z.to_nat slen)) 0 0.

Definition util_string_delchar (signed : bool) (ss : option string) (c : ascii) : option (option string) :=
  match ss with
  | None => Some None
  | Some ss =>
    match util_string_delchar_inplace signed c (cbuf ss) with
    | Some (_, b) => Some (Some (buf_str b))
    | None => None
    end
  end.

Fixpoint trim_newline_loop (fuel : nat) (len : Z) : M chars unit :=
  match fuel with
  | O => fail
  | S fuel =>
    if 1 <=? len then
      c ← rd (len - 1);
      if Ascii.eqb c "010" then wr (len - 1) NUL;; trim_newline_loop fuel (len - 1) else mret tt
    else mret tt
  end.
Definition util_trim_newline : M chars unit :=
  len ← buf_strlen;
  trim_newline_loop (S (Z.to_nat len)) len.

(** Advance [begin] while its byte satisfies [p]. *)
Fixpoint skip_while (p : ascii → bool) (fuel : nat) (begin : Z) : M chars Z :=
  match fuel with
  | O => fail
  | S fuel => c ← rd begin; if p c then skip_while p fuel (begin + 1) else mret begin
  end.
(** Copy the bytes from [begin] down to [tmp], up to and including the NUL. *)
Fixpoint move_down (fuel : nat) (tmp begin : Z) : M chars unit :=
  match fuel with
  | O => fail
  | S fuel =>
    c ← rd begin;
    wr tmp c;;
    if Ascii.eqb c NUL then mret tt else move_down fuel (tmp + 1) (begin + 1)
  end.

Definition util_left_trim_space : M chars unit :=
  len ← buf_strlen;
  if len =? 0 then mret tt else
  begin ← skip_while isspace (S (Z.to_nat len)) 0;
  move_down (S (Z.to_nat len)) 0 begin.

(** Step [end] back while its byte satisfies [p]; nothing stops it at the
    start of the string. *)
Fixpoint back_while (p : ascii → bool) (fuel : nat) (e : Z) : M chars Z :=
  match fuel with
  | O => fail
  | S fuel => c ← rd e; if p c then back_while p fuel (e - 1) else mret e
  end.
Definition util_right_trim_space : M chars unit :=
  len ← buf_strlen;
  if len =? 0 then mret tt else
  e ← back_while isspace (S (Z.to_nat len)) (len - 1);
  wr (e + 1) NUL.

Definition util_trim_space : M chars unit := util_left_trim_space;; util_right_trim_space.

Definition is_quote (c : ascii) : bool := byte c =? 34.
Definition quote_or_end (c : ascii) : bool := Ascii.eqb c NUL || (byte c =? 10) || is_quote c.

Definition util_left_trim_quotation : M chars unit :=
  c ← rd 0;
  if Ascii.eqb c NUL then mret tt else
  len ← buf_strlen;
  begin ← skip_while is_quote (S (Z.to_nat len)) 0;
  move_down (S (Z.to_nat len)) 0 begin.

(** The same loop with the guard [end >= str]. *)
Fixpoint back_while_bounded (p : ascii → bool) (fuel : nat) (e : Z) : M chars Z :=
  match fuel with
  | O => fail
  | S fuel =>
    if 0 <=? e then c ← rd e; if p c then back_while_bounded p fuel (e - 1) else mret e
    else mret e
  end.
Definition util_right_trim_quotation : M chars unit :=
  len ← buf_strlen;
  if len =? 0 then mret tt else
  e ← back_while_bounded quote_or_end (S (Z.to_nat len)) (len - 1);
  wr (e + 1) NUL.

Definition util_trim_quotation : M chars unit := util_left_trim_quotation;; util_right_trim_quotation.

(** ** Splitting and joining *)

(** [strsep]: the token before the first delimiter, and the rest if there is
    one. *)
Fixpoint strsep (delim : ascii) (s : chars) : chars * option chars :=
  match s with
  | [] => ([], None)
  | c :: s =>
    if Ascii.eqb c delim then ([], Some s)
    else let '(tok, rest) := strsep delim s in (c :: tok, rest)
  end.

(** [util_shrink_array]: the first [new_size] cells in an array of their own. *)
Definition util_shrink_array (mem : bool) (orig_array : list (option string)) (new_size : Z)
    : option (list (option string)) :=
  if new_size =? 0 then Some orig_array
  else if util_smart_calloc_s mem PTR_SIZE new_size then copy_cells new_size new_size orig_array
  else Some orig_array.

Definition make_empty_array (mem : bool) : option (list (option string)) :=
  if mem then Some [Some ""%string; None] else None.

(** Add a token to the array the loops of the split functions build. *)
Definition add_token (mem : bool) (res : option (list (option string))) (capacity count : Z) (token : chars)
    : option (bool * option (list (option string)) * Z) :=
  '(ret, res, capacity) ← util_grow_array mem res capacity (count + 1) 16;
  if ret <? 0 then Some (false, res, capacity)
  else
    cells ← res;
    cells ← write_cell count (Some (to_str token)) cells;
    Some (true, Some cells, capacity).

(** The result of a split: [None] for undefined behaviour, [Some None] for the
    [NULL] of an allocation failure. *)
Fixpoint split_multi_loop (mem : nat → bool) (delim : ascii) (fuel : nat) (cur : option chars)
    (res : option (list (option string))) (capacity : Z) (count : nat) : option (option (list (option string) * nat)) :=
  match cur with
  | None => match res with Some cells => Some (Some (cells, count)) | None => None end
  | Some cur =>
    match fuel with
    | O => None
    | S fuel =>
      let '(token, cur) := strsep delim cur in
      '(ok, res, capacity) ← add_token (mem count) res capacity (Z.of_nat count) token;
      if (ok : bool) then split_multi_loop mem delim fuel cur res capacity (S count) else Some None
    end
  end.

Definition util_string_split_multi (mem_empty mem_shrink : bool) (mem : nat → bool) (src_str : option string)
    (delim : ascii) : option (option (list (option string))) :=
  match src_str with
  | None => Some None
  | Some s =>
    if String.eqb s "" then Some (make_empty_array mem_empty) else
    let s := chars_of s in
    r ← split_multi_loop mem delim (S (length s)) (Some s) None 0 0;
    match r with
    | None => Some None
    | Some (cells, count) => Some <$> util_shrink_array mem_shrink cells (Z.of_nat count + 1)
    end
  end.

(** [util_string_split_n]: at most [n] fields, the last one unsplit. *)
Fixpoint split_n_loop (mem : nat → bool) (sep : ascii) (n : Z) (fuel : nat) (index : chars) (count : Z)
    (res : option (list (option string))) : option (option (list (option string))) :=
  match fuel with
  | O => None
  | S fuel =>
    let finish :=
      '(ret, res) ← util_array_append (mem fuel) res (Some (to_str index));
      Some (if ret =? 0 then res else None) in
    match strsep sep index with
    | (_, None) => finish
    | (token, Some rest) =>
      let count := count + 1 in
      if n <=? count then finish
      else
        '(ret, res) ← util_array_append (mem fuel) res (Some (to_str token));
        if ret =? 0 then split_n_loop mem sep n fuel rest count res else Some None
    end
  end.

Definition util_string_split_n (mem_empty : bool) (mem : nat → bool) (src : option string) (sep : ascii) (n : Z)
    : option (option (list (option string))) :=
  match src with
  | None => Some None
  | Some s =>
    if n =? 0 then Some None
    else if String.eqb s "" then Some (make_empty_array mem_empty)
    else split_n_loop mem sep n (S (length (chars_of s))) (chars_of s) 0 None
  end.

(** [strtok_r] with a single delimiter: runs of delimiters are skipped. *)
Fixpoint strtok (sep : ascii) (s : chars) : option (chars * chars) :=
  match s with
  | [] => None
  | c :: s' =>
    if Ascii.eqb c sep then strtok sep s'
    else match strsep sep s with (tok, Some rest) => Some (tok, rest) | (tok, None) => Some (tok, []) end
  end.

Fixpoint split_loop (mem : nat → bool) (sep : ascii) (fuel : nat) (str : chars)
    (res : option (list (option string))) (capacity : Z) (count : nat)
    : option (option (option (list (option string)) * nat)) :=
  match fuel with
  | O => None
  | S fuel =>
    match strtok sep str with
    | None => Some (Some (res, count))
    | Some (token, str) =>
      '(ok, res, capacity) ← add_token (mem count) res capacity (Z.of_nat count) token;
      if (ok : bool) then split_loop mem sep fuel str res capacity (S count) else Some None
    end
  end.

Definition util_string_split (mem_empty mem_shrink : bool) (mem : nat → bool) (src_str : option string) (sep : ascii)
    : option (option (list (option string))) :=
  match src_str with
  | None => Some None
  | Some s =>
    if String.eqb s "" then Some (make_empty_array mem_empty) else
    let s := chars_of s in
    r ← split_loop mem sep (S (length s)) s None 0 0;
    match r with
    | None => Some None
    | Some (None, _) => Some (make_empty_array mem_empty)
    | Some (Some cells, count) => Some <$> util_shrink_array mem_shrink cells (Z.of_nat count + 1)
    end
  end.

(** [strcat] into a buffer: the bytes of [s] and a NUL from the first NUL on. *)
Definition strcat (s : chars) : M chars unit := λ b,
  let u := until_nul b in
  if existsb (Ascii.eqb NUL) b && (length u + length s + 1 <=? length b)%nat
  then Some (tt, u ++ s ++ NUL :: drop (length u + length s + 1) b)
  else None.

Fixpoint join_loop (sep : chars) (parts : list chars) : M chars unit :=
  match parts with
  | [] => fail
  | [p] => strcat p
  | p :: parts => strcat p;; strcat sep;; join_loop sep parts
  end.

Definition SIZE_MAX : Z := 18446744073709551615.

(** [do_string_join]: [Some None] when the buffer cannot be allocated. *)
Definition do_string_join (mem : bool) (sep : chars) (parts : list chars) (result_len : Z) : option (option string) :=
  if util_smart_calloc_s mem 1 (u64 (result_len + 1)) then
    match join_loop sep parts (replicate (Z.to_nat (result_len + 1)) NUL) with
    | Some (_, b) => Some (Some (buf_str b))
    | None => None
    end
  else Some None.

(** The total length of the parts, or [None] when a part is [NULL] or the
    total does not fit. *)
Fixpoint join_len (parts : list (option string)) (result_len : Z) : option Z :=
  match parts with
  | [] => Some result_len
  | None :: _ => None
  | Some p :: parts =>
    let l := Z.of_nat (String.length p) in
    if u64 (SIZE_MAX - l) <=? result_len then None else join_len parts (u64 (result_len + l))
  end.

Definition util_string_join (mem : bool) (sep : option string) (parts : option (list (option string)))
    : option (option string) :=
  match sep, parts with
  | Some sep, Some parts =>
    let len := Z.of_nat (length parts) in
    if len =? 0 then Some None else
    let sep_len := Z.of_nat (String.length sep) in
    if negb (sep_len =? 0) && negb (sep_len =? 1) && (SIZE_MAX / sep_len + 1 <? len) then Some None else
    match join_len parts (u64 ((len - 1) * sep_len)) with
    | None => Some None
    | Some result_len => do_string_join mem (chars_of sep) (omap (fmap (M:=option) chars_of) parts) result_len
    end
  | _, _ => Some None
  end.

(** [util_string_append]: [pre] followed by [post]. *)
Definition util_string_append (mem : bool) (post pre : option string) : option (option string) :=
  match post, pre with
  | None, None => Some None
  | Some post, None => Some (Some post)
  | None, Some pre => Some (Some pre)
  | Some post, Some pre =>
    let lpost := Z.of_nat (String.length post) in
    let lpre := Z.of_nat (String.length pre) in
    if u64 (SIZE_MAX - lpre - 1) <? lpost then Some None else
    let length := u64 (lpost + lpre + 1) in
    if util_common_calloc_s mem length then
      match (strcat (chars_of pre);; strcat (chars_of post)) (replicate (Z.to_nat length) NUL) with
      | Some (_, b) => Some (Some (buf_str b))
      | None => None
      end
    else Some None
  end.

Definition util_str_array_dup (mem : bool) (src : option (list (option string))) : option (list (option string)) :=
  match src with
  | None => None
  | Some src =>
    let len := Z.of_nat (length src) in
    if len =? 0 then None
    else if SIZE_MAX / PTR_SIZE - 1 <? len then None
    else if util_common_calloc_s mem (u64 (PTR_SIZE * (len + 1))) then Some (src ++ [None])
    else None
  end.

(** [util_dup_array_of_strings]: the return code and, when it is written, the
    new array. *)
Definition util_dup_array_of_strings (mem dst_ok : bool) (src : option (list (option string)))
    : Z * option (list (option string)) :=
  match src with
  | None | Some [] => (0, None)
  | Some src =>
    if dst_ok then
      if util_smart_calloc_s mem PTR_SIZE (Z.of_nat (length src)) then (0, Some src) else (-1, None)
    else (-1, None)
  end.

(** [strstr]: the text before the first occurrence of [d], and what follows it. *)
Fixpoint strstr (d s : chars) : option (chars * chars) :=
  if prefix_by Ascii.eqb d s then Some ([], drop (length d) s)
  else match s with
       | [] => None
       | c :: s => match strstr d s with Some (tok, rest) => Some (c :: tok, rest) | None => None end
       end.

(** [strchr]: what comes before and after the first [c]. *)
Fixpoint strchr (c : ascii) (s : chars) : option (chars * chars) :=
  match s with
  | [] => None
  | d :: s => if Ascii.eqb d c then Some ([], s) else match strchr c s with Some (a, b) => Some (d :: a, b) | None => None end
  end.

(** [util_str_token]: the token, and the new value of the input pointer. *)
Definition util_str_token (mem : bool) (input delimiter : option string) : option string * option string :=
  match input, delimiter with
  | Some str, Some delimiter =>
    if mem then
      match strstr (chars_of delimiter) (chars_of str) with
      | Some (tok, rest) => (Some (to_str tok), Some (to_str rest))
      | None => (Some str, None)
      end
    else (None, input)
  | _, _ => (None, input)
  end.

(** ** Duplicates: [util_string_array_unique] puts the elements in a map *)
Section unique.
Context (signed : bool).
Let UM := map_t unit MAP_STR_BOOL.

Fixpoint replace_all (mem : nat → map_mem) (elements : list (option cstr)) : M UM bool :=
  match elements with
  | [] => mret true
  | e :: elements =>
    ok ← map_replace signed (type:=MAP_STR_BOOL) (mem (length elements)) e (Some true);
    if (ok : bool) then replace_all mem elements else mret false
  end.

(** Write the keys the iterator yields into [tmp_elements]. *)
Fixpoint store_keys (keys : list (option cstr)) (i : Z) (cells : list (option cstr)) : option (list (option cstr)) :=
  match keys with
  | [] => Some cells
  | k :: keys => cells ← write_cell i k cells; store_keys keys (i + 1) cells
  end.

(** The work on the new map: the return code and the unique elements. *)
Definition unique_elements (mem_cells mem_itor : bool) (mem : nat → map_mem) (elements : list (option cstr))
    : M UM (Z * option (list (option cstr))) :=
  ok ← replace_all mem elements;
  if (ok : bool) then
    n ← map_size;
    if util_smart_calloc_s mem_cells PTR_SIZE n then
      l ← map_pairs mem_itor;
      match l with
      | None => mret (-1, None)
      | Some l =>
        match store_keys (fst <$> l) 0 (null_cells n) with
        | Some cells => mret (0, Some cells)
        | None => fail
        end
      end
    else mret (-1, None)
  else mret (-1, None).

(** [None] is undefined behaviour. *)
Definition util_string_array_unique (mem_new mem_cells mem_itor : bool) (mem : nat → map_mem)
    (elements : list (option cstr)) : option (Z * option (list (option cstr))) :=
  match elements with
  | [] => Some (0, None)
  | _ =>
    match map_new (P:=unit) (type:=MAP_STR_BOOL) mem_new mem_new mem_new true with
    | None => Some (-1, None)
    | Some m => fst <$> unique_elements mem_cells mem_itor mem elements m
    end
  end.
End unique.

(** ** Splitting: the fields of a string *)
Fixpoint fields (delim : ascii) (s : chars) : list chars :=
  match s with
  | [] => [[]]
  | c :: s =>
    if Ascii.eqb c delim then [] :: fields delim s
    else match fields delim s with f :: fs => (c :: f) :: fs | [] => [[c]] end
  end.

Lemma strsep_fields delim s :
  fields delim s = (strsep delim s).1 :: from_option (fields delim) [] (strsep delim s).2.
Proof.
  induction s as [|c s IH]; simpl; [done|]. destruct (Ascii.eqb c delim); [done|].
  rewrite IH. by destruct (strsep delim s).
Qed.

Lemma strsep_length delim s rest : (strsep delim s).2 = Some rest → (length rest < length s)%nat.
Proof.
  induction s as [|c s IH]; simpl; [done|]. destruct (Ascii.eqb c delim); [by intros [= ->]; simpl; lia|].
  destruct (strsep delim s) as [tok r]. simpl in *. intros Hr. specialize (IH Hr). lia.
Qed.

Lemma length_fields delim s : (length (fields delim s) ≤ S (length s))%nat.
Proof.
  induction s as [|c s IH]; simpl; [lia|]. destruct (Ascii.eqb c delim); simpl; [lia|].
  destruct (fields delim s); simpl in *; lia.
Qed.

(** The array under construction: the tokens so far, then at least one [NULL]. *)
Definition building (res : option (list (option string))) (capacity : Z) (toks : list chars) : Prop :=
  ∃ cells, res = (if decide (cells = []) then None else Some cells) ∧ Z.of_nat (length cells) = capacity ∧
    capacity ≤ Z.of_nat (length toks) + 16 ∧
    ∃ n, 0 ≤ n ∧ (toks = [] → n = 0) ∧ (toks ≠ [] → 0 < n) ∧ cells = (Some ∘ to_str <$> toks) ++ null_cells n.

Lemma building_nil : building None 0 [].
Proof. exists []. simpl. split_and!; [done|done|lia|]. exists 0. by split_and!. Qed.

Lemma null_cells_app {A} n m : 0 ≤ n → 0 ≤ m → null_cells (A:=A) n ++ null_cells m = null_cells (n + m).
Proof. intros. unfold null_cells. by rewrite <- replicate_add, Z2Nat.inj_add by lia. Qed.

Lemma add_token_ok res capacity toks tok :
  building res capacity toks → Z.of_nat (length toks) + 17 ≤ max_items →
  ∃ res' capacity', add_token true res capacity (Z.of_nat (length toks)) tok = Some (true, res', capacity') ∧
    building res' capacity' (toks ++ [tok]).
Proof.
  intros (cells & -> & <- & Hc & n & Hn & _ & _ & Hcells) Hmax. unfold add_token.
  destruct (util_grow_array_ok true cells (Z.of_nat (length toks) + 1) 16) as (r & array' & c' & Hg & Hr); [lia..|].
  rewrite Hg. simpl. destruct Hr as [(-> & cells' & -> & Hl & Hb & k & Hk0 & Hk)|(_ & ? & _)]; [|done]. simpl.
  set (m := n + k - 1).
  assert (Hlen : Z.of_nat (length cells') = Z.of_nat (length toks) + n + k).
  { rewrite Hk, Hcells, !length_app, length_fmap. unfold null_cells. rewrite !length_replicate. lia. }
  assert (Hm : cells' = (Some ∘ to_str <$> toks) ++ None :: null_cells m).
  { rewrite Hk, Hcells, <- app_assoc, null_cells_app by lia. f_equal.
    replace (n + k) with (m + 1) by (unfold m; lia). apply null_cells_S. unfold m. lia. }
  pose proof (write_cell_app (Some ∘ to_str <$> toks) (Some (to_str tok)) None (null_cells m)) as Hw.
  rewrite length_fmap in Hw. rewrite Hm, Hw. simpl.
  eexists _, _. split; [done|]. exists ((Some ∘ to_str <$> toks) ++ Some (to_str tok) :: null_cells m).
  split_and!.
  - rewrite decide_False; [done|]. by destruct toks.
  - rewrite <- Hl, Hm, !length_app. done.
  - rewrite length_app. simpl. lia.
  - exists m. split_and!; [unfold m; lia|by intros [_ ?]%app_nil|intros _; unfold m; lia|]. by rewrite fmap_app, <- app_assoc.
Qed.

Lemma split_multi_loop_ok delim fuel cur res capacity toks :
  building res capacity toks → (length cur < fuel)%nat →
  Z.of_nat (length toks) + Z.of_nat (length (fields delim cur)) + 16 ≤ max_items →
  ∃ cells n, split_multi_loop (λ _, true) delim fuel (Some cur) res capacity (length toks) =
    Some (Some (cells, length (toks ++ fields delim cur))) ∧
    0 < n ∧ cells = (Some ∘ to_str <$> toks ++ fields delim cur) ++ null_cells n.
Proof.
  revert cur res capacity toks. induction fuel as [|fuel IH]; intros cur res capacity toks Hb Hf Hm; [lia|].
  rewrite strsep_fields in Hm |- *. simpl. simpl in Hm. destruct (strsep delim cur) as [tok rest] eqn:E. simpl in *.
  destruct (add_token_ok res capacity toks tok Hb ltac:(lia)) as (res' & cap' & -> & Hb'). simpl.
  assert (Hlen : S (length toks) = length (toks ++ [tok])) by (rewrite length_app; simpl; lia).
  rewrite (cons_middle tok toks), app_assoc, Hlen. destruct rest as [rest|]; simpl in *.
  - apply IH; [done| |rewrite <- Hlen; lia].
    pose proof (strsep_length delim cur rest). rewrite E in H. specialize (H eq_refl). lia.
  - rewrite app_nil_r. destruct Hb' as (cells & -> & _ & _ & n & Hn & Hn0 & Hn' & Hc).
    assert (Hne : toks ++ [tok] ≠ []) by (intros [_ ?]%app_nil; done). specialize (Hn' Hne).
    rewrite decide_False; [exists cells, n; by destruct fuel|]. rewrite Hc. by intros [?%fmap_nil_inv _]%app_nil.
Qed.

Lemma shrink_ok (toks : list chars) n :
  0 < n → Z.of_nat (length toks) + 1 ≤ max_items →
  util_shrink_array true ((Some ∘ to_str <$> toks) ++ null_cells n) (Z.of_nat (length toks) + 1) =
  Some ((Some ∘ to_str <$> toks) ++ [None]).
Proof.
  intros Hn Hm. unfold util_shrink_array. rewrite (proj2 (Z.eqb_neq _ _)) by lia.
  unfold util_smart_calloc_s. change (MAX_MEMORY_SIZE / PTR_SIZE) with max_items.
  rewrite (proj2 (Z.ltb_ge _ _)) by lia. simpl. unfold copy_cells.
  replace n with ((n - 1) + 1) by lia. rewrite null_cells_S by lia.
  rewrite length_app, length_fmap. simpl. rewrite !(proj2 (Z.leb_le _ _)) by lia. simpl.
  rewrite Z.sub_diag, app_nil_r, Z2Nat.inj_add, Nat2Z.id by lia.
  rewrite <- (length_fmap (Some ∘ to_str) toks), take_app_add. done.
Qed.

(** [util_string_split_multi] with enough memory: the fields, then a [NULL]. *)
Lemma util_string_split_multi_ok s delim :
  Z.of_nat (String.length s) + 32 ≤ max_items →
  util_string_split_multi true true (λ _, true) (Some s) delim =
  Some (Some ((Some ∘ to_str <$> fields delim (chars_of s)) ++ [None])).
Proof.
  intros Hs. unfold util_string_split_multi. destruct (String.eqb_spec s "") as [->|Hne]; [done|].
  pose proof (length_fields delim (chars_of s)) as Hl. rewrite length_chars_of in Hl.
  destruct (split_multi_loop_ok delim (S (length (chars_of s))) (chars_of s) None 0 []) as (cells & n & Hsp & Hn & ->);
    [apply building_nil|lia|simpl; lia|].
  change (length []) with 0%nat in Hsp. rewrite Hsp. simpl. rewrite shrink_ok by (done || lia). done.
Qed.

(** ** Joining *)
Fixpoint intercalate (sep : chars) (parts : list chars) : chars :=
  match parts with
  | [] => []
  | [p] => p
  | p :: parts => p ++ sep ++ intercalate sep parts
  end.

Lemma intercalate_fields delim s : intercalate [delim] (fields delim s) = s.
Proof.
  induction s as [|c s IH]; [done|]. cbn [fields]. destruct (Ascii.eqb_spec c delim) as [->|Hne].
  - rewrite (strsep_fields delim s) in *. simpl in *. by rewrite IH.
  - destruct (fields delim s) as [|f [|g fs]] eqn:E.
    + by rewrite strsep_fields in E.
    + simpl in *. by rewrite IH.
    + cbn [intercalate app] in *. by rewrite IH.
Qed.

Definition no_nul (s : chars) : Prop := Forall (λ c, Ascii.eqb c NUL = false) s.

Lemma until_nul_app u rest : no_nul u → until_nul (u ++ NUL :: rest) = u.
Proof. induction 1 as [|c u Hc Hu IH]; simpl; [done|]. by rewrite Hc, IH. Qed.

Lemma existsb_nul u rest : existsb (Ascii.eqb NUL) (u ++ NUL :: rest) = true.
Proof. rewrite existsb_app. simpl. by rewrite orb_true_r. Qed.

Lemma strcat_ok u s k :
  no_nul u → strcat s (u ++ replicate (length s + S k) NUL) = Some (tt, (u ++ s) ++ replicate (S k) NUL).
Proof.
  intros Hu. unfold strcat.
  assert (E : u ++ replicate (length s + S k) NUL = u ++ NUL :: replicate (length s + k) NUL).
  { by rewrite Nat.add_succ_r. }
  rewrite E, existsb_nul, until_nul_app by done. rewrite length_app. cbn [length]. rewrite length_replicate.
  rewrite (proj2 (Nat.leb_le _ _)) by lia. simpl. do 2 f_equal.
  rewrite <- app_assoc. f_equal. f_equal. f_equal.
  rewrite <- Nat.add_assoc, <- drop_drop, drop_app_length, Nat.add_1_r. simpl. rewrite drop_replicate. f_equal. lia.
Qed.

Lemma no_nul_app u v : no_nul (u ++ v) ↔ no_nul u ∧ no_nul v.
Proof. apply Forall_app. Qed.

Lemma join_loop_ok sep parts u :
  parts ≠ [] → no_nul u → no_nul sep → Forall no_nul parts →
  ∀ k, join_loop sep parts (u ++ replicate (length (intercalate sep parts) + S k) NUL) =
    Some (tt, (u ++ intercalate sep parts) ++ replicate (S k) NUL).
Proof.
  intros Hne Hu Hsep Hparts. revert u Hu Hne.
  induction Hparts as [|p parts Hp Hps IH]; intros u Hu Hne k; [done|].
  destruct parts as [|q parts]; [by apply strcat_ok|].
  set (rest := intercalate sep (q :: parts)) in *.
  change (intercalate sep (p :: q :: parts)) with (p ++ sep ++ rest).
  change (join_loop sep (p :: q :: parts)) with (strcat p;; strcat sep;; join_loop sep (q :: parts)).
  unfold mbind, M_bind.
  rewrite !length_app. replace (length p + (length sep + length rest) + S k)%nat
    with (length p + S (length sep + length rest + k))%nat by lia.
  rewrite strcat_ok by done.
  replace (S (length sep + length rest + k)) with (length sep + S (length rest + k))%nat by lia.
  rewrite strcat_ok by (by apply no_nul_app).
  replace (S (length rest + k)) with (length rest + S k)%nat by lia.
  rewrite IH; [by rewrite <- !app_assoc| |done]. by rewrite !no_nul_app.
Qed.

Lemma buf_str_ok u k : no_nul u → buf_str (u ++ replicate (S k) NUL) = to_str u.
Proof. intros Hu. unfold buf_str. simpl. by rewrite until_nul_app. Qed.

Lemma strchr_app c p q : Forall (λ d, Ascii.eqb d c = false) p → strchr c (p ++ c :: q) = Some (p, q).
Proof. induction 1 as [|d p Hd Hp IH]; simpl; [by rewrite Ascii.eqb_refl|]. by rewrite Hd, IH. Qed.

Lemma chars_of_app s t : chars_of (s ++ t)%string = chars_of s ++ chars_of t.
Proof. induction s as [|c s IH]; simpl; [done|]. by rewrite IH. Qed.

Lemma string_length_app s t : String.length (s ++ t)%string = (String.length s + String.length t)%nat.
Proof. rewrite <- !length_chars_of, chars_of_app. apply length_app. Qed.

(** The length computed for a join is the length of its result. *)
Definition total (parts : list chars) : nat := foldr (λ p n, length p + n)%nat 0%nat parts.

Lemma join_len_ok parts acc :
  0 ≤ acc → acc + Z.of_nat (total parts) < SIZE_MAX →
  join_len (Some ∘ to_str <$> parts) acc = Some (acc + Z.of_nat (total parts)).
Proof.
  revert acc. induction parts as [|p parts IH]; intros acc Ha Hb; simpl in *; [f_equal; lia|].
  rewrite <- length_chars_of, chars_of_string. unfold SIZE_MAX, two64 in *.
  rewrite (u64_small (_ - _)) by (unfold two64; lia). rewrite (proj2 (Z.leb_gt _ _)) by lia.
  rewrite u64_small by (unfold two64; lia). fold (fmap (M:=list) (Some ∘ to_str)).
  transitivity (join_len (Some ∘ to_str <$> parts) (acc + Z.of_nat (length p))); [done|].
  rewrite IH by lia. f_equal. lia.
Qed.

Lemma length_intercalate sep parts :
  parts ≠ [] → (length (intercalate sep parts) = total parts + (length parts - 1) * length sep)%nat.
Proof.
  intros Hne. induction parts as [|p parts IH]; [done|]. destruct parts as [|q parts]; [simpl; lia|].
  change (intercalate sep (p :: q :: parts)) with (p ++ sep ++ intercalate sep (q :: parts)).
  rewrite !length_app, IH by done. cbn [total foldr length]. simpl. nia.
Qed.

Lemma no_nul_intercalate sep parts : no_nul sep → Forall no_nul parts → no_nul (intercalate sep parts).
Proof.
  intros Hsep. induction 1 as [|p parts Hp Hps IH]; [constructor|]. destruct parts as [|q parts]; [done|].
  change (intercalate sep (p :: q :: parts)) with (p ++ sep ++ intercalate sep (q :: parts)). by rewrite !no_nul_app.
Qed.

Lemma omap_chars (parts : list chars) : omap (fmap (M:=option) chars_of) (Some ∘ to_str <$> parts) = parts.
Proof. induction parts as [|p parts IH]; [done|]. cbn. rewrite chars_of_string. f_equal. exact IH. Qed.

Lemma util_string_join_ok sep parts :
  parts ≠ [] → no_nul (chars_of sep) → Forall no_nul parts →
  Z.of_nat (length (intercalate (chars_of sep) parts)) < MAX_MEMORY_SIZE →
  util_string_join true (Some sep) (Some (Some ∘ to_str <$> parts)) =
  Some (Some (to_str (intercalate (chars_of sep) parts))).
Proof.
  intros Hne Hsep Hparts Hlen. unfold util_string_join. rewrite length_fmap.
  assert (Hl0 : (0 < length parts)%nat) by (destruct parts; [done|simpl; lia]).
  rewrite (proj2 (Z.eqb_neq _ _)) by lia.
  pose proof (length_intercalate (chars_of sep) parts Hne) as Hli. rewrite <- length_chars_of.
  set (ls := length (chars_of sep)) in *. unfold MAX_MEMORY_SIZE in Hlen.
  assert (Hmul : (Z.of_nat (length parts) - 1) * Z.of_nat ls = Z.of_nat ((length parts - 1) * ls)) by nia.
  set (sl := ((length parts - 1) * ls)%nat) in *. clearbody sl.
  assert (Hov : negb (Z.of_nat ls =? 0) && negb (Z.of_nat ls =? 1) && (SIZE_MAX / Z.of_nat ls + 1 <? Z.of_nat (length parts)) = false).
  { destruct (Z.eqb_spec (Z.of_nat ls) 0); [done|]. destruct (Z.eqb_spec (Z.of_nat ls) 1); [done|]. simpl.
    apply Z.ltb_ge. assert (Z.of_nat (length parts) - 1 ≤ SIZE_MAX / Z.of_nat ls); [|lia].
    apply Z.div_le_lower_bound; [lia|]. rewrite Z.mul_comm, Hmul. unfold SIZE_MAX. lia. }
  rewrite Hov, Hmul, u64_small by (unfold two64; lia).
  rewrite join_len_ok by (unfold SIZE_MAX; lia). rewrite omap_chars. unfold do_string_join.
  replace (Z.of_nat sl + Z.of_nat (total parts)) with
    (Z.of_nat (length (intercalate (chars_of sep) parts))) by lia.
  rewrite u64_small by (unfold two64; lia). unfold util_smart_calloc_s.
  rewrite (proj2 (Z.ltb_ge _ _)) by (unfold MAX_MEMORY_SIZE; change (140737488355328 / 1) with 140737488355328; lia).
  simpl. rewrite Z2Nat.inj_add, Nat2Z.id by lia. change (Z.to_nat 1) with 1%nat.
  pose proof (join_loop_ok (chars_of sep) parts [] Hne ltac:(constructor) Hsep Hparts 0) as Hj. simpl app in Hj.
  rewrite Hj. f_equal. f_equal. by apply (buf_str_ok _ 0), no_nul_intercalate.
Qed.

Lemma no_nul_chars s : nul_free s = true → no_nul (chars_of s).
Proof.
  induction s as [|c s IH]; simpl; [constructor|]. intros [Hc%negb_true_iff Hs]%andb_true_iff. constructor; [done|by apply IH].
Qed.

Lemma no_nul_fields delim s : no_nul s → Forall no_nul (fields delim s).
Proof.
  induction 1 as [|c s Hc Hs IH]; simpl; [by repeat constructor|].
  destruct (Ascii.eqb c delim); [by repeat constructor|].
  inversion IH as [|f fs Hf Hfs]; subst; repeat constructor; done.
Qed.

Lemma to_str_chars s : to_str (chars_of s) = s.
Proof. apply String.string_of_list_ascii_of_string. Qed.

(** Splitting at a delimiter and joining with it again gives the string back:
    no field is lost, no access leaves an array, and the vector is
    [NULL]-terminated where [util_array_len] finds its end. *)
Theorem split_join_roundtrip s delim :
  nul_free s = true → Ascii.eqb delim NUL = false → Z.of_nat (String.length s) + 32 ≤ max_items →
  ∃ cells n,
    util_string_split_multi true true (λ _, true) (Some s) delim = Some (Some cells) ∧
    util_array_len (Some cells) = Some (Z.of_nat n) ∧
    util_string_join true (Some (String delim "")) (Some (take n cells)) = Some (Some s).
Proof.
  intros Hs Hd Hl. rewrite util_string_split_multi_ok by done.
  assert (Hne : fields delim (chars_of s) ≠ []) by (by rewrite strsep_fields).
  eexists _, (length (fields delim (chars_of s))). split; [done|]. split.
  - simpl. rewrite list_fmap_compose, cells_len_app. by rewrite length_fmap.
  - rewrite take_app_le, take_ge by (rewrite length_fmap; done).
    rewrite util_string_join_ok; [|done|by repeat constructor|by apply no_nul_fields, no_nul_chars|].
    + change (chars_of (String delim "")) with [delim]. by rewrite intercalate_fields, to_str_chars.
    + change (chars_of (String delim "")) with [delim]. rewrite intercalate_fields, length_chars_of.
      rewrite max_items_eq in Hl. unfold MAX_MEMORY_SIZE. lia.
Qed.

(** ** [util_string_split]: the non-empty fields *)
Definition nonempty (f : chars) : Prop := f ≠ [].

Lemma strtok_fields sep s :
  filter nonempty (fields sep s) =
  match strtok sep s with
  | None => []
  | Some (tok, rest) => tok :: filter nonempty (fields sep rest)
  end ∧ match strtok sep s with Some (tok, rest) => tok ≠ [] ∧ (length rest < length s)%nat | None => True end.
Proof.
  induction s as [|c s [IH1 IH2]]; [done|]. cbn [strtok]. cbn [fields]. destruct (Ascii.eqb c sep) eqn:Ec.
  - rewrite filter_cons_False by (by unfold nonempty; auto). rewrite IH1. split; [done|].
    destruct (strtok sep s) as [[tok rest]|]; [|done]. destruct IH2. split; [done|simpl; lia].
  - pose proof (strsep_fields sep (c :: s)) as Hf. cbn [strsep] in Hf. cbn [fields] in Hf. rewrite Ec in Hf. rewrite Hf.
    cbn [strsep]. rewrite Ec. pose proof (strsep_length sep s) as Hl.
    destruct (strsep sep s) as [tok [rest|]]; simpl; rewrite filter_cons_True by done.
    + split; [done|]. split; [done|]. specialize (Hl rest eq_refl). lia.
    + split; [done|]. split; [done|]. lia.
Qed.

Lemma split_loop_ok sep fuel s res capacity toks :
  building res capacity toks → (length s < fuel)%nat →
  Z.of_nat (length toks) + Z.of_nat (length s) + 17 ≤ max_items →
  ∃ res' capacity', split_loop (λ _, true) sep fuel s res capacity (length toks) =
    Some (Some (res', length (toks ++ filter nonempty (fields sep s)))) ∧
    building res' capacity' (toks ++ filter nonempty (fields sep s)).
Proof.
  revert s res capacity toks. induction fuel as [|fuel IH]; intros s res capacity toks Hb Hf Hm; [lia|].
  simpl. destruct (strtok_fields sep s) as [Hs Hr]. rewrite Hs. destruct (strtok sep s) as [[tok rest]|].
  - destruct Hr as [Htok Hrest].
    destruct (add_token_ok res capacity toks tok Hb ltac:(lia)) as (res' & cap' & -> & Hb'). simpl.
    assert (Hlen : S (length toks) = length (toks ++ [tok])) by (rewrite length_app; simpl; lia).
    rewrite (cons_middle tok toks), app_assoc, Hlen. apply IH; [done|lia|rewrite <- Hlen; lia].
  - rewrite app_nil_r. by eauto.
Qed.

Lemma util_string_split_ok s sep :
  Z.of_nat (String.length s) + 32 ≤ max_items →
  let l := filter nonempty (fields sep (chars_of s)) in
  util_string_split true true (λ _, true) (Some s) sep =
  Some (Some (match l with [] => [Some ""; None]%string | _ => (Some ∘ to_str <$> l) ++ [None] end)).
Proof.
  intros Hs l. unfold util_string_split. destruct (String.eqb_spec s "") as [->|Hne]; [done|].
  assert (Hlen : (length l ≤ S (String.length s))%nat).
  { unfold l. etrans; [apply length_filter|]. rewrite <- length_chars_of. apply length_fields. }
  destruct (split_loop_ok sep (S (length (chars_of s))) (chars_of s) None 0 []) as (res & cap & Hsp & Hb);
    [apply building_nil|lia|rewrite length_chars_of; simpl; lia|].
  change (length []) with 0%nat in Hsp. rewrite Hsp. simpl app in *. fold l in Hb |- *. simpl.
  destruct Hb as (cells & -> & _ & _ & n & Hn & Hn0 & Hn' & Hc). destruct l as [|f fs] eqn:El.
  - rewrite (Hn0 eq_refl) in Hc. simpl in Hc. by subst cells.
  - assert (Hnn : 0 < n) by (by apply Hn'). rewrite decide_False by (rewrite Hc; done). rewrite Hc, shrink_ok by (done || lia).
    done.
Qed.

(** ** Editing in place *)
Lemma wp_rd u a v i (Q : ascii → chars → Prop) :
  i = Z.of_nat (length u) → Q a (u ++ a :: v) → wp (rd i) Q (u ++ a :: v).
Proof.
  intros -> HQ. unfold wp, rd. rewrite (proj2 (Z.ltb_ge _ _)) by lia. by rewrite Nat2Z.id, list_lookup_middle.
Qed.

Lemma wp_wr u a v c i (Q : unit → chars → Prop) :
  i = Z.of_nat (length u) → Q tt (u ++ c :: v) → wp (wr i c) Q (u ++ a :: v).
Proof.
  intros -> HQ. unfold wp, wr. rewrite (proj2 (Z.ltb_ge _ _)) by lia. rewrite Nat2Z.id, list_lookup_middle by done.
  rewrite insert_app_r_alt, Nat.sub_diag by lia. done.
Qed.

Lemma wp_strlen l tl (Q : Z → chars → Prop) :
  no_nul l → Q (Z.of_nat (length l)) (l ++ NUL :: tl) → wp buf_strlen Q (l ++ NUL :: tl).
Proof. intros Hl HQ. unfold wp, buf_strlen. by rewrite existsb_nul, until_nul_app. Qed.

(** Copying the byte at a position to an earlier (or the same) one. *)
Lemma shift_byte {B} u mid a rest i j (k : ascii → M chars B) Q :
  i = Z.of_nat (length u) → j = Z.of_nat (length u + length mid) →
  (∀ mid', length mid' = length mid → wp (k a) Q (u ++ a :: mid' ++ rest)) →
  wp (x ← rd j; wr i x;; k x) Q (u ++ mid ++ a :: rest).
Proof.
  intros -> -> HQ. apply wp_bind. rewrite app_assoc. apply wp_rd; [by rewrite length_app|]. rewrite <- app_assoc.
  apply wp_bind. destruct mid as [|m mid]; simpl.
  - apply wp_wr; [done|]. by apply (HQ []).
  - apply wp_wr; [done|]. specialize (HQ (mid ++ [a])). rewrite <- app_assoc in HQ.
    apply HQ. rewrite length_app. simpl. lia.
Qed.

(** The bytes [util_string_delchar] keeps. *)
Abbreviation kept_by signed c := (filter (λ a, char_eq_uchar signed a c = false)).

Lemma delchar_loop_ok signed c fuel kept mid rest slen i j :
  (length rest < fuel)%nat →
  slen = Z.of_nat (length (kept ++ mid ++ rest)) → i = Z.of_nat (length kept) → j = Z.of_nat (length kept + length mid) →
  wp (delchar_loop signed c slen fuel i j)
     (λ _ b, ∃ tl, b = kept ++ kept_by signed c rest ++ NUL :: tl) (kept ++ mid ++ rest ++ [NUL]).
Proof.
  revert kept mid rest i j. induction fuel as [|fuel IH]; intros kept mid rest i j Hf Hslen Hi Hj; [lia|].
  simpl delchar_loop. rewrite !length_app in Hslen. destruct rest as [|a rest].
  - rewrite filter_nil. destruct mid as [|m mid]; simpl in *.
    + rewrite (proj2 (Z.ltb_ge _ _)) by lia. apply wp_ret. by exists [].
    + rewrite (proj2 (Z.ltb_lt _ _)), (proj2 (Z.eqb_eq _ _)) by lia. apply wp_wr; [done|]. by eexists.
  - simpl in Hslen, Hf. rewrite (proj2 (Z.ltb_lt _ _)), (proj2 (Z.eqb_neq _ _)) by lia.
    simpl app. apply shift_byte; [done..|]. intros mid' Hmid. apply wp_bind, wp_rd; [done|].
    destruct (char_eq_uchar signed a c) eqn:E.
    + rewrite filter_cons_False by congruence.
      apply (IH kept (a :: mid') rest); [lia|rewrite !length_app; simpl; lia|done|simpl; lia].
    + rewrite filter_cons_True by done.
      replace (kept ++ a :: mid' ++ rest ++ [NUL]) with ((kept ++ [a]) ++ mid' ++ rest ++ [NUL]) by (by rewrite <- !app_assoc).
      eapply wp_mono; [apply (IH (kept ++ [a]) mid' rest)|].
      * lia.
      * rewrite !length_app. simpl. lia.
      * rewrite length_app. simpl. lia.
      * rewrite length_app. simpl. lia.
      * intros [] b [tl ->]. exists tl. by rewrite <- app_assoc.
Qed.

Lemma no_nul_filter (P : ascii → Prop) `{∀ a, Decision (P a)} l : no_nul l → no_nul (filter P l).
Proof.
  unfold no_nul. rewrite !Forall_forall. intros Hl x [_ Hx]%list_elem_of_filter. by apply Hl.
Qed.

(** [util_string_delchar] never leaves the buffer and removes exactly the bytes
    equal to [c]. *)
Theorem util_string_delchar_correct signed s c :
  nul_free s = true →
  util_string_delchar signed (Some s) c = Some (Some (to_str (kept_by signed c (chars_of s)))).
Proof.
  intros Hs. pose proof (no_nul_chars s Hs) as Hn. unfold util_string_delchar.
  assert (Hw : wp (util_string_delchar_inplace signed c) (λ _ b, buf_str b = to_str (kept_by signed c (chars_of s))) (cbuf s)).
  { unfold util_string_delchar_inplace, cbuf. apply wp_bind, wp_strlen; [done|].
    eapply wp_mono; [apply (delchar_loop_ok signed c _ [] [] (chars_of s)); simpl; lia|].
    intros [] b [tl ->]. simpl. unfold buf_str. by rewrite until_nul_app by (by apply no_nul_filter). }
  apply wp_run in Hw as ([] & b & -> & <-). done.
Qed.

(** ** Trimming *)
Fixpoint ltrim (p : ascii → bool) (l : chars) : chars :=
  match l with c :: l' => if p c then ltrim p l' else l | [] => [] end.
Definition rtrim (p : ascii → bool) (l : chars) : chars := reverse (ltrim p (reverse l)).

Section trim.
Context (p : ascii → bool).

Lemma ltrim_split l : ∃ sp, l = sp ++ ltrim p l ∧ Forall (λ c, p c = true) sp.
Proof.
  induction l as [|c l (sp & IH & Hsp)]; simpl; [by exists []|]. destruct (p c) eqn:E; [|by exists []].
  exists (c :: sp). simpl. split; [by f_equal|by constructor].
Qed.

Lemma ltrim_head l c l' : ltrim p l = c :: l' → p c = false.
Proof. induction l as [|a l IH]; simpl; [done|]. destruct (p a) eqn:E; [done|]. by intros [= -> ->]. Qed.

Lemma rtrim_split l : ∃ sp, l = rtrim p l ++ sp ∧ Forall (λ c, p c = true) sp.
Proof.
  destruct (ltrim_split (reverse l)) as (sp & Hl & Hsp). exists (reverse sp). unfold rtrim. split.
  - by rewrite <- reverse_app, <- Hl, reverse_involutive.
  - by apply Forall_reverse.
Qed.

Lemma rtrim_last l u c : rtrim p l = u ++ [c] → p c = false.
Proof.
  unfold rtrim. intros H%(f_equal reverse). rewrite reverse_involutive, reverse_snoc in H. by eapply ltrim_head.
Qed.

Lemma rtrim_nil l : rtrim p l = [] → Forall (λ c, p c = true) l.
Proof. intros H. destruct (rtrim_split l) as (sp & -> & ?). by rewrite H. Qed.

Lemma skip_while_ok fuel u sp rest i :
  Forall (λ c, p c = true) sp → match rest with c :: _ => p c = false | [] => False end →
  (length sp < fuel)%nat → i = Z.of_nat (length u) →
  wp (skip_while p fuel i) (λ n b, b = u ++ sp ++ rest ∧ n = Z.of_nat (length u + length sp)) (u ++ sp ++ rest).
Proof.
  intros Hsp Hrest. revert u fuel i. induction Hsp as [|c sp Hc Hsp IH]; intros u [|fuel] i Hf ->; simpl in Hf; [lia| |lia|].
  - simpl. destruct rest as [|c rest]; [done|]. apply wp_bind, wp_rd; [done|]. rewrite Hrest. apply wp_ret.
    split; [done|]. lia.
  - simpl. apply wp_bind, wp_rd; [done|]. rewrite Hc.
    replace (u ++ c :: sp ++ rest) with ((u ++ [c]) ++ sp ++ rest) by (by rewrite <- app_assoc).
    eapply wp_mono; [apply IH; [lia|rewrite length_app; simpl; lia]|]. intros n b [-> ->]. split; [done|].
    rewrite length_app. simpl. lia.
Qed.

Lemma move_down_ok fuel u mid rest tl i j :
  no_nul rest → (length rest < fuel)%nat → i = Z.of_nat (length u) → j = Z.of_nat (length u + length mid) →
  wp (move_down fuel i j) (λ _ b, ∃ tl', b = u ++ rest ++ NUL :: tl') (u ++ mid ++ rest ++ NUL :: tl).
Proof.
  intros Hrest. revert fuel u mid i j. induction Hrest as [|c rest Hc Hrest IH]; intros [|fuel] u mid i j Hf Hi Hj;
    simpl in Hf; [lia| |lia|]; simpl.
  - apply shift_byte; [done..|]. intros mid' _. apply wp_ret. by eexists.
  - apply shift_byte; [done..|]. intros mid' Hmid. rewrite Hc.
    replace (u ++ c :: mid' ++ rest ++ NUL :: tl) with ((u ++ [c]) ++ mid' ++ rest ++ NUL :: tl) by (by rewrite <- app_assoc).
    eapply wp_mono; [apply (IH fuel (u ++ [c]) mid'); rewrite ?length_app; simpl; lia|].
    intros [] b [tl' ->]. exists tl'. by rewrite <- app_assoc.
Qed.

(** The two halves of the left trims. *)
Lemma left_trim_ok l tl :
  p NUL = false → no_nul l →
  wp (begin ← skip_while p (S (length l)) 0; move_down (S (length l)) 0 begin)
     (λ _ b, ∃ tl', b = ltrim p l ++ NUL :: tl') (l ++ NUL :: tl).
Proof.
  intros Hp Hl. destruct (ltrim_split l) as (sp & Hs & Hsp).
  assert (Hb : l ++ NUL :: tl = [] ++ sp ++ ltrim p l ++ NUL :: tl) by (simpl; by rewrite (app_assoc sp), <- Hs).
  assert (Hlen : length l = (length sp + length (ltrim p l))%nat) by (rewrite <- length_app; by rewrite <- Hs).
  rewrite Hb. apply wp_bind. eapply wp_mono; [apply skip_while_ok; [done| |lia|done]|].
  - destruct (ltrim p l) eqn:E; [done|]. by eapply ltrim_head.
  - intros n b [-> ->]. simpl length. apply (move_down_ok _ [] sp); [|lia|done|done].
    rewrite Hs in Hl. by apply no_nul_app in Hl as [_ ?].
Qed.

(** Stepping back over a suffix of [p]-bytes, to the byte before it or to the
    start of the buffer. *)
Lemma back_while_bounded_ok fuel u sp tl e :
  Forall (λ c, p c = true) sp → match last u with Some c => p c = false | None => True end →
  (length sp < fuel)%nat → e = Z.of_nat (length u + length sp) - 1 →
  wp (back_while_bounded p fuel e) (λ n b, b = u ++ sp ++ tl ∧ n = Z.of_nat (length u) - 1) (u ++ sp ++ tl).
Proof.
  revert sp tl e. induction fuel as [|fuel IH]; intros sp tl e Hsp Hu Hf He; [lia|]. simpl.
  destruct sp as [|c sp _] using rev_ind.
  - destruct u as [|c u _] using rev_ind; simpl in *.
    + rewrite (proj2 (Z.leb_gt _ _)) by lia. apply wp_ret. split; [done|lia].
    + rewrite length_app in He. simpl in He. rewrite (proj2 (Z.leb_le _ _)) by lia. rewrite <- app_assoc.
      apply wp_bind, wp_rd; [lia|]. rewrite last_snoc in Hu. rewrite Hu. apply wp_ret. split; [done|].
      rewrite length_app. simpl. lia.
  - rewrite length_app in He, Hf. simpl in He, Hf. rewrite (proj2 (Z.leb_le _ _)) by lia.
    apply Forall_app in Hsp as [Hsp [Hc _]%Forall_cons]. rewrite <- app_assoc. simpl. rewrite app_assoc.
    apply wp_bind, wp_rd; [rewrite length_app; lia|]. rewrite Hc. rewrite <- app_assoc.
    apply (IH sp (c :: tl)); [done|done|lia|lia].
Qed.

(** Without the bound the loop is safe when some byte stops it. *)
Lemma back_while_bounded_eq fuel e b :
  wp (back_while_bounded p fuel e) (λ n b', b' = b ∧ 0 ≤ n) b →
  back_while p fuel e b = back_while_bounded p fuel e b.
Proof.
  revert e. induction fuel as [|fuel IH]; intros e; [done|]. simpl.
  destruct (Z.leb_spec 0 e) as [He|He]; [|intros [_ ?]; lia].
  unfold wp, mbind, M_bind. destruct (rd e b) as [[c b']|] eqn:E; [|done]. intros Hw.
  assert (b' = b) as -> by (unfold rd in E; repeat case_match; simplify_eq; done).
  destruct (p c); [|done]. by apply IH.
Qed.
End trim.

Lemma left_trim_space_ok l tl :
  no_nul l → wp util_left_trim_space (λ _ b, ∃ tl', b = ltrim isspace l ++ NUL :: tl') (l ++ NUL :: tl).
Proof.
  intros Hl. unfold util_left_trim_space. apply wp_bind, wp_strlen; [done|].
  destruct (Z.eqb_spec (Z.of_nat (length l)) 0) as [E|E].
  - destruct l; [|simpl in E; lia]. apply wp_ret. by eexists.
  - rewrite Nat2Z.id. by apply left_trim_ok.
Qed.

Lemma no_nul_ltrim p l : no_nul l → no_nul (ltrim p l).
Proof. intros Hl. destruct (ltrim_split p l) as (sp & Hs & _). rewrite Hs in Hl. by apply no_nul_app in Hl as [_ ?]. Qed.
Lemma no_nul_rtrim p l : no_nul l → no_nul (rtrim p l).
Proof. intros Hl. destruct (rtrim_split p l) as (sp & Hs & _). rewrite Hs in Hl. by apply no_nul_app in Hl as [? _]. Qed.

(** Cutting the buffer after the byte where a backward scan stopped. *)
Lemma cut_after p l tl (m : M chars Z) :
  wp m (λ n b, b = rtrim p l ++ drop (length (rtrim p l)) l ++ NUL :: tl ∧ n = Z.of_nat (length (rtrim p l)) - 1) (l ++ NUL :: tl) →
  wp (e ← m; wr (e + 1) NUL) (λ _ b, ∃ tl', b = rtrim p l ++ NUL :: tl') (l ++ NUL :: tl).
Proof.
  intros Hm. apply wp_bind. eapply wp_mono; [exact Hm|]. intros n b [-> ->].
  destruct (drop (length (rtrim p l)) l ++ NUL :: tl) as [|x rest] eqn:E; [by destruct (drop _ l)|].
  apply wp_wr; [lia|]. by eexists.
Qed.

Lemma drop_rtrim p l : Forall (λ c, p c = true) (drop (length (rtrim p l)) l) ∧ l = rtrim p l ++ drop (length (rtrim p l)) l.
Proof.
  destruct (rtrim_split p l) as (sp & Hs & Hsp).
  assert (Hd : drop (length (rtrim p l)) l = sp) by (rewrite Hs at 2; by rewrite drop_app_length).
  by rewrite Hd.
Qed.

(** The backward scan over [l], for both versions of the loop. *)
Lemma back_scan_ok p l tl :
  wp (back_while_bounded p (S (length l)) (Z.of_nat (length l) - 1))
     (λ n b, b = rtrim p l ++ drop (length (rtrim p l)) l ++ NUL :: tl ∧ n = Z.of_nat (length (rtrim p l)) - 1)
     (l ++ NUL :: tl).
Proof.
  destruct (drop_rtrim p l) as [Hsp Hl].
  assert (Hlen : length l = (length (rtrim p l) + length (drop (length (rtrim p l)) l))%nat)
    by (rewrite <- length_app; by rewrite <- Hl).
  assert (Hb : l ++ NUL :: tl = rtrim p l ++ drop (length (rtrim p l)) l ++ NUL :: tl) by (by rewrite app_assoc, <- Hl).
  rewrite Hb. apply back_while_bounded_ok; [done| |lia|lia].
  destruct (last (rtrim p l)) as [c|] eqn:E; [|done]. apply last_Some in E as [u E]. by eapply rtrim_last.
Qed.

Lemma right_trim_space_ok l tl :
  no_nul l → match l with c :: _ => isspace c = false | [] => True end →
  wp util_right_trim_space (λ _ b, ∃ tl', b = rtrim isspace l ++ NUL :: tl') (l ++ NUL :: tl).
Proof.
  intros Hl Hh. unfold util_right_trim_space. apply wp_bind, wp_strlen; [done|].
  destruct (Z.eqb_spec (Z.of_nat (length l)) 0) as [E|E].
  - destruct l; [|simpl in E; lia]. apply wp_ret. by eexists.
  - rewrite Nat2Z.id. apply cut_after. unfold wp. rewrite back_while_bounded_eq.
    + apply back_scan_ok.
    + eapply wp_mono; [apply back_scan_ok|]. intros n b [-> ->]. split.
      * destruct (drop_rtrim isspace l) as [_ Hd]. by rewrite app_assoc, <- Hd.
      * destruct (rtrim isspace l) eqn:Er; [|simpl; lia]. apply rtrim_nil in Er.
        destruct l as [|c l]; [done|]. inversion Er. congruence.
Qed.

Lemma left_trim_quotation_ok l tl :
  no_nul l → wp util_left_trim_quotation (λ _ b, ∃ tl', b = ltrim is_quote l ++ NUL :: tl') (l ++ NUL :: tl).
Proof.
  intros Hl. unfold util_left_trim_quotation. apply wp_bind. destruct l as [|c l].
  - apply (wp_rd [] NUL tl); [done|]. apply wp_ret. by eexists.
  - apply (wp_rd [] c (l ++ NUL :: tl)); [done|]. inversion Hl as [|? ? Hc Hl']; subst. rewrite Hc.
    apply wp_bind. change ([] ++ c :: l ++ NUL :: tl) with ((c :: l) ++ NUL :: tl). apply wp_strlen; [done|].
    rewrite Nat2Z.id. by apply left_trim_ok.
Qed.

Definition trim_space (l : chars) : chars := rtrim isspace (ltrim isspace l).

(** The trimming routines stay inside the buffer and give the string without
    the leading and trailing bytes of their class.  [util_right_trim_space]
    alone would run off the front of a string of spaces; [util_trim_space]
    calls it after the left trim, where it cannot. *)
Theorem trim_correct s :
  nul_free s = true →
  wp util_trim_space (λ _ b, buf_str b = to_str (trim_space (chars_of s))) (cbuf s) ∧
  wp util_trim_quotation
    (λ _ b, buf_str b = to_str (rtrim quote_or_end (ltrim is_quote (chars_of s)))) (cbuf s).
Proof.
  intros Hs%no_nul_chars. unfold cbuf, buf_str. split.
  - unfold util_trim_space. apply wp_bind. eapply wp_mono; [by apply left_trim_space_ok|]. intros [] b [tl ->].
    eapply wp_mono; [apply right_trim_space_ok|].
    + by apply no_nul_ltrim.
    + destruct (ltrim isspace (chars_of s)) eqn:E; [done|]. by eapply ltrim_head.
    + intros [] b [tl' ->]. by rewrite until_nul_app by (by apply no_nul_rtrim, no_nul_ltrim).
  - unfold util_trim_quotation. apply wp_bind. eapply wp_mono; [by apply left_trim_quotation_ok|].
    intros [] b [tl ->]. unfold util_right_trim_quotation.
    assert (Hn : no_nul (ltrim is_quote (chars_of s))) by (by apply no_nul_ltrim).
    apply wp_bind, wp_strlen; [done|].
    destruct (Z.eqb_spec (Z.of_nat (length (ltrim is_quote (chars_of s)))) 0) as [E|E].
    + apply wp_ret. destruct (ltrim is_quote (chars_of s)); [done|simpl in E; lia].
    + rewrite Nat2Z.id. eapply wp_mono; [apply cut_after, back_scan_ok|].
      intros [] b [tl' ->]. by rewrite until_nul_app by (by apply no_nul_rtrim).
Qed.

(** ** Removing duplicates *)
Section unique_proofs.
Context (signed : bool).
Implicit Types (m : map_t unit MAP_STR_BOOL) (g : gmap cstr bool).

Lemma replace_all_ok es m g :
  models signed (type:=MAP_STR_BOOL) m g →
  wp (replace_all signed (λ _, mem_ok) (Some <$> es))
     (λ b m', b = true ∧ ∃ g', models signed (type:=MAP_STR_BOOL) m' g' ∧ dom g' = dom g ∪ list_to_set es) m.
Proof.
  revert m g. induction es as [|x es IH]; intros m g Hm; simpl.
  - apply wp_ret. split; [done|]. exists g. split; [done|]. set_solver.
  - apply wp_bind. eapply wp_mono; [apply (map_replace_models signed (type:=MAP_STR_BOOL) mem_ok m g x true); exact Hm|].
    intros b m' (-> & Hm' & _). simpl in Hm'. eapply wp_mono; [by apply IH|].
    intros b m2 (-> & g' & Hg' & Hd). split; [done|]. exists g'. split; [done|]. rewrite Hd, dom_insert_L. set_solver.
Qed.

Lemma store_keys_ok (ks u : list (option cstr)) :
  store_keys ks (Z.of_nat (length u)) (u ++ null_cells (Z.of_nat (length ks))) = Some (u ++ ks).
Proof.
  revert u. induction ks as [|k ks IH]; intros u; [done|]. cbn [store_keys length].
  rewrite Nat2Z.inj_succ, <- Z.add_1_r, null_cells_S, write_cell_app by lia. simpl.
  replace (Z.of_nat (length u) + 1) with (Z.of_nat (length (u ++ [k]))) by (rewrite length_app; simpl; lia).
  specialize (IH (u ++ [k])). rewrite <- !app_assoc in IH. exact IH.
Qed.

Lemma size_list_to_set_le (l : list cstr) : (size (list_to_set l : gset cstr) ≤ length l)%nat.
Proof.
  induction l as [|x l IH]; simpl; [done|]. rewrite size_union_alt, size_singleton.
  assert (size (list_to_set l ∖ {[x]} : gset cstr) ≤ size (list_to_set l : gset cstr))%nat; [|lia].
  apply subseteq_size. set_solver.
Qed.

(** [util_string_array_unique] returns each element once, in the order of the
    map's comparator, and nothing else. *)
Theorem util_string_array_unique_correct (es : list cstr) :
  es ≠ [] → Z.of_nat (length es) ≤ max_items →
  ∃ u, util_string_array_unique signed true true true (λ _, mem_ok) (Some <$> es) = Some (0, Some (Some <$> u)) ∧
    NoDup u ∧ (∀ x, x ∈ u ↔ x ∈ es) ∧ StronglySorted (λ x y, rbtree_str_cmp signed x y < 0) u.
Proof.
  intros Hne Hl.
  destruct (map_new (P:=unit) (type:=MAP_STR_BOOL) true true true true) as [m|] eqn:Em; [|done].
  assert (Hrun : util_string_array_unique signed true true true (λ _, mem_ok) (Some <$> es) =
    fst <$> unique_elements signed true true (λ _, mem_ok) (Some <$> es) m).
  { unfold util_string_array_unique. rewrite Em. by destruct es. }
  rewrite Hrun. clear Hrun.
  assert (Hw : wp (unique_elements signed true true (λ _, mem_ok) (Some <$> es)) (λ r _, ∃ u, r = (0, Some (Some <$> u)) ∧
    NoDup u ∧ (∀ x, x ∈ u ↔ x ∈ es) ∧ StronglySorted (λ x y, rbtree_str_cmp signed x y < 0) u) m).
  { apply (map_new_models signed) in Em. unfold unique_elements. apply wp_bind.
    eapply wp_mono; [by apply (replace_all_ok es)|]. intros b m1 (-> & g & Hg & Hd0).
    assert (Hd : dom g = list_to_set es) by set_solver. clear Hd0.
    apply wp_bind. eapply wp_mono; [by apply (map_size_models signed)|]. intros n m2 (-> & Hn).
    change (n = u64 (Z.of_nat (size (g : gmap cstr bool)))) in Hn. subst n.
    assert (Hsz : (size g ≤ length es)%nat) by (rewrite <- size_dom, Hd; apply size_list_to_set_le).
    rewrite u64_small by (rewrite max_items_eq in Hl; unfold two64; lia).
    unfold util_smart_calloc_s. change (MAX_MEMORY_SIZE / PTR_SIZE) with max_items.
    rewrite (proj2 (Z.ltb_ge _ _)) by lia. simpl.
    apply wp_bind. eapply wp_mono; [apply (map_pairs_models signed (type:=MAP_STR_BOOL) m1 g Hg)|].
    intros l m3 (-> & e & -> & He & Hs). simpl in e. change (e ≡ₚ map_to_list (g : gmap cstr bool)) in He. rewrite <- list_fmap_compose.
    assert (Hk : Z.of_nat (size g) = Z.of_nat (length (Some <$> e.*1))).
    { rewrite !length_fmap, He. by rewrite length_map_to_list. }
    pose proof (store_keys_ok (Some <$> e.*1) []) as Hst. rewrite <- Hk in Hst. change (Z.of_nat (length [])) with 0 in Hst.
    rewrite !app_nil_l in Hst.
    replace (fst ∘ (λ x : cstr * bool, (Some x.1, Some x.2)) <$> e) with (Some <$> e.*1) by (by rewrite <- list_fmap_compose).
    rewrite Hst. apply wp_ret. exists e.*1. split_and!; [done| | |].
    - rewrite He. apply NoDup_fst_map_to_list.
    - intros x. assert (Hx : x ∈ es ↔ x ∈ dom g) by (rewrite Hd; by rewrite elem_of_list_to_set).
      rewrite Hx, He, elem_of_dom, list_elem_of_fmap. split.
      + intros ([k v] & -> & Hin%elem_of_map_to_list). by eexists.
      + intros [v Hv]. exists (x, v). split; [done|]. by apply elem_of_map_to_list.
    - clear -Hs. induction Hs as [|a e Hs IH Ha]; simpl; constructor; [done|]. by apply Forall_fmap. }
  apply wp_run in Hw as (r & m' & -> & u & -> & Hu). simpl. by exists u.
Qed.
End unique_proofs.

(** ** Instances *)
Lemma split_join_roundtrip_witness :
  ∃ cells n,
    util_string_split_multi true true (λ _, true) (Some "a:b::c"%string) ":" = Some (Some cells) ∧
    util_array_len (Some cells) = Some (Z.of_nat n) ∧
    util_string_join true (Some (String ":" "")) (Some (take n cells)) = Some (Some "a:b::c"%string).
Proof. apply split_join_roundtrip; [reflexivity|reflexivity|vm_compute; congruence]. Defined.

Lemma util_string_array_unique_correct_witness :
  let es := [cstr_of "b"; cstr_of "a"; cstr_of "b"] in
  ∃ u, util_string_array_unique true true true true (λ _, mem_ok) (Some <$> es) = Some (0, Some (Some <$> u)) ∧
    NoDup u ∧ (∀ x, x ∈ u ↔ x ∈ es) ∧ StronglySorted (λ x y, rbtree_str_cmp true x y < 0) u.
Proof. apply (util_string_array_unique_correct true); [discriminate|vm_compute; congruence]. Defined.
