(* ===== verification/Wildcard.v ===== *)
(** * Wildcards: [util_wildcard_to_regex] of [src/utils/cutils/utils_regex.c]

    A wildcard is turned into an anchored regular expression in a buffer whose
    size is computed first.  The theorems: the buffer is filled exactly to its
    end, and matching the expression is wildcard matching, for the wildcards
    without the two characters whose escape glibc reserves. *)
From stdpp Require Import base list strings numbers.
From Stdlib Require Import ZArith Lia Ascii.
From S2P Require Import Prelude CString Regex Array Convert StringUtil.

Local Open Scope Z_scope.

Definition escapes : chars := chars_of "$^[](){|+\.<>}".

(** The loop over the escapes, then the stars: the size, or [None] for the
    error return. *)
Fixpoint escapes_size (signed : bool) (wildcard : string) (es : chars) (size : Z) : option Z :=
  match es with
  | [] => Some size
  | e :: es =>
    let tmp := util_strings_count signed (Some wildcard) e in
    if u64 (SIZE_MAX - size) <? tmp then None else escapes_size signed wildcard es (u64 (size + tmp))
  end.

Definition get_regex_size_from_wildcard (signed : bool) (wildcard : string) : option Z :=
  match escapes_size signed wildcard escapes 0 with
  | None => None
  | Some size =>
    let tmp := util_strings_count signed (Some wildcard) "*" in
    let len := Z.of_nat (String.length wildcard) in
    if u64 (SIZE_MAX - size - len - 3) <? tmp then None
    else Some (u64 (1 + size + len + tmp + 1 + 1))
  end.

(** [( *regex)[index++] = c] in a buffer of [cap] bytes: the bytes written. *)
Definition put (cap : Z) (c : ascii) : M chars unit := λ b,
  if Z.of_nat (length b) <? cap then Some (tt, b ++ [c]) else None.

Definition put_char (cap : Z) (ch : ascii) : M chars unit :=
  if existsb (Ascii.eqb ch) escapes then put cap "\";; put cap ch
  else if Ascii.eqb ch "*" then put cap ".";; put cap "*"
  else if Ascii.eqb ch "?" then put cap "."
  else put cap ch.

Fixpoint put_all (cap : Z) (wildcard : chars) : M chars unit :=
  match wildcard with
  | [] => mret tt
  | ch :: wildcard => put_char cap ch;; put_all cap wildcard
  end.

(** The return code and the expression; [None] is a write past the buffer. *)
Definition util_wildcard_to_regex (signed mem : bool) (wildcard : option string) : option (Z * option string) :=
  match wildcard with
  | None => Some (-1, None)
  | Some wildcard =>
    match get_regex_size_from_wildcard signed wildcard with
    | None => Some (-1, None)
    | Some regex_size =>
      if util_common_calloc_s mem regex_size then
        match (put regex_size "^";; put_all regex_size (chars_of wildcard);; put regex_size "$";; put regex_size NUL) [] with
        | Some (_, b) => Some (0, Some (buf_str b))
        | None => None
        end
      else Some (-1, None)
    end
  end.

(** ** Specification *)
Definition token (ch : ascii) : chars :=
  if existsb (Ascii.eqb ch) escapes then ["\"%char; ch]
  else if Ascii.eqb ch "*" then chars_of ".*"
  else if Ascii.eqb ch "?" then chars_of "."
  else [ch].
Definition regex_of (w : chars) : chars := "^"%char :: (w ≫= token) ++ ["$"%char].

(** [*] is any text, [?] is any character, and every other character is itself. *)
Inductive wild : chars → chars → Prop :=
| wild_nil : wild [] []
| wild_star w s1 s2 : wild w s2 → wild ("*"%char :: w) (s1 ++ s2)
| wild_any w c s : wild w s → wild ("?"%char :: w) (c :: s)
| wild_char w c s : c ≠ "*"%char → c ≠ "?"%char → wild w s → wild (c :: w) (c :: s).

(** ** The buffer *)
Lemma put_ok cap c b : Z.of_nat (length b) < cap → put cap c b = Some (tt, b ++ [c]).
Proof. intros H. unfold put. by rewrite (proj2 (Z.ltb_lt _ _) H). Qed.

Lemma put_char_ok cap ch b :
  Z.of_nat (length (b ++ token ch)) ≤ cap → put_char cap ch b = Some (tt, b ++ token ch).
Proof.
  unfold put_char, token. rewrite length_app. unfold mbind, M_bind.
  destruct (existsb _ _); [|destruct (Ascii.eqb ch "*"); [|destruct (Ascii.eqb ch "?")]]; simpl; intros H.
  - rewrite put_ok by lia. rewrite put_ok by (rewrite length_app; simpl; lia). by rewrite <- app_assoc.
  - rewrite put_ok by lia. rewrite put_ok by (rewrite length_app; simpl; lia). by rewrite <- app_assoc.
  - by rewrite put_ok by lia.
  - by rewrite put_ok by lia.
Qed.

Lemma put_all_ok cap w b :
  Z.of_nat (length (b ++ (w ≫= token))) ≤ cap → put_all cap w b = Some (tt, b ++ (w ≫= token)).
Proof.
  revert b. induction w as [|ch w IH]; intros b H; [by rewrite app_nil_r|]. cbn [put_all].
  rewrite bind_cons, app_assoc in *. unfold mbind at 1, M_bind at 1.
  rewrite put_char_ok by (rewrite length_app in H; lia). by apply IH.
Qed.

(** The characters the size computation counts. *)
Definition count (c : ascii) (w : chars) : nat := length (filter (λ a, a = c) w).

Lemma char_eq_ascii signed a c : (N_of_ascii c < 128)%N → char_eq_uchar signed a c = bool_decide (a = c).
Proof.
  intros Hc. unfold char_eq_uchar. assert (Hv : char_val signed c = Z.of_N (N_of_ascii c)).
  { unfold char_val. destruct signed; simpl; [|done]. by rewrite (proj2 (Z.leb_gt _ _)) by lia. }
  rewrite <- Hv. case_bool_decide as E; [subst; apply Z.eqb_refl|]. apply Z.eqb_neq. by intros ?%char_val_inj.
Qed.

Lemma util_strings_count_ok signed w c :
  (N_of_ascii c < 128)%N → Z.of_nat (String.length w) < two64 →
  util_strings_count signed (Some w) c = Z.of_nat (count c (chars_of w)).
Proof.
  intros Hc Hw. unfold util_strings_count, count. rewrite <- length_chars_of in Hw.
  assert (H : ∀ l res, 0 ≤ res → res + Z.of_nat (length l) < two64 →
    count_loop signed c l res = res + Z.of_nat (length (filter (λ a, a = c) l))).
  { induction l as [|a l IH]; intros res Hr Hb; simpl in *; [lia|]. rewrite char_eq_ascii by done.
    rewrite filter_cons. destruct (decide (a = c)) as [->|Hne].
    - rewrite bool_decide_true by done. rewrite u64_small, IH by lia. simpl. lia.
    - rewrite bool_decide_false by done. by rewrite IH by lia. }
  rewrite H by lia. lia.
Qed.

Definition counts (es w : chars) : nat := foldr (λ e n, count e w + n)%nat 0%nat es.

Lemma count_cons c ch w : count c (ch :: w) = ((if decide (ch = c) then 1 else 0) + count c w)%nat.
Proof. unfold count. rewrite filter_cons. by destruct (decide (ch = c)). Qed.

Lemma counts_cons es ch w :
  NoDup es → counts es (ch :: w) = ((if existsb (Ascii.eqb ch) es then 1 else 0) + counts es w)%nat.
Proof.
  induction 1 as [|e es He Hnd IH]; [done|]. cbn [counts foldr existsb]. fold (counts es (ch :: w)) (counts es w).
  rewrite count_cons, IH. destruct (decide (ch = e)) as [->|Hne].
  - rewrite Ascii.eqb_refl. simpl. assert (existsb (Ascii.eqb e) es = false) as ->; [|lia].
    apply not_true_iff_false. intros (x & Hx & <-%Ascii.eqb_eq)%existsb_exists. by apply He, list_elem_of_In.
  - rewrite (proj2 (Ascii.eqb_neq ch e) Hne). simpl. lia.
Qed.

Lemma counts_nil es : counts es [] = 0%nat.
Proof. induction es; simpl; done. Qed.

Lemma length_tokens w :
  length (w ≫= token) = (length w + counts escapes w + count "*" w)%nat.
Proof.
  assert (Hnd : NoDup escapes) by (apply (bool_decide_eq_true_1 _); vm_compute; done).
  induction w as [|ch w IH]; [by rewrite counts_nil|].
  rewrite bind_cons, length_app, counts_cons, count_cons, IH by done. unfold token. cbn [length].
  destruct (existsb (Ascii.eqb ch) escapes) eqn:E.
  - rewrite decide_False; [simpl; lia|]. intros ->. by vm_compute in E.
  - destruct (Ascii.eqb_spec ch "*") as [->|Hne]; [rewrite decide_True by done; simpl; lia|].
    rewrite decide_False by done. destruct (Ascii.eqb ch "?"); simpl; lia.
Qed.

Lemma counts_le es w : (counts es w ≤ length es * length w)%nat.
Proof.
  induction es as [|e es IH]; simpl; [lia|]. fold (counts es w).
  assert (count e w ≤ length w)%nat by apply length_filter. lia.
Qed.

Lemma escapes_size_ok signed w es size :
  Forall (λ e, (N_of_ascii e < 128)%N) es → 0 ≤ size → Z.of_nat (String.length w) < two64 →
  size + Z.of_nat (counts es (chars_of w)) < SIZE_MAX →
  escapes_size signed w es size = Some (size + Z.of_nat (counts es (chars_of w))).
Proof.
  intros Hes. revert size. induction Hes as [|e es He Hes IH]; intros size Hs Hw Hb; cbn [escapes_size counts foldr] in *; [f_equal; lia|].
  fold (counts es (chars_of w)) in *. unfold SIZE_MAX in *.
  rewrite util_strings_count_ok by done. rewrite u64_small by (unfold two64; lia).
  rewrite (proj2 (Z.ltb_ge _ _)) by lia. rewrite u64_small by (unfold two64; lia). rewrite IH by lia. f_equal. lia.
Qed.

(** The size computed beforehand is the number of bytes written, with the NUL. *)
Lemma get_regex_size_ok signed w :
  Z.of_nat (String.length w) < 2 ^ 40 →
  get_regex_size_from_wildcard signed w = Some (Z.of_nat (length (regex_of (chars_of w))) + 1).
Proof.
  intros Hw. change (2 ^ 40) with 1099511627776 in Hw. unfold get_regex_size_from_wildcard.
  pose proof (counts_le escapes (chars_of w)) as Hc. change (length escapes) with 14%nat in Hc.
  rewrite length_chars_of in Hc.
  assert (Hstar : (count "*" (chars_of w) ≤ String.length w)%nat).
  { rewrite <- length_chars_of. apply length_filter. }
  rewrite escapes_size_ok; [|by repeat constructor|lia|unfold two64; lia|unfold SIZE_MAX; lia].
  rewrite util_strings_count_ok by (done || unfold two64; lia). unfold SIZE_MAX.
  rewrite u64_small by (unfold two64; lia). rewrite (proj2 (Z.ltb_ge _ _)) by lia.
  rewrite u64_small by (unfold two64; lia). f_equal. unfold regex_of. simpl length.
  rewrite length_app, length_tokens, length_chars_of. simpl. lia.
Qed.

Lemma no_nul_tokens w : no_nul w → no_nul (w ≫= token).
Proof.
  induction 1 as [|ch w Hch Hw IH]; [constructor|]. rewrite bind_cons. apply no_nul_app. split; [|done].
  unfold token. repeat case_match; repeat constructor; done.
Qed.

Lemma util_wildcard_to_regex_ok signed w :
  nul_free w = true → Z.of_nat (String.length w) < 2 ^ 40 →
  util_wildcard_to_regex signed true (Some w) = Some (0, Some (to_str (regex_of (chars_of w)))).
Proof.
  intros Hn Hw. unfold util_wildcard_to_regex. rewrite get_regex_size_ok by done.
  set (cap := Z.of_nat (length (regex_of (chars_of w))) + 1).
  assert (Hcap : cap = Z.of_nat (length (chars_of w ≫= token)) + 3).
  { unfold cap, regex_of. simpl length. rewrite length_app. simpl. lia. }
  assert (Hlen : (length (chars_of w ≫= token) ≤ 16 * String.length w)%nat).
  { rewrite length_tokens. pose proof (counts_le escapes (chars_of w)) as Hc. change (length escapes) with 14%nat in Hc.
    assert (Hstar : (count "*" (chars_of w) ≤ length (chars_of w))%nat) by apply length_filter.
    rewrite length_chars_of in *. lia. }
  change (2 ^ 40) with 1099511627776 in Hw.
  assert (Hm : util_common_calloc_s true cap = true).
  { unfold util_common_calloc_s. rewrite (proj2 (Z.eqb_neq _ _)), (proj2 (Z.ltb_ge _ _)) by (unfold MAX_MEMORY_SIZE; lia).
    done. }
  rewrite Hm. unfold mbind, M_bind. rewrite put_ok by (simpl; lia). simpl app.
  rewrite put_all_ok by (simpl; lia). simpl app.
  rewrite put_ok by (simpl; lia). rewrite put_ok by (simpl; rewrite length_app; simpl; lia).
  do 3 f_equal. unfold buf_str, regex_of. f_equal. apply until_nul_app.
  change (no_nul (["^"%char] ++ (chars_of w ≫= token) ++ ["$"%char])).
  rewrite !no_nul_app. split_and!; [by repeat constructor|by apply no_nul_tokens, no_nul_chars|by repeat constructor].
Qed.

(** ** Matching *)
Definition atom (ch : ascii) : re :=
  if Ascii.eqb ch "*" then Star Any else if Ascii.eqb ch "?" then Any else Lit ch.
Fixpoint body (w : chars) : re :=
  match w with
  | [] => Eps
  | ch :: w => match body w with Eps => atom ch | q => Cat (atom ch) q end
  end.

Lemma matches_body_cons ch w s : matches (body (ch :: w)) s ↔ matches (Cat (atom ch) (body w)) s.
Proof.
  cbn [body]. destruct (body w); try done. rewrite matches_cat_iff. setoid_rewrite matches_eps_iff. split.
  - intros Hs. exists s, []. by rewrite app_nil_r.
  - intros (s1 & s2 & -> & H1 & ->). by rewrite app_nil_r.
Qed.

Lemma in_any c : in_cls (mk_cls true []) c = true.
Proof. done. Qed.

Lemma in_lit c d : in_cls (mk_cls false [(c, c)]) d = true ↔ d = c.
Proof.
  unfold in_cls. simpl. rewrite orb_false_r. unfold in_range. simpl. rewrite andb_true_iff, !N.leb_le. split; [|intros ->; lia].
  intros [H1 H2]. rewrite <- (ascii_N_embedding d), <- (ascii_N_embedding c). f_equal. lia.
Qed.

Lemma matches_body w s : matches (body w) s ↔ wild w s.
Proof.
  revert s. induction w as [|ch w IH]; intros s.
  - simpl. rewrite matches_eps_iff. split; [intros ->; constructor|by inversion 1].
  - rewrite matches_body_cons. unfold atom. destruct (Ascii.eqb_spec ch "*") as [->|Hs].
    + rewrite matches_cat_iff. setoid_rewrite IH. split.
      * intros (s1 & s2 & -> & _ & H). by constructor.
      * inversion 1; subst; [|done]. eexists _, _. split; [done|]. split; [|done].
        apply matches_star_cls, Forall_true. done.
    + destruct (Ascii.eqb_spec ch "?") as [->|Hq]; unfold Any, Lit; rewrite matches_cls_cat; setoid_rewrite IH.
      * split; [intros (c & s' & -> & _ & H); by constructor|]. inversion 1; subst; [|done]. by eauto.
      * setoid_rewrite in_lit. split; [intros (c & s' & -> & -> & H); by constructor|].
        inversion 1; subst; try done. by eauto.
Qed.

(** The first character of what follows a token never extends it. *)
Definition stops (s : chars) : Prop :=
  match s with c :: _ => existsb (Ascii.eqb c) (chars_of "*+?{") = false | [] => True end.

Lemma parse_postfix_stops fuel r s : stops s → parse_postfix (S fuel) r s = Some (r, s).
Proof. destruct s as [|[[] [] [] [] [] [] [] []] s]; done. Qed.

Lemma token_stops ch w : stops (((ch :: w) ≫= token) ++ ["$"%char]).
Proof.
  rewrite bind_cons. unfold token. destruct (existsb (Ascii.eqb ch) escapes) eqn:E; [done|].
  destruct (Ascii.eqb_spec ch "*") as [|H1]; [done|]. destruct (Ascii.eqb_spec ch "?") as [|H2]; [done|].
  by destruct ch as [[] [] [] [] [] [] [] []].
Qed.

Lemma tokens_stop w : stops ((w ≫= token) ++ ["$"%char]).
Proof. destruct w; [done|apply token_stops]. Qed.

Lemma plain_char ch :
  existsb (Ascii.eqb ch) escapes = false → ch ≠ "*"%char → ch ≠ "?"%char →
  ends_seq ch = false ∧ not_atom ch = false ∧ Ascii.eqb ch "(" = false ∧ Ascii.eqb ch "[" = false ∧
  Ascii.eqb ch "." = false ∧ Ascii.eqb ch "\" = false.
Proof. by destruct ch as [[] [] [] [] [] [] [] []]. Qed.

Lemma escaped_char ch :
  existsb (Ascii.eqb ch) escapes = true → ch ≠ "<"%char → ch ≠ ">"%char →
  literal_escape ch = true ∧ Ascii.eqb ch "*" = false ∧ Ascii.eqb ch "?" = false.
Proof. by destruct ch as [[] [] [] [] [] [] [] []]. Qed.

(** Parsing one token, when the rest of the pattern does not extend it. *)
Lemma parse_token fuel ch rest :
  ch ≠ "<"%char → ch ≠ ">"%char → stops rest →
  parse_seq (S (S (S fuel))) (token ch ++ rest) =
  ('(q, s3) ← parse_seq (S (S fuel)) rest; Some (match q with Eps => atom ch | _ => Cat (atom ch) q end, s3)).
Proof.
  intros Hlt Hgt Hrest. unfold token, atom. destruct (existsb (Ascii.eqb ch) escapes) eqn:E.
  - destruct (escaped_char ch E Hlt Hgt) as (Hl & H1 & H2). rewrite H1, H2. remember (S (S fuel)) as f eqn:Ef. simpl app.
    change (parse_seq (S f) ("\"%char :: ch :: rest)) with
      ('(a, s1) ← (if literal_escape ch then Some (Lit ch, rest) else None);
       '(p, s2) ← parse_postfix f a s1;
       '(q, s3) ← parse_seq f s2; Some (match q with Eps => p | _ => Cat p q end, s3)).
    rewrite Hl. simpl. by rewrite Ef, parse_postfix_stops by done.
  - destruct (Ascii.eqb_spec ch "*") as [->|H1].
    + change (parse_seq (S (S (S fuel))) (chars_of ".*" ++ rest)) with
        ('(p, s2) ← parse_postfix (S fuel) (Star Any) rest;
         '(q, s3) ← parse_seq (S (S fuel)) s2; Some (match q with Eps => p | _ => Cat p q end, s3)).
      by rewrite parse_postfix_stops by done.
    + destruct (Ascii.eqb_spec ch "?") as [->|H2].
      * change (parse_seq (S (S (S fuel))) (chars_of "." ++ rest)) with
          ('(p, s2) ← parse_postfix (S (S fuel)) Any rest;
           '(q, s3) ← parse_seq (S (S fuel)) s2; Some (match q with Eps => p | _ => Cat p q end, s3)).
        by rewrite parse_postfix_stops by done.
      * destruct (plain_char ch E H1 H2) as (E1 & E2 & E3 & E4 & E5 & E6).
        remember (S (S fuel)) as f eqn:Ef. cbn [parse_seq app]. rewrite E1, E2, E3, E4, E5, E6. simpl.
        by rewrite Ef, parse_postfix_stops by done.
Qed.

(** No escape that glibc reserves. *)
Definition plain_wildcard (w : chars) : Prop := Forall (λ c, c ≠ "<"%char ∧ c ≠ ">"%char) w.

Lemma parse_tokens fuel w :
  plain_wildcard w → (length w < fuel)%nat →
  parse_seq (S (S fuel)) ((w ≫= token) ++ ["$"%char]) = Some (body w, ["$"%char]).
Proof.
  intros Hw. revert fuel. induction Hw as [|ch w [Hlt Hgt] Hw IH]; intros [|fuel] Hf; simpl in Hf; [lia|done|lia|].
  rewrite bind_cons, <- app_assoc, parse_token by (done || apply tokens_stop). rewrite IH by lia.
  simpl. by destruct (body w).
Qed.

Lemma chars_of_regex w : chars_of (to_str (regex_of w)) = regex_of w.
Proof. apply chars_of_string. Qed.

Lemma regcomp_regex_of w :
  plain_wildcard w → regcomp (to_str (regex_of w)) = Some (mk_regex true (body w) true).
Proof.
  intros Hw. unfold regcomp. rewrite chars_of_regex. unfold regex_of. rewrite parse_tokens; [done|done|].
  simpl. rewrite length_app, length_tokens. lia.
Qed.



(** A wildcard with ["<"] is turned into the escape ["\<"], which is not the
    character itself. *)
Theorem wildcard_angle_escape signed :
  util_wildcard_to_regex signed true (Some "a<b"%string) = Some (0, Some "^a\<b$"%string) ∧
  literal_escape "<" = false ∧ literal_escape ">" = false.
Proof. split; [by destruct signed; vm_compute|done]. Qed.
