(* ===== verification/Verify.v ===== *)
(** * Validation of names, modes and rules: [src/utils/cutils/utils_verify.c]

    Every predicate takes its arguments as the code does, [None] for [NULL],
    and uses the patterns of the source text through [util_reg_match].  The
    theorems describe the accepted languages without regular expressions. *)
From stdpp Require Import base gmap list strings numbers.
From Stdlib Require Import ZArith Lia Ascii.
From S2P Require Import Prelude CString Regex Array Convert StringUtil.

Local Open Scope Z_scope.

Definition reg_ok (patten : string) (str : string) : bool := util_reg_match (Some patten) (Some str) =? 0.

Definition MAX_CONTAINER_NAME_LEN : nat := 1024.
Definition MAX_HOST_NAME_LEN : nat := 64.
Definition MAX_IMAGE_NAME_LEN : nat := 255.
Definition MAX_SHA256_IDENTIFIER : nat := 64.
Definition SHA256_PREFIX : string := "sha256:".

Definition has_char (c : ascii) (s : string) : bool := existsb (Ascii.eqb c) (chars_of s).

Definition util_valid_cmd_arg (arg : option string) : bool :=
  match arg with
  | None => false
  | Some arg => negb (has_char "|" arg) && negb (has_char "`" arg) && negb (has_char "&" arg) && negb (has_char ";" arg)
  end.

(** The numbers of [SIGNAL_MAP_DEFAULT], with Linux's values. *)
Definition signames : list Z :=
  [1; 2; 3; 4; 6; 8; 9; 11; 13; 14; 15; 10; 12; 17; 18; 19; 20; 21; 22; 5; 6; 7; 7; 16; 17; 23; 24; 25; 26; 27; 28;
   29; 29; 29; 37; 30; 31; 31; 34; 35; 36; 37; 38; 39; 40; 41; 42; 43; 44; 45; 46; 47; 48; 49;
   50; 51; 52; 53; 54; 55; 56; 57; 58; 59; 60; 61; 62; 63; 64].

Definition util_valid_signal (sig : Z) : bool := existsb (Z.eqb sig) signames.

Definition util_validate_absolute_path (path : option string) : Z :=
  match path with
  | None => -1
  | Some path => if util_reg_match (Some "^(/[^/ ]*)+/?$"%string) (Some path) =? 0 then 0 else -1
  end.

Definition tcp_socket_patten : string :=
  "^(tcp://(((25[0-5]|2[0-4][0-9]|1[0-9][0-9]|[1-9][0-9]|[0-9]).){3}" +:+
  "(25[0-5]|2[0-5][0-9]|1[0-9][0-9]|[1-9][0-9]|[0-9])|localhost):" +:+
  "((6553[0-5])|(655[0-2][0-9])|(65[0-4][0-9]{2})|(6[0-4][0-9]{3})" +:+
  "|([1-5][0-9]{4})|([1-9][0-9]{0,3})|0))$".

Definition util_vaildate_tcp_socket (socket : option string) : bool :=
  match socket with None => false | Some socket => reg_ok tcp_socket_patten socket end.

Definition util_validate_unix_socket (socket : option string) : bool :=
  match socket with
  | None => false
  | Some socket =>
    match skip_loop (chars_of socket) (chars_of "unix://") with
    | None => false
    | Some [] => false
    | Some name => util_validate_absolute_path (Some (to_str name)) =? 0
    end
  end.

(** [remote] is the build option [ENABLE_GRPC_REMOTE_CONNECT]. *)
Definition util_validate_socket (remote : bool) (socket : option string) : bool :=
  util_validate_unix_socket socket || (remote && util_vaildate_tcp_socket socket).

Fixpoint device_mode_loop (mode : chars) (r_count w_count m_count : Z) : bool :=
  match mode with
  | [] => true
  | "r"%char :: mode => if negb (r_count =? 0) then false else device_mode_loop mode (r_count + 1) w_count m_count
  | "w"%char :: mode => if negb (w_count =? 0) then false else device_mode_loop mode r_count (w_count + 1) m_count
  | "m"%char :: mode => if negb (m_count =? 0) then false else device_mode_loop mode r_count w_count (m_count + 1)
  | _ => false
  end.

Definition util_valid_device_mode (mode : option string) : bool :=
  match mode with
  | None => false
  | Some mode => if String.eqb mode "" then false else device_mode_loop (chars_of mode) 0 0 0
  end.

Definition util_valid_str (str : option string) : bool :=
  match str with None => false | Some str => negb (String.eqb str "") end.

Definition util_valid_container_id (id : option string) : bool :=
  match id with None => false | Some id => reg_ok "^[a-f0-9]{1,64}$" id end.

Definition util_valid_container_name (name : option string) : bool :=
  match name with
  | None => false
  | Some name =>
    if (MAX_CONTAINER_NAME_LEN <? String.length name)%nat then false
    else reg_ok "^/?[a-zA-Z0-9][a-zA-Z0-9_.-]+$" name
  end.

Definition util_valid_container_id_or_name (id_or_name : option string) : bool :=
  if util_valid_container_id id_or_name then true else util_valid_container_name id_or_name.

Definition util_valid_runtime_name (name : option string) : bool :=
  match name with None => false | Some _ => true end.

Definition HOST_NAME_REGEXP : string :=
  "^(([a-zA-Z0-9]|[a-zA-Z0-9][a-zA-Z0-9\-]*[a-zA-Z0-9])\.)*" +:+
  "([A-Za-z0-9]|[A-Za-z0-9][A-Za-z0-9\-]*[A-Za-z0-9])$".

Definition util_valid_host_name (name : option string) : bool :=
  match name with
  | None => false
  | Some name => if (MAX_HOST_NAME_LEN <? String.length name)%nat then false else reg_ok HOST_NAME_REGEXP name
  end.

(** [strrchr]: the text before the last occurrence of [c], and the text from it. *)
Fixpoint strrchr (c : ascii) (s : chars) : option (chars * chars) :=
  match s with
  | [] => None
  | a :: s' =>
    match strrchr c s' with
    | Some (before, from) => Some (a :: before, from)
    | None => if Ascii.eqb a c then Some ([], s) else None
    end
  end.

(** [util_tag_pos], as the text before the tag and the tag. *)
Definition util_tag_pos (ref : chars) : option (chars * chars) :=
  match strrchr ":" ref with
  | Some (name, tag) => if existsb (Ascii.eqb "/") tag then None else Some (name, tag)
  | None => None
  end.

Definition TagPattern : string := "^:([A-Za-z_0-9][A-Za-z_0-9.-]{0,127})$".
Definition NamePattern : string :=
  "^(([a-zA-Z0-9]|[a-zA-Z0-9][a-zA-Z0-9-]*[a-zA-Z0-9])" +:+
  "((\.([a-zA-Z0-9]|[a-zA-Z0-9][a-zA-Z0-9-]*[a-zA-Z0-9]))+)?(:[0-9]+)?/)?[a-z0-9]" +:+
  "+((([._]|__|[-]*)[a-z0-9]+)+)?((/[a-z0-9]+((([._]|__|[-]*)[a-z0-9]+)+)?)+)?" +:+
  "(:([A-Za-z_0-9][A-Za-z_0-9.-]{0,127}))?$".
Definition DIGESTPattern : string := "@[a-z0-9]+:[a-z0-9]{32,}".

Definition util_valid_embedded_image_name (name : option string) : bool :=
  match name with
  | None => false
  | Some name =>
    if (MAX_IMAGE_NAME_LEN <? String.length name)%nat then false else
    match util_tag_pos (chars_of name) with
    | None => false
    | Some (copy_name, tag) => reg_ok TagPattern (to_str tag) && reg_ok NamePattern (to_str copy_name)
    end
  end.

Definition util_valid_image_name (name : option string) : bool :=
  match name with
  | None => false
  | Some name =>
    if (MAX_IMAGE_NAME_LEN <? String.length name)%nat then false else
    let copy := chars_of name in
    match strrchr "@" copy with
    | Some (before, digest) => reg_ok DIGESTPattern (to_str digest) && reg_ok NamePattern (to_str before)
    | None =>
      match util_tag_pos copy with
      | Some (before, tag) => reg_ok TagPattern (to_str tag) && reg_ok NamePattern (to_str before)
      | None => reg_ok NamePattern (to_str copy)
      end
    end
  end.

Definition util_valid_time_tz (time : option string) : bool :=
  match time with
  | None => false
  | Some time =>
    reg_ok ("^[0-9]{4}-[0-9]{2}-[0-9]{2}T[0-9]{2}:[0-9]{2}:[0-9]{2}(.[0-9]{1,9})?(Z|[+-][0-9]{2}:[0-9]{2})$") time
  end.

Definition util_valid_digest (digest : option string) : bool :=
  match digest with None => false | Some digest => reg_ok "^sha256:([a-f0-9]{64})$" digest end.

Definition util_valid_tag (tag : option string) : bool :=
  match tag with
  | None => false
  | Some tag =>
    if (String.length SHA256_PREFIX <=? String.length tag)%nat && prefix_by case_eqb (chars_of SHA256_PREFIX) (chars_of tag)
    then false
    else if reg_ok "^[a-f0-9]{64}$" tag then false
    else util_valid_image_name (Some tag)
  end.

(** [util_valid_file]; [st_mode] is the result of [stat], [None] when it fails. *)
Definition S_IFMT : Z := 61440.
Definition util_valid_file (path : option string) (st_mode : option Z) (fmod : Z) : bool :=
  match path, st_mode with
  | Some _, Some m => Z.land m S_IFMT =? fmod
  | _, _ => false
  end.

(** ** Keys and values of mount specifications *)
Definition str_in (s : option string) (l : list string) : bool :=
  match s with None => false | Some s => existsb (String.eqb s) l end.

Definition util_valid_key_type (key : option string) : bool := str_in key ["type"%string].
Definition util_valid_key_src (key : option string) : bool := str_in key ["src"; "source"]%string.
Definition util_valid_key_dst (key : option string) : bool := str_in key ["dst"; "destination"; "target"]%string.
Definition util_valid_key_ro (key : option string) : bool := str_in key ["ro"; "readonly"]%string.
Definition util_valid_key_propagation (key : option string) : bool := str_in key ["bind-propagation"%string].
Definition util_valid_key_selinux (key : option string) : bool := str_in key ["bind-selinux-opts"; "selinux-opts"]%string.
Definition util_valid_key_tmpfs_size (key : option string) : bool := str_in key ["tmpfs-size"%string].
Definition util_valid_key_tmpfs_mode (key : option string) : bool := str_in key ["tmpfs-mode"%string].
Definition util_valid_key_nocopy (key : option string) : bool := str_in key ["volume-nocopy"%string].
Definition util_valid_value_true (value : option string) : bool := str_in value ["1"; "true"]%string.
Definition util_valid_value_false (value : option string) : bool := str_in value ["0"; "false"]%string.
Definition util_valid_bool_string (val : option string) : bool := str_in val ["true"; "false"]%string.
Definition util_valid_rw_mode (mode : option string) : bool := str_in mode ["rw"; "ro"]%string.
Definition util_valid_label_mode (mode : option string) : bool := str_in mode ["z"; "Z"]%string.
Definition util_valid_copy_mode (mode : option string) : bool := str_in mode ["nocopy"%string].
Definition util_valid_propagation_mode (mode : option string) : bool :=
  str_in mode ["private"; "rprivate"; "slave"; "rslave"; "shared"; "rshared"]%string.

(** The counters of [util_valid_mount_mode]; [None] for an unknown mode. *)
Fixpoint mount_mode_loop (modes : list string) (rw pro label copy : Z) : option (Z * Z * Z * Z) :=
  match modes with
  | [] => Some (rw, pro, label, copy)
  | m :: modes =>
    if util_valid_rw_mode (Some m) then mount_mode_loop modes (rw + 1) pro label copy
    else if util_valid_propagation_mode (Some m) then mount_mode_loop modes rw (pro + 1) label copy
    else if util_valid_label_mode (Some m) then mount_mode_loop modes rw pro (label + 1) copy
    else if util_valid_copy_mode (Some m) then mount_mode_loop modes rw pro label (copy + 1)
    else None
  end.

(** [None] is undefined behaviour of the split. *)
Definition util_valid_mount_mode (mem_empty mem_shrink : bool) (mem : nat → bool) (mode : option string) : option bool :=
  modes ← util_string_split mem_empty mem_shrink mem mode ",";
  match modes with
  | None => Some false
  | Some cells =>
    mlen ← util_array_len (Some cells);
    match mount_mode_loop (omap id (take (Z.to_nat mlen) cells)) 0 0 0 0 with
    | None => Some false
    | Some (rw, pro, label, copy) =>
      Some (negb ((1 <? rw) || (1 <? pro) || (1 <? label) || (1 <? copy)))
    end
  end.

Definition util_valid_short_sha256_id (id : option string) : bool :=
  match id with
  | None => false
  | Some id => if (MAX_SHA256_IDENTIFIER <? String.length id)%nat then false else reg_ok "^[a-f0-9]{3,64}$" id
  end.

Definition util_valid_exec_suffix (suffix : option string) : bool :=
  match suffix with None => false | Some suffix => reg_ok "^[a-f0-9]{64}$" suffix end.

Definition util_valid_positive_interger (value : option string) : bool :=
  match value with
  | None => false
  | Some value => if String.eqb value "" then false else reg_ok "^[0-9]*$" value
  end.

Definition util_valid_device_cgroup_rule (value : option string) : bool :=
  match value with
  | None => false
  | Some value => reg_ok "^([acb]) ([0-9]+|\*):([0-9]+|\*) ([rwm]{1,3})$" value
  end.

(** [util_valid_split_env]: the key and the value, or the error return;
    [None] is undefined behaviour of the split. *)
Definition util_valid_split_env (mem_empty : bool) (mem : nat → bool) (env : option string) : option (Z + string * string) :=
  arr ← util_string_split_n mem_empty mem env "=" 2;
  match arr with
  | None => Some (inl (-1))
  | Some cells =>
    match cells with
    | Some key :: rest =>
      if String.eqb key "" then Some (inl (-1)) else
      n ← util_array_len (Some cells);
      Some (inr (key, match rest with Some v :: _ => if 1 <? n then v else ""%string | _ => ""%string end))
    | _ => None
    end
  end.

(** [util_valid_env]: [getenv] is the environment of the process, and [mem_dst]
    tells whether the composed string can be allocated.  The result is the
    return code and the string stored in [dst]. *)
Definition util_valid_env (mem_empty mem_shrink mem_dst : bool) (mem : nat → bool) (getenv : string → option string)
    (env : option string) : option (Z * option string) :=
  arr ← util_string_split_multi mem_empty mem_shrink mem env "=";
  match arr, env with
  | Some cells, Some e =>
    match cells with
    | Some key :: _ =>
      if String.eqb key "" then Some (-1, None) else
      n ← util_array_len (Some cells);
      if 1 <? n then Some (0, env) else
      match getenv e with
      | None => Some (0, None)
      | Some value =>
        let len := u64 (Z.of_nat (String.length e) + 1 + Z.of_nat (String.length value) + 1) in
        if util_common_calloc_s mem_dst len then Some (0, Some (e +:+ "=" +:+ value)) else Some (-1, None)
      end
    | _ => None
    end
  | _, _ => Some (-1, None)
  end.

Definition sysctl_full_keys : list string :=
  ["kernel.msgmax"; "kernel.msgmnb"; "kernel.msgmni"; "kernel.sem";
   "kernel.shmall"; "kernel.shmmax"; "kernel.shmmni"; "kernel.shm_rmid_forced"]%string.
Definition sysctl_key_prefixes : list string := ["net."; "fs.mqueue."]%string.

Definition util_valid_sysctl (sysctl_key : option string) : bool :=
  match sysctl_key with
  | None => false
  | Some key =>
    existsb (λ k, String.eqb k key) sysctl_full_keys ||
    existsb (λ p, prefix_by Ascii.eqb (chars_of p) (chars_of key)) sysctl_key_prefixes
  end.

Definition util_valid_volume_name (name : option string) : bool :=
  match name with None => false | Some name => reg_ok "^[a-zA-Z0-9][a-zA-Z0-9_.-]{1,63}$" name end.

Definition util_valid_isulad_tmpdir (dir : option string) : bool :=
  match dir with None => false | Some d => util_valid_str dir && negb (String.eqb d "/tmp") end.

Definition util_valid_search_name (name : option string) : bool :=
  match name with
  | None => false
  | Some n =>
    if String.eqb n "" then false
    else negb (util_strings_contains_word name (Some "://"%string))
  end.

(** ** The accepted languages *)
Definition between_b (lo hi : Z) (c : ascii) : Prop := lo ≤ byte c ≤ hi.
Definition hex_lower (c : ascii) : Prop := between_b 97 102 c ∨ between_b 48 57 c.
Definition alnum (c : ascii) : Prop := between_b 97 122 c ∨ between_b 65 90 c ∨ between_b 48 57 c.
(** Letters, digits, underscore, dot and hyphen. *)
Definition name_char (c : ascii) : Prop := alnum c ∨ c = "_"%char ∨ c = "."%char ∨ c = "-"%char.

Lemma in_range_iff c lo hi : in_range c (lo, hi) = true ↔ byte lo ≤ byte c ≤ byte hi.
Proof. unfold in_range, byte. simpl. rewrite andb_true_iff, !N.leb_le. lia. Qed.

Lemma in_range_eq c d : in_range c (d, d) = true ↔ c = d.
Proof.
  rewrite in_range_iff. split; [|intros ->; lia]. unfold byte. intros H.
  rewrite <- (ascii_N_embedding c), <- (ascii_N_embedding d). f_equal. lia.
Qed.

Lemma in_cls_iff items c : in_cls (mk_cls false items) c = true ↔ Exists (λ r, in_range c r = true) items.
Proof. unfold in_cls. simpl. by rewrite existsb_exists, List.Exists_exists. Qed.

Definition hex_cls : cls := mk_cls false [("a", "f"); ("0", "9")]%char.
Definition alnum_cls : cls := mk_cls false [("a", "z"); ("A", "Z"); ("0", "9")]%char.
Definition name_cls : cls := mk_cls false [("a", "z"); ("A", "Z"); ("0", "9"); ("_", "_"); (".", "."); ("-", "-")]%char.

Lemma hex_cls_iff c : in_cls hex_cls c = true ↔ hex_lower c.
Proof.
  unfold hex_cls. rewrite in_cls_iff, !Exists_cons, Exists_nil, !in_range_iff. unfold hex_lower, between_b.
  change (byte "a") with 97. change (byte "f") with 102. change (byte "0") with 48. change (byte "9") with 57. tauto.
Qed.
Lemma alnum_cls_iff c : in_cls alnum_cls c = true ↔ alnum c.
Proof.
  unfold alnum_cls. rewrite in_cls_iff, !Exists_cons, Exists_nil, !in_range_iff. unfold alnum, between_b.
  change (byte "a") with 97. change (byte "z") with 122. change (byte "A") with 65. change (byte "Z") with 90.
  change (byte "0") with 48. change (byte "9") with 57. tauto.
Qed.
Lemma name_cls_iff c : in_cls name_cls c = true ↔ name_char c.
Proof.
  unfold name_cls, name_char. rewrite <- alnum_cls_iff. unfold alnum_cls. rewrite !in_cls_iff, !Exists_cons, Exists_nil.
  rewrite (in_range_eq c "_"), (in_range_eq c "."), (in_range_eq c "-"). tauto.
Qed.

Lemma rx_re_anchored r : rx_re (mk_regex true r true) = r.
Proof. done. Qed.

Lemma reg_ok_iff patten rx s : regcomp patten = Some rx → reg_ok patten s = true ↔ matches (rx_re rx) (chars_of s).
Proof.
  intros Hp. unfold reg_ok, util_reg_match. rewrite Hp, <- regexec_ok. by destruct (regexec rx s).
Qed.

Lemma Forall_cls k (P : ascii → Prop) s :
  (∀ c, in_cls k c = true ↔ P c) → Forall (λ c, in_cls k c = true) s ↔ Forall P s.
Proof. intros Hk. apply Forall_iff. done. Qed.

Lemma container_id_iff id :
  util_valid_container_id (Some id) = true ↔ (1 ≤ String.length id ≤ 64)%nat ∧ Forall hex_lower (chars_of id).
Proof.
  unfold util_valid_container_id. rewrite (reg_ok_iff _ (mk_regex true (Rep 1 (Some 64%nat) (Cls hex_cls)) true)) by done.
  rewrite rx_re_anchored, matches_rep_cls by lia. rewrite length_chars_of.
  by rewrite (Forall_cls _ _ _ hex_cls_iff).
Qed.

(** A container id is 1 to 64 lower-case hexadecimal digits. *)
Theorem util_valid_container_id_iff id :
  util_valid_container_id (Some id) = true ↔ (1 ≤ String.length id ≤ 64)%nat ∧ Forall hex_lower (chars_of id).
Proof. apply container_id_iff. Qed.

(** The characters of a container name after an optional slash. *)
Definition name_body (s : chars) : Prop :=
  ∃ c rest, s = c :: rest ∧ alnum c ∧ rest ≠ [] ∧ Forall name_char rest.

(** A container name is an optional slash, a letter or digit, and at least one
    more name character, at most 1024 bytes in all. *)
Theorem util_valid_container_name_iff name :
  util_valid_container_name (Some name) = true ↔
  (String.length name ≤ 1024)%nat ∧
  (name_body (chars_of name) ∨ ∃ s, chars_of name = "/"%char :: s ∧ name_body s).
Proof.
  unfold util_valid_container_name. destruct (Nat.ltb_spec MAX_CONTAINER_NAME_LEN (String.length name)) as [Hl|Hl].
  { split; [done|]. intros [Hn _]. unfold MAX_CONTAINER_NAME_LEN in Hl. lia. }
  rewrite (reg_ok_iff _ (mk_regex true (Cat (Opt (Lit "/")) (Cat (Cls alnum_cls) (Plus (Cls name_cls)))) true)) by done.
  rewrite rx_re_anchored.
  assert (Hb : ∀ s, matches (Cat (Cls alnum_cls) (Plus (Cls name_cls))) s ↔ name_body s).
  { intros s. rewrite matches_cls_cat. unfold name_body. split.
    - intros (c & r & -> & Hc%alnum_cls_iff & [Hr Hf]%matches_plus_cls). exists c, r.
      by rewrite (Forall_cls _ _ _ name_cls_iff) in Hf.
    - intros (c & r & -> & Hc & Hr & Hf). exists c, r. rewrite alnum_cls_iff, matches_plus_cls.
      by rewrite (Forall_cls _ _ _ name_cls_iff). }
  rewrite matches_cat_iff. setoid_rewrite Hb. unfold Opt, Lit. setoid_rewrite matches_alt_iff.
  setoid_rewrite matches_eps_iff. setoid_rewrite matches_cls_iff. split.
  - intros (s1 & s2 & E & [->|(c & -> & Hc)] & H2); (split; [done|]).
    + left. by rewrite E.
    + right. exists s2. rewrite in_cls_iff, Exists_cons, Exists_nil, in_range_eq in Hc. destruct Hc as [->|[]]. done.
  - intros [_ [H|(s & E & H)]].
    + exists [], (chars_of name). auto.
    + exists ["/"%char], s. split; [done|]. split; [right; by eexists|done].
Qed.

(** ** Device modes *)
Lemma device_mode_step c l r w m :
  device_mode_loop (c :: l) r w m =
  if Ascii.eqb c "r" then (if negb (r =? 0) then false else device_mode_loop l (r + 1) w m)
  else if Ascii.eqb c "w" then (if negb (w =? 0) then false else device_mode_loop l r (w + 1) m)
  else if Ascii.eqb c "m" then (if negb (m =? 0) then false else device_mode_loop l r w (m + 1))
  else false.
Proof. by destruct c as [[] [] [] [] [] [] [] []]. Qed.

Definition mode_char (c : ascii) : Prop := c = "r"%char ∨ c = "w"%char ∨ c = "m"%char.

Lemma device_mode_loop_iff l r w m :
  0 ≤ r → 0 ≤ w → 0 ≤ m →
  device_mode_loop l r w m = true ↔
  Forall mode_char l ∧ NoDup l ∧ (r = 0 ∨ "r"%char ∉ l) ∧ (w = 0 ∨ "w"%char ∉ l) ∧ (m = 0 ∨ "m"%char ∉ l).
Proof.
  revert r w m. induction l as [|c l IH]; intros r w m Hr Hw Hm.
  - split; [|done]. intros _. split_and!; [constructor|constructor|..]; right; apply not_elem_of_nil.
  - rewrite device_mode_step, list.Forall_cons, list.NoDup_cons, !not_elem_of_cons. unfold mode_char at 1.
    destruct (Ascii.eqb_spec c "r") as [->|]; [|destruct (Ascii.eqb_spec c "w") as [->|]; [|destruct (Ascii.eqb_spec c "m") as [->|]]].
    + destruct (Z.eqb_spec r 0) as [->|]; simpl; [rewrite IH by lia|]; intuition (done || lia).
    + destruct (Z.eqb_spec w 0) as [->|]; simpl; [rewrite IH by lia|]; intuition (done || lia).
    + destruct (Z.eqb_spec m 0) as [->|]; simpl; [rewrite IH by lia|]; intuition (done || lia).
    + intuition done.
Qed.

(** A device mode is a non-empty sequence of [r], [w] and [m], each at most
    once, in any order. *)
Theorem util_valid_device_mode_iff mode :
  util_valid_device_mode (Some mode) = true ↔
  mode ≠ ""%string ∧ Forall mode_char (chars_of mode) ∧ NoDup (chars_of mode).
Proof.
  unfold util_valid_device_mode. destruct (String.eqb_spec mode "") as [->|Hne]; [naive_solver|].
  rewrite device_mode_loop_iff by lia. tauto.
Qed.

(** ** Mount modes *)
Inductive mode_class := RwMode | PropagationMode | LabelMode | CopyMode.

#[global] Instance mode_class_eq_dec : EqDecision mode_class.
Proof. solve_decision. Defined.

Definition mode_of (m : string) : option mode_class :=
  if util_valid_rw_mode (Some m) then Some RwMode
  else if util_valid_propagation_mode (Some m) then Some PropagationMode
  else if util_valid_label_mode (Some m) then Some LabelMode
  else if util_valid_copy_mode (Some m) then Some CopyMode
  else None.

Definition class_count (k : mode_class) (l : list string) : Z :=
  Z.of_nat (length (filter (λ m, mode_of m = Some k) l)).

Lemma class_count_cons k m l :
  class_count k (m :: l) = (if decide (mode_of m = Some k) then 1 else 0) + class_count k l.
Proof. unfold class_count. rewrite filter_cons. destruct (decide (mode_of m = Some k)); simpl; lia. Qed.

Lemma mount_mode_step m l rw pro label copy :
  mount_mode_loop (m :: l) rw pro label copy =
  match mode_of m with
  | Some RwMode => mount_mode_loop l (rw + 1) pro label copy
  | Some PropagationMode => mount_mode_loop l rw (pro + 1) label copy
  | Some LabelMode => mount_mode_loop l rw pro (label + 1) copy
  | Some CopyMode => mount_mode_loop l rw pro label (copy + 1)
  | None => None
  end.
Proof. cbn [mount_mode_loop]. unfold mode_of. by repeat case_match. Qed.

Lemma mount_mode_loop_ok l rw pro label copy :
  mount_mode_loop l rw pro label copy =
  if decide (Forall (λ m, is_Some (mode_of m)) l)
  then Some (rw + class_count RwMode l, pro + class_count PropagationMode l,
             label + class_count LabelMode l, copy + class_count CopyMode l)
  else None.
Proof.
  revert rw pro label copy. induction l as [|m l IH]; intros rw pro label copy.
  - rewrite decide_True by constructor. unfold class_count. rewrite !filter_nil. simpl. by rewrite !Z.add_0_r.
  - rewrite mount_mode_step, !class_count_cons.
    destruct (mode_of m) as [[]|] eqn:E.
    5: { rewrite decide_False; [done|]. intros [[k Hk] _]%list.Forall_cons. congruence. }
    all: rewrite IH; destruct (decide (Forall _ l)) as [Hl|Hl];
      [rewrite (decide_True (P:=Forall _ (m :: l))) by (apply list.Forall_cons; split; [by rewrite E|done]);
       repeat match goal with |- context [decide (Some ?a = Some ?b)] =>
         destruct (decide (Some a = Some b)); try congruence end;
       by rewrite ?Z.add_0_l, ?Z.add_assoc
      |rewrite (decide_False (P:=Forall _ (m :: l))) by (by intros [_ ?]%list.Forall_cons); done].
Qed.

Lemma omap_strings (l : list string) : omap id (Some <$> l) = l.
Proof. induction l as [|x l IH]; [done|]. cbn. by f_equal. Qed.

(** A mount mode is a comma-separated list of known modes in which no class
    (read-write, propagation, label, copy) is given twice.  Empty fields are
    skipped, but a mode without any field is refused. *)
Theorem util_valid_mount_mode_iff mode :
  Z.of_nat (String.length mode) + 32 ≤ max_items →
  let l := to_str <$> filter nonempty (fields "," (chars_of mode)) in
  util_valid_mount_mode true true (λ _, true) (Some mode) = Some true ↔
  l ≠ [] ∧ Forall (λ m, is_Some (mode_of m)) l ∧ ∀ k, class_count k l ≤ 1.
Proof.
  intros Hs l. unfold util_valid_mount_mode. rewrite (util_string_split_ok mode "," Hs). simpl mbind.
  assert (Hl : l = to_str <$> filter nonempty (fields "," (chars_of mode))) by done.
  destruct (filter nonempty _) as [|f fs]; [subst l; split; [done|]; by intros []|].
  assert (Hne : l ≠ []) by (by subst l).
  rewrite list_fmap_compose, <- Hl. clear Hl. clearbody l. unfold util_array_len. rewrite cells_len_app. simpl mbind.
  rewrite Nat2Z.id, take_app_length', omap_strings by (by rewrite length_fmap).
  rewrite mount_mode_loop_ok. destruct (decide _) as [Hf|Hf]; [|split; [done|]; by intros (_ & ? & _)].
  rewrite !Z.add_0_l. split.
  - intros [= Hn]. apply negb_true_iff in Hn. rewrite !orb_false_iff, !Z.ltb_ge in Hn.
    destruct Hn as [[[? ?] ?] ?]. split_and!; [done|done|]. by intros [].
  - intros (_ & _ & Hk). f_equal. apply negb_true_iff. rewrite !orb_false_iff, !Z.ltb_ge. auto.
Qed.

Lemma util_valid_mount_mode_iff_witness :
  let l := to_str <$> filter nonempty (fields "," (chars_of "ro,z")) in
  util_valid_mount_mode true true (λ _, true) (Some "ro,z"%string) = Some true ↔
  l ≠ [] ∧ Forall (λ m, is_Some (mode_of m)) l ∧ ∀ k, class_count k l ≤ 1.
Proof. apply util_valid_mount_mode_iff. vm_compute. congruence. Defined.
