(* ===== verification/Path.v ===== *)
(** * Lexical paths

    [util_clean_path] and the helpers on path strings of
    [src/utils/cutils/path.c].  The routine builds the cleaned path in the
    caller's buffer through the pointer [dest]; the model keeps the buffer and
    the offset of [dest] and fails on an access outside the buffer.  The
    reference is a stack of components. *)
From stdpp Require Import base list strings numbers.
From Stdlib Require Import ZArith Lia Ascii.
From S2P Require Import Prelude CString Regex Convert StringUtil.

Definition PATH_MAX : nat := N.to_nat 4096.

Definition slash : ascii := "/".
Definition ISSLASH (c : ascii) : bool := Ascii.eqb c slash.

(** The buffer and the offset of [dest] in it. *)
Record pbuf := mk_pbuf { pb : chars; pd : nat }.

Section operations.
Let PM := M pbuf.

(** [dest[-1]] *)
Definition last_char : PM ascii := λ s,
  match pd s with
  | O => None
  | S d => match pb s !! d with Some c => Some (c, s) | None => None end
  end.

(** [*dest++ = c] *)
Definition push (c : ascii) : PM unit := λ s,
  if decide (pd s < length (pb s)) then Some (tt, mk_pbuf (<[pd s := c]> (pb s)) (S (pd s))) else None.

(** [*dest = '\0'] *)
Definition terminate : PM unit := λ s,
  if decide (pd s < length (pb s)) then Some (tt, mk_pbuf (<[pd s := NUL]> (pb s)) (pd s)) else None.

(** [memcpy(dest, comp, len)] and [dest += len] *)
Fixpoint push_all (comp : chars) : PM unit :=
  match comp with [] => mret tt | c :: comp => push c;; push_all comp end.

(** [for (; dest > respath && !ISSLASH(dest[-1]); --dest)] *)
Fixpoint back_to_slash (b : chars) (dest : nat) : option nat :=
  match dest with
  | O => Some 0
  | S d => match b !! d with
           | Some c => if ISSLASH c then Some dest else back_to_slash b d
           | None => None
           end
  end.

(** [--dest] and the loop above. *)
Definition drop_last : PM unit := λ s,
  match back_to_slash (pb s) (pred (pd s)) with
  | Some d => Some (tt, mk_pbuf (pb s) d)
  | None => None
  end.

Fixpoint skip_slashes (s : chars) : chars :=
  match s with [] => [] | c :: s' => if ISSLASH c then skip_slashes s' else s end.

(** The component that starts at [s], and the text from [endpos] on. *)
Fixpoint split_comp (s : chars) : chars * chars :=
  match s with
  | [] => ([], [])
  | c :: s' => if ISSLASH c then ([], s) else let '(comp, rest) := split_comp s' in (c :: comp, rest)
  end.

Definition dot : chars := ["."%char].
Definition dotdot : chars := ["."%char; "."%char].

Definition do_clean_path_continue (comp : chars) : PM bool :=
  if decide (comp = dot) then mret true
  else if decide (comp = dotdot) then
    s ← get;
    (if decide (pd s ≤ 1) then mret tt else drop_last);;
    mret true
  else mret false.

Definition push_slash_if_needed : PM unit :=
  c ← last_char;
  if ISSLASH c then mret tt else push slash.

(** The loop of [do_clean_path]; on failure the string in the buffer is cut. *)
Fixpoint do_clean_path (fuel : nat) (limit : nat) (stpos : chars) : PM Z :=
  match fuel with
  | O => fail
  | S fuel =>
    match stpos with
    | [] => mret 0%Z
    | _ :: _ =>
      let '(comp, rest) := split_comp (skip_slashes stpos) in
      if decide (comp = []) then mret 0%Z else
      continue ← do_clean_path_continue comp;
      if (continue : bool) then do_clean_path fuel limit rest else
      push_slash_if_needed;;
      s ← get;
      if decide (limit ≤ pd s + length comp) then
        (if decide (1 < pd s) then modify (λ s, mk_pbuf (pb s) (pred (pd s))) else mret tt);;
        terminate;;
        mret (-1)%Z
      else
        push_all comp;;
        terminate;;
        do_clean_path fuel limit rest
    end
  end.

(** The end of [util_clean_path]: the final slash goes, unless it is the root. *)
Definition strip_slash (floor : nat) : PM unit :=
  s ← get;
  if decide (floor < pd s) then
    c ← last_char;
    if ISSLASH c then modify (λ s, mk_pbuf (pb s) (pred (pd s))) else mret tt
  else mret tt.
End operations.

(** [cwd] is the result of [getcwd]; [realpath_len] the size of the caller's
    buffer.  [None] is undefined behaviour, [Some None] the result [NULL]. *)
Definition util_clean_path (cwd path : option string) (realpath_len : nat) : option (option string) :=
  match path with
  | None => Some None
  | Some path =>
    let p := chars_of path in
    if decide (p = []) then Some None else
    if decide (realpath_len < PATH_MAX) then Some None else
    let zero := replicate realpath_len NUL in
    let start :=
      match p with
      | c :: _ =>
        if ISSLASH c then Some (mk_pbuf (<[0 := slash]> zero) 1)
        else
          match cwd with
          | None => None
          | Some cwd =>
            let d := chars_of cwd in
            if decide (PATH_MAX - 1 - length d ≤ length p) then None
            else Some (mk_pbuf (d ++ p ++ replicate (realpath_len - length d - length p) NUL) (length d))
          end
      | [] => None
      end in
    match start with
    | None => Some None
    | Some s =>
      match (ret ← do_clean_path (S (length p)) PATH_MAX p;
             if decide (ret = 0%Z) then strip_slash 1;; terminate;; mret true else mret false) s with
      | Some (true, s) => Some (Some (buf_str (pb s)))
      | Some (false, _) => Some None
      | None => None
      end
    end
  end.

(** ** The reference: a stack of components *)

(** The components of a path: the text between slashes. *)
Definition comps (p : chars) : list chars := filter nonempty (fields slash p).

Definition comp_step (st : list chars) (c : chars) : list chars :=
  if decide (c = dot) then st
  else if decide (c = dotdot) then take (pred (length st)) st
  else st ++ [c].

Definition normalise (st : list chars) (p : chars) : list chars := foldl comp_step st (comps p).

(** The absolute path with the given components. *)
Definition render (st : list chars) : chars := slash :: intercalate [slash] st.

(** A component that stands for itself. *)
Record comp_ok (c : chars) : Prop := {
  co_ne : c ≠ [];
  co_slash : Forall (λ a, ISSLASH a = false) c;
  co_nul : no_nul c;
  co_dot : c ≠ dot;
  co_dotdot : c ≠ dotdot
}.

(** ** The contents of the buffer *)

(** The components, each followed by a slash. *)
Definition dirs (st : list chars) : chars := st ≫= λ c, c ++ [slash].

Definition content (s : pbuf) : chars := take (pd s) (pb s).

(** What the buffer holds while the stack is [st]: the text [prefix], a slash
    and the components, with or without a slash at the end. *)
Definition shows (prefix : chars) (st : list chars) (d : chars) : Prop :=
  d = prefix ++ slash :: dirs st ∨ ∃ st' c, st = st' ++ [c] ∧ d = prefix ++ slash :: dirs st' ++ c.

Lemma dirs_snoc st c : dirs (st ++ [c]) = dirs st ++ c ++ [slash].
Proof. unfold dirs. rewrite bind_app. simpl. by rewrite app_nil_r. Qed.

Lemma intercalate_snoc st c : intercalate [slash] (st ++ [c]) = dirs st ++ c.
Proof.
  induction st as [|a st IH]; [done|]. destruct st as [|b st]; [unfold dirs; simpl; by rewrite app_nil_r, <- app_assoc|].
  change (intercalate [slash] ((a :: b :: st) ++ [c])) with (a ++ [slash] ++ intercalate [slash] ((b :: st) ++ [c])).
  rewrite IH. unfold dirs. simpl. by rewrite <- !app_assoc.
Qed.

Lemma back_to_slash_skip u v w :
  Forall (λ a, ISSLASH a = false) v →
  back_to_slash (u ++ slash :: v ++ w) (S (length u + length v)) = Some (S (length u)).
Proof.
  revert w. induction v as [|a v IH] using rev_ind; intros w Hv.
  - rewrite Nat.add_0_r. simpl. by rewrite (list_lookup_middle u w slash).
  - rewrite length_app, Nat.add_comm. simpl length. replace (S (length v + 1 + length u)) with (S (S (length u + length v))) by lia.
    apply Forall_app in Hv as [Hv Ha]. apply list.Forall_cons in Ha as [Ha _].
    assert (E : (u ++ slash :: (v ++ [a]) ++ w) !! S (length u + length v) = Some a).
    { replace (u ++ slash :: (v ++ [a]) ++ w) with ((u ++ slash :: v) ++ a :: w) by (by rewrite <- !app_assoc).
      apply (list_lookup_middle _ _ a). rewrite length_app. simpl. lia. }
    cbn [back_to_slash]. rewrite E, Ha. rewrite <- app_assoc. apply IH. done.
Qed.

Section buffer.
Implicit Types (s : pbuf) (prefix d : chars) (st : list chars).

Lemma content_split s : pd s ≤ length (pb s) → pb s = content s ++ drop (pd s) (pb s) ∧ length (content s) = pd s.
Proof. intros Hd. unfold content. rewrite take_drop, length_take_le by done. done. Qed.

Lemma wp_push c s (Q : unit → pbuf → Prop) :
  pd s < length (pb s) →
  (∀ s', content s' = content s ++ [c] → pd s' = S (pd s) → length (pb s') = length (pb s) → Q tt s') →
  wp (push c) Q s.
Proof.
  intros Hd HQ. unfold wp, push. rewrite decide_True by done. apply HQ; simpl; [|done|by rewrite length_insert].
  unfold content. simpl. rewrite (take_S_r _ _ c) by (by apply list_lookup_insert_eq). by rewrite take_insert_ge by lia.
Qed.

Lemma wp_push_all cs : ∀ s (Q : unit → pbuf → Prop),
  pd s + length cs ≤ length (pb s) →
  (∀ s', content s' = content s ++ cs → pd s' = pd s + length cs → length (pb s') = length (pb s) → Q tt s') →
  wp (push_all cs) Q s.
Proof.
  induction cs as [|c cs IH]; intros s Q Hl HQ; simpl in *.
  - apply wp_ret, HQ; [by rewrite app_nil_r|lia|done].
  - apply wp_bind, wp_push; [lia|]. intros s1 E1 D1 L1. apply IH; [lia|]. intros s2 E2 D2 L2.
    apply HQ; [by rewrite E2, E1, <- app_assoc|lia|lia].
Qed.

Lemma wp_terminate s (Q : unit → pbuf → Prop) :
  pd s < length (pb s) →
  (∀ s', content s' = content s → pd s' = pd s → length (pb s') = length (pb s) → pb s' !! pd s = Some NUL → Q tt s') →
  wp terminate Q s.
Proof.
  intros Hd HQ. unfold wp, terminate. rewrite decide_True by done. apply HQ; simpl; [|done|by rewrite length_insert|].
  - unfold content. simpl. by rewrite take_insert_ge by lia.
  - by apply list_lookup_insert_eq.
Qed.

Lemma wp_last_char s (Q : ascii → pbuf → Prop) d c :
  pd s ≤ length (pb s) → content s = d ++ [c] → Q c s → wp last_char Q s.
Proof.
  intros Hd Hc HQ. unfold wp, last_char. destruct (content_split s Hd) as [E L]. rewrite Hc, length_app in L. simpl in L.
  assert (Hn : pb s !! length d = Some c) by (rewrite E, Hc, <- app_assoc; by apply list_lookup_middle).
  replace (pd s) with (S (length d)) by lia. by rewrite Hn.
Qed.

Lemma wp_drop_last s (Q : unit → pbuf → Prop) u v a :
  pd s ≤ length (pb s) → content s = u ++ slash :: v ++ [a] → Forall (λ a, ISSLASH a = false) v →
  (∀ s', content s' = u ++ [slash] → pd s' = S (length u) → pb s' = pb s → Q tt s') → wp drop_last Q s.
Proof.
  intros Hd Hc Hv HQ. destruct (content_split s Hd) as [E L]. unfold wp, drop_last.
  rewrite Hc, !length_app in L. simpl in L. rewrite length_app in L. simpl in L.
  replace (pred (pd s)) with (S (length u + length v)) by lia.
  assert (Hb : pb s = u ++ slash :: v ++ a :: drop (pd s) (pb s)).
  { rewrite E at 1. rewrite Hc. rewrite <- app_assoc. simpl. by rewrite <- app_assoc. }
  assert (Hk : back_to_slash (pb s) (S (length u + length v)) = Some (S (length u)))
    by (rewrite Hb; by apply back_to_slash_skip).
  rewrite Hk. apply HQ; [|done|done]. unfold content. simpl pb. simpl pd. rewrite Hb. rewrite cons_middle, app_assoc, take_app_length'; [done|]. rewrite length_app. simpl. lia.
Qed.
End buffer.

(** ** Reading components *)
Lemma fields_comp c r :
  Forall (λ a, ISSLASH a = false) c → fields slash (c ++ slash :: r) = c :: fields slash r ∧ fields slash c = [c].
Proof.
  induction c as [|a c IH]; intros Hc; [done|]. apply list.Forall_cons in Hc as [Ha Hc]. destruct (IH Hc) as [E1 E2].
  change (Ascii.eqb a slash = false) in Ha. cbn [fields app]. by rewrite Ha, E1, E2.
Qed.

Lemma comps_slash p : comps (slash :: p) = comps p.
Proof. unfold comps. cbn [fields]. simpl. by rewrite filter_cons_False by (by unfold nonempty; auto). Qed.

Lemma comps_skip p : comps (skip_slashes p) = comps p.
Proof.
  induction p as [|c p IH]; [done|]. simpl. destruct (ISSLASH c) eqn:E; [|done].
  apply Ascii.eqb_eq in E as ->. by rewrite comps_slash.
Qed.

Lemma skip_no_slash p r : skip_slashes p ≠ slash :: r.
Proof.
  induction p as [|a p IH]; simpl; [done|]. destruct (ISSLASH a) eqn:E; [exact IH|]. intros [= -> _]. discriminate.
Qed.

Lemma skip_slashes_suffix p : ∃ pre, p = pre ++ skip_slashes p.
Proof.
  induction p as [|a p [pre IH]]; [by exists []|]. simpl. destruct (ISSLASH a); [|by exists []].
  exists (a :: pre). simpl. by f_equal.
Qed.

(** One round of the loop reads the next component. *)
Lemma next_comp p c rest :
  split_comp (skip_slashes p) = (c, rest) →
  skip_slashes p = c ++ rest ∧ Forall (λ a, ISSLASH a = false) c ∧
  comps p = (if decide (c = []) then [] else c :: comps rest) ∧
  length (skip_slashes rest) ≤ pred (length rest) ∧ (c = [] → rest = []).
Proof.
  assert (Hs : ∀ s c rest, split_comp s = (c, rest) → s = c ++ rest ∧ Forall (λ a, ISSLASH a = false) c ∧
    (rest = [] ∨ ∃ r, rest = slash :: r)).
  { intros s. induction s as [|a s IH]; intros c0 r0; simpl; [intros [= <- <-]; auto|].
    destruct (ISSLASH a) eqn:E.
    - intros [= <- <-]. apply Ascii.eqb_eq in E as ->. eauto.
    - destruct (split_comp s) as [c1 r1] eqn:Es. intros [= <- <-]. destruct (IH _ _ eq_refl) as (-> & Hf & Hr). auto. }
  assert (Hk : ∀ s, length (skip_slashes s) ≤ length s).
  { intros s. induction s as [|a s IH]; simpl; [done|]. destruct (ISSLASH a); simpl; lia. }
  intros E. destruct (Hs _ _ _ E) as (Eq & Hf & Hr). split_and!; [done|done| | |].
  - rewrite <- comps_skip, Eq. unfold comps. destruct Hr as [->|[r ->]].
    + rewrite app_nil_r, (proj2 (fields_comp c [] Hf)). case_decide as Ec; [by subst|]. by rewrite filter_cons_True.
    + rewrite (proj1 (fields_comp c r Hf)). case_decide as Ec.
      * subst c. by apply skip_no_slash in Eq.
      * by rewrite filter_cons_True.
  - destruct Hr as [->|[r ->]]; simpl; [lia|]. apply Hk.
  - intros ->. destruct Hr as [->|[r ->]]; [done|]. by apply skip_no_slash in Eq.
Qed.

Lemma ends_slash prefix st : ∃ u, prefix ++ slash :: dirs st = u ++ [slash].
Proof.
  induction st as [|c st _] using rev_ind; [by exists prefix|]. rewrite dirs_snoc.
  exists (prefix ++ slash :: dirs st ++ c). by rewrite <- !app_assoc, <- !app_comm_cons, <- app_assoc.
Qed.

(** Going up one level. *)
Lemma wp_drop_shows prefix s st (Q : unit → pbuf → Prop) :
  pd s ≤ length (pb s) → shows prefix st (content s) → Forall comp_ok st → length prefix + 1 < pd s →
  (∀ s', content s' = prefix ++ slash :: dirs (take (pred (length st)) st) → pb s' = pb s → pd s' ≤ pd s →
     length prefix + 1 ≤ pd s' → Q tt s') →
  wp drop_last Q s.
Proof.
  intros Hd Hsh Hok Hlt HQ. destruct (content_split s Hd) as [_ L].
  assert (Hst : ∃ st' c, st = st' ++ [c] ∧ (content s = prefix ++ slash :: dirs st' ++ c ++ [slash] ∨
                                             content s = prefix ++ slash :: dirs st' ++ c)).
  { destruct Hsh as [E|(st' & c & -> & E)]; [|by eauto].
    destruct st as [|c st _] using rev_ind; [rewrite E, length_app in L; simpl in L; lia|].
    exists st, c. rewrite dirs_snoc in E. auto. }
  destruct Hst as (st' & c & -> & Hc). apply Forall_app in Hok as [_ Hok]. apply list.Forall_cons in Hok as [[Hne Hns _ _ _] _].
  rewrite length_app, Nat.add_1_r in HQ. simpl pred in HQ. rewrite take_app_length in HQ.
  destruct (ends_slash prefix st') as [u Hu].
  assert (Hv : ∃ v a, content s = u ++ slash :: v ++ [a] ∧ Forall (λ a, ISSLASH a = false) v).
  { destruct Hc as [Hc|Hc].
    - exists c, slash. split; [|done]. rewrite Hc, app_comm_cons, (app_assoc prefix), Hu. by rewrite <- app_assoc.
    - destruct c as [|a v _] using rev_ind; [done|]. apply Forall_app in Hns as [Hns _]. exists v, a. split; [|done].
      rewrite Hc, app_comm_cons, (app_assoc prefix), Hu. by rewrite <- app_assoc. }
  destruct Hv as (v & a & Hv & Hf). eapply wp_drop_last; [done|exact Hv|done|]. intros s' Hs' Hpd Hpb.
  assert (length u = length prefix + length (dirs st')) as Hlu.
  { apply (f_equal length) in Hu. rewrite !length_app in Hu. simpl in Hu. lia. }
  apply HQ; [by rewrite Hu|done| |lia]. rewrite Hv, !length_app in L. simpl in L. lia.
Qed.

(** ** The loop *)

(** Whether the text misses a final slash. *)
Definition need (d : chars) : nat :=
  match list.last d with Some c => if ISSLASH c then 0 else 1 | None => 0 end.

Lemma need_le d : need d ≤ 1.
Proof. unfold need. repeat case_match; lia. Qed.

Lemma need_snoc d a : need (d ++ [a]) = if ISSLASH a then 0 else 1.
Proof. unfold need. by rewrite last_snoc. Qed.

Lemma need_dirs prefix st : need (prefix ++ slash :: dirs st) = 0.
Proof. destruct (ends_slash prefix st) as [u ->]. by rewrite need_snoc. Qed.

Lemma shows_length prefix st d : shows prefix st d → length prefix + 1 ≤ length d.
Proof. intros [->|(st' & c & _ & ->)]; rewrite length_app; simpl; lia. Qed.

Lemma wp_push_slash prefix s st (Q : unit → pbuf → Prop) :
  pd s < length (pb s) → shows prefix st (content s) → Forall comp_ok st →
  (∀ s', content s' = prefix ++ slash :: dirs st → pd s' = pd s + need (content s) → length (pb s') = length (pb s) → Q tt s') →
  wp push_slash_if_needed Q s.
Proof.
  intros Hd Hsh Hok HQ. apply wp_bind.
  assert (Hl : ∃ d c, content s = d ++ [c] ∧ (ISSLASH c = true → content s = prefix ++ slash :: dirs st) ∧
                 (ISSLASH c = false → content s ++ [slash] = prefix ++ slash :: dirs st)).
  { destruct Hsh as [E|(st' & c & -> & E)].
    - destruct (ends_slash prefix st) as [u Hu]. exists u, slash. rewrite E. by split_and!.
    - apply Forall_app in Hok as [_ Hok]. apply list.Forall_cons in Hok as [[Hne Hns _ _ _] _].
      destruct c as [|a v _] using rev_ind; [done|]. apply Forall_app in Hns as [_ Ha]. apply list.Forall_cons in Ha as [Ha _].
      exists (prefix ++ slash :: dirs st' ++ v), a. rewrite E, dirs_snoc, Ha.
      split_and!; [by rewrite <- !app_assoc, <- app_comm_cons, <- app_assoc|done|].
      intros _. by rewrite <- !app_assoc, <- app_comm_cons, <- !app_assoc. }
  destruct Hl as (d & c & Hc & Ht & Hf). eapply wp_last_char; [lia|exact Hc|].
  pose proof (need_snoc d c) as Hn. rewrite <- Hc in Hn.
  destruct (ISSLASH c).
  - apply wp_ret, HQ; [by apply Ht|lia|done].
  - apply wp_push; [done|]. intros s' Hs' Hp Hl. apply HQ; [by rewrite Hs', Hf|lia|done].
Qed.

Lemma wp_continue c s st (Q : bool → pbuf → Prop) :
  pd s ≤ length (pb s) → shows [] st (content s) → Forall comp_ok st →
  (c = dot ∨ c = dotdot → ∀ s', shows [] (comp_step st c) (content s') → Forall comp_ok (comp_step st c) → pb s' = pb s →
     pd s' + need (content s') ≤ pd s + need (content s) → pd s' ≤ pd s → Q true s') →
  (c ≠ dot → c ≠ dotdot → Q false s) →
  wp (do_clean_path_continue c) Q s.
Proof.
  intros Hd Hsh Hok Ht Hf. unfold do_clean_path_continue, comp_step in *. destruct (decide (c = dot)) as [->|H1].
  { apply wp_ret, Ht; auto; lia. }
  destruct (decide (c = dotdot)) as [->|H2]; [|by apply wp_ret, Hf].
  assert (Hok' : Forall comp_ok (take (pred (length st)) st)) by (by apply Forall_take).
  apply wp_bind, wp_get, wp_bind. case_decide as E1.
  - apply wp_ret, wp_ret, Ht; auto; try lia. destruct (content_split s Hd) as [_ L].
    destruct Hsh as [E|(st' & c & -> & E)]; rewrite E in L; simpl in L.
    + destruct st as [|c st _] using rev_ind; [by left|]. rewrite dirs_snoc, !length_app in L. simpl in L. lia.
    + apply Forall_app in Hok as [_ Hok]. apply list.Forall_cons in Hok as [[Hne _ _ _ _] _].
      rewrite length_app in L. destruct c; simpl in L; [done|lia].
  - eapply (wp_drop_shows []); [done|done|done|simpl; lia|]. intros s' Hs' Hpb Hpd _. apply wp_ret, Ht; auto; [by left|].
    rewrite Hs', need_dirs. lia.
Qed.

(** The text left fits below the limit. *)
Definition fits (limit : nat) (p : chars) (s : pbuf) : Prop :=
  skip_slashes p = [] ∨ pd s + need (content s) + length (skip_slashes p) < limit.

Lemma normalise_cons st p c rest :
  split_comp (skip_slashes p) = (c, rest) → c ≠ [] → normalise st p = normalise (comp_step st c) rest.
Proof. intros E Hc. destruct (next_comp p c rest E) as (_ & _ & Hp & _). unfold normalise. by rewrite Hp, decide_False. Qed.

Lemma do_clean_path_ok limit fuel : ∀ p s st,
  length p < fuel → no_nul p → Forall comp_ok st → shows [] st (content s) → pd s < limit → limit ≤ length (pb s) →
  wp (do_clean_path fuel limit p) (λ r s', length (pb s') = length (pb s) ∧
    ((r = 0%Z ∧ shows [] (normalise st p) (content s') ∧ Forall comp_ok (normalise st p) ∧ pd s' < limit) ∨
     (r = (-1)%Z ∧ ¬ fits limit p s))) s.
Proof.
  induction fuel as [|fuel IH]; intros p s st Hf Hn Hok Hsh Hd Hl; [lia|]. cbn [do_clean_path].
  destruct p as [|a p']; [apply wp_ret; split; [done|left; by split_and!]|]. set (p := a :: p') in *. assert (Hp : length p = S (length p')) by done. clearbody p.
  destruct (split_comp (skip_slashes p)) as [c rest] eqn:E. destruct (next_comp p c rest E) as (Eq & Hns & Hcp & Hlr & Hnil).
  pose proof (skip_slashes_suffix p) as [pre Hpre]. pose proof (shows_length _ _ _ Hsh) as Hge.
  rewrite (proj2 (content_split s ltac:(lia))) in Hge. simpl in Hge.
  assert (Hnr : no_nul c ∧ no_nul rest) by (rewrite Hpre, Eq, !no_nul_app in Hn; tauto).
  assert (Hlen : length p = length pre + length c + length rest) by (rewrite Hpre, Eq, !length_app; lia).
  assert (Hls : length (skip_slashes p) = length c + length rest) by (rewrite Eq, length_app; lia).
  case_decide as Ec; [apply wp_ret; split; [done|]; left; unfold normalise; rewrite Hcp; simpl; rewrite ?decide_True by done; by auto|].
  assert (Hc1 : 0 < length c) by (destruct c; [done|simpl; lia]).
  assert (Hfit : ∀ s', pd s' + need (content s') ≤ pd s + need (content s) + length c → fits limit p s → fits limit rest s').
  { intros s' Hs' [Hk|Hk]; [by rewrite Hk in Hls; simpl in Hls; lia|].
    destruct (decide (skip_slashes rest = [])) as [Hr|Hr]; [by left|]. right. lia. }
  apply wp_bind, (wp_continue c s st); [lia|done|done| |].
  - intros Hdot s1 Hsh1 Hok1 Hpb Hpn Hpd. eapply wp_mono; [apply (IH rest s1 (comp_step st c)); try done; try lia|].
    + apply Hnr.
    + by rewrite Hpb.
    + intros r s2 [Hl2 Hr]. rewrite (normalise_cons st p c rest E Ec). split; [by rewrite Hl2, Hpb|].
      destruct Hr as [Hr|[-> Hr]]; [by left|right]. split; [done|]. intros Hk. apply Hr, Hfit; [lia|done].
  - intros Hd1 Hd2. apply wp_bind, (wp_push_slash [] s st); [lia|done|done|]. intros s1 Hs1 Hpd1 Hl1.
    assert (Hcok : comp_ok c) by (split; [done|done|apply Hnr|done|done]).
    assert (Hstep : comp_step st c = st ++ [c]) by (unfold comp_step; by rewrite !decide_False).
    pose proof (need_le (content s)). pose proof (shows_length [] st _ (or_introl Hs1)) as Hlc. destruct (content_split s1) as [_ L1]; [lia|]. simpl in Hlc.
    apply wp_bind, wp_get. case_decide as Elim.
    + apply wp_bind. assert (Hno : ¬ fits limit p s) by (intros [Hk|Hk]; [rewrite Hk in Hls; simpl in Hls; lia|lia]).
      case_decide as E1.
      * apply wp_modify, wp_bind, wp_terminate; [simpl; lia|]. intros s2 _ _ Hl2 _. apply wp_ret. simpl in Hl2. split; [lia|auto].
      * apply wp_ret, wp_bind, wp_terminate; [lia|]. intros s2 _ _ Hl2 _. apply wp_ret. split; [lia|auto].
    + apply wp_bind, wp_push_all; [lia|]. intros s2 Hs2 Hpd2 Hl2. apply wp_bind, wp_terminate; [lia|]. intros s3 Hs3 Hpd3 Hl3 _.
      assert (Hsh3 : content s3 = slash :: dirs st ++ c) by (by rewrite Hs3, Hs2, Hs1).
      pose proof (need_le (content s3)) as Hn3.
      eapply wp_mono; [apply (IH rest s3 (comp_step st c)); [lia|apply Hnr| | |lia|lia]|].
      * rewrite Hstep. apply Forall_app. split; [done|]. by constructor.
      * rewrite Hstep. right. exists st, c. by split.
      * intros r s4 [Hl4 Hr]. rewrite (normalise_cons st p c rest E Ec). split; [lia|].
        destruct Hr as [Hr|[-> Hr]]; [by left|right]. split; [done|]. intros [Hk|Hk]; [by rewrite Hk in Hls; simpl in Hls; lia|].
        apply Hr. destruct (decide (skip_slashes rest = [])) as [Hz|Hz]; [by left|]. right.
        assert (0 < length (skip_slashes rest)) by (destruct (skip_slashes rest); [done|simpl; lia]). lia.
Qed.

(** ** The result *)
Lemma render_shows st : shows [] st (render st).
Proof.
  destruct st as [|c st _] using rev_ind; [by left|]. right. exists st, c. split; [done|].
  unfold render. by rewrite intercalate_snoc.
Qed.

Lemma no_nul_render st : Forall comp_ok st → no_nul (render st).
Proof.
  intros Hok. unfold render. change (slash :: intercalate [slash] st) with ([slash] ++ intercalate [slash] st).
  rewrite no_nul_app. split; [by repeat constructor|]. apply no_nul_intercalate; [by repeat constructor|].
  eapply list.Forall_impl; [exact Hok|]. intros c Hc. apply Hc.
Qed.

Lemma shows_render prefix st d : shows prefix st d → Forall comp_ok st →
  (need d = 1 → d = prefix ++ render st) ∧ (need d = 0 → st ≠ [] → d = prefix ++ render st ++ [slash]) ∧
  (st = [] → d = prefix ++ render st).
Proof.
  intros [->|(st' & c & -> & ->)] Hok.
  - pose proof (need_dirs prefix st) as Hz. split_and!; [by rewrite Hz| |by intros ->].
    intros _ Hne. destruct st as [|c st _] using rev_ind; [done|]. unfold render. rewrite dirs_snoc, intercalate_snoc.
    simpl. by rewrite <- app_assoc.
  - unfold render. rewrite intercalate_snoc. split_and!; [done| |].
    + apply Forall_app in Hok as [_ Hok]. apply list.Forall_cons in Hok as [[Hne Hns _ _ _] _].
      destruct c as [|a v _] using rev_ind; [done|]. apply Forall_app in Hns as [_ Ha]. apply list.Forall_cons in Ha as [Ha _].
      pose proof (need_snoc (prefix ++ slash :: dirs st' ++ v) a) as Hn. rewrite Ha, <- app_assoc, <- app_comm_cons, <- app_assoc in Hn.
      by rewrite Hn.
    + by destruct st'.
Qed.

Lemma buf_str_content s : no_nul (content s) → pb s !! pd s = Some NUL → buf_str (pb s) = to_str (content s).
Proof.
  intros Hn H. unfold buf_str. f_equal. rewrite <- (take_drop_middle _ _ _ H) at 1. by apply until_nul_app.
Qed.

(** The end of the function, from a buffer that shows [st] below [prefix]. *)
Lemma finish_ok prefix s st :
  no_nul prefix → shows prefix st (content s) → Forall comp_ok st → pd s < length (pb s) →
  wp (strip_slash (length prefix + 1);; terminate) (λ _ s', buf_str (pb s') = to_str (prefix ++ render st)) s.
Proof.
  intros Hp Hsh Hok Hd. destruct (content_split s) as [_ L]; [lia|].
  destruct (shows_render _ _ _ Hsh Hok) as (H1 & H0 & Hnil).
  assert (Hend : ∀ s', content s' = prefix ++ render st → pd s' < length (pb s') →
    wp terminate (λ _ s', buf_str (pb s') = to_str (prefix ++ render st)) s').
  { intros s' Hs' Hd'. apply wp_terminate; [done|]. intros s2 E2 D2 L2 N2. rewrite <- Hs', <- E2.
    apply buf_str_content; [|by rewrite D2]. rewrite E2, Hs'. apply no_nul_app. split; [done|]. by apply no_nul_render. }
  apply wp_bind. unfold strip_slash. apply wp_bind, wp_get. case_decide as E1.
  - apply wp_bind. destruct (content s) as [|a d _] eqn:Ec using rev_ind; [simpl in L; lia|].
    eapply wp_last_char; [lia|exact Ec|].
    pose proof (need_snoc d a) as Hn. destruct (ISSLASH a) eqn:Ea.
    + apply wp_modify, Hend; [|simpl; lia]. destruct (decide (st = [])) as [->|Hne].
      { rewrite (Hnil eq_refl), length_app in L. simpl in L. lia. }
      pose proof (H0 Hn Hne) as E. rewrite app_assoc in E. apply app_inj_2 in E as [E _]; [|done].
      unfold content. simpl. rewrite length_app in L. simpl in L. replace (pred (pd s)) with (length d) by lia.
      apply (f_equal (take (length d))) in Ec. unfold content in Ec. rewrite take_take, Nat.min_l in Ec by lia.
      by rewrite Ec, take_app_length, E.
    + apply wp_ret, Hend; [|done]. rewrite Ec. by apply H1.
  - apply wp_ret, Hend; [|done]. destruct (decide (st = [])) as [Hz|Hne]; [by apply Hnil|].
    destruct (decide (need (content s) = 1)) as [Hk|Hk]; [by apply H1|]. pose proof (need_le (content s)).
    rewrite (H0 ltac:(lia) Hne), !length_app in L. unfold render in L. simpl in L. lia.
Qed.

Lemma clean_from s st p :
  no_nul p → Forall comp_ok st → shows [] st (content s) → pd s < PATH_MAX → PATH_MAX ≤ length (pb s) →
  wp (ret ← do_clean_path (S (length p)) PATH_MAX p;
      if decide (ret = 0%Z) then strip_slash 1;; terminate;; mret true else mret false)
    (λ b s', if b then buf_str (pb s') = to_str (render (normalise st p)) ∧ length (render (normalise st p)) < PATH_MAX
             else ¬ fits PATH_MAX p s) s.
Proof.
  intros Hn Hok Hsh Hd Hl. apply wp_bind. eapply wp_mono; [eapply do_clean_path_ok; try done; lia|].
  intros r s1 [Hl1 [(-> & Hsh1 & Hok1 & Hd1)|[-> Hno]]]; [|by apply wp_ret]. rewrite decide_True by done.
  pose proof (finish_ok [] s1 _ ltac:(constructor) Hsh1 Hok1 ltac:(lia)) as (u & s3 & Hrun & Hb)%wp_run.
  unfold mbind, M_bind in Hrun |- *. unfold wp. change (length [] + 1) with 1 in Hrun. destruct (strip_slash 1 s1) as [[[] s2]|]; [|done]. rewrite Hrun.
  split; [done|]. destruct (content_split s1) as [_ L]; [lia|]. destruct (shows_render [] _ _ Hsh1 Hok1) as (H1 & H0 & Hnil). cbn [app] in H1, H0, Hnil.
  pose proof (need_le (content s1)). destruct (decide (normalise st p = [])) as [Hz|Hz]; [rewrite <- Hnil; [lia|done]|].
  destruct (decide (need (content s1) = 1)) as [Hk|Hk]; [rewrite <- H1; [lia|done]|].
  rewrite (H0 ltac:(lia) Hz), length_app in L. lia.
Qed.

Lemma comps_intercalate st : Forall comp_ok st → comps (intercalate [slash] st) = st.
Proof.
  induction st as [|c st IH]; [done|]. intros [[Hne Hns _ _ _] Hst]%list.Forall_cons. destruct st as [|c' st].
  - simpl. unfold comps. rewrite (proj2 (fields_comp c [] Hns)). by rewrite filter_cons_True.
  - change (intercalate [slash] (c :: c' :: st)) with (c ++ slash :: intercalate [slash] (c' :: st)).
    unfold comps. rewrite (proj1 (fields_comp c _ Hns)), filter_cons_True by done. f_equal. by apply IH.
Qed.

Lemma normalise_render st : Forall comp_ok st → normalise [] (render st) = st.
Proof.
  intros Hok. unfold normalise, render. rewrite comps_slash, comps_intercalate by done.
  assert (∀ acc, foldl comp_step acc st = acc ++ st) as H; [|by rewrite H].
  induction st as [|c st IH]; intros acc; simpl; [by rewrite app_nil_r|].
  apply list.Forall_cons in Hok as [[_ _ _ H1 H2] Hst]. rewrite IH by done. unfold comp_step.
  rewrite !decide_False by done. by rewrite <- app_assoc.
Qed.

Definition is_abs (p : chars) : bool := match p with c :: _ => ISSLASH c | [] => false end.

Lemma skip_abs p : is_abs p = true → length (skip_slashes p) < length p.
Proof.
  destruct p as [|c p]; [done|]. simpl. intros ->. destruct (skip_slashes_suffix p) as [pre E].
  apply (f_equal length) in E. rewrite length_app in E. lia.
Qed.

Lemma skip_le p : length (skip_slashes p) ≤ length p.
Proof. destruct (skip_slashes_suffix p) as [pre E]. apply (f_equal length) in E. rewrite length_app in E. lia. Qed.

Lemma path_max_pos : 1 < PATH_MAX.
Proof. unfold PATH_MAX. apply Nat.ltb_lt. vm_compute. reflexivity. Qed.

(** Both kinds of start: an absolute path begins at the root, any other one at
    the current directory. *)
Lemma util_clean_path_ok d path len :
  Forall comp_ok d → nul_free path = true → path ≠ ""%string → PATH_MAX ≤ len →
  let p := chars_of path in
  let st := normalise (if is_abs p then [] else d) p in
  let res := util_clean_path (Some (to_str (render d))) (Some path) len in
  (res = Some (Some (to_str (render st))) ∧ length (render st) < PATH_MAX) ∨
  (res = Some None ∧ PATH_MAX ≤ if is_abs p then length p else S (length (render d) + length p)).
Proof.
  intros Hok Hnul Hne Hlen p st res. pose proof path_max_pos as Hpm. pose proof (no_nul_chars path Hnul) as Hn. fold p in Hn.
  assert (Hp : p ≠ []) by (unfold p, chars_of; destruct path; [done|discriminate]).
  unfold res, util_clean_path. fold p. rewrite decide_False, decide_False by (done || lia). subst st.
  destruct p as [|c p'] eqn:Ep; [done|]. rewrite <- Ep in *. destruct (ISSLASH c) eqn:Ec.
  - assert (Ha : is_abs p = true) by (by rewrite Ep). rewrite Ha.
    set (s := mk_pbuf (<[0:=slash]> (replicate len NUL)) 1).
    assert (Hs : content s = [slash]) by (unfold content, s; simpl; destruct len; [lia|done]).
    pose proof (clean_from s [] p Hn ltac:(constructor) ltac:(left; by rewrite Hs) ltac:(simpl; lia)
      ltac:(simpl; rewrite length_insert, length_replicate; lia)) as (b & s' & -> & Hb)%wp_run.
    destruct b; [by left; destruct Hb as [-> ?]|right]. split; [done|].
    destruct (decide (PATH_MAX ≤ length p)); [done|]. exfalso. apply Hb. right. rewrite Hs.
    change (need [slash]) with 0. simpl pd. pose proof (skip_abs p Ha). lia.
  - assert (Ha : is_abs p = false) by (by rewrite Ep). rewrite Ha, chars_of_string. case_decide as El; [right; split; [done|lia]|].
    set (s := mk_pbuf (render d ++ p ++ replicate (len - length (render d) - length p) NUL) (length (render d))).
    assert (Hs : content s = render d) by (apply take_app_length).
    pose proof (clean_from s d p Hn Hok ltac:(rewrite Hs; apply render_shows) ltac:(cbn [pd s]; lia)
      ltac:(cbn [pb s]; rewrite !length_app, length_replicate; lia)) as (b & s' & -> & Hb)%wp_run.
    destruct b; [by left; destruct Hb as [-> ?]|right]. split; [done|].
    destruct (decide (PATH_MAX ≤ S (length (render d) + length p))); [done|]. exfalso. apply Hb. right. rewrite Hs.
    pose proof (need_le (render d)). pose proof (skip_le p). cbn [pd s]. lia.
Qed.

(** C32: [util_clean_path] computes the lexical normal form of the path: it never
    leaves its buffers, and unless the text is too long for them it returns the
    absolute path whose components are those of the argument, appended to the
    current directory if the argument is relative, with ["."] dropped and [".."]
    taking away the component before it. *)
Theorem util_clean_path_correct d path len :
  Forall comp_ok d → nul_free path = true → path ≠ ""%string → PATH_MAX ≤ len →
  let p := chars_of path in
  let r := to_str (render (normalise (if is_abs p then [] else d) p)) in
  let res := util_clean_path (Some (to_str (render d))) (Some path) len in
  (res = Some (Some r) ∨ res = Some None) ∧
  ((if is_abs p then length p else S (length (render d) + length p)) < PATH_MAX → res = Some (Some r)).
Proof.
  intros Hok Hnul Hne Hlen p r res. destruct (util_clean_path_ok d path len Hok Hnul Hne Hlen) as [[H _]|[H Hl]]; fold p in H.
  - split; [by left|by intros _].
  - split; [by right|]. fold p in Hl. intros. lia.
Qed.

Lemma fields_no_slash p : Forall (Forall (λ a, ISSLASH a = false)) (fields slash p).
Proof.
  induction p as [|c p IH]; [by repeat constructor|]. cbn [fields]. destruct (Ascii.eqb c slash) eqn:E; [by constructor|].
  destruct (fields slash p) as [|f fs]; [by repeat constructor|]. apply list.Forall_cons in IH as [Hf Hfs].
  constructor; [by constructor|done].
Qed.

Lemma normalise_ok st p : no_nul p → Forall comp_ok st → Forall comp_ok (normalise st p).
Proof.
  intros Hn Hst. unfold normalise.
  assert (Hc : Forall (λ c, c ≠ [] ∧ Forall (λ a, ISSLASH a = false) c ∧ no_nul c) (comps p)).
  { apply list.Forall_forall. intros c [Hne Hin]%list_elem_of_filter. split; [done|].
    pose proof (fields_no_slash p) as Hf. pose proof (no_nul_fields slash p Hn) as Hz.
    rewrite list.Forall_forall in Hf, Hz. auto. }
  revert st Hst. induction (comps p) as [|c cs IH]; intros st Hst; [done|]. simpl. apply list.Forall_cons in Hc as [(H1 & H2 & H3) Hc].
  apply IH; [done|]. unfold comp_step. repeat case_decide; [done|by apply Forall_take|].
  apply Forall_app. split; [done|]. by repeat constructor.
Qed.

Lemma nul_free_to_str l : no_nul l → nul_free (to_str l) = true.
Proof. induction 1 as [|c l Hc _ IH]; [done|]. simpl. unfold NUL in Hc. by rewrite Hc. Qed.

Lemma is_abs_render st : is_abs (render st) = true.
Proof. done. Qed.

(** A path in normal form is not changed, wherever the process is. *)
Lemma clean_render d st len :
  Forall comp_ok d → Forall comp_ok st → length (render st) < PATH_MAX → PATH_MAX ≤ len →
  util_clean_path (Some (to_str (render d))) (Some (to_str (render st))) len = Some (Some (to_str (render st))).
Proof.
  intros Hd Hst Hlt Hl.
  pose proof (util_clean_path_ok d (to_str (render st)) len Hd (nul_free_to_str _ (no_nul_render st Hst)) ltac:(done) Hl) as H.
  cbv zeta in H. rewrite chars_of_string, is_abs_render, (normalise_render st Hst) in H. destruct H as [[H _]|[_ H]]; [done|lia].
Qed.

(** What a successful call returns: a path in normal form. *)
Lemma clean_inv d path len r :
  Forall comp_ok d → nul_free path = true → PATH_MAX ≤ len →
  util_clean_path (Some (to_str (render d))) (Some path) len = Some (Some r) →
  let st := normalise (if is_abs (chars_of path) then [] else d) (chars_of path) in
  r = to_str (render st) ∧ Forall comp_ok st ∧ length (render st) < PATH_MAX.
Proof.
  intros Hd Hn Hl Hr st. destruct (decide (path = ""%string)) as [->|Hne]; [done|].
  destruct (util_clean_path_ok d path len Hd Hn Hne Hl) as [[H Hlt]|[H _]]; rewrite H in Hr; [|done]. injection Hr as <-.
  split_and!; [done| |done]. apply normalise_ok; [by apply no_nul_chars|]. by destruct (is_abs (chars_of path)).
Qed.

(** A call is defined: it returns a path or [NULL]. *)
Lemma clean_defined d path len :
  Forall comp_ok d → nul_free path = true → PATH_MAX ≤ len →
  ∃ r, util_clean_path (Some (to_str (render d))) (Some path) len = Some r.
Proof.
  intros Hd Hn Hl. destruct (decide (path = ""%string)) as [->|Hne]; [by eexists|].
  destruct (util_clean_path_ok d path len Hd Hn Hne Hl) as [[H _]|[H _]]; eauto.
Qed.

(** A cleaned path is clean: cleaning it again, wherever the process is, gives
    the same path. *)
Theorem util_clean_path_idempotent d d' path len len' r :
  Forall comp_ok d → Forall comp_ok d' → nul_free path = true → PATH_MAX ≤ len → PATH_MAX ≤ len' →
  util_clean_path (Some (to_str (render d))) (Some path) len = Some (Some r) →
  util_clean_path (Some (to_str (render d'))) (Some r) len' = Some (Some r).
Proof.
  intros Hd Hd' Hn Hl Hl' Hr. destruct (clean_inv d path len r Hd Hn Hl Hr) as (-> & Hst & Hlt). by apply clean_render.
Qed.

(** ** Helpers *)

(** The loop of [util_filepath_split]: the number of bytes up to and including
    the last slash; [0] stands for [i == -1]. *)
Fixpoint last_slash (dup : chars) (i : nat) : nat :=
  match i with
  | O => 0
  | S j => match dup !! j with Some c => if ISSLASH c then i else last_slash dup j | None => 0 end
  end.

(** POSIX [basename]. *)
Definition basename (path : chars) : chars :=
  if decide (path = []) then dot
  else match reverse (comps path) with [] => [slash] | c :: _ => c end.

Definition strip_slashes (p : chars) : chars := reverse (skip_slashes (reverse p)).

(** [dirname]; two slashes alone are kept, as glibc does. *)
Definition dirname (path : chars) : chars :=
  let root (n : nat) := if decide (n = 2) then [slash; slash] else [slash] in
  let body := strip_slashes path in
  let l := last_slash body (length body) in
  if decide (body = []) then if decide (path = []) then dot else root (length path)
  else if decide (l = 0) then dot
  else let head := strip_slashes (take l body) in if decide (head = []) then root l else head.

(** The results stored through [dir] and [base]. *)
Definition util_split_dir_and_base_name (path : option string) : option (string * string) :=
  match path with
  | None => None
  | Some path => Some (to_str (dirname (chars_of path)), to_str (basename (chars_of path)))
  end.

Definition util_specify_current_dir (path : option string) : bool :=
  match path with
  | None => false
  | Some path => if decide (path = ""%string) then true else bool_decide (basename (chars_of path) = dot)
  end.

Definition util_has_trailing_path_separator (path : option string) : bool :=
  match path with
  | None => false
  | Some path => match list.last (chars_of path) with Some c => ISSLASH c | None => false end
  end.

(** The buffer has room for the three characters that can be added. *)
Definition util_preserve_trailing_dot_or_separator (cleanedpath originalpath : option string) : option string :=
  match cleanedpath, originalpath with
  | Some cleaned, Some original =>
    if decide (cleaned = ""%string ∨ original = ""%string) then None else
    if decide (PATH_MAX ≤ String.length cleaned) then None else
    let res :=
      if negb (util_specify_current_dir (Some cleaned)) && util_specify_current_dir (Some original)
      then to_str ((if util_has_trailing_path_separator (Some cleaned) then chars_of cleaned
                    else chars_of cleaned ++ [slash]) ++ dot)
      else cleaned in
    Some (if negb (util_has_trailing_path_separator (Some res)) && util_has_trailing_path_separator (Some original)
          then to_str (chars_of res ++ [slash]) else res)
  | _, _ => None
  end.

(** The results stored through [dir] and [base]. *)
Definition util_filepath_split (path : option string) : option (string * string) :=
  match path with
  | None => None
  | Some path =>
    let dup := chars_of path in
    let i := last_slash dup (length dup) in
    Some (if decide (i = 0) then "."%string else to_str (take i dup), to_str (drop i dup))
  end.

Lemma last_slash_spec l i : i ≤ length l →
  last_slash l i ≤ i ∧ Forall (λ a, ISSLASH a = false) (drop (last_slash l i) (take i l)) ∧
  (last_slash l i = 0 ∨ list.last (take (last_slash l i) l) = Some slash).
Proof.
  induction i as [|i IH]; intros Hi; [by auto|]. cbn [last_slash]. destruct (lookup_lt_is_Some_2 l i Hi) as [c Hc]. rewrite Hc.
  destruct (ISSLASH c) eqn:E.
  - apply Ascii.eqb_eq in E as ->. split_and!; [done| |].
    + rewrite drop_ge by (rewrite length_take; lia). constructor.
    + right. rewrite (take_S_r _ _ slash Hc). apply last_snoc.
  - destruct (IH ltac:(lia)) as (H1 & H2 & H3). split_and!; [lia| |done].
    rewrite (take_S_r _ _ c Hc), drop_app_le by (rewrite length_take; lia). apply Forall_app. split; [done|]. by constructor.
Qed.

(** Splitting a path at its last slash loses nothing: the directory ends with
    the slash and the base name has none. *)
Theorem util_filepath_split_correct path dir base :
  util_filepath_split (Some path) = Some (dir, base) →
  Forall (λ a, ISSLASH a = false) (chars_of base) ∧
  ((dir = "."%string ∧ base = path) ∨
   (chars_of path = chars_of dir ++ chars_of base ∧ list.last (chars_of dir) = Some slash)).
Proof.
  intros [= <- <-]. destruct (last_slash_spec (chars_of path) (length (chars_of path)) ltac:(done)) as (H1 & H2 & H3).
  rewrite firstn_all in H2. set (i := last_slash _ _) in *. rewrite chars_of_string. split; [done|]. case_decide as E.
  - left. rewrite E. split; [done|]. simpl. apply to_str_chars.
  - right. rewrite chars_of_string, take_drop. by destruct H3.
Qed.

Lemma util_clean_path_correct_witness :
  let res := util_clean_path (Some "/home"%string) (Some "a/../b//./c/"%string) PATH_MAX in
  (res = Some (Some "/home/b/c"%string) ∨ res = Some None) ∧ (18 < PATH_MAX → res = Some (Some "/home/b/c"%string)).
Proof.
  apply (util_clean_path_correct [chars_of "home"] "a/../b//./c/" PATH_MAX); [|reflexivity|discriminate|reflexivity].
  repeat constructor; discriminate.
Defined.

Lemma util_clean_path_idempotent_witness :
  util_clean_path (Some "/"%string) (Some "/usr/bin"%string) PATH_MAX = Some (Some "/usr/bin"%string).
Proof.
  apply (util_clean_path_idempotent [] [] "/usr//x/../bin/" PATH_MAX PATH_MAX "/usr/bin");
    [constructor|constructor|reflexivity|reflexivity|reflexivity|vm_compute; reflexivity].
Defined.
