(* ===== verification/SymlinkScope.v ===== *)
(** * Symbolic links below a root directory

    [util_follow_symlink_in_scope] and its callers [util_get_resource_path] and
    [util_resolve_path] of [src/utils/cutils/path.c], which resolve a path inside
    the root file system of a container: a link to an absolute path starts again
    at that root and [..] stops there.  The file system is an interface with the
    two system calls the code makes.  The reference walks a stack of components;
    the code, which edits one buffer that it may enlarge, refines it, and the
    path it returns has no symbolic link below the root. *)
From stdpp Require Import base list strings numbers.
From Stdlib Require Import ZArith Lia Ascii.
From S2P Require Import Prelude CString Regex Array Convert StringUtil Path.

Definition MAXSYMLINKS : nat := 20.

(** [lstat]: an error, or whether the file is a symbolic link.  [readlink]: an
    error, or the target. *)
Class file_system := {
  lstat : string → option bool;
  readlink : string → option string
}.

(** A path of [PATH_MAX] bytes is refused ([ENAMETOOLONG]), and no target has a
    NUL byte. *)
Class file_system_laws (fs : file_system) : Prop := {
  lstat_long path : PATH_MAX ≤ length (chars_of path) → lstat path = None;
  readlink_nul path target : readlink path = Some target → nul_free target = true
}.

(** The variables of the loop: the buffer [rpath] with [dest], [num_links],
    whether [extra_buf] is allocated, and the outcomes of the next allocations;
    those after the list succeed. *)
Record est := mk_est { es_p : pbuf; es_links : nat; es_extra : bool; es_mem : list bool }.

Section operations.
Context `{file_system}.
Let EM := M est.

(** An operation on the buffer alone. *)
Definition on_path {A} (m : M pbuf A) : EM A := λ s,
  match m (es_p s) with
  | Some (a, p) => Some (a, mk_est p (es_links s) (es_extra s) (es_mem s))
  | None => None
  end.

(** The outcome of an allocation of [size] bytes. *)
Definition calloc (size : nat) : EM bool := λ s,
  match es_mem s with
  | [] => Some (util_common_calloc_s true (Z.of_nat size), s)
  | b :: m => Some (util_common_calloc_s b (Z.of_nat size), mk_est (es_p s) (es_links s) (es_extra s) m)
  end.

(** [do_path_realloc] for a component of [len] bytes, with [util_mem_realloc]:
    of the old buffer the first [PATH_MAX] bytes are copied. *)
Definition do_path_realloc (len : nat) : EM Z :=
  s ← get;
  let limit := length (pb (es_p s)) in
  if decide (pd (es_p s) + len < limit) then mret 0%Z else
  let gap := len + 1 in
  if decide (two64 - 1 - Z.of_nat gap < Z.of_nat limit)%Z then mret (-1)%Z else
  let new_size := limit + (if decide (PATH_MAX < gap) then gap else PATH_MAX) in
  ok ← calloc new_size;
  if (ok : bool) then
    if decide (limit < PATH_MAX) then fail else
    on_path (modify (λ p, mk_pbuf (take PATH_MAX (pb p) ++ replicate (new_size - PATH_MAX) NUL) (pd p)));;
    mret 0%Z
  else mret (-1)%Z.

Definition skip_dest_trailing_slash (prefix_len : nat) : M pbuf unit :=
  p ← get;
  if decide (prefix_len + 1 < pd p) then drop_last else mret tt.

(** [memcpy(rpath, prefix, prefix_len)] and [dest = rpath + prefix_len];
    [prefix] stands for its first [prefix_len] bytes. *)
Definition put_prefix (prefix : chars) : M pbuf unit :=
  p ← get;
  if decide (length prefix ≤ length (pb p))
  then modify (λ p, mk_pbuf (prefix ++ drop (length prefix) (pb p)) (length prefix))
  else fail.

Definition do_get_symlinks_copy_buf (buf prefix : chars) : M pbuf unit :=
  if is_abs buf then put_prefix prefix;; push slash
  else skip_dest_trailing_slash (length prefix).

(** [do_get_symlinks], [rest] being the text from [*end] on: the new text, the
    contents of [extra_buf]. *)
Definition do_get_symlinks (prefix rest : chars) : EM (option chars) :=
  modify (λ s, mk_est (es_p s) (S (es_links s)) (es_extra s) (es_mem s));;
  s ← get;
  if decide (MAXSYMLINKS < es_links s) then mret None else
  ok ← calloc PATH_MAX;
  if negb ok then mret None else
  match readlink (buf_str (pb (es_p s))) with
  | None => mret None
  | Some target =>
    let buf := take (PATH_MAX - 1) (chars_of target) in
    ok ← (if es_extra s then mret true else calloc PATH_MAX);
    if negb ok then mret None else
    modify (λ s, mk_est (es_p s) (es_links s) true (es_mem s));;
    if decide (PATH_MAX - length buf ≤ length rest) then mret None else
    on_path (do_get_symlinks_copy_buf buf prefix);;
    mret (Some (buf ++ rest))
  end.

(** The name is the source's: true when the path is not a symbolic link. *)
Definition do_eval_symlinks_in_scope_is_symlink (path : string) : bool :=
  match lstat path with None => true | Some lnk => negb lnk end.

(** The last branch of the loop, for a component that may be a link; [next]
    is the next round. *)
Definition eval_component (next : chars → EM Z) (prefix comp rest : chars) : EM Z :=
  on_path push_slash_if_needed;;
  nret ← do_path_realloc (length comp);
  if decide (nret ≠ 0%Z) then mret (-1)%Z else
  on_path (push_all comp;; terminate);;
  s ← get;
  if do_eval_symlinks_in_scope_is_symlink (buf_str (pb (es_p s))) then next rest else
  r ← do_get_symlinks prefix rest;
  match r with
  | None => mret (-1)%Z
  | Some text => next text
  end.

(** The loop of [do_eval_symlinks_in_scope] from the text [start]. *)
Fixpoint do_eval_symlinks_in_scope (fuel : nat) (prefix start : chars) : EM Z :=
  match fuel with
  | O => fail
  | S fuel =>
    match start with
    | [] => mret 0%Z
    | _ :: _ =>
      let '(comp, rest) := split_comp (skip_slashes start) in
      if decide (comp = []) then mret 0%Z
      else if decide (comp = dot) then do_eval_symlinks_in_scope fuel prefix rest
      else if decide (comp = dotdot) then
        on_path (skip_dest_trailing_slash (length prefix));;
        do_eval_symlinks_in_scope fuel prefix rest
      else eval_component (do_eval_symlinks_in_scope fuel prefix) prefix comp rest
    end
  end.

(** Enough rounds: a round reads a byte of the text, and a link gives a text
    shorter than [PATH_MAX]. *)
Definition eval_fuel (text : chars) : nat := S (length text + MAXSYMLINKS * PATH_MAX).

(** The part of [eval_symlinks_in_scope] that works on [rpath]: whether it
    succeeds. *)
Definition eval_in_buffer (prefix text : chars) : EM bool :=
  ok ← calloc PATH_MAX;
  if negb ok then mret false else
  if decide (PATH_MAX - 1 ≤ length prefix) then mret false else
  on_path (put_prefix prefix;; push slash);;
  nret ← do_eval_symlinks_in_scope (eval_fuel text) prefix text;
  if decide (nret ≠ 0%Z) then mret false else
  on_path (strip_slash (length prefix + 1);; terminate);;
  mret true.

(** [mem]: the outcomes of the allocations.  [None] is undefined behaviour,
    [Some None] the result [NULL]. *)
Definition eval_symlinks_in_scope (cwd : option string) (mem : list bool) (fullpath rootpath : option string) :
    option (option string) :=
  match fullpath, rootpath with
  | Some fullpath, Some rootpath =>
    match util_clean_path cwd (Some rootpath) PATH_MAX with
    | None => None
    | Some None => Some None
    | Some (Some root) =>
      if decide (fullpath = root) then Some (Some fullpath) else
      match strstr (chars_of root) (chars_of fullpath) with
      | None => Some None
      | Some _ =>
        let prefix := if decide (root = "/"%string) then [] else chars_of root in
        let text := drop (length prefix) (chars_of fullpath) in
        let s := mk_est (mk_pbuf (replicate PATH_MAX NUL) 0) 0 false mem in
        match eval_in_buffer prefix text s with
        | None => None
        | Some (false, _) => Some None
        | Some (true, s) => Some (Some (buf_str (pb (es_p s))))
        end
      end
    end
  | _, _ => Some None
  end.

Definition util_follow_symlink_in_scope (cwd : option string) (mem : list bool) (fullpath rootpath : option string) :
    option (option string) :=
  match util_clean_path cwd fullpath PATH_MAX with
  | None => None
  | Some None => Some None
  | Some (Some full) =>
    match util_clean_path cwd rootpath PATH_MAX with
    | None => None
    | Some None => Some None
    | Some (Some root) => eval_symlinks_in_scope cwd mem (Some full) (Some root)
    end
  end.

Definition util_get_resource_path (cwd : option string) (mem : list bool) (rootpath : option string) (path : string) :
    option (option string) :=
  match rootpath with
  | None => Some None
  | Some rootpath =>
    let tmppath := slash :: chars_of rootpath ++ slash :: chars_of path in
    if decide (PATH_MAX ≤ length tmppath) then Some None else
    match util_clean_path cwd (Some (to_str tmppath)) PATH_MAX with
    | None => None
    | Some None => Some None
    | Some (Some fullpath) => util_follow_symlink_in_scope cwd mem (Some fullpath) (Some rootpath)
    end
  end.

(** The strings stored through [resolvedpath] and [abspath]; [Some None] is the
    result [-1], where both are [NULL]. *)
Definition util_resolve_path (cwd : option string) (mem : list bool) (mem_result : bool) (rootpath : option string)
    (path : string) : option (option (string * string)) :=
  match rootpath with
  | None => Some None
  | Some _ =>
    let tmppath := slash :: chars_of path in
    if decide (PATH_MAX ≤ length tmppath) then Some None else
    match util_clean_path cwd (Some (to_str tmppath)) PATH_MAX with
    | None => None
    | Some None => Some None
    | Some (Some cleanedpath) =>
      match util_preserve_trailing_dot_or_separator (Some cleanedpath) (Some (to_str tmppath)) with
      | None => Some None
      | Some abspath =>
        match util_filepath_split (Some abspath) with
        | None => Some None
        | Some (dirpath, basepath) =>
          match util_get_resource_path cwd mem rootpath dirpath with
          | None => None
          | Some None => Some None
          | Some (Some dir) =>
            let len := length (chars_of dir) + 1 + length (chars_of basepath) + 1 in
            if util_common_calloc_s mem_result (Z.of_nat len)
            then Some (Some (to_str (chars_of dir ++ slash :: chars_of basepath), abspath)) else Some None
          end
        end
      end
    end
  end.

(** *** [util_realpath_in_scope] *)

(** [util_path_join] *)
Definition util_path_join (cwd dir file : option string) : option (option string) :=
  match dir, file with
  | Some dir, Some file =>
    let path := chars_of dir ++ slash :: chars_of file in
    if decide (PATH_MAX ≤ length path) then Some None else util_clean_path cwd (Some (to_str path)) PATH_MAX
  | _, _ => Some None
  end.

(** The loop of [util_scan_subdirs] over the entries of a directory. *)
Fixpoint scan_loop {S E} (d_name : E → string) (cb : E → M S bool) (l : list E) : M S Z :=
  match l with
  | [] => mret 0%Z
  | d :: l =>
    if String.eqb (d_name d) "." || String.eqb (d_name d) ".." then scan_loop d_name cb l else
    ok ← cb d;
    if negb ok then mret (-1)%Z else scan_loop d_name cb l
  end.

(** [dir] is what [opendir] gives: the entries of the directory, in the order of
    [readdir]. *)
Definition util_scan_subdirs {S E} (d_name : E → string) (dir : option (list E)) (cb : E → M S bool) : M S Z :=
  match dir with None => mret (-1)%Z | Some l => scan_loop d_name cb l end.

(** The directory and the base name stored by [util_split_path_dir_entry]. *)
Definition util_split_path_dir_entry (cwd path : option string) : option (option (string * string)) :=
  match util_clean_path cwd path PATH_MAX with
  | None => None
  | Some None => Some None
  | Some (Some cleaned) =>
    let cleaned := if util_specify_current_dir path then chars_of cleaned ++ slash :: dot else chars_of cleaned in
    Some (Some (to_str (dirname cleaned), to_str (basename cleaned)))
  end.

(** The loop of [find_realpath]; [rounds] is [max_symlink_iter + 1 - i]. *)
Fixpoint find_realpath_loop (cwd : option string) (rounds : nat) (iter_path : string) : option (option string) :=
  match rounds with
  | O => Some None
  | S rounds =>
    match lstat iter_path with
    | Some true =>
      match readlink iter_path with
      | None => Some None
      | Some target =>
        let target := take (PATH_MAX - 1) (chars_of target) in
        if bool_decide (target ≠ []) && negb (is_abs target) then
          match util_split_path_dir_entry cwd (Some iter_path) with
          | None => None
          | Some None => Some None
          | Some (Some (parent, _)) =>
            match util_path_join cwd (Some parent) (Some (to_str target)) with
            | None => None
            | Some None => Some None
            | Some (Some joined) => find_realpath_loop cwd rounds joined
            end
          end
        else find_realpath_loop cwd rounds (to_str target)
      end
    | _ => Some (Some iter_path)
    end
  end.

Definition max_symlink_iter : nat := 10.

Definition find_realpath (cwd : option string) (path : string) : option (option string) :=
  find_realpath_loop cwd (S max_symlink_iter) path.

Definition util_realpath_in_scope (cwd rootfs path : option string) : option (option string) :=
  match rootfs, path with
  | Some rootfs, Some path =>
    let full_path := chars_of rootfs ++ chars_of path in
    if decide (PATH_MAX ≤ length full_path) then Some None else
    match util_clean_path cwd (Some (to_str full_path)) PATH_MAX with
    | None => None
    | Some None => Some None
    | Some (Some cleaned) =>
      match find_realpath cwd cleaned with
      | None => None
      | Some None => Some None
      | Some (Some tmp) =>
        if prefix_by Ascii.eqb (chars_of rootfs) (chars_of tmp) then Some (Some tmp) else Some None
      end
    end
  | _, _ => Some None
  end.
End operations.

(** ** The reference *)

(** What the walk returns from the stack [st] below [prefix], with [n] links
    followed and [text] to read: the final stack, or nothing. *)
Section reference.
Context `{file_system} (prefix : chars).

Definition target_of (st : list chars) : option chars :=
  take (PATH_MAX - 1) ∘ chars_of <$> readlink (to_str (prefix ++ render st)).

Definition is_link (st : list chars) : Prop := lstat (to_str (prefix ++ render st)) = Some true.

Inductive resolves : nat → list chars → chars → option (list chars) → Prop :=
  | res_end n st text : comps text = [] → resolves n st text (Some st)
  | res_dots n st text c rest r :
      split_comp (skip_slashes text) = (c, rest) → c = dot ∨ c = dotdot →
      resolves n (comp_step st c) rest r → resolves n st text r
  | res_file n st text c rest r :
      split_comp (skip_slashes text) = (c, rest) → c ≠ [] → c ≠ dot → c ≠ dotdot → ¬ is_link (st ++ [c]) →
      resolves n (st ++ [c]) rest r → resolves n st text r
  | res_link n st text c rest target r :
      split_comp (skip_slashes text) = (c, rest) → c ≠ [] → c ≠ dot → c ≠ dotdot → is_link (st ++ [c]) →
      n < MAXSYMLINKS → target_of (st ++ [c]) = Some target → length target + length rest < PATH_MAX →
      resolves (S n) (if is_abs target then [] else st) (target ++ rest) r → resolves n st text r
  | res_stop n st text c rest :
      split_comp (skip_slashes text) = (c, rest) → c ≠ [] → c ≠ dot → c ≠ dotdot → is_link (st ++ [c]) →
      (n = MAXSYMLINKS ∨ target_of (st ++ [c]) = None ∨
       ∃ target, target_of (st ++ [c]) = Some target ∧ PATH_MAX ≤ length target + length rest) →
      resolves n st text None.

(** No component of [st] is a symbolic link. *)
Definition walked (st : list chars) : Prop := ∀ k, k < length st → ¬ is_link (take (S k) st).

Lemma walked_take st k : walked st → walked (take k st).
Proof. intros Hw i Hi. rewrite length_take in Hi. rewrite take_take, Nat.min_l by lia. apply Hw. lia. Qed.

Lemma walked_snoc st c : walked st → ¬ is_link (st ++ [c]) → walked (st ++ [c]).
Proof.
  intros Hw Hc k Hk. rewrite length_app in Hk. simpl in Hk. destruct (decide (k < length st)) as [Hl|Hl].
  - rewrite take_app_le by lia. by apply Hw.
  - by rewrite take_ge by (rewrite length_app; simpl; lia).
Qed.

Lemma text_split text c rest :
  split_comp (skip_slashes text) = (c, rest) → no_nul text → no_nul c ∧ no_nul rest.
Proof.
  intros E Hn. destruct (next_comp text c rest E) as (Eq & _). destruct (skip_slashes_suffix text) as [pre Hpre].
  rewrite Hpre, Eq, !no_nul_app in Hn. tauto.
Qed.

Lemma text_comp_ok text c rest :
  split_comp (skip_slashes text) = (c, rest) → no_nul text → c ≠ [] → c ≠ dot → c ≠ dotdot → comp_ok c.
Proof.
  intros E Hn H0 H1 H2. destruct (next_comp text c rest E) as (_ & Hns & _).
  destruct (text_split text c rest E Hn). by split.
Qed.

Lemma comp_step_ok st c : c = dot ∨ c = dotdot → Forall comp_ok st → Forall comp_ok (comp_step st c).
Proof. intros Hc Hst. unfold comp_step. repeat case_decide; [done|by apply Forall_take|naive_solver]. Qed.

Lemma target_nul `{!file_system_laws _} st target : target_of st = Some target → no_nul target ∧ length target < PATH_MAX.
Proof.
  unfold target_of. intros (t & E & Et)%fmap_Some. subst target. cbn [compose]. split.
  - apply Forall_take, no_nul_chars. by eapply readlink_nul.
  - pose proof path_max_pos. rewrite length_take. lia.
Qed.

(** What the walk returns is a path of plain components none of which is a
    symbolic link. *)
Lemma resolves_walked `{!file_system_laws _} n st text r :
  resolves n st text r → no_nul text → Forall comp_ok st → walked st →
  ∀ st', r = Some st' → Forall comp_ok st' ∧ walked st'.
Proof.
  induction 1 as [n st text Hc|n st text c rest r E Hc Hr IH|n st text c rest r E H0 H1 H2 Hl Hr IH
                 |n st text c rest t r E H0 H1 H2 Hl Hn Ht Hlen Hr IH|]; intros Hnul Hok Hw st' Hst'.
  - by injection Hst' as <-.
  - destruct (text_split _ _ _ E Hnul). apply IH; [done|by apply comp_step_ok| |done].
    unfold comp_step. repeat case_decide; [done|by apply walked_take|naive_solver].
  - destruct (text_split _ _ _ E Hnul). apply IH; [done| |by apply walked_snoc|done].
    apply Forall_app. split; [done|]. constructor; [|done]. by eapply text_comp_ok.
  - destruct (text_split _ _ _ E Hnul). destruct (target_nul _ _ Ht). apply IH; [|by destruct (is_abs t)| |done].
    + apply no_nul_app. by split.
    + by destruct (is_abs t); [intros k Hk; simpl in Hk; lia|].
  - done.
Qed.
End reference.

(** ** The buffer *)

Lemma path_max_z : Z.of_nat PATH_MAX = 4096%Z.
Proof. unfold PATH_MAX. by rewrite N_nat_Z. Qed.

Section steps.
Context `{file_system} (prefix : chars).
Implicit Types (s : est) (p : pbuf) (st : list chars) (text : chars).

Lemma wp_on_path {A} (m : M pbuf A) s (Q : A → est → Prop) :
  wp m (λ a p, Q a (mk_est p (es_links s) (es_extra s) (es_mem s))) (es_p s) → wp (on_path m) Q s.
Proof. unfold wp, on_path. by destruct (m (es_p s)) as [[??]|]. Qed.

(** An allocation fails only as the outcomes say. *)
Lemma wp_calloc size s (Q : bool → est → Prop) :
  0 < size ≤ 2 * PATH_MAX →
  (∀ m, (false ∈ m → false ∈ es_mem s) → Q true (mk_est (es_p s) (es_links s) (es_extra s) m)) →
  (false ∈ es_mem s → ∀ m, Q false (mk_est (es_p s) (es_links s) (es_extra s) m)) →
  wp (calloc size) Q s.
Proof.
  intros Hs HT HF. pose proof path_max_z as Hz. unfold wp, calloc.
  assert (E : ∀ b, util_common_calloc_s b (Z.of_nat size) = b).
  { intros b. unfold util_common_calloc_s, MAX_MEMORY_SIZE. rewrite (proj2 (Z.eqb_neq _ _)), (proj2 (Z.ltb_ge _ _)) by lia. done. }
  destruct s as [p n e [|b m]]; cbn [es_mem es_p es_links es_extra] in *; rewrite E; [by apply HT|].
  destruct b; [apply HT; by constructor|apply HF; by constructor].
Qed.

(** The sizes the buffer can have, and room in twice [PATH_MAX] for the text left. *)
Definition sized text p : Prop :=
  (length (pb p) = PATH_MAX ∨ length (pb p) = 2 * PATH_MAX) ∧ pd p < length (pb p) ∧ length text < PATH_MAX ∧
  (skip_slashes text = [] ∨ pd p + need (content p) + length (skip_slashes text) ≤ 2 * PATH_MAX - 2).

Lemma wp_realloc s len (Q : Z → est → Prop) :
  let p := es_p s in
  (length (pb p) = PATH_MAX ∨ length (pb p) = 2 * PATH_MAX) → pd p ≤ length (pb p) → len < PATH_MAX →
  pd p + len < 2 * PATH_MAX →
  (∀ p' m, content p' = content p → pd p' = pd p → length (pb p') = PATH_MAX ∨ length (pb p') = 2 * PATH_MAX →
     pd p' + len < length (pb p') → (false ∈ m → false ∈ es_mem s) → Q 0%Z (mk_est p' (es_links s) (es_extra s) m)) →
  (false ∈ es_mem s → ∀ s', Q (-1)%Z s') →
  wp (do_path_realloc len) Q s.
Proof.
  intros p Hsz Hd Hlen Hfit HQ HF. pose proof path_max_z as Hz. unfold do_path_realloc. apply wp_bind, wp_get. fold p.
  case_decide as E; [apply wp_ret; destruct s; by apply HQ|]. rewrite decide_False by (unfold two64; lia).
  assert (Hp : length (pb p) = PATH_MAX) by lia. rewrite (decide_False (P := PATH_MAX < len + 1)) by lia.
  apply wp_bind, wp_calloc; [lia| |].
  - intros m Hm. rewrite decide_False by lia. apply wp_bind, wp_on_path, wp_modify, wp_ret. fold p.
    replace (length (pb p) + PATH_MAX - PATH_MAX) with PATH_MAX by lia.
    assert (Hl : length (take PATH_MAX (pb p) ++ replicate PATH_MAX NUL) = 2 * PATH_MAX)
      by (rewrite length_app, length_take, length_replicate; lia).
    apply HQ; cbn [pb pd es_p]; [|done|by right|lia|done].
    unfold content. cbn [pb pd es_p]. by rewrite take_app_le, take_take, Nat.min_l by (rewrite ?length_take; lia).
  - intros Hm m. by apply wp_ret, HF.
Qed.

(** Adding a component, and the string that [lstat] reads. *)
Lemma wp_push_comp p st c (Q : unit → pbuf → Prop) :
  no_nul prefix → Forall comp_ok (st ++ [c]) → content p = prefix ++ slash :: dirs st → pd p + length c < length (pb p) →
  (∀ p', content p' = prefix ++ render (st ++ [c]) → pd p' = pd p + length c → length (pb p') = length (pb p) →
     buf_str (pb p') = to_str (prefix ++ render (st ++ [c])) → Q tt p') →
  wp (push_all c;; terminate) Q p.
Proof.
  intros Hn Hok Hc Hl HQ. apply wp_bind, wp_push_all; [lia|]. intros p1 E1 D1 L1. apply wp_terminate; [lia|]. intros p2 E2 D2 L2 N2.
  assert (E : content p2 = prefix ++ render (st ++ [c])).
  { rewrite E2, E1, Hc. unfold render. by rewrite intercalate_snoc, <- app_assoc. }
  apply HQ; [done|lia|lia|]. rewrite <- E. apply buf_str_content; [|by rewrite D2].
  rewrite E. apply no_nul_app. split; [done|by apply no_nul_render].
Qed.

(** [..]: one level up, but not above the prefix. *)
Lemma wp_up p st (Q : unit → pbuf → Prop) :
  pd p < length (pb p) → Forall comp_ok st → shows prefix st (content p) →
  (∀ p', shows prefix (take (pred (length st)) st) (content p') → pb p' = pb p → pd p' ≤ pd p →
     pd p' + need (content p') ≤ pd p + need (content p) → Q tt p') →
  wp (skip_dest_trailing_slash (length prefix)) Q p.
Proof.
  intros Hd Hok Hsh HQ. destruct (content_split p) as [_ L]; [lia|]. apply wp_bind, wp_get. case_decide as E.
  - eapply wp_drop_shows; try done; [lia|]. intros p' E' B' D' _. apply HQ; [by left|done|done|].
    rewrite E', need_dirs. lia.
  - assert (st = []) as ->.
    { destruct Hsh as [Hp|(st' & c & -> & Hp)]; rewrite Hp, length_app in L; simpl in L.
      - destruct st as [|c st _] using rev_ind; [done|]. rewrite dirs_snoc, !length_app in L. simpl in L. lia.
      - apply Forall_app in Hok as [_ Hok]. apply list.Forall_cons in Hok as [[Hne _ _ _ _] _].
        rewrite length_app in L. destruct c; [done|simpl in L; lia]. }
    by apply wp_ret, HQ.
Qed.

Lemma wp_put_prefix p (Q : unit → pbuf → Prop) :
  length prefix < length (pb p) →
  (∀ p', content p' = prefix ++ slash :: dirs [] → pd p' = length prefix + 1 → length (pb p') = length (pb p) → Q tt p') →
  wp (put_prefix prefix;; push slash) Q p.
Proof.
  intros Hl HQ. apply wp_bind, wp_bind, wp_get. rewrite decide_True by lia. apply wp_modify.
  assert (Hb : length (prefix ++ drop (length prefix) (pb p)) = length (pb p)) by (rewrite length_app, length_drop; lia).
  apply wp_push; [cbn [pb pd]; lia|]. intros p' E D L. cbn [pb pd] in *. apply HQ; [|lia|lia].
  rewrite E. unfold content. cbn [pb pd]. by rewrite take_app_length.
Qed.

Lemma wp_copy_buf p st c buf (Q : unit → pbuf → Prop) :
  length prefix < PATH_MAX - 1 → Forall comp_ok (st ++ [c]) → content p = prefix ++ render (st ++ [c]) →
  pd p < PATH_MAX ≤ length (pb p) →
  (∀ p', content p' = prefix ++ slash :: dirs (if is_abs buf then [] else st) → pd p' < PATH_MAX →
     length (pb p') = length (pb p) → Q tt p') →
  wp (do_get_symlinks_copy_buf buf prefix) Q p.
Proof.
  intros Hpl Hok Hc Hd HQ. unfold do_get_symlinks_copy_buf. destruct (is_abs buf).
  - apply wp_put_prefix; [lia|]. intros p' E D L. apply HQ; [done|lia|done].
  - destruct (content_split p) as [_ L]; [lia|]. pose proof Hok as Hok1. apply Forall_app in Hok1 as [_ Hok1]. apply list.Forall_cons in Hok1 as [[Hne _ _ _ _] _].
    assert (0 < length c) by (destruct c; [done|simpl; lia]).
    rewrite Hc, length_app in L. unfold render in L. rewrite intercalate_snoc in L. simpl in L. rewrite length_app in L.
    apply wp_bind, wp_get. rewrite decide_True by lia. apply (wp_drop_shows prefix p (st ++ [c])); [lia| |done|lia|].
    + right. exists st, c. split; [done|]. rewrite Hc. unfold render. by rewrite intercalate_snoc.
    + intros p' E B D _. apply HQ; [|lia|by rewrite B].
      rewrite E, length_app, Nat.add_1_r. simpl pred. by rewrite take_app_length.
Qed.

Lemma wp_get_symlinks s st c rest (Q : option chars → est → Prop) :
  let p := es_p s in
  length prefix < PATH_MAX - 1 → Forall comp_ok (st ++ [c]) → content p = prefix ++ render (st ++ [c]) →
  buf_str (pb p) = to_str (prefix ++ render (st ++ [c])) → pd p < PATH_MAX ≤ length (pb p) → es_links s ≤ MAXSYMLINKS →
  (∀ target p' e m, es_links s < MAXSYMLINKS → target_of prefix (st ++ [c]) = Some target →
     length target + length rest < PATH_MAX → content p' = prefix ++ slash :: dirs (if is_abs target then [] else st) →
     pd p' < PATH_MAX → length (pb p') = length (pb p) → (false ∈ m → false ∈ es_mem s) →
     Q (Some (target ++ rest)) (mk_est p' (S (es_links s)) e m)) →
  (∀ s', (es_links s = MAXSYMLINKS ∨ target_of prefix (st ++ [c]) = None ∨
          ∃ target, target_of prefix (st ++ [c]) = Some target ∧ PATH_MAX ≤ length target + length rest) ∨
         false ∈ es_mem s → Q None s') →
  wp (do_get_symlinks prefix rest) Q s.
Proof.
  intros p Hpl Hok Hc Hstr Hd Hn HQ HF. pose proof path_max_pos as Hpm. unfold do_get_symlinks. apply wp_bind, wp_modify, wp_bind, wp_get.
  cbn [es_p es_links es_extra es_mem]. fold p. rewrite Hstr. case_decide as El; [apply wp_ret, HF; left; left; lia|].
  assert (Hmem : ∀ s' (b : bool) (k : bool → M est (option chars)),
    es_p s' = p → (false ∈ es_mem s' → false ∈ es_mem s) → k false = (mret None : M est (option chars)) →
    (∀ m, (false ∈ m → false ∈ es_mem s) → wp (k true) Q (mk_est p (es_links s') (es_extra s') m)) →
    wp ((if b then mret true else calloc PATH_MAX) ≫= k) Q s').
  { intros s' b k Hp Hm Hk1 Hk2. destruct s' as [p' n' e' m']. cbn [es_p es_links es_extra es_mem] in *. subst p'. destruct b.
    - apply wp_bind, wp_ret. by apply Hk2.
    - apply wp_bind, wp_calloc; [lia| |]; cbn [es_p es_links es_extra es_mem].
      + intros m Hm'. apply Hk2. auto.
      + intros Hf m. rewrite Hk1. apply wp_ret, HF. auto. }
  apply (Hmem _ false); [done|done|done|]. intros m1 Hm1. cbn [negb]. unfold target_of in HF, HQ.
  destruct (readlink _) as [t|]; [|apply wp_ret, HF; by auto]. cbn [fmap option_fmap option_map compose] in HF, HQ.
  set (buf := take (PATH_MAX - 1) (chars_of t)) in *.
  assert (Hbl : length buf ≤ PATH_MAX - 1) by (unfold buf; rewrite length_take; lia).
  apply Hmem; [done|done|done|]. intros m2 Hm2. cbn [negb]. apply wp_bind, wp_modify. cbn [es_p es_links es_extra es_mem].
  case_decide as Eb; [apply wp_ret, HF; left; right; right; exists buf; split; [done|lia]|].
  apply wp_bind, wp_on_path. cbn [es_p es_links es_extra es_mem]. eapply wp_copy_buf; try done. intros p' E D L. apply wp_ret, HQ; try done; lia.
Qed.
End steps.

(** ** The loop *)

Section loop.
Context `{file_system_laws} (prefix : chars).
Hypothesis prefix_nul : no_nul prefix.
Hypothesis prefix_len : length prefix < PATH_MAX - 1.

Lemma sized_next text c rest p p' :
  split_comp (skip_slashes text) = (c, rest) → c ≠ [] → sized text p →
  length (pb p') = PATH_MAX ∨ length (pb p') = 2 * PATH_MAX → pd p' < length (pb p') →
  pd p' + need (content p') ≤ pd p + need (content p) + length c + 1 → sized rest p'.
Proof.
  intros E Hc (_ & _ & Ht & Hw) Hsz Hd Hn. destruct (next_comp text c rest E) as (Eq & _ & _ & Hlr & _).
  pose proof (skip_le text). apply (f_equal length) in Eq as Eql. rewrite length_app in Eql.
  assert (0 < length c) by (destruct c; [done|simpl; lia]).
  split_and!; [done|done|lia|]. destruct (decide (skip_slashes rest = [])) as [|Hne]; [by left|right].
  assert (0 < length (skip_slashes rest)) by (destruct (skip_slashes rest); [done|simpl; lia]).
  destruct Hw as [Hw|Hw]; [rewrite Hw in Eql; simpl in Eql; lia|]. lia.
Qed.

(** From a buffer that shows [st], the loop ends as the reference does or
    because an allocation fails. *)
Definition outcome n st text (mem : list bool) (r : Z) (s' : est) : Prop :=
  (r = 0%Z ∧ ∃ st', resolves prefix n st text (Some st') ∧ Forall comp_ok st' ∧
     shows prefix st' (content (es_p s')) ∧ pd (es_p s') < length (pb (es_p s'))) ∨
  (r = (-1)%Z ∧ (resolves prefix n st text None ∨ false ∈ mem)).

Lemma outcome_mono n n' st st' text text' mem mem' r s :
  (∀ o, resolves prefix n' st' text' o → resolves prefix n st text o) → (false ∈ mem' → false ∈ mem) →
  outcome n' st' text' mem' r s → outcome n st text mem r s.
Proof. intros Hr Hm [(-> & x & ? & ?)|(-> & [?|?])]; [left|right|right]; eauto 6. Qed.

(** What the loop does for the rest of the text. *)
Definition loop_ok (fuel : nat) : Prop := ∀ text s st,
  length text + (MAXSYMLINKS - es_links s) * PATH_MAX < fuel → es_links s ≤ MAXSYMLINKS → no_nul text →
  Forall comp_ok st → shows prefix st (content (es_p s)) → sized text (es_p s) →
  wp (do_eval_symlinks_in_scope fuel prefix text) (outcome (es_links s) st text (es_mem s)) s.

Section component.
Context (fuel : nat) (text c rest : chars) (s : est) (st : list chars).
Hypothesis IH : loop_ok fuel.
Hypothesis Hf : length text + (MAXSYMLINKS - es_links s) * PATH_MAX < S fuel.
Hypothesis Hn : es_links s ≤ MAXSYMLINKS.
Hypothesis Hnul : no_nul text.
Hypothesis Hok : Forall comp_ok st.
Hypothesis Hsz : sized text (es_p s).
Hypothesis E : split_comp (skip_slashes text) = (c, rest).
Hypotheses (H0 : c ≠ []) (H1 : c ≠ dot) (H2 : c ≠ dotdot).

Lemma component_ok : Forall comp_ok (st ++ [c]).
Proof. apply Forall_app. split; [done|]. constructor; [|done]. by eapply text_comp_ok. Qed.

Lemma eval_link_ok p m :
  content p = prefix ++ render (st ++ [c]) → buf_str (pb p) = to_str (prefix ++ render (st ++ [c])) →
  pd p < PATH_MAX → length (pb p) = PATH_MAX ∨ length (pb p) = 2 * PATH_MAX → (false ∈ m → false ∈ es_mem s) →
  is_link prefix (st ++ [c]) →
  wp (r ← do_get_symlinks prefix rest;
      match r with None => mret (-1)%Z | Some text => do_eval_symlinks_in_scope fuel prefix text end)
    (outcome (es_links s) st text (es_mem s)) (mk_est p (es_links s) (es_extra s) m).
Proof.
  intros C B D L Hm Hl. destruct (text_split text c rest E Hnul) as [_ Hrn]. pose proof path_max_pos as Hpm.
  apply wp_bind, (wp_get_symlinks prefix _ st c); cbn [es_p es_links es_mem es_extra]; try done; [apply component_ok|lia| |].
  - intros t p4 e4 m4 Hlt Ht Hlen C4 D4 L4 Hm4. destruct (target_nul _ _ _ Ht) as [Htn _].
    eapply wp_mono; [apply (IH (t ++ rest) _ (if is_abs t then [] else st)); cbn [es_p es_links]; rewrite ?length_app|].
    + replace (MAXSYMLINKS - es_links s) with (S (MAXSYMLINKS - S (es_links s))) in Hf by lia. rewrite Nat.mul_succ_l in Hf. lia.
    + lia.
    + apply no_nul_app. by split.
    + by destruct (is_abs t).
    + by left.
    + pose proof (skip_le (t ++ rest)) as Hk. rewrite length_app in Hk.
      split_and!; [lia|lia|rewrite length_app; lia|right]. rewrite C4, need_dirs. lia.
    + intros r s'. apply outcome_mono; [|auto]. intros o. by apply (res_link _ _ _ _ c rest t).
  - intros s' Hr. apply wp_ret. right. split; [done|]. destruct Hr as [Hr|Hr]; [left|by auto].
    by apply (res_stop _ _ _ _ c rest).
Qed.

Lemma eval_component_ok :
  shows prefix st (content (es_p s)) →
  wp (eval_component (do_eval_symlinks_in_scope fuel prefix) prefix c rest) (outcome (es_links s) st text (es_mem s)) s.
Proof.
  intros Hsh. destruct (next_comp text c rest E) as (Eq & _ & Hcp & _). unfold eval_component.
  destruct (text_split text c rest E Hnul) as [Hcn Hrn]. apply (f_equal length) in Eq as Eql. rewrite length_app in Eql.
  pose proof (skip_le text) as Hsk. pose proof (need_le (content (es_p s))) as Hne. pose proof path_max_pos as Hpm.
  assert (Hc0 : 0 < length c) by (destruct c; [done|simpl; lia]). pose proof component_ok as Hok'.
  pose proof Hsz as (Hs1 & Hs2 & Hs3 & Hs4). destruct Hs4 as [Hs4|Hs4]; [rewrite Hs4 in Eql; simpl in Eql; lia|].
  apply wp_bind, wp_on_path, (wp_push_slash prefix _ st); [done|done|done|]. intros p1 C1 D1 L1.
  apply wp_bind, wp_realloc; cbn [es_p es_links es_mem es_extra]; [lia|lia|lia|lia| |].
  2: { intros Hm s'. apply wp_ret. right. auto. }
  intros p2 m2 C2 D2 L2 F2 Hm2. rewrite decide_False by (intros Hz; by apply Hz). rewrite C1 in C2.
  apply wp_bind, wp_on_path, (wp_push_comp prefix _ st); [done|done|done|done|]. cbn [es_p es_links es_mem es_extra].
  intros p3 C3 D3 L3 B3. apply wp_bind, wp_get. cbn [es_p]. rewrite B3. unfold do_eval_symlinks_in_scope_is_symlink.
  assert (Hsh3 : shows prefix (st ++ [c]) (content p3)).
  { right. exists st, c. split; [done|]. rewrite C3. unfold render. by rewrite intercalate_snoc. }
  assert (Hfile : ¬ is_link prefix (st ++ [c]) →
    wp (do_eval_symlinks_in_scope fuel prefix rest) (outcome (es_links s) st text (es_mem s))
       (mk_est p3 (es_links s) (es_extra s) m2)).
  { intros Hl. eapply wp_mono; [apply (IH rest _ (st ++ [c])); cbn [es_p es_links]; try done; [lia|]|].
    - eapply (sized_next text c rest _ p3); try done; [lia|lia|]. pose proof (need_le (content p3)). lia.
    - intros r s'. apply outcome_mono; [|done]. intros o. by apply (res_file _ _ _ _ c rest). }
  unfold is_link in Hfile. destruct (lstat _) as [[]|] eqn:El; [|apply Hfile; by rewrite ?El..].
  apply eval_link_ok; [done|done| |lia|done|done]. destruct (decide (pd p3 < PATH_MAX)); [done|].
  rewrite lstat_long in El; [done|]. rewrite chars_of_string, <- C3, (proj2 (content_split p3 ltac:(lia))). lia.
Qed.
End component.

Lemma eval_loop_ok fuel : loop_ok fuel.
Proof.
  induction fuel as [|fuel IH]; intros text s st Hf Hn Hnul Hok Hsh Hsz; [lia|]. cbn [do_eval_symlinks_in_scope].
  assert (Hend : comps text = [] → outcome (es_links s) st text (es_mem s) 0%Z s).
  { intros Hc. left. split; [done|]. exists st. split_and!; [by constructor|done|done|apply Hsz]. }
  destruct text as [|a text']; [by apply wp_ret, Hend|]. set (text := a :: text') in *. clearbody text.
  destruct (split_comp (skip_slashes text)) as [c rest] eqn:E. destruct (next_comp text c rest E) as (Eq & _ & Hcp & _).
  destruct (text_split text c rest E Hnul) as [Hcn Hrn]. apply (f_equal length) in Eq as Eql. rewrite length_app in Eql.
  pose proof (skip_le text) as Hsk. case_decide as H0; [apply wp_ret, Hend; by rewrite Hcp|].
  assert (Hc0 : 0 < length c) by (destruct c; [done|simpl; lia]).
  case_decide as H1; [|case_decide as H2].
  - eapply wp_mono; [apply (IH rest s st); try done; [lia|]|].
    + eapply sized_next; try done; [apply Hsz|apply Hsz|lia].
    + intros r s'. apply outcome_mono; [|done]. intros o Ho. apply (res_dots _ _ _ _ c rest); [done|by left|].
      unfold comp_step. by rewrite decide_True.
  - apply wp_bind, wp_on_path, (wp_up prefix _ st); [apply Hsz|done|done|]. intros p Hp B D N.
    assert (Hst : comp_step st c = take (pred (length st)) st) by (unfold comp_step; by rewrite decide_False, decide_True).
    eapply wp_mono; [apply (IH rest _ (comp_step st c)); cbn [es_p es_links]; rewrite ?Hst; try done; [lia|by apply Forall_take|]|].
    + eapply sized_next; try done; rewrite ?B; [apply Hsz|destruct Hsz; lia|lia].
    + intros r s'. apply outcome_mono; [|done]. intros o. apply (res_dots _ _ _ _ c rest); [done|by right].
  - by apply eval_component_ok.
Qed.
End loop.

(** ** The result *)

(** The text in front of every result: nothing when the root is ["/"]. *)
Definition root_prefix (rs : list chars) : chars := if decide (rs = []) then [] else render rs.

(** The outcomes of [eval_symlinks_in_scope] on normal paths with the
    components [ps] and [rs]. *)
Inductive follows `{file_system} (mem : list bool) (ps rs : list chars) : option chars → Prop :=
  | fol_root : ps = rs → follows mem ps rs (Some (render rs))
  | fol_outside : ps ≠ rs → strstr (render rs) (render ps) = None → follows mem ps rs None
  | fol_walk r :
      ps ≠ rs → strstr (render rs) (render ps) ≠ None →
      resolves (root_prefix rs) 0 [] (drop (length (root_prefix rs)) (render ps)) r →
      follows mem ps rs ((λ st, root_prefix rs ++ render st) <$> r)
  | fol_long : ps ≠ rs → PATH_MAX - 1 ≤ length (root_prefix rs) → follows mem ps rs None
  | fol_memory : ps ≠ rs → false ∈ mem → follows mem ps rs None.

Lemma render_inj ps rs : Forall comp_ok ps → Forall comp_ok rs → render ps = render rs → ps = rs.
Proof. intros Hf Hr E. by rewrite <- (normalise_render ps Hf), E, normalise_render. Qed.

Lemma render_root rs : Forall comp_ok rs → render rs = chars_of "/" → rs = [].
Proof. intros Hr E. apply render_inj; [done|constructor|]. by rewrite E. Qed.

(** The components of a path of a process in the directory [d]. *)
Definition comps_from (d : list chars) (path : string) : list chars :=
  normalise (if is_abs (chars_of path) then [] else d) (chars_of path).

Lemma comps_from_ok d path : Forall comp_ok d → nul_free path = true → Forall comp_ok (comps_from d path).
Proof. intros Hd Hn. apply normalise_ok; [by apply no_nul_chars|]. by destruct (is_abs (chars_of path)). Qed.

Lemma root_prefix_nul rs : Forall comp_ok rs → no_nul (root_prefix rs).
Proof. intros Hr. unfold root_prefix. case_decide; [constructor|by apply no_nul_render]. Qed.

Section result.
Context `{file_system_laws} (d : list chars).
Hypothesis Hd : Forall comp_ok d.
Let cwd := Some (to_str (render d)).

(** From the empty buffer to the end of the loop. *)
Lemma eval_run_ok prefix text mem :
  no_nul prefix → length prefix < PATH_MAX - 1 → no_nul text → length prefix + length text < PATH_MAX →
  wp (eval_in_buffer prefix text)
    (λ b s, if b then ∃ st, resolves prefix 0 [] text (Some st) ∧ buf_str (pb (es_p s)) = to_str (prefix ++ render st)
            else resolves prefix 0 [] text None ∨ false ∈ mem)
    (mk_est (mk_pbuf (replicate PATH_MAX NUL) 0) 0 false mem).
Proof.
  intros Hpn Hpl Htn Htl. pose proof path_max_pos. apply wp_bind, wp_calloc; [lia| |]; cbn [es_p es_links es_extra es_mem negb].
  2: { intros Hm m. apply wp_ret. by right. }
  intros m Hm. rewrite decide_False by lia. apply wp_bind, wp_on_path, wp_put_prefix; [cbn [es_p pb]; rewrite length_replicate; lia|].
  intros p C D L. cbn [es_p es_links es_extra es_mem pb pd] in *. rewrite length_replicate in L.
  apply wp_bind. eapply wp_mono; [apply (eval_loop_ok prefix Hpn Hpl (eval_fuel text) text _ []); cbn [es_p es_links]|].
  - unfold eval_fuel. lia.
  - lia.
  - done.
  - constructor.
  - by left.
  - pose proof (skip_le text). split_and!; [by left|lia|lia|right]. rewrite C, need_dirs. lia.
  - cbn [es_p es_links es_mem]. intros r s [(-> & st & Hr & Hok & Hsh & Hl)|(-> & Hr)].
    + rewrite decide_False by (intros Hz; by apply Hz). apply wp_bind, wp_on_path.
      eapply wp_mono; [apply (finish_ok prefix _ st); done|]. intros u p' E. apply wp_ret. by exists st.
    + rewrite decide_True by done. apply wp_ret. destruct Hr; auto.
Qed.

Lemma eval_ok mem ps rs :
  Forall comp_ok ps → Forall comp_ok rs → length (render ps) < PATH_MAX → length (render rs) < PATH_MAX →
  ∃ r, eval_symlinks_in_scope cwd mem (Some (to_str (render ps))) (Some (to_str (render rs))) = Some (to_str <$> r) ∧
       follows mem ps rs r.
Proof.
  intros Hps Hrs Hlf Hlr. pose proof (no_nul_render rs Hrs) as Hn. unfold eval_symlinks_in_scope, cwd. rewrite clean_render by done.
  case_decide as Eq.
  { apply (f_equal chars_of) in Eq. rewrite !chars_of_string in Eq. exists (Some (render rs)).
    split; [by rewrite Eq|]. apply fol_root. by apply render_inj. }
  assert (Hne : ps ≠ rs) by (by intros ->). rewrite !chars_of_string.
  destruct (strstr (render rs) (render ps)) as [x|] eqn:Es; [|exists None; split; [done|by apply fol_outside]].
  assert (Hpre : (if decide (to_str (render rs) = "/"%string) then [] else render rs) = root_prefix rs).
  { unfold root_prefix. case_decide as E1; case_decide as E2; [done| |by subst|done]. apply (f_equal chars_of) in E1.
    rewrite chars_of_string in E1. by apply render_root in E1. }
  rewrite Hpre. set (P := root_prefix rs) in *. set (text := drop (length P) (render ps)).
  assert (HP : no_nul P) by (by apply root_prefix_nul).
  destruct (decide (PATH_MAX - 1 ≤ length P)) as [El|El].
  - exists None. split; [|by apply fol_long]. unfold eval_in_buffer, mbind, M_bind. destruct (calloc _ _) as [[[] s]|] eqn:Ec; [cbn [negb]; by rewrite decide_True|done|].
    unfold calloc in Ec. by repeat case_match.
  - assert (Htl : length P + length text < PATH_MAX) by (unfold text; rewrite length_drop; lia).
    pose proof (eval_run_ok P text mem HP ltac:(lia) (Forall_drop _ _ _ (no_nul_render ps Hps)) Htl) as (b & s & Hrun & Hb)%wp_run.
    rewrite Hrun. destruct b.
    + destruct Hb as (st & Hr & ->). exists (Some (P ++ render st)). split; [done|].
      apply (fol_walk mem ps rs (Some st)); [done|by rewrite Es|done].
    + exists None. split; [done|]. destruct Hb as [Hr|Hr]; [|by apply fol_memory].
      apply (fol_walk mem ps rs None); [done|by rewrite Es|done].
Qed.

Lemma follow_ok mem full root :
  nul_free full = true → nul_free root = true →
  ∃ r, util_follow_symlink_in_scope cwd mem (Some full) (Some root) = Some (to_str <$> r) ∧
       (r = None ∨ follows mem (comps_from d full) (comps_from d root) r).
Proof.
  intros Hf Hr. unfold util_follow_symlink_in_scope, cwd.
  destruct (clean_defined d full PATH_MAX Hd Hf ltac:(done)) as [[full'|] Ef]; rewrite Ef; [|by exists None; auto].
  destruct (clean_defined d root PATH_MAX Hd Hr ltac:(done)) as [[root'|] Er]; rewrite Er; [|by exists None; auto].
  destruct (clean_inv d full PATH_MAX full' Hd Hf ltac:(done) Ef) as (-> & Hfo & Hfl).
  destruct (clean_inv d root PATH_MAX root' Hd Hr ltac:(done) Er) as (-> & Hro & Hrl).
  destruct (eval_ok mem _ _ Hfo Hro Hfl Hrl) as (r & E & Hfol). exists r. auto.
Qed.

(** A result is the root itself, or the root followed by plain components none
    of which is a symbolic link. *)
Definition contained (rs : list chars) (r : chars) : Prop :=
  r = render rs ∨ ∃ st, r = root_prefix rs ++ render st ∧ Forall comp_ok st ∧ walked (root_prefix rs) st.

Lemma follows_contained mem ps rs r : follows mem ps rs (Some r) → Forall comp_ok ps → contained rs r.
Proof.
  intros Hfol Hok. inversion Hfol as [Hq Er| |o Hne Hs Hr E| |]; [by left|]. right.
  destruct o as [st|]; [|done]. injection E as <-. exists st. split; [done|].
  eapply (resolves_walked _ 0 [] _ _ Hr); [|constructor| |done].
  - by apply Forall_drop, no_nul_render.
  - intros k Hk. simpl in Hk. lia.
Qed.

Lemma follow_contained mem full root :
  nul_free full = true → nul_free root = true →
  ∃ res, util_follow_symlink_in_scope cwd mem (Some full) (Some root) = Some res ∧
    ∀ r, res = Some r → contained (comps_from d root) (chars_of r).
Proof.
  intros Hf Hr. destruct (follow_ok mem full root Hf Hr) as (o & E & Ho). exists (to_str <$> o). split; [done|].
  intros r (x & -> & ->)%fmap_Some. rewrite chars_of_string. destruct Ho as [|Ho]; [done|].
  eapply follows_contained; [done|by apply comps_from_ok].
Qed.

Lemma resource_contained mem root path :
  nul_free root = true → nul_free path = true →
  ∃ res, util_get_resource_path cwd mem (Some root) path = Some res ∧
    ∀ r, res = Some r → contained (comps_from d root) (chars_of r).
Proof.
  intros Hr Hp. unfold util_get_resource_path, cwd. case_decide as El; [by exists None|clear El].
  set (tmp := slash :: chars_of root ++ slash :: chars_of path).
  assert (Ht : nul_free (to_str tmp) = true).
  { apply nul_free_to_str. change tmp with ([slash] ++ chars_of root ++ [slash] ++ chars_of path). rewrite !no_nul_app.
    split_and!; try (by apply no_nul_chars); by repeat constructor. }
  clearbody tmp. destruct (clean_defined d (to_str tmp) PATH_MAX Hd Ht ltac:(done)) as [[full|] Ef]; rewrite Ef; [|by exists None].
  destruct (clean_inv d _ PATH_MAX full Hd Ht ltac:(done) Ef) as (-> & Hfo & _).
  apply follow_contained; [|done]. by apply nul_free_to_str, no_nul_render.
Qed.
End result.

(** ** Paths of a container *)

(** C5: For every file system, a path that [util_follow_symlink_in_scope] returns is
    the root or lies below it, with plain components none of which is a symbolic
    link: opening it does not leave the root.  The call never has undefined
    behaviour and it terminates. *)
Theorem util_follow_symlink_in_scope_contained `{file_system_laws} d mem full root :
  Forall comp_ok d → nul_free full = true → nul_free root = true →
  ∃ res, util_follow_symlink_in_scope (Some (to_str (render d))) mem (Some full) (Some root) = Some res ∧
    ∀ r, res = Some r → contained (comps_from d root) (chars_of r).
Proof. intros Hd Hf Hr. by apply follow_contained. Qed.

Section below_root.
Context `{file_system}.

(** A path without symbolic links is its own resolution. *)
Lemma resolves_plain prefix n st text r :
  resolves prefix n st text r → Forall comp_ok (comps text) → walked prefix (st ++ comps text) → r = Some (st ++ comps text).
Proof.
  assert (Hlink : ∀ st c cs, walked prefix (st ++ c :: cs) → ¬ is_link prefix (st ++ [c])).
  { intros st' c cs Hw. specialize (Hw (length st')). rewrite length_app in Hw. simpl in Hw.
    rewrite cons_middle, app_assoc, take_app_length' in Hw by (rewrite length_app; simpl; lia). apply Hw. lia. }
  induction 1 as [n st text Hc|n st text c rest r E Hc Hr IH|n st text c rest r E H0 H1 H2 Hl Hr IH
                 |n st text c rest t r E H0 H1 H2 Hl Hn Ht Hlen Hr IH|n st text c rest E H0 H1 H2 Hl]; intros Hok Hw.
  - by rewrite Hc, app_nil_r.
  - destruct (next_comp text c rest E) as (_ & _ & Hcp & _). rewrite decide_False in Hcp by (destruct Hc; by subst).
    rewrite Hcp in Hok. apply list.Forall_cons in Hok as [[_ _ _ H1 H2] _]. by destruct Hc.
  - destruct (next_comp text c rest E) as (_ & _ & Hcp & _). rewrite decide_False in Hcp by done.
    rewrite Hcp in *. apply list.Forall_cons in Hok as [_ Hok]. rewrite <- (app_assoc st [c]) in IH. by apply IH.
  - destruct (next_comp text c rest E) as (_ & _ & Hcp & _). rewrite decide_False in Hcp by done. rewrite Hcp in Hw.
    by apply Hlink in Hw.
  - destruct (next_comp text c rest E) as (_ & _ & Hcp & _). rewrite decide_False in Hcp by done. rewrite Hcp in Hw.
    by apply Hlink in Hw.
Qed.

Lemma render_app rs ts : ts ≠ [] → render (rs ++ ts) = root_prefix rs ++ render ts.
Proof.
  intros Hts. unfold root_prefix, render. case_decide as E; [by subst|]. rewrite <- app_comm_cons. f_equal.
  induction rs as [|c rs IH]; [done|]. destruct rs as [|c' rs]; [by destruct ts|].
  change (intercalate [slash] ((c :: c' :: rs) ++ ts)) with (c ++ [slash] ++ intercalate [slash] ((c' :: rs) ++ ts)).
  rewrite IH by done. change (intercalate [slash] (c :: c' :: rs)) with (c ++ [slash] ++ intercalate [slash] (c' :: rs)).
  by rewrite <- !app_assoc.
Qed.

Lemma prefix_by_app d x : prefix_by Ascii.eqb d (d ++ x) = true.
Proof. induction d as [|a d IH]; [by destruct x|]. simpl. by rewrite Ascii.eqb_refl. Qed.

Lemma strstr_below rs ts : ts ≠ [] → strstr (render rs) (render (rs ++ ts)) ≠ None.
Proof.
  intros Hts. assert (∃ x, render (rs ++ ts) = render rs ++ x) as [x ->].
  { rewrite (render_app rs ts Hts). unfold root_prefix. case_decide; [by subst; eexists|eauto]. }
  unfold render at 2. cbn [app strstr]. rewrite app_comm_cons. by rewrite prefix_by_app.
Qed.
End below_root.

(** C26: For a path below the root the result is the one of the walk: [None] for too
    many links, a link that cannot be read or a text that grows too long, and
    otherwise the path of the final stack.  A path without symbolic links is
    returned as it is. *)
Theorem util_follow_symlink_in_scope_resolves `{file_system_laws} d mem rs ts :
  Forall comp_ok d → Forall comp_ok (rs ++ ts) → ts ≠ [] → length (render (rs ++ ts)) < PATH_MAX → false ∉ mem →
  ∃ r, resolves (root_prefix rs) 0 [] (render ts) r ∧ (walked (root_prefix rs) ts → r = Some ts) ∧
    util_follow_symlink_in_scope (Some (to_str (render d))) mem
      (Some (to_str (render (rs ++ ts)))) (Some (to_str (render rs))) =
    Some (to_str ∘ (λ st, root_prefix rs ++ render st) <$> r).
Proof.
  intros Hd Hok Hts Hl Hm. pose proof Hok as [Hrs Hto]%Forall_app. pose proof (render_app rs ts Hts) as Er.
  assert (Hlp : length (root_prefix rs) < PATH_MAX - 1).
  { rewrite Er, length_app in Hl. destruct ts as [|t ts]; [done|]. apply list.Forall_cons in Hto as [[Hne _ _ _ _] _].
    destruct t as [|a t]; [done|]. destruct ts; simpl in Hl; lia. }
  assert (Hlr : length (render rs) < PATH_MAX).
  { pose proof path_max_pos. unfold root_prefix in Hlp. case_decide as E; [subst; simpl; lia|lia]. }
  assert (Hne : rs ++ ts ≠ rs) by (intros E; apply Hts, (app_inv_head rs); by rewrite app_nil_r).
  unfold util_follow_symlink_in_scope. rewrite !clean_render by done.
  destruct (eval_ok d Hd mem (rs ++ ts) rs Hok Hrs Hl Hlr) as (o & -> & Hfol).
  inversion Hfol as [E|? E Eo|r ? Hs Hr Eo|? E Eo|? E Eo]; try done; [by apply strstr_below in E| |lia].
  exists r. rewrite Er, drop_app_length in Hr. split_and!; [done| |by rewrite <- option_fmap_compose].
  intros Hw. assert (Hc : comps (render ts) = ts) by (unfold render; rewrite comps_slash; by apply comps_intercalate).
  apply resolves_plain in Hr; rewrite Hc in *; done.
Qed.

(** ** A path and its last component *)

(** A path with a slash, whose text after the last one is not [..]. *)
Definition plain_base (p : chars) : Prop :=
  ∃ u v, p = u ++ slash :: v ∧ Forall (λ a, ISSLASH a = false) v ∧ v ≠ dotdot ∧ no_nul u ∧ no_nul v.

Lemma last_slash_back l i : i ≤ length l → back_to_slash l i = Some (last_slash l i).
Proof.
  induction i as [|i IH]; intros Hi; [done|]. simpl. destruct (lookup_lt_is_Some_2 l i Hi) as [c ->].
  destruct (ISSLASH c); [done|]. apply IH. lia.
Qed.

Lemma last_slash_at u v :
  Forall (λ a, ISSLASH a = false) v → last_slash (u ++ slash :: v) (length (u ++ slash :: v)) = S (length u).
Proof.
  intros Hv. pose proof (back_to_slash_skip u v [] Hv) as Hb. rewrite app_nil_r in Hb.
  replace (S (length u + length v)) with (length (u ++ slash :: v)) in Hb by (rewrite length_app; simpl; lia).
  rewrite last_slash_back in Hb by done. by injection Hb.
Qed.

Lemma split_at path u v :
  chars_of path = u ++ slash :: v → Forall (λ a, ISSLASH a = false) v →
  util_filepath_split (Some path) = Some (to_str (u ++ [slash]), to_str v).
Proof.
  intros E Hv. unfold util_filepath_split. rewrite E, (last_slash_at u v Hv), decide_False by done. rewrite cons_middle, app_assoc.
  rewrite take_app_length', drop_app_length' by (rewrite length_app; simpl; lia). done.
Qed.

Lemma plain_render st : Forall comp_ok st → plain_base (render st).
Proof.
  intros Hok. destruct st as [|c st _] using rev_ind.
  { exists [], []. by repeat constructor. }
  pose proof (no_nul_render _ Hok) as Hr. apply Forall_app in Hok as [_ Hc]. apply list.Forall_cons in Hc as [[_ Hns Hn _ Hdd] _].
  destruct (ends_slash [] st) as [u Hu]. simpl in Hu.
  assert (E : render (st ++ [c]) = u ++ slash :: c) by (unfold render; by rewrite intercalate_snoc, app_comm_cons, Hu, <- app_assoc).
  rewrite E, no_nul_app in Hr. destruct Hr as [Hun _]. exists u, c. by split_and!.
Qed.

Lemma plain_slash p : no_nul p → plain_base (p ++ [slash]).
Proof. intros Hn. exists p, []. by repeat constructor. Qed.

Lemma plain_nul p : plain_base p → no_nul p.
Proof. intros (u & v & -> & _ & _ & Hu & Hv). apply no_nul_app. split; [done|]. by constructor. Qed.

Lemma preserve_plain cleaned original r :
  plain_base (chars_of cleaned) → util_preserve_trailing_dot_or_separator (Some cleaned) (Some original) = Some r →
  plain_base (chars_of r).
Proof.
  intros Hc. unfold util_preserve_trailing_dot_or_separator. case_decide; [done|]. case_decide as El; [done|clear El]. intros [= <-].
  set (res := if _ && _ then _ else cleaned).
  assert (Hres : plain_base (chars_of res)).
  { subst res. destruct (_ && _); [|done]. rewrite chars_of_string. unfold util_has_trailing_path_separator.
    pose proof (plain_nul _ Hc) as Hn.
    assert (Hadd : ∀ q, no_nul q → plain_base ((q ++ [slash]) ++ dot)).
    { intros q Hq. exists q, dot. rewrite <- app_assoc. by repeat constructor. }
    destruct (chars_of cleaned) as [|a q _] eqn:E using rev_ind; [by destruct Hc as ([|] & ? & ? & _)|].
    rewrite last_snoc. destruct (ISSLASH a) eqn:Ea; [|by apply Hadd]. apply Ascii.eqb_eq in Ea as ->.
    apply Hadd. by apply no_nul_app in Hn as [? _]. }
  clearbody res. destruct (_ && _); [|done]. rewrite chars_of_string. by apply plain_slash, plain_nul.
Qed.

(** The path that [util_resolve_path] stores is a directory of the root followed
    by one component, which is not [..]. *)
Theorem util_resolve_path_contained `{file_system_laws} d mem mem_result root path :
  Forall comp_ok d → nul_free root = true → nul_free path = true →
  ∃ res, util_resolve_path (Some (to_str (render d))) mem mem_result (Some root) path = Some res ∧
    ∀ resolved abspath, res = Some (resolved, abspath) →
      ∃ dir base, chars_of resolved = dir ++ slash :: base ∧ contained (comps_from d root) dir ∧
        Forall (λ a, ISSLASH a = false) base ∧ base ≠ dotdot.
Proof.
  intros Hd Hr Hp. unfold util_resolve_path. case_decide as El; [by exists None|clear El].
  set (tmp := slash :: chars_of path).
  assert (Ht : nul_free (to_str tmp) = true) by (apply nul_free_to_str; constructor; [done|by apply no_nul_chars]).
  clearbody tmp. destruct (clean_defined d (to_str tmp) PATH_MAX Hd Ht ltac:(done)) as [[cl|] Ef]; rewrite Ef; [|by exists None].
  destruct (clean_inv d _ PATH_MAX cl Hd Ht ltac:(done) Ef) as (-> & Hfo & _).
  destruct (util_preserve_trailing_dot_or_separator _ _) as [ab|] eqn:Ea; [|by exists None].
  apply preserve_plain in Ea; [|rewrite chars_of_string; by apply plain_render].
  destruct Ea as (u & v & Eab & Hv & Hdd & Hu & Hvn). rewrite (split_at ab u v Eab Hv).
  assert (Hdir : nul_free (to_str (u ++ [slash])) = true).
  { apply nul_free_to_str, no_nul_app. split; [done|by repeat constructor]. }
  destruct (resource_contained d Hd mem root _ Hr Hdir) as ([dir|] & -> & Hc); [|by exists None].
  destruct (util_common_calloc_s _ _); [|by exists None]. eexists. split; [done|]. intros res ab' [= <- _].
  exists (chars_of dir), v. rewrite !chars_of_string. split_and!; [done|by apply Hc|done|done].
Qed.

(** ** Concrete file systems *)

(** The file system with the links of a table; every other short path is a file. *)
Definition table_lstat (links : list (string * string)) (path : string) : option bool :=
  if decide (PATH_MAX ≤ length (chars_of path)) then None
  else Some (bool_decide (Exists (λ l, fst l = path) links)).

Fixpoint table_readlink (links : list (string * string)) (path : string) : option string :=
  match links with
  | [] => None
  | (p, target) :: links => if decide (p = path) then Some target else table_readlink links path
  end.

Definition table_fs (links : list (string * string)) : file_system :=
  {| lstat := table_lstat links; readlink := table_readlink links |}.

Lemma table_fs_laws links : Forall (λ l, nul_free (snd l) = true) links → file_system_laws (table_fs links).
Proof.
  intros Hl. split; simpl.
  - intros path Hp. unfold table_lstat. by rewrite decide_True.
  - intros path target. induction Hl as [|[p t] links Ht _ IH]; simpl; [done|]. case_decide; [|done]. by intros [= <-].
Qed.


(** [eval_symlinks_in_scope] looks for the root anywhere in the path: the path
    of a directory beside the root is taken for one below it. *)
Example follow_beside_root :
  @util_follow_symlink_in_scope (table_fs []) (Some "/"%string) [] (Some "/rx/y"%string) (Some "/r"%string) =
  Some (Some "/r/x/y"%string).
Proof. vm_compute. reflexivity. Qed.

Definition demo_fs : file_system := table_fs [("/r/a/l", "/etc/../../x"); ("/r/up", "../../..")]%string.

Lemma demo_fs_laws : file_system_laws demo_fs.
Proof. apply table_fs_laws. by repeat constructor. Qed.

Lemma util_follow_symlink_in_scope_contained_witness :
  ∃ res, @util_follow_symlink_in_scope demo_fs (Some "/"%string) [] (Some "/r/a/l/z"%string) (Some "/r/"%string) = Some res ∧
    ∀ r, res = Some r → @contained demo_fs [chars_of "r"] (chars_of r).
Proof.
  exact (@util_follow_symlink_in_scope_contained demo_fs demo_fs_laws [] [] "/r/a/l/z" "/r/" (Forall_nil_2 _) eq_refl eq_refl).
Defined.

Lemma util_follow_symlink_in_scope_resolves_witness :
  ∃ r, @resolves demo_fs (chars_of "/r") 0 [] (chars_of "/a/b") r ∧
    (@walked demo_fs (chars_of "/r") [chars_of "a"; chars_of "b"] → r = Some [chars_of "a"; chars_of "b"]) ∧
    @util_follow_symlink_in_scope demo_fs (Some "/"%string) [] (Some "/r/a/b"%string) (Some "/r"%string) =
    Some (to_str ∘ (λ st, chars_of "/r" ++ render st) <$> r).
Proof.
  apply (@util_follow_symlink_in_scope_resolves demo_fs demo_fs_laws [] [] [chars_of "r"] [chars_of "a"; chars_of "b"]).
  - constructor.
  - repeat constructor; discriminate.
  - discriminate.
  - vm_compute. lia.
  - by intros ?%elem_of_nil.
Defined.

Lemma util_resolve_path_contained_witness :
  ∃ res, @util_resolve_path demo_fs (Some "/"%string) [] true (Some "/r"%string) "up/../a/." = Some res ∧
    ∀ resolved abspath, res = Some (resolved, abspath) →
      ∃ dir base, chars_of resolved = dir ++ slash :: base ∧ @contained demo_fs [chars_of "r"] dir ∧
        Forall (λ a, ISSLASH a = false) base ∧ base ≠ dotdot.
Proof.
  exact (@util_resolve_path_contained demo_fs demo_fs_laws [] [] true "/r" "up/../a/." (Forall_nil_2 _) eq_refl eq_refl).
Defined.
