(* ===== verification/ImageName.v ===== *)
(** * References to images

    [src/daemon/modules/image/oci/utils_images.c]: the parts of a reference, the
    tag and the host that it leaves out, and the file names of the data of an
    image; with the functions of [image_store.c] that take a reference for an
    identifier, a digest or a name, and sort the names of an image.

    [mem] is the outcome of the allocations of a call, in order; [default_host]
    is the host of the daemon's constants.  [None] is undefined behaviour. *)
From stdpp Require Import base gmap list strings numbers.
From Stdlib Require Import ZArith Lia Ascii.
From S2P Require Import Prelude CString Regex Array Convert StringUtil Verify Path SymlinkScope.

Local Open Scope Z_scope.

Definition DEFAULT_TAG : string := ":latest".
Definition REPO_PREFIX_TO_STRIP : string := "library/".
Definition HTTPS_PREFIX : string := "https://".
Definition HTTP_PREFIX : string := "http://".

(** Two independent sequences of outcomes from one. *)
Definition evens (mem : nat → bool) : nat → bool := λ n, mem (n + n)%nat.
Definition odds (mem : nat → bool) : nat → bool := λ n, mem (S (n + n)).

(** The text after its first [n] bytes. *)
Definition str_drop (n : nat) (s : string) : string := to_str (drop n (chars_of s)).

(** ** Functions of [utils.c] and [sha256.c] *)
Definition util_full_digest (digest : option string) : option string :=
  match digest with
  | None => None
  | Some digest =>
    let full_digest := SHA256_PREFIX +:+ digest in
    if decide (PATH_MAX ≤ String.length full_digest)%nat then None else Some full_digest
  end.

Definition util_without_sha256_prefix (digest : option string) : option string :=
  match digest with
  | None => None
  | Some d => if util_has_prefix digest (Some SHA256_PREFIX) then Some (str_drop (String.length SHA256_PREFIX) d) else None
  end.

(** The user and the group. *)
Definition util_parse_user_group (username : option string) : option string * option string :=
  match username with
  | None => (None, None)
  | Some tmp =>
    match strchr ":" (chars_of tmp) with
    | Some (user, group) => (if decide (user = []) then None else Some (to_str user), if decide (group = []) then None else Some (to_str group))
    | None => (if String.eqb tmp "" then None else Some tmp, None)
    end
  end.

(** ** The parts of a reference *)

(** The name and the text from the last [@] on. *)
Definition oci_image_digest_pos (name : option string) : option (chars * chars) :=
  match name with
  | None => None
  | Some name =>
    match strrchr "@" (chars_of name) with
    | None => None
    | Some (before, pos) => if reg_ok DIGESTPattern (to_str pos) then Some (before, pos) else None
    end
  end.

Fixpoint last_part (parts : list (option string)) (last : option string) : option string :=
  match parts with Some p :: parts => last_part parts (Some p) | _ => last end.
Definition get_last_part (parts : list (option string)) : option string := last_part parts None.

Definition split_slash (mem : nat → bool) (name : string) : option (option (list (option string))) :=
  util_string_split (mem 0%nat) (mem 1%nat) (λ n, mem (S (S n))) (Some name) "/".

Definition oci_get_host (mem : nat → bool) (name : option string) : option (option string) :=
  match name with
  | None => Some None
  | Some name =>
    parts ← split_slash mem name;
    let first := match parts with Some (p :: _) => p | _ => None end in
    let no_host := match first with
                   | Some p => negb (util_strings_contains_any first (Some ".:"%string)) && negb (String.eqb p "localhost")
                   | None => false
                   end in
    Some (if no_host || negb (has_char "/" name) then None else first)
  end.

Definition oci_default_tag (mem : nat → bool) (name : option string) : option (option string) :=
  match name with
  | None => Some None
  | Some name =>
    parts ← split_slash mem name;
    match parts with
    | None => Some None
    | Some parts =>
      let add_default_tag := match get_last_part parts with
                             | Some p => if has_char ":" p then EmptyString else DEFAULT_TAG
                             | None => EmptyString
                             end in
      let temp := name +:+ add_default_tag in
      Some (if decide (PATH_MAX ≤ String.length temp)%nat then None else Some temp)
    end
  end.

Definition oci_host_from_mirror (mirror : option string) : option string :=
  match mirror with
  | None => None
  | Some m =>
    if util_has_prefix mirror (Some HTTPS_PREFIX) then Some (str_drop (String.length HTTPS_PREFIX) m)
    else if util_has_prefix mirror (Some HTTP_PREFIX) then Some (str_drop (String.length HTTP_PREFIX) m)
    else mirror
  end.

Definition oci_add_host (mem : bool) (host name : option string) : option string :=
  match host, name with
  | Some host, Some name =>
    if String.eqb host "" then None else
    let need_repo_prefix := negb (has_char "/" name) in
    if negb mem then None else
    Some (host +:+ (if decide (list.last (chars_of host) = Some slash) then EmptyString else String slash EmptyString)
          +:+ (if need_repo_prefix then REPO_PREFIX_TO_STRIP else EmptyString) +:+ name)
  | _, _ => None
  end.

Definition get_hostname_to_strip (default_host : option string) (mem : bool) : option string :=
  match default_host with
  | None => None
  | Some host => if negb mem then None else Some (host +:+ String slash EmptyString)
  end.

Definition oci_strip_host_prefix (default_host : option string) (mem : bool) (name : option string) : option string :=
  match name with
  | None => None
  | Some striped =>
    match get_hostname_to_strip default_host mem with
    | None => name
    | Some hostname =>
      let striped := if util_has_prefix (Some striped) (Some hostname) then str_drop (String.length hostname) striped else striped in
      Some (if util_has_prefix (Some striped) (Some REPO_PREFIX_TO_STRIP) then str_drop (String.length REPO_PREFIX_TO_STRIP) striped else striped)
    end
  end.

Definition oci_normalize_image_name (default_host : option string) (mem : nat → bool) (name : option string) : option (option string) :=
  with_tag ← oci_default_tag (evens mem) name;
  Some (oci_strip_host_prefix default_host (odds mem 0%nat) with_tag).

(** The host, the name, and the tag or the digest; [None] is the result -1. *)
Definition oci_split_image_name (image_name : option string) : option (option string * option string * option string) :=
  match image_name with
  | None => None
  | Some tmp =>
    if negb (util_valid_image_name image_name) then None else
    let '(base, tag_digest) :=
      match match oci_image_digest_pos image_name with Some p => Some p | None => util_tag_pos (chars_of tmp) end with
      | Some (base, pos) => (base, Some (to_str (tail pos)))
      | None => (chars_of tmp, None)
      end in
    match strchr slash base with
    | None => Some (None, None, tag_digest)
    | Some (host, name) =>
      let name := match strchr ":" name with Some (name, _) => name | None => name end in
      Some (Some (to_str host), Some (to_str name), tag_digest)
    end
  end.

Definition oci_split_search_name (mem : nat → bool) (search_name : option string) : option (option (option string * option string)) :=
  match search_name with
  | None => Some None
  | Some s =>
    if negb (util_valid_search_name search_name) then Some None else
    arr ← split_slash mem s;
    match arr with
    | None => Some None
    | Some arr =>
      len ← util_array_len (Some arr);
      if decide (len ≠ 2) then Some None else Some (Some (mjoin (arr !! 0%nat), mjoin (arr !! 1%nat)))
    end
  end.

Definition oci_image_id_from_digest (digest : option string) : option string :=
  match digest with
  | None => None
  | Some d => if util_valid_digest digest then Some (str_drop (String.length SHA256_PREFIX) d) else None
  end.

Definition oci_get_isulad_tmpdir (cwd env_dir root_dir : option string) : option (option string) :=
  match root_dir with
  | None => Some None
  | Some _ => util_path_join cwd (if util_valid_isulad_tmpdir env_dir then env_dir else root_dir) (Some "isulad_tmpdir"%string)
  end.

(** ** File names of the data of an image *)
Definition should_use_origin_name (name : string) : bool :=
  forallb (λ ch, Ascii.eqb ch "." || ((48 <=? byte ch) && (byte ch <=? 57)) || ((97 <=? byte ch) && (byte ch <=? 122))) (chars_of name).

(** [base64] is [util_base64_encode], which OpenSSL implements. *)
Definition make_big_data_base_name (base64 : string → option string) (mem : bool) (key : option string) : option string :=
  match key with
  | None => None
  | Some k =>
    if should_use_origin_name k then key else
    match base64 k with
    | None => None
    | Some b64_encode_name => if negb mem then None else Some (String "=" b64_encode_name)
    end
  end.

(** ** References in the store of images *)
Definition IDENTIFIER_PATTERN : string := "^[a-f0-9]{64}$".

Definition validate_digest (digest : string) : bool :=
  match strchr ":" (chars_of digest) with
  | None | Some (_, []) => false
  | Some (alg, encode) => if negb (String.eqb (to_str alg) "sha256") then false else reg_ok IDENTIFIER_PATTERN (to_str encode)
  end.

Definition parse_digest_reference (default_host : option string) (mem : nat → bool) (ref : string) : option (option string) :=
  if reg_ok IDENTIFIER_PATTERN ref then util_string_append (mem 0%nat) (Some ref) (Some SHA256_PREFIX) else
  if validate_digest ref then Some (Some ref) else
  oci_normalize_image_name default_host mem (Some ref).

Definition MAX_IMAGE_NAME_LENGTH : Z := 72.
Definition MAX_IMAGE_DIGEST_LENGTH : Z := 64.
Definition DIGEST_PREFIX : string := "@sha256:".

(** The names with a digest end in it. *)
Definition is_digest_name (mem : bool) (name : string) : bool :=
  let len := Z.of_nat (String.length name) in
  if MAX_IMAGE_NAME_LENGTH <? len then
    match util_sub_string mem (Some name) (len - MAX_IMAGE_NAME_LENGTH) (MAX_IMAGE_NAME_LENGTH - MAX_IMAGE_DIGEST_LENGTH) with
    | Some prefix => String.eqb prefix DIGEST_PREFIX
    | None => false
    end
  else false.

(** The loop: [false] when an array cannot be grown. *)
Fixpoint resort_loop (mem : nat → bool) (names tags digests : list string) : bool * list string * list string :=
  match names with
  | [] => (true, tags, digests)
  | name :: names =>
    let mem' := λ n, mem (S (S n)) in
    if negb (mem 1%nat) then (false, tags, digests) else
    if is_digest_name (mem 0%nat) name then resort_loop mem' names tags (digests ++ [name])
    else resort_loop mem' names (tags ++ [name]) digests
  end.

(** The first name, the tags and the digests; [None] is the result -1.  Where it
    fails the arrays are freed, and freed again by the caller if there are any;
    and [first_name], which may be [NULL], is dereferenced. *)
Definition resort_image_names (mem : nat → bool) (names : list string) (first_name : bool)
    : option (option (option string * list string * list string)) :=
  let '(ok, tags, digests) := resort_loop mem names [] [] in
  if negb ok then if first_name && bool_decide (tags = []) && bool_decide (digests = []) then Some None else None
  else Some (Some (match head tags with Some t => Some t | None => head digests end, tags, digests)).

(** The repository of a tag with a digest. *)
Definition repo_digest (default_host : option string) (mem : nat → bool) (tag digest : string) : option (option string) :=
  ref ← parse_digest_reference default_host mem tag;
  Some (match ref with
        | None => None
        | Some ref =>
          match util_tag_pos (chars_of ref) with
          | None => None
          | Some (before, _) => Some (to_str before +:+ "@" +:+ digest)
          end
        end).

(** One outcome of each iteration is that of [asprintf]. *)
Fixpoint consistent_loop (default_host : option string) (mem : nat → bool) (name : string) (tags : list string) (digest : string) : option Z :=
  match tags with
  | [] => Some (-1)
  | tag :: tags =>
    r ← repo_digest default_host (evens (evens mem)) tag digest;
    match r with
    | None => consistent_loop default_host (odds mem) name tags digest
    | Some tmp_repo_digests =>
      if negb (odds (evens mem) 0%nat) then Some (-1) else
      if String.eqb name tmp_repo_digests then Some 0 else consistent_loop default_host (odds mem) name tags digest
    end
  end.

Definition is_name_digest_consistent (default_host : option string) (mem : nat → bool) (name : string) (names : list string) (digest : string) : option Z :=
  r ← resort_image_names (evens mem) names false;
  match r with
  | None => Some (-1)
  | Some (_, tags, _) => consistent_loop default_host (odds mem) name tags digest
  end.

(** ** Theorems *)

(** A name that fits the arrays of the splitting functions. *)
Definition short (name : string) : Prop := Z.of_nat (String.length name) + 32 ≤ max_items.

Lemma chars_to_str s : chars_of (to_str s) = s.
Proof. apply chars_of_string. Qed.

Lemma chars_inj s t : chars_of s = chars_of t → s = t.
Proof. intros E. by rewrite <- (to_str_chars s), <- (to_str_chars t), E. Qed.

Lemma fields_app d a b : fields d (a ++ d :: b) = fields d a ++ fields d b.
Proof.
  induction a as [|c a IH]; cbn [fields app]; [by rewrite Ascii.eqb_refl|]. rewrite IH. destruct (Ascii.eqb c d); [done|].
  rewrite (strsep_fields d a). done.
Qed.

(** The last component that is not empty. *)
Definition last_component (name : string) : chars := default [] (list.last (filter nonempty (fields slash (chars_of name)))).

Lemma last_part_cells l dflt : last_part ((Some <$> l) ++ [None]) dflt = match list.last l with Some x => Some x | None => dflt end.
Proof.
  revert dflt. induction l as [|x l IH]; intros dflt; [done|]. cbn [fmap list_fmap app last_part]. rewrite IH, last_cons. by destruct (list.last l).
Qed.

Lemma split_slash_last name :
  short name → ∃ parts, split_slash (λ _, true) name = Some (Some parts) ∧ get_last_part parts = Some (to_str (last_component name)).
Proof.
  intros Hs. unfold split_slash. rewrite (util_string_split_ok name "/" Hs). unfold last_component, slash.
  set (l := filter nonempty _). eexists. split; [done|]. unfold get_last_part. destruct l as [|f l']; [done|].
  rewrite list_fmap_compose, last_part_cells, fmap_last. rewrite last_cons. by destruct (list.last l').
Qed.

(** The tag that a reference leaves out. *)
Definition tag_of (name : string) : string := if existsb (Ascii.eqb ":") (last_component name) then EmptyString else DEFAULT_TAG.

Lemma oci_default_tag_ok name :
  short name → oci_default_tag (λ _, true) (Some name) =
    Some (if decide (PATH_MAX ≤ String.length (name +:+ tag_of name))%nat then None else Some (name +:+ tag_of name)).
Proof.
  intros Hs. unfold oci_default_tag. destruct (split_slash_last name Hs) as (parts & -> & Hl). cbn. rewrite Hl. unfold tag_of, has_char. by rewrite chars_to_str.
Qed.

(** [host/] and [library/] in front of a name are taken off. *)
Lemma has_prefix_app p s : util_has_prefix (Some (p +:+ s)) (Some p) = true.
Proof.
  unfold util_has_prefix. rewrite (proj2 (Nat.ltb_ge _ _)) by (rewrite string_length_app; lia). rewrite chars_of_app. apply prefix_by_app.
Qed.

Lemma str_drop_app p s : str_drop (String.length p) (p +:+ s) = s.
Proof. unfold str_drop. by rewrite chars_of_app, <- length_chars_of, drop_app_length, to_str_chars. Qed.

Lemma string_app_assoc (a b c : string) : (a +:+ b) +:+ c = a +:+ (b +:+ c).
Proof. apply chars_inj. by rewrite !chars_of_app, app_assoc. Qed.

Lemma has_prefix_iff p s : util_has_prefix (Some s) (Some p) = true ↔ ∃ r, s = p +:+ r.
Proof.
  split; [|intros [r ->]; apply has_prefix_app]. unfold util_has_prefix. destruct (Nat.ltb_spec (String.length s) (String.length p)); [done|].
  intros Hp. assert (∃ r, chars_of s = chars_of p ++ r) as [r Hr].
  { revert Hp. generalize (chars_of s) (chars_of p). clear. intros s p. revert s. induction p as [|a p IH]; intros s Hp; [by exists s|]. destruct s as [|b s]; [done|].
    cbn in Hp. apply andb_true_iff in Hp as [->%Ascii.eqb_eq Hp]. destruct (IH s Hp) as [r ->]. by exists r. }
  exists (to_str r). apply chars_inj. by rewrite chars_of_app, chars_to_str.
Qed.

(** A name that is not already written with the host or the library. *)
Definition plain (host name : string) : Prop :=
  util_has_prefix (Some name) (Some (host +:+ String slash EmptyString)) = false ∧ util_has_prefix (Some name) (Some REPO_PREFIX_TO_STRIP) = false.

Definition host_ok (host : string) : Prop := host ≠ EmptyString ∧ Forall (λ c, Ascii.eqb c slash = false ∧ Ascii.eqb c ":" = false) (chars_of host).

Lemma forall_fields (P : ascii → Prop) d s : Forall P s → Forall (Forall P) (fields d s).
Proof.
  induction 1 as [|c s Hc Hs IH]; cbn [fields]; [by repeat constructor|]. destruct (Ascii.eqb c d); [by repeat constructor|].
  inversion IH as [|f fs Hf Hfs]; subst; repeat constructor; done.
Qed.

Lemma tag_of_prefix a b : Forall (λ c, Ascii.eqb c ":" = false) (chars_of a) → tag_of (a +:+ String slash b) = tag_of b.
Proof.
  intros Ha. unfold tag_of, last_component. rewrite chars_of_app. change (chars_of (String slash b)) with (slash :: chars_of b).
  rewrite fields_app, list.filter_app, last_app. destruct (list.last (filter nonempty (fields slash (chars_of b)))) as [x|]; [done|]. cbn [default].
  destruct (list.last (filter nonempty (fields slash (chars_of a)))) as [x|] eqn:E; [|done]. cbn [default].
  assert (Hx : Forall (λ c, Ascii.eqb c ":" = false) x).
  { apply last_Some_elem_of in E. apply list_elem_of_filter in E as [_ E]. exact (proj1 (list.Forall_forall _ _) (forall_fields _ _ _ Ha) x E). }
  clear E. unfold id. replace (existsb (Ascii.eqb ":") x) with false; [reflexivity|]. induction Hx as [|c x Hc Hx IH]; [done|]. cbn [existsb]. by rewrite Ascii.eqb_sym, Hc.
Qed.

Lemma tag_cases name : tag_of name = EmptyString ∨ tag_of name = DEFAULT_TAG.
Proof. unfold tag_of. case_match; [by left|by right]. Qed.

(** A tag does not make a prefix without colons appear. *)
Lemma prefix_tag p name :
  Forall (λ c, Ascii.eqb c ":" = false) (chars_of p) → util_has_prefix (Some (name +:+ tag_of name)) (Some p) = util_has_prefix (Some name) (Some p).
Proof.
  intros Hp. apply Bool.eq_iff_eq_true. rewrite !has_prefix_iff. split.
  - intros [r Hr]. destruct (tag_cases name) as [E|E]; rewrite E in Hr.
    + exists r. rewrite <- Hr. apply chars_inj. by rewrite chars_of_app, app_nil_r.
    + apply (f_equal chars_of) in Hr. rewrite !chars_of_app in Hr. apply app_eq_inv in Hr as [(k & Hn & Hk)|(k & Hn & Hk)].
      * exists (to_str k). apply chars_inj. by rewrite chars_of_app, chars_to_str.
      * destruct k as [|c k]; [exists EmptyString; apply chars_inj; by rewrite chars_of_app, app_nil_r; rewrite app_nil_r in Hn|].
        rewrite Hn, Forall_app, list.Forall_cons in Hp. cbn in Hk. injection Hk as <- _. destruct Hp as (_ & ? & _). done.
  - intros [r ->]. exists (r +:+ tag_of (p +:+ r)). apply string_app_assoc.
Qed.

Lemma strip_plain host name :
  host_ok host → plain host name → oci_strip_host_prefix (Some host) true (Some (name +:+ tag_of name)) = Some (name +:+ tag_of name).
Proof.
  intros [_ Hh] [H1 H2]. cbn [oci_strip_host_prefix get_hostname_to_strip negb]. rewrite prefix_tag, H1, prefix_tag, H2; [done|by repeat constructor|].
  rewrite chars_of_app, Forall_app. split; [|by repeat constructor]. eapply list.Forall_impl; [exact Hh|]. naive_solver.
Qed.


(** ** References with a digest *)
Lemma resort_loop_ok names tags digests : ∃ tags' digests',
  resort_loop (λ _, true) names tags digests = (true, tags ++ tags', digests ++ digests') ∧ (∀ n, n ∈ tags' → n ∈ names).
Proof.
  revert tags digests. induction names as [|n names IH]; intros tags digests; cbn [resort_loop negb].
  { exists [], []. rewrite !app_nil_r. split; [done|]. by intros n ?%not_elem_of_nil. }
  destruct (is_digest_name true n).
  - destruct (IH tags (digests ++ [n])) as (t & d & -> & Ht). exists t, ([n] ++ d). rewrite app_assoc. split; [done|]. intros x Hx. right. by apply Ht.
  - destruct (IH (tags ++ [n]) digests) as (t & d & -> & Ht). exists ([n] ++ t), d. rewrite app_assoc. split; [done|]. intros x [->|Hx]%elem_of_cons; [by left|]. right. by apply Ht.
Qed.

(** A name as callers write it. *)
Definition name_ok (name : string) : Prop := nul_free name = true ∧ short name.

Lemma string_append_ok post pre : nul_free pre = true → name_ok post → (String.length pre < 16)%nat → util_string_append true (Some post) (Some pre) = Some (Some (pre +:+ post)).
Proof.
  intros Hpre [Hpost Hs] Hl. unfold short in Hs. rewrite max_items_eq in Hs. unfold util_string_append, SIZE_MAX. rewrite u64_small by (unfold two64; lia). rewrite (proj2 (Z.ltb_ge _ _)) by lia.
  rewrite u64_small by (unfold two64; lia). unfold util_common_calloc_s, MAX_MEMORY_SIZE. rewrite (proj2 (Z.eqb_neq _ _)), (proj2 (Z.ltb_ge _ _)) by lia. cbn [orb].
  replace (Z.to_nat _) with (length (chars_of pre) + S (length (chars_of post)))%nat by (rewrite !length_chars_of; lia).
  unfold mbind, M_bind. pose proof (strcat_ok [] (chars_of pre) (length (chars_of post)) ltac:(constructor)) as E1. rewrite !app_nil_l in E1. rewrite E1.
  pose proof (strcat_ok (chars_of pre) (chars_of post) 0 (no_nul_chars _ Hpre)) as E2. rewrite Nat.add_1_r in E2. rewrite E2. do 2 f_equal.
  rewrite buf_str_ok by (apply no_nul_app; split; by apply no_nul_chars). rewrite <- chars_of_app. apply to_str_chars.
Qed.

Lemma parse_reference_ok host ref : name_ok ref → ∃ r, parse_digest_reference host (λ _, true) ref = Some r.
Proof.
  intros Hr. unfold parse_digest_reference. destruct (reg_ok IDENTIFIER_PATTERN ref); [rewrite string_append_ok by (done || (cbn; lia)); by eexists|].
  destruct (validate_digest ref); [by eexists|]. destruct Hr as [_ Hs]. unfold oci_normalize_image_name, evens. rewrite oci_default_tag_ok by done. by eexists.
Qed.

Lemma consistent_loop_ok host name tags digest : Forall name_ok tags → ∃ z, consistent_loop host (λ _, true) name tags digest = Some z.
Proof.
  induction 1 as [|t tags Ht _ [z IH]]; cbn [consistent_loop]; [by eexists|]. unfold evens, odds, repo_digest. destruct (parse_reference_ok host t Ht) as [r ->]. cbn [mbind option_bind].
  destruct r as [ref|]; [|by exists z]. destruct (util_tag_pos (chars_of ref)) as [[before ?]|]; [|by exists z]. cbn [negb]. destruct (String.eqb _ _); [by eexists|by exists z].
Qed.

(** With memory the comparison of a name and a digest is defined. *)
Lemma consistent_ok host name names digest : Forall name_ok names → ∃ z, is_name_digest_consistent host (λ _, true) name names digest = Some z.
Proof.
  intros Hn. unfold is_name_digest_consistent, resort_image_names. destruct (resort_loop_ok names [] []) as (t & d & E & Ht). unfold evens at 1. rewrite E. cbn [negb mbind option_bind].
  apply consistent_loop_ok. rewrite list.Forall_forall in Hn |- *. intros x Hx. by apply Hn, Ht.
Qed.

