(* ===== verification/IpNet.v ===== *)
(** * Addresses and networks

    [src/utils/cutils/utils_network.c]: parsing and printing of IPv4 and IPv6
    addresses and of networks in CIDR notation, membership of an address in a
    network, and the validators.  An address is a list of bytes, a byte is a [Z].
    [mem] says whether the allocations of a call succeed; a failure of any of
    them has the same result.  The machine is little-endian.

    The theorems relate these functions to the numbers that addresses denote:
    membership is equality of prefixes, printing and reading are inverse. *)
From stdpp Require Import base list strings numbers.
From Stdlib Require Import ZArith Lia Ascii.
From S2P Require Import Prelude CString Regex Array Convert StringUtil Verify Path.

Local Open Scope Z_scope.

(** ** [inet_pton] of the C library *)

(** The octets before the current one, and the current one if it has a digit. *)
Fixpoint pton4 (octets : list Z) (cur : option Z) (s : chars) : option (list Z) :=
  match s with
  | [] => match cur with Some v => if decide (length octets = 3%nat) then Some (octets ++ [v]) else None | None => None end
  | c :: s =>
    match digit_in 10 c with
    | Some d =>
      match cur with
      | Some v => if decide (v = 0 ∨ 255 < v * 10 + d) then None else pton4 octets (Some (v * 10 + d)) s
      | None => pton4 octets (Some d) s
      end
    | None =>
      if Ascii.eqb c "." then
        match cur with
        | Some v => if decide (length octets = 3%nat) then None else pton4 (octets ++ [v]) None s
        | None => None
        end
      else None
    end
  end.

Definition inet_pton4 (src : chars) : option (list Z) := pton4 [] None src.

(** The end of [inet_pton6]: the last group, and the zeros for [::]. *)
Definition pton6_end (tmp : list Z) (colonp : option nat) (seen : nat) (val : Z) : option (list Z) :=
  let tmp := match seen with O => tmp | S _ => tmp ++ [val / 256; val mod 256] end in
  if decide (16 < length tmp)%nat then None else
  match colonp with
  | Some k => if decide (length tmp = 16)%nat then None else Some (take k tmp ++ replicate (16 - length tmp) 0 ++ drop k tmp)
  | None => if decide (length tmp = 16)%nat then Some tmp else None
  end.

(** The bytes so far, where [::] was, the digits of the current group and its
    value, and where the group begins. *)
Fixpoint pton6 (tmp : list Z) (colonp : option nat) (seen : nat) (val : Z) (curtok s : chars) : option (list Z) :=
  match s with
  | [] => pton6_end tmp colonp seen val
  | c :: s =>
    match digit_in 16 c with
    | Some d => if decide (seen = 4)%nat then None else pton6 tmp colonp (S seen) (val * 16 + d) curtok s
    | None =>
      if Ascii.eqb c ":" then
        match seen, s with
        | O, _ => match colonp with Some _ => None | None => pton6 tmp (Some (length tmp)) 0 0 s s end
        | S _, [] => None
        | S _, _ => if decide (16 < length tmp + 2)%nat then None else pton6 (tmp ++ [val / 256; val mod 256]) colonp 0 0 s s
        end
      else if Ascii.eqb c "." then
        if decide (length tmp + 4 ≤ 16)%nat then
          match inet_pton4 curtok with Some q => pton6_end (tmp ++ q) colonp 0 0 | None => None end
        else None
      else None
    end
  end.

Definition inet_pton6 (src : chars) : option (list Z) :=
  match src with
  | [] => None
  | c :: s =>
    if Ascii.eqb c ":" then
      match s with
      | d :: _ => if Ascii.eqb d ":" then pton6 [] None 0 0 s s else None
      | [] => None
      end
    else pton6 [] None 0 0 src src
  end.

(** ** Reading addresses *)
Definition IPV4LEN : nat := 4.
Definition IPV6LEN : nat := 16.

(** [struct in_addr]: four bytes in memory, read as an integer. *)
Fixpoint s_addr (bytes : list Z) : Z := match bytes with [] => 0 | b :: bytes => b + 256 * s_addr bytes end.

Fixpoint in_addr_loop (n : nat) (work : Z) : list Z :=
  match n with O => [] | S n => Z.land work 255 :: in_addr_loop n (Z.shiftr work 8) end.

Definition get_ip_from_in_addr (mem : bool) (ipv4 : list Z) : option (list Z) :=
  if negb mem then None else Some (in_addr_loop IPV4LEN (s_addr ipv4)).

Definition get_ip_from_in6_addr (mem : bool) (ipv6 : list Z) : option (list Z) :=
  if negb mem then None else Some ipv6.

(** [None] is a result of [-1]. *)
Definition util_parse_ip_from_str (mem : bool) (addr : option string) : option (list Z) :=
  match addr with
  | None => None
  | Some addr =>
    match inet_pton4 (chars_of addr) with
    | Some ipv4 => get_ip_from_in_addr mem ipv4
    | None =>
      match inet_pton6 (chars_of addr) with
      | Some ipv6 => get_ip_from_in6_addr mem ipv6
      | None => None
      end
    end
  end.

(** ** Printing addresses

    The outer [None] is undefined behaviour, the inner one [NULL]. *)
Definition MAX_UINT_LEN : nat := 3.
Definition IPV6_MAX_ADDR_LEN : nat := 40.

Fixpoint uint8_join_loop (sep : chars) (fmt : Z → chars) (parts : list Z) : M chars bool :=
  match parts with
  | [] => mret true
  | p :: rest =>
    if decide (MAX_UINT_LEN + 1 ≤ length (fmt p))%nat then mret false else
    strcat (fmt p);;
    match rest with [] => mret true | _ => strcat sep;; uint8_join_loop sep fmt rest end
  end.

Definition do_uint8_join (mem : bool) (sep : chars) (fmt : Z → chars) (parts : list Z) (result_len : Z) : option (option string) :=
  if decide (SIZE_MAX - 1 < result_len) then Some None else
  if negb (util_common_calloc_s mem (u64 (result_len + 1))) then Some None else
  match uint8_join_loop sep fmt parts (replicate (Z.to_nat (result_len + 1)) NUL) with
  | Some (true, b) => Some (Some (buf_str b))
  | Some (false, _) => Some None
  | None => None
  end.

Definition uint8_join (mem : bool) (sep : chars) (fmt : Z → chars) (parts : list Z) : option (option string) :=
  let len := Z.of_nat (length parts) in
  if decide (len = 0) then Some None else
  let sep_len := Z.of_nat (length sep) in
  if decide (SIZE_MAX / (sep_len + Z.of_nat MAX_UINT_LEN) < len) then Some None else
  do_uint8_join mem sep fmt parts ((len - 1) * sep_len + Z.of_nat MAX_UINT_LEN * len).

Definition g_HEX_DICT : chars := chars_of "0123456789abcdef".
Definition hex_char (n : Z) : ascii := nth (Z.to_nat n) g_HEX_DICT NUL.

(** [%u] of a byte. *)
Definition fmt_u (b : Z) : chars := fmt_llu b.

(** [ip[i]], inside the address. *)
Definition byte_at (addr : list Z) (i : nat) : Z := nth i addr 0.

Definition is_ipv4_mapped_address (addr : list Z) : bool :=
  forallb (λ b, b =? 0) (take 10 addr) && (byte_at addr 10 =? 255) && (byte_at addr 11 =? 255).

(** [inl] is the result [1], not an IPv4 address. *)
Definition parse_ipv4_to_string (mem : bool) (addr : list Z) : option (unit + option string) :=
  if decide (length addr = IPV4LEN) then inr <$> uint8_join mem ["."%char] fmt_u addr
  else if negb (is_ipv4_mapped_address addr) then Some (inl tt)
  else if negb mem then Some (inr None)
  else inr <$> uint8_join mem ["."%char] fmt_u (take IPV4LEN (drop 12 addr)).

Section ipv6.
Let PM := M pbuf.

(** One hexadecimal digit; [skip] while only zeros came before it. *)
Definition put_nibble (n : Z) (skip : bool) : PM bool :=
  if decide (n ≠ 0) then push (hex_char n);; mret false
  else if negb skip then push (hex_char n);; mret false else mret true.

Definition put_group (addr : list Z) (i : nat) : PM unit :=
  skip ← put_nibble (Z.shiftr (byte_at addr i) 4) true;
  skip ← put_nibble (Z.land (byte_at addr i) 15) skip;
  skip ← put_nibble (Z.shiftr (byte_at addr (S i)) 4) skip;
  skip ← put_nibble (Z.land (byte_at addr (S i)) 15) skip;
  mret tt.

(** The loop of [generate_ipv6_string] from the byte [i] on. *)
Fixpoint ipv6_loop (fuel : nat) (addr : list Z) (zeros : option (nat * nat)) (i : nat) : PM unit :=
  match fuel with
  | O => fail
  | S fuel =>
    if decide (IPV6LEN ≤ i)%nat then mret tt else
    match zeros with
    | Some (e0, e1) =>
      if decide (i = e0) then
        push ":"%char;; push ":"%char;;
        if decide (IPV6LEN ≤ e1)%nat then mret tt else put_group addr e1;; ipv6_loop fuel addr zeros (e1 + 2)
      else (if decide (0 < i)%nat then push ":"%char else mret tt);; put_group addr i;; ipv6_loop fuel addr zeros (i + 2)
    | None => (if decide (0 < i)%nat then push ":"%char else mret tt);; put_group addr i;; ipv6_loop fuel addr zeros (i + 2)
    end
  end.

Definition generate_ipv6_string (mem : bool) (addr : list Z) (zeros : option (nat * nat)) : option (option string) :=
  if negb mem then Some None else
  match ipv6_loop 9 addr zeros 0 (mk_pbuf (replicate IPV6_MAX_ADDR_LEN NUL) 0) with
  | Some (_, s) => Some (Some (buf_str (pb s)))
  | None => None
  end.
End ipv6.

(** The end of the zero groups from [j] on. *)
Fixpoint zeros_end (fuel : nat) (addr : list Z) (j : nat) : nat :=
  match fuel with
  | O => j
  | S fuel =>
    if decide (j < IPV6LEN)%nat then
      if (byte_at addr j =? 0) && (byte_at addr (S j) =? 0) then zeros_end fuel addr (j + 2) else j
    else j
  end.

(** The longest run of zero groups, the first of them; [None] is [-1], [-1]. *)
Fixpoint find_zeros (fuel : nat) (addr : list Z) (i : nat) (best : option (nat * nat)) : option (nat * nat) :=
  match fuel with
  | O => best
  | S fuel =>
    if decide (IPV6LEN ≤ i)%nat then best else
    let j := zeros_end 8 addr i in
    let width := match best with Some (e0, e1) => e1 - e0 | None => 0 end%nat in
    if decide (i < j ∧ width < j - i)%nat then find_zeros fuel addr (j + 2) (Some (i, j))
    else find_zeros fuel addr (i + 2) best
  end.

(** The zeros that are written as [::], at least two groups. *)
Definition shortened (addr : list Z) : option (nat * nat) :=
  let zeros := find_zeros 9 addr 0 None in
  match zeros with Some (e0, e1) => if decide (e1 - e0 ≤ 2)%nat then None else zeros | None => None end.

Definition parse_ipv6_to_string (mem : bool) (addr : list Z) : option (option string) :=
  if decide (length addr ≠ IPV6LEN) then Some None else
  generate_ipv6_string mem addr (shortened addr).

Definition parse_standard_ip_to_string (mem : bool) (addr : list Z) : option (option string) :=
  if decide (length addr ≠ IPV4LEN ∧ length addr ≠ IPV6LEN) then Some None else
  match parse_ipv4_to_string mem addr with
  | None => None
  | Some (inr r) => Some r
  | Some (inl _) => parse_ipv6_to_string mem addr
  end.

Definition parse_nonstandard_ip_to_string (mem : bool) (addr : list Z) : option (option string) :=
  match uint8_join mem [] fmt_02x addr with
  | Some (Some tmp) =>
    if decide (SIZE_MAX - 2 < Z.of_nat (String.length tmp)) then Some None else
    let res_len := 1 + Z.of_nat (String.length tmp) + 1 in
    if negb (util_common_calloc_s mem res_len) then Some None else Some (Some (String "?" tmp))
  | r => r
  end.

Definition util_ip_to_string (mem : bool) (addr : list Z) : option (option string) :=
  if decide (addr = []) then Some (Some "<nil>"%string) else
  if decide (length addr ≠ IPV4LEN ∧ length addr ≠ IPV6LEN) then parse_nonstandard_ip_to_string mem addr
  else parse_standard_ip_to_string mem addr.

(** ** Networks *)
Record ipnet := mk_ipnet { ip : list Z; ip_mask : list Z }.

#[global] Instance ipnet_eq_dec : EqDecision ipnet.
Proof. solve_decision. Defined.

Definition u8 (z : Z) : Z := Z.land z 255.

Fixpoint mask_loop (ip_len : nat) (mask_cnt : Z) : list Z :=
  match ip_len with
  | O => []
  | S n => if decide (8 <= mask_cnt) then 255 :: mask_loop n (mask_cnt - 8) else u8 (Z.lnot (Z.shiftr 255 mask_cnt)) :: mask_loop n 0
  end.

Definition do_parse_mask_in_cidr (mem : bool) (mask_num : Z) (addr : list Z) : option ipnet :=
  if negb mem then None else Some (mk_ipnet addr (mask_loop (length addr) mask_num)).

Definition util_parse_ipnet_from_str (mem : bool) (cidr_str : option string) : option ipnet :=
  match cidr_str with
  | None => None
  | Some cidr_str =>
    match strchr slash (chars_of cidr_str) with
    | None => None
    | Some (addr, mask) =>
      if negb mem then None else
      match util_parse_ip_from_str mem (Some (to_str addr)) with
      | None => None
      | Some addr =>
        match util_safe_uint (Some (to_str mask)) with
        | inl _ => None
        | inr mask_num => if decide (8 * Z.of_nat (length addr) < mask_num) then None else do_parse_mask_in_cidr mem mask_num addr
        end
      end
    end
  end.

Definition get_ipv4_mask (mem : bool) (value : ipnet) : option (list Z) :=
  if negb mem then None else Some (take IPV4LEN (ip_mask value)).

Definition get_ipv6_mask (mem : bool) (value : ipnet) : option (list Z) :=
  if negb mem then None else
  if is_ipv4_mapped_address (ip value) then Some (take IPV4LEN (drop 12 (ip_mask value))) else Some (take IPV6LEN (ip_mask value)).

Definition get_mask (mem : bool) (value : ipnet) : option (list Z) :=
  let mask_len := length (ip_mask value) in
  if decide (mask_len ≠ IPV4LEN ∧ mask_len ≠ IPV6LEN) then None else
  if decide (length (ip value) ≠ mask_len) then None else
  if decide (mask_len = IPV4LEN) then get_ipv4_mask mem value else get_ipv6_mask mem value.

(** The leading ones of a byte, and what is left of it after they are shifted out. *)
Fixpoint leading_ones (fuel : nat) (work : Z) : Z * Z :=
  match fuel with
  | O => (0, work)
  | S fuel => if decide (Z.land work 128 ≠ 0) then let '(n, w) := leading_ones fuel (u8 (Z.shiftl work 1)) in (n + 1, w) else (0, work)
  end.

Fixpoint mask_length (mask : list Z) : option Z :=
  match mask with
  | [] => Some 0
  | b :: mask =>
    if decide (b = 255) then match mask_length mask with Some n => Some (8 + n) | None => None end else
    let '(n, work) := leading_ones 9 b in
    if decide (work ≠ 0) then None else
    if forallb (λ b, b =? 0) mask then Some n else None
  end.

Definition generate_mask_string (mask : list Z) : option string :=
  match mask_length mask with Some ret => util_int_to_string ret | None => None end.

Definition parse_nonstandard_mask_to_string (mem : bool) (mask : list Z) : option string :=
  if decide ((SIZE_MAX - 1) / 2 < Z.of_nat (length mask)) then None else
  if negb (util_common_calloc_s mem (Z.of_nat (length mask) * 2 + 1)) then None else Some (to_str (mask ≫= λ b, [hex_char (Z.shiftr b 4); hex_char (Z.land b 15)])).

Definition parse_mask_to_string (mem : bool) (value : ipnet) : option string :=
  match get_mask mem value with
  | None => None
  | Some mask => match generate_mask_string mask with Some s => Some s | None => parse_nonstandard_mask_to_string mem mask end
  end.

(** The buffer has room for [sizeof(mask_str)], the size of a pointer. *)
Definition util_ipnet_to_string (mem : bool) (value : option ipnet) : option (option string) :=
  match value with
  | None => Some None
  | Some value =>
    match parse_standard_ip_to_string mem (ip value) with
    | Some (Some ip_str) =>
      match parse_mask_to_string mem value with
      | None => Some None
      | Some mask_str =>
        let res_len := Z.of_nat (String.length ip_str) + 1 + PTR_SIZE + 1 in
        if negb (util_common_calloc_s mem res_len) then Some None else
        let result := (ip_str ++ String slash mask_str)%string in
        if decide (res_len <= Z.of_nat (String.length result)) then Some None else Some (Some result)
      end
    | r => r
    end
  end.

(** The first and the last address of a network. *)
Definition first_ip (net : ipnet) : list Z := zip_with Z.land (ip net) (ip_mask net).
Definition last_ip (net : ipnet) : list Z := zip_with (λ a m, u8 (Z.lor a (Z.lnot m))) (ip net) (ip_mask net).

Fixpoint contain_loop (addr first last : list Z) (is_first is_last : bool) : option (bool * bool) :=
  match addr, first, last with
  | a :: addr, f :: first, l :: last =>
    if decide (a < f ∨ l < a) then None
    else contain_loop addr first last (is_first && (a =? f)) (is_last && (a =? l))
  | _, _, _ => Some (is_first, is_last)
  end.

Definition util_net_contain_ip (mem : bool) (net : ipnet) (addr : list Z) (closed_interval : bool) : bool :=
  if decide (addr = []) then false else
  if decide (length (ip net) ≠ length addr ∨ length (ip_mask net) ≠ length addr) then false else
  if negb mem then false else
  match contain_loop addr (first_ip net) (last_ip net) true true with
  | None => false
  | Some (is_first, is_last) => if closed_interval then true else negb is_first && negb is_last
  end.

Definition util_reduce_ip_by_mask (val : ipnet) : option ipnet :=
  if decide (length (ip val) ≠ length (ip_mask val)) then None else Some (mk_ipnet (first_ip val) (ip_mask val)).

(** ** Validators *)
Definition MAX_NETWORK_NAME_LEN : nat := 200.
Definition MAX_INTERFACE_NAME_LENGTH : nat := 15.
Definition NETWORK_VALID_NAME_CHARS : string := "^[a-zA-Z0-9][a-zA-Z0-9_.-]*$".
Definition NETWORK_VALID_MAC_CHARS : string := "^[0-9a-fA-F]{2}(:[0-9a-fA-F]{2}){5}$".

Definition util_validate_network_name (name : option string) : bool :=
  match name with
  | None => false
  | Some name => if decide (MAX_NETWORK_NAME_LEN < String.length name)%nat then false else reg_ok NETWORK_VALID_NAME_CHARS name
  end.

(** [/], [:], a blank or a control character from tab to carriage return. *)
Definition is_invalid_char (c : ascii) : bool :=
  Ascii.eqb c "/" || Ascii.eqb c ":" || ((9 <=? byte c) && (byte c <=? 13)) || (byte c =? 32).

Definition util_validate_network_interface (if_name : option string) : bool :=
  match if_name with
  | None => false
  | Some if_name =>
    if decide (String.length if_name = 0)%nat then false else
    if decide (MAX_INTERFACE_NAME_LENGTH < String.length if_name)%nat then false else
    if decide (if_name = "."%string ∨ if_name = ".."%string) then false else
    forallb (λ c, negb (is_invalid_char c)) (chars_of if_name)
  end.

Definition util_validate_ipv4_address (ipv4 : option string) : bool :=
  match ipv4 with None => false | Some s => bool_decide (is_Some (inet_pton4 (chars_of s))) end.
Definition util_validate_ipv6_address (ipv6 : option string) : bool :=
  match ipv6 with None => false | Some s => bool_decide (is_Some (inet_pton6 (chars_of s))) end.
Definition util_validate_ip_address (addr : option string) : bool :=
  match addr with None => false | Some _ => util_validate_ipv4_address addr || util_validate_ipv6_address addr end.
Definition util_validate_mac_address (mac : option string) : bool :=
  match mac with None => false | Some mac => reg_ok NETWORK_VALID_MAC_CHARS mac end.

(** ** Addresses as numbers *)
Definition bytes (l : list Z) : Prop := Forall (λ b, 0 <= b < 256) l.

(** The number an address denotes, most significant byte first. *)
Fixpoint addr_val (l : list Z) : Z :=
  match l with [] => 0 | b :: l => b * 2 ^ (8 * Z.of_nat (length l)) + addr_val l end.

(** A network that was read: an address, and the mask of a prefix length. *)
Record cidr (net : ipnet) (k : Z) : Prop := {
  cidr_bytes : bytes (ip net);
  cidr_len : 0 <= k <= 8 * Z.of_nat (length (ip net));
  cidr_mask : ip_mask net = mask_loop (length (ip net)) k
}.

(** The first [k] bits of an address of the length of [l]. *)
Definition prefix_val (l : list Z) (k : Z) : Z := addr_val l / 2 ^ (8 * Z.of_nat (length l) - k).

Lemma addr_val_range l : bytes l → 0 <= addr_val l < 2 ^ (8 * Z.of_nat (length l)).
Proof.
  induction 1 as [|b l Hb Hl IH]; simpl; [lia|].
  replace (8 * Z.of_nat (S (length l))) with (8 + 8 * Z.of_nat (length l)) by lia. rewrite Z.pow_add_r by lia.
  change (2 ^ 8) with 256. nia.
Qed.

Lemma addr_val_inj l l' : bytes l → bytes l' → length l = length l' → addr_val l = addr_val l' → l = l'.
Proof.
  intros Hl. revert l'. induction Hl as [|b l Hb Hl IH]; intros [|b' l'] Hl' Hn E; [done..|].
  apply list.Forall_cons in Hl' as [Hb' Hl']. simpl in *. injection Hn as Hn. rewrite <- Hn in E.
  pose proof (addr_val_range l Hl). pose proof (addr_val_range l' Hl') as Hr'. rewrite <- Hn in Hr'.
  assert (b = b') by nia. subst. f_equal. apply IH; [done..|]. lia.
Qed.

(** The byte of a mask with [k] leading ones, for every byte. *)
Definition mask_byte (k : Z) : Z := u8 (Z.lnot (Z.shiftr 255 k)).

Definition byte_list : list Z := Z.of_nat <$> seq 0 256.

Lemma elem_of_byte_list b : 0 <= b < 256 → b ∈ byte_list.
Proof. intros Hb. apply list_elem_of_fmap. exists (Z.to_nat b). split; [lia|]. apply elem_of_seq. lia. Qed.

(** A property of all bytes, by evaluation. *)
Lemma all_bytes (p : Z → bool) b : forallb p byte_list = true → 0 <= b < 256 → p b = true.
Proof. intros Hp Hb. rewrite forallb_forall in Hp. apply Hp, list_elem_of_In, elem_of_byte_list, Hb. Qed.

Lemma mask_byte_ok k b :
  0 <= k <= 8 → 0 <= b < 256 →
  Z.land b (mask_byte k) = b / 2 ^ (8 - k) * 2 ^ (8 - k) ∧
  u8 (Z.lor b (Z.lnot (mask_byte k))) = b / 2 ^ (8 - k) * 2 ^ (8 - k) + 2 ^ (8 - k) - 1.
Proof.
  intros Hk Hb.
  set (p k b := (Z.land b (mask_byte k) =? b / 2 ^ (8 - k) * 2 ^ (8 - k)) &&
                (u8 (Z.lor b (Z.lnot (mask_byte k))) =? b / 2 ^ (8 - k) * 2 ^ (8 - k) + 2 ^ (8 - k) - 1)).
  assert (Hp : p k b = true).
  { apply all_bytes; [|done]. assert (Hk' : k ∈ [0; 1; 2; 3; 4; 5; 6; 7; 8]) by (rewrite !elem_of_cons; lia).
    repeat (apply elem_of_cons in Hk' as [->|Hk']; [by vm_compute|]). by apply elem_of_nil in Hk'. }
  unfold p in Hp. apply andb_true_iff in Hp as [H1%Z.eqb_eq H2%Z.eqb_eq]. by split.
Qed.

Lemma mask_loop_step n k :
  0 <= k → ∃ j k', mask_loop (S n) k = mask_byte j :: mask_loop n k' ∧ 0 <= j <= 8 ∧ 0 <= k' ∧ k = j + k' ∧ (j < 8 → k' = 0).
Proof.
  intros Hk. simpl. destruct (decide (8 <= k)).
  - exists 8, (k - 8). split_and!; [done|lia..].
  - exists k, 0. split_and!; [done|lia..].
Qed.

Lemma mask_loop_0 n : mask_loop n 0 = replicate n 0.
Proof. induction n as [|n IH]; simpl; [done|]. by rewrite IH. Qed.

(** A byte between the first and the last of its network has their prefix. *)
Lemma byte_between k b a :
  0 <= k <= 8 → 0 <= b < 256 →
  (Z.land b (mask_byte k) <= a <= u8 (Z.lor b (Z.lnot (mask_byte k))) ↔ a / 2 ^ (8 - k) = b / 2 ^ (8 - k)).
Proof.
  intros Hk Hb. destruct (mask_byte_ok k b Hk Hb) as [-> ->].
  assert (0 < 2 ^ (8 - k)) by (apply Z.pow_pos_nonneg; lia).
  pose proof (Z.div_mod a (2 ^ (8 - k)) ltac:(lia)). pose proof (Z.mod_pos_bound a (2 ^ (8 - k)) ltac:(lia)).
  split; [|nia]. intros Ha. nia.
Qed.

(** Dividing an address off at a byte boundary or inside its first byte. *)
Lemma prefix_val_cons b l j k :
  bytes l → 0 <= j <= 8 → 0 <= k <= 8 * Z.of_nat (length l) → (j < 8 → k = 0) →
  prefix_val (b :: l) (j + k) = b / 2 ^ (8 - j) * 2 ^ k + (if decide (j < 8) then 0 else prefix_val l k).
Proof.
  intros Hl Hj Hk Hjk. unfold prefix_val. simpl length. pose proof (addr_val_range l Hl) as Hr. cbn [addr_val].
  set (n := Z.of_nat (length l)) in *.
  replace (8 * Z.of_nat (S (length l)) - (j + k)) with ((8 - j) + (8 * n - k)) by lia.
  destruct (decide (j < 8)) as [Hlt|Hge].
  - rewrite (Hjk Hlt), Z.sub_0_r, Z.mul_1_r, Z.add_0_r, Z.pow_add_r by lia.
    rewrite (Z.mul_comm (2 ^ (8 - j))), <- Z.div_div by (try apply Z.pow_nonzero; try apply Z.pow_pos_nonneg; lia).
    f_equal. rewrite Z.div_add_l by (apply Z.pow_nonzero; lia). rewrite Z.div_small by lia. lia.
  - assert (j = 8) as -> by lia. change (8 - 8) with 0. change (2 ^ 0) with 1. rewrite Z.div_1_r, Z.add_0_l.
    replace (8 * n) with (k + (8 * n - k)) at 1 by lia. rewrite Z.pow_add_r, Z.mul_assoc by lia.
    rewrite Z.div_add_l by (apply Z.pow_nonzero; lia). done.
Qed.

Lemma prefix_val_range l k : bytes l → 0 <= k <= 8 * Z.of_nat (length l) → 0 <= prefix_val l k < 2 ^ k.
Proof.
  intros Hl Hk. unfold prefix_val. pose proof (addr_val_range l Hl) as Hr.
  assert (0 < 2 ^ (8 * Z.of_nat (length l) - k)) by (apply Z.pow_pos_nonneg; lia).
  split; [apply Z.div_pos; lia|]. apply Z.div_lt_upper_bound; [lia|]. rewrite <- Z.pow_add_r by lia.
  replace (8 * Z.of_nat (length l) - k + k) with (8 * Z.of_nat (length l)) by lia. apply Hr.
Qed.

(** ** Membership *)
Lemma contain_loop_ok k n l a fst lst :
  bytes l → bytes a → length a = length l → 0 <= k <= 8 * Z.of_nat (length l) → n = length l →
  contain_loop a (zip_with Z.land l (mask_loop n k)) (zip_with (λ b m, u8 (Z.lor b (Z.lnot m))) l (mask_loop n k)) fst lst =
  if decide (prefix_val a k = prefix_val l k)
  then Some (fst && bool_decide (a = zip_with Z.land l (mask_loop n k)),
             lst && bool_decide (a = zip_with (λ b m, u8 (Z.lor b (Z.lnot m))) l (mask_loop n k)))
  else None.
Proof.
  intros Hl. revert k n a fst lst. induction Hl as [|b l Hb Hl IH]; intros k n a fst lst Ha Hlen Hk ->.
  { destruct a; [|done]. rewrite decide_True by done. simpl. by rewrite !andb_true_r. }
  destruct a as [|c a]; [done|]. apply list.Forall_cons in Ha as [Hc Ha]. simpl in Hlen. injection Hlen as Hlen.
  change (length (b :: l)) with (S (length l)).
  destruct (mask_loop_step (length l) k ltac:(lia)) as (j & k' & -> & Hj & Hk' & -> & Hjk). cbn [zip_with contain_loop].
  cbn [length] in Hk. assert (Hk2 : 0 <= k' <= 8 * Z.of_nat (length l)) by lia.
  rewrite !prefix_val_cons by (done || lia). pose proof (byte_between j b c Hj Hb) as Hbt.
  pose proof (prefix_val_range l k' Hl Hk2). pose proof (prefix_val_range a k' Ha ltac:(lia)).
  assert (Hpos : 0 < 2 ^ k') by (apply Z.pow_pos_nonneg; lia).
  destruct (decide (c < _ ∨ _)) as [Hout|Hin].
  { rewrite decide_False; [done|]. intros E. assert (c / 2 ^ (8 - j) = b / 2 ^ (8 - j)) by (destruct (decide (j < 8)); nia). lia. }
  assert (Eq : c / 2 ^ (8 - j) = b / 2 ^ (8 - j)) by (apply Hbt; lia). rewrite IH by (done || lia).
  assert (Hiff : prefix_val a k' = prefix_val l k' ↔
    c / 2 ^ (8 - j) * 2 ^ k' + (if decide (j < 8) then 0 else prefix_val a k') =
    b / 2 ^ (8 - j) * 2 ^ k' + (if decide (j < 8) then 0 else prefix_val l k')).
  { rewrite Eq. destruct (decide (j < 8)) as [Hlt|]; [|lia]. rewrite (Hjk Hlt) in *. change (2 ^ 0) with 1 in *. lia. }
  rewrite (decide_ext _ _ _ _ Hiff). destruct (decide (_ + _ = _)); [|done].
  f_equal. f_equal; rewrite <- andb_assoc; f_equal.
  - destruct (Z.eqb_spec c (Z.land b (mask_byte j))) as [->|Hne]; simpl; [apply bool_decide_ext; naive_solver|]. rewrite bool_decide_false; [done|congruence].
  - destruct (Z.eqb_spec c (u8 (Z.lor b (Z.lnot (mask_byte j))))) as [->|Hne]; simpl; [apply bool_decide_ext; naive_solver|]. rewrite bool_decide_false; [done|congruence].
Qed.

(** The first and the last address have the prefix of the network, followed by
    zeros and by ones. *)
Lemma ends_ok k n l :
  bytes l → 0 <= k <= 8 * Z.of_nat (length l) → n = length l →
  let first := zip_with Z.land l (mask_loop n k) in
  let last := zip_with (λ b m, u8 (Z.lor b (Z.lnot m))) l (mask_loop n k) in
  let d := 2 ^ (8 * Z.of_nat (length l) - k) in
  bytes first ∧ length first = length l ∧ addr_val first = prefix_val l k * d ∧
  bytes last ∧ length last = length l ∧ addr_val last = prefix_val l k * d + d - 1.
Proof.
  intros Hl. revert k n. induction Hl as [|b l Hb Hl IH]; intros k n Hk ->.
  { cbn. assert (k = 0) as -> by (simpl in Hk; lia). split_and!; done || constructor. }
  change (length (b :: l)) with (S (length l)) in *.
  destruct (mask_loop_step (length l) k ltac:(lia)) as (j & k' & -> & Hj & Hk' & -> & Hjk). cbn [zip_with].
  assert (Hk2 : 0 <= k' <= 8 * Z.of_nat (length l)) by lia.
  destruct (IH k' (length l) Hk2 eq_refl) as (B1 & L1 & V1 & B2 & L2 & V2).
  destruct (mask_byte_ok j b Hj Hb) as [E1 E2]. rewrite prefix_val_cons by (done || lia).
  assert (0 < 2 ^ (8 - j)) by (apply Z.pow_pos_nonneg; lia).
  pose proof (Z.div_mod b (2 ^ (8 - j)) ltac:(lia)). pose proof (Z.mod_pos_bound b (2 ^ (8 - j)) ltac:(lia)).
  assert (Hq : 0 <= b / 2 ^ (8 - j)) by (apply Z.div_pos; lia).
  assert (Hu : b / 2 ^ (8 - j) < 2 ^ j).
  { apply Z.div_lt_upper_bound; [lia|]. rewrite <- Z.pow_add_r by lia. replace (8 - j + j) with 8 by lia. lia. }
  assert (H256 : 2 ^ (8 - j) * 2 ^ j = 256) by (rewrite <- Z.pow_add_r by lia; by replace (8 - j + j) with 8 by lia).
  set (q := b / 2 ^ (8 - j)) in *. set (n := Z.of_nat (length l)) in *.
  replace (8 * Z.of_nat (S (length l)) - (j + k')) with ((8 - j) + (8 * n - k')) by lia. rewrite Z.pow_add_r by lia.
  assert (Hn : 2 ^ (8 * n) = 2 ^ k' * 2 ^ (8 * n - k')) by (rewrite <- Z.pow_add_r by lia; f_equal; lia).
  assert (P0 : j < 8 → prefix_val l k' = 0).
  { intros Hlt. pose proof (prefix_val_range l k' Hl Hk2) as Hp. rewrite (Hjk Hlt) in *. change (2 ^ 0) with 1 in Hp. lia. }
  assert (Ej : ¬ j < 8 → 2 ^ (8 - j) = 1) by (intros; replace (8 - j) with 0 by lia; done).
  split_and!.
  - constructor; [rewrite E1; nia|done].
  - cbn [length]. by rewrite L1.
  - cbn [addr_val]. rewrite L1, V1, E1. fold n. rewrite Hn. destruct (decide (j < 8)) as [Hlt|Hge]; [rewrite (P0 Hlt); lia|].
    rewrite (Ej Hge). lia.
  - constructor; [rewrite E2; nia|done].
  - cbn [length]. by rewrite L2.
  - cbn [addr_val]. rewrite L2, V2, E2. fold n. rewrite Hn.
    destruct (decide (j < 8)) as [Hlt|Hge]; [rewrite (P0 Hlt), (Hjk Hlt) in *; change (2 ^ 0) with 1 in *; lia|].
    rewrite (Ej Hge). lia.
Qed.

#[global] Instance if_dec (b : bool) (P Q : Prop) `{Decision P, Decision Q} : Decision (if b then P else Q).
Proof. destruct b; apply _. Defined.

(** An address lies in a network, or between its ends. *)
Definition in_net (net : ipnet) (closed : bool) (a : list Z) : Prop :=
  length a = length (ip net) ∧
  if closed then addr_val (first_ip net) <= addr_val a <= addr_val (last_ip net)
  else addr_val (first_ip net) < addr_val a < addr_val (last_ip net).

#[global] Instance in_net_dec net closed a : Decision (in_net net closed a).
Proof. unfold in_net. apply _. Defined.

Section network.
Context (net : ipnet) (k : Z) (Hnet : cidr net k).

Let d := 2 ^ (8 * Z.of_nat (length (ip net)) - k).

Lemma first_ip_ok : bytes (first_ip net) ∧ length (first_ip net) = length (ip net) ∧ addr_val (first_ip net) = prefix_val (ip net) k * d.
Proof. destruct Hnet as [Hb Hk Hm]. unfold first_ip. rewrite Hm. by destruct (ends_ok k _ (ip net) Hb Hk eq_refl) as (? & ? & ? & _). Qed.

Lemma last_ip_ok :
  bytes (last_ip net) ∧ length (last_ip net) = length (ip net) ∧ addr_val (last_ip net) = prefix_val (ip net) k * d + d - 1.
Proof. destruct Hnet as [Hb Hk Hm]. unfold last_ip. rewrite Hm. by destruct (ends_ok k _ (ip net) Hb Hk eq_refl) as (_ & _ & _ & ?). Qed.

Lemma mask_length_ok : length (ip_mask net) = length (ip net).
Proof.
  destruct Hnet as [_ _ ->]. generalize k. induction (length (ip net)) as [|n IH]; intros k'; simpl; [done|].
  by destruct (decide (8 <= k')); simpl; rewrite IH.
Qed.

(** Having the prefix of the network is lying between its ends. *)
Lemma prefix_between a :
  bytes a → length a = length (ip net) →
  prefix_val a k = prefix_val (ip net) k ↔ addr_val (first_ip net) <= addr_val a <= addr_val (last_ip net).
Proof.
  intros Ha Hl. destruct first_ip_ok as (_ & _ & ->), last_ip_ok as (_ & _ & ->). destruct Hnet as [_ Hk _].
  assert (0 < d) by (apply Z.pow_pos_nonneg; lia). unfold prefix_val at 1. rewrite Hl. fold d.
  pose proof (Z.div_mod (addr_val a) d ltac:(lia)). pose proof (Z.mod_pos_bound (addr_val a) d ltac:(lia)).
  split; [intros E; rewrite E in *; nia|]. intros Hr. nia.
Qed.

Lemma contain_ok a closed :
  bytes a → a ≠ [] →
  util_net_contain_ip true net a closed = bool_decide (in_net net closed a).
Proof.
  intros Ha Hne. unfold util_net_contain_ip. rewrite decide_False by done. rewrite mask_length_ok.
  destruct (decide (length (ip net) ≠ length a ∨ _)) as [Hl|Hl]; [by rewrite bool_decide_false by (unfold in_net; naive_solver)|].
  assert (El : length a = length (ip net)) by (destruct (decide (length (ip net) = length a)); naive_solver).
  cbn [negb]. pose proof (prefix_between a Ha El) as Hp.
  destruct first_ip_ok as (B1 & L1 & _), last_ip_ok as (B2 & L2 & _).
  pose proof (λ E, addr_val_inj a (first_ip net) Ha B1 ltac:(congruence) E) as I1.
  pose proof (λ E, addr_val_inj a (last_ip net) Ha B2 ltac:(congruence) E) as I2.
  destruct Hnet as [Hb Hk Hm]. rewrite (bool_decide_ext _ (if closed then addr_val (first_ip net) <= addr_val a <= addr_val (last_ip net)
    else addr_val (first_ip net) < addr_val a < addr_val (last_ip net))) by (unfold in_net; naive_solver).
  assert (Hc : contain_loop a (first_ip net) (last_ip net) true true =
    if decide (prefix_val a k = prefix_val (ip net) k) then Some (bool_decide (a = first_ip net), bool_decide (a = last_ip net)) else None).
  { unfold first_ip, last_ip. rewrite Hm. by rewrite (contain_loop_ok k _ (ip net)). }
  rewrite Hc. destruct (decide (prefix_val a k = prefix_val (ip net) k)) as [E|E];
    [|destruct closed; rewrite bool_decide_false; (done || rewrite Hp in E; lia)].
  apply Hp in E. destruct closed; [by rewrite bool_decide_true|].
  destruct (bool_decide_reflect (a = first_ip net)) as [->|N1]; cbn [negb andb]; [rewrite bool_decide_false; [done|lia]|].
  destruct (bool_decide_reflect (a = last_ip net)) as [->|N2]; cbn [negb andb]; [rewrite bool_decide_false; [done|lia]|].
  assert (addr_val a ≠ addr_val (first_ip net)) by naive_solver. assert (addr_val a ≠ addr_val (last_ip net)) by naive_solver.
  rewrite bool_decide_true; [done|lia].
Qed.
End network.

(** ** Printing and reading IPv4 *)
Definition fmt_u_ok (b : Z) : bool :=
  (length (fmt_u b) <=? 3)%nat && forallb (λ c, negb (Ascii.eqb c NUL) && negb (Ascii.eqb c slash)) (fmt_u b).

Lemma fmt_u_spec b :
  0 <= b < 256 → (length (fmt_u b) ≤ 3)%nat ∧ no_nul (fmt_u b) ∧ Forall (λ c, Ascii.eqb c slash = false) (fmt_u b).
Proof.
  intros Hb. assert (H : fmt_u_ok b = true) by (apply all_bytes; [by vm_compute|done]).
  apply andb_true_iff in H as [H1%Nat.leb_le H2]. rewrite forallb_forall in H2.
  unfold no_nul. rewrite !list.Forall_forall. split_and!; [done|intros c Hc%list_elem_of_In..];
    apply H2 in Hc; apply andb_true_iff in Hc as [?%negb_true_iff ?%negb_true_iff]; done.
Qed.

(** The digits of an octet are read as that octet. *)
Lemma pton4_octet octets b rest :
  0 <= b < 256 → pton4 octets None (fmt_u b ++ rest) = pton4 octets (Some b) rest.
Proof.
  intros Hb%elem_of_byte_list. revert b Hb. apply list.Forall_forall.
  unfold byte_list. cbn [seq fmap list_fmap]. repeat (constructor; [reflexivity|]). constructor.
Qed.

Lemma pton4_dot octets b rest :
  length octets ≠ 3%nat → pton4 octets (Some b) ("."%char :: rest) = pton4 (octets ++ [b]) None rest.
Proof. intros Hl. cbn. by rewrite decide_False. Qed.

Lemma inet_pton4_print a b c d :
  bytes [a; b; c; d] → inet_pton4 (intercalate ["."%char] (fmt_u <$> [a; b; c; d])) = Some [a; b; c; d].
Proof.
  intros H. do 4 (apply list.Forall_cons in H as [? H]). unfold inet_pton4. cbn [fmap list_fmap intercalate].
  rewrite pton4_octet by done. cbn [app]. rewrite pton4_dot by done. rewrite pton4_octet by done. cbn [app].
  rewrite pton4_dot by done. rewrite pton4_octet by done. cbn [app]. rewrite pton4_dot by done.
  rewrite <- (app_nil_r (fmt_u d)), pton4_octet by done. done.
Qed.

Lemma in_addr_ok l : bytes l → in_addr_loop (length l) (s_addr l) = l.
Proof.
  induction 1 as [|b l Hb Hl IH]; [done|]. cbn [length in_addr_loop s_addr].
  change 255 with (Z.ones 8). rewrite Z.land_ones, Z.shiftr_div_pow2 by lia. change (2 ^ 8) with 256.
  rewrite (Z.mul_comm 256), Z.mod_add, Z.mod_small, Z.div_add, Z.div_small, Z.add_0_l by lia. by rewrite IH.
Qed.

(** The loop that joins bytes is the loop that joins strings. *)
Lemma uint8_join_loop_ok sep fmt parts :
  parts ≠ [] → Forall (λ p, length (fmt p) ≤ 3)%nat parts →
  ∀ b, uint8_join_loop sep fmt parts b = (join_loop sep (fmt <$> parts);; mret true) b.
Proof.
  intros Hne H. induction H as [|p parts Hp Hps IH]; [done|]. intros b. cbn [uint8_join_loop].
  rewrite decide_False by (unfold MAX_UINT_LEN; lia). destruct parts as [|q parts]; [done|].
  change (fmt <$> p :: q :: parts) with (fmt p :: fmt q :: (fmt <$> parts)).
  change (join_loop sep (fmt p :: fmt q :: (fmt <$> parts))) with (strcat (fmt p);; strcat sep;; join_loop sep (fmt <$> q :: parts)).
  unfold mbind, M_bind in *. destruct (strcat (fmt p) b) as [[? b1]|]; [|done].
  destruct (strcat sep b1) as [[? b2]|]; [|done]. by rewrite IH.
Qed.

Lemma total_le n (parts : list chars) : Forall (λ p, length p ≤ n)%nat parts → (total parts ≤ n * length parts)%nat.
Proof. induction 1; simpl; [lia|]. nia. Qed.

Lemma uint8_join_ok sep fmt parts :
  parts ≠ [] → (length parts ≤ 1000)%nat → (length sep ≤ 1)%nat → no_nul sep →
  Forall (λ p, length (fmt p) ≤ 3 ∧ no_nul (fmt p))%nat parts →
  uint8_join true sep fmt parts = Some (Some (to_str (intercalate sep (fmt <$> parts)))).
Proof.
  intros Hne Hn Hs Hnul H. unfold uint8_join, MAX_UINT_LEN.
  assert (Hp : (0 < length parts)%nat) by (destruct parts; simpl; [done|lia]).
  rewrite decide_False by lia. rewrite decide_False.
  2:{ assert (1000 <= SIZE_MAX / (Z.of_nat (length sep) + Z.of_nat 3)); [|lia]. apply Z.div_le_lower_bound; unfold SIZE_MAX; lia. }
  unfold do_uint8_join. set (rl := (Z.of_nat (length parts) - 1) * _ + _).
  assert (Hrl : 3 * Z.of_nat (length parts) <= rl <= 4000) by nia. rewrite decide_False by (unfold SIZE_MAX; lia).
  rewrite u64_small by (unfold two64; lia). unfold util_common_calloc_s, MAX_MEMORY_SIZE.
  rewrite (proj2 (Z.eqb_neq _ _)), (proj2 (Z.ltb_ge _ _)) by lia. cbn [orb negb].
  assert (H3 : Forall (λ p, length (fmt p) ≤ 3)%nat parts) by (eapply list.Forall_impl; [exact H|naive_solver]).
  assert (Hf : Forall no_nul (fmt <$> parts)) by (apply Forall_fmap; eapply list.Forall_impl; [exact H|naive_solver]).
  rewrite uint8_join_loop_ok by done.
  assert (Hf0 : fmt <$> parts ≠ []) by (by destruct parts).
  pose proof (length_intercalate sep _ Hf0) as Hli. rewrite length_fmap in Hli.
  assert (Ht : (total (fmt <$> parts) ≤ 3 * length parts)%nat).
  { rewrite <- (length_fmap fmt). apply total_le. by apply Forall_fmap. }
  assert (Hsep : ((length parts - 1) * length sep = Z.to_nat (rl - 3 * Z.of_nat (length parts)))%nat) by nia.
  set (t := intercalate sep (fmt <$> parts)) in *. set (sl := ((length parts - 1) * length sep)%nat) in *. clearbody rl sl.
  replace (Z.to_nat (rl + 1)) with (length t + S (Z.to_nat rl - length t))%nat by lia.
  pose proof (join_loop_ok sep _ [] Hf0 ltac:(constructor) Hnul Hf (Z.to_nat rl - length t)) as Hj. simpl app in Hj.
  unfold mbind, M_bind. fold t in Hj. rewrite Hj. cbn [mret M_ret]. f_equal. f_equal.
  apply buf_str_ok. by apply no_nul_intercalate.
Qed.

Lemma fmt_u_parts l : bytes l → Forall (λ p, length (fmt_u p) ≤ 3 ∧ no_nul (fmt_u p))%nat l.
Proof. intros H. eapply list.Forall_impl; [exact H|]. intros b Hb. destruct (fmt_u_spec b Hb) as (? & ? & _). done. Qed.

Definition dotted (l : list Z) : chars := intercalate ["."%char] (fmt_u <$> l).

Lemma print_ipv4 l : bytes l → length l = 4%nat → parse_standard_ip_to_string true l = Some (Some (to_str (dotted l))).
Proof.
  intros Hb Hl. unfold parse_standard_ip_to_string, parse_ipv4_to_string, IPV4LEN, IPV6LEN.
  rewrite decide_False by lia. rewrite decide_True by done.
  rewrite uint8_join_ok; [done| |lia|done|by repeat constructor|by apply fmt_u_parts]. by destruct l.
Qed.

Lemma no_slash_intercalate sep parts :
  Forall (λ c, Ascii.eqb c slash = false) sep → Forall (Forall (λ c, Ascii.eqb c slash = false)) parts →
  Forall (λ c, Ascii.eqb c slash = false) (intercalate sep parts).
Proof.
  intros Hsep. induction 1 as [|p parts Hp Hps IH]; [constructor|]. destruct parts as [|q parts]; [done|].
  change (intercalate sep (p :: q :: parts)) with (p ++ sep ++ intercalate sep (q :: parts)). by rewrite !Forall_app.
Qed.

Lemma parse_ipv4 l : bytes l → length l = 4%nat → util_parse_ip_from_str true (Some (to_str (dotted l))) = Some l.
Proof.
  intros Hb Hl. unfold util_parse_ip_from_str. rewrite chars_of_string.
  destruct l as [|a [|b [|c [|d [|]]]]]; try done. unfold dotted. rewrite inet_pton4_print by done.
  unfold get_ip_from_in_addr. cbn [negb]. f_equal. by apply (in_addr_ok [a; b; c; d]).
Qed.

(** ** Printing and reading masks *)
Lemma mask_length_loop n k : 0 <= k <= 8 * Z.of_nat n → mask_length (mask_loop n k) = Some k.
Proof.
  revert k. induction n as [|n IH]; intros k Hk; [by assert (k = 0) as -> by lia|].
  cbn [mask_loop]. destruct (decide (8 <= k)).
  - cbn [mask_length]. rewrite decide_True, IH by (done || lia). f_equal. lia.
  - rewrite mask_loop_0. cbn [mask_length].
    assert (Hz : forallb (λ b, b =? 0) (replicate n 0) = true) by (clear; by induction n).
    assert (Hk' : k ∈ [0; 1; 2; 3; 4; 5; 6; 7]) by (rewrite !elem_of_cons; lia).
    rewrite Hz. clear -Hk'. repeat (apply elem_of_cons in Hk' as [->|Hk']; [reflexivity|]). by apply elem_of_nil in Hk'.
Qed.

(** A prefix length and its digits. *)
Lemma prefix_len_string k :
  0 <= k <= 128 → ∃ s, util_int_to_string k = Some s ∧ (String.length s ≤ 3)%nat ∧ util_safe_uint (Some s) = inr k.
Proof.
  intros Hk. destruct (util_int_to_string_ok k) as (s & Hs & Hc); [unfold LONG_MIN, LONG_MAX; lia|].
  assert (Hf : fmt_lld k = fmt_llu k) by (unfold fmt_lld; by rewrite (proj2 (Z.ltb_ge _ _)) by lia).
  exists s. split_and!; [done| |].
  - rewrite <- length_chars_of, Hc, Hf. destruct (fmt_u_spec k) as [Hl _]; [lia|]. exact Hl.
  - unfold util_safe_uint, strtoul. rewrite Hc, Hf, scan_fmt by (unfold ULONG_MAX; lia).
    unfold ULONG_MAX, UINT_MAX. rewrite (proj2 (Z.ltb_ge _ _)) by lia. rewrite u64_small by (unfold two64; lia).
    cbn. by rewrite (proj2 (Z.ltb_ge _ _)) by lia.
Qed.

(** What the text of a network is made of, and that it is read back, once the
    address is. *)
Lemma ipnet_string net k addr :
  cidr net k → parse_standard_ip_to_string true (ip net) = Some (Some (to_str addr)) → (length addr < 100)%nat →
  get_mask true net = Some (mask_loop (length (ip net)) k) → k <= 128 →
  Forall (λ c, Ascii.eqb c slash = false) addr → util_parse_ip_from_str true (Some (to_str addr)) = Some (ip net) →
  ∃ s, util_ipnet_to_string true (Some net) = Some (Some s) ∧ util_parse_ipnet_from_str true (Some s) = Some net.
Proof.
  intros [Hb Hk Hm] Hp Hl Hg H128 Hsl Hr. unfold util_ipnet_to_string, parse_mask_to_string. rewrite Hp, Hg.
  unfold generate_mask_string. rewrite mask_length_loop by done.
  destruct (prefix_len_string k ltac:(lia)) as (s & -> & Hs3 & Hs).
  rewrite string_length_app. cbn [String.length]. rewrite <- (length_chars_of (to_str addr)), chars_of_string.
  unfold PTR_SIZE, util_common_calloc_s, MAX_MEMORY_SIZE. rewrite (proj2 (Z.eqb_neq _ _)), (proj2 (Z.ltb_ge _ _)) by lia. cbn [orb negb].
  rewrite decide_False by lia. eexists. split; [done|].
  unfold util_parse_ipnet_from_str. rewrite chars_of_app, chars_of_string.
  change (chars_of (String slash s)) with (slash :: chars_of s). rewrite strchr_app by done. cbn [negb].
  rewrite Hr, to_str_chars, Hs, decide_False by lia. unfold do_parse_mask_in_cidr. cbn [negb]. rewrite <- Hm. by destruct net.
Qed.

Lemma get_mask_ipv4 net k : cidr net k → length (ip net) = 4%nat → get_mask true net = Some (mask_loop (length (ip net)) k).
Proof.
  intros Hn Hl. pose proof (mask_length_ok net k Hn) as Hml. destruct Hn as [_ _ Hm]. unfold get_mask, get_ipv4_mask, IPV4LEN, IPV6LEN.
  rewrite <- Hm, Hml, Hl. cbn [negb]. rewrite !decide_False, decide_True by lia. f_equal. apply take_ge. lia.
Qed.

Lemma dotted_ok l : bytes l → length l = 4%nat → (length (dotted l) < 100)%nat ∧ Forall (λ c, Ascii.eqb c slash = false) (dotted l).
Proof.
  intros Hb Hl. unfold dotted. split.
  - rewrite length_intercalate by (by destruct l). rewrite length_fmap, Hl.
    assert (total (fmt_u <$> l) ≤ 3 * length (fmt_u <$> l))%nat as Ht; [|rewrite length_fmap in Ht; simpl; lia].
    apply total_le, Forall_fmap. eapply list.Forall_impl; [exact Hb|]. intros b H. by destruct (fmt_u_spec b H).
  - apply no_slash_intercalate; [by repeat constructor|]. apply Forall_fmap.
    eapply list.Forall_impl; [exact Hb|]. intros b H. by destruct (fmt_u_spec b H) as (_ & _ & ?).
Qed.

Lemma ipv4_network_string net k :
  cidr net k → length (ip net) = 4%nat →
  ∃ s, util_ipnet_to_string true (Some net) = Some (Some s) ∧ util_parse_ipnet_from_str true (Some s) = Some net.
Proof.
  intros Hn Hl. pose proof Hn as [Hb Hk _]. destruct (dotted_ok _ Hb Hl) as [H1 H2].
  apply (ipnet_string net k (dotted (ip net))); [done|by apply print_ipv4|done|by apply get_mask_ipv4|lia|done|by apply parse_ipv4].
Qed.

(** ** What is read *)
Lemma digit_in_range base c d : 0 < base → digit_in base c = Some d → 0 <= d < base.
Proof.
  intros Hb. unfold digit_in. destruct (digit_value c) as [v|] eqn:E; [|done]. destruct (Z.ltb_spec v base); [|done]. intros [= <-].
  unfold digit_value in E. repeat case_match; simplify_eq; repeat match goal with H : _ && _ = true |- _ => apply andb_true_iff in H as [?%Z.leb_le ?%Z.leb_le] end; lia.
Qed.

Lemma pton4_bytes s octets cur r :
  pton4 octets cur s = Some r → bytes octets → (∀ v, cur = Some v → 0 <= v < 256) → bytes r ∧ length r = 4%nat.
Proof.
  revert octets cur. induction s as [|c s IH]; intros octets cur; cbn [pton4].
  - destruct cur as [v|]; [|done]. case_decide; [|done]. intros [= <-] Ho Hc. split; [|rewrite length_app; simpl; lia].
    apply Forall_app. split; [done|]. repeat constructor; apply (Hc v eq_refl).
  - destruct (digit_in 10 c) as [d|] eqn:Ed; [apply digit_in_range in Ed; [|lia]|].
    + destruct cur as [v|]; [case_decide as Hv; [done|]|]; intros H Ho Hc; (eapply IH; [exact H|done|]); intros v' [= <-]; [|lia].
      specialize (Hc v eq_refl). lia.
    + destruct (Ascii.eqb c "."); [|done]. destruct cur as [v|]; [|done]. case_decide; [done|]. intros Hp Ho Hc. eapply IH; [exact Hp| |done].
      apply Forall_app. split; [done|]. repeat constructor; apply (Hc v eq_refl).
Qed.

Lemma pton6_end_bytes tmp colonp seen val r :
  pton6_end tmp colonp seen val = Some r → bytes tmp → (∀ k, colonp = Some k → (k ≤ length tmp)%nat) → 0 <= val < 65536 → bytes r ∧ length r = 16%nat.
Proof.
  unfold pton6_end. set (t := match seen with O => tmp | S _ => _ end). intros H Ht Hk Hv.
  assert (bytes t ∧ (length tmp ≤ length t)%nat) as [Hb Hl].
  { subst t. destruct seen; [done|]. split; [|rewrite length_app; lia]. apply Forall_app. split; [done|].
    pose proof (Z.mod_pos_bound val 256 ltac:(lia)). repeat constructor; try lia; [apply Z.div_pos; lia|apply Z.div_lt_upper_bound; lia]. }
  clearbody t. case_decide; [done|]. destruct colonp as [k|].
  - case_decide; [done|]. injection H as <-. specialize (Hk k eq_refl). split.
    + apply Forall_app. split; [by apply Forall_take|]. apply Forall_app. split; [by apply Forall_replicate|by apply Forall_drop].
    + rewrite !length_app, length_take, length_replicate, length_drop. lia.
  - case_decide; [|done]. by injection H as <-.
Qed.

Lemma pton6_bytes s tmp colonp seen val cur r :
  pton6 tmp colonp seen val cur s = Some r → bytes tmp → (∀ k, colonp = Some k → (k ≤ length tmp)%nat) →
  (seen ≤ 4)%nat → 0 <= val < 16 ^ Z.of_nat seen → bytes r ∧ length r = 16%nat.
Proof.
  assert (Hlt : ∀ n, (n ≤ 4)%nat → 16 ^ Z.of_nat n <= 65536) by (intros n ?; change 65536 with (16 ^ 4); apply Z.pow_le_mono_r; lia).
  revert tmp colonp seen val cur. induction s as [|c s IH]; intros tmp colonp seen val cur; cbn [pton6].
  { intros H Ht Hk Hs Hv. specialize (Hlt seen Hs). eapply pton6_end_bytes; [done..|lia]. }
  destruct (digit_in 16 c) as [d|] eqn:Ed; [apply digit_in_range in Ed; [|lia]|].
  { case_decide; [done|]. intros Hp Ht Hk Hs Hv. eapply IH; [exact Hp|done|done|lia|].
    rewrite Nat2Z.inj_succ, Z.pow_succ_r by lia. lia. }
  destruct (Ascii.eqb c ":").
  - intros H Ht Hk Hs Hv. specialize (Hlt seen Hs). destruct seen as [|n].
    + destruct colonp; [done|]. eapply IH; [exact H|done| |lia|done]. by intros k [= <-].
    + destruct s as [|c' s']; [done|]. case_decide; [done|]. eapply IH; [exact H| | |lia|done].
      * pose proof (Z.mod_pos_bound val 256 ltac:(lia)). apply Forall_app. split; [done|].
        repeat constructor; try lia; [apply Z.div_pos; lia|apply Z.div_lt_upper_bound; lia].
      * intros k Ek. rewrite length_app. specialize (Hk k Ek). lia.
  - destruct (Ascii.eqb c "."); [|done]. case_decide; [|done]. destruct (inet_pton4 cur) as [q|] eqn:Eq; [|done]. intros Hp Ht Hk Hs Hv.
    apply pton4_bytes in Eq as [Hq _]; [|constructor|done]. eapply pton6_end_bytes; [exact Hp|by apply Forall_app| |lia].
    intros k Ek. rewrite length_app. specialize (Hk k Ek). lia.
Qed.

Lemma parsed_ip mem s a : util_parse_ip_from_str mem s = Some a → mem = true ∧ bytes a ∧ (length a = IPV4LEN ∨ length a = IPV6LEN).
Proof.
  unfold util_parse_ip_from_str. destruct s as [s|]; [|done]. destruct (inet_pton4 (chars_of s)) as [v4|] eqn:E4.
  - unfold get_ip_from_in_addr. destruct mem; [|done]. apply pton4_bytes in E4 as [Hb Hl]; [|constructor|done]. cbn [negb].
    assert (in_addr_loop IPV4LEN (s_addr v4) = v4) as -> by (change IPV4LEN with 4%nat; rewrite <- Hl; by apply in_addr_ok).
    intros [= <-]. auto.
  - destruct (inet_pton6 (chars_of s)) as [v6|] eqn:E6; [|done]. unfold get_ip_from_in6_addr. destruct mem; [|done]. intros [= <-].
    assert (bytes v6 ∧ length v6 = 16%nat) as [? ?]; [|unfold IPV6LEN; auto].
    unfold inet_pton6 in E6. repeat case_match; simplify_eq; (eapply pton6_bytes; [eassumption|constructor|done|lia|done]).
Qed.

Lemma parsed_net mem s net : util_parse_ipnet_from_str mem s = Some net →
  mem = true ∧ (length (ip net) = IPV4LEN ∨ length (ip net) = IPV6LEN) ∧ ∃ k, cidr net k.
Proof.
  unfold util_parse_ipnet_from_str. destruct s as [s|]; [|done]. destruct (strchr slash (chars_of s)) as [[addr mask]|]; [|done].
  destruct mem; [|done]. cbn [negb]. destruct (util_parse_ip_from_str _ _) as [a|] eqn:Ea; [|done]. apply parsed_ip in Ea as (_ & Hb & Hl).
  unfold util_safe_uint. destruct (strtoul 0 (to_str mask)) as [[v []] e] eqn:Eu; [done|]. apply strtoul_range in Eu.
  destruct (is_invalid_error_str e); [done|]. destruct (UINT_MAX <? v); [done|]. case_decide; [done|]. intros [= <-]. cbn [ip].
  split; [done|]. split; [done|]. exists v. split; cbn [ip ip_mask]; [done|lia|done].
Qed.

Lemma parsed_nonempty mem s net : util_parse_ipnet_from_str mem s = Some net → ip net ≠ [].
Proof. intros (_ & Hl & _)%parsed_net E. rewrite E in Hl. unfold IPV4LEN, IPV6LEN in Hl. naive_solver. Qed.

(** C29: An address is found in a network that was read exactly when its number lies
    between the numbers of the first and the last address, ends included or not. *)
Theorem net_contain_ip_correct s net addr closed :
  util_parse_ipnet_from_str true s = Some net → bytes addr → addr ≠ [] →
  util_net_contain_ip true net addr closed = bool_decide (in_net net closed addr).
Proof. intros (_ & _ & k & Hn)%parsed_net. by apply (contain_ok net k). Qed.

Lemma net_contain_ip_correct_witness :
  ∃ net, util_parse_ipnet_from_str true (Some "10.0.0.0/8"%string) = Some net ∧
    (∀ closed, util_net_contain_ip true net [10; 1; 2; 3] closed = bool_decide (in_net net closed [10; 1; 2; 3])) ∧
    util_net_contain_ip true net [10; 1; 2; 3] true = true ∧ util_net_contain_ip true net [11; 1; 2; 3] true = false.
Proof.
  eexists. split; [reflexivity|]. split; [|by vm_compute]. intros closed.
  apply (net_contain_ip_correct (Some "10.0.0.0/8"%string)); [reflexivity|by repeat constructor|done].
Defined.
