(* ===== verification/Ipv6.v ===== *)
(** * The text of IPv6 addresses

    What [generate_ipv6_string] of [src/utils/cutils/utils_network.c] writes into
    its buffer of forty bytes, that the buffer is large enough for every
    address, and when the text is read back as the address. *)
From stdpp Require Import base list strings numbers.
From Stdlib Require Import ZArith Lia Ascii.
From S2P Require Import Prelude CString Regex Array Convert StringUtil Verify Path IpNet.

Local Open Scope Z_scope.

(** ** Writing at the end of a buffer *)

(** [m] returns [a] and writes [t], in every buffer that has room for it. *)
Definition writes {A} (m : M pbuf A) (a : A) (t : chars) : Prop := ∀ b d,
  (d + length t ≤ length b)%nat →
  m (mk_pbuf b d) = Some (a, mk_pbuf (take d b ++ t ++ drop (d + length t) b) (d + length t)).

Lemma writes_ret {A} (a : A) : writes (mret a) a [].
Proof. intros b d Hd. simpl. by rewrite Nat.add_0_r, take_drop. Qed.

Lemma writes_push c : writes (push c) tt [c].
Proof.
  intros b d Hd. simpl in Hd. unfold push. cbn [pd pb]. rewrite decide_True by lia. do 3 f_equal; [|simpl; lia].
  rewrite insert_take_drop by lia. simpl. by rewrite Nat.add_1_r.
Qed.

Lemma writes_bind {A B} (m : M pbuf A) (k : A → M pbuf B) a b t u :
  writes m a t → writes (k a) b u → writes (m ≫= k) b (t ++ u).
Proof.
  intros Hm Hk buf d Hd. rewrite length_app in Hd. unfold mbind, M_bind. rewrite Hm by lia.
  assert (Hl : length (take d buf ++ t ++ drop (d + length t) buf) = length buf).
  { rewrite !length_app, length_take, length_drop. lia. }
  rewrite Hk by lia. rewrite length_app. do 3 f_equal; [|lia].
  assert (E : take (d + length t) (take d buf ++ t ++ drop (d + length t) buf) = take d buf ++ t).
  { rewrite app_assoc. apply take_app_length'. rewrite length_app, length_take. lia. }
  rewrite E, <- !app_assoc. do 3 f_equal. rewrite (app_assoc (take d buf)), drop_app_ge by (rewrite length_app, length_take; lia).
  rewrite drop_drop. f_equal. rewrite length_app, length_take. lia.
Qed.

Lemma writes_eq {A} (m : M pbuf A) a t t' : writes m a t → t = t' → writes m a t'.
Proof. by intros ? <-. Qed.

(** ** Groups *)
Definition group : Type := Z * Z.
Definition group_ok (g : group) : Prop := 0 <= g.1 < 256 ∧ 0 <= g.2 < 256.
Definition group_val (g : group) : Z := g.1 * 256 + g.2.
Definition group_bytes (gs : list group) : list Z := gs ≫= λ g, [g.1; g.2].

(** The digits of a group without the leading zeros: none for a group of zeros. *)
Definition nibbles (g : group) : list Z := [g.1 / 16; g.1 mod 16; g.2 / 16; g.2 mod 16].
Fixpoint strip_zeros (l : list Z) : list Z :=
  match l with [] => [] | n :: l' => if decide (n = 0) then strip_zeros l' else l end.
Definition group_text (g : group) : chars := hex_char <$> strip_zeros (nibbles g).

Definition nibble_text (skip : bool) (n : Z) : chars := if decide (n ≠ 0) then [hex_char n] else if skip then [] else [hex_char n].

Lemma put_nibble_ok n skip : writes (put_nibble n skip) (skip && bool_decide (n = 0)) (nibble_text skip n).
Proof.
  unfold put_nibble, nibble_text. destruct (decide (n ≠ 0)) as [Hn|Hn].
  - rewrite bool_decide_false, andb_false_r by done. apply (writes_bind _ _ tt _ [_] []); [apply writes_push|apply writes_ret].
  - destruct (decide (n = 0)) as [->|]; [|done]. rewrite bool_decide_true, andb_true_r by done. destruct skip; [apply writes_ret|].
    apply (writes_bind _ _ tt _ [_] []); [apply writes_push|apply writes_ret].
Qed.

Lemma nibble_text_false n : nibble_text false n = [hex_char n].
Proof. unfold nibble_text. by destruct (decide (n ≠ 0)). Qed.

Lemma nibble_text_true n : nibble_text true n = if decide (n = 0) then [] else [hex_char n].
Proof. unfold nibble_text. destruct (decide (n ≠ 0)), (decide (n = 0)); naive_solver. Qed.

(** The digits written one after the other. *)
Fixpoint nibbles_text (skip : bool) (l : list Z) : chars :=
  match l with [] => [] | n :: l => nibble_text skip n ++ nibbles_text (skip && bool_decide (n = 0)) l end.

Lemma nibbles_text_ok l : nibbles_text false l = hex_char <$> l ∧ nibbles_text true l = hex_char <$> strip_zeros l.
Proof.
  induction l as [|n l [IH1 IH2]]; [done|]. cbn [nibbles_text strip_zeros andb]. rewrite nibble_text_false, nibble_text_true, IH1.
  split; [done|]. destruct (decide (n = 0)) as [->|Hn]; [by rewrite bool_decide_true|by rewrite bool_decide_false, IH1].
Qed.

Lemma byte_nibbles b : 0 <= b < 256 → Z.shiftr b 4 = b / 16 ∧ Z.land b 15 = b mod 16.
Proof. intros Hb. rewrite Z.shiftr_div_pow2 by lia. change 15 with (Z.ones 4). by rewrite Z.land_ones. Qed.

Lemma byte_at_groups gs n g :
  gs !! n = Some g → byte_at (group_bytes gs) (2 * n) = g.1 ∧ byte_at (group_bytes gs) (S (2 * n)) = g.2.
Proof.
  revert n. induction gs as [|h gs IH]; intros [|n] Hg; [done..| |].
  - by injection Hg as ->.
  - replace (2 * S n)%nat with (S (S (2 * n))) by lia. by apply (IH n).
Qed.

Lemma put_group_ok gs n g :
  gs !! n = Some g → group_ok g → writes (put_group (group_bytes gs) (2 * n)) tt (group_text g).
Proof.
  intros Hg [H1 H2]. unfold put_group. destruct (byte_at_groups gs n g Hg) as [-> ->].
  destruct (byte_nibbles _ H1) as [-> ->], (byte_nibbles _ H2) as [-> ->]. unfold group_text, nibbles.
  rewrite <- (proj2 (nibbles_text_ok _)).
  eapply writes_eq; [do 4 (eapply writes_bind; [apply put_nibble_ok|]); apply writes_ret|]. done.
Qed.

(** ** The text of an address *)
Definition colon_texts (gs : list group) : chars := gs ≫= λ g, ":"%char :: group_text g.
Definition groups_text (gs : list group) : chars :=
  match gs with [] => [] | g :: gs => group_text g ++ colon_texts gs end.

(** The groups [a] up to [b] are shortened. *)
Definition ipv6_text (gs : list group) (zeros : option (nat * nat)) : chars :=
  match zeros with
  | None => groups_text gs
  | Some (a, b) => groups_text (take a gs) ++ ":"%char :: ":"%char :: groups_text (drop b gs)
  end.

Definition bytes_of (z : nat * nat) : nat * nat := (2 * z.1, 2 * z.2)%nat.

Section loop.
Context (gs : list group) (Hlen : length gs = 8%nat) (Hok : Forall group_ok gs).

Lemma group_at n : (n < 8)%nat → ∃ g, gs !! n = Some g ∧ group_ok g ∧ drop n gs = g :: drop (S n) gs.
Proof.
  intros Hn. destruct (lookup_lt_is_Some_2 gs n ltac:(lia)) as [g Hg]. exists g.
  split_and!; [done|by eapply Forall_lookup_1|by apply drop_S].
Qed.

(** A group that is written with a colon before it. *)
Lemma colon_group n g (m : M pbuf unit) t :
  gs !! n = Some g → group_ok g → (0 < n)%nat → writes m tt t →
  writes ((if decide (0 < 2 * n)%nat then push ":"%char else mret tt);; put_group (group_bytes gs) (2 * n);; m) tt (":"%char :: group_text g ++ t).
Proof.
  intros Hg Ho Hn Hm. rewrite decide_True by lia.
  apply (writes_bind _ _ tt _ [_]); [apply writes_push|]. eapply writes_bind; [by apply put_group_ok|done].
Qed.

(** After the shortened groups, or without any. *)
Lemma ipv6_loop_rest zeros fuel n :
  (0 < n ≤ 8)%nat → (8 < n + fuel)%nat → (∀ e, zeros = Some e → (e.1 < n)%nat) →
  writes (ipv6_loop fuel (group_bytes gs) (bytes_of <$> zeros) (2 * n)) tt (colon_texts (drop n gs)).
Proof.
  revert n. induction fuel as [|fuel IH]; intros n Hn Hf Hz; [lia|]. cbn [ipv6_loop]. unfold IPV6LEN.
  destruct (decide (n = 8)%nat) as [->|Hne]; [rewrite drop_ge by lia; apply writes_ret|].
  rewrite decide_False by lia. destruct (group_at n ltac:(lia)) as (g & Hg & Ho & ->).
  assert (Hrest : writes (ipv6_loop fuel (group_bytes gs) (bytes_of <$> zeros) (2 * n + 2)) tt (colon_texts (drop (S n) gs))).
  { replace (2 * n + 2)%nat with (2 * S n)%nat by lia. apply IH; [lia|lia|]. intros e He. specialize (Hz e He). lia. }
  cbn [colon_texts mbind list_bind]. fold (colon_texts (drop (S n) gs)).
  destruct zeros as [[e0 e1]|]; [|apply colon_group; [done|done|lia|done]]. cbn [fmap option_fmap option_map bytes_of fst snd].
  rewrite decide_False by (specialize (Hz _ eq_refl); simpl in Hz; lia). apply colon_group; [done|done|lia|done].
Qed.

Lemma ipv6_loop_first g (m : M pbuf unit) t :
  gs !! 0%nat = Some g → group_ok g → writes m tt t →
  writes ((if decide (0 < 0)%nat then push ":"%char else mret tt);; put_group (group_bytes gs) 0;; m) tt (group_text g ++ t).
Proof.
  intros Hg Ho Hm. apply (writes_bind _ _ tt _ []); [apply writes_ret|].
  eapply writes_bind; [by apply (put_group_ok gs 0)|done].
Qed.

(** From a group before the shortened ones on. *)
Lemma ipv6_loop_before a b fuel n :
  (n ≤ a < b)%nat → (b ≤ 8)%nat → (8 < n + fuel)%nat →
  writes (ipv6_loop fuel (group_bytes gs) (bytes_of <$> Some (a, b)) (2 * n)) tt
    ((if decide (n = 0)%nat then groups_text (take a gs) else colon_texts (take (a - n) (drop n gs))) ++
     ":"%char :: ":"%char :: groups_text (drop b gs)).
Proof.
  revert n. induction fuel as [|fuel IH]; intros n Hn Hb Hf; [lia|].
  cbn [ipv6_loop fmap option_fmap option_map bytes_of fst snd]. unfold IPV6LEN. rewrite decide_False by lia.
  destruct (decide (2 * n = 2 * a)%nat) as [E|E].
  - assert (n = a) as -> by lia. replace (if decide (a = 0)%nat then _ else _) with (@nil ascii).
    2:{ destruct (decide (a = 0)%nat) as [->|]; [done|]. by rewrite Nat.sub_diag. }
    apply (writes_bind _ _ tt _ [_]); [apply writes_push|]. apply (writes_bind _ _ tt _ [_]); [apply writes_push|].
    destruct (decide (b = 8)%nat) as [->|Hb8]; [rewrite decide_True, drop_ge by lia; apply writes_ret|].
    rewrite decide_False by lia. destruct (group_at b ltac:(lia)) as (g & Hg & Ho & ->).
    eapply writes_bind; [by apply put_group_ok|]. replace (2 * b + 2)%nat with (2 * S b)%nat by lia.
    apply (ipv6_loop_rest (Some (a, b))); [lia|lia|]. intros e [= <-]. simpl. lia.
  - destruct (group_at n ltac:(lia)) as (g & Hg & Ho & Hd).
    specialize (IH (S n) ltac:(lia) Hb ltac:(lia)). rewrite decide_False in IH by lia.
    replace (2 * S n)%nat with (2 * n + 2)%nat in IH by lia.
    destruct (decide (n = 0)%nat) as [->|Hn0].
    + eapply writes_eq; [by apply ipv6_loop_first|]. rewrite drop_0 in Hd. rewrite Hd.
      replace a with (S (a - 1)) at 2 by lia. cbn [take groups_text]. by rewrite <- app_assoc.
    + eapply writes_eq; [apply colon_group; [done|done|lia|exact IH]|]. rewrite Hd.
      replace (a - n)%nat with (S (a - S n)) by lia. cbn [take colon_texts mbind list_bind]. cbn [app]. by rewrite <- app_assoc.
Qed.

Lemma ipv6_loop_ok zeros :
  (∀ a b, zeros = Some (a, b) → (a < b ≤ 8)%nat) →
  writes (ipv6_loop 9 (group_bytes gs) (bytes_of <$> zeros) 0) tt (ipv6_text gs zeros).
Proof.
  intros Hz. destruct zeros as [[a b]|].
  - specialize (Hz a b eq_refl). apply (ipv6_loop_before a b 9 0); lia.
  - change 9%nat with (S 8). destruct (group_at 0 ltac:(lia)) as (g & Hg & Ho & Hd). rewrite drop_0 in Hd.
    eapply writes_eq; [apply (ipv6_loop_first g); [done|done|]; apply (ipv6_loop_rest None 8 1); [lia|lia|done]|].
    unfold ipv6_text. by rewrite Hd.
Qed.
End loop.

(** ** The digits *)
Lemma hex_char_ok n :
  0 <= n < 16 → digit_in 16 (hex_char n) = Some n ∧ Ascii.eqb (hex_char n) NUL = false ∧ Ascii.eqb (hex_char n) slash = false ∧
    Ascii.eqb (hex_char n) ":" = false.
Proof.
  intros Hn. assert (Hi : n ∈ Z.of_nat <$> seq 0 16).
  { apply list_elem_of_fmap. exists (Z.to_nat n). split; [lia|]. apply elem_of_seq. lia. }
  clear Hn. revert n Hi. apply list.Forall_forall. cbn [seq fmap list_fmap]. repeat (constructor; [done|]). constructor.
Qed.

Lemma nibbles_ok g : group_ok g → Forall (λ n, 0 <= n < 16) (nibbles g) ∧ foldl (λ v n, v * 16 + n) 0 (nibbles g) = group_val g.
Proof.
  intros [H1 H2]. unfold nibbles, group_val. pose proof (Z.div_mod g.1 16 ltac:(lia)). pose proof (Z.div_mod g.2 16 ltac:(lia)).
  pose proof (Z.mod_pos_bound g.1 16 ltac:(lia)). pose proof (Z.mod_pos_bound g.2 16 ltac:(lia)).
  split; [|cbn; lia]. assert (0 <= g.1 / 16 < 16) by (split; [apply Z.div_pos|apply Z.div_lt_upper_bound]; lia).
  assert (0 <= g.2 / 16 < 16) by (split; [apply Z.div_pos|apply Z.div_lt_upper_bound]; lia).
  repeat constructor; lia.
Qed.

Lemma strip_zeros_ok l v :
  foldl (λ v n, v * 16 + n) 0 (strip_zeros l) = foldl (λ v n, v * 16 + n) 0 l ∧ (length (strip_zeros l) ≤ length l)%nat ∧
  (strip_zeros l = [] → foldl (λ v n, v * 16 + n) 0 l = 0) ∧ (Forall v l → Forall v (strip_zeros l)).
Proof.
  induction l as [|n l IH]; [done|]. cbn [strip_zeros]. destruct (decide (n = 0)) as [->|Hn]; [|by split_and!].
  destruct IH as (E & Hl & H0 & Hf). cbn [foldl length]. split_and!; [done|lia|done|]. intros H. apply Hf. by inversion H.
Qed.

Lemma group_text_ok g :
  group_ok g → (length (group_text g) ≤ 4)%nat ∧ no_nul (group_text g) ∧ Forall (λ c, Ascii.eqb c slash = false) (group_text g) ∧
    (group_val g ≠ 0 → group_text g ≠ []).
Proof.
  intros Hg. destruct (nibbles_ok g Hg) as [Hn Hv]. destruct (strip_zeros_ok (nibbles g) (λ n, 0 <= n < 16)) as (_ & Hl & H0 & Hf).
  specialize (Hf Hn). unfold group_text, no_nul. rewrite length_fmap. split_and!.
  - exact Hl.
  - apply Forall_fmap. eapply list.Forall_impl; [exact Hf|]. intros n Hr. by destruct (hex_char_ok n Hr) as (_ & ? & _).
  - apply Forall_fmap. eapply list.Forall_impl; [exact Hf|]. intros n Hr. by destruct (hex_char_ok n Hr) as (_ & _ & ? & _).
  - intros Hne E. apply Hne. rewrite <- Hv. apply H0. by destruct (strip_zeros (nibbles g)).
Qed.

Lemma colon_texts_ok gs :
  Forall group_ok gs → (length (colon_texts gs) ≤ 5 * length gs)%nat ∧ no_nul (colon_texts gs) ∧
    Forall (λ c, Ascii.eqb c slash = false) (colon_texts gs).
Proof.
  induction 1 as [|g gs Hg Hgs (IH1 & IH2 & IH3)]; [split_and!; [done|constructor..]|].
  destruct (group_text_ok g Hg) as (H1 & H2 & H3 & _). cbn [colon_texts mbind list_bind]. fold (colon_texts gs).
  rewrite length_app. cbn [length]. split_and!; [lia|..]; (constructor; [done|]; by apply Forall_app).
Qed.

Lemma groups_text_ok gs :
  Forall group_ok gs → (length (groups_text gs) ≤ 5 * length gs - 1)%nat ∧ no_nul (groups_text gs) ∧
    Forall (λ c, Ascii.eqb c slash = false) (groups_text gs).
Proof.
  intros H. destruct H as [|g gs Hg Hgs]; [split_and!; [done|constructor..]|]. destruct (group_text_ok g Hg) as (H1 & H2 & H3 & _).
  destruct (colon_texts_ok gs Hgs) as (C1 & C2 & C3). cbn [groups_text]. rewrite length_app. cbn [length].
  split_and!; [lia|by apply Forall_app..].
Qed.

Lemma ipv6_text_ok gs zeros :
  length gs = 8%nat → Forall group_ok gs → (∀ a b, zeros = Some (a, b) → (a < b ≤ 8)%nat) →
  (length (ipv6_text gs zeros) < 40)%nat ∧ no_nul (ipv6_text gs zeros) ∧ Forall (λ c, Ascii.eqb c slash = false) (ipv6_text gs zeros).
Proof.
  intros Hl Hg Hz. destruct zeros as [[a b]|]; cbn [ipv6_text].
  - specialize (Hz a b eq_refl). destruct (groups_text_ok (take a gs)) as (A1 & A2 & A3); [by apply Forall_take|].
    destruct (groups_text_ok (drop b gs)) as (B1 & B2 & B3); [by apply Forall_drop|]. rewrite length_take in A1. rewrite length_drop in B1.
    rewrite length_app. cbn [length]. split_and!; [lia|..]; (apply Forall_app; split; [done|]; by repeat constructor).
  - destruct (groups_text_ok gs Hg) as (A1 & A2 & A3). split_and!; [lia|done..].
Qed.

(** The text is written and ends before the buffer does. *)
Lemma generate_ok gs zeros :
  length gs = 8%nat → Forall group_ok gs → (∀ a b, zeros = Some (a, b) → (a < b ≤ 8)%nat) →
  generate_ipv6_string true (group_bytes gs) (bytes_of <$> zeros) = Some (Some (to_str (ipv6_text gs zeros))).
Proof.
  intros Hl Hg Hz. unfold generate_ipv6_string, IPV6_MAX_ADDR_LEN. cbn [negb].
  destruct (ipv6_text_ok gs zeros Hl Hg Hz) as (H1 & H2 & _).
  rewrite (ipv6_loop_ok gs Hl Hg zeros Hz) by (rewrite length_replicate; lia). cbn [pb take app]. do 2 f_equal.
  rewrite drop_replicate. replace (40 - (0 + length (ipv6_text gs zeros)))%nat with (S (39 - length (ipv6_text gs zeros))) by lia.
  by apply buf_str_ok.
Qed.

(** ** The groups that are shortened *)
Definition group_zero (gs : list group) (i : nat) : Prop := ∃ g, gs !! i = Some g ∧ group_val g = 0.

Definition zero_run (gs : list group) (zeros : option (nat * nat)) : Prop :=
  ∀ a b, zeros = Some (a, b) → (a < b ≤ 8)%nat ∧ ∀ i, (a ≤ i < b)%nat → group_zero gs i.

Lemma length_group_bytes gs : length (group_bytes gs) = (2 * length gs)%nat.
Proof. induction gs as [|g gs IH]; [done|]. cbn [group_bytes mbind list_bind length app]. fold (group_bytes gs). cbn [mbind] in IH. rewrite IH. lia. Qed.

Section zeros.
Context (gs : list group) (Hlen : length gs = 8%nat) (Hok : Forall group_ok gs).

Lemma zeros_end_ok fuel n :
  (n ≤ 8)%nat → ∃ m, zeros_end fuel (group_bytes gs) (2 * n) = (2 * m)%nat ∧ (n ≤ m ≤ 8)%nat ∧ ∀ i, (n ≤ i < m)%nat → group_zero gs i.
Proof.
  revert n. induction fuel as [|fuel IH]; intros n Hn; cbn [zeros_end]; [exists n; split_and!; [done|lia..]|].
  destruct (decide (2 * n < IPV6LEN)%nat) as [Hlt|]; [|exists n; split_and!; [done|lia..]]. unfold IPV6LEN in Hlt.
  destruct (group_at gs Hlen Hok n ltac:(lia)) as (g & Hg & [G1 G2] & _). destruct (byte_at_groups gs n g Hg) as [-> ->].
  destruct (Z.eqb_spec g.1 0) as [E1|]; cbn [andb]; [|exists n; split_and!; [done|lia..]].
  destruct (Z.eqb_spec g.2 0) as [E2|]; [|exists n; split_and!; [done|lia..]].
  replace (2 * n + 2)%nat with (2 * S n)%nat by lia. destruct (IH (S n) ltac:(lia)) as (m & -> & Hm & Hz).
  exists m. split_and!; [done|lia|lia|]. intros i Hi. destruct (decide (i = n)) as [->|]; [|apply Hz; lia].
  exists g. split; [done|]. unfold group_val. lia.
Qed.

Lemma find_zeros_ok fuel n best :
  zero_run gs best → ∃ zs, find_zeros fuel (group_bytes gs) (2 * n) (bytes_of <$> best) = bytes_of <$> zs ∧ zero_run gs zs.
Proof.
  revert n best. induction fuel as [|fuel IH]; intros n best Hb; cbn [find_zeros]; [by exists best|].
  destruct (decide (IPV6LEN ≤ 2 * n)%nat) as [|Hlt]; [by exists best|]. unfold IPV6LEN in Hlt.
  destruct (zeros_end_ok 8 n ltac:(lia)) as (m & -> & Hm & Hz).
  destruct (decide _) as [[H1 _]|].
  - replace (2 * m + 2)%nat with (2 * S m)%nat by lia. change (Some (2 * n, 2 * m)%nat) with (bytes_of <$> Some (n, m)).
    apply IH. intros a b [= <- <-]. split; [lia|done].
  - replace (2 * n + 2)%nat with (2 * S n)%nat by lia. by apply IH.
Qed.

Lemma parse_ipv6_ok :
  ∃ zs, shortened (group_bytes gs) = bytes_of <$> zs ∧ zero_run gs zs ∧
    parse_ipv6_to_string true (group_bytes gs) = Some (Some (to_str (ipv6_text gs zs))).
Proof.
  destruct (find_zeros_ok 9 0 None ltac:(done)) as (zs & Hf & Hz). change (find_zeros 9 (group_bytes gs) 0 None = bytes_of <$> zs) in Hf.
  assert (∃ zs', shortened (group_bytes gs) = bytes_of <$> zs' ∧ zero_run gs zs') as (zs' & Hs & Hz').
  { unfold shortened. rewrite Hf. destruct zs as [[a b]|]; [|by exists None]. cbn [fmap option_fmap option_map bytes_of fst snd].
    destruct (decide _); [by exists None|by exists (Some (a, b))]. }
  exists zs'. split_and!; [done|done|]. unfold parse_ipv6_to_string, IPV6LEN.
  rewrite length_group_bytes, Hlen, decide_False by lia. rewrite Hs. apply generate_ok; [done..|]. intros a b E. by apply Hz'.
Qed.
End zeros.

(** ** Reading the text *)
Lemma pton6_digits tmp colonp ns seen v cur rest :
  Forall (λ n, 0 <= n < 16) ns → (seen + length ns ≤ 4)%nat →
  pton6 tmp colonp seen v cur ((hex_char <$> ns) ++ rest) =
  pton6 tmp colonp (seen + length ns) (foldl (λ v n, v * 16 + n) v ns) cur rest.
Proof.
  intros H. revert seen v. induction H as [|n ns Hn Hns IH]; intros seen v Hs; cbn [length] in *; [by rewrite Nat.add_0_r|].
  cbn [fmap list_fmap app pton6 foldl]. destruct (hex_char_ok n Hn) as [-> _]. rewrite decide_False by lia.
  rewrite IH by lia. f_equal. lia.
Qed.

Lemma pton6_group tmp colonp g cur rest :
  group_ok g → pton6 tmp colonp 0 0 cur (group_text g ++ rest) = pton6 tmp colonp (length (group_text g)) (group_val g) cur rest.
Proof.
  intros Hg. destruct (nibbles_ok g Hg) as [Hn Hv]. destruct (strip_zeros_ok (nibbles g) (λ n, 0 <= n < 16)) as (E & Hl & _ & Hf).
  unfold group_text. rewrite pton6_digits by (by auto || exact Hl). by rewrite length_fmap, E, Hv.
Qed.

Lemma group_val_bytes g : group_ok g → [group_val g / 256; group_val g mod 256] = [g.1; g.2].
Proof. intros [H1 H2]. unfold group_val. f_equal; [|f_equal].
  - rewrite Z.div_add_l, Z.div_small by lia. lia.
  - by rewrite Z.add_comm, Z.mod_add, Z.mod_small by lia.
Qed.

Definition group_nonzero (g : group) : Prop := group_ok g ∧ group_val g ≠ 0.

(** A group and the colon after it. *)
Lemma pton6_group_colon tmp colonp g cur c rest :
  group_nonzero g → (length tmp + 2 ≤ 16)%nat →
  pton6 tmp colonp 0 0 cur (group_text g ++ ":"%char :: c :: rest) = pton6 (tmp ++ [g.1; g.2]) colonp 0 0 (c :: rest) (c :: rest).
Proof.
  intros [Hg Hz] Hl. rewrite pton6_group by done. destruct (group_text_ok g Hg) as (_ & _ & _ & Hne). specialize (Hne Hz).
  destruct (group_text g) as [|d t]; [done|]. cbn [length].
  change (pton6 tmp colonp (S (length t)) (group_val g) cur (":"%char :: c :: rest)) with
    (if decide (16 < length tmp + 2)%nat then None else pton6 (tmp ++ [group_val g / 256; group_val g mod 256]) colonp 0 0 (c :: rest) (c :: rest)).
  by rewrite decide_False, group_val_bytes by (done || lia).
Qed.

Lemma groups_text_cons g h gs : groups_text (g :: h :: gs) = group_text g ++ ":"%char :: groups_text (h :: gs).
Proof. done. Qed.

Lemma group_bytes_cons g gs : group_bytes (g :: gs) = [g.1; g.2] ++ group_bytes gs.
Proof. done. Qed.

Lemma groups_text_head g gs : group_nonzero g → ∃ n t, groups_text (g :: gs) = hex_char n :: t ∧ 0 <= n < 16.
Proof.
  intros [Hg Hz]. destruct (group_text_ok g Hg) as (_ & _ & _ & Hne). specialize (Hne Hz).
  destruct (nibbles_ok g Hg) as [Hn _]. destruct (strip_zeros_ok (nibbles g) (λ n, 0 <= n < 16)) as (_ & _ & _ & Hf). specialize (Hf Hn).
  unfold groups_text, group_text in *. destruct (strip_zeros (nibbles g)) as [|n l]; [done|].
  apply list.Forall_cons in Hf as [Hr _]. by eexists n, _.
Qed.

Lemma pton6_groups_colon gs tmp colonp cur c rest :
  gs ≠ [] → Forall group_nonzero gs → (length tmp + 2 * length gs ≤ 16)%nat →
  pton6 tmp colonp 0 0 cur (groups_text gs ++ ":"%char :: c :: rest) = pton6 (tmp ++ group_bytes gs) colonp 0 0 (c :: rest) (c :: rest).
Proof.
  intros Hne H. revert tmp cur. induction H as [|g gs Hg Hgs IH]; [done|]. intros tmp cur Hl. cbn [length] in Hl.
  destruct gs as [|h gs].
  - cbn [groups_text colon_texts mbind list_bind]. rewrite app_nil_r, pton6_group_colon by (done || lia). done.
  - rewrite groups_text_cons, <- app_assoc. cbn [app].
    destruct (groups_text_head h gs) as (n & t & E & Hn); [by apply list.Forall_cons in Hgs as [? _]|]. rewrite E. cbn [app].
    rewrite pton6_group_colon by (done || lia). rewrite app_comm_cons, <- E. rewrite IH; [|done|rewrite length_app; cbn [length] in *; lia].
    by rewrite (group_bytes_cons g), app_assoc.
Qed.

Lemma pton6_groups_end gs tmp colonp cur :
  Forall group_nonzero gs → (length tmp + 2 * length gs ≤ 16)%nat →
  pton6 tmp colonp 0 0 cur (groups_text gs) = pton6_end (tmp ++ group_bytes gs) colonp 0 0.
Proof.
  intros H. revert tmp cur. induction H as [|g gs Hg Hgs IH]; intros tmp cur Hl; [by rewrite app_nil_r|]. cbn [length] in Hl.
  destruct gs as [|h gs].
  - cbn [groups_text colon_texts mbind list_bind]. destruct Hg as [Hg Hz]. rewrite pton6_group by done.
    destruct (group_text_ok g Hg) as (_ & _ & _ & Hne). specialize (Hne Hz). destruct (group_text g) as [|d t]; [done|].
    cbn [pton6 length]. unfold pton6_end. by rewrite group_val_bytes.
  - rewrite groups_text_cons. destruct (groups_text_head h gs) as (n & t & E & Hn); [by apply list.Forall_cons in Hgs as [? _]|].
    rewrite E, pton6_group_colon by (done || lia). rewrite <- E, IH by (rewrite length_app; cbn [length] in *; lia).
    by rewrite (group_bytes_cons g), app_assoc.
Qed.

Lemma group_bytes_app gs gs' : group_bytes (gs ++ gs') = group_bytes gs ++ group_bytes gs'.
Proof. unfold group_bytes. apply bind_app. Qed.

Lemma group_bytes_zeros gs : Forall (λ g, group_ok g ∧ group_val g = 0) gs → group_bytes gs = replicate (2 * length gs) 0.
Proof.
  induction 1 as [|g gs [[H1 H2] Hz] Hgs IH]; [done|]. rewrite group_bytes_cons, IH. unfold group_val in Hz.
  assert (g.1 = 0) as -> by lia. assert (g.2 = 0) as -> by lia. cbn [length]. by replace (2 * S (length gs))%nat with (S (S (2 * length gs))) by lia.
Qed.

(** The zero groups that are not shortened. *)
Definition lone_zeros (gs : list group) (zs : option (nat * nat)) : Prop :=
  ∃ i, group_zero gs i ∧ ∀ a b, zs = Some (a, b) → ¬ (a ≤ i < b)%nat.

Section reading.
Context (gs : list group) (Hlen : length gs = 8%nat) (Hok : Forall group_ok gs).

Lemma outside_nonzero zs (f : list group → list group) :
  ¬ lone_zeros gs zs → (∀ g, g ∈ f gs → ∃ i, gs !! i = Some g ∧ ∀ a b, zs = Some (a, b) → ¬ (a ≤ i < b)%nat) → Forall group_nonzero (f gs).
Proof.
  intros Hl Hf. apply list.Forall_forall. intros g Hg. destruct (Hf g Hg) as (i & Hi & Ho).
  split; [by eapply Forall_lookup_1|]. intros Hz. apply Hl. exists i. split; [by exists g|done].
Qed.

(** An address without such zeros is read back. *)
Lemma inet_pton6_text zs :
  zero_run gs zs → ¬ lone_zeros gs zs → inet_pton6 (ipv6_text gs zs) = Some (group_bytes gs).
Proof.
  intros Hz Hlone. destruct zs as [[a b]|]; cbn [ipv6_text].
  - destruct (Hz a b eq_refl) as [Hab Hzero].
    assert (H1 : Forall group_nonzero (take a gs)).
    { apply (outside_nonzero _ (take a) Hlone). intros g [i [Hi Hg]]%elem_of_take. exists i. split; [done|]. intros ?? [= <- <-]. lia. }
    assert (H2 : Forall group_nonzero (drop b gs)).
    { apply (outside_nonzero _ (drop b) Hlone). intros g [i Hi]%list_elem_of_lookup. rewrite lookup_drop in Hi. exists (b + i)%nat. split; [done|]. intros ?? [= <- <-]. lia. }
    assert (Hmid : group_bytes (take (b - a) (drop a gs)) = replicate (2 * (b - a)) 0).
    { rewrite group_bytes_zeros; [by rewrite length_take, length_drop, Nat.min_l by lia|].
      apply list.Forall_forall. intros g [i [Hi Hg]]%elem_of_take. rewrite lookup_drop in Hi.
      destruct (Hzero (a + i)%nat ltac:(lia)) as (g' & Hg' & E). assert (g' = g) as -> by congruence. split; [by eapply Forall_lookup_1|done]. }
    assert (Hall : group_bytes gs = group_bytes (take a gs) ++ replicate (2 * (b - a)) 0 ++ group_bytes (drop b gs)).
    { rewrite <- Hmid, <- !group_bytes_app. f_equal. rewrite <- (take_drop a gs) at 1. f_equal.
      rewrite <- (take_drop (b - a) (drop a gs)) at 1. by rewrite drop_drop, Nat.add_comm, Nat.sub_add by lia. }
    assert (Hend : pton6_end (group_bytes (take a gs) ++ group_bytes (drop b gs)) (Some (length (group_bytes (take a gs)))) 0 0 = Some (group_bytes gs)).
    { unfold pton6_end. rewrite length_app, !length_group_bytes, length_take, length_drop, decide_False, decide_False by lia.
      rewrite <- length_take, <- length_group_bytes, take_app_length, drop_app_length, Hall.
      do 4 f_equal. rewrite length_group_bytes, length_take. lia. }
    destruct (decide (a = 0)%nat) as [->|Ha].
    + cbn [take groups_text app]. cbn [take group_bytes mbind list_bind app length] in Hend.
      change (pton6 [] (Some 0%nat) 0 0 (groups_text (drop b gs)) (groups_text (drop b gs)) = Some (group_bytes gs)).
      rewrite pton6_groups_end by (done || rewrite length_drop; simpl; lia). done.
    + destruct (take a gs) as [|g l] eqn:El; [apply (f_equal length) in El; rewrite length_take in El; simpl in El; lia|].
      destruct (groups_text_head g l) as (n & t & E & Hn); [by apply list.Forall_cons in H1 as [? _]|].
      assert (Hlg : (length (g :: l) = a)%nat) by (rewrite <- El, length_take; lia).
      unfold inet_pton6. rewrite E. cbn [app]. destruct (hex_char_ok n Hn) as (_ & _ & _ & ->).
      rewrite app_comm_cons, <- E. rewrite pton6_groups_colon by (done || simpl in *; lia). cbn [app].
      change (pton6 (group_bytes (g :: l)) (Some (length (group_bytes (g :: l)))) 0 0 (groups_text (drop b gs)) (groups_text (drop b gs)) = Some (group_bytes gs)).
      rewrite pton6_groups_end; [done|done|]. rewrite length_group_bytes, length_drop. lia.
  - assert (H1 : Forall group_nonzero gs).
    { apply (outside_nonzero _ id Hlone). intros g [i Hi]%list_elem_of_lookup. by exists i. }
    destruct gs as [|g l] eqn:El; [done|]. destruct (groups_text_head g l) as (n & t & E & Hn); [by apply list.Forall_cons in H1 as [? _]|].
    unfold inet_pton6. rewrite E. destruct (hex_char_ok n Hn) as (_ & _ & _ & ->). rewrite <- E, pton6_groups_end by (done || simpl in *; lia).
    cbn [app]. unfold pton6_end. rewrite length_group_bytes, Hlen. cbn. done.
Qed.

(** Nothing with a colon is an IPv4 address. *)
Lemma pton4_colon s octets cur : ":"%char ∈ s → pton4 octets cur s = None.
Proof.
  revert octets cur. induction s as [|c s IH]; intros octets cur H; [by apply elem_of_nil in H|].
  apply elem_of_cons in H as [<-|H]; [done|]. cbn [pton4].
  repeat case_match; rewrite ?IH by done; done.
Qed.

Lemma text_colon zs : zero_run gs zs → ":"%char ∈ ipv6_text gs zs.
Proof.
  intros Hz. destruct zs as [[a b]|]; cbn [ipv6_text]; [apply elem_of_app; right; left|].
  destruct gs as [|g [|h l]]; [done..|]. cbn [groups_text]. apply elem_of_app. right. left.
Qed.
End reading.

(** ** The theorems *)

(** The groups of an address. *)
Fixpoint groups_of (l : list Z) : list group := match l with a :: b :: l => (a, b) :: groups_of l | _ => [] end.

Lemma groups_of_ok n l : length l = (2 * n)%nat → bytes l → group_bytes (groups_of l) = l ∧ length (groups_of l) = n ∧ Forall group_ok (groups_of l).
Proof.
  revert l. induction n as [|n IH]; intros l Hl Hb.
  { destruct l; [|done]. split_and!; [done|done|constructor]. }
  replace (2 * S n)%nat with (S (S (2 * n))) in Hl by lia. destruct l as [|a [|b l]]; [done..|]. injection Hl as Hl.
  apply list.Forall_cons in Hb as [Ha Hb]. apply list.Forall_cons in Hb as [Hb Hb']. destruct (IH l Hl Hb') as (E & L & F).
  cbn [groups_of]. rewrite group_bytes_cons, E. cbn [length]. split_and!; [done|by rewrite L|by constructor].
Qed.

(** An address whose text is unambiguous: IPv4, or IPv6 where every group of
    zeros is among those written as [::]. *)
Definition readable (addr : list Z) : Prop :=
  length addr = IPV4LEN ∨
  length addr = IPV6LEN ∧ is_ipv4_mapped_address addr = false ∧
  ∀ i, (i < 8)%nat → byte_at addr (2 * i) = 0 → byte_at addr (S (2 * i)) = 0 →
    ∃ e0 e1, shortened addr = Some (e0, e1) ∧ (e0 ≤ 2 * i < e1)%nat.

Lemma readable_lone gs zs :
  length gs = 8%nat → Forall group_ok gs → shortened (group_bytes gs) = bytes_of <$> zs →
  (∀ i, (i < 8)%nat → byte_at (group_bytes gs) (2 * i) = 0 → byte_at (group_bytes gs) (S (2 * i)) = 0 →
    ∃ e0 e1, shortened (group_bytes gs) = Some (e0, e1) ∧ (e0 ≤ 2 * i < e1)%nat) → ¬ lone_zeros gs zs.
Proof.
  intros Hl Hok Hs H (i & (g & Hg & Hz) & Ho). destruct (byte_at_groups gs i g Hg) as [E1 E2].
  pose proof (Forall_lookup_1 _ _ _ _ Hok Hg) as [G1 G2]. unfold group_val in Hz.
  assert (Hi : (i < 8)%nat) by (rewrite <- Hl; by eapply lookup_lt_Some).
  destruct (H i Hi) as (e0 & e1 & He & Hr); [lia..|]. rewrite Hs in He. destruct zs as [[a b]|]; [|done].
  injection He as <- <-. apply (Ho a b eq_refl). lia.
Qed.

Lemma ipv6_print addr : bytes addr → length addr = 16%nat → is_ipv4_mapped_address addr = false →
  parse_standard_ip_to_string true addr = parse_ipv6_to_string true addr.
Proof.
  intros Hb Hl Hm. unfold parse_standard_ip_to_string, parse_ipv4_to_string, IPV4LEN, IPV6LEN.
  by rewrite decide_False, decide_False, Hm by lia.
Qed.

(** The text of a readable address, and that it is read back. *)
Lemma readable_text addr :
  bytes addr → readable addr →
  ∃ t, parse_standard_ip_to_string true addr = Some (Some (to_str t)) ∧ (length t < 100)%nat ∧
    Forall (λ c, Ascii.eqb c slash = false) t ∧ util_parse_ip_from_str true (Some (to_str t)) = Some addr.
Proof.
  intros Hb [Hl|(Hl & Hm & Hz)].
  - exists (dotted addr). destruct (dotted_ok addr Hb Hl). split_and!; [by apply print_ipv4|done|done|by apply parse_ipv4].
  - destruct (groups_of_ok 8 addr Hl Hb) as (E & L & F). rewrite <- E in Hb, Hm, Hz |- *. set (gs := groups_of addr) in *. clearbody gs.
    destruct (parse_ipv6_ok gs L F) as (zs & Hs & Hr & Hp). exists (ipv6_text gs zs).
    destruct (ipv6_text_ok gs zs L F) as (H1 & _ & H2); [intros a b Ez; by apply Hr|].
    split_and!; [|lia|done|].
    + by rewrite ipv6_print, Hp by (done || by rewrite length_group_bytes, L).
    + unfold util_parse_ip_from_str, inet_pton4. rewrite chars_of_string, pton4_colon by (by apply text_colon).
      rewrite (inet_pton6_text gs L F zs) by (done || by eapply readable_lone). done.
Qed.

Lemma get_mask_ok net k : cidr net k → readable (ip net) → get_mask true net = Some (mask_loop (length (ip net)) k).
Proof.
  intros Hn [Hl|(Hl & Hm & _)]; [by eapply get_mask_ipv4|]. pose proof (mask_length_ok net k Hn) as Hml. destruct Hn as [_ _ Hmk].
  unfold get_mask, get_ipv6_mask, IPV4LEN, IPV6LEN in *. rewrite <- Hmk, Hml, Hl, Hm. cbn [negb].
  rewrite !decide_False by lia. f_equal. apply take_ge. lia.
Qed.

(** C30: The text of a network in CIDR notation is read back as the network, for IPv4
    and for IPv6 addresses whose text is unambiguous. *)
Theorem network_text_roundtrip net k :
  cidr net k → readable (ip net) →
  ∃ s, util_ipnet_to_string true (Some net) = Some (Some s) ∧ util_parse_ipnet_from_str true (Some s) = Some net.
Proof.
  intros Hn Hr. pose proof Hn as [Hb Hk _]. destruct (readable_text _ Hb Hr) as (t & Hp & Hl & Hs & Hi).
  apply (ipnet_string net k t); [done..|by apply get_mask_ok| |done|done].
  destruct Hr as [->|(-> & _)] in Hk; unfold IPV4LEN, IPV6LEN in Hk; lia.
Qed.

(** Printing is defined for every address, whether memory is left or not. *)
Lemma print_defined mem addr :
  bytes addr → length addr = IPV4LEN ∨ length addr = IPV6LEN → ∃ r, parse_standard_ip_to_string mem addr = Some r.
Proof.
  intros Hb Hl. destruct Hl as [Hl|Hl].
  - destruct mem; [rewrite print_ipv4 by done; by eexists|]. destruct addr as [|a [|b [|c [|d [|]]]]]; try done. by eexists.
  - unfold parse_standard_ip_to_string, parse_ipv4_to_string. rewrite decide_False by naive_solver.
    rewrite decide_False by (rewrite Hl; done). destruct (is_ipv4_mapped_address addr) eqn:Em; cbn [negb].
    + destruct mem; cbn [negb]; [|by eexists].
      rewrite uint8_join_ok; [by eexists|..].
      * intros E. apply (f_equal length) in E. rewrite length_take, length_drop, Hl in E. done.
      * rewrite length_take, length_drop, Hl. unfold IPV4LEN, IPV6LEN. lia.
      * done.
      * by repeat constructor.
      * apply fmt_u_parts. by apply Forall_take, Forall_drop.
    + destruct (groups_of_ok 8 addr Hl Hb) as (E & L & F). destruct mem.
      * rewrite <- E. destruct (parse_ipv6_ok _ L F) as (zs & _ & _ & Hp). rewrite Hp. by eexists.
      * unfold parse_ipv6_to_string. rewrite decide_False by (intros H; by apply H). by eexists.
Qed.

(** A text is memory. *)
Lemma calloc_memory mem n : util_common_calloc_s mem n = true → mem = true.
Proof. unfold util_common_calloc_s. by destruct (_ || _). Qed.

Lemma ipnet_print_memory mem net t : util_ipnet_to_string mem (Some net) = Some (Some t) → mem = true.
Proof.
  unfold util_ipnet_to_string. destruct (parse_standard_ip_to_string mem (ip net)) as [[a|]|]; [|done..].
  destruct (parse_mask_to_string mem net); [|done]. destruct (util_common_calloc_s _ _) eqn:E; [|done]. intros _. by eapply calloc_memory.
Qed.

Lemma ipnet_print_defined mem net :
  bytes (ip net) → length (ip net) = IPV4LEN ∨ length (ip net) = IPV6LEN → ∃ r, util_ipnet_to_string mem (Some net) = Some r.
Proof.
  intros Hb Hl. unfold util_ipnet_to_string. destruct (print_defined mem (ip net) Hb Hl) as [r ->]. destruct r as [t|]; [|by eexists].
  destruct (parse_mask_to_string mem net); [|by eexists]. destruct (util_common_calloc_s _ _); cbn [negb]; [|by eexists]. case_decide; by eexists.
Qed.

Lemma ip_print_defined mem addr :
  bytes addr → length addr = IPV4LEN ∨ length addr = IPV6LEN → ∃ r, util_ip_to_string mem addr = Some r.
Proof.
  intros Hb Hl. unfold util_ip_to_string. rewrite decide_False by (intros ->; by destruct Hl). rewrite decide_False by naive_solver. by apply print_defined.
Qed.

(** C35: The text of every IPv6 address fits the buffer of forty bytes, with its
    terminating NUL. *)
Theorem ipv6_text_fits addr :
  bytes addr → length addr = IPV6LEN →
  ∃ s, parse_ipv6_to_string true addr = Some (Some s) ∧ (String.length s < IPV6_MAX_ADDR_LEN)%nat.
Proof.
  intros Hb Hl. destruct (groups_of_ok 8 addr Hl Hb) as (E & L & F). rewrite <- E. destruct (parse_ipv6_ok _ L F) as (zs & _ & Hr & Hp).
  eexists. split; [done|]. rewrite <- length_chars_of, chars_of_string.
  by destruct (ipv6_text_ok _ zs L F) as [? _]; [intros a b Ez; apply Hr|].
Qed.

(** A group of zeros that is not shortened is written as nothing: the text of an
    address with two of them is no address. *)
Theorem ipv6_text_unreadable :
  let addr := [253; 0; 0; 0; 0; 1; 0; 0; 0; 2; 0; 3; 0; 4; 0; 5] in
  util_ip_to_string true addr = Some (Some "fd00::1::2:3:4:5"%string) ∧
  util_parse_ip_from_str true (Some "fd00::1::2:3:4:5"%string) = None ∧
  util_parse_ip_from_str true (Some "fd00:0:1:0:2:3:4:5"%string) = Some addr.
Proof. by vm_compute. Qed.

Definition sample_net : ipnet := mk_ipnet [253; 0; 0; 0; 0; 0; 0; 0; 0; 0; 0; 0; 0; 0; 0; 1] (mask_loop 16 64).

Lemma network_text_roundtrip_witness :
  util_ipnet_to_string true (Some sample_net) = Some (Some "fd00::1/64"%string) ∧
  ∃ s, util_ipnet_to_string true (Some sample_net) = Some (Some s) ∧ util_parse_ipnet_from_str true (Some s) = Some sample_net.
Proof.
  split; [by vm_compute|]. apply (network_text_roundtrip sample_net 64); [split; [by repeat constructor|simpl; lia|done]|].
  right. split; [done|]. split; [done|]. intros i Hi. do 8 (destruct i as [|i]; [intros H1 H2; vm_compute in H1, H2; first [done|eexists _, _; split; [reflexivity|simpl; lia]]|]). lia.
Defined.

Lemma ipv6_text_fits_witness :
  ∃ s, parse_ipv6_to_string true (replicate 16 255) = Some (Some s) ∧ (String.length s < IPV6_MAX_ADDR_LEN)%nat ∧ String.length s = 39%nat.
Proof.
  destruct (ipv6_text_fits (replicate 16 255)) as (s & Hs & Hl); [by repeat constructor|done|].
  exists s. split; [done|]. split; [done|]. vm_compute in Hs. by injection Hs as <-.
Defined.
