(* ===== verification/Subnet.v ===== *)
(** * Subnets of networks

    The functions of [src/daemon/modules/network/native/adaptor_native.c] that
    choose and check the subnet and the gateway of a network, and the check of
    the parameters of a request in
    [src/daemon/executor/network_cb/network_cb.c].  They read and print subnets
    as text, with the functions of [IpNet].

    The theorems: two subnets conflict when they have a common address; the
    subnet chosen by default is the first private one that is free; the gateway
    chosen by default is an address of the subnet. *)
From stdpp Require Import base list strings numbers.
From Stdlib Require Import ZArith Lia Ascii.
From S2P Require Import Prelude CString Regex Array Convert StringUtil Verify Path IpNet Ipv6.

Local Open Scope Z_scope.

(** [struct subnet_scope] *)
Record subnet_scope := mk_scope { scope_begin : string; scope_end : string }.

Definition g_private_networks : list subnet_scope :=
  [mk_scope "192.168.0.0/24" "192.168.255.0/24"; mk_scope "172.16.0.0/24" "172.31.255.0/24"; mk_scope "10.0.0.0/24" "10.255.255.0/24"].

(** ** Conflicts *)

(** [mem i] is the outcome of the [i]-th allocation; a [NULL] network conflicts
    with none. *)
Definition net_conflict (mem : nat → bool) (net ipnet : option ipnet) : Z :=
  match net, ipnet with
  | Some net, Some ipnet =>
    if decide (length (ip net) ≠ length (ip ipnet) ∨ length (ip_mask net) ≠ length (ip_mask ipnet)) then 0 else
    if negb (util_smart_calloc_s (mem 0%nat) 1 (Z.of_nat (length (ip net)))) then -1 else
    if negb (util_smart_calloc_s (mem 1%nat) 1 (Z.of_nat (length (ip ipnet)))) then -1 else
    if util_net_contain_ip (mem 2%nat) net (first_ip ipnet) true || util_net_contain_ip (mem 3%nat) ipnet (first_ip net) true then 1 else 0
  | _, _ => 0
  end.

(** The loop over the subnets in use: 0 when none conflicts. *)
Fixpoint conflict_loop (mem : nat → nat → bool) (i : nat) (net : ipnet) (subnets : list string) : Z :=
  match subnets with
  | [] => 0
  | s :: subnets =>
    match util_parse_ipnet_from_str (mem i 4%nat) (Some s) with
    | None => conflict_loop mem (S i) net subnets
    | Some tmp => let ret := net_conflict (mem i) (Some tmp) (Some net) in if decide (ret ≠ 0) then ret else conflict_loop mem (S i) net subnets
    end
  end.

(** The loop over the addresses of the host. *)
Fixpoint host_loop (mem : nat → nat → bool) (i : nat) (net : ipnet) (host_ip : list string) : Z :=
  match host_ip with
  | [] => 0
  | s :: host_ip =>
    match util_parse_ip_from_str (mem i 0%nat) (Some s) with
    | None => host_loop mem (S i) net host_ip
    | Some a => if util_net_contain_ip (mem i 1%nat) net a true then 1 else host_loop mem (S i) net host_ip
    end
  end.

Definition check_subnet_available (mem : nat → nat → bool) (subnet : string) (subnets host_ip : list string) : Z :=
  match util_parse_ipnet_from_str (mem 0%nat 0%nat) (Some subnet) with
  | None => -1
  | Some net =>
    let ret := conflict_loop mem 1 net subnets in
    if decide (ret ≠ 0) then ret else host_loop mem (1 + length subnets) net host_ip
  end.

(** ** The default subnet *)

(** The [end] of a scope but the last, and the [begin] of the next one. *)
Fixpoint next_scope (subnet : string) (scopes : list subnet_scope) : option string :=
  match scopes with
  | s :: ((s' :: _) as scopes) => if decide (subnet = scope_end s) then Some (scope_begin s') else next_scope subnet scopes
  | _ => None
  end.

(** [ip <<= 8; ip += ...] over the bytes of an address, in 32 bits. *)
Definition word_of (l : list Z) : Z := foldl (λ acc b, u32 (u32 (Z.shiftl acc 8) + b)) 0 l.

(** The bytes of a word, the last one first, written from the end. *)
Fixpoint bytes_of (n : nat) (w : Z) (acc : list Z) : list Z :=
  match n with O => acc | S n => bytes_of n (Z.shiftr w 8) (Z.land w 255 :: acc) end.

(** The outer [None] is undefined behaviour, the inner one [NULL]. *)
Definition find_private_network (mem : nat → bool) (subnet : option string) : option (option string) :=
  match subnet with
  | None => Some (scope_begin <$> head g_private_networks)
  | Some subnet =>
    match next_scope subnet g_private_networks with
    | Some s => Some (Some s)
    | None =>
      match util_parse_ipnet_from_str (mem 0%nat) (Some subnet) with
      | None => Some None
      | Some net =>
        let mask := u32 (Z.lnot (word_of (ip_mask net)) + 1) in
        let w := u32 (word_of (ip net) + mask) in
        util_ipnet_to_string (mem 1%nat) (Some (mk_ipnet (bytes_of (length (ip net)) w []) (ip_mask net)))
      end
    end
  end.

Definition last_end : string := "10.255.255.0/24".

(** The loop of [find_subnet]; [mem i] are the allocations of a round. *)
Fixpoint find_subnet_loop (mem : nat → nat → nat → bool) (fuel i : nat) (subnet : option string) (config_subnet host_ip : list string) : option (option string) :=
  match fuel with
  | O => None
  | S fuel =>
    match find_private_network (mem i 0%nat) subnet with
    | None => None
    | Some None => Some None
    | Some (Some nx) =>
      let nret := check_subnet_available (λ j, mem i (S j)) nx config_subnet host_ip in
      if decide (nret = 0) then Some (Some nx)
      else if decide (nret = 1) then (if decide (nx = last_end) then Some None else find_subnet_loop mem fuel (S i) (Some nx) config_subnet host_ip)
      else Some None
    end
  end.

(** ** The gateway *)
Definition set_last_bit (l : list Z) : list Z :=
  match list.last l with Some b => <[(length l - 1)%nat := Z.lor b 1]> l | None => l end.

Definition find_gateway (mem : nat → bool) (subnet : string) : option (option string) :=
  match util_parse_ipnet_from_str (mem 0%nat) (Some subnet) with
  | None => Some None
  | Some net =>
    if negb (util_smart_calloc_s (mem 1%nat) 1 (Z.of_nat (length (ip net)))) then Some None else
    match list.last (ip_mask net) with
    | None => None
    | Some m => if decide (m = 255) then Some None else util_ip_to_string (mem 2%nat) (set_last_bit (first_ip net))
    end
  end.

(** ** The parameters of a request *)
Definition EINVALIDARGS : Z := 125.

(** [network_create_request] *)
Record network_create_request := mk_request {
  rq_name : option cstr; rq_driver : option cstr; rq_gateway : option string; rq_internal : bool; rq_subnet : option string
}.

Definition check_parameter (mem : nat → bool) (request : network_create_request) : Z :=
  if match rq_name request with Some name => negb (util_validate_network_name (Some (cstr_s name))) | None => false end then EINVALIDARGS else
  match rq_subnet request with
  | None => match rq_gateway request with Some _ => EINVALIDARGS | None => 0 end
  | Some subnet =>
    match util_parse_ipnet_from_str (mem 0%nat) (Some subnet) with
    | None => EINVALIDARGS
    | Some net =>
      match rq_gateway request with
      | None => 0
      | Some gateway =>
        match util_parse_ip_from_str (mem 1%nat) (Some gateway) with
        | None => EINVALIDARGS
        | Some a => if util_net_contain_ip (mem 2%nat) net a false then 0 else EINVALIDARGS
        end
      end
    end
  end.

(** ** Conflicts are common addresses *)

(** The addresses of a network, as numbers. *)
Definition meet (n1 n2 : ipnet) : Prop := ∃ a, bytes a ∧ in_net n1 true a ∧ in_net n2 true a.

Section conflict.
Context (n1 n2 : ipnet) (k1 k2 : Z) (H1 : cidr n1 k1) (H2 : cidr n2 k2).

Lemma in_first net k : cidr net k → in_net net true (first_ip net).
Proof.
  intros Hn. destruct (first_ip_ok _ _ Hn) as (Hb & Hl & Hv), (last_ip_ok _ _ Hn) as (_ & _ & Hv'). split; [done|]. rewrite Hv, Hv'.
  assert (0 < 2 ^ (8 * Z.of_nat (length (ip net)) - k)); [|lia]. destruct Hn as [_ Hk _]. apply Z.pow_pos_nonneg; lia.
Qed.

(** Intervals of numbers meet when one contains the first number of the other. *)
Lemma meet_first : meet n1 n2 ↔ in_net n1 true (first_ip n2) ∨ in_net n2 true (first_ip n1).
Proof.
  pose proof (in_first _ _ H1) as F1. pose proof (in_first _ _ H2) as F2.
  destruct (first_ip_ok _ _ H1) as (B1 & L1 & _), (first_ip_ok _ _ H2) as (B2 & L2 & _). split.
  - intros (a & Hb & [La Ha] & [La' Ha']). destruct F1 as [_ F1], F2 as [_ F2]. unfold in_net.
    destruct (Z.le_ge_cases (addr_val (first_ip n1)) (addr_val (first_ip n2))); [left|right]; (split; [congruence|lia]).
  - intros [H|H]; [by exists (first_ip n2)|by exists (first_ip n1)].
Qed.
End conflict.

Lemma parsed_calloc mem s net : util_parse_ipnet_from_str mem s = Some net → util_smart_calloc_s true 1 (Z.of_nat (length (ip net))) = true.
Proof.
  intros (_ & Hl & _)%parsed_net. unfold util_smart_calloc_s, MAX_MEMORY_SIZE.
  by destruct Hl as [->| ->].
Qed.

(** Two subnets conflict exactly when they have a common address. *)
Lemma net_conflict_ok mem s1 s2 n1 n2 :
  (∀ i, mem i = true) → util_parse_ipnet_from_str true s1 = Some n1 → util_parse_ipnet_from_str true s2 = Some n2 →
  net_conflict mem (Some n1) (Some n2) = 1 ∧ meet n1 n2 ∨ net_conflict mem (Some n1) (Some n2) = 0 ∧ ¬ meet n1 n2.
Proof.
  intros Hmem E1 E2. pose proof (parsed_calloc _ _ _ E1) as C1. pose proof (parsed_calloc _ _ _ E2) as C2.
  pose proof (parsed_nonempty _ _ _ E1) as N1. pose proof (parsed_nonempty _ _ _ E2) as N2.
  apply parsed_net in E1 as (_ & _ & k1 & K1), E2 as (_ & _ & k2 & K2).
  destruct (first_ip_ok _ _ K1) as (B1 & L1 & _), (first_ip_ok _ _ K2) as (B2 & L2 & _).
  pose proof (meet_first n1 n2 k1 k2 K1 K2) as Hm. unfold net_conflict. rewrite !Hmem, C1, C2. cbn [negb].
  assert (F1 : first_ip n1 ≠ []) by (intros E; rewrite E in L1; by destruct (ip n1)).
  assert (F2 : first_ip n2 ≠ []) by (intros E; rewrite E in L2; by destruct (ip n2)).
  rewrite (contain_ok n1 k1), (contain_ok n2 k2) by done.
  destruct (decide (length (ip n1) ≠ length (ip n2) ∨ _)) as [Hd|Hd].
  - right. split; [done|]. rewrite Hm. rewrite (mask_length_ok _ _ K1), (mask_length_ok _ _ K2) in Hd. unfold in_net. intros [[? _]|[? _]]; naive_solver congruence.
  - destruct (bool_decide (in_net n1 true _)) eqn:D1; [left; rewrite Hm; apply bool_decide_eq_true in D1; auto|].
    destruct (bool_decide (in_net n2 true _)) eqn:D2; [left; rewrite Hm; apply bool_decide_eq_true in D2; auto|].
    apply bool_decide_eq_false in D1, D2. right. split; [done|]. rewrite Hm. tauto.
Qed.

(** A subnet is free when it has no address in common with a subnet in use and no
    address of the host is in it. *)
Definition unused (subnets : list string) (net : ipnet) : Prop :=
  ∀ s n, s ∈ subnets → util_parse_ipnet_from_str true (Some s) = Some n → ¬ meet n net.
Definition off_host (host_ip : list string) (net : ipnet) : Prop :=
  ∀ h a, h ∈ host_ip → util_parse_ip_from_str true (Some h) = Some a → ¬ in_net net true a.

Lemma unused_cons s subnets net :
  unused (s :: subnets) net ↔ (∀ n, util_parse_ipnet_from_str true (Some s) = Some n → ¬ meet n net) ∧ unused subnets net.
Proof. unfold unused. setoid_rewrite elem_of_cons. naive_solver. Qed.

Lemma off_host_cons h host_ip net :
  off_host (h :: host_ip) net ↔ (∀ a, util_parse_ip_from_str true (Some h) = Some a → ¬ in_net net true a) ∧ off_host host_ip net.
Proof. unfold off_host. setoid_rewrite elem_of_cons. naive_solver. Qed.

Section check.
Context (mem : nat → nat → bool) (Hmem : ∀ i j, mem i j = true).
Context (text : option string) (net : ipnet) (Hnet : util_parse_ipnet_from_str true text = Some net).

Lemma conflict_loop_ok i subnets :
  conflict_loop mem i net subnets = 0 ∧ unused subnets net ∨ conflict_loop mem i net subnets = 1 ∧ ¬ unused subnets net.
Proof.
  revert i. induction subnets as [|s subnets IH]; intros i; cbn [conflict_loop].
  { left. split; [done|]. by intros s n ?%elem_of_nil. }
  rewrite unused_cons, Hmem. specialize (IH (S i)). destruct (util_parse_ipnet_from_str true (Some s)) as [n|] eqn:E; [|naive_solver].
  destruct (net_conflict_ok (mem i) (Some s) text n net (Hmem i) E Hnet) as [[-> Hm]|[-> Hm]]; [right; naive_solver|].
  rewrite decide_False by (by intros []). naive_solver.
Qed.

Lemma host_loop_ok i host_ip :
  host_loop mem i net host_ip = 0 ∧ off_host host_ip net ∨ host_loop mem i net host_ip = 1 ∧ ¬ off_host host_ip net.
Proof.
  pose proof Hnet as (_ & _ & k & Hk)%parsed_net.
  revert i. induction host_ip as [|h host_ip IH]; intros i; cbn [host_loop].
  { left. split; [done|]. by intros s n ?%elem_of_nil. }
  rewrite off_host_cons, !Hmem. specialize (IH (S i)). destruct (util_parse_ip_from_str true (Some h)) as [a|] eqn:E; [|naive_solver].
  pose proof E as (_ & Ha & Hl)%parsed_ip. rewrite (contain_ok net k) by (done || (intros ->; destruct Hl; done)).
  destruct (bool_decide (in_net net true a)) eqn:D; [apply bool_decide_eq_true in D|apply bool_decide_eq_false in D]; naive_solver.
Qed.
End check.

Definition free (subnets host_ip : list string) (net : ipnet) : Prop := unused subnets net ∧ off_host host_ip net.

Lemma check_ok mem subnet net subnets host_ip :
  (∀ i j, mem i j = true) → util_parse_ipnet_from_str true (Some subnet) = Some net →
  check_subnet_available mem subnet subnets host_ip = 0 ∧ free subnets host_ip net ∨
  check_subnet_available mem subnet subnets host_ip = 1 ∧ ¬ free subnets host_ip net.
Proof.
  intros Hmem Hnet. unfold check_subnet_available, free. rewrite Hmem, Hnet.
  destruct (conflict_loop_ok mem Hmem _ net Hnet 1 subnets) as [[-> Hu]|[-> Hu]]; [|right; split; [done|tauto]].
  destruct (host_loop_ok mem Hmem _ net Hnet (1 + length subnets) host_ip) as [[-> Hh]|[-> Hh]]; [left|right]; (split; [done|tauto]).
Qed.

(** ** The private subnets in order *)
Definition candidates : Z := 69888.

(** The first address of the [k]-th subnet: 256 of class C, 4096 of class B and
    65536 of class A. *)
Definition cand_word (k : Z) : Z :=
  if decide (k < 256) then 3232235520 + 256 * k
  else if decide (k < 4352) then 2886729728 + 256 * (k - 256) else 167772160 + 256 * (k - 4352).
Definition mask24 : list Z := [255; 255; 255; 0].
Definition cand (k : Z) : ipnet := mk_ipnet (bytes_of 4 (cand_word k) []) mask24.
Definition cand_text (k : Z) : string := match util_ipnet_to_string true (Some (cand k)) with Some (Some s) => s | _ => "" end.

Lemma word_range k : 0 <= k < candidates → 0 <= cand_word k < two32.
Proof. unfold cand_word, candidates, two32. intros Hk. repeat case_decide; lia. Qed.

Lemma word_inj j k : 0 <= j < candidates → 0 <= k < candidates → cand_word j = cand_word k → j = k.
Proof. unfold cand_word, candidates. intros Hj Hk. repeat case_decide; lia. Qed.

Lemma bytes_of_4 w : bytes_of 4 w [] = [(w / 2 ^ 24) mod 256; (w / 2 ^ 16) mod 256; (w / 2 ^ 8) mod 256; w mod 256].
Proof.
  cbn [bytes_of]. rewrite !Z.shiftr_shiftr, !Z.shiftr_div_pow2 by lia.
  by rewrite !(Z.land_ones _ 8) by lia.
Qed.

Lemma word_step acc b : 0 <= acc < 16777216 → 0 <= b < 256 → u32 (u32 (Z.shiftl acc 8) + b) = acc * 256 + b.
Proof.
  intros Ha Hb. unfold u32, two32. rewrite Z.shiftl_mul_pow2 by lia. change (2 ^ 8) with 256.
  rewrite (Z.mod_small (acc * 256)) by lia. by rewrite Z.mod_small by lia.
Qed.

Lemma word_of_4 a b c d : bytes [a; b; c; d] → word_of [a; b; c; d] = a * 2 ^ 24 + b * 2 ^ 16 + c * 2 ^ 8 + d.
Proof.
  unfold bytes. rewrite !list.Forall_cons. intros (Ha & Hb & Hc & Hd & _). unfold word_of. cbn [foldl].
  change (2 ^ 24) with 16777216. change (2 ^ 16) with 65536. change (2 ^ 8) with 256.
  rewrite (word_step 0 a) by lia. rewrite (word_step _ b) by lia. rewrite (word_step _ c) by lia. rewrite (word_step _ d) by lia. lia.
Qed.

Lemma word_of_bytes w : 0 <= w < two32 → bytes (bytes_of 4 w []) ∧ length (bytes_of 4 w []) = 4%nat ∧ word_of (bytes_of 4 w []) = w.
Proof.
  intros Hw. rewrite bytes_of_4. assert (Hb : bytes [(w / 2 ^ 24) mod 256; (w / 2 ^ 16) mod 256; (w / 2 ^ 8) mod 256; w mod 256]).
  { repeat constructor; apply Z.mod_pos_bound; lia. }
  split; [done|]. split; [done|]. rewrite word_of_4 by done. unfold two32 in Hw.
  change (2 ^ 24) with (256 * 256 * 256). change (2 ^ 16) with (256 * 256). change (2 ^ 8) with 256. rewrite <- !Z.div_div by lia.
  pose proof (Z.div_mod w 256 ltac:(lia)). pose proof (Z.div_mod (w / 256) 256 ltac:(lia)). pose proof (Z.div_mod (w / 256 / 256) 256 ltac:(lia)).
  assert (0 <= w / 256 / 256 / 256 < 256); [|rewrite (Z.mod_small (w / 256 / 256 / 256)) by lia; lia].
  split; [repeat apply Z.div_pos; lia|]. repeat apply Z.div_lt_upper_bound; lia.
Qed.

Section cand.
Context (k : Z) (Hk : 0 <= k < candidates).

Lemma cand_cidr : cidr (cand k) 24 ∧ length (ip (cand k)) = 4%nat ∧ word_of (ip (cand k)) = cand_word k.
Proof.
  destruct (word_of_bytes (cand_word k)) as (Hb & Hl & Hw); [by apply word_range|]. unfold cand. cbn [ip]. split; [|done].
  split; cbn [ip ip_mask]; [done|rewrite Hl; lia|by rewrite Hl].
Qed.

Lemma cand_text_ok :
  util_ipnet_to_string true (Some (cand k)) = Some (Some (cand_text k)) ∧ util_parse_ipnet_from_str true (Some (cand_text k)) = Some (cand k).
Proof.
  destruct cand_cidr as (Hc & Hl & _). destruct (ipv4_network_string _ _ Hc Hl) as (s & Hs & Hp). unfold cand_text. by rewrite Hs.
Qed.
End cand.

Lemma cand_text_inj j k : 0 <= j < candidates → 0 <= k < candidates → cand_text j = cand_text k → j = k.
Proof.
  intros Hj Hk E. destruct (cand_text_ok j Hj) as [_ Hpj], (cand_text_ok k Hk) as [_ Hpk]. rewrite E, Hpk in Hpj.
  apply word_inj; [done..|]. destruct (cand_cidr j Hj) as (_ & _ & <-), (cand_cidr k Hk) as (_ & _ & <-). congruence.
Qed.

(** What follows a subnet. *)
Definition next_cand (k : Z) : option string := if decide (k = 0) then None else Some (cand_text (k - 1)).

Lemma scope_texts :
  cand_text 0 = "192.168.0.0/24"%string ∧ cand_text 255 = "192.168.255.0/24"%string ∧ cand_text 256 = "172.16.0.0/24"%string ∧
  cand_text 4351 = "172.31.255.0/24"%string ∧ cand_text 4352 = "10.0.0.0/24"%string ∧ cand_text 69887 = last_end.
Proof. by vm_compute. Qed.

Lemma find_private_ok mem k :
  (∀ i, mem i = true) → 0 <= k < candidates → find_private_network mem (next_cand k) = Some (Some (cand_text k)).
Proof.
  intros Hmem Hk. pose proof scope_texts as (T0 & T1 & T2 & T3 & T4 & _). unfold next_cand. destruct (decide (k = 0)) as [->|Hk0]; [by rewrite T0|].
  unfold candidates in Hk. unfold find_private_network. cbn [next_scope g_private_networks scope_end scope_begin]. rewrite <- T1, <- T2, <- T3, <- T4.
  destruct (decide (k = 256)) as [->|H256]; [by rewrite decide_True|].
  rewrite decide_False; [|intros E; apply cand_text_inj in E; unfold candidates; lia].
  destruct (decide (k = 4352)) as [->|H4352]; [by rewrite decide_True|].
  rewrite decide_False; [|intros E; apply cand_text_inj in E; unfold candidates; lia].
  assert (Hk1 : 0 <= k - 1 < candidates) by (unfold candidates; lia).
  rewrite !Hmem. destruct (cand_text_ok _ Hk1) as [_ ->], (cand_cidr _ Hk1) as (_ & Hl & Hw), (cand_text_ok k Hk) as [<- _]. rewrite Hl, Hw.
  change (u32 (Z.lnot (word_of (ip_mask (cand (k - 1)))) + 1)) with 256. do 2 f_equal. unfold cand. cbn [ip_mask]. do 2 f_equal.
  pose proof (word_range (k - 1) Hk1). pose proof (word_range k Hk). unfold u32. rewrite Z.mod_small; unfold cand_word, two32 in *; repeat case_decide; lia.
Qed.

Section search.
Context (mem : nat → nat → nat → bool) (Hmem : ∀ i j l, mem i j l = true) (config_subnet host_ip : list string).

(** The first free subnet from the [k]-th on. *)
Definition first_free (k : Z) (r : option string) : Prop :=
  match r with
  | Some s => ∃ j, k <= j < candidates ∧ s = cand_text j ∧ free config_subnet host_ip (cand j) ∧ ∀ i, k <= i < j → ¬ free config_subnet host_ip (cand i)
  | None => ∀ i, k <= i < candidates → ¬ free config_subnet host_ip (cand i)
  end.

Lemma find_subnet_loop_ok fuel i k :
  0 <= k < candidates → candidates - k <= Z.of_nat fuel →
  ∃ r, find_subnet_loop mem fuel i (next_cand k) config_subnet host_ip = Some r ∧ first_free k r.
Proof.
  revert i k. induction fuel as [|fuel IH]; intros i k Hk Hf; [lia|]. cbn [find_subnet_loop].
  rewrite find_private_ok by done. destruct (cand_text_ok k Hk) as [_ Hp].
  destruct (check_ok (λ j, mem i (S j)) (cand_text k) (cand k) config_subnet host_ip) as [[-> Hc]|[-> Hc]]; [done|done| |]; cbn [decide Z.eq_dec].
  { eexists. split; [reflexivity|]. exists k. split_and!; [lia|lia|done|done|]. lia. }
  rewrite decide_False, decide_True by done. destruct scope_texts as (_ & _ & _ & _ & _ & <-). destruct (decide (k = 69887)) as [->|Hne].
  { rewrite decide_True by done. eexists. split; [reflexivity|]. intros j Hj. by assert (j = 69887) as -> by (unfold candidates in Hj; lia). }
  unfold candidates in *. rewrite decide_False by (intros E; apply cand_text_inj in E; unfold candidates; lia).
  destruct (IH (S i) (k + 1)) as (r & Hr & Hfree); [lia..|]. replace (next_cand (k + 1)) with (Some (cand_text k)) in Hr.
  2:{ unfold next_cand. rewrite decide_False by lia. do 2 f_equal. lia. }
  exists r. split; [done|]. unfold first_free in *. destruct r as [s|].
  - destruct Hfree as (j & Hj & -> & Hfj & Hlt). exists j. split_and!; [lia|lia|done|done|]. intros i' Hi'.
    destruct (decide (i' = k)) as [->|]; [done|]. apply Hlt. lia.
  - intros i' Hi'. destruct (decide (i' = k)) as [->|]; [done|]. apply Hfree. lia.
Qed.
End search.

(** C28: The subnet chosen by default is the first private one, in the order of the
    classes C, B and A, with no address in common with a subnet in use or with
    the host, and one is found if there is any. *)
Theorem find_subnet_first_free mem config_subnet host_ip fuel :
  (∀ i j l, mem i j l = true) → candidates <= Z.of_nat fuel →
  ∃ r, find_subnet_loop mem fuel 0 None config_subnet host_ip = Some r ∧ first_free config_subnet host_ip 0 r.
Proof. intros Hmem Hf. apply (find_subnet_loop_ok mem Hmem config_subnet host_ip fuel 0 0); [done|lia]. Qed.

(** ** The gateway is an address of the subnet *)
Lemma set_last_bit_snoc l b : set_last_bit (l ++ [b]) = l ++ [Z.lor b 1].
Proof.
  unfold set_last_bit. rewrite last_snoc, length_app. cbn [length]. replace (length l + 1 - 1)%nat with (length l + 0)%nat by lia.
  by rewrite insert_app_r.
Qed.

Lemma addr_val_snoc l b : addr_val (l ++ [b]) = addr_val l * 256 + b.
Proof.
  induction l as [|a l IH]; cbn [app addr_val length]; [lia|]. rewrite IH, length_app. cbn [length].
  replace (8 * Z.of_nat (length l + 1)) with (8 * Z.of_nat (length l) + 8) by lia. rewrite Z.pow_add_r by lia. lia.
Qed.

Lemma last_mask n k : 0 <= k <= 8 * Z.of_nat (S n) → ∃ m, list.last (mask_loop (S n) k) = Some m ∧ (m = 255 ↔ k = 8 * Z.of_nat (S n)).
Proof.
  revert k. induction n as [|n IH]; intros k Hk.
  - cbn [mask_loop]. destruct (decide (8 <= k)); eexists; (split; [reflexivity|]); [lia|].
    assert (Hk' : k ∈ [0; 1; 2; 3; 4; 5; 6; 7]) by (rewrite !elem_of_cons; lia). clear -Hk'.
    repeat (apply elem_of_cons in Hk' as [->|Hk']; [by vm_compute|]). by apply elem_of_nil in Hk'.
  - assert (∃ b k', mask_loop (S (S n)) k = b :: mask_loop (S n) k' ∧ 0 <= k' <= 8 * Z.of_nat (S n) ∧ (k' = 8 * Z.of_nat (S n) ↔ k = 8 * Z.of_nat (S (S n)))) as (b & k' & -> & Hk' & Hi).
    { change (mask_loop (S (S n)) k) with (if decide (8 <= k) then 255 :: mask_loop (S n) (k - 8) else u8 (Z.lnot (Z.shiftr 255 k)) :: mask_loop (S n) 0).
      destruct (decide (8 <= k)); eexists _, _; (split; [reflexivity|]); lia. }
    destruct (IH k' Hk') as (m & Hm & Hi'). exists m. rewrite last_cons, Hm. split; [done|]. by rewrite Hi', Hi.
Qed.

Section gateway.
Context (net : ipnet) (k : Z) (Hn : cidr net k) (Hlt : k < 8 * Z.of_nat (length (ip net))).

(** The address after the first one. *)
Lemma gateway_ok :
  let g := set_last_bit (first_ip net) in
  bytes g ∧ length g = length (ip net) ∧ addr_val g = addr_val (first_ip net) + 1 ∧ in_net net true g.
Proof.
  destruct (first_ip_ok _ _ Hn) as (Hb & Hl & Hv), (last_ip_ok _ _ Hn) as (_ & _ & Hv').
  pose proof Hn as [_ Hk _]. assert (Hd : ∃ e, 2 ^ (8 * Z.of_nat (length (ip net)) - k) = 2 * e ∧ 1 <= e).
  { exists (2 ^ (8 * Z.of_nat (length (ip net)) - k - 1)). rewrite <- Z.pow_succ_r by lia. split; [f_equal; lia|].
    assert (0 < 2 ^ (8 * Z.of_nat (length (ip net)) - k - 1)) by (apply Z.pow_pos_nonneg; lia). lia. }
  destruct Hd as (e & Ed & He). rewrite Ed in Hv, Hv'. unfold in_net. set (f := first_ip net) in *. clearbody f.
  destruct f as [|b f _] using rev_ind; [destruct (ip net); [simpl in *; lia|done]|].
  rewrite set_last_bit_snoc, !addr_val_snoc in *. rewrite length_app in *. cbn [length] in *.
  apply Forall_app in Hb as [Hb1 Hb2]. apply list.Forall_cons in Hb2 as [Hb2 _].
  assert (Hev : b mod 2 = 0).
  { replace b with ((prefix_val (ip net) k * e - addr_val f * 128) * 2) by lia. apply Z.mod_mul. lia. }
  assert (Hor : Z.lor b 1 = b + 1).
  { pose proof (Z.div_mod b 2 ltac:(lia)) as Hdm. rewrite Hev in Hdm. rewrite Hdm, Z.add_0_r.
    replace (2 * (b / 2)) with (Z.shiftl (b / 2) 1) by (rewrite Z.shiftl_mul_pow2; lia).
    rewrite <- (Z.lxor_lor _ 1), <- Z.add_nocarry_lxor; [done|..]; apply Z.bits_inj'; intros n Hp; rewrite Z.land_spec, Z.bits_0, Z.shiftl_spec by lia;
    (destruct (decide (n = 0)) as [->|]; [by rewrite (Z.testbit_neg_r (b / 2)) by lia|rewrite (Z.bits_above_log2 1 n) by (simpl; lia); by rewrite andb_false_r]). }
  rewrite Hor. assert (b + 1 < 256) by (pose proof (Z.div_mod b 2 ltac:(lia)); lia).
  split_and!; [|done|lia|done|lia|]. { apply Forall_app. split; [done|]. repeat constructor; lia. }
  rewrite Hv'. nia.
Qed.
End gateway.

(** The default gateway of a subnet is the address after its first one; there is
    none when the subnet is a single address. *)
Theorem find_gateway_second mem subnet net :
  (∀ i, mem i = true) → util_parse_ipnet_from_str true (Some subnet) = Some net → readable (set_last_bit (first_ip net)) →
  if decide (first_ip net = last_ip net) then find_gateway mem subnet = Some None
  else ∃ text g, find_gateway mem subnet = Some (Some text) ∧ util_parse_ip_from_str true (Some text) = Some g ∧
    in_net net true g ∧ addr_val g = addr_val (first_ip net) + 1.
Proof.
  intros Hmem Hp Hr. unfold find_gateway. rewrite !Hmem, Hp, (parsed_calloc _ _ _ Hp). cbn [negb].
  pose proof (parsed_nonempty _ _ _ Hp) as Hne. apply parsed_net in Hp as (_ & Hl & k & Hn). pose proof Hn as [Hb Hk Hm]. rewrite Hm.
  destruct (first_ip_ok _ _ Hn) as (_ & _ & Hv), (last_ip_ok _ _ Hn) as (Bl & Ll & Hv').
  assert (El : ∃ n, length (ip net) = S n) by (destruct (ip net); [done|by eexists]). destruct El as [n El].
  destruct (last_mask n k) as (m & Hlast & Hfull); [by rewrite <- El|]. rewrite <- El in Hlast, Hfull. rewrite Hlast.
  destruct (decide (k = 8 * Z.of_nat (length (ip net)))) as [->|Hlt].
  - rewrite (decide_True _ _ (proj2 Hfull eq_refl)), decide_True; [done|].
    destruct (first_ip_ok _ _ Hn) as (Bf & Lf & _). apply addr_val_inj; [done|done|congruence|]. rewrite Hv, Hv', Z.sub_diag. lia.
  - rewrite (decide_False _ _ (λ E, Hlt (proj1 Hfull E))). destruct (gateway_ok net k Hn) as (Hg & Lg & Hvg & Hin); [lia|].
    rewrite decide_False; [|intros E; destruct Hin as [_ Hin]; cbv iota in Hin; rewrite E in Hvg, Hin; lia].
    destruct (readable_text _ Hg Hr) as (t & Ht & _ & _ & Hpt). eexists _, _. split; [|by split_and!]. unfold util_ip_to_string.
    rewrite decide_False by (intros E; rewrite E, El in Lg; done). rewrite decide_False; [done|]. rewrite Lg. naive_solver.
Qed.

Lemma check_parameter_name mem request name :
  check_parameter mem request = 0 → rq_name request = Some name → util_validate_network_name (Some (cstr_s name)) = true.
Proof. unfold check_parameter. intros H E. rewrite E in H. by destruct (util_validate_network_name (Some (cstr_s name))). Qed.

(** An accepted request has a valid name, and its gateway lies inside its subnet:
    it is neither the first nor the last address. *)
Theorem check_parameter_accepts mem request :
  (∀ i, mem i = true) → check_parameter mem request = 0 →
  (∀ name, rq_name request = Some name → util_validate_network_name (Some (cstr_s name)) = true) ∧
  match rq_subnet request with
  | None => rq_gateway request = None
  | Some subnet => ∃ net, util_parse_ipnet_from_str true (Some subnet) = Some net ∧
      ∀ gateway, rq_gateway request = Some gateway →
        ∃ a, util_parse_ip_from_str true (Some gateway) = Some a ∧ addr_val (first_ip net) < addr_val a < addr_val (last_ip net)
  end.
Proof.
  intros Hmem Hz. split; [intros name; by apply (check_parameter_name mem)|]. revert Hz. unfold check_parameter. rewrite !Hmem.
  destruct (match rq_name request with Some _ => _ | None => _ end); [done|]. intros H.
  destruct (rq_subnet request) as [subnet|]; [|by destruct (rq_gateway request)].
  destruct (util_parse_ipnet_from_str true (Some subnet)) as [net|] eqn:En; [|done]. exists net. split; [done|]. intros gateway Eg. rewrite Eg in H.
  destruct (util_parse_ip_from_str true (Some gateway)) as [a|] eqn:Ea; [|done]. exists a. split; [done|].
  apply parsed_ip in Ea as (_ & Ha & Hl). apply parsed_net in En as (_ & _ & k & Hn).
  rewrite (contain_ok net k) in H by (done || (intros ->; by destruct Hl)).
  destruct (bool_decide (in_net net false a)) eqn:Ed; [|done]. by apply bool_decide_eq_true in Ed as [_ ?].
Qed.

Lemma find_gateway_defined mem subnet : ∃ r, find_gateway mem subnet = Some r.
Proof.
  unfold find_gateway. destruct (util_parse_ipnet_from_str (mem 0%nat) (Some subnet)) as [net|] eqn:Hp; [|by eexists].
  pose proof (parsed_nonempty _ _ _ Hp) as Hne. apply parsed_net in Hp as (_ & Hl & k & Hn). pose proof Hn as [Hb Hk Hm]. rewrite Hm.
  destruct (util_smart_calloc_s _ _ _); cbn [negb]; [|by eexists].
  assert (El : ∃ n, length (ip net) = S n) by (destruct (ip net); [done|by eexists]). destruct El as [n El].
  destruct (last_mask n k) as (m & Hlast & Hfull); [by rewrite <- El|]. rewrite <- El in Hlast, Hfull. rewrite Hlast.
  destruct (decide (m = 255)) as [|Hm255]; [by eexists|]. destruct (gateway_ok net k Hn) as (Hg & Lg & _); [destruct (decide (k = 8 * Z.of_nat (length (ip net)))); [tauto|lia]|].
  apply ip_print_defined; [done|]. by rewrite Lg.
Qed.

(** ** Reducing a network by its mask keeps its addresses *)
Lemma reduce_ok net k r :
  cidr net k → util_reduce_ip_by_mask net = Some r →
  cidr r k ∧ length (ip r) = length (ip net) ∧ ip r = first_ip net ∧ ∀ closed a, in_net r closed a ↔ in_net net closed a.
Proof.
  intros Hn. unfold util_reduce_ip_by_mask. case_decide; [done|]. intros [= <-].
  destruct (first_ip_ok _ _ Hn) as (Fb & Fl & Fv), (last_ip_ok _ _ Hn) as (_ & _ & Lv). pose proof Hn as [Hb Hk Hm].
  assert (Hr : cidr (mk_ipnet (first_ip net) (ip_mask net)) k) by (split; cbn [ip ip_mask]; [done|by rewrite Fl|by rewrite Fl]).
  split; [done|]. split; [done|]. split; [done|]. intros closed a. unfold in_net. cbn [ip]. rewrite Fl.
  destruct (first_ip_ok _ _ Hr) as (_ & _ & Fv'), (last_ip_ok _ _ Hr) as (_ & _ & Lv'). cbn [ip] in Fv', Lv'. rewrite Fl in Fv', Lv'.
  assert (Ep : prefix_val (first_ip net) k = prefix_val (ip net) k).
  { unfold prefix_val at 1. rewrite Fl, Fv. apply Z.div_mul. assert (0 < 2 ^ (8 * Z.of_nat (length (ip net)) - k)) by (apply Z.pow_pos_nonneg; lia). lia. }
  by rewrite Fv', Lv', Ep, Fv, Lv.
Qed.

(** C36: Addresses and networks that are read are well formed: four or sixteen bytes,
    and a mask of the same length that is a prefix of ones; masking the address
    keeps the form and gives the first address of the network. *)
Theorem read_addresses_typed mem s :
  (∀ a, util_parse_ip_from_str mem s = Some a → bytes a ∧ (length a = IPV4LEN ∨ length a = IPV6LEN)) ∧
  (∀ net, util_parse_ipnet_from_str mem s = Some net →
    (length (ip net) = IPV4LEN ∨ length (ip net) = IPV6LEN) ∧ ∃ k, cidr net k ∧
      ∀ r, util_reduce_ip_by_mask net = Some r → cidr r k ∧ length (ip r) = length (ip net) ∧ ip r = first_ip net).
Proof.
  split; [intros a Ha; by apply parsed_ip in Ha as (_ & ? & ?)|]. intros net (_ & Hl & k & Hc)%parsed_net. split; [done|]. exists k. split; [done|].
  intros r (H1 & H2 & H3 & _)%(reduce_ok net k r Hc). done.
Qed.

Lemma meet_ext n r r' : (∀ a, in_net r true a ↔ in_net r' true a) → meet n r ↔ meet n r'.
Proof. intros H. unfold meet. by setoid_rewrite H. Qed.

Lemma meet_sym n1 n2 : meet n1 n2 → meet n2 n1.
Proof. intros (a & ? & ? & ?). by exists a. Qed.

(** ** Instances *)
Definition sample_hosts : list string := ["127.0.0.1"; "192.168.0.7"; "fe80::1"].
Definition sample_config : list string := ["192.168.1.0/24"; "fd00::/64"].

Lemma find_subnet_first_free_witness :
  ∃ r, find_subnet_loop (λ _ _ _, true) (Z.to_nat 69888) 0 None sample_config sample_hosts = Some r ∧ first_free sample_config sample_hosts 0 r ∧
    r = Some "192.168.2.0/24"%string.
Proof.
  destruct (find_subnet_first_free (λ _ _ _, true) sample_config sample_hosts (Z.to_nat 69888)) as (r & Hr & Hf); [done|by rewrite Z2Nat.id|].
  exists r. split; [exact Hr|]. split; [exact Hf|]. vm_compute in Hr. congruence.
Defined.

Lemma find_gateway_second_witness :
  ∃ net, util_parse_ipnet_from_str true (Some "192.168.2.0/24"%string) = Some net ∧
    (if decide (first_ip net = last_ip net) then find_gateway (λ _, true) "192.168.2.0/24" = Some None
     else ∃ text g, find_gateway (λ _, true) "192.168.2.0/24" = Some (Some text) ∧ util_parse_ip_from_str true (Some text) = Some g ∧
       in_net net true g ∧ addr_val g = addr_val (first_ip net) + 1) ∧
    find_gateway (λ _, true) "192.168.2.0/24" = Some (Some "192.168.2.1"%string).
Proof.
  eexists. split; [reflexivity|]. split; [|by vm_compute]. apply find_gateway_second; [done|reflexivity|by left].
Defined.

Definition sample_request : network_create_request := mk_request (Some (cstr_of "net1")) None (Some "10.1.0.1"%string) false (Some "10.1.0.0/16"%string).

Lemma check_parameter_accepts_witness :
  util_validate_network_name (Some "net1"%string) = true ∧
  ∃ net, util_parse_ipnet_from_str true (Some "10.1.0.0/16"%string) = Some net.
Proof.
  destruct (check_parameter_accepts (λ _, true) sample_request) as [Hn (net & Hs & _)]; [done|by vm_compute|].
  split; [exact (Hn _ eq_refl)|by exists net].
Defined.
