(* ===== verification/Filters.v ===== *)
(** * Filters

    [src/utils/cutils/filters.c]: the arguments of the filters of a listing, a map
    from the name of a field to the set of values wanted for it, and the
    functions that match an object against them.  Both levels are string maps
    with the interface [StrMap]; the inner map is reached through a pointer.  The
    values of a user are regular expressions of any form, so [util_reg_match] is
    a parameter here.

    The functions are proved against a finite map of finite sets. *)
From stdpp Require Import base gmap list fin_maps numbers strings sets.
From Stdlib Require Import ZArith Lia Ascii.
From S2P Require Import Prelude CString Regex Array RbTree Map StrMap Convert StringUtil.

Local Open Scope Z_scope.

(** [struct filters_args]: [fields] and the inner maps. *)
Record filters_args (FT BT : Type) := mk_filters { fields : FT; f_heap : gmap nat BT; f_fresh : nat }.
Arguments mk_filters {FT BT} _ _ _.
Arguments fields {FT BT} _.
Arguments f_heap {FT BT} _.
Arguments f_fresh {FT BT} _.

(** The outcomes of the allocations of [map_new]. *)
Record new_env := mk_new_env { ne_map : bool; ne_tree : bool; ne_nil : bool }.

Section filters.
Context {FT BT ST : Type} {FM : StrMap nat FT} {BM : StrMap bool BT} {SM : StrMap cstr ST}.
Context (util_reg_match : option string → option string → Z).
Let FA := filters_args FT BT.
Let FIM := M FA.

Definition on_fields {A} (f : M FT A) : FIM A := λ s,
  match f (fields s) with Some (a, m) => Some (a, mk_filters m (f_heap s) (f_fresh s)) | None => None end.

(** A call on an inner map. *)
Definition on_values {A} (p : nat) (f : M BT A) : FIM A := λ s,
  match f_heap s !! p with
  | Some m => match f m with Some (a, m) => Some (a, mk_filters (fields s) (<[p := m]> (f_heap s)) (f_fresh s)) | None => None end
  | None => None
  end.

Definition new_values (e : new_env) : FIM (option nat) := λ s,
  match sm_new (ne_map e) (ne_tree e) (ne_nil e) with
  | None => Some (None, s)
  | Some m => Some (Some (f_fresh s), mk_filters (fields s) (<[f_fresh s := m]> (f_heap s)) (S (f_fresh s)))
  end.

Definition free_values (p : nat) : FIM unit :=
  on_values p sm_free;; modify (λ s, mk_filters (fields s) (delete p (f_heap s)) (f_fresh s)).

Definition filters_args_new (mem : bool) (e : new_env) : option FA :=
  if negb mem then None else
  match sm_new (ne_map e) (ne_tree e) (ne_nil e) with Some m => Some (mk_filters m ∅ 0) | None => None end.

(** The values of a field; [None] when there are none. *)
Definition field_values (field : cstr) : FIM (option nat) :=
  p ← on_fields (sm_search field);
  match p with
  | None => mret None
  | Some p => size ← on_values p sm_size; mret (if decide (size = 0) then None else Some p)
  end.

(** The loop that appends the keys to the array; [mem i] is the outcome of
    round [i]. *)
Fixpoint append_keys (mem : nat → bool) (i : nat) (l : list (cstr * bool)) (slice : option (list (option cstr))) : FIM (option (list (option cstr))) :=
  match l with
  | [] => mret slice
  | (k, _) :: l =>
    match util_array_append (mem i) slice (Some k) with
    | None => fail
    | Some (aret, slice) => if decide (aret ≠ 0) then mret None else append_keys mem (S i) l slice
    end
  end.

Definition filters_args_get (itor : bool) (mem : nat → bool) (field : option cstr) : FIM (option (list (option cstr))) :=
  match field with
  | None => mret None
  | Some field =>
    p ← field_values field;
    match p with
    | None => mret None
    | Some p =>
      l ← on_values p (sm_pairs itor);
      match l with None => mret None | Some l => append_keys mem 0 l None end
    end
  end.

Definition filters_args_add (e : new_env) (mem_field mem_value : map_mem) (name value : cstr) : FIM bool :=
  p ← on_fields (sm_search name);
  p ← (match p with
       | Some p => mret (Some p)
       | None =>
         p ← new_values e;
         match p with
         | None => mret None
         | Some p =>
           ok ← on_fields (sm_replace mem_field name p);
           if (ok : bool) then mret (Some p) else free_values p;; mret None
         end
       end);
  match p with None => mret false | Some p => on_values p (sm_replace mem_value value true) end.

Definition filters_args_del (name value : cstr) : FIM bool :=
  p ← on_fields (sm_search name);
  match p with None => mret true | Some p => on_values p (sm_remove value) end.

Definition filters_args_len : FIM Z := on_fields sm_size.

(** The key and, after the first [=], the value to match. *)
Definition test_kv (name2match : cstr) : cstr * option cstr :=
  match strchr "=" (chars_of (cstr_s name2match)) with
  | None => (name2match, None)
  | Some (k, v) => (cstr_of (to_str k), Some (cstr_of (to_str v)))
  end.

(** [mem i] is whether the array of round [i] can be made. *)
Fixpoint match_kv_loop (mem : nat → bool) (i : nat) (sources : ST) (l : list (cstr * bool)) : option bool :=
  match l with
  | [] => Some true
  | (name2match, _) :: l =>
    if negb (mem i) then Some false else
    let '(k, v) := test_kv name2match in
    match sm_search k sources with
    | None => None
    | Some (None, _) => Some false
    | Some (Some sources_value, _) =>
      match v with
      | Some v => if decide (v ≠ sources_value) then Some false else match_kv_loop mem (S i) sources l
      | None => match_kv_loop mem (S i) sources l
      end
    end
  end.

Definition do_filters_args_match_kv_list (itor : bool) (mem : nat → bool) (p : nat) (sources : ST) : FIM bool :=
  l ← on_values p (sm_pairs itor);
  match l with
  | None => mret false
  | Some l => match match_kv_loop mem 0 sources l with Some b => mret b | None => fail end
  end.

Definition filters_args_match_kv_list (itor : bool) (mem : nat → bool) (field : cstr) (sources : option ST) : FIM bool :=
  p ← field_values field;
  match p, sources with
  | None, _ => mret true
  | Some _, None => mret false
  | Some p, Some sources =>
    match sm_size sources with
    | None => fail
    | Some (size, _) => if decide (size = 0) then mret false else do_filters_args_match_kv_list itor mem p sources
    end
  end.

Definition search_value (p : nat) (source : option cstr) : FIM bool :=
  match source with
  | None => mret false
  | Some source => v ← on_values p (sm_search source); mret (bool_decide (is_Some v))
  end.

Definition filters_args_exact_match (field : cstr) (source : option cstr) : FIM bool :=
  p ← field_values field;
  match p with None => mret true | Some p => search_value p source end.

Definition filters_args_match (itor : bool) (field : cstr) (source : option cstr) : FIM bool :=
  b ← filters_args_exact_match field source;
  if (b : bool) then mret true else
  p ← on_fields (sm_search field);
  match p with
  | None => fail
  | Some p =>
    l ← on_values p (sm_pairs itor);
    mret (match l with
          | None => false
          | Some l => existsb (λ x, util_reg_match (Some (cstr_s x.1)) (cstr_s <$> source) =? 0) l
          end)
  end.

Definition filters_args_valid_key (accepted : list (option string)) (field : option string) : bool :=
  match field with None => false | Some field => bool_decide (Some field ∈ accepted) end.

(** [valid] and [pre] are the functions of a filter, [None] when they are [NULL]. *)
Fixpoint do_add_filters (e : nat → new_env) (mem_field mem_value : nat → map_mem) (i : nat) (filter_key : cstr)
    (keys : list cstr) (valid : option (cstr → bool)) (pre : option (cstr → option cstr)) : FIM Z :=
  match keys with
  | [] => mret 0
  | key :: keys =>
    if match valid with Some v => negb (v key) | None => false end then mret (-1) else
    match match pre with Some p => p key | None => Some key end with
    | None => do_add_filters e mem_field mem_value (S i) filter_key keys valid pre
    | Some value =>
      ok ← filters_args_add (e i) (mem_field i) (mem_value i) filter_key value;
      if negb ok then mret (-1) else do_add_filters e mem_field mem_value (S i) filter_key keys valid pre
    end
  end.
End filters.

(** ** Representation *)
Section proofs.
Context {FT BT ST : Type} {FM : StrMap nat FT} {BM : StrMap bool BT} {SM : StrMap cstr ST}.
Context (util_reg_match : option string → option string → Z).
Implicit Types (s : filters_args FT BT) (g : gmap cstr nat) (H : gmap nat (gmap cstr bool)) (A : cstr → gset cstr).

Record filters_ok s g H : Prop := {
  fo_fields : sm_models (fields s) g;
  fo_heap : ∀ p, match f_heap s !! p, H !! p with Some m, Some B => sm_models m B | None, None => True | _, _ => False end;
  fo_ptr : ∀ k p, g !! k = Some p → is_Some (H !! p);
  fo_inj : ∀ k k' p, g !! k = Some p → g !! k' = Some p → k = k';
  fo_fresh : ∀ p, is_Some (H !! p) → (p < f_fresh s)%nat
}.

Definition values g H (k : cstr) : gset cstr :=
  match g !! k with Some p => match H !! p with Some B => dom B | None => ∅ end | None => ∅ end.

(** The filters hold the values [A k] for the field [k]. *)
Definition represents s A : Prop := ∃ g H, filters_ok s g H ∧ ∀ k, values g H k = A k.

Lemma on_fields_read {X} s (f : M FT X) (Q : X → filters_args FT BT → Prop) :
  wp f (λ a m, m = fields s ∧ Q a s) (fields s) → wp (on_fields f) Q s.
Proof. unfold wp, on_fields. destruct (f (fields s)) as [[a m]|]; [|done]. intros [-> HQ]. by destruct s. Qed.

Lemma heap_at s g H p B : filters_ok s g H → H !! p = Some B → ∃ m, f_heap s !! p = Some m ∧ sm_models m B.
Proof. intros Hok HB. pose proof (fo_heap _ _ _ Hok p) as Hp. rewrite HB in Hp. destruct (f_heap s !! p) as [m|]; [by exists m|done]. Qed.

Lemma on_values_read {X} s g H p B (f : M BT X) (Q : X → filters_args FT BT → Prop) :
  filters_ok s g H → H !! p = Some B → (∀ m, sm_models m B → wp f (λ a m', m' = m ∧ Q a s) m) → wp (on_values p f) Q s.
Proof.
  intros Hok HB Hf. destruct (heap_at _ _ _ _ _ Hok HB) as (m & Hm & Hmod). specialize (Hf m Hmod). unfold wp, on_values in *.
  rewrite Hm. destruct (f m) as [[a m']|]; [|done]. destruct Hf as [-> HQ]. rewrite insert_id by done. by destruct s.
Qed.

Lemma on_values_write {X} s g H p B (f : M BT X) (Q : X → gmap cstr bool → Prop) :
  filters_ok s g H → H !! p = Some B → (∀ m, sm_models m B → wp f (λ a m', ∃ B', sm_models m' B' ∧ Q a B') m) →
  wp (on_values p f) (λ a s', ∃ B', filters_ok s' g (<[p := B']> H) ∧ Q a B') s.
Proof.
  intros Hok HB Hf. destruct (heap_at _ _ _ _ _ Hok HB) as (m & Hm & Hmod). specialize (Hf m Hmod). unfold wp, on_values in *.
  rewrite Hm. destruct (f m) as [[a m']|]; [|done]. destruct Hf as (B' & HB' & HQ). exists B'. split; [|done].
  destruct Hok as [H1 H2 H3 H4 H5]. split; cbn [fields f_heap f_fresh]; [done| | |done|].
  - intros q. destruct (decide (q = p)) as [->|Hne]; [by rewrite !lookup_insert_eq|]. rewrite !lookup_insert_ne by done. apply H2.
  - intros k q Hq. apply lookup_insert_is_Some'. right. by eapply H3.
  - intros q Hq. apply H5. apply lookup_insert_is_Some' in Hq as [<-|]; [by eexists|done].
Qed.

Lemma search_field s g H k : filters_ok s g H → wp (on_fields (sm_search k)) (λ p s', s' = s ∧ p = g !! k) s.
Proof. intros Hok. apply on_fields_read. eapply wp_mono; [by apply sm_search_ok, Hok|]. by intros p m [-> ->]. Qed.

Lemma field_values_ok s g H k :
  filters_ok s g H → Z.of_nat (size (values g H k)) < two64 →
  wp (field_values k) (λ r s', s' = s ∧
    match r with Some p => ∃ B, g !! k = Some p ∧ H !! p = Some B ∧ values g H k = dom B ∧ values g H k ≠ ∅ | None => values g H k = ∅ end) s.
Proof.
  intros Hok Hs. unfold field_values. apply wp_bind. eapply wp_mono; [by eapply search_field|]. cbn beta. intros r s' [-> ->].
  unfold values in *. destruct (g !! k) as [p|] eqn:E; [|by apply wp_ret].
  destruct (fo_ptr _ _ _ Hok k p E) as [B HB]. rewrite HB in *. apply wp_bind. eapply on_values_read; [done|done|]. intros m Hm.
  eapply wp_mono; [by apply sm_size_ok|]. cbn beta. intros n m' [-> ->]. split; [done|]. apply wp_ret. split; [done|].
  rewrite size_dom in Hs. rewrite u64_small by lia.
  destruct (decide (Z.of_nat (size B) = 0)) as [Hz|Hz].
  - assert (B = ∅) as -> by (apply map_size_empty_inv; lia). apply dom_empty_L.
  - exists B. split_and!; [done..|]. intros Hd. apply (f_equal size) in Hd. rewrite size_dom, size_empty in Hd. lia.
Qed.

Lemma pairs_values s g H p B (itor : bool) (Q : option (list (cstr * bool)) → filters_args FT BT → Prop) :
  filters_ok s g H → H !! p = Some B →
  (if itor then ∀ l : list (cstr * bool), (∀ v : cstr, v ∈ l.*1 ↔ v ∈ dom B) → Q (Some l) s else Q None s) → wp (on_values p (sm_pairs itor)) Q s.
Proof.
  intros Hok HB HQ. eapply on_values_read; [done|done|]. intros m Hm. eapply wp_mono; [by apply sm_pairs_ok|]. cbn beta.
  intros l m' [-> Hl]. split; [done|]. destruct itor; [|by subst]. destruct Hl as (e & -> & He). apply HQ. intros v.
  rewrite elem_of_dom, He, list_elem_of_fmap. split.
  - intros ([a b] & -> & Hin%elem_of_map_to_list). by eexists.
  - intros [b Hb]. exists (v, b). by rewrite elem_of_map_to_list.
Qed.

(** ** Matching *)
Definition wanted A (field : cstr) (source : option cstr) : Prop :=
  A field = ∅ ∨ (∃ x, source = Some x ∧ x ∈ A field) ∨
  ∃ v, v ∈ A field ∧ util_reg_match (Some (cstr_s v)) (cstr_s <$> source) = 0.

Lemma exact_match_ok s A field source :
  represents s A → Z.of_nat (size (A field)) < two64 →
  wp (filters_args_exact_match field source) (λ b s', s' = s ∧ (b = true ↔ A field = ∅ ∨ ∃ x, source = Some x ∧ x ∈ A field)) s.
Proof.
  intros (g & H & Hok & HA) Hs. rewrite <- HA in *. unfold filters_args_exact_match. apply wp_bind.
  eapply wp_mono; [by eapply field_values_ok|]. cbn beta. intros [p|] s' [-> Hp]; [|apply wp_ret; naive_solver].
  destruct Hp as (B & Hg & HB & E & Hne). rewrite E in *. unfold search_value. destruct source as [x|]; [|apply wp_ret; naive_solver].
  apply wp_bind. eapply on_values_read; [done|done|]. intros m Hm. eapply wp_mono; [by apply sm_search_ok|]. cbn beta.
  intros v m' [-> ->]. split; [done|]. apply wp_ret. split; [done|]. rewrite bool_decide_eq_true, <- elem_of_dom. naive_solver.
Qed.

Lemma match_ok s A field source :
  represents s A → Z.of_nat (size (A field)) < two64 →
  wp (filters_args_match util_reg_match true field source) (λ b s', s' = s ∧ (b = true ↔ wanted A field source)) s.
Proof.
  intros HA Hs. unfold filters_args_match. apply wp_bind. eapply wp_mono; [by apply exact_match_ok|]. cbn beta. intros b s' [-> Hb].
  destruct b; [apply wp_ret; split; [done|]; unfold wanted; naive_solver|].
  destruct HA as (g & H & Hok & HA). apply wp_bind. eapply wp_mono; [by eapply search_field|]. cbn beta. intros r s' [-> ->].
  assert (Hnb : ¬ (A field = ∅ ∨ ∃ x, source = Some x ∧ x ∈ A field)) by (intros Hc; by apply Hb in Hc).
  assert (EA : ∃ p B, g !! field = Some p ∧ H !! p = Some B ∧ A field = dom B).
  { rewrite <- HA in Hnb |- *. unfold values in *. destruct (g !! field) as [p|]; [|exfalso; apply Hnb; by left].
    destruct (H !! p) as [B|] eqn:HB; [by exists p, B|exfalso; apply Hnb; by left]. }
  destruct EA as (p & B & -> & HB & EA). apply wp_bind. eapply pairs_values; [done|done|]. intros l Hl. apply wp_ret. split; [done|].
  rewrite existsb_exists. unfold wanted. split.
  - intros ([v b] & Hin%list_elem_of_In & Hr%Z.eqb_eq). right. right. exists v. split; [|done]. rewrite EA.
    apply Hl, list_elem_of_fmap. by exists (v, b).
  - intros [Hz|[Hx|(v & Hv & Hr)]]; [exfalso; apply Hnb; by left|exfalso; apply Hnb; by right|].
    rewrite EA in Hv. apply Hl, list_elem_of_fmap in Hv as ([v' b] & -> & Hin). exists (v', b).
    split; [by apply list_elem_of_In|]. by apply Z.eqb_eq.
Qed.

(** What a filter of labels wants of the labels of an object. *)
Definition label_wanted (L : gmap cstr cstr) (v : cstr) : Prop :=
  ∃ x, L !! (test_kv v).1 = Some x ∧ ∀ y, (test_kv v).2 = Some y → y = x.

Lemma match_kv_loop_ok sources L l i :
  sm_models sources L →
  ∃ b, match_kv_loop (λ _, true) i sources l = Some b ∧ (b = true ↔ ∀ v, v ∈ l.*1 → label_wanted L v).
Proof.
  intros HL. revert i. induction l as [|[v b] l IH]; intros i; cbn [match_kv_loop fmap list_fmap fst].
  { exists true. split; [done|]. split; [|done]. intros _ v Hv. by apply elem_of_nil in Hv. }
  cbn [negb]. destruct (test_kv v) as [k y] eqn:Ek. pose proof (sm_search_ok _ _ k HL) as Hs. unfold wp in Hs.
  destruct (sm_search k sources) as [[x m]|]; [|done]. destruct Hs as [-> ->]. destruct (IH (S i)) as (b' & Hb' & Hiff).
  assert (Hall : (∀ w, w ∈ v :: l.*1 → label_wanted L w) ↔ label_wanted L v ∧ ∀ w, w ∈ l.*1 → label_wanted L w).
  { setoid_rewrite elem_of_cons. naive_solver. }
  unfold label_wanted at 2 in Hall. rewrite Ek in Hall. cbn [fst snd] in Hall.
  destruct (L !! k) as [x|]; [|exists false; split; [done|]; rewrite Hall; naive_solver].
  destruct y as [y|]; [destruct (decide (y ≠ x)) as [Hne|Heq]|].
  - exists false. split; [done|]. rewrite Hall. naive_solver.
  - exists b'. split; [done|]. rewrite Hiff, Hall. assert (y = x) by (by destruct (decide (y = x))). naive_solver.
  - exists b'. split; [done|]. rewrite Hiff, Hall. naive_solver.
Qed.

Lemma match_kv_list_ok s A field sources L :
  represents s A → Z.of_nat (size (A field)) < two64 → sm_models sources L → Z.of_nat (size L) < two64 →
  wp (filters_args_match_kv_list true (λ _, true) field (Some sources)) (λ b s', s' = s ∧
    (b = true ↔ ∀ v, v ∈ A field → label_wanted L v)) s.
Proof.
  intros (g & H & Hok & HA) Hs HL HsL. rewrite <- HA in *. unfold filters_args_match_kv_list. apply wp_bind.
  eapply wp_mono; [by eapply field_values_ok|]. cbn beta. intros [p|] s' [-> Hp]; [|apply wp_ret; rewrite Hp; set_solver].
  destruct Hp as (B & Hg & HB & E & Hne). pose proof (sm_size_ok _ _ HL) as Hsz. unfold wp in Hsz.
  destruct (sm_size sources) as [[n m]|]; [|done]. destruct Hsz as [-> ->]. rewrite u64_small by lia.
  destruct (decide (Z.of_nat (size L) = 0)) as [Hz|Hz].
  - apply wp_ret. split; [done|]. assert (L = ∅) as -> by (apply map_size_empty_inv; lia).
    apply set_choose_L in Hne as [v Hv]. split; [done|]. intros Hall. destruct (Hall v Hv) as (x & Hx & _). by rewrite lookup_empty in Hx.
  - unfold do_filters_args_match_kv_list. apply wp_bind. eapply pairs_values; [done|done|]. intros l Hl.
    destruct (match_kv_loop_ok sources L l 0 HL) as (b & -> & Hb). apply wp_ret. split; [done|]. rewrite Hb, E.
    by setoid_rewrite Hl.
Qed.

(** ** Changing *)
Definition added A (name value : cstr) : cstr → gset cstr := λ k, if decide (k = name) then {[value]} ∪ A k else A k.

Lemma values_insert s g H p name B :
  filters_ok s g H → g !! name = Some p →
  ∀ k, values g (<[p := B]> H) k = if decide (k = name) then dom B else values g H k.
Proof.
  intros Hok Hg k. unfold values. destruct (decide (k = name)) as [->|Hne]; [by rewrite Hg, lookup_insert_eq|].
  destruct (g !! k) as [q|] eqn:Eq; [|done]. rewrite lookup_insert_ne; [done|]. intros <-. by apply Hne, (fo_inj _ _ _ Hok _ _ p).
Qed.

Lemma new_values_ok s g H e :
  filters_ok s g H →
  wp (new_values e) (λ r s', match r with
    | Some p => H !! p = None ∧ (∀ k, g !! k ≠ Some p) ∧ filters_ok s' g (<[p := ∅]> H)
    | None => s' = s ∧ ne_map e && ne_tree e && ne_nil e = false end) s.
Proof.
  intros Hok. unfold wp, new_values. pose proof (@sm_new_ok bool BT BM (ne_map e) (ne_tree e) (ne_nil e)) as Hn.
  destruct (@sm_new bool BT BM (ne_map e) (ne_tree e) (ne_nil e)) as [m|]; [|done]. destruct Hn as [Hm _].
  assert (HN : H !! f_fresh s = None).
  { destruct (H !! f_fresh s) eqn:E; [|done]. assert (f_fresh s < f_fresh s)%nat; [|lia]. apply (fo_fresh _ _ _ Hok). by eexists. }
  destruct Hok as [H1 H2 H3 H4 H5]. split; [done|]. split.
  { intros k Hk. apply H3 in Hk. rewrite HN in Hk. by destruct Hk. }
  split; cbn [fields f_heap f_fresh]; [done| | |done|].
  - intros q. destruct (decide (q = f_fresh s)) as [->|Hne]; [by rewrite !lookup_insert_eq|]. rewrite !lookup_insert_ne by done. apply H2.
  - intros k q Hq. apply lookup_insert_is_Some'. right. by eapply H3.
  - intros q Hq. apply lookup_insert_is_Some' in Hq as [<-|Hq]; [lia|]. apply H5 in Hq. lia.
Qed.

Lemma free_values_ok s g H p B :
  filters_ok s g (<[p := B]> H) → H !! p = None → (∀ k, g !! k ≠ Some p) → wp (free_values p) (λ _ s', filters_ok s' g H) s.
Proof.
  intros Hok HN Hp. unfold free_values. apply wp_bind. assert (HB : <[p := B]> H !! p = Some B) by apply lookup_insert_eq.
  destruct (heap_at _ _ _ _ _ Hok HB) as (m & Hm & Hmod). pose proof (sm_free_ok _ _ Hmod) as Hf. unfold wp in *. unfold on_values. rewrite Hm.
  destruct (sm_free m) as [[u m']|]; [|done]. cbn. destruct Hok as [H1 H2 H3 H4 H5]. split; cbn [fields f_heap f_fresh]; [done| | |done|].
  - intros q. destruct (decide (q = p)) as [->|Hne]; [by rewrite lookup_delete_eq, HN|].
    rewrite lookup_delete_ne, lookup_insert_ne by done. specialize (H2 q). by rewrite lookup_insert_ne in H2 by done.
  - intros k q Hq. destruct (H3 k q Hq) as [B' HB']. rewrite lookup_insert_ne in HB'; [by eexists|]. intros <-. by eapply Hp.
  - intros q Hq. apply H5. destruct (decide (q = p)) as [->|]; [destruct Hq; congruence|by rewrite lookup_insert_ne].
Qed.

(** A field is entered, without values. *)
Lemma replace_field_ok s g H mem name p :
  filters_ok s g (<[p := ∅]> H) → (∀ k, g !! k ≠ Some p) → g !! name = None →
  wp (on_fields (sm_replace mem name p)) (λ b s', b = @sm_room nat FT FM mem ∧
    filters_ok s' (if b then <[name := p]> g else g) (<[p := ∅]> H)) s.
Proof.
  intros Hok Hp Hg. unfold wp, on_fields. pose proof (sm_replace_ok mem _ _ name p (fo_fields _ _ _ Hok)) as Hr. unfold wp in Hr.
  destruct (sm_replace mem name p (fields s)) as [[b m]|]; [|done]. destruct Hr as (_ & Hb & Hm & _). specialize (Hb Hg). split; [done|].
  destruct Hok as [H1 H2 H3 H4 H5]. destruct b; split; cbn [fields f_heap f_fresh]; try done.
  - intros k q Hq. apply lookup_insert_Some in Hq as [[<- <-]|[_ Hq]]; [rewrite lookup_insert_eq; by eexists|by eapply H3].
  - intros k k' q Hk Hk'. apply lookup_insert_Some in Hk as [[<- Ep]|[_ Hk]]; apply lookup_insert_Some in Hk' as [[<- Ep']|[_ Hk']].
    + done.
    + rewrite <- Ep in Hk'. by apply Hp in Hk'.
    + rewrite <- Ep' in Hk. by apply Hp in Hk.
    + by eapply H4.
Qed.

Lemma replace_value_ok s g H p B mem name value :
  filters_ok s g H → g !! name = Some p → H !! p = Some B →
  wp (on_values p (sm_replace mem value true)) (λ b s', (@sm_room bool BT BM mem = true → b = true) ∧
    ∃ H', filters_ok s' g H' ∧ ∀ k, values g H' k = if b then added (values g H) name value k else values g H k) s.
Proof.
  intros Hok Hg HB. eapply wp_mono; [eapply (on_values_write _ _ _ _ _ _ (λ b B', (@sm_room bool BT BM mem = true → b = true) ∧
    dom B' = if (b : bool) then {[value]} ∪ dom B else dom B)); [done|done|]|].
  - intros m Hm. eapply wp_mono; [by apply sm_replace_ok|]. cbn beta. intros b m' (Hr & _ & Hm' & _). eexists. split; [done|]. split; [done|].
    destruct b; [apply dom_insert_L|done].
  - cbn beta. intros b s' (B' & Hok' & Hr & Hd). split; [done|]. eexists. split; [done|]. intros k.
    rewrite (values_insert s g H p name B') by done. unfold added. destruct (decide (k = name)) as [->|]; [|by destruct b].
    assert (E : values g H name = dom B) by (unfold values; by rewrite Hg, HB). rewrite E. by destruct b.
Qed.

Definition add_room (e : new_env) (mem_field mem_value : map_mem) : bool :=
  ne_map e && ne_tree e && ne_nil e && @sm_room nat FT FM mem_field && @sm_room bool BT BM mem_value.

Lemma add_ok s A e mem_field mem_value name value :
  represents s A →
  wp (filters_args_add e mem_field mem_value name value) (λ b s', (add_room e mem_field mem_value = true → b = true) ∧
    ∃ A', represents s' A' ∧ ∀ k, A' k = if b then added A name value k else A k) s.
Proof.
  intros (g & H & Hok & HA). unfold filters_args_add. apply wp_bind. eapply wp_mono; [by eapply search_field|]. cbn beta. intros r s' [-> ->].
  assert (Hadd : ∀ b k, (if b : bool then added (values g H) name value k else values g H k) = if b then added A name value k else A k).
  { intros b k. unfold added. by rewrite HA. }
  destruct (g !! name) as [p|] eqn:Eg.
  { destruct (fo_ptr _ _ _ Hok name p Eg) as [B HB]. eapply wp_mono; [by eapply replace_value_ok|]. cbn beta.
    intros b s' (Hr & H' & Hok' & Hv). split; [intros Hroom; apply Hr; unfold add_room in Hroom; by repeat (apply andb_true_iff in Hroom as [Hroom ?])|].
    eexists. split; [by exists g, H'|]. intros k. by rewrite Hv, Hadd. }
  apply wp_bind, wp_bind. eapply wp_mono; [by eapply new_values_ok|]. cbn beta. intros [p|] s1 Hp.
  2:{ destruct Hp as [-> Hr]. apply wp_ret, wp_ret. unfold add_room. rewrite Hr. split; [done|]. exists A. split; [by exists g, H|done]. }
  destruct Hp as (HN & Hnp & Hok1). apply wp_bind. eapply wp_mono; [by eapply replace_field_ok|]. cbn beta. intros b s2 [-> Hok2].
  destruct (@sm_room nat FT FM mem_field) eqn:Ef.
  - apply wp_ret. assert (Hg2 : <[name := p]> g !! name = Some p) by apply lookup_insert_eq.
    eapply wp_mono; [eapply (replace_value_ok s2 _ _ p ∅); [done|done|apply lookup_insert_eq]|]. cbn beta.
    intros b s' (Hr & H' & Hok' & Hv). split; [intros Hroom; apply Hr; unfold add_room in Hroom; by repeat (apply andb_true_iff in Hroom as [Hroom ?])|].
    eexists. split; [by exists (<[name := p]> g), H'|]. intros k. rewrite Hv, <- Hadd.
    assert (E : values (<[name := p]> g) (<[p := ∅]> H) k = values g H k).
    { unfold values. destruct (decide (k = name)) as [->|Hne]; [by rewrite !lookup_insert_eq, Eg, dom_empty_L|].
      rewrite lookup_insert_ne by done. destruct (g !! k) as [q|] eqn:Eq; [|done]. rewrite lookup_insert_ne; [done|]. intros <-. by eapply Hnp. }
    unfold added. by rewrite E.
  - apply wp_bind. eapply wp_mono; [by eapply free_values_ok|]. cbn beta. intros u s' Hok'. apply wp_ret, wp_ret.
    split; [unfold add_room; rewrite Ef, andb_false_r; done|]. exists A. split; [by exists g, H|done].
Qed.

Definition removed A (name value : cstr) : cstr → gset cstr := λ k, if decide (k = name) then A k ∖ {[value]} else A k.

Lemma del_ok s A name value :
  represents s A →
  wp (filters_args_del name value) (λ b s', (value ∈ A name → b = true) ∧ represents s' (removed A name value)) s.
Proof.
  intros (g & H & Hok & HA). unfold filters_args_del. apply wp_bind. eapply wp_mono; [by eapply search_field|]. cbn beta. intros r s' [-> ->].
  destruct (g !! name) as [p|] eqn:Eg.
  2:{ apply wp_ret. split; [done|]. exists g, H. split; [done|]. intros k. unfold removed. rewrite <- HA.
      destruct (decide (k = name)) as [->|]; [|done]. unfold values. rewrite Eg. set_solver. }
  destruct (fo_ptr _ _ _ Hok name p Eg) as [B HB].
  assert (EB : A name = dom B) by (rewrite <- HA; unfold values; by rewrite Eg, HB).
  eapply wp_mono; [eapply (on_values_write _ _ _ _ _ _ (λ b B', b = bool_decide (value ∈ dom B) ∧ dom B' = dom B ∖ {[value]})); [done|done|]|].
  - intros m Hm. eapply wp_mono; [by apply sm_remove_ok|]. cbn beta. intros b m' (-> & Hm' & _). eexists. split; [done|].
    split; [apply bool_decide_ext; symmetry; apply elem_of_dom|apply dom_delete_L].
  - cbn beta. intros b s' (B' & Hok' & -> & Hd). rewrite EB. split; [intros; by apply bool_decide_true|].
    eexists g, _. split; [done|]. intros k. rewrite (values_insert s g H p name B') by done. unfold removed.
    destruct (decide (k = name)) as [->|]; [by rewrite EB, Hd|apply HA].
Qed.

Lemma new_ok mem e s :
  filters_args_new (BT := BT) mem e = Some s → represents s (λ _, ∅).
Proof.
  unfold filters_args_new. destruct mem; [|done]. cbn [negb]. pose proof (@sm_new_ok nat FT FM (ne_map e) (ne_tree e) (ne_nil e)) as Hn.
  destruct (@sm_new nat FT FM (ne_map e) (ne_tree e) (ne_nil e)) as [m|]; [|done]. intros [= <-]. destruct Hn as [Hm _].
  exists ∅, ∅. split; [|by intros k; unfold values; rewrite lookup_empty].
  split; cbn [fields f_heap f_fresh]; [done|intros p; by rewrite !lookup_empty|intros k p; by rewrite lookup_empty..|].
  intros p [x Hx]. by rewrite lookup_empty in Hx.
Qed.

Definition accepts (valid : option (cstr → bool)) (key : cstr) : bool := match valid with Some v => v key | None => true end.
Definition prepared (pre : option (cstr → option cstr)) (key : cstr) : option cstr := match pre with Some p => p key | None => Some key end.

Definition filled A (name : cstr) (vs : list cstr) : cstr → gset cstr := λ k, if decide (k = name) then list_to_set vs ∪ A k else A k.

Lemma add_filters_ok e mf mv i name keys valid pre s A :
  represents s A →
  wp (do_add_filters e mf mv i name keys valid pre) (λ r s', ∃ n A', represents s' A' ∧
    (r = 0 ∧ n = length keys ∧ Forall (λ key, accepts valid key = true) keys ∨
     r = -1 ∧ ((∀ i, add_room (e i) (mf i) (mv i) = true) → ∃ key, keys !! n = Some key ∧ accepts valid key = false)) ∧
    ∀ k, A' k = filled A name (omap (prepared pre) (take n keys)) k) s.
Proof.
  revert i s A. induction keys as [|key keys IH]; intros i s A HA; cbn [do_add_filters].
  { apply wp_ret. exists 0%nat, A. split_and!; [done|by left|]. intros k. unfold filled. case_decide; set_solver. }
  fold (accepts valid key) (prepared pre key). replace (match valid with Some v => negb (v key) | None => false end) with (negb (accepts valid key)) by by destruct valid.
  destruct (accepts valid key) eqn:Ev; cbn [negb].
  2:{ apply wp_ret. exists 0%nat, A. split_and!; [done| |intros k; unfold filled; case_decide; set_solver]. right. split; [done|]. intros _. by exists key. }
  destruct (prepared pre key) as [value|] eqn:Ep.
  - apply wp_bind. eapply wp_mono; [by apply add_ok|]. cbn beta. intros b s1 (Hr & A1 & HA1 & Hk). destruct b; cbn [negb].
    + eapply wp_mono; [by apply IH|]. cbn beta. intros r s2 (n & A2 & HA2 & Hc & Hk2). exists (S n), A2. split_and!; [done| |].
      * destruct Hc as [(-> & -> & Hf)|[-> Hf]]; [left; by auto|by right].
      * intros k. rewrite Hk2. unfold filled. cbn [take omap list_omap]. rewrite Ep. rewrite Hk. unfold added. case_decide; [|done]. cbn [list_to_set]. set_solver.
    + apply wp_ret. exists 0%nat, A1. split_and!; [done| |intros k; rewrite Hk; unfold filled; case_decide; set_solver].
      right. split; [done|]. intros Hroom. by specialize (Hr (Hroom i)).
  - eapply wp_mono; [by apply IH|]. cbn beta. intros r s2 (n & A2 & HA2 & Hc & Hk2). exists (S n), A2. split_and!; [done| |].
    + destruct Hc as [(-> & -> & Hf)|[-> Hf]]; [left; by auto|by right].
    + intros k. rewrite Hk2. unfold filled. cbn [take omap list_omap]. by rewrite Ep.
Qed.

(** ** Sequences of calls *)
Inductive fop :=
  | FRequest (e : nat → new_env) (mem_field mem_value : nat → map_mem) (name : cstr) (keys : list cstr)
      (valid : option (cstr → bool)) (pre : option (cstr → option cstr))
  | FAdd (e : new_env) (mem_field mem_value : map_mem) (name value : cstr)
  | FDel (name value : cstr)
  | FMatch (field : cstr) (source : option cstr)
  | FLabels (field : cstr) (sources : ST).

Definition fcall (op : fop) : M (filters_args FT BT) bool :=
  match op with
  | FRequest e mf mv name keys valid pre => r ← do_add_filters e mf mv 0 name keys valid pre; mret (r =? 0)
  | FAdd e mf mv name value => filters_args_add e mf mv name value
  | FDel name value => filters_args_del name value
  | FMatch field source => filters_args_match util_reg_match true field source
  | FLabels field sources => filters_args_match_kv_list true (λ _, true) field (Some sources)
  end.

Fixpoint fcalls (ops : list fop) : M (filters_args FT BT) (list bool) :=
  match ops with [] => mret [] | op :: ops => b ← fcall op; bs ← fcalls ops; mret (b :: bs) end.

(** What a call promises on a map of sets. *)
Definition fspec (op : fop) A (b : bool) A' : Prop :=
  match op with
  | FRequest e mf mv name keys valid pre => ∃ n,
      (if b then n = length keys ∧ Forall (λ key, accepts valid key = true) keys
       else (∀ i, add_room (e i) (mf i) (mv i) = true) → ∃ key, keys !! n = Some key ∧ accepts valid key = false) ∧
      ∀ k, A' k = filled A name (omap (prepared pre) (take n keys)) k
  | FAdd e mf mv name value => (add_room e mf mv = true → b = true) ∧ ∀ k, A' k = if b then added A name value k else A k
  | FDel name value => (value ∈ A name → b = true) ∧ ∀ k, A' k = removed A name value k
  | FMatch field source => (b = true ↔ wanted A field source) ∧ A' = A
  | FLabels field sources => (∃ L, sm_models sources L ∧ (b = true ↔ ∀ v, v ∈ A field → label_wanted L v)) ∧ A' = A
  end.

Inductive fspecs : list fop → (cstr → gset cstr) → list bool → (cstr → gset cstr) → Prop :=
  | fspecs_nil A : fspecs [] A [] A
  | fspecs_cons op ops A b A' bs A'' : fspec op A b A' → fspecs ops A' bs A'' → fspecs (op :: ops) A (b :: bs) A''.

Definition small (n : nat) A : Prop := ∀ k, (size (A k) ≤ n)%nat.
Definition sources_ok (op : fop) : Prop := match op with FLabels _ sources => ∃ L, sm_models sources L ∧ Z.of_nat (size L) < two64 | _ => True end.

(** How many values a call may add to a field. *)
Definition cost (op : fop) : nat := match op with FRequest _ _ _ _ keys _ _ => length keys | FAdd _ _ _ _ _ => 1 | _ => 0 end.

Lemma filled_small n A name vs : small n A → small (n + length vs) (filled A name vs).
Proof.
  intros Hs k. specialize (Hs k). unfold filled. destruct (decide (k = name)); [|lia].
  rewrite size_union_alt. assert (size (A k ∖ list_to_set vs) ≤ size (A k))%nat by (apply subseteq_size; set_solver).
  assert (size (list_to_set vs : gset cstr) ≤ length vs)%nat; [|lia]. clear. induction vs as [|v vs IH]; cbn [list_to_set length]; [by rewrite size_empty|].
  rewrite size_union_alt, size_singleton. assert (size ((list_to_set vs : gset cstr) ∖ {[v]}) ≤ size (list_to_set vs : gset cstr))%nat by (apply subseteq_size; set_solver). lia.
Qed.

Lemma added_small n A name value : small n A → small (S n) (added A name value).
Proof.
  intros Hs k. specialize (Hs k). unfold added. destruct (decide (k = name)); [|lia].
  rewrite size_union_alt, size_singleton. assert (size (A k ∖ {[value]}) ≤ size (A k))%nat; [|lia]. apply subseteq_size. set_solver.
Qed.

Lemma removed_small n A name value : small n A → small n (removed A name value).
Proof.
  intros Hs k. specialize (Hs k). unfold removed. destruct (decide (k = name)); [|lia].
  assert (size (A k ∖ {[value]}) ≤ size (A k))%nat; [|lia]. apply subseteq_size. set_solver.
Qed.

Lemma omap_length {X Y} (g : X → option Y) l : (length (omap g l) ≤ length l)%nat.
Proof. induction l as [|x l IH]; cbn [omap list_omap length]; [lia|]. destruct (g x); cbn [length]; lia. Qed.

Lemma fcall_ok n op s A :
  represents s A → small n A → Z.of_nat n < two64 → sources_ok op →
  wp (fcall op) (λ b s', ∃ A', represents s' A' ∧ fspec op A b A' ∧ small (n + cost op) A') s.
Proof.
  intros HA Hn Hb Hs. assert (Hn0 : small (n + 0) A) by (intros k; specialize (Hn k); lia).
  destruct op as [e mf mv name keys valid pre|e mf mv name value|name value|field source|field sources]; cbn [fcall fspec cost].
  - apply wp_bind. eapply wp_mono; [by apply add_filters_ok|]. cbn beta. intros r s' (m & A' & HA' & Hc & Hk). apply wp_ret. exists A'. split; [done|]. split.
    + exists m. split; [|done]. by destruct Hc as [(-> & ? & ?)|[-> ?]].
    + intros k. rewrite Hk. pose proof (filled_small n A name (omap (prepared pre) (take m keys)) Hn k).
      pose proof (omap_length (prepared pre) (take m keys)). rewrite length_take in *. lia.
  - eapply wp_mono; [by apply add_ok|]. cbn beta. intros b s' (Hr & A' & HA' & Hk). exists A'. split_and!; [done..|].
    intros k. rewrite Hk. destruct b; [pose proof (added_small n A name value Hn k)|specialize (Hn k)]; lia.
  - eapply wp_mono; [by apply del_ok|]. cbn beta. intros b s' (Hr & HA'). eexists. split_and!; [done..|].
    intros k. pose proof (removed_small n A name value Hn k). lia.
  - eapply wp_mono; [apply (match_ok s A); [done|]|]; [specialize (Hn field); lia|]. cbn beta. intros b s' [-> Hw]. by exists A.
  - destruct Hs as (L & HL & HsL). eapply wp_mono; [apply (match_kv_list_ok s A field sources L); [done| |done|done]|]; [specialize (Hn field); lia|].
    cbn beta. intros b s' [-> Hw]. exists A. split_and!; [done|by exists L|done..].
Qed.

Lemma fcalls_ok ops n s A :
  represents s A → small n A → Z.of_nat (n + sum_list_with cost ops) < two64 → Forall sources_ok ops →
  wp (fcalls ops) (λ bs s', ∃ A', represents s' A' ∧ fspecs ops A bs A') s.
Proof.
  revert n s A. induction ops as [|op ops IH]; intros n s A HA Hn Hb Hs; cbn [fcalls sum_list_with] in *.
  { apply wp_ret. exists A. split; [done|constructor]. }
  apply list.Forall_cons in Hs as [Hop Hs]. apply wp_bind. eapply wp_mono; [apply (fcall_ok n); [done|done|lia|done]|].
  cbn beta. intros b s1 (A1 & HA1 & Hf1 & Hn1). apply wp_bind. eapply wp_mono; [apply (IH _ _ _ HA1 Hn1); [lia|done]|].
  cbn beta. intros bs s2 (A2 & HA2 & Hf2). apply wp_ret. exists A2. split; [done|]. by econstructor.
Qed.

End proofs.

(** ** Filters of a listing *)
Section examples.
Let FM : StrMap nat (map_t nat MAP_STR_PTR) := str_ptr_map true.
Let BM : StrMap bool (map_t unit MAP_STR_BOOL) := str_bool_map true.
Let SM : StrMap cstr (map_t unit MAP_STR_STR) := str_str_map true.
#[local] Existing Instances FM BM SM.

Definition sample_env : new_env := mk_new_env true true true.
Definition sample_calls : list (fop (ST := map_t unit MAP_STR_STR)) :=
  [FRequest (λ _, sample_env) (λ _, mem_ok) (λ _, mem_ok) (cstr_of "name") [cstr_of "web"; cstr_of "db"] None None;
   FMatch (cstr_of "name") (Some (cstr_of "db")); FMatch (cstr_of "name") (Some (cstr_of "cache"));
   FDel (cstr_of "name") (cstr_of "db"); FMatch (cstr_of "name") (Some (cstr_of "db"))].

(** Equality of strings for the pattern matcher. *)
Definition plain_match (pattern subject : option string) : Z := if decide (pattern = subject) then 0 else 1.

End examples.
