(* ===== verification/CniConf.v ===== *)
(** * Configurations of CNI networks

    [src/daemon/modules/network/cni_operator/libcni/libcni_conf.c] and the part
    of [cni_operate.c] that loads the configuration files of a directory.  The
    structures and their JSON parser and printer are generated code of a
    library: the records below have the fields that the daemon uses, the
    functions are parameters.

    The directory is an environment: what [opendir] answers, the names of its
    entries in the order of [readdir], what [lstat] answers and the contents of
    files.  An outer [None] is undefined behaviour. *)
From stdpp Require Import base list strings numbers sorting.
From Stdlib Require Import ZArith Lia Ascii.
From S2P Require Import Prelude CString Regex Array Convert StringUtil Verify Path SymlinkScope IpNet.

Local Open Scope Z_scope.

(** ** Data *)
Record ipam_range := mk_range { r_subnet : option string; r_gateway : option string }.

(** [cni_net_conf_ipam]: [NULL] arrays are empty. *)
Record cni_net_conf_ipam := mk_ipam {
  ipam_type : option string; ipam_routes : list string; ipam_ranges : list (option (list (option ipam_range)))
}.

Record cni_net_conf := mk_plugin {
  p_name : option cstr; p_cni_version : option string; p_type : option cstr; p_bridge : option cstr;
  p_is_gateway : bool; p_ip_masq : bool; p_hairpin_mode : bool; p_ipam : option cni_net_conf_ipam;
  p_capabilities : list (string * bool); p_domain_name : option string
}.

Record cni_net_conf_list := mk_conf_list { l_name : option cstr; l_cni_version : option string; l_plugins : list (option cni_net_conf) }.

(** [struct cni_network_conf] and [struct cni_network_list_conf] *)
Record cni_network_conf := mk_network_conf { network : cni_net_conf; n_bytes : string }.
Record cni_network_list_conf := mk_list_conf { nl_list : option cni_net_conf_list; nl_bytes : option string }.

(** What the file system answers about the directory of configurations. *)
Record conf_dir := mk_dir {
  (** [opendir]: 1 when it succeeds, 0 for [ENOENT], -1 for another error. *)
  d_open : Z;
  (** The second [opendir]. *)
  d_scan : bool;
  d_entries : list string;
  (** Whether the path is a directory, and its size. *)
  d_lstat : string → option (bool * Z);
  d_read : string → option string
}.

Section conf.
Context (conf_parse : string → option cni_net_conf).
Context (list_parse : string → option cni_net_conf_list).
Context (list_generate : cni_net_conf_list → option string).

(** ** [libcni_conf.c] *)
Definition do_conf_from_bytes (conf_str : string) : option cni_network_conf :=
  match conf_parse conf_str with
  | None => None
  | Some n =>
    match p_type n with
    | None => None
    | Some t => if decide (String.length (cstr_s t) = 0)%nat then None else Some (mk_network_conf n conf_str)
    end
  end.

Definition conf_from_bytes (mem : bool) (conf_str : option string) : option cni_network_conf :=
  match conf_str with
  | None => None
  | Some conf_str => if negb mem then None else do_conf_from_bytes conf_str
  end.

Definition cni_conf_from_file (mem : bool) (dir : conf_dir) (filename : option string) : option cni_network_conf :=
  match filename with
  | None => None
  | Some filename => match d_read dir filename with None => None | Some content => conf_from_bytes mem (Some content) end
  end.

(** The loop over the plugins; a [NULL] plugin is dereferenced. *)
Fixpoint check_plugins (plugins : list (option cni_net_conf)) : option Z :=
  match plugins with
  | [] => Some 0
  | None :: _ => None
  | Some p :: plugins =>
    match p_type p with
    | None => Some (-1)
    | Some t => if decide (String.length (cstr_s t) = 0)%nat then Some (-1) else check_plugins plugins
    end
  end.

Definition do_check_cni_net_conf_list_plugins (tmp_list : cni_net_conf_list) : option Z :=
  if decide (length (l_plugins tmp_list) = 0)%nat then Some (-1) else check_plugins (l_plugins tmp_list).

Definition check_cni_net_conf_list (tmp_list : cni_net_conf_list) : option Z :=
  match l_name tmp_list with None => Some (-1) | Some _ => do_check_cni_net_conf_list_plugins tmp_list end.

Definition cni_conflist_from_bytes (mem : bool) (json_str : option string) : option (option cni_network_list_conf) :=
  match json_str with
  | None => Some None
  | Some json_str =>
    if negb mem then Some None else
    match list_parse json_str with
    | None => Some None
    | Some tmp_list =>
      ret ← check_cni_net_conf_list tmp_list;
      Some (if decide (ret ≠ 0) then None else Some (mk_list_conf (Some tmp_list) (Some json_str)))
    end
  end.

Definition cni_conflist_from_file (mem : bool) (dir : conf_dir) (filename : option string) : option (option cni_network_list_conf) :=
  match filename with
  | None => Some None
  | Some filename => match d_read dir filename with None => Some None | Some content => cni_conflist_from_bytes mem (Some content) end
  end.

(** The loop from the last byte: the position of the last dot after the last slash. *)
Fixpoint ext_loop (fname : chars) (i : nat) : Z :=
  match i with
  | O => -1
  | S j =>
    match fname !! j with
    | Some c => if Ascii.eqb c slash then -1 else if Ascii.eqb c "." then Z.of_nat j else ext_loop fname j
    | None => -1
    end
  end.

Definition get_ext (fname : option string) : Z :=
  match fname with None => -1 | Some fname => ext_loop (chars_of fname) (String.length fname) end.

Definition check_conf_dir (dir : conf_dir) : Z := d_open dir.

Definition do_check_file_is_valid (dir : conf_dir) (fname : string) : Z :=
  match d_lstat dir fname with
  | None => -1
  | Some (is_dir, size) => if is_dir : bool then -1 else if SIZE_MB <? size then -1 else 0
  end.

Definition MAX_NETWORK_CONFIG_FILE_COUNT : Z := 1024.

(** [struct search_cb_args]: the result and its length. *)
Definition search_args : Type := option (list (option string)) * Z.

(** The first extension that matches appends the file. *)
Fixpoint match_ext (mem : bool) (ext_name fname : string) (extensions : list (option string)) : M search_args bool :=
  match extensions with
  | [] => mret true
  | e :: extensions =>
    if decide (e = Some ext_name) then λ args,
      match util_array_append mem args.1 (Some fname) with
      | None => None
      | Some (r, result) => if decide (r ≠ 0) then Some (false, (result, args.2)) else Some (true, (result, u64 (args.2 + 1)))
      end
    else match_ext mem ext_name fname extensions
  end.

Definition path_of (dir name : string) : string := (dir ++ String slash name)%string.

Definition search_conf_files_cb (mem : bool) (d : conf_dir) (extensions : list (option string)) (dir d_name : string) : M search_args bool :=
  args ← get;
  if MAX_NETWORK_CONFIG_FILE_COUNT <? args.2 then mret false else
  let fname := path_of dir d_name in
  if decide (PATH_MAX ≤ String.length fname)%nat then mret false else
  if decide (do_check_file_is_valid d fname ≠ 0) then mret true else
  let nret := get_ext (Some d_name) in
  if nret <? 0 then mret true else
  match_ext mem (to_str (drop (Z.to_nat nret) (chars_of d_name))) fname extensions.

(** The files, [NULL] when there are none. *)
Definition cni_conf_files (mem : string → bool) (d : conf_dir) (dir : string) (extensions : list (option string)) : option (Z * option (list (option string))) :=
  if decide (check_conf_dir d ≠ 1) then Some (0, None) else
  match util_scan_subdirs id (if d_scan d then Some (d_entries d) else None) (λ name, search_conf_files_cb (mem name) d extensions dir name) (None, 0) with
  | None => None
  | Some (nret, (result, _)) => Some (if decide (nret ≠ 0) then (-1, None) else (0, result))
  end.

Definition generate_new_conflist (list : cni_net_conf_list) : option cni_network_list_conf :=
  match list_generate list with
  | None => None
  | Some json => match list_parse json with None => None | Some l => Some (mk_list_conf (Some l) (Some json)) end
  end.

Definition cni_conflist_from_conf (mem : bool) (conf : option cni_network_conf) : option cni_network_list_conf :=
  match conf with
  | None => None
  | Some conf =>
    if negb mem then None else
    let n := network conf in
    generate_new_conflist (mk_conf_list (p_name n) (p_cni_version n) [Some n])
  end.

(** ** [cni_operate.c] *)
Definition util_path_base (path : option string) : option string :=
  match path with
  | None => None
  | Some path =>
    let p := chars_of path in
    if decide (p = []) then Some (to_str dot) else
    let dir := strip_slashes p in
    if decide (dir = []) then Some (to_str [slash]) else Some (to_str (drop (last_slash dir (length dir)) dir))
  end.

Definition load_cni_config_file_list (mem : bool) (d : conf_dir) (fname : option string) : option (option cni_network_list_conf) :=
  match fname with
  | None => Some None
  | Some fname =>
    n_list ←
      (if util_has_suffix (Some fname) (Some ".conflist"%string) then cni_conflist_from_file mem d (Some fname)
       else match cni_conf_from_file mem d (Some fname) with
            | None => Some None
            | Some n_conf => if negb (util_valid_str (cstr_s <$> p_type (network n_conf))) then Some None else Some (cni_conflist_from_conf mem (Some n_conf))
            end);
    match n_list with
    | None => Some None
    | Some n_list =>
      match nl_list n_list with
      | None => None
      | Some l =>
        let name := match l_name l with
                    | Some name => if decide (cstr_s name = "") then cstr_of <$> util_path_base (Some fname) else Some name
                    | None => cstr_of <$> util_path_base (Some fname)
                    end in
        if negb (util_validate_network_name (cstr_s <$> name)) then Some None
        else Some (Some (mk_list_conf (Some (mk_conf_list name (l_cni_version l) (l_plugins l))) (nl_bytes n_list)))
      end
    end
  end.

(** The loop of [update_conflist_from_files]; [filter] is the function of the
    caller.  The inner [None] is a result of [-1]. *)
Fixpoint update_conflist_from_files (mem : nat → bool) (d : conf_dir) (filter : option (string → bool)) (i : nat) (files : list string)
    (conflists : list cni_network_list_conf) : option (option (list cni_network_list_conf)) :=
  match files with
  | [] => Some (Some conflists)
  | file :: files =>
    match util_path_base (Some file) with
    | None => Some None
    | Some fname =>
      if match filter with Some f => negb (f fname) | None => false end then update_conflist_from_files mem d filter (S i) files conflists else
      n_list ← load_cni_config_file_list (mem i) d (Some file);
      update_conflist_from_files mem d filter (S i) files
        (match n_list with
         | Some n => match nl_list n with
                     | Some l => if decide (length (l_plugins l) = 0)%nat then conflists else conflists ++ [n]
                     | None => conflists
                     end
         | None => conflists
         end)
    end
  end.

(** [strcmp] on the names of files, for [qsort]. *)
Definition cmpstr (a b : string) : Prop := str_cmp_loop false a b <= 0.

#[export] Instance cmpstr_dec : RelDecision cmpstr.
Proof. intros a b. unfold cmpstr. apply _. Defined.

Definition conf_exts : list (option string) := [Some ".conf"; Some ".conflist"; Some ".json"]%string.

(** [None] for a result of [-1]; otherwise the files in ascending order. *)
Definition get_conf_files (mem : string → bool) (d : conf_dir) (conf_path : option string) : option (option (list string)) :=
  match conf_path with
  | None => Some None
  | Some conf_path =>
    r ← cni_conf_files mem d conf_path conf_exts;
    if decide (r.1 ≠ 0) then Some None else
    length ← util_array_len r.2;
    match r.2 with
    | None => Some (Some [])
    | Some files => Some (Some (merge_sort cmpstr (omap id (take (Z.to_nat length) files))))
    end
  end.

Definition get_net_conflist_from_dir (mem_store : bool) (mem_files : string → bool) (mem_load : nat → bool) (d : conf_dir) (conf_path : option string)
    (filter : option (string → bool)) : option (option (list cni_network_list_conf)) :=
  files ← get_conf_files mem_files d conf_path;
  match files with
  | None => Some None
  | Some files =>
    if decide (length files = 0)%nat then Some (Some []) else
    if negb (util_smart_calloc_s mem_store PTR_SIZE (Z.of_nat (length files))) then Some None else
    update_conflist_from_files mem_load d filter 0 files []
  end.
End conf.
