(* ===== verification/NativeNetwork.v ===== *)
(** * Native networks

    [src/daemon/modules/network/native/adaptor_native.c]: the store of the
    networks that users create, with their configuration files, and the
    containers that are connected to them; and the callbacks of
    [src/daemon/executor/network_cb/network_cb.c] that create and list them.

    The state is [g_store] with the networks it points to and the files of the
    configuration directory.  The map from names to networks is a [StrMap]; the
    networks that leave it go to its destructor.  The world gives the outcomes
    of allocations, locks, system calls and plugins; every use of it has its own
    number.  A call that holds a lock of the store to its end is one step; calls
    that share the lock are taken one after the other.
    Messages and logs are not modelled.  [None] is undefined behaviour. *)
From stdpp Require Import base gmap list fin_maps numbers strings.
From Stdlib Require Import ZArith Lia Ascii.
From S2P Require Import Prelude CString Regex Array RbTree Map StrMap Convert StringUtil Verify Path SymlinkScope IpNet Subnet Filters CniConf.

Local Open Scope Z_scope.

Definition NETWOKR_DRIVER_BRIDGE : cstr := cstr_of "bridge".
Definition NETWOKR_DRIVER_MACVLAN : cstr := cstr_of "macvlan".
Definition MAX_BRIDGE_ID : nat := N.to_nat 1024.
Definition ISULAD_CNI_NETWORK_CONF_FILE_PRE : string := "isulacni-".
Definition ISULAD_DNS_DOMAIN_NAME : string := "dns.isulad".
Definition ISULAD_SUCCESS : Z := 0.
Definition ISULAD_ERR_INPUT : Z := 4.
Definition ISULAD_ERR_EXEC : Z := 5.

(** ** Interfaces of the host *)
Inductive sockaddr := AF_PACKET | AF_INET (sin_addr : list Z) | AF_INET6 (sin6_addr : list Z) | AF_OTHER.
Record ifaddrs := mk_ifaddrs { ifa_name : cstr; ifa_addr : option sockaddr }.

(** [inet_ntop] of the C library.  For IPv6: the first longest run of at least
    two groups of zeros is shortened, and an embedded IPv4 address is dotted. *)
Fixpoint words (l : list Z) : list Z := match l with a :: b :: l => (a * 256 + b) :: words l | _ => [] end.

Fixpoint zero_len (ws : list Z) : nat := match ws with w :: ws => if w =? 0 then S (zero_len ws) else 0%nat | [] => 0%nat end.

(** The base and the length of the best run from the [i]-th group on. *)
Fixpoint best_run (ws : list Z) (i : nat) : nat * nat :=
  match ws with
  | [] => (i, 0%nat)
  | w :: ws' => let '(b, n) := best_run ws' (S i) in if decide (n ≤ zero_len ws)%nat then (i, zero_len ws) else (b, n)
  end.

Fixpoint hex_text (fuel : nat) (n : Z) (acc : chars) : chars :=
  match fuel with
  | O => acc
  | S fuel => let acc := hex_digit (n mod 16) :: acc in if decide (n / 16 = 0) then acc else hex_text fuel (n / 16) acc
  end.

Fixpoint ntop6_loop (a : list Z) (ws : list Z) (base len i : nat) : chars :=
  match ws with
  | [] => if decide (len ≠ 0 ∧ base + len = 8)%nat then [":"%char] else []
  | w :: ws =>
    if decide (len ≠ 0 ∧ base ≤ i < base + len)%nat then (if decide (i = base) then [":"%char] else []) ++ ntop6_loop a ws base len (S i)
    else
      let colon := if decide (i = 0%nat) then [] else [":"%char] in
      if decide (i = 6 ∧ base = 0 ∧ (len = 6 ∨ len = 5 ∧ words a !! 5 = Some 65535%Z))%nat then colon ++ dotted (drop 12 a)
      else colon ++ hex_text 4 w [] ++ ntop6_loop a ws base len (S i)
  end.

Definition inet_ntop4 (a : list Z) : string := to_str (dotted a).
Definition inet_ntop6 (a : list Z) : string :=
  let '(b, n) := best_run (words a) 0 in to_str (ntop6_loop a (words a) b (if decide (n < 2)%nat then 0%nat else n) 0).

(** ** State *)
Record native_network := mk_native { conflist : cni_network_list_conf; containers_list : list cstr }.

(** An operation of a plugin: the network, the interface, and whether the
    annotations of the container were passed. *)
Inductive cni_op := attach_network_plane | detach_network_plane.
Record plane := mk_plane { pl_op : cni_op; pl_net : cstr; pl_interface : string; pl_annotated : bool }.

Record nstate (NT : Type) := mk_nstate {
  name_to_network : option NT; network_len : Z; conf_path : option string; bin_paths : list cstr;
  n_heap : gmap nat native_network; n_fresh : nat;
  n_files : gmap string string; n_planes : list plane; n_tick : nat
}.
Arguments mk_nstate {NT} _ _ _ _ _ _ _ _ _.
Arguments name_to_network {NT} _.
Arguments network_len {NT} _.
Arguments conf_path {NT} _.
Arguments bin_paths {NT} _.
Arguments n_heap {NT} _.
Arguments n_fresh {NT} _.
Arguments n_files {NT} _.
Arguments n_planes {NT} _.
Arguments n_tick {NT} _.

(** The environment; the first argument is the number of the use. *)
Record world := mk_world {
  w_mem : nat → nat → bool; w_mem3 : nat → nat → nat → nat → bool; w_map : nat → map_mem; w_lock : nat → bool;
  w_ifaddrs : nat → option (list ifaddrs);
  w_exists : nat → string → bool; w_dir : nat → bool; w_mkdir : nat → bool; w_write : nat → bool; w_unlink : nat → bool; w_exec : nat → bool;
  w_version : nat → list (option cni_net_conf) → option string;
  w_loopback : nat → bool; w_plugin : nat → bool; w_result : nat → bool;
  w_cwd : option string
}.

(** ** Drivers *)
Inductive net_driver := bridge_driver | macvlan_driver.
Definition driver_name (d : net_driver) : cstr := match d with bridge_driver => NETWOKR_DRIVER_BRIDGE | macvlan_driver => NETWOKR_DRIVER_MACVLAN end.
Definition g_drivers : list net_driver := [bridge_driver; macvlan_driver].

#[global] Instance net_driver_eq_dec : EqDecision net_driver.
Proof. solve_decision. Defined.

Definition get_ops_by_driver (driver : option cstr) : option net_driver :=
  match driver with
  | None => Some bridge_driver
  | Some driver => head (filter (λ d, driver_name d = driver) g_drivers)
  end.

Definition is_native_config_file (filename : option string) : bool :=
  match filename with
  | None => false
  | Some filename => bool_decide (take (String.length ISULAD_CNI_NETWORK_CONF_FILE_PRE) (chars_of filename) = chars_of ISULAD_CNI_NETWORK_CONF_FILE_PRE)
  end.

(** ** Values of a configuration that must not be used twice *)
Definition get_config_net_name (mem : nat → bool) (list : cni_net_conf_list) : M (c_array string) Z :=
  match l_name list with None => mret 0 | Some name => util_append_string_array (mem 0%nat) (Some (cstr_s name)) end.

(** [type] is compared before [bridge] is looked at; a plugin without a type is
    undefined behaviour. *)
Fixpoint bridge_names (mem : nat → bool) (i : nat) (plugins : list (option cni_net_conf)) : M (c_array string) Z :=
  match plugins with
  | [] => mret 0
  | None :: plugins => bridge_names mem (S i) plugins
  | Some plugin :: plugins =>
    match p_type plugin with
    | None => fail
    | Some type =>
      if decide (type ≠ NETWOKR_DRIVER_BRIDGE) then bridge_names mem (S i) plugins else
      match p_bridge plugin with
      | None => bridge_names mem (S i) plugins
      | Some bridge =>
        nret ← util_append_string_array (mem i) (Some (cstr_s bridge));
        if decide (nret ≠ 0) then mret (-1) else bridge_names mem (S i) plugins
      end
    end
  end.

Definition get_config_bridge_name (mem : nat → bool) (list : cni_net_conf_list) : M (c_array string) Z := bridge_names mem 0 (l_plugins list).

(** [plugin->ipam->ranges[0][0]->subnet], when all of it is there. *)
Definition plugin_subnet (plugin : option cni_net_conf) : option string :=
  match plugin with
  | Some plugin =>
    match p_ipam plugin with
    | Some ipam =>
      match ipam_ranges ipam with
      | Some (Some r :: _) :: _ => r_subnet r
      | _ => None
      end
    | None => None
    end
  | None => None
  end.

Fixpoint plugin_subnets (mem : nat → bool) (i : nat) (plugins : list (option cni_net_conf)) : M (c_array string) Z :=
  match plugins with
  | [] => mret 0
  | plugin :: plugins =>
    match plugin_subnet plugin with
    | None => plugin_subnets mem (S i) plugins
    | Some subnet =>
      nret ← util_append_string_array (mem i) (Some subnet);
      if decide (nret ≠ 0) then mret (-1) else plugin_subnets mem (S i) plugins
    end
  end.

Definition get_config_subnet (mem : nat → bool) (list : cni_net_conf_list) : M (c_array string) Z := plugin_subnets mem 0 (l_plugins list).

(** A [string_array] of zeros. *)
Definition no_strings : c_array string := mk_array [] 0 0.

(** ** Addresses and interfaces of the host: [None] is an error *)
Fixpoint interface_loop (mem : nat → bool) (i : nat) (ifaddr : list ifaddrs) : M (c_array string) Z :=
  match ifaddr with
  | [] => mret 0
  | ifa :: ifaddr =>
    match ifa_addr ifa with
    | Some AF_PACKET =>
      ret ← util_append_string_array (mem i) (Some (cstr_s (ifa_name ifa)));
      if decide (ret ≠ 0) then mret ret else interface_loop mem (S i) ifaddr
    | _ => interface_loop mem (S i) ifaddr
    end
  end.

Fixpoint host_ip_loop (mem : nat → bool) (i : nat) (ifaddr : list ifaddrs) : M (c_array string) Z :=
  match ifaddr with
  | [] => mret 0
  | ifa :: ifaddr =>
    match match ifa_addr ifa with Some (AF_INET a) => Some (inet_ntop4 a) | Some (AF_INET6 a) => Some (inet_ntop6 a) | _ => None end with
    | Some ipaddr =>
      ret ← util_append_string_array (mem i) (Some ipaddr);
      if decide (ret ≠ 0) then mret ret else host_ip_loop mem (S i) ifaddr
    | None => host_ip_loop mem (S i) ifaddr
    end
  end.

Definition SIZEOF_STRING_ARRAY : Z := 24.

(** An array that a loop fills. *)
Definition fill (ok : bool) (loop : M (c_array string) Z) : option (option (c_array string)) :=
  if negb (util_common_calloc_s ok SIZEOF_STRING_ARRAY) then Some None else
  match loop no_strings with
  | None => None
  | Some (ret, tmp) => Some (if decide (ret ≠ 0) then None else Some tmp)
  end.

Section native.
Context {NT FT BT : Type} {NM : StrMap nat NT} {FM : StrMap nat FT} {BM : StrMap bool BT}.
Context (list_generate : cni_net_conf_list → option string).
Context (w : world).
Let NA := M (nstate NT).

Definition tick : NA nat := λ s,
  Some (n_tick s, mk_nstate (name_to_network s) (network_len s) (conf_path s) (bin_paths s) (n_heap s) (n_fresh s) (n_files s) (n_planes s) (S (n_tick s))).

Definition native_store_lock : NA bool := i ← tick; mret (w_lock w i).

Definition set_map (m : option NT) (s : nstate NT) : nstate NT :=
  mk_nstate m (network_len s) (conf_path s) (bin_paths s) (n_heap s) (n_fresh s) (n_files s) (n_planes s) (n_tick s).
Definition set_len (n : Z) (s : nstate NT) : nstate NT :=
  mk_nstate (name_to_network s) n (conf_path s) (bin_paths s) (n_heap s) (n_fresh s) (n_files s) (n_planes s) (n_tick s).
Definition set_networks (h : gmap nat native_network) (s : nstate NT) : nstate NT :=
  mk_nstate (name_to_network s) (network_len s) (conf_path s) (bin_paths s) h (n_fresh s) (n_files s) (n_planes s) (n_tick s).
Definition set_files (f : gmap string string) (s : nstate NT) : nstate NT :=
  mk_nstate (name_to_network s) (network_len s) (conf_path s) (bin_paths s) (n_heap s) (n_fresh s) f (n_planes s) (n_tick s).

(** [native_network_free] of the networks with these pointers. *)
Definition free_networks (ps : list nat) (h : gmap nat native_network) : gmap nat native_network := foldr delete h ps.

(** A call on the map; [native_network_kvfree] frees the networks that leave it. *)
Definition on_map {A} (f : M NT A) : NA A := λ s,
  match name_to_network s with
  | None => None
  | Some m =>
    match f m with
    | None => None
    | Some (a, m') => Some (a, set_networks (free_networks (drop (length (sm_dropped m)) (sm_dropped m')) (n_heap s)) (set_map (Some m') s))
    end
  end.

(** [map_search] and [map_replace] with a key that may be [NULL]. *)
Definition search_name (name : option cstr) : NA (option nat) :=
  match name with None => mret None | Some name => on_map (sm_search name) end.
Definition replace_name (mem : map_mem) (name : option cstr) (p : nat) : NA bool :=
  match name with None => mret false | Some name => on_map (sm_replace mem name p) end.

Definition network_at (p : nat) : NA native_network := λ s, match n_heap s !! p with Some n => Some (n, s) | None => None end.

(** [network->conflist->list] *)
Definition list_at (p : nat) : NA cni_net_conf_list :=
  n ← network_at p; match nl_list (conflist n) with Some l => mret l | None => fail end.

Definition native_network_init (c : cni_network_list_conf) : NA (option nat) :=
  i ← tick;
  if negb (w_mem w i 0%nat) then mret None
  else if negb (w_lock w i) then mret None
  else λ s, Some (Some (n_fresh s),
    mk_nstate (name_to_network s) (network_len s) (conf_path s) (bin_paths s) (<[n_fresh s := mk_native c []]> (n_heap s)) (S (n_fresh s))
      (n_files s) (n_planes s) (n_tick s)).

Definition native_store_add_network (c : cni_network_list_conf) : NA Z :=
  network ← native_network_init c;
  match network with
  | None => mret (-1)
  | Some p =>
    l ← list_at p;
    i ← tick;
    ok ← replace_name (w_map w i) (l_name l) p;
    if negb ok then modify (λ s, set_networks (delete p (n_heap s)) s);; mret (-1)
    else modify (λ s, set_len (u64 (network_len s + 1)) s);; mret 0
  end.

(** The loop of [load_store_map]. *)
Fixpoint load_loop (tmp : list cni_network_list_conf) : NA Z :=
  match tmp with
  | [] => mret 0
  | c :: tmp =>
    match nl_list c with
    | None => load_loop tmp
    | Some l =>
      found ← search_name (l_name l);
      match found with
      | Some _ => load_loop tmp
      | None => ret ← native_store_add_network c; if decide (ret ≠ 0) then mret ret else load_loop tmp
      end
    end
  end.

(** [nets] is the result of [get_net_conflist_from_dir]. *)
Definition load_store_map (nets : option (list cni_network_list_conf)) : NA Z :=
  match nets with None => mret (-1) | Some tmp => load_loop tmp end.

Definition native_destory : NA unit :=
  s ← get;
  match name_to_network s with Some _ => on_map sm_free | None => mret tt end;;
  modify (λ s, mk_nstate None 0 None [] (n_heap s) (n_fresh s) (n_files s) (n_planes s) (n_tick s)).

Definition native_init (nets : option (list cni_network_list_conf)) (conf_dir : option string) (paths : list cstr) : NA Z :=
  i ← tick;
  if negb (w_lock w i) then mret (-1) else
  ret ←
    (match sm_new (w_mem w i 0%nat) (w_mem w i 1%nat) (w_mem w i 2%nat) with
     | None => mret (-1)
     | Some m =>
       modify (set_map (Some m));;
       ret ← load_store_map nets;
       if decide (ret ≠ 0) then mret ret else
       let dup := w_mem w i 3%nat in
       modify (λ s, mk_nstate (name_to_network s) (network_len s) conf_dir (if dup then paths else bin_paths s) (n_heap s) (n_fresh s) (n_files s) (n_planes s) (n_tick s));;
       mret (if dup then 0 else -1)
     end);
  if decide (ret ≠ 0) then native_destory;; mret ret else mret 0.

Definition native_ready : NA bool :=
  locked ← native_store_lock;
  if negb locked then mret false else s ← get; mret (0 <? network_len s).

(** The loop over the networks; [cb] appends to the array. *)
Fixpoint config_loop (cb : (nat → bool) → cni_net_conf_list → M (c_array string) Z) (ps : list nat) (tmp : c_array string) : NA (Z * c_array string) :=
  match ps with
  | [] => mret (0, tmp)
  | p :: ps =>
    l ← list_at p;
    i ← tick;
    match cb (w_mem w i) l tmp with
    | None => fail
    | Some (ret, tmp) => if decide (ret ≠ 0) then mret (ret, tmp) else config_loop cb ps tmp
    end
  end.

(** The values of the map in the order of the iterator; [None] when the iterator
    cannot be allocated. *)
Definition all_networks (mem : bool) : NA (option (list nat)) :=
  l ← on_map (sm_pairs mem); mret (match l with Some l => Some (snd <$> l) | None => None end).

Definition get_cni_config (cb : (nat → bool) → cni_net_conf_list → M (c_array string) Z) : NA (option (c_array string)) :=
  locked ← native_store_lock;
  if negb locked then mret None else
  i ← tick;
  if negb (util_common_calloc_s (w_mem w i 0%nat) SIZEOF_STRING_ARRAY) then mret None else
  s ← get;
  if decide (network_len s = 0) then mret (Some no_strings) else
  ps ← all_networks (w_mem w i 1%nat);
  match ps with
  | None => mret None
  | Some ps => r ← config_loop cb ps no_strings; if decide (r.1 ≠ 0) then mret None else mret (Some r.2)
  end.

Definition get_interface_name : NA (option (c_array string)) :=
  i ← tick;
  match w_ifaddrs w i with
  | None => mret None
  | Some ifaddr => match fill (w_mem w i 0%nat) (interface_loop (λ j, w_mem w i (S j)) 0 ifaddr) with Some r => mret r | None => fail end
  end.

Definition get_host_net_ip : NA (option (c_array string)) :=
  i ← tick;
  match w_ifaddrs w i with
  | None => mret None
  | Some ifaddr => match fill (w_mem w i 0%nat) (host_ip_loop (λ j, w_mem w i (S j)) 0 ifaddr) with Some r => mret r | None => fail end
  end.

(** ** Checking a request *)
Definition check_subnet (subnet : string) : NA Z :=
  subnets ← get_cni_config get_config_subnet;
  match subnets with
  | None => mret (-1)
  | Some subnets =>
    host_ip ← get_host_net_ip;
    match host_ip with
    | None => mret (-1)
    | Some host_ip =>
      i ← tick;
      let ret := check_subnet_available (w_mem3 w i 0%nat) subnet (used subnets) (used host_ip) in
      mret (if decide (ret = 1) then EINVALIDARGS else ret)
    end
  end.

Definition check_bridge (request : network_create_request) : NA Z :=
  ret ←
    (match rq_name request with
     | None => mret 0
     | Some name =>
       net_names ← get_cni_config get_config_net_name;
       match net_names with
       | None => mret (-1)
       | Some names => mret (if util_string_array_contain (Some names) (Some (cstr_s name)) then EINVALIDARGS else 0)
       end
     end);
  if decide (ret ≠ 0) then mret ret else
  match rq_subnet request with None => mret 0 | Some subnet => check_subnet subnet end.

(** ** Choosing the name of the bridge *)
Definition bridge_name_prefix : string := "isula-br".

(** The loop; the outer [None] is undefined behaviour. *)
Fixpoint bridge_loop (mem : nat → bool) (fuel i : nat) (taken : string → bool) : option (option string) :=
  match fuel with
  | O => Some None
  | S fuel =>
    match util_int_to_string (Z.of_nat i) with
    | None => Some None
    | Some num =>
      name ← util_string_append (mem i) (Some num) (Some bridge_name_prefix);
      match name with
      | None => Some None
      | Some name => if taken name then bridge_loop mem fuel (S i) taken else Some (Some name)
      end
    end
  end.

Definition find_bridge_name : NA (option string) :=
  net_names ← get_cni_config get_config_net_name;
  match net_names with
  | None => mret None
  | Some net_names =>
    bridge_names ← get_cni_config get_config_bridge_name;
    match bridge_names with
    | None => mret None
    | Some bridge_names =>
      host_net_names ← get_interface_name;
      match host_net_names with
      | None => mret None
      | Some host_net_names =>
        i ← tick;
        match bridge_loop (w_mem w i) MAX_BRIDGE_ID 0 (λ name,
          util_string_array_contain (Some net_names) (Some name) || util_string_array_contain (Some bridge_names) (Some name)
          || util_string_array_contain (Some host_net_names) (Some name)) with
        | None => fail
        | Some name => mret name
        end
      end
    end
  end.

(** ** Choosing the subnet and the gateway *)
Definition SUBNET_FUEL : nat := Z.to_nat 69888.

Definition find_subnet : NA (option string) :=
  config_subnet ← get_cni_config get_config_subnet;
  match config_subnet with
  | None => mret None
  | Some config_subnet =>
    host_ip ← get_host_net_ip;
    match host_ip with
    | None => mret None
    | Some host_ip =>
      i ← tick;
      match find_subnet_loop (w_mem3 w i) SUBNET_FUEL 0 None (used config_subnet) (used host_ip) with
      | None => fail
      | Some subnet => mret subnet
      end
    end
  end.

(** The subnet of the configuration: the one of the request, reduced by its
    mask, or the first free one. *)
Definition ipam_subnet (request : network_create_request) : NA (option string) :=
  match rq_subnet request with
  | Some subnet =>
    i ← tick;
    match util_parse_ipnet_from_str (w_mem w i 0%nat) (Some subnet) with
    | None => mret None
    | Some ipnet =>
      match util_reduce_ip_by_mask ipnet with
      | None => mret None
      | Some ipnet => match util_ipnet_to_string (w_mem w i 1%nat) (Some ipnet) with Some r => mret r | None => fail end
      end
    end
  | None => find_subnet
  end.

Definition conf_bridge_plugin_ipam (request : network_create_request) : NA (option cni_net_conf_ipam) :=
  i ← tick;
  if negb (forallb (w_mem w i) (seq 0 7)) then mret None else
  subnet ← ipam_subnet request;
  match subnet with
  | None => mret None
  | Some subnet =>
    gateway ←
      (match rq_gateway request with
       | Some gateway => mret (Some gateway)
       | None => j ← tick; match find_gateway (w_mem w j) subnet with Some r => mret r | None => fail end
       end);
    match gateway with
    | None => mret None
    | Some gateway => mret (Some (mk_ipam (Some "host-local"%string) ["0.0.0.0/0"%string] [Some [Some (mk_range (Some subnet) (Some gateway))]]))
    end
  end.

(** ** Configurations of the plugins *)
Definition conf_bridge_plugin (request : network_create_request) : NA (option cni_net_conf) :=
  i ← tick;
  if negb (w_mem w i 0%nat) then mret None else
  bridge ← find_bridge_name;
  match bridge with
  | None => mret None
  | Some bridge =>
    let gw := negb (rq_internal request) in
    ipam ← conf_bridge_plugin_ipam request;
    match ipam with
    | None => mret None
    | Some ipam => mret (Some (mk_plugin None None (Some NETWOKR_DRIVER_BRIDGE) (Some (cstr_of bridge)) gw gw true (Some ipam) [] None))
    end
  end.

Definition conf_portmap_plugin (request : network_create_request) : NA (option cni_net_conf) :=
  i ← tick;
  if negb (forallb (w_mem w i) (seq 0 4)) then mret None
  else mret (Some (mk_plugin None None (Some (cstr_of "portmap")) None false false false None [("portMappings"%string, true)] None)).

Definition conf_firewall_plugin (request : network_create_request) : NA (option cni_net_conf) :=
  i ← tick;
  if negb (w_mem w i 0%nat) then mret None
  else mret (Some (mk_plugin None None (Some (cstr_of "firewall")) None false false false None [] None)).

Definition conf_dnsname_plugin (request : network_create_request) : NA (option cni_net_conf) :=
  i ← tick;
  if negb (forallb (w_mem w i) (seq 0 4)) then mret None
  else mret (Some (mk_plugin None None (Some (cstr_of "dnsname")) None false false false None [("aliases"%string, true)] (Some ISULAD_DNS_DOMAIN_NAME))).

Definition g_bridge_driver_plugins : list (string * (network_create_request → NA (option cni_net_conf))) :=
  [("bridge", conf_bridge_plugin); ("portmap", conf_portmap_plugin); ("firewall", conf_firewall_plugin); ("dnsname", conf_dnsname_plugin)]%string.

(** The loop of [cni_bin_detect]. *)
Fixpoint bin_loop (paths : list cstr) (cni : string) : NA bool :=
  match paths with
  | [] => mret false
  | p :: paths =>
    match util_path_join (w_cwd w) (Some (cstr_s p)) (Some cni) with
    | None => fail
    | Some None => mret false
    | Some (Some path) => i ← tick; if w_exists w i path then mret true else bin_loop paths cni
    end
  end.

Definition cni_bin_detect (cni : string) : NA bool := s ← get; bin_loop (bin_paths s) cni.

(** The loop of [conf_bridge]: the cells of [list->plugins], their number in use
    and the missing plugins. *)
Fixpoint plugins_loop (ops : list (string * (network_create_request → NA (option cni_net_conf)))) (request : network_create_request) (i : nat)
    (plugins : list (option cni_net_conf)) (plugins_len : nat) (missing : c_array string)
    : NA (option (list (option cni_net_conf) * nat * c_array string)) :=
  match ops with
  | [] => mret (Some (plugins, plugins_len, missing))
  | (name, op) :: ops =>
    found ← cni_bin_detect name;
    let add missing :=
      plugin ← op request;
      match plugin with
      | None => mret None
      | Some plugin => plugins_loop ops request (S i) (<[i := Some plugin]> plugins) (S plugins_len) missing
      end in
    if (found : bool) then add missing else
    if decide (name = "dnsname"%string) then plugins_loop ops request (S i) plugins plugins_len missing else
    j ← tick;
    match util_append_string_array (w_mem w j 0%nat) (Some name) missing with
    | None => fail
    | Some (r, missing) => if decide (r ≠ 0) then mret None else add missing
    end
  end.

Definition conf_bridge (request : network_create_request) : NA (option (cni_net_conf_list * c_array string)) :=
  i ← tick;
  if negb (w_mem w i 0%nat && w_mem w i 1%nat) then mret None else
  r ← plugins_loop g_bridge_driver_plugins request 0 (replicate 4 None) 0 no_strings;
  match r with
  | None => mret None
  | Some (plugins, plugins_len, missing) =>
    j ← tick;
    let plugins := take plugins_len plugins in
    let version := w_version w j plugins in
    match rq_name request with
    | Some name => mret (Some (mk_conf_list (Some name) version plugins, missing))
    | None =>
      match plugins with
      | Some p :: _ => mret (Some (mk_conf_list (p_bridge p) version plugins, missing))
      | _ => fail
      end
    end
  end.

(** ** Files of the configurations *)
Definition conflist_file (dir : string) (name : cstr) : string :=
  path_of dir (ISULAD_CNI_NETWORK_CONF_FILE_PRE ++ cstr_s name ++ ".conflist").

(** The path, if it fits [PATH_MAX]. *)
Definition get_file_path_by_name (name : option cstr) : NA (option string) :=
  s ← get;
  match conf_path s, name with
  | Some dir, Some name => let file := conflist_file dir name in mret (if decide (PATH_MAX ≤ String.length file)%nat then None else Some file)
  | _, _ => fail
  end.

(** The text written, which becomes [conflist->bytes]; [None] is a failure. *)
Definition create_conflist_file (list : cni_net_conf_list) : NA (option string) :=
  i ← tick;
  if negb (w_dir w i) && negb (w_mkdir w i) then mret None else
  path ← get_file_path_by_name (l_name list);
  match path with
  | None => mret None
  | Some path =>
    match list_generate list with
    | None => mret None
    | Some json =>
      s ← get;
      if decide (is_Some (n_files s !! path)) then mret None else
      if String.eqb json "" then mret (Some json) else
      if negb (w_write w i) then mret None else
      modify (λ s, set_files (<[path := json]> (n_files s)) s);; mret (Some json)
    end
  end.

(** Whether the message about missing plugins can be made: [util_string_join]
    gives [NULL] for no strings, or when memory runs out. *)
Definition set_missing_plugin_err_msg (missing : c_array string) : NA Z :=
  if decide (items missing = []) then mret 0 else
  i ← tick;
  s ← get;
  mret (if w_mem w i 0%nat && w_mem w i 1%nat && bool_decide (bin_paths s ≠ []) then 0 else -1).

(** ** Creating a network: the result, the name and the error code *)
Definition native_config_create (request : network_create_request) : NA (Z * option cstr * Z) :=
  match get_ops_by_driver (rq_driver request) with
  | None => mret (-1, None, ISULAD_ERR_INPUT)
  | Some pnet =>
    if decide (pnet ≠ bridge_driver) then mret (-1, None, ISULAD_ERR_INPUT) else
    ret ← check_bridge request;
    if decide (ret ≠ 0) then mret (-1, None, ISULAD_ERR_INPUT) else
    i ← tick;
    if negb (w_mem w i 0%nat && w_mem w i 1%nat) then mret (-1, None, ISULAD_ERR_EXEC) else
    conf ← conf_bridge request;
    match conf with
    | None => mret (-1, None, ISULAD_ERR_EXEC)
    | Some (list, missing) =>
      bytes ← create_conflist_file list;
      match bytes with
      | None => mret (-1, l_name list, ISULAD_ERR_EXEC)
      | Some bytes =>
        locked ← native_store_lock;
        if negb locked then mret (-1, l_name list, ISULAD_ERR_EXEC) else
        ret ← native_store_add_network (mk_list_conf (Some list) (Some bytes));
        if decide (ret ≠ 0) then mret (ret, l_name list, ISULAD_ERR_EXEC) else
        ret ← set_missing_plugin_err_msg missing;
        mret (ret, l_name list, if decide (ret ≠ 0) then ISULAD_ERR_EXEC else ISULAD_SUCCESS)
      end
    end
  end.

(** [network_create_cb]: the check and the call under [g_network_rwlock]. *)
Definition network_create_cb (request : network_create_request) : NA (Z * option cstr * Z) :=
  i ← tick;
  let ret := check_parameter (w_mem w i) request in
  if decide (ret ≠ 0) then mret (ret, None, ISULAD_ERR_INPUT) else native_config_create request.

(** ** Inspecting and listing *)

(** The first network of the iteration with this name. *)
Fixpoint find_network (name : cstr) (ps : list nat) : NA (option nat) :=
  match ps with
  | [] => mret None
  | p :: ps => l ← list_at p; if decide (l_name l = Some name) then mret (Some p) else find_network name ps
  end.

Definition get_network_by_name (name : cstr) : NA (option nat) :=
  s ← get;
  if decide (network_len s = 0) then mret None else
  i ← tick;
  ps ← all_networks (w_mem w i 0%nat);
  match ps with None => mret None | Some ps => find_network name ps end.

(** The result and the JSON text. *)
Definition native_config_inspect (name : option cstr) : NA (Z * option string) :=
  match name with
  | None => mret (-1, None)
  | Some name =>
    locked ← native_store_lock;
    if negb locked then mret (-1, None) else
    p ← get_network_by_name name;
    match p with None => mret (-1, None) | Some p => n ← network_at p; mret (0, nl_bytes (conflist n)) end
  end.

Definition network_info : Type := option cstr * option string * list cstr.

Section filter.
Context (util_reg_match : option string → option string → Z) (filters : filters_args FT BT).

Definition matches_filter (field : string) (source : option cstr) : NA bool :=
  match filters_args_match util_reg_match true (cstr_of field) source filters with Some (b, _) => mret b | None => fail end.

Fixpoint plugin_matches (plugins : list (option cni_net_conf)) : NA bool :=
  match plugins with
  | [] => mret false
  | None :: _ => fail
  | Some p :: plugins => b ← matches_filter "plugin" (p_type p); if (b : bool) then mret true else plugin_matches plugins
  end.

Definition network_info_match_filter (list : cni_net_conf_list) : NA bool :=
  b ← matches_filter "name" (l_name list);
  if negb b then mret false else plugin_matches (l_plugins list).
End filter.

(** The types of the plugins; the [NULL] ones are left out. *)
Fixpoint plugin_types (mem : nat → bool) (i : nat) (plugins : list (option cni_net_conf)) : NA (option (list cstr)) :=
  match plugins with
  | [] => mret (Some [])
  | None :: _ => fail
  | Some p :: plugins =>
    match p_type p with
    | None => plugin_types mem (S i) plugins
    | Some t =>
      if negb (mem i) then mret None else
      ts ← plugin_types mem (S i) plugins; mret (match ts with Some ts => Some (t :: ts) | None => None end)
    end
  end.

Definition get_network_info (list : cni_net_conf_list) : NA (option network_info) :=
  i ← tick;
  if negb (w_mem w i 0%nat) then mret None else
  ts ← plugin_types (λ j, w_mem w i (S j)) 0 (l_plugins list);
  mret (match ts with Some ts => Some (l_name list, l_cni_version list, ts) | None => None end).

(** The loop; a write after the end of [nets] is undefined behaviour. *)
Fixpoint list_loop (keep : cni_net_conf_list → NA bool) (cap : Z) (ps : list nat) (nets : list network_info) : NA (option (list network_info)) :=
  match ps with
  | [] => mret (Some nets)
  | p :: ps =>
    l ← list_at p;
    b ← keep l;
    if negb b then list_loop keep cap ps nets else
    net_info ← get_network_info l;
    match net_info with
    | None => mret None
    | Some net_info => if decide (cap <= Z.of_nat (length nets)) then fail else list_loop keep cap ps (nets ++ [net_info])
    end
  end.

Definition native_config_list (util_reg_match : option string → option string → Z) (filters : option (filters_args FT BT)) : NA (Z * list network_info) :=
  locked ← native_store_lock;
  if negb locked then mret (-1, []) else
  s ← get;
  if decide (network_len s = 0) then mret (0, []) else
  i ← tick;
  if negb (util_smart_calloc_s (w_mem w i 0%nat) PTR_SIZE (network_len s)) then mret (-1, []) else
  ps ← all_networks (w_mem w i 1%nat);
  match ps with
  | None => mret (-1, [])
  | Some ps =>
    r ← list_loop (λ l, match filters with None => mret true | Some f => network_info_match_filter util_reg_match f l end) (network_len s) ps [];
    match r with
    | None => mret (-1, [])
    | Some nets =>
      if decide (network_len s ≠ Z.of_nat (length nets)) then
        if decide (nets = []) then mret (0, []) else
        if negb (util_common_calloc_s (w_mem w i 2%nat) (Z.of_nat (length nets) * PTR_SIZE)) then mret (-1, []) else mret (0, nets)
      else mret (0, nets)
    end
  end.

(** ** Removing a network *)
Definition has_connected_container (p : nat) : NA bool := n ← network_at p; mret (bool_decide (containers_list n ≠ [])).

Fixpoint get_ops_by_conflist (plugins : list (option cni_net_conf)) : option net_driver :=
  match plugins with
  | [] => None
  | Some p :: plugins =>
    match p_type p with
    | Some type => match get_ops_by_driver (Some type) with Some pnet => Some pnet | None => get_ops_by_conflist plugins end
    | None => get_ops_by_conflist plugins
    end
  | None :: plugins => get_ops_by_conflist plugins
  end.

Definition remove_interface (ifa : cstr) : NA Z :=
  interfaces ← get_interface_name;
  match interfaces with
  | None => mret (-1)
  | Some interfaces =>
    if decide (len interfaces = 0) then mret 0 else
    if negb (util_string_array_contain (Some interfaces) (Some (cstr_s ifa))) then mret 0 else
    i ← tick;
    mret (if w_mem w i 0%nat && w_exec w i then 0 else -1)
  end.

(** The first bridge plugin with a bridge. *)
Fixpoint bridge_of (plugins : list (option cni_net_conf)) : option (option cstr) :=
  match plugins with
  | [] => Some None
  | None :: plugins => bridge_of plugins
  | Some plugin :: plugins =>
    match p_type plugin with
    | None => None
    | Some type => if decide (type ≠ NETWOKR_DRIVER_BRIDGE ∨ p_bridge plugin = None) then bridge_of plugins else Some (p_bridge plugin)
    end
  end.

Definition remove_bridge (list : cni_net_conf_list) : NA Z :=
  match bridge_of (l_plugins list) with
  | None => fail
  | Some None => mret 0
  | Some (Some bridge) => r ← remove_interface bridge; mret (if decide (r ≠ 0) then -1 else 0)
  end.

(** The result and [res_name]. *)
Definition native_config_remove (name : option cstr) : NA (Z * option cstr) :=
  match name with
  | None => mret (-1, None)
  | Some name =>
    locked ← native_store_lock;
    if negb locked then mret (-1, None) else
    network ← get_network_by_name name;
    match network with
    | None => mret (-1, None)
    | Some p =>
      connected ← has_connected_container p;
      if (connected : bool) then mret (-1, None) else
      l ← list_at p;
      _ ← (match get_ops_by_conflist (l_plugins l) with Some bridge_driver => remove_bridge l | _ => mret 0 end);
      path ← get_file_path_by_name (l_name l);
      i ← tick;
      match path with
      | None => mret tt
      | Some path => if w_unlink w i then modify (λ s, set_files (delete path (n_files s)) s) else mret tt
      end;;
      ok ← (match l_name l with None => mret false | Some n => on_map (sm_remove n) end);
      (if (ok : bool) then modify (λ s, set_len (u64 (network_len s - 1)) s) else mret tt);;
      mret (0, Some name)
    end
  end.

(** ** Containers of a network *)
Record attach_net_conf := mk_attach { an_name : option cstr; an_interface : option string }.
Record network_api_conf := mk_api_conf { pod_id : cstr; extral_nets : list (option attach_net_conf) }.

Definition log_plane (x : plane) : NA unit := modify (λ s,
  mk_nstate (name_to_network s) (network_len s) (conf_path s) (bin_paths s) (n_heap s) (n_fresh s) (n_files s) (n_planes s ++ [x]) (n_tick s)).

(** The loop over the networks of a container; [annotations] says that they were
    not used yet. *)
Fixpoint foreach_loop (nets : list (option attach_net_conf)) (ignore_nofound : bool) (op : cni_op) (annotations : bool) : NA Z :=
  match nets with
  | [] => mret 0
  | None :: nets => foreach_loop nets ignore_nofound op annotations
  | Some an :: nets =>
    match an_name an, an_interface an with
    | Some name, Some interface =>
      network ← search_name (Some name);
      match network with
      | None => if ignore_nofound then foreach_loop nets ignore_nofound op annotations else mret (-1)
      | Some p =>
        _ ← network_at p;
        i ← tick;
        log_plane (mk_plane op name interface annotations);;
        if negb (w_plugin w i) then mret (-1) else
        if negb (w_result w i) then mret (-1) else
        foreach_loop nets ignore_nofound op false
      end
    | _, _ => foreach_loop nets ignore_nofound op annotations
    end
  end.

Definition do_foreach_network_op (conf : network_api_conf) (ignore_nofound : bool) (op : cni_op) : NA Z :=
  foreach_loop (extral_nets conf) ignore_nofound op true.

Definition set_containers (p : nat) (l : list cstr) : NA unit :=
  n ← network_at p; modify (λ s, set_networks (<[p := mk_native (conflist n) l]> (n_heap s)) s).

Definition do_add_container_list (network_name : option cstr) (cont_id : cstr) : NA Z :=
  network ← search_name network_name;
  match network with
  | None => mret (-1)
  | Some p =>
    i ← tick;
    if negb (w_mem w i 0%nat) then mret (-1) else
    n ← network_at p;
    set_containers p (containers_list n ++ [cont_id]);; mret 0
  end.

(** A [NULL] element of [extral_nets] is dereferenced. *)
Fixpoint add_loop (nets : list (option attach_net_conf)) (cont_id : cstr) : NA Z :=
  match nets with
  | [] => mret 0
  | None :: _ => fail
  | Some an :: nets => ret ← do_add_container_list (an_name an) cont_id; if decide (ret ≠ 0) then mret ret else add_loop nets cont_id
  end.

Definition native_attach_networks (conf : option network_api_conf) : NA Z :=
  match conf with
  | None => mret (-1)
  | Some conf =>
    locked ← native_store_lock;
    if negb locked then mret (-1) else
    s ← get;
    if decide (network_len s = 0) then mret 0 else
    i ← tick;
    if negb (w_loopback w i) then mret (-1) else
    ret ← do_foreach_network_op conf false attach_network_plane;
    if decide (ret ≠ 0) then mret ret else add_loop (extral_nets conf) (pod_id conf)
  end.

(** The list without the first occurrence of an identifier. *)
Fixpoint remove_first (cont_id : cstr) (l : list cstr) : list cstr :=
  match l with [] => [] | id :: l => if decide (id = cont_id) then l else id :: remove_first cont_id l end.

Definition do_remove_container_list (network_name : option cstr) (cont_id : cstr) : NA unit :=
  network ← search_name network_name;
  match network with None => mret tt | Some p => n ← network_at p; set_containers p (remove_first cont_id (containers_list n)) end.

Fixpoint remove_loop (nets : list (option attach_net_conf)) (cont_id : cstr) : NA unit :=
  match nets with
  | [] => mret tt
  | None :: _ => fail
  | Some an :: nets => do_remove_container_list (an_name an) cont_id;; remove_loop nets cont_id
  end.

Definition native_detach_networks (conf : option network_api_conf) : NA Z :=
  match conf with
  | None => mret (-1)
  | Some conf =>
    locked ← native_store_lock;
    if negb locked then mret (-1) else
    s ← get;
    ret ←
      (if decide (network_len s = 0) then mret (-1) else
       i ← tick;
       if negb (w_loopback w i) then mret (-1) else do_foreach_network_op conf true detach_network_plane);
    remove_loop (extral_nets conf) (pod_id conf);; mret ret
  end.

Definition native_network_exist (name : option cstr) : NA bool :=
  match name with
  | None => mret false
  | Some name => locked ← native_store_lock; if negb locked then mret false else p ← search_name (Some name); mret (bool_decide (is_Some p))
  end.

Definition native_network_add_container_list (network_name cont_id : option cstr) : NA Z :=
  match network_name, cont_id with
  | Some network_name, Some cont_id =>
    locked ← native_store_lock; if negb locked then mret (-1) else do_add_container_list (Some network_name) cont_id
  | _, _ => mret (-1)
  end.
End native.
