(* ===== verification/NativeCorrect.v ===== *)
(** * Correctness of native networks

    The store of [NativeNetwork] refines a finite map from names to networks:
    what creation, removal, connection and disconnection do to it, errors
    included.  Networks that are created have pairwise distinct names and
    bridges and disjoint subnets, and they are loaded again from their files
    after a restart of the daemon. *)
From stdpp Require Import base gmap list fin_maps numbers strings.
From Stdlib Require Import ZArith Lia Ascii.
From S2P Require Import Prelude CString Regex Array RbTree Map StrMap Convert StringUtil Verify Path SymlinkScope IpNet Ipv6 Subnet Filters CniConf NativeNetwork.

Local Open Scope Z_scope.

Definition no_network : native_network := mk_native (mk_list_conf None None) [].
Definition deref (h : gmap nat native_network) (p : nat) : native_network := default no_network (h !! p).

Definition empty_list : cni_net_conf_list := mk_conf_list None None [].
Definition list_of (n : native_network) : cni_net_conf_list := default empty_list (nl_list (conflist n)).

(** Every plugin of a configuration is there and has a type. *)
Definition typed_plugin (p : option cni_net_conf) : Prop := ∃ q t, p = Some q ∧ p_type q = Some t ∧ cstr_s t ≠ ""%string.
Definition typed (l : cni_net_conf_list) : Prop := Forall typed_plugin (l_plugins l).

(** A network stored under the name [k]. *)
Record named (k : cstr) (n : native_network) : Prop := {
  nm_list : nl_list (conflist n) = Some (list_of n);
  nm_name : l_name (list_of n) = Some k;
  nm_typed : typed (list_of n)
}.

(** ** What the callbacks collect *)
Definition names_of (l : cni_net_conf_list) : list string := option_list (cstr_s <$> l_name l).
Definition bridge_in (p : option cni_net_conf) : option string :=
  q ← p; if decide (p_type q = Some NETWOKR_DRIVER_BRIDGE) then cstr_s <$> p_bridge q else None.
Definition bridges_of (l : cni_net_conf_list) : list string := omap bridge_in (l_plugins l).
Definition subnets_of (l : cni_net_conf_list) : list string := omap plugin_subnet (l_plugins l).

Definition appends (cb : (nat → bool) → cni_net_conf_list → M (c_array string) Z) (f : cni_net_conf_list → list string) : Prop :=
  ∀ mem l a, typed l → wf_array a → wp (cb mem l) (λ r a', wf_array a' ∧ (r = 0 → used a' = used a ++ f l)) a.

Lemma append_then mem v a (k : Z → M (c_array string) Z) rest :
  wf_array a →
  (∀ a', wf_array a' → used a' = used a ++ [v] → wp (k 0) (λ r a'', wf_array a'' ∧ (r = 0 → used a'' = used a' ++ rest)) a') →
  (∀ a', wf_array a' → wp (k (-1)) (λ r a'', wf_array a'' ∧ r ≠ 0) a') →
  wp (util_append_string_array mem (Some v) ≫= k) (λ r a'', wf_array a'' ∧ (r = 0 → used a'' = used a ++ v :: rest)) a.
Proof.
  intros Ha H0 H1. apply wp_bind. eapply wp_mono; [by apply util_append_string_array_ok|]. cbn beta. intros r a' (Ha' & [[-> Hu]|[-> _]] & _).
  - eapply wp_mono; [by apply H0|]. cbn beta. intros r a'' [Hw Hr]. split; [done|]. intros ->. rewrite Hr, Hu by done. by rewrite <- app_assoc.
  - eapply wp_mono; [by apply H1|]. cbn beta. intros r a'' [Hw Hr]. done.
Qed.

Lemma net_name_appends : appends get_config_net_name names_of.
Proof.
  intros mem l a _ Ha. unfold get_config_net_name, names_of. destruct (l_name l) as [name|]; cbn [fmap option_fmap option_map option_list].
  - eapply wp_mono; [by apply util_append_string_array_ok|]. cbn beta. intros r a' (Ha' & [[-> Hu]|[-> _]] & _); done.
  - apply wp_ret. by rewrite app_nil_r.
Qed.

Lemma bridge_name_appends : appends get_config_bridge_name bridges_of.
Proof.
  intros mem l a Ht. unfold get_config_bridge_name, bridges_of. red in Ht. generalize 0%nat. revert a.
  induction Ht as [|p plugins (q & t & -> & Hq & _) Ht IH]; intros a i Ha; cbn [bridge_names omap list_omap bridge_in mbind option_bind].
  { apply wp_ret. by rewrite app_nil_r. }
  rewrite Hq. destruct (decide (t = NETWOKR_DRIVER_BRIDGE)) as [->|Hne].
  - rewrite decide_False by (intros []; done). rewrite (decide_True (P := Some _ = _)) by done. destruct (p_bridge q) as [b|]; cbn [fmap option_fmap option_map]; [|by apply IH].
    apply append_then; [done| |].
    + intros a' Ha' _. by apply IH.
    + intros a' Ha'. by apply wp_ret.
  - rewrite decide_True by done. rewrite decide_False by congruence. by apply IH.
Qed.

Lemma subnet_appends : appends get_config_subnet subnets_of.
Proof.
  intros mem l a _. unfold get_config_subnet, subnets_of. generalize 0%nat. revert a.
  induction (l_plugins l) as [|p plugins IH]; intros a i Ha; cbn [plugin_subnets omap list_omap]; [apply wp_ret; by rewrite app_nil_r|].
  destruct (plugin_subnet p) as [v|]; [|by apply IH]. apply append_then; [done| |].
  - intros a' Ha' _. by apply IH.
  - intros a' Ha'. by apply wp_ret.
Qed.

Lemma no_strings_ok : wf_array no_strings ∧ used no_strings = [].
Proof. split; [|done]. by split. Qed.

(** ** The host *)
Definition interfaces (ifs : list ifaddrs) : list string :=
  omap (λ ifa, match ifa_addr ifa with Some AF_PACKET => Some (cstr_s (ifa_name ifa)) | _ => None end) ifs.
Definition host_texts (ifs : list ifaddrs) : list string :=
  omap (λ ifa, match ifa_addr ifa with Some (AF_INET a) => Some (inet_ntop4 a) | Some (AF_INET6 a) => Some (inet_ntop6 a) | _ => None end) ifs.

Lemma interface_loop_ok mem i ifs a :
  wf_array a → wp (interface_loop mem i ifs) (λ r a', wf_array a' ∧ (r = 0 → used a' = used a ++ interfaces ifs)) a.
Proof.
  revert i a. induction ifs as [|ifa ifs IH]; intros i a Ha; unfold interfaces in *; cbn [interface_loop omap list_omap]; [apply wp_ret; by rewrite app_nil_r|].
  destruct (ifa_addr ifa) as [[]|]; try by apply IH. apply append_then; [done| |].
  - intros a' Ha' _. by apply IH.
  - intros a' Ha'. by apply wp_ret.
Qed.

Lemma host_ip_loop_ok mem i ifs a :
  wf_array a → wp (host_ip_loop mem i ifs) (λ r a', wf_array a' ∧ (r = 0 → used a' = used a ++ host_texts ifs)) a.
Proof.
  revert i a. induction ifs as [|ifa ifs IH]; intros i a Ha; unfold host_texts in *; cbn [host_ip_loop omap list_omap]; [apply wp_ret; by rewrite app_nil_r|].
  destruct (match ifa_addr ifa with Some (AF_INET x) => _ | _ => _ end); [|by apply IH]. apply append_then; [done| |].
  - intros a' Ha' _. by apply IH.
  - intros a' Ha'. by apply wp_ret.
Qed.

Lemma fill_ok ok loop l :
  (∀ a, wf_array a → wp loop (λ r a', wf_array a' ∧ (r = 0 → used a' = used a ++ l)) a) →
  ∃ r, fill ok loop = Some r ∧ ∀ a, r = Some a → wf_array a ∧ used a = l.
Proof.
  intros Hl. destruct no_strings_ok as [Hw Hu]. specialize (Hl _ Hw). unfold fill, wp in *. destruct (util_common_calloc_s _ _); cbn [negb]; [|by eexists].
  destruct (loop no_strings) as [[r a]|]; [|done]. destruct Hl as [Hw' Hr]. eexists. split; [done|]. intros a' E.
  destruct (decide (r ≠ 0)) as [|Hz%dec_stable]; [done|]. injection E as <-. by rewrite (Hr Hz), Hu.
Qed.

Lemma contain_used a x : util_string_array_contain (Some a) (Some x) = bool_decide (x ∈ used a).
Proof.
  unfold util_string_array_contain, used. apply bool_decide_ext. rewrite list_elem_of_omap. split; [by intros; exists (Some x)|]. by intros (? & ? & <-).
Qed.

(** ** Names of bridges *)
Definition bridge_text (i : nat) : string := match util_int_to_string (Z.of_nat i) with Some num => (bridge_name_prefix ++ num)%string | None => "" end.

Definition bridge_text_check (i : nat) : bool :=
  match util_int_to_string (Z.of_nat i) with
  | Some num =>
    bool_decide (util_string_append true (Some num) (Some bridge_name_prefix) = Some (Some (bridge_text i)))
    && bool_decide (util_string_append false (Some num) (Some bridge_name_prefix) = Some None)
    && nul_free (bridge_text i) && util_validate_network_name (Some (bridge_text i))
  | None => false
  end.

Lemma bridge_texts : forallb bridge_text_check (seq 0 MAX_BRIDGE_ID) = true.
Proof. by vm_compute. Qed.

Lemma bridge_text_ok i :
  (i < MAX_BRIDGE_ID)%nat →
  (∃ num, util_int_to_string (Z.of_nat i) = Some num ∧
     ∀ mem, util_string_append mem (Some num) (Some bridge_name_prefix) = Some (if mem : bool then Some (bridge_text i) else None)) ∧
  nul_free (bridge_text i) = true ∧ util_validate_network_name (Some (bridge_text i)) = true.
Proof.
  intros Hi. pose proof bridge_texts as H. rewrite forallb_forall in H. specialize (H i). unfold bridge_text_check in H.
  rewrite <- list_elem_of_In, elem_of_seq in H. specialize (H ltac:(lia)). destruct (util_int_to_string (Z.of_nat i)) as [num|]; [|done].
  apply andb_true_iff in H as [[[H1%bool_decide_eq_true H2%bool_decide_eq_true]%andb_true_iff H3]%andb_true_iff H4].
  split; [|done]. exists num. split; [done|]. by intros [].
Qed.

Lemma bridge_loop_ok mem taken fuel i :
  (i + fuel ≤ MAX_BRIDGE_ID)%nat →
  ∃ r, bridge_loop mem fuel i taken = Some r ∧
    match r with
    | Some name => ∃ j, (i ≤ j < i + fuel)%nat ∧ name = bridge_text j ∧ taken name = false
    | None => (∀ j, mem j = true) → ∀ j, (i ≤ j < i + fuel)%nat → taken (bridge_text j) = true
    end.
Proof.
  revert i. induction fuel as [|fuel IH]; intros i Hi; cbn [bridge_loop]; [exists None; split; [done|lia]|].
  destruct (bridge_text_ok i) as ((num & -> & Happ) & _); [lia|]. rewrite Happ. cbn [mbind option_bind].
  destruct (mem i) eqn:Em; [|exists None; split; [done|]; intros Hm; by rewrite Hm in Em].
  destruct (taken (bridge_text i)) eqn:Et; [|exists (Some (bridge_text i)); split; [done|]; exists i; split_and!; [lia|lia|done|done]].
  destruct (IH (S i)) as (r & Hr & Hc); [lia|]. exists r. split; [done|]. destruct r as [name|].
  - destruct Hc as (j & Hj & Hn). exists j. split; [lia|done].
  - intros Hm j Hj. destruct (decide (j = i)) as [->|]; [done|]. apply Hc; [done|lia].
Qed.

Section proofs.
Context {NT : Type} {NM : StrMap nat NT} (list_generate : cni_net_conf_list → option string) (w : world).
Context (cwd : list chars) (Hcwd : Forall comp_ok cwd) (Hwd : w_cwd w = Some (to_str (render cwd))).
Implicit Types (s : nstate NT) (G : gmap cstr native_network) (g : gmap cstr nat).

(** States that differ in the number of uses of the world only. *)
Definition core s : nstate NT :=
  mk_nstate (name_to_network s) (network_len s) (conf_path s) (bin_paths s) (n_heap s) (n_fresh s) (n_files s) (n_planes s) 0.
Definition same s s' : Prop := core s = core s'.

Lemma same_refl s : same s s.
Proof. done. Qed.
Lemma same_trans s1 s2 s3 : same s1 s2 → same s2 s3 → same s1 s3.
Proof. unfold same. congruence. Qed.

(** The store holds the networks [G]; the map [m] models the pointers [g]. *)
Record stored s G m g : Prop := {
  st_map : name_to_network s = Some m;
  st_models : sm_models m g;
  st_val : G = deref (n_heap s) <$> g;
  st_live : ∀ k p, g !! k = Some p → is_Some (n_heap s !! p);
  st_inj : ∀ k k' p, g !! k = Some p → g !! k' = Some p → k = k';
  st_fresh : ∀ p, is_Some (n_heap s !! p) → (p < n_fresh s)%nat;
  st_used : ∀ p, is_Some (n_heap s !! p) → ∃ k, g !! k = Some p;
  st_named : map_Forall named G;
  st_len : network_len s = Z.of_nat (size G)
}.
Definition holds s G : Prop := ∃ m g, stored s G m g.

Lemma holds_empty s m : name_to_network s = Some m → sm_models m ∅ → network_len s = 0 → n_heap s = ∅ → holds s ∅.
Proof.
  intros Hm Hmod Hl Hh. exists m, ∅. split; rewrite ?Hh; try done; by intros ? []%lookup_empty_is_Some.
Qed.

Lemma stored_same s s' G m g : same s s' → stored s G m g → stored s' G m g.
Proof. unfold same, core. destruct s, s'. cbn. intros [= -> -> -> -> -> -> -> ->] []. by split. Qed.

Lemma holds_same s s' G : same s s' → holds s G → holds s' G.
Proof. intros Hs (m & g & H). exists m, g. by eapply stored_same. Qed.

(** ** Steps that only use the world *)
Lemma wp_tick (Q : nat → nstate NT → Prop) s : (∀ i s', same s s' → Q i s') → wp tick Q s.
Proof. intros HQ. unfold wp, tick. by apply HQ. Qed.

Lemma wp_store_lock (Q : bool → nstate NT → Prop) s : (∀ b s', same s s' → Q b s') → wp (native_store_lock w) Q s.
Proof. intros HQ. apply wp_bind, wp_tick. intros i s' Hs. apply wp_ret, HQ, Hs. Qed.

Lemma wp_store_lock' (Q : bool → nstate NT → Prop) s : (∀ b s', same s s' → ((∀ i, w_lock w i = true) → b = true) → Q b s') → wp (native_store_lock w) Q s.
Proof. intros HQ. apply wp_bind, wp_tick. intros i s' Hs. apply wp_ret, HQ; auto. Qed.

(** A computation that leaves the store alone and whose result has [R]. *)
Definition reads {A} (f : M (nstate NT) A) s (R : A → Prop) : Prop := wp f (λ a s', same s s' ∧ R a) s.

Lemma reads_bind {A B} (f : M (nstate NT) A) (k : A → M (nstate NT) B) s R R' :
  reads f s R → (∀ a s', same s s' → R a → reads (k a) s' R') → reads (f ≫= k) s R'.
Proof.
  intros Hf Hk. apply wp_bind. eapply wp_mono; [exact Hf|]. cbn beta. intros a s' [Hs Ha].
  eapply wp_mono; [by apply Hk|]. cbn beta. intros b s'' [Hs' Hb]. split; [by eapply same_trans|done].
Qed.

Lemma reads_ret {A} (a : A) s (R : A → Prop) : R a → reads (mret a) s R.
Proof. intros HR. by apply wp_ret. Qed.

Lemma reads_tick s (R : nat → Prop) : (∀ i, R i) → reads tick s R.
Proof. intros HR. by apply wp_tick. Qed.

Lemma reads_get s : reads get s (λ x, x = s).
Proof. by apply wp_get. Qed.

Lemma reads_lock s : reads (native_store_lock w) s (λ _, True).
Proof. by apply wp_store_lock. Qed.

Lemma reads_mono {A} (f : M (nstate NT) A) s (R R' : A → Prop) : reads f s R → (∀ a, R a → R' a) → reads f s R'.
Proof. intros Hf HR. eapply wp_mono; [exact Hf|]. cbn beta. naive_solver. Qed.

(** ** Reading the map *)
Section read.
Context s G m g (Hst : stored s G m g).

Lemma deref_at k p : g !! k = Some p → n_heap s !! p = Some (deref (n_heap s) p) ∧ G !! k = Some (deref (n_heap s) p).
Proof.
  intros Hk. destruct (st_live _ _ _ _ Hst k p Hk) as [n Hn]. unfold deref at 1. rewrite Hn. split; [done|].
  rewrite (st_val _ _ _ _ Hst), lookup_fmap, Hk. done.
Qed.

Lemma lookup_ptr k n : G !! k = Some n → ∃ p, g !! k = Some p ∧ n_heap s !! p = Some n.
Proof.
  intros Hk. rewrite (st_val _ _ _ _ Hst), lookup_fmap in Hk. destruct (g !! k) as [p|] eqn:E; [|done]. injection Hk as <-.
  exists p. split; [done|]. by destruct (deref_at k p E).
Qed.

Lemma list_at_ok k p : g !! k = Some p → reads (list_at p) s (λ l, l = list_of (deref (n_heap s) p)).
Proof.
  intros Hk. destruct (deref_at k p Hk) as [Hp HG]. pose proof (st_named _ _ _ _ Hst k _ HG) as [Hl _ _].
  unfold reads, wp, list_at, mbind, M_bind, network_at. by rewrite Hp, Hl.
Qed.

Lemma on_map_read {A} (f : M NT A) (R : A → Prop) : wp f (λ a m', m' = m ∧ R a) m → reads (on_map f) s R.
Proof.
  unfold reads, wp, on_map. rewrite (st_map _ _ _ _ Hst). destruct (f m) as [[a m']|]; [|done]. intros [-> HR].
  rewrite drop_all. pose proof (st_map _ _ _ _ Hst) as Hm. destruct s. cbn in *. subst. done.
Qed.

Lemma search_name_ok name : reads (search_name name) s (λ r, r = name ≫= λ k, g !! k).
Proof.
  destruct name as [k|]; cbn [search_name]; [|by apply reads_ret]. apply on_map_read. apply sm_search_ok, (st_models _ _ _ _ Hst).
Qed.

Lemma all_networks_ok mem : reads (all_networks mem) s (λ r, if mem then ∃ ps, r = Some ps ∧ ps ≡ₚ (map_to_list g).*2 else r = None).
Proof.
  unfold all_networks. eapply reads_bind; [apply on_map_read, sm_pairs_ok, (st_models _ _ _ _ Hst)|].
  intros l s' _ Hl. apply reads_ret. destruct mem; [|by subst]. destruct Hl as (e & -> & He). exists e.*2. split; [done|]. by rewrite He.
Qed.

Lemma size_ptrs : size G = size g.
Proof. rewrite (st_val _ _ _ _ Hst). apply map_size_fmap. Qed.

Lemma ptr_named p : p ∈ (map_to_list g).*2 → ∃ k, g !! k = Some p.
Proof. intros ([k q] & -> & Hk%elem_of_map_to_list)%list_elem_of_fmap. by exists k. Qed.
End read.

(** ** Collecting values of all configurations *)
Definition in_store G (f : cni_net_conf_list → list string) (x : string) : Prop := ∃ k n, G !! k = Some n ∧ x ∈ f (list_of n).

Lemma same_heap s s' : same s s' → n_heap s' = n_heap s.
Proof. unfold same, core. by intros [=]. Qed.

Lemma config_loop_ok cb f s G m g ps a :
  stored s G m g → appends cb f → wf_array a → Forall (λ p, ∃ k, g !! k = Some p) ps →
  reads (config_loop w cb ps a) s (λ r, wf_array r.2 ∧ (r.1 = 0 → used r.2 = used a ++ (ps ≫= λ p, f (list_of (deref (n_heap s) p))))).
Proof.
  intros Hst Hcb Ha Hps. revert s a Hst Ha. induction Hps as [|p ps (k & Hk) Hps IH]; intros s a Hst Ha; cbn [config_loop].
  { apply reads_ret. by rewrite app_nil_r. }
  eapply reads_bind; [by eapply list_at_ok|]. intros l s1 Hs1 ->. eapply reads_bind; [by apply (reads_tick _ (λ _, True))|]. intros i s2 Hs2 _.
  pose proof (same_trans _ _ _ Hs1 Hs2) as Hs. pose proof (stored_same _ _ _ _ _ Hs Hst) as Hst2.
  destruct (deref_at _ _ _ _ Hst k p Hk) as [_ HG]. pose proof (st_named _ _ _ _ Hst k _ HG) as [_ _ Ht].
  specialize (Hcb (w_mem w i) _ a Ht Ha). unfold wp in Hcb. destruct (cb (w_mem w i) (list_of (deref (n_heap s) p)) a) as [[ret a']|]; [|done].
  destruct Hcb as [Ha' Hu]. destruct (decide (ret ≠ 0)) as [Hr|Hr]; [by apply reads_ret|]. apply dec_stable in Hr. specialize (Hu Hr).
  eapply reads_mono; [by apply IH|]. cbn beta. intros [r a''] [Hw Hr']. split; [done|]. intros E. rewrite (Hr' E), Hu, (same_heap _ _ Hs), <- app_assoc.
  done.
Qed.

Lemma get_cni_config_ok cb f s G :
  holds s G → appends cb f →
  reads (get_cni_config w cb) s (λ r, ∀ a, r = Some a → wf_array a ∧ ∀ x, x ∈ used a ↔ in_store G f x).
Proof.
  intros (m & g & Hst) Hcb. unfold get_cni_config. eapply reads_bind; [apply reads_lock|]. intros b s1 Hs1 _.
  destruct b; cbn [negb]; [|by apply reads_ret]. eapply reads_bind; [by apply (reads_tick _ (λ _, True))|]. intros i s2 Hs2 _.
  pose proof (stored_same _ _ _ _ _ (same_trans _ _ _ Hs1 Hs2) Hst) as Hst2. destruct no_strings_ok as [Hw0 Hu0].
  destruct (util_common_calloc_s _ _); cbn [negb]; [|by apply reads_ret]. eapply reads_bind; [by apply reads_get|]. intros ? s4 Hs4 ->.
  destruct (decide (network_len s2 = 0)) as [E|E].
  - apply reads_ret. intros a [= <-]. split; [done|]. rewrite (st_len _ _ _ _ Hst2) in E. intros x. rewrite Hu0.
    assert (G = ∅) as -> by (apply map_size_empty_iff; lia). split; [by intros ?%elem_of_nil|]. intros (k & n & Hk & _). by rewrite lookup_empty in Hk.
  - pose proof (stored_same _ _ _ _ _ Hs4 Hst2) as Hst4. eapply reads_bind; [by eapply all_networks_ok|]. intros ps s5 Hs5 Hps.
    destruct (w_mem w i 1%nat); [destruct Hps as (ps' & -> & Hps)|subst; by apply reads_ret].
    pose proof (stored_same _ _ _ _ _ Hs5 Hst4) as Hst5.
    eapply reads_bind; [eapply config_loop_ok; [done|done|done|]|].
    { apply list.Forall_forall. intros p Hp. eapply ptr_named. by rewrite <- Hps. }
    intros [r a] s6 _ [Hw Hr]. cbn [fst snd] in *. destruct (decide (r ≠ 0)) as [Hne|Hne]; apply reads_ret; [done|]. apply dec_stable in Hne.
    intros a' [= <-]. split; [done|]. intros x. rewrite (Hr Hne), Hu0, app_nil_l, list_elem_of_bind. unfold in_store. split.
    + intros (p & Hx & Hp). rewrite Hps in Hp. apply ptr_named in Hp as [k Hk]. exists k, (deref (n_heap s5) p).
      split; [by destruct (deref_at _ _ _ _ Hst5 k p Hk)|done].
    + intros (k & n & Hk & Hx). destruct (lookup_ptr _ _ _ _ Hst5 k n Hk) as (p & Hp & Hh). exists p. unfold deref. rewrite Hh. split; [done|].
      rewrite Hps. apply list_elem_of_fmap. exists (k, p). split; [done|]. by apply elem_of_map_to_list.
Qed.

(** ** What is chosen for a new network *)
Definition fresh_name G (name : string) : Prop := ¬ in_store G names_of name.
Definition fresh_bridge G (name : string) : Prop :=
  (∃ j, (j < MAX_BRIDGE_ID)%nat ∧ name = bridge_text j) ∧ ¬ in_store G names_of name ∧ ¬ in_store G bridges_of name ∧
  ∃ i ifs, w_ifaddrs w i = Some ifs ∧ name ∉ interfaces ifs.

(** No subnet of a configuration has an address in common with the network. *)
Definition unused_in G (net : ipnet) : Prop :=
  ∀ x n, in_store G subnets_of x → util_parse_ipnet_from_str true (Some x) = Some n → ¬ meet n net.
Definition off_hosts (net : ipnet) : Prop := ∃ i ifs, w_ifaddrs w i = Some ifs ∧ off_host (host_texts ifs) net.

Lemma reads_interfaces s : reads (get_interface_name w) s (λ r, ∀ a, r = Some a → ∃ i ifs, w_ifaddrs w i = Some ifs ∧ used a = interfaces ifs).
Proof.
  unfold get_interface_name. eapply reads_bind; [by apply (reads_tick _ (λ _, True))|]. intros i s' _ _.
  destruct (w_ifaddrs w i) as [ifs|] eqn:E; [|by apply reads_ret].
  destruct (fill_ok (w_mem w i 0%nat) (interface_loop (λ j, w_mem w i (S j)) 0 ifs) (interfaces ifs)) as (r & -> & Hr); [intros; by apply interface_loop_ok|].
  apply reads_ret. intros a ->. exists i, ifs. split; [done|]. by apply Hr.
Qed.

Lemma reads_hosts s : reads (get_host_net_ip w) s (λ r, ∀ a, r = Some a → ∃ i ifs, w_ifaddrs w i = Some ifs ∧ used a = host_texts ifs).
Proof.
  unfold get_host_net_ip. eapply reads_bind; [by apply (reads_tick _ (λ _, True))|]. intros i s' _ _.
  destruct (w_ifaddrs w i) as [ifs|] eqn:E; [|by apply reads_ret].
  destruct (fill_ok (w_mem w i 0%nat) (host_ip_loop (λ j, w_mem w i (S j)) 0 ifs) (host_texts ifs)) as (r & -> & Hr); [intros; by apply host_ip_loop_ok|].
  apply reads_ret. intros a ->. exists i, ifs. split; [done|]. by apply Hr.
Qed.

Lemma find_bridge_name_ok s G : holds s G → reads (find_bridge_name w) s (λ r, ∀ name, r = Some name → fresh_bridge G name).
Proof.
  intros HG. unfold find_bridge_name. eapply reads_bind; [eapply get_cni_config_ok; [done|apply net_name_appends]|]. intros [names|] s1 Hs1 H1; [|by apply reads_ret].
  destruct (H1 _ eq_refl) as [_ N1]. eapply reads_bind; [eapply get_cni_config_ok; [by eapply holds_same|apply bridge_name_appends]|].
  intros [bridges|] s2 Hs2 H2; [|by apply reads_ret]. destruct (H2 _ eq_refl) as [_ N2]. eapply reads_bind; [apply reads_interfaces|].
  intros [ifaces|] s3 Hs3 H3; [|by apply reads_ret]. destruct (H3 _ eq_refl) as (i & ifs & Hi & Hu).
  eapply reads_bind; [by apply (reads_tick _ (λ _, True))|]. intros j s4 Hs4 _.
  match goal with |- context [bridge_loop ?m ?n 0 ?t] => destruct (bridge_loop_ok m t n 0) as (r & Hr & Hc); [done|]; rewrite Hr end.
  apply reads_ret. intros name ->. destruct Hc as (k & Hk & -> & Ht). rewrite !contain_used in Ht.
  apply orb_false_iff in Ht as [[T1%bool_decide_eq_false T2%bool_decide_eq_false]%orb_false_iff T3%bool_decide_eq_false].
  rewrite N1 in T1. rewrite N2 in T2. rewrite Hu in T3.
  split; [exists k; split; [lia|done]|]. split; [done|]. split; [done|]. by exists i, ifs.
Qed.

(** The memory of the check and of the search for a subnet suffices. *)
Definition memory : Prop := ∀ i j k l, w_mem3 w i j k l = true.

(** A subnet that a new network may have. *)
Definition fresh_subnet G (x : string) : Prop := ∃ net, util_parse_ipnet_from_str true (Some x) = Some net ∧ unused_in G net ∧ off_hosts net.

Lemma unused_used G a net : (∀ x, x ∈ used a ↔ in_store G subnets_of x) → unused (used a) net → unused_in G net.
Proof. intros Hx Hu x n Hin. by apply Hu, Hx. Qed.

Lemma check_subnet_ok s G subnet : memory → holds s G → reads (check_subnet w subnet) s (λ r, r = 0 → fresh_subnet G subnet).
Proof.
  intros Hm HG. unfold check_subnet. eapply reads_bind; [eapply get_cni_config_ok; [done|apply subnet_appends]|].
  intros [subs|] s1 Hs1 H1; [|by apply reads_ret]. destruct (H1 _ eq_refl) as [_ N1]. eapply reads_bind; [apply reads_hosts|].
  intros [hosts|] s2 Hs2 H2; [|by apply reads_ret]. destruct (H2 _ eq_refl) as (i & ifs & Hi & Hu).
  eapply reads_bind; [by apply (reads_tick _ (λ _, True))|]. intros j s3 _ _. apply reads_ret.
  destruct (util_parse_ipnet_from_str true (Some subnet)) as [net|] eqn:E.
  - destruct (check_ok (w_mem3 w j 0%nat) subnet net (used subs) (used hosts)) as [[-> [Hun Hoff]]|[-> _]]; [done|done| |done].
    intros _. exists net. split; [done|]. split; [by eapply unused_used|]. exists i, ifs. by rewrite <- Hu.
  - unfold check_subnet_available. by rewrite Hm, E.
Qed.

Lemma check_bridge_ok s G request :
  memory → holds s G →
  reads (check_bridge w request) s (λ r, r = 0 → (∀ name, rq_name request = Some name → fresh_name G (cstr_s name)) ∧
    ∀ subnet, rq_subnet request = Some subnet → fresh_subnet G subnet).
Proof.
  intros Hm HG. unfold check_bridge. eapply (reads_bind _ _ _ (λ r, r = 0 → ∀ name, rq_name request = Some name → fresh_name G (cstr_s name))).
  - destruct (rq_name request) as [name|]; [|by apply reads_ret]. eapply reads_bind; [eapply get_cni_config_ok; [done|apply net_name_appends]|].
    intros [names|] s1 Hs1 H1; apply reads_ret; [|done]. destruct (H1 _ eq_refl) as [_ N1]. rewrite contain_used.
    destruct (bool_decide _) eqn:E; [done|]. apply bool_decide_eq_false in E. intros _ name' [= <-]. by rewrite N1 in E.
  - intros r s1 Hs1 Hr. destruct (decide (r ≠ 0)) as [Hne|Hz%dec_stable]; [by apply reads_ret|].
    destruct (rq_subnet request) as [subnet|]; [|apply reads_ret; intros _; split; [by apply Hr|done]]. eapply reads_mono; [apply check_subnet_ok; [done|by eapply holds_same]|].
    cbn beta. intros r' Hr' ->. split; [by apply Hr|]. intros subnet' [= <-]. by apply Hr'.
Qed.

Lemma find_subnet_ok s G : memory → holds s G → reads (find_subnet w) s (λ r, ∀ x, r = Some x → fresh_subnet G x).
Proof.
  intros Hm HG. unfold find_subnet. eapply reads_bind; [eapply get_cni_config_ok; [done|apply subnet_appends]|].
  intros [subs|] s1 Hs1 H1; [|by apply reads_ret]. destruct (H1 _ eq_refl) as [_ N1]. eapply reads_bind; [apply reads_hosts|].
  intros [hosts|] s2 Hs2 H2; [|by apply reads_ret]. destruct (H2 _ eq_refl) as (i & ifs & Hi & Hu).
  eapply reads_bind; [by apply (reads_tick _ (λ _, True))|]. intros j s3 _ _.
  destruct (find_subnet_loop_ok (w_mem3 w j) (Hm j) (used subs) (used hosts) SUBNET_FUEL 0 0) as (r & Hr & Hf); [done|unfold SUBNET_FUEL; rewrite Z2Nat.id; done|].
  change (next_cand 0) with (@None string) in Hr. rewrite Hr. apply reads_ret. intros x ->. destruct Hf as (k & Hk & -> & [Hun Hoff] & _).
  exists (cand k). split; [by apply cand_text_ok|]. split; [by eapply unused_used|]. exists i, ifs. by rewrite <- Hu.
Qed.

(** The subnet of the request, reduced by its mask, has an unambiguous text. *)
Definition readable_request (request : network_create_request) : Prop :=
  ∀ subnet net, rq_subnet request = Some subnet → util_parse_ipnet_from_str true (Some subnet) = Some net → readable (first_ip net).

Lemma ipam_subnet_ok s G request :
  memory → holds s G → (∀ subnet, rq_subnet request = Some subnet → fresh_subnet G subnet) →
  reads (ipam_subnet w request) s (λ r, ∀ x, r = Some x → readable_request request → fresh_subnet G x).
Proof.
  intros Hm HG Hf. unfold ipam_subnet. destruct (rq_subnet request) as [subnet|] eqn:Er.
  2:{ eapply reads_mono; [by apply find_subnet_ok|]. cbn beta. by auto. }
  eapply reads_bind; [by apply (reads_tick _ (λ _, True))|]. intros i s1 _ _. destruct (Hf _ eq_refl) as (net & Hp & Hun & Hoff).
  destruct (util_parse_ipnet_from_str (w_mem w i 0%nat) (Some subnet)) as [net'|] eqn:E; [|by apply reads_ret].
  pose proof E as (Hmem & Hl & k & Hn)%parsed_net. rewrite Hmem, Hp in E. injection E as <-.
  destruct (util_reduce_ip_by_mask net) as [red|] eqn:Ered; [|by apply reads_ret]. destruct (reduce_ok net k red Hn Ered) as (Hc & Hlr & Hfirst & Hsame).
  destruct (ipnet_print_defined (w_mem w i 1%nat) red) as [r Hr]; [apply Hc|by rewrite Hlr|]. rewrite Hr. apply reads_ret. intros x -> Hread.
  specialize (Hread subnet net Er Hp). pose proof (ipnet_print_memory _ _ _ Hr) as Hm1.
  rewrite Hm1 in Hr. rewrite <- Hfirst in Hread. destruct (readable_text _ (cidr_bytes _ _ Hc) Hread) as (t & Ht & Ht2 & Ht3 & Ht4).
  destruct (ipnet_string red k t) as (x' & Hx' & Hpx); [done|done|done|by apply get_mask_ok| |done|done|].
  { destruct Hc as [_ Hk _]. rewrite Hlr in Hk. destruct Hl as [El|El]; rewrite El in Hk; unfold IPV4LEN, IPV6LEN in Hk; lia. }
  rewrite Hx' in Hr. injection Hr as <-. exists red. split; [done|]. split.
  - intros y n Hy Hyn Hmeet. apply (Hun y n Hy Hyn). by rewrite <- (meet_ext n red net (Hsame true)).
  - destruct Hoff as (j & ifs & Hj & Hoff). exists j, ifs. split; [done|]. intros h a Hh Ha Hin. apply (Hoff h a Hh Ha). by apply Hsame.
Qed.

(** ** The configuration of a new network *)
Definition bridge_conf G request (p : cni_net_conf) : Prop :=
  p_type p = Some NETWOKR_DRIVER_BRIDGE ∧ ∃ b x, p_bridge p = Some (cstr_of b) ∧ fresh_bridge G b ∧
    plugin_subnet (Some p) = Some x ∧ (readable_request request → fresh_subnet G x).

(** A plugin without a bridge or a subnet. *)
Definition quiet (p : cni_net_conf) : Prop := typed_plugin (Some p) ∧ bridge_in (Some p) = None ∧ plugin_subnet (Some p) = None.

Definition free_request G (request : network_create_request) : Prop :=
  (∀ name, rq_name request = Some name → fresh_name G (cstr_s name)) ∧ ∀ subnet, rq_subnet request = Some subnet → fresh_subnet G subnet.

Section conf.
Context (G : gmap cstr native_network) (request : network_create_request) (Hm : memory) (Hreq : free_request G request).

Lemma ipam_ok s :
  holds s G →
  reads (conf_bridge_plugin_ipam w request) s (λ r, ∀ ipam, r = Some ipam →
    ∃ x gw, ipam_ranges ipam = [Some [Some (mk_range (Some x) (Some gw))]] ∧ (readable_request request → fresh_subnet G x)).
Proof.
  intros HG. unfold conf_bridge_plugin_ipam. eapply reads_bind; [by apply (reads_tick _ (λ _, True))|]. intros i s1 Hs1 _.
  destruct (forallb _ _); cbn [negb]; [|by apply reads_ret]. eapply reads_bind; [apply (ipam_subnet_ok s1 G); [done|by eapply holds_same|apply Hreq]|].
  intros [x|] s2 Hs2 Hx; [|by apply reads_ret]. eapply (reads_bind _ _ _ (λ _, True)).
  { destruct (rq_gateway request); [by apply reads_ret|]. eapply reads_bind; [by apply (reads_tick _ (λ _, True))|]. intros j s3 _ _.
    destruct (find_gateway_defined (w_mem w j) x) as [r ->]. by apply reads_ret. }
  intros [gw|] s3 _ _; apply reads_ret; [|done]. intros ipam [= <-]. exists x, gw. split; [done|]. by apply Hx.
Qed.

Lemma bridge_plugin_ok s : holds s G → reads (conf_bridge_plugin w request) s (λ r, ∀ p, r = Some p → bridge_conf G request p).
Proof.
  intros HG. unfold conf_bridge_plugin. eapply reads_bind; [by apply (reads_tick _ (λ _, True))|]. intros i s1 Hs1 _.
  destruct (w_mem w i 0%nat); cbn [negb]; [|by apply reads_ret]. eapply reads_bind; [apply (find_bridge_name_ok s1 G); by eapply holds_same|].
  intros [b|] s2 Hs2 Hb; [|by apply reads_ret]. eapply reads_bind; [apply (ipam_ok s2); eapply holds_same; [|done]; by eapply same_trans|].
  intros [ipam|] s3 _ Hi; apply reads_ret; [|done]. intros p [= <-]. destruct (Hi _ eq_refl) as (x & gw & Er & Hx). split; [done|].
  exists b, x. split; [done|]. split; [by apply Hb|]. split; [cbn; by rewrite Er|done].
Qed.

Lemma quiet_plugins_ok s :
  reads (conf_portmap_plugin w request) s (λ r, ∀ p, r = Some p → quiet p) ∧
  reads (conf_firewall_plugin w request) s (λ r, ∀ p, r = Some p → quiet p) ∧
  reads (conf_dnsname_plugin w request) s (λ r, ∀ p, r = Some p → quiet p).
Proof.
  unfold conf_portmap_plugin, conf_firewall_plugin, conf_dnsname_plugin.
  split_and!; (eapply reads_bind; [by apply (reads_tick _ (λ _, True))|]; intros i s1 _ _;
    match goal with |- context [negb ?b] => destruct b; cbn [negb] end; apply reads_ret; [|done];
    intros p [= <-]; split; [by eexists _, _|done]).
Qed.

Lemma bin_detect_ok s cni : nul_free cni = true → reads (cni_bin_detect w cni) s (λ _, True).
Proof.
  intros Hc. unfold cni_bin_detect. eapply reads_bind; [apply reads_get|]. intros ? s1 _ ->. generalize (bin_paths s). intros paths. revert s1.
  induction paths as [|p paths IH]; intros s1; cbn [bin_loop]; [by apply reads_ret|].
  assert (∃ r, util_path_join (w_cwd w) (Some (cstr_s p)) (Some cni) = Some r) as [r ->].
  { unfold util_path_join. case_decide; [by eexists|]. rewrite Hwd. apply clean_defined; [done| |done]. apply nul_free_to_str, Forall_app.
    split; [apply no_nul_chars, cstr_ok|]. constructor; [done|]. by apply no_nul_chars. }
  destruct r as [path|]; [|by apply reads_ret]. eapply reads_bind; [by apply (reads_tick _ (λ _, True))|]. intros i s2 _ _.
  destruct (w_exists w i path); [by apply reads_ret|apply IH].
Qed.

(** One round of the loop over the plugins. *)
Lemma plugins_step name op ops i plugins len missing s (R : cni_net_conf → Prop) Q :
  holds s G → wf_array missing → nul_free name = true →
  (∀ s', holds s' G → reads (op request) s' (λ r, ∀ p, r = Some p → R p)) → Q None →
  (∀ s' p missing', holds s' G → wf_array missing' → R p → reads (plugins_loop w ops request (S i) (<[i := Some p]> plugins) (S len) missing') s' Q) →
  (name = "dnsname"%string → ∀ s', holds s' G → reads (plugins_loop w ops request (S i) plugins len missing) s' Q) →
  reads (plugins_loop w ((name, op) :: ops) request i plugins len missing) s Q.
Proof.
  intros HG Hmi Hn Hop HQ Hnext Hskip. cbn [plugins_loop]. eapply reads_bind; [by apply bin_detect_ok|]. intros found s1 Hs1 _.
  pose proof (holds_same _ _ _ Hs1 HG) as HG1.
  assert (Hadd : ∀ s' missing', holds s' G → wf_array missing' → reads (op request ≫= λ plugin, match plugin with
    | None => mret None | Some plugin => plugins_loop w ops request (S i) (<[i := Some plugin]> plugins) (S len) missing' end) s' Q).
  { intros s' missing' HG' Hmi'. eapply reads_bind; [by apply Hop|]. intros [p|] s'' Hs'' Hp; [|by apply reads_ret].
    apply Hnext; [by eapply holds_same|done|by apply Hp]. }
  destruct found; [by apply Hadd|]. destruct (decide (name = "dnsname"%string)); [by apply Hskip|].
  eapply reads_bind; [by apply (reads_tick _ (λ _, True))|]. intros j s2 Hs2 _. pose proof (holds_same _ _ _ Hs2 HG1) as HG2.
  pose proof (util_append_string_array_ok (w_mem w j 0%nat) name missing Hmi) as Happ. unfold wp in Happ.
  destruct (util_append_string_array _ _ missing) as [[r missing']|]; [|done]. destruct Happ as (Hmi' & _).
  destruct (decide (r ≠ 0)); [by apply reads_ret|by apply Hadd].
Qed.

Lemma plugins_ok s :
  holds s G →
  reads (plugins_loop w (g_bridge_driver_plugins w) request 0 (replicate 4 None) 0 no_strings) s (λ r, ∀ plugins len missing, r = Some (plugins, len, missing) →
    wf_array missing ∧ ∃ p rest, take len plugins = Some p :: (Some <$> rest) ∧ bridge_conf G request p ∧ Forall quiet rest).
Proof.
  intros HG. destruct no_strings_ok as [Hw0 _].
  apply (plugins_step _ _ _ _ _ _ _ _ (bridge_conf G request)); [done|done|done|intros; by apply bridge_plugin_ok|done| |done]. intros s1 p1 m1 H1 W1 R1.
  apply (plugins_step _ _ _ _ _ _ _ _ quiet); [done|done|done|intros; apply quiet_plugins_ok|done| |done]. intros s2 p2 m2 H2 W2 R2.
  apply (plugins_step _ _ _ _ _ _ _ _ quiet); [done|done|done|intros; apply quiet_plugins_ok|done| |done]. intros s3 p3 m3 H3 W3 R3.
  apply (plugins_step _ _ _ _ _ _ _ _ quiet); [done|done|done|intros; apply quiet_plugins_ok|done| |].
  - intros s4 p4 m4 H4 W4 R4. apply reads_ret. intros plugins len missing [= <- <- <-]. split; [done|]. exists p1, [p2; p3; p4]. split; [done|]. split; [done|]. by rewrite !list.Forall_cons, list.Forall_nil.
  - intros _ s4 H4. apply reads_ret. intros plugins len missing [= <- <- <-]. split; [done|]. exists p1, [p2; p3]. split; [done|]. split; [done|]. by rewrite !list.Forall_cons, list.Forall_nil.
Qed.

(** A configuration that clashes with no other one. *)
Record new_conf (l : cni_net_conf_list) (k : cstr) (b x : string) : Prop := {
  nc_name : l_name l = Some k;
  nc_which : match rq_name request with Some name => k = name | None => k = cstr_of b end;
  nc_fresh : fresh_name G (cstr_s k);
  nc_bridges : bridges_of l = [b];
  nc_bridge : fresh_bridge G b;
  nc_subnets : subnets_of l = [x];
  nc_subnet : readable_request request → fresh_subnet G x;
  nc_typed : typed l
}.

Lemma quiet_rest rest : Forall quiet rest → omap bridge_in (Some <$> rest) = [] ∧ omap plugin_subnet (Some <$> rest) = [] ∧
  Forall typed_plugin (Some <$> rest).
Proof.
  induction 1 as [|p rest (Ht & Hb & Hs) Hr (IH1 & IH2 & IH3)]; [done|]. cbn [fmap list_fmap omap list_omap]. rewrite Hb, Hs.
  split; [done|]. split; [done|]. by constructor.
Qed.

Lemma fresh_bridge_text b : fresh_bridge G b → cstr_s (cstr_of b) = b.
Proof. intros ((j & Hj & ->) & _). cbn. apply c_bytes_nul_free. by destruct (bridge_text_ok j Hj) as (_ & ? & _). Qed.

Lemma conf_bridge_ok s :
  holds s G → reads (conf_bridge w request) s (λ r, ∀ l missing, r = Some (l, missing) → wf_array missing ∧ ∃ k b x, new_conf l k b x).
Proof.
  intros HG. unfold conf_bridge. eapply reads_bind; [by apply (reads_tick _ (λ _, True))|]. intros i s1 Hs1 _.
  destruct (_ && _); cbn [negb]; [|by apply reads_ret]. eapply reads_bind; [apply plugins_ok; by eapply holds_same|].
  intros [[[plugins len] missing]|] s2 _ Hp; [|by apply reads_ret]. destruct (Hp _ _ _ eq_refl) as (Wm & p & rest & Et & (Ht & b & x & Hb & Hfb & Hx & Hfx) & Hq).
  eapply reads_bind; [by apply (reads_tick _ (λ _, True))|]. intros j s3 _ _. cbn zeta. rewrite Et.
  destruct (quiet_rest rest Hq) as (Q1 & Q2 & Q3). pose proof (fresh_bridge_text b Hfb) as Hcb.
  assert (Hnew : ∀ k, match rq_name request with Some name => k = name | None => k = cstr_of b end → fresh_name G (cstr_s k) →
    ∀ v, new_conf (mk_conf_list (Some k) v (Some p :: (Some <$> rest))) k b x).
  { intros k Hk Hf v. split; try done; cbn [bridges_of subnets_of l_plugins omap list_omap].
    - unfold bridges_of. cbn [l_plugins omap list_omap]. cbn [bridge_in mbind option_bind]. rewrite decide_True, Hb by done. cbn [fmap option_fmap option_map].
      f_equal; [done|exact Q1].
    - unfold subnets_of. cbn [l_plugins omap list_omap]. rewrite Hx. f_equal. exact Q2.
    - unfold typed. cbn [l_plugins]. constructor; [by eexists _, _|exact Q3]. }
  destruct (rq_name request) as [name|] eqn:En; apply reads_ret; intros l m [= <- <-]; (split; [done|]).
  - exists name, b, x. apply Hnew; [done|]. by apply Hreq.
  - exists (cstr_of b), b, x. rewrite Hb. apply Hnew; [done|]. rewrite Hcb. by destruct Hfb as (_ & ? & _).
Qed.
End conf.

(** ** Changing the store *)

(** Nothing fails that is not a matter of the request. *)
Definition calm : Prop := (∀ i j, w_mem w i j = true) ∧ (∀ i, w_lock w i = true) ∧ (∀ i, sm_room (w_map w i) = true) ∧ ∀ i, w_unlink w i = true.

Ltac store_simpl :=
  unfold set_len, set_networks, set_map, set_files; cbn [name_to_network network_len conf_path bin_paths n_heap n_fresh n_files n_planes n_tick].

Definition frame s s' : Prop := conf_path s' = conf_path s ∧ bin_paths s' = bin_paths s ∧ n_files s' = n_files s ∧ n_planes s' = n_planes s.

Lemma same_fields s s' : same s s' →
  name_to_network s' = name_to_network s ∧ network_len s' = network_len s ∧ n_heap s' = n_heap s ∧ n_fresh s' = n_fresh s ∧ frame s s'.
Proof. unfold same, core, frame. by intros [=]. Qed.

Lemma frame_trans s1 s2 s3 : frame s1 s2 → frame s2 s3 → frame s1 s3.
Proof. unfold frame. intuition congruence. Qed.

Lemma wp_on_names {A} (f : M NT A) (Q : A → nstate NT → Prop) s m :
  name_to_network s = Some m →
  wp f (λ a m', ∃ d, sm_dropped m' = sm_dropped m ++ d ∧ Q a (set_networks (free_networks d (n_heap s)) (set_map (Some m') s))) m → wp (on_map f) Q s.
Proof.
  intros Hm. unfold wp, on_map. rewrite Hm. destruct (f m) as [[a m']|]; [|done]. intros (d & -> & HQ). by rewrite drop_app_length.
Qed.

(** A new pointer for a new name. *)
Lemma network_insert s G m g k n p :
  stored s G m g → G !! k = None → named k n → (n_fresh s ≤ p)%nat →
  ∀ s' m', name_to_network s' = Some m' → sm_models m' (<[k := p]> g) → n_heap s' = <[p := n]> (n_heap s) → (p < n_fresh s')%nat → (n_fresh s ≤ n_fresh s')%nat →
    network_len s' = network_len s + 1 → stored s' (<[k := n]> G) m' (<[k := p]> g).
Proof.
  intros Hst HGk Hn Hp s' m' Hm' Hmod Hh Hf Hf' Hlen. pose proof Hst as [_ _ Hval Hlive Hinj Hfresh Hused Hnamed Hl].
  assert (Hgk : g !! k = None). { rewrite Hval, lookup_fmap in HGk. by destruct (g !! k). }
  assert (Hold : ∀ k' q, g !! k' = Some q → q ≠ p). { intros k' q Hq ->. specialize (Hfresh p (Hlive _ _ Hq)). lia. }
  split; [done|done| | | | | | |].
  - rewrite fmap_insert, Hh. unfold deref at 1. rewrite lookup_insert_eq. cbn [default]. f_equal. rewrite Hval. apply map_fmap_ext. intros k' q Hq.
    unfold deref. by rewrite lookup_insert_ne by (intros ->; by eapply Hold).
  - intros k' q Hq. rewrite Hh. destruct (decide (q = p)) as [->|]; [rewrite lookup_insert_eq; by eexists|]. rewrite lookup_insert_ne by done.
    apply lookup_insert_Some in Hq as [[_ ?]|[_ Hq]]; [done|by eapply Hlive].
  - intros k1 k2 q H1 H2. apply lookup_insert_Some in H1 as [[? ?]|[? H1]], H2 as [[? ?]|[? H2]]; subst; [done| | |by eapply Hinj].
    + by destruct (Hold _ _ H2).
    + by destruct (Hold _ _ H1).
  - intros q. rewrite Hh, lookup_insert_is_Some'. intros [->|Hq]; [done|]. specialize (Hfresh q Hq). lia.
  - intros q. rewrite Hh, lookup_insert_is_Some'. intros [->|Hq]; [exists k; apply lookup_insert_eq|]. destruct (Hused q Hq) as [k' Hk']. exists k'.
    rewrite lookup_insert_ne; [done|]. intros ->. congruence.
  - by apply map_Forall_insert_2.
  - rewrite map_size_insert_None by done. lia.
Qed.

Lemma add_network_ok s G c l k :
  holds s G → nl_list c = Some l → l_name l = Some k → typed l → G !! k = None → Z.of_nat (size G) + 1 < two64 →
  wp (native_store_add_network w c) (λ r s', frame s s' ∧ (r = 0 ∧ holds s' (<[k := mk_native c []]> G) ∨ r = -1 ∧ holds s' G ∧ ¬ calm)) s.
Proof.
  intros (m & g & Hst) Hc Hk Ht HGk Hsz. unfold native_store_add_network, native_network_init. apply wp_bind, wp_bind, wp_tick. intros i s1 Hs1.
  pose proof (stored_same _ _ _ _ _ Hs1 Hst) as Hst1. destruct (same_fields _ _ Hs1) as (_ & _ & _ & _ & F1).
  assert (Hret : ¬ calm → ∀ s2, same s1 s2 → frame s s2 ∧ ((-1 = 0) ∧ holds s2 (<[k := mk_native c []]> G) ∨ -1 = -1 ∧ holds s2 G ∧ ¬ calm)).
  { intros Hcalm s2 Hs2. split; [eapply frame_trans; [exact F1|by apply same_fields]|]. right. split; [done|]. split; [|done]. exists m, g. by eapply stored_same. }
  destruct (w_mem w i 0%nat) eqn:Emem; cbn [negb]; [|apply wp_ret, Hret; [|done]; intros (Hc1 & _); by rewrite Hc1 in Emem].
  destruct (w_lock w i) eqn:Elock; cbn [negb]; [|apply wp_ret, Hret; [|done]; intros (_ & Hc2 & _); by rewrite Hc2 in Elock]. clear Hret.
  unfold wp at 1. set (p := n_fresh s1). set (s2 := mk_nstate _ _ _ _ _ _ _ _ _). apply wp_bind.
  assert (Hat : list_at p s2 = Some (l, s2)).
  { unfold list_at, network_at, mbind, M_bind. subst s2. cbn [n_heap]. rewrite lookup_insert_eq. cbn [conflist]. by rewrite Hc. }
  unfold wp at 1. rewrite Hat. apply wp_bind, wp_tick. intros j s3 Hs3. destruct (same_fields _ _ Hs3) as (E1 & E2 & E3 & E4 & F3). cbn in E1, E2, E3, E4.
  assert (Hgk : g !! k = None). { rewrite (st_val _ _ _ _ Hst), lookup_fmap in HGk. by destruct (g !! k). }
  rewrite Hk. cbn [replace_name]. apply wp_bind. eapply wp_on_names; [rewrite E1; apply (st_map _ _ _ _ Hst1)|].
  eapply wp_mono; [eapply sm_replace_ok, (st_models _ _ _ _ Hst1)|]. cbn beta. intros ok m' (Hroom & _ & Hm' & Hdrop). rewrite Hgk in Hdrop. cbn [option_list] in Hdrop.
  exists []. split; [by destruct ok|]. cbn [free_networks foldr]. assert (Hfr : frame s s3) by (eapply frame_trans; [exact F1|exact F3]).
  assert (Hnm : named k (mk_native c [])) by (split; unfold list_of; cbn [conflist]; by rewrite Hc).
  destruct ok; cbn [negb]; apply wp_bind, wp_modify, wp_ret; store_simpl.
  - split; [exact Hfr|]. left. split; [done|]. exists m', (<[k := p]> g). eapply (network_insert s1); [exact Hst1|done|done|subst p; lia|done|done|..]; cbn; rewrite ?E2, ?E3, ?E4; try (subst p; lia); [done|].
    rewrite (st_len _ _ _ _ Hst1). apply u64_small. lia.
  - split; [exact Hfr|]. right. split; [done|]. split; [|intros (_ & _ & Hc3 & _); by specialize (Hroom (Hc3 j))]. exists m', g. rewrite E3, delete_insert_id; [|apply eq_None_not_Some; intros Hp; pose proof (st_fresh _ _ _ _ Hst1 p Hp); subst p; lia].
    destruct Hst1 as []. split; cbn [name_to_network network_len n_heap n_fresh]; rewrite ?E2, ?E4; try done. cbn in *. intros q Hq. specialize (st_fresh0 q Hq). lia.
Qed.

(** *** Creation *)
Definition record_of (l : cni_net_conf_list) (json : string) : native_network := mk_native (mk_list_conf (Some l) (Some json)) [].

Lemma fresh_absent s G k : holds s G → fresh_name G (cstr_s k) → G !! k = None.
Proof.
  intros (m & g & Hst) Hf. destruct (G !! k) as [n|] eqn:E; [|done]. exfalso. apply Hf. exists k, n. split; [done|].
  pose proof (st_named _ _ _ _ Hst k n E) as [_ Hn _]. unfold names_of. rewrite Hn. by left.
Qed.

Lemma file_path_ok s k dir :
  conf_path s = Some dir → reads (get_file_path_by_name (Some k)) s (λ r, r = if decide (PATH_MAX ≤ String.length (conflist_file dir k))%nat then None else Some (conflist_file dir k)).
Proof.
  intros Hd. unfold get_file_path_by_name. eapply reads_bind; [apply reads_get|]. intros ? s1 _ ->.
  rewrite Hd. by apply reads_ret.
Qed.

(** The text is written to a file that was not there, unless it is empty. *)
Definition put_conf (path json : string) (files : gmap string string) : gmap string string := if String.eqb json "" then files else <[path := json]> files.

Lemma create_file_ok s G l k dir :
  holds s G → l_name l = Some k → conf_path s = Some dir →
  wp (create_conflist_file list_generate w l) (λ r s', holds s' G ∧ conf_path s' = conf_path s ∧
    match r with
    | None => n_files s' = n_files s
    | Some json => list_generate l = Some json ∧ (String.length (conflist_file dir k) < PATH_MAX)%nat ∧ n_files s !! conflist_file dir k = None ∧ n_files s' = put_conf (conflist_file dir k) json (n_files s)
    end) s.
Proof.
  intros HG Hk Hd. unfold create_conflist_file. apply wp_bind, wp_tick. intros i s1 Hs1. pose proof (holds_same _ _ _ Hs1 HG) as HG1.
  destruct (same_fields _ _ Hs1) as (_ & _ & _ & _ & (Ed & _ & Ef & _)). rewrite Hk.
  assert (Hfail : ∀ s', same s1 s' → holds s' G ∧ conf_path s' = conf_path s ∧ n_files s' = n_files s).
  { intros s' Hs'. split; [by eapply holds_same|]. destruct (same_fields _ _ Hs') as (_ & _ & _ & _ & (Ed' & _ & Ef' & _)).
    by rewrite Ed', Ed, Ef', Ef. }
  destruct (_ && _); [by apply wp_ret, Hfail|]. wp_call (file_path_ok s1 k dir (eq_trans Ed Hd)). intros path s2 (Hs2 & ->).
  destruct (decide (PATH_MAX ≤ _)%nat) as [|Hlen]; [by apply wp_ret, Hfail|].
  destruct (list_generate l) as [json|]; [|by apply wp_ret, Hfail]. apply wp_bind, wp_get.
  destruct (same_fields _ _ Hs2) as (_ & _ & _ & _ & (Ed2 & _ & Ef2 & _)).
  destruct (decide (is_Some _)) as [|Hno]; [by apply wp_ret, Hfail|]. rewrite Ef2, Ef in Hno. apply eq_None_not_Some in Hno. unfold put_conf.
  destruct (String.eqb json "") eqn:Ej; [apply wp_ret; rewrite Ej; destruct (Hfail s2 Hs2) as (? & ? & ?); split_and!; [done..|by apply Nat.nle_gt|done|done]|].
  destruct (w_write w i); cbn [negb]; [|by apply wp_ret, Hfail].
  apply wp_bind, wp_modify, wp_ret. store_simpl. split.
  { pose proof (holds_same _ _ _ Hs2 HG1) as (m2 & g2 & []). by exists m2, g2. }
  rewrite Ed2, Ed. split; [done|]. rewrite Ef2, Ef, Ej. split; [done|]. split; [by apply Nat.nle_gt|]. done.
Qed.

Definition created s G request (name : option cstr) s' : Prop :=
  ∃ l k b x json dir, new_conf G request l k b x ∧ list_generate l = Some json ∧ name = Some k ∧ G !! k = None ∧ conf_path s = Some dir ∧
    holds s' (<[k := record_of l json]> G) ∧ conf_path s' = Some dir ∧ n_files s' = put_conf (conflist_file dir k) json (n_files s) ∧ (String.length (conflist_file dir k) < PATH_MAX)%nat.

Definition not_created s G s' : Prop := holds s' G ∧ conf_path s' = conf_path s ∧ (calm → n_files s' = n_files s).

Lemma network_create_ok s G request dir :
  memory → holds s G → conf_path s = Some dir → Z.of_nat (size G) + 1 < two64 →
  wp (native_config_create list_generate w request) (λ r s', not_created s G s' ∧ r.1.1 = -1 ∨ created s G request r.1.2 s') s.
Proof.
  intros Hm HG Hdir Hsz. unfold native_config_create.
  destruct (get_ops_by_driver (rq_driver request)) as [pnet|]; [|apply wp_ret; by left]. destruct (decide (pnet ≠ bridge_driver)); [apply wp_ret; by left|].
  assert (Hno : ∀ s', same s s' → not_created s G s').
  { intros s' Hs'. split; [by eapply holds_same|]. by destruct (same_fields _ _ Hs') as (_ & _ & _ & _ & (Ed' & _ & Ef' & _)). }
  wp_call (check_bridge_ok s G request Hm HG). intros ret s1 [Hs1 Hc]. destruct (decide (ret ≠ 0)) as [Hne|Hz%dec_stable]; [apply wp_ret; left; split; [by apply Hno|done]|].
  specialize (Hc Hz). apply wp_bind, wp_tick. intros i s2 Hs2. pose proof (same_trans _ _ _ Hs1 Hs2) as Hs12.
  destruct (_ && _); cbn [negb]; [|apply wp_ret; left; split; [by apply Hno|done]].
  wp_call (conf_bridge_ok G request Hm Hc s2 (holds_same _ _ _ Hs12 HG)). intros conf s3 [Hs3 Hconf]. pose proof (same_trans _ _ _ Hs12 Hs3) as Hs13.
  destruct conf as [[l missing]|]; [|apply wp_ret; left; split; [by apply Hno|done]]. destruct (Hconf _ _ eq_refl) as (_ & k & b & x & Hnew).
  pose proof (nc_name _ _ _ _ _ _ Hnew) as Hk. rewrite Hk. pose proof (holds_same _ _ _ Hs13 HG) as HG3. pose proof (fresh_absent _ _ _ HG (nc_fresh _ _ _ _ _ _ Hnew)) as HGk.
  destruct (same_fields _ _ Hs13) as (_ & _ & _ & _ & (Ed3 & _ & Ef3 & _)).
  wp_call (create_file_ok s3 G l k dir HG3 Hk (eq_trans Ed3 Hdir)). intros bytes s4 (HG4 & Ed4 & Hf).
  assert (Hno4 : ∀ s', holds s' G → conf_path s' = conf_path s4 → (calm → n_files s' = n_files s3) → not_created s G s') by (intros s' HG' E Ef; split; [done|]; split; [congruence|]; intros Hc'; rewrite Ef by done; done).
  destruct bytes as [json|]; [|apply wp_ret; left; split; [by apply Hno4|done]]. destruct Hf as (Hgen & Hshort & Hfree & Hfiles).
  apply wp_bind, wp_store_lock'. intros locked s5 Hs5 Hlk. destruct (same_fields _ _ Hs5) as (_ & _ & _ & _ & (Ed5 & _ & Ef5 & _)).
  pose proof (holds_same _ _ _ Hs5 HG4) as HG5. destruct locked; cbn [negb]; [|apply wp_ret; left; split; [apply Hno4; [done|done|]; intros (_ & Hc2 & _); by specialize (Hlk Hc2)|done]].
  wp_call (add_network_ok s5 G (mk_list_conf (Some l) (Some json)) l k HG5 eq_refl Hk (nc_typed _ _ _ _ _ _ Hnew) HGk Hsz).
  intros ret' s6 ((Ed6 & _ & Ef6 & _) & Hadd). destruct Hadd as [[-> HG6]|(-> & HG6 & Hnc)].
  2:{ rewrite decide_True by done. apply wp_ret. left. split; [|done]. apply Hno4; [done|congruence|done]. }
  rewrite decide_False by (by intros []). assert (Hcr : ∀ s', same s6 s' → created s G request (Some k) s').
  { intros s' Hs'. destruct (same_fields _ _ Hs') as (_ & _ & _ & _ & (Ed' & _ & Ef' & _)). exists l, k, b, x, json, dir.
    split_and!; [done|done|done|done|congruence|by eapply holds_same|congruence| |done]. rewrite Ef', Ef6, Ef5, Hfiles, Ef3. done. }
  unfold set_missing_plugin_err_msg. destruct (decide (items missing = [])).
  { apply wp_ret. right. by apply Hcr. }
  apply wp_bind, wp_bind, wp_tick. intros j s7 Hs7. apply wp_bind, wp_get, wp_ret, wp_ret. right. by apply Hcr.
Qed.

(** *** Removal *)
Lemma find_network_ok s G m g name ps :
  stored s G m g → Forall (λ p, ∃ k, g !! k = Some p) ps →
  reads (find_network name ps) s (λ r, match r with Some p => g !! name = Some p | None => ∀ p, g !! name = Some p → p ∉ ps end).
Proof.
  intros Hst Hps. revert s Hst. induction Hps as [|p ps (k & Hk) Hps IH]; intros s Hst; cbn [find_network].
  { apply reads_ret. intros p _. apply not_elem_of_nil. }
  eapply reads_bind; [by eapply list_at_ok|]. intros l s1 Hs1 ->. destruct (deref_at _ _ _ _ Hst k p Hk) as [_ HG]. pose proof (st_named _ _ _ _ Hst k _ HG) as [_ Hn _].
  rewrite Hn. destruct (decide (Some k = Some name)) as [[= ->]|Hne]; [by apply reads_ret|].
  eapply reads_mono; [apply IH; by eapply stored_same|]. cbn beta. intros [q|]; [done|]. intros Hno q Hq. apply not_elem_of_cons. split; [|by apply Hno].
  intros ->. apply Hne. f_equal. by eapply (st_inj _ _ _ _ Hst).
Qed.

Lemma get_network_ok s G m g name :
  stored s G m g → reads (get_network_by_name w name) s (λ r, ∀ p, r = Some p → g !! name = Some p).
Proof.
  intros Hst. unfold get_network_by_name. eapply reads_bind; [apply reads_get|]. intros ? s1 Hs1 ->. destruct (decide _); [by apply reads_ret|].
  eapply reads_bind; [by apply (reads_tick _ (λ _, True))|]. intros i s2 Hs2 _. pose proof (stored_same _ _ _ _ _ (same_trans _ _ _ Hs1 Hs2) Hst) as Hst2.
  eapply reads_bind; [by eapply all_networks_ok|]. intros ps s3 Hs3 Hps. destruct (w_mem w i 0%nat); [destruct Hps as (ps' & -> & Hps)|subst; by apply reads_ret].
  eapply reads_mono; [eapply find_network_ok; [by eapply stored_same|]|].
  - apply list.Forall_forall. intros p Hp. eapply ptr_named. by rewrite <- Hps.
  - cbn beta. by intros [p|] Hr p' [= <-].
Qed.

Lemma network_at_ok s G m g k p : stored s G m g → g !! k = Some p → reads (network_at p) s (λ n, G !! k = Some n).
Proof.
  intros Hst Hk. destruct (deref_at _ _ _ _ Hst k p Hk) as [Hp HG]. unfold reads, wp, network_at. by rewrite Hp.
Qed.

Lemma bridge_of_ok plugins : Forall typed_plugin plugins → ∃ r, bridge_of plugins = Some r.
Proof.
  induction 1 as [|p plugins (q & t & -> & Ht & _) Hp IH]; cbn [bridge_of]; [by eexists|]. rewrite Ht. destruct (decide _); [done|by eexists].
Qed.

Lemma remove_bridge_ok s l : typed l → reads (remove_bridge w l) s (λ _, True).
Proof.
  intros Ht. unfold remove_bridge. destruct (bridge_of_ok _ Ht) as [[b|] ->]; [|by apply reads_ret].
  eapply (reads_bind _ _ _ (λ _, True)); [|intros; by apply reads_ret]. unfold remove_interface. eapply reads_bind; [apply reads_interfaces|].
  intros [ifs|] s1 _ _; [|by apply reads_ret]. destruct (decide _); [by apply reads_ret|]. destruct (util_string_array_contain _ _); cbn [negb]; [|by apply reads_ret].
  eapply reads_bind; [by apply (reads_tick _ (λ _, True))|]. intros. by apply reads_ret.
Qed.

(** A network leaves the map and is freed. *)
Lemma network_delete s G m g k p :
  stored s G m g → g !! k = Some p →
  ∀ s' m', name_to_network s' = Some m' → sm_models m' (delete k g) → n_heap s' = delete p (n_heap s) → n_fresh s' = n_fresh s →
    network_len s' = network_len s - 1 → stored s' (delete k G) m' (delete k g).
Proof.
  intros Hst Hk s' m' Hm' Hmod Hh Hf Hlen. pose proof Hst as [_ _ Hval Hlive Hinj Hfresh Hused Hnamed Hl]. destruct (deref_at _ _ _ _ Hst k p Hk) as [_ HGk].
  assert (Hne : ∀ k' q, k' ≠ k → g !! k' = Some q → q ≠ p) by (intros k' q Hkk Hq ->; by apply Hkk, (Hinj _ _ p)).
  split; [done|done| | | | | | |].
  - rewrite Hval, <- fmap_delete. apply map_fmap_ext. intros k' q [Hkk Hq]%lookup_delete_Some. unfold deref. by rewrite Hh, lookup_delete_ne by (apply not_eq_sym; by eapply Hne).
  - intros k' q [Hkk Hq]%lookup_delete_Some. rewrite Hh, lookup_delete_ne by (apply not_eq_sym; by eapply Hne). by eapply Hlive.
  - intros k1 k2 q [_ H1]%lookup_delete_Some [_ H2]%lookup_delete_Some. by eapply Hinj.
  - intros q. rewrite Hh, Hf. intros [n [_ Hq]%lookup_delete_Some]. apply Hfresh. by eexists.
  - intros q. rewrite Hh. intros [n [Hqp Hq]%lookup_delete_Some]. destruct (Hused q ltac:(by eexists)) as [k' Hk']. exists k'. apply lookup_delete_Some. split; [|done].
    intros ->. congruence.
  - by apply map_Forall_delete.
  - rewrite Hlen, Hl. pose proof (map_size_delete k G) as Hs. rewrite HGk in Hs. pose proof (map_size_ne_0_lookup_2 G k ltac:(by eexists)). lia.
Qed.

Definition removed_network s G (name : cstr) s' : Prop :=
  ∃ n dir, G !! name = Some n ∧ containers_list n = [] ∧ conf_path s = Some dir ∧ holds s' (delete name G) ∧ conf_path s' = Some dir ∧
    (n_files s' = delete (conflist_file dir name) (n_files s) ∨
     n_files s' = n_files s ∧ (¬ calm ∨ (PATH_MAX ≤ String.length (conflist_file dir name))%nat)).

(** The file is deleted if possible, then the entry. *)
Lemma remove_tail_ok s G m g name p n dir :
  stored s G m g → conf_path s = Some dir → g !! name = Some p → G !! name = Some n → containers_list n = [] → Z.of_nat (size G) < two64 →
  wp (path ← get_file_path_by_name (Some name);
      i ← tick;
      match path with
      | None => mret tt
      | Some path => if w_unlink w i then modify (λ s, set_files (delete path (n_files s)) s) else mret tt
      end;;
      ok ← on_map (sm_remove name);
      (if (ok : bool) then modify (λ s, set_len (u64 (network_len s - 1)) s) else mret tt);;
      mret (0, Some name)) (λ r s', r = (0, Some name) ∧ removed_network s G name s') s.
Proof.
  intros Hst Hdir Hp HGn Hc Hsz. wp_call (file_path_ok s name dir Hdir). intros path s1 (Hs1 & ->).
  apply wp_bind, wp_tick. intros i s2 Hs2. pose proof (same_trans _ _ _ Hs1 Hs2) as Hs12. destruct (same_fields _ _ Hs12) as (E1 & E2 & E3 & E4 & (Ed & _ & Ef & _)).
  apply wp_bind. apply (wp_mono _ (λ _ s3, (n_files s3 = delete (conflist_file dir name) (n_files s) ∨
      n_files s3 = n_files s ∧ (¬ calm ∨ (PATH_MAX ≤ String.length (conflist_file dir name))%nat)) ∧
    name_to_network s3 = name_to_network s ∧ network_len s3 = network_len s ∧ n_heap s3 = n_heap s ∧ n_fresh s3 = n_fresh s ∧ conf_path s3 = conf_path s)).
  { destruct (decide (PATH_MAX ≤ _)%nat); [apply wp_ret; split_and!; auto|]. destruct (w_unlink w i) eqn:Eu; [apply wp_modify; store_simpl; rewrite Ef; split_and!; auto|].
    apply wp_ret. split_and!; auto. right. split; [done|]. left. intros (_ & _ & _ & Hc4). by rewrite Hc4 in Eu. }
  intros [] s3 (Hfiles & F1 & F2 & F3 & F4 & Fd). rewrite (st_map _ _ _ _ Hst) in F1. apply wp_bind. eapply wp_on_names; [exact F1|].
  eapply wp_mono; [eapply sm_remove_ok, (st_models _ _ _ _ Hst)|]. cbn beta. intros ok m' (-> & Hm' & Hdrop). rewrite Hp in *. exists [p]. split; [done|].
  rewrite bool_decide_true by (by eexists). apply wp_bind, wp_modify, wp_ret. split; [done|]. store_simpl. exists n, dir. rewrite Fd.
  split_and!; [done..| |done|done]. exists m', (delete name g). eapply (network_delete s); [exact Hst|exact Hp|..]; cbn [name_to_network network_len n_heap n_fresh conf_path free_networks foldr];
    [done|done|by rewrite F3|done|].
  rewrite F2, (st_len _ _ _ _ Hst). apply u64_small. pose proof (map_size_ne_0_lookup_2 G name ltac:(by eexists)). lia.
Qed.

Lemma network_remove_ok s G name dir :
  holds s G → conf_path s = Some dir → Z.of_nat (size G) < two64 →
  wp (native_config_remove w (Some name)) (λ r s', (r = (-1, None) ∧ same s s') ∨ (r = (0, Some name) ∧ removed_network s G name s')) s.
Proof.
  intros (m & g & Hst) Hdir Hsz. unfold native_config_remove. apply wp_bind, wp_store_lock. intros locked s1 Hs1. destruct locked; cbn [negb]; [|apply wp_ret; by left].
  pose proof (stored_same _ _ _ _ _ Hs1 Hst) as Hst1. wp_call (get_network_ok s1 G m g name Hst1). intros network s2 [Hs2 Hp]. pose proof (same_trans _ _ _ Hs1 Hs2) as Hs12.
  destruct network as [p|]; [|apply wp_ret; by left]. specialize (Hp p eq_refl). pose proof (stored_same _ _ _ _ _ Hs12 Hst) as Hst2.
  unfold has_connected_container. apply wp_bind. wp_call (network_at_ok s2 G m g name p Hst2 Hp). intros n s3 [Hs3 HGn]. apply wp_ret.
  pose proof (same_trans _ _ _ Hs12 Hs3) as Hs13. pose proof (stored_same _ _ _ _ _ Hs13 Hst) as Hst3.
  destruct (bool_decide (containers_list n ≠ [])) eqn:Ec; [apply wp_ret; by left|]. apply bool_decide_eq_false in Ec. apply dec_stable in Ec.
  wp_call (list_at_ok s3 G m g Hst3 name p Hp). intros l s4 [Hs4 El]. destruct (deref_at _ _ _ _ Hst3 name p Hp) as [_ HGd].
  assert (deref (n_heap s3) p = n) as Hn by congruence. rewrite Hn in El. subst l. pose proof (st_named _ _ _ _ Hst3 name _ HGd) as Hnm. rewrite Hn in Hnm. destruct Hnm as [_ Hname Htyped].
  pose proof (same_trans _ _ _ Hs13 Hs4) as Hs14. apply wp_bind.
  assert (Hrb : reads (match get_ops_by_conflist (l_plugins (list_of n)) with Some bridge_driver => remove_bridge w (list_of n) | _ => mret 0 end) s4 (λ _, True)).
  { destruct (get_ops_by_conflist _) as [[]|]; [by apply remove_bridge_ok|by apply reads_ret..]. }
  eapply wp_mono; [exact Hrb|]. cbn beta. intros _ s5 [Hs5 _]. pose proof (same_trans _ _ _ Hs14 Hs5) as Hs15. rewrite Hname.
  destruct (same_fields _ _ Hs15) as (_ & _ & _ & _ & (Ed & _ & Ef & _)).
  eapply wp_mono; [exact (remove_tail_ok s5 G m g name p n dir (stored_same _ _ _ _ _ Hs15 Hst) (eq_trans Ed Hdir) Hp HGn Ec Hsz)|]. cbn beta. intros r s' [-> (n' & dir' & Hrem)]. right. split; [done|].
  exists n', dir'. rewrite Ed, Ef in Hrem. done.
Qed.

(** *** Containers *)
Definition with_containers (n : native_network) (l : list cstr) : native_network := mk_native (conflist n) l.
(** The list of containers of the network [k] becomes [f] of it. *)
Definition on_containers (f : list cstr → list cstr) G (k : option cstr) : gmap cstr native_network :=
  match k with
  | Some k => match G !! k with Some n => <[k := with_containers n (f (containers_list n))]> G | None => G end
  | None => G
  end.
Definition add_to G (id : cstr) : option cstr → gmap cstr native_network := on_containers (λ l, l ++ [id]) G.
Definition drop_from G (id : cstr) : option cstr → gmap cstr native_network := on_containers (remove_first id) G.
Definition add_all (id : cstr) : list (option cstr) → gmap cstr native_network → gmap cstr native_network := flip (foldl (λ G k, add_to G id k)).
Definition drop_all (id : cstr) : list (option cstr) → gmap cstr native_network → gmap cstr native_network := flip (foldl (λ G k, drop_from G id k)).

Definition names (nets : list (option attach_net_conf)) : list (option cstr) := (λ an, an ≫= an_name) <$> nets.

Lemma network_update s G m g k p n' :
  stored s G m g → g !! k = Some p → named k n' →
  ∀ s', name_to_network s' = Some m → n_heap s' = <[p := n']> (n_heap s) → n_fresh s' = n_fresh s →
    network_len s' = network_len s → stored s' (<[k := n']> G) m g.
Proof.
  intros Hst Hk Hn s' Hm Hh Hf Hl. pose proof Hst as [_ Hmod Hval Hlive Hinj Hfresh Hused Hnamed Hlen]. destruct (deref_at _ _ _ _ Hst k p Hk) as [Hp HGk].
  split; [done|done| | |done| | | |].
  - apply map_eq. intros k'. rewrite lookup_fmap. destruct (decide (k' = k)) as [->|Hne].
    + rewrite lookup_insert_eq, Hk. cbn. unfold deref. by rewrite Hh, lookup_insert_eq.
    + rewrite lookup_insert_ne, Hval, lookup_fmap by done. destruct (g !! k') as [q|] eqn:Hq; [|done]. cbn. unfold deref. rewrite Hh, lookup_insert_ne; [done|].
      intros ->. by apply Hne, (Hinj _ _ q).
  - intros k' q Hq. rewrite Hh, lookup_insert_is_Some'. right. by eapply Hlive.
  - intros q. rewrite Hh, lookup_insert_is_Some', Hf. intros [->|Hq]; apply Hfresh; [by eexists|done].
  - intros q. rewrite Hh, lookup_insert_is_Some'. intros [->|Hq]; [by exists k|by apply Hused].
  - by apply map_Forall_insert_2.
  - rewrite Hl, Hlen. rewrite map_size_insert_Some; [done|]. by eexists.
Qed.

Lemma set_containers_ok s G m g k p n l :
  stored s G m g → g !! k = Some p → G !! k = Some n →
  wp (set_containers p l) (λ _ s', frame s s' ∧ stored s' (<[k := with_containers n l]> G) m g) s.
Proof.
  intros Hst Hk HGn. unfold set_containers. wp_call (network_at_ok s G m g k p Hst Hk). intros n' s1 [Hs1 HGn']. assert (n' = n) as -> by congruence.
  pose proof (stored_same _ _ _ _ _ Hs1 Hst) as Hst1. destruct (same_fields _ _ Hs1) as (_ & _ & _ & _ & F1). apply wp_modify. store_simpl. split; [exact F1|].
  eapply (network_update s1); [exact Hst1|exact Hk| |..]; cbn [name_to_network network_len n_heap n_fresh conf_path]; [|apply Hst1|done..].
  destruct (st_named _ _ _ _ Hst k n HGn) as []. by split.
Qed.

Lemma add_container_ok s G k id :
  holds s G →
  wp (do_add_container_list w k id) (λ r s', frame s s' ∧ (r = 0 ∧ (∃ k', k = Some k' ∧ is_Some (G !! k')) ∧ holds s' (add_to G id k) ∨ r = -1 ∧ holds s' G)) s.
Proof.
  intros (m & g & Hst). unfold do_add_container_list. wp_call (search_name_ok s G m g Hst k). intros r s1 [Hs1 ->]. pose proof (stored_same _ _ _ _ _ Hs1 Hst) as Hst1.
  destruct (same_fields _ _ Hs1) as (_ & _ & _ & _ & F1).
  destruct (k ≫= λ k, g !! k) as [p|] eqn:Ek; [|apply wp_ret; split; [done|]; right; split; [done|]; by exists m, g].
  apply wp_bind, wp_tick. intros i s2 Hs2. pose proof (stored_same _ _ _ _ _ Hs2 Hst1) as Hst2. destruct (same_fields _ _ Hs2) as (_ & _ & _ & _ & F2).
  destruct (w_mem w i 0%nat); cbn [negb]; [|apply wp_ret; split; [by eapply frame_trans|]; right; split; [done|]; by exists m, g].
  destruct k as [k|]; [|done]. cbn in Ek. wp_call (network_at_ok s2 G m g k p Hst2 Ek). intros n s3 [Hs3 HGn]. pose proof (stored_same _ _ _ _ _ Hs3 Hst2) as Hst3.
  destruct (same_fields _ _ Hs3) as (_ & _ & _ & _ & F3). wp_call (set_containers_ok s3 G m g k p n (containers_list n ++ [id]) Hst3 Ek HGn). intros [] s4 [F4 Hst4]. apply wp_ret.
  split; [by do 3 (eapply frame_trans; [eassumption|])|]. left. split; [done|]. split; [exists k; split; [done|by eexists]|]. exists m, g. cbn [add_to].
  unfold add_to, on_containers. by rewrite HGn.
Qed.

Lemma drop_container_ok s G k id : holds s G → wp (do_remove_container_list k id) (λ _ s', frame s s' ∧ holds s' (drop_from G id k)) s.
Proof.
  intros (m & g & Hst). unfold do_remove_container_list. wp_call (search_name_ok s G m g Hst k). intros r s1 [Hs1 ->]. pose proof (stored_same _ _ _ _ _ Hs1 Hst) as Hst1.
  destruct (same_fields _ _ Hs1) as (_ & _ & _ & _ & F1).
  destruct k as [k|]; cbn [mbind option_bind]; [|apply wp_ret; split; [done|]; by exists m, g]. unfold drop_from, on_containers. destruct (g !! k) as [p|] eqn:Ek.
  - wp_call (network_at_ok s1 G m g k p Hst1 Ek). intros n s2 [Hs2 HGn]. pose proof (stored_same _ _ _ _ _ Hs2 Hst1) as Hst2. destruct (same_fields _ _ Hs2) as (_ & _ & _ & _ & F2).
    rewrite HGn. eapply wp_mono; [by apply (set_containers_ok s2 G m g k p n)|]. cbn beta. intros [] s3 [F3 Hst3].
    split; [by do 2 (eapply frame_trans; [eassumption|])|]. by exists m, g.
  - apply wp_ret. split; [done|]. destruct (G !! k) as [n|] eqn:E; [|by exists m, g]. destruct (lookup_ptr _ _ _ _ Hst k n E) as (p & Hp & _). congruence.
Qed.

Lemma add_loop_ok nets id s G :
  holds s G → Forall is_Some nets →
  wp (add_loop w nets id) (λ r s', frame s s' ∧ ∃ n, (n ≤ length nets)%nat ∧ holds s' (add_all id (take n (names nets)) G) ∧ (r = 0 → n = length nets)) s.
Proof.
  intros HG Hn. revert s G HG. induction Hn as [|an nets [a ->] Hn IH]; intros s G HG; cbn [add_loop]; [apply wp_ret; split; [done|]; by exists 0%nat|].
  wp_call (add_container_ok s G (an_name a) id HG). intros r s1 [F1 Hr]. destruct Hr as [(-> & _ & HG1)|[-> HG1]].
  - rewrite decide_False by (by intros []). eapply wp_mono; [by apply IH|]. cbn beta. intros r s2 (F2 & n & Hle & HG2 & Hz).
    split; [by eapply frame_trans|]. exists (S n). cbn [length]. split; [lia|]. split; [exact HG2|]. intros E. by rewrite (Hz E).
  - rewrite decide_True by done. apply wp_ret. split; [done|]. exists 0%nat. split; [lia|]. done.
Qed.

Lemma remove_loop_ok nets id s G :
  holds s G → Forall is_Some nets → wp (remove_loop nets id) (λ _ s', frame s s' ∧ holds s' (drop_all id (names nets) G)) s.
Proof.
  intros HG Hn. revert s G HG. induction Hn as [|an nets [a ->] Hn IH]; intros s G HG; cbn [remove_loop]; [by apply wp_ret|].
  wp_call (drop_container_ok s G (an_name a) id HG). intros [] s1 [F1 HG1]. eapply wp_mono; [by apply IH|]. cbn beta. intros [] s2 [F2 HG2].
  split; [by eapply frame_trans|done].
Qed.

(** The operations on the plugins of the networks of a container: in order, and
    only the first one gets the annotations. *)
Definition complete (an : option attach_net_conf) : option cstr :=
  match an with Some an => match an_name an, an_interface an with Some k, Some _ => Some k | _, _ => None end | None => None end.

Definition planes_ok (op : cni_op) (first : bool) (pl : list plane) : Prop :=
  ∀ i x, pl !! i = Some x → pl_op x = op ∧ pl_annotated x = first && bool_decide (i = 0%nat).

Lemma log_plane_ok s G x : holds s G → wp (log_plane x) (λ _ s', holds s' G ∧ conf_path s' = conf_path s ∧ n_files s' = n_files s ∧ n_planes s' = n_planes s ++ [x]) s.
Proof. intros (m & g & []). apply wp_modify. split; [|done]. by exists m, g. Qed.

Lemma foreach_ok nets ignore op first s G :
  holds s G →
  wp (foreach_loop w nets ignore op first) (λ r s', holds s' G ∧ conf_path s' = conf_path s ∧ n_files s' = n_files s ∧
    ∃ pl, n_planes s' = n_planes s ++ pl ∧ planes_ok op first pl ∧
      (r = 0 → pl_net <$> pl = filter (λ k, is_Some (G !! k)) (omap complete nets) ∧ (ignore = false → Forall (λ k, is_Some (G !! k)) (omap complete nets)))) s.
Proof.
  revert first s. induction nets as [|an nets IH]; intros first s HG; cbn [foreach_loop omap list_omap].
  { apply wp_ret. split_and!; [done..|]. exists []. rewrite app_nil_r. split; [done|]. split; [by intros i x|]. done. }
  destruct an as [a|]; [|by apply IH]. cbn [complete]. destruct (an_name a) as [k|]; [|by apply IH]. destruct (an_interface a) as [ifc|]; [|by apply IH].
  pose proof HG as (m & g & Hst). wp_call (search_name_ok s G m g Hst (Some k)). intros r s1 [Hs1 ->]. cbn [mbind option_bind].
  pose proof (stored_same _ _ _ _ _ Hs1 Hst) as Hst1. destruct (same_fields _ _ Hs1) as (_ & _ & _ & _ & (Ed1 & _ & Ef1 & Ep1)). pose proof (holds_same _ _ _ Hs1 HG) as HG1.
  rewrite filter_cons. destruct (g !! k) as [p|] eqn:Ek.
  - destruct (deref_at _ _ _ _ Hst k p Ek) as [_ HGk]. rewrite decide_True by (by eexists).
    wp_call (network_at_ok s1 G m g k p Hst1 Ek). intros n s2 [Hs2 _]. destruct (same_fields _ _ Hs2) as (_ & _ & _ & _ & (Ed2 & _ & Ef2 & Ep2)).
    apply wp_bind, wp_tick. intros i s3 Hs3. destruct (same_fields _ _ Hs3) as (_ & _ & _ & _ & (Ed3 & _ & Ef3 & Ep3)).
    wp_call (log_plane_ok s3 G (mk_plane op k ifc first) (holds_same _ _ _ Hs3 (holds_same _ _ _ Hs2 HG1))). intros [] s4 (HG4 & Ed4 & Ef4 & Ep4).
    assert (Eall : conf_path s4 = conf_path s ∧ n_files s4 = n_files s ∧ n_planes s4 = n_planes s ++ [mk_plane op k ifc first]) by (split_and!; congruence).
    destruct Eall as (Ed & Ef & Ep).
    assert (Hone : planes_ok op first [mk_plane op k ifc first]) by (intros [|j] x [= <-]; by rewrite andb_true_r).
    destruct (w_plugin w i); cbn [negb]; [|apply wp_ret; split_and!; [done..|]; by eexists]. destruct (w_result w i); cbn [negb]; [|apply wp_ret; split_and!; [done..|]; by eexists].
    eapply wp_mono; [by apply IH|]. cbn beta. intros r s5 (HG5 & Ed5 & Ef5 & pl & Epl & Hpl & Hr). split_and!; [done|congruence|congruence|].
    exists (mk_plane op k ifc first :: pl). split; [by rewrite Epl, Ep, <- app_assoc|]. split.
    + intros [|j] x; cbn [lookup list_lookup]; [intros [= <-]; by rewrite andb_true_r|]. intros Hx. destruct (Hpl j x Hx) as [H1 H2]. split; [done|]. rewrite H2. by rewrite andb_false_r.
    + intros Hz. destruct (Hr Hz) as [H1 H2]. cbn [fmap list_fmap pl_net]. split; [by f_equal|]. intros Hi. constructor; [by eexists|by apply H2].
  - assert (HGk : G !! k = None). { destruct (G !! k) as [n|] eqn:E; [|done]. destruct (lookup_ptr _ _ _ _ Hst k n E) as (p & Hp & _). congruence. }
    rewrite decide_False by (rewrite HGk; by intros []). destruct ignore.
    + eapply wp_mono; [by apply IH|]. cbn beta. intros r s5 (HG5 & Ed5 & Ef5 & pl & Epl & Hpl & Hr). split_and!; [done|congruence|congruence|].
      exists pl. split; [congruence|]. split; [done|]. intros Hz. destruct (Hr Hz) as [H1 _]. done.
    + apply wp_ret. split_and!; [done..|]. exists []. rewrite app_nil_r. split; [done|]. split; [by intros i x|done].
Qed.

Lemma attach_ok s G conf :
  holds s G → Forall is_Some (extral_nets conf) →
  wp (native_attach_networks w (Some conf)) (λ r s', conf_path s' = conf_path s ∧ n_files s' = n_files s ∧
    ∃ n, (n ≤ length (extral_nets conf))%nat ∧ holds s' (add_all (pod_id conf) (take n (names (extral_nets conf))) G) ∧
      (r = 0 → G = ∅ ∨ n = length (extral_nets conf) ∧ Forall (λ k, is_Some (G !! k)) (omap complete (extral_nets conf)))) s.
Proof.
  intros HG Hn. unfold native_attach_networks. apply wp_bind, wp_store_lock. intros locked s1 Hs1. destruct (same_fields _ _ Hs1) as (_ & _ & _ & _ & (Ed1 & _ & Ef1 & _)).
  assert (Hnone : ∀ s' r, holds s' G → conf_path s' = conf_path s → n_files s' = n_files s → (r = 0 → G = ∅) →
    conf_path s' = conf_path s ∧ n_files s' = n_files s ∧ ∃ n, (n ≤ length (extral_nets conf))%nat ∧ holds s' (add_all (pod_id conf) (take n (names (extral_nets conf))) G) ∧
      (r = 0 → G = ∅ ∨ n = length (extral_nets conf) ∧ Forall (λ k, is_Some (G !! k)) (omap complete (extral_nets conf)))).
  { intros s' r HG' Hd Hf Hr. split; [done|]. split; [done|]. exists 0%nat. split; [lia|]. split; [done|]. intros. left. by apply Hr. }
  pose proof (holds_same _ _ _ Hs1 HG) as HG1. destruct locked; cbn [negb]; [|by apply wp_ret, Hnone]. apply wp_bind, wp_get.
  destruct (decide (network_len s1 = 0)) as [E|E].
  { apply wp_ret, Hnone; [done..|]. intros _. destruct HG1 as (m & g & Hst). rewrite (st_len _ _ _ _ Hst) in E. apply map_size_empty_iff. lia. }
  apply wp_bind, wp_tick. intros i s2 Hs2. destruct (same_fields _ _ Hs2) as (_ & _ & _ & _ & (Ed2 & _ & Ef2 & _)). pose proof (holds_same _ _ _ Hs2 HG1) as HG2.
  destruct (w_loopback w i); cbn [negb]; [|apply wp_ret, Hnone; [done|congruence|congruence|done]].
  wp_call (foreach_ok (extral_nets conf) false attach_network_plane true s2 G HG2). intros r s3 (HG3 & Ed3 & Ef3 & pl & _ & _ & Hr).
  destruct (decide (r ≠ 0)) as [Hne|Hz%dec_stable]; [apply wp_ret, Hnone; [done|congruence|congruence|done]|]. destruct (Hr Hz) as [_ Hall].
  eapply wp_mono; [by apply add_loop_ok|]. cbn beta. intros r' s4 ((Ed4 & _ & Ef4 & _) & n & Hle & HG4 & Hz4). split; [congruence|]. split; [congruence|].
  exists n. split; [done|]. split; [done|]. intros E4. right. split; [by apply Hz4|by apply Hall].
Qed.

Lemma detach_ok s G conf :
  holds s G → Forall is_Some (extral_nets conf) →
  wp (native_detach_networks w (Some conf)) (λ r s', conf_path s' = conf_path s ∧ n_files s' = n_files s ∧
    (holds s' (drop_all (pod_id conf) (names (extral_nets conf)) G) ∨ r = -1 ∧ same s s')) s.
Proof.
  intros HG Hn. unfold native_detach_networks. apply wp_bind, wp_store_lock. intros locked s1 Hs1. destruct (same_fields _ _ Hs1) as (_ & _ & _ & _ & (Ed1 & _ & Ef1 & _)).
  pose proof (holds_same _ _ _ Hs1 HG) as HG1. destruct locked; cbn [negb]; [|apply wp_ret; by auto]. apply wp_bind, wp_get. apply wp_bind.
  apply (wp_mono _ (λ _ s2, holds s2 G ∧ conf_path s2 = conf_path s ∧ n_files s2 = n_files s)).
  - destruct (decide _); [by apply wp_ret|]. apply wp_bind, wp_tick. intros i s2 Hs2. destruct (same_fields _ _ Hs2) as (_ & _ & _ & _ & (Ed2 & _ & Ef2 & _)).
    pose proof (holds_same _ _ _ Hs2 HG1) as HG2. destruct (w_loopback w i); cbn [negb]; [|apply wp_ret; split; [done|split; congruence]].
    eapply wp_mono; [by apply foreach_ok|]. cbn beta. intros r s3 (HG3 & Ed3 & Ef3 & _). split; [done|split; congruence].
  - intros ret s2 (HG2 & Ed2 & Ef2). wp_call (remove_loop_ok (extral_nets conf) (pod_id conf) s2 G HG2 Hn). intros [] s3 ((Ed3 & _ & Ef3 & _) & HG3).
    apply wp_ret. split; [congruence|]. split; [congruence|]. by left.
Qed.

Lemma exist_ok s G name : holds s G → reads (native_network_exist w (Some name)) s (λ b, b = true → is_Some (G !! name)).
Proof.
  intros (m & g & Hst). unfold native_network_exist. eapply reads_bind; [apply reads_lock|]. intros locked s1 Hs1 _. destruct locked; cbn [negb]; [|by apply reads_ret].
  eapply reads_bind; [by eapply search_name_ok, stored_same|]. intros r s2 _ ->. apply reads_ret. intros [p Hp]%bool_decide_eq_true. cbn in Hp.
  destruct (deref_at _ _ _ _ Hst name p Hp) as [_ ->]. by eexists.
Qed.

Lemma inspect_ok s G name :
  holds s G → reads (native_config_inspect w (Some name)) s (λ r, r = (-1, None) ∨ ∃ n, G !! name = Some n ∧ r = (0, nl_bytes (conflist n))).
Proof.
  intros (m & g & Hst). unfold native_config_inspect. eapply reads_bind; [apply reads_lock|]. intros locked s1 Hs1 _. destruct locked; cbn [negb]; [|apply reads_ret; by left].
  pose proof (stored_same _ _ _ _ _ Hs1 Hst) as Hst1. eapply reads_bind; [by eapply get_network_ok|]. intros [p|] s2 Hs2 Hp; [|apply reads_ret; by left].
  eapply reads_bind; [eapply network_at_ok; [by eapply stored_same|by apply Hp]|]. intros n s3 _ HG. apply reads_ret. right. by exists n.
Qed.

(** *** Listing *)
Definition info (l : cni_net_conf_list) : network_info := (l_name l, l_cni_version l, omap (λ p, p ≫= p_type) (l_plugins l)).

Lemma plugin_types_ok mem i plugins s :
  Forall typed_plugin plugins →
  reads (plugin_types mem i plugins) s (λ r, ∀ ts, r = Some ts → ts = omap (λ p, p ≫= p_type) plugins).
Proof.
  intros Hp. revert i s. induction Hp as [|p plugins (q & t & -> & Ht & _) Hp IH]; intros i s; cbn [plugin_types omap list_omap mbind option_bind].
  { apply reads_ret. by intros ts [= <-]. }
  rewrite Ht. destruct (mem i); cbn [negb]; [|by apply reads_ret]. eapply reads_bind; [apply IH|]. intros [ts|] s1 _ Hts; apply reads_ret; [|done].
  intros ts' [= <-]. by rewrite (Hts ts eq_refl).
Qed.

Section list.
Context (keep : cni_net_conf_list → M (nstate NT) bool) (K : cni_net_conf_list → Prop).
Context (Hkeep : ∀ l s, typed l → reads (keep l) s (λ b, b = true ↔ K l)).

Lemma list_loop_ok s G m g ps nets cap :
  stored s G m g → Forall (λ p, ∃ k, g !! k = Some p) ps → Z.of_nat (length nets + length ps) <= cap →
  reads (list_loop w keep cap ps nets) s (λ r, ∀ out, r = Some out → (length out ≤ length nets + length ps)%nat ∧
    ∀ x, x ∈ out ↔ x ∈ nets ∨ ∃ p, p ∈ ps ∧ K (list_of (deref (n_heap s) p)) ∧ x = info (list_of (deref (n_heap s) p))).
Proof.
  intros Hst Hps. revert s nets Hst. induction Hps as [|p ps (k & Hk) Hps IH]; intros s nets Hst Hcap; cbn [list_loop length] in *.
  { apply reads_ret. intros out [= <-]. split; [lia|]. intros x. split; [by left|]. intros [?|(p & ?%elem_of_nil & _)]; done. }
  eapply reads_bind; [by eapply list_at_ok|]. intros l s1 Hs1 ->. destruct (deref_at _ _ _ _ Hst k p Hk) as [_ HG]. pose proof (st_named _ _ _ _ Hst k _ HG) as [_ _ Ht].
  eapply reads_bind; [by apply Hkeep|]. intros b s2 Hs2 Hb. pose proof (same_trans _ _ _ Hs1 Hs2) as Hs12.
  destruct b; cbn [negb].
  - unfold get_network_info. eapply (reads_bind _ _ _ (λ r, ∀ x, r = Some x → x = info (list_of (deref (n_heap s) p)))).
    { eapply reads_bind; [by apply (reads_tick _ (λ _, True))|]. intros i s3 _ _. destruct (w_mem w i 0%nat); cbn [negb]; [|by apply reads_ret].
      eapply reads_bind; [by apply plugin_types_ok|]. intros [ts|] s4 _ Hts; apply reads_ret; [|done]. intros x [= <-]. unfold info. by rewrite (Hts ts eq_refl). }
    intros [x|] s3 Hs3 Hx; [|by apply reads_ret]. rewrite (Hx x eq_refl). rewrite decide_False by lia. pose proof (same_trans _ _ _ Hs12 Hs3) as Hs13.
    eapply reads_mono; [apply IH; [by eapply stored_same|rewrite length_app; cbn [length]; lia]|]. cbn beta. intros r Hr out ->. destruct (Hr _ eq_refl) as [Hlen Hin].
    rewrite length_app in Hlen. cbn [length] in Hlen. split; [lia|]. intros y. rewrite Hin, elem_of_app, list_elem_of_singleton, (same_heap _ _ Hs13). setoid_rewrite elem_of_cons. naive_solver.
  - eapply reads_mono; [apply IH; [by eapply stored_same|lia]|]. cbn beta. intros r Hr out ->. destruct (Hr _ eq_refl) as [Hlen Hin]. split; [lia|].
    intros y. rewrite Hin, (same_heap _ _ Hs12). setoid_rewrite elem_of_cons. naive_solver.
Qed.
End list.

Section filters.
Context {FT BT : Type} {FM : StrMap nat FT} {BM : StrMap bool BT}.
Context (util_reg_match : option string → option string → Z) (filters : filters_args FT BT) (A : cstr → gset cstr).
Context (HA : represents filters A) (Hsmall : ∀ k, Z.of_nat (size (A k)) < two64).

(** A network is listed when its name and one of its plugins are wanted. *)
Definition listed (l : cni_net_conf_list) : Prop :=
  wanted util_reg_match A (cstr_of "name") (l_name l) ∧ ∃ q, Some q ∈ l_plugins l ∧ wanted util_reg_match A (cstr_of "plugin") (p_type q).

Lemma matches_filter_ok field source s :
  reads (matches_filter util_reg_match filters field source) s (λ b, b = true ↔ wanted util_reg_match A (cstr_of field) source).
Proof.
  unfold matches_filter. pose proof (match_ok util_reg_match filters A (cstr_of field) source HA (Hsmall _)) as H. unfold wp in H.
  destruct (filters_args_match util_reg_match true (cstr_of field) source filters) as [[b f]|]; [|done]. apply reads_ret. by destruct H.
Qed.

Lemma network_filter_ok l s : typed l → reads (network_info_match_filter util_reg_match filters l) s (λ b, b = true ↔ listed l).
Proof.
  intros Ht. unfold network_info_match_filter, listed. eapply reads_bind; [apply matches_filter_ok|]. intros b s1 _ Hb. destruct b; cbn [negb]; [|apply reads_ret; naive_solver].
  assert (Hn : wanted util_reg_match A (cstr_of "name") (l_name l)) by (by apply Hb). clear Hb. red in Ht. revert s1.
  induction Ht as [|p plugins (q & t & -> & Hq & _) Ht IH]; intros s1; cbn [plugin_matches].
  { apply reads_ret. split; [done|]. by intros (_ & q & ?%elem_of_nil & _). }
  eapply reads_bind; [apply matches_filter_ok|]. intros b s2 _ Hb. destruct b; [apply reads_ret; split; [|done]; intros _; split; [done|]; exists q; split; [by left|by apply Hb]|].
  eapply reads_mono; [apply IH|]. cbn beta. intros b' ->. setoid_rewrite elem_of_cons. naive_solver.
Qed.
Lemma network_list_ok s G :
  holds s G →
  reads (native_config_list w util_reg_match (Some filters)) s (λ r, r.1 = 0 → (length r.2 ≤ size G)%nat ∧
    ∀ x, x ∈ r.2 ↔ ∃ k n, G !! k = Some n ∧ listed (list_of n) ∧ x = info (list_of n)).
Proof.
  intros (m & g & Hst). unfold native_config_list. eapply reads_bind; [apply reads_lock|]. intros locked s1 Hs1 _. destruct locked; cbn [negb]; [|by apply reads_ret].
  eapply reads_bind; [apply reads_get|]. intros ? s2 Hs2 ->. pose proof (stored_same _ _ _ _ _ (same_trans _ _ _ Hs1 Hs2) Hst) as Hst2.
  pose proof (stored_same _ _ _ _ _ Hs1 Hst) as Hst1. destruct (decide (network_len s1 = 0)) as [E|E].
  { apply reads_ret. intros _. rewrite (st_len _ _ _ _ Hst1) in E. assert (G = ∅) as -> by (apply map_size_empty_iff; lia). split; [cbn; lia|].
    intros x. split; [by intros ?%elem_of_nil|]. intros (k & n & Hk & _). by rewrite lookup_empty in Hk. }
  eapply reads_bind; [by apply (reads_tick _ (λ _, True))|]. intros i s3 Hs3 _. pose proof (stored_same _ _ _ _ _ Hs3 Hst2) as Hst3.
  destruct (util_smart_calloc_s _ _ _); cbn [negb]; [|by apply reads_ret]. eapply reads_bind; [by eapply all_networks_ok|]. intros ps s4 Hs4 Hps.
  destruct (w_mem w i 1%nat); [destruct Hps as (ps' & -> & Hps)|subst; by apply reads_ret]. pose proof (stored_same _ _ _ _ _ Hs4 Hst3) as Hst4.
  assert (Hlen : length ps' = size G) by (rewrite Hps, length_fmap, (size_ptrs _ _ _ _ Hst4); apply length_map_to_list).
  eapply reads_bind.
  { eapply (list_loop_ok _ listed); [intros; by apply network_filter_ok|exact Hst4| |rewrite (st_len _ _ _ _ Hst1); cbn [length]; lia].
    apply list.Forall_forall. intros p Hp. eapply ptr_named. by rewrite <- Hps. }
  intros [nets|] s5 _ Hr; [|by apply reads_ret]. destruct (Hr _ eq_refl) as [Hle Hin]. cbn [length] in Hle.
  assert (Hfinal : (length nets ≤ size G)%nat ∧ ∀ x, x ∈ nets ↔ ∃ k n, G !! k = Some n ∧ listed (list_of n) ∧ x = info (list_of n)).
  { split; [lia|]. intros x. rewrite Hin. split.
    - intros [?%elem_of_nil|(p & Hp & HK & ->)]; [done|]. rewrite Hps in Hp. apply ptr_named in Hp as [k Hk]. exists k, (deref (n_heap s4) p).
      split; [by destruct (deref_at _ _ _ _ Hst4 k p Hk)|done].
    - intros (k & n & Hk & HK & ->). right. destruct (lookup_ptr _ _ _ _ Hst4 k n Hk) as (p & Hp & Hh). exists p. unfold deref. rewrite Hh. split; [|done].
      rewrite Hps. apply list_elem_of_fmap. exists (k, p). split; [done|]. by apply elem_of_map_to_list. }
  destruct (decide (network_len s1 ≠ _)); [|by apply reads_ret]. destruct (decide (nets = [])) as [->|]; [by apply reads_ret|].
  destruct (util_common_calloc_s _ _); by apply reads_ret.
Qed.
End filters.
End proofs.
