(* ===== verification/NativeHistory.v ===== *)
(** * Histories of native networks

    Sequences of calls on the store of [NativeNetwork]: what they do to the
    finite map of networks, the separation of networks that they keep, and the
    requests that break it. *)
From stdpp Require Import base gmap list fin_maps numbers strings.
From Stdlib Require Import ZArith Lia Ascii.
From S2P Require Import Prelude CString Regex Array RbTree Map StrMap Convert StringUtil Verify Path SymlinkScope IpNet Ipv6 Subnet Filters CniConf NativeNetwork NativeCorrect.

Local Open Scope Z_scope.

Inductive nop :=
  | NCreate (request : network_create_request)
  | NRemove (name : cstr)
  | NAttach (conf : network_api_conf)
  | NDetach (conf : network_api_conf)
  | NConnect (name id : cstr)
  | NExist (name : cstr)
  | NInspect (name : cstr).

(** Networks do not get in each other's way: no two of them have a bridge in
    common, every subnet is readable, and the subnets of different networks
    have no address in common. *)
Record separate (G : gmap cstr native_network) : Prop := {
  sep_bridge : ∀ k1 k2 n1 n2 b, G !! k1 = Some n1 → G !! k2 = Some n2 → b ∈ bridges_of (list_of n1) → b ∈ bridges_of (list_of n2) → k1 = k2;
  sep_read : ∀ k n x, G !! k = Some n → x ∈ subnets_of (list_of n) → is_Some (util_parse_ipnet_from_str true (Some x));
  sep_meet : ∀ k1 k2 n1 n2 x1 x2 a1 a2, G !! k1 = Some n1 → G !! k2 = Some n2 → k1 ≠ k2 → x1 ∈ subnets_of (list_of n1) → x2 ∈ subnets_of (list_of n2) →
    util_parse_ipnet_from_str true (Some x1) = Some a1 → util_parse_ipnet_from_str true (Some x2) = Some a2 → ¬ meet a1 a2
}.

Section history.
Context {NT : Type} {NM : StrMap nat NT} (list_generate : cni_net_conf_list → option string) (w : world).
Context (cwd : list chars) (Hcwd : Forall comp_ok cwd) (Hwd : w_cwd w = Some (to_str (render cwd))) (Hmem : memory w).
Implicit Types (s : nstate NT) (G : gmap cstr native_network).

Definition ncall (op : nop) : M (nstate NT) Z :=
  match op with
  | NCreate request => r ← network_create_cb list_generate w request; mret r.1.1
  | NRemove name => r ← native_config_remove w (Some name); mret r.1
  | NAttach conf => native_attach_networks w (Some conf)
  | NDetach conf => native_detach_networks w (Some conf)
  | NConnect name id => native_network_add_container_list w (Some name) (Some id)
  | NExist name => b ← native_network_exist w (Some name); mret (Z.b2z b)
  | NInspect name => r ← native_config_inspect w (Some name); mret r.1
  end.

Fixpoint ncalls (ops : list nop) : M (nstate NT) (list Z) :=
  match ops with [] => mret [] | op :: ops => r ← ncall op; rs ← ncalls ops; mret (r :: rs) end.

(** No element of the networks of a container is [NULL]. *)
Definition op_ok (op : nop) : Prop := match op with NAttach conf | NDetach conf => Forall is_Some (extral_nets conf) | _ => True end.

(** What a call promises on a finite map. *)
Definition nspec (op : nop) G (r : Z) G' : Prop :=
  match op with
  | NCreate request => (r ≠ 0 ∧ G' = G) ∨
      ∃ l k b x json, new_conf w G request l k b x ∧ list_generate l = Some json ∧ G !! k = None ∧ G' = <[k := record_of l json]> G
  | NRemove name => (r = -1 ∧ G' = G) ∨ (r = 0 ∧ (∃ n, G !! name = Some n ∧ containers_list n = []) ∧ G' = delete name G)
  | NAttach conf => ∃ n, G' = add_all (pod_id conf) (take n (names (extral_nets conf))) G ∧
      (r = 0 → G = ∅ ∨ n = length (extral_nets conf) ∧ Forall (λ k, is_Some (G !! k)) (omap complete (extral_nets conf)))
  | NDetach conf => G' = drop_all (pod_id conf) (names (extral_nets conf)) G ∨ r = -1 ∧ G' = G
  | NConnect name id => (r = 0 ∧ is_Some (G !! name) ∧ G' = add_to G id (Some name)) ∨ (r = -1 ∧ G' = G)
  | NExist name => G' = G ∧ (r = 0 ∨ is_Some (G !! name))
  | NInspect name => G' = G ∧ (r = -1 ∨ r = 0 ∧ is_Some (G !! name))
  end.

Inductive nspecs : list nop → gmap cstr native_network → list Z → gmap cstr native_network → Prop :=
  | nspecs_nil G : nspecs [] G [] G
  | nspecs_cons op ops G r G' rs G'' : nspec op G r G' → nspecs ops G' rs G'' → nspecs (op :: ops) G (r :: rs) G''.

Lemma size_on_containers f G k : size (on_containers f G k) = size G.
Proof.
  unfold on_containers. destruct k as [k|]; [|done]. destruct (G !! k) as [n|] eqn:E; [|done]. apply map_size_insert_Some. by eexists.
Qed.

Lemma size_add_all id ks G : size (add_all id ks G) = size G.
Proof. unfold add_all, flip. revert G. induction ks as [|k ks IH]; intros G; cbn [foldl]; [done|]. rewrite IH. apply size_on_containers. Qed.

Lemma size_drop_all id ks G : size (drop_all id ks G) = size G.
Proof. unfold drop_all, flip. revert G. induction ks as [|k ks IH]; intros G; cbn [foldl]; [done|]. rewrite IH. apply size_on_containers. Qed.

(** What a call does to the files when nothing fails: the networks keep their
    configurations and the files stay, or a network comes or goes with its file. *)
Definition same_confs G G' : Prop := ∀ k, conflist <$> G' !! k = conflist <$> G !! k.

Definition new_file (dir : string) G G' (F F' : gmap string string) : Prop :=
  ∃ l k json, G' = <[k := record_of l json]> G ∧ F' = put_conf (conflist_file dir k) json F ∧ list_generate l = Some json ∧ l_name l = Some k ∧ typed l ∧
    l_plugins l ≠ [] ∧ util_validate_network_name (Some (cstr_s k)) = true ∧ (String.length (conflist_file dir k) < PATH_MAX)%nat.

Definition old_file (dir : string) G G' (F F' : gmap string string) : Prop :=
  ∃ k, is_Some (G !! k) ∧ G' = delete k G ∧ (F' = delete (conflist_file dir k) F ∨ F' = F ∧ (PATH_MAX ≤ String.length (conflist_file dir k))%nat).

Definition file_step dir G G' F F' : Prop := same_confs G G' ∧ F' = F ∨ new_file dir G G' F F' ∨ old_file dir G G' F F'.

Lemma same_confs_on f G k : same_confs G (on_containers f G k).
Proof.
  intros k'. unfold on_containers. destruct k as [k|]; [|done]. destruct (G !! k) as [n|] eqn:E; [|done].
  destruct (decide (k = k')) as [->|]; [by rewrite lookup_insert_eq, E|by rewrite lookup_insert_ne].
Qed.

Lemma same_confs_foldl f ks G : same_confs G (foldl (λ G k, on_containers f G k) G ks).
Proof. revert G. induction ks as [|k ks IH]; intros G k'; cbn [foldl]; [done|]. rewrite IH. apply same_confs_on. Qed.

(** The store holds [G] and knows its directory. *)
Definition ready (dir : string) s G : Prop := holds s G ∧ conf_path s = Some dir.

Lemma ready_same dir s s' G : same s s' → ready dir s G → ready dir s' G.
Proof. intros Hs [HG Hd]. split; [by eapply holds_same|]. destruct (same_fields _ _ Hs) as (_ & _ & _ & _ & (Ed & _)). congruence. Qed.

Lemma create_cb_ok dir s G request :
  ready dir s G → Z.of_nat (size G) + 1 < two64 →
  wp (network_create_cb list_generate w request) (λ r s', not_created w s G s' ∧ r.1.1 ≠ 0 ∨
    created list_generate w s G request r.1.2 s' ∧ ∀ name, rq_name request = Some name → util_validate_network_name (Some (cstr_s name)) = true) s.
Proof.
  intros [HG Hdir] Hsz. unfold network_create_cb. apply wp_bind, wp_tick. intros i s1 Hs1. destruct (same_fields _ _ Hs1) as (_ & _ & _ & _ & (Ed & _ & Ef & _)).
  destruct (decide _) as [Hne|Hz%dec_stable]; [apply wp_ret; left; split; [|done]; split; [by eapply holds_same|]; split; [done|intros; congruence]|].
  eapply wp_mono; [apply (network_create_ok list_generate w cwd Hcwd Hwd s1 G request dir Hmem); [by eapply holds_same|congruence|done]|]. cbn beta. intros r s' [[(HG' & Ed' & Ef') Hr]|H].
  - left. split; [split; [done|]; split; [congruence|]; intros Hc; rewrite Ef' by done; done|]. by rewrite Hr.
  - right. split; [|intros name En; by apply (check_parameter_name _ _ name Hz)].
    destruct H as (l & k & b & x & json & dir' & H1 & H2 & H3 & H4 & H5 & H6 & H7 & H8 & H9). exists l, k, b, x, json, dir'. rewrite Ed in H5. rewrite Ef in H8. by split_and!.
Qed.

(** The name of a new network is valid, also when it is the one of its bridge. *)
Lemma new_conf_file dir s G request name s' :
  created list_generate w s G request name s' → conf_path s = Some dir →
  (∀ name, rq_name request = Some name → util_validate_network_name (Some (cstr_s name)) = true) →
  ∃ G', ready dir s' G' ∧ size G' = S (size G) ∧ new_file dir G G' (n_files s) (n_files s') ∧
    ∃ l k b x json, new_conf w G request l k b x ∧ list_generate l = Some json ∧ G !! k = None ∧ G' = <[k := record_of l json]> G.
Proof.
  intros (l & k & b & x & json & dir' & Hn & Hg & _ & HGk & Hd & HG' & Hd' & Hf & Hlen) Hdir Hv. assert (dir' = dir) as -> by congruence.
  exists (<[k := record_of l json]> G). split; [done|]. rewrite map_size_insert_None by done. split; [done|]. split; [|by exists l, k, b, x, json].
  destruct Hn as [Hnm Hwh _ Hbs Hfb _ _ Ht]. exists l, k, json. split_and!; try done.
  - intros E. unfold bridges_of in Hbs. by rewrite E in Hbs.
  - destruct (rq_name request) as [nm|]; [subst k; by apply Hv|]. rewrite Hwh. pose proof (fresh_bridge_text w G b Hfb) as ->. destruct Hfb as ((j & Hj & ->) & _).
    by destruct (bridge_text_ok j Hj) as (_ & _ & ?).
Qed.

Lemma ncall_ok dir s G op :
  ready dir s G → Z.of_nat (size G) + 1 < two64 → op_ok op →
  wp (ncall op) (λ r s', ∃ G', ready dir s' G' ∧ nspec op G r G' ∧ (size G' ≤ S (size G))%nat ∧ (calm w → file_step dir G G' (n_files s) (n_files s'))) s.
Proof.
  intros HR Hsz Hop. pose proof HR as [HG Hdir].
  assert (Hsame : ∀ s' r, same s s' → nspec op G r G →
    ∃ G', ready dir s' G' ∧ nspec op G r G' ∧ (size G' ≤ S (size G))%nat ∧ (calm w → file_step dir G G' (n_files s) (n_files s'))).
  { intros s' r Hs Hn. exists G. split; [by eapply ready_same|]. split; [done|]. split; [lia|]. intros _. left.
    destruct (same_fields _ _ Hs) as (_ & _ & _ & _ & (_ & _ & Ef & _)). split; [done|congruence]. }
  destruct op as [request|name|conf|conf|name id|name|name]; cbn [ncall nspec op_ok] in *.
  - wp_call (create_cb_ok dir s G request HR Hsz). intros r s' H. apply wp_ret. destruct H as [[(HG' & Hd & Hf) Hr]|[Hc Hv]].
    + exists G. split; [split; [done|congruence]|]. split; [by left|]. split; [lia|]. intros Hcalm. left. split; [done|by apply Hf].
    + destruct (new_conf_file dir s G request _ s' Hc Hdir Hv) as (G' & HR' & Hsz' & Hnf & Hsp). exists G'. split; [done|]. split; [by right|]. split; [lia|].
      intros _. right. by left.
  - wp_call (network_remove_ok w s G name dir HG Hdir ltac:(lia)). intros r s' [[-> Hs]|[-> (n & dir' & H1 & H2 & H3 & H4 & H5 & H6)]]; apply wp_ret.
    + apply Hsame; [done|by left].
    + assert (dir' = dir) as -> by congruence. exists (delete name G). split; [done|]. split; [right; split; [done|]; split; [by exists n|done]|].
      split; [rewrite map_size_delete, H1; lia|]. intros Hcalm. right. right. exists name. split; [by eexists|]. split; [done|]. naive_solver.
  - eapply wp_mono; [by apply attach_ok|]. cbn beta. intros r s' (Hd & Hf & n & Hle & HG' & Hr). eexists. split; [split; [done|congruence]|]. split; [by exists n|].
    split; [rewrite size_add_all; lia|]. intros _. left. split; [apply same_confs_foldl|done].
  - eapply wp_mono; [by apply detach_ok|]. cbn beta. intros r s' (Hd & Hf & [HG'|[-> Hs]]); [|apply Hsame; [done|by right]].
    eexists. split; [split; [done|congruence]|]. split; [by left|]. split; [rewrite size_drop_all; lia|]. intros _. left. split; [apply same_confs_foldl|done].
  - unfold native_network_add_container_list. apply wp_bind, wp_store_lock. intros locked s1 Hs1. destruct (ready_same dir s s1 G Hs1 HR) as [HG1 Hd1]. destruct locked; cbn [negb].
    2:{ apply wp_ret, Hsame; [done|by right]. }
    destruct (same_fields _ _ Hs1) as (_ & _ & _ & _ & (_ & _ & Ef1 & _)).
    eapply wp_mono; [by apply add_container_ok|]. cbn beta. intros r s' [(Hd & _ & Hf & _) [(-> & (k & [= <-] & Hk) & HG')|[-> HG']]].
    + eexists. split; [split; [done|congruence]|]. split; [by left|]. split; [unfold add_to; rewrite size_on_containers; lia|]. intros _. left. split; [apply same_confs_on|congruence].
    + exists G. split; [split; [done|congruence]|]. split; [by right|]. split; [lia|]. intros _. left. split; [done|congruence].
  - wp_call (exist_ok w s G name HG). intros b s' [Hs Hb]. apply wp_ret, Hsame; [done|]. split; [done|]. destruct b; [right; by apply Hb|by left].
  - wp_call (inspect_ok w s G name HG). intros r s' [Hs [->|(n & Hn & ->)]]; apply wp_ret, Hsame; try done; (split; [done|]); [by left|right]. split; [done|by eexists].
Qed.

(** With an invariant on the networks and the files that every call keeps. *)
Lemma ncalls_ok (Inv : gmap cstr native_network → gmap string string → Prop) ops dir s G :
  (∀ G G' F F', (calm w → file_step dir G G' F F') → Inv G F → Inv G' F') →
  ready dir s G → Inv G (n_files s) → Z.of_nat (size G + length ops) < two64 → Forall op_ok ops →
  wp (ncalls ops) (λ rs s', ∃ G', ready dir s' G' ∧ nspecs ops G rs G' ∧ Inv G' (n_files s') ∧ (size G' ≤ size G + length ops)%nat) s.
Proof.
  intros Hinv. revert s G. induction ops as [|op ops IH]; intros s G HG HI Hsz Hok; cbn [ncalls length] in *.
  { apply wp_ret. exists G. split; [done|]. split; [constructor|]. split; [done|lia]. }
  apply list.Forall_cons in Hok as [Hop Hok]. apply wp_bind. eapply wp_mono; [apply ncall_ok; [done|lia|done]|]. cbn beta. intros r s1 (G1 & HG1 & Hn & Hs1 & Hf).
  apply wp_bind. eapply wp_mono; [apply IH; [done|by eapply Hinv|lia|done]|]. cbn beta. intros rs s2 (G2 & HG2 & Hns & HI2 & Hs2). apply wp_ret. exists G2. split; [done|].
  split; [by econstructor|]. split; [done|lia].
Qed.

(** ** Separation *)
Definition op_readable (op : nop) : Prop := match op with NCreate request => readable_request request | _ => True end.

Lemma separate_lists G G' : (∀ k n', G' !! k = Some n' → ∃ n, G !! k = Some n ∧ list_of n' = list_of n) → separate G → separate G'.
Proof.
  intros HG [Hb Hr Hm]. split.
  - intros k1 k2 n1 n2 b (m1 & H1 & ->)%HG (m2 & H2 & ->)%HG. by eapply Hb.
  - intros k n x (m & H & ->)%HG. by eapply Hr.
  - intros k1 k2 n1 n2 x1 x2 a1 a2 (m1 & H1 & ->)%HG (m2 & H2 & ->)%HG. by eapply Hm.
Qed.

Lemma lists_on_containers f G k k' n' : on_containers f G k !! k' = Some n' → ∃ n, G !! k' = Some n ∧ list_of n' = list_of n.
Proof.
  unfold on_containers. destruct k as [k|]; [|by eauto]. destruct (G !! k) as [n|] eqn:E; [|by eauto].
  intros [[-> <-]|[_ H]]%lookup_insert_Some; [by exists n|by eauto].
Qed.

Lemma lists_foldl f ks G k' n' : foldl (λ G k, on_containers f G k) G ks !! k' = Some n' → ∃ n, G !! k' = Some n ∧ list_of n' = list_of n.
Proof.
  revert G. induction ks as [|k ks IH]; intros G; cbn [foldl]; [by eauto|]. intros (n & H & ->)%IH. by apply lists_on_containers in H.
Qed.

Lemma separate_insert G request l k b x json :
  separate G → new_conf w G request l k b x → G !! k = None → readable_request request → separate (<[k := record_of l json]> G).
Proof.
  intros [Hb Hr Hm] [_ _ _ Hbs (_ & _ & Hfb & _) Hxs Hfx _] HGk Hread. destruct (Hfx Hread) as (net & Hp & Hun & _).
  assert (Hl : list_of (record_of l json) = l) by done. split.
  - intros k1 k2 n1 n2 b' [[<- <-]|[N1 H1]]%lookup_insert_Some [[<- <-]|[N2 H2]]%lookup_insert_Some; [done|..|by eapply Hb];
      rewrite Hl, Hbs, list_elem_of_singleton; [intros -> Hin|intros Hin ->]; destruct Hfb; by eexists _, _.
  - intros k' n' x' [[<- <-]|[_ H]]%lookup_insert_Some; [|by eapply Hr]. rewrite Hl, Hxs, list_elem_of_singleton. intros ->. by rewrite Hp.
  - intros k1 k2 n1 n2 x1 x2 a1 a2 [[<- <-]|[N1 H1]]%lookup_insert_Some [[<- <-]|[N2 H2]]%lookup_insert_Some Hne; [done|..|by eapply Hm];
      rewrite Hl, Hxs, list_elem_of_singleton; [intros -> Hin E1 E2|intros Hin -> E1 E2].
    + assert (a1 = net) as -> by congruence. intros Hmeet%meet_sym. eapply Hun; [|exact E2|exact Hmeet]. by eexists _, _.
    + assert (a2 = net) as -> by congruence. intros Hmeet. eapply Hun; [|exact E1|exact Hmeet]. by eexists _, _.
Qed.

Lemma nspec_separate op G r G' : nspec op G r G' → op_readable op → separate G → separate G'.
Proof.
  destruct op as [request|name|conf|conf|name id|name|name]; cbn [nspec op_readable]; intros H Hread Hsep.
  - destruct H as [[_ ->]|(l & k & b & x & json & Hn & _ & Hk & ->)]; [done|by eapply separate_insert].
  - destruct H as [[_ ->]|(_ & _ & ->)]; [done|]. eapply separate_lists; [|exact Hsep]. intros k n [_ Hk]%lookup_delete_Some. by eauto.
  - destruct H as (n & -> & _). eapply separate_lists; [|exact Hsep]. intros k n'. apply lists_foldl.
  - destruct H as [->|[_ ->]]; [|done]. eapply separate_lists; [|exact Hsep]. intros k n'. apply lists_foldl.
  - destruct H as [(_ & _ & ->)|[_ ->]]; [|done]. eapply separate_lists; [|exact Hsep]. intros k n'. apply lists_on_containers.
  - by destruct H as [-> _].
  - by destruct H as [-> _].
Qed.

Lemma nspecs_separate ops G rs G' : nspecs ops G rs G' → Forall op_readable ops → separate G → separate G'.
Proof. induction 1 as [|op ops G r G1 rs G2 Hn _ IH]; [done|]. rewrite list.Forall_cons. intros [Hop Hops] Hsep. apply IH; [done|]. by eapply nspec_separate. Qed.

(** Two networks with one subnet are not separate. *)
Lemma shared_subnet s G p1 p2 n1 n2 x :
  holds s G → n_heap s !! p1 = Some n1 → n_heap s !! p2 = Some n2 → p1 ≠ p2 → x ∈ subnets_of (list_of n1) → x ∈ subnets_of (list_of n2) →
  (∀ net, util_parse_ipnet_from_str true (Some x) = Some net → meet net net) → ¬ separate G.
Proof.
  intros (m & g & Hst) H1 H2 Hne Hx1 Hx2 Hm [_ Hread Hmeet].
  assert (Hin : ∀ p n, n_heap s !! p = Some n → ∃ k, g !! k = Some p ∧ G !! k = Some n).
  { intros p n Hp. destruct (st_used _ _ _ _ Hst p ltac:(by eexists)) as [k Hk]. exists k. split; [done|]. destruct (deref_at _ _ _ _ Hst k p Hk) as [E HG]. congruence. }
  destruct (Hin _ _ H1) as (k1 & Hk1 & HG1), (Hin _ _ H2) as (k2 & Hk2 & HG2). destruct (Hread _ _ _ HG1 Hx1) as [net Hnet].
  eapply (Hmeet k1 k2); [done|done|congruence|done|done|done|done|by apply Hm].
Qed.


Lemma separate_empty : separate ∅.
Proof. split; by intros; rewrite lookup_empty in *. Qed.

(** C7: Networks stay separate: whatever is created and removed, in any order, no two
    networks ever share a bridge or an address, as long as the requested subnets
    have an unambiguous text and memory suffices to compare addresses. *)
Theorem networks_stay_separate ops dir s G :
  ready dir s G → separate G → Z.of_nat (size G + length ops) < two64 → Forall op_ok ops → Forall op_readable ops →
  wp (ncalls ops) (λ _ s', ∃ G', ready dir s' G' ∧ separate G') s.
Proof.
  intros HG Hsep Hsz Hok Hread. eapply wp_mono; [by apply (ncalls_ok (λ _ _, True) ops dir s G)|]. cbn beta. intros rs s' (G' & HG' & Hns & _).
  exists G'. split; [done|]. by eapply nspecs_separate.
Qed.
End history.

(** ** Examples *)
Section examples.
Local Open Scope string_scope.
Let NM : StrMap nat (map_t nat MAP_STR_PTR) := str_ptr_map true.
#[local] Existing Instance NM.

(** A host with two interfaces on which everything works. *)
Definition sample_world : world :=
  mk_world (λ _ _, true) (λ _ _ _ _, true) (λ _, mem_ok) (λ _, true)
    (λ _, Some [mk_ifaddrs (cstr_of "lo") (Some (AF_INET [127; 0; 0; 1])); mk_ifaddrs (cstr_of "eth0") (Some (AF_INET [192; 168; 0; 5]))])
    (λ _ _, true) (λ _, true) (λ _, true) (λ _, true) (λ _, true) (λ _, true) (λ _ _, Some "0.3.0") (λ _, true) (λ _, true) (λ _, true) (Some "/").

Definition sample_dir : string := "/etc/cni/net.d".
Definition sample_store : option (nstate (map_t nat MAP_STR_PTR)) :=
  (λ m, mk_nstate (Some m) 0 (Some sample_dir) [cstr_of "/opt/cni/bin"] ∅ 0 ∅ [] 0) <$> sm_new true true true.

Definition create (name subnet : string) : nop := NCreate (mk_request (Some (cstr_of name)) None None false (Some subnet)).
Definition connect (name : string) : network_api_conf := mk_api_conf (cstr_of "c1") [Some (mk_attach (Some (cstr_of name)) (Some "eth0"))].

(** A subnet that overlaps, one that does not and one chosen by the daemon; a
    network with a container is not removed. *)
Definition sample_history : list nop :=
  [create "a" "10.1.0.0/16"; create "b" "10.1.2.0/24"; create "b" "10.2.0.0/16"; NCreate (mk_request None None None false None);
   NAttach (connect "b"); NRemove (cstr_of "b"); NDetach (connect "b"); NRemove (cstr_of "b")].

Lemma sample_ready s : sample_store = Some s → ready sample_dir s ∅.
Proof.
  unfold sample_store. pose proof (sm_new_ok true true true) as Hm. destruct (sm_new true true true) as [m|]; intros [= <-]. destruct Hm as [Hm _].
  split; [|done]. by eapply holds_empty.
Qed.

Lemma sample_memory : memory sample_world.
Proof. done. Qed.

Let print : cni_net_conf_list → option string := λ _, Some "{}".

Lemma sample_run ops rs :
  (s ← sample_store; fst <$> ncalls print sample_world ops s) = Some rs → ∃ s s', sample_store = Some s ∧ ncalls print sample_world ops s = Some (rs, s').
Proof.
  destruct sample_store as [s|]; cbn [mbind option_bind]; [|done]. destruct (ncalls print sample_world ops s) as [[rs1 s1]|] eqn:Hrun; [|done]. intros E. injection E as <-.
  by exists s, s1.
Qed.

Lemma create_readable name subnet : (∀ net, util_parse_ipnet_from_str true (Some subnet) = Some net → length (first_ip net) = IPV4LEN) → op_readable (create name subnet).
Proof. intros H x net [= <-] Hp. left. by apply H. Qed.

Lemma networks_stay_separate_witness :
  ∃ s s' rs, sample_store = Some s ∧ ncalls print sample_world sample_history s = Some (rs, s') ∧ ∃ G', ready sample_dir s' G' ∧ separate G'.
Proof.
  destruct (sample_run sample_history [0; -1; 0; 0; 0; -1; 0; 0]) as (s & s' & Hs & Hrun); [vm_compute; reflexivity|]. eexists s, s', _. split; [done|]. split; [exact Hrun|].
  pose proof (networks_stay_separate print sample_world [] (Forall_nil_2 _) eq_refl sample_memory sample_history sample_dir s ∅ (sample_ready s Hs) separate_empty) as H.
  unfold wp in H. rewrite Hrun in H. apply H; [done|by repeat constructor|].
  unfold sample_history. rewrite !list.Forall_cons. split_and!; try done; apply create_readable; intros net; vm_compute; by intros [= <-].
Defined.

(** Two networks that were created without an error and have one subnet. *)
Definition collide (ops : list nop) (x : string) : Prop :=
  ∃ s s' G', sample_store = Some s ∧ ncalls print sample_world ops s = Some ([0; 0], s') ∧ ready sample_dir s' G' ∧ ¬ separate G' ∧
    ∃ n1 n2, n_heap s' !! 0%nat = Some n1 ∧ n_heap s' !! 1%nat = Some n2 ∧ subnets_of (list_of n1) = [x] ∧ subnets_of (list_of n2) = [x].

Lemma collide_run ops x :
  Forall op_ok ops → Z.of_nat (length ops) < two64 → (∀ net, util_parse_ipnet_from_str true (Some x) = Some net → meet net net) →
  (s ← sample_store; r ← ncalls print sample_world ops s; n1 ← n_heap r.2 !! 0%nat; n2 ← n_heap r.2 !! 1%nat; Some (r.1, subnets_of (list_of n1), subnets_of (list_of n2))) =
    Some ([0; 0], [x], [x]) → collide ops x.
Proof.
  intros Hok Hlen Hm. destruct sample_store as [s|] eqn:Hs; cbn [mbind option_bind]; [|done].
  pose proof (ncalls_ok print sample_world [] (Forall_nil_2 _) eq_refl sample_memory (λ _ _, True) ops sample_dir s ∅ ltac:(done) (sample_ready s Hs) I) as H.
  unfold wp in H. destruct (ncalls print sample_world ops s) as [[rs s']|] eqn:Hrun; cbn [mbind option_bind fst snd]; [|done].
  destruct (H Hlen Hok) as (G' & HR & _). destruct (n_heap s' !! 0%nat) as [n1|] eqn:H1; [|done]. destruct (n_heap s' !! 1%nat) as [n2|] eqn:H2; [|done].
  cbn [mbind option_bind]. intros E. injection E as -> E1 E2. exists s, s', G'. split_and!; [done..| |by exists n1, n2].
  eapply (shared_subnet s' G' 0%nat 1%nat n1 n2 x); [apply HR|done|done|done| |  |done]; [rewrite E1|rewrite E2]; by left.
Qed.

End examples.
