(* ===== verification/NativeRestart.v ===== *)
(** * Restarting the daemon with native networks

    The configuration files that the store of [NativeNetwork] writes are found
    and loaded again by the functions of [CniConf]: after a restart the networks
    are the same, without their containers. *)
From stdpp Require Import base gmap list fin_maps numbers strings sorting.
From Stdlib Require Import ZArith Lia Ascii.
From S2P Require Import Prelude CString Regex Array RbTree Map StrMap Convert StringUtil Verify Path SymlinkScope IpNet Ipv6 Subnet Filters CniConf NativeNetwork NativeCorrect NativeHistory.

Local Open Scope Z_scope.

(** ** Names and paths *)

Definition plain (l : chars) : Prop := Forall (λ c, Ascii.eqb c slash = false) l.

Lemma cls_not_slash k c : in_cls k slash = false → in_cls k c = true → Ascii.eqb c slash = false.
Proof. intros Hk Hc. destruct (Ascii.eqb c slash) eqn:E; [|done]. apply Ascii.eqb_eq in E. subst. congruence. Qed.

(** A valid name has a first character and no slash. *)
Lemma valid_name_chars name : util_validate_network_name (Some name) = true → chars_of name ≠ [] ∧ plain (chars_of name).
Proof.
  unfold util_validate_network_name. case_decide; [done|].
  rewrite (reg_ok_iff _ (mk_regex true (Cat (Cls alnum_cls) (Star (Cls name_cls))) true)) by done. rewrite rx_re_anchored, matches_cls_cat.
  intros (c & r & -> & Hc & Hr%matches_star_cls). split; [done|]. constructor; [by apply (cls_not_slash alnum_cls)|].
  eapply list.Forall_impl; [exact Hr|]. intros d. by apply (cls_not_slash name_cls).
Qed.

Lemma last_slash_ok d n j :
  plain n → (j ≤ length n)%nat → last_slash (d ++ slash :: n) (length d + 1 + j) = (length d + 1)%nat.
Proof.
  intros Hn. induction j as [|j IH]; intros Hj.
  - rewrite Nat.add_0_r, Nat.add_1_r. cbn [last_slash]. rewrite lookup_app_r, Nat.sub_diag by lia. done.
  - rewrite Nat.add_succ_r. cbn [last_slash]. rewrite lookup_app_r by lia. replace (length d + 1 + j - length d)%nat with (S j) by lia.
    destruct (lookup_lt_is_Some_2 n j ltac:(lia)) as [c Hc]. change ((slash :: n) !! S j) with (n !! j). rewrite Hc.
    assert (ISSLASH c = false) as -> by (by eapply Forall_lookup_1 in Hn). apply IH. lia.
Qed.

Lemma ext_ok p e j :
  Forall (λ c, Ascii.eqb c slash = false ∧ Ascii.eqb c "." = false) e → (j ≤ length e)%nat →
  ext_loop (p ++ "."%char :: e) (length p + 1 + j) = Z.of_nat (length p).
Proof.
  intros He. induction j as [|j IH]; intros Hj.
  - rewrite Nat.add_0_r, Nat.add_1_r. cbn [ext_loop]. rewrite lookup_app_r, Nat.sub_diag by lia. done.
  - rewrite Nat.add_succ_r. cbn [ext_loop]. rewrite lookup_app_r by lia. replace (length p + 1 + j - length p)%nat with (S j) by lia.
    destruct (lookup_lt_is_Some_2 e j ltac:(lia)) as [c Hc]. change (("."%char :: e) !! S j) with (e !! j). rewrite Hc.
    destruct (Forall_lookup_1 _ _ _ _ He Hc) as [-> ->]. apply IH. lia.
Qed.

Lemma strip_snoc l c : Ascii.eqb c slash = false → strip_slashes (l ++ [c]) = l ++ [c].
Proof.
  intros Hc. unfold strip_slashes. rewrite reverse_snoc. cbn [skip_slashes]. unfold ISSLASH. rewrite Hc. by rewrite reverse_cons, reverse_involutive.
Qed.

(** The base of a path in a directory. *)
Lemma path_base dir name : chars_of name ≠ [] → plain (chars_of name) → util_path_base (Some (path_of dir name)) = Some name.
Proof.
  intros Hne Hp. unfold util_path_base, path_of. rewrite chars_of_app. change (chars_of (String slash name)) with (slash :: chars_of name).
  rewrite decide_False by (by destruct (chars_of dir)).
  assert (Hs : strip_slashes (chars_of dir ++ slash :: chars_of name) = chars_of dir ++ slash :: chars_of name).
  { destruct (chars_of name) as [|c l _] using rev_ind; [done|]. apply Forall_app in Hp as [_ Hc]. apply list.Forall_cons in Hc as [Hc _].
    rewrite app_comm_cons, app_assoc. by apply strip_snoc. }
  rewrite Hs. rewrite decide_False by (by destruct (chars_of dir)).
  rewrite length_app. cbn [length]. rewrite <- (Nat.add_1_l (length (chars_of name))), Nat.add_assoc, last_slash_ok by done.
  f_equal. replace (length (chars_of dir) + 1)%nat with (length (chars_of dir ++ [slash])) by (rewrite length_app; done).
  change (slash :: chars_of name) with ([slash] ++ chars_of name). rewrite app_assoc, drop_app_length. apply to_str_chars.
Qed.

Lemma path_of_inj dir n1 n2 : path_of dir n1 = path_of dir n2 → n1 = n2.
Proof.
  unfold path_of. intros E. apply (f_equal chars_of) in E. rewrite !chars_of_app in E. apply app_inv_head in E.
  rewrite <- (to_str_chars n1), <- (to_str_chars n2). f_equal. by injection E.
Qed.

(** The name of the file of a network. *)
Definition file_name (k : cstr) : string := (ISULAD_CNI_NETWORK_CONF_FILE_PRE ++ cstr_s k ++ ".conflist")%string.

Definition conflist_ext : chars := chars_of "conflist".

Lemma file_name_chars k : chars_of (file_name k) = chars_of ISULAD_CNI_NETWORK_CONF_FILE_PRE ++ chars_of (cstr_s k) ++ "."%char :: conflist_ext.
Proof. unfold file_name. by rewrite !chars_of_app. Qed.

Section file.
Context (k : cstr) (Hk : util_validate_network_name (Some (cstr_s k)) = true).

Lemma file_native : is_native_config_file (Some (file_name k)) = true.
Proof. unfold is_native_config_file. apply bool_decide_true. rewrite file_name_chars, <- length_chars_of. apply take_app_length. Qed.

Lemma file_ext : get_ext (Some (file_name k)) = Z.of_nat (length (chars_of ISULAD_CNI_NETWORK_CONF_FILE_PRE ++ chars_of (cstr_s k))) ∧
  to_str (drop (Z.to_nat (get_ext (Some (file_name k)))) (chars_of (file_name k))) = ".conflist"%string.
Proof.
  assert (E : get_ext (Some (file_name k)) = Z.of_nat (length (chars_of ISULAD_CNI_NETWORK_CONF_FILE_PRE ++ chars_of (cstr_s k)))).
  { unfold get_ext. rewrite <- length_chars_of, file_name_chars, app_assoc, length_app. cbn [length]. rewrite <- (Nat.add_1_l (length conflist_ext)), Nat.add_assoc.
    apply ext_ok; [by repeat constructor|done]. }
  split; [done|]. rewrite E, Nat2Z.id, file_name_chars, app_assoc, drop_app_length. done.
Qed.

Lemma file_plain : plain (chars_of (file_name k)).
Proof.
  destruct (valid_name_chars _ Hk) as [_ Hp]. rewrite file_name_chars. apply Forall_app. split; [by repeat constructor|]. apply Forall_app. split; [done|].
  by repeat constructor.
Qed.

Lemma file_suffix dir : util_has_suffix (Some (path_of dir (file_name k))) (Some ".conflist"%string) = true.
Proof.
  unfold util_has_suffix, path_of. rewrite chars_of_app. change (chars_of (String slash (file_name k))) with (slash :: chars_of (file_name k)).
  rewrite file_name_chars. change ("."%char :: conflist_ext) with (chars_of ".conflist"). rewrite app_comm_cons, !app_assoc. set (p := _ ++ chars_of (cstr_s k)).
  rewrite length_app, (proj2 (Nat.ltb_ge _ _)) by lia. apply bool_decide_true. replace (length p + length (chars_of ".conflist") - length (chars_of ".conflist"))%nat with (length p) by lia.
  apply drop_app_length.
Qed.
End file.

(** ** Scanning the directory *)
Definition accepted (d : conf_dir) (dir name : string) : bool :=
  negb (bool_decide (name = "."%string ∨ name = ".."%string)) && (do_check_file_is_valid d (path_of dir name) =? 0) && negb (get_ext (Some name) <? 0)
  && bool_decide (Some (to_str (drop (Z.to_nat (get_ext (Some name))) (chars_of name))) ∈ conf_exts).

Lemma match_ext_ok ext fname exts arr l :
  vector arr l → (length l ≤ 1024)%nat →
  ∃ arr', match_ext true ext fname exts (arr, Z.of_nat (length l)) =
    Some (true, (arr', Z.of_nat (length (l ++ if bool_decide (Some ext ∈ exts) then [fname] else [])))) ∧
    vector arr' (l ++ if bool_decide (Some ext ∈ exts) then [fname] else []).
Proof.
  intros Hv Hl. induction exts as [|e exts IH]; cbn [match_ext].
  { exists arr. rewrite bool_decide_false by (by intros ?%elem_of_nil). by rewrite app_nil_r. }
  destruct (decide (e = Some ext)) as [->|Hne].
  - rewrite bool_decide_true by (by left). cbn [fst snd].
    rewrite (util_array_append_ok true arr l fname) by (done || (rewrite max_items_eq; lia)).
    exists (Some ((Some <$> (l ++ [fname])) ++ [None])). split; [|by exists []]. rewrite decide_False by (by intros []).
    do 3 f_equal. rewrite length_app. cbn [length]. rewrite u64_small by (unfold two64; lia). lia.
  - rewrite (bool_decide_ext (Some ext ∈ e :: exts) (Some ext ∈ exts)); [exact IH|]. rewrite elem_of_cons. naive_solver.
Qed.

Definition short (dir name : string) : Prop := (String.length (path_of dir name) < PATH_MAX)%nat.

Lemma search_cb_ok d dir name arr l :
  vector arr l → short dir name → (length l ≤ 1024)%nat → ¬ (name = "."%string ∨ name = ".."%string) →
  ∃ arr', search_conf_files_cb true d conf_exts dir name (arr, Z.of_nat (length l)) =
    Some (true, (arr', Z.of_nat (length (l ++ if accepted d dir name then [path_of dir name] else [])))) ∧
    vector arr' (l ++ if accepted d dir name then [path_of dir name] else []).
Proof.
  intros Hv Hs Hl Hd. unfold accepted. rewrite (bool_decide_eq_false_2 _ Hd). cbn [negb andb].
  unfold search_conf_files_cb, mbind, M_bind, get. cbn [snd]. unfold MAX_NETWORK_CONFIG_FILE_COUNT. rewrite (proj2 (Z.ltb_ge _ _)) by lia.
  rewrite decide_False by (apply Nat.nle_gt, Hs). destruct (Z.eqb_spec (do_check_file_is_valid d (path_of dir name)) 0) as [E|E].
  - rewrite decide_False by (intros ?; done). destruct (get_ext (Some name) <? 0); cbn [negb andb]; [exists arr; by rewrite app_nil_r|]. apply match_ext_ok; [done|lia].
  - rewrite decide_True by done. exists arr. by rewrite app_nil_r.
Qed.

Lemma scan_files_ok d dir entries arr l :
  vector arr l → Forall (short dir) entries → (length l + length entries ≤ 1025)%nat →
  ∃ arr', scan_loop id (λ name, search_conf_files_cb true d conf_exts dir name) entries (arr, Z.of_nat (length l)) =
    Some (0, (arr', Z.of_nat (length (l ++ (path_of dir <$> filter (accepted d dir) entries))))) ∧
    vector arr' (l ++ (path_of dir <$> filter (accepted d dir) entries)).
Proof.
  revert arr l. induction entries as [|name entries IH]; intros arr l Hv Hs Hl; cbn [scan_loop length] in *.
  { exists arr. cbn. by rewrite app_nil_r. }
  apply list.Forall_cons in Hs as [Hs Hss]. rewrite filter_cons. unfold id at 1 2. destruct (String.eqb name "." || String.eqb name "..") eqn:Hd.
  { rewrite orb_true_iff, !String.eqb_eq in Hd. rewrite decide_False; [apply IH; [done|done|lia]|]. unfold accepted. rewrite (bool_decide_eq_true_2 _ Hd). by intros []. }
  rewrite orb_false_iff, !String.eqb_neq in Hd. destruct (search_cb_ok d dir name arr l) as (arr1 & Hcb & Hv1); [done|done|lia|tauto|]. unfold mbind, M_bind. rewrite Hcb. cbn [negb]. clear Hcb.
  destruct (accepted d dir name).
  - rewrite decide_True by done. destruct (IH arr1 (l ++ [path_of dir name])) as (arr' & Hr & Hv'); [done|done|rewrite length_app; cbn [length]; lia|].
    exists arr'. rewrite Hr. rewrite fmap_cons. by rewrite <- app_assoc in Hv' |- *.
  - rewrite decide_False by (by intros []). rewrite app_nil_r in *. apply IH; [done|done|lia].
Qed.

Lemma conf_files_ok d dir :
  d_open d = 1 → d_scan d = true → Forall (short dir) (d_entries d) → (length (d_entries d) ≤ 1025)%nat →
  ∃ files, get_conf_files (λ _, true) d (Some dir) = Some (Some files) ∧ files ≡ₚ path_of dir <$> filter (accepted d dir) (d_entries d).
Proof.
  intros Ho Hsc Hs Hl. unfold get_conf_files, cni_conf_files, check_conf_dir. rewrite Ho, Hsc. cbn [decide]. rewrite decide_False by (by intros []).
  unfold util_scan_subdirs. destruct (scan_files_ok d dir (d_entries d) None []) as (arr & Hr & Hv); [done|done|done|].
  cbn [length] in Hr. change (Z.of_nat 0) with 0 in Hr. rewrite Hr. rewrite decide_False by (by intros []). cbn [mbind option_bind fst snd]. rewrite decide_False by (by intros []).
  rewrite app_nil_l in Hv. rewrite (util_array_len_vector _ _ Hv). cbn [mbind option_bind]. destruct arr as [cells|].
  - destruct Hv as [rest ->]. eexists. split; [reflexivity|]. rewrite Nat2Z.id, take_app_le, take_ge by (rewrite !length_fmap; lia).
    rewrite merge_sort_Permutation. by rewrite omap_strings.
  - red in Hv. exists []. by rewrite Hv.
Qed.

(** ** Files and networks *)
Section restart.
Context {NT : Type} {NM : StrMap nat NT} (conf_parse : string → option cni_net_conf) (list_parse : string → option cni_net_conf_list)
  (conf_generate list_generate : cni_net_conf_list → option string).
Implicit Types (s : nstate NT) (G : gmap cstr native_network) (F : gmap string string).

(** The configuration of a network is what its file says. *)
Definition durable (dir : string) (k : cstr) (c : cni_network_list_conf) : Prop :=
  ∃ l json, c = mk_list_conf (Some l) (Some json) ∧ list_parse json = Some l ∧ l_name l = Some k ∧ typed l ∧ l_plugins l ≠ [] ∧
    util_validate_network_name (Some (cstr_s k)) = true ∧ short dir (file_name k).

(** Every network has its file, and every file that looks like one of a network is one. *)
Record synced (dir : string) G F : Prop := {
  sy_durable : ∀ k n, G !! k = Some n → durable dir k (conflist n);
  sy_in : ∀ k n, G !! k = Some n → F !! conflist_file dir k = nl_bytes (conflist n);
  sy_out : ∀ name, is_native_config_file (Some name) = true → is_Some (F !! path_of dir name) → ∃ k, name = file_name k ∧ is_Some (G !! k)
}.

(** The directory as the daemon finds it when it starts. *)
Record reflects (d : conf_dir) (dir : string) F : Prop := {
  rf_open : d_open d = 1;
  rf_scan : d_scan d = true;
  rf_count : (length (d_entries d) ≤ 1025)%nat;
  rf_names : Forall (λ name, chars_of name ≠ [] ∧ plain (chars_of name) ∧ short dir name) (d_entries d);
  rf_in : ∀ name json, F !! path_of dir name = Some json → plain (chars_of name) →
    name ∈ d_entries d ∧ d_read d (path_of dir name) = Some json ∧ ∃ size, d_lstat d (path_of dir name) = Some (false, size) ∧ size <= SIZE_MB;
  rf_out : ∀ name, name ∈ d_entries d → is_native_config_file (Some name) = true → is_Some (F !! path_of dir name)
}.

Lemma file_name_inj k k' : file_name k = file_name k' → k = k'.
Proof.
  intros E. apply (f_equal chars_of) in E. rewrite !file_name_chars in E. apply app_inv_head, app_inv_tail in E.
  by rewrite <- (cstr_of_s k), <- (cstr_of_s k'), <- (to_str_chars (cstr_s k)), <- (to_str_chars (cstr_s k')), E.
Qed.

Lemma conflist_file_eq dir k : conflist_file dir k = path_of dir (file_name k).
Proof. done. Qed.

Lemma conflist_file_inj dir k k' : conflist_file dir k = conflist_file dir k' → k = k'.
Proof. intros E%path_of_inj. by apply file_name_inj. Qed.

(** *** Files follow the networks *)
Lemma synced_same dir G G' F : same_confs G G' → synced dir G F → synced dir G' F.
Proof.
  intros Hc [Hd Hi Ho].
  assert (Hold : ∀ k n', G' !! k = Some n' → ∃ n, G !! k = Some n ∧ conflist n = conflist n').
  { intros k n' E. specialize (Hc k). rewrite E in Hc. destruct (G !! k) as [n|]; [|done]. exists n. split; [done|]. by injection Hc as ->. }
  split.
  - intros k n' (n & Hn & <-)%Hold. by apply Hd.
  - intros k n' (n & Hn & <-)%Hold. by apply Hi.
  - intros name H1 H2. destruct (Ho name H1 H2) as (k & -> & [n Hn]). exists k. split; [done|]. specialize (Hc k). rewrite Hn in Hc. destruct (G' !! k); [by eexists|done].
Qed.

Lemma synced_new (Hround : ∀ l json, list_generate l = Some json → json ≠ EmptyString ∧ list_parse json = Some l) dir G G' F F' :
  new_file list_generate dir G G' F F' → synced dir G F → synced dir G' F'.
Proof.
  intros (l & k & json & -> & -> & Hg & Hk & Ht & Hp & Hv & Hs) [Hd Hi Ho]. destruct (Hround l json Hg) as [Hj Hl]. unfold put_conf. rewrite (proj2 (String.eqb_neq _ _) Hj). split.
  - intros k' n [[<- <-]|[_ H]]%lookup_insert_Some; [|by apply Hd]. exists l, json. split_and!; auto.
  - intros k' n [[<- <-]|[Hne H]]%lookup_insert_Some; [by rewrite lookup_insert_eq|]. rewrite lookup_insert_ne; [by apply Hi|]. by intros ?%conflist_file_inj.
  - intros name H1 H2. destruct (decide (name = file_name k)) as [->|Hne]; [exists k; rewrite lookup_insert_eq; by eauto|].
    rewrite lookup_insert_ne in H2 by (intros E%path_of_inj; apply Hne; symmetry; exact E). destruct (Ho name H1 H2) as (k' & -> & Hk'). exists k'. split; [done|].
    rewrite lookup_insert_ne; [done|]. by intros ->.
Qed.

Lemma synced_old dir G G' F F' : old_file dir G G' F F' → synced dir G F → synced dir G' F'.
Proof.
  intros (k & [n Hn] & -> & Hf) [Hd Hi Ho].
  assert (F' = delete (conflist_file dir k) F) as ->.
  { destruct Hf as [->|[_ Hlen]]; [done|]. destruct (Hd k n Hn) as (l & json & _ & _ & _ & _ & _ & _ & Hs). by destruct (Nat.lt_irrefl _ (Nat.lt_le_trans _ _ _ Hs Hlen)). }
  split.
  - intros k' n' [_ H]%lookup_delete_Some. by apply Hd.
  - intros k' n' [Hne H]%lookup_delete_Some. rewrite lookup_delete_ne; [by apply Hi|]. by intros ?%conflist_file_inj.
  - intros name H1 H2. destruct (decide (name = file_name k)) as [->|Hne]; [by rewrite lookup_delete_eq in H2; destruct H2|].
    rewrite lookup_delete_ne in H2 by (intros E%path_of_inj; apply Hne; symmetry; exact E). destruct (Ho name H1 H2) as (k' & -> & Hk'). exists k'. split; [done|].
    rewrite lookup_delete_ne; [done|]. by intros ->.
Qed.

(** *** Loading the files *)
Abbreviation load := (load_cni_config_file_list conf_parse list_parse conf_generate true).
Abbreviation native := (λ f, is_native_config_file (Some f)).

Lemma check_plugins_ok plugins : Forall typed_plugin plugins → check_plugins plugins = Some 0.
Proof.
  induction 1 as [|p plugins (q & t & -> & Ht & Hne) _ IH]; [done|]. cbn [check_plugins]. rewrite Ht, decide_False; [done|].
  destruct (cstr_s t); [done|]. cbn. lia.
Qed.

Lemma load_ok d dir k c : durable dir k c → d_read d (conflist_file dir k) = nl_bytes c → load d (Some (conflist_file dir k)) = Some (Some c).
Proof.
  intros (l & json & -> & Hp & Hk & Ht & Hne & Hv & _) Hr. cbn [nl_bytes] in Hr. unfold load_cni_config_file_list. change (conflist_file dir k) with (path_of dir (file_name k)) in *.
  rewrite file_suffix. unfold cni_conflist_from_file. rewrite Hr. unfold cni_conflist_from_bytes. cbn [negb]. rewrite Hp.
  unfold check_cni_net_conf_list, do_check_cni_net_conf_list_plugins. rewrite Hk, decide_False by (by destruct (l_plugins l)).
  rewrite check_plugins_ok by done. cbn [mbind option_bind]. rewrite decide_False by (by intros []). cbn [nl_list nl_bytes]. rewrite Hk. destruct (valid_name_chars _ Hv) as [Hc _].
  rewrite decide_False by (intros E; by rewrite E in Hc). cbn [fmap option_fmap option_map]. rewrite Hv. cbn [negb]. by rewrite <- Hk; destruct l.
Qed.

(** The configurations of the native files, in the order of the files. *)
Lemma update_ok d (conf : string → cni_network_list_conf) files i acc :
  (∀ file, file ∈ files → ∃ name, util_path_base (Some file) = Some name ∧
    (native name = true → load d (Some file) = Some (Some (conf file)) ∧ ∃ l, nl_list (conf file) = Some l ∧ l_plugins l ≠ [])) →
  update_conflist_from_files conf_parse list_parse conf_generate (λ _, true) d (Some native) i files acc =
    Some (Some (acc ++ (conf <$> filter (λ file, option_map native (util_path_base (Some file)) = Some true) files))).
Proof.
  revert i acc. induction files as [|file files IH]; intros i acc Hf; cbn [update_conflist_from_files]; [by rewrite app_nil_r|].
  destruct (Hf file) as (name & Hb & Hl); [by left|]. rewrite filter_cons, Hb. cbn [option_map].
  assert (Hrest : ∀ f, f ∈ files → f ∈ file :: files) by (intros; by right). destruct (is_native_config_file (Some name)) eqn:En; cbn [negb].
  - destruct (Hl eq_refl) as (-> & l & Hc & Hp). cbn [mbind option_bind]. rewrite Hc, decide_False by (by destruct (l_plugins l)). rewrite IH by auto.
    rewrite decide_True by done. by rewrite fmap_cons, <- app_assoc.
  - rewrite decide_False by done. by apply IH; auto.
Qed.

Section dir.
Context (d : conf_dir) (dir : string) (G : gmap cstr native_network) (F : gmap string string) (Hr : reflects d dir F) (Hs : synced dir G F).

Lemma native_file name :
  name ∈ d_entries d → native name = true → ∃ k n, name = file_name k ∧ G !! k = Some n ∧ load d (Some (path_of dir name)) = Some (Some (conflist n)).
Proof.
  intros Hin Hn. destruct (sy_out _ _ _ Hs name Hn (rf_out _ _ _ Hr name Hin Hn)) as (k & -> & [n Hk]). exists k, n. split; [done|]. split; [done|].
  pose proof (sy_durable _ _ _ Hs k n Hk) as Hd. apply load_ok; [done|]. pose proof (sy_in _ _ _ Hs k n Hk) as HF. rewrite conflist_file_eq in HF. destruct Hd as (l & json & E & _ & _ & _ & _ & Hv & _).
  rewrite E in HF |- *. destruct (rf_in _ _ _ Hr _ _ HF) as (_ & Hrd & _); [by apply file_plain|exact Hrd].
Qed.

Lemma network_file k n : G !! k = Some n → file_name k ∈ d_entries d ∧ accepted d dir (file_name k) = true.
Proof.
  intros Hk. pose proof (sy_in _ _ _ Hs k n Hk) as HF. rewrite conflist_file_eq in HF. destruct (sy_durable _ _ _ Hs k n Hk) as (l & json & E & _ & _ & _ & _ & Hv & _). rewrite E in HF.
  destruct (rf_in _ _ _ Hr _ _ HF) as (Hin & _ & size & Hl & Hsz); [by apply file_plain|]. split; [done|].
  destruct (file_ext k) as [Ee Et]. unfold accepted, do_check_file_is_valid. rewrite Hl, (proj2 (Z.ltb_ge _ _) Hsz), Et.
  rewrite (proj2 (Z.ltb_ge _ _)) by lia. rewrite bool_decide_eq_false_2 by (by intros []). apply andb_true_iff. split; [done|]. apply bool_decide_eq_true_2. right. by left.
Qed.

(** What is loaded are the configurations of the networks. *)
Lemma dir_ok :
  ∃ nets, get_net_conflist_from_dir conf_parse list_parse conf_generate true (λ _, true) (λ _, true) d (Some dir) (Some native) = Some (Some nets) ∧
    ∀ c, c ∈ nets ↔ ∃ k n, G !! k = Some n ∧ c = conflist n.
Proof.
  destruct Hr as [Ho Hsc Hc Hn _ _]. destruct (conf_files_ok d dir Ho Hsc) as (files & Hfiles & Hp); [|done|].
  { eapply list.Forall_impl; [exact Hn|]. cbn beta. naive_solver. }
  assert (Hfile : ∀ file, file ∈ files ↔ ∃ name, file = path_of dir name ∧ name ∈ d_entries d ∧ accepted d dir name = true).
  { intros file. rewrite Hp, list_elem_of_fmap. split; [intros (name & -> & [Ha%Is_true_true Hin]%list_elem_of_filter); by exists name|].
    intros (name & -> & Hin & Ha). exists name. split; [done|]. apply list_elem_of_filter. split; [by apply Is_true_true|done]. }
  assert (Hbase : ∀ name, name ∈ d_entries d → util_path_base (Some (path_of dir name)) = Some name).
  { intros name Hin. rewrite list.Forall_forall in Hn. destruct (Hn _ Hin) as (? & ? & _). by apply path_base. }
  unfold get_net_conflist_from_dir. rewrite Hfiles. cbn [mbind option_bind]. destruct (decide (length files = 0)%nat) as [E|E].
  - exists []. split; [done|]. intros c. split; [by intros ?%elem_of_nil|]. intros (k & n & Hk & _). destruct (network_file k n Hk) as [Hin Ha].
    destruct files; [|done]. exfalso. apply (not_elem_of_nil (path_of dir (file_name k))), Hfile. by eauto.
  - set (conf := λ file, match load d (Some file) with Some (Some c) => c | _ => mk_list_conf None None end).
    assert (util_smart_calloc_s true PTR_SIZE (Z.of_nat (length files)) = true) as ->.
    { unfold util_smart_calloc_s. rewrite (proj2 (Z.ltb_ge _ _)); [done|]. rewrite Hp, length_fmap. change (MAX_MEMORY_SIZE / PTR_SIZE) with max_items. rewrite max_items_eq.
      pose proof (length_filter (accepted d dir) (d_entries d)). lia. }
    cbn [negb]. rewrite (update_ok d conf). 2:{ intros file (name & -> & Hin & Ha)%Hfile. exists name. split; [by apply Hbase|]. intros Hnat.
      destruct (native_file name Hin Hnat) as (k & n & -> & Hk & Hl). unfold conf. rewrite Hl. split; [done|].
      destruct (sy_durable _ _ _ Hs k n Hk) as (l & json & -> & _ & _ & _ & Hne & _). by exists l. }
    eexists. split; [reflexivity|]. intros c. rewrite app_nil_l, list_elem_of_fmap. setoid_rewrite list_elem_of_filter. split.
    + intros (file & -> & Hnat & (name & -> & Hin & Ha)%Hfile). rewrite (Hbase _ Hin) in Hnat. injection Hnat as Hnat.
      destruct (native_file name Hin Hnat) as (k & n & _ & Hk & Hl). exists k, n. unfold conf. by rewrite Hl.
    + intros (k & n & Hk & ->). destruct (network_file k n Hk) as [Hin Ha]. destruct (native_file _ Hin (file_native k)) as (k' & n' & E' & Hk' & Hl).
      apply file_name_inj in E'. subst k'. exists (path_of dir (file_name k)). unfold conf. rewrite Hl, (Hbase _ Hin). cbn [option_map]. rewrite file_native.
      split; [congruence|]. split; [done|]. apply Hfile. by eauto.
Qed.
End dir.

(** ** Starting again *)

(** The store of a process that has just started. *)
Definition blank F : nstate NT := mk_nstate None 0 None [] ∅ 0 F [] 0.

(** Only configurations and no containers. *)
Definition unused_networks G : gmap cstr native_network := (λ n, with_containers n []) <$> G.

Lemma load_loop_ok w (Hcalm : calm w) T nets s G :
  (∀ c, c ∈ nets → ∃ k, T !! k = Some (mk_native c []) ∧ named k (mk_native c [])) →
  holds s G → G ⊆ T → Z.of_nat (size T) + 1 < two64 →
  wp (load_loop w nets) (λ r s', r = 0 ∧ frame s s' ∧ ∃ G', holds s' G' ∧ G ⊆ G' ∧ G' ⊆ T ∧
    ∀ c k, c ∈ nets → named k (mk_native c []) → is_Some (G' !! k)) s.
Proof.
  intros Hn HG Hsub Hsz. revert s G HG Hsub. induction nets as [|c nets IH]; intros s G HG Hsub; cbn [load_loop].
  { apply wp_ret. split; [done|]. split; [done|]. exists G. split_and!; [done..|]. by intros c k ?%elem_of_nil. }
  destruct (Hn c) as (k & HT & Hnm); [by left|]. pose proof Hnm as [Hl Hk Ht]. cbn [conflist] in Hl. rewrite Hl.
  assert (IH' := IH ltac:(intros; apply Hn; by right)). clear IH. pose proof HG as (m & g & Hst). rewrite Hk.
  assert (Hstep : ∀ G1 G', G1 ⊆ G' → is_Some (G1 !! k) → (∀ c' k', c' ∈ nets → named k' (mk_native c' []) → is_Some (G' !! k')) →
    ∀ c' k', c' ∈ c :: nets → named k' (mk_native c' []) → is_Some (G' !! k')).
  { intros G1 G' Hs1 [n1 Hn1] Hrest c' k' [->|Hin]%elem_of_cons Hnm'; [|by eapply Hrest]. destruct Hnm' as [_ Hk' _]. assert (k' = k) as -> by congruence.
    exists n1. by eapply lookup_weaken. }
  wp_call (search_name_ok s G m g Hst (Some k)). intros found s1 [Hs1 ->]. pose proof (holds_same _ _ _ Hs1 HG) as HG1. cbn [mbind option_bind].
  destruct (same_fields _ _ Hs1) as (_ & _ & _ & _ & F1). destruct (g !! k) as [p|] eqn:Ek.
  - destruct (deref_at _ _ _ _ Hst k p Ek) as [_ HGk]. eapply wp_mono; [by apply IH'|]. cbn beta. intros r s2 (-> & F2 & G' & HG' & H1 & H2 & H3).
    split; [done|]. split; [by eapply frame_trans|]. exists G'. split_and!; [done..|]. by eapply Hstep.
  - assert (HGk : G !! k = None) by (rewrite (st_val _ _ _ _ Hst), lookup_fmap, Ek; done). pose proof (map_subseteq_size _ _ Hsub) as Hle.
    wp_call (add_network_ok w s1 G c _ k HG1 Hl Hk Ht HGk ltac:(lia)). intros ret s2 [F2 [[-> HG2]|(_ & _ & Hc)]]; [|done]. rewrite decide_False by (by intros []).
    eapply wp_mono; [apply IH'; [done|by apply insert_subseteq_l]|]. cbn beta. intros r s3 (-> & F3 & G' & HG' & H1 & H2 & H3).
    split; [done|]. split; [by do 2 (eapply frame_trans; [eassumption|])|]. exists G'. split_and!; [done|etrans; [by apply insert_subseteq|exact H1]|done|].
    eapply Hstep; [exact H1|rewrite lookup_insert_eq; by eexists|done].
Qed.

Lemma named_unused k n : named k n → named k (with_containers n []).
Proof. by intros []. Qed.

Lemma native_init_ok w (Hcalm : calm w) nets F dir paths G :
  (∀ c, c ∈ nets ↔ ∃ k n, G !! k = Some n ∧ c = conflist n) → map_Forall named G → Z.of_nat (size G) + 1 < two64 →
  wp (native_init w (Some nets) (Some dir) paths) (λ r s', r = 0 ∧ ready dir s' (unused_networks G) ∧ n_files s' = F) (blank F).
Proof.
  intros Hnets Hnamed Hsz. pose proof Hcalm as (Hmem & Hlock & _). unfold native_init. apply wp_bind, wp_tick. intros i s1 Hs1. rewrite Hlock. cbn [negb].
  destruct (same_fields _ _ Hs1) as (_ & El & Eh & _ & (_ & _ & Ef1 & _)).
  pose proof (sm_new_ok true true true) as Hnew. rewrite !Hmem. destruct (sm_new true true true) as [m|]; [|done]. destruct Hnew as [Hm _].
  apply wp_bind, wp_bind, wp_modify. cbn [load_store_map]. apply wp_bind.
  eapply wp_mono; [apply (load_loop_ok w Hcalm (unused_networks G)); [|eapply holds_empty; [done|exact Hm|exact El|exact Eh]|apply map_empty_subseteq|by unfold unused_networks; rewrite map_size_fmap]|].
  { intros c (k & n & Hk & ->)%Hnets. exists k. unfold unused_networks. rewrite lookup_fmap, Hk. split; [done|]. by apply named_unused, Hnamed. }
  cbn beta. intros r s2 (-> & (_ & _ & Ef & _) & G' & HG' & _ & Hsub & Hall). rewrite decide_False by (by intros []). apply wp_bind, wp_modify, wp_ret. rewrite decide_False by (by intros []).
  assert (G' = unused_networks G) as ->.
  { apply map_subseteq_size_eq; [done|]. apply map_subseteq_size. apply map_subseteq_spec. intros k n'. unfold unused_networks. rewrite lookup_fmap. destruct (G !! k) as [n|] eqn:Hk; [|done].
    intros [= <-]. destruct (Hall (conflist n) k) as [n2 Hn2]; [apply Hnets; by eauto|by apply named_unused, Hnamed|]. rewrite Hn2.
    eapply lookup_weaken in Hn2; [|exact Hsub]. unfold unused_networks in Hn2. by rewrite lookup_fmap, Hk in Hn2. }
  apply wp_ret. split; [done|]. split; [split; [|done]|].
  - destruct HG' as (m' & g & []). by exists m', g.
  - cbn [n_files]. rewrite Ef. exact Ef1.
Qed.

Lemma synced_step (Hround : ∀ l json, list_generate l = Some json → json ≠ EmptyString ∧ list_parse json = Some l) dir G G' F F' :
  file_step list_generate dir G G' F F' → synced dir G F → synced dir G' F'.
Proof. intros [[Hc ->]|[H|H]]; [by apply synced_same|by apply synced_new|by apply synced_old]. Qed.

(** C9: The networks survive a restart: after any sequence of calls in which nothing
    fails but because of a request, a daemon that starts on the directory loads
    the same networks with the same configurations, with no container connected. *)
Theorem networks_survive_restart (w w' : world) cwd ops dir s G :
  (∀ l json, list_generate l = Some json → json ≠ EmptyString ∧ list_parse json = Some l) →
  Forall comp_ok cwd → w_cwd w = Some (to_str (render cwd)) → memory w → calm w → calm w' →
  ready dir s G → synced dir G (n_files s) → Z.of_nat (size G + length ops) + 1 < two64 → Forall op_ok ops →
  wp (ncalls list_generate w ops) (λ rs s', ∃ G', ready dir s' G' ∧ nspecs list_generate w ops G rs G' ∧
    ∀ d paths, reflects d dir (n_files s') →
      ∃ nets, get_net_conflist_from_dir conf_parse list_parse conf_generate true (λ _, true) (λ _, true) d (Some dir) (Some native) = Some (Some nets) ∧
        wp (native_init w' (Some nets) (Some dir) paths) (λ r s'', r = 0 ∧ ready dir s'' (unused_networks G')) (blank (n_files s'))) s.
Proof.
  intros Hround Hcwd Hwd Hmem Hcalm Hcalm' HR Hsy Hsz Hok.
  eapply wp_mono; [apply (ncalls_ok list_generate w cwd Hcwd Hwd Hmem (synced dir) ops dir s G); [|done|done|lia|done]|].
  { intros G1 G2 F1 F2 Hf. by apply synced_step; [|apply Hf]. }
  cbn beta. intros rs s' (G' & HR' & Hns & Hsy' & Hsz'). exists G'. split; [done|]. split; [done|]. intros d paths Hrf.
  destruct (dir_ok d dir G' (n_files s') Hrf Hsy') as (nets & Hn & Hin). exists nets. split; [done|]. destruct HR' as [(m & g & Hst) _].
  eapply wp_mono; [apply (native_init_ok w' Hcalm' nets (n_files s') dir paths G' Hin); [apply (st_named _ _ _ _ Hst)|lia]|]. cbn beta. naive_solver.
Qed.
End restart.

(** ** An example: a network with a container, before and after a restart *)
Section examples.
Local Open Scope string_scope.
Let NM : StrMap nat (map_t nat MAP_STR_PTR) := str_ptr_map true.
#[local] Existing Instance NM.

Let history : list nop := [create "a" "10.1.0.0/16"; NAttach (connect "a")].

Definition sample_conf : cni_net_conf_list := Eval vm_compute in
  default empty_list (s ← sample_store; r ← ncalls (λ _, Some "") sample_world history s; n ← n_heap r.2 !! 0%nat; nl_list (conflist n)).

#[local] Instance range_eq_dec : EqDecision ipam_range.
Proof. solve_decision. Defined.
#[local] Instance ipam_eq_dec : EqDecision cni_net_conf_ipam.
Proof. solve_decision. Defined.
#[local] Instance plugin_eq_dec : EqDecision cni_net_conf.
Proof. solve_decision. Defined.
#[local] Instance list_eq_dec : EqDecision cni_net_conf_list.
Proof. solve_decision. Defined.

(** A printer and a parser for this configuration. *)
Definition sample_generate (l : cni_net_conf_list) : option string := if decide (l = sample_conf) then Some "{a}" else None.
Definition sample_parse (json : string) : option cni_net_conf_list := if decide (json = "{a}") then Some sample_conf else None.

Lemma sample_round l json : sample_generate l = Some json → json ≠ EmptyString ∧ sample_parse json = Some l.
Proof. unfold sample_generate. case_decide as E; [|done]. intros [= <-]. by rewrite E. Qed.

Let file : string := path_of sample_dir "isulacni-a.conflist".

(** The directory also has a file that is no configuration of a network. *)
Definition sample_conf_dir : conf_dir :=
  mk_dir 1 true ["."; ".."; "README"; "isulacni-a.conflist"] (λ path, if decide (path = file) then Some (false, 3) else Some (true, 4096))
    (λ path, if decide (path = file) then Some "{a}" else None).

Lemma sample_reflects F : F = {[file := "{a}"]} → reflects sample_conf_dir sample_dir F.
Proof.
  intros ->. split; [done|done|cbn; lia| | |].
  - cbn [d_entries sample_conf_dir]. rewrite !list.Forall_cons. split_and!; first [apply Nat.ltb_lt; vm_compute; reflexivity|by repeat constructor|done].
  - intros name json [Ef <-]%lookup_singleton_Some _. apply path_of_inj in Ef. subst name. split; [by do 3 right; left|]. split; [by vm_compute|]. exists 3. by vm_compute.
  - intros name Hin. cbn [d_entries sample_conf_dir] in Hin. rewrite !elem_of_cons in Hin. destruct Hin as [->|[->|[->|[->|[]%elem_of_nil]]]]; try done; intros _; by eexists.
Qed.

Lemma networks_survive_restart_witness :
  ∃ s s' G', sample_store = Some s ∧ ncalls sample_generate sample_world history s = Some ([0; 0], s') ∧ ready sample_dir s' G' ∧ reflects sample_conf_dir sample_dir (n_files s') ∧
    ∃ nets, get_net_conflist_from_dir (λ _, None) sample_parse (λ _, None) true (λ _, true) (λ _, true) sample_conf_dir (Some sample_dir)
        (Some (λ f, is_native_config_file (Some f))) = Some (Some nets) ∧
      wp (native_init sample_world (Some nets) (Some sample_dir) []) (λ r s'', r = 0 ∧ ready sample_dir s'' (unused_networks G')) (blank (n_files s')).
Proof.
  assert (Hrun : (s ← sample_store; r ← ncalls sample_generate sample_world history s; Some (r.1, n_files r.2)) = Some ([0; 0], {[file := "{a}"]})) by (vm_compute; reflexivity).
  destruct sample_store as [s|] eqn:Hs; cbn [mbind option_bind] in Hrun; [|done].
  assert (Hcalm : calm sample_world) by (split_and!; intros; apply sm_room_ok || done).
  pose proof (networks_survive_restart (λ _, None) sample_parse (λ _, None) sample_generate sample_world sample_world [] history sample_dir s ∅ sample_round
    (Forall_nil_2 _) eq_refl sample_memory Hcalm Hcalm (sample_ready s Hs)) as H.
  unfold wp in H. destruct (ncalls sample_generate sample_world history s) as [[rs s']|] eqn:E; cbn [mbind option_bind fst snd] in Hrun; [|done]. injection Hrun as -> Hf.
  destruct H as (G' & HR & _ & Hd); [|done|by repeat constructor|].
  { unfold sample_store in Hs. destruct (sm_new true true true); [|done]. injection Hs as <-. split; [done|done|]. intros name _ [? Hx]. done. }
  exists s, s', G'. split; [done|]. split; [done|]. split; [done|]. split; [by apply sample_reflects|]. apply Hd. by apply sample_reflects.
Defined.
End examples.
