(* ===== verification/Threads.v ===== *)
(** * Threads over a locked store

    The stores of the daemon are shared between request threads; every access
    takes a mutex, so an access is one atomic step and a handler is a sequence
    of such steps whose continuation depends on their results.  [prog] is that
    sequence; [run] executes it alone, and [pstep] interleaves the programs of
    a pool of threads. *)
From stdpp Require Import base list relations.
From Stdlib Require Import Lia.
From S2P Require Import Prelude.

Inductive prog (S A : Type) : Type :=
| Ret (a : A)
| Atomic (act : M S bool) (k : bool → prog S A).
Arguments Ret {S A} _.
Arguments Atomic {S A} _ _.

#[global] Instance prog_ret S : MRet (prog S) := λ A a, Ret a.
#[global] Instance prog_bind S : MBind (prog S) := λ A B f,
  fix go p := match p with Ret a => f a | Atomic act k => Atomic act (λ b, go (k b)) end.

Section threads.
Context {S : Type}.

Definition atomic (act : M S bool) : prog S bool := Atomic act Ret.

Fixpoint run {A} (p : prog S A) : M S A :=
  match p with
  | Ret a => mret a
  | Atomic act k => b ← act; run (k b)
  end.

Lemma wp_run_bind {A B} (p : prog S A) (f : A → prog S B) (Q : B → S → Prop) s :
  wp (run p) (λ a s', wp (run (f a)) Q s') s → wp (run (p ≫= f)) Q s.
Proof.
  revert s. induction p as [a|act k IH]; intros s; simpl; [done|].
  unfold wp, mbind, M_bind. destruct (act s) as [[b s']|]; [apply IH|done].
Qed.

Lemma wp_run_atomic (act : M S bool) (Q : bool → S → Prop) s : wp act Q s → wp (run (atomic act)) Q s.
Proof. unfold wp, run, atomic, mbind, M_bind. by destruct (act s) as [[]|]. Qed.

(** One step of the pool: some thread performs its next atomic step. *)
Inductive pstep {A} : S * list (prog S A) → S * list (prog S A) → Prop :=
| pstep_at s s' pool i act k b :
    pool !! i = Some (Atomic act k) → act s = Some (b, s') →
    pstep (s, pool) (s', <[i := k b]> pool).

Definition finished {A} (p : prog S A) : Prop := match p with Ret _ => True | Atomic _ _ => False end.

#[global] Instance finished_dec {A} (p : prog S A) : Decision (finished p).
Proof. destruct p; simpl; apply _. Defined.
End threads.
