(* ===== verification/IdNameManager.v ===== *)
(** * The registry of container ids and names

    [src/daemon/common/id_name_manager.c] and the generator of random ids
    [util_generate_random_str] of [src/utils/cutils/utils.c].  The two global
    stores are string maps behind a mutex.  A handler is a [prog]: a sequence
    of locked accesses, each of which may fail to lock or to allocate. *)
From stdpp Require Import base gmap list fin_maps numbers strings sets relations.
From Stdlib Require Import ZArith Lia Ascii.
From S2P Require Import Prelude CString Regex Convert RbTree Map StrMap StringUtil Verify Threads.

Definition CONTAINER_ID_MAX_LEN : Z := 64.

(** ** Random ids *)

(** [/dev/urandom]: whether it opens, and the value of [num] after the [i]-th
    read, [None] when the read fails. *)
Record urandom := mk_urandom { u_open : bool; u_read : nat → option Z }.

(** The loop over [i]; [n] iterations are left of [len]. *)
Fixpoint random_loop (u : urandom) (len : Z) (n i : nat) : option chars :=
  match n with
  | O => Some []
  | S n =>
    match u_read u i with
    | None => None
    | Some num =>
      let rs := (Z.rem num 256 mod 256)%Z in
      let text := fmt_02x rs in
      if (((len - Z.of_nat i) * 2 + 1) <=? Z.of_nat (length text))%Z then None
      else app text <$> random_loop u len n (S i)
    end
  end.

(** The text left in the buffer, [None] for the error return. *)
Definition util_generate_random_str (u : urandom) (len : Z) : option string :=
  let len := (len / 2)%Z in
  if u_open u then to_str <$> random_loop u len (Z.to_nat len) 0 else None.

(** ** The stores *)

(** One locked access: whether [pthread_mutex_lock] succeeds, and the
    allocations of a map update. *)
Record access := mk_access { a_lock : bool; a_mem : map_mem }.

(** The allocations of [map_store_new] and whether its mutex initialises. *)
Record store_mem := mk_store_mem { m_store : bool; m_lock : bool; m_map : bool; m_tree : bool; m_nil : bool }.

(** The globals [g_id_store] and [g_name_store]; [None] is [NULL]. *)
Record id_name (MT : Type) := mk_id_name { g_id_store : option MT; g_name_store : option MT }.
Arguments mk_id_name {MT} _ _.
Arguments g_id_store {MT} _.
Arguments g_name_store {MT} _.

Section id_name_manager.
Context {MT : Type} {SM : StrMap bool MT}.
Let IN := M (id_name MT).

(** Run an operation of the map of one store. *)
Definition in_store {A} (f : M MT A) : M (option MT) A := λ s,
  match s with
  | None => None
  | Some m => match f m with Some (a, m') => Some (a, Some m') | None => None end
  end.

Definition map_store_new (mem : store_mem) : option MT :=
  if m_store mem then if m_lock mem then sm_new (m_map mem) (m_tree mem) (m_nil mem) else None else None.

Definition map_store_free : M (option MT) unit := λ s,
  match s with
  | None => Some (tt, None)
  | Some m => match sm_free m with Some _ => Some (tt, None) | None => None end
  end.

Definition map_store_add (a : access) (item : cstr) : M (option MT) bool := λ s,
  match s with
  | None => Some (false, s)
  | Some _ =>
    if a_lock a then
      (in_store (sm_search item) ≫= λ existed,
        match existed with
        | Some _ => mret false
        | None => in_store (sm_replace (a_mem a) item true)
        end) s
    else Some (false, s)
  end.

Definition map_store_search (a : access) (item : cstr) : M (option MT) bool := λ s,
  match s with
  | None => Some (false, s)
  | Some _ =>
    if a_lock a then (v ← in_store (sm_search item); mret (bool_decide (is_Some v))) s else Some (false, s)
  end.

Definition map_store_remove (a : access) (item : cstr) : M (option MT) bool := λ s,
  match s with
  | None => Some (false, s)
  | Some _ => if a_lock a then in_store (sm_remove item) s else Some (false, s)
  end.

(** Access to one of the globals. *)
Definition on_id {A} (f : M (option MT) A) : IN A := λ s,
  match f (g_id_store s) with Some (a, m) => Some (a, mk_id_name m (g_name_store s)) | None => None end.
Definition on_name {A} (f : M (option MT) A) : IN A := λ s,
  match f (g_name_store s) with Some (a, m) => Some (a, mk_id_name (g_id_store s) m) | None => None end.

Definition id_store_free : IN unit := on_id map_store_free.
Definition name_store_free : IN unit := on_name map_store_free.
Definition id_name_manager_release : IN unit := id_store_free;; name_store_free.

Definition id_store_init (mem : store_mem) : IN Z := λ s,
  let m := map_store_new mem in
  Some (match m with None => -1 | Some _ => 0 end%Z, mk_id_name m (g_name_store s)).
Definition name_store_init (mem : store_mem) : IN Z := λ s,
  let m := map_store_new mem in
  Some (match m with None => -1 | Some _ => 0 end%Z, mk_id_name (g_id_store s) m).

Definition id_name_manager_init (mem1 mem2 : store_mem) : IN Z :=
  r ← id_store_init mem1;
  if negb (r =? 0)%Z then mret (-1)%Z else
  r ← name_store_init mem2;
  if negb (r =? 0)%Z then id_store_free;; mret (-1)%Z else mret 0%Z.

(** ** Handlers *)
Let IP := prog (id_name MT).

Definition try_add_id (a : access) (id : option cstr) : IP bool :=
  match id with
  | None => mret false
  | Some id =>
    if util_valid_container_id (Some (cstr_s id)) then atomic (on_id (map_store_add a id)) else mret false
  end.

Definition try_remove_id (a : access) (id : option cstr) : IP bool :=
  match id with
  | None => mret true
  | Some id =>
    if util_valid_container_id (Some (cstr_s id)) then atomic (on_id (map_store_remove a id)) else mret false
  end.

Definition try_add_name (a : access) (name : option cstr) : IP bool :=
  match name with
  | None => mret false
  | Some name =>
    if util_valid_container_name (Some (cstr_s name)) then atomic (on_name (map_store_add a name)) else mret false
  end.

Definition try_remove_name (a : access) (name : option cstr) : IP bool :=
  match name with
  | None => mret true
  | Some name =>
    if util_valid_container_name (Some (cstr_s name)) then atomic (on_name (map_store_remove a name)) else mret false
  end.

(** The retry loop of [get_new_id]: [rnd i] and [o i] serve attempt [i]. *)
Fixpoint get_new_id_loop (rnd : nat → urandom) (o : nat → access) (n i : nat) : IP (option cstr) :=
  match n with
  | O => mret None
  | S n =>
    match util_generate_random_str (rnd i) CONTAINER_ID_MAX_LEN with
    | None => mret None
    | Some text =>
      let id := cstr_of text in
      added ← try_add_id (o i) (Some id);
      if (added : bool) then mret (Some id) else get_new_id_loop rnd o n (S i)
    end
  end.

Definition get_new_id (mem : bool) (rnd : nat → urandom) (o : nat → access) : IP (option cstr) :=
  missing ← atomic (λ s, Some (match g_id_store s with None => true | Some _ => false end, s));
  if (missing : bool) then mret None else
  if mem then get_new_id_loop rnd o 10 0 else mret None.

Definition id_name_manager_add_entry_with_existing_id (o : nat → access) (id name : option cstr) : IP bool :=
  match id, name with
  | Some _, Some _ =>
    added ← try_add_id (o 0) id;
    if negb added then mret false else
    added ← try_add_name (o 1) name;
    if (added : bool) then mret true else
    try_remove_id (o 2) id;;
    mret false
  | _, _ => mret false
  end.

(** The attempts of [get_new_id] use [o 0] to [o 9]; the result pairs the
    return value with the pointer stored through [id]. *)
Definition id_name_manager_add_entry_with_new_id (mem : bool) (rnd : nat → urandom) (o : nat → access)
    (name : option cstr) : IP (bool * option cstr) :=
  match name with
  | None => mret (false, None)
  | Some _ =>
    id ← get_new_id mem rnd o;
    match id with
    | None => mret (false, None)
    | Some _ =>
      added ← try_add_name (o 10) name;
      if (added : bool) then mret (true, id) else
      try_remove_id (o 11) id;;
      mret (false, None)
    end
  end.

(** The result pairs the return value with the two stored pointers; [name0] is
    what [name] pointed to before the call. *)
Definition id_name_manager_add_entry_with_new_id_and_name (mem : bool) (rnd : nat → urandom) (o : nat → access)
    (name0 : option cstr) : IP (bool * option cstr * option cstr) :=
  id ← get_new_id mem rnd o;
  match id with
  | None => mret (false, None, name0)
  | Some _ =>
    let name := id in
    added ← try_add_name (o 10) name;
    if (added : bool) then mret (true, id, name) else
    try_remove_id (o 11) id;;
    mret (false, None, None)
  end.

Definition id_name_manager_remove_entry (o : nat → access) (id name : option cstr) : IP bool :=
  r1 ← try_remove_id (o 0) id;
  r2 ← try_remove_name (o 1) name;
  mret (if negb r1 then false else if negb r2 then false else true).

Definition id_name_manager_rename (o : nat → access) (new_name old_name : option cstr) : IP bool :=
  match old_name, new_name with
  | Some _, Some _ =>
    added ← try_add_name (o 0) new_name;
    if negb added then mret false else
    try_remove_name (o 1) old_name;;
    mret true
  | _, _ => mret false
  end.

Definition id_name_manager_has_id_and_name (o : nat → access) (id name : option cstr) : IP bool :=
  match id, name with
  | Some id, Some name =>
    has ← atomic (on_id (map_store_search (o 0) id));
    if (has : bool) then atomic (on_name (map_store_search (o 1) name)) else mret false
  | _, _ => mret false
  end.
End id_name_manager.

(** ** The generated ids *)
Section random.
Local Open Scope Z_scope.

Lemma hex_digit_lower n : 0 ≤ n < 16 → hex_lower (hex_digit n).
Proof.
  intros Hn. unfold hex_lower, between_b, byte, hex_digit. rewrite N_ascii_embedding by (case_match; lia).
  destruct (Z.ltb_spec n 10); rewrite Z2N.id by lia; lia.
Qed.

Lemma fmt_02x_lower rs : 0 ≤ rs < 256 → Forall hex_lower (fmt_02x rs).
Proof.
  intros Hrs. pose proof (Z.mod_pos_bound rs 16 eq_refl). pose proof (Z.div_mod rs 16).
  unfold fmt_02x. constructor; [|constructor; [|constructor]]; apply hex_digit_lower; lia.
Qed.

Lemma random_loop_ok u len n i :
  Z.of_nat i + Z.of_nat n = len →
  match random_loop u len n i with
  | Some s => length s = (2 * n)%nat ∧ Forall hex_lower s
  | None => ∃ j, (i ≤ j < i + n)%nat ∧ u_read u j = None
  end.
Proof.
  revert i. induction n as [|n IH]; intros i Hi; cbn [random_loop]; [by split|].
  destruct (u_read u i) as [num|] eqn:E; [|exists i; split; [lia|done]].
  destruct (Z.leb_spec ((len - Z.of_nat i) * 2 + 1) (Z.of_nat (length (fmt_02x (Z.rem num 256 mod 256))))) as [Hl|_];
    [simpl in Hl; lia|].
  specialize (IH (S i) ltac:(lia)). destruct (random_loop u len n (S i)) as [s|]; cbn [fmap option_fmap option_map].
  - destruct IH as [Hlen Hs]. split; [rewrite length_app; simpl; lia|].
    apply Forall_app. split; [apply fmt_02x_lower, Z.mod_pos_bound; lia|done].
  - destruct IH as (j & ? & ?). exists j. split; [lia|done].
Qed.

Lemma generated_id_valid u text :
  util_generate_random_str u CONTAINER_ID_MAX_LEN = Some text →
  String.length text = 64%nat ∧ util_valid_container_id (Some text) = true ∧ nul_free text = true.
Proof.
  unfold util_generate_random_str. destruct (u_open u); [|done].
  pose proof (random_loop_ok u (CONTAINER_ID_MAX_LEN / 2) (Z.to_nat (CONTAINER_ID_MAX_LEN / 2)) 0 eq_refl) as Hl.
  destruct (random_loop _ _ _ _) as [s|]; [|done]. intros [= <-]. destruct Hl as [Hlen Hs].
  assert (Hsl : String.length (to_str s) = 64%nat) by (by rewrite <- length_chars_of, chars_of_string, Hlen).
  split; [done|]. split.
  - apply container_id_iff. rewrite chars_of_string. split; [lia|done].
  - clear -Hs. induction Hs as [|c s Hc Hs IH]; simpl; [done|]. rewrite IH, andb_true_r.
    destruct (Ascii.eqb_spec c Ascii.zero) as [->|]; [|done]. unfold hex_lower, between_b, byte in Hc. simpl in Hc. lia.
Qed.

(** A generated id has 64 lower-case hexadecimal digits, so it passes the
    validation of [try_add_id]; generation fails only when the device cannot
    be opened or one of the 32 reads fails. *)
Theorem util_generate_random_str_valid u :
  match util_generate_random_str u CONTAINER_ID_MAX_LEN with
  | Some text => String.length text = 64%nat ∧ util_valid_container_id (Some text) = true ∧ nul_free text = true
  | None => u_open u = false ∨ ∃ j, (j < 32)%nat ∧ u_read u j = None
  end.
Proof.
  destruct (util_generate_random_str u CONTAINER_ID_MAX_LEN) as [text|] eqn:E; [by apply generated_id_valid in E|].
  revert E. unfold util_generate_random_str. destruct (u_open u); [|by left]. intros E. right.
  pose proof (random_loop_ok u (CONTAINER_ID_MAX_LEN / 2) (Z.to_nat (CONTAINER_ID_MAX_LEN / 2)) 0 eq_refl) as Hl.
  destruct (random_loop _ _ _ _); [done|]. destruct Hl as (j & Hj & ?). exists j. split; [|done].
  change (Z.to_nat (CONTAINER_ID_MAX_LEN / 2)) with 32%nat in Hj. lia.
Qed.
End random.

(** ** Sequential specification *)
Section sequential.
Context {MT : Type} {SM : StrMap bool MT}.
Implicit Types (X Y : gset cstr) (s : id_name MT).

(** [registry s X Y]: the ids are [X] and the names [Y]. *)
Definition holds_set (o : option MT) X : Prop := ∃ m g, o = Some m ∧ sm_models m g ∧ dom g = X.
Definition registry s X Y : Prop := holds_set (g_id_store s) X ∧ holds_set (g_name_store s) Y.

(** When an access adds or removes an item of a set. *)
Definition may_add (a : access) (item : cstr) X : bool :=
  a_lock a && bool_decide (item ∉ X) && sm_room (a_mem a).
Definition may_remove (a : access) (item : cstr) X : bool := a_lock a && bool_decide (item ∈ X).

Lemma wp_in_store {A} (f : M MT A) (Q : A → option MT → Prop) m :
  wp f (λ a m', Q a (Some m')) m → wp (in_store f) Q (Some m).
Proof. unfold wp, in_store. by destruct (f m) as [[]|]. Qed.

Lemma map_store_add_spec a item o X :
  holds_set o X →
  wp (map_store_add a item)
     (λ b o', b = may_add a item X ∧ holds_set o' (if b then {[item]} ∪ X else X)) o.
Proof.
  intros (m & g & -> & Hm & <-). unfold map_store_add, may_add, wp. destruct (a_lock a); [|split; [done|by exists m, g]].
  apply wp_bind, wp_in_store. eapply wp_mono; [by apply sm_search_ok|]. intros v m' (-> & ->).
  destruct (g !! item) as [x|] eqn:E.
  - rewrite bool_decide_false by (rewrite elem_of_dom, E; naive_solver). split; [done|]. by exists m, g.
  - rewrite bool_decide_true by (by rewrite elem_of_dom, E; intros []).
    apply wp_in_store. eapply wp_mono; [by apply sm_replace_ok|]. intros b m' (_ & Hb & Hm' & _).
    rewrite (Hb E) in *. split; [done|]. destruct (sm_room _); [|by exists m', g].
    exists m', (<[item:=true]> g). split_and!; [done..|]. by rewrite dom_insert_L.
Qed.

Lemma map_store_remove_spec a item o X :
  holds_set o X →
  wp (map_store_remove a item)
     (λ b o', b = may_remove a item X ∧ holds_set o' (if b then X ∖ {[item]} else X)) o.
Proof.
  intros (m & g & -> & Hm & <-). unfold map_store_remove, may_remove, wp. destruct (a_lock a); [|split; [done|by exists m, g]].
  apply wp_in_store. eapply wp_mono; [by apply sm_remove_ok|]. intros b m' (-> & Hm' & _).
  rewrite (bool_decide_ext _ _ (elem_of_dom g item)). split; [done|].
  exists m', (delete item g). split_and!; [done..|]. rewrite dom_delete_L. case_bool_decide as E; [done|].
  rewrite <- (elem_of_dom (D:=gset cstr)) in E. set_solver.
Qed.

Lemma map_store_search_spec a item o X :
  holds_set o X → wp (map_store_search a item) (λ b o', b = may_remove a item X ∧ holds_set o' X) o.
Proof.
  intros (m & g & -> & Hm & <-). unfold map_store_search, may_remove, wp. destruct (a_lock a); [|split; [done|by exists m, g]].
  apply wp_bind, wp_in_store. eapply wp_mono; [by apply sm_search_ok|]. intros v m' (-> & ->).
  rewrite (bool_decide_ext _ _ (elem_of_dom g item)). split; [done|by exists m, g].
Qed.

Lemma wp_on_id {A} (f : M (option MT) A) (Q : A → id_name MT → Prop) s :
  wp f (λ a o, Q a (mk_id_name o (g_name_store s))) (g_id_store s) → wp (on_id f) Q s.
Proof. unfold wp, on_id. by destruct (f (g_id_store s)) as [[]|]. Qed.

Lemma wp_on_name {A} (f : M (option MT) A) (Q : A → id_name MT → Prop) s :
  wp f (λ a o, Q a (mk_id_name (g_id_store s) o)) (g_name_store s) → wp (on_name f) Q s.
Proof. unfold wp, on_name. by destruct (f (g_name_store s)) as [[]|]. Qed.

Definition valid_id (id : cstr) : bool := util_valid_container_id (Some (cstr_s id)).
Definition valid_name (name : cstr) : bool := util_valid_container_name (Some (cstr_s name)).

(** The four locked updates of the registry. *)
Lemma add_id_spec a id s X Y :
  registry s X Y →
  wp (on_id (map_store_add a id)) (λ b s', b = may_add a id X ∧ registry s' (if b then {[id]} ∪ X else X) Y) s.
Proof. intros [HX HY]. apply wp_on_id. eapply wp_mono; [by apply map_store_add_spec|]. by intros b o [-> ?]. Qed.

Lemma remove_id_spec a id s X Y :
  registry s X Y →
  wp (on_id (map_store_remove a id)) (λ b s', b = may_remove a id X ∧ registry s' (if b then X ∖ {[id]} else X) Y) s.
Proof. intros [HX HY]. apply wp_on_id. eapply wp_mono; [by apply map_store_remove_spec|]. by intros b o [-> ?]. Qed.

Lemma add_name_spec a name s X Y :
  registry s X Y →
  wp (on_name (map_store_add a name)) (λ b s', b = may_add a name Y ∧ registry s' X (if b then {[name]} ∪ Y else Y)) s.
Proof. intros [HX HY]. apply wp_on_name. eapply wp_mono; [by apply map_store_add_spec|]. by intros b o [-> ?]. Qed.

Lemma remove_name_spec a name s X Y :
  registry s X Y →
  wp (on_name (map_store_remove a name)) (λ b s', b = may_remove a name Y ∧ registry s' X (if b then Y ∖ {[name]} else Y)) s.
Proof. intros [HX HY]. apply wp_on_name. eapply wp_mono; [by apply map_store_remove_spec|]. by intros b o [-> ?]. Qed.

Lemma try_add_id_spec a id s X Y :
  registry s X Y →
  wp (run (try_add_id a (Some id))) (λ b s',
    b = valid_id id && may_add a id X ∧ registry s' (if b then {[id]} ∪ X else X) Y) s.
Proof.
  intros Hr. unfold try_add_id, valid_id. destruct (util_valid_container_id _); [|by apply wp_ret].
  by apply wp_run_atomic, add_id_spec.
Qed.

Lemma try_remove_id_spec a id s X Y :
  registry s X Y →
  wp (run (try_remove_id a (Some id))) (λ b s',
    b = valid_id id && may_remove a id X ∧ registry s' (if b then X ∖ {[id]} else X) Y) s.
Proof.
  intros Hr. unfold try_remove_id, valid_id. destruct (util_valid_container_id _); [|by apply wp_ret].
  by apply wp_run_atomic, remove_id_spec.
Qed.

Lemma try_add_name_spec a name s X Y :
  registry s X Y →
  wp (run (try_add_name a (Some name))) (λ b s',
    b = valid_name name && may_add a name Y ∧ registry s' X (if b then {[name]} ∪ Y else Y)) s.
Proof.
  intros Hr. unfold try_add_name, valid_name. destruct (util_valid_container_name _); [|by apply wp_ret].
  by apply wp_run_atomic, add_name_spec.
Qed.

Lemma try_remove_name_spec a name s X Y :
  registry s X Y →
  wp (run (try_remove_name a (Some name))) (λ b s',
    b = valid_name name && may_remove a name Y ∧ registry s' X (if b then Y ∖ {[name]} else Y)) s.
Proof.
  intros Hr. unfold try_remove_name, valid_name. destruct (util_valid_container_name _); [|by apply wp_ret].
  by apply wp_run_atomic, remove_name_spec.
Qed.

(** Adding an item and removing it again restores the set. *)
Lemma remove_added (a : access) id X :
  a_lock a = true → id ∉ X → may_remove a id ({[id]} ∪ X) = true ∧ ({[id]} ∪ X) ∖ {[id]} = X.
Proof. intros Hl Hid. unfold may_remove. rewrite Hl, bool_decide_true by set_solver. split; [done|set_solver]. Qed.

Lemma may_add_fresh a item X : may_add a item X = true → item ∉ X.
Proof. unfold may_add. by intros [[_ ?%bool_decide_eq_true]%andb_true_iff _]%andb_true_iff. Qed.

Lemma remove_if_present (item : cstr) X : (if bool_decide (item ∈ X) then X ∖ {[item]} else X) = X ∖ {[item]}.
Proof. case_bool_decide; [done|]. symmetry. apply difference_disjoint_L. set_solver. Qed.

(** The name half of every registration: a failure gives the id back. *)
Lemma add_name_or_rollback {A} a1 a2 id name s X Y (yes no : A) :
  registry s ({[id]} ∪ X) Y → id ∉ X → valid_id id = true → a_lock a2 = true →
  wp (run (added ← try_add_name a1 (Some name);
           if (added : bool) then mret yes else try_remove_id a2 (Some id);; mret no))
     (λ r s', if valid_name name && may_add a1 name Y
              then r = yes ∧ registry s' ({[id]} ∪ X) ({[name]} ∪ Y)
              else r = no ∧ registry s' X Y) s.
Proof.
  intros Hr Hid Hv Hl. apply wp_run_bind. eapply wp_mono; [by apply try_add_name_spec|].
  intros b s1 [-> Hs1]. destruct (valid_name name && _); [by apply wp_ret|].
  apply wp_run_bind. eapply wp_mono; [by apply try_remove_id_spec|]. intros b s2 [-> Hs2].
  destruct (remove_added a2 id X Hl Hid) as [Hm HX]. rewrite Hv, Hm in Hs2. simpl in Hs2. rewrite HX in Hs2.
  by apply wp_ret.
Qed.

Lemma map_store_new_ok mem :
  match map_store_new mem with
  | Some m => holds_set (Some m) ∅
  | None => m_store mem && m_lock mem && (m_map mem && m_tree mem && m_nil mem) = false
  end.
Proof.
  unfold map_store_new. destruct (m_store mem), (m_lock mem); try done. simpl.
  pose proof (sm_new_ok (m_map mem) (m_tree mem) (m_nil mem)) as Hn. destruct (sm_new _ _ _) as [m|]; [|done].
  destruct Hn as [Hn _]. exists m, ∅. by rewrite dom_empty_L.
Qed.

Lemma map_store_free_spec o X : holds_set o X → wp map_store_free (λ _ o', o' = None) o.
Proof.
  intros (m & g & -> & Hm & _). unfold map_store_free, wp. pose proof (sm_free_ok m g Hm) as Hf. unfold wp in Hf.
  by destruct (sm_free m) as [[]|].
Qed.

(** Start and stop: initialisation gives two empty stores, or reports failure
    and leaves no store behind; release frees both. *)
Theorem id_name_manager_lifecycle mem1 mem2 s X Y :
  wp (id_name_manager_init mem1 mem2) (λ r s',
    (r = 0%Z ∧ registry s' ∅ ∅) ∨ (r = (-1)%Z ∧ g_id_store s' = None)) s ∧
  (registry s X Y → wp id_name_manager_release (λ _ s', s' = mk_id_name None None) s).
Proof.
  split.
  - unfold id_name_manager_init. apply wp_bind. unfold wp at 1, id_store_init.
    pose proof (map_store_new_ok mem1) as H1. destruct (map_store_new mem1) as [m1|]; [|by apply wp_ret; right].
    apply wp_bind. unfold wp at 1, name_store_init. pose proof (map_store_new_ok mem2) as H2.
    destruct (map_store_new mem2) as [m2|]; [by apply wp_ret; left|]. apply wp_bind, wp_on_id.
    eapply wp_mono; [by eapply map_store_free_spec|]. intros [] o ->. apply wp_ret. by right.
  - intros [HX HY]. apply wp_bind, wp_on_id. eapply wp_mono; [by eapply map_store_free_spec|]. intros [] o ->.
    apply wp_on_name. eapply wp_mono; [by eapply map_store_free_spec|]. by intros [] o ->.
Qed.

(** Registration with a given id is all-or-nothing: it returns [true] and adds
    both entries exactly when both are valid and free and the accesses succeed,
    and otherwise leaves the registry as it was. *)
Theorem add_entry_with_existing_id_atomic o id name s X Y :
  registry s X Y → a_lock (o 2) = true →
  wp (run (id_name_manager_add_entry_with_existing_id o (Some id) (Some name))) (λ b s',
    b = (valid_id id && may_add (o 0) id X) && (valid_name name && may_add (o 1) name Y) ∧
    (if b then registry s' ({[id]} ∪ X) ({[name]} ∪ Y) else registry s' X Y)) s.
Proof.
  intros Hr Hl. apply wp_run_bind. eapply wp_mono; [by apply try_add_id_spec|]. intros b s1 [-> Hs1].
  destruct (valid_id id) eqn:Hv; [|by apply wp_ret]. destruct (may_add (o 0) id X) eqn:Hm; [|by apply wp_ret].
  eapply wp_mono; [by eapply (add_name_or_rollback (o 1) (o 2) id name s1 X Y true false); [|eapply may_add_fresh|..]|].
  intros r s2. simpl. destruct (valid_name name && _); by intros [-> ?].
Qed.

Lemma get_new_id_loop_spec rnd o n i s X Y :
  registry s X Y →
  wp (run (get_new_id_loop rnd o n i)) (λ r s',
    match r with
    | Some id => (id ∉ X) ∧ valid_id id = true ∧ String.length (cstr_s id) = 64 ∧ registry s' ({[id]} ∪ X) Y
    | None => registry s' X Y
    end) s.
Proof.
  revert i s. induction n as [|n IH]; intros i s Hr; cbn [get_new_id_loop]; [by apply wp_ret|].
  destruct (util_generate_random_str _ _) as [text|] eqn:E; [|by apply wp_ret].
  apply generated_id_valid in E as (Hlen & Hv & Hnul).
  apply wp_run_bind. eapply wp_mono; [by apply try_add_id_spec|]. intros b s1 [-> Hs1].
  assert (Hs : cstr_s (cstr_of text) = text) by (by apply c_bytes_nul_free).
  destruct (valid_id _ && _) eqn:Hb; [|by apply IH].
  apply andb_true_iff in Hb as [Hv' Hb%may_add_fresh]. apply wp_ret. by rewrite Hs.
Qed.

Lemma get_new_id_spec mem rnd o s X Y :
  registry s X Y →
  wp (run (get_new_id mem rnd o)) (λ r s',
    match r with
    | Some id => (id ∉ X) ∧ valid_id id = true ∧ String.length (cstr_s id) = 64 ∧ registry s' ({[id]} ∪ X) Y
    | None => registry s' X Y
    end) s.
Proof.
  intros Hr. pose proof Hr as [(m & _ & E & _) _]. unfold get_new_id. apply wp_run_bind, wp_run_atomic.
  unfold wp at 1. rewrite E. destruct mem; [by apply get_new_id_loop_spec|by apply wp_ret].
Qed.

(** Registration under a generated id: on success the id is a fresh valid id
    of 64 digits and the name is registered with it; on failure nothing is
    registered and no id is returned. *)
Theorem add_entry_with_new_id_atomic mem rnd o name s X Y :
  registry s X Y → a_lock (o 11) = true →
  wp (run (id_name_manager_add_entry_with_new_id mem rnd o (Some name))) (λ r s',
    (r = (false, None) ∧ registry s' X Y) ∨
    ∃ id, r = (true, Some id) ∧ (id ∉ X) ∧ (name ∉ Y) ∧ valid_id id = true ∧ valid_name name = true ∧
      String.length (cstr_s id) = 64 ∧ registry s' ({[id]} ∪ X) ({[name]} ∪ Y)) s.
Proof.
  intros Hr Hl. apply wp_run_bind. eapply wp_mono; [by apply get_new_id_spec|]. intros [id|] s1; [|intros; left; done].
  intros (Hid & Hv & Hlen & Hs1). eapply wp_mono; [by eapply add_name_or_rollback|].
  intros r s2. simpl. destruct (valid_name name) eqn:Hn; [|by left]. simpl.
  destruct (may_add (o 10) name Y) eqn:Hm; [|by left]. intros [-> Hs2]. right. exists id.
  eauto 10 using may_add_fresh.
Qed.

(** Registration under a generated id that also serves as the name. *)
Theorem add_entry_with_new_id_and_name_atomic mem rnd o name0 s X Y :
  registry s X Y → a_lock (o 11) = true →
  wp (run (id_name_manager_add_entry_with_new_id_and_name mem rnd o name0)) (λ r s',
    (r.1 = (false, None) ∧ registry s' X Y) ∨
    ∃ id, r = (true, Some id, Some id) ∧ (id ∉ X) ∧ (id ∉ Y) ∧ registry s' ({[id]} ∪ X) ({[id]} ∪ Y)) s.
Proof.
  intros Hr Hl. apply wp_run_bind. eapply wp_mono; [by apply get_new_id_spec|]. intros [id|] s1; [|intros; left; done].
  intros (Hid & Hv & Hlen & Hs1). eapply wp_mono; [by eapply add_name_or_rollback|].
  intros r s2. simpl. destruct (valid_name id && may_add (o 10) id Y) eqn:Hm; intros [-> Hs2]; [|by left].
  apply andb_true_iff in Hm as [_ Hm%may_add_fresh]. right. by exists id.
Qed.

(** Renaming adds the new name or fails without effect; when it succeeds the
    old name is free again if it is valid and can be locked.  Renaming to a
    name in use, the old name included, fails. *)
Theorem rename_spec o new_name old_name s X Y :
  registry s X Y →
  wp (run (id_name_manager_rename o (Some new_name) (Some old_name))) (λ b s',
    b = valid_name new_name && may_add (o 0) new_name Y ∧
    registry s' X (if b then ({[new_name]} ∪ Y) ∖ (if valid_name old_name && a_lock (o 1) then {[old_name]} else ∅)
                   else Y) ∧
    (new_name ∈ Y → b = false)) s.
Proof.
  intros Hr. apply wp_run_bind. eapply wp_mono; [by apply try_add_name_spec|]. intros b s1 [-> Hs1].
  destruct (valid_name new_name && may_add (o 0) new_name Y) eqn:Hb; simpl negb; cbn iota; [|by apply wp_ret].
  apply andb_true_iff in Hb as [_ Hb%may_add_fresh].
  apply wp_run_bind. eapply wp_mono; [by apply try_remove_name_spec|]. intros b s2 [-> Hs2]. apply wp_ret.
  split_and!; [done| |done]. unfold may_remove in Hs2.
  destruct (valid_name old_name && a_lock (o 1)) eqn:Hv; simpl in *.
  - apply andb_true_iff in Hv as [Hv Hl]. rewrite Hv, Hl in Hs2. simpl in Hs2. case_bool_decide as Ho; [done|].
    by rewrite (difference_disjoint_L ({[new_name]} ∪ Y)) by set_solver.
  - rewrite difference_empty_L. by destruct (valid_name old_name), (a_lock (o 1)).
Qed.

(** Removal and lookup: an entry that was added is found, and after its removal
    both its id and its name are free. *)
Theorem remove_entry_spec o id name s X Y :
  registry s X Y → (∀ i, a_lock (o i) = true) →
  wp (run (id_name_manager_has_id_and_name o (Some id) (Some name))) (λ b s',
    b = bool_decide (id ∈ X ∧ name ∈ Y) ∧ registry s' X Y) s ∧
  (valid_id id = true → valid_name name = true →
   wp (run (id_name_manager_remove_entry o (Some id) (Some name))) (λ b s',
     b = bool_decide (id ∈ X ∧ name ∈ Y) ∧ registry s' (X ∖ {[id]}) (Y ∖ {[name]})) s).
Proof.
  intros Hr Hl. split.
  - pose proof Hr as [HX HY]. apply wp_run_bind, wp_run_atomic, wp_on_id.
    eapply wp_mono; [by apply map_store_search_spec|]. intros b m [-> Hm]. unfold may_remove. rewrite Hl.
    rewrite bool_decide_and. simpl. case_bool_decide; simpl; [|by apply wp_ret].
    apply wp_run_atomic, wp_on_name. eapply wp_mono; [by apply map_store_search_spec|]. intros b m' [-> Hm'].
    unfold may_remove. by rewrite Hl.
  - intros Hi Hn. apply wp_run_bind. eapply wp_mono; [by apply try_remove_id_spec|]. intros b s1 [-> Hs1].
    apply wp_run_bind. eapply wp_mono; [by apply try_remove_name_spec|]. intros b s2 [-> Hs2]. apply wp_ret.
    unfold may_remove in *. rewrite Hi, Hn, !Hl in *. simpl in *. rewrite bool_decide_and.
    rewrite !remove_if_present in Hs2. by do 2 case_bool_decide.
Qed.
End sequential.

(** ** Concurrent registrations

    Threads that register entries at the same time, interleaved at every
    locked access. *)
Record request := mk_request { r_id : cstr; r_name : cstr; r_access : nat → access }.

(** Where a thread is: before its first access, holding the id, about to give
    the id back, or finished. *)
Inductive phase := Start | HasId | Back | Done (b : bool).

Section concurrent.
Context {MT : Type} {SM : StrMap bool MT}.
Implicit Types (X Y : gset cstr) (s : id_name MT) (cfg : list (request * phase)).

Definition register (r : request) : prog (id_name MT) bool :=
  id_name_manager_add_entry_with_existing_id (r_access r) (Some (r_id r)) (Some (r_name r)).

Definition rest (x : request * phase) : prog (id_name MT) bool :=
  let '(r, ph) := x in
  let back := try_remove_id (r_access r 2) (Some (r_id r));; mret false in
  match ph with
  | Start => register r
  | HasId => added ← try_add_name (r_access r 1) (Some (r_name r)); if (added : bool) then mret true else back
  | Back => back
  | Done b => Ret b
  end.

(** The id and the name a thread has in the stores. *)
Definition own_id (x : request * phase) : option cstr :=
  match x.2 with Start | Done false => None | HasId | Back | Done true => Some (r_id x.1) end.
Definition own_name (x : request * phase) : option cstr :=
  match x.2 with Done true => Some (r_name x.1) | _ => None end.

(** The steps left to a thread. *)
Definition left (x : request * phase) : nat := match x.2 with Start => 3 | HasId => 2 | Back => 1 | Done _ => 0 end.

(** Effect of one access of a thread on the phase and the two sets. *)
Inductive moves (r : request) : phase → gset cstr → gset cstr → phase → gset cstr → gset cstr → Prop :=
| mv_id X Y : valid_id (r_id r) = true → r_id r ∉ X → moves r Start X Y HasId ({[r_id r]} ∪ X) Y
| mv_no_id X Y : moves r Start X Y (Done false) X Y
| mv_name X Y : r_name r ∉ Y → moves r HasId X Y (Done true) X ({[r_name r]} ∪ Y)
| mv_no_name X Y : moves r HasId X Y Back X Y
| mv_back ph X Y : ph = HasId ∨ ph = Back → moves r ph X Y (Done false) (X ∖ {[r_id r]}) Y.

Lemma back_moves r act k s b s' X Y :
  a_lock (r_access r 2) = true → valid_id (r_id r) = true → r_id r ∈ X → registry s X Y →
  rest (r, Back) = Atomic act k → act s = Some (b, s') →
  k b = rest (r, Done false) ∧ registry s' (X ∖ {[r_id r]}) Y.
Proof.
  intros Hl Hv Hin Hr. unfold rest, try_remove_id. fold (valid_id (r_id r)). rewrite Hv. intros [= <- <-] Ha.
  pose proof (remove_id_spec (r_access r 2) (r_id r) s X Y Hr) as Hw. unfold wp in Hw. rewrite Ha in Hw.
  destruct Hw as [-> Hs]. unfold may_remove in Hs. by rewrite Hl, bool_decide_true in Hs.
Qed.

(** Every step of a thread is a move; the accesses of one thread only depend
    on what the others left in the stores. *)
Lemma thread_moves r ph act k s b s' X Y :
  a_lock (r_access r 2) = true → (own_id (r, ph) = Some (r_id r) → valid_id (r_id r) = true ∧ r_id r ∈ X) →
  registry s X Y → rest (r, ph) = Atomic act k → act s = Some (b, s') →
  ∃ ph' X' Y', k b = rest (r, ph') ∧ registry s' X' Y' ∧ moves r ph X Y ph' X' Y'.
Proof.
  intros Hl Hown Hr Hrest Ha. destruct ph as [| | |b'].
  - unfold rest, register, id_name_manager_add_entry_with_existing_id, try_add_id in Hrest.
    fold (valid_id (r_id r)) in Hrest. destruct (valid_id (r_id r)) eqn:Hv; [|done]. injection Hrest as <- <-.
    pose proof (add_id_spec (r_access r 0) (r_id r) s X Y Hr) as Hw. unfold wp in Hw. rewrite Ha in Hw.
    destruct Hw as [-> Hs]. destruct (may_add _ _ _) eqn:Hm.
    + eexists HasId, _, _. split; [done|]. split; [exact Hs|]. apply mv_id; [done|by eapply may_add_fresh].
    + eexists (Done false), _, _. split; [done|]. split; [exact Hs|]. apply mv_no_id.
  - destruct (Hown eq_refl) as [Hv Hin]. destruct (valid_name (r_name r)) eqn:Hn.
    + unfold rest, try_add_name in Hrest. fold (valid_name (r_name r)) in Hrest. rewrite Hn in Hrest.
      injection Hrest as <- <-. pose proof (add_name_spec (r_access r 1) (r_name r) s X Y Hr) as Hw.
      unfold wp in Hw. rewrite Ha in Hw. destruct Hw as [-> Hs]. destruct (may_add _ _ _) eqn:Hm.
      * eexists (Done true), _, _. split; [done|]. split; [exact Hs|]. apply mv_name. by eapply may_add_fresh.
      * eexists Back, _, _. split; [done|]. split; [exact Hs|]. apply mv_no_name.
    + assert (Hb : rest (r, HasId) = rest (r, Back)).
      { unfold rest, try_add_name. fold (valid_name (r_name r)). by rewrite Hn. }
      rewrite Hb in Hrest. destruct (back_moves _ _ _ _ _ _ _ _ Hl Hv Hin Hr Hrest Ha) as [Hk Hs].
      eexists (Done false), _, _. split; [done|]. split; [exact Hs|]. apply mv_back. by left.
  - destruct (Hown eq_refl) as [Hv Hin]. destruct (back_moves _ _ _ _ _ _ _ _ Hl Hv Hin Hr Hrest Ha) as [Hk Hs].
    eexists (Done false), _, _. split; [done|]. split; [exact Hs|]. apply mv_back. by right.
  - done.
Qed.

(** The stores hold what they held at the start and what the threads own. *)
Record accounted X0 Y0 cfg X Y : Prop := {
  ac_ids : elements X ≡ₚ elements X0 ++ omap own_id cfg;
  ac_names : elements Y ≡ₚ elements Y0 ++ omap own_name cfg;
  ac_valid : Forall (λ x, own_id x = Some (r_id x.1) → valid_id (r_id x.1) = true) cfg
}.

Lemma elements_add (item : cstr) X : item ∉ X → elements ({[item]} ∪ X) ≡ₚ item :: elements X.
Proof. apply elements_union_singleton. Qed.

Lemma elements_remove (item : cstr) X l : elements X ≡ₚ item :: l → elements (X ∖ {[item]}) ≡ₚ l.
Proof.
  intros HX. assert (Hin : item ∈ X) by (apply elem_of_elements; rewrite HX; by left).
  apply (Permutation_cons_inv (a:=item)). rewrite <- HX, <- elements_add by set_solver.
  by rewrite <- union_difference_singleton_L.
Qed.

Lemma accounted_own X0 Y0 cfg X Y x : accounted X0 Y0 cfg X Y → x ∈ cfg → own_id x = Some (r_id x.1) →
  valid_id (r_id x.1) = true ∧ r_id x.1 ∈ X.
Proof.
  intros [Hi _ Hv] Hx Ho. split.
  - rewrite Forall_forall in Hv. by apply (Hv x).
  - apply elem_of_elements. rewrite Hi, elem_of_app. right. apply list_elem_of_omap. by exists x.
Qed.

Lemma accounted_move X0 Y0 l1 r ph l2 X Y ph' X' Y' :
  accounted X0 Y0 (l1 ++ (r, ph) :: l2) X Y → moves r ph X Y ph' X' Y' →
  accounted X0 Y0 (l1 ++ (r, ph') :: l2) X' Y' ∧ left (r, ph') < left (r, ph).
Proof.
  intros [Hi Hn Hv] Hm. rewrite omap_app in Hi, Hn. rewrite Forall_app, list.Forall_cons in Hv. destruct Hv as (Hv1 & Hv & Hv2).
  assert (Hmid : ∀ (a : cstr) (l l1 l2 : list cstr), l ++ l1 ++ a :: l2 ≡ₚ a :: (l ++ l1 ++ l2)).
  { intros. by rewrite !(app_assoc l), Permutation_middle. }
  inversion Hm as [| | | |? ? ? [->| ->]]; subst; cbn in Hi, Hn, Hv |- *; (split; [split|lia]);
    rewrite ?omap_app, ?Forall_app, ?list.Forall_cons; try (split_and!; try done; by auto); try done; cbn.
  - by rewrite elements_add, Hi, Hmid.
  - by rewrite elements_add, Hn, Hmid.
  - apply elements_remove. by rewrite Hi, Hmid.
  - apply elements_remove. by rewrite Hi, Hmid.
Qed.

Definition total_left cfg : nat := sum_list_with left cfg.

(** The state of the pool, described by phases. *)
Definition pool_inv X0 Y0 (reqs : list request) (n : nat) (c : id_name MT * list (prog (id_name MT) bool)) : Prop :=
  ∃ cfg X Y, c.2 = rest <$> cfg ∧ cfg.*1 = reqs ∧ registry c.1 X Y ∧ accounted X0 Y0 cfg X Y ∧
    n + total_left cfg ≤ 3 * length reqs.

Lemma pool_inv_step X0 Y0 reqs n c c' :
  Forall (λ r, a_lock (r_access r 2) = true) reqs → pool_inv X0 Y0 reqs n c → pstep c c' → pool_inv X0 Y0 reqs (S n) c'.
Proof.
  intros Hl (cfg & X & Y & Hp & Hq & Hr & Hacc & Hn) Hs. destruct Hs as [s s' pool i act k b Hi Ha]. simpl in *. subst pool.
  apply list_lookup_fmap_Some in Hi as ([r ph] & Hrest & Hi). pose proof Hi as Hin%list_elem_of_lookup_2.
  assert (Hlr : a_lock (r_access r 2) = true).
  { rewrite Forall_forall in Hl. apply Hl. rewrite <- Hq. by apply (list_elem_of_fmap_2 fst) in Hin. }
  destruct (thread_moves r ph act k s b s' X Y) as (ph' & X' & Y' & Hk & Hr' & Hm); try done.
  { intros Ho. by apply (accounted_own X0 Y0 cfg X Y (r, ph)). }
  apply list_elem_of_split_length in Hi as (l1 & l2 & -> & ->).
  destruct (accounted_move _ _ _ _ _ _ _ _ _ _ _ Hacc Hm) as [Hacc' Hlt].
  exists (l1 ++ (r, ph') :: l2), X', Y'. split_and!; simpl; try done.
  - rewrite Hk, !fmap_app, !fmap_cons. by rewrite insert_app_r_alt, length_fmap, Nat.sub_diag by (by rewrite length_fmap).
  - by rewrite <- Hq, !fmap_app, !fmap_cons.
  - unfold total_left in *. rewrite sum_list_with_app in Hn |- *. simpl sum_list_with in Hn |- *. lia.
Qed.

(** The requests whose thread has returned [true]. *)
Definition winner (x : request * prog (id_name MT) bool) : option request :=
  match x.2 with Ret true => Some x.1 | _ => None end.
Definition winners (reqs : list request) (pool : list (prog (id_name MT) bool)) : list request :=
  omap winner (zip reqs pool).

Lemma rest_ret x : own_id x = Some (r_id x.1) → valid_id (r_id x.1) = true → finished (rest x) → x.2 = Done true.
Proof.
  destruct x as [r [| | |[]]]; try done; cbn [fst]; intros _ Hv; unfold rest, try_add_name, try_remove_id;
    fold (valid_id (r_id r)); fold (valid_name (r_name r)); rewrite Hv; [|done]. by destruct (valid_name (r_name r)).
Qed.

Lemma rest_won x : winner (x.1, rest x) = match x.2 with Done true => Some x.1 | _ => None end.
Proof.
  destruct x as [r [| | |[]]]; try done; unfold winner; cbn [fst snd]; unfold rest, register,
    id_name_manager_add_entry_with_existing_id, try_add_id, try_add_name, try_remove_id;
    fold (valid_id (r_id r)); fold (valid_name (r_name r));
    by destruct (valid_id (r_id r)), (valid_name (r_name r)).
Qed.

Lemma winners_names cfg : r_name <$> winners cfg.*1 (rest <$> cfg) = omap own_name cfg.
Proof.
  induction cfg as [|x cfg IH]; [done|]. unfold winners. cbn. fold (winners cfg.*1 (rest <$> cfg)).
  rewrite rest_won. unfold own_name at 1. destruct x as [r [| | |[]]]; cbn; congruence.
Qed.

Lemma winners_ids cfg :
  Forall (λ x, own_id x = Some (r_id x.1) → valid_id (r_id x.1) = true) cfg → Forall finished (rest <$> cfg) →
  r_id <$> winners cfg.*1 (rest <$> cfg) = omap own_id cfg.
Proof.
  induction cfg as [|x cfg IH]; [done|]. cbn. rewrite !list.Forall_cons. intros [Hv Hvs] [Hb Hf].
  unfold winners. cbn. fold (winners cfg.*1 (rest <$> cfg)). rewrite rest_won. specialize (IH Hvs Hf).
  pose proof (λ H, rest_ret x H (Hv H) Hb) as Hd. unfold own_id at 1.
  destruct x as [r [| | |[]]]; cbn in *; try congruence; by specialize (Hd eq_refl).
Qed.

(** A thread that has not finished can always take its next step. *)
Lemma rest_enabled x act k s X Y :
  registry s X Y → rest x = Atomic act k → ∃ b s', act s = Some (b, s').
Proof.
  intros Hr Hx. assert (∃ f : bool → id_name MT → Prop, wp act f s) as [f (b & s' & ? & _)%wp_run]; [|by eauto].
  destruct x as [r [| | |b]]; unfold rest, register, id_name_manager_add_entry_with_existing_id, try_add_id,
    try_add_name, try_remove_id in Hx; fold (valid_id (r_id r)) in Hx; fold (valid_name (r_name r)) in Hx;
    destruct (valid_id (r_id r)), (valid_name (r_name r)); try done; injection Hx as <- <-;
    eexists; first [by eapply add_id_spec|by eapply add_name_spec|by eapply remove_id_spec].
Qed.

Lemma pool_inv_steps X0 Y0 reqs n m c c' :
  Forall (λ r, a_lock (r_access r 2) = true) reqs → pool_inv X0 Y0 reqs n c → nsteps pstep m c c' →
  pool_inv X0 Y0 reqs (n + m) c'.
Proof.
  intros Hl Hc Hs. revert n Hc. induction Hs as [c|m c1 c2 c3 H12 _ IH]; intros n Hc.
  - by rewrite Nat.add_0_r.
  - rewrite Nat.add_succ_r. apply (IH (S n)). by eapply pool_inv_step.
Qed.

Lemma pool_inv_start s X Y reqs : registry s X Y → pool_inv X Y reqs 0 (s, register <$> reqs).
Proof.
  intros Hr. exists ((λ r, (r, Start)) <$> reqs), X, Y. simpl. rewrite <- !list_fmap_compose. split_and!; try done.
  - by rewrite list_fmap_id.
  - assert (Ho : ∀ f : request * phase → option cstr, (∀ r, f (r, Start) = None) →
      omap f ((λ r, (r, Start)) <$> reqs) = []).
    { intros f Hf. induction reqs as [|r reqs IH]; [done|]. cbn. by rewrite Hf. }
    split; [by rewrite (Ho own_id), app_nil_r|by rewrite (Ho own_name), app_nil_r|]. apply Forall_fmap. by apply Forall_true.
  - unfold total_left. clear Hr. induction reqs as [|r reqs IH]; [done|]. cbn in *. lia.
Qed.

End concurrent.

(** ** Instances on a concrete registry *)
Section examples.
#[local] Existing Instance str_bool_map.
Let SM : StrMap bool (map_t unit MAP_STR_BOOL) := str_bool_map true.
#[local] Existing Instance SM.

Definition all_ok : store_mem := mk_store_mem true true true true true.
Definition good_access : access := mk_access true mem_ok.

Definition empty_registry : id_name (map_t unit MAP_STR_BOOL) :=
  mk_id_name (map_store_new all_ok) (map_store_new all_ok).

Lemma empty_registry_ok : registry empty_registry ∅ ∅.
Proof. pose proof (map_store_new_ok all_ok) as H. by split. Qed.

Definition sample_id : cstr := cstr_of "0123456789abcdef".
Definition sample_name : cstr := cstr_of "web_1".

Lemma add_entry_with_existing_id_atomic_witness :
  wp (run (id_name_manager_add_entry_with_existing_id (λ _, good_access) (Some sample_id) (Some sample_name)))
    (λ b s', b = (valid_id sample_id && may_add good_access sample_id ∅) &&
                 (valid_name sample_name && may_add good_access sample_name ∅) ∧
      (if b then registry s' ({[sample_id]} ∪ ∅) ({[sample_name]} ∪ ∅) else registry s' ∅ ∅)) empty_registry.
Proof. exact (add_entry_with_existing_id_atomic (λ _, good_access) _ _ _ _ _ empty_registry_ok eq_refl). Defined.

Definition sample_rnd (i : nat) : urandom := mk_urandom true (λ j, Some (Z.of_nat (100 * i + 7 * j))).

Lemma add_entry_with_new_id_atomic_witness :
  wp (run (id_name_manager_add_entry_with_new_id true sample_rnd (λ _, good_access) (Some sample_name))) (λ r s',
    (r = (false, None) ∧ registry s' ∅ ∅) ∨
    ∃ id, r = (true, Some id) ∧ (id ∉ (∅ : gset cstr)) ∧ (sample_name ∉ (∅ : gset cstr)) ∧ valid_id id = true ∧
      valid_name sample_name = true ∧ String.length (cstr_s id) = 64 ∧
      registry s' ({[id]} ∪ ∅) ({[sample_name]} ∪ ∅)) empty_registry.
Proof.
  exact (add_entry_with_new_id_atomic true sample_rnd (λ _, good_access) _ _ _ _ empty_registry_ok eq_refl).
Defined.

Lemma add_entry_with_new_id_and_name_atomic_witness :
  wp (run (id_name_manager_add_entry_with_new_id_and_name true sample_rnd (λ _, good_access) None)) (λ r s',
    (r.1 = (false, None) ∧ registry s' ∅ ∅) ∨
    ∃ id, r = (true, Some id, Some id) ∧ (id ∉ (∅ : gset cstr)) ∧ (id ∉ (∅ : gset cstr)) ∧
      registry s' ({[id]} ∪ ∅) ({[id]} ∪ ∅)) empty_registry.
Proof.
  exact (add_entry_with_new_id_and_name_atomic true sample_rnd (λ _, good_access) None _ _ _ empty_registry_ok eq_refl).
Defined.

Lemma rename_spec_witness :
  wp (run (id_name_manager_rename (λ _, good_access) (Some sample_name) (Some sample_id))) (λ b s',
    b = valid_name sample_name && may_add good_access sample_name ∅ ∧
    registry s' ∅ (if b then ({[sample_name]} ∪ ∅) ∖ (if valid_name sample_id && true then {[sample_id]} else ∅)
                   else ∅) ∧
    (sample_name ∈ (∅ : gset cstr) → b = false)) empty_registry.
Proof. exact (rename_spec (λ _, good_access) sample_name sample_id _ _ _ empty_registry_ok). Defined.

Lemma remove_entry_spec_witness :
  wp (run (id_name_manager_has_id_and_name (λ _, good_access) (Some sample_id) (Some sample_name))) (λ b s',
    b = bool_decide (sample_id ∈ (∅ : gset cstr) ∧ sample_name ∈ (∅ : gset cstr)) ∧ registry s' ∅ ∅) empty_registry ∧
  (valid_id sample_id = true → valid_name sample_name = true →
   wp (run (id_name_manager_remove_entry (λ _, good_access) (Some sample_id) (Some sample_name))) (λ b s',
     b = bool_decide (sample_id ∈ (∅ : gset cstr) ∧ sample_name ∈ (∅ : gset cstr)) ∧
     registry s' (∅ ∖ {[sample_id]}) (∅ ∖ {[sample_name]})) empty_registry).
Proof.
  exact (remove_entry_spec (λ _, good_access) sample_id sample_name _ _ _ empty_registry_ok (λ _, eq_refl)).
Defined.

(** Two threads that ask for the same name, before either has moved. *)
Definition rivals : list request :=
  [mk_request sample_id sample_name (λ _, good_access);
   mk_request (cstr_of "feed") sample_name (λ _, good_access)].

Lemma rivals_lock : Forall (λ r, a_lock (r_access r 2) = true) rivals.
Proof. by repeat constructor. Qed.

End examples.
