(* ===== verification/ImageStore.v ===== *)
(** * The store of images

    [src/daemon/modules/image/oci/storage/image_store/image_store.c] and
    [image_type.c]: the images of the daemon with the indices by which they are
    found, their names, the data that belongs to them, and the directory that
    keeps them over a restart.  Images are objects with reference counts; the
    indices are string maps with the interface [StrMap], and the lists are the
    sequences that [LinkedList] implements.

    The code generated for JSON files, SHA-256 and base64 are parameters.  The
    outcomes of allocations, of locks and of operations on files come from a
    [world], which a function divides among the calls it makes; an allocation
    beyond the limits of the allocation functions is one that fails.  Times that
    are formatted are arguments.  [None] is undefined behaviour, or a thread that
    waits for a lock it holds. *)
From stdpp Require Import base gmap list fin_maps numbers strings.
From Stdlib Require Import ZArith Lia Ascii.
From S2P Require Import Prelude CString Regex Array RbTree Map StrMap Convert StringUtil Verify Path SymlinkScope IdNameManager ImageName.

Local Open Scope Z_scope.

(** ** Outcomes *)

(** [w_left]: the files that a removal of a directory that fails leaves. *)
Record world := mk_world { w_mem : nat → bool; w_io : nat → bool; w_left : gmap string string → gmap string string }.

(** The world of the [i]-th call. *)
Definition sub (i : nat) (w : world) : world :=
  mk_world (λ n, w_mem w (2 ^ i * (2 * n + 1))%nat) (λ n, w_io w (2 ^ i * (2 * n + 1))%nat) (w_left w).

Definition alloc (w : world) : bool := w_mem w 0%nat.
Definition io (w : world) : bool := w_io w 0%nat.
Definition map_room (w : world) : map_mem := mk_map_mem (w_mem w 0%nat) (w_mem w 1%nat) (w_mem w 2%nat).

(** ** Data *)
Record storage_image := mk_simage {
  si_id : cstr; si_digest : option cstr; si_names : list cstr; si_layer : option cstr; si_metadata : option cstr;
  si_created : option string; si_loaded : option string; si_size : Z;
  si_data_names : list cstr; si_data_sizes : option (list (cstr * Z)); si_data_digests : option (list (cstr * cstr))
}.

Definition with_names (x : list cstr) (i : storage_image) : storage_image :=
  mk_simage (si_id i) (si_digest i) x (si_layer i) (si_metadata i) (si_created i) (si_loaded i) (si_size i) (si_data_names i) (si_data_sizes i) (si_data_digests i).
Definition with_digest (x : option cstr) (i : storage_image) : storage_image :=
  mk_simage (si_id i) x (si_names i) (si_layer i) (si_metadata i) (si_created i) (si_loaded i) (si_size i) (si_data_names i) (si_data_sizes i) (si_data_digests i).
Definition with_metadata (x : option cstr) (i : storage_image) : storage_image :=
  mk_simage (si_id i) (si_digest i) (si_names i) (si_layer i) x (si_created i) (si_loaded i) (si_size i) (si_data_names i) (si_data_sizes i) (si_data_digests i).
Definition with_loaded (x : option string) (i : storage_image) : storage_image :=
  mk_simage (si_id i) (si_digest i) (si_names i) (si_layer i) (si_metadata i) (si_created i) x (si_size i) (si_data_names i) (si_data_sizes i) (si_data_digests i).
Definition with_size (x : Z) (i : storage_image) : storage_image :=
  mk_simage (si_id i) (si_digest i) (si_names i) (si_layer i) (si_metadata i) (si_created i) (si_loaded i) x (si_data_names i) (si_data_sizes i) (si_data_digests i).
Definition with_data (names : list cstr) (sizes : option (list (cstr * Z))) (digests : option (list (cstr * cstr))) (i : storage_image) : storage_image :=
  mk_simage (si_id i) (si_digest i) (si_names i) (si_layer i) (si_metadata i) (si_created i) (si_loaded i) (si_size i) names sizes digests.

(** The parts of the OCI specification of an image that are used. *)
Record health_check := mk_health { hk_test : list string; hk_interval : Z; hk_retries : Z; hk_start_period : Z; hk_timeout : Z; hk_exit_on_unhealthy : bool }.
Record image_config := mk_config { ic_user : option string; ic_labels : option (list (string * string)); ic_healthcheck : option health_check }.
Record oci_image_spec := mk_spec { sp_config : option image_config }.

(** [simage] is [None] once the record is freed. *)
Record image_t := mk_image { im_simage : option storage_image; im_spec : option oci_image_spec; im_refcnt : Z }.

Record digest_image := mk_digest { di_list : list ptr; di_len : Z }.

Inductive rwlock := Free | Rd (n : nat) | Wr.

(** [g_image_store], whether it is there, the objects it points to, and the
    files below its directory: for each image a directory of files. *)
Record image_state (MT : Type) := mk_ist {
  is_ready : bool; is_lock : rwlock; is_list : list ptr; is_len : Z; is_byid : MT; is_byname : MT; is_bydigest : MT; is_loaded : bool;
  is_imgs : gmap ptr image_t; is_digs : gmap ptr digest_image; is_next : ptr; is_disk : gmap string (gmap string string)
}.
Arguments mk_ist {MT} _ _ _ _ _ _ _ _ _ _ _ _.
Arguments is_ready {MT} _.
Arguments is_lock {MT} _.
Arguments is_list {MT} _.
Arguments is_len {MT} _.
Arguments is_byid {MT} _.
Arguments is_byname {MT} _.
Arguments is_bydigest {MT} _.
Arguments is_loaded {MT} _.
Arguments is_imgs {MT} _.
Arguments is_digs {MT} _.
Arguments is_next {MT} _.
Arguments is_disk {MT} _.

Section setters.
Context {MT : Type}.
Implicit Types (s : image_state MT).
Definition set_lock (x : rwlock) s : image_state MT := mk_ist (is_ready s) x (is_list s) (is_len s) (is_byid s) (is_byname s) (is_bydigest s) (is_loaded s) (is_imgs s) (is_digs s) (is_next s) (is_disk s).
Definition set_byid (x : MT) s : image_state MT := mk_ist (is_ready s) (is_lock s) (is_list s) (is_len s) x (is_byname s) (is_bydigest s) (is_loaded s) (is_imgs s) (is_digs s) (is_next s) (is_disk s).
Definition set_byname (x : MT) s : image_state MT := mk_ist (is_ready s) (is_lock s) (is_list s) (is_len s) (is_byid s) x (is_bydigest s) (is_loaded s) (is_imgs s) (is_digs s) (is_next s) (is_disk s).
Definition set_bydigest (x : MT) s : image_state MT := mk_ist (is_ready s) (is_lock s) (is_list s) (is_len s) (is_byid s) (is_byname s) x (is_loaded s) (is_imgs s) (is_digs s) (is_next s) (is_disk s).
Definition set_imgs (x : gmap ptr image_t) s : image_state MT := mk_ist (is_ready s) (is_lock s) (is_list s) (is_len s) (is_byid s) (is_byname s) (is_bydigest s) (is_loaded s) x (is_digs s) (is_next s) (is_disk s).
Definition set_digs (x : gmap ptr digest_image) s : image_state MT := mk_ist (is_ready s) (is_lock s) (is_list s) (is_len s) (is_byid s) (is_byname s) (is_bydigest s) (is_loaded s) (is_imgs s) x (is_next s) (is_disk s).
Definition set_next (x : ptr) s : image_state MT := mk_ist (is_ready s) (is_lock s) (is_list s) (is_len s) (is_byid s) (is_byname s) (is_bydigest s) (is_loaded s) (is_imgs s) (is_digs s) x (is_disk s).
Definition set_disk (x : gmap string (gmap string string)) s : image_state MT := mk_ist (is_ready s) (is_lock s) (is_list s) (is_len s) (is_byid s) (is_byname s) (is_bydigest s) (is_loaded s) (is_imgs s) (is_digs s) (is_next s) x.
Definition set_images (l : list ptr) (n : Z) s : image_state MT := mk_ist (is_ready s) (is_lock s) l n (is_byid s) (is_byname s) (is_bydigest s) (is_loaded s) (is_imgs s) (is_digs s) (is_next s) (is_disk s).
Definition set_loaded (x : bool) s : image_state MT := mk_ist (is_ready s) (is_lock s) (is_list s) (is_len s) (is_byid s) (is_byname s) (is_bydigest s) x (is_imgs s) (is_digs s) (is_next s) (is_disk s).
End setters.

Definition IMAGE_JSON : string := "images.json".
Definition IMAGE_DIGEST_BIG_DATA_KEY : cstr := cstr_of "manifest".

Section image_store.
Context {MT : Type} {SM : StrMap ptr MT} (signed : bool).
Context (generate_json : storage_image → option string) (parse_file : string → option storage_image) (parse_spec : string → option oci_image_spec).
Context (sha256_digest_str : string → cstr) (base64 : string → option string).
Context (append_json_map_string_int64 : list (cstr * Z) → cstr → Z → list (cstr * Z)).
Context (append_json_map_string_string : list (cstr * cstr) → cstr → cstr → list (cstr * cstr)).
Context (default_host : option string) (dir : string).
Let IM := M (image_state MT).

(** ** The lock

    A thread that holds the lock for writing gets [EDEADLK]; one that holds it
    for reading and wants to write waits for itself. *)
Definition image_store_lock (w : world) (exclusive : bool) : IM bool := λ s,
  if negb (io w) then Some (false, s) else
  match is_lock s, exclusive with
  | Free, false => Some (true, set_lock (Rd 1) s)
  | Free, true => Some (true, set_lock Wr s)
  | Rd n, false => Some (true, set_lock (Rd (S n)) s)
  | Rd _, true => None
  | Wr, _ => Some (false, s)
  end.

Definition image_store_unlock : IM unit := λ s,
  match is_lock s with
  | Free => None
  | Rd (S (S n)) => Some (tt, set_lock (Rd (S n)) s)
  | Rd _ | Wr => Some (tt, set_lock Free s)
  end.

Definition ready : IM bool := s ← get; mret (is_ready s).

(** A critical section. *)
Definition locked {A} (w : world) (exclusive : bool) (error : A) (f : IM A) : IM A :=
  r ← ready; if negb r then mret error else
  ok ← image_store_lock w exclusive; if negb ok then mret error else
  a ← f; image_store_unlock;; mret a.

(** ** Images *)
Definition ld_img (p : ptr) : IM image_t := λ s, match is_imgs s !! p with Some im => Some (im, s) | None => None end.
Definition ld_simage (p : ptr) : IM storage_image := im ← ld_img p; match im_simage im with Some i => mret i | None => fail end.
Definition st_img (p : ptr) (f : image_t → image_t) : IM unit := λ s,
  match is_imgs s !! p with Some im => Some (tt, set_imgs (<[p := f im]> (is_imgs s)) s) | None => None end.
Definition st_simage (p : ptr) (f : storage_image → storage_image) : IM unit :=
  ld_simage p;; st_img p (λ im, mk_image (f <$> im_simage im) (im_spec im) (im_refcnt im)).

Definition image_ref_inc (img : option ptr) : IM unit :=
  match img with None => mret tt | Some p => st_img p (λ im, mk_image (im_simage im) (im_spec im) (u64 (im_refcnt im + 1))) end.

Definition free_image_t (img : option ptr) : IM unit :=
  match img with None => mret tt | Some p => ld_img p;; modify (λ s, set_imgs (delete p (is_imgs s)) s) end.

Definition image_ref_dec (img : option ptr) : IM unit :=
  match img with
  | None => mret tt
  | Some p =>
    st_img p (λ im, mk_image (im_simage im) (im_spec im) (u64 (im_refcnt im - 1)));;
    im ← ld_img p;
    if im_refcnt im =? 0 then free_image_t img else mret tt
  end.

(** The file name of the data under a key. *)
Definition base_name (w : world) (key : option string) : option string := make_big_data_base_name base64 (alloc w) key.

Definition file_of (id : cstr) (name : string) : IM (option string) :=
  s ← get; mret (is_disk s !! cstr_s id ≫= λ files, files !! name).

Definition try_fill_image_spec (w : world) (p : ptr) (id : cstr) : IM Z :=
  match util_full_digest (Some (cstr_s id)) with
  | None => mret (-1)
  | Some sha256_key =>
    match base_name w (Some sha256_key) with
    | None => mret (-1)
    | Some base_name =>
      if decide (PATH_MAX < String.length (dir +:+ String slash (cstr_s id) +:+ String slash base_name))%nat then mret (-1) else
      config ← file_of id base_name;
      match config with
      | None => mret (-1)
      | Some text =>
        let spec := parse_spec text in
        st_img p (λ im, mk_image (im_simage im) spec (im_refcnt im));;
        mret (match spec with None => -1 | Some _ => 0 end)
      end
    end
  end.

Definition new_image (w : world) (simg : storage_image) : IM (option ptr) :=
  if negb (alloc (sub 0 w)) then mret None else
  s ← get;
  let p := is_next s in
  modify (λ s, set_next (p + 1)%N (set_imgs (<[p := mk_image None None 1]> (is_imgs s)) s));;
  try_fill_image_spec (sub 1 w) p (si_id simg);;
  st_img p (λ im, mk_image (Some simg) (im_spec im) (im_refcnt im));;
  mret (Some p).

(** ** Files *)
Definition image_dir (id : cstr) : string := dir +:+ String slash (cstr_s id).
Definition get_image_path (id : cstr) : option string :=
  let path := image_dir id +:+ String slash IMAGE_JSON in
  if decide (PATH_MAX ≤ String.length path)%nat then None else Some path.
Definition get_data_dir (id : cstr) : option string :=
  if decide (PATH_MAX ≤ String.length (image_dir id))%nat then None else Some (image_dir id).

(** [util_mkdir_p] of the directory of an image, and [util_atomic_write_file],
    which does nothing for an empty text. *)
Definition make_dir (w : world) (id : cstr) : IM bool :=
  if negb (io w) then mret false else
  modify (λ s, set_disk (<[cstr_s id := default ∅ (is_disk s !! cstr_s id)]> (is_disk s)) s);; mret true.
Definition write_file (w : world) (id : cstr) (name text : string) : IM bool :=
  if String.eqb text "" then mret true else
  if negb (io w) then mret false else
  modify (λ s, set_disk (<[cstr_s id := <[name := text]> (default ∅ (is_disk s !! cstr_s id))]> (is_disk s)) s);; mret true.

Definition save_image (w : world) (img : storage_image) : IM Z :=
  match get_image_path (si_id img) with
  | None => mret (-1)
  | Some _ =>
    ok ← make_dir (sub 0 w) (si_id img);
    if negb ok then mret (-1) else
    match generate_json img with
    | None => mret (-1)
    | Some json_data => ok ← write_file (sub 1 w) (si_id img) IMAGE_JSON json_data; mret (if (ok : bool) then 0 else -1)
    end
  end.

Definition remove_image_dir (w : world) (id : cstr) : IM Z :=
  match get_data_dir id with
  | None => mret (-1)
  | Some _ =>
    if io w then modify (λ s, set_disk (delete (cstr_s id) (is_disk s)) s);; mret 0
    else modify (λ s, set_disk (alter (w_left w) (cstr_s id) (is_disk s)) s);; mret (-1)
  end.

(** ** Indices *)
Definition on_byid {A} (f : M MT A) : IM A := λ s, match f (is_byid s) with Some (a, m) => Some (a, set_byid m s) | None => None end.
Definition on_byname {A} (f : M MT A) : IM A := λ s, match f (is_byname s) with Some (a, m) => Some (a, set_byname m s) | None => None end.

(** The lists that the map hands to its destructor are freed. *)
Definition on_bydigest {A} (f : M MT A) : IM A := λ s,
  match f (is_bydigest s) with
  | Some (a, m) =>
    let gone := drop (length (sm_dropped (is_bydigest s))) (sm_dropped m) in
    Some (a, set_digs (foldr delete (is_digs s) gone) (set_bydigest m s))
  | None => None
  end.

Definition ld_dig (q : ptr) : IM digest_image := λ s, match is_digs s !! q with Some d => Some (d, s) | None => None end.
Definition st_dig (q : ptr) (d : digest_image) : IM unit := λ s,
  match is_digs s !! q with Some _ => Some (tt, set_digs (<[q := d]> (is_digs s)) s) | None => None end.

Fixpoint count_name (name : cstr) (names : list cstr) : nat :=
  match names with [] => 0%nat | n :: names => ((if decide (n = name) then 1 else 0) + count_name name names)%nat end.

Definition remove_name (w : world) (img : option ptr) (name : option cstr) : IM Z :=
  match img, name with
  | Some p, Some name =>
    i ← ld_simage p;
    let count := count_name name (si_names i) in
    if decide (length (si_names i) = count) then st_simage p (with_names []);; mret 0 else
    if negb (alloc w) then mret (-1) else
    st_simage p (with_names (filter (λ n, n ≠ name) (si_names i)));;
    mret 0
  | _, _ => mret 0
  end.

(** The position of a key. *)
Fixpoint get_index_by_key (items : list cstr) (target : cstr) (i : nat) : option nat :=
  match items with [] => None | x :: items => if decide (target = x) then Some i else get_index_by_key items target (S i) end.

Definition create_empty_digest_images (w : world) : IM (option ptr) :=
  if negb (alloc w) then mret None else
  s ← get;
  let q := is_next s in
  modify (λ s, set_next (q + 1)%N (set_digs (<[q := mk_digest [] 0]> (is_digs s)) s));;
  mret (Some q).

(** ** Finding an image *)

(** The loop over the iterator: [false] for a second match. *)
Fixpoint image_prefix_loop (id : string) (l : list (cstr * ptr)) (value : option ptr) : bool * option ptr :=
  match l with
  | [] => (true, value)
  | (key, v) :: l =>
    if String.prefix id (cstr_s key) then match value with Some _ => (false, value) | None => image_prefix_loop id l (Some v) end
    else image_prefix_loop id l value
  end.

Definition get_image_for_store_by_prefix (w : world) (id : cstr) : IM (option ptr) :=
  pairs ← on_byid (sm_pairs (alloc w));
  match pairs with
  | None => mret None
  | Some pairs => let '(ret, value) := image_prefix_loop (cstr_s id) pairs None in mret (if ret then value else None)
  end.

(** The digest is what follows the last [@]. *)
Definition by_digest (w : world) (name : cstr) : IM (option ptr) :=
  match strrchr "@" (chars_of (cstr_s name)) with
  | None => mret None
  | Some (_, pos) =>
    if negb (reg_ok DIGESTPattern (to_str pos)) then mret None else
    let digest := to_str (tail pos) in
    q ← on_bydigest (sm_search (cstr_of digest));
    match q with
    | None => mret None
    | Some q =>
      d ← ld_dig q;
      match di_list d with
      | [] => mret None
      | p :: _ =>
        i ← ld_simage p;
        match is_name_digest_consistent default_host (w_mem w) (cstr_s name) (cstr_s <$> si_names i) digest with
        | None => fail
        | Some ret => mret (if decide (ret ≠ 0) then None else Some p)
        end
      end
    end
  end.

Definition lookup_uncounted (w : world) (id : cstr) : IM (option ptr) :=
  value ← on_byid (sm_search id);
  match value with Some _ => mret value | None =>
    value ← on_byname (sm_search id);
    match value with Some _ => mret value | None =>
      value ← get_image_for_store_by_prefix (sub 0 w) id;
      match value with Some _ => mret value | None => by_digest (sub 1 w) id end
    end
  end.

Definition lookup (w : world) (id : option cstr) : IM (option ptr) :=
  match id with
  | None => mret None
  | Some id => value ← lookup_uncounted w id; image_ref_inc value;; mret value
  end.

(** The value of a key of a JSON map: the first one. *)
Fixpoint assoc {V} (m : list (cstr * V)) (key : cstr) : option V :=
  match m with [] => None | (k, v) :: m => if decide (key = k) then Some v else assoc m key end.
Definition get_value_from_json_map_string_string (m : option (list (cstr * cstr))) (key : cstr) : option cstr := m ≫= λ m, assoc m key.

(** ** The index by digest *)

(** The nodes whose image has the id of [img] go. *)
Fixpoint without_loop (id : cstr) (l : list ptr) : IM (list ptr) :=
  match l with
  | [] => mret []
  | p :: l => i ← ld_simage p; l' ← without_loop id l; mret (if decide (si_id i = id) then l' else p :: l')
  end.

Definition digest_image_slice_without_value (q : ptr) (img : ptr) : IM unit :=
  d ← ld_dig q;
  i ← ld_simage img;
  l ← without_loop (si_id i) (di_list d);
  st_dig q (mk_digest l (u64 (di_len d - Z.of_nat (length (di_list d) - length l)))).

Definition remove_image_from_digest_index (img : ptr) (digest : option cstr) : IM Z :=
  match digest with
  | None => mret 0
  | Some digest =>
    q ← on_bydigest (sm_search digest);
    match q with
    | None => mret 0
    | Some q =>
      digest_image_slice_without_value q img;;
      d ← ld_dig q;
      if di_len d =? 0 then ok ← on_bydigest (sm_remove digest); mret (if (ok : bool) then 0 else -1) else mret 0
    end
  end.

Definition append_image_to_digest_images (w : world) (q : ptr) (img : ptr) : IM Z :=
  if negb (alloc w) then mret (-1) else
  d ← ld_dig q;
  st_dig q (mk_digest (di_list d ++ [img]) (u64 (di_len d + 1)));;
  mret 0.

Definition free_digest_image (q : ptr) : IM unit := ld_dig q;; modify (λ s, set_digs (delete q (is_digs s)) s).

Definition append_image_according_to_digest (w : world) (digest : option cstr) (img : ptr) : IM Z :=
  match digest with
  | None => mret 0
  | Some digest =>
    q ← on_bydigest (sm_search digest);
    match q with
    | Some q => append_image_to_digest_images (sub 0 w) q img
    | None =>
      q ← create_empty_digest_images (sub 1 w);
      match q with
      | None => mret (-1)
      | Some q =>
        ret ← append_image_to_digest_images (sub 0 w) q img;
        if decide (ret ≠ 0) then free_digest_image q;; mret (-1) else
        ok ← on_bydigest (sm_insert (map_room (sub 2 w)) digest q);
        if negb ok then free_digest_image q;; mret (-1) else mret 0
      end
    end
  end.

(** ** Deleting *)
Fixpoint remove_names (names : list cstr) : IM bool :=
  match names with
  | [] => mret true
  | n :: names => ok ← on_byname (sm_remove n); if negb ok then mret false else remove_names names
  end.

(** The loop over the list: the first image with the id, and the list without it. *)
Fixpoint take_image (id : cstr) (l : list ptr) : IM (option ptr * list ptr) :=
  match l with
  | [] => mret (None, [])
  | p :: l =>
    i ← ld_simage p;
    if decide (si_id i ≠ id) then '(r, l') ← take_image id l; mret (r, p :: l') else mret (Some p, l)
  end.

Definition do_remove_image (p : ptr) (id : cstr) : IM Z :=
  ok ← on_byid (sm_remove id);
  if negb ok then mret (-1) else
  i ← ld_simage p;
  ok ← remove_names (si_names i);
  if negb ok then mret (-1) else
  ret ← remove_image_from_digest_index p (get_value_from_json_map_string_string (si_data_digests i) IMAGE_DIGEST_BIG_DATA_KEY);
  if decide (ret ≠ 0) then mret (-1) else
  ret ← remove_image_from_digest_index p (si_digest i);
  if decide (ret ≠ 0) then mret (-1) else
  s ← get;
  '(tmp, l) ← take_image id (is_list s);
  match tmp with
  | None => mret 0
  | Some tmp => modify (λ s, set_images l (u64 (is_len s - 1)) s);; image_ref_dec (Some tmp);; mret 0
  end.

Definition remove_image_from_memory (w : world) (id : cstr) : IM Z :=
  img ← lookup w (Some id);
  ret ← match img with None => mret (-1) | Some p => do_remove_image p id end;
  image_ref_dec img;;
  mret ret.

Definition do_delete_image_info (w : world) (id : cstr) : IM Z :=
  img ← lookup (sub 0 w) (Some id);
  match img with
  | None => mret 0
  | Some p =>
    i ← ld_simage p;
    ret ← remove_image_from_memory (sub 1 w) (si_id i);
    ret ← (if decide (ret ≠ 0) then mret (-1) else
           i ← ld_simage p; ret ← remove_image_dir (sub 2 w) (si_id i); mret (if decide (ret ≠ 0) then -1 else 0));
    image_ref_dec img;;
    mret ret
  end.

Definition image_store_delete (w : world) (id : option cstr) : IM Z :=
  match id with
  | None => mret (-1)
  | Some id => locked (sub 0 w) true (-1) (ret ← do_delete_image_info (sub 1 w) id; mret (if decide (ret ≠ 0) then -1 else 0))
  end.

(** ** Creating *)
Fixpoint random_id_loop (rand : nat → urandom) (fuel i : nat) : IM (option cstr) :=
  match fuel with
  | O => mret None
  | S fuel =>
    match util_generate_random_str (rand i) 64 with
    | None => mret None
    | Some id =>
      image ← on_byid (sm_search (cstr_of id));
      match image with None => mret (Some (cstr_of id)) | Some _ => random_id_loop rand fuel (S i) end
    end
  end.
Definition generate_random_image_id (w : world) (rand : nat → urandom) : IM (option cstr) :=
  if negb (alloc w) then mret None else random_id_loop rand 5 0.

(** [now] is the time; [time] is [None] when the argument is absent, and
    otherwise the result of formatting it. *)
Definition new_storage_image (w : world) (id : cstr) (searchable_digest : option cstr) (unique_names : list cstr)
    (now : string) (time : option (option string)) (layer metadata : option cstr) : option storage_image :=
  if negb (alloc w) then None else
  match time with
  | Some None => None
  | Some (Some t) => Some (mk_simage id searchable_digest unique_names layer metadata (Some t) (Some now) 0 [] None None)
  | None => Some (mk_simage id searchable_digest unique_names layer metadata (Some now) (Some now) 0 [] None None)
  end.

(** The names that are inserted, and whether all of them are. *)
Fixpoint insert_names (w : world) (p : ptr) (names done : list cstr) : IM (bool * list cstr) :=
  match names with
  | [] => mret (true, done)
  | n :: names =>
    other ← on_byname (sm_search n);
    match other with
    | Some _ => mret (false, done)
    | None =>
      ok ← on_byname (sm_insert (map_room (sub 0 w)) n p);
      if negb ok then mret (false, done) else insert_names (sub 1 w) p names (done ++ [n])
    end
  end.

Fixpoint drop_names (names : list cstr) : IM unit :=
  match names with [] => mret tt | n :: names => on_byname (sm_remove n);; drop_names names end.

(** The node that was appended is taken off again. *)
Definition unlist : IM unit := modify (λ s, set_images (take (length (is_list s) - 1) (is_list s)) (u64 (is_len s - 1)) s).

Definition image_store_append_image (w : world) (id : cstr) (searchable_digest : option cstr) (p : ptr) : IM Z :=
  if negb (alloc (sub 0 w)) then mret (-1) else
  modify (λ s, set_images (is_list s ++ [p]) (u64 (is_len s + 1)) s);;
  ok ← on_byid (sm_insert (map_room (sub 1 w)) id p);
  if negb ok then unlist;; mret (-1) else
  ret ← append_image_according_to_digest (sub 2 w) searchable_digest p;
  if decide (ret ≠ 0) then on_byid (sm_remove id);; unlist;; mret (-1) else
  i ← ld_simage p;
  '(ok, done) ← insert_names (sub 3 w) p (si_names i) [];
  if (ok : bool) then mret 0 else
  drop_names done;;
  remove_image_from_digest_index p searchable_digest;;
  on_byid (sm_remove id);;
  unlist;;
  mret (-1).

(** The elements without repetitions; [None] is the result -1. *)
Definition unique_names (w : world) (names : list cstr) : IM (option (list cstr)) :=
  match util_string_array_unique signed (w_mem w 0%nat) (w_mem w 1%nat) (w_mem w 2%nat) (λ n, map_room (sub n (sub 0 w))) (Some <$> names) with
  | None => fail
  | Some (ret, l) => mret (if decide (ret ≠ 0) then None else Some (omap id (default [] l)))
  end.

Definition do_create (w : world) (rand : nat → urandom) (id : option cstr) (names : list cstr) (layer metadata : option cstr)
    (now : string) (time : option (option string)) (searchable_digest : option cstr) : IM (option cstr) :=
  dst_id ← match id with None => generate_random_image_id (sub 0 w) rand | Some id => mret (Some id) end;
  match dst_id with
  | None => mret None
  | Some dst_id =>
    other ← on_byid (sm_search dst_id);
    match other with
    | Some _ => mret None
    | None =>
      names ← unique_names (sub 1 w) names;
      match names ≫= λ names, new_storage_image (sub 2 w) dst_id searchable_digest names now time layer metadata with
      | None => mret None
      | Some im =>
        img ← new_image (sub 3 w) im;
        match img with
        | None => mret None
        | Some p =>
          ret ← image_store_append_image (sub 4 w) dst_id searchable_digest p;
          if decide (ret ≠ 0) then free_image_t img;; mret None else
          i ← ld_simage p;
          ret ← save_image (sub 5 w) i;
          if decide (ret ≠ 0) then do_delete_image_info (sub 6 w) dst_id;; mret None else
          mret (Some dst_id)
        end
      end
    end
  end.

Definition image_store_create (w : world) (rand : nat → urandom) (id : option cstr) (names : list cstr) (layer metadata : option cstr)
    (now : string) (time : option (option string)) (searchable_digest : option cstr) : IM (option cstr) :=
  locked (sub 0 w) true None (do_create (sub 1 w) rand id names layer metadata now time searchable_digest).

(** ** Data of an image *)
Definition get_data_path (w : world) (id key : cstr) : option string :=
  match base_name w (Some (cstr_s key)) with
  | None => None
  | Some name =>
    match get_data_dir id with
    | None => None
    | Some data_dir => if decide (PATH_MAX ≤ String.length (data_dir +:+ String slash name))%nat then None else Some name
    end
  end.

(** A map that is [NULL] is dereferenced. *)
Definition get_value_from_json_map_string_int64 (m : option (list (cstr * Z))) (key : cstr) : IM (option Z) :=
  match m with None => fail | Some m => mret (assoc m key) end.

Fixpoint update_json_map_string_int64 (m : list (cstr * Z)) (key : cstr) (value : Z) : list (cstr * Z) :=
  match m with [] => [] | (k, v) :: m => if decide (key = k) then (k, value) :: m else (k, v) :: update_json_map_string_int64 m key value end.

Definition update_json_map_string_string (m : list (cstr * cstr)) (key value : cstr) : list (cstr * cstr) :=
  (λ x, if decide (key = x.1) then (x.1, value) else x) <$> m.

Definition append_big_data_name (w : world) (p : ptr) (name : cstr) : IM Z :=
  if negb (alloc w) then mret (-1) else
  st_simage p (λ i, with_data (si_data_names i ++ [name]) (si_data_sizes i) (si_data_digests i) i);; mret 0.

(** The image moves from the list of the old digest of its manifest to that of
    the new one, if there is one. *)
Definition update_manifest_digest (w : world) (p : ptr) (old_digest : option cstr) (full_digest : cstr) : IM Z :=
  i ← ld_simage p;
  ret ← match old_digest with
        | Some old =>
          if decide (old = full_digest) then mret 0 else
          match si_digest i with
          | None => fail
          | Some d => if decide (old = d) then mret 0 else remove_image_from_digest_index p (Some old)
          end
        | None => mret 0
        end;
  if decide (ret ≠ 0) then mret (-1) else
  q ← on_bydigest (sm_search full_digest);
  match q with
  | None => mret 0
  | Some q =>
    digest_image_slice_without_value q p;;
    ret ← append_image_to_digest_images w q p;
    mret (if decide (ret ≠ 0) then -1 else 0)
  end.

(** The result, and whether the image has to be saved. *)
Definition update_image_with_big_data (w : world) (p : ptr) (key : cstr) (data : string) : IM (Z * bool) :=
  i ← ld_simage p;
  if bool_decide (si_data_sizes i = None) && negb (alloc (sub 0 w)) then mret (-1, false) else
  let sizes := default [] (si_data_sizes i) in
  let size := Z.of_nat (String.length data) in
  let old_size := assoc sizes key in
  st_simage p (λ i, with_data (si_data_names i)
    (Some (match old_size with Some _ => update_json_map_string_int64 sizes key size | None => append_json_map_string_int64 sizes key size end)) (si_data_digests i) i);;
  if bool_decide (si_data_digests i = None) && negb (alloc (sub 1 w)) then mret (-1, false) else
  let digests := default [] (si_data_digests i) in
  let old_digest := assoc digests key in
  match util_full_digest (Some (cstr_s (sha256_digest_str data))) with
  | None => fail
  | Some full_digest =>
    let full_digest := cstr_of full_digest in
    st_simage p (λ i, with_data (si_data_names i) (si_data_sizes i)
      (Some (match old_digest with
             | Some _ => update_json_map_string_string digests key full_digest
             | None => append_json_map_string_string digests key full_digest
             end)) i);;
    let should_save := negb (bool_decide (old_size = Some size)) || negb (bool_decide (old_digest = Some full_digest)) in
    ret ← (if decide (key ∈ si_data_names i) then mret 0 else append_big_data_name (sub 2 w) p key);
    if decide (ret ≠ 0) then mret (-1, should_save) else
    let should_save := should_save || negb (bool_decide (key ∈ si_data_names i)) in
    if decide (key = IMAGE_DIGEST_BIG_DATA_KEY) then ret ← update_manifest_digest (sub 3 w) p old_digest full_digest; mret (ret, should_save)
    else mret (0, should_save)
  end.

(** Run [f] on the image under [id], which is held meanwhile. *)
Definition with_image {A} (w : world) (id : cstr) (error : A) (f : ptr → IM A) : IM A :=
  img ← lookup w (Some id);
  a ← match img with None => mret error | Some p => f p end;
  image_ref_dec img;;
  mret a.

Definition save_simage (w : world) (p : ptr) : IM Z :=
  i ← ld_simage p; ret ← save_image w i; mret (if decide (ret ≠ 0) then -1 else 0).

Definition do_set_big_data (w : world) (key : cstr) (data : string) (p : ptr) : IM Z :=
  i ← ld_simage p;
  let image_id := si_id i in
  match get_data_dir image_id with
  | None => mret (-1)
  | Some _ =>
    ok ← make_dir (sub 0 w) image_id;
    if negb ok then mret (-1) else
    match get_data_path (sub 1 w) image_id key with
    | None => mret (-1)
    | Some name =>
      ok ← write_file (sub 2 w) image_id name data;
      if negb ok then mret (-1) else
      '(ret, save) ← update_image_with_big_data (sub 3 w) p key data;
      if decide (ret ≠ 0) then mret (-1) else
      im ← ld_img p;
      match im_spec im with None => try_fill_image_spec (sub 4 w) p image_id | Some _ => mret 0 end;;
      if (save : bool) then save_simage (sub 5 w) p else mret 0
    end
  end.

Definition nonempty_key (key : option cstr) : option cstr := key ≫= λ k, if String.eqb (cstr_s k) "" then None else Some k.

Definition image_store_set_big_data (w : world) (id key : option cstr) (data : option string) : IM Z :=
  match nonempty_key key, id, data with
  | Some key, Some id, Some data => locked (sub 0 w) true (-1) (with_image (sub 1 w) id (-1) (do_set_big_data (sub 2 w) key data))
  | _, _, _ => mret (-1)
  end.

(** ** Names *)

(** The loop over the new names: they are taken from the images that have them,
    which are saved if [saves]. *)
Fixpoint take_over (w : world) (saves : bool) (p : ptr) (names : list cstr) : IM bool :=
  match names with
  | [] => mret true
  | n :: names =>
    other ← on_byname (sm_search n);
    ret ← remove_name (sub 0 w) other (Some n);
    if decide (ret ≠ 0) then mret false else
    ret ← match other with Some o => if saves then save_simage (sub 1 w) o else mret 0 | None => mret 0 end;
    if decide (ret ≠ 0) then mret false else
    ok ← on_byname (sm_replace (map_room (sub 2 w)) n p);
    if negb ok then mret false else take_over (sub 3 w) saves p names
  end.

Definition do_set_names (w : world) (saves : bool) (names : list cstr) (p : ptr) : IM Z :=
  unique ← unique_names (sub 0 w) names;
  match unique with
  | None => mret (-1)
  | Some unique =>
    i ← ld_simage p;
    ok ← remove_names (si_names i);
    if negb ok then mret (-1) else
    ok ← take_over (sub 1 w) saves p unique;
    if negb ok then mret (-1) else
    st_simage p (with_names unique);;
    save_simage (sub 2 w) p
  end.

Definition do_add_name (w : world) (name : cstr) (p : ptr) : IM Z :=
  i ← ld_simage p;
  if negb (bool_decide (si_names i = [])) && negb (alloc (sub 0 w)) then mret (-1) else
  if negb (alloc (sub 1 w)) then mret (-1) else
  do_set_names (sub 2 w) true (si_names i ++ [name]) p.

Definition image_store_add_name (w : world) (id name : option cstr) : IM Z :=
  match id, name with
  | Some id, Some name => locked (sub 0 w) true (-1) (with_image (sub 1 w) id (-1) (do_add_name (sub 2 w) name))
  | _, _ => mret (-1)
  end.

Definition image_store_set_names (w : world) (id : option cstr) (names : list cstr) : IM Z :=
  match id with
  | None => mret (-1)
  | Some id =>
    if bool_decide (names = []) then mret (-1) else
    locked (sub 0 w) true (-1) (with_image (sub 1 w) id (-1) (do_set_names (sub 2 w) false names))
  end.

Definition image_store_get_names (w : world) (id : option cstr) : IM (option (list cstr)) :=
  match id with
  | None => mret None
  | Some id =>
    locked (sub 0 w) false None (with_image (sub 1 w) id None (λ p,
      i ← ld_simage p;
      mret (if negb (bool_decide (si_names i = [])) && negb (alloc (sub 2 w)) then None else Some (si_names i))))
  end.

(** ** Simple fields *)
Definition image_store_set_metadata (w : world) (id metadata : option cstr) : IM Z :=
  match id, metadata with
  | Some id, Some _ => locked (sub 0 w) true (-1) (with_image (sub 1 w) id (-1) (λ p, st_simage p (with_metadata metadata);; save_simage (sub 2 w) p))
  | _, _ => mret (-1)
  end.

(** [time]: [None] for [NULL], otherwise the result of formatting it. *)
Definition image_store_set_load_time (w : world) (id : option cstr) (time : option (option string)) : IM Z :=
  match id, time with
  | Some id, Some time =>
    locked (sub 0 w) true (-1) (with_image (sub 1 w) id (-1) (λ p,
      match time with None => mret (-1) | Some _ => st_simage p (with_loaded time);; save_simage (sub 2 w) p end))
  | _, _ => mret (-1)
  end.

Definition image_store_set_image_size (w : world) (id : option cstr) (size : Z) : IM Z :=
  match id with
  | None => mret (-1)
  | Some id => locked (sub 0 w) true (-1) (with_image (sub 1 w) id (-1) (λ p, st_simage p (with_size size);; save_simage (sub 2 w) p))
  end.

Definition image_store_lookup (w : world) (id : option cstr) : IM (option cstr) :=
  match id with
  | None => mret None
  | Some id => locked (sub 0 w) false None (with_image (sub 1 w) id None (λ p, i ← ld_simage p; mret (Some (si_id i))))
  end.

Definition image_store_exists (w : world) (id : option cstr) : IM bool :=
  match id with
  | None => mret false
  | Some id => locked (sub 0 w) false false (with_image (sub 1 w) id false (λ _, mret true))
  end.

Definition image_store_metadata (w : world) (id : option cstr) : IM (option cstr) :=
  match id with
  | None => mret None
  | Some id => locked (sub 0 w) false None (with_image (sub 1 w) id None (λ p, i ← ld_simage p; mret (si_metadata i)))
  end.

Definition image_store_top_layer (w : world) (id : option cstr) : IM (option cstr) :=
  match id with
  | None => mret None
  | Some id => locked (sub 0 w) false None (with_image (sub 1 w) id None (λ p, i ← ld_simage p; mret (si_layer i)))
  end.

Definition image_store_big_data_names (w : world) (id : option cstr) : IM (option (list cstr)) :=
  match id with
  | None => mret None
  | Some id =>
    locked (sub 0 w) false None (with_image (sub 1 w) id None (λ p,
      i ← ld_simage p;
      mret (if negb (bool_decide (si_data_names i = [])) && negb (alloc (sub 2 w)) then None else Some (si_data_names i))))
  end.

Definition image_store_get_images_number (w : world) : IM Z :=
  locked w false (u64 (-1)) (s ← get; mret (is_len s)).
End image_store.
