(* ===== verification/ImageSpec.v ===== *)
(** * What the store of images promises

    The images of the store by their ids, and for each digest the ids of the
    images it leads to, in the order in which they came.  An operation has a
    list of outcomes: the first is what it does when locks and files work, the
    others what it may do when they do not. *)
From stdpp Require Import base gmap list fin_maps numbers strings.
From Stdlib Require Import ZArith Lia Ascii.
From S2P Require Import Prelude CString Regex Array RbTree Map StrMap Convert StringUtil Verify Path SymlinkScope IdNameManager ImageName ImageStore.

Local Open Scope Z_scope.

Record astore := mk_astore { a_imgs : gmap cstr storage_image; a_digs : gmap cstr (list cstr) }.

Definition manifest_of (i : storage_image) : option cstr := get_value_from_json_map_string_string (si_data_digests i) IMAGE_DIGEST_BIG_DATA_KEY.
Definition digests_of (i : storage_image) : list cstr := option_list (si_digest i) ++ option_list (manifest_of i).

(** Images are listed under their ids, no name has two owners, and a digest leads
    to images that have it. *)
Record awf (bound : nat) (a : astore) : Prop := {
  wf_size : (size (a_imgs a) ≤ bound)%nat ∧ Z.of_nat bound ≤ max_items;
  wf_id : ∀ k i, a_imgs a !! k = Some i → si_id i = k;
  wf_names : ∀ k i, a_imgs a !! k = Some i → NoDup (si_names i) ∧ Forall (λ n, name_ok (cstr_s n)) (si_names i) ∧ (length (si_names i) ≤ bound)%nat;
  wf_owner : ∀ k k' i i' n, a_imgs a !! k = Some i → a_imgs a !! k' = Some i' → n ∈ si_names i → n ∈ si_names i' → k = k';
  wf_digest : ∀ k i, a_imgs a !! k = Some i → is_Some (si_digest i) ∧ NoDup (default [] (si_data_digests i)).*1;
  wf_digs : ∀ d ks, a_digs a !! d = Some ks → ks ≠ [] ∧ NoDup ks ∧ ∀ k, k ∈ ks → ∃ i, a_imgs a !! k = Some i ∧ d ∈ digests_of i
}.

(** ** Finding *)
Definition owner (imgs : gmap cstr storage_image) (n : cstr) : option cstr := fst <$> head (filter (λ x, n ∈ si_names x.2) (map_to_list imgs)).

Definition by_prefix (imgs : gmap cstr storage_image) (ref : string) : option cstr :=
  match filter (λ k, String.prefix ref (cstr_s k) = true) (map_to_list imgs).*1 with [k] => Some k | _ => None end.

Definition digest_ref (ref : cstr) : option string :=
  match strrchr "@" (chars_of (cstr_s ref)) with
  | Some (_, pos) => if reg_ok DIGESTPattern (to_str pos) then Some (to_str (tail pos)) else None
  | None => None
  end.

Section spec.
Context (signed : bool) (sha256_digest_str : string → cstr) (base64 : string → option string) (default_host : option string) (dir : string).

(** The digest of a reference leads to the first image that has it, if one of its
    names is of the repository of the reference. *)
Definition by_repo_digest (a : astore) (ref : cstr) : option cstr :=
  digest ← digest_ref ref;
  ks ← a_digs a !! cstr_of digest;
  k ← head ks;
  i ← a_imgs a !! k;
  if decide (is_name_digest_consistent default_host (λ _, true) (cstr_s ref) (cstr_s <$> si_names i) digest = Some 0) then Some k else None.

(** An id, a name, the only id with a prefix, a digest. *)
Definition find_ref (a : astore) (ref : cstr) : option cstr :=
  match a_imgs a !! ref with
  | Some _ => Some ref
  | None =>
    match owner (a_imgs a) ref with
    | Some k => Some k
    | None => match by_prefix (a_imgs a) (cstr_s ref) with Some k => Some k | None => by_repo_digest a ref end
    end
  end.

(** ** Changing *)
Definition dig_remove (k : cstr) (d : option cstr) (digs : gmap cstr (list cstr)) : gmap cstr (list cstr) :=
  match d with
  | None => digs
  | Some d =>
    match digs !! d with
    | None => digs
    | Some ks => let ks' := filter (λ x, x ≠ k) ks in if decide (ks' = []) then delete d digs else <[d := ks']> digs
    end
  end.
Definition dig_add (k : cstr) (d : option cstr) (digs : gmap cstr (list cstr)) : gmap cstr (list cstr) :=
  match d with None => digs | Some d => <[d := default [] (digs !! d) ++ [k]]> digs end.

Definition update (k : cstr) (f : storage_image → storage_image) (a : astore) : astore := mk_astore (alter f k (a_imgs a)) (a_digs a).

Definition add_image (i : storage_image) (a : astore) : astore := mk_astore (<[si_id i := i]> (a_imgs a)) (dig_add (si_id i) (si_digest i) (a_digs a)).

Definition del_image (k : cstr) (a : astore) : astore :=
  match a_imgs a !! k with
  | None => a
  | Some i => mk_astore (delete k (a_imgs a)) (dig_remove k (si_digest i) (dig_remove k (manifest_of i) (a_digs a)))
  end.

(** The names of [k] are [u]; the other images lose those among theirs. *)
Definition lose_names (u : list cstr) (i : storage_image) : storage_image := with_names (filter (λ n, n ∉ u) (si_names i)) i.
Definition name_image (k : cstr) (u : list cstr) (a : astore) : astore :=
  mk_astore (alter (with_names u) k (lose_names u <$> a_imgs a)) (a_digs a).

(** The record of the data under a key. *)
Definition set_size (m : option (list (cstr * Z))) (key : cstr) (z : Z) : option (list (cstr * Z)) :=
  Some (match assoc (default [] m) key with Some _ => update_json_map_string_int64 (default [] m) key z | None => default [] m ++ [(key, z)] end).
Definition set_data_digest (m : option (list (cstr * cstr))) (key d : cstr) : option (list (cstr * cstr)) :=
  Some (match assoc (default [] m) key with Some _ => update_json_map_string_string (default [] m) key d | None => default [] m ++ [(key, d)] end).

Definition data_digest (data : string) : cstr := cstr_of (SHA256_PREFIX +:+ cstr_s (sha256_digest_str data)).

Definition data_image (key : cstr) (data : string) (i : storage_image) : storage_image :=
  with_data (if decide (key ∈ si_data_names i) then si_data_names i else si_data_names i ++ [key])
    (set_size (si_data_sizes i) key (Z.of_nat (String.length data))) (set_data_digest (si_data_digests i) key (data_digest data)) i.

(** The image moves to the list of its new manifest, if there is one. *)
Definition move_digest (k : cstr) (i : storage_image) (d : cstr) (digs : gmap cstr (list cstr)) : gmap cstr (list cstr) :=
  let old := manifest_of i in
  let digs := if decide (old = Some d ∨ old = si_digest i) then digs else dig_remove k old digs in
  match digs !! d with None => digs | Some ks => <[d := filter (λ x, x ≠ k) ks ++ [k]]> digs end.

Definition data_added (k key : cstr) (data : string) (a : astore) : astore :=
  match a_imgs a !! k with
  | None => a
  | Some i =>
    mk_astore (<[k := data_image key data i]> (a_imgs a))
      (if decide (key = IMAGE_DIGEST_BIG_DATA_KEY) then move_digest k i (data_digest data) (a_digs a) else a_digs a)
  end.

(** ** Operations *)
Inductive iop :=
| OCreate (rand : nat → urandom) (id : option cstr) (names : list cstr) (layer metadata : option cstr) (now : string) (time : option (option string)) (digest : cstr)
| ODelete (ref : cstr)
| OLookup (ref : cstr)
| OExists (ref : cstr)
| OAddName (ref name : cstr)
| OSetNames (ref : cstr) (names : list cstr)
| OGetNames (ref : cstr)
| OSetMetadata (ref metadata : cstr)
| OMetadata (ref : cstr)
| OSetLoadTime (ref : cstr) (time : string)
| OSetSize (ref : cstr) (size : Z)
| OTopLayer (ref : cstr)
| OSetData (ref key : cstr) (data : string)
| ODataNames (ref : cstr)
| ONumber.

Inductive ires := RZ (z : Z) | RStr (s : option cstr) | RStrs (l : option (list cstr)) | RBool (b : bool).

(** The id that a creation takes. *)
Fixpoint random_id (imgs : gmap cstr storage_image) (rand : nat → urandom) (fuel i : nat) : option cstr :=
  match fuel with
  | O => None
  | S fuel =>
    match util_generate_random_str (rand i) 64 with
    | None => None
    | Some id => match imgs !! cstr_of id with None => Some (cstr_of id) | Some _ => random_id imgs rand fuel (S i) end
    end
  end.

Definition the_names (names : list cstr) : list cstr :=
  match util_string_array_unique signed true true true (λ _, mem_ok) (Some <$> names) with Some (_, Some u) => omap id u | _ => [] end.

Definition created (a : astore) (rand : nat → urandom) (id : option cstr) (names : list cstr) (layer metadata : option cstr) (now : string) (time : option (option string)) (digest : cstr) : option storage_image :=
  k ← match id with Some k => Some k | None => random_id (a_imgs a) rand 5 0 end;
  t ← match time with None => Some now | Some t => t end;
  if decide (a_imgs a !! k = None ∧ Forall (λ n, owner (a_imgs a) n = None) names)
  then Some (mk_simage k (Some digest) (the_names names) layer metadata (Some t) (Some now) 0 [] None None) else None.

(** A change of the image that a reference leads to, and its saving. *)
Definition saved_change (a : astore) (ref : cstr) (f : cstr → astore → astore) : list (ires * astore) :=
  match find_ref a ref with None => [(RZ (-1), a)] | Some k => [(RZ 0, f k a); (RZ (-1), a); (RZ (-1), f k a)] end.

Definition reading {A} (a : astore) (ref : cstr) (wrap : A → ires) (error : A) (f : storage_image → A) : list (ires * astore) :=
  match find_ref a ref ≫= λ k, a_imgs a !! k with None => [(wrap error, a)] | Some i => [(wrap (f i), a); (wrap error, a)] end.

Definition outcomes (a : astore) (op : iop) : list (ires * astore) :=
  match op with
  | OCreate rand id names layer metadata now time digest =>
    match created a rand id names layer metadata now time digest with
    | None => [(RStr None, a)]
    | Some i => [(RStr (Some (si_id i)), add_image i a); (RStr None, a)]
    end
  | ODelete ref => match find_ref a ref with None => [(RZ 0, a); (RZ (-1), a)] | Some k => [(RZ 0, del_image k a); (RZ (-1), a); (RZ (-1), del_image k a)] end
  | OLookup ref => reading a ref RStr None (λ i, Some (si_id i))
  | OExists ref => reading a ref RBool false (λ _, true)
  | OAddName ref name => saved_change a ref (λ k a, match a_imgs a !! k with Some i => name_image k (the_names (si_names i ++ [name])) a | None => a end)
  | OSetNames ref names => if decide (names = []) then [(RZ (-1), a)] else saved_change a ref (λ k, name_image k (the_names names))
  | OGetNames ref => reading a ref RStrs None (λ i, Some (si_names i))
  | OSetMetadata ref metadata => saved_change a ref (λ k, update k (with_metadata (Some metadata)))
  | OMetadata ref => reading a ref RStr None si_metadata
  | OSetLoadTime ref time => saved_change a ref (λ k, update k (with_loaded (Some time)))
  | OSetSize ref size => saved_change a ref (λ k, update k (with_size size))
  | OTopLayer ref => reading a ref RStr None si_layer
  | OSetData ref key data => saved_change a ref (λ k, data_added k key data)
  | ODataNames ref => reading a ref RStrs None (λ i, Some (si_data_names i))
  | ONumber => [(RZ (u64 (Z.of_nat (size (a_imgs a)))), a); (RZ (u64 (-1)), a)]
  end.

(** Taking a name away from another image without being able to save that. *)
Definition torn (a : astore) (op : iop) (r : ires) : Prop :=
  match op with
  | OAddName ref name => r = RZ (-1) ∧ ∃ k k', find_ref a ref = Some k ∧ owner (a_imgs a) name = Some k' ∧ k' ≠ k
  | _ => False
  end.
End spec.
