(* ===== verification/ImageInfo.v ===== *)
(** * What the store of images tells

    The functions of
    [src/daemon/modules/image/oci/storage/image_store/image_store.c] that read the
    data of an image and report on images: the contents, sizes and digests of
    data, which are computed when they are not recorded, and the information and
    the summaries that clients see.  The set of repository digests is a string map
    with the interface [StrMap]. *)
From stdpp Require Import base gmap list fin_maps numbers strings.
From Stdlib Require Import ZArith Lia Ascii.
From S2P Require Import Prelude CString Regex Array RbTree Map StrMap Convert StringUtil Verify Path SymlinkScope IdNameManager ImageName ImageStore.

Local Open Scope Z_scope.

(** [imagetool_image] and [imagetool_image_summary]. *)
Record image_info := mk_info {
  ii_id : cstr; ii_repo_tags : list cstr; ii_repo_digests : list cstr; ii_created : option string; ii_loaded : option string; ii_size : Z;
  ii_top_layer : option cstr; ii_uid : option Z; ii_username : option string; ii_healthcheck : option health_check; ii_spec : oci_image_spec
}.
Record image_summary := mk_summary {
  su_id : cstr; su_repo_tags : list cstr; su_repo_digests : list cstr; su_created : option string; su_loaded : option string; su_size : Z;
  su_top_layer : option cstr; su_uid : option Z; su_username : option string; su_labels : option (list (string * string))
}.

Section image_info.
Context {MT BT : Type} {SM : StrMap ptr MT} {BM : StrMap bool BT} (signed : bool).
Context (generate_json : storage_image → option string) (parse_spec : string → option oci_image_spec).
Context (sha256_digest_str : string → cstr) (base64 : string → option string).
Context (append_json_map_string_int64 : list (cstr * Z) → cstr → Z → list (cstr * Z)).
Context (append_json_map_string_string : list (cstr * cstr) → cstr → cstr → list (cstr * cstr)).
Context (dup_json_map_string_string : list (string * string) → option (list (string * string))).
Context (default_host : option string) (dir : string).
Let IM := M (image_state MT).
Let set_big_data (w : world) (id key : cstr) (data : string) : IM Z :=
  image_store_set_big_data generate_json parse_spec sha256_digest_str base64 append_json_map_string_int64 append_json_map_string_string default_host dir w (Some id) (Some key) (Some data).

(** ** Data *)
Definition image_store_big_data (w : world) (id key : option cstr) : IM (option string) :=
  match id, nonempty_key key with
  | Some id, Some key =>
    locked (sub 0 w) false None (with_image default_host (sub 1 w) id None (λ p,
      i ← ld_simage p;
      match get_data_path base64 dir (sub 2 w) (si_id i) key with
      | None => mret None
      | Some name => if negb (io (sub 3 w)) then mret None else file_of (si_id i) name
      end))
  | _, _ => mret None
  end.

(** A critical section of a function that knows the store to be there. *)
Definition in_lock {A} (w : world) (error : A) (f : IM A) : IM A :=
  ok ← image_store_lock w false; if negb ok then mret error else a ← f; image_store_unlock;; mret a.

(** The result, and the size if it was found. *)
Definition get_size_with_update_big_data (w : world) (id key : cstr) : IM (Z * option Z) :=
  data ← image_store_big_data (sub 0 w) (Some id) (Some key);
  match data with
  | None => mret (-1, None)
  | Some data =>
    ret ← set_big_data (sub 1 w) id key data;
    if decide (ret ≠ 0) then mret (-1, None) else
    in_lock (sub 2 w) (-1, None) (with_image default_host (sub 3 w) id (-1, None) (λ p,
      i ← ld_simage p; size ← get_value_from_json_map_string_int64 (si_data_sizes i) key; mret (0, size)))
  end.

Definition image_store_big_data_size (w : world) (id key : option cstr) : IM Z :=
  match id, nonempty_key key with
  | Some id, Some key =>
    found ← locked (sub 0 w) false None (with_image default_host (sub 1 w) id None (λ p,
      i ← ld_simage p; size ← get_value_from_json_map_string_int64 (si_data_sizes i) key; mret (Some size)));
    match found with
    | None => mret (-1)
    | Some (Some size) => mret size
    | Some None => '(_, size) ← get_size_with_update_big_data (sub 2 w) id key; mret (default (-1) size)
    end
  | _, _ => mret (-1)
  end.

Definition recorded_digest (p : ptr) (key : cstr) : IM (option cstr) :=
  i ← ld_simage p; mret (get_value_from_json_map_string_string (si_data_digests i) key).

Definition get_digest_with_update_big_data (w : world) (id key : cstr) : IM (option cstr) :=
  data ← image_store_big_data (sub 0 w) (Some id) (Some key);
  match data with
  | None => mret None
  | Some data =>
    ret ← set_big_data (sub 1 w) id key data;
    if decide (ret ≠ 0) then mret None else
    in_lock (sub 2 w) None (with_image default_host (sub 3 w) id None (λ p, recorded_digest p key))
  end.

Definition image_store_big_data_digest (w : world) (id key : option cstr) : IM (option cstr) :=
  match id, nonempty_key key with
  | Some id, Some key =>
    found ← locked (sub 0 w) false None (with_image default_host (sub 1 w) id None (λ p, digest ← recorded_digest p key; mret (Some digest)));
    match found with
    | None => mret None
    | Some (Some digest) => mret (Some digest)
    | Some None => get_digest_with_update_big_data (sub 2 w) id key
    end
  | _, _ => mret None
  end.

(** ** Tags and digests of repositories *)
Fixpoint put_digests (w : world) (repo_digests : list cstr) : M BT bool :=
  match repo_digests with
  | [] => mret true
  | d :: repo_digests => ok ← sm_replace (map_room (sub 0 w)) d true; if negb ok then mret false else put_digests (sub 1 w) repo_digests
  end.

(** The digests of the tags behind those there are; [None] is the result -1. *)
Fixpoint repo_loop (w : world) (digest : cstr) (tags : list cstr) (repo_digests : list cstr) : M BT (option (list cstr)) :=
  match tags with
  | [] => mret (Some repo_digests)
  | tag :: tags =>
    match repo_digest default_host (w_mem (sub 0 w)) (cstr_s tag) (cstr_s digest) with
    | None => fail
    | Some None => repo_loop (sub 1 w) digest tags repo_digests
    | Some (Some tmp_repo_digests) =>
      if negb (alloc (sub 2 w)) then mret None else
      let d := cstr_of tmp_repo_digests in
      found ← sm_search d;
      match found with
      | Some _ => repo_loop (sub 1 w) digest tags repo_digests
      | None =>
        ok ← sm_replace (map_room (sub 3 w)) d true;
        if negb ok then mret None else
        if negb (alloc (sub 4 w)) then mret None else
        repo_loop (sub 1 w) digest tags (repo_digests ++ [d])
      end
    end
  end.

Definition pack_repo_digest (w : world) (old_repo_digests image_tags : list cstr) (digest : cstr) : option (option (list cstr)) :=
  match sm_new (w_mem (sub 0 w) 0%nat) (w_mem (sub 0 w) 1%nat) (w_mem (sub 0 w) 2%nat) with
  | None => Some None
  | Some digest_map =>
    fst <$> (ok ← put_digests (sub 1 w) old_repo_digests;
             if negb ok then mret None else repo_loop (sub 2 w) digest image_tags old_repo_digests) digest_map
  end.

(** [None] is the result -1; the digest of an image without tags is made and freed
    by the callers. *)
Definition get_image_repo_digests (w : world) (old_repo_digests image_tags : list cstr) (p : ptr) : IM (option (list cstr)) :=
  i ← ld_simage p;
  digest ← match si_digest i with
           | Some d => if String.eqb (cstr_s d) "" then image_store_big_data_digest (sub 0 w) (Some (si_id i)) (Some IMAGE_DIGEST_BIG_DATA_KEY) else mret (Some d)
           | None => image_store_big_data_digest (sub 0 w) (Some (si_id i)) (Some IMAGE_DIGEST_BIG_DATA_KEY)
           end;
  match digest with
  | None => mret (Some old_repo_digests)
  | Some digest =>
    if bool_decide (image_tags = []) then mret (Some old_repo_digests) else
    match pack_repo_digest (sub 1 w) old_repo_digests image_tags digest with None => fail | Some r => mret r end
  end.

(** The tags and the digests; [None] is the result -1. *)
Definition pack_image_tags_and_repo_digest (w : world) (p : ptr) : IM (option (list cstr * list cstr)) :=
  i ← ld_simage p;
  match resort_image_names (w_mem (sub 0 w)) (cstr_s <$> si_names i) true with
  | None => fail
  | Some None => mret None
  | Some (Some (_, tags, digests)) =>
    let tags := cstr_of <$> tags in
    repo_digests ← get_image_repo_digests (sub 1 w) (cstr_of <$> digests) tags p;
    mret (match repo_digests with None => None | Some repo_digests => Some (tags, repo_digests) end)
  end.
Definition pack_image_tags_and_repo_digest_for_summary : world → ptr → IM (option (list cstr * list cstr)) := pack_image_tags_and_repo_digest.

(** ** The configuration *)
Definition pack_health_check_from_image (w : world) (spec : oci_image_spec) : option (option health_check) :=
  match sp_config spec ≫= ic_healthcheck with
  | None => Some None
  | Some h =>
    if bool_decide (hk_test h = []) then Some None else
    if negb (alloc (sub 0 w)) then None else if negb (alloc (sub 1 w)) then None else Some (Some h)
  end.

(** The number of the user, or the name; [None] is the result -1. *)
Definition pack_user (w : world) (user : option string) : option (option Z * option string) :=
  match user with
  | None => Some (None, None)
  | Some user =>
    if String.eqb user "" then Some (None, None) else
    match fst (util_parse_user_group (Some user)) with
    | None => None
    | Some user =>
      match util_safe_llong (Some user) with
      | inr converted => if negb (alloc w) then None else Some (Some converted, None)
      | inl _ => Some (None, Some user)
      end
    end
  end.
Definition pack_user_info_from_image (w : world) (spec : oci_image_spec) : option (option Z * option string) := pack_user w (sp_config spec ≫= ic_user).
Definition pack_user_info_for_image_summary (w : world) (spec : option oci_image_spec) : option (option Z * option string) := pack_user w ((spec ≫= sp_config) ≫= ic_user).

Definition pack_image_summary_item (w : world) (spec : option oci_image_spec) : option (option health_check * (option Z * option string)) :=
  spec ← spec;
  h ← pack_health_check_from_image (sub 0 w) spec;
  u ← pack_user_info_from_image (sub 1 w) spec;
  Some (h, u).

Definition pack_image_labels_for_image_summary (w : world) (spec : option oci_image_spec) : option (option (list (string * string))) :=
  match (spec ≫= sp_config) ≫= ic_labels with
  | None => Some None
  | Some labels => if negb (alloc w) then None else Some <$> dup_json_map_string_string labels
  end.

(** ** Reports *)
Definition pack_oci_image_spec (w : world) (id : cstr) (base_name : string) : IM (option oci_image_spec) :=
  if negb (io w) then mret None else
  text ← file_of id base_name; mret (text ≫= parse_spec).

Definition get_image_info (w : world) (p : ptr) : IM (option image_info) :=
  img ← ld_img p;
  i ← ld_simage p;
  match util_full_digest (Some (cstr_s (si_id i))) with
  | None => mret None
  | Some sha256_key =>
    match base_name base64 (sub 0 w) (Some sha256_key) with
    | None => mret None
    | Some base_name =>
      if decide (PATH_MAX < String.length (dir +:+ String slash (cstr_s (si_id i)) +:+ String slash base_name))%nat then mret None else
      if negb (alloc (sub 1 w)) then mret None else
      spec ← pack_oci_image_spec (sub 4 w) (si_id i) base_name;
      match spec, pack_image_summary_item (sub 2 w) (im_spec img) with
      | Some spec, Some (healthcheck, (uid, username)) =>
        r ← pack_image_tags_and_repo_digest (sub 3 w) p;
        mret (match r with
              | None => None
              | Some (tags, repo_digests) => Some (mk_info (si_id i) tags repo_digests (si_created i) (si_loaded i) (si_size i) (si_layer i) uid username healthcheck spec)
              end)
      | _, _ => mret None
      end
    end
  end.

Definition get_image_summary (w : world) (p : ptr) : IM (option image_summary) :=
  if negb (alloc (sub 0 w)) then mret None else
  img ← ld_img p;
  i ← ld_simage p;
  match pack_user_info_for_image_summary (sub 1 w) (im_spec img) with
  | None => mret None
  | Some (uid, username) =>
    r ← pack_image_tags_and_repo_digest_for_summary (sub 2 w) p;
    mret (match r with
          | None => None
          | Some (tags, repo_digests) =>
            match pack_image_labels_for_image_summary (sub 3 w) (im_spec img) with
            | None => None
            | Some labels => Some (mk_summary (si_id i) tags repo_digests (si_created i) (si_loaded i) (si_size i) (si_layer i) uid username labels)
            end
          end)
  end.

(** The lock is released before the image. *)
Definition report {A} (w : world) (id : option cstr) (f : ptr → IM (option A)) : IM (option A) :=
  match id with
  | None => mret None
  | Some id =>
    r ← ready; if negb r then mret None else
    ok ← image_store_lock (sub 0 w) false; if negb ok then mret None else
    img ← lookup default_host (sub 1 w) (Some id);
    info ← match img with None => mret None | Some p => f p end;
    image_store_unlock;;
    image_ref_dec img;;
    mret info
  end.

Definition image_store_get_image (w : world) (id : option cstr) : IM (option image_info) := report w id (get_image_info (sub 2 w)).
Definition image_store_get_image_summary (w : world) (id : option cstr) : IM (option image_summary) := report w id (get_image_summary (sub 2 w)).

Fixpoint summaries (w : world) (l : list ptr) : IM (list image_summary) :=
  match l with
  | [] => mret []
  | p :: l =>
    imginfo ← get_image_summary (sub 0 w) p;
    rest ← summaries (sub 1 w) l;
    mret (match imginfo with None => rest | Some imginfo => imginfo :: rest end)
  end.

(** The result and the images of the list; the array has as many elements as the
    store counts. *)
Definition image_store_get_all_images (w : world) : IM (Z * list image_summary) :=
  locked (sub 0 w) true (-1, []) (
    s ← get;
    if is_len s =? 0 then mret (0, []) else
    if negb (alloc (sub 1 w)) then mret (-1, []) else
    l ← summaries (sub 2 w) (is_list s);
    if decide (is_len s < Z.of_nat (length l)) then fail else mret (0, l)).
End image_info.
