(* ===== verification/ImageLoad.v ===== *)
(** * Loading the store of images

    The last part of
    [src/daemon/modules/image/oci/storage/image_store/image_store.c]: a daemon
    that starts reads the directories of the images, brings the indices up to
    date and deletes the images whose configuration is gone.

    The parsers of manifests and configurations and the conversion of images of
    the first manifest schema are parameters; so is the order in which the
    directories are found. *)
From stdpp Require Import base gmap list fin_maps numbers strings.
From Stdlib Require Import ZArith Lia Ascii.
From S2P Require Import Prelude CString Regex Array RbTree Map StrMap Convert StringUtil Verify Path SymlinkScope IdNameManager ImageName ImageStore.

Local Open Scope Z_scope.

(** Who has the record that [append_image_by_directory] has parsed: itself, a
    list, or nobody any more. *)
Inductive record_owner := Caller | Gone | Listed (p : ptr).

Section image_load.
Context {MT : Type} {SM : StrMap ptr MT} (signed : bool).
Context (generate_json : storage_image → option string) (parse_file : string → option storage_image) (parse_spec : string → option oci_image_spec).
Context (parse_manifest_v2 parse_manifest_oci : string → bool) (parse_manifest_v1 : string → option Z) (parse_config_v2 : string → bool).
Context (base64 : string → option string) (default_host : option string) (dir : string).
Let IM := M (image_state MT).
Context (convert_to_v2_image_and_load : world → string → IM Z).

(** ** The index by digest *)
Definition implicit_digest (w : world) (p : ptr) : IM Z :=
  i ← ld_simage p;
  match si_data_digests i with
  | None => mret 0
  | Some digests =>
    match get_index_by_key digests.*1 IMAGE_DIGEST_BIG_DATA_KEY 0 with
    | None => mret 0
    | Some index =>
      match digests.*2 !! index with
      | None => fail
      | Some value => ret ← append_image_according_to_digest w (Some value) p; mret (if decide (ret ≠ 0) then -1 else 0)
      end
    end
  end.

Definition explicit_digest (w : world) (p : ptr) : IM Z :=
  i ← ld_simage p;
  match si_data_digests i with
  | None => mret 0
  | Some digests =>
    let value := get_index_by_key digests.*1 IMAGE_DIGEST_BIG_DATA_KEY 0 ≫= λ index, digests.*2 !! index in
    match si_digest i with
    | None => st_simage p (with_digest value);; mret 0
    | Some digest =>
      if decide (value = Some digest) then mret 0 else
      ret ← append_image_according_to_digest w (Some digest) p;
      mret (if decide (ret ≠ 0) then -1 else 0)
    end
  end.

(** ** Appending an image *)

(** The loop over the names, which are read anew in each round: whether the image
    has to be saved, [None] for a failure.  A name beyond the end is read when the
    image took the name from itself. *)
Fixpoint load_names (w : world) (p : ptr) (fuel i : nat) (should_save : bool) : IM (option bool) :=
  match fuel with
  | O => fail
  | S fuel =>
    img ← ld_simage p;
    match si_names img !! i with
    | None => mret (Some should_save)
    | Some name =>
      conflict_image ← on_byname (sm_search name);
      ret ← remove_name (sub 0 w) conflict_image (Some name);
      if decide (ret ≠ 0) then mret None else
      img ← ld_simage p;
      match si_names img !! i with
      | None => fail
      | Some name =>
        ok ← on_byname (sm_replace (map_room (sub 1 w)) name p);
        if negb ok then mret None else load_names (sub 2 w) p fuel (S i) (should_save || bool_decide (is_Some conflict_image))
      end
    end
  end.

Definition load_image_to_store_field (w : world) (p : ptr) : IM Z :=
  i ← ld_simage p;
  ok ← on_byid (sm_replace (map_room (sub 0 w)) (si_id i) p);
  if negb ok then mret (-1) else
  should_save ← load_names (sub 1 w) p (S (length (si_names i))) 0 false;
  match should_save with
  | None => mret (-1)
  | Some should_save =>
    ret ← (if (should_save : bool) then i ← ld_simage p; save_image generate_json dir (sub 2 w) i else mret 0);
    if decide (ret ≠ 0) then mret (-1) else
    ret ← implicit_digest (sub 3 w) p;
    if decide (ret ≠ 0) then mret (-1) else
    ret ← explicit_digest (sub 4 w) p;
    mret (if decide (ret ≠ 0) then -1 else 0)
  end.

Definition do_append_image (w : world) (im : storage_image) : IM (Z * record_owner) :=
  img ← new_image parse_spec base64 dir (sub 0 w) im;
  match img with
  | None => mret (-1, Caller)
  | Some p =>
    if negb (alloc (sub 1 w)) then free_image_t img;; mret (-1, Gone) else
    modify (λ s, set_images (is_list s ++ [p]) (u64 (is_len s + 1)) s);;
    ret ← load_image_to_store_field (sub 2 w) p;
    mret (if decide (ret ≠ 0) then -1 else 0, Listed p)
  end.

Definition strip_host_prefix (w : world) (name : cstr) : cstr := cstr_of (default (cstr_s name) (oci_strip_host_prefix default_host (alloc w) (Some (cstr_s name)))).

Definition deduplicate_names (w : world) (im : storage_image) : IM (option storage_image) :=
  if bool_decide (si_names im = []) then mret (Some im) else
  names ← unique_names signed w (si_names im);
  mret ((λ names, with_names names im) <$> names).

(** The loop over the names, and whether one has lost its host. *)
Fixpoint strip_names (w : world) (hostname_to_strip : string) (names : list cstr) : list cstr * bool :=
  match names with
  | [] => ([], false)
  | name :: names =>
    let '(rest, striped) := strip_names (sub 1 w) hostname_to_strip names in
    if util_has_prefix (Some (cstr_s name)) (Some hostname_to_strip) || util_has_prefix (Some (cstr_s name)) (Some REPO_PREFIX_TO_STRIP)
    then (strip_host_prefix (sub 0 w) name :: rest, true) else (name :: rest, striped)
  end.

(** [None]: the result is not 0. *)
Definition strip_default_hostname (w : world) (im : storage_image) : IM (option storage_image) :=
  match get_hostname_to_strip default_host (alloc (sub 0 w)) with
  | None => mret (Some im)
  | Some hostname_to_strip =>
    let '(names, striped) := strip_names (sub 1 w) hostname_to_strip (si_names im) in
    im ← deduplicate_names (sub 2 w) (with_names names im);
    match im with
    | None => mret None
    | Some im => if striped then ret ← save_image generate_json dir (sub 3 w) im; mret (if decide (ret ≠ 0) then None else Some im) else mret (Some im)
    end
  end.

(** The file of a directory below that of the store. *)
Definition read_file (name file : string) : IM (option string) := s ← get; mret (is_disk s !! name ≫= λ files, files !! file).
Definition path_fits (name file : string) : bool := bool_decide (String.length (dir +:+ String slash (name +:+ String slash file)) < PATH_MAX)%nat.

(** When appending fails the record is freed, and the image on the list has lost
    it. *)
Definition free_storage_image (owner : record_owner) : IM unit :=
  match owner with
  | Caller => mret tt
  | Gone => fail
  | Listed p => st_img p (λ im, mk_image None (im_spec im) (im_refcnt im))
  end.

Definition append_image_by_directory (w : world) (name : string) : IM Z :=
  if negb (path_fits name IMAGE_JSON) then mret (-1) else
  text ← read_file name IMAGE_JSON;
  match text ≫= parse_file with
  | None => mret (-1)
  | Some im =>
    im ← strip_default_hostname (sub 0 w) im;
    match im with
    | None => mret (-1)
    | Some im =>
      '(ret, owner) ← do_append_image (sub 1 w) im;
      if decide (ret ≠ 0) then free_storage_image owner;; mret (-1) else mret 0
    end
  end.

(** ** Images that another daemon has stored *)
Definition remote_append_image_by_directory_with_lock (w : world) (id : option cstr) : IM Z :=
  match id with
  | None => mret (-1)
  | Some id =>
    locked (sub 0 w) true (-1) (
      img ← on_byid (sm_search id);
      match img with
      | Some _ => mret 0
      | None => if decide (PATH_MAX ≤ String.length (image_dir dir id))%nat then mret (-1) else append_image_by_directory (sub 1 w) (cstr_s id)
      end)
  end.

Definition remote_remove_image_from_memory_with_lock (w : world) (id : option cstr) : IM Z :=
  match id with
  | None => mret (-1)
  | Some id =>
    locked (sub 0 w) true (-1) (
      img ← on_byid (sm_search id);
      match img with None => mret 0 | Some _ => remove_image_from_memory default_host (sub 1 w) id end)
  end.

Definition remote_image_get_top_layer_from_json (img_id : option cstr) : IM (option cstr) :=
  match img_id with
  | None => mret None
  | Some img_id =>
    r ← ready; if negb r then mret None else
    if negb (path_fits (cstr_s img_id) IMAGE_JSON) then mret None else
    text ← read_file (cstr_s img_id) IMAGE_JSON;
    mret (match text ≫= parse_file with None => None | Some im => si_layer im end)
  end.

(** ** Manifests *)

(** The result, and whether it is an image of the first schema. *)
Definition with_valid_converted_config (w : world) (name : string) : IM (Z * bool) :=
  if negb (path_fits name IMAGE_JSON) then mret (-1, false) else
  text ← read_file name IMAGE_JSON;
  match text ≫= parse_file with
  | None => mret (-1, false)
  | Some img =>
    match util_full_digest (Some (cstr_s (si_id img))) ≫= λ sha256_key, base_name base64 w (Some sha256_key) with
    | None => mret (-1, false)
    | Some base_name =>
      if negb (path_fits name base_name) then mret (-1, false) else
      config ← read_file name base_name;
      match config with
      | None => mret (0, false)
      | Some config => mret (if parse_config_v2 config then (0, true) else (-1, false))
      end
    end
  end.

Definition image_store_validate_manifest_schema_version_1 (w : world) (name : string) : IM (Z * bool) :=
  if negb (path_fits name (cstr_s IMAGE_DIGEST_BIG_DATA_KEY)) then mret (-1, false) else
  manifest ← read_file name (cstr_s IMAGE_DIGEST_BIG_DATA_KEY);
  match manifest with
  | None => mret (-1, false)
  | Some text =>
    if parse_manifest_v2 text then mret (0, false) else
    if parse_manifest_oci text then mret (0, false) else
    match parse_manifest_v1 text with
    | None => mret (-1, false)
    | Some schema_version =>
      '(ret, valid_v2_config) ← with_valid_converted_config w name;
      if decide (ret ≠ 0) then mret (-1, false) else mret (0, (schema_version =? 1) && negb valid_v2_config)
    end
  end.

(** ** The directories *)
Fixpoint load_loop (w : world) (image_dirs : list string) : IM unit :=
  match image_dirs with
  | [] => mret tt
  | d :: image_dirs =>
    (if negb (reg_ok IDENTIFIER_PATTERN d) then mret tt else
     if decide (PATH_MAX ≤ String.length (dir +:+ String slash d))%nat then mret tt else
     '(ret, valid_v1_image) ← image_store_validate_manifest_schema_version_1 (sub 0 w) d;
     if decide (ret ≠ 0) then mret tt else
     if negb valid_v1_image then append_image_by_directory (sub 1 w) d;; mret tt
     else convert_to_v2_image_and_load (sub 1 w) d;; mret tt);;
    load_loop (sub 2 w) image_dirs
  end.

(** [None]: the directory cannot be read. *)
Definition get_images_from_json (w : world) (image_dirs : option (list string)) : IM Z :=
  match image_dirs with None => mret (-1) | Some image_dirs => load_loop w image_dirs;; mret 0 end.

Fixpoint check_loop (w : world) (l : list ptr) : IM unit :=
  match l with
  | [] => mret tt
  | p :: l =>
    img ← ld_img p;
    match im_spec img with
    | None => i ← ld_simage p; do_delete_image_info default_host dir (sub 0 w) (si_id i);; mret tt
    | Some _ => mret tt
    end;;
    check_loop (sub 1 w) l
  end.

Definition image_store_check_all_images (w : world) : IM unit :=
  r ← ready; if negb r then mret tt else
  s ← get;
  if is_len s =? 0 then mret tt else check_loop w (is_list s).

Definition image_store_load (w : world) (image_dirs : option (list string)) : IM Z :=
  s ← get;
  if is_loaded s then mret 0 else
  ret ← get_images_from_json (sub 0 w) image_dirs;
  if decide (ret ≠ 0) then mret (-1) else
  image_store_check_all_images (sub 1 w);;
  modify (set_loaded true);;
  mret 0.

(** ** Starting and stopping *)
Fixpoint release_images (l : list ptr) : IM unit := match l with [] => mret tt | p :: l => image_ref_dec (Some p);; release_images l end.

Definition free_image_store : IM unit :=
  on_byid sm_free;; on_byname sm_free;; on_bydigest sm_free;;
  s ← get;
  release_images (is_list s);;
  modify (λ s, mk_ist false (is_lock s) [] 0 (is_byid s) (is_byname s) (is_bydigest s) false (is_imgs s) (is_digs s) (is_next s) (is_disk s)).

Definition image_store_free : IM unit := r ← ready; if (r : bool) then free_image_store else mret tt.

Definition new_map (w : world) : option MT := sm_new (w_mem w 0%nat) (w_mem w 1%nat) (w_mem w 2%nat).

(** The rest of [image_store_init], in the directory it has found.  A lock that
    cannot be initialised leads to the release of a list that is not. *)
Definition init_in_dir (w : world) (image_dirs : option (list string)) : IM Z :=
  if negb (io (sub 0 w)) then mret (-1) else
  if negb (alloc (sub 1 w)) then mret (-1) else
  if negb (io (sub 2 w)) then fail else
  match new_map (sub 4 w), new_map (sub 5 w), new_map (sub 6 w) with
  | Some byid, Some byname, Some bydigest =>
    modify (λ s, mk_ist true Free [] 0 byid byname bydigest false (is_imgs s) (is_digs s) (is_next s) (is_disk s));;
    ret ← image_store_load (sub 3 w) image_dirs;
    if decide (ret ≠ 0) then free_image_store;; mret (-1) else mret 0
  | _, _, _ => mret (-1)
  end.
End image_load.

Definition get_image_store_root_path (mem : bool) (opts : option (option string * option string)) : option string :=
  match opts with
  | Some (Some storage_root, Some driver_name) =>
    let root_dir := storage_root +:+ String slash (driver_name +:+ "-images") in
    if negb mem || bool_decide (PATH_MAX < String.length root_dir)%nat then None else Some root_dir
  | _ => None
  end.

(** A path that cannot be made is a success. *)
Definition image_store_init {MT} {SM : StrMap ptr MT} signed generate_json parse_file parse_spec parse_manifest_v2 parse_manifest_oci parse_manifest_v1 parse_config_v2 base64 default_host
    (convert_to_v2_image_and_load : world → string → M (image_state MT) Z) (w : world) (opts : option (option string * option string))
    (image_dirs : option (list string)) : M (image_state MT) Z :=
  r ← ready;
  if (r : bool) then mret (-1) else
  match get_image_store_root_path (alloc (sub 0 w)) opts with
  | None => mret 0
  | Some root_dir =>
    init_in_dir signed generate_json parse_file parse_spec parse_manifest_v2 parse_manifest_oci parse_manifest_v1 parse_config_v2 base64 default_host root_dir convert_to_v2_image_and_load (sub 1 w) image_dirs
  end.
