(* ===== verification/ContainerState.v ===== *)
(** * The state of a container

    [src/daemon/modules/container/container_state.c].  Each operation locks the
    state, so it is one atomic step: a function on the record.  The text that
    [util_get_now_time_buffer] leaves in its buffer is an argument ([now]), the
    empty string when it fails.  [util_strdup_s] keeps [NULL]. *)
From stdpp Require Import base list numbers strings.
From Stdlib Require Import ZArith Lia.
From S2P Require Import Prelude.

Local Open Scope Z_scope.

Definition defaultContainerTime : string := "0001-01-01T00:00:00Z".

Inductive Container_Status :=
| CONTAINER_STATUS_UNKNOWN | CONTAINER_STATUS_CREATED | CONTAINER_STATUS_STARTING | CONTAINER_STATUS_RUNNING
| CONTAINER_STATUS_STOPPED | CONTAINER_STATUS_PAUSED | CONTAINER_STATUS_RESTARTING | CONTAINER_STATUS_MAX_STATE.

#[global] Instance Container_Status_eq_dec : EqDecision Container_Status.
Proof. solve_decision. Defined.

Record pid_ppid_info_t := mk_pid_info { i_pid : Z; i_ppid : Z; i_start_time : Z; i_pstart_time : Z }.

Record defs_health_log_element := mk_health_log {
  hl_start : option string; hl_end : option string; hl_exit_code : Z; hl_output : option string }.

Record defs_health := mk_health {
  h_status : option string; h_failing_streak : Z; h_log : list defs_health_log_element }.

(** [container_state], the object behind [container_state_t]. *)
Record container_state := mk_state {
  running : bool;
  paused : bool;
  restarting : bool;
  oom_killed : bool;
  removal_inprogress : bool;
  dead : bool;
  starting : bool;
  has_been_manually_stopped : bool;
  pid : Z;
  p_pid : Z;
  start_time : Z;
  p_start_time : Z;
  exit_code : Z;
  restart_count : Z;
  error : option string;
  started_at : option string;
  finished_at : option string;
  health : option defs_health
}.

(** [container_state_new]: all fields zero but the two times; the arguments are
    the outcomes of the two allocations and of the initialisation of the mutex. *)
Definition new_state : container_state :=
  mk_state false false false false false false false false 0 0 0 0 0 0 None
    (Some defaultContainerTime) (Some defaultContainerTime) None.

Definition container_state_new (mem lock mem_state : bool) : option container_state :=
  if mem then if lock then if mem_state then Some new_state else None else None else None.

Section setters.
Implicit Types (s : container_state).

Definition container_state_set_starting s : container_state :=
  mk_state (running s) (paused s) (restarting s) (oom_killed s) (removal_inprogress s) (dead s) true
    (has_been_manually_stopped s) (pid s) (p_pid s) (start_time s) (p_start_time s) (exit_code s) (restart_count s)
    (error s) (started_at s) (finished_at s) (health s).

Definition container_state_set_dead s : container_state :=
  mk_state (running s) (paused s) (restarting s) (oom_killed s) (removal_inprogress s) true (starting s)
    (has_been_manually_stopped s) (pid s) (p_pid s) (start_time s) (p_start_time s) (exit_code s) (restart_count s)
    (error s) (started_at s) (finished_at s) (health s).

Definition container_state_reset_starting s : container_state :=
  mk_state (running s) (paused s) (restarting s) (oom_killed s) (removal_inprogress s) (dead s) false
    (has_been_manually_stopped s) (pid s) (p_pid s) (start_time s) (p_start_time s) (exit_code s) (restart_count s)
    (error s) (started_at s) (finished_at s) (health s).

Definition container_state_set_running (now : string) s (pid_info : option pid_ppid_info_t) (initial : bool)
    : container_state :=
  let '(a, b, c, d) :=
    match pid_info with
    | Some i => (i_pid i, i_ppid i, i_start_time i, i_pstart_time i)
    | None => (0, 0, 0, 0)
    end in
  mk_state true (if initial then false else paused s) false false (removal_inprogress s) (dead s) false
    (has_been_manually_stopped s) a b c d 0 (restart_count s) None (Some now) (finished_at s) (health s).

Definition container_state_set_stopped (now : string) s (code : Z) : container_state :=
  mk_state false false false (oom_killed s) (removal_inprogress s) (dead s) false
    (has_been_manually_stopped s) 0 0 0 0 code (restart_count s) (error s) (started_at s) (Some now) (health s).

Definition container_state_set_paused s : container_state :=
  mk_state (running s) true (restarting s) (oom_killed s) (removal_inprogress s) (dead s) (starting s)
    (has_been_manually_stopped s) (pid s) (p_pid s) (start_time s) (p_start_time s) (exit_code s) (restart_count s)
    (error s) (started_at s) (finished_at s) (health s).

Definition container_state_set_oom_killed s : container_state :=
  mk_state (running s) (paused s) (restarting s) true (removal_inprogress s) (dead s) (starting s)
    (has_been_manually_stopped s) (pid s) (p_pid s) (start_time s) (p_start_time s) (exit_code s) (restart_count s)
    (error s) (started_at s) (finished_at s) (health s).

Definition container_state_reset_paused s : container_state :=
  mk_state (running s) false (restarting s) (oom_killed s) (removal_inprogress s) (dead s) (starting s)
    (has_been_manually_stopped s) (pid s) (p_pid s) (start_time s) (p_start_time s) (exit_code s) (restart_count s)
    (error s) (started_at s) (finished_at s) (health s).

Definition container_restart_update_start_and_finish_time (now : string) s (finish_at : option string)
    : container_state :=
  mk_state true false false (oom_killed s) (removal_inprogress s) (dead s) false
    (has_been_manually_stopped s) (pid s) (p_pid s) (start_time s) (p_start_time s) 0 (restart_count s)
    (error s) (Some now) finish_at (health s).

Definition container_state_set_restarting (now : string) s (code : Z) : container_state :=
  mk_state true false true (oom_killed s) (removal_inprogress s) (dead s) false
    (has_been_manually_stopped s) 0 0 0 0 code (restart_count s) (error s) (started_at s) (Some now) (health s).

(** [restart_count] is an [int]; the increment is undefined at [INT_MAX]. *)
Definition container_state_increase_restart_count s : option container_state :=
  if restart_count s =? INT_MAX then None else
  Some (mk_state (running s) (paused s) (restarting s) (oom_killed s) (removal_inprogress s) (dead s) (starting s)
    (has_been_manually_stopped s) (pid s) (p_pid s) (start_time s) (p_start_time s) (exit_code s)
    (restart_count s + 1) (error s) (started_at s) (finished_at s) (health s)).

Definition container_state_reset_restart_count s : container_state :=
  mk_state (running s) (paused s) (restarting s) (oom_killed s) (removal_inprogress s) (dead s) (starting s)
    (has_been_manually_stopped s) (pid s) (p_pid s) (start_time s) (p_start_time s) (exit_code s) 0
    (error s) (started_at s) (finished_at s) (health s).

Definition container_state_get_restart_count s : Z := restart_count s.

Definition with_removal (b : bool) s : container_state :=
  mk_state (running s) (paused s) (restarting s) (oom_killed s) b (dead s) (starting s)
    (has_been_manually_stopped s) (pid s) (p_pid s) (start_time s) (p_start_time s) (exit_code s) (restart_count s)
    (error s) (started_at s) (finished_at s) (health s).

(** The flag returned says that a removal was already in progress. *)
Definition container_state_set_removal_in_progress s : bool * container_state :=
  if removal_inprogress s then (true, s) else (false, with_removal true s).

Definition container_state_reset_removal_in_progress s : container_state := with_removal false s.

Definition container_state_set_error s (err : option string) : container_state :=
  match err with
  | None => s
  | Some _ =>
    mk_state (running s) (paused s) (restarting s) (oom_killed s) (removal_inprogress s) (dead s) (starting s)
      (has_been_manually_stopped s) (pid s) (p_pid s) (start_time s) (p_start_time s) (exit_code s) (restart_count s)
      err (started_at s) (finished_at s) (health s)
  end.

Definition with_manual_stop (b : bool) s : container_state :=
  mk_state (running s) (paused s) (restarting s) (oom_killed s) (removal_inprogress s) (dead s) (starting s)
    b (pid s) (p_pid s) (start_time s) (p_start_time s) (exit_code s) (restart_count s)
    (error s) (started_at s) (finished_at s) (health s).

Definition container_state_set_has_been_manual_stopped s : container_state := with_manual_stop true s.
Definition container_state_reset_has_been_manual_stopped s : container_state := with_manual_stop false s.
End setters.

Section getters.
Implicit Types (s : container_state).

Definition container_state_judge_status (state : option container_state) : Container_Status :=
  match state with
  | None => CONTAINER_STATUS_UNKNOWN
  | Some s =>
    if running s then
      if paused s then CONTAINER_STATUS_PAUSED
      else if restarting s then CONTAINER_STATUS_RESTARTING
      else CONTAINER_STATUS_RUNNING
    else if starting s then CONTAINER_STATUS_STARTING
    else
      match started_at s, finished_at s with
      | Some a, Some f =>
        if String.eqb a defaultContainerTime && String.eqb f defaultContainerTime
        then CONTAINER_STATUS_CREATED
        else CONTAINER_STATUS_STOPPED
      | _, _ => CONTAINER_STATUS_UNKNOWN
      end
  end.

Definition container_state_to_string (cs : Container_Status) : string :=
  match cs with
  | CONTAINER_STATUS_MAX_STATE => "unknown"
  | CONTAINER_STATUS_UNKNOWN => "unknown"
  | CONTAINER_STATUS_CREATED => "inited"
  | CONTAINER_STATUS_STARTING => "starting"
  | CONTAINER_STATUS_RUNNING => "running"
  | CONTAINER_STATUS_STOPPED => "exited"
  | CONTAINER_STATUS_PAUSED => "paused"
  | CONTAINER_STATUS_RESTARTING => "restarting"
  end.

Definition container_state_get_status (s : option container_state) : Container_Status :=
  container_state_judge_status s.

(** Copying the health log; [mem i] is the allocation of entry [i]. *)
Fixpoint dup_health_log (mem : nat → bool) (i : nat) (log : list defs_health_log_element)
    : option (list defs_health_log_element) :=
  match log with
  | [] => Some []
  | e :: log =>
    if mem i then
      rest ← dup_health_log mem (S i) log;
      Some (mk_health_log (hl_start e) (hl_end e) (hl_exit_code e) (hl_output e) :: rest)
    else None
  end.

(** The return value and what is stored through [dst], which starts as [NULL]. *)
Definition container_dup_health_check_status (mem mem_log : bool) (mem_entry : nat → bool) (src : option defs_health)
    : Z * option defs_health :=
  match src with
  | None => (0, None)
  | Some src =>
    if mem then
      match h_log src with
      | [] => (0, Some (mk_health (h_status src) (h_failing_streak src) []))
      | _ :: _ =>
        if mem_log then
          match dup_health_log mem_entry 0 (h_log src) with
          | Some log => (0, Some (mk_health (h_status src) (h_failing_streak src) log))
          | None => (-1, None)
          end
        else (-1, None)
      end
    else (-1, None)
  end.

Definition or_default (t : option string) : option string :=
  match t with Some t => Some t | None => Some defaultContainerTime end.

(** The allocations of a copy: the object, the health object, its log and the
    entries of the log. *)
Record dup_mem := mk_dup_mem { d_state : bool; d_health : bool; d_log : bool; d_entry : nat → bool }.

Definition container_dup_state (mem : dup_mem) s : option container_state :=
  if d_state mem then
    match container_dup_health_check_status (d_health mem) (d_log mem) (d_entry mem) (health s) with
    | (0, h) =>
      Some (mk_state (running s) (paused s) (restarting s) (oom_killed s) (removal_inprogress s) (dead s) (starting s)
              false (pid s) 0 0 0 (exit_code s) (restart_count s)
              (error s) (or_default (started_at s)) (or_default (finished_at s)) h)
    | _ => None
    end
  else None.

(** [container_inspect_state]; [is_oom_killed] is only set when the daemon is
    built with the OOM monitor. *)
Record container_inspect_state := mk_inspect {
  is_status : string; is_running : bool; is_paused : bool; is_restarting : bool; is_oom_killed : bool;
  is_pid : Z; is_exit_code : Z; is_started_at : option string; is_finished_at : option string;
  is_error : option string; is_health : option defs_health }.

Definition container_state_to_inspect_state (oom_monitor : bool) (mem : dup_mem) s : option container_inspect_state :=
  if d_state mem then
    match container_dup_health_check_status (d_health mem) (d_log mem) (d_entry mem) (health s) with
    | (0, h) =>
      Some (mk_inspect (container_state_to_string (container_state_judge_status (Some s))) (running s) (paused s)
              (restarting s) (if oom_monitor then oom_killed s else false) (pid s) (exit_code s)
              (or_default (started_at s)) (or_default (finished_at s)) (error s) h)
    | _ => None
    end
  else None.

Definition container_state_get_exitcode s : Z := u32 (exit_code s).
Definition container_is_running s : bool := running s.
Definition container_is_restarting s : bool := restarting s.
Definition container_is_paused s : bool := paused s.
Definition container_is_removal_in_progress s : bool := removal_inprogress s.
Definition container_is_dead s : bool := dead s.
Definition container_state_get_pid s : Z := pid s.
Definition container_state_get_started_at s : option string := started_at s.
Definition container_state_get_has_been_manual_stopped s : bool := has_been_manually_stopped s.

Definition is_state_string_paused (state : string) : bool := String.eqb state "paused".
Definition is_state_string_restarting (state : string) : bool := String.eqb state "restarting".
Definition is_state_string_running (state : string) : bool := String.eqb state "running".
Definition is_state_string_dead (state : string) : bool := String.eqb state "dead".
Definition is_state_string_created (state : string) : bool := String.eqb state "created".
Definition is_state_string_exited (state : string) : bool := String.eqb state "exited".

Definition container_is_valid_state_string (state : option string) : bool :=
  match state with
  | None => false
  | Some state =>
    if negb (is_state_string_paused state) && negb (is_state_string_restarting state) &&
       negb (is_state_string_running state) && negb (is_state_string_dead state) &&
       negb (is_state_string_created state) && negb (is_state_string_exited state)
    then false else true
  end.
End getters.

(** ** Sequences of updates *)
Inductive state_op :=
| SetStarting | ResetStarting | SetDead
| SetRunning (now : string) (pid_info : option pid_ppid_info_t) (initial : bool)
| SetStopped (now : string) (code : Z)
| SetPaused | ResetPaused | SetOomKilled
| RestartUpdate (now : string) (finish_at : option string)
| SetRestarting (now : string) (code : Z)
| IncreaseRestartCount | ResetRestartCount
| SetRemoval | ResetRemoval
| SetError (err : option string)
| SetManualStop | ResetManualStop.

Definition apply_op (op : state_op) (s : container_state) : option container_state :=
  match op with
  | SetStarting => Some (container_state_set_starting s)
  | ResetStarting => Some (container_state_reset_starting s)
  | SetDead => Some (container_state_set_dead s)
  | SetRunning now pid_info initial => Some (container_state_set_running now s pid_info initial)
  | SetStopped now code => Some (container_state_set_stopped now s code)
  | SetPaused => Some (container_state_set_paused s)
  | ResetPaused => Some (container_state_reset_paused s)
  | SetOomKilled => Some (container_state_set_oom_killed s)
  | RestartUpdate now finish_at => Some (container_restart_update_start_and_finish_time now s finish_at)
  | SetRestarting now code => Some (container_state_set_restarting now s code)
  | IncreaseRestartCount => container_state_increase_restart_count s
  | ResetRestartCount => Some (container_state_reset_restart_count s)
  | SetRemoval => Some (container_state_set_removal_in_progress s).2
  | ResetRemoval => Some (container_state_reset_removal_in_progress s)
  | SetError err => Some (container_state_set_error s err)
  | SetManualStop => Some (container_state_set_has_been_manual_stopped s)
  | ResetManualStop => Some (container_state_reset_has_been_manual_stopped s)
  end.

Fixpoint apply_ops (ops : list state_op) (s : container_state) : option container_state :=
  match ops with
  | [] => Some s
  | op :: ops => s ← apply_op op s; apply_ops ops s
  end.

(** A restarting container counts as running, a container that is not running
    has no process, and the restart count is a non-negative [int]. *)
Record state_ok (s : container_state) : Prop := {
  ok_restarting : restarting s = true → running s = true;
  ok_process : running s = false → pid s = 0 ∧ p_pid s = 0 ∧ start_time s = 0 ∧ p_start_time s = 0;
  ok_count : 0 ≤ restart_count s ≤ INT_MAX
}.

Lemma apply_op_ok op s s' : apply_op op s = Some s' → state_ok s → state_ok s'.
Proof.
  intros Ho [H1 H2 H3]. destruct op; simpl in Ho; revert Ho;
    unfold container_state_set_running, container_state_increase_restart_count,
      container_state_set_removal_in_progress, container_state_set_error;
    repeat case_match; intros [= <-]; split; simpl; try done; try (unfold INT_MAX in *; lia).
Qed.

(** How far a sequence of updates can raise the restart count. *)
Fixpoint raises (ops : list state_op) : Z :=
  match ops with
  | [] => 0
  | IncreaseRestartCount :: ops => 1 + raises ops
  | _ :: ops => raises ops
  end.

Lemma raises_nonneg ops : 0 ≤ raises ops.
Proof. induction ops as [|[] ops IH]; simpl; lia. Qed.

Lemma apply_ops_ok ops s :
  state_ok s → restart_count s + raises ops ≤ INT_MAX → ∃ s', apply_ops ops s = Some s' ∧ state_ok s'.
Proof.
  revert s. induction ops as [|op ops IH]; intros s Hs Hc; simpl; [by eauto|].
  pose proof (raises_nonneg ops) as Hn.
  assert (∃ s', apply_op op s = Some s' ∧ restart_count s' + raises ops ≤ INT_MAX) as (s' & E & Hc').
  { pose proof (ok_count _ Hs). destruct op; simpl in *; try (eexists; split; [done|]; simpl; lia).
    - destruct pid_info; eexists; (split; [done|]); simpl; lia.
    - unfold container_state_increase_restart_count. rewrite (proj2 (Z.eqb_neq _ _)) by lia.
      eexists; split; [done|]; simpl; lia.
    - unfold container_state_set_removal_in_progress. destruct (removal_inprogress s); (eexists; split; [done|]; simpl; lia).
    - destruct err; (eexists; split; [done|]; simpl; lia). }
  rewrite E. simpl. apply IH; [by eapply apply_op_ok|done].
Qed.

(** Invariant of the state: from a new state, any sequence of updates with
    fewer than [INT_MAX] restarts is defined and keeps the state consistent:
    restarting implies running, a container that does not run has no process,
    and the restart count stays a non-negative [int]. *)
Theorem container_state_consistent ops s :
  container_state_new true true true = Some s → raises ops ≤ INT_MAX →
  ∃ s', apply_ops ops s = Some s' ∧ state_ok s'.
Proof.
  intros [= <-] Hr. apply apply_ops_ok; [|simpl; lia]. split; simpl; [done|done|]. unfold INT_MAX. lia.
Qed.

Lemma container_state_consistent_witness :
  ∃ s', apply_ops [SetStarting; SetRunning "2024-01-01T00:00:00Z" (Some (mk_pid_info 7 1 3 4)) true; SetPaused;
                   IncreaseRestartCount; SetRestarting "2024-01-02T00:00:00Z" 137]%string
          new_state = Some s' ∧ state_ok s'.
Proof. apply container_state_consistent; [reflexivity|vm_compute; discriminate]. Defined.

(** ** The reported status *)
Definition status_of (s : container_state) : Container_Status := container_state_judge_status (Some s).

(** What each update of the life cycle does to the status that clients see: a
    start that is not the first keeps a paused container paused; pausing and
    resuming are visible only on a running container; and a stopped container
    is reported as created only while both its times are the initial ones. *)
Theorem status_transitions s now info code finish :
  status_of (container_state_set_running now s info true) = CONTAINER_STATUS_RUNNING ∧
  status_of (container_state_set_running now s info false) =
    (if paused s then CONTAINER_STATUS_PAUSED else CONTAINER_STATUS_RUNNING) ∧
  status_of (container_state_set_restarting now s code) = CONTAINER_STATUS_RESTARTING ∧
  status_of (container_restart_update_start_and_finish_time now s finish) = CONTAINER_STATUS_RUNNING ∧
  status_of (container_state_set_stopped now s code) =
    match started_at s with
    | None => CONTAINER_STATUS_UNKNOWN
    | Some t => if decide (t = defaultContainerTime ∧ now = defaultContainerTime)
                then CONTAINER_STATUS_CREATED else CONTAINER_STATUS_STOPPED
    end ∧
  status_of (container_state_set_starting s) = (if running s then status_of s else CONTAINER_STATUS_STARTING) ∧
  status_of (container_state_set_paused s) = (if running s then CONTAINER_STATUS_PAUSED else status_of s) ∧
  (running s = true → status_of (container_state_reset_paused (container_state_set_paused s)) =
     if restarting s then CONTAINER_STATUS_RESTARTING else CONTAINER_STATUS_RUNNING).
Proof.
  split_and!; unfold status_of, container_state_judge_status; simpl; try done.
  - by destruct info.
  - destruct info; simpl; by destruct (paused s).
  - destruct (started_at s) as [t|]; [|done].
    destruct (String.eqb_spec t defaultContainerTime), (String.eqb_spec now defaultContainerTime); simpl;
      case_decide; tauto || naive_solver.
  - by destruct (running s).
  - by destruct (running s).
  - by intros ->.
Qed.

(** The life cycle never reports [CONTAINER_STATUS_UNKNOWN] or an out-of-range
    status while both times are set. *)
Theorem status_known s :
  started_at s ≠ None → finished_at s ≠ None →
  status_of s ≠ CONTAINER_STATUS_UNKNOWN ∧ status_of s ≠ CONTAINER_STATUS_MAX_STATE.
Proof. unfold status_of. simpl. intros. repeat case_match; done. Qed.

Lemma status_known_witness :
  let s := container_state_set_stopped "2024-01-01T00:00:00Z" new_state 0 in
  status_of s ≠ CONTAINER_STATUS_UNKNOWN ∧ status_of s ≠ CONTAINER_STATUS_MAX_STATE.
Proof. apply status_known; discriminate. Defined.

(** ** Removal *)

(** Threads that ask to remove the same container, in the order in which they
    take the lock. *)
Fixpoint removal_requests (n : nat) (s : container_state) : list bool * container_state :=
  match n with
  | O => ([], s)
  | S n =>
    let '(r, s) := container_state_set_removal_in_progress s in
    let '(rs, s) := removal_requests n s in
    (r :: rs, s)
  end.

Lemma removal_requests_busy n s :
  removal_inprogress s = true → removal_requests n s = (replicate n true, s).
Proof.
  intros Hs. induction n as [|n IH]; simpl; [done|]. unfold container_state_set_removal_in_progress at 1.
  by rewrite Hs, IH.
Qed.

(** Of any number of threads that ask to remove a container only the first is
    told to go ahead; the flag stays set until it is reset, and nothing else in
    the state changes. *)
Theorem removal_exclusive n s :
  removal_inprogress s = false →
  removal_requests (S n) s = (false :: replicate n true, with_removal true s) ∧
  container_state_set_removal_in_progress (container_state_reset_removal_in_progress (with_removal true s)) =
    (false, with_removal true s).
Proof.
  intros Hs. split; [|done]. cbn [removal_requests]. unfold container_state_set_removal_in_progress at 1.
  rewrite Hs. by rewrite removal_requests_busy.
Qed.

Lemma removal_exclusive_witness :
  removal_requests 3 new_state = ([false; true; true], with_removal true new_state) ∧
  container_state_set_removal_in_progress (container_state_reset_removal_in_progress (with_removal true new_state)) =
    (false, with_removal true new_state).
Proof. apply (removal_exclusive 2). reflexivity. Defined.

(** ** Copies *)
Lemma dup_health_log_all log mem i : (∀ j, mem j = true) → dup_health_log mem i log = Some log.
Proof.
  intros Hm. revert i. induction log as [|[a b c d] log IH]; intros i; simpl; [done|]. by rewrite Hm, IH.
Qed.

Lemma dup_health_log_copy log mem i l : dup_health_log mem i log = Some l → l = log.
Proof.
  revert i l. induction log as [|[a b c d] log IH]; intros i l; simpl; [by intros [= <-]|].
  destruct (mem i); [|done]. destruct (dup_health_log mem (S i) log) as [r|] eqn:E; [|done].
  intros [= <-]. by rewrite (IH _ _ E).
Qed.

Lemma dup_health_copy mem mem_log mem_entry src dst :
  container_dup_health_check_status mem mem_log mem_entry src = (0, dst) → dst = src.
Proof.
  destruct src as [[st n log]|]; simpl; [|by intros [= <-]]. destruct mem; [|done].
  destruct log as [|e log]; [by intros [= <-]|]. destruct mem_log; [|done].
  destruct (dup_health_log mem_entry 0 (e :: log)) as [l|] eqn:E; [|done].
  apply dup_health_log_copy in E as ->. by intros [= <-].
Qed.

(** The copy of the health information is exact, or the call reports failure
    and stores nothing; with enough memory it never fails. *)
Theorem dup_health_exact mem mem_log mem_entry src :
  let '(r, dst) := container_dup_health_check_status mem mem_log mem_entry src in
  ((r = 0 ∧ dst = src) ∨ (r = -1 ∧ dst = None ∧ src ≠ None)) ∧
  (mem = true → mem_log = true → (∀ i, mem_entry i = true) → r = 0).
Proof.
  destruct src as [[st n log]|]; simpl; [|naive_solver]. destruct mem; [|naive_solver].
  destruct log as [|e log]; [naive_solver|]. destruct mem_log; [|naive_solver].
  destruct (dup_health_log mem_entry 0 (e :: log)) as [l|] eqn:E.
  - apply dup_health_log_copy in E as ->. naive_solver.
  - split; [right; split_and!; done|]. intros _ _ Hm. by rewrite dup_health_log_all in E.
Qed.

(** A copy of the state reports the same status, process, exit code, times and
    flags; it does not carry the parent process, the start times and the mark
    of a manual stop. *)
Theorem dup_state_view mem s s' :
  container_dup_state mem s = Some s' → started_at s ≠ None → finished_at s ≠ None →
  status_of s' = status_of s ∧ health s' = health s ∧ pid s' = pid s ∧ exit_code s' = exit_code s ∧
  started_at s' = started_at s ∧ finished_at s' = finished_at s ∧ error s' = error s ∧
  restart_count s' = restart_count s ∧ removal_inprogress s' = removal_inprogress s ∧ dead s' = dead s ∧
  p_pid s' = 0 ∧ start_time s' = 0 ∧ p_start_time s' = 0 ∧ has_been_manually_stopped s' = false.
Proof.
  unfold container_dup_state. intros Hd Ha Hf. destruct (d_state mem); [|done].
  destruct (container_dup_health_check_status _ _ _ _) as [[|?|?] h] eqn:Hh; [|done..]. injection Hd as <-.
  unfold status_of. simpl. destruct (started_at s); [|done]. destruct (finished_at s); [|done].
  split_and!; try done. by eapply dup_health_copy.
Qed.

Definition all_mem : dup_mem := mk_dup_mem true true true (λ _, true).

Lemma dup_state_view_witness :
  container_dup_state all_mem new_state = Some new_state ∧ status_of new_state = CONTAINER_STATUS_CREATED ∧
  health new_state = health new_state.
Proof.
  destruct (dup_state_view all_mem new_state new_state) as (_ & Hh & _); [reflexivity|discriminate|discriminate|].
  split; [reflexivity|split; [reflexivity|exact Hh]].
Defined.
