(* ===== verification/RestartManager.v ===== *)
(** * The restart manager

    [src/daemon/modules/container/restart_manager/restartmanager.c] and the
    functions of [container_unix.c] that give access to the manager of a
    container.  The manager is a reference-counted object; a container owns one
    reference, and every function that looks at the manager takes one more and
    gives it back.  Operations under the manager's mutex are atomic.  The
    result of [pthread_cond_timedwait] and the effect of [start_container] are
    arguments. *)
From stdpp Require Import base list numbers strings.
From Stdlib Require Import ZArith Lia.
From S2P Require Import Prelude ContainerState.

Local Open Scope Z_scope.

Definition Time_Second : Z := 1000000000.
Definition Time_Minute : Z := 60 * Time_Second.
Definition backoffMultipulier : Z := 2.
Definition defaultTimeout : Z := 100 * 1000000.
Definition maxRestartTimeout : Z := Time_Minute.

(** [host_config_restart_policy]. *)
Record restart_policy := mk_policy { policy_name : option string; maximum_retry_count : Z }.

Record restart_manager_t := mk_rm {
  refcnt : Z;
  policy : option restart_policy;
  failure_count : Z;
  timeout : Z;
  canceled : bool
}.

(** ** Life time *)

(** The two allocations of [restart_manager_new] and its two initialisers. *)
Record rm_mem := mk_rm_mem { rm_object : bool; rm_mutex : bool; rm_cond : bool; rm_policy : bool }.

Definition restart_manager_new (mem : rm_mem) (p : option restart_policy) (count : Z) : option restart_manager_t :=
  if rm_object mem then
    if rm_mutex mem then
      if rm_cond mem then
        if rm_policy mem then
          let p := match p with Some p => p | None => mk_policy None 0 end in
          Some (mk_rm 1 (Some p) count 0 false)
        else None
      else None
    else None
  else None.

Definition restart_manager_refinc (rm : restart_manager_t) : restart_manager_t :=
  mk_rm (u64 (refcnt rm + 1)) (policy rm) (failure_count rm) (timeout rm) (canceled rm).

(** [None]: the count reached zero and the manager has been freed. *)
Definition restart_manager_unref (rm : restart_manager_t) : option restart_manager_t :=
  let n := u64 (refcnt rm - 1) in
  if n =? 0 then None else Some (mk_rm n (policy rm) (failure_count rm) (timeout rm) (canceled rm)).

Definition restart_manager_set_policy (mem : bool) (p : option restart_policy) (rm : restart_manager_t)
    : Z * restart_manager_t :=
  match p with
  | None => (-1, rm)
  | Some p =>
    if mem then (0, mk_rm (refcnt rm) (Some p) (failure_count rm) (timeout rm) (canceled rm)) else (-1, rm)
  end.

Definition restart_manager_cancel (rm : restart_manager_t) : Z * restart_manager_t :=
  (0, mk_rm (refcnt rm) (policy rm) (failure_count rm) (timeout rm) true).

(** ** The decision *)

(** [failure_count] is an [int]: the increment is undefined at [INT_MAX]. *)
Definition restart_manager_set_items (rm : restart_manager_t) (exit_code exec_duration : Z) : option restart_manager_t :=
  let next (count : Z) :=
    let t := if 10 <=? exec_duration then 0 else timeout rm in
    let t := if t =? 0 then defaultTimeout
             else if t <? maxRestartTimeout then i64 (t * backoffMultipulier) else t in
    let t := if maxRestartTimeout <? t then maxRestartTimeout else t in
    Some (mk_rm (refcnt rm) (policy rm) count t (canceled rm)) in
  if exit_code =? 0 then next 0
  else if failure_count rm =? INT_MAX then None else next (failure_count rm + 1).

(** [None]: the policy or its name is [NULL]. *)
Definition should_be_restart (rm : restart_manager_t) (exit_code : Z) (manual : bool) : option bool :=
  p ← policy rm;
  name ← policy_name p;
  Some
    (if String.eqb name "always" then true
     else if String.eqb name "unless-stopped" && negb manual then true
     else if String.eqb name "on-failure" then
       if (maximum_retry_count p =? 0) || (failure_count rm <=? maximum_retry_count p)
       then negb (exit_code =? 0) else false
     else if String.eqb name "on-reboot" then exit_code =? 129
     else false).

(** ** Access through the container *)

(** What the manager functions use of a container: its state, the number of
    references to it, its manager ([None] is [NULL]) and its policy. *)
Record cont := mk_cont {
  c_state : container_state;
  c_refs : Z;
  c_rm : option restart_manager_t;
  c_policy : option restart_policy;
  c_stop_broadcasts : nat
}.

Definition with_rm (rm : option restart_manager_t) (c : cont) : cont :=
  mk_cont (c_state c) (c_refs c) rm (c_policy c) (c_stop_broadcasts c).

(** The container's manager, made on first use; [false] is [NULL]. *)
Definition get_restart_manager (mem : rm_mem) : M cont bool := λ c,
  let rm := match c_rm c with
            | Some rm => Some rm
            | None => restart_manager_new mem (c_policy c) (container_state_get_restart_count (c_state c))
            end in
  match rm with
  | None => Some (false, c)
  | Some rm => Some (true, with_rm (Some (restart_manager_refinc rm)) c)
  end.

(** Run a function on the manager the thread holds a reference to. *)
Definition on_rm {A} (f : restart_manager_t → option (A * option restart_manager_t)) : M cont A := λ c,
  match c_rm c with
  | None => None
  | Some rm =>
    match f rm with
    | Some (a, rm') => Some (a, with_rm rm' c)
    | None => None
    end
  end.

Definition rm_unref : M cont unit := on_rm (λ rm, Some (tt, restart_manager_unref rm)).

Definition container_update_restart_manager (mem : rm_mem) (mem_policy : bool) (p : option restart_policy) : M cont unit :=
  match p with
  | None => mret tt
  | Some _ =>
    got ← get_restart_manager mem;
    if (got : bool) then
      on_rm (λ rm, let '(_, rm) := restart_manager_set_policy mem_policy p rm in Some (tt, Some rm));;
      rm_unref
    else mret tt
  end.

Definition container_exit_on_next (mem : rm_mem) : M cont Z :=
  got ← get_restart_manager mem;
  if (got : bool) then
    ret ← on_rm (λ rm, let '(r, rm) := restart_manager_cancel rm in Some (r, Some rm));
    rm_unref;;
    mret ret
  else mret (-1).

(** The reference [containers_store_get] takes, and its release. *)
Definition cont_ref : M cont unit := modify (λ c,
  mk_cont (c_state c) (u64 (c_refs c + 1)) (c_rm c) (c_policy c) (c_stop_broadcasts c)).
Definition cont_unref : M cont unit := modify (λ c,
  mk_cont (c_state c) (u64 (c_refs c - 1)) (c_rm c) (c_policy c) (c_stop_broadcasts c)).

(** Under the manager's lock: the decision, and the timeout stored through the
    caller's pointer when the container is to be restarted. *)
Definition decide_restart (exit_code : Z) (manual : bool) (exec_duration : Z) (rm : restart_manager_t)
    : option ((bool * option Z) * option restart_manager_t) :=
  if canceled rm then Some ((false, None), Some rm) else
  rm ← restart_manager_set_items rm exit_code exec_duration;
  restart ← should_be_restart rm exit_code manual;
  Some ((restart, if (restart : bool) then Some (u64 (timeout rm)) else None), Some rm).

(** [found] says whether [containers_store_get] finds the container of [id]. *)
Definition restart_manager_should_restart (mem : rm_mem) (id : option string) (found : bool)
    (exit_code : Z) (manual : bool) (exec_duration : Z) : M cont (bool * option Z) :=
  match id with
  | None => mret (false, None)
  | Some _ =>
    if found then
      cont_ref;;
      got ← get_restart_manager mem;
      if (got : bool) then
        named ← on_rm (λ rm,
          Some (match policy rm with Some p => match policy_name p with Some _ => true | None => false end
                | None => false end, Some rm));
        r ← (if (named : bool) then on_rm (decide_restart exit_code manual exec_duration) else mret (false, None));
        rm_unref;;
        cont_unref;;
        mret r
      else cont_unref;; mret (false, None)
    else mret (false, None)
  end.

(** ** Waiting and restarting *)

(** The deadline given to [pthread_cond_timedwait]: seconds and nanoseconds. *)
Definition wait_cancel_deadline (timeout tv_sec tv_nsec : Z) : Z * Z :=
  let sec := i64 (timeout / Time_Second) in
  let nsec := i64 (u64 (timeout - u64 (sec * Time_Second))) in
  let nsec := i64 (nsec + tv_nsec) in
  (i64 (tv_sec + i64 (sec + Z.quot nsec Time_Second)), Z.rem nsec Time_Second).

(** [clock_ok]: whether the clock can be read; [wait] is the result of
    [pthread_cond_timedwait] at the given deadline. *)
Definition restart_manager_wait_cancel_cond_wait (clock : option (Z * Z)) (wait : Z * Z → Z) (timeout : Z) : Z :=
  match clock with
  | None => -1
  | Some (tv_sec, tv_nsec) => wait (wait_cancel_deadline timeout tv_sec tv_nsec)
  end.

Definition restart_manager_wait_cancel (clock : option (Z * Z)) (wait : Z * Z → Z) (timeout : Z)
    (rm : restart_manager_t) : Z :=
  if canceled rm then 0 else restart_manager_wait_cancel_cond_wait clock wait timeout.

(** The surroundings of a restart thread. *)
Record restart_env := mk_env {
  e_detach : bool;                        (** [pthread_detach] succeeds *)
  e_found : bool;                         (** the container still exists *)
  e_gc : bool;                            (** it is being garbage collected *)
  e_mem : rm_mem;
  e_clock : option (Z * Z);
  e_wait : Z * Z → Z;
  e_start : container_state → Z * container_state;  (** [start_container] *)
  e_now : string
}.

Definition on_state {A} (f : container_state → A * container_state) : M cont A := λ c,
  let '(a, s) := f (c_state c) in
  Some (a, mk_cont s (c_refs c) (c_rm c) (c_policy c) (c_stop_broadcasts c)).

(** The label [set_stopped]. *)
Definition set_stopped (now : string) (exit_code : Z) : M cont unit :=
  on_state (λ s, (tt, container_state_set_stopped now s exit_code));;
  modify (λ c, mk_cont (c_state c) (c_refs c) (c_rm c) (c_policy c) (S (c_stop_broadcasts c))).

Definition container_restart (e : restart_env) (timeout exit_code : Z) : M cont unit :=
  if negb (e_detach e) then mret tt else
  if negb (e_found e) then mret tt else
  cont_ref;;
  (if e_gc e then set_stopped (e_now e) exit_code;; cont_unref else
   got ← get_restart_manager (e_mem e);
   if negb got then set_stopped (e_now e) exit_code;; cont_unref else
   ret ← on_rm (λ rm, Some (restart_manager_wait_cancel (e_clock e) (e_wait e) timeout rm, Some rm));
   (if ret =? 0 then set_stopped (e_now e) exit_code
    else
      rc ← on_state (e_start e);
      c ← get;
      if negb (rc =? 0) && container_is_restarting (c_state c) then set_stopped (e_now e) exit_code else mret tt);;
   cont_unref;;
   rm_unref).

(** [container_restart_in_thread]: whether the thread was started. *)
Definition container_restart_in_thread (id : option string) (mem : bool) (create : Z) : Z :=
  match id with
  | None => -1
  | Some _ => if mem then if create =? 0 then 0 else -1 else -1
  end.

(** ** Back-off *)
Lemma set_items_timeout rm exit_code dur rm' :
  restart_manager_set_items rm exit_code dur = Some rm' → 0 ≤ timeout rm ≤ maxRestartTimeout →
  timeout rm' = (if (10 <=? dur) || (timeout rm =? 0) then defaultTimeout else Z.min (2 * timeout rm) maxRestartTimeout) ∧
  refcnt rm' = refcnt rm ∧ policy rm' = policy rm ∧ canceled rm' = canceled rm ∧
  failure_count rm' = (if exit_code =? 0 then 0 else failure_count rm + 1).
Proof.
  unfold restart_manager_set_items. intros Hs Ht.
  assert (Hq : ∀ t, 0 ≤ t ≤ maxRestartTimeout →
    (let t := if t =? 0 then defaultTimeout else if t <? maxRestartTimeout then i64 (t * backoffMultipulier) else t in
     if maxRestartTimeout <? t then maxRestartTimeout else t) =
    if t =? 0 then defaultTimeout else Z.min (2 * t) maxRestartTimeout).
  { intros t Hb. cbv zeta. unfold maxRestartTimeout, Time_Minute, Time_Second, defaultTimeout, backoffMultipulier in *.
    destruct (Z.eqb_spec t 0); [done|]. destruct (Z.ltb_spec t (60 * 1000000000)).
    - rewrite i64_small by lia. destruct (Z.ltb_spec (60 * 1000000000) (t * 2)); lia.
    - destruct (Z.ltb_spec (60 * 1000000000) t); lia. }
  destruct (exit_code =? 0); [|destruct (failure_count rm =? INT_MAX); [done|]];
    injection Hs as <-; simpl; (split; [|done]);
    rewrite Hq by (case_match; lia); destruct (10 <=? dur); simpl; done.
Qed.

(** The delays of a container that keeps failing fast. *)
Fixpoint fast_failures (n : nat) (exit_code dur : Z) (rm : restart_manager_t) : option restart_manager_t :=
  match n with
  | O => Some rm
  | S n => rm ← fast_failures n exit_code dur rm; restart_manager_set_items rm exit_code dur
  end.

Lemma fast_failures_spec n exit_code dur rm :
  timeout rm = 0 → dur < 10 → exit_code ≠ 0 → 0 ≤ failure_count rm → failure_count rm + Z.of_nat n ≤ INT_MAX →
  ∃ rm', fast_failures n exit_code dur rm = Some rm' ∧ failure_count rm' = failure_count rm + Z.of_nat n ∧
    policy rm' = policy rm ∧ canceled rm' = canceled rm ∧
    timeout rm' = match n with O => 0 | S k => Z.min (defaultTimeout * 2 ^ Z.of_nat k) maxRestartTimeout end.
Proof.
  intros Ht Hd He H0. induction n as [|n IH]; intros Hn; simpl.
  { exists rm. split_and!; try done; lia. }
  destruct IH as (rm1 & -> & Hf & Hp & Hc & Ht1); [lia|]. simpl.
  assert (Hpow : 0 < 2 ^ Z.of_nat n) by (apply Z.pow_pos_nonneg; lia).
  assert (Hb : 0 ≤ timeout rm1 ≤ maxRestartTimeout).
  { rewrite Ht1. unfold maxRestartTimeout, Time_Minute, Time_Second, defaultTimeout. destruct n; [lia|].
    pose proof (Z.pow_pos_nonneg 2 (Z.of_nat n)). lia. }
  destruct (restart_manager_set_items rm1 exit_code dur) as [rm2|] eqn:E.
  2: { unfold restart_manager_set_items in E. rewrite (proj2 (Z.eqb_neq _ _) He) in E.
       rewrite (proj2 (Z.eqb_neq _ _)) in E by lia. done. }
  destruct (set_items_timeout _ _ _ _ E Hb) as (Ht2 & _ & Hp2 & Hc2 & Hf2). exists rm2.
  rewrite (proj2 (Z.eqb_neq _ _) He) in Hf2. split_and!; try congruence; [lia|].
  rewrite Ht2, (proj2 (Z.leb_gt _ _) Hd). simpl. rewrite Ht1. destruct n as [|n]; [done|].
  rewrite (Nat2Z.inj_succ n), Z.pow_succ_r by lia.
  unfold maxRestartTimeout, Time_Minute, Time_Second, defaultTimeout in *.
  pose proof (Z.pow_pos_nonneg 2 (Z.of_nat n)). rewrite (proj2 (Z.eqb_neq _ _)) by lia. lia.
Qed.

(** Exponential back-off: when a container keeps failing within ten seconds the
    [n+1]-st delay is [100ms * 2^n], capped at one minute; no step overflows. *)
Theorem restart_backoff n exit_code dur rm :
  timeout rm = 0 → dur < 10 → exit_code ≠ 0 → 0 ≤ failure_count rm → failure_count rm + Z.of_nat (S n) ≤ INT_MAX →
  ∃ rm', fast_failures (S n) exit_code dur rm = Some rm' ∧
    timeout rm' = Z.min (100 * 1000000 * 2 ^ Z.of_nat n) (60 * 1000000000).
Proof.
  intros Ht Hd He H0 Hn. destruct (fast_failures_spec (S n) exit_code dur rm) as (rm' & E & _ & _ & _ & Ht'); try done.
  by exists rm'.
Qed.

(** The delay is unset or between 100ms and one minute. *)
Definition timeout_ok (rm : restart_manager_t) : Prop :=
  timeout rm = 0 ∨ defaultTimeout ≤ timeout rm ≤ maxRestartTimeout.

(** Every exit keeps the delay in its range; a run of at least ten seconds
    starts the back-off again, whatever the exit code, and a success clears the
    failure count. *)
Theorem restart_backoff_reset rm exit_code dur rm' :
  restart_manager_set_items rm exit_code dur = Some rm' → timeout_ok rm →
  defaultTimeout ≤ timeout rm' ≤ maxRestartTimeout ∧
  (10 ≤ dur → timeout rm' = defaultTimeout) ∧ (exit_code = 0 → failure_count rm' = 0).
Proof.
  unfold timeout_ok. intros Hs Ht.
  destruct (set_items_timeout _ _ _ _ Hs) as (E & _ & _ & _ & Hf).
  { unfold defaultTimeout, maxRestartTimeout, Time_Minute, Time_Second in *. lia. }
  split; [|split].
  - rewrite E. unfold defaultTimeout, maxRestartTimeout, Time_Minute, Time_Second in *.
    destruct (10 <=? dur); simpl; [lia|]. destruct (Z.eqb_spec (timeout rm) 0); lia.
  - intros Hd. rewrite E, (proj2 (Z.leb_le _ _) Hd). done.
  - intros ->. done.
Qed.

(** ** Policies *)

(** The decisions of a manager for a series of exits. *)
Fixpoint decisions (exits : list (Z * Z)) (rm : restart_manager_t) : option (list bool * restart_manager_t) :=
  match exits with
  | [] => Some ([], rm)
  | (exit_code, dur) :: exits =>
    '((b, _), rm) ← decide_restart exit_code false dur rm;
    rm ← rm;
    '(bs, rm) ← decisions exits rm;
    Some (b :: bs, rm)
  end.

Lemma set_items_defined rm exit_code dur :
  failure_count rm < INT_MAX → ∃ rm', restart_manager_set_items rm exit_code dur = Some rm'.
Proof.
  intros Hf. unfold restart_manager_set_items. rewrite (proj2 (Z.eqb_neq (failure_count rm) INT_MAX)) by lia.
  case_match; by eexists.
Qed.

(** The policy [on-failure] with a limit [m]: of any series of failing exits
    the first [m] lead to a restart and the others do not. *)
Theorem on_failure_limit m rm exits :
  0 < m → policy rm = Some (mk_policy (Some "on-failure"%string) m) → canceled rm = false →
  0 ≤ failure_count rm → failure_count rm + Z.of_nat (length exits) ≤ INT_MAX → 0 ≤ timeout rm ≤ maxRestartTimeout →
  Forall (λ x, x.1 ≠ 0) exits →
  ∃ bs rm', decisions exits rm = Some (bs, rm') ∧ length bs = length exits ∧
    ∀ i b, bs !! i = Some b → b = (failure_count rm + Z.of_nat (S i) <=? m).
Proof.
  intros Hm. revert rm. induction exits as [|[code dur] exits IH]; intros rm Hp Hc H0 Hn Ht Hx; simpl.
  { by exists [], rm. }
  apply list.Forall_cons in Hx as [Hcode Hx]. simpl in Hcode, Hn. unfold decide_restart. rewrite Hc.
  destruct (set_items_defined rm code dur) as [rm1 E]; [lia|]. rewrite E. simpl.
  destruct (set_items_timeout _ _ _ _ E Ht) as (Ht1 & _ & Hp1 & Hc1 & Hf1).
  rewrite (proj2 (Z.eqb_neq _ _) Hcode) in Hf1.
  unfold should_be_restart. rewrite Hp1, Hp. simpl. rewrite (proj2 (Z.eqb_neq m 0)) by lia. simpl.
  destruct (IH rm1) as (bs & rm' & -> & Hl & Hi); [congruence|congruence|lia|lia| |done|].
  { rewrite Ht1. unfold maxRestartTimeout, Time_Minute, Time_Second, defaultTimeout in *. destruct (_ || _); lia. }
  simpl. eexists _, _. split; [done|]. split; [simpl; lia|]. intros [|i] b; simpl.
  - intros [= <-]. rewrite (proj2 (Z.eqb_neq _ _) Hcode), Hf1. change (Z.of_nat 1) with 1. by destruct (failure_count rm + 1 <=? m).
  - intros Hb. rewrite (Hi i b Hb), Hf1. f_equal. lia.
Qed.

(** The policies: [always] always restarts, [unless-stopped] unless the
    container was stopped by hand, [on-reboot] on exit code 129, [on-failure]
    on a failing exit within its limit (0 is no limit), and any other name,
    [no] included, never. *)
Theorem restart_policies rm name m exit_code manual :
  policy rm = Some (mk_policy (Some name) m) →
  should_be_restart rm exit_code manual = Some true ↔
  name = "always"%string ∨ (name = "unless-stopped"%string ∧ manual = false) ∨
  (name = "on-failure"%string ∧ exit_code ≠ 0 ∧ (m = 0 ∨ failure_count rm ≤ m)) ∨
  (name = "on-reboot"%string ∧ exit_code = 129).
Proof.
  unfold should_be_restart. intros ->. simpl.
  destruct (String.eqb_spec name "always") as [->|H1]; [naive_solver|].
  destruct (String.eqb_spec name "unless-stopped") as [->|H2]; simpl.
  { destruct manual; simpl; naive_solver. }
  destruct (String.eqb_spec name "on-failure") as [->|H3].
  { destruct (Z.eqb_spec m 0), (Z.leb_spec (failure_count rm) m), (Z.eqb_spec exit_code 0); simpl; naive_solver lia. }
  destruct (String.eqb_spec name "on-reboot") as [->|H4]; [|naive_solver].
  destruct (Z.eqb_spec exit_code 129); naive_solver.
Qed.

(** ** References *)

(** The counts leave room for one more reference, and the container holds one
    reference to its manager. *)
Definition counts_ok (c : cont) : Prop :=
  0 ≤ c_refs c < two64 - 1 ∧ match c_rm c with Some rm => 0 < refcnt rm < two64 - 1 | None => True end.

(** The manager a function finds or makes. *)
Definition manager (mem : rm_mem) (c : cont) : option restart_manager_t :=
  match c_rm c with
  | Some rm => Some rm
  | None => restart_manager_new mem (c_policy c) (container_state_get_restart_count (c_state c))
  end.

Lemma manager_ref mem c rm : counts_ok c → manager mem c = Some rm → 0 < refcnt rm < two64 - 1.
Proof.
  unfold manager. intros [_ Hc]. destruct (c_rm c); [by intros [= <-]|]. unfold restart_manager_new.
  repeat case_match; intros [= <-]; by vm_compute.
Qed.

Lemma wp_get_rm mem (Q : bool → cont → Prop) c :
  (manager mem c = None → Q false c) →
  (∀ rm, manager mem c = Some rm → Q true (with_rm (Some (restart_manager_refinc rm)) c)) →
  wp (get_restart_manager mem) Q c.
Proof.
  unfold wp, get_restart_manager. fold (manager mem c). destruct (manager mem c) as [rm|]; intros H1 H2; [by apply H2|by apply H1].
Qed.

Lemma wp_on_rm {A} (f : restart_manager_t → option (A * option restart_manager_t)) (Q : A → cont → Prop) c rm a rm' :
  c_rm c = Some rm → f rm = Some (a, rm') → Q a (with_rm rm' c) → wp (on_rm f) Q c.
Proof. unfold wp, on_rm. by intros -> ->. Qed.

(** Dropping a borrowed reference leaves the manager alive. *)
Lemma wp_rm_unref (Q : unit → cont → Prop) c rm n :
  c_rm c = Some rm → refcnt rm = n + 1 → 0 < n < two64 - 1 →
  Q tt (with_rm (Some (mk_rm n (policy rm) (failure_count rm) (timeout rm) (canceled rm))) c) → wp rm_unref Q c.
Proof.
  intros E Hn Hb HQ. eapply wp_on_rm; [exact E|reflexivity|]. unfold restart_manager_unref.
  rewrite Hn. replace (n + 1 - 1) with n by lia. rewrite u64_small by lia. by rewrite (proj2 (Z.eqb_neq _ _)) by lia.
Qed.

(** A new policy takes effect for the next exit and disturbs nothing else. *)
Theorem update_policy_effect mem mem_policy p c :
  counts_ok c →
  wp (container_update_restart_manager mem mem_policy (Some p)) (λ _ c', c_refs c' = c_refs c ∧
    match manager mem c with
    | None => c' = c
    | Some rm => c_rm c' = Some (mk_rm (refcnt rm) (if mem_policy then Some p else policy rm)
                                   (failure_count rm) (timeout rm) (canceled rm))
    end) c.
Proof.
  intros Hc. apply wp_bind, wp_get_rm; [intros E; by rewrite E|]. intros rm E. pose proof (manager_ref _ _ _ Hc E).
  rewrite E. apply wp_bind. destruct mem_policy; (eapply wp_on_rm; [done..|]);
    (eapply (wp_rm_unref _ _ _ (refcnt rm)); [done|simpl; by rewrite u64_small by lia|done|done]).
Qed.

(** The decision of a manager, with the timeout it hands out. *)
Definition verdict (rm : restart_manager_t) (exit_code : Z) (manual : bool) (dur : Z) : bool * option Z :=
  if canceled rm then (false, None) else
  match restart_manager_set_items rm exit_code dur with
  | Some rm =>
    match should_be_restart rm exit_code manual with
    | Some true => (true, Some (timeout rm))
    | _ => (false, None)
    end
  | None => (false, None)
  end.

Lemma cont_ref_unref c : 0 ≤ c_refs c < two64 - 1 → u64 (u64 (c_refs c + 1) - 1) = c_refs c.
Proof. intros Hc. rewrite (u64_small (c_refs c + 1)) by lia. rewrite u64_small by lia. lia. Qed.

(** A cancelled manager never asks for a restart, and is left as it was. *)
Lemma canceled_no_restart mem id found exit_code manual dur c rm :
  counts_ok c → c_rm c = Some rm → canceled rm = true →
  wp (restart_manager_should_restart mem id found exit_code manual dur) (λ v c', v.1 = false ∧ c' = c) c.
Proof.
  intros [Hc Hr] Hrm Hcan. rewrite Hrm in Hr. destruct id as [id|]; [|by apply wp_ret].
  destruct found; [|by apply wp_ret]. apply wp_bind, wp_modify, wp_bind, wp_get_rm; unfold manager; simpl; rewrite Hrm; [done|].
  intros ? [= <-]. apply wp_bind. eapply wp_on_rm; [done..|]. simpl.
  assert (Hu : wp (rm_unref;; cont_unref;; mret (false, None)) (λ (v : bool * option Z) c', v.1 = false ∧ c' = c)
    (mk_cont (c_state c) (u64 (c_refs c + 1)) (Some (restart_manager_refinc rm)) (c_policy c) (c_stop_broadcasts c))).
  { apply wp_bind. eapply (wp_rm_unref _ _ _ (refcnt rm)); [done|simpl; by rewrite u64_small by lia|done|].
    apply wp_bind, wp_modify, wp_ret. simpl. rewrite cont_ref_unref by done. split; [done|].
    destruct c as [st rf rm0 po br]; simpl in *. subst. by destruct rm. }
  destruct (match policy rm with Some p => _ | None => false end); apply wp_bind; [|by apply wp_ret].
  eapply wp_on_rm; [done|unfold decide_restart; simpl; by rewrite Hcan|]. exact Hu.
Qed.

(** Cancelling: [container_exit_on_next] marks the manager, making it first if
    necessary, and keeps the reference counts balanced; from then on no exit
    of the container, whatever its code and policy, asks for a restart. *)
Theorem exit_on_next_cancels mem c :
  counts_ok c →
  wp (container_exit_on_next mem) (λ r c', c_refs c' = c_refs c ∧ c_state c' = c_state c ∧
    match manager mem c with
    | None => r = -1 ∧ c' = c
    | Some rm =>
      r = 0 ∧ c_rm c' = Some (mk_rm (refcnt rm) (policy rm) (failure_count rm) (timeout rm) true) ∧
      ∀ mem' id found exit_code manual dur,
        wp (restart_manager_should_restart mem' id found exit_code manual dur) (λ v c'', v.1 = false ∧ c'' = c') c'
    end) c.
Proof.
  intros Hc. apply wp_bind, wp_get_rm; intros E; [by rewrite E|]. intros Em. pose proof (manager_ref _ _ _ Hc Em).
  rewrite Em. apply wp_bind. eapply wp_on_rm; [done..|]. apply wp_bind.
  eapply (wp_rm_unref _ _ _ (refcnt E)); [done|simpl; by rewrite u64_small by lia|done|]. apply wp_ret.
  split_and!; try done. intros. eapply canceled_no_restart; [split; [apply Hc|done]|done|done].
Qed.

Lemma decide_restart_spec rm n exit_code manual dur :
  failure_count rm < INT_MAX → timeout_ok rm →
  (∃ p name, policy rm = Some p ∧ policy_name p = Some name) →
  ∃ r rm', decide_restart exit_code manual dur (mk_rm n (policy rm) (failure_count rm) (timeout rm) (canceled rm)) =
    Some (r, Some rm') ∧ r = verdict rm exit_code manual dur ∧ refcnt rm' = n ∧ canceled rm' = canceled rm ∧
    (canceled rm = true → rm' = mk_rm n (policy rm) (failure_count rm) (timeout rm) true).
Proof.
  intros Hf Ht (p & name & Hp & Hname). unfold decide_restart, verdict. simpl.
  destruct (canceled rm) eqn:Hc; [by eexists _, _|].
  destruct (set_items_defined rm exit_code dur Hf) as [rm1 E].
  assert (Hb : 0 ≤ timeout rm ≤ maxRestartTimeout).
  { unfold timeout_ok, defaultTimeout, maxRestartTimeout, Time_Minute, Time_Second in *. lia. }
  destruct (set_items_timeout _ _ _ _ E Hb) as (Ht1 & _ & Hp1 & Hc1 & Hf1).
  assert (E' : restart_manager_set_items (mk_rm n (policy rm) (failure_count rm) (timeout rm) false) exit_code dur =
    Some (mk_rm n (policy rm1) (failure_count rm1) (timeout rm1) false)).
  { revert E. unfold restart_manager_set_items. simpl.
    destruct (exit_code =? 0); [|destruct (failure_count rm =? INT_MAX); [done|]]; by intros [= <-]. }
  rewrite E', E. simpl. unfold should_be_restart. simpl. rewrite Hp1, Hp. simpl. rewrite Hname. simpl.
  eexists _, _. split; [done|]. split; [|done].
  assert (Hu : u64 (timeout rm1) = timeout rm1).
  { apply u64_small. rewrite Ht1. unfold two64, defaultTimeout, maxRestartTimeout, Time_Minute, Time_Second in *.
    destruct (_ || _); lia. }
  rewrite Hu. by destruct (if String.eqb name "always" then _ else _).
Qed.

Lemma should_restart_ok mem id c exit_code manual dur rm :
  counts_ok c → manager mem c = Some rm → failure_count rm < INT_MAX → timeout_ok rm →
  (∃ p name, policy rm = Some p ∧ policy_name p = Some name) →
  wp (restart_manager_should_restart mem (Some id) true exit_code manual dur) (λ r c',
    r = verdict rm exit_code manual dur ∧ c_refs c' = c_refs c ∧ c_state c' = c_state c ∧
    ∃ rm', c_rm c' = Some rm' ∧ refcnt rm' = refcnt rm ∧ canceled rm' = canceled rm ∧
      (canceled rm = true → rm' = rm)) c.
Proof.
  intros Hc Hm Hf Ht Hp. pose proof (manager_ref _ _ _ Hc Hm) as Hr. pose proof Hc as [Hcr _].
  destruct (decide_restart_spec rm (u64 (refcnt rm + 1)) exit_code manual dur Hf Ht Hp) as (r & rm' & Hd & -> & Hn & Hc' & Hk).
  apply wp_bind. apply wp_modify. apply wp_bind.
  apply wp_get_rm; change (manager mem _) with (manager mem c); rewrite Hm; [done|]. intros ? [= <-].
  apply wp_bind. eapply wp_on_rm; [done..|]. simpl. destruct Hp as (p & name & -> & ->).
  apply wp_bind. eapply wp_on_rm; [done|exact Hd|]. apply wp_bind.
  eapply (wp_rm_unref _ _ _ (refcnt rm)); [done|rewrite Hn; by rewrite u64_small by lia|done|].
  apply wp_bind, wp_modify, wp_ret. simpl. rewrite cont_ref_unref by done. split_and!; try done.
  eexists. split; [done|]. simpl. split_and!; try done. intros Hcan. rewrite (Hk Hcan).
  destruct rm; simpl in *. by rewrite Hcan.
Qed.

(** [restart_manager_should_restart] returns the verdict of the container's
    manager, and on every path the references it took to the container and to
    the manager are given back. *)
Theorem should_restart_balanced mem id c exit_code manual dur rm :
  counts_ok c → manager mem c = Some rm → failure_count rm < INT_MAX → timeout_ok rm →
  (∃ p name, policy rm = Some p ∧ policy_name p = Some name) →
  wp (restart_manager_should_restart mem (Some id) true exit_code manual dur) (λ r c',
    r = verdict rm exit_code manual dur ∧ c_refs c' = c_refs c ∧ c_state c' = c_state c ∧
    ∃ rm', c_rm c' = Some rm' ∧ refcnt rm' = refcnt rm ∧ canceled rm' = canceled rm ∧
      (canceled rm = true → rm' = rm)) c.
Proof. apply should_restart_ok. Qed.

(** ** Waiting *)

(** The deadline is the current time plus the timeout, with a nanosecond part
    in range, for any clock reading and any delay the manager hands out. *)
Theorem deadline_correct timeout tv_sec tv_nsec :
  0 ≤ timeout ≤ maxRestartTimeout → 0 ≤ tv_sec < 4611686018427387904 → 0 ≤ tv_nsec < Time_Second →
  let '(sec, nsec) := wait_cancel_deadline timeout tv_sec tv_nsec in
  sec * Time_Second + nsec = tv_sec * Time_Second + tv_nsec + timeout ∧ 0 ≤ nsec < Time_Second.
Proof.
  unfold wait_cancel_deadline, maxRestartTimeout, Time_Minute, Time_Second. intros Ht Hs Hn.
  pose proof (Z.div_mod timeout 1000000000 ltac:(lia)) as Hd. pose proof (Z.mod_pos_bound timeout 1000000000 eq_refl) as Hb.
  set (q := timeout / 1000000000) in *. set (r := timeout mod 1000000000) in *.
  assert (0 ≤ q ≤ 60) by lia.
  rewrite (i64_small q), (u64_small (q * 1000000000)) by (unfold two64; lia).
  replace (timeout - q * 1000000000) with r by lia.
  rewrite (u64_small r), (i64_small r), (i64_small (r + tv_nsec)) by (unfold two64; lia).
  rewrite Z.quot_div_nonneg, Z.rem_mod_nonneg by lia.
  pose proof (Z.div_mod (r + tv_nsec) 1000000000 ltac:(lia)). pose proof (Z.mod_pos_bound (r + tv_nsec) 1000000000 eq_refl).
  set (q' := (r + tv_nsec) / 1000000000) in *. assert (0 ≤ q' ≤ 1) by lia.
  rewrite (i64_small (q + q')), i64_small by lia. lia.
Qed.

Lemma deadline_correct_witness :
  let '(sec, nsec) := wait_cancel_deadline 1500000000 100 700000000 in
  sec * Time_Second + nsec = 100 * Time_Second + 700000000 + 1500000000 ∧ 0 ≤ nsec < Time_Second.
Proof. apply (deadline_correct 1500000000 100 700000000); vm_compute; split; congruence. Defined.

(** A cancelled manager stops the wait at once; otherwise a wait that ends
    without an error, the wake-ups that [pthread_cond_timedwait] may produce on
    its own included, is reported as a cancellation. *)
Theorem wait_cancel_result clock wait timeout rm :
  restart_manager_wait_cancel clock wait timeout rm = 0 ↔
  canceled rm = true ∨
  ∃ sec nsec, clock = Some (sec, nsec) ∧ wait (wait_cancel_deadline timeout sec nsec) = 0.
Proof.
  unfold restart_manager_wait_cancel, restart_manager_wait_cancel_cond_wait.
  destruct (canceled rm); [naive_solver|]. destruct clock as [[sec nsec]|]; [|naive_solver lia].
  split; [intros E; right; by exists sec, nsec|]. by intros [|(? & ? & [= <- <-] & E)].
Qed.

(** ** The restart thread *)
Lemma wp_set_stopped now code (Q : unit → cont → Prop) c :
  Q tt (mk_cont (container_state_set_stopped now (c_state c) code) (c_refs c) (c_rm c) (c_policy c)
          (S (c_stop_broadcasts c))) →
  wp (set_stopped now code) Q c.
Proof. intros HQ. unfold set_stopped. apply wp_bind. exact HQ. Qed.

(** What a restart leaves behind: the references are balanced, and the state is
    the stopped one when the container is being collected, has no manager or
    the restart was cancelled, and the result of [start_container] otherwise,
    stopped if that failed while the container was still marked restarting. *)
Theorem container_restart_balanced e timeout exit_code c :
  counts_ok c → e_detach e = true → e_found e = true →
  let stopped s := container_state_set_stopped (e_now e) s exit_code in
  wp (container_restart e timeout exit_code) (λ _ c',
    c_refs c' = c_refs c ∧
    match (if e_gc e then None else manager (e_mem e) c) with
    | None => c_state c' = stopped (c_state c) ∧ c_rm c' = c_rm c
    | Some rm =>
      c_rm c' = Some rm ∧
      c_state c' =
        (if restart_manager_wait_cancel (e_clock e) (e_wait e) timeout rm =? 0 then stopped (c_state c)
         else let '(rc, s) := e_start e (c_state c) in
              if negb (rc =? 0) && restarting s then stopped s else s)
    end) c.
Proof.
  intros Hc Hdt Hfd stopped. pose proof Hc as [Hcr _]. unfold container_restart. rewrite Hdt, Hfd. simpl negb. cbn iota.
  apply wp_bind, wp_modify. destruct (e_gc e).
  { apply wp_bind, wp_set_stopped, wp_modify. simpl. by rewrite cont_ref_unref. }
  apply wp_bind, wp_get_rm; change (manager (e_mem e) _) with (manager (e_mem e) c).
  { intros ->. apply wp_bind, wp_set_stopped, wp_modify. simpl. by rewrite cont_ref_unref. }
  intros rm Hm. rewrite Hm. pose proof (manager_ref _ _ _ Hc Hm) as Hr.
  assert (Hfin : ∀ s n, wp (cont_unref;; rm_unref) (λ _ c', c_refs c' = c_refs c ∧ c_rm c' = Some rm ∧ c_state c' = s)
    (mk_cont s (u64 (c_refs c + 1)) (Some (restart_manager_refinc rm)) (c_policy c) n)).
  { intros s n. apply wp_bind, wp_modify.
    eapply (wp_rm_unref _ _ _ (refcnt rm)); [done|simpl; by rewrite u64_small by lia|done|]. simpl.
    rewrite cont_ref_unref by done. by destruct rm. }
  simpl negb. cbn iota. apply wp_bind. eapply wp_on_rm; [done..|]. apply wp_bind.
  change (restart_manager_wait_cancel (e_clock e) (e_wait e) timeout (restart_manager_refinc rm))
    with (restart_manager_wait_cancel (e_clock e) (e_wait e) timeout rm).
  destruct (restart_manager_wait_cancel _ _ _ _ =? 0); [apply wp_set_stopped, Hfin|].
  apply wp_bind. unfold wp at 1, on_state. simpl c_state. destruct (e_start e (c_state c)) as [rc s].
  apply wp_bind, wp_get. simpl c_state. unfold container_is_restarting.
  destruct (negb (rc =? 0) && restarting s); [apply wp_set_stopped, Hfin|apply wp_ret, Hfin].
Qed.

(** ** Instances on a concrete manager *)
Section examples.
Definition sample_policy : restart_policy := mk_policy (Some "on-failure"%string) 2.
Definition sample_rm : restart_manager_t := mk_rm 1 (Some sample_policy) 0 0 false.
Definition sample_cont : cont := mk_cont new_state 1 (Some sample_rm) (Some sample_policy) 0.
Definition rm_mem_ok : rm_mem := mk_rm_mem true true true true.

Lemma sample_counts : counts_ok sample_cont.
Proof. by vm_compute. Qed.

Lemma restart_backoff_witness :
  ∃ rm', fast_failures 10 1 3 sample_rm = Some rm' ∧
    timeout rm' = Z.min (100 * 1000000 * 2 ^ 9) (60 * 1000000000).
Proof. apply (restart_backoff 9 1 3 sample_rm); vm_compute; congruence. Defined.

Lemma restart_backoff_reset_witness :
  defaultTimeout ≤ 100000000 ≤ maxRestartTimeout ∧
  (10 ≤ 12 → 100000000 = defaultTimeout) ∧ (0 = 0 → 0 = 0).
Proof.
  apply (restart_backoff_reset sample_rm 0 12 (mk_rm 1 (Some sample_policy) 0 100000000 false)); [reflexivity|by left].
Defined.

Lemma on_failure_limit_witness :
  ∃ bs rm', decisions [(1, 0); (2, 0); (3, 0)] sample_rm = Some (bs, rm') ∧ length bs = 3%nat ∧
    ∀ i b, bs !! i = Some b → b = (0 + Z.of_nat (S i) <=? 2).
Proof.
  apply (on_failure_limit 2 sample_rm [(1, 0); (2, 0); (3, 0)]); try done; repeat constructor; vm_compute; congruence.
Defined.

Lemma restart_policies_witness :
  should_be_restart sample_rm 1 false = Some true ↔
  "on-failure" = "always"%string ∨ ("on-failure" = "unless-stopped"%string ∧ false = false) ∨
  ("on-failure" = "on-failure"%string ∧ 1 ≠ 0 ∧ (2 = 0 ∨ failure_count sample_rm ≤ 2)) ∨
  ("on-failure" = "on-reboot"%string ∧ 1 = 129).
Proof. exact (restart_policies sample_rm "on-failure" 2 1 false eq_refl). Defined.

Lemma exit_on_next_cancels_witness :
  wp (container_exit_on_next rm_mem_ok) (λ r c', c_refs c' = 1 ∧ c_state c' = new_state ∧
    match manager rm_mem_ok sample_cont with
    | None => r = -1 ∧ c' = sample_cont
    | Some rm =>
      r = 0 ∧ c_rm c' = Some (mk_rm (refcnt rm) (policy rm) (failure_count rm) (timeout rm) true) ∧
      ∀ mem' id found exit_code manual dur,
        wp (restart_manager_should_restart mem' id found exit_code manual dur) (λ v c'', v.1 = false ∧ c'' = c') c'
    end) sample_cont.
Proof. exact (exit_on_next_cancels rm_mem_ok sample_cont sample_counts). Defined.

Lemma update_policy_effect_witness :
  wp (container_update_restart_manager rm_mem_ok true (Some sample_policy)) (λ _ c', c_refs c' = c_refs sample_cont ∧
    match manager rm_mem_ok sample_cont with
    | None => c' = sample_cont
    | Some rm => c_rm c' = Some (mk_rm (refcnt rm) (Some sample_policy) (failure_count rm) (timeout rm) (canceled rm))
    end) sample_cont.
Proof. exact (update_policy_effect rm_mem_ok true sample_policy sample_cont sample_counts). Defined.

Lemma should_restart_balanced_witness :
  wp (restart_manager_should_restart rm_mem_ok (Some "c1"%string) true 1 false 3) (λ r c',
    r = (true, Some 100000000) ∧ c_refs c' = 1 ∧ c_state c' = new_state ∧
    ∃ rm', c_rm c' = Some rm' ∧ refcnt rm' = 1 ∧ canceled rm' = false ∧ (false = true → rm' = sample_rm)) sample_cont.
Proof.
  apply (should_restart_balanced rm_mem_ok "c1" sample_cont 1 false 3 sample_rm sample_counts eq_refl);
    [vm_compute; congruence|by left|]. by eexists _, _.
Defined.

Lemma container_restart_balanced_witness :
  let e := mk_env true true false rm_mem_ok (Some (5, 0)) (λ _, 110) (λ s, (0, container_state_set_running "now" s None true)) "now" in
  wp (container_restart e 100000000 1) (λ _ c',
    c_refs c' = 1 ∧ c_rm c' = Some sample_rm ∧
    c_state c' = container_state_set_running "now" new_state None true) sample_cont.
Proof.
  exact (container_restart_balanced (mk_env true true false rm_mem_ok (Some (5, 0)) (λ _, 110)
    (λ s, (0, container_state_set_running "now" s None true)) "now") 100000000 1 sample_cont sample_counts eq_refl eq_refl).
Defined.
End examples.
