(* ===== verification/LinkedList.v ===== *)
(** * The circular doubly linked list of [src/utils/cutils/linked_list.h]

    Nodes live in a heap; a list is a sentinel whose [next] and [prev] fields
    close a ring.  The operations are the C functions, in the failing state
    monad over the heap, and each is shown to implement the operation on
    sequences it stands for. *)
From stdpp Require Import base gmap list fin_maps numbers.
From Stdlib Require Import ZArith Lia.
From S2P Require Import Prelude RbTree.

(** [struct linked_list], field by field. *)
Record ll_heap (E : Type) := mk_heap {
  h_elem : gmap ptr (option E);
  h_next : gmap ptr ptr;
  h_prev : gmap ptr ptr
}.
Arguments mk_heap {E} _ _ _.
Arguments h_elem {E} _.
Arguments h_next {E} _.
Arguments h_prev {E} _.

Section linked_list.
Context {E : Type}.
Implicit Types (h : ll_heap E).
Let HM := M (ll_heap E).

Definition ld_next (p : ptr) : HM ptr := λ h, match h_next h !! p with Some q => Some (q, h) | None => None end.
Definition ld_prev (p : ptr) : HM ptr := λ h, match h_prev h !! p with Some q => Some (q, h) | None => None end.
Definition ld_elem (p : ptr) : HM (option E) := λ h, match h_elem h !! p with Some e => Some (e, h) | None => None end.
(** A store to a field of a node that is not allocated is undefined. *)
Definition st_next (p q : ptr) : HM unit := λ h,
  match h_next h !! p with Some _ => Some (tt, mk_heap (h_elem h) (<[p:=q]> (h_next h)) (h_prev h)) | None => None end.
Definition st_prev (p q : ptr) : HM unit := λ h,
  match h_prev h !! p with Some _ => Some (tt, mk_heap (h_elem h) (h_next h) (<[p:=q]> (h_prev h))) | None => None end.
Definition st_elem (p : ptr) (e : option E) : HM unit := λ h,
  match h_elem h !! p with Some _ => Some (tt, mk_heap (<[p:=e]> (h_elem h)) (h_next h) (h_prev h)) | None => None end.

Definition linked_list_init (list : ptr) : HM unit :=
  st_elem list None;; st_prev list list;; st_next list list.

Definition linked_list_add_elem (list : ptr) (elem : E) : HM unit := st_elem list (Some elem).

Definition linked_list_first_elem (list : ptr) : HM (option E) := n ← ld_next list; ld_elem n.
Definition linked_list_last_elem (list : ptr) : HM (option E) := n ← ld_prev list; ld_elem n.
Definition linked_list_first_node (list : ptr) : HM ptr := ld_next list.

Definition linked_list_empty (list : ptr) : HM bool := n ← ld_next list; mret (bool_decide (list = n)).

Definition __linked_list_add (newlist prev next : ptr) : HM unit :=
  st_prev next newlist;;
  st_next newlist next;;
  st_prev newlist prev;;
  st_next prev newlist.

Definition linked_list_add (head list : ptr) : HM unit := n ← ld_next head; __linked_list_add list head n.
Definition linked_list_add_tail (head list : ptr) : HM unit := p ← ld_prev head; __linked_list_add list p head.

Definition linked_list_del (list : ptr) : HM unit :=
  next ← ld_next list;
  prev ← ld_prev list;
  st_prev next prev;;
  st_next prev next.

(** The loop [linked_list_for_each], collecting the nodes it visits. *)
Fixpoint for_each (fuel : nat) (head iter : ptr) : HM (list ptr) :=
  match fuel with
  | O => fail
  | S fuel =>
    if decide (iter = head) then mret []
    else n ← ld_next iter; rest ← for_each fuel head n; mret (iter :: rest)
  end.

Definition linked_list_len (list : ptr) : HM Z := λ h,
  (n ← ld_next list; l ← for_each (S (size (h_next h))) list n; mret (u64 (Z.of_nat (length l)))) h.

(** ** Representation *)

(** The neighbours on the way from [p] through [xs] to [q]. *)
Fixpoint chain (p : ptr) (xs : list ptr) (q : ptr) : list (ptr * ptr) :=
  match xs with [] => [(p, q)] | x :: xs => (p, x) :: chain x xs q end.

(** The same without the last pair, and the node before [q]. *)
Fixpoint links (p : ptr) (xs : list ptr) : list (ptr * ptr) :=
  match xs with [] => [] | x :: xs => (p, x) :: links x xs end.
Fixpoint last_node (p : ptr) (xs : list ptr) : ptr :=
  match xs with [] => p | x :: xs => last_node x xs end.

Definition linked h (x : ptr * ptr) : Prop := h_next h !! x.1 = Some x.2 ∧ h_prev h !! x.2 = Some x.1.

(** [dll h head l]: [head] is the sentinel of a ring of distinct nodes that
    hold the elements of [l]. *)
Record dll h (head : ptr) (l : list (ptr * E)) : Prop := {
  dll_nodup : NoDup (head :: l.*1);
  dll_ring : Forall (linked h) (chain head l.*1 head);
  dll_elems : Forall (λ x, h_elem h !! x.1 = Some (Some x.2)) l
}.

Lemma chain_links p xs q : chain p xs q = links p xs ++ [(last_node p xs, q)].
Proof. revert p. induction xs as [|x xs IH]; intros p; simpl; [done|]. by rewrite IH. Qed.

Lemma chain_app p xs x ys q : chain p (xs ++ x :: ys) q = chain p xs x ++ chain x ys q.
Proof. revert p. induction xs as [|y xs IH]; intros p; simpl; [done|]. by rewrite IH. Qed.

Lemma chain_links_app p xs ys q : chain p (xs ++ ys) q = links p xs ++ chain (last_node p xs) ys q.
Proof. revert p. induction xs as [|y xs IH]; intros p; simpl; [done|]. by rewrite IH. Qed.

Lemma chain_fst p xs q : (chain p xs q).*1 = p :: xs.
Proof. revert p. induction xs as [|x xs IH]; intros p; simpl; [done|]. by rewrite IH. Qed.

Lemma chain_snd p xs q : (chain p xs q).*2 = xs ++ [q].
Proof. revert p. induction xs as [|x xs IH]; intros p; simpl; [done|]. by rewrite IH. Qed.

(** ** Updates of a set of links *)

(** Links that start at other nodes survive a store to [next], links that end
    at other nodes a store to [prev]. *)
Lemma linked_frame h h' (l : list (ptr * ptr)) :
  (∀ a, a ∈ l.*1 → h_next h' !! a = h_next h !! a) → (∀ b, b ∈ l.*2 → h_prev h' !! b = h_prev h !! b) →
  Forall (linked h) l → Forall (linked h') l.
Proof.
  intros Hn Hp Hl. apply list.Forall_forall. intros [a b] Hx. rewrite list.Forall_forall in Hl. destruct (Hl _ Hx) as [H1 H2].
  split; simpl in *; [rewrite Hn|rewrite Hp]; try done.
  - by apply (list_elem_of_fmap_2 fst) in Hx.
  - by apply (list_elem_of_fmap_2 snd) in Hx.
Qed.

Lemma wp_st_next p q h (Q : unit → ll_heap E → Prop) :
  is_Some (h_next h !! p) → Q tt (mk_heap (h_elem h) (<[p:=q]> (h_next h)) (h_prev h)) → wp (st_next p q) Q h.
Proof. unfold wp, st_next. by intros [? ->]. Qed.

Lemma wp_st_prev p q h (Q : unit → ll_heap E → Prop) :
  is_Some (h_prev h !! p) → Q tt (mk_heap (h_elem h) (h_next h) (<[p:=q]> (h_prev h))) → wp (st_prev p q) Q h.
Proof. unfold wp, st_prev. by intros [? ->]. Qed.

Lemma wp_st_elem p e h (Q : unit → ll_heap E → Prop) :
  is_Some (h_elem h !! p) → Q tt (mk_heap (<[p:=e]> (h_elem h)) (h_next h) (h_prev h)) → wp (st_elem p e) Q h.
Proof. unfold wp, st_elem. by intros [? ->]. Qed.

Lemma wp_ld_next p q h (Q : ptr → ll_heap E → Prop) : h_next h !! p = Some q → Q q h → wp (ld_next p) Q h.
Proof. unfold wp, ld_next. by intros ->. Qed.

Lemma wp_ld_prev p q h (Q : ptr → ll_heap E → Prop) : h_prev h !! p = Some q → Q q h → wp (ld_prev p) Q h.
Proof. unfold wp, ld_prev. by intros ->. Qed.

(** No store makes a node appear or vanish. *)
Definition same_nodes h h' : Prop :=
  ∀ p, (is_Some (h_next h' !! p) ↔ is_Some (h_next h !! p)) ∧ (is_Some (h_prev h' !! p) ↔ is_Some (h_prev h !! p)).

(** Splitting a duplicate-free list of links at one link. *)
Lemma nodup_split (A B : list (ptr * ptr)) a b :
  NoDup (A ++ (a, b) :: B).*1 → NoDup (A ++ (a, b) :: B).*2 →
  (a ∉ (A ++ B).*1) ∧ (b ∉ (A ++ B).*2).
Proof. rewrite <- !Permutation_middle. simpl. rewrite !list.NoDup_cons. tauto. Qed.

Lemma add_links h new prev next A B (Q : unit → ll_heap E → Prop) :
  Forall (linked h) (A ++ (prev, next) :: B) →
  NoDup (A ++ (prev, next) :: B).*1 → NoDup (A ++ (prev, next) :: B).*2 →
  new ∉ (A ++ (prev, next) :: B).*1 → new ∉ (A ++ (prev, next) :: B).*2 →
  is_Some (h_next h !! new) → is_Some (h_prev h !! new) →
  (∀ h', h_elem h' = h_elem h → same_nodes h h' →
     Forall (linked h') (A ++ (prev, new) :: (new, next) :: B) → Q tt h') →
  wp (__linked_list_add new prev next) Q h.
Proof.
  intros Hl H1 H2 N1 N2 S1 S2 HQ. destruct (nodup_split _ _ _ _ H1 H2) as [Ha Hb].
  rewrite Forall_app, list.Forall_cons in Hl. destruct Hl as (HA & [Hpn Hpp] & HB). simpl in Hpn, Hpp.
  rewrite fmap_app, fmap_cons, elem_of_app, elem_of_cons in N1, N2. simpl in N1, N2.
  rewrite fmap_app, elem_of_app in Ha, Hb.
  assert (prev ≠ new ∧ next ≠ new) as [D1 D2] by (split; intros ->; tauto).
  unfold __linked_list_add. apply wp_bind, wp_st_prev; [by eexists|]. apply wp_bind, wp_st_next; [done|].
  apply wp_bind, wp_st_prev; [simpl; rewrite lookup_insert_ne by done; done|].
  assert (is_Some (<[new:=next]> (h_next h) !! prev)) by (rewrite lookup_insert_ne by done; by eexists).
  apply wp_st_next; [done|]. apply HQ; [done| |].
  { intros c. simpl. rewrite !lookup_insert_is_Some'. split; split; try tauto; by intros [->|[->|?]]; eauto. }
  rewrite Forall_app, !list.Forall_cons. split_and!.
  - apply (linked_frame h); [..|done]; simpl; intros c Hc; rewrite !lookup_insert_ne; (done || intros ->; tauto).
  - split; simpl; rewrite lookup_insert_eq; done.
  - split; simpl; rewrite lookup_insert_ne by done; by rewrite lookup_insert_eq.
  - apply (linked_frame h); [..|done]; simpl; intros c Hc; rewrite !lookup_insert_ne; (done || intros ->; tauto).
Qed.

Lemma del_links h x prev next A B (Q : unit → ll_heap E → Prop) :
  Forall (linked h) (A ++ (prev, x) :: (x, next) :: B) →
  NoDup (A ++ (prev, x) :: (x, next) :: B).*1 → NoDup (A ++ (prev, x) :: (x, next) :: B).*2 →
  (∀ h', h_elem h' = h_elem h → same_nodes h h' → Forall (linked h') (A ++ (prev, next) :: B) → Q tt h') →
  wp (linked_list_del x) Q h.
Proof.
  intros Hl H1 H2 HQ. destruct (nodup_split _ _ _ _ H1 H2) as [Ha _].
  rewrite (cons_middle (prev, x)), app_assoc in H1, H2. destruct (nodup_split _ _ _ _ H1 H2) as [_ Hb].
  rewrite Forall_app, !list.Forall_cons in Hl. destruct Hl as (HA & [Hpx Hxp] & [Hxn Hnx] & HB). simpl in Hpx, Hxp, Hxn, Hnx.
  rewrite fmap_app, fmap_cons, elem_of_app, elem_of_cons in Ha. rewrite !fmap_app, !elem_of_app in Hb.
  apply wp_bind. eapply wp_ld_next; [done|]. apply wp_bind. eapply wp_ld_prev; [done|].
  apply wp_bind, wp_st_prev; [by eexists|]. apply wp_st_next; [by eexists|].
  apply HQ; [done|intros c; simpl; rewrite !lookup_insert_is_Some'; split; split; try tauto; by intros [->|?]; eauto|]. rewrite Forall_app, list.Forall_cons. split_and!.
  - apply (linked_frame h); [..|done]; simpl; intros c Hc; rewrite !lookup_insert_ne; (done || intros ->; tauto).
  - split; simpl; by rewrite lookup_insert_eq.
  - apply (linked_frame h); [..|done]; simpl; intros c Hc; rewrite !lookup_insert_ne; (done || intros ->; tauto).
Qed.

(** ** The operations on sequences *)
Lemma dll_links h head l : dll h head l →
  NoDup (chain head l.*1 head).*1 ∧ NoDup (chain head l.*1 head).*2.
Proof.
  intros [Hn _ _]. rewrite chain_fst, chain_snd. split; [done|]. by rewrite <- Permutation_cons_append.
Qed.

(** A node that is allocated, holds [e] and is not in the list. *)
Record spare h (head : ptr) (l : list (ptr * E)) (new : ptr) (e : E) : Prop := {
  sp_elem : h_elem h !! new = Some (Some e);
  sp_next : is_Some (h_next h !! new);
  sp_prev : is_Some (h_prev h !! new);
  sp_new : new ∉ head :: l.*1
}.

Lemma spare_links h head l new e : spare h head l new e →
  (new ∉ (chain head l.*1 head).*1) ∧ (new ∉ (chain head l.*1 head).*2).
Proof. intros [_ _ _ Hn]. rewrite chain_fst, chain_snd. split; [done|]. by rewrite <- Permutation_cons_append. Qed.

Lemma linked_list_add_tail_spec h head l new e :
  dll h head l → spare h head l new e →
  wp (linked_list_add_tail head new) (λ _ h', dll h' head (l ++ [(new, e)]) ∧ same_nodes h h') h.
Proof.
  intros Hd Hs. destruct (dll_links _ _ _ Hd) as [N1 N2]. destruct (spare_links _ _ _ _ _ Hs) as [F1 F2].
  destruct Hd as [Hn Hr He], Hs as [S1 S2 S3 S4]. rewrite chain_links in *.
  apply wp_bind. eapply wp_ld_prev.
  { rewrite Forall_app in Hr. destruct Hr as [_ [[_ Hp] _]%list.Forall_cons]. exact Hp. }
  eapply (add_links h new _ head (links head l.*1) []); try done. intros h' Hel Hsn Hl. split; [split|done].
  - rewrite fmap_app. simpl. rewrite app_comm_cons, <- Permutation_cons_append. by apply list.NoDup_cons.
  - rewrite fmap_app. simpl. rewrite chain_app, chain_links. simpl. by rewrite <- app_assoc.
  - rewrite Forall_app, Hel. split; [done|]. by constructor.
Qed.

Lemma linked_list_add_spec h head l new e :
  dll h head l → spare h head l new e →
  wp (linked_list_add head new) (λ _ h', dll h' head ((new, e) :: l) ∧ same_nodes h h') h.
Proof.
  intros Hd Hs. destruct (dll_links _ _ _ Hd) as [N1 N2]. destruct (spare_links _ _ _ _ _ Hs) as [F1 F2].
  destruct Hd as [Hn Hr He], Hs as [S1 S2 S3 S4].
  assert (∃ n B, chain head l.*1 head = (head, n) :: B ∧ chain new l.*1 head = (new, n) :: B) as (n & B & E1 & E2).
  { destruct l as [|[x ex] l]; simpl; by eexists _, _. }
  rewrite E1 in *. apply wp_bind. eapply wp_ld_next; [by apply list.Forall_cons in Hr as [[Hp _] _]|].
  eapply (add_links h new head n [] B); try done. intros h' Hel Hsn Hl. split; [split|done].
  - simpl. rewrite list.NoDup_cons in Hn |- *. rewrite not_elem_of_cons in S4. rewrite list.NoDup_cons, not_elem_of_cons. naive_solver.
  - rewrite fmap_cons. cbn [fst chain]. by rewrite E2.
  - rewrite list.Forall_cons, Hel. done.
Qed.

Lemma linked_list_del_spec h head l1 x e l2 :
  dll h head (l1 ++ (x, e) :: l2) → wp (linked_list_del x) (λ _ h', dll h' head (l1 ++ l2) ∧ h_elem h' = h_elem h ∧ same_nodes h h') h.
Proof.
  intros Hd. destruct (dll_links _ _ _ Hd) as [N1 N2]. destruct Hd as [Hn Hr He].
  rewrite fmap_app, fmap_cons in *. simpl fst in *. rewrite chain_app, chain_links in *.
  assert (∃ n B, chain x l2.*1 head = (x, n) :: B ∧ ∀ p, chain p l2.*1 head = (p, n) :: B) as (n & B & E1 & E2).
  { destruct l2 as [|[y ey] l2]; simpl; by eexists _, _. }
  rewrite E1, <- app_assoc in *. eapply (del_links h x _ n _ B); [exact Hr|exact N1|exact N2|]. intros h' Hel Hsn Hl.
  split; [split|done].
  - rewrite fmap_app. rewrite <- Permutation_middle in Hn. rewrite !list.NoDup_cons, not_elem_of_cons in Hn.
    rewrite list.NoDup_cons. tauto.
  - by rewrite fmap_app, chain_links_app, E2.
  - rewrite Hel. rewrite Forall_app, list.Forall_cons in He. rewrite Forall_app. tauto.
Qed.

(** The node after the sentinel, the sentinel itself for an empty list. *)
Definition first_of (hd : ptr) (l : list (ptr * E)) : ptr := match l with [] => hd | x :: _ => x.1 end.

Lemma dll_first h hd l : dll h hd l → h_next h !! hd = Some (first_of hd l).
Proof. intros [_ Hr _]. destruct l as [|[x e] l]; simpl in *; apply list.Forall_cons in Hr as [[Hp _] _]; exact Hp. Qed.

Lemma linked_list_empty_spec h hd l :
  dll h hd l → wp (linked_list_empty hd) (λ b h', h' = h ∧ b = bool_decide (l = [])) h.
Proof.
  intros Hd. apply wp_bind. eapply wp_ld_next; [by apply dll_first|]. apply wp_ret. split; [done|].
  apply bool_decide_ext. destruct Hd as [Hn _ _]. destruct l as [|[x e] l]; simpl in *; [done|].
  apply list.NoDup_cons in Hn as [Hn _]. split; [intros ->; set_solver|done].
Qed.

Lemma for_each_spec fuel h hd l1 l2 :
  dll h hd (l1 ++ l2) → length l2 < fuel → wp (for_each fuel hd (first_of hd l2)) (λ r h', h' = h ∧ r = l2.*1) h.
Proof.
  intros Hd. revert l1 l2 Hd. induction fuel as [|fuel IH]; [lia|]. intros l1 l2 Hd Hf. simpl.
  destruct l2 as [|[x e] l2]; simpl first_of; [by rewrite decide_True|].
  rewrite decide_False.
  2: { destruct Hd as [Hn _ _]. apply list.NoDup_cons in Hn as [Hn _]. rewrite fmap_app, fmap_cons in Hn.
       intros ->. apply Hn, elem_of_app. right. by left. }
  apply wp_bind. eapply (wp_ld_next _ (first_of hd l2)).
  { destruct Hd as [_ Hr _]. rewrite fmap_app, fmap_cons, chain_app, Forall_app in Hr. destruct Hr as [_ Hr].
    destruct l2 as [|[y e'] l2]; apply list.Forall_cons in Hr as [[Hp _] _]; exact Hp. }
  apply wp_bind. eapply wp_mono; [apply (IH (l1 ++ [(x, e)])); [by rewrite <- app_assoc|simpl in Hf; lia]|].
  intros r h' (-> & ->). by apply wp_ret.
Qed.

Lemma dll_size h hd l : dll h hd l → length l < S (size (h_next h)).
Proof.
  intros Hd. apply Nat.lt_succ_r. rewrite <- size_dom. transitivity (size (list_to_set (l.*1) : gset ptr)).
  { destruct Hd as [Hn _ _]. apply list.NoDup_cons in Hn as [_ Hn]. by rewrite size_list_to_set, length_fmap. }
  apply subseteq_size. intros q. rewrite elem_of_list_to_set, elem_of_dom. intros Hq.
  destruct Hd as [_ Hr _]. assert (Hc : q ∈ (chain hd l.*1 hd).*1) by (rewrite chain_fst; by right).
  apply list_elem_of_fmap in Hc as ([a b] & -> & Hc). rewrite list.Forall_forall in Hr. destruct (Hr _ Hc). by eexists.
Qed.

Lemma linked_list_len_spec h hd l :
  dll h hd l → wp (linked_list_len hd) (λ n h', h' = h ∧ n = u64 (Z.of_nat (length l))) h.
Proof.
  intros Hd. unfold linked_list_len, wp. apply wp_bind. eapply wp_ld_next; [by apply dll_first|].
  apply wp_bind. eapply wp_mono; [apply (for_each_spec _ h hd [] l); [done|by apply (dll_size _ hd)]|].
  intros r h' (-> & ->). apply wp_ret. by rewrite length_fmap.
Qed.
End linked_list.

(** ** A first-in first-out queue *)
Class Queue (E Q : Type) := {
  q_models : Q → list E → Prop;
  q_push : E → M Q unit;
  q_pop : M Q (option E);
  q_push_ok q l e : q_models q l → wp (q_push e) (λ _ q', q_models q' (l ++ [e])) q;
  q_pop_ok q l : q_models q l →
    wp q_pop (λ r q', match l with [] => r = None ∧ q_models q' [] | e :: l => r = Some e ∧ q_models q' l end) q
}.

(** A list with its sentinel and the next free address. *)
Record ll_queue (E : Type) := mk_queue { lq_heap : ll_heap E; lq_head : ptr; lq_next : ptr }.
Arguments mk_queue {E} _ _ _.
Arguments lq_heap {E} _.
Arguments lq_head {E} _.
Arguments lq_next {E} _.

Section queue.
Context {E : Type}.
Implicit Types (q : ll_queue E).

Definition on_heap {A} (f : M (ll_heap E) A) : M (ll_queue E) A := λ q,
  match f (lq_heap q) with Some (a, h) => Some (a, mk_queue h (lq_head q) (lq_next q)) | None => None end.

(** [calloc] of a node: a fresh address with zeroed fields. *)
Definition ll_calloc : M (ll_queue E) ptr := λ q,
  let p := lq_next q in
  let h := lq_heap q in
  Some (p, mk_queue (mk_heap (<[p:=None]> (h_elem h)) (<[p:=NULL]> (h_next h)) (<[p:=NULL]> (h_prev h)))
             (lq_head q) (N.succ p)).

Definition ll_free (p : ptr) : M (ll_queue E) unit := λ q,
  let h := lq_heap q in
  Some (tt, mk_queue (mk_heap (delete p (h_elem h)) (delete p (h_next h)) (delete p (h_prev h))) (lq_head q) (lq_next q)).

(** The idiom of the list's clients for appending an element. *)
Definition ll_push (e : E) : M (ll_queue E) unit :=
  it ← ll_calloc;
  on_heap (linked_list_init it);;
  on_heap (linked_list_add_elem it e);;
  q ← get;
  on_heap (linked_list_add_tail (lq_head q) it).

(** The idiom for taking the first element. *)
Definition ll_pop : M (ll_queue E) (option E) :=
  q ← get;
  empty ← on_heap (linked_list_empty (lq_head q));
  if (empty : bool) then mret None else
  it ← on_heap (linked_list_first_node (lq_head q));
  on_heap (linked_list_del it);;
  e ← on_heap (ld_elem it);
  ll_free it;;
  mret e.

(** Every allocated node is below the next free address. *)
Record ll_models q (l : list E) : Prop := {
  lm_list : ∃ xs, dll (lq_heap q) (lq_head q) xs ∧ xs.*2 = l;
  lm_fresh p : is_Some (h_next (lq_heap q) !! p) → (p < lq_next q)%N
}.

Lemma dll_frame (h h' : ll_heap E) hd l :
  (∀ p, p ∈ hd :: l.*1 → h_next h' !! p = h_next h !! p ∧ h_prev h' !! p = h_prev h !! p ∧ h_elem h' !! p = h_elem h !! p) →
  dll h hd l → dll h' hd l.
Proof.
  intros Hf [Hn Hr He]. split; [done| |].
  - apply (linked_frame h); [..|done].
    + rewrite chain_fst. intros a Ha. by apply Hf.
    + rewrite chain_snd. intros a Ha. rewrite <- Permutation_cons_append in Ha. by apply Hf.
  - apply list.Forall_forall. intros x Hx. rewrite list.Forall_forall in He. rewrite <- (He x Hx). apply Hf. right.
    by apply (list_elem_of_fmap_2 fst) in Hx.
Qed.

Lemma dll_live (h : ll_heap E) hd l p : dll h hd l → p ∈ hd :: l.*1 → is_Some (h_next h !! p).
Proof.
  intros [_ Hr _] Hp. rewrite <- (chain_fst hd l.*1 hd) in Hp. apply list_elem_of_fmap in Hp as ([a b] & -> & Hp).
  rewrite list.Forall_forall in Hr. destruct (Hr _ Hp). by eexists.
Qed.

Lemma wp_on_heap {A} (f : M (ll_heap E) A) (Q : A → ll_queue E → Prop) q :
  wp f (λ a h, Q a (mk_queue h (lq_head q) (lq_next q))) (lq_heap q) → wp (on_heap f) Q q.
Proof. unfold wp, on_heap. by destruct (f (lq_heap q)) as [[]|]. Qed.


Lemma ll_push_ok q l e : ll_models q l → wp (ll_push e) (λ _ q', ll_models q' (l ++ [e])) q.
Proof.
  intros [(xs & Hd & <-) Hf]. set (p := lq_next q).
  assert (Hp : p ∉ lq_head q :: xs.*1) by (intros Hin; apply (dll_live _ _ _ _ Hd), Hf in Hin; unfold p in Hin; lia).
  unfold ll_push. apply wp_bind. unfold wp at 1, ll_calloc. fold p. cbv zeta beta iota.
  apply wp_bind, wp_on_heap. unfold linked_list_init. simpl lq_heap.
  apply wp_bind, wp_st_elem; [simpl; rewrite lookup_insert_eq; by eexists|].
  apply wp_bind, wp_st_prev; [simpl; rewrite lookup_insert_eq; by eexists|].
  apply wp_st_next; [simpl; rewrite lookup_insert_eq; by eexists|].
  apply wp_bind, wp_on_heap, wp_st_elem; [simpl; rewrite lookup_insert_eq; by eexists|].
  apply wp_bind, wp_get, wp_on_heap. simpl. eapply wp_mono; [eapply (linked_list_add_tail_spec _ _ xs p e)|].
  - eapply dll_frame; [|exact Hd]. intros a Ha. simpl. assert (p ≠ a) by (by intros ->).
    by rewrite !lookup_insert_ne.
  - split; simpl; rewrite ?lookup_insert_eq; by eauto.
  - intros [] h' [Hd' Hsn]. split; simpl.
    + eexists. split; [exact Hd'|]. by rewrite fmap_app.
    + intros a Ha%(proj1 (Hsn a)). simpl in Ha. rewrite !lookup_insert_is_Some in Ha. fold p.
      destruct Ha as [<-|[_ [<-|[_ Ha%Hf]]]]; lia.
Qed.

Lemma ll_pop_ok q l :
  ll_models q l →
  wp ll_pop (λ r q', match l with [] => r = None ∧ ll_models q' [] | e :: l => r = Some e ∧ ll_models q' l end) q.
Proof.
  intros Hm. pose proof Hm as [(xs & Hd & <-) Hf]. unfold ll_pop. apply wp_bind, wp_get, wp_bind, wp_on_heap.
  eapply wp_mono; [by apply linked_list_empty_spec|]. intros b h (-> & ->). destruct xs as [|[x e] xs].
  { rewrite bool_decide_true by done. apply wp_ret. by destruct q. }
  rewrite bool_decide_false by done. apply wp_bind, wp_on_heap. simpl lq_heap.
  eapply wp_ld_next; [by apply dll_first|]. simpl first_of. apply wp_bind, wp_on_heap. simpl lq_heap.
  eapply wp_mono; [by apply (linked_list_del_spec _ (lq_head q) [] x e xs)|]. intros [] h' (Hd' & Hel & Hsn).
  apply wp_bind, wp_on_heap. simpl lq_heap. destruct Hd as [Hn _ He].
  apply list.Forall_cons in He as [He _]. simpl in He.
  unfold wp at 1, ld_elem. rewrite Hel, He. simpl. split; [done|]. split; simpl.
  - exists xs. split; [|done]. eapply dll_frame; [|exact Hd']. intros a Ha. simpl.
    assert (x ≠ a). { intros ->. simpl in Hn. rewrite !list.NoDup_cons, not_elem_of_cons in Hn. set_solver. }
    by rewrite !lookup_delete_ne.
  - intros a Ha. apply Hf, (proj1 (Hsn a)). rewrite lookup_delete_is_Some in Ha. apply Ha.
Qed.

#[global] Instance linked_list_queue : Queue E (ll_queue E) := {
  q_models := ll_models; q_push := ll_push; q_pop := ll_pop; q_push_ok := ll_push_ok; q_pop_ok := ll_pop_ok }.
End queue.

(** The list as a queue: the elements leave in the order in which they were
    appended, whatever the order of the calls. *)
Inductive queue_op (E : Type) := Push (e : E) | Pop.
Arguments Push {E} _.
Arguments Pop {E}.

Section fifo.
Context {E : Type}.

Fixpoint queue_run (ops : list (queue_op E)) : M (ll_queue E) (list (option E)) :=
  match ops with
  | [] => mret []
  | Push e :: ops => ll_push e;; queue_run ops
  | Pop :: ops => r ← ll_pop; rs ← queue_run ops; mret (r :: rs)
  end.

Fixpoint queue_spec (ops : list (queue_op E)) (l : list E) : list (option E) * list E :=
  match ops with
  | [] => ([], l)
  | Push e :: ops => queue_spec ops (l ++ [e])
  | Pop :: ops => let '(rs, l') := queue_spec ops (tail l) in (head l :: rs, l')
  end.

(** An empty list: a sentinel linked to itself. *)
Definition empty_queue : ll_queue E :=
  mk_queue (mk_heap {[1%N := None]} {[1%N := 1%N]} {[1%N := 1%N]}) 1 2.

Lemma empty_queue_ok : ll_models empty_queue [].
Proof.
  split.
  - exists []. split; [|done]. split; simpl.
    + constructor; [|constructor]. apply not_elem_of_nil.
    + constructor; [|constructor]. done.
    + constructor.
  - intros p. simpl. rewrite lookup_singleton_is_Some. intros <-. lia.
Qed.

Lemma queue_run_ok ops q l :
  ll_models q l → wp (queue_run ops) (λ rs q', rs = (queue_spec ops l).1 ∧ ll_models q' (queue_spec ops l).2) q.
Proof.
  revert q l. induction ops as [|[e|] ops IH]; intros q l Hm; simpl; [by apply wp_ret|..]; apply wp_bind.
  - eapply wp_mono; [by apply ll_push_ok|]. intros [] q' Hm'. by apply IH.
  - eapply wp_mono; [by apply ll_pop_ok|]. intros r q' Hr. apply wp_bind.
    assert (r = head l ∧ ll_models q' (tail l)) as [-> Hm'] by (by destruct l).
    eapply wp_mono; [by apply IH|]. intros rs q'' [-> Hm'']. apply wp_ret. by destruct (queue_spec ops (tail l)).
Qed.

(** [linked_list.h] implements a queue: any sequence of appending
    ([linked_list_init], [linked_list_add_elem], [linked_list_add_tail] on a
    fresh node) and taking ([linked_list_empty], [linked_list_first_node],
    [linked_list_del], free) runs without touching a freed node and returns the
    elements in the order in which they were appended. *)
Theorem linked_list_fifo ops :
  wp (queue_run ops) (λ rs q', rs = (queue_spec ops []).1 ∧ ll_models q' (queue_spec ops []).2) empty_queue.
Proof. apply queue_run_ok, empty_queue_ok. Qed.

(** [linked_list_add], [linked_list_del] and [linked_list_len] on any list: a
    push at the front, the removal of an inner node and the number of nodes. *)
Theorem linked_list_edit (h : ll_heap E) hd l1 x e l2 new e' :
  dll h hd (l1 ++ (x, e) :: l2) → spare h hd (l1 ++ (x, e) :: l2) new e' →
  wp (linked_list_add hd new) (λ _ h', dll h' hd ((new, e') :: l1 ++ (x, e) :: l2)) h ∧
  wp (linked_list_del x) (λ _ h', dll h' hd (l1 ++ l2)) h ∧
  wp (linked_list_len hd) (λ n h', h' = h ∧ n = u64 (Z.of_nat (S (length l1 + length l2)))) h.
Proof.
  intros Hd Hs. split_and!.
  - eapply wp_mono; [by apply linked_list_add_spec|]. by intros ? ? [? _].
  - eapply wp_mono; [by apply (linked_list_del_spec h hd l1 x e l2)|]. by intros ? ? [? _].
  - eapply wp_mono; [by apply linked_list_len_spec|]. intros n h' [-> ->]. split; [done|].
    rewrite length_app. simpl. do 2 f_equal. lia.
Qed.
End fifo.

(** A concrete list of one node, with a second node to insert. *)
Definition sample_heap : ll_heap N :=
  mk_heap {[1%N := None; 2%N := Some 20%N; 3%N := Some 30%N]} {[1%N := 2%N; 2%N := 1%N; 3%N := 3%N]}
    {[1%N := 2%N; 2%N := 1%N; 3%N := 3%N]}.

Lemma sample_heap_ok : dll sample_heap 1 [(2%N, 20%N)] ∧ spare sample_heap 1 [(2%N, 20%N)] 3 30%N.
Proof.
  split; split; simpl.
  - apply (bool_decide_unpack _). by vm_compute.
  - repeat constructor.
  - by repeat constructor.
  - done.
  - by eexists.
  - by eexists.
  - apply (bool_decide_unpack _). by vm_compute.
Qed.

Lemma linked_list_edit_witness :
  wp (linked_list_add 1 3) (λ _ h', dll h' 1 [(3%N, 30%N); (2%N, 20%N)]) sample_heap ∧
  wp (linked_list_del 2) (λ _ h', dll h' 1 []) sample_heap ∧
  wp (linked_list_len 1) (λ n h', h' = sample_heap ∧ n = u64 (Z.of_nat 1)) sample_heap.
Proof.
  exact (linked_list_edit sample_heap 1 [] 2 20%N [] 3 30%N (proj1 sample_heap_ok) (proj2 sample_heap_ok)).
Defined.
