(* ===== verification/EventsHandler.v ===== *)
(** * The event handler of a container

    [src/daemon/modules/container/container_events_handler.c] with the event
    copies of [src/daemon/common/events_format.c] and [set_container_to_removal]
    of [src/daemon/modules/service/service_container.c].  Events of a container
    are queued under the handler's mutex; the first one starts a thread that
    takes events from the queue until it is empty.  The queue is the interface
    [Queue], implemented by [LinkedList]. *)
From stdpp Require Import base list numbers strings relations.
From Stdlib Require Import ZArith Lia.
From S2P Require Import Prelude ContainerState RestartManager LinkedList.

Local Open Scope Z_scope.

(** ** Events *)
Definition EVENTS_TYPE_STOPPED1 : Z := 1.
Definition EVENTS_TYPE_OOM : Z := 9.

Record types_timestamp := mk_ts { has_seconds : bool; seconds : Z; has_nanos : bool; nanos : Z }.

(** [struct isulad_events_format]. *)
Record event := mk_event {
  ev_timestamp : types_timestamp;
  ev_has_type : Z;
  ev_type : Z;
  ev_opt : option string;
  ev_id : option string;
  ev_annotations : list (option string);
  ev_has_pid : Z;
  ev_pid : Z;
  ev_has_exit_status : Z;
  ev_exit_status : Z
}.

(** The zeroed object of [calloc]. *)
Definition zero_event : event := mk_event (mk_ts false 0 false 0) 0 0 None None [] 0 0 0 0.

(** [mem]: the allocation of the array of annotations. *)
Definition event_copy (mem : bool) (src dest : event) : Z * event :=
  let id := match ev_id src with Some _ => ev_id src | None => ev_id dest end in
  let opt := match ev_opt src with Some _ => ev_opt src | None => ev_opt dest end in
  let rest annotations :=
    mk_event (ev_timestamp src) (ev_has_type src) (ev_type src) opt id annotations
      (ev_has_pid src) (ev_pid src) (ev_has_exit_status src) (ev_exit_status src) in
  match ev_annotations src with
  | [] => (0, rest (ev_annotations dest))
  | _ :: _ =>
    if mem then (0, rest (ev_annotations src))
    else (-1, mk_event (ev_timestamp src) (ev_has_type dest) (ev_type dest) opt id []
                (ev_has_pid dest) (ev_pid dest) (ev_has_exit_status dest) (ev_exit_status dest))
  end.

Definition dup_event (mem mem_annotations : bool) (ev : option event) : option event :=
  match ev with
  | None => None
  | Some ev =>
    match ev_id ev with
    | None => None
    | Some _ =>
      if mem then
        match event_copy mem_annotations ev zero_event with
        | (0, out) => Some out
        | _ => None
        end
      else None
    end
  end.

(** A copy equals the original. *)
Lemma dup_event_same mem mem_annotations ev out :
  dup_event mem mem_annotations (Some ev) = Some out → out = ev.
Proof.
  unfold dup_event, event_copy. destruct ev as [ts ht ty opt [id|] ann hp pid he es]; simpl; [|done].
  destruct mem; [|done]. destruct ann as [|a ann]; simpl; [intros [= <-]; by destruct opt|].
  destruct mem_annotations; [|done]. intros [= <-]. by destruct opt.
Qed.

(** ** What an event does to its container *)
Definition set_container_to_removal (s : container_state) : Z * container_state :=
  let '(removal_progress, s) := container_state_set_removal_in_progress s in
  (if removal_progress then -1 else 0, s).

(** The surroundings of [container_state_changed]: the manager's allocations,
    whether the container is found by its id, the seconds since its start, the
    current time, whether the restart thread is created, the removal flag of
    the host configuration, and the results of saving and deleting. *)
Record change_env := mk_change_env {
  ce_mem : rm_mem;
  ce_found : bool;
  ce_since : option string → Z;
  ce_now : string;
  ce_thread_mem : bool;
  ce_create : Z;
  ce_auto_remove : option bool;
  ce_to_disk : Z;
  ce_delete : Z
}.

(** A stop of the process: the return value, and the restart thread that was
    started (its delay and the exit code it will report). *)
Definition handle_stopped (e : change_env) (ev : event) : M cont (Z * option (Z * Z)) :=
  c ← get;
  if negb (container_is_running (c_state c)) then mret (0, None) else
  if negb (container_state_get_pid (c_state c) =? i32 (ev_pid ev)) then mret (0, None) else
  let started_at := container_state_get_started_at (c_state c) in
  let manual := container_state_get_has_been_manual_stopped (c_state c) in
  '(should_restart, timeout) ← restart_manager_should_restart (ce_mem e) (ev_id ev) (ce_found e)
      (ev_exit_status ev) manual (ce_since e started_at);
  let code := i32 (ev_exit_status ev) in
  thread ←
    (if (should_restart : bool) then
       (λ c, match container_state_increase_restart_count (c_state c) with
             | Some s => Some (tt, mk_cont s (c_refs c) (c_rm c) (c_policy c) (c_stop_broadcasts c))
             | None => None
             end);;
       on_state (λ s, (tt, container_state_set_restarting (ce_now e) s code));;
       modify (λ c, mk_cont (c_state c) (c_refs c) (c_rm c) (c_policy c) (S (c_stop_broadcasts c)));;
       let delay := default 0 timeout in
       mret (if container_restart_in_thread (ev_id ev) (ce_thread_mem e) (ce_create e) =? 0
             then Some (delay, code) else None)
     else set_stopped (ce_now e) code;; mret None);
  let auto_remove := negb should_restart && match ce_auto_remove e with Some b => b | None => false end in
  ret ← (if auto_remove then on_state set_container_to_removal else mret 0);
  if negb (ce_to_disk e =? 0) then mret (-1, thread) else
  if auto_remove then mret ((if ce_delete e =? 0 then 0 else -1), thread) else mret (ret, thread).

Definition container_state_changed (e : change_env) (ev : event) : M cont (Z * option (Z * Z)) :=
  if negb (ev_type ev =? EVENTS_TYPE_STOPPED1) && negb (ev_type ev =? EVENTS_TYPE_OOM) then mret (0, None) else
  if ev_type ev =? EVENTS_TYPE_STOPPED1 then handle_stopped e ev else
  on_state (λ s, (tt, container_state_set_oom_killed s));; mret (0, None).

(** ** The queue *)
Record handler (Q : Type) := mk_handler {
  locked : bool;
  events_list : Q;
  has_handler : bool;
  spawned : nat                      (** threads started so far *)
}.
Arguments mk_handler {Q} _ _ _ _.
Arguments locked {Q} _.
Arguments events_list {Q} _.
Arguments has_handler {Q} _.
Arguments spawned {Q} _.

Section handler.
Context {Q : Type} {QU : Queue event Q}.
Let HM := M (handler Q).

Definition events_handler_lock : HM unit := λ h,
  if locked h then None else Some (tt, mk_handler true (events_list h) (has_handler h) (spawned h)).
(** Unlocking a mutex that is not locked is undefined. *)
Definition events_handler_unlock : HM unit := λ h,
  if locked h then Some (tt, mk_handler false (events_list h) (has_handler h) (spawned h)) else None.

Definition on_events {A} (f : M Q A) : HM A := λ h,
  match f (events_list h) with Some (a, q) => Some (a, mk_handler (locked h) q (has_handler h) (spawned h)) | None => None end.

(** [found]: the container exists; [mem_it], [mem_dup], [mem_annotations]: the
    allocations; [create]: the result of [pthread_create]. *)
Definition container_events_handler_post_events (found mem_it mem_dup mem_annotations : bool) (create : Z)
    (ev : option event) : HM Z :=
  match ev with
  | None => mret (-1)
  | Some _ =>
    if negb found then mret (-1) else
    if negb mem_it then events_handler_unlock;; mret (-1) else
    match dup_event mem_dup mem_annotations ev with
    | None => events_handler_unlock;; mret (-1)
    | Some post_event =>
      events_handler_lock;;
      on_events (q_push post_event);;
      h ← get;
      ret ← (if has_handler h then mret 0 else
             if create =? 0
             then modify (λ h, mk_handler (locked h) (events_list h) true (S (spawned h)));; mret 0
             else mret create);
      events_handler_unlock;;
      mret ret
    end
  end.

(** The event taken from the queue; [None] is the return value -1. *)
Definition handle_one : HM (option event) :=
  events_handler_lock;;
  e ← on_events q_pop;
  match e with
  | None =>
    modify (λ h, mk_handler (locked h) (events_list h) false (spawned h));;
    events_handler_unlock;;
    mret None
  | Some e => events_handler_unlock;; mret (Some e)
  end.
End handler.

(** ** Effects on the container *)

(** Events that do not belong to the running process are ignored: other types,
    a container that is not running, and a process id that is not the current
    one (a late event of an earlier process). *)
Theorem stale_events_ignored e ev c :
  (ev_type ev ≠ EVENTS_TYPE_STOPPED1 ∧ ev_type ev ≠ EVENTS_TYPE_OOM) ∨
  (ev_type ev = EVENTS_TYPE_STOPPED1 ∧ (running (c_state c) = false ∨ pid (c_state c) ≠ i32 (ev_pid ev))) →
  container_state_changed e ev c = Some ((0, None), c).
Proof.
  unfold container_state_changed, handle_stopped. intros [[H1 H2]|[-> H]].
  - by rewrite (proj2 (Z.eqb_neq _ _) H1), (proj2 (Z.eqb_neq _ _) H2).
  - simpl. unfold mbind, M_bind, get, container_is_running, container_state_get_pid. destruct H as [->|H]; [done|].
    rewrite (proj2 (Z.eqb_neq _ _) H). by destruct (running (c_state c)).
Qed.


(** ** Posting threads and the handling thread *)

(** A handling thread: just started, about to call [handle_one], or working on
    an event outside the lock. *)
Inductive worker := WNew | WIdle | WBusy (e : event).

Record system (Q : Type) := mk_system {
  sy_handler : handler Q;
  sy_workers : list worker;
  sy_posted : list event;            (** the events accepted, in order *)
  sy_done : list event               (** the events handled, in order *)
}.
Arguments mk_system {Q} _ _ _ _.
Arguments sy_handler {Q} _.
Arguments sy_workers {Q} _.
Arguments sy_posted {Q} _.
Arguments sy_done {Q} _.

Section concurrent.
Context {Q : Type} {QU : Queue event Q}.
Implicit Types (s : system Q) (h : handler Q).

(** One step of the daemon: a thread posts an event (the critical section is
    one step), or a handling thread starts, gives up before its loop, takes an
    event, finishes one, or finds the queue empty and ends. *)
Inductive sstep : system Q → system Q → Prop :=
| s_post s ev found mem_it mem_dup mem_ann create r h' :
    container_events_handler_post_events found mem_it mem_dup mem_ann create (Some ev) (sy_handler s) = Some (r, h') →
    sstep s (mk_system h' (sy_workers s ++ replicate (spawned h' - spawned (sy_handler s)) WNew)
               (if found then sy_posted s ++ [ev] else sy_posted s) (sy_done s))
| s_start s i : sy_workers s !! i = Some WNew →
    sstep s (mk_system (sy_handler s) (<[i:=WIdle]> (sy_workers s)) (sy_posted s) (sy_done s))
| s_abort s w1 w2 : sy_workers s = w1 ++ WNew :: w2 →
    sstep s (mk_system (sy_handler s) (w1 ++ w2) (sy_posted s) (sy_done s))
| s_take s i e h' : sy_workers s !! i = Some WIdle → handle_one (sy_handler s) = Some (Some e, h') →
    sstep s (mk_system h' (<[i:=WBusy e]> (sy_workers s)) (sy_posted s) (sy_done s))
| s_finish s i e : sy_workers s !! i = Some (WBusy e) →
    sstep s (mk_system (sy_handler s) (<[i:=WIdle]> (sy_workers s)) (sy_posted s) (sy_done s ++ [e]))
| s_end s w1 w2 h' : sy_workers s = w1 ++ WIdle :: w2 → handle_one (sy_handler s) = Some (None, h') →
    sstep s (mk_system h' (w1 ++ w2) (sy_posted s) (sy_done s)).

Definition in_flight (w : list worker) : list event := omap (λ x, match x with WBusy e => Some e | _ => None end) w.

(** At most one handling thread, none unless it is announced; and the events
    handled, in work and queued are the events posted, in order. *)
Record system_ok s : Prop := {
  so_lock : locked (sy_handler s) = false;
  so_one : (length (sy_workers s) ≤ if has_handler (sy_handler s) then 1 else 0)%nat;
  so_fifo : ∃ l, q_models (events_list (sy_handler s)) l ∧ sy_done s ++ in_flight (sy_workers s) ++ l = sy_posted s
}.

Lemma wp_on_events {A} (f : M Q A) (P : A → handler Q → Prop) h :
  wp f (λ a q, P a (mk_handler (locked h) q (has_handler h) (spawned h))) (events_list h) → wp (on_events f) P h.
Proof. unfold wp, on_events. by destruct (f (events_list h)) as [[]|]. Qed.

Lemma wp_lock (P : unit → handler Q → Prop) h :
  locked h = false → P tt (mk_handler true (events_list h) (has_handler h) (spawned h)) → wp events_handler_lock P h.
Proof. unfold wp, events_handler_lock. by intros ->. Qed.

Lemma wp_unlock (P : unit → handler Q → Prop) h :
  locked h = true → P tt (mk_handler false (events_list h) (has_handler h) (spawned h)) → wp events_handler_unlock P h.
Proof. unfold wp, events_handler_unlock. by intros ->. Qed.

Lemma unlock_undefined {A} (k : M (handler Q) A) h : locked h = false → (events_handler_unlock;; k) h = None.
Proof. unfold mbind, M_bind, events_handler_unlock. by intros ->. Qed.

Lemma handle_one_spec h l :
  locked h = false → q_models (events_list h) l →
  wp handle_one (λ r h', locked h' = false ∧ spawned h' = spawned h ∧
    match l with
    | [] => r = None ∧ has_handler h' = false ∧ q_models (events_list h') []
    | e :: l => r = Some e ∧ has_handler h' = has_handler h ∧ q_models (events_list h') l
    end) h.
Proof.
  intros Hl Hq. apply wp_bind, wp_lock; [done|]. apply wp_bind, wp_on_events. simpl.
  eapply wp_mono; [by apply q_pop_ok|]. intros r q Hr. destruct l as [|e l]; destruct Hr as [-> Hq'].
  - apply wp_bind, wp_modify, wp_bind, wp_unlock; [done|]. by apply wp_ret.
  - apply wp_bind, wp_unlock; [done|]. by apply wp_ret.
Qed.

(** A post that returns has queued the event, or had no container to give it
    to; a thread is started exactly when none was announced. *)
Lemma post_spec h l found mem_it mem_dup mem_ann create ev r h' :
  locked h = false → q_models (events_list h) l →
  container_events_handler_post_events found mem_it mem_dup mem_ann create (Some ev) h = Some (r, h') →
  (found = false ∧ h' = h) ∨
  (found = true ∧ locked h' = false ∧ q_models (events_list h') (l ++ [ev]) ∧
   ((has_handler h' = has_handler h ∧ spawned h' = spawned h) ∨
    (has_handler h = false ∧ has_handler h' = true ∧ spawned h' = S (spawned h)))).
Proof.
  intros Hl Hq. unfold container_events_handler_post_events.
  destruct found; cbn [negb]; [|intros [= _ <-]; by left].
  destruct mem_it; cbn [negb]; [|by rewrite unlock_undefined].
  destruct (dup_event mem_dup mem_ann (Some ev)) as [post|] eqn:Ed; [|by rewrite unlock_undefined].
  apply dup_event_same in Ed as ->. intros Hrun. right. split; [done|].
  assert (wp (events_handler_lock;; on_events (q_push ev);; h ← get;
    ret ← (if has_handler h then mret 0 else
           if create =? 0 then modify (λ h, mk_handler (locked h) (events_list h) true (S (spawned h)));; mret 0
           else mret create);
    events_handler_unlock;; mret ret) (λ _ h', locked h' = false ∧ q_models (events_list h') (l ++ [ev]) ∧
   ((has_handler h' = has_handler h ∧ spawned h' = spawned h) ∨
    (has_handler h = false ∧ has_handler h' = true ∧ spawned h' = S (spawned h)))) h) as Hw.
  { apply wp_bind, wp_lock; [done|]. apply wp_bind, wp_on_events. simpl.
    eapply wp_mono; [by apply q_push_ok|]. intros [] q Hq'. apply wp_bind, wp_get. simpl.
    destruct (has_handler h) eqn:Hh; [|destruct (create =? 0)].
    - apply wp_bind, wp_ret, wp_bind, wp_unlock; [done|]. apply wp_ret. simpl. auto.
    - apply wp_bind, wp_bind, wp_modify, wp_ret, wp_bind, wp_unlock; [done|]. apply wp_ret. simpl. auto 10.
    - apply wp_bind, wp_ret, wp_bind, wp_unlock; [done|]. apply wp_ret. simpl. auto. }
  unfold wp in Hw. by rewrite Hrun in Hw.
Qed.

Lemma in_flight_app w1 w2 : in_flight (w1 ++ w2) = in_flight w1 ++ in_flight w2.
Proof. apply omap_app. Qed.

Lemma in_flight_new n : in_flight (replicate n WNew) = [].
Proof. induction n; [done|]. cbn. done. Qed.

(** With at most one worker, a worker at index [i] is the only one. *)
Lemma only_worker (w : list worker) i x : (length w ≤ 1)%nat → w !! i = Some x → w = [x] ∧ i = 0%nat.
Proof. destruct w as [|y [|? w]]; simpl; [done| |lia]. destruct i as [|i]; simpl; [by intros _ [= ->]|]. by destruct i. Qed.

Lemma only_worker_split (w w1 w2 : list worker) x : (length w ≤ 1)%nat → w = w1 ++ x :: w2 → w1 = [] ∧ w2 = [].
Proof. intros Hl ->. rewrite length_app in Hl. simpl in Hl. destruct w1, w2; simpl in Hl; (done || lia). Qed.

Lemma handle_one_result h l r h' :
  locked h = false → q_models (events_list h) l → handle_one h = Some (r, h') →
  locked h' = false ∧ spawned h' = spawned h ∧
  match l with
  | [] => r = None ∧ has_handler h' = false ∧ q_models (events_list h') []
  | e :: l => r = Some e ∧ has_handler h' = has_handler h ∧ q_models (events_list h') l
  end.
Proof. intros Hl Hq Hr. pose proof (handle_one_spec h l Hl Hq) as Hw. unfold wp in Hw. by rewrite Hr in Hw. Qed.

Lemma system_ok_step s s' : system_ok s → sstep s s' → system_ok s'.
Proof.
  intros [Hl Ho (l & Hq & Hf)] Hs.
  assert (Ho1 : (length (sy_workers s) ≤ 1)%nat) by (destruct (has_handler _); lia).
  destruct Hs as [s ev found mi md ma create r h' Hp|s i Hi|s w1 w2 Hw|s i e h' Hi Hr|s i e Hi|s w1 w2 h' Hw Hr].
  - destruct (post_spec _ _ _ _ _ _ _ _ _ _ Hl Hq Hp) as [[-> ->]|(-> & Hl' & Hq' & Hsp)].
    + rewrite Nat.sub_diag, app_nil_r. split; simpl; [done|done|by exists l].
    + split; simpl; [done| |].
      * rewrite length_app, length_replicate. destruct Hsp as [[-> ->]|(Hh & -> & ->)]; [lia|].
        rewrite Hh in Ho. lia.
      * exists (l ++ [ev]). split; [done|]. rewrite in_flight_app, in_flight_new, app_nil_r, <- Hf.
        by rewrite !app_assoc.
  - destruct (only_worker _ _ _ Ho1 Hi) as [E ->]. rewrite E in *. split; simpl; [done|done|by exists l].
  - destruct (only_worker_split _ _ _ _ Ho1 Hw) as [-> ->]. rewrite Hw in *. split; simpl; [done|lia|by exists l].
  - destruct (only_worker _ _ _ Ho1 Hi) as [E ->]. rewrite E in *.
    destruct (handle_one_result _ _ _ _ Hl Hq Hr) as (Hl' & _ & Hm). destruct l as [|e' l]; [by destruct Hm|].
    destruct Hm as ([= ->] & Hh & Hq'). split; simpl; [done|by rewrite Hh|]. exists l. by split.
  - destruct (only_worker _ _ _ Ho1 Hi) as [E ->]. rewrite E in *. split; simpl; [done|done|].
    exists l. split; [done|]. rewrite <- Hf. simpl. by rewrite <- app_assoc.
  - destruct (only_worker_split _ _ _ _ Ho1 Hw) as [-> ->]. rewrite Hw in *.
    destruct (handle_one_result _ _ _ _ Hl Hq Hr) as (Hl' & _ & Hm). destruct l as [|e' l]; [|by destruct Hm].
    destruct Hm as (_ & Hh & Hq'). split; simpl; [done|lia|]. by exists [].
Qed.

(** A new handler: an empty queue and no thread. *)
Definition start_system (q : Q) : system Q := mk_system (mk_handler false q false 0) [] [] [].

Lemma reachable_ok q s : q_models q [] → rtc sstep (start_system q) s → system_ok s.
Proof.
  intros Hq Hs. eapply (rtc_ind_r system_ok (start_system q)); [|by eauto using system_ok_step|exact Hs].
  split; simpl; [done|done|]. by exists [].
Qed.

(** C3: Events of a container are handled one at a time and in the order in which
    they were posted, however the posting threads and the handling thread
    interleave: there is never more than one handling thread, and the events
    handled, in work and queued are exactly the events posted. *)
Theorem events_in_order q s :
  q_models q [] → rtc sstep (start_system q) s →
  (length (sy_workers s) ≤ 1)%nat ∧ locked (sy_handler s) = false ∧
  ∃ l, q_models (events_list (sy_handler s)) l ∧ sy_done s ++ in_flight (sy_workers s) ++ l = sy_posted s.
Proof.
  intros Hq Hs. destruct (reachable_ok q s Hq Hs) as [Hl Ho Hf]. split_and!; [destruct (has_handler _); lia|done|done].
Qed.

Lemma worker_drains s l :
  system_ok s → sy_workers s = [WIdle] → q_models (events_list (sy_handler s)) l →
  ∃ s', rtc sstep s s' ∧ sy_workers s' = [] ∧ sy_done s' = sy_done s ++ l ∧ sy_posted s' = sy_posted s ∧
    has_handler (sy_handler s') = false.
Proof.
  revert s. induction l as [|e l IH]; intros s Hok Hw Hq; pose proof Hok as [Hl _ _].
  - pose proof (handle_one_spec _ _ Hl Hq) as (r & h' & Hr & _ & _ & -> & Hh & _)%wp_run.
    eexists. split; [apply rtc_once; eapply (s_end _ [] []); eassumption|]. simpl. by rewrite app_nil_r.
  - pose proof (handle_one_spec _ _ Hl Hq) as (r & h' & Hr & _ & _ & -> & Hh & Hq')%wp_run.
    pose proof (s_take s 0 e h' ltac:(by rewrite Hw) Hr) as S1. rewrite Hw in S1. simpl in S1.
    pose proof (system_ok_step _ _ Hok S1) as Hok1.
    pose proof (s_finish (mk_system h' [WBusy e] (sy_posted s) (sy_done s)) 0 e eq_refl) as S2. simpl in S2.
    pose proof (system_ok_step _ _ Hok1 S2) as Hok2.
    destruct (IH _ Hok2 eq_refl Hq') as (s' & Hs' & Hw' & Hd' & Hp' & Hh'). exists s'.
    split; [by eapply rtc_l; [exact S1|]; eapply rtc_l; [exact S2|]|]. simpl in *. rewrite Hd', <- app_assoc. done.
Qed.

(** No event is forgotten: once the handling thread is in its loop, it can run
    until every posted event has been handled, and it then withdraws its
    announcement, so that the next post starts a new thread. *)
Theorem events_all_handled q s :
  q_models q [] → rtc sstep (start_system q) s → sy_workers s = [WIdle] →
  ∃ s', rtc sstep s s' ∧ sy_workers s' = [] ∧ sy_done s' = sy_posted s ∧ has_handler (sy_handler s') = false.
Proof.
  intros Hq Hs Hw. pose proof (reachable_ok q s Hq Hs) as Hok. pose proof Hok as [_ _ (l & Hl & Hf)]. rewrite Hw in Hf. simpl in Hf.
  destruct (worker_drains s l Hok Hw Hl) as (s' & Hs' & Hw' & Hd & _ & Hh). exists s'. by rewrite Hd, Hf.
Qed.

(** The error paths of posting: when the node or the copy of the event cannot
    be allocated, the function unlocks the handler's mutex without having
    locked it. *)
Theorem post_error_unlocks_unlocked h ev mem_it mem_dup mem_ann create :
  locked h = false → mem_it = false ∨ mem_dup = false →
  container_events_handler_post_events true mem_it mem_dup mem_ann create (Some ev) h = None.
Proof.
  intros Hl Hm. unfold container_events_handler_post_events. cbn [negb].
  destruct mem_it; cbn [negb]; [|by apply unlock_undefined]. destruct Hm as [?| ->]; [done|].
  unfold dup_event. destruct (ev_id ev); by apply unlock_undefined.
Qed.
End concurrent.

(** ** Instances on a concrete queue *)
Section examples.
Definition sample_event : event :=
  mk_event (mk_ts true 100 true 5) 1 EVENTS_TYPE_STOPPED1 None (Some "c1"%string) [Some "k=v"%string] 1 42 1 137.

Definition sample_handler : handler (ll_queue event) := mk_handler false empty_queue false 0.

Definition after_post : handler (ll_queue event) :=
  match container_events_handler_post_events true true true true 0 (Some sample_event) sample_handler with
  | Some (_, h) => h
  | None => sample_handler
  end.

(** One event posted, and its thread in the loop. *)
Definition sample_system : system (ll_queue event) := mk_system after_post [WIdle] [sample_event] [].

Lemma sample_post :
  container_events_handler_post_events true true true true 0 (Some sample_event) sample_handler = Some (0, after_post).
Proof. vm_compute. reflexivity. Qed.

Lemma sample_reachable : rtc sstep (start_system empty_queue) sample_system.
Proof.
  apply (rtc_l _ _ (mk_system after_post [WNew] [sample_event] [])).
  - exact (s_post (start_system empty_queue) sample_event true true true true 0 0 after_post
      sample_post).
  - apply rtc_once. exact (s_start (mk_system after_post [WNew] [sample_event] []) 0 eq_refl).
Qed.

Lemma events_in_order_witness :
  (1 ≤ 1)%nat ∧ locked after_post = false ∧
  ∃ l, q_models (events_list after_post) l ∧ [] ++ [] ++ l = [sample_event].
Proof. exact (events_in_order empty_queue sample_system empty_queue_ok sample_reachable). Defined.

Lemma events_all_handled_witness :
  ∃ s', rtc sstep sample_system s' ∧ sy_workers s' = [] ∧ sy_done s' = [sample_event] ∧
    has_handler (sy_handler s') = false.
Proof. exact (events_all_handled empty_queue sample_system empty_queue_ok sample_reachable eq_refl). Defined.

Lemma post_error_unlocks_unlocked_witness :
  container_events_handler_post_events true false true true 0 (Some sample_event) sample_handler = None.
Proof. apply post_error_unlocks_unlocked; [reflexivity|left; reflexivity]. Defined.

Definition running_cont : cont :=
  mk_cont (container_state_set_running "now" new_state (Some (mk_pid_info 42 1 9 8)) true) 1 (Some sample_rm)
    (Some sample_policy) 0.

Definition sample_env : change_env := mk_change_env rm_mem_ok true (λ _, 3) "later" true 0 None 0 0.

Lemma stale_events_ignored_witness :
  container_state_changed sample_env (mk_event (mk_ts true 1 true 1) 1 EVENTS_TYPE_STOPPED1 None (Some "c1"%string) [] 1 41 1 1)
    running_cont = Some ((0, None), running_cont).
Proof. apply stale_events_ignored. right. split; [reflexivity|]. right. vm_compute. congruence. Defined.

End examples.
