(* ===== verification/GarbageCollector.v ===== *)
(** * The garbage collector of containers

    [src/daemon/modules/container/container_gc/containers_gc.c]: the list of
    containers whose processes must go away before their resources are released,
    its copy on disk, and the thread that works on it.  The list is that of
    [LinkedList], node by node; the copy is a file whose text comes from a
    generated printer, a parameter.  The daemon's other threads append to the
    list and look into it under the mutex; only the collector takes nodes out.

    The outcomes of system calls, of the runtime and of allocations are
    arguments.  [None] is undefined behaviour. *)
From stdpp Require Import base gmap list fin_maps numbers strings relations.
From Stdlib Require Import ZArith Lia Ascii.
From S2P Require Import Prelude CString Regex Array RbTree Convert StringUtil Verify Path ContainerState RestartManager LinkedList EventsHandler.

Local Open Scope Z_scope.

(** ** Data *)
Record gc_element := mk_gc {
  gc_id : option cstr; gc_runtime : option cstr; gc_pid : Z; gc_start_time : Z; gc_ppid : Z; gc_p_start_time : Z
}.

(** What the collector asked the system and the runtime to do. *)
Inductive gc_act := KillMonitor (pid : Z) | KillProcess (id runtime : option cstr) (pid : Z) | Cleaned (id : option cstr) (pid : Z).

(** [g_gc_containers] with the nodes it owns, the file, the containers of the
    store, and what was done. *)
Record gc_state := mk_gcs {
  g_locked : bool; g_list : ll_queue gc_element; g_file : option string;
  g_conts : gmap cstr cont; g_acts : list gc_act; g_threads : list (cstr * Z * Z)
}.

Definition GCCONFIGJSON : string := "garbage.json".

(** The outcomes of a save: the root directory, whether the array and the file
    can be made, and what [write] returns. *)
Record save_env := mk_save { sv_root : option string; sv_mem : bool; sv_open : bool; sv_write : string → Z }.

(** The outcomes of a round on one container: the monitor process is alive; the
    result of [runtime_detect_process] and of [clean_container_resource]; the
    keys under which [containers_store_get] finds the container, for the policy,
    the removal and the resumption; the surroundings of the restart manager; the
    removal flag of the host configuration; the results of [runtime_resume] and of
    [container_state_to_disk]. *)
Record gc_env := mk_gc_env {
  ge_alive : bool; ge_detect : Z; ge_clean : Z; ge_save : save_env;
  ge_found : option cstr; ge_found_remove : option cstr; ge_found_resume : option cstr;
  ge_rm : rm_mem; ge_rm_found : bool; ge_since : option string → Z; ge_now : string; ge_thread_mem : bool; ge_create : Z;
  ge_auto_remove : option bool; ge_resume : Z; ge_disk : Z
}.

Section gc.
Context (generate_json : list (option gc_element) → option string) (parse_file : string → option (list (option gc_element))).
Let GM := M gc_state.

(** [pthread_mutex_lock] of a mutex that the thread waits for; a step of the
    system is a whole critical section. *)
Definition gc_containers_lock : GM unit := λ s,
  if g_locked s then None else Some (tt, mk_gcs true (g_list s) (g_file s) (g_conts s) (g_acts s) (g_threads s)).
Definition gc_containers_unlock : GM unit := λ s,
  if g_locked s then Some (tt, mk_gcs false (g_list s) (g_file s) (g_conts s) (g_acts s) (g_threads s)) else None.

Definition on_list {A} (f : M (ll_queue gc_element) A) : GM A := λ s,
  match f (g_list s) with Some (a, q) => Some (a, mk_gcs (g_locked s) q (g_file s) (g_conts s) (g_acts s) (g_threads s)) | None => None end.
Definition on_nodes {A} (f : ptr → M (ll_heap gc_element) A) : GM A := on_list (q ← get; on_heap (f (lq_head q))).

Definition act (a : gc_act) : GM unit := modify (λ s, mk_gcs (g_locked s) (g_list s) (g_file s) (g_conts s) (g_acts s ++ [a]) (g_threads s)).

(** ** The copy on disk *)

(** The file is truncated when it is opened; a short write leaves a part. *)
Definition save_gc_config (e : save_env) (json : string) : GM Z :=
  match sv_root e with
  | None => mret (-1)
  | Some root =>
    if decide (PATH_MAX ≤ String.length (root ++ String slash GCCONFIGJSON))%nat then mret (-1) else
    if negb (sv_open e) then mret (-1) else
    let nret := sv_write e json in
    modify (λ s, mk_gcs (g_locked s) (g_list s) (Some (to_str (take (Z.to_nat nret) (chars_of json)))) (g_conts s) (g_acts s) (g_threads s));;
    mret (if decide (nret < 0 ∨ nret ≠ Z.of_nat (String.length json)) then -1 else 0)
  end.

Definition gc_save_containers_config (e : save_env) (saves : list (option gc_element)) : GM Z :=
  match generate_json saves with
  | None => mret (-1)
  | Some json => ret ← save_gc_config e json; mret (if decide (ret ≠ 0) then -1 else 0)
  end.

Fixpoint elems_of (nodes : list ptr) : M (ll_heap gc_element) (list (option gc_element)) :=
  match nodes with [] => mret [] | p :: nodes => e ← ld_elem p; es ← elems_of nodes; mret (e :: es) end.

(** The elements that [linked_list_for_each_safe] visits. *)
Definition all_elems (head : ptr) : M (ll_heap gc_element) (list (option gc_element)) :=
  first ← ld_next head; h ← get; nodes ← for_each (S (size (h_next h))) head first; elems_of nodes.

Definition gc_containers_to_disk (e : save_env) : GM Z :=
  size ← on_nodes linked_list_len;
  if decide (size ≠ 0) then
    if SIZE_MAX / PTR_SIZE <? size then mret (-1) else
    if negb (util_common_calloc_s (sv_mem e) (u64 (PTR_SIZE * size))) then mret (-1) else
    conts ← on_nodes all_elems; gc_save_containers_config e conts
  else gc_save_containers_config e [].

(** ** Calls of the daemon *)

(** The loop with its early exit; an element or an identifier that is [NULL] is
    dereferenced. *)
Fixpoint progress_loop (fuel : nat) (id : cstr) (head it : ptr) : M (ll_heap gc_element) bool :=
  match fuel with
  | O => fail
  | S fuel =>
    if decide (it = head) then mret false else
    next ← ld_next it;
    e ← ld_elem it;
    match e with
    | Some c => match gc_id c with Some i => if decide (id = i) then mret true else progress_loop fuel id head next | None => fail end
    | None => fail
    end
  end.

Definition gc_is_gc_progress (id : cstr) : GM bool :=
  gc_containers_lock;;
  ret ← on_nodes (λ head, first ← ld_next head; h ← get; progress_loop (S (size (h_next h))) id head first);
  gc_containers_unlock;;
  mret ret.

Definition container_is_in_gc_progress (id : option cstr) : GM bool := match id with None => mret false | Some id => gc_is_gc_progress id end.

(** A node with its element at the end of the list. *)
Definition append_node (e : option gc_element) : GM unit :=
  on_list (newnode ← ll_calloc; on_heap (st_elem newnode e);; q ← get; on_heap (linked_list_add_tail (lq_head q) newnode)).

Definition gc_add_container (e : save_env) (mem_node mem_cont : bool) (id runtime : option cstr) (pid_info : option pid_ppid_info_t) : GM Z :=
  match pid_info with
  | None => mret (-1)
  | Some info =>
    if negb mem_node then mret (-1) else
    if negb mem_cont then mret (-1) else
    gc_containers_lock;;
    append_node (Some (mk_gc id runtime (i_pid info) (i_start_time info) (i_ppid info) (i_pstart_time info)));;
    gc_containers_to_disk e;;
    gc_containers_unlock;;
    mret 0
  end.

(** ** Starting *)

(** The elements of the file. *)
Definition read_gc_config (root : option string) : GM (option (list (option gc_element))) :=
  match root with
  | None => mret None
  | Some root =>
    if decide (PATH_MAX ≤ String.length (root ++ String slash GCCONFIGJSON))%nat then mret None else
    s ← get; mret (match g_file s with Some text => parse_file text | None => None end)
  end.

(** The loop of [gc_restore]; [mem i] is the [i]-th allocation. *)
Fixpoint restore_loop (mem : nat → bool) (i : nat) (conts : list (option gc_element)) : GM bool :=
  match conts with
  | [] => mret true
  | c :: conts => if negb (mem i) then mret false else append_node c;; restore_loop mem (S i) conts
  end.

Definition gc_restore (e : save_env) (mem : nat → bool) : GM Z :=
  gcconfig ← read_gc_config (sv_root e);
  match gcconfig with
  | None => mret 0
  | Some conts =>
    gc_containers_lock;;
    ok ← restore_loop mem 0 conts;
    if negb ok then gc_containers_unlock;; mret (-1) else
    gc_containers_to_disk e;;
    gc_containers_unlock;;
    mret 0
  end.

(** [mutex]: whether the mutex can be made. *)
Definition new_gchandler (mutex : bool) (e : save_env) (mem : nat → bool) : GM Z :=
  on_nodes linked_list_init;;
  if negb mutex then mret (-1) else
  ret ← gc_restore e mem;
  mret (if decide (ret ≠ 0) then -1 else 0).

(** ** What happens to a collected container *)

(** The restart thread that was started: its delay and the exit code. *)
Definition apply_restart_policy (e : gc_env) (id : option string) : M cont (option (Z * Z)) :=
  c ← get;
  if container_is_running (c_state c) then mret None else
  let started_at := container_state_get_started_at (c_state c) in
  let exit_code := container_state_get_exitcode (c_state c) in
  let manual := container_state_get_has_been_manual_stopped (c_state c) in
  '(should_restart, timeout) ← restart_manager_should_restart (ge_rm e) id (ge_rm_found e) exit_code manual (ge_since e started_at);
  if (should_restart : bool) then
    (λ c, match container_state_increase_restart_count (c_state c) with
          | Some s => Some (tt, mk_cont s (c_refs c) (c_rm c) (c_policy c) (c_stop_broadcasts c))
          | None => None
          end);;
    on_state (λ s, (tt, container_state_set_restarting (ge_now e) s (i32 exit_code)));;
    mret (if container_restart_in_thread id (ge_thread_mem e) (ge_create e) =? 0 then Some (default 0 timeout, i32 exit_code) else None)
  else mret None.

(** A call on the container under [key], with the reference that
    [containers_store_get] takes and [container_unref] gives back. *)
Definition on_cont {A} (key : option cstr) (dflt : A) (f : M cont A) : GM A := λ s,
  match key with
  | None => Some (dflt, s)
  | Some k =>
    match g_conts s !! k with
    | None => None
    | Some c =>
      match (cont_ref;; a ← f; cont_unref;; mret a) c with
      | None => None
      | Some (a, c') => Some (a, mk_gcs (g_locked s) (g_list s) (g_file s) (<[k := c']> (g_conts s)) (g_acts s) (g_threads s))
      end
    end
  end.

Definition apply_restart_policy_after_gc (e : gc_env) (id : cstr) : GM unit :=
  thread ← on_cont (ge_found e) None (apply_restart_policy e (Some (cstr_s id)));
  match thread with
  | None => mret tt
  | Some (delay, code) => modify (λ s, mk_gcs (g_locked s) (g_list s) (g_file s) (g_conts s) (g_acts s) (g_threads s ++ [(id, delay, code)]))
  end.

(** What [delete_container] does to the container is not modelled. *)
Definition apply_auto_remove_after_gc (e : gc_env) : GM unit :=
  on_cont (ge_found_remove e) tt (
    c ← get;
    if container_is_running (c_state c) then mret tt else
    if default false (ge_auto_remove e) then on_state set_container_to_removal;; mret tt else mret tt).

Definition do_runtime_resume_container (e : gc_env) : M cont Z :=
  if decide (ge_resume e ≠ 0) then mret (-1) else
  on_state (λ s, (tt, container_state_reset_paused s));;
  mret (if decide (ge_disk e ≠ 0) then -1 else 0).

Definition try_to_resume_container (e : gc_env) (id runtime : option cstr) : GM unit :=
  match id, runtime with
  | Some _, Some _ =>
    on_cont (ge_found_resume e) tt (do_runtime_resume_container e;; mret tt)
  | _, _ => mret tt
  end.

(** ** The collector *)
Definition gc_monitor_process (e : gc_env) (pid : Z) : GM unit := if ge_alive e then act (KillMonitor pid) else mret tt.

Definition add_to_list_tail_to_retry_gc (it : ptr) : GM unit :=
  gc_containers_lock;;
  on_nodes (λ head, linked_list_del it;; linked_list_add_tail head it);;
  gc_containers_unlock.

(** An element that is [NULL] is dereferenced; the store has no container for an
    identifier that is [NULL]. *)
Definition gc_container_process (e : gc_env) (it : ptr) : GM unit :=
  elem ← on_nodes (λ _, ld_elem it);
  match elem with
  | None => fail
  | Some gc_cont =>
    if ge_detect e <? 0 then
      if decide (ge_clean e ≠ 0) then add_to_list_tail_to_retry_gc it else
      act (Cleaned (gc_id gc_cont) (gc_pid gc_cont));;
      gc_containers_lock;;
      on_nodes (λ _, linked_list_del it);;
      gc_containers_to_disk (ge_save e);;
      gc_containers_unlock;;
      match gc_id gc_cont with
      | Some id => apply_restart_policy_after_gc e id;; apply_auto_remove_after_gc e
      | None => mret tt
      end;;
      on_list (ll_free it)
    else
      try_to_resume_container e (gc_id gc_cont) (gc_runtime gc_cont);;
      act (KillProcess (gc_id gc_cont) (gc_runtime gc_cont) (gc_pid gc_cont));;
      add_to_list_tail_to_retry_gc it
  end.

Definition do_gc_container (e : gc_env) (it : ptr) : GM unit :=
  elem ← on_nodes (λ _, ld_elem it);
  match elem with
  | None => fail
  | Some gc_cont => gc_monitor_process e (gc_ppid gc_cont);; gc_container_process e it
  end.

(** The critical section at the beginning of a round of [gchandler]. *)
Definition gchandler_next : GM (option ptr) :=
  gc_containers_lock;;
  empty ← on_nodes linked_list_empty;
  it ← (if (empty : bool) then mret None else p ← on_nodes linked_list_first_node; mret (Some p));
  gc_containers_unlock;;
  mret it.

(** A round of [gchandler]. *)
Definition gchandler_round (e : gc_env) : GM unit :=
  it ← gchandler_next;
  match it with None => mret tt | Some it => do_gc_container e it end.

(** The result of [pthread_create] for [gchandler]. *)
Definition start_gchandler (create : Z) : Z := if decide (create ≠ 0) then create else 0.

(** ** The list as a sequence *)
Definition fresh (q : ll_queue gc_element) : Prop := ∀ p, is_Some (h_next (lq_heap q) !! p) → (p < lq_next q)%N.

Definition lists s (xs : list (ptr * gc_element)) : Prop := dll (lq_heap (g_list s)) (lq_head (g_list s)) xs ∧ fresh (g_list s).

(** All but the list. *)
Definition keeps s s' : Prop := g_locked s' = g_locked s ∧ g_file s' = g_file s ∧ g_conts s' = g_conts s ∧ g_acts s' = g_acts s ∧ g_threads s' = g_threads s.

Lemma wp_gc_lock (Q : unit → gc_state → Prop) s :
  g_locked s = false → Q tt (mk_gcs true (g_list s) (g_file s) (g_conts s) (g_acts s) (g_threads s)) → wp gc_containers_lock Q s.
Proof. unfold wp, gc_containers_lock. by intros ->. Qed.

Lemma wp_gc_unlock (Q : unit → gc_state → Prop) s :
  g_locked s = true → Q tt (mk_gcs false (g_list s) (g_file s) (g_conts s) (g_acts s) (g_threads s)) → wp gc_containers_unlock Q s.
Proof. unfold wp, gc_containers_unlock. by intros ->. Qed.

Lemma wp_on_list {A} (f : M (ll_queue gc_element) A) (Q : A → gc_state → Prop) s :
  wp f (λ a q, Q a (mk_gcs (g_locked s) q (g_file s) (g_conts s) (g_acts s) (g_threads s))) (g_list s) → wp (on_list f) Q s.
Proof. unfold wp, on_list. by destruct (f (g_list s)) as [[]|]. Qed.

Lemma wp_on_nodes {A} (f : ptr → M (ll_heap gc_element) A) (Q : A → gc_state → Prop) s :
  wp (f (lq_head (g_list s))) (λ a h, Q a (mk_gcs (g_locked s) (mk_queue h (lq_head (g_list s)) (lq_next (g_list s))) (g_file s) (g_conts s) (g_acts s) (g_threads s)))
    (lq_heap (g_list s)) → wp (on_nodes f) Q s.
Proof. intros H. apply wp_on_list, wp_bind, wp_get. apply wp_on_heap. exact H. Qed.

(** A computation that only reads the nodes. *)
Lemma wp_read_nodes {A} (f : ptr → M (ll_heap gc_element) A) (R : A → Prop) (Q : A → gc_state → Prop) s :
  wp (f (lq_head (g_list s))) (λ a h, h = lq_heap (g_list s) ∧ R a) (lq_heap (g_list s)) → (∀ a, R a → Q a s) → wp (on_nodes f) Q s.
Proof.
  intros Hf HQ. apply wp_on_nodes. eapply wp_mono; [exact Hf|]. cbn beta. intros a h [-> Ha]. specialize (HQ a Ha). by destruct s as [? [] ? ? ? ?].
Qed.

Lemma elems_of_ok h xs : Forall (λ x : ptr * gc_element, h_elem h !! x.1 = Some (Some x.2)) xs → wp (elems_of xs.*1) (λ r h', h' = h ∧ r = Some <$> xs.*2) h.
Proof.
  induction 1 as [|[p e] xs Hp _ IH]; cbn [elems_of fmap list_fmap fst snd]; [by apply wp_ret|]. apply wp_bind. cbn in Hp. unfold wp at 1, ld_elem. rewrite Hp.
  apply wp_bind. eapply wp_mono; [exact IH|]. cbn beta. intros r h' [-> ->]. by apply wp_ret.
Qed.

Lemma all_elems_ok h hd xs : dll h hd xs → wp (all_elems hd) (λ r h', h' = h ∧ r = Some <$> xs.*2) h.
Proof.
  intros Hd. apply wp_bind. eapply wp_ld_next; [by apply dll_first|]. apply wp_bind, wp_get, wp_bind.
  eapply wp_mono; [apply (for_each_spec _ h hd [] xs); [done|by apply (dll_size _ hd)]|]. cbn beta. intros r h' [-> ->]. apply elems_of_ok. by destruct Hd.
Qed.

(** A save changes the file only; if nothing fails it holds the elements. *)
Definition save_ok (e : save_env) : Prop :=
  sv_mem e = true ∧ sv_open e = true ∧ (∀ t, sv_write e t = Z.of_nat (String.length t)) ∧
  ∃ root, sv_root e = Some root ∧ (String.length (root ++ String slash GCCONFIGJSON) < PATH_MAX)%nat.

Definition with_file (f : option string) (s : gc_state) : gc_state := mk_gcs (g_locked s) (g_list s) f (g_conts s) (g_acts s) (g_threads s).

Lemma save_config_ok e es s :
  wp (gc_save_containers_config e es) (λ _ s', (∃ f, s' = with_file f s) ∧
    (save_ok e → ∀ json, generate_json es = Some json → s' = with_file (Some json) s)) s.
Proof.
  assert (Hno : (∃ f, s = with_file f s)) by (exists (g_file s); by destruct s).
  unfold gc_save_containers_config. destruct (generate_json es) as [json|]; [|apply wp_ret; split; [done|by intros _ ?]].
  apply wp_bind. apply (wp_mono _ (λ _ s', (∃ f, s' = with_file f s) ∧ (save_ok e → s' = with_file (Some json) s))).
  2:{ intros r s' [Hf Hok]. apply wp_ret. split; [done|]. intros He j [= <-]. by apply Hok. }
  unfold save_gc_config. destruct (sv_root e) as [root|] eqn:Er; [|apply wp_ret; split; [done|]; intros (_ & _ & _ & r & ? & _); congruence].
  destruct (decide _) as [Hl|Hl]; [apply wp_ret; split; [done|]; intros (_ & _ & _ & r & Hr & Hs); exfalso; assert (r = root) as -> by congruence; lia|].
  destruct (sv_open e) eqn:Eo; cbn [negb]; [|apply wp_ret; split; [done|]; intros (_ & ? & _); congruence].
  apply wp_bind, wp_modify, wp_ret. split; [by eexists|]. intros (_ & _ & Hw & _). unfold with_file. do 2 f_equal.
  rewrite Hw, Nat2Z.id, take_ge, to_str_chars; [done|]. by rewrite length_chars_of.
Qed.

Lemma to_disk_ok e s xs :
  lists s xs → Z.of_nat (length xs) < max_items →
  wp (gc_containers_to_disk e) (λ _ s', (∃ f, s' = with_file f s) ∧
    (save_ok e → ∀ json, generate_json (Some <$> xs.*2) = Some json → s' = with_file (Some json) s)) s.
Proof.
  intros [Hd Hf] Hn. assert (Hno : (∃ f, s = with_file f s)) by (exists (g_file s); by destruct s).
  unfold gc_containers_to_disk. apply wp_bind. eapply wp_read_nodes; [by apply linked_list_len_spec|]. intros size ->. rewrite max_items_eq in Hn.
  rewrite u64_small by (unfold two64; lia). destruct (decide _) as [Hne|Hz%dec_stable].
  2:{ destruct xs; [|cbn in Hz; lia]. apply save_config_ok. }
  change (SIZE_MAX / PTR_SIZE) with 2305843009213693951. rewrite (proj2 (Z.ltb_ge 2305843009213693951 _)) by lia. unfold util_common_calloc_s, PTR_SIZE, MAX_MEMORY_SIZE.
  rewrite u64_small by (unfold two64; lia). rewrite (proj2 (Z.eqb_neq _ _)), (proj2 (Z.ltb_ge _ _)) by lia. cbn [orb].
  destruct (sv_mem e) eqn:Em; cbn [negb]; [|apply wp_ret; split; [done|]; intros (? & _); congruence].
  apply wp_bind. eapply wp_read_nodes; [by apply all_elems_ok|]. intros es ->. apply save_config_ok.
Qed.

(** ** The operations *)
Lemma append_node_ok s xs e :
  lists s xs → wp (append_node (Some e)) (λ _ s', keeps s s' ∧ ∃ p, lists s' (xs ++ [(p, e)])) s.
Proof.
  intros [Hd Hf]. apply wp_on_list. apply wp_bind. unfold wp at 1, ll_calloc. set (p := lq_next (g_list s)).
  assert (Hp : p ∉ lq_head (g_list s) :: xs.*1) by (intros Hin; apply (dll_live _ _ _ _ Hd), Hf in Hin; unfold p in Hin; lia).
  apply wp_bind, wp_on_heap, wp_st_elem; [cbn; rewrite lookup_insert_eq; by eexists|]. apply wp_bind, wp_get, wp_on_heap. cbn [lq_heap lq_head h_elem h_next h_prev].
  eapply wp_mono; [eapply (linked_list_add_tail_spec _ _ xs p e)|].
  - eapply dll_frame; [|exact Hd]. intros a Ha. cbn. assert (p ≠ a) by (by intros ->). by rewrite !lookup_insert_ne.
  - split; cbn; rewrite ?lookup_insert_eq; by eauto.
  - cbn beta. intros [] h' [Hd' Hsn]. split; [done|]. exists p. split; [exact Hd'|]. intros a Ha%(proj1 (Hsn a)). cbn in Ha |- *.
    rewrite lookup_insert_is_Some' in Ha. destruct Ha as [<-|Ha%Hf]; lia.
Qed.

Lemma wp_ld_elem (h : ll_heap gc_element) p e (Q : option gc_element → ll_heap gc_element → Prop) : h_elem h !! p = Some e → Q e h → wp (ld_elem p) Q h.
Proof. unfold wp, ld_elem. by intros ->. Qed.

Definition has_id (x : gc_element) : Prop := is_Some (gc_id x).

Lemma progress_loop_ok fuel id h hd l1 l2 :
  dll h hd (l1 ++ l2) → Forall has_id l2.*2 → (length l2 < fuel)%nat →
  wp (progress_loop fuel id hd (first_of hd l2)) (λ b h', h' = h ∧ b = bool_decide (Some id ∈ gc_id <$> l2.*2)) h.
Proof.
  intros Hd. revert l1 l2 Hd. induction fuel as [|fuel IH]; [lia|]. intros l1 l2 Hd Hid Hf. cbn [progress_loop].
  destruct l2 as [|[x e] l2]; cbn [first_of fst fmap list_fmap snd] in *; [rewrite decide_True by done; by apply wp_ret|].
  rewrite decide_False. 2:{ destruct Hd as [Hn _ _]. apply list.NoDup_cons in Hn as [Hn _]. rewrite fmap_app, fmap_cons in Hn. intros ->. apply Hn, elem_of_app. right. by left. }
  apply wp_bind. eapply (wp_ld_next _ (first_of hd l2)).
  { destruct Hd as [_ Hr _]. rewrite fmap_app, fmap_cons, chain_app, Forall_app in Hr. destruct Hr as [_ Hr].
    destruct l2 as [|[y e'] l2]; apply list.Forall_cons in Hr as [[Hp _] _]; exact Hp. }
  apply wp_bind. eapply wp_ld_elem; [destruct Hd as [_ _ He]; rewrite Forall_app, list.Forall_cons in He; apply He|].
  apply list.Forall_cons in Hid as [[i Hi] Hid]. cbn in Hi |- *. rewrite Hi. destruct (decide (id = i)) as [->|Hne].
  { apply wp_ret. split; [done|]. rewrite bool_decide_true by (by left). done. }
  eapply wp_mono; [apply (IH (l1 ++ [(x, e)])); [by rewrite <- app_assoc|done|cbn in Hf; lia]|]. cbn beta. intros b h' [-> ->]. split; [done|].
  apply bool_decide_ext. rewrite elem_of_cons. naive_solver.
Qed.

Lemma lists_locked b s xs : lists s xs → lists (mk_gcs b (g_list s) (g_file s) (g_conts s) (g_acts s) (g_threads s)) xs.
Proof. done. Qed.

Lemma in_progress_ok id s xs :
  lists s xs → g_locked s = false → Forall has_id xs.*2 → wp (gc_is_gc_progress id) (λ b s', s' = s ∧ b = bool_decide (Some id ∈ gc_id <$> xs.*2)) s.
Proof.
  intros [Hd Hf] Hl Hid. apply wp_bind, wp_gc_lock; [done|]. apply wp_bind. eapply (wp_read_nodes _ (λ b, b = bool_decide (Some id ∈ gc_id <$> xs.*2))).
  - cbn [g_list]. apply wp_bind. eapply wp_ld_next; [by apply dll_first|]. apply wp_bind, wp_get. apply (progress_loop_ok _ id _ _ [] xs Hd Hid). by apply (dll_size _ _ _ Hd).
  - intros b ->. apply wp_bind, wp_gc_unlock; [done|]. apply wp_ret. split; [|done]. cbn. by destruct s; cbn in Hl; subst.
Qed.

(** What a call leaves alone: the containers and what was done. *)
Definition calm_step s s' : Prop := g_locked s' = false ∧ g_conts s' = g_conts s ∧ g_acts s' = g_acts s ∧ g_threads s' = g_threads s.

Definition saved_as (e : save_env) (xs : list (ptr * gc_element)) s' : Prop := save_ok e → ∀ json, generate_json (Some <$> xs.*2) = Some json → g_file s' = Some json.

Lemma gc_add_ok e mem_node mem_cont id runtime info s xs :
  lists s xs → g_locked s = false → Z.of_nat (length xs) + 1 < max_items →
  wp (gc_add_container e mem_node mem_cont id runtime info) (λ r s', r = -1 ∧ s' = s ∨
    r = 0 ∧ calm_step s s' ∧ ∃ i p, info = Some i ∧
      let xs' := xs ++ [(p, mk_gc id runtime (i_pid i) (i_start_time i) (i_ppid i) (i_pstart_time i))] in lists s' xs' ∧ saved_as e xs' s') s.
Proof.
  intros Hs Hl Hn. unfold gc_add_container. destruct info as [i|]; [|apply wp_ret; by left].
  destruct mem_node; cbn [negb]; [|apply wp_ret; by left]. destruct mem_cont; cbn [negb]; [|apply wp_ret; by left].
  apply wp_bind, wp_gc_lock; [done|]. apply wp_bind. eapply wp_mono; [apply append_node_ok, lists_locked, Hs|]. cbn beta. intros [] s1 [(K1 & K2 & K3 & K4 & K5) (p & Hs1)].
  apply wp_bind. eapply wp_mono; [eapply to_disk_ok; [exact Hs1|rewrite length_app; cbn [length]; lia]|]. cbn beta. intros r s2 [(f & ->) Hsv].
  apply wp_bind, wp_gc_unlock; [exact K1|]. apply wp_ret. right. split; [done|]. split; [done|]. exists i, p. split; [done|]. split; [exact Hs1|].
  intros He json Hj. specialize (Hsv He json Hj). by apply (f_equal g_file) in Hsv.
Qed.

Lemma retry_ok it x s xs :
  lists s ((it, x) :: xs) → g_locked s = false →
  wp (add_to_list_tail_to_retry_gc it) (λ _ s', calm_step s s' ∧ g_file s' = g_file s ∧ lists s' (xs ++ [(it, x)])) s.
Proof.
  intros [Hd Hf] Hl. apply wp_bind, wp_gc_lock; [done|]. apply wp_bind, wp_on_nodes. cbn [g_list]. apply wp_bind.
  eapply wp_mono; [exact (linked_list_del_spec _ _ [] it x xs Hd)|]. cbn beta. intros [] h1 (Hd1 & He1 & Hsn1).
  pose proof Hd as [Hn Hring Hel]. eapply wp_mono; [eapply (linked_list_add_tail_spec _ _ xs it x); [exact Hd1|]|].
  - split.
    + rewrite He1. by apply list.Forall_cons in Hel as [Hel _].
    + apply Hsn1. eapply dll_live; [exact Hd|]. right. by left.
    + apply Hsn1. destruct xs as [|[y ey] xs]; cbn in Hring; rewrite !list.Forall_cons in Hring; destruct Hring as ([_ Hp] & _); by eexists.
    + cbn in Hn. rewrite !list.NoDup_cons, !not_elem_of_cons in Hn. rewrite not_elem_of_cons. naive_solver.
  - cbn beta. intros [] h2 [Hd2 Hsn2]. apply wp_gc_unlock; [done|]. split; [done|]. split; [done|]. split; [exact Hd2|].
    intros p Hp. cbn in Hp |- *. by apply Hf, (proj1 (Hsn1 p)), (proj1 (Hsn2 p)).
Qed.

(** ** The policy of a collected container *)

(** The restart manager of the container can decide. *)
Definition restartable (e : gc_env) (c : cont) : Prop :=
  0 <= c_refs c < two64 - 2 ∧ counts_ok c ∧ restart_count (c_state c) < INT_MAX ∧ ge_rm_found e = true ∧
  ∃ rm, manager (ge_rm e) c = Some rm ∧ failure_count rm < INT_MAX ∧ timeout_ok rm ∧ ∃ p name, policy rm = Some p ∧ policy_name p = Some name.

(** A container that does not run is restarted as its manager decides. *)
Definition policy_effect (e : gc_env) (c : cont) (rm : restart_manager_t) (r : option (Z * Z)) (c' : cont) : Prop :=
  let s := c_state c in
  c_refs c' = c_refs c ∧
  if running s then c_state c' = s ∧ r = None else
  match verdict rm (container_state_get_exitcode s) (has_been_manually_stopped s) (ge_since e (started_at s)) with
  | (true, delay) =>
    (∃ s1, container_state_increase_restart_count s = Some s1 ∧ c_state c' = container_state_set_restarting (ge_now e) s1 (i32 (container_state_get_exitcode s))) ∧
    r = (if ge_thread_mem e && (ge_create e =? 0) then Some (default 0 delay, i32 (container_state_get_exitcode s)) else None)
  | (false, _) => c_state c' = s ∧ r = None
  end.

Lemma apply_policy_ok e id c rm :
  counts_ok c → restart_count (c_state c) < INT_MAX → ge_rm_found e = true → manager (ge_rm e) c = Some rm → failure_count rm < INT_MAX → timeout_ok rm →
  (∃ p name, policy rm = Some p ∧ policy_name p = Some name) →
  wp (apply_restart_policy e (Some id)) (policy_effect e c rm) c.
Proof.
  intros Hc Hrc Hfd Hm Hf Ht Hp. apply wp_bind, wp_get. unfold policy_effect, container_is_running. destruct (running (c_state c)); [by apply wp_ret|].
  rewrite Hfd. apply wp_bind. eapply wp_mono; [by eapply should_restart_ok|]. cbn beta. intros [b delay] c1 (Hv & Hrefs & Hs & _). unfold container_state_get_has_been_manual_stopped, container_state_get_started_at in Hv. rewrite <- Hv. destruct b; [|apply wp_ret; by rewrite Hs].
  apply wp_bind. unfold wp at 1. rewrite Hs. destruct (container_state_increase_restart_count (c_state c)) as [s1|] eqn:Ei.
  2:{ unfold container_state_increase_restart_count in Ei. by rewrite (proj2 (Z.eqb_neq _ _)) in Ei by lia. }
  apply wp_bind. unfold wp at 1, on_state. cbn [c_state]. apply wp_ret. cbn [c_refs c_state]. split; [done|]. split; [by exists s1|].
  unfold container_restart_in_thread. destruct (ge_thread_mem e); [|done]. by destruct (ge_create e =? 0).
Qed.

Definition only_conts s s' : Prop := g_locked s' = g_locked s ∧ g_list s' = g_list s ∧ g_file s' = g_file s ∧ g_acts s' = g_acts s ∧ dom (g_conts s') = dom (g_conts s).

Lemma on_cont_ok {A} k (dflt : A) (f : M cont A) s c (R : A → cont → Prop) :
  g_conts s !! k = Some c → 0 <= c_refs c < two64 - 1 →
  wp f (λ a c', c_refs c' = u64 (c_refs c + 1) ∧ R a (mk_cont (c_state c') (c_refs c) (c_rm c') (c_policy c') (c_stop_broadcasts c')))
    (mk_cont (c_state c) (u64 (c_refs c + 1)) (c_rm c) (c_policy c) (c_stop_broadcasts c)) →
  wp (on_cont (Some k) dflt f) (λ a s', only_conts s s' ∧ g_threads s' = g_threads s ∧ ∃ c', g_conts s' = <[k := c']> (g_conts s) ∧ c_refs c' = c_refs c ∧ R a c') s.
Proof.
  intros Hk Hc Hf. unfold wp, on_cont. rewrite Hk.
  assert (Hw : wp (cont_ref;; a ← f; cont_unref;; mret a) (λ a c', c_refs c' = c_refs c ∧ R a c') c).
  { apply wp_bind, wp_modify, wp_bind. eapply wp_mono; [exact Hf|]. cbn beta. intros a c' [Hr HR]. apply wp_bind, wp_modify, wp_ret. rewrite Hr, cont_ref_unref by done. done. }
  unfold wp in Hw. destruct ((cont_ref;; a ← f; cont_unref;; mret a) c) as [[a c']|]; [|done].
  split; [|split; [done|by exists c']]. split_and!; try done. cbn. rewrite dom_insert_L. apply elem_of_dom_2 in Hk. set_solver.
Qed.

Lemma only_conts_trans s1 s2 s3 : only_conts s1 s2 → only_conts s2 s3 → only_conts s1 s3.
Proof. unfold only_conts. intuition congruence. Qed.

Lemma restart_policy_ok e id s k c rm :
  ge_found e = Some k → g_conts s !! k = Some c → restartable e c → manager (ge_rm e) c = Some rm →
  wp (apply_restart_policy_after_gc e id) (λ _ s', only_conts s s' ∧ ∃ r c', policy_effect e c rm r c' ∧ g_conts s' = <[k := c']> (g_conts s) ∧
    g_threads s' = g_threads s ++ option_list ((λ t, (id, t.1, t.2)) <$> r)) s.
Proof.
  intros Hk Hc (Hr & [_ Hrm] & Hrc & Hfd & rm' & Hm & Hf & Ht & Hp) Hm'. assert (rm' = rm) as -> by congruence. unfold apply_restart_policy_after_gc. rewrite Hk. apply wp_bind.
  eapply wp_mono; [eapply (on_cont_ok k None _ s c (λ r c', policy_effect e c rm r c') Hc); [lia|]|].
  - set (c1 := mk_cont _ _ _ _ _). eapply wp_mono; [eapply (apply_policy_ok e _ c1 rm); try done|].
    + split; [|done]. cbn. rewrite u64_small; unfold two64 in *; lia.
    + cbn beta. unfold policy_effect. cbn [c_refs c_state c1]. intros r c' [H1 H2]. by split.
  - cbn beta. intros r s1 (Ho & Hth & c' & Hcs & _ & Hpe). destruct r as [[delay code]|].
    + apply wp_modify. split; [done|]. eexists _, c'. split; [exact Hpe|]. split; [exact Hcs|]. cbn. by rewrite Hth.
    + apply wp_ret. split; [done|]. eexists _, c'. split; [exact Hpe|]. split; [exact Hcs|]. cbn. by rewrite app_nil_r.
Qed.

(** The containers that the store finds exist, and the restart manager of the
    collected one can decide. *)
Definition found_ok (e : gc_env) s : Prop :=
  (∀ k, ge_found e = Some k → ∃ c, g_conts s !! k = Some c ∧ restartable e c) ∧
  ∀ k, ge_found_remove e = Some k ∨ ge_found_resume e = Some k → ∃ c, g_conts s !! k = Some c ∧ 0 <= c_refs c < two64 - 1.

(** The restart thread that the collection of a container starts. *)
Definition restarts (e : gc_env) s (id : cstr) (threads : list (cstr * Z * Z)) : Prop :=
  match ge_found e with
  | None => threads = []
  | Some k => ∃ c rm r c', g_conts s !! k = Some c ∧ manager (ge_rm e) c = Some rm ∧ policy_effect e c rm r c' ∧ threads = option_list ((λ t, (id, t.1, t.2)) <$> r)
  end.

Lemma auto_remove_ok e s :
  (∀ k, ge_found_remove e = Some k → ∃ c, g_conts s !! k = Some c ∧ 0 <= c_refs c < two64 - 1) →
  wp (apply_auto_remove_after_gc e) (λ _ s', only_conts s s' ∧ g_threads s' = g_threads s) s.
Proof.
  intros Hf. unfold apply_auto_remove_after_gc. destruct (ge_found_remove e) as [k|]; [|done]. destruct (Hf k eq_refl) as (c & Hc & Hr).
  eapply wp_mono; [eapply (on_cont_ok k tt _ s c (λ _ _, True) Hc Hr)|cbn beta; naive_solver].
  apply wp_bind, wp_get. destruct (container_is_running _); [by apply wp_ret|]. destruct (default false (ge_auto_remove e)); [|by apply wp_ret].
  apply wp_bind. unfold wp at 1, on_state. destruct (set_container_to_removal _). by apply wp_ret.
Qed.

Lemma policies_ok e id s :
  found_ok e s →
  wp (apply_restart_policy_after_gc e id;; apply_auto_remove_after_gc e) (λ _ s', only_conts s s' ∧ ∃ t, restarts e s id t ∧ g_threads s' = g_threads s ++ t) s.
Proof.
  intros [Hf Hr]. apply wp_bind. apply (wp_mono _ (λ _ s1, only_conts s s1 ∧ (∃ t, restarts e s id t ∧ g_threads s1 = g_threads s ++ t) ∧
    ∀ k, ge_found_remove e = Some k → ∃ c, g_conts s1 !! k = Some c ∧ 0 <= c_refs c < two64 - 1)).
  - unfold restarts. destruct (ge_found e) as [k|] eqn:Ek.
    + destruct (Hf k eq_refl) as (c & Hc & Hre). pose proof Hre as (Hrefs & _ & _ & _ & rm & Hm & _). eapply wp_mono; [by eapply restart_policy_ok|]. cbn beta.
      intros [] s1 (Ho & r & c' & Hp & Hcs & Hth). split; [done|]. split; [by eexists; split; [exists c, rm, r, c'|]|].
      intros k' Hk'. rewrite Hcs. destruct (decide (k = k')) as [<-|]; [|rewrite lookup_insert_ne by done; apply Hr; by left].
      rewrite lookup_insert_eq. eexists. split; [done|]. destruct Hp as [-> _]. lia.
    + unfold apply_restart_policy_after_gc. rewrite Ek. apply wp_bind. unfold wp at 1, on_cont. apply wp_ret. split; [done|].
      split; [exists []; by rewrite app_nil_r|]. intros k Hk. apply Hr. by left.
  - intros [] s1 (Ho & (t & Ht & Hth) & Hr1). eapply wp_mono; [by apply auto_remove_ok|]. cbn beta. intros [] s2 [Ho2 Hth2].
    split; [by eapply only_conts_trans|]. exists t. split; [done|congruence].
Qed.

(** ** A round of the collector *)

(** The process is gone and the resources are released. *)
Definition gone (e : gc_env) : bool := (ge_detect e <? 0) && (ge_clean e =? 0).

Lemma free_ok it s xs : lists s xs → it ∉ lq_head (g_list s) :: xs.*1 → wp (on_list (ll_free it)) (λ _ s', keeps s s' ∧ lists s' xs) s.
Proof.
  intros [Hd Hf] Hn. apply wp_on_list. unfold wp, ll_free. split; [done|]. split.
  - eapply dll_frame; [|exact Hd]. intros a Ha. cbn. assert (it ≠ a) by (by intros ->). by rewrite !lookup_delete_ne.
  - intros p. cbn. rewrite lookup_delete_is_Some. intros [_ Hp]. by apply Hf.
Qed.

Lemma collect_ok e it x s xs :
  lists s ((it, x) :: xs) → g_locked s = false → Z.of_nat (length xs) < max_items → found_ok e s →
  wp (gc_containers_lock;; on_nodes (λ _, linked_list_del it);; gc_containers_to_disk (ge_save e);; gc_containers_unlock;;
      match gc_id x with Some id => apply_restart_policy_after_gc e id;; apply_auto_remove_after_gc e | None => mret tt end;;
      on_list (ll_free it)) (λ _ s', g_locked s' = false ∧ lists s' xs ∧ saved_as (ge_save e) xs s' ∧ g_acts s' = g_acts s ∧
        ∀ id, gc_id x = Some id → ∃ t, restarts e s id t ∧ g_threads s' = g_threads s ++ t) s.
Proof.
  intros [Hd Hf] Hl Hn Hfd. apply wp_bind, wp_gc_lock; [done|]. apply wp_bind, wp_on_nodes. cbn [g_list].
  eapply wp_mono; [exact (linked_list_del_spec _ _ [] it x xs Hd)|]. cbn beta. intros [] h1 (Hd1 & _ & Hsn). cbn [g_locked g_file g_conts g_acts g_threads].
  set (s1 := mk_gcs _ _ _ _ _ _). assert (Hs1 : lists s1 xs) by (split; [exact Hd1|]; intros p Hp; by apply Hf, (proj1 (Hsn p))).
  apply wp_bind. eapply wp_mono; [by apply to_disk_ok|]. cbn beta. intros _ s2 [(f & ->) Hsv]. apply wp_bind, wp_gc_unlock; [done|]. set (s2 := mk_gcs _ _ _ _ _ _).
  assert (Hnew : it ∉ lq_head (g_list s2) :: xs.*1).
  { destruct Hd as [Hnd _ _]. cbn in Hnd |- *. rewrite !list.NoDup_cons, !not_elem_of_cons in Hnd. rewrite not_elem_of_cons. naive_solver. }
  assert (Hfile : saved_as (ge_save e) xs s2) by (intros He json Hj; specialize (Hsv He json Hj); by apply (f_equal g_file) in Hsv).
  apply wp_bind. apply (wp_mono _ (λ _ s3, only_conts s2 s3 ∧ ∀ id, gc_id x = Some id → ∃ t, restarts e s id t ∧ g_threads s3 = g_threads s ++ t)).
  { destruct (gc_id x) as [id|]; [|apply wp_ret; by split]. eapply wp_mono; [by apply (policies_ok e id s2)|]. cbn beta. intros [] s3 [Ho Ht]. split; [done|]. by intros ? [= <-]. }
  intros [] s3 [(O1 & O2 & O3 & O4 & O5) Ht]. eapply wp_mono; [apply (free_ok it s3 xs); unfold lists; rewrite O2; [exact Hs1|done]|].
  cbn beta. intros [] s4 [(K1 & K2 & K3 & K4 & K5) Hs4]. split; [by rewrite K1, O1|]. split; [done|]. split; [|split; [by rewrite K4, O4|]].
  - intros He json Hj. rewrite K2, O3. by apply Hfile.
  - intros id Hid. destruct (Ht id Hid) as (t & Hr & Hth). exists t. split; [done|congruence].
Qed.

Lemma resume_ok e id runtime s :
  found_ok e s → wp (try_to_resume_container e id runtime) (λ _ s', only_conts s s' ∧ g_threads s' = g_threads s) s.
Proof.
  intros [_ Hr]. unfold try_to_resume_container. destruct id; [|by apply wp_ret]. destruct runtime; [|by apply wp_ret]. destruct (ge_found_resume e) as [k|]; [|done].
  destruct (Hr k) as (c' & Hc & Hrefs); [by right|]. eapply wp_mono; [eapply (on_cont_ok k tt _ s c' (λ _ _, True) Hc Hrefs)|cbn beta; naive_solver].
  unfold do_runtime_resume_container. apply wp_bind. destruct (decide _); [by apply wp_ret|]. by unfold wp, on_state.
Qed.

Definition asked (e : gc_env) (x : gc_element) : list gc_act :=
  (if ge_alive e then [KillMonitor (gc_ppid x)] else []) ++
  (if ge_detect e <? 0 then if ge_clean e =? 0 then [Cleaned (gc_id x) (gc_pid x)] else [] else [KillProcess (gc_id x) (gc_runtime x) (gc_pid x)]).

Lemma do_gc_ok e it x s xs :
  lists s ((it, x) :: xs) → g_locked s = false → Z.of_nat (length xs) < max_items → found_ok e s →
  wp (do_gc_container e it) (λ _ s', g_locked s' = false ∧ g_acts s' = g_acts s ++ asked e x ∧
    if gone e then lists s' xs ∧ saved_as (ge_save e) xs s' ∧ ∀ id, gc_id x = Some id → ∃ t, restarts e s id t ∧ g_threads s' = g_threads s ++ t
    else lists s' (xs ++ [(it, x)]) ∧ g_file s' = g_file s ∧ g_threads s' = g_threads s) s.
Proof.
  intros Hs Hl Hn Hf. assert (Hel : h_elem (lq_heap (g_list s)) !! it = Some (Some x)) by (destruct Hs as [[_ _ He] _]; by apply list.Forall_cons in He as [He _]).
  unfold do_gc_container. apply wp_bind. eapply (wp_read_nodes _ (λ r, r = Some x)); [by eapply wp_ld_elem|]. intros ? ->. apply wp_bind.
  apply (wp_mono _ (λ _ s1, s1 = mk_gcs (g_locked s) (g_list s) (g_file s) (g_conts s) (g_acts s ++ if ge_alive e then [KillMonitor (gc_ppid x)] else []) (g_threads s))).
  { unfold gc_monitor_process. destruct (ge_alive e); [by apply wp_modify|]. apply wp_ret. rewrite app_nil_r. by destruct s. }
  intros [] s1 Es1. assert (Hs1 : lists s1 ((it, x) :: xs)) by (by subst). assert (Hf1 : found_ok e s1) by (by subst). assert (Hl1 : g_locked s1 = false) by (by subst).
  assert (E1 : g_acts s1 = g_acts s ++ (if ge_alive e then [KillMonitor (gc_ppid x)] else []) ∧ g_threads s1 = g_threads s ∧ g_conts s1 = g_conts s ∧ g_file s1 = g_file s) by (by subst).
  assert (Hel1 : h_elem (lq_heap (g_list s1)) !! it = Some (Some x)) by (by subst). clear Es1. destruct E1 as (Ea & Et & Ec & Ef).
  unfold gc_container_process, gone, asked. apply wp_bind. eapply (wp_read_nodes _ (λ r, r = Some x)); [by eapply wp_ld_elem|]. intros ? ->.
  destruct (ge_detect e <? 0); cbn [andb].
  - destruct (Z.eqb_spec (ge_clean e) 0) as [Hz|Hz].
    + rewrite decide_False by (intros ?; done). apply wp_bind, wp_modify. eapply wp_mono; [by eapply (collect_ok e it x)|].
      cbn beta. cbn [g_acts g_threads]. intros [] s2 (H1 & H2 & H3 & H4 & H5). split; [done|]. split; [by rewrite H4, Ea, <- app_assoc|]. split; [done|]. split; [done|].
      intros id Hid. destruct (H5 id Hid) as (t & Hr & Hth). exists t. split; [|congruence]. unfold restarts in *. cbn [g_conts] in Hr. by rewrite Ec in Hr.
    + rewrite decide_True by done. eapply wp_mono; [by apply retry_ok|]. cbn beta. intros [] s2 ((C1 & C2 & C3 & C4) & C5 & H). rewrite app_nil_r. split; [done|]. split; [congruence|]. split; [done|split; congruence].
  - apply wp_bind. eapply wp_mono; [by apply resume_ok|]. cbn beta. intros [] s2 [(O1 & O2 & O3 & O4 & _) Hth]. apply wp_bind, wp_modify.
    eapply wp_mono; [eapply (retry_ok it x); [unfold lists; cbn [g_list]; by rewrite O2|cbn; congruence]|]. cbn beta. cbn [g_acts g_threads g_file]. intros [] s3 ((C1 & C2 & C3 & C4) & C5 & H).
    split; [done|]. split; [rewrite C3; cbn; by rewrite O4, Ea, <- app_assoc|]. split; [done|]. split; cbn in *; congruence.
Qed.

Lemma next_ok s xs :
  lists s xs → g_locked s = false → wp gchandler_next (λ r s', s' = s ∧ r = fst <$> head xs) s.
Proof.
  intros [Hd Hf] Hl. apply wp_bind, wp_gc_lock; [done|]. apply wp_bind. eapply wp_read_nodes; [by apply linked_list_empty_spec|]. intros b ->. apply wp_bind.
  set (s1 := mk_gcs _ _ _ _ _ _). apply (wp_mono _ (λ r s', s' = s1 ∧ r = fst <$> head xs)).
  - destruct xs as [|[p x] xs]; [by rewrite bool_decide_true by done|]. rewrite bool_decide_false by done. apply wp_bind.
    eapply (wp_read_nodes _ (λ r, r = p)); [eapply wp_ld_next; [by apply dll_first|done]|]. intros ? ->. by apply wp_ret.
  - intros r s2 [-> ->]. apply wp_bind, wp_gc_unlock; [done|]. apply wp_ret. split; [|done]. subst s1. cbn. by destruct s; cbn in Hl; subst.
Qed.

(** ** The daemon's threads and the collector *)

(** The collector is between two rounds or holds the node it works on; the
    elements added and collected so far. *)
Record gsys := mk_gsys { gy : gc_state; gy_it : option ptr; gy_added : list gc_element; gy_collected : list gc_element }.

(** A step is a critical section with what its thread does outside of it: other
    threads only append to the list and look into it.  [P] limits the outcomes
    of saving. *)
Inductive gstep (P : save_env → Prop) : gsys → gsys → Prop :=
| g_add s e mem_node mem_cont id runtime i r g' :
    P e → gc_add_container e mem_node mem_cont (Some id) runtime (Some i) (gy s) = Some (r, g') →
    gstep P s (mk_gsys g' (gy_it s) (if r =? 0 then gy_added s ++ [mk_gc (Some id) runtime (i_pid i) (i_start_time i) (i_ppid i) (i_pstart_time i)] else gy_added s) (gy_collected s))
| g_query s id b g' : gc_is_gc_progress id (gy s) = Some (b, g') → gstep P s (mk_gsys g' (gy_it s) (gy_added s) (gy_collected s))
| g_next s it g' : gy_it s = None → gchandler_next (gy s) = Some (it, g') → gstep P s (mk_gsys g' it (gy_added s) (gy_collected s))
| g_work s e it x g' :
    P (ge_save e) → gy_it s = Some it → h_elem (lq_heap (g_list (gy s))) !! it = Some (Some x) → found_ok e (gy s) → do_gc_container e it (gy s) = Some (tt, g') →
    gstep P s (mk_gsys g' None (gy_added s) (if gone e then gy_collected s ++ [x] else gy_collected s)).

(** The generated parser reads what the generated printer writes. *)
Definition printer_ok : Prop := ∀ l, ∃ json, generate_json (Some <$> l) = Some json ∧ parse_file json = Some (Some <$> l).

(** What the file says. *)
Definition on_disk (F : option string) (l : list gc_element) : Prop :=
  match F with None => l = [] | Some json => ∃ l', parse_file json = Some (Some <$> l') ∧ l' ≡ₚ l end.

Record gsys_ok (P : save_env → Prop) s (xs : list (ptr * gc_element)) : Prop := {
  go_lists : lists (gy s) xs;
  go_lock : g_locked (gy s) = false;
  go_ids : Forall has_id xs.*2;
  go_it : ∀ it, gy_it s = Some it → ∃ x xs', xs = (it, x) :: xs';
  go_all : gy_added s ≡ₚ gy_collected s ++ xs.*2;
  go_disk : (∀ e, P e → save_ok e) → printer_ok → on_disk (g_file (gy s)) xs.*2
}.

Lemma gstep_added P s s' : gstep P s s' → (length (gy_added s) ≤ length (gy_added s'))%nat.
Proof. destruct 1; cbn; try lia. destruct (r =? 0); rewrite ?length_app; lia. Qed.

Lemma go_length P s xs : gsys_ok P s xs → (length xs ≤ length (gy_added s))%nat.
Proof. intros H. rewrite (go_all _ _ _ H), length_app, length_fmap. lia. Qed.

Lemma saved_disk (P : save_env → Prop) e xs s :
  saved_as e xs s → P e → (∀ e, P e → save_ok e) → printer_ok → on_disk (g_file s) xs.*2.
Proof.
  intros Hs HP HPs Hg. destruct (Hg xs.*2) as (json & Hj & Hp). rewrite (Hs (HPs e HP) json Hj). by exists xs.*2.
Qed.

Lemma gstep_ok P s s' xs : gstep P s s' → gsys_ok P s xs → Z.of_nat (length (gy_added s)) + 1 < max_items → ∃ xs', gsys_ok P s' xs'.
Proof.
  intros Hstep Hok Hn. pose proof (go_length _ _ _ Hok) as Hlen. destruct Hok as [Hs Hl Hid Hit Hall Hdisk].
  destruct Hstep as [s e mem_node mem_cont id runtime i r g' HP Hr|s id b g' Hr|s it g' Hi Hr|s e it x g' HP Hi Hx Hf Hr].
  - pose proof (gc_add_ok e mem_node mem_cont (Some id) runtime (Some i) (gy s) xs Hs Hl ltac:(lia)) as H. unfold wp in H. rewrite Hr in H.
    destruct H as [[-> ->]|(-> & (Hl' & _) & i' & p & [= <-] & Hs' & Hsv)]; [by exists xs|]. eexists. split; cbn [gy gy_it gy_added gy_collected]; [exact Hs'|done| | | |].
    + rewrite fmap_app, Forall_app. split; [done|]. constructor; [by eexists|constructor].
    + intros it Hi. destruct (Hit it Hi) as (x & xs' & ->). by eexists _, _.
    + rewrite fmap_app, app_assoc. cbn. by rewrite Hall.
    + by eapply saved_disk.
  - pose proof (in_progress_ok id (gy s) xs Hs Hl Hid) as H. unfold wp in H. rewrite Hr in H. destruct H as [-> _]. by exists xs.
  - pose proof (next_ok (gy s) xs Hs Hl) as H. unfold wp in H. rewrite Hr in H. destruct H as [-> ->]. exists xs. split; try done. cbn. intros it Hh.
    destruct xs as [|[p x] xs]; [done|]. cbn in Hh. injection Hh as <-. by eexists _, _.
  - destruct (Hit it Hi) as (x' & xs' & ->). assert (x' = x) as ->.
    { destruct Hs as [[_ _ He] _]. apply list.Forall_cons in He as [He _]. cbn in He. congruence. }
    cbn [length] in Hlen. pose proof (do_gc_ok e it x (gy s) xs' Hs Hl ltac:(lia) Hf) as H. unfold wp in H. rewrite Hr in H. destruct H as (Hl' & _ & H).
    cbn in Hid, Hall. apply list.Forall_cons in Hid as [Hidx Hid]. destruct (gone e).
    + destruct H as (Hs' & Hsv & _). exists xs'. split; cbn [gy gy_it gy_added gy_collected]; try done; [by rewrite Hall, <- app_assoc|by eapply saved_disk].
    + destruct H as (Hs' & Hfile & _). exists (xs' ++ [(it, x)]). split; cbn [gy gy_it gy_added gy_collected]; try done.
      * rewrite fmap_app, Forall_app. split; [done|]. by constructor.
      * rewrite Hall, fmap_app. cbn. by rewrite (Permutation_cons_append xs'.*2 x).
      * intros H1 H2. rewrite Hfile. specialize (Hdisk H1 H2). unfold on_disk in *. destruct (g_file (gy s)) as [json|]; [|done].
        destruct Hdisk as (l' & Hp & Hperm). exists l'. split; [done|]. rewrite Hperm, fmap_app. cbn. by rewrite (Permutation_cons_append xs'.*2 x).
Qed.

Lemma empty_lists F conts : lists (mk_gcs false empty_queue F conts [] []) [].
Proof. destruct (@empty_queue_ok gc_element) as [(xs & Hd & Hx) Hf]. destruct xs; [|done]. by split. Qed.

(** The state in which the daemon starts for the first time. *)
Definition gsys_start (conts : gmap cstr cont) : gsys := mk_gsys (mk_gcs false empty_queue None conts [] []) None [] [].

Lemma gsys_reachable_ok P conts s :
  rtc (gstep P) (gsys_start conts) s → Z.of_nat (length (gy_added s)) + 1 < max_items → ∃ xs, gsys_ok P s xs.
Proof.
  revert s. apply (rtc_ind_r (λ s, Z.of_nat (length (gy_added s)) + 1 < max_items → ∃ xs, gsys_ok P s xs)).
  - intros _. exists []. split; try done. apply empty_lists.
  - intros s s' _ Hstep IH Hn. pose proof (gstep_added _ _ _ Hstep). destruct IH as [xs Hok]; [lia|]. eapply gstep_ok; [exact Hstep|exact Hok|lia].
Qed.

(** C15: Nothing is lost: whatever threads add containers and however the rounds of the
    collector end, every container that was added was collected, its process gone
    and its resources released, or is still listed; the daemon is told that
    exactly the listed ones are being collected; and the node in the hands of the
    collector is still there, so that its round is defined. *)
Theorem gc_nothing_lost P conts s :
  rtc (gstep P) (gsys_start conts) s → Z.of_nat (length (gy_added s)) + 1 < max_items →
  ∃ pending, gy_added s ≡ₚ gy_collected s ++ pending ∧
    (∀ id, gc_is_gc_progress id (gy s) = Some (bool_decide (Some id ∈ gc_id <$> pending), gy s)) ∧
    ∀ it e, gy_it s = Some it → found_ok e (gy s) → ∃ x, head pending = Some x ∧
      wp (do_gc_container e it) (λ _ s', g_acts s' = g_acts (gy s) ++ asked e x ∧
        ∀ id, gone e = true → gc_id x = Some id → ∃ t, restarts e (gy s) id t ∧ g_threads s' = g_threads (gy s) ++ t) (gy s).
Proof.
  intros Hr Hn. destruct (gsys_reachable_ok P conts s Hr Hn) as [xs Hok]. pose proof (go_length _ _ _ Hok) as Hlen. destruct Hok as [Hs Hl Hid Hit Hall _].
  exists xs.*2. split; [done|]. split.
  - intros id. pose proof (in_progress_ok id (gy s) xs Hs Hl Hid) as H. unfold wp in H. destruct (gc_is_gc_progress id (gy s)) as [[b g']|]; [|done]. by destruct H as [-> ->].
  - intros it e Hi Hf. destruct (Hit it Hi) as (x & xs' & ->). exists x. split; [done|]. cbn [length] in Hlen.
    eapply wp_mono; [apply (do_gc_ok e it x (gy s) xs' Hs Hl ltac:(lia) Hf)|]. cbn beta. intros _ s' (_ & Ha & H). split; [done|]. intros id Hg Hx. rewrite Hg in H. by apply H.
Qed.

(** *** Progress *)
Fixpoint rounds (env : nat → gc_env) (i n : nat) : GM unit :=
  match n with O => mret tt | S n => gchandler_round (env i);; rounds env (S i) n end.

Lemma gc_round_ok e s xs :
  lists s xs → g_locked s = false → Z.of_nat (length xs) < max_items → found_ok e s →
  wp (gchandler_round e) (λ _ s', g_locked s' = false ∧ ∃ xs', lists s' xs' ∧ (length xs' ≤ length xs)%nat ∧ (gone e = true → length xs' = (length xs - 1)%nat)) s.
Proof.
  intros Hs Hl Hn Hf. apply wp_bind. eapply wp_mono; [by apply next_ok|]. cbn beta. intros r s1 [-> ->]. destruct xs as [|[it x] xs]; cbn [head fmap option_fmap option_map fst].
  { apply wp_ret. split; [done|]. by exists []. }
  cbn [length] in Hn. eapply wp_mono; [apply (do_gc_ok e it x s xs); [done|done|lia|done]|]. cbn beta. intros [] s' (Hl' & _ & H). split; [done|]. destruct (gone e).
  - destruct H as [H _]. exists xs. split; [done|]. cbn [length]. split; [lia|]. intros _. lia.
  - destruct H as [H _]. exists (xs ++ [(it, x)]). split; [done|]. rewrite length_app. cbn [length]. split; [lia|done].
Qed.

Lemma rounds_ok env i n s xs :
  lists s xs → g_locked s = false → Z.of_nat (length xs) < max_items → (∀ j s1, (j < n)%nat → rounds env i j s = Some (tt, s1) → found_ok (env (i + j)%nat) s1) →
  wp (rounds env i n) (λ _ s', g_locked s' = false ∧ ∃ xs', lists s' xs' ∧ (length xs' ≤ length xs)%nat ∧
    ((∀ j, (j < n)%nat → gone (env (i + j)%nat) = true) → length xs' = (length xs - n)%nat)) s.
Proof.
  revert i s xs. induction n as [|n IH]; intros i s xs Hs Hl Hn Hf; cbn [rounds].
  { apply wp_ret. split; [done|]. exists xs. split; [done|]. split; [done|]. intros _. lia. }
  apply wp_bind. assert (Hf0 : found_ok (env i) s) by (rewrite <- (Nat.add_0_r i); apply Hf; [lia|done]).
  pose proof (gc_round_ok (env i) s xs Hs Hl Hn Hf0) as H. unfold wp in H |- *. destruct (gchandler_round (env i) s) as [[[] s1]|] eqn:E; [|done].
  destruct H as (Hl1 & xs1 & Hs1 & Hle & Hg). eapply wp_mono; [apply (IH (S i) s1 xs1 Hs1 Hl1); [lia|]|].
  - intros j s2 Hj Hr. replace (S i + j)%nat with (i + S j)%nat by lia. apply Hf; [lia|]. cbn [rounds]. unfold mbind, M_bind. by rewrite E.
  - cbn beta. intros _ s2 (Hl2 & xs2 & Hs2 & Hle2 & Hg2). split; [done|]. exists xs2. split; [done|]. split; [lia|]. intros Hall.
    assert (gone (env i) = true) as Hg0 by (rewrite <- (Nat.add_0_r i); apply Hall; lia). rewrite (Hg2 ltac:(intros j Hj; replace (S i + j)%nat with (i + S j)%nat by lia; apply Hall; lia)), (Hg Hg0). lia.
Qed.

Lemma rounds_app env i n m s : rounds env i (n + m) s = (rounds env i n;; rounds env (i + n)%nat m) s.
Proof.
  revert i s. induction n as [|n IH]; intros i s; cbn [rounds Nat.add]; [by rewrite Nat.add_0_r|]. unfold mbind, M_bind.
  destruct (gchandler_round (env i) s) as [[[] s1]|]; [|done]. rewrite IH. unfold mbind, M_bind. by replace (i + S n)%nat with (S i + n)%nat by lia.
Qed.

(** C21: Every container is collected in the end: if from some round on the processes
    are gone and their resources can be released, then after as many rounds more
    as there are containers the list is empty. *)
Theorem gc_all_collected env T s xs :
  lists s xs → g_locked s = false → Z.of_nat (length xs) < max_items → (∀ j, (T ≤ j)%nat → gone (env j) = true) →
  (∀ j s1, rounds env 0 j s = Some (tt, s1) → found_ok (env j) s1) →
  wp (rounds env 0 (T + length xs)) (λ _ s', lists s' []) s.
Proof.
  intros Hs Hl Hn Hg Hf. pose proof (rounds_ok env 0 T s xs Hs Hl Hn ltac:(intros j s1 _; apply Hf)) as H. unfold wp in H |- *. rewrite rounds_app. unfold mbind, M_bind.
  destruct (rounds env 0 T s) as [[[] s1]|] eqn:E; [|done]. destruct H as (Hl1 & xs1 & Hs1 & Hle & _).
  eapply wp_mono; [apply (rounds_ok env (0 + T) (length xs) s1 xs1 Hs1 Hl1); [lia|]|].
  - intros j s2 _ Hr. apply (Hf (0 + T + j)%nat). rewrite rounds_app. unfold mbind, M_bind. cbn [Nat.add] in *. by rewrite E.
  - cbn beta. intros _ s2 (_ & xs2 & Hs2 & _ & Hlen). rewrite (nil_length_inv xs2) in Hs2; [done|]. rewrite Hlen; [lia|]. intros j _. apply Hg. lia.
Qed.

(** *** Restarts *)

(** The state of a new process: the sentinel is zeroed, the file is there. *)
Definition boot (F : option string) (conts : gmap cstr cont) : gc_state :=
  mk_gcs false (mk_queue (mk_heap {[1%N := None]} {[1%N := 0%N]} {[1%N := 0%N]}) 1 2) F conts [] [].

Lemma init_ok F conts : wp (on_nodes linked_list_init) (λ _ s, s = mk_gcs false empty_queue F conts [] []) (boot F conts).
Proof. by vm_compute. Qed.

Lemma restore_loop_ok mem i l s xs :
  (∀ j, mem j = true) → lists s xs → wp (restore_loop mem i (Some <$> l)) (λ ok s', ok = true ∧ keeps s s' ∧ ∃ ys, lists s' ys ∧ ys.*2 = xs.*2 ++ l) s.
Proof.
  intros Hm. revert i s xs. induction l as [|x l IH]; intros i s xs Hs; cbn [restore_loop fmap list_fmap].
  { apply wp_ret. split; [done|]. split; [done|]. exists xs. by rewrite app_nil_r. }
  rewrite Hm. cbn [negb]. apply wp_bind. eapply wp_mono; [by apply append_node_ok|]. cbn beta. intros [] s1 [(K1 & K2 & K3 & K4 & K5) (p & Hs1)].
  eapply wp_mono; [by apply IH|]. cbn beta. intros ok s2 (-> & (L1 & L2 & L3 & L4 & L5) & ys & Hs2 & Hys). split; [done|]. split; [unfold keeps; intuition congruence|].
  exists ys. split; [done|]. rewrite Hys, fmap_app, <- app_assoc. done.
Qed.

Lemma restart_ok e mem F conts pending :
  printer_ok → save_ok e → (∀ i, mem i = true) → on_disk F pending → Z.of_nat (length pending) < max_items →
  wp (new_gchandler true e mem) (λ r s', r = 0 ∧ g_locked s' = false ∧ on_disk (g_file s') pending ∧ ∃ xs, lists s' xs ∧ xs.*2 ≡ₚ pending) (boot F conts).
Proof.
  intros Hg He Hm Hd Hn. unfold new_gchandler. apply wp_bind. eapply wp_mono; [apply init_ok|]. cbn beta. intros [] s ->. cbn [negb].
  pose proof (empty_lists F conts) as Hs. apply wp_bind. apply (wp_mono _ (λ r s', r = 0 ∧ g_locked s' = false ∧ on_disk (g_file s') pending ∧ ∃ xs, lists s' xs ∧ xs.*2 ≡ₚ pending)).
  2:{ intros r s' (-> & H). apply wp_ret. by split. }
  unfold gc_restore, read_gc_config. pose proof He as (_ & _ & _ & root & -> & Hroot). apply wp_bind.
  rewrite decide_False by lia. apply wp_bind, wp_get, wp_ret. cbn [g_file]. destruct F as [json|]; [|cbn in Hd; subst; apply wp_ret; split_and!; [done..|]; by exists []].
  destruct Hd as (l & -> & Hl). apply wp_bind, wp_gc_lock; [done|]. apply wp_bind. eapply wp_mono; [by eapply (restore_loop_ok mem 0 l _ [])|]. cbn beta.
  intros ok s1 (-> & (K1 & _) & ys & Hs1 & Hys). cbn [negb]. cbn in Hys. apply wp_bind. eapply wp_mono; [eapply (to_disk_ok e s1 ys Hs1)|].
  { rewrite <- (length_fmap snd), Hys, Hl. done. }
  cbn beta. destruct (Hg l) as (json' & Hj & Hp). rewrite Hys. intros _ s2 [_ Hsv]. rewrite (Hsv He json' Hj). apply wp_bind, wp_gc_unlock; [exact K1|].
  apply wp_ret. split; [done|]. split; [done|]. split; [by exists l|]. exists ys. split; [exact Hs1|]. by rewrite Hys.
Qed.

(** C16: A restart of the daemon loses nothing: if saving works, the collector of the
    new process starts with the containers that were added and not collected, in
    some order, and says of exactly these that they are being collected. *)
Theorem gc_survives_restart conts conts' e mem s :
  printer_ok → rtc (gstep save_ok) (gsys_start conts) s → Z.of_nat (length (gy_added s)) + 1 < max_items → save_ok e → (∀ i, mem i = true) →
  wp (new_gchandler true e mem) (λ r s', r = 0 ∧ ∃ pending, gy_added s ≡ₚ gy_collected s ++ pending ∧ on_disk (g_file s') pending ∧
    (∃ xs, lists s' xs ∧ xs.*2 = pending) ∧ ∀ id, gc_is_gc_progress id s' = Some (bool_decide (Some id ∈ gc_id <$> pending), s')) (boot (g_file (gy s)) conts').
Proof.
  intros Hg Hr Hn He Hm. destruct (gsys_reachable_ok save_ok conts s Hr Hn) as [xs Hok]. pose proof (go_length _ _ _ Hok) as Hlen. destruct Hok as [_ _ Hid _ Hall Hdisk].
  eapply wp_mono; [eapply (restart_ok e mem _ conts' xs.*2 Hg He Hm); [by apply Hdisk|rewrite length_fmap; lia]|]. cbn beta.
  intros r s' (-> & Hl & Hd & ys & Hs & Hperm). split; [done|]. exists ys.*2. split; [by rewrite Hall, Hperm|]. split; [|split; [by exists ys|]].
  - unfold on_disk in *. destruct (g_file s') as [json|]; [|subst; rewrite Hd in Hperm; by apply Permutation_nil_r in Hperm]. destruct Hd as (l & Hp & Hl'). exists l. split; [done|]. by rewrite Hperm.
  - intros id. pose proof (in_progress_ok id s' ys Hs Hl ltac:(by rewrite Hperm)) as H. unfold wp in H. destruct (gc_is_gc_progress id s') as [[b g']|]; [|done]. by destruct H as [-> ->].
Qed.
End gc.

(** ** A run *)
Section examples.
#[local] Instance gc_element_eq_dec : EqDecision gc_element.
Proof. solve_decision. Defined.
#[local] Program Instance gc_element_countable : Countable gc_element :=
  inj_countable' (λ x, (gc_id x, gc_runtime x, gc_pid x, gc_start_time x, gc_ppid x, gc_p_start_time x)) (λ '(a, b, c, d, e, f), mk_gc a b c d e f) _.
Next Obligation. by intros []. Qed.

(** A printer and a parser: the binary digits of the code of a list. *)
Fixpoint pos_str (p : positive) : string :=
  match p with xH => "" | xO p => String "0" (pos_str p) | xI p => String "1" (pos_str p) end.
Fixpoint str_pos (s : string) : positive :=
  match s with EmptyString => xH | String c s => if Ascii.eqb c "0" then xO (str_pos s) else xI (str_pos s) end.

Lemma str_pos_str p : str_pos (pos_str p) = p.
Proof. induction p as [p IH|p IH|]; cbn; by rewrite ?IH. Qed.

Definition sample_print (l : list (option gc_element)) : option string := Some (pos_str (encode l)).
Definition sample_parse (s : string) : option (list (option gc_element)) := decode (str_pos s).

Lemma sample_printer_ok : printer_ok sample_print sample_parse.
Proof. intros l. eexists. split; [done|]. unfold sample_parse. by rewrite str_pos_str, decode_encode. Qed.

Definition sample_save : save_env := mk_save (Some "/var/lib/isulad"%string) true true (λ t, Z.of_nat (String.length t)).

Lemma sample_save_ok : save_ok sample_save.
Proof. split_and!; try done. eexists. split; [done|]. apply Nat.ltb_lt. vm_compute. reflexivity. Qed.

Definition sample_id : cstr := cstr_of "c1".
Definition sample_element : gc_element := mk_gc (Some sample_id) (Some (cstr_of "runc")) 42 7 41 6.

(** The container c1 is added. *)
Definition sample_gc : gc_state :=
  match gc_add_container sample_print sample_save true true (Some sample_id) (Some (cstr_of "runc")) (Some (mk_pid_info 42 41 7 6)) (gy (gsys_start ∅)) with
  | Some (_, s) => s
  | None => gy (gsys_start ∅)
  end.

Lemma sample_add :
  gc_add_container sample_print sample_save true true (Some sample_id) (Some (cstr_of "runc")) (Some (mk_pid_info 42 41 7 6)) (gy (gsys_start ∅)) = Some (0, sample_gc).
Proof. vm_compute. reflexivity. Qed.

(** The collector took its node. *)
Definition sample_gsys : gsys := mk_gsys sample_gc (Some 2%N) [sample_element] [].

Lemma sample_next : gchandler_next sample_gc = Some (Some 2%N, sample_gc).
Proof. vm_compute. reflexivity. Qed.

Lemma sample_gsys_reachable : rtc (gstep sample_print save_ok) (gsys_start ∅) sample_gsys.
Proof.
  eapply rtc_l; [exact (g_add sample_print save_ok (gsys_start ∅) _ _ _ _ _ _ _ _ sample_save_ok sample_add)|].
  apply rtc_once. exact (g_next sample_print save_ok (mk_gsys sample_gc None [sample_element] []) _ _ eq_refl sample_next).
Qed.

Lemma sample_bound : Z.of_nat (length (gy_added sample_gsys)) + 1 < max_items.
Proof. by rewrite max_items_eq. Qed.

(** The process is there in the first round and gone afterwards. *)
Definition sample_gc_env (i : nat) : gc_env :=
  mk_gc_env true (if decide (i = 0%nat) then 0 else -1) 0 sample_save None None None rm_mem_ok true (λ _, 3) "later" true 0 None 0 0.

Lemma sample_found i s : found_ok (sample_gc_env i) s.
Proof. split; [done|]. by intros k [|]. Qed.

Lemma gc_nothing_lost_witness :
  gy_it sample_gsys = Some 2%N ∧ found_ok (sample_gc_env 0) (gy sample_gsys) ∧ ∃ pending, [sample_element] ≡ₚ [] ++ pending ∧
    (∀ id, gc_is_gc_progress id sample_gc = Some (bool_decide (Some id ∈ gc_id <$> pending), sample_gc)) ∧
    ∀ it e, gy_it sample_gsys = Some it → found_ok e sample_gc → ∃ x, head pending = Some x ∧
      wp (do_gc_container sample_print e it) (λ _ s', g_acts s' = g_acts sample_gc ++ asked e x ∧
        ∀ id, gone e = true → gc_id x = Some id → ∃ t, restarts e sample_gc id t ∧ g_threads s' = g_threads sample_gc ++ t) sample_gc.
Proof.
  split; [done|]. split; [apply sample_found|]. exact (gc_nothing_lost sample_print sample_parse save_ok ∅ sample_gsys sample_gsys_reachable sample_bound).
Defined.

Lemma gc_all_collected_witness :
  ∃ xs : list (ptr * gc_element), [sample_element] ≡ₚ xs.*2 ∧ wp (rounds sample_print sample_gc_env 0 (1 + length xs)) (λ _ s', lists s' []) sample_gc.
Proof.
  destruct (gsys_reachable_ok sample_print sample_parse save_ok ∅ sample_gsys sample_gsys_reachable sample_bound) as [xs Hok].
  pose proof (go_length _ _ _ _ _ Hok) as Hlen. cbn in Hlen. exists xs. split; [exact (go_all _ _ _ _ _ Hok)|].
  apply (gc_all_collected sample_print sample_gc_env 1 sample_gc xs); [apply Hok|apply Hok|rewrite max_items_eq; lia| |].
  - intros j Hj. destruct j; [lia|done].
  - intros j s1 _. apply sample_found.
Defined.

Lemma gc_survives_restart_witness :
  wp (new_gchandler sample_print sample_parse true sample_save (λ _, true)) (λ r s', r = 0 ∧ ∃ pending, [sample_element] ≡ₚ [] ++ pending ∧
    on_disk sample_parse (g_file s') pending ∧ (∃ xs, lists s' xs ∧ xs.*2 = pending) ∧
    ∀ id, gc_is_gc_progress id s' = Some (bool_decide (Some id ∈ gc_id <$> pending), s')) (boot (g_file sample_gc) ∅).
Proof.
  exact (gc_survives_restart sample_print sample_parse ∅ ∅ sample_save (λ _, true) sample_gsys sample_printer_ok sample_gsys_reachable sample_bound sample_save_ok
    (λ _, eq_refl)).
Defined.
End examples.
