(* ===== verification/BlockingQueue.v ===== *)
(** * The blocking queue

    [src/utils/cutils/blocking_queue.c]: a singly linked list with a dummy node
    in front, a mutex and a condition variable.  The operations work on a heap
    of nodes; the threads that push and pop are a step relation, where what a
    thread does while it holds the mutex is one step and waiting gives it up.
    [BQueue] is the interface that the mailbox uses. *)
From stdpp Require Import base gmap list relations numbers.
From Stdlib Require Import ZArith Lia.
From S2P Require Import Prelude.

(** [void *data]: [None] is [NULL]. *)
Record blocking_node (A : Type) := mk_bnode { bn_data : option A; bn_next : option nat }.
Arguments mk_bnode {A} _ _.
Arguments bn_data {A} _.
Arguments bn_next {A} _.

(** [bq_nodes] is the heap and [bq_fresh] its next free address; [bq_release]
    says whether there is a release function and [bq_released] lists its calls. *)
Record blocking_queue (A : Type) := mk_bqueue {
  bq_nodes : gmap nat (blocking_node A);
  bq_fresh : nat;
  bq_head : nat;
  bq_tail : nat;
  bq_timeout : Z;
  bq_release : bool;
  bq_released : list (option A)
}.
Arguments mk_bqueue {A} _ _ _ _ _ _ _.
Arguments bq_nodes {A} _.
Arguments bq_fresh {A} _.
Arguments bq_head {A} _.
Arguments bq_tail {A} _.
Arguments bq_timeout {A} _.
Arguments bq_release {A} _.
Arguments bq_released {A} _.

Definition ETIMEDOUT : Z := 110.

Section operations.
Context {A : Type}.
Let BM := M (blocking_queue A).

Definition set_nodes (f : gmap nat (blocking_node A) → gmap nat (blocking_node A)) (q : blocking_queue A) : blocking_queue A :=
  mk_bqueue (f (bq_nodes q)) (bq_fresh q) (bq_head q) (bq_tail q) (bq_timeout q) (bq_release q) (bq_released q).
Definition set_head (p : nat) (q : blocking_queue A) : blocking_queue A :=
  mk_bqueue (bq_nodes q) (bq_fresh q) p (bq_tail q) (bq_timeout q) (bq_release q) (bq_released q).
Definition set_tail (p : nat) (q : blocking_queue A) : blocking_queue A :=
  mk_bqueue (bq_nodes q) (bq_fresh q) (bq_head q) p (bq_timeout q) (bq_release q) (bq_released q).

(** A read of a node that is not live is undefined. *)
Definition ld_node (p : nat) : BM (blocking_node A) := λ q,
  match bq_nodes q !! p with Some n => Some (n, q) | None => None end.

(** [p->next = next] *)
Definition st_next (p next : nat) : BM unit :=
  n ← ld_node p;
  modify (set_nodes (<[p := mk_bnode (bn_data n) (Some next)]>)).

Definition new_node (data : option A) : BM nat := λ q,
  let p := bq_fresh q in
  Some (p, mk_bqueue (<[p := mk_bnode data None]> (bq_nodes q)) (S p) (bq_head q) (bq_tail q)
             (bq_timeout q) (bq_release q) (bq_released q)).

Definition free_node (p : nat) : BM unit :=
  _ ← ld_node p;
  modify (set_nodes (delete p)).

(** The outcomes of the two allocations and of the initialisation of the mutex
    and the condition variable. *)
Definition blocking_queue_create (mem_queue mem_node mutex cond : bool) (timeout : Z) (release : bool) :
    option (blocking_queue A) :=
  if mem_queue && mem_node && mutex && cond
  then Some (mk_bqueue {[0 := mk_bnode None None]} 1 0 0 (if (0 <=? timeout)%Z then timeout else (-1)%Z) release [])
  else None.

Definition blocking_queue_push (mem lock : bool) (data : option A) : BM Z :=
  if negb mem then mret (-1)%Z else
  new ← new_node data;
  if negb lock then free_node new;; mret (-1)%Z else
  q ← get;
  st_next (bq_tail q) new;;
  modify (set_tail new);;
  mret 0%Z.

(** [blocking_queue_pop] from the test of the loop to the next wait, [None], or
    to the end, where it is what is stored through [data]. *)
Definition pop_round : BM (option (option A)) :=
  q ← get;
  old_head ← ld_node (bq_head q);
  match bn_next old_head with
  | None => mret None
  | Some new_head =>
    n ← ld_node new_head;
    modify (set_head new_head);;
    free_node (bq_head q);;
    mret (Some (bn_data n))
  end.

(** The time at which a wait that begins at [now] (seconds) is given up. *)
Definition wait_deadline (q : blocking_queue A) (now : Z) : option Z :=
  if (0 <=? bq_timeout q)%Z then Some (bq_timeout q + now)%Z else None.

Definition call_release (data : option A) : BM unit :=
  modify (λ q, if bq_release q
               then mk_bqueue (bq_nodes q) (bq_fresh q) (bq_head q) (bq_tail q) (bq_timeout q) (bq_release q)
                      (bq_released q ++ [data])
               else q).

(** The loop of [blocking_queue_clear]. *)
Fixpoint clear_loop (fuel : nat) : BM unit :=
  match fuel with
  | O => fail
  | S fuel =>
    q ← get;
    old_head ← ld_node (bq_head q);
    match bn_next old_head with
    | None => mret tt
    | Some new_head =>
      call_release (bn_data old_head);;
      free_node (bq_head q);;
      modify (set_head new_head);;
      clear_loop fuel
    end
  end.

Definition blocking_queue_clear (lock : bool) : BM unit :=
  if lock then q ← get; clear_loop (S (size (bq_nodes q))) else mret tt.

(** What [blocking_queue_destroy] does before it frees the queue itself. *)
Definition blocking_queue_destroy (lock : bool) : BM unit := blocking_queue_clear lock.
End operations.

(** ** What a queue holds *)

Section contents.
Context {A : Type}.
Implicit Types (q : blocking_queue A) (l : list (option A)).

(** The nodes from [p] to [tail], with their data. *)
Fixpoint chain (h : gmap nat (blocking_node A)) (p : nat) (d : option A) (l : list (option A)) (tail : nat) : Prop :=
  match l with
  | [] => h !! p = Some (mk_bnode d None) ∧ p = tail
  | d' :: l => ∃ p', h !! p = Some (mk_bnode d (Some p')) ∧ p < p' ∧ chain h p' d' l tail
  end.

(** [q] holds [l] behind a dummy node with the data [d]; addresses grow along
    the list, and the nodes are below the next free address. *)
Record bq_models q (d : option A) (l : list (option A)) : Prop := {
  bm_chain : chain (bq_nodes q) (bq_head q) d l (bq_tail q);
  bm_fresh p : is_Some (bq_nodes q !! p) → p < bq_fresh q
}.

Lemma chain_le h p d l tl : chain h p d l tl → p ≤ tl.
Proof. revert p d. induction l as [|d' l IH]; intros p d; [intros [_ ->]; lia|]. intros (p' & _ & ? & ?%IH). lia. Qed.

Lemma chain_tail h p d l tl : chain h p d l tl → ∃ d', h !! tl = Some (mk_bnode d' None).
Proof. revert p d. induction l as [|d' l IH]; intros p d; [intros [? ->]; eauto|]. intros (p' & _ & _ & ?). eauto. Qed.

(** Changes below the first node, or outside the chain, do not matter. *)
Lemma chain_frame h h' p d l tl :
  (∀ x, p ≤ x ≤ tl → h' !! x = h !! x) → chain h p d l tl → chain h' p d l tl.
Proof.
  revert p d. induction l as [|d' l IH]; intros p d Hf; simpl.
  - intros [Hp ->]. by rewrite Hf by lia.
  - intros (p' & Hp & Hlt & Hc). pose proof (chain_le _ _ _ _ _ Hc). exists p'. rewrite Hf by lia. split_and!; [done|done|].
    apply IH; [|done]. intros x Hx. apply Hf. lia.
Qed.

Lemma chain_snoc h p d l tl d' new :
  chain h p d l tl → h !! new = None → tl < new →
  ∃ dt, h !! tl = Some (mk_bnode dt None) ∧
  chain (<[tl := mk_bnode dt (Some new)]> (<[new := mk_bnode d' None]> h)) p d (l ++ [d']) new.
Proof.
  revert p d. induction l as [|d1 l IH]; intros p d; simpl.
  - intros [Hp ->] Hn Hlt. exists d. split; [done|]. exists new. rewrite lookup_insert_eq. split_and!; [done|done| |done].
    by rewrite lookup_insert_ne, lookup_insert_eq by lia.
  - intros (p' & Hp & Hlt' & Hc) Hn Hlt. destruct (IH _ _ Hc Hn Hlt) as (dt & Ht & Hc'). exists dt. split; [done|].
    pose proof (chain_le _ _ _ _ _ Hc). exists p'. by rewrite !lookup_insert_ne by lia.
Qed.

Lemma chain_length h p d l tl : chain h p d l tl → length l < size h.
Proof.
  intros Hc. assert (Hs : ∃ X : gset nat, X ⊆ dom h ∧ size X = S (length l) ∧ ∀ x, x ∈ X → p ≤ x).
  { revert p d Hc. induction l as [|d' l IH]; intros p d; simpl.
    - intros [Hp ->]. exists {[tl]}. rewrite size_singleton. split; [|split; [done|set_solver]].
      apply singleton_subseteq_l, elem_of_dom. eauto.
    - intros (p' & Hp & Hlt & Hc). destruct (IH _ _ Hc) as (X & HX & Hsz & Hge). exists ({[p]} ∪ X).
      assert (p ∉ X) by (intros Hin%Hge; lia). rewrite size_union, size_singleton, Hsz by set_solver.
      split_and!; [|done|].
      + apply union_least; [|done]. apply singleton_subseteq_l, elem_of_dom. eauto.
      + intros x [->%elem_of_singleton|Hx%Hge]%elem_of_union; lia. }
  destruct Hs as (X & HX & Hsz & _). rewrite <- size_dom. apply subseteq_size in HX. lia.
Qed.
End contents.

(** ** The operations on the contents *)

Section specifications.
Context {A : Type}.
Implicit Types (q : blocking_queue A) (l : list (option A)).

(** The calls of the release function so far, and the settings, are the same. *)
Definition same_calls q q' : Prop :=
  bq_released q' = bq_released q ∧ bq_release q' = bq_release q ∧ bq_timeout q' = bq_timeout q.

Lemma create_ok mem_queue mem_node mutex cond timeout release q :
  blocking_queue_create mem_queue mem_node mutex cond timeout release = Some q → bq_models q None [] ∧ bq_released q = [].
Proof.
  unfold blocking_queue_create. destruct (_ && _); [|done]. intros [= <-]. split; [|done]. split; simpl; [by rewrite lookup_singleton_eq|].
  intros p [n [<- _]%lookup_singleton_Some]. lia.
Qed.

Lemma wp_ld_node q p n (Q : blocking_node A → blocking_queue A → Prop) : bq_nodes q !! p = Some n → Q n q → wp (ld_node p) Q q.
Proof. intros Hp HQ. unfold wp, ld_node. by rewrite Hp. Qed.

Lemma wp_free_node q p (Q : unit → blocking_queue A → Prop) :
  is_Some (bq_nodes q !! p) → Q tt (set_nodes (delete p) q) → wp (free_node p) Q q.
Proof. intros [n Hn] HQ. unfold free_node. apply wp_bind. eapply wp_ld_node; [done|]. by apply wp_modify. Qed.

Lemma push_ok mem lock q d l x :
  bq_models q d l →
  wp (blocking_queue_push mem lock x)
    (λ r q', same_calls q q' ∧ if mem && lock then r = 0%Z ∧ bq_models q' d (l ++ [x]) else r = (-1)%Z ∧ bq_models q' d l) q.
Proof.
  intros [Hc Hf]. unfold blocking_queue_push. destruct mem; [|by apply wp_ret]. cbn [negb]. set (new := bq_fresh q).
  assert (Hn : bq_nodes q !! new = None).
  { destruct (bq_nodes q !! new) eqn:E; [|done]. pose proof (Hf new ltac:(by eexists)). unfold new in *. lia. }
  apply wp_bind. unfold wp at 1, new_node. fold new. destruct lock; cbn [negb andb].
  - apply wp_bind, wp_get. cbn [bq_tail]. destruct (chain_tail _ _ _ _ _ Hc) as [dt Ht].
    assert (bq_tail q < new) by (by apply Hf; eexists).
    apply wp_bind. unfold st_next. apply wp_bind. eapply wp_ld_node; [cbn [bq_nodes]; by rewrite lookup_insert_ne by lia|].
    apply wp_modify, wp_bind, wp_modify, wp_ret. cbn. split; [done|]. split; [done|].
    destruct (chain_snoc _ _ _ _ _ x new Hc Hn ltac:(lia)) as (dt' & Ht' & Hc'). rewrite Ht in Ht'. injection Ht' as <-.
    split; [done|]. cbn. intros p [<-|[_ [<-|[_ Hp%Hf]]%lookup_insert_is_Some]]%lookup_insert_is_Some; lia.
  - apply wp_bind, wp_free_node; [cbn; rewrite lookup_insert_eq; by eexists|]. apply wp_ret. split; [done|]. split; [done|].
    split; cbn; rewrite delete_insert_id by done; [done|]. intros p Hp%Hf. lia.
Qed.

Lemma round_ok q d l :
  bq_models q d l →
  wp pop_round (λ r q', match l with
                        | [] => r = None ∧ q' = q
                        | x :: l => r = Some x ∧ same_calls q q' ∧ bq_models q' x l
                        end) q.
Proof.
  intros [Hc Hf]. unfold pop_round. apply wp_bind, wp_get, wp_bind. destruct l as [|x l]; simpl in Hc.
  - destruct Hc as [Hh _]. eapply wp_ld_node; [done|]. by apply wp_ret.
  - destruct Hc as (p' & Hh & Hlt & Hc). eapply wp_ld_node; [done|]. cbn [bn_next]. apply wp_bind.
    assert (Hp' : ∃ n, bq_nodes q !! p' = Some n ∧ bn_data n = x).
    { destruct l as [|y l]; simpl in Hc; [destruct Hc as [-> _]; by eexists|].
      destruct Hc as (? & -> & _). by eexists. }
    destruct Hp' as (n & Hn & Hd). eapply wp_ld_node; [done|]. apply wp_bind, wp_modify, wp_bind, wp_free_node; [by eexists|].
    apply wp_ret. rewrite Hd. split; [done|]. split; [done|]. split; cbn.
    + eapply chain_frame; [|done]. intros y Hy. rewrite lookup_delete_ne by lia. done.
    + intros y [_ Hy]%lookup_delete_is_Some. by apply Hf.
Qed.

(** [blocking_queue_clear] calls the release function on the data of the dummy
    node and on all elements but the last. *)
Lemma clear_loop_ok fuel : ∀ q d l,
  length l < fuel → bq_models q d l →
  wp (clear_loop fuel) (λ _ q', bq_models q' (default d (list.last l)) [] ∧ bq_release q' = bq_release q ∧
    bq_released q' = bq_released q ++ (if bq_release q then take (length l) (d :: l) else [])) q.
Proof.
  induction fuel as [|fuel IH]; intros q d l Hl [Hc Hf]; [lia|]. cbn [clear_loop]. apply wp_bind, wp_get, wp_bind.
  destruct l as [|x l]; simpl in Hc.
  - destruct Hc as [Hh Ht]. eapply wp_ld_node; [done|]. apply wp_ret. split_and!; [by split|done|].
    simpl. destruct (bq_release q); by rewrite app_nil_r.
  - destruct Hc as (p' & Hh & Hlt & Hc). eapply wp_ld_node; [done|]. cbn [bn_next bn_data].
    apply wp_bind, wp_modify. set (q1 := if bq_release q then _ else q).
    assert (Hq1 : bq_nodes q1 = bq_nodes q ∧ bq_fresh q1 = bq_fresh q ∧ bq_tail q1 = bq_tail q ∧ bq_release q1 = bq_release q ∧
                  bq_released q1 = bq_released q ++ (if bq_release q then [d] else [])).
    { subst q1. destruct (bq_release q) eqn:E; cbn; rewrite ?E, ?app_nil_r; done. }
    destruct Hq1 as (En & Ef & Et & Er & Ed). clearbody q1.
    apply wp_bind, wp_free_node; [rewrite En; by eexists|]. apply wp_bind, wp_modify.
    eapply wp_mono; [apply (IH _ x l); [simpl in Hl; lia|]|].
    + split; cbn; rewrite En.
      * rewrite Et. eapply chain_frame; [|done]. intros y Hy. by rewrite lookup_delete_ne by lia.
      * rewrite Ef. intros y [_ Hy]%lookup_delete_is_Some. by apply Hf.
    + cbn. rewrite Er, Ed. intros _ q' (Hm & Hr & Hrel). split_and!; [|done|].
      * rewrite last_cons. by destruct (list.last l).
      * rewrite Hrel, <- app_assoc. by destruct (bq_release q).
Qed.

Lemma clear_ok lock q d l :
  bq_models q d l →
  wp (blocking_queue_clear lock) (λ _ q', bq_release q' = bq_release q ∧
    if lock then bq_models q' (default d (list.last l)) [] ∧
                 bq_released q' = bq_released q ++ (if bq_release q then take (length l) (d :: l) else [])
    else q' = q) q.
Proof.
  intros Hm. destruct lock; [|by apply wp_ret]. unfold blocking_queue_clear. apply wp_bind, wp_get.
  eapply wp_mono; [eapply clear_loop_ok; [|done]|naive_solver].
  destruct Hm as [Hc _]. apply chain_length in Hc. lia.
Qed.
End specifications.

(** ** The interface *)
Class BQueue (A Q : Type) := {
  b_models : Q → option A → list (option A) → Prop;
  b_released : Q → list (option A);
  b_release : Q → bool;
  b_create : Z → bool → Q;
  b_push : bool → bool → option A → M Q Z;
  b_round : M Q (option (option A));
  b_clear : bool → M Q unit;
  b_create_ok timeout release :
    b_models (b_create timeout release) None [] ∧ b_released (b_create timeout release) = [] ∧
    b_release (b_create timeout release) = release;
  b_push_ok mem lock q d l x : b_models q d l →
    wp (b_push mem lock x) (λ r q', (b_released q' = b_released q ∧ b_release q' = b_release q) ∧
      if mem && lock then r = 0%Z ∧ b_models q' d (l ++ [x]) else r = (-1)%Z ∧ b_models q' d l) q;
  b_round_ok q d l : b_models q d l →
    wp b_round (λ r q', match l with
                        | [] => r = None ∧ q' = q
                        | x :: l => r = Some x ∧ (b_released q' = b_released q ∧ b_release q' = b_release q) ∧ b_models q' x l
                        end) q;
  b_clear_ok q d l : b_models q d l →
    wp (b_clear true) (λ _ q', b_release q' = b_release q ∧ b_models q' (default d (list.last l)) [] ∧
      b_released q' = b_released q ++ (if b_release q then take (length l) (d :: l) else [])) q
}.

Section instance.
Context {A : Type}.

Definition empty_bqueue (timeout : Z) (release : bool) : blocking_queue A :=
  mk_bqueue {[0 := mk_bnode None None]} 1 0 0 (if (0 <=? timeout)%Z then timeout else (-1)%Z) release [].

#[global, program] Instance blocking_queue_bqueue : BQueue A (blocking_queue A) := {
  b_models := bq_models; b_released := bq_released; b_release := bq_release;
  b_create := empty_bqueue; b_push := blocking_queue_push; b_round := pop_round; b_clear := blocking_queue_clear }.
Next Obligation. intros timeout release. split; [|done]. by eapply (create_ok true true true true timeout release). Qed.
Next Obligation.
  intros mem lock q d l x Hm. eapply wp_mono; [by eapply push_ok|]. cbn beta. intros r q' [(? & ? & _) ?]. auto.
Qed.
Next Obligation.
  intros q d l Hm. eapply wp_mono; [by eapply round_ok|]. cbn beta. unfold same_calls. destruct l; naive_solver.
Qed.
Next Obligation. intros q d l Hm. eapply wp_mono; [by eapply (clear_ok true)|]. naive_solver. Qed.
End instance.

(** ** Threads *)

(** A thread is about to push, or has pushed; it is about to take the mutex in
    a pop, waits until a time or for ever, or has returned from the pop. *)
Inductive bthread (A : Type) :=
| TPush (data : option A)
| TPushed (ret : Z) (data : option A)
| TPop
| TWait (deadline : option Z)
| TPopped (ret : Z) (data : option (option A)).
Arguments TPush {A} _.
Arguments TPushed {A} _ _.
Arguments TPop {A}.
Arguments TWait {A} _.
Arguments TPopped {A} _ _.

(** The queue, the clock in seconds, the threads, and in order what was pushed
    and what was popped. *)
Record bsys (A : Type) := mk_bsys {
  sy_queue : blocking_queue A;
  sy_clock : Z;
  sy_threads : list (bthread A);
  sy_pushed : list (option A);
  sy_popped : list (option A)
}.
Arguments mk_bsys {A} _ _ _ _ _.
Arguments sy_queue {A} _.
Arguments sy_clock {A} _.
Arguments sy_threads {A} _.
Arguments sy_pushed {A} _.
Arguments sy_popped {A} _.

Section threads.
Context {A : Type}.
Implicit Types (q : blocking_queue A) (ts : list (bthread A)) (t : bthread A).

(** [pthread_cond_broadcast] *)
Definition wake t : bthread A := match t with TWait _ => TPop | _ => t end.

Inductive bstep : bsys A → bsys A → Prop :=
  | bstep_push q c ts ph pp i x mem lock q' r :
      ts !! i = Some (TPush x) → blocking_queue_push mem lock x q = Some (r, q') →
      bstep (mk_bsys q c ts ph pp)
        (mk_bsys q' c (<[i := TPushed r x]> (if decide (r = 0%Z) then wake <$> ts else ts))
           (if decide (r = 0%Z) then ph ++ [x] else ph) pp)
  | bstep_pop q c ts ph pp i q' x :
      ts !! i = Some TPop → pop_round q = Some (Some x, q') →
      bstep (mk_bsys q c ts ph pp) (mk_bsys q' c (<[i := TPopped 0 (Some x)]> ts) ph (pp ++ [x]))
  | bstep_wait q c ts ph pp i q' :
      ts !! i = Some TPop → pop_round q = Some (None, q') →
      bstep (mk_bsys q c ts ph pp) (mk_bsys q' c (<[i := TWait (wait_deadline q c)]> ts) ph pp)
  | bstep_no_lock q c ts ph pp i :
      ts !! i = Some TPop → bstep (mk_bsys q c ts ph pp) (mk_bsys q c (<[i := TPopped (-1) None]> ts) ph pp)
  | bstep_spurious q c ts ph pp i dl :
      ts !! i = Some (TWait dl) → bstep (mk_bsys q c ts ph pp) (mk_bsys q c (<[i := TPop]> ts) ph pp)
  | bstep_give_up q c ts ph pp i dl ret :
      ts !! i = Some (TWait dl) → ret ≠ 0%Z → (ret = ETIMEDOUT → ∃ until, dl = Some until ∧ (until <= c)%Z) →
      bstep (mk_bsys q c ts ph pp) (mk_bsys q c (<[i := TPopped ret None]> ts) ph pp)
  | bstep_tick q c c' ts ph pp :
      (c <= c')%Z → bstep (mk_bsys q c ts ph pp) (mk_bsys q c' ts ph pp).

(** What a thread has pushed and what it has popped. *)
Definition pushed_by t : option (option A) := match t with TPushed ret x => if decide (ret = 0%Z) then Some x else None | _ => None end.
Definition popped_by t : option (option A) := match t with TPopped _ r => r | _ => None end.

(** A thread that has not been called yet. *)
Definition starting t : Prop := match t with TPush _ | TPop => True | _ => False end.

(** The queue holds what was pushed and not popped yet, and a thread waits only
    while there is nothing. *)
Record bsys_ok (s : bsys A) : Prop := {
  bs_queue : ∃ d l, bq_models (sy_queue s) d l ∧ sy_pushed s = sy_popped s ++ l ∧
    ((∃ i dl, sy_threads s !! i = Some (TWait dl)) → l = []);
  bs_pushed : omap pushed_by (sy_threads s) ≡ₚ sy_pushed s;
  bs_popped : omap popped_by (sy_threads s) ≡ₚ sy_popped s
}.

Lemma omap_insert {B} (f : bthread A → option B) ts i t t' :
  ts !! i = Some t → f t = None → omap f (<[i := t']> ts) ≡ₚ omap f ts ++ option_list (f t').
Proof.
  intros Hi Ht. rewrite insert_take_drop by (by eapply lookup_lt_Some). rewrite <- (take_drop_middle ts i t Hi) at 3.
  rewrite !omap_app. cbn [omap list_omap]. rewrite Ht. destruct (f t') as [y|]; simpl; [|by rewrite app_nil_r].
  rewrite <- app_assoc. f_equiv. by rewrite Permutation_cons_append.
Qed.

Lemma omap_wake {B} (f : bthread A → option B) ts :
  (∀ t, f (wake t) = f t) → omap f (wake <$> ts) = omap f ts.
Proof. intros Hf. induction ts as [|t ts IH]; [done|]. simpl. rewrite Hf. destruct (f t); [f_equal|]; exact IH. Qed.

Lemma wake_no_wait ts i dl : (wake <$> ts) !! i ≠ Some (TWait dl).
Proof. rewrite list_lookup_fmap. destruct (ts !! i) as [[]|]; simpl; congruence. Qed.

(** A step of one thread that neither pushes nor pops. *)
Lemma quiet_ok q c c' ts ph pp i t t' :
  ts !! i = Some t → pushed_by t = None → popped_by t = None → pushed_by t' = None → popped_by t' = None →
  (∀ dl, t' = TWait dl → ∀ d l, bq_models q d l → l = []) →
  bsys_ok (mk_bsys q c ts ph pp) → bsys_ok (mk_bsys q c' (<[i := t']> ts) ph pp).
Proof.
  intros Hi H1 H2 H3 H4 Hw [(d & l & Hm & Hl & Hq) Hpu Hpo]. cbn [sy_queue sy_threads sy_pushed sy_popped] in *.
  split; cbn [sy_queue sy_threads sy_pushed sy_popped].
  - exists d, l. split_and!; [done|done|]. intros (j & dl & Hj).
    apply list_lookup_insert_Some in Hj as [(<- & -> & _)|[_ Hj]]; [by eapply Hw|eauto].
  - by rewrite (omap_insert _ _ _ _ _ Hi H1), H3, app_nil_r.
  - by rewrite (omap_insert _ _ _ _ _ Hi H2), H4, app_nil_r.
Qed.

Lemma round_empty q d l q' : bq_models q d l → pop_round q = Some (None, q') → l = [] ∧ q' = q.
Proof. intros Hm E. pose proof (round_ok q d l Hm) as (r & q1 & E' & H)%wp_run. rewrite E in E'. injection E' as <- <-. destruct l; naive_solver. Qed.

Lemma bstep_push_ok q c ts ph pp i x mem lock q' r :
  ts !! i = Some (TPush x) → blocking_queue_push mem lock x q = Some (r, q') → bsys_ok (mk_bsys q c ts ph pp) →
  bsys_ok (mk_bsys q' c (<[i := TPushed r x]> (if decide (r = 0%Z) then wake <$> ts else ts))
             (if decide (r = 0%Z) then ph ++ [x] else ph) pp).
Proof.
  intros Hi E [(d & l & Hm & Hl & Hq) Hpu Hpo]. cbn [sy_queue sy_threads sy_pushed sy_popped] in *.
  pose proof (push_ok mem lock q d l x Hm) as (r1 & q1 & E1 & _ & H)%wp_run. rewrite E in E1. injection E1 as <- <-.
  destruct (mem && lock); destruct H as [-> Hm'];
    [rewrite !(decide_True (P := (0 = 0)%Z)) by done|rewrite !(decide_False (P := (-1 = 0)%Z)) by done]; split; cbn [sy_queue sy_threads sy_pushed sy_popped].
  - exists d, (l ++ [x]). split_and!; [done|by rewrite Hl, <- app_assoc|].
    intros (j & dl & [(<- & ? & _)|[_ Hj]]%list_lookup_insert_Some); [done|by apply wake_no_wait in Hj].
  - rewrite (omap_insert _ _ _ (TPush x)); [|by rewrite list_lookup_fmap, Hi|done]. rewrite omap_wake by (by intros []). by rewrite Hpu.
  - rewrite (omap_insert _ _ _ (TPush x)); [|by rewrite list_lookup_fmap, Hi|done]. rewrite omap_wake by (by intros []).
    by rewrite Hpo, app_nil_r.
  - exists d, l. split_and!; [done|done|]. intros (j & dl & [(<- & ? & _)|[_ Hj]]%list_lookup_insert_Some); [done|eauto].
  - by rewrite (omap_insert _ _ _ _ _ Hi), app_nil_r.
  - by rewrite (omap_insert _ _ _ _ _ Hi), app_nil_r.
Qed.

Lemma bstep_pop_ok q c ts ph pp i q' x :
  ts !! i = Some TPop → pop_round q = Some (Some x, q') → bsys_ok (mk_bsys q c ts ph pp) →
  bsys_ok (mk_bsys q' c (<[i := TPopped 0 (Some x)]> ts) ph (pp ++ [x])).
Proof.
  intros Hi E [(d & l & Hm & Hl & Hq) Hpu Hpo]. cbn [sy_queue sy_threads sy_pushed sy_popped] in *.
  pose proof (round_ok q d l Hm) as (r & q1 & E1 & H)%wp_run. rewrite E in E1. injection E1 as <- <-.
  destruct l as [|y l]; [by destruct H|]. destruct H as ([= <-] & _ & Hm').
  split; cbn [sy_queue sy_threads sy_pushed sy_popped].
  - exists x, l. split_and!; [done|by rewrite Hl, <- app_assoc|].
    intros (j & dl & [(<- & ? & _)|[_ Hj]]%list_lookup_insert_Some); [done|]. by discriminate Hq; eauto.
  - by rewrite (omap_insert _ _ _ _ _ Hi), app_nil_r.
  - by rewrite (omap_insert _ _ _ _ _ Hi), Hpo.
Qed.

Lemma bstep_ok s s' : bstep s s' → bsys_ok s → bsys_ok s'.
Proof.
  intros Hs Hok. destruct Hs as [q c ts ph pp i x mem lock q' r Hi E|q c ts ph pp i q' x Hi E|q c ts ph pp i q' Hi E
                 |q c ts ph pp i Hi|q c ts ph pp i dl Hi|q c ts ph pp i dl ret Hi _ _|q c c' ts ph pp Hc].
  - by eapply bstep_push_ok.
  - by eapply bstep_pop_ok.
  - pose proof Hok as [(d & l & Hm & _) _ _]. destruct (round_empty _ _ _ _ Hm E) as [_ ->].
    eapply quiet_ok; try done. intros dl _ d' l' Hm'. by eapply round_empty.
  - by eapply quiet_ok.
  - by eapply quiet_ok.
  - by eapply quiet_ok.
  - destruct Hok. by split.
Qed.
End threads.

Section theorems.
Context {A : Type}.
Implicit Types (q : blocking_queue A).

Lemma bsys_start q c ts d : bq_models q d [] → Forall starting ts → bsys_ok (mk_bsys q c ts [] []).
Proof.
  intros Hm Hts.
  assert (Hnone : ∀ B (f : bthread A → option B), (∀ t, starting t → f t = None) → omap f ts = []).
  { intros B f Hf. induction Hts as [|t ts Ht _ IH]; [done|]. simpl. by rewrite (Hf t Ht). }
  split; cbn.
  - by exists d, [].
  - rewrite Hnone; [done|]. by intros [].
  - rewrite Hnone; [done|]. by intros [].
Qed.


(** [blocking_queue_clear] starts with the dummy node: the data that the last
    pop handed out is released again, and the last element is not released. *)
Theorem blocking_queue_clear_after_pop q d x l :
  bq_models q d (x :: l) → bq_release q = true →
  wp (r ← pop_round; blocking_queue_clear true;; mret r)
    (λ r q', r = Some x ∧ bq_released q' = bq_released q ++ take (length l) (x :: l)) q.
Proof.
  intros Hm Hr. apply wp_bind. eapply wp_mono; [by eapply round_ok|]. cbn beta. intros r q1 (-> & (E1 & E2 & _) & Hm1).
  apply wp_bind. eapply wp_mono; [by eapply (clear_ok true)|]. cbn beta. intros _ q2 (_ & _ & E3). apply wp_ret.
  by rewrite E3, E1, E2, Hr.
Qed.
End theorems.


(** Two elements behind the dummy node. *)
Definition demo_bqueue : blocking_queue nat :=
  mk_bqueue (<[0 := mk_bnode None (Some 1)]> (<[1 := mk_bnode (Some 7) (Some 2)]> {[2 := mk_bnode (Some 8) None]}))
    3 0 2 (-1) true [].

Lemma demo_bqueue_models : bq_models demo_bqueue None [Some 7; Some 8].
Proof.
  split.
  - exists 1. split_and!; [done|cbn; lia|]. exists 2. split_and!; [done|cbn; lia|]. by split.
  - intros p Hp. destruct p as [|[|[|p]]]; [simpl; lia..|]. exfalso. unfold demo_bqueue in Hp. cbn [bq_nodes] in Hp.
    rewrite !lookup_insert_ne, lookup_singleton_ne in Hp by done. by destruct Hp.
Qed.

Lemma blocking_queue_clear_after_pop_witness :
  wp (r ← pop_round; blocking_queue_clear true;; mret r)
    (λ r q', r = Some (Some 7) ∧ bq_released q' = [Some 7]) demo_bqueue.
Proof. apply (blocking_queue_clear_after_pop demo_bqueue None (Some 7) [Some 8]); [exact demo_bqueue_models|reflexivity]. Defined.
