(* ===== verification/Mailbox.v ===== *)
(** * The mailbox

    [src/daemon/mailbox]: messages with a reference count ([mailbox_message.c]),
    subscribers ([message_subscriber.c]), the queue of a topic whose thread
    hands every message to all subscribers ([message_queue.c]), and the topics
    ([mailbox.c]; there is one).  The queues are those of BlockingQueue, through
    the interface [BQueue].  A lock on an initialised mutex or lock succeeds. *)
From stdpp Require Import base gmap list relations numbers.
From Stdlib Require Import ZArith Lia.
From S2P Require Import Prelude BlockingQueue.

(** A message, named by its address; [mm_destroy]: there is a function that
    destroys the data. *)
Record mailbox_message (D : Type) := mk_message { mm_data : D; mm_count : Z; mm_destroy : bool }.
Arguments mk_message {D} _ _ _.
Arguments mm_data {D} _.
Arguments mm_count {D} _.
Arguments mm_destroy {D} _.

(** The queue of a topic, and the set of its subscribers. *)
Record message_queue (Q : Type) := mk_mq { mq_messages : Q; mq_subscribers : gset nat }.
Arguments mk_mq {Q} _ _.
Arguments mq_messages {Q} _.
Arguments mq_subscribers {Q} _.

(** The handler of the topic. *)
Record topic_handler (Q : Type) := mk_handler {
  h_generator : bool; h_release : bool; h_queue : option (message_queue Q); h_registered : bool }.
Arguments mk_handler {Q} _ _ _ _.
Arguments h_generator {Q} _.
Arguments h_release {Q} _.
Arguments h_queue {Q} _.
Arguments h_registered {Q} _.

(** The live messages, the messages that were freed with the data that was
    passed to the destructor, the queues of the live subscribers, and the
    handler; addresses are taken in order. *)
Record mailbox (D Q : Type) := mk_mailbox {
  mb_msgs : gmap nat (mailbox_message D);
  mb_fresh : nat;
  mb_freed : list (nat * option D);
  mb_subs : gmap nat Q;
  mb_next_sub : nat;
  mb_handler : topic_handler Q
}.
Arguments mk_mailbox {D Q} _ _ _ _ _ _.
Arguments mb_msgs {D Q} _.
Arguments mb_fresh {D Q} _.
Arguments mb_freed {D Q} _.
Arguments mb_subs {D Q} _.
Arguments mb_next_sub {D Q} _.
Arguments mb_handler {D Q} _.

Definition subscribe_timeout : Z := 300.
Definition BLOCKING_QUEUE_NO_TIMEOUT : Z := -1.
Definition MAILBOX_TOPIC_INVALID : Z := -1.
Definition MAILBOX_TOPIC_MAX : Z := 1.

Section operations.
Context {D Q : Type} `{BQueue nat Q}.
Let MB := M (mailbox D Q).

Definition set_msgs (f : gmap nat (mailbox_message D) → gmap nat (mailbox_message D)) (b : mailbox D Q) : mailbox D Q :=
  mk_mailbox (f (mb_msgs b)) (mb_fresh b) (mb_freed b) (mb_subs b) (mb_next_sub b) (mb_handler b).
Definition set_subs (f : gmap nat Q → gmap nat Q) (b : mailbox D Q) : mailbox D Q :=
  mk_mailbox (mb_msgs b) (mb_fresh b) (mb_freed b) (f (mb_subs b)) (mb_next_sub b) (mb_handler b).
Definition set_handler (h : topic_handler Q) (b : mailbox D Q) : mailbox D Q :=
  mk_mailbox (mb_msgs b) (mb_fresh b) (mb_freed b) (mb_subs b) (mb_next_sub b) h.
Definition set_queue (mq : message_queue Q) (b : mailbox D Q) : mailbox D Q :=
  let h := mb_handler b in set_handler (mk_handler (h_generator h) (h_release h) (Some mq) (h_registered h)) b.

(** An access to a message that is not live is undefined. *)
Definition ld_message (m : nat) : MB (mailbox_message D) := λ b,
  match mb_msgs b !! m with Some msg => Some (msg, b) | None => None end.

Definition ld_sub (s : nat) : MB Q := λ b,
  match mb_subs b !! s with Some q => Some (q, b) | None => None end.

(** An operation on the queue of a subscriber. *)
Definition on_sub {A} (s : nat) (f : M Q A) : MB A :=
  q ← ld_sub s;
  match f q with
  | Some (a, q') => modify (set_subs (<[s := q']>));; mret a
  | None => fail
  end.

(** *** [mailbox_message.c] *)

Definition mailbox_message_create (mem mutex : bool) (data : D) (destroy : bool) : MB (option nat) :=
  if mem && mutex then λ b,
    let m := mb_fresh b in
    Some (Some m, mk_mailbox (<[m := mk_message data 1 destroy]> (mb_msgs b)) (S m) (mb_freed b)
                    (mb_subs b) (mb_next_sub b) (mb_handler b))
  else mret None.

Definition mailbox_message_ref (dest : option nat) : MB Z :=
  match dest with
  | None => mret (-1)%Z
  | Some m =>
    msg ← ld_message m;
    if decide (mm_count msg = INT_MAX) then mret (-1)%Z else
    modify (set_msgs (<[m := mk_message (mm_data msg) (u64 (mm_count msg + 1)) (mm_destroy msg)]>));;
    mret 0%Z
  end.

Definition destroy_message (m : nat) (msg : mailbox_message D) : MB unit :=
  modify (λ b, mk_mailbox (delete m (mb_msgs b)) (mb_fresh b)
                 (mb_freed b ++ [(m, if mm_destroy msg then Some (mm_data msg) else None)])
                 (mb_subs b) (mb_next_sub b) (mb_handler b)).

Definition mailbox_message_unref (dest : option nat) : MB unit :=
  match dest with
  | None => mret tt
  | Some m =>
    msg ← ld_message m;
    if decide (mm_count msg = 0%Z) then mret tt else
    let count := u64 (mm_count msg - 1) in
    if decide (count = 0%Z) then destroy_message m msg
    else modify (set_msgs (<[m := mk_message (mm_data msg) count (mm_destroy msg)]>))
  end.

(** *** [message_subscriber.c] *)

(** [mem_queue]: [blocking_queue_create] succeeds. *)
Definition message_subscriber_create (mem mem_queue : bool) (timeout : Z) (release : bool) : MB (option nat) :=
  if mem && mem_queue then λ b,
    let s := mb_next_sub b in
    Some (Some s, mk_mailbox (mb_msgs b) (mb_fresh b) (mb_freed b) (<[s := b_create timeout release]> (mb_subs b))
                    (S s) (mb_handler b))
  else mret None.

Definition message_subscriber_push (mem : bool) (sub msg : option nat) : MB Z :=
  match sub, msg with
  | Some s, Some m =>
    ret ← mailbox_message_ref (Some m);
    if decide (ret ≠ 0%Z) then mret (-1)%Z else
    ret ← on_sub s (b_push mem true (Some m));
    if decide (ret ≠ 0%Z) then mailbox_message_unref (Some m);; mret (-1)%Z else mret 0%Z
  | _, _ => mret (-1)%Z
  end.

(** One round of [message_subscriber_pop]; [None]: it waits. *)
Definition message_subscriber_pop_round (s : nat) : MB (option (option nat)) := on_sub s b_round.

(** [blocking_queue_clear]: the release function of a queue is that of the
    topic, which destroys the data of a message; called on a message itself it
    is undefined. *)
Definition clear_queue (q : Q) : option Q :=
  match b_clear true q with
  | Some (_, q') =>
    if decide (Forall (λ x, x = None) (drop (length (b_released q)) (b_released q'))) then Some q' else None
  | None => None
  end.

Definition message_subscriber_shutdown (mem : bool) (sub : option nat) : MB unit :=
  match sub with
  | None => mret tt
  | Some s =>
    q ← ld_sub s;
    match clear_queue q with
    | None => fail
    | Some q => modify (set_subs (<[s := q]>));; on_sub s (b_push mem true None);; mret tt
    end
  end.

Definition message_subscriber_destroy (sub : option nat) : MB unit :=
  match sub with
  | None => mret tt
  | Some s =>
    q ← ld_sub s;
    match clear_queue q with None => fail | Some _ => modify (set_subs (delete s)) end
  end.

(** *** [message_queue.c] *)

(** The outcomes of the allocations, the lock and the thread. *)
Definition message_queue_create (mem mem_queue mem_map rwlock thread release : bool) : option (message_queue Q) :=
  if mem && mem_queue && mem_map && rwlock && thread
  then Some (mk_mq (b_create BLOCKING_QUEUE_NO_TIMEOUT release) ∅) else None.

Definition ld_queue : MB (message_queue Q) := λ b,
  match h_queue (mb_handler b) with Some mq => Some (mq, b) | None => None end.

(** An operation on the queue of messages. *)
Definition on_queue {A} (f : M Q A) : MB A :=
  mq ← ld_queue;
  match f (mq_messages mq) with
  | Some (a, q) => modify (set_queue (mk_mq q (mq_subscribers mq)));; mret a
  | None => fail
  end.

(** The thread takes the next message; [None]: it waits. *)
Definition queue_take : MB (option (option nat)) := on_queue b_round.

(** The loop over the subscribers; the result says whether all pushes succeed. *)
Fixpoint deliver_loop (mem : nat → bool) (subs : list nat) (msg : option nat) : MB bool :=
  match subs with
  | [] => mret true
  | s :: subs =>
    ret ← match msg with
          | None => message_subscriber_shutdown (mem s) (Some s);; mret 0%Z
          | Some _ => message_subscriber_push (mem s) (Some s) msg
          end;
    all ← deliver_loop mem subs msg;
    mret (bool_decide (ret = 0%Z) && all)
  end.

(** The rest of a round of [message_queue_thread], under the read lock:
    [mem_itor] and [mem] are the outcomes of the allocations of the iterator and
    of the pushes.  The order of the subscribers does not matter, each has its
    own queue.  The results: whether the thread goes on, and whether every
    subscriber got the message. *)
Definition queue_deliver (mem_itor : bool) (mem : nat → bool) (msg : option nat) : MB (bool * bool) :=
  mq ← ld_queue;
  if negb mem_itor then mailbox_message_unref msg;; mret (false, false) else
  all ← deliver_loop mem (elements (mq_subscribers mq)) msg;
  mailbox_message_unref msg;;
  mret (bool_decide (is_Some msg), all).

Definition message_queue_shutdown (mem : bool) : MB unit :=
  mq ← ld_queue;
  match clear_queue (mq_messages mq) with
  | None => fail
  | Some q => modify (set_queue (mk_mq q (mq_subscribers mq)));; on_queue (b_push mem true None);; mret tt
  end.

Definition message_queue_subscribe (mem mem_queue mem_map release : bool) : MB (option nat) :=
  sub ← message_subscriber_create mem mem_queue subscribe_timeout release;
  match sub with
  | None => mret None
  | Some s =>
    mq ← ld_queue;
    if mem_map then modify (set_queue (mk_mq (mq_messages mq) ({[s]} ∪ mq_subscribers mq)));; mret (Some s)
    else message_subscriber_destroy (Some s);; mret None
  end.

Definition message_queue_unsubscribe (s : nat) : MB unit :=
  mq ← ld_queue;
  modify (set_queue (mk_mq (mq_messages mq) (mq_subscribers mq ∖ {[s]}))).

Definition message_queue_publish (mem : bool) (msg : option nat) : MB Z :=
  match msg with
  | None => mret (-1)%Z
  | Some _ => ret ← on_queue (b_push mem true msg); if decide (ret ≠ 0%Z) then mret (-1)%Z else mret 0%Z
  end.

Definition message_queue_have_subscribers : MB bool :=
  mq ← ld_queue;
  mret (bool_decide (0 < size (mq_subscribers mq))).

(** *** [mailbox.c] *)

Definition mailbox_topic_valid (topic : Z) : bool :=
  (MAILBOX_TOPIC_INVALID <? topic)%Z && (topic <? MAILBOX_TOPIC_MAX)%Z.

Definition mailbox_should_publish (topic : Z) : MB bool :=
  if negb (mailbox_topic_valid topic) then mret false else
  b ← get;
  if negb (h_registered (mb_handler b)) then mret false else
  match h_queue (mb_handler b) with None => mret true | Some _ => message_queue_have_subscribers end.

(** [queue]: the result of [message_queue_create]. *)
Definition mailbox_register_topic_handler (topic : Z) (generator release async : bool) (queue : option (message_queue Q)) : MB Z :=
  if negb (mailbox_topic_valid topic) then mret (-1)%Z
  else if negb generator then mret (-1)%Z
  else
    b ← get;
    let h := mb_handler b in
    if async then
      match queue with
      | None => modify (set_handler (mk_handler true release None (h_registered h)));; mret (-1)%Z
      | Some mq => modify (set_handler (mk_handler true release (Some mq) true));; mret 0%Z
      end
    else modify (set_handler (mk_handler true release (h_queue h) true));; mret 0%Z.

Definition mailbox_unregister_topic_handler (mem : bool) (topic : Z) : MB unit :=
  if negb (mailbox_topic_valid topic) then mret tt else
  b ← get;
  (match h_queue (mb_handler b) with None => mret tt | Some _ => message_queue_shutdown mem end);;
  modify (λ b, let h := mb_handler b in set_handler (mk_handler (h_generator h) (h_release h) (h_queue h) false) b).

(** The end of [mailbox_publish] on a topic with a queue, for the data that the
    generator made.  When there is no message the data is released; it takes
    the next name. *)
Definition publish_data (mem_msg mutex mem_push : bool) (middle : D) (release : bool) : MB unit :=
  msg ← mailbox_message_create mem_msg mutex middle release;
  match msg with
  | None =>
    modify (λ b, mk_mailbox (mb_msgs b) (S (mb_fresh b))
                   (mb_freed b ++ [(mb_fresh b, if release then Some middle else None)])
                   (mb_subs b) (mb_next_sub b) (mb_handler b))
  | Some m =>
    ret ← message_queue_publish mem_push (Some m);
    if decide (ret ≠ 0%Z) then mailbox_message_unref (Some m) else mret tt
  end.

(** [generated] is the result of the generator of the topic. *)
Definition mailbox_publish (mem_msg mutex mem_push : bool) (topic : Z) (generated : option D) : MB unit :=
  ok ← mailbox_should_publish topic;
  if negb ok then mret tt else
  b ← get;
  let h := mb_handler b in
  if negb (h_generator h) then mret tt else
  match generated, h_queue h with
  | Some middle, Some _ => publish_data mem_msg mutex mem_push middle (h_release h)
  | _, _ => mret tt
  end.

Definition mailbox_subscribe (mem mem_queue mem_map : bool) (topic : Z) : MB (option nat) :=
  if negb (mailbox_topic_valid topic) then mret None else
  b ← get;
  let h := mb_handler b in
  if negb (h_registered h) then mret None else
  match h_queue h with
  | None => mret None
  | Some _ => message_queue_subscribe mem mem_queue mem_map (h_release h)
  end.

Definition mailbox_unsubscribe (topic : Z) (s : nat) : MB unit :=
  if negb (mailbox_topic_valid topic) then mret tt else
  b ← get;
  if negb (h_registered (mb_handler b)) then mret tt else
  match h_queue (mb_handler b) with None => mret tt | Some _ => message_queue_unsubscribe s end.
End operations.

(** ** References to messages *)

Definition somes (l : list (option nat)) : list nat := omap id l.

(** The number of references to [m] in a list of references. *)
Definition occ (m : nat) (refs : list nat) : nat := length (filter (m =.) refs).

#[global] Instance occ_perm m : Proper ((≡ₚ) ==> (=)) (occ m).
Proof. intros l l' Hl. unfold occ. by rewrite Hl. Qed.

Lemma refs_occ_app m l l' : occ m (l ++ l') = occ m l + occ m l'.
Proof. unfold occ. by rewrite list.filter_app, length_app. Qed.

Lemma refs_occ_cons m n l : occ m (n :: l) = (if decide (m = n) then 1 else 0) + occ m l.
Proof. unfold occ. rewrite filter_cons. by case_decide. Qed.

Lemma occ_in m l : m ∈ l → 0 < occ m l.
Proof. intros [l1 [l2 ->]]%list_elem_of_split. rewrite refs_occ_app, refs_occ_cons, decide_True by done. lia. Qed.

Lemma somes_snoc l x : somes (l ++ [x]) = somes l ++ option_list x.
Proof. unfold somes. rewrite omap_app. by destruct x. Qed.

Lemma somes_cons x l : somes (x :: l) = option_list x ++ somes l.
Proof. by destruct x. Qed.

(** The references in the queues of the subscribers. *)
Definition held_by (C : gmap nat (list (option nat))) : list nat := map_to_list C ≫= λ p, somes p.2.

Lemma held_by_delete C s l : C !! s = Some l → held_by C ≡ₚ somes l ++ held_by (delete s C).
Proof. intros Hs. unfold held_by. by rewrite <- (map_to_list_delete C s l Hs). Qed.

Lemma held_by_insert C s l : held_by (<[s := l]> C) ≡ₚ somes l ++ held_by (delete s C).
Proof. rewrite (held_by_delete _ s l) by apply lookup_insert_eq. by rewrite delete_insert_eq. Qed.

Section references.
Context {D Q : Type} `{BQueue nat Q}.
Implicit Types (b : mailbox D Q) (refs : list nat).

(** The count of every live message is the number of references to it, which
    is positive; the messages created so far are live or were freed once. *)
Record counted b refs : Prop := {
  ct_live m msg : mb_msgs b !! m = Some msg → mm_count msg = Z.of_nat (occ m refs) ∧ (0 < mm_count msg <= INT_MAX)%Z;
  ct_dead m : mb_msgs b !! m = None → m ∉ refs;
  ct_fresh m : m < mb_fresh b ↔ is_Some (mb_msgs b !! m) ∨ m ∈ (mb_freed b).*1;
  ct_once : NoDup (mb_freed b).*1;
  ct_freed m : m ∈ (mb_freed b).*1 → mb_msgs b !! m = None
}.

#[global] Instance counted_perm b : Proper ((≡ₚ) ==> iff) (counted b).
Proof.
  assert (∀ l l', l ≡ₚ l' → counted b l → counted b l') as Hp.
  { intros l l' Hl [H1 H2 H3 H4 H5]. split; try done.
    - intros m msg Hm. rewrite <- Hl. by apply H1.
    - intros m Hm. rewrite <- Hl. by apply H2. }
  intros l l' Hl. split; by apply Hp.
Qed.

(** Everything but the messages is the same. *)
Definition same_queues b b' : Prop :=
  mb_subs b' = mb_subs b ∧ mb_next_sub b' = mb_next_sub b ∧ mb_handler b' = mb_handler b.

Lemma counted_in b refs m : counted b refs → m ∈ refs → ∃ msg, mb_msgs b !! m = Some msg.
Proof. intros [_ H2 _ _ _] Hm. destruct (mb_msgs b !! m) eqn:E; [by eexists|]. by apply H2 in E. Qed.

Lemma wp_ld_message b m msg (P : mailbox_message D → mailbox D Q → Prop) :
  mb_msgs b !! m = Some msg → P msg b → wp (ld_message m) P b.
Proof. intros Hm HP. unfold wp, ld_message. by rewrite Hm. Qed.

(** Changing the count of one message. *)
Lemma counted_set b refs refs' m msg c :
  counted b refs → mb_msgs b !! m = Some msg → c = Z.of_nat (occ m refs') → (0 < c <= INT_MAX)%Z →
  (∀ n, n ≠ m → occ n refs' = occ n refs ∧ (n ∈ refs' → n ∈ refs)) →
  counted (set_msgs (<[m := mk_message (mm_data msg) c (mm_destroy msg)]>) b) refs'.
Proof.
  intros [H1 H2 H3 H4 H5] Hm Hc Hr Ho. split; cbn [set_msgs mb_msgs mb_fresh mb_freed].
  - intros n msg'. destruct (decide (n = m)) as [->|Hn].
    + rewrite lookup_insert_eq. intros [= <-]. by split.
    + rewrite lookup_insert_ne by done. intros Hl. rewrite (proj1 (Ho n Hn)). by apply H1.
  - intros n Hn Hin. destruct (decide (n = m)) as [->|Hne]; [by rewrite lookup_insert_eq in Hn|].
    rewrite lookup_insert_ne in Hn by done. apply (H2 n Hn). by apply Ho.
  - intros n. rewrite H3, lookup_insert_is_Some. destruct (decide (m = n)) as [->|Hn]; [|naive_solver].
    rewrite Hm. naive_solver.
  - done.
  - intros n Hn. rewrite lookup_insert_ne; [by apply H5|]. intros ->. apply H5 in Hn. congruence.
Qed.

Lemma ref_ok b refs m :
  counted b refs → m ∈ refs →
  wp (mailbox_message_ref (Some m)) (λ r b', same_queues b b' ∧ mb_fresh b' = mb_fresh b ∧
    ((r = 0%Z ∧ counted b' (m :: refs)) ∨ (r = (-1)%Z ∧ counted b' refs))) b.
Proof.
  intros Hc Hm. destruct (counted_in b refs m Hc Hm) as [msg Hl]. unfold mailbox_message_ref. apply wp_bind.
  eapply wp_ld_message; [done|]. destruct (ct_live _ _ Hc m msg Hl) as [Hcnt Hr].
  case_decide as E; [apply wp_ret; split; [done|]; split; [done|]; by right|]. apply wp_bind, wp_modify, wp_ret. split; [done|]. split; [done|left]. split; [done|].
  unfold INT_MAX in *. rewrite u64_small by (unfold two64; lia). eapply counted_set; [done|done| |unfold INT_MAX; lia|].
  - rewrite refs_occ_cons, decide_True by done. lia.
  - intros n Hn. rewrite refs_occ_cons, decide_False by done. split; [done|]. by intros [->|?]%elem_of_cons.
Qed.

Lemma unref_ok b refs m :
  counted b (m :: refs) →
  wp (mailbox_message_unref (Some m)) (λ _ b', same_queues b b' ∧ mb_fresh b' = mb_fresh b ∧ counted b' refs) b.
Proof.
  intros Hc. destruct (counted_in b _ m Hc ltac:(by left)) as [msg Hl]. unfold mailbox_message_unref. apply wp_bind.
  eapply wp_ld_message; [done|]. destruct (ct_live _ _ Hc m msg Hl) as [Hcnt Hr]. rewrite decide_False by lia.
  unfold INT_MAX in *. rewrite u64_small by (unfold two64; lia). rewrite refs_occ_cons, decide_True in Hcnt by done. case_decide as E.
  - apply wp_modify. split; [done|]. split; [done|]. destruct Hc as [H1 H2 H3 H4 H5].
    assert (Hno : m ∉ refs) by (intros Hin%occ_in; lia).
    assert (Hnf : m ∉ (mb_freed b).*1) by (intros Hin%H5; congruence).
    split; cbn [mb_msgs mb_fresh mb_freed].
    + intros n msg' [Hn Hl']%lookup_delete_Some. destruct (H1 n msg' Hl') as [Ho ?]. split; [|done].
      by rewrite refs_occ_cons, decide_False in Ho by done.
    + intros n Hn Hin. destruct (decide (n = m)) as [->|Hne]; [done|]. rewrite lookup_delete_ne in Hn by done.
      apply (H2 n Hn). by right.
    + intros n. rewrite H3, fmap_app, elem_of_app. cbn [fmap list_fmap fst]. rewrite list_elem_of_singleton, lookup_delete_is_Some.
      destruct (decide (m = n)) as [->|Hn]; [rewrite Hl|]; naive_solver.
    + rewrite fmap_app. apply list.NoDup_app. split_and!; [done| |apply NoDup_singleton].
      intros n Hn Hin. apply list_elem_of_singleton in Hin. by subst.
    + intros n. rewrite fmap_app, elem_of_app. cbn [fmap list_fmap fst]. rewrite list_elem_of_singleton.
      intros [Hn| ->]; [|by rewrite lookup_delete_eq]. rewrite lookup_delete_ne; [by apply H5|]. by intros ->.
  - apply wp_modify. split; [done|]. split; [done|]. eapply counted_set; [done|done|lia|unfold INT_MAX; lia|].
    intros n Hn. rewrite refs_occ_cons, decide_False by done. split; [done|]. by right.
Qed.
End references.

(** ** The queues *)

Section queues.
Context {D Q : Type} `{BQueue nat Q}.
Implicit Types (b : mailbox D Q) (C : gmap nat (list (option nat))) (S : gset nat) (hs : list nat).

(** The queue of the topic holds [lq] and has the subscribers [S], the queues of
    the subscribers hold [C], and [hs] are the references outside the queues. *)
Record mbox_ok b lq C S hs : Prop := {
  mo_counted : counted b (somes lq ++ held_by C ++ hs);
  mo_queue : ∃ mq d, h_queue (mb_handler b) = Some mq ∧ b_models (mq_messages mq) d lq ∧ mq_subscribers mq = S;
  mo_subs s : match mb_subs b !! s, C !! s with
              | Some q, Some l => ∃ d, b_models q d l
              | None, None => True
              | _, _ => False
              end;
  mo_next s : is_Some (C !! s) → s < mb_next_sub b;
  mo_known s : s ∈ S → is_Some (C !! s)
}.

Lemma mbox_ok_perm b lq C S hs hs' : hs ≡ₚ hs' → mbox_ok b lq C S hs → mbox_ok b lq C S hs'.
Proof. intros Hp [H1 H2 H3 H4 H5]. split; try done. by rewrite <- Hp. Qed.

(** A change of the counts alone. *)
Lemma mbox_ok_msgs b b' lq C S hs hs' :
  mbox_ok b lq C S hs → same_queues b b' → counted b' (somes lq ++ held_by C ++ hs') → mbox_ok b' lq C S hs'.
Proof.
  intros [H1 H2 H3 H4 H5] (E1 & E2 & E3) Hc. split; [done| | |rewrite E2; done|done].
  - by rewrite E3.
  - intros s. rewrite E1. apply H3.
Qed.

Lemma mbox_ref_ok b lq C S hs m :
  mbox_ok b lq C S hs → m ∈ hs →
  wp (mailbox_message_ref (Some m)) (λ r b', (r = 0%Z ∧ mbox_ok b' lq C S (m :: hs)) ∨ (r = (-1)%Z ∧ mbox_ok b' lq C S hs)) b.
Proof.
  intros Hok Hm. eapply wp_mono; [apply (ref_ok _ _ m (mo_counted _ _ _ _ _ Hok)); set_solver|]. cbn beta.
  intros r b' (Hs & _ & [[-> Hc]|[-> Hc]]); [left|right]; (split; [done|]); eapply mbox_ok_msgs; try done.
  by rewrite !Permutation_middle in Hc.
Qed.

Lemma mbox_unref_ok b lq C S hs m :
  mbox_ok b lq C S (m :: hs) → wp (mailbox_message_unref (Some m)) (λ _ b', mbox_ok b' lq C S hs) b.
Proof.
  intros Hok. pose proof (mo_counted _ _ _ _ _ Hok) as Hc. rewrite <- !Permutation_middle in Hc.
  eapply wp_mono; [by apply unref_ok|]. cbn beta. intros _ b' (Hs & _ & Hc'). by eapply mbox_ok_msgs.
Qed.

(** An operation on the queue of one subscriber, which moves references
    between the queue and the outside. *)
Lemma wp_on_sub {A} b lq C S hs s l (f : M Q A) (P : A → mailbox D Q → Prop) :
  mbox_ok b lq C S hs → C !! s = Some l →
  (∀ q d, b_models q d l →
     wp f (λ a q', ∃ d' l' hs', b_models q' d' l' ∧ somes l' ++ hs' ≡ₚ somes l ++ hs ∧
                     ∀ b', mbox_ok b' lq (<[s := l']> C) S hs' → P a b') q) →
  wp (on_sub s f) P b.
Proof.
  intros [H1 H2 H3 H4 H5] Hl Hf. pose proof (H3 s) as Hs. rewrite Hl in Hs. destruct (mb_subs b !! s) as [q|] eqn:Eq; [|done].
  destruct Hs as [d Hm]. pose proof (Hf q d Hm) as (a & q' & Ef & d' & l' & hs' & Hm' & Hp & HP)%wp_run.
  unfold wp, on_sub, mbind, M_bind, ld_sub. rewrite Eq, Ef. cbn. apply HP. split; cbn.
  - rewrite held_by_insert. rewrite (held_by_delete C s l Hl) in H1.
    assert (E : somes lq ++ (somes l' ++ held_by (delete s C)) ++ hs' ≡ₚ somes lq ++ (somes l ++ held_by (delete s C)) ++ hs).
    { f_equiv. rewrite <- !app_assoc, (Permutation_app_comm (held_by _) hs'), (Permutation_app_comm (held_by _) hs), !app_assoc. by rewrite Hp. }
    rewrite E. by destruct H1; split.
  - done.
  - intros s'. destruct (decide (s = s')) as [<-|Hne]; [rewrite !lookup_insert_eq; eauto|]. rewrite !lookup_insert_ne by done. apply H3.
  - intros s' [<-|[_ Hs']]%lookup_insert_is_Some; [apply H4; by eexists|by apply H4].
  - intros s' Hs'. apply lookup_insert_is_Some. destruct (decide (s = s')); [by left|right]. split; [done|by apply H5].
Qed.

(** The same for the queue of the topic. *)
Lemma wp_on_queue {A} b lq C S hs (f : M Q A) (P : A → mailbox D Q → Prop) :
  mbox_ok b lq C S hs →
  (∀ q d, b_models q d lq →
     wp f (λ a q', ∃ d' lq' hs', b_models q' d' lq' ∧ somes lq' ++ hs' ≡ₚ somes lq ++ hs ∧
                     ∀ b', mbox_ok b' lq' C S hs' → mb_fresh b' = mb_fresh b → P a b') q) →
  wp (on_queue f) P b.
Proof.
  intros [H1 (mq & d & Eh & Hm & HS) H3 H4 H5] Hf.
  pose proof (Hf _ d Hm) as (a & q' & Ef & d' & lq' & hs' & Hm' & Hp & HP)%wp_run.
  unfold wp, on_queue, mbind, M_bind, ld_queue. rewrite Eh, Ef. cbn. apply HP; [|done]. split; cbn.
  - assert (E : somes lq' ++ held_by C ++ hs' ≡ₚ somes lq ++ held_by C ++ hs).
    { rewrite (Permutation_app_comm (held_by _) hs'), (Permutation_app_comm (held_by _) hs), !app_assoc. by rewrite Hp. }
    rewrite E. by destruct H1; split.
  - eexists _, d'. split_and!; [done|done|done].
  - done.
  - done.
  - done.
Qed.
End queues.

Section steps.
Context {D Q : Type} `{BQueue nat Q}.
Implicit Types (b : mailbox D Q) (C : gmap nat (list (option nat))) (S : gset nat) (hs : list nat).

Lemma sub_push_ok b lq C S hs s l m mem :
  mbox_ok b lq C S hs → m ∈ hs → C !! s = Some l →
  wp (message_subscriber_push mem (Some s) (Some m))
    (λ r b', (r = 0%Z ∧ mbox_ok b' lq (<[s := l ++ [Some m]]> C) S hs) ∨ (r = (-1)%Z ∧ mbox_ok b' lq C S hs)) b.
Proof.
  intros Hok Hm Hl. unfold message_subscriber_push. apply wp_bind. eapply wp_mono; [by eapply mbox_ref_ok|]. cbn beta.
  intros r b1 [[-> Hok1]|[-> Hok1]]; [|apply wp_ret; by right]. rewrite decide_False by (intros E; by apply E).
  apply wp_bind, (wp_on_sub b1 lq C S (m :: hs) s l _ _ Hok1 Hl). intros q d Hq.
  eapply wp_mono; [by eapply b_push_ok|]. cbn beta. intros r q' [_ Hr]. destruct (mem && true); destruct Hr as [-> Hq'].
  - exists d, (l ++ [Some m]), hs. split_and!; [done|rewrite somes_snoc; simpl; by rewrite <- app_assoc|].
    intros b' Hb'. rewrite decide_False by (intros E; by apply E). apply wp_ret. by left.
  - exists d, l, (m :: hs). split_and!; [done|done|]. intros b' Hb'. rewrite insert_id in Hb' by done.
    rewrite decide_True by done. apply wp_bind. eapply wp_mono; [by eapply mbox_unref_ok|]. intros [] b2 Hb2. apply wp_ret. by right.
Qed.

(** The message [m] is appended to the queues of some subscribers of the list,
    and of all of them if [all] holds. *)
Definition delivered (m : nat) (subs : list nat) (all : bool) (C C' : gmap nat (list (option nat))) : Prop :=
  ∀ s, match C !! s, C' !! s with
       | Some l, Some l' => (l' = l ∧ (all = true → s ∉ subs)) ∨ (l' = l ++ [Some m] ∧ s ∈ subs)
       | None, None => True
       | _, _ => False
       end.

Lemma delivered_cons m s subs l C C1 C' r all :
  s ∉ subs → C !! s = Some l → (r = 0%Z ∧ C1 = <[s := l ++ [Some m]]> C) ∨ (r = (-1)%Z ∧ C1 = C) →
  delivered m subs all C1 C' → delivered m (s :: subs) (bool_decide (r = 0%Z) && all) C C'.
Proof.
  intros Hs Hl HC Hd s'. specialize (Hd s'). destruct (decide (s' = s)) as [->|Hne].
  - rewrite Hl. destruct HC as [[-> ->]|[-> ->]].
    + rewrite lookup_insert_eq in Hd. destruct (C' !! s); [|done]. destruct Hd as [[-> _]|[_ ?]]; [right; set_solver|done].
    + rewrite Hl in Hd. destruct (C' !! s); [|done]. destruct Hd as [[-> _]|[_ ?]]; [by left|done].
  - assert (E : C1 !! s' = C !! s') by (destruct HC as [[_ ->]|[_ ->]]; [by rewrite lookup_insert_ne|done]). rewrite E in Hd.
    destruct (C !! s'), (C' !! s'); try done. destruct Hd as [[-> Ha]|[-> Ha]]; [left|right; set_solver].
    split; [done|]. intros [_ Hall]%andb_prop. specialize (Ha Hall). set_solver.
Qed.

Lemma deliver_loop_ok mem m subs : ∀ b lq C S hs,
  mbox_ok b lq C S hs → m ∈ hs → NoDup subs → (∀ s, s ∈ subs → is_Some (C !! s)) →
  wp (deliver_loop mem subs (Some m)) (λ all b', ∃ C', mbox_ok b' lq C' S hs ∧ delivered m subs all C C') b.
Proof.
  induction subs as [|s subs IH]; intros b lq C S hs Hok Hm Hnd Hin; simpl.
  { apply wp_ret. exists C. split; [done|]. intros s. destruct (C !! s); [|done]. left. split; [done|]. intros _. apply not_elem_of_nil. }
  apply list.NoDup_cons in Hnd as [Hs Hnd]. destruct (Hin s ltac:(by left)) as [l Hl].
  apply wp_bind. eapply wp_mono; [by eapply sub_push_ok|]. cbn beta. intros r b1 Hr.
  assert (HC1 : ∃ C1, mbox_ok b1 lq C1 S hs ∧ ((r = 0%Z ∧ C1 = <[s := l ++ [Some m]]> C) ∨ (r = (-1)%Z ∧ C1 = C))) by naive_solver.
  destruct HC1 as (C1 & Hok1 & HC1). apply wp_bind. eapply wp_mono; [eapply (IH b1 lq C1); try done|].
  - intros s' Hs'. destruct (Hin s' ltac:(by right)) as [l' Hl'].
    destruct HC1 as [[_ ->]|[_ ->]]; [rewrite lookup_insert_ne by (by intros ->)|]; by eexists.
  - cbn beta. intros all b2 (C' & Hok2 & Hd). apply wp_ret. exists C'. split; [done|]. by eapply delivered_cons.
Qed.

(** Taking a message, and handing it out. *)
Lemma take_ok b lq C S hs x :
  mbox_ok b (x :: lq) C S hs →
  wp queue_take (λ r b', r = Some x ∧ mbox_ok b' lq C S (option_list x ++ hs)) b.
Proof.
  intros Hok. apply (wp_on_queue _ _ _ _ _ _ _ Hok). intros q d Hq. eapply wp_mono; [by eapply b_round_ok|]. cbn beta.
  intros r q' (-> & _ & Hq'). exists x, lq, (option_list x ++ hs). split_and!; [done| |done].
  rewrite somes_cons, app_assoc, (Permutation_app_comm (somes lq)). by rewrite <- app_assoc.
Qed.

Lemma deliver_ok b lq C S hs m mem_itor mem :
  mbox_ok b lq C S (m :: hs) →
  wp (queue_deliver mem_itor mem (Some m))
    (λ r b', ∃ C', mbox_ok b' lq C' S hs ∧ delivered m (elements S) r.2 C C') b.
Proof.
  intros Hok. pose proof (mo_queue _ _ _ _ _ Hok) as (mq & d & Eh & _ & HS). unfold queue_deliver. apply wp_bind.
  unfold wp at 1, ld_queue. rewrite Eh, HS. destruct mem_itor; cbn [negb].
  - apply wp_bind. eapply wp_mono; [eapply deliver_loop_ok; [done|by left|apply NoDup_elements|]|].
    + intros s Hs. by apply (mo_known _ _ _ _ _ Hok), elem_of_elements.
    + cbn beta. intros all b1 (C' & Hok1 & Hd). apply wp_bind. eapply wp_mono; [by eapply mbox_unref_ok|].
      intros [] b2 Hok2. apply wp_ret. by exists C'.
  - apply wp_bind. eapply wp_mono; [by eapply mbox_unref_ok|]. intros [] b1 Hok1. apply wp_ret. exists C. split; [done|].
    intros s. destruct (C !! s); [|done]. by left.
Qed.

Lemma sub_pop_ok b lq C S hs s x l :
  mbox_ok b lq C S hs → C !! s = Some (x :: l) →
  wp (message_subscriber_pop_round s) (λ r b', r = Some x ∧ mbox_ok b' lq (<[s := l]> C) S (option_list x ++ hs)) b.
Proof.
  intros Hok Hl. apply (wp_on_sub _ _ _ _ _ _ _ _ _ Hok Hl). intros q d Hq. eapply wp_mono; [by eapply b_round_ok|]. cbn beta.
  intros r q' (-> & _ & Hq'). exists x, l, (option_list x ++ hs). split_and!; [done| |done].
  rewrite somes_cons, app_assoc, (Permutation_app_comm (somes l)). by rewrite <- app_assoc.
Qed.

Lemma fresh_new b refs : counted b refs → mb_msgs b !! mb_fresh b = None ∧ (mb_fresh b ∉ refs) ∧ (mb_fresh b ∉ (mb_freed b).*1).
Proof.
  intros [H1 H2 H3 H4 H5]. pose proof (H3 (mb_fresh b)) as Hf. destruct (mb_msgs b !! mb_fresh b) eqn:E.
  - exfalso. apply (Nat.lt_irrefl (mb_fresh b)), Hf. left. by eexists.
  - split_and!; [done|by apply H2|]. intros Hin. apply (Nat.lt_irrefl (mb_fresh b)), Hf. by right.
Qed.

Lemma create_counted b refs data release :
  counted b refs →
  counted (mk_mailbox (<[mb_fresh b := mk_message data 1 release]> (mb_msgs b)) (Datatypes.S (mb_fresh b)) (mb_freed b)
             (mb_subs b) (mb_next_sub b) (mb_handler b)) (mb_fresh b :: refs).
Proof.
  intros Hc. destruct (fresh_new b refs Hc) as (Hn & Hr & Hfr). destruct Hc as [H1 H2 H3 H4 H5].
  set (m := mb_fresh b) in *.
  split; cbn [mb_msgs mb_fresh mb_freed].
  - intros n msg. rewrite refs_occ_cons. destruct (decide (n = m)) as [->|Hne].
    + rewrite lookup_insert_eq. intros [= <-]. cbn. assert (occ m refs = 0).
      { destruct (decide (occ m refs = 0)) as [|Hz]; [done|]. exfalso. apply Hr. unfold occ in Hz.
        destruct (filter (m =.) refs) as [|a l] eqn:E; [done|]. assert (Ha : a ∈ filter (m =.) refs) by (rewrite E; by left).
        apply list_elem_of_filter in Ha as [<- ?]. done. }
      unfold INT_MAX. lia.
    + rewrite lookup_insert_ne by done. apply H1.
  - intros n Hl [->|Hin]%elem_of_cons; [by rewrite lookup_insert_eq in Hl|].
    apply (H2 n); [|done]. by destruct (decide (m = n)) as [->|]; [rewrite lookup_insert_eq in Hl|rewrite lookup_insert_ne in Hl].
  - intros n. rewrite lookup_insert_is_Some. destruct (decide (m = n)) as [<-|Hne]; [split; [by left; left|lia]|].
    rewrite Nat.lt_succ_r, Nat.le_lteq, H3. naive_solver.
  - done.
  - intros n Hin. rewrite lookup_insert_ne; [by apply H5|]. by intros ->.
Qed.

Lemma drop_counted b refs x :
  counted b refs →
  counted (mk_mailbox (mb_msgs b) (Datatypes.S (mb_fresh b)) (mb_freed b ++ [(mb_fresh b, x)])
             (mb_subs b) (mb_next_sub b) (mb_handler b)) refs.
Proof.
  intros Hc. destruct (fresh_new b refs Hc) as (Hn & _ & Hfr). destruct Hc as [H1 H2 H3 H4 H5].
  split; cbn [mb_msgs mb_fresh mb_freed]; [done|done| | |].
  - intros n. rewrite fmap_app, elem_of_app, Nat.lt_succ_r, Nat.le_lteq, H3. cbn [fmap list_fmap fst]. rewrite list_elem_of_singleton. tauto.
  - rewrite fmap_app. apply list.NoDup_app. split_and!; [done| |apply NoDup_singleton].
    intros n Hin Hn'. apply list_elem_of_singleton in Hn'. by subst.
  - intros n. rewrite fmap_app, elem_of_app. cbn [fmap list_fmap fst]. rewrite list_elem_of_singleton.
    intros [Hin| ->]; [by apply H5|done].
Qed.

Lemma publish_ok b lq C S hs mem_msg mutex mem_push data release :
  mbox_ok b lq C S hs →
  wp (publish_data mem_msg mutex mem_push data release)
    (λ _ b', mbox_ok b' (if mem_msg && mutex && mem_push then lq ++ [Some (mb_fresh b)] else lq) C S hs) b.
Proof.
  intros Hok. unfold publish_data, mailbox_message_create. destruct (mem_msg && mutex).
  - apply wp_bind. unfold wp at 1. set (b1 := mk_mailbox _ _ _ _ _ _).
    assert (Hok1 : mbox_ok b1 lq C S (mb_fresh b :: hs)).
    { destruct Hok as [H1 H2 H3 H4 H5]. split; try done. rewrite <- !Permutation_middle. by apply create_counted. }
    unfold message_queue_publish. apply wp_bind, wp_bind, (wp_on_queue _ _ _ _ _ _ _ Hok1). intros q d Hq.
    eapply wp_mono; [by eapply b_push_ok|]. cbn beta. intros r q' [_ Hr]. destruct mem_push; cbn [andb] in *; destruct Hr as [-> Hq'].
    + exists d, (lq ++ [Some (mb_fresh b)]), hs. split_and!; [done|rewrite somes_snoc; simpl; by rewrite <- app_assoc|].
      intros b' Hb' _. by rewrite decide_False by (intros E; by apply E).
    + exists d, lq, (mb_fresh b :: hs). split_and!; [done|done|]. intros b' Hb' _. rewrite decide_True by done.
      apply wp_ret. rewrite decide_True by done. by apply mbox_unref_ok.
  - apply wp_bind, wp_ret, wp_modify. destruct Hok as [H1 H2 H3 H4 H5]. split; try done. by apply drop_counted.
Qed.

Lemma unsubscribe_ok b lq C S hs s :
  mbox_ok b lq C S hs → wp (message_queue_unsubscribe s) (λ _ b', mbox_ok b' lq C (S ∖ {[s]}) hs) b.
Proof.
  intros [H1 (mq & d & Eh & Hm & HS) H3 H4 H5]. unfold wp, message_queue_unsubscribe, mbind, M_bind, ld_queue. rewrite Eh. cbn.
  split; cbn; [by destruct H1; split| |done|done|set_solver]. eexists _, d. split_and!; [done|done|]. cbn. by rewrite HS.
Qed.

Lemma clear_empty q d : b_models q d [] → clear_queue q ≠ None.
Proof.
  intros Hm. unfold clear_queue. pose proof (b_clear_ok q d [] Hm) as (u & q' & -> & _ & _ & Hr)%wp_run.
  rewrite Hr. simpl. rewrite decide_True; [done|]. rewrite drop_app_length. by destruct (b_release q).
Qed.

Lemma subscribe_ok b lq C S hs mem mem_queue mem_map release :
  mbox_ok b lq C S hs →
  wp (message_queue_subscribe mem mem_queue mem_map release)
    (λ r b', match r with
             | Some s => C !! s = None ∧ mbox_ok b' lq (<[s := []]> C) ({[s]} ∪ S) hs
             | None => mbox_ok b' lq C S hs
             end) b.
Proof.
  intros [H1 (mq & d & Eh & Hm & HS) H3 H4 H5]. unfold message_queue_subscribe, message_subscriber_create.
  destruct (mem && mem_queue); [|apply wp_bind, wp_ret, wp_ret; split; eauto]. apply wp_bind. unfold wp at 1. set (s := mb_next_sub b).
  assert (HC : C !! s = None).
  { destruct (C !! s) eqn:E; [|done]. pose proof (H4 s ltac:(by eexists)). unfold s in *. lia. }
  destruct (b_create_ok subscribe_timeout release) as (Hq & _ & _).
  apply wp_bind. unfold wp at 1, ld_queue. cbn. rewrite Eh. destruct mem_map.
  - apply wp_bind, wp_modify, wp_ret. split; [done|]. split; cbn.
    + rewrite held_by_insert, delete_id by done. simpl. by destruct H1; split.
    + eexists _, d. split_and!; [done|done|]. cbn. by rewrite HS.
    + intros s'. destruct (decide (s = s')) as [<-|Hne]; [rewrite !lookup_insert_eq; by eexists|]. rewrite !lookup_insert_ne by done. apply H3.
    + intros s' [<-|[_ Hs'%H4]]%lookup_insert_is_Some; unfold s in *; lia.
    + intros s' [->%elem_of_singleton|Hs'%H5]%elem_of_union; apply lookup_insert_is_Some; [by left|].
      destruct (decide (s = s')); [by left|by right].
  - apply wp_bind. unfold wp, message_subscriber_destroy, mbind, M_bind, ld_sub. cbn. rewrite lookup_insert_eq.
    destruct (clear_queue _) eqn:E; [|by eapply clear_empty in E]. cbn. split; cbn.
    + by destruct H1; split.
    + eauto.
    + rewrite delete_insert_id; [done|]. pose proof (H3 s) as Hs. rewrite HC in Hs. by destruct (mb_subs b !! s).
    + intros s' Hs'%H4. lia.
    + done.
Qed.
End steps.

(** ** Publishers, the thread of the queue, and subscribers *)

(** The mailbox; whether the thread of the queue runs, and the message it has
    taken; the references that subscribers hold; and for the theorems, what was
    published and handed out, how much had been handed out when a subscriber
    came, what it received, and whether no push to a subscriber has failed. *)
Record msys (D Q : Type) := mk_msys {
  ms_box : mailbox D Q;
  ms_running : bool;
  ms_flight : option nat;
  ms_held : list nat;
  ms_published : list nat;
  ms_handed : list nat;
  ms_start : gmap nat nat;
  ms_received : gmap nat (list nat);
  ms_lossless : bool
}.
Arguments mk_msys {D Q} _ _ _ _ _ _ _ _ _.
Arguments ms_box {D Q} _.
Arguments ms_running {D Q} _.
Arguments ms_flight {D Q} _.
Arguments ms_held {D Q} _.
Arguments ms_published {D Q} _.
Arguments ms_handed {D Q} _.
Arguments ms_start {D Q} _.
Arguments ms_received {D Q} _.
Arguments ms_lossless {D Q} _.

Section system.
Context {D Q : Type} `{BQueue nat Q}.
Implicit Types (b : mailbox D Q).

Inductive mstep : msys D Q → msys D Q → Prop :=
  | mstep_publish b b' run fl hd pub han st rc ll mem_msg mutex mem_push data release :
      publish_data mem_msg mutex mem_push data release b = Some (tt, b') →
      mstep (mk_msys b run fl hd pub han st rc ll)
        (mk_msys b' run fl hd (if mem_msg && mutex && mem_push then pub ++ [mb_fresh b] else pub) han st rc ll)
  | mstep_take b b' hd pub han st rc ll m :
      queue_take b = Some (Some (Some m), b') →
      mstep (mk_msys b true None hd pub han st rc ll) (mk_msys b' true (Some m) hd pub han st rc ll)
  | mstep_hand b b' hd pub han st rc ll m mem_itor mem run all :
      queue_deliver mem_itor mem (Some m) b = Some ((run, all), b') →
      mstep (mk_msys b true (Some m) hd pub han st rc ll) (mk_msys b' run None hd pub (han ++ [m]) st rc (ll && all))
  | mstep_subscribe b b' run fl hd pub han st rc ll mem mem_queue mem_map release s :
      message_queue_subscribe mem mem_queue mem_map release b = Some (Some s, b') →
      mstep (mk_msys b run fl hd pub han st rc ll)
        (mk_msys b' run fl hd pub han (<[s := length han]> st) (<[s := []]> rc) ll)
  | mstep_no_subscribe b b' run fl hd pub han st rc ll mem mem_queue mem_map release :
      message_queue_subscribe mem mem_queue mem_map release b = Some (None, b') →
      mstep (mk_msys b run fl hd pub han st rc ll) (mk_msys b' run fl hd pub han st rc ll)
  | mstep_unsubscribe b b' run fl hd pub han st rc ll s :
      message_queue_unsubscribe s b = Some (tt, b') →
      mstep (mk_msys b run fl hd pub han st rc ll) (mk_msys b' run fl hd pub han st rc ll)
  | mstep_receive b b' run fl hd pub han st rc ll s m r :
      message_subscriber_pop_round s b = Some (Some (Some m), b') → rc !! s = Some r →
      mstep (mk_msys b run fl hd pub han st rc ll) (mk_msys b' run fl (m :: hd) pub han st (<[s := r ++ [m]]> rc) ll)
  | mstep_drop b b' run fl hd hd' pub han st rc ll m :
      hd ≡ₚ m :: hd' → mailbox_message_unref (Some m) b = Some (tt, b') →
      mstep (mk_msys b run fl hd pub han st rc ll) (mk_msys b' run fl hd' pub han st rc ll).

(** What a subscriber received and has in its queue [l], against what was
    handed out since it came. *)
Definition follows_topic (registered lossless : bool) (start : option nat) (received : option (list nat))
    (handed : list nat) (l : list (option nat)) : Prop :=
  ∃ k r, start = Some k ∧ received = Some r ∧ k ≤ length handed ∧ Forall is_Some l ∧
    sublist (r ++ somes l) (drop k handed) ∧ (registered && lossless = true → r ++ somes l = drop k handed).

Record msys_ok (x : msys D Q) : Prop := {
  my_box : ∃ lq C S, mbox_ok (ms_box x) (Some <$> lq) C S (option_list (ms_flight x) ++ ms_held x) ∧
    ms_published x = ms_handed x ++ option_list (ms_flight x) ++ lq ∧
    ∀ s l, C !! s = Some l →
      follows_topic (bool_decide (s ∈ S)) (ms_lossless x) (ms_start x !! s) (ms_received x !! s) (ms_handed x) l
}.

Lemma follows_handed reg ll all st rc han l l' m :
  (l' = l ∧ (all = true → reg = false)) ∨ (l' = l ++ [Some m] ∧ reg = true) →
  follows_topic reg ll st rc han l → follows_topic reg (ll && all) st rc (han ++ [m]) l'.
Proof.
  intros Hl (k & r & -> & -> & Hk & Hs & Hsub & Heq). exists k, r. rewrite length_app, drop_app_le by done.
  assert (Hreg : reg && (ll && all) = true → reg && ll = true) by (destruct reg, ll, all; done).
  destruct Hl as [[-> Ha]|[-> Hr]]; split_and!; try done; try lia.
  - by apply sublist_inserts_r.
  - intros Hb. destruct reg, ll, all; try done. by specialize (Ha eq_refl).
  - apply Forall_app. split; [done|]. by repeat constructor.
  - rewrite somes_snoc, app_assoc. by apply sublist_app.
  - intros Hb%Hreg. rewrite somes_snoc, app_assoc. by rewrite Heq.
Qed.

Lemma follows_received reg ll st r han m l :
  follows_topic reg ll st (Some r) han (Some m :: l) → follows_topic reg ll st (Some (r ++ [m])) han l.
Proof.
  intros (k & r' & -> & [= <-] & Hk & Hs & Hsub & Heq). exists k, (r ++ [m]). apply list.Forall_cons in Hs as [_ Hs].
  rewrite somes_cons in Hsub, Heq. rewrite <- app_assoc. by split_and!.
Qed.

Lemma hand_ok b b' hd pub han st rc ll m mem_itor mem run all :
  queue_deliver mem_itor mem (Some m) b = Some ((run, all), b') →
  msys_ok (mk_msys b true (Some m) hd pub han st rc ll) → msys_ok (mk_msys b' run None hd pub (han ++ [m]) st rc (ll && all)).
Proof.
  intros E [(lq & C & S & Hok & Hp & Hf)]. cbn in Hok, Hp, Hf.
  pose proof (wp_result _ _ _ _ _ (deliver_ok _ _ _ _ _ m mem_itor mem Hok) E) as (C' & Hok' & Hd).
  split. exists lq, C', S. cbn. split_and!; [done|by rewrite Hp, <- app_assoc|].
  intros s l' Hl'. specialize (Hd s). rewrite Hl' in Hd. destruct (C !! s) as [l|] eqn:Hl; [|done]. cbn in Hd.
  eapply follows_handed; [|by apply Hf]. destruct Hd as [[-> Ha]|[-> Ha]]; [left|right]; (split; [done|]).
  - intros Hall%Ha. apply bool_decide_eq_false. by rewrite <- elem_of_elements.
  - by apply bool_decide_eq_true, elem_of_elements.
Qed.

Lemma subscribed_ok b b' run fl hd pub han st rc ll mem mem_queue mem_map release s :
  message_queue_subscribe mem mem_queue mem_map release b = Some (Some s, b') →
  msys_ok (mk_msys b run fl hd pub han st rc ll) →
  msys_ok (mk_msys b' run fl hd pub han (<[s := length han]> st) (<[s := []]> rc) ll).
Proof.
  intros E [(lq & C & S & Hok & Hp & Hf)]. cbn in Hok, Hp, Hf.
  pose proof (wp_result _ _ _ _ _ (subscribe_ok _ _ _ _ _ mem mem_queue mem_map release Hok) E) as [Hn Hok']. cbn in Hok'.
  split. exists lq, (<[s := []]> C), ({[s]} ∪ S). cbn. split_and!; [done|done|]. intros s' l' Hl'.
  destruct (decide (s = s')) as [<-|Hne].
  - rewrite lookup_insert_eq in Hl'. injection Hl' as <-. rewrite !lookup_insert_eq.
    exists (length han), []. rewrite drop_ge by done. by repeat split.
  - rewrite lookup_insert_ne in Hl' by done. rewrite !lookup_insert_ne by done.
    replace (bool_decide (s' ∈ {[s]} ∪ S)) with (bool_decide (s' ∈ S)); [by apply Hf|]. apply bool_decide_ext. set_solver.
Qed.

Lemma received_ok b b' run fl hd pub han st rc ll s m r :
  message_subscriber_pop_round s b = Some (Some (Some m), b') → rc !! s = Some r →
  msys_ok (mk_msys b run fl hd pub han st rc ll) → msys_ok (mk_msys b' run fl (m :: hd) pub han st (<[s := r ++ [m]]> rc) ll).
Proof.
  intros E Hr [(lq & C & S & Hok & Hp & Hf)]. cbn in Hok, Hp, Hf. destruct (C !! s) as [[|x l]|] eqn:Hl.
  - exfalso. assert (Hw : wp (message_subscriber_pop_round s) (λ r _, r = None) b); [|by apply (wp_result _ _ _ _ _ Hw) in E].
    apply (wp_on_sub _ _ _ _ _ _ _ _ _ Hok Hl). intros q d Hq. eapply wp_mono; [by eapply b_round_ok|]. cbn beta.
    intros r' q' [-> ->]. by exists d, [], (option_list fl ++ hd).
  - pose proof (wp_result _ _ _ _ _ (sub_pop_ok _ _ _ _ _ s x l Hok Hl) E) as [[= <-] Hok']. cbn in Hok'.
    split. exists lq, (<[s := l]> C), S. cbn. split_and!; [|done|].
    + eapply mbox_ok_perm; [|done]. apply Permutation_middle.
    + intros s' l' Hl'. destruct (decide (s = s')) as [<-|Hne].
      * rewrite lookup_insert_eq in Hl'. injection Hl' as <-. rewrite lookup_insert_eq. apply follows_received.
        rewrite <- Hr. by apply Hf.
      * rewrite lookup_insert_ne in Hl' by done. rewrite lookup_insert_ne by done. by apply Hf.
  - exfalso. pose proof (mo_subs _ _ _ _ _ Hok s) as Hs. rewrite Hl in Hs.
    unfold message_subscriber_pop_round, on_sub, mbind, M_bind, ld_sub in E. by destruct (mb_subs b !! s).
Qed.

Lemma taken_ok b b' hd pub han st rc ll m :
  queue_take b = Some (Some (Some m), b') →
  msys_ok (mk_msys b true None hd pub han st rc ll) → msys_ok (mk_msys b' true (Some m) hd pub han st rc ll).
Proof.
  intros E [(lq & C & S & Hok & Hp & Hf)]. cbn in Hok, Hp, Hf. destruct lq as [|n lq].
  - exfalso. assert (Hw : wp queue_take (λ r _, r = None) b); [|by apply (wp_result _ _ _ _ _ Hw) in E].
    apply (wp_on_queue _ _ _ _ _ _ _ Hok). intros q d Hq. eapply wp_mono; [by eapply b_round_ok|]. cbn beta.
    intros r' q' [-> ->]. by exists d, [], hd.
  - pose proof (wp_result _ _ _ _ _ (take_ok _ _ _ _ _ (Some n) Hok) E) as [[= <-] Hok'].
    split. by exists lq, C, S.
Qed.

Lemma mstep_ok x y : mstep x y → msys_ok x → msys_ok y.
Proof.
  destruct 1 as [b b' run fl hd pub han st rc ll mem_msg mutex mem_push data release E
                |b b' hd pub han st rc ll m E|b b' hd pub han st rc ll m mem_itor mem run all E
                |b b' run fl hd pub han st rc ll mem mem_queue mem_map release s E
                |b b' run fl hd pub han st rc ll mem mem_queue mem_map release E
                |b b' run fl hd pub han st rc ll s E|b b' run fl hd pub han st rc ll s m r E Hr
                |b b' run fl hd hd' pub han st rc ll m Hh E].
  - intros [(lq & C & S & Hok & Hp & Hf)]. cbn in Hok, Hp, Hf.
    pose proof (wp_result _ _ _ _ _ (publish_ok _ _ _ _ _ mem_msg mutex mem_push data release Hok) E) as Hok'. cbn beta in Hok'.
    split. destruct (mem_msg && mutex && mem_push); [|by exists lq, C, S].
    exists (lq ++ [mb_fresh b]), C, S. cbn. rewrite fmap_app. split_and!; [done|by rewrite Hp, <- !app_assoc|done].
  - by apply taken_ok.
  - by eapply hand_ok.
  - by eapply subscribed_ok.
  - intros [(lq & C & S & Hok & Hp & Hf)]. cbn in Hok, Hp, Hf.
    pose proof (wp_result _ _ _ _ _ (subscribe_ok _ _ _ _ _ mem mem_queue mem_map release Hok) E) as Hok'. split. by exists lq, C, S.
  - intros [(lq & C & S & Hok & Hp & Hf)]. cbn in Hok, Hp, Hf.
    pose proof (wp_result _ _ _ _ _ (unsubscribe_ok _ _ _ _ _ s Hok) E) as Hok'. cbn beta in Hok'.
    split. exists lq, C, (S ∖ {[s]}). cbn. split_and!; [done|done|]. intros s' l Hl. destruct (Hf s' l Hl) as (k & r & H1 & H2 & H3 & H4 & H5 & H6).
    exists k, r. split_and!; [done..|]. intros [Hin%bool_decide_eq_true Hll]%andb_prop. apply H6.
    rewrite Hll, bool_decide_true; [done|]. set_solver.
  - by eapply received_ok.
  - intros [(lq & C & S & Hok & Hp & Hf)]. cbn in Hok, Hp, Hf. split. exists lq, C, S. split_and!; [|done|done]. cbn.
    assert (Hok1 : mbox_ok b (Some <$> lq) C S (m :: option_list fl ++ hd')).
    { eapply mbox_ok_perm; [|exact Hok]. rewrite Hh. by rewrite Permutation_middle. }
    exact (wp_result _ _ _ _ _ (mbox_unref_ok _ _ _ _ _ m Hok1) E).
Qed.
End system.

Section theorems.
Context {D Q : Type} `{BQueue nat Q}.

Definition empty_mailbox : mailbox D Q := mk_mailbox ∅ 0 [] ∅ 0 (mk_handler false false None false).

Lemma held_by_empty : held_by ∅ = [].
Proof. unfold held_by. by rewrite map_to_list_empty. Qed.

Lemma start_ok release b :
  mailbox_register_topic_handler 0 true release true (message_queue_create true true true true true release) empty_mailbox = Some (0%Z, b) →
  msys_ok (mk_msys b true None [] [] [] ∅ ∅ true).
Proof.
  intros [= <-]. split. destruct (b_create_ok BLOCKING_QUEUE_NO_TIMEOUT release) as (Hq & _).
  exists [], ∅, ∅. cbn. split_and!; [|done|by intros s l ?%lookup_empty_Some]. split; cbn.
  - rewrite held_by_empty. split; cbn; [done|set_solver| |constructor|set_solver].
    intros m. split; [lia|]. by intros [[? ?]|?%elem_of_nil].
  - by eexists _, None.
  - done.
  - by intros s [l ?].
  - set_solver.
Qed.

Lemma mailbox_reachable_ok release b x :
  mailbox_register_topic_handler 0 true release true (message_queue_create true true true true true release) empty_mailbox = Some (0%Z, b) →
  rtc mstep (mk_msys b true None [] [] [] ∅ ∅ true) x → msys_ok x.
Proof.
  intros Hb%start_ok Hs. revert Hb. induction Hs as [|x y z Hxy _ IH]; [done|]. intros Hx. by eapply IH, mstep_ok.
Qed.


(** C25: The messages of a topic are handed out in the order of their publication,
    and a subscriber gets a subsequence of those handed out since it came, in
    this order and each at most once: all of them while it is registered, unless
    a push failed for want of memory. *)
Theorem mailbox_delivery release b x :
  mailbox_register_topic_handler 0 true release true (message_queue_create true true true true true release) empty_mailbox = Some (0%Z, b) →
  rtc mstep (mk_msys b true None [] [] [] ∅ ∅ true) x →
  ∃ lq C S, mbox_ok (ms_box x) (Some <$> lq) C S (option_list (ms_flight x) ++ ms_held x) ∧
    ms_published x = ms_handed x ++ option_list (ms_flight x) ++ lq ∧
    ∀ s l, C !! s = Some l →
      follows_topic (bool_decide (s ∈ S)) (ms_lossless x) (ms_start x !! s) (ms_received x !! s) (ms_handed x) l.
Proof. intros Hb Hs. by destruct (mailbox_reachable_ok _ _ _ Hb Hs) as [Hx]. Qed.

(** The queues are created with the function that destroys the data of a
    message, but they hold messages: shutting the topic down while a message is
    queued behind one that the thread has taken calls it on that message. *)
Theorem message_queue_shutdown_undefined b mq d m y l mem :
  h_queue (mb_handler b) = Some mq → b_release (mq_messages mq) = true → b_models (mq_messages mq) d (Some m :: y :: l) →
  (queue_take;; message_queue_shutdown mem) (b : mailbox D Q) = None.
Proof.
  intros Eh Hr Hm. unfold queue_take, on_queue, message_queue_shutdown, mbind, M_bind, ld_queue. rewrite Eh.
  pose proof (b_round_ok _ _ _ Hm) as (r & q & -> & -> & [_ Er] & Hq)%wp_run. cbn. unfold clear_queue.
  pose proof (b_clear_ok _ _ _ Hq) as (u & q' & -> & _ & _ & E)%wp_run. rewrite E, Er, Hr, drop_app_length.
  rewrite decide_False; [done|]. cbn [length take]. by intros [[=] _]%list.Forall_cons.
Qed.
End theorems.

(** One message published and taken. *)
Definition demo_box : mailbox nat (blocking_queue nat) :=
  mk_mailbox ∅ 0 [] ∅ 0 (mk_handler true true (Some (mk_mq (empty_bqueue (-1) true) ∅)) true).


(** The box after one message was published. *)
Definition demo_box1 : mailbox nat (blocking_queue nat) :=
  match publish_data true true true 7 true demo_box with Some (_, b) => b | None => demo_box end.

Lemma mailbox_delivery_witness :
  let x := mk_msys demo_box1 true None [] [0] [] ∅ ∅ true in
  ∃ lq C S, mbox_ok (ms_box x) (Some <$> lq) C S (option_list (ms_flight x) ++ ms_held x) ∧
    ms_published x = ms_handed x ++ option_list (ms_flight x) ++ lq ∧
    ∀ s l, C !! s = Some l →
      follows_topic (bool_decide (s ∈ S)) (ms_lossless x) (ms_start x !! s) (ms_received x !! s) (ms_handed x) l.
Proof.
  apply (mailbox_delivery true demo_box); [reflexivity|]. apply rtc_once.
  exact (mstep_publish demo_box demo_box1 true None [] [] [] ∅ ∅ true true true true 7 true eq_refl).
Defined.

Lemma message_queue_shutdown_undefined_witness :
  (queue_take;; message_queue_shutdown true)
    (mk_mailbox ∅ 0 [] ∅ 0 (mk_handler true true (Some (mk_mq demo_bqueue ∅)) true) : mailbox nat (blocking_queue nat)) = None.
Proof.
  apply (message_queue_shutdown_undefined _ (mk_mq demo_bqueue ∅) None 7 (Some 8) []); [reflexivity|reflexivity|].
  exact demo_bqueue_models.
Defined.
