(* ===== verification/Volume.v ===== *)
(** * Volumes

    [src/daemon/modules/volume/volume.c], the store of volume drivers and of the
    containers that use a volume, and [local.c], the driver of local volumes.
    The maps are string maps with the interface [StrMap]; the map of references
    of a volume is an object of its own, reached through a pointer.  Every
    function of [volume.c] but [volume_prune] holds the mutex of the store, so it
    is one atomic step, and [volume_prune] is a listing followed by removals.  The
    mutex of the driver is modelled, because one path leaves it locked.  Options
    for user namespaces are off. *)
From stdpp Require Import base gmap list fin_maps numbers strings.
From Stdlib Require Import ZArith Lia Ascii.
From S2P Require Import Prelude CString Regex Array RbTree Map StrMap Convert StringUtil Verify Path SymlinkScope.

Local Open Scope Z_scope.

Definition VOLUME_ERR_NOT_EXIST : Z := -2.
Definition LOCAL_VOLUME_DRIVER_NAME : string := "local".
Definition LOCAL_VOLUME_DATA_DIR_NAME : string := "_data".

Record volume := mk_volume {
  vol_driver : option string; vol_name : cstr; vol_path : string; vol_mount_point : option string }.

(** Which functions of a driver are not [NULL]; they are those of [local.c]. *)
Record volume_driver := mk_driver { d_create : bool; d_get : bool; d_mount : bool; d_umount : bool; d_list : bool; d_remove : bool }.

(** Directories made and removed. *)
Inductive fs_op := Mkdir (path : string) | Rmdir (path : string).

(** [g_volumes] with its mutex, the effects on the disk, [g_vs], the static
    variable of [lookup_driver_by_volume_name], and the heap of reference maps. *)
Record vstate (LT DT NT RT : Type) := mk_vstate {
  g_vols : LT;
  g_root : string;
  g_locked : bool;
  g_disk : list fs_op;
  g_drivers : DT;
  g_static : option volume_driver;
  g_refs : NT;
  g_heap : gmap nat RT;
  g_fresh : nat
}.
Arguments mk_vstate {LT DT NT RT} _ _ _ _ _ _ _ _ _.
Arguments g_vols {LT DT NT RT} _.
Arguments g_root {LT DT NT RT} _.
Arguments g_locked {LT DT NT RT} _.
Arguments g_disk {LT DT NT RT} _.
Arguments g_drivers {LT DT NT RT} _.
Arguments g_static {LT DT NT RT} _.
Arguments g_refs {LT DT NT RT} _.
Arguments g_heap {LT DT NT RT} _.
Arguments g_fresh {LT DT NT RT} _.

(** [util_path_dir] *)
Definition util_path_dir (path : option string) : option string :=
  match path with
  | None => None
  | Some path =>
    let dir := chars_of path in
    if decide (dir = []) then Some "."%string else
    let l := last_slash dir (length dir) in
    Some (if decide (2 ≤ l)%nat then to_str (take (pred l) dir) else if is_abs dir then "/"%string else path)
  end.

Definition volume_path (root : string) (name : cstr) : string :=
  to_str (chars_of root ++ slash :: chars_of (cstr_s name) ++ slash :: chars_of LOCAL_VOLUME_DATA_DIR_NAME).

Section local_driver.
Context {LT DT NT RT : Type} {LM : StrMap volume LT}.
Let VM := M (vstate LT DT NT RT).

Definition on_vols {A} (f : M LT A) : VM A := λ s,
  match f (g_vols s) with
  | Some (a, m) => Some (a, mk_vstate m (g_root s) (g_locked s) (g_disk s) (g_drivers s) (g_static s) (g_refs s) (g_heap s) (g_fresh s))
  | None => None
  end.

Definition set_locked (b : bool) (s : vstate LT DT NT RT) : vstate LT DT NT RT :=
  mk_vstate (g_vols s) (g_root s) b (g_disk s) (g_drivers s) (g_static s) (g_refs s) (g_heap s) (g_fresh s).
Definition add_disk (op : fs_op) (s : vstate LT DT NT RT) : vstate LT DT NT RT :=
  mk_vstate (g_vols s) (g_root s) (g_locked s) (g_disk s ++ [op]) (g_drivers s) (g_static s) (g_refs s) (g_heap s) (g_fresh s).

(** The callers hold the mutex of the store, so a mutex of the driver that is
    locked stays locked: the call never returns. *)
Definition mutex_lock : VM unit := λ s, if g_locked s then None else Some (tt, set_locked true s).
Definition mutex_unlock : VM unit := λ s, if g_locked s then Some (tt, set_locked false s) else None.

(** A call that makes or removes a directory, with its outcome. *)
Definition disk_op (ok : bool) (op : fs_op) : VM Z :=
  if ok then modify (add_disk op);; mret 0 else mret (-1).

Definition dup_volume (mem : bool) (name : cstr) (path : string) : option volume :=
  if mem then Some (mk_volume (Some LOCAL_VOLUME_DRIVER_NAME) name path (Some path)) else None.

Definition local_volume_get (mem : bool) (name : option cstr) : VM (option volume) :=
  match name with
  | None => mret None
  | Some name =>
    if negb (util_valid_volume_name (Some (cstr_s name))) then mret None else
    mutex_lock;;
    v ← on_vols (sm_search name);
    mutex_unlock;;
    mret (match v with None => None | Some v => dup_volume mem (vol_name v) (vol_path v) end)
  end.

Definition create_volume_meminfo (mem : bool) (root : string) (name : cstr) : option volume :=
  if negb mem then None else
  let path := volume_path root name in
  if decide (PATH_MAX ≤ length (chars_of path))%nat then None else Some (mk_volume None name path None).

(** [mkdir] and [rmdir] are the outcomes of the calls. *)
Definition volume_create_nolock (mem mkdir rmdir : bool) (mem_map : map_mem) (name : cstr) : VM (option volume) :=
  v ← on_vols (sm_search name);
  match v with
  | Some v => mret (Some v)
  | None =>
    s ← get;
    match create_volume_meminfo mem (g_root s) name with
    | None => mret None
    | Some v =>
      ret ← disk_op mkdir (Mkdir (vol_path v));
      ret ← (if decide (ret ≠ 0) then mret (-1) else
             ok ← on_vols (sm_insert mem_map (vol_name v) v);
             mret (if (ok : bool) then 0 else -1));
      if decide (ret ≠ 0) then disk_op rmdir (Rmdir (vol_path v));; mret None else mret (Some v)
    end
  end.

Definition local_volume_create (mem mem_dup mkdir rmdir : bool) (mem_map : map_mem) (name : option cstr) : VM (option volume) :=
  match name with
  | None => mret None
  | Some name =>
    if negb (util_valid_volume_name (Some (cstr_s name))) then mret None else
    mutex_lock;;
    v ← volume_create_nolock mem mkdir rmdir mem_map name;
    mutex_unlock;;
    mret (match v with None => None | Some v => dup_volume mem_dup (vol_name v) (vol_path v) end)
  end.

Definition local_volume_mount (name : cstr) : VM Z := mret 0.
Definition local_volume_umount (name : cstr) : VM Z := mret 0.

Definition new_empty_volumes (mem mem_array : bool) (size : Z) : bool :=
  if negb mem then false else if decide (size = 0) then true else util_smart_calloc_s mem_array PTR_SIZE size.

(** The copies made in the loop of [local_volume_list]; [mem i] is the outcome
    of the allocation in round [i]. *)
Fixpoint dup_all (mem : nat → bool) (i : nat) (l : list (cstr * volume)) : option (list volume) :=
  match l with
  | [] => Some []
  | (_, v) :: l =>
    match dup_volume (mem i) (vol_name v) (vol_path v), dup_all mem (S i) l with
    | Some v, Some vs => Some (v :: vs)
    | _, _ => None
    end
  end.

Definition local_volume_list (mem mem_array mem_itor : bool) (mem_dup : nat → bool) : VM (option (list volume)) :=
  mutex_lock;;
  size ← on_vols sm_size;
  if negb (new_empty_volumes mem mem_array size) then mret None else
  l ← on_vols (sm_pairs mem_itor);
  mutex_unlock;;
  mret (match l with None => None | Some l => dup_all mem_dup 0 l end).

(** [rmdir_data] and [rmdir_vol] are the outcomes of the two removals. *)
Definition remove_volume_dir (rmdir_data rmdir_vol : bool) (path : string) : VM Z :=
  s ← get;
  match util_path_dir (Some path) with
  | None => mret (-1)
  | Some vol_dir =>
    if negb (util_has_prefix (Some vol_dir) (Some (g_root s))) ||
       (String.length vol_dir <=? String.length (g_root s) + 1)%nat then mret (-1) else
    ret ← disk_op rmdir_data (Rmdir path);
    if decide (ret ≠ 0) then mret ret else
    disk_op rmdir_vol (Rmdir vol_dir)
  end.

Definition volume_remove_nolock (rmdir_data rmdir_vol : bool) (name : cstr) : VM Z :=
  v ← on_vols (sm_search name);
  match v with
  | None => mret VOLUME_ERR_NOT_EXIST
  | Some v =>
    ret ← remove_volume_dir rmdir_data rmdir_vol (vol_path v);
    if decide (ret ≠ 0) then mret (-1) else
    ok ← on_vols (sm_remove name);
    mret (if (ok : bool) then 0 else -1)
  end.

Definition local_volume_remove (rmdir_data rmdir_vol : bool) (name : option cstr) : VM Z :=
  match name with
  | None => mret (-1)
  | Some name =>
    if negb (util_valid_volume_name (Some (cstr_s name))) then mret (-1) else
    mutex_lock;;
    ret ← volume_remove_nolock rmdir_data rmdir_vol name;
    mutex_unlock;;
    mret ret
  end.
End local_driver.

(** ** The store *)
Section store.
Context {LT DT NT RT : Type} {LM : StrMap volume LT} {DM : StrMap volume_driver DT} {NM : StrMap nat NT} {RM : StrMap bool RT}.
Let VM := M (vstate LT DT NT RT).

Definition on_drivers {A} (f : M DT A) : VM A := λ s,
  match f (g_drivers s) with
  | Some (a, m) => Some (a, mk_vstate (g_vols s) (g_root s) (g_locked s) (g_disk s) m (g_static s) (g_refs s) (g_heap s) (g_fresh s))
  | None => None
  end.
Definition set_static (d : option volume_driver) (s : vstate LT DT NT RT) : vstate LT DT NT RT :=
  mk_vstate (g_vols s) (g_root s) (g_locked s) (g_disk s) (g_drivers s) d (g_refs s) (g_heap s) (g_fresh s).
Definition set_heap (f : gmap nat RT → gmap nat RT) (s : vstate LT DT NT RT) : vstate LT DT NT RT :=
  mk_vstate (g_vols s) (g_root s) (g_locked s) (g_disk s) (g_drivers s) (g_static s) (g_refs s) (f (g_heap s)) (g_fresh s).

(** A call on one map of references. *)
Definition on_ref {A} (p : nat) (f : M RT A) : VM A := λ s,
  match g_heap s !! p with
  | Some m => match f m with Some (a, m) => Some (a, set_heap (<[p := m]>) s) | None => None end
  | None => None
  end.

(** [map_free] *)
Definition free_ref (p : nat) : VM unit := on_ref p sm_free;; modify (set_heap (delete p)).

Fixpoint free_all (l : list nat) : VM unit :=
  match l with [] => mret tt | p :: l => free_ref p;; free_all l end.

(** A call on [name_refs]: the values handed to [refs_kvfree] are freed. *)
Definition on_refs {A} (f : M NT A) : VM A := λ s,
  match f (g_refs s) with
  | Some (a, m) =>
    (free_all (drop (length (sm_dropped (g_refs s))) (sm_dropped m));; mret a)
      (mk_vstate (g_vols s) (g_root s) (g_locked s) (g_disk s) (g_drivers s) (g_static s) m (g_heap s) (g_fresh s))
  | None => None
  end.

Definition valid_driver (d : volume_driver) : Z :=
  if negb (d_create d && d_get d && d_mount d && d_umount d && d_list d && d_remove d) then -1 else 0.

Definition lookup_driver (name : option cstr) : VM (option volume_driver) :=
  match name with None => mret None | Some name => on_drivers (sm_search name) end.

(** The loop over the drivers; the static variable keeps the last one visited. *)
Fixpoint driver_loop (mem : bool) (name : cstr) (l : list (cstr * volume_driver)) : VM unit :=
  match l with
  | [] => mret tt
  | (_, d) :: l =>
    modify (set_static (Some d));;
    vol ← local_volume_get mem (Some name);
    match vol with Some _ => mret tt | None => driver_loop mem name l end
  end.

Definition lookup_driver_by_volume_name (mem_itor mem_dup : bool) (name : option cstr) : VM (option volume_driver) :=
  match name with
  | None => mret None
  | Some name =>
    l ← on_drivers (sm_pairs mem_itor);
    (match l with None => mret tt | Some l => driver_loop mem_dup name l end);;
    s ← get;
    mret (g_static s)
  end.

Definition dup_driver (mem : bool) (d : volume_driver) : option volume_driver := if mem then Some d else None.

Definition insert_driver (mem : bool) (mem_map : map_mem) (name : cstr) (driver : volume_driver) : VM Z :=
  if decide (valid_driver driver ≠ 0) then mret (-1) else
  match dup_driver mem driver with
  | None => mret (-1)
  | Some d => ok ← on_drivers (sm_insert mem_map name d); mret (if (ok : bool) then 0 else -1)
  end.

Definition register_driver (mem : bool) (mem_map : map_mem) (name : option cstr) (driver : option volume_driver) : VM Z :=
  match name, driver with
  | Some n, Some driver =>
    found ← lookup_driver name;
    match found with Some _ => mret (-1) | None => insert_driver mem mem_map n driver end
  | _, _ => mret (-1)
  end.

(** The outcomes of the allocations of [add_name_ref], and the bytes of a map
    structure read as a string, which the error path takes for a key. *)
Record ref_env := mk_ref_env { re_map : bool; re_tree : bool; re_nil : bool; re_name : map_mem; re_ref : map_mem; re_junk : cstr }.

Definition new_ref (e : ref_env) : VM (option nat) := λ s,
  match sm_new (re_map e) (re_tree e) (re_nil e) with
  | None => Some (None, s)
  | Some m => Some (Some (g_fresh s), mk_vstate (g_vols s) (g_root s) (g_locked s) (g_disk s) (g_drivers s) (g_static s)
                                        (g_refs s) (<[g_fresh s := m]> (g_heap s)) (S (g_fresh s)))
  end.

(** The map of references of a volume, made if there is none. *)
Definition get_or_add_refs (e : ref_env) (name : cstr) : VM (option nat) :=
  refs ← on_refs (sm_search name);
  match refs with
  | Some refs => mret (Some refs)
  | None =>
    refs ← new_ref e;
    match refs with
    | None => mret None
    | Some refs =>
      ok ← on_refs (sm_insert (re_name e) name refs);
      if (ok : bool) then mret (Some refs) else free_ref refs;; mret None
    end
  end.

Definition add_name_ref (e : ref_env) (name ref : cstr) : VM Z :=
  refs ← get_or_add_refs e name;
  match refs with
  | None => mret (-1)
  | Some refs =>
    found ← on_ref refs (sm_search ref);
    match found with
    | Some _ => mret 0
    | None =>
      ok ← on_ref refs (sm_insert (re_ref e) ref true);
      if (ok : bool) then mret 0 else
      size ← on_ref refs sm_size;
      (if decide (size = 0) then _ ← on_refs (sm_remove (re_junk e)); mret tt else mret tt);;
      mret (-1)
    end
  end.

Definition empty_volume_names (mem mem_array : bool) (size : Z) : bool :=
  if negb mem then false else util_smart_calloc_s mem_array PTR_SIZE size.

Definition get_name_refs (mem mem_array mem_itor : bool) (name : cstr) : VM (option (list cstr)) :=
  refs ← on_refs (sm_search name);
  match refs with
  | None => mret None
  | Some refs =>
    size ← on_ref refs sm_size;
    if negb (empty_volume_names mem mem_array size) then mret None else
    l ← on_ref refs (sm_pairs mem_itor);
    mret (match l with None => None | Some l => Some (l.*1) end)
  end.

Definition del_name_ref (name ref : cstr) : VM Z :=
  refs ← on_refs (sm_search name);
  match refs with
  | None => mret 0
  | Some refs =>
    size ← on_ref refs sm_size;
    ok ← (if decide (size ≠ 0) then on_ref refs (sm_remove ref) else mret true);
    if negb ok then mret (-1) else
    size ← on_ref refs sm_size;
    if decide (size = 0) then ok ← on_refs (sm_remove name); mret (if (ok : bool) then 0 else -1) else mret 0
  end.

(** The outcomes of the calls of [volume_create]; [ce_random] is the generated
    name, used when there is none. *)
Record create_env := mk_create_env {
  ce_random : option cstr; ce_mem : bool; ce_dup : bool; ce_mkdir : bool; ce_rmdir : bool; ce_map : map_mem; ce_ref : ref_env }.

Definition volume_create (e : create_env) (driver_name name ref : option cstr) : VM (option volume) :=
  match driver_name, ref with
  | Some _, Some ref =>
    driver ← lookup_driver driver_name;
    match driver with
    | None => mret None
    | Some _ =>
      match (match name with Some n => Some n | None => ce_random e end) with
      | None => mret None
      | Some n =>
        vol ← local_volume_create (ce_mem e) (ce_dup e) (ce_mkdir e) (ce_rmdir e) (ce_map e) (Some n);
        match vol with
        | None => mret None
        | Some vol => ret ← add_name_ref (ce_ref e) n ref; mret (if decide (ret ≠ 0) then None else Some vol)
        end
      end
    end
  | _, _ => mret None
  end.

Definition volume_mount (mem_itor mem_dup : bool) (name : option cstr) : VM Z :=
  match name with
  | None => mret (-1)
  | Some n =>
    driver ← lookup_driver_by_volume_name mem_itor mem_dup name;
    match driver with None => mret (-1) | Some _ => local_volume_mount n end
  end.

Definition volume_umount (mem_itor mem_dup : bool) (name : option cstr) : VM Z :=
  match name with
  | None => mret (-1)
  | Some n =>
    driver ← lookup_driver_by_volume_name mem_itor mem_dup name;
    match driver with None => mret (-1) | Some _ => local_volume_umount n end
  end.

(** The outcomes of the allocations of a listing. *)
Record list_env := mk_list_env { le_itor : bool; le_mem : bool; le_array : bool; le_vols : bool; le_dup : nat → bool }.

Definition list_all_driver_volumes (e : list_env) : VM (option (list volume)) :=
  l ← on_drivers (sm_pairs (le_itor e));
  match l with
  | None | Some [] => mret None
  | Some (_ :: _) => local_volume_list (le_mem e) (le_array e) (le_vols e) (le_dup e)
  end.

Definition volume_list (e : list_env) : VM (option (list volume)) := list_all_driver_volumes e.

Definition volume_add_ref (e : ref_env) (name ref : option cstr) : VM Z :=
  match name, ref with Some name, Some ref => add_name_ref e name ref | _, _ => mret (-1) end.

Definition volume_del_ref (name ref : option cstr) : VM Z :=
  match name, ref with Some name, Some ref => del_name_ref name ref | _, _ => mret (-1) end.

(** The outcomes of the calls of [volume_remove]. *)
Record remove_env := mk_remove_env {
  rv_itor : bool; rv_dup : bool; rv_names : bool; rv_array : bool; rv_refs : bool; rv_data : bool; rv_vol : bool }.

Definition volume_remove (e : remove_env) (name : option cstr) : VM Z :=
  match name with
  | None => mret (-1)
  | Some n =>
    driver ← lookup_driver_by_volume_name (rv_itor e) (rv_dup e) name;
    match driver with
    | None => mret (-1)
    | Some _ =>
      vns ← get_name_refs (rv_names e) (rv_array e) (rv_refs e) n;
      match vns with
      | Some (_ :: _) => mret (-1)
      | _ => local_volume_remove (rv_data e) (rv_vol e) name
      end
    end
  end.

(** The loop of [volume_prune]: the names of the volumes removed; [e i] are the
    outcomes of round [i]. *)
Fixpoint prune_loop (e : nat → remove_env) (i : nat) (l : list volume) : VM (list cstr) :=
  match l with
  | [] => mret []
  | v :: l =>
    ret ← volume_remove (e i) (Some (vol_name v));
    names ← prune_loop e (S i) l;
    mret (if decide (ret = 0) then vol_name v :: names else names)
  end.

Definition volume_prune (mem mem_names : bool) (le : list_env) (e : nat → remove_env) : VM (option (list cstr)) :=
  if negb mem then mret None else
  l ← volume_list le;
  match l with
  | None => mret None
  | Some [] => mret (Some [])
  | Some l =>
    if util_smart_calloc_s mem_names PTR_SIZE (Z.of_nat (length l))
    then names ← prune_loop e 0 l; mret (Some names) else mret None
  end.
End store.

(** ** Starting the daemon *)
Definition LOCAL_VOLUME_ROOT_DIR_NAME : string := "volumes".

(** The outcomes of the calls made when a volume is loaded, and of those of
    [volume_init]. *)
Record load_env := mk_load_env { lo_follow_vol : list bool; lo_follow_data : list bool; lo_dup : bool; lo_map : map_mem }.
Record init_env := mk_init_env {
  ie_drivers : bool * bool * bool; ie_refs : bool * bool * bool; ie_info : bool; ie_vols : bool * bool * bool; ie_mutex : bool;
  ie_mkdir : bool; ie_dir : option (list cstr); ie_load : cstr → load_env; ie_driver : bool; ie_driver_map : map_mem }.

Section init.
Context {LT DT NT RT : Type} {LM : StrMap volume LT} {DM : StrMap volume_driver DT} {NM : StrMap nat NT} {RM : StrMap bool RT}.
Context `{file_system}.
Let VM := M (vstate LT DT NT RT).

(** The path returned is that of the data directory, not the one that was
    followed and found to exist. *)
Definition build_and_valid_data_dir (e : load_env) (cwd : option string) (root_dir : string) (name : cstr) : option (option string) :=
  if negb (util_valid_volume_name (Some (cstr_s name))) then Some None else
  match util_path_join cwd (Some root_dir) (Some (cstr_s name)) with
  | None => None
  | Some None => Some None
  | Some (Some vol_dir) =>
    match util_follow_symlink_in_scope cwd (lo_follow_vol e) (Some vol_dir) (Some root_dir) with
    | None => None
    | Some None => Some None
    | Some (Some _) =>
      match util_path_join cwd (Some vol_dir) (Some LOCAL_VOLUME_DATA_DIR_NAME) with
      | None => None
      | Some None => Some None
      | Some (Some data_dir) =>
        match util_follow_symlink_in_scope cwd (lo_follow_data e) (Some data_dir) (Some vol_dir) with
        | None => None
        | Some None => Some None
        | Some (Some tmp_dir) => Some (match lstat tmp_dir with None => None | Some _ => Some data_dir end)
        end
      end
    end
  end.

Definition load_volume (e : load_env) (cwd : option string) (root_dir : string) (name : cstr) : VM bool :=
  match build_and_valid_data_dir e cwd root_dir name with
  | None => fail
  | Some None => mret true
  | Some (Some data_dir) =>
    mutex_lock;;
    (match dup_volume (lo_dup e) name data_dir with
     | None => mret tt
     | Some vol => _ ← on_vols (sm_insert (lo_map e) name vol); mret tt
     end);;
    mutex_unlock;;
    mret true
  end.

Definition load_volumes (e : init_env) (cwd : option string) : VM Z :=
  s ← get;
  util_scan_subdirs cstr_s (ie_dir e) (λ d, load_volume (ie_load e d) cwd (g_root s) d).

Definition set_root (root : string) (s : vstate LT DT NT RT) : vstate LT DT NT RT :=
  mk_vstate (g_vols s) root (g_locked s) (g_disk s) (g_drivers s) (g_static s) (g_refs s) (g_heap s) (g_fresh s).

Definition init_volume_root_dir (mkdir : bool) (root_dir : string) : VM Z :=
  ret ← disk_op mkdir (Mkdir root_dir);
  if decide (ret ≠ 0) then mret ret else modify (set_root root_dir);; mret ret.

(** [sm_new] with its allocations in one argument. *)
Definition new_map {V MT} {SM : StrMap V MT} (m : bool * bool * bool) : option MT := sm_new m.1.1 m.1.2 m.2.

Definition new_empty_volumes_info (e : init_env) : option LT := if ie_info e then new_map (ie_vols e) else None.

(** [st] is the state with the new map of volumes as [g_volumes]; the second
    result is the state when [g_volumes] is not [NULL]. *)
Definition local_volume_init (e : init_env) (cwd : option string) (st : LT → vstate LT DT NT RT) (scope : option string) :
    option (Z * option (vstate LT DT NT RT)) :=
  match scope, new_empty_volumes_info e with
  | Some scope, Some vols =>
    match (if negb (ie_mutex e) then mret (-1) else
           ret ← init_volume_root_dir (ie_mkdir e) scope;
           if decide (ret ≠ 0) then mret ret else load_volumes e cwd) (st vols) with
    | None => None
    | Some (ret, s) =>
      if decide (ret ≠ 0) then match on_vols sm_free s with Some _ => Some (ret, None) | None => None end
      else Some (ret, Some s)
    end
  | _, _ => Some (-1, None)
  end.

Definition register_local_volume (e : init_env) (cwd : option string) (st : LT → vstate LT DT NT RT) (root_dir : option string) :
    option (Z * option (vstate LT DT NT RT)) :=
  match root_dir with
  | None => Some (-1, None)
  | Some _ =>
    match util_path_join cwd root_dir (Some LOCAL_VOLUME_ROOT_DIR_NAME) with
    | None => None
    | Some None => Some (-1, None)
    | Some local_volume_root_dir =>
      match local_volume_init e cwd st local_volume_root_dir with
      | Some (ret, Some s) =>
        match register_driver (ie_driver e) (ie_driver_map e) (Some (cstr_of LOCAL_VOLUME_DRIVER_NAME))
                (Some (mk_driver true true true true true true)) s with
        | Some (ret, s) => Some (ret, Some s)
        | None => None
        end
      | Some (_, None) => Some (-1, None)
      | None => None
      end
    end
  end.

(** [None] for a failure, after which both maps of the store are [NULL]. *)
Definition volume_init (e : init_env) (cwd : option string) (root_dir : option string) : option (option (vstate LT DT NT RT)) :=
  match new_map (ie_drivers e), new_map (ie_refs e) with
  | Some drivers, Some refs =>
    match register_local_volume e cwd (λ vols, mk_vstate vols "" false [] drivers None refs ∅ 0) root_dir with
    | Some (ret, Some s) =>
      if decide (ret = 0) then Some (Some s) else
      match sm_free (g_drivers s), sm_free (g_refs s) with Some _, Some _ => Some None | _, _ => None end
    | Some (_, None) => match sm_free drivers, sm_free refs with Some _, Some _ => Some None | _, _ => None end
    | None => None
    end
  | Some drivers, None => match sm_free drivers with Some _ => Some None | None => None end
  | None, _ => Some None
  end.
End init.

(** ** The invariant *)

Definition valid_volume (n : cstr) : Prop := util_valid_volume_name (Some (cstr_s n)) = true.

Definition local_driver : cstr := cstr_of LOCAL_VOLUME_DRIVER_NAME.

Section invariant.
Context {LT DT NT RT : Type} {LM : StrMap volume LT} {DM : StrMap volume_driver DT} {NM : StrMap nat NT} {RM : StrMap bool RT}.
Implicit Types (s : vstate LT DT NT RT) (V : gmap cstr volume) (N : gmap cstr nat) (H : gmap nat (gmap cstr bool)) (n : cstr).

(** The volumes are [V], the references of the volume [n] are in the map
    [N !! n], every map of references belongs to one volume, the one driver is [local],
    and [lk] says whether the mutex of the driver is locked. *)
Record vs_at (lk : bool) s V N H : Prop := {
  vo_vols : sm_models (g_vols s) V;
  vo_names n v : V !! n = Some v → vol_name v = n ∧ vol_path v = volume_path (g_root s) n ∧ valid_volume n;
  vo_refs : sm_models (g_refs s) N;
  vo_heap p : match g_heap s !! p, H !! p with
              | Some m, Some G => sm_models m G
              | None, None => True
              | _, _ => False
              end;
  vo_own p : is_Some (H !! p) ↔ ∃ n, N !! n = Some p;
  vo_inj a b p : N !! a = Some p → N !! b = Some p → a = b;
  vo_fresh p : is_Some (H !! p) → (p < g_fresh s)%nat;
  vo_drivers : ∃ X, sm_models (g_drivers s) X ∧ dom X = {[local_driver]};
  vo_lock : g_locked s = lk
}.

Definition vs_ok s V N H : Prop := vs_at false s V N H.

(** The containers that use the volume [n]. *)
Definition refs_of N H n : gset cstr :=
  match N !! n with Some p => dom (default ∅ (H !! p)) | None => ∅ end.

Lemma vs_ok_static lk s V N H d : vs_at lk s V N H → vs_at lk (set_static d s) V N H.
Proof. intros []. by split. Qed.

Lemma vs_ok_heap lk s V N H n p : vs_at lk s V N H → N !! n = Some p → ∃ m G, g_heap s !! p = Some m ∧ H !! p = Some G ∧ sm_models m G.
Proof.
  intros Hok Hn. destruct (proj2 (vo_own _ _ _ _ _ Hok p) (ex_intro _ n Hn)) as [G HG].
  pose proof (vo_heap _ _ _ _ _ Hok p) as Hh. rewrite HG in Hh. destruct (g_heap s !! p) as [m|] eqn:E; [|done]. eauto.
Qed.

(** Calls that only read a map. *)
Lemma wp_read_vols {A} lk s V N H (f : M LT A) (P : A → LT → Prop) (Q : A → vstate LT DT NT RT → Prop) :
  vs_at lk s V N H → (∀ m, sm_models m V → wp f (λ a m', m' = m ∧ P a m') m) → (∀ a, P a (g_vols s) → Q a s) →
  wp (on_vols f) Q s.
Proof.
  intros Hok Hf HQ. pose proof (Hf _ (vo_vols _ _ _ _ _ Hok)) as (a & m & E & -> & Ha)%wp_run.
  unfold wp, on_vols. rewrite E. destruct s. by apply HQ.
Qed.

Lemma wp_read_refs {A} lk s V N H (f : M NT A) (P : A → Prop) (Q : A → vstate LT DT NT RT → Prop) :
  vs_at lk s V N H → (∀ m, sm_models m N → wp f (λ a m', m' = m ∧ P a) m) → (∀ a, P a → Q a s) →
  wp (on_refs f) Q s.
Proof.
  intros Hok Hf HQ. pose proof (Hf _ (vo_refs _ _ _ _ _ Hok)) as (a & m & E & -> & Ha)%wp_run.
  unfold wp, on_refs. rewrite E, drop_all. destruct s. by apply HQ.
Qed.

Lemma wp_read_ref {A} s p m (f : M RT A) (P : A → Prop) (Q : A → vstate LT DT NT RT → Prop) :
  g_heap s !! p = Some m → wp f (λ a m', m' = m ∧ P a) m → (∀ a, P a → Q a s) → wp (on_ref p f) Q s.
Proof.
  intros Hp (a & m' & E & -> & Ha)%wp_run HQ. unfold wp, on_ref. rewrite Hp, E. unfold set_heap. rewrite insert_id by done.
  destruct s. by apply HQ.
Qed.

Lemma wp_read_drivers {A} lk s V N H (f : M DT A) (P : A → gmap cstr volume_driver → Prop) (Q : A → vstate LT DT NT RT → Prop) :
  vs_at lk s V N H → (∀ m X, sm_models m X → wp f (λ a m', m' = m ∧ P a X) m) → (∀ a X, dom X = {[local_driver]} → P a X → Q a s) →
  wp (on_drivers f) Q s.
Proof.
  intros Hok Hf HQ. destruct (vo_drivers _ _ _ _ _ Hok) as (X & HX & Hne). pose proof (Hf _ X HX) as (a & m & E & -> & Ha)%wp_run.
  unfold wp, on_drivers. rewrite E. destruct s. by apply (HQ a X).
Qed.

Lemma vs_at_lock lk lk' s V N H : vs_at lk s V N H → vs_at lk' (set_locked lk' s) V N H.
Proof. intros []. by split. Qed.

(** A critical section of the driver. *)
Lemma wp_critical {A B} s V N H (f : M (vstate LT DT NT RT) A) (g : A → B) (Q : B → vstate LT DT NT RT → Prop) :
  vs_ok s V N H →
  wp f (λ a s', ∃ V', vs_at true s' V' N H ∧ (vs_ok (set_locked false s') V' N H → Q (g a) (set_locked false s'))) (set_locked true s) →
  wp (mutex_lock;; a ← f; mutex_unlock;; mret (g a)) Q s.
Proof.
  intros Hok Hf. apply wp_bind. unfold wp at 1, mutex_lock. rewrite (vo_lock _ _ _ _ _ Hok).
  apply wp_bind. eapply wp_mono; [exact Hf|]. cbn beta. intros a s' (V' & Hs' & HQ). apply wp_bind.
  unfold wp at 1, mutex_unlock. rewrite (vo_lock _ _ _ _ _ Hs'). apply wp_ret, HQ. by eapply vs_at_lock.
Qed.
End invariant.

(** ** The driver *)
Section driver.
Context {LT DT NT RT : Type} {LM : StrMap volume LT} {DM : StrMap volume_driver DT} {NM : StrMap nat NT} {RM : StrMap bool RT}.
Implicit Types (s : vstate LT DT NT RT) (V : gmap cstr volume) (N : gmap cstr nat) (H : gmap nat (gmap cstr bool)) (n : cstr).

Lemma relock s : g_locked s = false → set_locked false (set_locked true s) = s.
Proof. destruct s. by cbn; intros ->. Qed.

Lemma get_ok s V N H mem n : vs_ok s V N H → wp (local_volume_get mem (Some n)) (λ _ s', s' = s) s.
Proof.
  intros Hok. unfold local_volume_get. destruct (negb _); [by apply wp_ret|].
  apply (wp_critical _ _ _ _ _ (λ v, match v with None => None | Some v => dup_volume mem (vol_name v) (vol_path v) end) _ Hok).
  pose proof (vs_at_lock _ true _ _ _ _ Hok) as Hl.
  apply (wp_read_vols _ _ _ _ _ _ (λ _ _, True) _ Hl).
  - intros m Hm. eapply wp_mono; [by apply sm_search_ok|]. by intros v m' [-> _].
  - intros v _. exists V. split; [done|]. intros _. by apply relock, (vo_lock _ _ _ _ _ Hok).
Qed.

Lemma driver_loop_ok s V N H mem n l :
  vs_ok s V N H →
  wp (driver_loop mem n l) (λ _ s', ∃ d, s' = set_static d s ∧ (l ≠ [] ∨ is_Some (g_static s) → is_Some d)) s.
Proof.
  intros Hok. revert s Hok. induction l as [|[k d] l IH]; intros s Hok; simpl.
  { apply wp_ret. exists (g_static s). split; [by destruct s|naive_solver]. }
  apply wp_bind, wp_modify, wp_bind. pose proof (vs_ok_static _ _ _ _ _ (Some d) Hok) as Hok1.
  eapply wp_mono; [by eapply get_ok|]. cbn beta. intros [v|] s' ->; [apply wp_ret; by exists (Some d)|].
  eapply wp_mono; [by apply IH|]. cbn beta. intros _ s' (d' & -> & Hd). exists d'. split; [by destruct s|].
  intros _. apply Hd. right. by eexists.
Qed.

Lemma lookup_ok s V N H mem_itor mem_dup n :
  vs_ok s V N H →
  wp (lookup_driver_by_volume_name mem_itor mem_dup (Some n)) (λ r s', s' = set_static r s ∧ (mem_itor = true → is_Some r)) s.
Proof.
  intros Hok. unfold lookup_driver_by_volume_name.
  apply wp_bind, (wp_read_drivers _ _ _ _ _ _ (λ l X, if mem_itor then ∃ e, l = Some e ∧ e ≡ₚ map_to_list X else l = None) _ Hok).
  { intros m X HX. by apply sm_pairs_ok. }
  intros l X HX Hl. apply wp_bind. destruct mem_itor.
  - destruct Hl as (e & -> & He). eapply wp_mono; [by eapply driver_loop_ok|]. cbn beta. intros _ s' (d & -> & Hd).
    apply wp_bind, wp_get, wp_ret. split; [done|]. intros _. apply Hd. left. intros ->.
    apply Permutation_nil_l in He. symmetry in He. apply map_to_list_empty_iff in He as ->. set_solver.
  - subst l. apply wp_ret, wp_bind, wp_get, wp_ret. split; [by destruct s|done].
Qed.

(** The data directory of a volume lies in its directory, below the root. *)
Lemma volume_dir root n :
  util_path_dir (Some (volume_path root n)) = Some (to_str (chars_of root ++ slash :: chars_of (cstr_s n))).
Proof.
  unfold util_path_dir, volume_path. rewrite chars_of_string.
  set (u := chars_of root ++ slash :: chars_of (cstr_s n)).
  assert (E : chars_of root ++ slash :: chars_of (cstr_s n) ++ slash :: chars_of LOCAL_VOLUME_DATA_DIR_NAME
            = u ++ slash :: chars_of LOCAL_VOLUME_DATA_DIR_NAME) by (unfold u; by rewrite <- app_assoc).
  rewrite E. rewrite decide_False by (by destruct u).
  rewrite last_slash_at by (by repeat constructor). assert (0 < length u)%nat by (unfold u; rewrite length_app; simpl; lia).
  rewrite decide_True by lia. cbn [pred]. by rewrite take_app_length.
Qed.

Lemma volume_dir_below root n :
  valid_volume n → let dir := to_str (chars_of root ++ slash :: chars_of (cstr_s n)) in
  negb (util_has_prefix (Some dir) (Some root)) || (String.length dir <=? String.length root + 1)%nat = false.
Proof.
  intros Hn dir. unfold util_has_prefix, dir. rewrite chars_of_string.
  assert (Hlen : String.length (to_str (chars_of root ++ slash :: chars_of (cstr_s n))) =
                 (String.length root + 1 + String.length (cstr_s n))%nat).
  { rewrite <- !length_chars_of, chars_of_string, length_app. simpl. lia. }
  rewrite Hlen. assert (Hne : (0 < String.length (cstr_s n))%nat).
  { unfold valid_volume in Hn. destruct (cstr_s n); [by vm_compute in Hn|simpl; lia]. }
  rewrite (proj2 (Nat.ltb_ge _ _)), (proj2 (Nat.leb_gt _ _)) by lia. by rewrite prefix_by_app.
Qed.

(** Effects on the disk and on the volumes. *)
Lemma wp_disk s ok op (Q : Z → vstate LT DT NT RT → Prop) :
  (ok = true → Q 0 (add_disk op s)) → (ok = false → Q (-1) s) → wp (disk_op ok op) Q s.
Proof. intros HT HF. unfold disk_op. destruct ok; [by apply wp_bind, wp_modify, wp_ret, HT|by apply wp_ret, HF]. Qed.

Lemma vs_at_disk lk s V N H op : vs_at lk s V N H → vs_at lk (add_disk op s) V N H.
Proof. intros []. by split. Qed.

Lemma search_vols_ok lk s V N H n (Q : option volume → vstate LT DT NT RT → Prop) :
  vs_at lk s V N H → Q (V !! n) s → wp (on_vols (sm_search n)) Q s.
Proof.
  intros Hok HQ. apply (wp_read_vols _ _ _ _ _ _ (λ v _, v = V !! n) _ Hok); [|by intros v ->].
  intros m Hm. by apply sm_search_ok.
Qed.

(** [remove_volume_dir] on the path of a volume. *)
Lemma remove_dir_ok lk s V N H rmdir_data rmdir_vol n :
  vs_at lk s V N H → valid_volume n →
  wp (remove_volume_dir rmdir_data rmdir_vol (volume_path (g_root s) n))
    (λ r s', vs_at lk s' V N H ∧ (r = if rmdir_data && rmdir_vol then 0 else -1) ∧ g_root s' = g_root s ∧
             (∃ ops, g_disk s' = g_disk s ++ ops)) s.
Proof.
  intros Hok Hn. unfold remove_volume_dir. apply wp_bind, wp_get. rewrite volume_dir, volume_dir_below by done.
  apply wp_bind, wp_disk; intros ->; cbn [andb].
  - rewrite decide_False by (intros E; by apply E). pose proof (vs_at_disk _ _ _ _ _ (Rmdir (volume_path (g_root s) n)) Hok) as Hok1.
    apply wp_disk; intros ->; (split_and!; [|done|done|]).
    + by apply vs_at_disk.
    + eexists. cbn. by rewrite <- app_assoc.
    + done.
    + by eexists.
  - rewrite decide_True by done. apply wp_ret. split_and!; [done|done|done|]. exists []. by rewrite app_nil_r.
Qed.

(** Removing a volume. *)
Definition removed_volume V n (r : Z) V' : Prop :=
  (r = 0 ∧ is_Some (V !! n) ∧ V' = delete n V) ∨
  (r = (if decide (valid_volume n ∧ V !! n = None) then VOLUME_ERR_NOT_EXIST else -1) ∧ V' = V).

Lemma remove_nolock_ok s V N H rmdir_data rmdir_vol n :
  vs_at true s V N H → valid_volume n →
  wp (volume_remove_nolock rmdir_data rmdir_vol n)
    (λ r s', ∃ V', vs_at true s' V' N H ∧ removed_volume V n r V' ∧ g_root s' = g_root s ∧
      (rmdir_data && rmdir_vol = true → is_Some (V !! n) → r = 0)) s.
Proof.
  intros Hok Hv. unfold volume_remove_nolock. apply wp_bind, (search_vols_ok _ _ _ _ _ n _ Hok).
  destruct (V !! n) as [v|] eqn:Ev.
  2: { apply wp_ret. exists V. split_and!; [done|right; by rewrite decide_True|done|by intros _ []]. }
  destruct (vo_names _ _ _ _ _ Hok n v Ev) as (_ & Hp & _). rewrite Hp. apply wp_bind.
  eapply wp_mono; [by apply (remove_dir_ok _ _ _ _ _ rmdir_data rmdir_vol n Hok)|]. cbn beta.
  intros r s1 (Hok1 & -> & Hroot & ops & Hd). destruct (rmdir_data && rmdir_vol).
  - rewrite decide_False by (intros E; by apply E). apply wp_bind.
    pose proof (sm_remove_ok _ _ n (vo_vols _ _ _ _ _ Hok1)) as (b & m & E & -> & Hm & _)%wp_run.
    unfold wp, on_vols. rewrite E, Ev, bool_decide_true by (by eexists). cbn. exists (delete n V).
    split_and!; [|left; by rewrite Ev|done|done]. destruct Hok1 as [H1 H2 H3 H4 H5 H6 H7 H8 H9].
    split; cbn; try done. intros n' v' [_ Hl]%lookup_delete_Some. by apply H2.
  - rewrite decide_True by done. apply wp_ret. exists V. split_and!; [done|right; rewrite decide_False by (rewrite Ev; naive_solver); done|done|done].
Qed.

Lemma local_remove_ok s V N H rmdir_data rmdir_vol n :
  vs_ok s V N H →
  wp (local_volume_remove rmdir_data rmdir_vol (Some n))
    (λ r s', ∃ V', vs_ok s' V' N H ∧ removed_volume V n r V' ∧ g_root s' = g_root s ∧
      (rmdir_data && rmdir_vol = true → is_Some (V !! n) → r = 0)) s.
Proof.
  intros Hok. unfold local_volume_remove. destruct (util_valid_volume_name _) eqn:Ev; cbn [negb].
  - apply (wp_critical _ _ _ _ _ (λ r, r) _ Hok). pose proof (vs_at_lock _ true _ _ _ _ Hok) as Hl.
    eapply wp_mono; [by apply (remove_nolock_ok _ _ _ _ rmdir_data rmdir_vol n Hl Ev)|]. cbn beta.
    intros r s' (V' & Hok' & Hr & Hg & Hs). exists V'. split; [done|]. intros Hok2. exists V'. split_and!; [done|exact Hr|done|done].
  - assert (Hnv : ¬ valid_volume n) by (unfold valid_volume; by rewrite Ev).
    apply wp_ret. exists V. split_and!; [done|right; rewrite decide_False by naive_solver; done|done|].
    intros _ [v Hv]. by destruct (vo_names _ _ _ _ _ Hok n v Hv) as (_ & _ & Hn).
Qed.

(** Creating a volume; one that exists is kept. *)
Definition can_create (root : string) n : Prop :=
  valid_volume n ∧ (length (chars_of (volume_path root n)) < PATH_MAX)%nat.

Definition created_volume (root : string) V n V' : Prop :=
  V' = V ∨ (V !! n = None ∧ can_create root n ∧ V' = <[n := mk_volume None n (volume_path root n) None]> V).

(** What a caller learns about a volume. *)
Definition volume_info (root : string) n : volume :=
  mk_volume (Some LOCAL_VOLUME_DRIVER_NAME) n (volume_path root n) (Some (volume_path root n)).

Lemma create_nolock_ok s V N H mem mkdir rmdir mem_map n :
  vs_at true s V N H → valid_volume n →
  wp (volume_create_nolock mem mkdir rmdir mem_map n)
    (λ r s', ∃ V', vs_at true s' V' N H ∧ created_volume (g_root s) V n V' ∧ g_root s' = g_root s ∧
      (∀ v, r = Some v → vol_name v = n ∧ vol_path v = volume_path (g_root s) n ∧ is_Some (V' !! n)) ∧
      (is_Some (V !! n) → is_Some r) ∧
      (mem && mkdir && @sm_room volume LT LM mem_map = true → can_create (g_root s) n → is_Some r)) s.
Proof.
  intros Hok Hn. unfold volume_create_nolock. apply wp_bind, (search_vols_ok _ _ _ _ _ n _ Hok).
  destruct (V !! n) as [v|] eqn:Ev.
  { apply wp_ret. exists V. destruct (vo_names _ _ _ _ _ Hok n v Ev) as (? & ? & _).
    split_and!; [done|by left|done|intros v' [= <-]; by rewrite Ev|by eexists|by eexists]. }
  apply wp_bind, wp_get. unfold create_volume_meminfo. destruct mem; cbn [negb andb].
  2: { apply wp_ret. exists V. split_and!; [done|by left|done|done|by intros []|done]. }
  case_decide as El.
  { apply wp_ret. exists V. split_and!; [done|by left|done|done|by intros []|]. intros _ [_ Hl]. lia. }
  apply Nat.nle_gt in El. set (v := mk_volume None n (volume_path (g_root s) n) None).
  assert (Hundo : ∀ s1, vs_at true s1 V N H → g_root s1 = g_root s → mkdir && @sm_room volume LT LM mem_map = false →
    wp (disk_op rmdir (Rmdir (vol_path v));; mret None)
      (λ r s', ∃ V', vs_at true s' V' N H ∧ created_volume (g_root s) V n V' ∧ g_root s' = g_root s ∧
        (∀ v, r = Some v → vol_name v = n ∧ vol_path v = volume_path (g_root s) n ∧ is_Some (V' !! n)) ∧ (is_Some (None : option volume) → is_Some r) ∧
        (mkdir && @sm_room volume LT LM mem_map = true → can_create (g_root s) n → is_Some r)) s1).
  { intros s1 Hok1 Hr Hf. apply wp_bind, wp_disk; intros _; apply wp_ret; exists V;
      (split_and!; [first [done|by apply vs_at_disk]|by left|done|done|by intros []|by rewrite Hf]). }
  apply wp_bind, wp_disk; intros ->.
  - rewrite decide_False by (intros E; by apply E). apply wp_bind, wp_bind.
    pose proof (vs_at_disk _ _ _ _ _ (Mkdir (vol_path v)) Hok) as Hok1.
    pose proof (sm_insert_ok mem_map _ _ n v (vo_vols _ _ _ _ _ Hok1)) as (b & m & E & -> & Hm & _)%wp_run.
    rewrite bool_decide_true, andb_true_r in E, Hm by done. unfold wp at 1, on_vols. cbn [vol_name v]. rewrite E.
    apply wp_ret. destruct (@sm_room volume LT LM mem_map).
    + rewrite decide_False by (intros E0; by apply E0). apply wp_ret. exists (<[n := v]> V).
      split_and!; [|by right|done|intros v' [= <-]; by rewrite lookup_insert_eq|by intros []|by eexists].
      destruct Hok1 as [H1 H2 H3 H4 H5 H6 H7 H8 H9]. split; cbn; try done.
      intros n' v' [[<- <-]|[_ Hl]]%lookup_insert_Some; [done|by apply H2].
    + rewrite decide_True by done. apply Hundo; [|done|done]. destruct Hok1. by split.
  - rewrite decide_True by done. apply wp_bind, wp_ret. rewrite decide_True by done. by apply Hundo.
Qed.

Lemma local_create_ok s V N H mem mem_dup mkdir rmdir mem_map n :
  vs_ok s V N H →
  wp (local_volume_create mem mem_dup mkdir rmdir mem_map (Some n))
    (λ r s', ∃ V', vs_ok s' V' N H ∧ created_volume (g_root s) V n V' ∧ g_root s' = g_root s ∧
      (∀ v, r = Some v → v = volume_info (g_root s) n ∧ is_Some (V' !! n)) ∧ (valid_volume n → mem_dup = true → is_Some (V !! n) → is_Some r) ∧
      (mem && mem_dup && mkdir && @sm_room volume LT LM mem_map = true → can_create (g_root s) n → is_Some r)) s.
Proof.
  intros Hok. unfold local_volume_create. destruct (util_valid_volume_name _) eqn:Ev; cbn [negb].
  - apply (wp_critical _ _ _ _ _ (λ v, match v with None => None | Some v => dup_volume mem_dup (vol_name v) (vol_path v) end) _ Hok).
    pose proof (vs_at_lock _ true _ _ _ _ Hok) as Hl.
    eapply wp_mono; [by apply (create_nolock_ok _ _ _ _ mem mkdir rmdir mem_map n Hl)|]. cbn beta.
    intros r s' (V' & Hok' & Hc & Hg & Hs & Hold & Hall). exists V'. split; [done|]. intros Hok2. exists V'. split_and!; [done|done|done| | |].
    + intros v Hr. destruct r as [v0|]; [|done]. destruct (Hs v0 eq_refl) as (Hvn & Hvp & Hin). unfold dup_volume in Hr.
      destruct mem_dup; [|done]. injection Hr as <-. cbn in Hvp. split; [|done]. unfold volume_info. by rewrite Hvn, Hvp.
    + intros _ -> Hin. destruct (Hold Hin) as [v0 ->]. by eexists.
    + intros Hm Hcan. apply andb_prop in Hm as [[[Hm1 ->]%andb_prop Hm3]%andb_prop Hm4].
      destruct (Hall ltac:(by rewrite Hm1, Hm3, Hm4) Hcan) as [v ->]. by eexists.
  - assert (Hnv : ¬ valid_volume n) by (unfold valid_volume; by rewrite Ev).
    apply wp_ret. exists V. split_and!; [done|by left|done|done|by intros ?|by intros _ [? _]].
Qed.
End driver.

(** ** The references *)
Section references.
Context {LT DT NT RT : Type} {LM : StrMap volume LT} {DM : StrMap volume_driver DT} {NM : StrMap nat NT} {RM : StrMap bool RT}.
Implicit Types (s : vstate LT DT NT RT) (V : gmap cstr volume) (N : gmap cstr nat) (H : gmap nat (gmap cstr bool)) (n : cstr).

(** No volume has more than [k] references. *)
Definition bounded (k : nat) H : Prop := ∀ p G, H !! p = Some G → (size G ≤ k)%nat.

Definition max_names : Z := MAX_MEMORY_SIZE / PTR_SIZE.

Lemma bounded_small k H p G : bounded k H → Z.of_nat k <= max_names → H !! p = Some G → u64 (Z.of_nat (size G)) = Z.of_nat (size G) ∧ Z.of_nat (size G) <= max_names.
Proof.
  intros Hb Hk HG. pose proof (Hb p G HG) as Hs. change max_names with 17592186044416 in *.
  split; [|lia]. apply u64_small. unfold two64. lia.
Qed.

(** A map of references was changed. *)
Lemma vs_at_ref lk s V N H n p m' G' :
  vs_at lk s V N H → N !! n = Some p → sm_models m' G' → vs_at lk (set_heap (<[p := m']>) s) V N (<[p := G']> H).
Proof.
  intros Hok Hn Hm. destruct (vs_ok_heap _ _ _ _ _ _ _ Hok Hn) as (m & G & _ & HG & _). destruct Hok as [H1 H2 H3 H4 H5 H6 H7 H8 H9].
  split; cbn; try done.
  - intros q. destruct (decide (p = q)) as [<-|Hne]; [by rewrite !lookup_insert_eq|]. rewrite !lookup_insert_ne by done. apply H4.
  - intros q. rewrite lookup_insert_is_Some, <- H5. destruct (decide (p = q)) as [<-|Hne]; [|naive_solver].
    split; [intros _; by eexists|by left].
  - intros q [<-|[_ Hq]]%lookup_insert_is_Some; apply H7; [by eexists|done].
Qed.

Lemma wp_write_ref {A} s V N H n p G (f : M RT A) (P : A → gmap cstr bool → Prop) (Q : A → vstate LT DT NT RT → Prop) :
  vs_ok s V N H → N !! n = Some p → H !! p = Some G →
  (∀ m, sm_models m G → wp f (λ a m', ∃ G', sm_models m' G' ∧ P a G') m) →
  (∀ a s' G', P a G' → vs_ok s' V N (<[p := G']> H) → g_root s' = g_root s → Q a s') → wp (on_ref p f) Q s.
Proof.
  intros Hok Hn HG Hf HQ. destruct (vs_ok_heap _ _ _ _ _ _ _ Hok Hn) as (m & G0 & Hm & HG0 & Hmm). rewrite HG in HG0. injection HG0 as <-.
  pose proof (Hf m Hmm) as (a & m' & E & G' & Hm' & Ha)%wp_run. unfold wp, on_ref. rewrite Hm, E.
  apply (HQ a _ G' Ha); [|done]. by eapply vs_at_ref.
Qed.

Lemma refs_of_insert s V N H n p G' m :
  vs_ok s V N H → N !! n = Some p → refs_of N (<[p := G']> H) m = if decide (m = n) then dom G' else refs_of N H m.
Proof.
  intros Hok Hn. unfold refs_of. case_decide as E; [subst; by rewrite Hn, lookup_insert_eq|].
  destruct (N !! m) as [q|] eqn:Hq; [|done]. rewrite lookup_insert_ne; [done|]. intros <-. apply E. by eapply (vo_inj _ _ _ _ _ Hok).
Qed.

(** A volume is forgotten, with its map of references. *)
Definition drop_refs N H n : gmap nat (gmap cstr bool) := match N !! n with Some p => delete p H | None => H end.

Lemma refs_of_drop s V N H n m :
  vs_ok s V N H → refs_of (delete n N) (drop_refs N H n) m = if decide (m = n) then ∅ else refs_of N H m.
Proof.
  intros Hok. unfold refs_of, drop_refs. case_decide as E; [subst; by rewrite lookup_delete_eq|]. rewrite lookup_delete_ne by done.
  destruct (N !! m) as [q|] eqn:Hq; [|done]. destruct (N !! n) as [p|] eqn:Hp; [|done].
  rewrite lookup_delete_ne; [done|]. intros ->. apply E. by eapply (vo_inj _ _ _ _ _ Hok).
Qed.

Lemma refs_remove_ok s V N H k :
  vs_ok s V N H →
  wp (on_refs (sm_remove k)) (λ b s', b = bool_decide (is_Some (N !! k)) ∧ vs_ok s' V (delete k N) (drop_refs N H k) ∧
    g_root s' = g_root s) s.
Proof.
  intros Hok. pose proof (sm_remove_ok _ _ k (vo_refs _ _ _ _ _ Hok)) as (b & m & E & -> & Hm & Hd)%wp_run.
  unfold wp, on_refs. rewrite E, Hd, drop_app_length. destruct (N !! k) as [p|] eqn:Hk; simpl.
  - destruct (vs_ok_heap _ _ _ _ _ _ _ Hok Hk) as (mp & G & Hp & HG & Hmp).
    pose proof (sm_free_ok _ _ Hmp) as (u & mp' & Ef & _)%wp_run.
    unfold free_ref, on_ref, mbind, M_bind. cbn. rewrite Hp, Ef. cbn. split_and!; [done| |done].
    unfold drop_refs. rewrite Hk. destruct Hok as [H1 H2 H3 H4 H5 H6 H7 H8 H9]. split; cbn; try done.
    + intros q. rewrite delete_insert_eq. destruct (decide (p = q)) as [<-|Hne]; [by rewrite !lookup_delete_eq|].
      rewrite !lookup_delete_ne by done. apply H4.
    + intros q. rewrite lookup_delete_is_Some, H5. split.
      * intros [Hne [n Hn]]. exists n. rewrite lookup_delete_ne; [done|]. intros ->. congruence.
      * intros [n [Hne Hn]%lookup_delete_Some]. split; [|by eexists]. intros ->. apply Hne. by eapply H6.
    + intros a b q [_ Ha]%lookup_delete_Some [_ Hb]%lookup_delete_Some. by eapply H6.
    + intros q [_ Hq]%lookup_delete_is_Some. by apply H7.
  - split_and!; [done| |done]. unfold drop_refs. rewrite Hk. rewrite delete_id in Hm |- * by done.
    destruct Hok. by split.
Qed.

Lemma search_refs_ok lk s V N H n (Q : option nat → vstate LT DT NT RT → Prop) :
  vs_at lk s V N H → Q (N !! n) s → wp (on_refs (sm_search n)) Q s.
Proof.
  intros Hok HQ. apply (wp_read_refs _ _ _ _ _ _ (λ v, v = N !! n) _ Hok); [|by intros v ->].
  intros m Hm. by apply sm_search_ok.
Qed.

Definition ref_room (e : ref_env) : bool := re_map e && re_tree e && re_nil e && @sm_room nat NT NM (re_name e).

(** A new map of references, for a volume that has none. *)
Lemma vs_ok_new_refs s V N H n m mr :
  vs_ok s V N H → N !! n = None → sm_models m ∅ → sm_models mr (<[n := g_fresh s]> N) →
  let p := g_fresh s in
  vs_ok (mk_vstate (g_vols s) (g_root s) (g_locked s) (g_disk s) (g_drivers s) (g_static s) mr
           (<[p := m]> (g_heap s)) (S p)) V (<[n := p]> N) (<[p := ∅]> H).
Proof.
  intros Hok Hnn Hm Hr p. destruct Hok as [H1 H2 H3 H4 H5 H6 H7 H8 H9].
  assert (Hnew : ∀ c, N !! c ≠ Some p).
  { intros c Hc. pose proof (H7 p (proj2 (H5 p) (ex_intro _ c Hc))). unfold p in *. lia. }
  split; cbn; try done.
  - intros q. destruct (decide (p = q)) as [<-|Hne]; [by rewrite !lookup_insert_eq|]. rewrite !lookup_insert_ne by done. apply H4.
  - intros q. rewrite lookup_insert_is_Some, H5. split.
    + intros [<-|[Hne [n' Hn']]]; [exists n; by rewrite lookup_insert_eq|].
      exists n'. rewrite lookup_insert_ne; [done|congruence].
    + intros [n' [[_ <-]|[Hne Hn']]%lookup_insert_Some]; [by left|]. right. split; [|by eexists]. intros <-. by apply Hnew in Hn'.
  - intros a b q [[<- <-]|[Hna Ha]]%lookup_insert_Some [[<- Hq]|[Hnb Hb]]%lookup_insert_Some;
      [done|by apply Hnew in Hb|subst q; by apply Hnew in Ha|by eapply H6].
  - intros q [<-|[_ Hq%H7]]%lookup_insert_is_Some; unfold p; lia.
Qed.

(** A volume has a map of references after [get_or_add_refs]; the references
    are the same. *)
Lemma get_or_add_ok s V N H e n :
  vs_ok s V N H →
  wp (get_or_add_refs e n) (λ r s', g_root s' = g_root s ∧ (ref_room e = true → is_Some r) ∧
    match r with
    | Some p => ∃ N' H' G, vs_ok s' V N' H' ∧ N' !! n = Some p ∧ H' !! p = Some G ∧ dom G = refs_of N H n ∧
                  (∀ m, m ≠ n → refs_of N' H' m = refs_of N H m) ∧ (∀ k, bounded k H → bounded k H')
    | None => vs_ok s' V N H
    end) s.
Proof.
  intros Hok. unfold get_or_add_refs. apply wp_bind, (search_refs_ok _ _ _ _ _ n _ Hok). destruct (N !! n) as [p|] eqn:Hn.
  { destruct (vs_ok_heap _ _ _ _ _ _ _ Hok Hn) as (m & G & _ & HG & _). apply wp_ret. split_and!; [done|by eexists|].
    exists N, H, G. split_and!; try done. unfold refs_of. by rewrite Hn, HG. }
  apply wp_bind. unfold wp at 1, new_ref. pose proof (@sm_new_ok _ _ RM (re_map e) (re_tree e) (re_nil e)) as Hnew.
  destruct (sm_new _ _ _) as [m|]; cbn beta iota.
  2: { apply wp_ret. split_and!; [done| |done]. unfold ref_room. by rewrite Hnew. }
  destruct Hnew as [Hm _]. set (p := g_fresh s).
  assert (HpH : H !! p = None).
  { destruct (H !! p) eqn:E; [|done]. pose proof (vo_fresh _ _ _ _ _ Hok p ltac:(by eexists)). unfold p in *. lia. }
  assert (Hph : g_heap s !! p = None).
  { pose proof (vo_heap _ _ _ _ _ Hok p) as Hh. rewrite HpH in Hh. by destruct (g_heap s !! p). }
  apply wp_bind. pose proof (sm_insert_ok (re_name e) _ _ n p (vo_refs _ _ _ _ _ Hok)) as (b & mr & E & -> & Hr & Hd)%wp_run.
  rewrite Hn, bool_decide_true, andb_true_r in E, Hr by done.
  unfold wp at 1, on_refs. cbn [g_refs]. rewrite E, Hd, drop_all. cbn. destruct (@sm_room nat NT NM (re_name e)) eqn:Er.
  - apply wp_ret. split_and!; [done|by eexists|]. exists (<[n := p]> N), (<[p := ∅]> H), ∅.
    split_and!; [|by rewrite lookup_insert_eq|by rewrite lookup_insert_eq|unfold refs_of; by rewrite Hn|..].
    + by apply vs_ok_new_refs.
    + intros m' Hm'. unfold refs_of. rewrite lookup_insert_ne by done. destruct (N !! m') as [q|] eqn:Hq; [|done].
      rewrite lookup_insert_ne; [done|]. intros <-. assert (is_Some (H !! p)) as [? ?] by (apply (vo_own _ _ _ _ _ Hok); by eexists). congruence.
    + intros k Hk q G [[<- <-]|[_ HG]]%lookup_insert_Some; [rewrite map_size_empty; lia|by eapply Hk].
  - pose proof (sm_free_ok _ _ Hm) as (u & m2 & Ef & _)%wp_run.
    unfold wp, free_ref, on_ref, mbind, M_bind. cbn. rewrite lookup_insert_eq, Ef. cbn. split_and!; [done| |].
    + unfold ref_room. rewrite Er, andb_false_r. done.
    + destruct Hok as [H1 H2 H3 H4 H5 H6 H7 H8 H9]. split; cbn; try done.
      * by rewrite insert_insert_eq, delete_insert_id by done.
      * intros q Hq%H7. lia.
Qed.

(** The end of [add_name_ref] when there is no memory for the reference: only the
    volume whose name is the junk key can lose its references. *)
Lemma drop_junk_ok s V N H e n p :
  vs_ok s V N H → N !! n = Some p →
  wp (size ← on_ref p sm_size;
      (if decide (size = 0) then _ ← on_refs (sm_remove (re_junk e)); mret tt else mret tt);; mret (-1))
    (λ r s', ∃ N' H', vs_ok s' V N' H' ∧ g_root s' = g_root s ∧ (∀ k, bounded k H → bounded k H') ∧ r = -1 ∧
      ∀ m, refs_of N' H' m = refs_of N H m ∨ m = re_junk e ∧ refs_of N' H' m = ∅) s.
Proof.
  intros Hok Hn. destruct (vs_ok_heap _ _ _ _ _ _ _ Hok Hn) as (m & G & Hm & HG & Hmm).
  apply wp_bind, (wp_read_ref _ _ _ _ (λ _, True) _ Hm); [eapply wp_mono; [by apply sm_size_ok|]; by intros z m3 [-> _]|].
  intros z _. apply wp_bind. case_decide; [|apply wp_ret, wp_ret; exists N, H; split_and!; auto].
  apply wp_bind. eapply wp_mono; [by apply refs_remove_ok|]. cbn beta. intros _ s1 (_ & Hok1 & Hr1). apply wp_ret, wp_ret.
  exists (delete (re_junk e) N), (drop_refs N H (re_junk e)). split_and!; [done|done| |done|].
  - intros k Hk. unfold drop_refs. case_match; [|done]. intros q G' [_ HG']%lookup_delete_Some. by eapply Hk.
  - intros m'. rewrite (refs_of_drop s V) by done. case_decide; auto.
Qed.

(** [add_name_ref], whatever allocation fails: either the reference is there, or
    it fails and only the volume whose name is the junk key can lose its
    references. *)
Lemma add_ref_ok s V N H e n ref :
  vs_ok s V N H →
  wp (add_name_ref e n ref) (λ r s', ∃ N' H', vs_ok s' V N' H' ∧ g_root s' = g_root s ∧ (∀ k, bounded k H → bounded (S k) H') ∧
    (ref_room e && @sm_room bool RT RM (re_ref e) = true → r = 0) ∧
    ((r = 0 ∧ refs_of N' H' n = {[ref]} ∪ refs_of N H n ∧ ∀ m, m ≠ n → refs_of N' H' m = refs_of N H m) ∨
     (r = -1 ∧ ∀ m, refs_of N' H' m = refs_of N H m ∨ m = re_junk e ∧ refs_of N' H' m = ∅))) s.
Proof.
  intros Hok. unfold add_name_ref. apply wp_bind. eapply wp_mono; [by eapply get_or_add_ok|]. cbn beta.
  intros [p|] s1 (Hroot & Hroom & Hr).
  2: { apply wp_ret. exists N, H. split_and!; [done|done| | |by right; auto].
       - intros k Hk q G HG. apply Hk in HG. lia.
       - intros [Hx _]%andb_prop. by destruct (Hroom Hx). }
  destruct Hr as (N' & H' & G & Hok1 & Hn & HG & Hdom & Hother & Hbd).
  assert (Hrefs : refs_of N' H' n = refs_of N H n) by (unfold refs_of at 1; by rewrite Hn, HG).
  assert (Hbd' : ∀ k, bounded k H → bounded (S k) H') by (intros k Hk q G' HG'; apply (Hbd k Hk) in HG'; lia).
  destruct (vs_ok_heap _ _ _ _ _ _ _ Hok1 Hn) as (m & G0 & Hm & HG0 & Hmm). rewrite HG in HG0. injection HG0 as <-.
  apply wp_bind, (wp_read_ref _ _ _ _ (λ v, v = G !! ref) _ Hm); [by apply sm_search_ok|]. intros v ->.
  destruct (G !! ref) as [b|] eqn:Hg.
  { apply wp_ret. exists N', H'. split_and!; [done|done|done|done|]. left. split_and!; [done| |done]. rewrite Hrefs.
    assert (ref ∈ refs_of N H n) by (rewrite <- Hdom; apply elem_of_dom; by eexists). set_solver. }
  apply wp_bind, (wp_write_ref _ _ _ _ n p G _ (λ b G', b = @sm_room bool RT RM (re_ref e) ∧ G' = if b then <[ref := true]> G else G) _ Hok1 Hn HG).
  { intros m' Hm'. eapply wp_mono; [by apply sm_insert_ok|]. cbn beta. rewrite Hg, bool_decide_true, andb_true_r by done.
    intros b m2 (-> & Hm2 & _). eauto. }
  intros b s2 G' (Hb & ->) Hok2 Hroot2. destruct b.
  - apply wp_ret. exists N', (<[p := <[ref := true]> G]> H'). split_and!; [done|congruence| |done|].
    + intros k Hk q G' [[<- <-]|[_ HG']]%lookup_insert_Some; [|by eapply Hbd'].
      rewrite map_size_insert_None by done. pose proof (Hbd k Hk p G HG). lia.
    + left. split_and!; [done| |].
      * by rewrite (refs_of_insert s1 V N' H' n p), decide_True, dom_insert_L, Hdom.
      * intros m' Hm'. rewrite (refs_of_insert s1 V N' H' n p), decide_False by done. by apply Hother.
  - rewrite insert_id in Hok2 by done. eapply wp_mono; [by eapply (drop_junk_ok s2 V N' H' e n p)|]. cbn beta.
    intros r s3 (N2 & H2 & Hok3 & Hr3 & Hb3 & -> & Hj). rewrite <- Hb, andb_false_r. exists N2, H2.
    split_and!; [done|congruence|intros k Hk; by apply Hb3, Hbd'|done|]. right. split; [done|].
    intros m'. assert (E : refs_of N' H' m' = refs_of N H m') by (destruct (decide (m' = n)) as [->|?]; auto). rewrite <- E. apply Hj.
Qed.

(** The names that [volume_remove] checks: those of the containers that use the
    volume, or [NULL] for want of memory. *)
Lemma get_refs_ok s V N H k mem mem_array mem_itor n :
  vs_ok s V N H → bounded k H → Z.of_nat k <= max_names →
  wp (get_name_refs mem mem_array mem_itor n) (λ r s', s' = s ∧
    match r with
    | Some l => list_to_set l = refs_of N H n
    | None => N !! n = None ∨ mem && mem_array && mem_itor = false
    end) s.
Proof.
  intros Hok Hb Hk. unfold get_name_refs. apply wp_bind, (search_refs_ok _ _ _ _ _ n _ Hok).
  destruct (N !! n) as [p|] eqn:Hn; [|apply wp_ret; by auto].
  destruct (vs_ok_heap _ _ _ _ _ _ _ Hok Hn) as (m & G & Hm & HG & Hmm). destruct (bounded_small k H p G Hb Hk HG) as [Hu Hs].
  apply wp_bind, (wp_read_ref _ _ _ _ (λ z, z = Z.of_nat (size G)) _ Hm).
  { eapply wp_mono; [by apply sm_size_ok|]. cbn beta. by rewrite Hu. }
  intros z ->. unfold empty_volume_names, util_smart_calloc_s. destruct mem; [|apply wp_ret; by auto]. cbn [negb].
  change (PTR_SIZE =? 0) with false. cbn iota. rewrite (proj2 (Z.ltb_ge _ _)) by exact Hs.
  destruct mem_array; [|apply wp_ret; by auto]. cbn [negb].
  apply wp_bind, (wp_read_ref _ _ _ _ (λ l, if mem_itor then ∃ e, l = Some e ∧ e ≡ₚ map_to_list G else l = None) _ Hm); [by apply sm_pairs_ok|].
  intros l Hl. apply wp_ret. split; [done|]. destruct mem_itor; [|subst l; by right]. destruct Hl as (e & -> & He).
  unfold refs_of. rewrite Hn, HG. simpl. apply set_eq. intros x. rewrite elem_of_list_to_set, list_elem_of_fmap, elem_of_dom. split.
  - intros ([a b] & -> & Hin). rewrite He, elem_of_map_to_list in Hin. by eexists.
  - intros [b Hx]. exists (x, b). split; [done|]. by rewrite He, elem_of_map_to_list.
Qed.

(** The removal of a reference from the map of a volume. *)
Lemma del_step_ok s V N H n p G ref :
  vs_ok s V N H → N !! n = Some p → H !! p = Some G →
  wp (if decide (Z.of_nat (size G) ≠ 0) then on_ref p (sm_remove ref) else mret true)
    (λ ok s', vs_ok s' V N (<[p := delete ref G]> H) ∧ g_root s' = g_root s ∧
              ok = bool_decide (dom G = ∅ ∨ ref ∈ dom G)) s.
Proof.
  intros Hok Hn HG.
  assert (Hr : bool_decide (dom G = ∅ ∨ ref ∈ dom G) = bool_decide (G = ∅ ∨ is_Some (G !! ref))).
  { apply bool_decide_ext. by rewrite dom_empty_iff_L, elem_of_dom. }
  rewrite Hr. destruct (decide (Z.of_nat (size G) ≠ 0)) as [Ez|Ez].
  - apply (wp_write_ref _ _ _ _ n p G _ (λ b G', b = bool_decide (is_Some (G !! ref)) ∧ G' = delete ref G) _ Hok Hn HG).
    + intros m' Hm'. eapply wp_mono; [by apply sm_remove_ok|]. cbn beta. intros b m2 (-> & Hm2 & _). eauto.
    + intros b s1 G' (-> & ->) Hok1 Hr1. split_and!; [done|done|]. apply bool_decide_ext.
      split; [by right|]. intros [->|?]; [by rewrite map_size_empty in Ez|done].
  - assert (G = ∅) as -> by (apply map_size_empty_inv; lia). apply wp_ret. rewrite delete_empty, insert_id by done.
    split_and!; [done|done|]. by rewrite bool_decide_true by auto.
Qed.

Lemma del_ref_ok s V N H k n ref :
  vs_ok s V N H → bounded k H → Z.of_nat k <= max_names →
  wp (del_name_ref n ref) (λ r s', ∃ N' H', vs_ok s' V N' H' ∧ g_root s' = g_root s ∧ bounded k H' ∧
    (∀ m, refs_of N' H' m = if decide (m = n) then refs_of N H n ∖ {[ref]} else refs_of N H m) ∧
    (r = if bool_decide (refs_of N H n = ∅ ∨ ref ∈ refs_of N H n) then 0 else -1)) s.
Proof.
  intros Hok Hb Hk. unfold del_name_ref. apply wp_bind, (search_refs_ok _ _ _ _ _ n _ Hok).
  destruct (N !! n) as [p|] eqn:Hn.
  2: { assert (E : refs_of N H n = ∅) by (unfold refs_of; by rewrite Hn).
       apply wp_ret. exists N, H. rewrite E, bool_decide_true by auto. split_and!; try done.
       intros m. case_decide; [subst; rewrite E; set_solver|done]. }
  destruct (vs_ok_heap _ _ _ _ _ _ _ Hok Hn) as (m & G & Hm & HG & Hmm). destruct (bounded_small k H p G Hb Hk HG) as [Hu Hs].
  assert (Er : refs_of N H n = dom G) by (unfold refs_of; by rewrite Hn, HG). rewrite Er.
  apply wp_bind, (wp_read_ref _ _ _ _ (λ z, z = Z.of_nat (size G)) _ Hm).
  { eapply wp_mono; [by apply sm_size_ok|]. cbn beta. by rewrite Hu. }
  intros z ->. apply wp_bind. eapply wp_mono; [by apply (del_step_ok s V N H n p G ref)|]. cbn beta. intros ok s1 (Hok1 & Hr1 & ->).
  set (H1 := <[p := delete ref G]> H) in *.
  assert (Hb' : bounded k H1).
  { intros q G' [[<- <-]|[_ HG']]%lookup_insert_Some; [|by eapply Hb]. pose proof (Hb p G HG).
    pose proof (map_subseteq_size _ _ (delete_subseteq G ref)). lia. }
  assert (Hrefs : ∀ m, refs_of N H1 m = if decide (m = n) then dom G ∖ {[ref]} else refs_of N H m).
  { intros m'. unfold H1. rewrite (refs_of_insert s V N H n p) by done. by rewrite dom_delete_L. }
  destruct (bool_decide _); cbn [negb]; [|apply wp_ret; by exists N, H1].
  assert (HG1 : H1 !! p = Some (delete ref G)) by apply lookup_insert_eq.
  destruct (vs_ok_heap _ _ _ _ _ _ _ Hok1 Hn) as (m1 & G1 & Hm1 & HG1' & Hmm1). rewrite HG1 in HG1'. injection HG1' as <-.
  destruct (bounded_small k H1 p _ Hb' Hk HG1) as [Hu1 _].
  apply wp_bind, (wp_read_ref _ _ _ _ (λ z, z = Z.of_nat (size (delete ref G))) _ Hm1).
  { eapply wp_mono; [by apply sm_size_ok|]. cbn beta. by rewrite Hu1. }
  intros z ->. case_decide as Ez; [|apply wp_ret; by exists N, H1].
  apply wp_bind. eapply wp_mono; [by apply refs_remove_ok|]. cbn beta. intros b s2 (-> & Hok2 & Hr2).
  rewrite Hn, bool_decide_true by (by eexists). apply wp_ret. exists (delete n N), (drop_refs N H1 n).
  split_and!; [done|congruence| | |done].
  - unfold drop_refs. rewrite Hn. intros q G' [_ HG']%lookup_delete_Some. by eapply Hb'.
  - intros m'. rewrite (refs_of_drop s1 V) by done. rewrite Hrefs. case_decide; [|done].
    rewrite <- dom_delete_L, (map_size_empty_inv (delete ref G)) by lia. by rewrite dom_empty_L.
Qed.
End references.
