(* ===== verification/VolumeCorrect.v ===== *)
(** * The volume store refines its specification

    What a client of [volume_api.h] may rely on: a set of volumes and, for every
    name, the set of containers that use it.  Each call of the store, with any
    combination of failing allocations and disk operations, is a step of this
    specification; a volume in use is kept; [volume_prune] removes exactly the
    volumes not in use; and two paths of the code that break the promise. *)
From stdpp Require Import base gmap list fin_maps numbers strings.
From Stdlib Require Import ZArith Lia Ascii.
From S2P Require Import Prelude CString Regex Array RbTree Map StrMap Convert StringUtil Verify Path SymlinkScope Volume.

Local Open Scope Z_scope.

(** ** The specification *)

(** The calls of [volume_api.h], with the outcomes of what they call. *)
Inductive vop :=
  | OCreate (e : create_env) (driver name ref : option cstr)
  | OMount (mem_itor mem_dup : bool) (name : option cstr)
  | OUmount (mem_itor mem_dup : bool) (name : option cstr)
  | OList (e : list_env)
  | OAdd (e : ref_env) (name ref : option cstr)
  | ODel (name ref : option cstr)
  | ORemove (e : remove_env) (name : option cstr)
  | OPrune (mem mem_names : bool) (le : list_env) (e : nat → remove_env).

Inductive vres := RVol (v : option volume) | RInt (r : Z) | RVols (l : option (list volume)) | RNames (l : option (list cstr)).

(** The volumes, and the containers that use a name. *)
Record vspec := mk_vspec { sp_vols : gset cstr; sp_refs : cstr → gset cstr }.

Definition add_vol (n : cstr) (σ : vspec) : vspec := mk_vspec ({[n]} ∪ sp_vols σ) (sp_refs σ).
Definition del_vol (n : cstr) (σ : vspec) : vspec := mk_vspec (sp_vols σ ∖ {[n]}) (sp_refs σ).
Definition upd_refs (n : cstr) (f : gset cstr → gset cstr) (σ : vspec) : vspec :=
  mk_vspec (sp_vols σ) (λ m, if decide (m = n) then f (sp_refs σ n) else sp_refs σ m).

(** After a failed addition: only the references of [junk] may be lost. *)
Definition lost (junk : cstr) (σ σ' : vspec) : Prop :=
  sp_vols σ' = sp_vols σ ∧ ∀ m, sp_refs σ' m = sp_refs σ m ∨ m = junk ∧ sp_refs σ' m = ∅.

(** The name of the volume to create. *)
Definition create_name (e : create_env) (name : option cstr) : option cstr :=
  match name with Some n => Some n | None => ce_random e end.

Definition names_known (e : remove_env) : bool := rv_names e && rv_array e && rv_refs e.

Inductive spec_remove (σ : vspec) (e : remove_env) (n : cstr) : Z → vspec → Prop :=
  | sr_in_use : sp_refs σ n ≠ ∅ → spec_remove σ e n (-1) σ
  | sr_removed : n ∈ sp_vols σ → sp_refs σ n = ∅ ∨ names_known e = false → spec_remove σ e n 0 (del_vol n σ)
  | sr_missing : n ∉ sp_vols σ → sp_refs σ n = ∅ ∨ names_known e = false →
      spec_remove σ e n (if decide (valid_volume n) then VOLUME_ERR_NOT_EXIST else -1) σ
  | sr_failed : rv_itor e && rv_data e && rv_vol e = false → spec_remove σ e n (-1) σ.

(** The removals of [volume_prune] and the names it returns. *)
Inductive spec_prune (e : nat → remove_env) : nat → vspec → list cstr → list cstr → vspec → Prop :=
  | sp_nil i σ : spec_prune e i σ [] [] σ
  | sp_cons i σ n r σ1 ns names σ2 : spec_remove σ (e i) n r σ1 → spec_prune e (S i) σ1 ns names σ2 →
      spec_prune e i σ (n :: ns) (if decide (r = 0) then n :: names else names) σ2.

(** Whether a listing has the memory it needs once [new_empty_volumes] has. *)
Definition list_room (e : list_env) : Prop := le_itor e = true ∧ le_vols e = true ∧ ∀ i, le_dup e i = true.

(** [create_room] and [add_room] say whether nothing that a creation or an
    addition calls fails. *)
Section spec.
Context (root : string) (create_room : create_env → bool) (add_room : ref_env → bool).

Inductive spec_step (σ : vspec) : vop → vres → vspec → Prop :=
  | ss_create e name n c :
      create_name e name = Some n → (n ∈ sp_vols σ ∨ can_create root n) →
      spec_step σ (OCreate e (Some local_driver) name (Some c)) (RVol (Some (volume_info root n)))
        (upd_refs n (union {[c]}) (add_vol n σ))
  | ss_create_refused e driver name ref :
      driver ≠ Some local_driver ∨ ref = None ∨ create_name e name = None ∨
        (∃ n, create_name e name = Some n ∧ (n ∉ sp_vols σ) ∧ ¬ can_create root n) →
      spec_step σ (OCreate e driver name ref) (RVol None) σ
  | ss_create_failed e name n c σ' :
      create_name e name = Some n → create_room e = false →
      (σ' = σ ∨ (n ∈ sp_vols σ ∨ can_create root n) ∧ lost (re_junk (ce_ref e)) (add_vol n σ) σ') →
      spec_step σ (OCreate e (Some local_driver) name (Some c)) (RVol None) σ'
  | ss_mount i d name r : r = 0 ∨ r = -1 ∧ (name = None ∨ i = false) → spec_step σ (OMount i d name) (RInt r) σ
  | ss_umount i d name r : r = 0 ∨ r = -1 ∧ (name = None ∨ i = false) → spec_step σ (OUmount i d name) (RInt r) σ
  | ss_list e l : l ≡ₚ (volume_info root <$> elements (sp_vols σ)) → spec_step σ (OList e) (RVols (Some l)) σ
  | ss_list_failed e : ¬ list_room e → spec_step σ (OList e) (RVols None) σ
  | ss_add e n c : spec_step σ (OAdd e (Some n) (Some c)) (RInt 0) (upd_refs n (union {[c]}) σ)
  | ss_add_failed e n c σ' : add_room e = false → lost (re_junk e) σ σ' → spec_step σ (OAdd e (Some n) (Some c)) (RInt (-1)) σ'
  | ss_add_null e n c : n = None ∨ c = None → spec_step σ (OAdd e n c) (RInt (-1)) σ
  | ss_del n c : spec_step σ (ODel (Some n) (Some c))
      (RInt (if decide (sp_refs σ n = ∅ ∨ c ∈ sp_refs σ n) then 0 else -1)) (upd_refs n (λ X, X ∖ {[c]}) σ)
  | ss_del_null n c : n = None ∨ c = None → spec_step σ (ODel n c) (RInt (-1)) σ
  | ss_remove e n r σ' : spec_remove σ e n r σ' → spec_step σ (ORemove e (Some n)) (RInt r) σ'
  | ss_remove_null e : spec_step σ (ORemove e None) (RInt (-1)) σ
  | ss_prune m mn le e l names σ' : l ≡ₚ elements (sp_vols σ) → spec_prune e 0 σ l names σ' →
      spec_step σ (OPrune m mn le e) (RNames (Some names)) σ'
  | ss_prune_failed m mn le e : m && mn = false ∨ ¬ list_room le → spec_step σ (OPrune m mn le e) (RNames None) σ.

Inductive spec_trace : vspec → list vop → list vres → vspec → Prop :=
  | st_nil σ : spec_trace σ [] [] σ
  | st_cons σ op r σ1 ops rs σ2 : spec_step σ op r σ1 → spec_trace σ1 ops rs σ2 → spec_trace σ (op :: ops) (r :: rs) σ2.
End spec.

(** ** The calls implement the specification *)
Section refinement.
Context {LT DT NT RT : Type} {LM : StrMap volume LT} {DM : StrMap volume_driver DT} {NM : StrMap nat NT} {RM : StrMap bool RT}.
Implicit Types (s : vstate LT DT NT RT) (V : gmap cstr volume) (N : gmap cstr nat) (H : gmap nat (gmap cstr bool)) (n : cstr).
Let VM := M (vstate LT DT NT RT).

Definition vcall (op : vop) : VM vres :=
  match op with
  | OCreate e driver name ref => v ← volume_create e driver name ref; mret (RVol v)
  | OMount i d name => r ← volume_mount i d name; mret (RInt r)
  | OUmount i d name => r ← volume_umount i d name; mret (RInt r)
  | OList e => l ← volume_list e; mret (RVols l)
  | OAdd e name ref => r ← volume_add_ref e name ref; mret (RInt r)
  | ODel name ref => r ← volume_del_ref name ref; mret (RInt r)
  | ORemove e name => r ← volume_remove e name; mret (RInt r)
  | OPrune m mn le e => l ← volume_prune m mn le e; mret (RNames l)
  end.

Fixpoint vcalls (ops : list vop) : VM (list vres) :=
  match ops with
  | [] => mret []
  | op :: ops => r ← vcall op; rs ← vcalls ops; mret (r :: rs)
  end.

Definition add_room (e : ref_env) : bool := ref_room (NM:=NM) e && @sm_room bool RT RM (re_ref e).
Definition create_room (e : create_env) : bool :=
  ce_mem e && ce_dup e && ce_mkdir e && @sm_room volume LT LM (ce_map e) && add_room (ce_ref e).

(** A state of the store, with at most [k] volumes and [k] users of a volume. *)
Definition represents (k : nat) (root : string) s (σ : vspec) : Prop :=
  ∃ V N H, vs_ok s V N H ∧ g_root s = root ∧ dom V = sp_vols σ ∧ (∀ n, refs_of N H n = sp_refs σ n) ∧
           (size V ≤ k)%nat ∧ bounded k H.

(** The array of a listing can be allocated. *)
Definition list_returns (e : list_env) : Prop := le_itor e = true → le_mem e = true ∧ le_array e = true.
Definition returns (op : vop) : Prop :=
  match op with OList e => list_returns e | OPrune m _ le _ => m = true → list_returns le | _ => True end.

Abbreviation step root := (spec_step root create_room add_room).

Lemma represents_static k root s σ d : represents k root s σ → represents k root (set_static d s) σ.
Proof. intros (V & N & H & Hok & Hrest). exists V, N, H. split; [by apply vs_ok_static|done]. Qed.

Lemma represents_mono k k' root s σ : (k ≤ k')%nat → represents k root s σ → represents k' root s σ.
Proof.
  intros Hk (V & N & H & Hok & Hr & HV & HN & Hs & Hb). exists V, N, H. split_and!; try done; [lia|].
  intros p G HG. apply Hb in HG. lia.
Qed.

(** *** Listing *)
Lemma dup_all_ok root mem : ∀ l i,
  (∀ n v, (n, v) ∈ l → vol_name v = n ∧ vol_path v = volume_path root n) →
  match dup_all mem i l with
  | Some vs => vs = volume_info root ∘ fst <$> l
  | None => ∃ j, mem j = false
  end.
Proof.
  induction l as [|[n v] l IH]; intros i Hl; simpl; [done|].
  destruct (Hl n v ltac:(left)) as [En Ep]. specialize (IH (S i) ltac:(intros m w Hm; apply Hl; by right)).
  unfold dup_volume. destruct (mem i) eqn:Em; [|by exists i]. destruct (dup_all mem (S i) l); [|done].
  rewrite IH. cbn. f_equal. unfold volume_info. by rewrite En, Ep.
Qed.

Lemma infos_perm root V e :
  e ≡ₚ map_to_list V → volume_info root ∘ fst <$> e ≡ₚ (volume_info root <$> elements (dom V)).
Proof.
  intros ->. rewrite (list_fmap_compose fst (volume_info root)). apply fmap_Permutation, NoDup_Permutation.
  - apply NoDup_fst_map_to_list.
  - apply NoDup_elements.
  - intros x. rewrite elem_of_elements, elem_of_dom, list_elem_of_fmap. split.
    + intros ([a b] & -> & Hin%elem_of_map_to_list). by eexists.
    + intros [v Hv]. exists (x, v). by rewrite elem_of_map_to_list.
Qed.

Lemma local_list_ok s V N H mem_itor mem_dup :
  vs_ok s V N H → Z.of_nat (size V) <= max_names →
  wp (local_volume_list true true mem_itor mem_dup) (λ r s', s' = s ∧
    match r with
    | Some l => l ≡ₚ (volume_info (g_root s) <$> elements (dom V))
    | None => mem_itor = false ∨ ∃ j, mem_dup j = false
    end) s.
Proof.
  intros Hok Hs. pose proof (vs_at_lock _ true _ _ _ _ Hok) as Hl. unfold local_volume_list.
  apply wp_bind. unfold wp at 1, mutex_lock. rewrite (vo_lock _ _ _ _ _ Hok).
  apply wp_bind, (wp_read_vols _ _ _ _ _ _ (λ z _, z = Z.of_nat (size V)) _ Hl).
  { intros m Hm. eapply wp_mono; [by apply sm_size_ok|]. cbn beta. intros z m' [-> ->]. split; [done|].
    change max_names with 17592186044416 in Hs. apply u64_small. unfold two64. lia. }
  intros z ->. assert (E : new_empty_volumes true true (Z.of_nat (size V)) = true).
  { unfold new_empty_volumes, util_smart_calloc_s. cbn [negb]. case_decide; [done|]. change (PTR_SIZE =? 0) with false.
    cbn iota. by rewrite (proj2 (Z.ltb_ge _ _)) by exact Hs. }
  rewrite E. cbn [negb].
  apply wp_bind, (wp_read_vols _ _ _ _ _ _ (λ l _, if mem_itor then ∃ e, l = Some e ∧ e ≡ₚ map_to_list V else l = None) _ Hl).
  { intros m Hm. by apply sm_pairs_ok. }
  intros l Hl'. apply wp_bind. unfold wp at 1, mutex_unlock. cbn [g_locked set_locked]. apply wp_ret.
  split; [by apply relock, (vo_lock _ _ _ _ _ Hok)|]. destruct mem_itor; [|subst; by left]. destruct Hl' as (e & -> & He).
  pose proof (dup_all_ok (g_root s) mem_dup e 0) as Hd. destruct (dup_all mem_dup 0 e) as [vs|].
  - rewrite Hd; [by apply infos_perm|]. intros n v Hin. rewrite He, elem_of_map_to_list in Hin.
    by destruct (vo_names _ _ _ _ _ Hok n v Hin) as (? & ? & _).
  - right. apply Hd. intros n v Hin. rewrite He, elem_of_map_to_list in Hin.
    by destruct (vo_names _ _ _ _ _ Hok n v Hin) as (? & ? & _).
Qed.

Lemma list_ok k root s σ e :
  represents k root s σ → Z.of_nat k <= max_names → list_returns e →
  wp (volume_list e) (λ r s', s' = s ∧
    match r with Some l => l ≡ₚ (volume_info root <$> elements (sp_vols σ)) | None => ¬ list_room e end) s.
Proof.
  intros (V & N & H & Hok & <- & HV & _ & Hs & _) Hk Hret. unfold volume_list, list_all_driver_volumes.
  apply wp_bind, (wp_read_drivers _ _ _ _ _ _ (λ l X, if le_itor e then ∃ e, l = Some e ∧ e ≡ₚ map_to_list X else l = None) _ Hok).
  { intros m X HX. by apply sm_pairs_ok. }
  intros l X HX Hl. destruct (le_itor e) eqn:Ei; [|subst l; apply wp_ret; split; [done|]; by intros [? _]; congruence].
  destruct Hl as (ds & -> & Hds). destruct ds as [|d ds].
  { apply Permutation_nil_l in Hds. symmetry in Hds. apply map_to_list_empty_iff in Hds as ->. set_solver. }
  destruct (Hret Ei) as [-> ->]. eapply wp_mono; [apply (local_list_ok s V N H); [done|lia]|]. cbn beta. rewrite HV.
  intros r s' [-> Hr]. split; [done|]. destruct r; [done|]. intros (_ & Hv & Hd). destruct Hr as [?|[j Hj]]; [congruence|].
  by rewrite Hd in Hj.
Qed.

(** *** Removing *)
Lemma driver_remove_ok k root s σ e n :
  represents k root s σ → (sp_refs σ n = ∅ ∨ names_known e = false) →
  wp (local_volume_remove (rv_data e) (rv_vol e) (Some n)) (λ r s', ∃ σ', spec_remove σ e n r σ' ∧ represents k root s' σ') s.
Proof.
  intros (V & N & H & Hok & <- & HV & HN & Hs & Hb) Hfree. eapply wp_mono; [by apply (local_remove_ok _ V N H)|]. cbn beta.
  intros r s' (V' & Hok' & [(-> & Hin & ->)|(-> & ->)] & Hr & Hall).
  - exists (del_vol n σ). split; [apply sr_removed; [|done]; by rewrite <- HV, elem_of_dom|].
    exists (delete n V), N, H. split_and!; try done; [cbn; by rewrite dom_delete_L, HV|].
    pose proof (map_subseteq_size _ _ (delete_subseteq V n)). lia.
  - exists σ. split; [|by exists V, N, H]. assert (Hmiss : V !! n = None → n ∉ sp_vols σ) by (rewrite <- HV; apply not_elem_of_dom).
    case_decide as Hd.
    + pose proof (sr_missing σ e n (Hmiss (proj2 Hd)) Hfree) as Hm. by rewrite decide_True in Hm by apply Hd.
    + destruct (V !! n) as [v|] eqn:Ev.
      * apply sr_failed. destruct (rv_data e && rv_vol e) eqn:Ed; [|by rewrite <- andb_assoc, Ed, andb_false_r].
        by specialize (Hall eq_refl ltac:(by eexists)).
      * pose proof (sr_missing σ e n (Hmiss eq_refl) Hfree) as Hm. by rewrite decide_False in Hm by naive_solver.
Qed.

Lemma remove_ok k root s σ e n :
  represents k root s σ → Z.of_nat k <= max_names →
  wp (volume_remove e (Some n)) (λ r s', ∃ σ', spec_remove σ e n r σ' ∧ represents k root s' σ') s.
Proof.
  intros Hrep Hk. pose proof Hrep as (V & N & H & Hok & Hroot & HV & HN & Hs & Hb). unfold volume_remove.
  apply wp_bind. eapply wp_mono; [by apply (lookup_ok s V N H (rv_itor e) (rv_dup e) n)|]. cbn beta. intros [d|] s1 [-> Hd].
  2: { apply wp_ret. exists σ. split; [|by apply represents_static]. apply sr_failed.
       destruct (rv_itor e); [|done]. by destruct (Hd eq_refl). }
  pose proof (vs_ok_static _ _ _ _ _ (Some d) Hok) as Hok1. apply (represents_static _ _ _ _ (Some d)) in Hrep.
  apply wp_bind. eapply wp_mono; [by eapply (get_refs_ok _ V N H k)|]. cbn beta. intros vns s1 [-> Hvns].
  destruct vns as [[|x l]|].
  - apply driver_remove_ok; [done|]. left. by rewrite <- HN, <- Hvns.
  - apply wp_ret. exists σ. split; [|done]. apply sr_in_use. rewrite <- HN, <- Hvns. set_solver.
  - apply driver_remove_ok; [done|]. destruct Hvns as [Hnn|Hm]; [left|by right]. rewrite <- HN. unfold refs_of. by rewrite Hnn.
Qed.

Lemma prune_loop_ok k root e : ∀ l i s σ,
  represents k root s σ → Z.of_nat k <= max_names →
  wp (prune_loop e i l) (λ names s', ∃ σ', spec_prune e i σ (vol_name <$> l) names σ' ∧ represents k root s' σ') s.
Proof.
  induction l as [|v l IH]; intros i s σ Hrep Hk; simpl.
  { apply wp_ret. exists σ. split; [constructor|done]. }
  apply wp_bind. eapply wp_mono; [by apply remove_ok|]. cbn beta. intros r s1 (σ1 & Hr & Hrep1).
  apply wp_bind. eapply wp_mono; [by apply (IH (S i) s1 σ1)|]. cbn beta. intros names s2 (σ2 & Hp & Hrep2).
  apply wp_ret. exists σ2. split; [by econstructor|done].
Qed.

Lemma infos_names root σ l :
  l ≡ₚ (volume_info root <$> elements (sp_vols σ)) → vol_name <$> l ≡ₚ elements (sp_vols σ).
Proof. intros ->. rewrite <- list_fmap_compose. by rewrite list_fmap_id. Qed.

Lemma prune_ok k root s σ m mn le e :
  represents k root s σ → Z.of_nat k <= max_names → (m = true → list_returns le) →
  wp (volume_prune m mn le e) (λ r s', ∃ σ', step root σ (OPrune m mn le e) (RNames r) σ' ∧ represents k root s' σ') s.
Proof.
  intros Hrep Hk Hret. unfold volume_prune. destruct m; cbn [negb]; [|apply wp_ret; exists σ; split; [constructor; by left|done]].
  apply wp_bind. eapply wp_mono; [by apply (list_ok k root s σ le Hrep Hk), Hret|]. cbn beta. intros r s1 [-> Hr].
  destruct r as [l|]; [|apply wp_ret; exists σ; split; [constructor; by right|done]].
  pose proof (infos_names _ _ _ Hr) as Hp. destruct l as [|v l].
  { apply wp_ret. exists σ. split; [|done]. eapply ss_prune; [exact Hp|constructor]. }
  destruct (util_smart_calloc_s mn PTR_SIZE _) eqn:Ec.
  - apply wp_bind. eapply wp_mono; [by apply prune_loop_ok|]. cbn beta. intros names s' (σ' & Hpr & Hrep').
    apply wp_ret. exists σ'. split; [by eapply ss_prune|done].
  - apply wp_ret. exists σ. split; [|done]. apply ss_prune_failed. left. destruct mn; [|done]. unfold util_smart_calloc_s in Ec.
    change (PTR_SIZE =? 0) with false in Ec. cbn iota in Ec. rewrite (proj2 (Z.ltb_ge _ _)) in Ec; [done|].
    apply Permutation_length in Hp. rewrite length_fmap in Hp. rewrite Hp.
    destruct Hrep as (V & N & H & _ & _ & HV & _ & Hs & _). rewrite <- HV.
    change (MAX_MEMORY_SIZE / PTR_SIZE) with max_names. rewrite <- (size_dom V) in Hs. unfold size, set_size in Hs. simpl in Hs. lia.
Qed.

(** *** References *)

(** The references of another specification, with the same volumes. *)
Lemma represents_refs k root s σ' V N H :
  vs_ok s V N H → g_root s = root → dom V = sp_vols σ' → (size V ≤ k)%nat → bounded (S k) H →
  (∀ n, refs_of N H n = sp_refs σ' n) → represents (S k) root s σ'.
Proof. intros. exists V, N, H. split_and!; try done. lia. Qed.

Lemma add_name_ref_ok k root s σ e n c :
  represents k root s σ →
  wp (add_name_ref e n c) (λ r s', ∃ σ', represents (S k) root s' σ' ∧ sp_vols σ' = sp_vols σ ∧
    ((r = 0 ∧ σ' = upd_refs n (union {[c]}) σ) ∨ (r = -1 ∧ add_room e = false ∧ lost (re_junk e) σ σ'))) s.
Proof.
  intros (V & N & H & Hok & <- & HV & HN & Hs & Hb). eapply wp_mono; [by apply (add_ref_ok s V N H e n c Hok)|]. cbn beta.
  intros r s' (N' & H' & Hok' & Hr & Hb' & Hroom & [(-> & Hn & Ho)|(-> & Hj)]).
  - exists (upd_refs n (union {[c]}) σ). split_and!; [|done|by left].
    eapply represents_refs; try done; [by apply Hb'|]. intros m. cbn. case_decide; [by subst; rewrite Hn, HN|by rewrite Ho].
  - exists (mk_vspec (sp_vols σ) (refs_of N' H')). split_and!; [|done|].
    + eapply represents_refs; try done. by apply Hb'.
    + right. split_and!; [done| |split; [done|]; intros m; cbn; rewrite <- HN; apply Hj].
      unfold add_room. destruct (ref_room e && _); [by specialize (Hroom eq_refl)|done].
Qed.

Lemma del_name_ref_ok k root s σ n c :
  represents k root s σ → Z.of_nat k <= max_names →
  wp (del_name_ref n c) (λ r s', r = (if decide (sp_refs σ n = ∅ ∨ c ∈ sp_refs σ n) then 0 else -1) ∧
    represents k root s' (upd_refs n (λ X, X ∖ {[c]}) σ)) s.
Proof.
  intros (V & N & H & Hok & <- & HV & HN & Hs & Hb) Hk. eapply wp_mono; [by apply (del_ref_ok s V N H k n c)|]. cbn beta.
  intros r s' (N' & H' & Hok' & Hr & Hb' & Hrefs & ->). rewrite HN. split.
  - by case_decide; [rewrite bool_decide_true|rewrite bool_decide_false].
  - exists V, N', H'. split_and!; try done. intros m. rewrite Hrefs. cbn. rewrite !HN. done.
Qed.

(** *** Creating *)
Lemma lookup_driver_ok s V N H d (Q : option volume_driver → vstate LT DT NT RT → Prop) :
  vs_ok s V N H → (∀ r, (is_Some r ↔ d = local_driver) → Q r s) → wp (lookup_driver (Some d)) Q s.
Proof.
  intros Hok HQ. apply (wp_read_drivers _ _ _ _ _ _ (λ r X, r = X !! d) _ Hok).
  - intros m X HX. by apply sm_search_ok.
  - intros r X HX ->. apply HQ. rewrite <- elem_of_dom, HX. set_solver.
Qed.

Lemma driver_create_ok k root s σ e n :
  represents k root s σ →
  wp (local_volume_create (ce_mem e) (ce_dup e) (ce_mkdir e) (ce_rmdir e) (ce_map e) (Some n)) (λ r s',
    match r with
    | Some v => v = volume_info root n ∧ (n ∈ sp_vols σ ∨ can_create root n) ∧ represents (S k) root s' (add_vol n σ)
    | None => ∃ σ', represents (S k) root s' σ' ∧
        (σ' = σ ∧ (n ∉ sp_vols σ) ∧ ¬ can_create root n ∨
         create_room e = false ∧ (σ' = σ ∨ σ' = add_vol n σ ∧ can_create root n))
    end) s.
Proof.
  intros (V & N & H & Hok & <- & HV & HN & Hs & Hb).
  eapply wp_mono; [by apply (local_create_ok s V N H (ce_mem e) (ce_dup e) (ce_mkdir e) (ce_rmdir e) (ce_map e) n Hok)|]. cbn beta.
  intros r s' (V' & Hok' & Hc & Hr & Hv & Hold & Hroom).
  assert (Hb' : bounded (S k) H) by (intros p G HG; apply Hb in HG; lia).
  assert (Hadd : is_Some (V' !! n) → represents (S k) (g_root s) s' (add_vol n σ)).
  { intros Hin. exists V', N, H. split_and!; try done.
    - cbn. destruct Hc as [->|(_ & _ & ->)]; [|by rewrite dom_insert_L, HV]. apply elem_of_dom in Hin. set_solver.
    - destruct Hc as [->|(Hnn & _ & ->)]; [lia|]. rewrite map_size_insert_None by done. lia. }
  assert (Hsame : V' = V → represents (S k) (g_root s) s' σ) by (intros ->; exists V, N, H; split_and!; try done; lia).
  assert (Hval : n ∈ sp_vols σ → valid_volume n).
  { rewrite <- HV, elem_of_dom. intros [v Hn]. by destruct (vo_names _ _ _ _ _ Hok n v Hn) as (_ & _ & ?). }
  destruct r as [v|].
  - destruct (Hv v eq_refl) as [-> Hin]. split_and!; [done| |by apply Hadd].
    destruct Hc as [->|(_ & ? & _)]; [left; by rewrite <- HV, elem_of_dom|by right].
  - destruct (create_room e) eqn:Er.
    + unfold create_room in Er. apply andb_prop in Er as [Er _]. pose proof (proj1 (andb_prop _ _ Er)) as Er'.
      assert (Hd : ce_dup e = true) by (destruct (ce_mem e), (ce_dup e); done).
      assert (Hnc : ¬ can_create (g_root s) n) by (intros Hcan; by destruct (Hroom Er Hcan)).
      exists σ. split; [apply Hsame; by destruct Hc as [|(_ & ? & _)]|left]. split_and!; [done| |done].
      intros Hin. destruct (Hold (Hval Hin) Hd) as [? ?]; [|done]. by rewrite <- elem_of_dom, HV.
    + destruct Hc as [->|(_ & Hcan & ->)].
      * exists σ. split; [by apply Hsame|right; auto].
      * exists (add_vol n σ). split; [apply Hadd; by rewrite lookup_insert_eq|right; auto].
Qed.

Lemma volume_create_ok k root s σ e driver name ref :
  represents k root s σ →
  wp (volume_create e driver name ref)
    (λ v s', ∃ σ', step root σ (OCreate e driver name ref) (RVol v) σ' ∧ represents (S (S k)) root s' σ') s.
Proof.
  intros Hrep. pose proof Hrep as (V & N & H & Hok & _). pose proof (represents_mono k (S (S k)) root s σ ltac:(lia) Hrep) as Hrep2.
  unfold volume_create. destruct driver as [d|]; [|apply wp_ret; exists σ; split; [constructor; by left|done]].
  destruct ref as [c|]; [|apply wp_ret; exists σ; split; [constructor; by right; left|done]].
  apply wp_bind, (lookup_driver_ok _ _ _ _ _ _ Hok). intros dr Hdr.
  destruct dr as [dr|]; [|apply wp_ret; exists σ; split; [constructor; left; naive_solver|done]].
  assert (d = local_driver) as -> by (apply Hdr; by eexists). fold (create_name e name).
  destruct (create_name e name) as [n|] eqn:En; [|apply wp_ret; exists σ; split; [constructor; by right; right; left|done]].
  apply wp_bind. eapply wp_mono; [by apply (driver_create_ok k root s σ)|]. cbn beta. intros [v|] s1.
  - intros (-> & Hcan & Hrep1). apply wp_bind. eapply wp_mono; [by apply (add_name_ref_ok _ _ _ _ (ce_ref e) n c Hrep1)|]. cbn beta.
    intros r s2 (σ2 & Hr2 & HV2 & [(-> & ->)|(-> & Hroom & Hl)]); apply wp_ret.
    + eexists. split; [|exact Hr2]. rewrite decide_False by (intros E; by apply E). by apply ss_create.
    + exists σ2. split; [|done]. rewrite decide_True by done. eapply ss_create_failed; [done| |by right].
      unfold create_room. by rewrite Hroom, andb_false_r.
  - intros (σ' & Hrep1 & Hc). apply wp_ret. exists σ'. split; [|eapply represents_mono, Hrep1; lia].
    destruct Hc as [(-> & Hn & Hcan)|(Hroom & Hc)]; [constructor; right; right; right; by exists n|].
    eapply ss_create_failed; [done|done|]. destruct Hc as [->|[-> Hcan]]; [by left|right]. split; [by right|]. split; [done|by left].
Qed.

(** *** Every call *)
Lemma mount_ok s V N H i d name (local : cstr → VM Z) (op : VM Z) :
  vs_ok s V N H → (∀ n, local n = mret 0) →
  op = match name with
       | None => mret (-1)
       | Some n =>
         driver ← lookup_driver_by_volume_name i d name;
         match driver with None => mret (-1) | Some _ => local n end
       end →
  wp op (λ r s', (∃ d, s' = set_static d s) ∧ (r = 0 ∨ r = -1 ∧ (name = None ∨ i = false))) s.
Proof.
  intros Hok Hl ->. destruct name as [n|].
  - apply wp_bind. eapply wp_mono; [by apply (lookup_ok s V N H i d n)|]. cbn beta. intros [dr|] s1 [-> Hd].
    + rewrite Hl. apply wp_ret. eauto.
    + apply wp_ret. split; [eauto|right]. split; [done|right]. destruct i; [|done]. by destruct (Hd eq_refl).
  - apply wp_ret. split; [exists (g_static s); by destruct s|auto].
Qed.

Lemma vcall_ok k root s σ op :
  represents k root s σ → Z.of_nat k <= max_names → returns op →
  wp (vcall op) (λ r s', ∃ σ', step root σ op r σ' ∧ represents (S (S k)) root s' σ') s.
Proof.
  intros Hrep Hk Hret. pose proof Hrep as (V & N & H & Hok & _).
  assert (Hup : ∀ s' σ', represents k root s' σ' → represents (S (S k)) root s' σ') by (intros s' σ'; apply represents_mono; lia).
  destruct op as [e d n c|i d n|i d n|e|e n c|n c|e n|m mn le e]; simpl; apply wp_bind.
  - eapply wp_mono; [by apply (volume_create_ok k root s σ)|]. intros v s' Hv. by apply wp_ret.
  - eapply wp_mono; [by apply (mount_ok s V N H i d n local_volume_mount)|]. cbn beta. intros r s' [[d' ->] Hr].
    apply wp_ret. exists σ. split; [by constructor|by apply Hup, represents_static].
  - eapply wp_mono; [by apply (mount_ok s V N H i d n local_volume_umount)|]. cbn beta. intros r s' [[d' ->] Hr].
    apply wp_ret. exists σ. split; [by constructor|by apply Hup, represents_static].
  - eapply wp_mono; [by apply (list_ok k root s σ)|]. cbn beta. intros r s' [-> Hr]. apply wp_ret. exists σ. split; [|by apply Hup].
    destruct r; by constructor.
  - destruct n as [n|]; [|apply wp_ret, wp_ret; exists σ; split; [constructor; by left|by apply Hup]].
    destruct c as [c|]; [|apply wp_ret, wp_ret; exists σ; split; [constructor; by right|by apply Hup]].
    eapply wp_mono; [by apply (add_name_ref_ok k root s σ)|]. cbn beta. intros r s' (σ' & Hrep' & _ & Hr). apply wp_ret. exists σ'.
    split; [|eapply represents_mono, Hrep'; lia]. destruct Hr as [(-> & ->)|(-> & ? & ?)]; by constructor.
  - destruct n as [n|]; [|apply wp_ret, wp_ret; exists σ; split; [constructor; by left|by apply Hup]].
    destruct c as [c|]; [|apply wp_ret, wp_ret; exists σ; split; [constructor; by right|by apply Hup]].
    eapply wp_mono; [by apply (del_name_ref_ok k root s σ)|]. cbn beta. intros r s' [-> Hrep']. apply wp_ret. eexists. split; [constructor|by apply Hup].
  - destruct n as [n|]; [|apply wp_ret, wp_ret; exists σ; split; [constructor|by apply Hup]].
    eapply wp_mono; [by apply (remove_ok k root s σ)|]. cbn beta. intros r s' (σ' & Hr & Hrep'). apply wp_ret. exists σ'.
    split; [by constructor|by apply Hup].
  - eapply wp_mono; [by apply (prune_ok k root s σ)|]. cbn beta. intros r s' (σ' & Hr & Hrep'). apply wp_ret. exists σ'.
    split; [done|by apply Hup].
Qed.

Lemma vcalls_ok root : ∀ ops k s σ,
  represents k root s σ → Z.of_nat (k + 2 * length ops) <= max_names → Forall returns ops →
  wp (vcalls ops) (λ rs s', ∃ σ', spec_trace root create_room add_room σ ops rs σ' ∧
    represents (k + 2 * length ops) root s' σ') s.
Proof.
  induction ops as [|op ops IH]; intros k s σ Hrep Hk Hret; simpl.
  { apply wp_ret. exists σ. split; [constructor|by rewrite Nat.add_0_r]. }
  apply list.Forall_cons in Hret as [Hr Hret]. simpl in Hk.
  apply wp_bind. eapply wp_mono; [apply vcall_ok; [done|lia|done]|]. cbn beta. intros r s1 (σ1 & Hstep & Hrep1).
  apply wp_bind. eapply wp_mono; [apply (IH (S (S k)) s1 σ1); [done|lia|done]|]. cbn beta. intros rs s2 (σ2 & Htr & Hrep2).
  apply wp_ret. exists σ2. split; [by econstructor|]. eapply represents_mono, Hrep2. lia.
Qed.
End refinement.

(** ** What the specification promises *)
Section promises.
Context (root : string) (create_room : create_env → bool) (add_room : ref_env → bool).
Implicit Types σ : vspec.

(** A call that does not give up the use of the volume [n] by the container [c]:
    it is not the release itself, the users of a volume to remove can be listed,
    and no failing addition takes the junk key for [n]. *)
Definition keeps (n c : cstr) (op : vop) : Prop :=
  match op with
  | ODel m d => (m, d) ≠ (Some n, Some c)
  | ORemove e _ => names_known e = true
  | OPrune _ _ _ e => ∀ i, names_known (e i) = true
  | OAdd e _ _ => re_junk e ≠ n
  | OCreate e _ _ _ => re_junk (ce_ref e) ≠ n
  | _ => True
  end.

Definition in_use (n c : cstr) σ : Prop := n ∈ sp_vols σ ∧ c ∈ sp_refs σ n.

Lemma in_use_lost n c junk σ σ' : lost junk σ σ' → junk ≠ n → in_use n c σ → in_use n c σ'.
Proof.
  intros [HV Hl] Hj [Hn Hc]. split; [by rewrite HV|]. destruct (Hl n) as [->|[<- _]]; [done|by destruct Hj].
Qed.

Lemma in_use_add n c m (X : gset cstr) σ : in_use n c σ → in_use n c (upd_refs m (union X) (add_vol m σ)).
Proof. intros [Hn Hc]. split; cbn; [set_solver|]. case_decide; [subst; set_solver|done]. Qed.

Lemma in_use_remove n c e m r σ σ' : names_known e = true → spec_remove σ e m r σ' → in_use n c σ → in_use n c σ'.
Proof.
  intros Hk Hr [Hn Hc]. destruct Hr as [| Hin [He|?]| |]; [done| |congruence|done|done].
  split; cbn; [|done]. assert (n ≠ m) by (intros ->; set_solver). set_solver.
Qed.

Lemma in_use_prune n c e i σ ns names σ' :
  (∀ i, names_known (e i) = true) → spec_prune e i σ ns names σ' → in_use n c σ → in_use n c σ'.
Proof. intros Hk. induction 1; [done|]. intros Hu. apply IHspec_prune. by eapply in_use_remove. Qed.

Lemma in_use_step n c σ op r σ' :
  spec_step root create_room add_room σ op r σ' → keeps n c op → in_use n c σ → in_use n c σ'.
Proof.
  intros Hstep Hk Hu. destruct Hstep; cbn in Hk; try done.
  - by apply in_use_add.
  - destruct H1 as [->|[_ Hl]]; [done|]. eapply in_use_lost; [done..|]. destruct Hu. split; [cbn; set_solver|done].
  - destruct Hu as [Hn Hc]. split; [done|]. cbn. case_decide; [subst; set_solver|done].
  - by eapply in_use_lost.
  - destruct Hu as [Hn Hc]. split; [done|]. cbn. case_decide as E; [|done]. subst. set_solver.
  - by eapply in_use_remove.
  - by eapply in_use_prune.
Qed.

Lemma in_use_trace n c σ ops rs σ' :
  spec_trace root create_room add_room σ ops rs σ' → Forall (keeps n c) ops → in_use n c σ → in_use n c σ'.
Proof.
  induction 1 as [|σ op r σ1 ops rs σ2 Hs _ IH]; [done|]. intros [Hk Hks]%list.Forall_cons Hu. apply IH; [done|]. by eapply in_use_step.
Qed.

(** Pruning with nothing failing. *)
Definition remove_room (e : remove_env) : bool := rv_itor e && rv_data e && rv_vol e && names_known e.

Lemma prune_step_inv σ m mn le e r σ' :
  spec_step root create_room add_room σ (OPrune m mn le e) (RNames r) σ' →
  (∃ l names, r = Some names ∧ l ≡ₚ elements (sp_vols σ) ∧ spec_prune e 0 σ l names σ') ∨ m && mn = false ∨ ¬ list_room le.
Proof. inversion 1; subst; eauto 6. Qed.

Lemma prune_exact e i σ ns names σ' :
  (∀ i, remove_room (e i) = true) → NoDup ns → (∀ n, n ∈ ns → n ∈ sp_vols σ) → spec_prune e i σ ns names σ' →
  names = filter (λ n, sp_refs σ n = ∅) ns ∧ sp_refs σ' = sp_refs σ ∧ sp_vols σ' = sp_vols σ ∖ list_to_set names.
Proof.
  intros Hroom Hnd Hin Hp. revert Hnd Hin. induction Hp as [i σ|i σ n r σ1 ns names σ2 Hr Hp IH]; intros Hnd Hin.
  { split_and!; [done|done|set_solver]. }
  apply list.NoDup_cons in Hnd as [Hnn Hnd]. pose proof (Hroom i) as Ei. unfold remove_room in Ei. apply andb_prop in Ei as [Ei Hk].
  inversion Hr as [Hu Ez E1|Hv Hf Ez E1|Hv|Hf]; subst; [| |by destruct Hv; apply Hin; left|by rewrite Ei in Hf].
  - destruct IH as (-> & -> & ->); [done|set_solver|]. rewrite decide_False by done. by rewrite filter_cons_False.
  - destruct Hf as [Hf|Hf]; [|congruence]. destruct IH as (-> & -> & ->); [done|cbn; set_solver|].
    rewrite decide_True by done. rewrite filter_cons_True by done. split_and!; [done|done|]. cbn. set_solver.
Qed.
End promises.

(** ** The theorems *)
Section theorems.
Context {LT DT NT RT : Type} {LM : StrMap volume LT} {DM : StrMap volume_driver DT} {NM : StrMap nat NT} {RM : StrMap bool RT}.
Implicit Types (s : vstate LT DT NT RT) (σ : vspec) (n : cstr).

(** C6: Any sequence of calls, with any failures of what they call but that of the
    array of a listing, returns, and its results and its effect are those of the
    specification. *)
Theorem volume_store_refines k root s σ ops :
  represents k root s σ → Z.of_nat (k + 2 * length ops) <= max_names → Forall returns ops →
  wp (vcalls ops) (λ rs s', ∃ σ', spec_trace root (create_room (LM:=LM)) (add_room (NM:=NM)) σ ops rs σ' ∧
    represents (k + 2 * length ops) root s' σ') s.
Proof. apply vcalls_ok. Qed.


(** With nothing failing [volume_prune] removes the volumes that no container
    uses, returns their names, and keeps the others. *)
Theorem volume_prune_exact k root s σ le e :
  represents k root s σ → Z.of_nat k <= max_names → list_returns le → list_room le → (∀ i, remove_room (e i) = true) →
  wp (volume_prune true true le e) (λ r s', ∃ names, r = Some names ∧ NoDup names ∧
    (∀ n, n ∈ names ↔ n ∈ sp_vols σ ∧ sp_refs σ n = ∅) ∧
    represents k root s' (mk_vspec (sp_vols σ ∖ list_to_set names) (sp_refs σ))) s.
Proof.
  intros Hrep Hk Hret Hroom He. eapply wp_mono; [by apply (prune_ok k root s σ)|]. cbn beta. intros r s' (σ' & Hstep & Hrep').
  apply prune_step_inv in Hstep as [(l & names & -> & Hl & Hp)|[?|?]]; [|done|done].
  assert (Hnd : NoDup l) by (rewrite Hl; apply NoDup_elements).
  assert (Hin : ∀ n, n ∈ l ↔ n ∈ sp_vols σ) by (intros n; by rewrite Hl, elem_of_elements).
  destruct (prune_exact e 0 σ l names σ' He Hnd (λ n, proj1 (Hin n)) Hp) as (Hn & HR & HV). exists names. split_and!; [done| | |].
  - rewrite Hn. by apply NoDup_filter.
  - intros n. rewrite Hn, list_elem_of_filter, Hin. tauto.
  - rewrite <- HR, <- HV. by destruct σ'.
Qed.

(** A volume in use is removed when the memory for the names of its users cannot
    be allocated. *)
Theorem volume_remove_in_use k root s σ e n c :
  represents k root s σ → in_use n c σ → rv_itor e = true → rv_names e = false → rv_data e = true → rv_vol e = true →
  wp (volume_remove e (Some n)) (λ r s', r = 0 ∧ represents k root s' (del_vol n σ)) s.
Proof.
  intros Hrep [Hn Hc] Hi Hm Hd Hv. pose proof Hrep as (V & N & H & Hok & Hroot & HV & HN & Hs & Hb). unfold volume_remove.
  apply wp_bind. eapply wp_mono; [by apply (lookup_ok s V N H (rv_itor e) (rv_dup e) n)|]. cbn beta. intros dr s1 [-> Hdr].
  destruct (Hdr Hi) as [dr' ->]. apply (represents_static _ _ _ _ (Some dr')) in Hrep.
  assert (Hok1 : vs_ok (set_static (Some dr') s) V N H) by (by apply vs_ok_static).
  apply wp_bind. unfold get_name_refs. apply wp_bind, (search_refs_ok _ _ _ _ _ n _ Hok1). rewrite <- HN in Hc. unfold refs_of in Hc.
  destruct (N !! n) as [p|] eqn:En; [|set_solver]. destruct (vs_ok_heap _ _ _ _ _ _ _ Hok1 En) as (m & G & Hp & HG & Hmm).
  apply wp_bind, (wp_read_ref _ _ _ _ (λ _, True) _ Hp); [eapply wp_mono; [by apply sm_size_ok|]; by intros z m' [-> _]|].
  intros z _. rewrite Hm. cbn. apply wp_ret. rewrite Hd, Hv.
  eapply wp_mono; [by apply (local_remove_ok _ V N H true true n Hok1)|]. cbn beta. intros r s2 (V' & Hok2 & Hrem & Hr & Hall).
  rewrite <- HV, elem_of_dom in Hn. specialize (Hall eq_refl Hn) as ->. split; [done|].
  destruct Hrem as [(_ & _ & ->)|(Hz & _)]; [|exfalso; revert Hz; by case_decide].
  exists (delete n V), N, H. split_and!; try done; [by rewrite Hr|cbn; by rewrite dom_delete_L, HV|].
  pose proof (map_subseteq_size _ _ (delete_subseteq V n)). lia.
Qed.

(** The drivers of a store, whether the mutex of the driver is locked or not. *)
Lemma drivers_run lk s V N H :
  vs_at lk s V N H →
  (∃ d ds, on_drivers (sm_pairs true) s = Some (Some (d :: ds), s)) ∧ ∃ dr, lookup_driver (Some local_driver) s = Some (Some dr, s).
Proof.
  intros Hok. split.
  - assert (Hw : wp (on_drivers (sm_pairs true)) (λ l s', s' = s ∧ ∃ d ds, l = Some (d :: ds)) s).
    { apply (wp_read_drivers _ _ _ _ _ _ (λ l X, ∃ e, l = Some e ∧ e ≡ₚ map_to_list X) _ Hok); [intros m X HX; by apply (sm_pairs_ok true)|].
      intros l X HX (e & -> & He). split; [done|]. destruct e as [|d ds]; [|by eauto].
      apply Permutation_nil_l in He. symmetry in He. apply map_to_list_empty_iff in He as ->. set_solver. }
    apply wp_run in Hw as (l & s' & E & -> & d & ds & ->). eauto.
  - assert (Hw : wp (lookup_driver (Some local_driver)) (λ r s', s' = s ∧ is_Some r) s).
    { apply (wp_read_drivers _ _ _ _ _ _ (λ r X, r = X !! local_driver) _ Hok); [intros m X HX; by apply sm_search_ok|].
      intros r X HX ->. split; [done|]. rewrite <- elem_of_dom, HX. set_solver. }
    apply wp_run in Hw as (r & s' & E & -> & dr & ->). eauto.
Qed.

(** A listing that cannot allocate its array leaves the mutex of the driver
    locked: it returns [NULL], and no later listing, creation or removal ever
    returns. *)
Theorem volume_list_keeps_mutex k root s σ le :
  represents k root s σ → le_itor le = true → le_mem le = false →
  wp (volume_list le) (λ r s', r = None ∧
    (∀ e, le_itor e = true → volume_list e s' = None) ∧
    (∀ e n c, valid_volume n → volume_create e (Some local_driver) (Some n) (Some c) s' = None) ∧
    (∀ e n, valid_volume n → rv_itor e = true → volume_remove e (Some n) s' = None)) s.
Proof.
  intros (V & N & H & Hok & _) Hi Hm. destruct (drivers_run _ _ _ _ _ Hok) as [(d & ds & Ed) _].
  pose proof (vs_at_lock _ true _ _ _ _ Hok) as Hl. destruct (drivers_run _ _ _ _ _ Hl) as [(d' & ds' & Ed') (dr & Er)].
  unfold volume_list, list_all_driver_volumes. rewrite Hi. apply wp_bind. unfold wp at 1. rewrite Ed.
  unfold local_volume_list. apply wp_bind. unfold wp at 1, mutex_lock. rewrite (vo_lock _ _ _ _ _ Hok).
  apply wp_bind, (wp_read_vols _ _ _ _ _ _ (λ _ _, True) _ Hl).
  { intros m Hmm. eapply wp_mono; [by apply sm_size_ok|]. by intros z m' [-> _]. }
  intros z _. rewrite Hm. cbn [new_empty_volumes negb]. apply wp_ret. split_and!; [done|..].
  - intros e ->. unfold mbind, M_bind. rewrite Ed'. by destruct d'.
  - intros e n c Hn. unfold volume_create, mbind, M_bind. rewrite Er. unfold local_volume_create. rewrite Hn. done.
  - intros e n Hn He. unfold volume_remove, lookup_driver_by_volume_name, mbind, M_bind. rewrite He, Ed'. destruct d' as [x y].
    cbn [driver_loop]. unfold local_volume_get. rewrite Hn. done.
Qed.
End theorems.
