(* ===== verification/VolumeInit.v ===== *)
(** * The volume store from its start

    [volume_init] with the volumes found on the disk: which directories become
    volumes, that the state it leaves is one of the specification of
    [VolumeCorrect], and what the check of a data directory does and does not
    rule out.  The examples run the store on [map_t]. *)
From stdpp Require Import base gmap list fin_maps numbers strings.
From Stdlib Require Import ZArith Lia Ascii.
From S2P Require Import Prelude CString Regex Array RbTree Map StrMap Convert StringUtil Verify Path SymlinkScope Volume VolumeCorrect.

Local Open Scope Z_scope.

(** ** Names and paths *)
Lemma volume_name_iff name :
  util_valid_volume_name (Some name) = true ↔
  ∃ c rest, chars_of name = c :: rest ∧ alnum c ∧ (1 ≤ length rest ≤ 63)%nat ∧ Forall name_char rest.
Proof.
  unfold util_valid_volume_name. rewrite (reg_ok_iff _ (mk_regex true (Cat (Cls alnum_cls) (Rep 1 (Some 63%nat) (Cls name_cls))) true)) by done.
  rewrite rx_re_anchored, matches_cls_cat. setoid_rewrite matches_rep_cls; [|lia]. setoid_rewrite alnum_cls_iff.
  setoid_rewrite (Forall_cls _ _ _ name_cls_iff). naive_solver.
Qed.

Lemma name_char_plain c : name_char c → ISSLASH c = false ∧ c ≠ NUL.
Proof.
  unfold name_char, alnum, between_b. intros Hc. split.
  - destruct (ISSLASH c) eqn:E; [|done]. apply Ascii.eqb_eq in E as ->.
    change (byte slash) with 47 in Hc. destruct Hc as [Hc|[Hc|[Hc|Hc]]]; try done. lia.
  - intros ->. change (byte NUL) with 0 in Hc. destruct Hc as [Hc|[Hc|[Hc|Hc]]]; try done. lia.
Qed.

Lemma valid_comp n : valid_volume n → comp_ok (chars_of (cstr_s n)).
Proof.
  unfold valid_volume. rewrite volume_name_iff. intros (c & rest & -> & Hc & Hl & Hf).
  assert (Hall : Forall name_char (c :: rest)) by (constructor; [by left|done]).
  assert (Hd : c ≠ "."%char) by (intros ->; revert Hc; unfold alnum, between_b; change (byte ".") with 46; lia).
  split; [done| | |intros [= ? ?]; done|intros [= ? ?]; done].
  - eapply Forall_impl; [exact Hall|]. intros a Ha. by apply name_char_plain.
  - eapply Forall_impl; [exact Hall|]. intros a Ha. by apply Ascii.eqb_neq, name_char_plain.
Qed.

Lemma render_snoc rs c : rs ≠ [] → render (rs ++ [c]) = render rs ++ slash :: c.
Proof. intros Hr. rewrite render_app by done. unfold root_prefix. by rewrite decide_False. Qed.

Lemma join_ok d rs c :
  Forall comp_ok d → Forall comp_ok rs → comp_ok c → rs ≠ [] →
  util_path_join (Some (to_str (render d))) (Some (to_str (render rs))) (Some (to_str c)) =
  Some (if decide (length (render (rs ++ [c])) < PATH_MAX)%nat then Some (to_str (render (rs ++ [c]))) else None).
Proof.
  intros Hd Hrs Hc Hne. unfold util_path_join. rewrite !chars_of_string, <- render_snoc by done. case_decide as E.
  - rewrite decide_False by (apply Nat.nlt_ge; exact E). done.
  - apply Nat.nle_gt in E. rewrite decide_True by done. apply clean_render; try done. apply Forall_app. by rewrite Forall_singleton.
Qed.

Lemma comps_snoc p c : comp_ok c → comps (p ++ slash :: c) = comps p ++ [c].
Proof.
  intros [Hne Hns _ _ _]. unfold comps. assert (fields slash (p ++ slash :: c) = fields slash p ++ [c]) as ->.
  - induction p as [|a p IH]; simpl.
    + rewrite (proj2 (fields_comp c [] Hns)). done.
    + rewrite IH, strsep_fields. by case_match.
  - by rewrite list.filter_app, filter_cons_True.
Qed.

(** The root of the volumes is a proper directory. *)
Lemma volumes_root d root_dir :
  ∃ rs, comps_from d (to_str (chars_of root_dir ++ slash :: chars_of LOCAL_VOLUME_ROOT_DIR_NAME)) = rs ++ [chars_of LOCAL_VOLUME_ROOT_DIR_NAME].
Proof.
  unfold comps_from, normalise. rewrite chars_of_string, comps_snoc by (split; by repeat constructor).
  rewrite foldl_snoc. by eexists.
Qed.

(** ** Loading *)
Section load.
Context {LT DT NT RT : Type} {LM : StrMap volume LT} {DM : StrMap volume_driver DT} {NM : StrMap nat NT} {RM : StrMap bool RT}.
Context `{file_system_laws} (d rs : list chars).
Hypothesis Hd : Forall comp_ok d.
Hypothesis Hrs : Forall comp_ok rs.
Hypothesis Hne : rs ≠ [].
Let cwd := Some (to_str (render d)).
Let root := to_str (render rs).
Implicit Types (s : vstate LT DT NT RT) (V : gmap cstr volume) (n : cstr).

(** The directory of a volume, and its data directory. *)
Definition vol_comps n : list chars := rs ++ [chars_of (cstr_s n)].
Definition data_comps n : list chars := vol_comps n ++ [chars_of LOCAL_VOLUME_DATA_DIR_NAME].

Lemma volume_path_comps n : volume_path root n = to_str (render (data_comps n)).
Proof.
  unfold volume_path, data_comps, vol_comps, root. rewrite chars_of_string, !render_snoc; [by rewrite <- app_assoc|done|by destruct rs].
Qed.

(** The data directory, followed inside the directory of the volume, exists. *)
Definition data_dir_found (e : load_env) n : Prop :=
  ∃ t, util_follow_symlink_in_scope cwd (lo_follow_data e) (Some (volume_path root n)) (Some (to_str (render (vol_comps n)))) = Some (Some t) ∧
       contained (vol_comps n) (chars_of t) ∧ is_Some (lstat t).

Lemma build_ok e n :
  ∃ r, build_and_valid_data_dir e cwd root n = Some r ∧
    ∀ p, r = Some p → valid_volume n ∧ p = volume_path root n ∧ data_dir_found e n.
Proof.
  unfold build_and_valid_data_dir. destruct (util_valid_volume_name _) eqn:Ev; cbn [negb]; [|by exists None].
  pose proof (valid_comp n Ev) as Hc. assert (Hv : Forall comp_ok (vol_comps n)) by (apply Forall_app; by rewrite Forall_singleton).
  assert (Hd' : comp_ok (chars_of LOCAL_VOLUME_DATA_DIR_NAME)) by (split; by repeat constructor).
  assert (Hdc : Forall comp_ok (data_comps n)) by (apply Forall_app; by rewrite Forall_singleton).
  assert (Hvn : vol_comps n ≠ []) by (unfold vol_comps; by destruct rs).
  pose proof (join_ok d rs _ Hd Hrs Hc Hne) as Ej. rewrite to_str_chars in Ej. fold root cwd in Ej. rewrite Ej. clear Ej. fold (vol_comps n).
  destruct (decide _) as [_|_]; [|exists None; by split].
  destruct (follow_contained d Hd (lo_follow_vol e) (to_str (render (vol_comps n))) root) as ([t1|] & E1 & _);
    [by apply nul_free_to_str, no_nul_render..| |]; fold cwd in E1; rewrite E1; clear E1; [|exists None; by split].
  pose proof (join_ok d (vol_comps n) _ Hd Hv Hd' Hvn) as Ej2. rewrite to_str_chars in Ej2. fold cwd in Ej2. rewrite Ej2. clear Ej2.
  fold (data_comps n). destruct (decide _) as [_|_]; [|exists None; by split].
  destruct (follow_contained d Hd (lo_follow_data e) (to_str (render (data_comps n))) (to_str (render (vol_comps n)))) as (t2 & E2 & Ht2).
  { by apply nul_free_to_str, no_nul_render. }
  { by apply nul_free_to_str, no_nul_render. }
  fold cwd in E2. rewrite E2. rewrite <- volume_path_comps in E2 |- *.
  destruct t2 as [t|]; [|exists None; split; [reflexivity|discriminate]]. eexists. split; [reflexivity|].
  intros p Hp. destruct (lstat t) as [b|] eqn:El; [|discriminate]. injection Hp as <-. split_and!; [exact Ev|reflexivity|].
  exists t. split_and!; [exact E2| |rewrite El; by eexists]. clear E2.
  specialize (Ht2 t eq_refl). unfold comps_from in Ht2. by rewrite chars_of_string, is_abs_render, normalise_render in Ht2.
Qed.

(** The directory of the name [n] is taken for a volume. *)
Definition accepted (e : load_env) n : Prop := build_and_valid_data_dir e cwd root n = Some (Some (volume_path root n)).

Lemma accepted_found e n : accepted e n → valid_volume n ∧ data_dir_found e n.
Proof.
  intros Ha. destruct (build_ok e n) as (r & E & Hr). unfold accepted in Ha. rewrite Ha in E. injection E as <-.
  destruct (Hr _ eq_refl) as (? & _ & ?). by split.
Qed.

Definition load_room (e : load_env) : bool := lo_dup e && @sm_room volume LT LM (lo_map e).

(** While the volumes are loaded: those of [V], and nothing else changes. *)
Record loading (s0 : vstate LT DT NT RT) s V : Prop := {
  lg_vols : sm_models (g_vols s) V;
  lg_names n v : V !! n = Some v → v = volume_info root n ∧ valid_volume n;
  lg_root : g_root s = root;
  lg_lock : g_locked s = false;
  lg_rest : g_drivers s = g_drivers s0 ∧ g_refs s = g_refs s0 ∧ g_heap s = g_heap s0 ∧ g_fresh s = g_fresh s0
}.

Lemma load_volume_ok s0 s V e n :
  loading s0 s V →
  wp (load_volume e cwd root n) (λ r s', r = true ∧ ∃ V', loading s0 s' V' ∧ dom V ⊆ dom V' ∧
    (∀ m, m ∈ dom V' → m ∈ dom V ∨ m = n ∧ accepted e n) ∧ (accepted e n → load_room e = true → n ∈ dom V')) s.
Proof.
  intros Hl. unfold load_volume, accepted. destruct (build_ok e n) as (r & E & Hr). rewrite E. clear E. destruct r as [p|].
  2: { apply wp_ret. split; [done|]. exists V. split_and!; [done|done|by left|discriminate]. }
  destruct (Hr p eq_refl) as (Hv & -> & _). clear Hr. apply wp_bind. unfold wp at 1, mutex_lock. rewrite (lg_lock _ _ _ Hl). apply wp_bind.
  destruct (lo_dup e) eqn:Ed; cbn [dup_volume].
  - apply wp_bind. pose proof (sm_insert_ok (lo_map e) _ _ n (volume_info root n) (lg_vols _ _ _ Hl)) as (b & m & Ei & Hb & Hm & _)%wp_run.
    unfold wp at 1, on_vols. cbn [g_vols set_locked]. change (mk_volume _ _ _ _) with (volume_info root n). rewrite Ei. apply wp_ret.
    unfold wp, mbind, M_bind, mutex_unlock. cbn. split; [done|]. exists (if b then <[n := volume_info root n]> V else V).
    destruct Hl as [H1 H2 H3 H4 H5]. split_and!.
    + split; cbn; try done. destruct b; [|done]. intros n' v [[<- <-]|[_ Hn]]%lookup_insert_Some; [done|by apply H2].
    + destruct b; [rewrite dom_insert_L; set_solver|done].
    + intros m'. destruct b; [rewrite dom_insert_L, elem_of_union, elem_of_singleton; naive_solver|by left].
    + intros _. unfold load_room. rewrite Ed. cbn [andb]. intros Hroom. rewrite Hroom in Hb. cbn [andb] in Hb. subst b.
      case_bool_decide as En; [rewrite dom_insert_L; set_solver|]. apply elem_of_dom. by destruct (V !! n).
  - apply wp_ret. unfold wp, mbind, M_bind, mutex_unlock. cbn. split; [done|]. exists V. destruct Hl as [H1 H2 H3 H4 H5].
    split_and!; [by split|done|by left|]. intros _. unfold load_room. by rewrite Ed.
Qed.

Lemma scan_ok s0 (e : cstr → load_env) : ∀ l s V,
  loading s0 s V →
  wp (scan_loop cstr_s (λ n, load_volume (e n) cwd root n) l) (λ r s', r = 0 ∧ ∃ V', loading s0 s' V' ∧ dom V ⊆ dom V' ∧
    (∀ m, m ∈ dom V' → m ∈ dom V ∨ m ∈ l ∧ accepted (e m) m) ∧
    (∀ m, m ∈ l → accepted (e m) m → load_room (e m) = true → m ∈ dom V')) s.
Proof.
  induction l as [|n l IH]; intros s V Hl; cbn [scan_loop].
  { apply wp_ret. split; [done|]. exists V. split_and!; [done|done|by left|by intros m Hm%elem_of_nil]. }
  destruct (_ || _) eqn:Edot.
  - eapply wp_mono; [by apply IH|]. cbn beta. intros r s' (-> & V' & Hl' & Hsub & Hin & Hall). split; [done|]. exists V'.
    split_and!; [done|done|intros m Hm; destruct (Hin m Hm) as [?|[??]]; [by left|right; split; [by right|done]]|].
    intros m [->|Hm]%elem_of_cons Ha Hroom; [|by apply Hall]. exfalso. destruct (accepted_found _ _ Ha) as [Hv _].
    unfold valid_volume in Hv. apply orb_prop in Edot as [Ed|Ed]; apply String.eqb_eq in Ed; rewrite Ed in Hv; by vm_compute in Hv.
  - apply wp_bind. eapply wp_mono; [by apply (load_volume_ok s0 s V)|]. cbn beta. intros b s1 (-> & V1 & Hl1 & Hsub1 & Hin1 & Hall1).
    cbn [negb]. eapply wp_mono; [by apply (IH s1 V1)|]. cbn beta. intros r s' (-> & V' & Hl' & Hsub & Hin & Hall).
    split; [done|]. exists V'. split_and!; [done|set_solver| |].
    + intros m Hm. destruct (Hin m Hm) as [Hm1|[??]]; [|right; split; [by right|done]].
      destruct (Hin1 m Hm1) as [?|[-> ?]]; [by left|right; split; [by left|done]].
    + intros m [->|Hm]%elem_of_cons Ha Hroom; [|by apply Hall]. by apply Hsub, Hall1.
Qed.
End load.

(** ** Starting *)
Section start.
Context {LT DT NT RT : Type} {LM : StrMap volume LT} {DM : StrMap volume_driver DT} {NM : StrMap nat NT} {RM : StrMap bool RT}.
Context `{file_system_laws} (d : list chars) (e : init_env).
Hypothesis Hd : Forall comp_ok d.
Let cwd := Some (to_str (render d)).
Implicit Types (s : vstate LT DT NT RT) (V : gmap cstr volume) (n : cstr).

(** Nothing that [volume_init] calls fails. *)
Record init_room : Prop := {
  ir_drivers : ie_drivers e = (true, true, true);
  ir_refs : ie_refs e = (true, true, true);
  ir_info : ie_info e = true;
  ir_vols : ie_vols e = (true, true, true);
  ir_mutex : ie_mutex e = true;
  ir_mkdir : ie_mkdir e = true;
  ir_dir : is_Some (ie_dir e);
  ir_driver : ie_driver e = true;
  ir_map : @sm_room volume_driver DT DM (ie_driver_map e) = true
}.

Lemma new_map_spec {A MT} {SM : StrMap A MT} m :
  match new_map m with Some x => sm_models x ∅ ∧ sm_dropped x = [] | None => m ≠ (true, true, true) end.
Proof.
  unfold new_map. pose proof (sm_new_ok m.1.1 m.1.2 m.2) as Hm. destruct (sm_new _ _ _); [done|]. by intros ->.
Qed.

Definition boot (dr : DT) (rf : NT) (vols : LT) : vstate LT DT NT RT := mk_vstate vols "" false [] dr None rf ∅ 0.

(** The volumes [V] are those accepted from the directory [l]. *)
Definition loads_from (rs : list chars) (l : list cstr) V : Prop :=
  (∀ n, n ∈ dom V → n ∈ l ∧ accepted d rs (ie_load e n) n) ∧
  (∀ n, n ∈ l → accepted d rs (ie_load e n) n → load_room (LM:=LM) (ie_load e n) = true → n ∈ dom V).

(** The part of [local_volume_init] after [g_volumes] is allocated. *)
Lemma load_all_ok rs dr rf m :
  Forall comp_ok rs → rs ≠ [] → sm_models m ∅ →
  wp (if negb (ie_mutex e) then mret (-1) else
      ret ← init_volume_root_dir (ie_mkdir e) (to_str (render rs));
      if decide (ret ≠ 0) then mret ret else load_volumes e cwd)
    (λ ret s, (∃ V, sm_models (g_vols s) V) ∧ (init_room → ret = 0) ∧
      (ret = 0 → ∃ l V, ie_dir e = Some l ∧ loading rs (boot dr rf m) s V ∧ loads_from rs l V)) (boot dr rf m).
Proof.
  intros Hrs Hne Hm. destruct (ie_mutex e) eqn:Em; cbn [negb]; [|apply wp_ret; split_and!; [by eexists|intros []; congruence|done]].
  apply wp_bind. unfold init_volume_root_dir. apply wp_bind, wp_disk; intros Ek.
  2: { rewrite decide_True by done. apply wp_ret. rewrite decide_True by done. apply wp_ret.
       split_and!; [by eexists|intros []; congruence|done]. }
  rewrite decide_False by (intros E; by apply E). apply wp_bind, wp_modify, wp_ret. rewrite decide_False by (intros E; by apply E).
  unfold load_volumes, util_scan_subdirs. apply wp_bind, wp_get.
  destruct (ie_dir e) as [l|] eqn:Ed; [|apply wp_ret; split_and!; [by eexists|intros []; rewrite Ed in *; by destruct ir_dir0|done]].
  eapply wp_mono; [apply (scan_ok d rs Hd Hrs Hne (boot dr rf m) (ie_load e) l _ ∅); by split|]. cbn beta.
  intros r s (-> & V & Hl & _ & Hin & Hall). split_and!; [exists V; apply Hl|done|]. intros _. exists l, V. split_and!; [done|done|].
  split; [|done]. intros n Hn. destruct (Hin n Hn) as [?|?]; [set_solver|done].
Qed.

Lemma local_init_ok rs dr rf :
  Forall comp_ok rs → rs ≠ [] →
  ∃ ret o, local_volume_init e cwd (boot dr rf) (Some (to_str (render rs))) = Some (ret, o) ∧
    (init_room → is_Some o) ∧
    ∀ s, o = Some s → ∃ l V m, ie_dir e = Some l ∧ loading rs (boot dr rf m) s V ∧ loads_from rs l V.
Proof.
  intros Hrs Hne. unfold local_volume_init, new_empty_volumes_info.
  pose proof (new_map_spec (SM:=LM) (ie_vols e)) as Hnew.
  destruct (ie_info e) eqn:Ei; [|exists (-1), None; split_and!; [done| |done]; intros []; congruence].
  destruct (new_map (ie_vols e)) as [m|]; [|exists (-1), None; split_and!; [done| |done]; intros []; congruence].
  destruct Hnew as [Hm _]. pose proof (load_all_ok rs dr rf m Hrs Hne Hm) as (ret & s & -> & (V & HV) & Hroom & Hl)%wp_run.
  case_decide as Er.
  - pose proof (sm_free_ok _ _ HV) as (u & m' & Ef & _)%wp_run. unfold on_vols. rewrite Ef. exists ret, None. naive_solver.
  - exists ret, (Some s). split_and!; [done|by eexists|]. intros s' [= <-]. destruct Hl as (l & V' & ?); [lia|]. by exists l, V', m.
Qed.

(** [register_driver] on a store without drivers. *)
Lemma register_ok s mem mem_map drv :
  sm_models (g_drivers s) ∅ → valid_driver drv = 0 →
  ∃ m, register_driver mem mem_map (Some local_driver) (Some drv) s =
       Some (if mem && @sm_room volume_driver DT DM mem_map then 0 else -1,
             mk_vstate (g_vols s) (g_root s) (g_locked s) (g_disk s) m (g_static s) (g_refs s) (g_heap s) (g_fresh s)) ∧
       sm_models m (if mem && @sm_room volume_driver DT DM mem_map then {[local_driver := drv]} else ∅).
Proof.
  intros Hm Hv. unfold register_driver, lookup_driver, on_drivers, mbind, M_bind.
  pose proof (sm_search_ok _ _ local_driver Hm) as (r & m1 & -> & -> & ->)%wp_run. rewrite lookup_empty.
  unfold insert_driver, dup_driver. rewrite Hv, decide_False by (intros E; by apply E). destruct mem; cbn [andb].
  - unfold on_drivers, mbind, M_bind. cbn [g_drivers].
    pose proof (sm_insert_ok mem_map _ _ local_driver drv Hm) as (b & m2 & -> & -> & Hm2 & _)%wp_run.
    rewrite lookup_empty, bool_decide_true, andb_true_r in Hm2 |- * by done. exists m2. split; [done|].
    by destruct (sm_room mem_map); rewrite ?insert_empty in Hm2.
  - exists (g_drivers s). by split; [destruct s|].
Qed.

Definition set_drivers (m : DT) s : vstate LT DT NT RT :=
  mk_vstate (g_vols s) (g_root s) (g_locked s) (g_disk s) m (g_static s) (g_refs s) (g_heap s) (g_fresh s).

Lemma started_ok rs dr rf m0 s V m drv :
  loading rs (boot dr rf m0) s V → sm_models rf ∅ → sm_models m {[local_driver := drv]} →
  vs_ok (set_drivers m s) V ∅ ∅.
Proof.
  intros [H1 H2 H3 H4 (H5 & H6 & H7 & H8)] Hrf Hm. split; cbn; try done.
  - intros n v Hn. destruct (H2 n v Hn) as [-> Hv]. cbn. by rewrite H3.
  - by rewrite H6.
  - intros p. rewrite H7. cbn. by rewrite !lookup_empty.
  - intros p. rewrite lookup_empty. split; [by intros []|intros [n Hn]; by rewrite lookup_empty in Hn].
  - intros p. rewrite lookup_empty. by intros [].
  - exists {[local_driver := drv]}. split; [done|]. apply dom_singleton_L.
Qed.

Lemma started_represents rs s V :
  vs_ok s V ∅ ∅ → g_root s = to_str (render rs) →
  represents (size (dom V)) (to_str (render rs)) s (mk_vspec (dom V) (λ _, ∅)).
Proof.
  intros Hok Hr. exists V, ∅, ∅. split_and!; [done|done|done|done|by rewrite size_dom|].
  intros p G HG. by rewrite lookup_empty in HG.
Qed.

(** The path of the root of the volumes. *)
Definition volumes_dir (root_dir : string) : string := to_str (chars_of root_dir ++ slash :: chars_of LOCAL_VOLUME_ROOT_DIR_NAME).
Definition root_fits (root_dir : string) : Prop :=
  (length (chars_of (volumes_dir root_dir)) + length (render d) + 1 < PATH_MAX)%nat.

Lemma root_join_ok root_dir :
  nul_free root_dir = true → let rs := comps_from d (volumes_dir root_dir) in
  Forall comp_ok rs ∧ rs ≠ [] ∧
  ∃ o, util_path_join cwd (Some root_dir) (Some LOCAL_VOLUME_ROOT_DIR_NAME) = Some o ∧
       (o = Some (to_str (render rs)) ∨ o = None ∧ ¬ root_fits root_dir).
Proof.
  intros Hn rs. assert (Hnul : nul_free (volumes_dir root_dir) = true).
  { apply nul_free_to_str, Forall_app. split; [by apply no_nul_chars|by repeat constructor]. }
  split_and!; [by apply comps_from_ok|unfold rs, volumes_dir; destruct (volumes_root d root_dir) as [x ->]; by destruct x|].
  unfold util_path_join. fold (volumes_dir root_dir). case_decide as El.
  { exists None. split; [done|right]. split; [done|]. unfold root_fits, volumes_dir. rewrite chars_of_string. clear -El. lia. }
  clear El. destruct (util_clean_path_ok d (volumes_dir root_dir) PATH_MAX Hd Hnul) as [[E _]|[E Hf]]; [|done| |].
  - intros E. apply (f_equal chars_of) in E. unfold volumes_dir in E. rewrite chars_of_string in E. by destruct (chars_of root_dir).
  - eexists. split; [exact E|by left].
  - eexists. split; [exact E|right]. split; [done|]. clear E. unfold root_fits. destruct (is_abs _); lia.
Qed.

(** What [volume_init] leaves behind. *)
Definition started (root_dir : string) s : Prop :=
  let rs := comps_from d (volumes_dir root_dir) in
  ∃ l V, ie_dir e = Some l ∧ vs_ok s V ∅ ∅ ∧ g_root s = to_str (render rs) ∧ loads_from rs l V.

Lemma register_local_ok root_dir dr rf :
  nul_free root_dir = true → sm_models dr ∅ → sm_models rf ∅ →
  ∃ ret o, register_local_volume e cwd (boot dr rf) (Some root_dir) = Some (ret, o) ∧
    (init_room → root_fits root_dir → ret = 0 ∧ is_Some o) ∧
    match o with
    | Some s => (∃ X, sm_models (g_drivers s) X) ∧ sm_models (g_refs s) ∅ ∧ (ret = 0 → started root_dir s)
    | None => ret ≠ 0
    end.
Proof.
  intros Hn Hdr Hrf. destruct (root_join_ok root_dir Hn) as (Hrs & Hne & o & Ej & Ho). unfold register_local_volume. rewrite Ej. clear Ej.
  destruct o as [root|].
  2: { destruct Ho as [?|[_ Hf]]; [done|]. exists (-1), None. split_and!; [done| |done]. intros _ Hfit. by destruct Hf. }
  destruct Ho as [Eo|[? _]]; [|done]. assert (root = to_str (render (comps_from d (volumes_dir root_dir)))) as -> by congruence. clear Eo.
  destruct (local_init_ok _ dr rf Hrs Hne) as (ret & o & -> & Hroom & Hs). destruct o as [s|].
  2: { exists (-1), None. split_and!; [done| |done]. intros Hr _. by destruct (Hroom Hr). }
  destruct (Hs s eq_refl) as (l & V & m & El & Hl & Hload). pose proof Hl as [_ _ Hroot _ (Hgd & Hgr & _)]. cbn in Hgd, Hgr.
  destruct (register_ok s (ie_driver e) (ie_driver_map e) (mk_driver true true true true true true)) as (m' & Er & Hm'); [by rewrite Hgd|done|].
  fold local_driver. rewrite Er. eexists _, _. split; [done|]. split; [|split_and!; [by eexists|cbn; by rewrite Hgr|]].
  - intros [] _. by rewrite ir_driver0, ir_map0.
  - destruct (ie_driver e && _); [|done]. intros _. exists l, V. split_and!; [done|by eapply started_ok|done|done].
Qed.

Lemma volume_init_ok root_dir :
  nul_free root_dir = true →
  ∃ res, volume_init e cwd (Some root_dir) = Some res ∧ (init_room → root_fits root_dir → is_Some res) ∧
    ∀ s, res = Some s → started root_dir s.
Proof.
  intros Hn. unfold volume_init. pose proof (new_map_spec (SM:=DM) (ie_drivers e)) as Hdr.
  destruct (new_map (ie_drivers e)) as [dr|]; [|exists None; split_and!; [done|by intros []|done]]. destruct Hdr as [Hdr _].
  pose proof (sm_free_ok _ _ Hdr) as (u1 & x1 & Ef1 & _)%wp_run. pose proof (new_map_spec (SM:=NM) (ie_refs e)) as Hrf.
  destruct (new_map (ie_refs e)) as [rf|]; [|rewrite Ef1; exists None; split_and!; [done|by intros []|done]]. destruct Hrf as [Hrf _].
  pose proof (sm_free_ok _ _ Hrf) as (u2 & x2 & Ef2 & _)%wp_run. fold (boot dr rf).
  destruct (register_local_ok root_dir dr rf Hn Hdr Hrf) as (ret & o & E & Hroom & Hs). rewrite E. clear E.
  destruct o as [s|].
  - destruct Hs as ((X & HX) & HR & Hst). case_decide as Er; [exists (Some s); split_and!; [done|done|by intros s' [= <-]; apply Hst]|].
    pose proof (sm_free_ok _ _ HX) as (u3 & x3 & -> & _)%wp_run. pose proof (sm_free_ok _ _ HR) as (u4 & x4 & -> & _)%wp_run.
    exists None. split_and!; [done| |done]. intros Hr Hf. by destruct (Hroom Hr Hf).
  - rewrite Ef1, Ef2. exists None. split_and!; [done| |done]. intros Hr Hf. by destruct (Hroom Hr Hf).
Qed.
End start.

(** [volume_init] returns, and with nothing failing it succeeds.  The store it
    leaves has no references, its volumes are directories of the root with a
    valid name whose data directory, followed inside the directory of the volume,
    exists, and every such directory becomes a volume if there is memory for it. *)
Theorem volume_init_loads {LT DT NT RT : Type} {LM : StrMap volume LT} {DM : StrMap volume_driver DT} {NM : StrMap nat NT}
    {RM : StrMap bool RT} `{file_system_laws} d (e : init_env) root_dir :
  Forall comp_ok d → nul_free root_dir = true →
  let rs := comps_from d (volumes_dir root_dir) in
  ∃ res : option (vstate LT DT NT RT), volume_init e (Some (to_str (render d))) (Some root_dir) = Some res ∧
    (init_room (DM:=DM) e → root_fits d root_dir → is_Some res) ∧
    ∀ s, res = Some s → ∃ l σ, ie_dir e = Some l ∧ represents (size (sp_vols σ)) (to_str (render rs)) s σ ∧
      (∀ n, sp_refs σ n = ∅) ∧
      (∀ n, n ∈ sp_vols σ → n ∈ l ∧ valid_volume n ∧ data_dir_found d rs (ie_load e n) n) ∧
      (∀ n, n ∈ l → accepted d rs (ie_load e n) n → load_room (LM:=LM) (ie_load e n) = true → n ∈ sp_vols σ).
Proof.
  intros Hd Hn rs. destruct (volume_init_ok d e Hd root_dir Hn) as (res & E & Hroom & Hs). exists res. split_and!; [done|done|].
  intros s Es. destruct (Hs s Es) as (l & V & El & Hok & Hroot & Hin & Hall). exists l, (mk_vspec (dom V) (λ _, ∅)).
  destruct (root_join_ok d Hd root_dir Hn) as (Hrs & Hne & _).
  split_and!; [done|by apply started_represents|done| |done]. intros n Hn'. destruct (Hin n Hn') as [? Ha]. split; [done|].
  by apply (accepted_found d rs Hd Hrs Hne).
Qed.

(** ** What the check of a data directory does not rule out *)

(** The check follows the links of the data directory inside the directory of the
    volume, but the path of the volume is the one before: a data directory that is
    a link to [/etc] is accepted when the directory of the volume has an [etc]. *)
Theorem data_dir_may_leave_volume :
  let fs := table_fs [("/r/volumes/vol/_data", "/etc")]%string in
  file_system_laws fs ∧
  @build_and_valid_data_dir fs (mk_load_env [] [] true mem_ok) (Some "/"%string) "/r/volumes" (cstr_of "vol") =
    Some (Some "/r/volumes/vol/_data"%string) ∧
  @util_follow_symlink_in_scope fs (Some "/"%string) [] (Some "/r/volumes/vol/_data"%string) (Some "/r/volumes/vol"%string) =
    Some (Some "/r/volumes/vol/etc"%string) ∧
  @readlink fs "/r/volumes/vol/_data" = Some "/etc"%string.
Proof. split_and!; [apply table_fs_laws; by repeat constructor|by vm_compute..]. Qed.

(** ** Examples, on [map_t] *)
Section examples.
Let LM : StrMap volume (map_t volume MAP_STR_PTR) := str_ptr_map true.
Let DM : StrMap volume_driver (map_t volume_driver MAP_STR_PTR) := str_ptr_map true.
Let NM : StrMap nat (map_t nat MAP_STR_PTR) := str_ptr_map true.
Let RM : StrMap bool (map_t unit MAP_STR_BOOL) := str_bool_map true.
#[local] Existing Instance LM.
#[local] Existing Instance DM.
#[local] Existing Instance NM.
#[local] Existing Instance RM.
Let VS := vstate (map_t volume MAP_STR_PTR) (map_t volume_driver MAP_STR_PTR) (map_t nat MAP_STR_PTR) (map_t unit MAP_STR_BOOL).

Let vol : cstr := cstr_of "vol".
Let box : cstr := cstr_of "box".
Let fs : file_system := table_fs [].
Let fs_laws : file_system_laws fs.
Proof. apply table_fs_laws. constructor. Qed.

Definition demo_init : init_env :=
  mk_init_env (true, true, true) (true, true, true) true (true, true, true) true true (Some [cstr_of "."; cstr_of "vol"; cstr_of "a/b"])
    (λ _, mk_load_env [] [] true mem_ok) true mem_ok.

Lemma demo_room : init_room (DM:=DM) demo_init.
Proof. by split. Qed.

Lemma demo_accepted : @accepted fs [] [chars_of "r"; chars_of "volumes"] (ie_load demo_init vol) vol.
Proof. by vm_compute. Qed.

(** A store with one volume, not in use. *)
Lemma demo_store : ∃ s : VS, represents 1 "/r/volumes" s (mk_vspec {[vol]} (λ _, ∅)).
Proof.
  destruct (@volume_init_ok _ _ _ _ LM DM NM RM fs fs_laws [] demo_init (Forall_nil_2 _) "/r" eq_refl) as (res & _ & Hroom & Hs).
  destruct Hroom as [s ->]; [apply demo_room|vm_compute; lia|]. destruct (Hs s eq_refl) as (l & V & [= <-] & Hok & Hr & Hin & Hall).
  assert (HV : dom V = {[vol]}).
  { apply set_eq. intros n. rewrite elem_of_singleton. split.
    - intros Hn. destruct (Hin n Hn) as [Hl Ha]. rewrite !elem_of_cons, elem_of_nil in Hl.
      destruct Hl as [->|[->|[->|[]]]]; [by vm_compute in Ha|done|by vm_compute in Ha].
    - intros ->. apply Hall; [by right; left|apply demo_accepted|done]. }
  exists s. rewrite <- HV. pose proof (started_represents (LM:=LM) (DM:=DM) (NM:=NM) (RM:=RM) _ s V Hok Hr) as Hrep.
  rewrite HV, size_singleton in Hrep. rewrite HV. exact Hrep.
Qed.

(** Outcomes with nothing failing. *)
Let refs_env : ref_env := mk_ref_env true true true mem_ok mem_ok (cstr_of "").
Let all_env : create_env := mk_create_env None true true true true mem_ok refs_env.
Let ls_env : list_env := mk_list_env true true true true (λ _, true).
Let rm_env : remove_env := mk_remove_env true true true true true true true.

(** The same store when a container uses the volume. *)
Lemma demo_used : ∃ (s : VS) σ, represents 3 "/r/volumes" s σ ∧ in_use vol box σ.
Proof.
  destruct demo_store as [s Hs].
  pose proof (vcall_ok 1 "/r/volumes" s _ (OAdd refs_env (Some vol) (Some box)) Hs ltac:(vm_compute; discriminate) I)
    as (r & s' & _ & σ' & Hstep & Hrep)%wp_run.
  exists s', σ'. split; [exact Hrep|]. inversion Hstep; subst; [|done|naive_solver]. split; cbn; [set_solver|].
  rewrite decide_True by done. set_solver.
Qed.

Lemma volume_init_loads_witness :
  ∃ res : option VS, @volume_init _ _ _ _ LM DM NM fs demo_init (Some "/"%string) (Some "/r"%string) = Some res ∧ is_Some res ∧
    ∀ s, res = Some s → ∃ l σ, ie_dir demo_init = Some l ∧ represents (size (sp_vols σ)) "/r/volumes" s σ ∧ vol ∈ sp_vols σ.
Proof.
  destruct (@volume_init_loads _ _ _ _ LM DM NM RM fs fs_laws [] demo_init "/r" (Forall_nil_2 _) eq_refl) as (res & E & Hroom & Hs).
  exists res. split; [exact E|]. split; [apply Hroom; [apply demo_room|vm_compute; lia]|]. intros s Es.
  destruct (Hs s Es) as (l & σ & El & Hrep & _ & _ & Hall). exists l, σ. split; [exact El|]. split; [exact Hrep|].
  apply Hall; [injection El as <-; by right; left|exact demo_accepted|reflexivity].
Defined.

Lemma volume_store_refines_witness :
  let ops := [OCreate all_env (Some local_driver) (Some box) (Some box); ODel (Some box) (Some box); ORemove rm_env (Some vol); OList ls_env] in
  ∃ s : VS, wp (vcalls ops) (λ rs s', ∃ σ',
    spec_trace "/r/volumes" (create_room (LM:=LM)) (add_room (NM:=NM)) (mk_vspec {[vol]} (λ _, ∅)) ops rs σ' ∧ represents 9 "/r/volumes" s' σ') s.
Proof.
  intros ops. destruct demo_store as [s Hs]. exists s.
  apply (volume_store_refines 1 "/r/volumes" s _ ops Hs); [vm_compute; discriminate|]. repeat constructor.
Defined.


Lemma volume_prune_exact_witness :
  ∃ s : VS, wp (volume_prune true true ls_env (λ _, rm_env)) (λ r s', ∃ names, r = Some names ∧ NoDup names ∧
    (∀ n, n ∈ names ↔ n ∈ ({[vol]} : gset cstr) ∧ (∅ : gset cstr) = ∅) ∧
    represents 1 "/r/volumes" s' (mk_vspec ({[vol]} ∖ list_to_set names) (λ _, ∅))) s.
Proof.
  destruct demo_store as [s Hs]. exists s.
  apply (volume_prune_exact 1 "/r/volumes" s _ ls_env (λ _, rm_env) Hs); [vm_compute; discriminate|by split|by split|done].
Defined.

Lemma volume_remove_in_use_witness :
  ∃ (s : VS) σ, in_use vol box σ ∧
    wp (volume_remove (mk_remove_env true true false true true true true) (Some vol))
      (λ r s', r = 0 ∧ represents 3 "/r/volumes" s' (del_vol vol σ)) s.
Proof.
  destruct demo_used as (s & σ & Hs & Hu). exists s, σ. split; [exact Hu|].
  by apply (volume_remove_in_use 3 "/r/volumes" s σ _ vol box Hs Hu).
Defined.

Lemma volume_list_keeps_mutex_witness :
  ∃ s : VS, wp (volume_list (mk_list_env true false true true (λ _, true))) (λ r s', r = None ∧
    (∀ e, le_itor e = true → volume_list e s' = None) ∧
    (∀ e n c, valid_volume n → volume_create e (Some local_driver) (Some n) (Some c) s' = None) ∧
    (∀ e n, valid_volume n → rv_itor e = true → volume_remove e (Some n) s' = None)) s.
Proof.
  destruct demo_store as [s Hs]. exists s. by apply (volume_list_keeps_mutex 1 "/r/volumes" s _ _ Hs).
Defined.
End examples.
