(* ===== verification/HealthCheck.v ===== *)
(** * Health checks

    [src/daemon/modules/container/health_check/health_check.c]: the probes of a
    container, what their results do to its health, and the thread that runs them.
    The time strings are read by a parameter, [util_to_unix_nanos_from_str]; the
    outcome of a probe, the clock and the thread creation are arguments.  Left out
    are the release of the manager and the body of the thread that stops an
    unhealthy container: its starts are counted. *)
From stdpp Require Import base list numbers strings relations.
From Stdlib Require Import ZArith Lia Ascii.
From S2P Require Import Prelude CString Regex Array StringUtil ContainerState RestartManager EventsHandler.

Local Open Scope Z_scope.

Definition DEFAULT_PROBE_INTERVAL : Z := 30 * Time_Second.
Definition DEFAULT_PROBE_TIMEOUT : Z := 30 * Time_Second.
Definition DEFAULT_START_PERIOD : Z := 0 * Time_Second.
Definition DEFAULT_PROBE_RETRIES : Z := 3.
Definition MAX_LOG_ENTRIES : nat := 5.
Definition EXIT_STATUS_HEALTHY : Z := 0.
Definition HEALTH_STARTING : string := "starting".
Definition HEALTHY : string := "healthy".
Definition UNHEALTHY : string := "unhealthy".
Definition REV_BUF_SIZE : nat := N.to_nat 4096.

Inductive health_probe_t := CMD | CMD_SHELL | HEALTH_NONE | HEALTH_UNKNOWN.
Inductive health_check_monitor_status_t := MONITOR_IDLE | MONITOR_INTERVAL | MONITOR_STOP.

#[global] Instance health_probe_eq_dec : EqDecision health_probe_t.
Proof. solve_decision. Defined.
#[global] Instance monitor_status_eq_dec : EqDecision health_check_monitor_status_t.
Proof. solve_decision. Defined.

Record health_check_manager_t := mk_manager { monitor_status : health_check_monitor_status_t; monitor_exist : bool }.

(** The configuration [healthcheck] of a container. *)
Record health_config := mk_config {
  hc_test : list string; hc_interval : Z; hc_timeout : Z; hc_start_period : Z; hc_retries : Z; hc_exit_on_unhealthy : bool }.

(** A container: its state, the manager, the configuration ([None] when it, its
    [healthcheck] or the [test] of that is [NULL]), the references, and the number
    of threads started to stop it. *)
Record hcont := mk_hcont {
  k_state : container_state;
  k_manager : option health_check_manager_t;
  k_config : option health_config;
  k_refs : Z;
  k_stops : nat
}.

(** ** Status *)
Section status.
Let HM := M hcont.

Definition with_health (h : option defs_health) (s : container_state) : container_state :=
  mk_state (running s) (paused s) (restarting s) (oom_killed s) (removal_inprogress s) (dead s) (starting s)
    (has_been_manually_stopped s) (pid s) (p_pid s) (start_time s) (p_start_time s) (exit_code s) (restart_count s)
    (error s) (started_at s) (finished_at s) h.

(** A change of [state->health], which must not be [NULL]. *)
Definition on_health {A} (f : defs_health → option (A * defs_health)) : HM A := λ c,
  match health (k_state c) with
  | None => None
  | Some h =>
    match f h with
    | Some (a, h) => Some (a, mk_hcont (with_health (Some h) (k_state c)) (k_manager c) (k_config c) (k_refs c) (k_stops c))
    | None => None
    end
  end.

(** A critical section on the manager, which must not be [NULL]. *)
Definition on_manager {A} (f : health_check_manager_t → A * health_check_manager_t) : HM A := λ c,
  match k_manager c with
  | None => None
  | Some m => let '(a, m) := f m in Some (a, mk_hcont (k_state c) (Some m) (k_config c) (k_refs c) (k_stops c))
  end.

Definition get_health_status : HM string :=
  on_health (λ h, Some (match h_status h with
                        | None => UNHEALTHY
                        | Some st => if String.eqb st "" then UNHEALTHY else st
                        end, h)).

Definition set_health_status (new : string) : HM unit :=
  on_health (λ h, Some (tt, mk_health (Some new) (h_failing_streak h) (h_log h))).

Definition init_monitor_idle_status (m : health_check_manager_t) : unit * health_check_manager_t :=
  (tt, mk_manager MONITOR_IDLE (monitor_exist m)).

Definition transfer_monitor_idle_status (m : health_check_manager_t) : Z * health_check_manager_t :=
  if decide (monitor_status m = MONITOR_STOP) then (-1, m) else (0, mk_manager MONITOR_IDLE (monitor_exist m)).

Definition set_monitor_stop_status (m : health_check_manager_t) : unit * health_check_manager_t :=
  (tt, mk_manager MONITOR_STOP (monitor_exist m)).

Definition transfer_monitor_interval_timeout_status (m : health_check_manager_t) : Z * health_check_manager_t :=
  if decide (monitor_status m = MONITOR_STOP) then (-1, m) else (0, mk_manager MONITOR_INTERVAL (monitor_exist m)).

Definition get_health_check_monitor_state (m : health_check_manager_t) : health_check_monitor_status_t * health_check_manager_t :=
  (monitor_status m, m).

Definition set_monitor_exist_flag (closed : bool) (m : health_check_manager_t) : unit * health_check_manager_t :=
  (tt, mk_manager (monitor_status m) closed).

Definition get_monitor_exist_flag (m : health_check_manager_t) : bool * health_check_manager_t := (monitor_exist m, m).

Definition health_check_manager_new (mem mutex : bool) : option health_check_manager_t :=
  if mem && mutex then Some (mk_manager MONITOR_IDLE false) else None.
End status.

(** ** The command and the output of a probe *)

(** [strncpy] of [n] bytes to the start of a buffer. *)
Definition strncpy (n : nat) (data dst : chars) : chars :=
  let src := take n (until_nul data) in
  src ++ replicate (n - length src) NUL ++ drop n dst.

(** [write_to_string], for the [len] bytes of [data]. *)
Definition write_to_string (data dst : chars) : chars :=
  if decide (data = []) then dst else
  if decide (REV_BUF_SIZE ≤ length data)%nat
  then take (REV_BUF_SIZE - 4) (strncpy (REV_BUF_SIZE - 4) data dst) ++ chars_of "..." ++ NUL :: drop REV_BUF_SIZE dst
  else strncpy (length data) data dst.

Definition get_shell (mem1 mem2 : bool) : option (option (list (option string))) :=
  '(ret, shell) ← util_array_append mem1 None (Some "/bin/sh"%string);
  if decide (ret ≠ 0) then Some None else
  '(ret, shell) ← util_array_append mem2 shell (Some "-c"%string);
  Some (if decide (ret ≠ 0) then None else shell).

Fixpoint write_cells (i : Z) (l : list (option string)) (cells : list (option string)) : option (list (option string)) :=
  match l with
  | [] => Some cells
  | v :: l => cells ← write_cell i v cells; write_cells (i + 1) l cells
  end.

Definition health_check_cmds (mem1 mem2 mem : bool) (test : list string) : option (option (list (option string))) :=
  shell ← get_shell mem1 mem2;
  match shell with
  | None => Some None
  | Some shell =>
    shell_len ← util_array_len (Some shell);
    let test_len := Z.of_nat (length test) in
    if two64 - 1 - shell_len <? test_len then Some None else
    if negb (util_smart_calloc_s mem PTR_SIZE (shell_len + test_len)) then Some None else
    cells ← write_cells 0 (take (Z.to_nat shell_len) shell) (null_cells (shell_len + test_len));
    cells ← write_cells shell_len (Some <$> tail test) cells;
    Some (Some cells)
  end.

(** ** The result of a probe *)
Section results.
Context (util_to_unix_nanos_from_str : option string → option Z).
Let HM := M hcont.

(** The rounds of [shift_and_store_log_result]: entry [i] is overwritten with
    entry [i + 1], the last one with the result. *)
Fixpoint shift_loop (rounds i : nat) (result : defs_health_log_element) (log : list defs_health_log_element) :
    option (list defs_health_log_element) :=
  match rounds with
  | O => Some log
  | S rounds =>
    _ ← log !! i;
    new ← (if decide (i ≠ MAX_LOG_ENTRIES - 1)%nat then log !! S i else Some result);
    shift_loop rounds (S i) result (<[i := new]> log)
  end.

Definition shift_and_store_log_result (result : defs_health_log_element) (h : defs_health) : option (Z * defs_health) :=
  log ← shift_loop MAX_LOG_ENTRIES 0 result (h_log h);
  Some (0, mk_health (h_status h) (h_failing_streak h) (take MAX_LOG_ENTRIES log)).

Definition append_last_log_result (mem_array mem_log : bool) (result : defs_health_log_element) (h : defs_health) : Z * defs_health :=
  let len := Z.of_nat (length (h_log h)) in
  if (two64 - 1) / PTR_SIZE - 1 <? len then (-1, h) else
  if negb (util_common_calloc_s mem_array ((len + 1) * PTR_SIZE)) then (-1, h) else
  if negb mem_log then (-1, h) else
  (0, mk_health (h_status h) (h_failing_streak h) (h_log h ++ [result])).

Definition append_health_log (mem_array mem_log : bool) (result : defs_health_log_element) : HM Z :=
  on_health (λ h,
    if decide (MAX_LOG_ENTRIES ≤ length (h_log h))%nat then
      '(ret, h) ← shift_and_store_log_result result h; Some (if decide (ret ≠ 0) then -1 else 0, h)
    else
      let '(ret, h) := append_last_log_result mem_array mem_log result h in Some (if decide (ret ≠ 0) then -1 else 0, h)).

(** [failing_streak] is an [int]. *)
Definition incr_streak : HM Z :=
  on_health (λ h, if decide (h_failing_streak h = INT_MAX) then None else
                  Some (h_failing_streak h + 1, mk_health (h_status h) (h_failing_streak h + 1) (h_log h))).

(** The configuration, which must not be [NULL]. *)
Definition the_config : HM health_config := λ c, match k_config c with Some cfg => Some (cfg, c) | None => None end.

(** [create] is the result of [pthread_create]. *)
Definition handle_increment_streak (create : Z) (retries : Z) : HM Z :=
  streak ← incr_streak;
  if decide (retries <= streak) then
    set_health_status UNHEALTHY;;
    cfg ← the_config;
    if hc_exit_on_unhealthy cfg then
      if decide (create ≠ 0) then mret (-1) else
      modify (λ c, mk_hcont (k_state c) (k_manager c) (k_config c) (k_refs c) (S (k_stops c)));; mret 0
    else mret 0
  else mret 0.

Definition handle_unhealthy_case (create : Z) (result : defs_health_log_element) (retries : Z) : HM Z :=
  status ← get_health_status;
  if String.eqb status HEALTH_STARTING then
    cfg ← the_config;
    c ← get;
    let start_period := if decide (hc_start_period cfg = 0) then DEFAULT_START_PERIOD else hc_start_period cfg in
    match util_to_unix_nanos_from_str (started_at (k_state c)), util_to_unix_nanos_from_str (hl_start result) with
    | Some first, Some last =>
      if decide (i64 (last - first) ≠ last - first) then fail else
      if decide (last - first < start_period) then mret 0 else handle_increment_streak create retries
    | _, _ => mret (-1)
    end
  else handle_increment_streak create retries.

(** The outcomes of the calls made for a result. *)
Record result_env := mk_result_env { rs_found : bool; rs_array : bool; rs_entry : bool; rs_create : Z }.

(** The counter of references; the containers store holds one of its own, so it
    does not reach zero here, and the release at zero is in [ContainersStore]. *)
Definition container_ref : HM unit := modify (λ c, mk_hcont (k_state c) (k_manager c) (k_config c) (u64 (k_refs c + 1)) (k_stops c)).
Definition container_unref : HM unit := modify (λ c, mk_hcont (k_state c) (k_manager c) (k_config c) (u64 (k_refs c - 1)) (k_stops c)).

Definition effective_retries (cfg : health_config) : Z := if decide (hc_retries cfg <= 0) then DEFAULT_PROBE_RETRIES else hc_retries cfg.

Definition handle_probe_result (e : result_env) (result : defs_health_log_element) : HM Z :=
  if negb (rs_found e) then mret (-1) else
  container_ref;;
  st ← on_manager get_health_check_monitor_state;
  ret ← (if decide (st = MONITOR_STOP) then mret 0 else
         cfg ← the_config;
         _ ← get_health_status;
         ret ← append_health_log (rs_array e) (rs_entry e) result;
         if decide (ret ≠ 0) then mret ret else
         ret ← (if decide (hl_exit_code result = EXIT_STATUS_HEALTHY) then
                  on_health (λ h, Some (tt, mk_health (h_status h) 0 (h_log h)));;
                  set_health_status HEALTHY;; mret 0
                else handle_unhealthy_case (rs_create e) result (effective_retries cfg));
         if decide (ret ≠ 0) then mret (-1) else
         _ ← get_health_status; mret 0);
  container_unref;;
  mret ret.
End results.

(** ** Running a probe *)
Section probes.
Context (util_to_unix_nanos_from_str : option string → option Z).
Let HM := M hcont.

(** The exit code and the output of a result. *)
Definition health_check_exec_failed_handle (errmsg : option string) : Z * option string :=
  (-1, Some (match errmsg with Some m => m | None => "Execution of exec failed"%string end)).

Definition health_check_exec_success_handle (exit_code : Z) (output : string) : Z * option string := (i32 exit_code, Some output).

(** The outcomes of the calls of [health_check_run]: [exec_container] returns
    [pe_ret] with an exit code and a message, and writes [pe_writes]. *)
Record probe_env := mk_probe_env {
  pe_found : bool; pe_shell1 : bool; pe_shell2 : bool; pe_cmds : bool; pe_req : bool; pe_res : bool; pe_mem : bool;
  pe_start : string; pe_end : string; pe_ret : Z; pe_exit_code : Z; pe_errmsg : option string; pe_writes : list chars;
  pe_result : result_env }.

Definition probe_timeout (cfg : health_config) : Z :=
  Z.quot (if decide (hc_timeout cfg = 0) then DEFAULT_PROBE_TIMEOUT else hc_timeout cfg) Time_Second.

Definition probe_output (writes : list chars) : chars := foldl (λ dst data, write_to_string data dst) (replicate REV_BUF_SIZE NUL) writes.

Definition probe_result (e : probe_env) : defs_health_log_element :=
  let '(code, output) := if decide (pe_ret e ≠ 0) then health_check_exec_failed_handle (pe_errmsg e)
                         else health_check_exec_success_handle (pe_exit_code e) (buf_str (probe_output (pe_writes e))) in
  mk_health_log (Some (pe_start e)) (Some (pe_end e)) code output.

(** The arguments and the timeout of the command that was run, if any. *)
Definition health_check_run (e : probe_env) : HM (option (list (option string) * Z)) :=
  if negb (pe_found e) then mret None else
  container_ref;;
  cfg ← the_config;
  r ← (match health_check_cmds (pe_shell1 e) (pe_shell2 e) (pe_cmds e) (hc_test cfg) with
       | None => fail
       | Some None => mret None
       | Some (Some cmd_slice) =>
         if negb (pe_req e && pe_res e) then mret None else
         match util_array_len (Some cmd_slice) with
         | None => fail
         | Some argv_len =>
           if negb (pe_mem e) then mret None else
           _ ← handle_probe_result util_to_unix_nanos_from_str (pe_result e) (probe_result e);
           mret (Some (take (Z.to_nat argv_len) cmd_slice, probe_timeout cfg))
         end
       end);
  container_unref;;
  mret r.

Definition get_probe : HM health_probe_t := λ c,
  Some (match k_config c with
        | None => HEALTH_NONE
        | Some cfg =>
          match hc_test cfg with
          | [] => HEALTH_NONE
          | t :: _ => if String.eqb t "CMD" then CMD else if String.eqb t "CMD-SHELL" then CMD_SHELL else HEALTH_NONE
          end
        end, c).

Definition valid_container_status_for_health_check (found : bool) : HM bool :=
  if negb found then mret false else
  container_ref;;
  c ← get;
  let s := k_state c in
  let bret := container_is_running s && negb (container_is_paused s) && negb (container_is_restarting s) in
  container_unref;;
  mret bret.

(** [util_get_time_interval]: the result code and the interval; [None] is an
    overflow of [int64_t]. *)
Definition util_get_time_interval (first last : types_timestamp) : option (Z * Z) :=
  let sec t := if has_seconds t then seconds t else 0 in
  let nan t := if has_nanos t then nanos t else 0 in
  let seconds_diff := sec last - sec first in
  let nanos_diff := nan last - nan first in
  if decide (i64 seconds_diff ≠ seconds_diff ∨ i32 nanos_diff ≠ nanos_diff) then None else
  let max := 9223372036854775807 in
  if (Z.quot max Time_Second <? seconds_diff) || (seconds_diff =? Z.quot max Time_Second) && (Z.rem max Time_Second <? nanos_diff)
  then Some (-1, 0) else
  let result := seconds_diff * Time_Second + nanos_diff in
  if decide (i64 (seconds_diff * Time_Second) ≠ seconds_diff * Time_Second ∨ i64 result ≠ result) then None else Some (0, result).
End probes.

(** ** The threads *)
Section threads.
Context (util_to_unix_nanos_from_str : option string → option Z).
Let HM := M hcont.

(** Where a monitor thread is: before its first step, at the head of the loop,
    about to probe, after the probe, after it read that it is idle, when the
    interval is over, and at its end before and after the status is set.  It
    keeps the time of the last probe. *)
Inductive monitor :=
  | MNew | MTop (start : types_timestamp) | MProbe (start : types_timestamp) | MRan | MWait (start : types_timestamp)
  | MDue (start : types_timestamp) | MOut | MLeave.

(** The outcomes of the calls of a step of the thread. *)
Record monitor_env := mk_monitor_env { me_found : bool; me_clock : option types_timestamp; me_probe : probe_env }.

Definition probe_interval (cfg : health_config) : Z :=
  if decide (hc_interval cfg = 0) then DEFAULT_PROBE_INTERVAL else hc_interval cfg.

(** [do_monitor_interval] up to the end of the probe, and its rest. *)
Definition do_monitor_interval (e : monitor_env) : HM monitor :=
  ok ← valid_container_status_for_health_check (me_found e);
  if negb ok then mret MOut else
  _ ← health_check_run util_to_unix_nanos_from_str (me_probe e);
  mret MRan.

Definition do_monitor_interval_end (e : monitor_env) : HM monitor :=
  ret ← on_manager transfer_monitor_idle_status;
  mret (if decide (ret ≠ 0) then MOut else match me_clock e with None => MOut | Some now => MTop now end).

(** [do_monitor_default] up to the test of the interval, and its rest. *)
Definition do_monitor_default (e : monitor_env) (start : types_timestamp) : HM monitor :=
  ok ← valid_container_status_for_health_check (me_found e);
  if negb ok then mret MOut else
  match me_clock e with
  | None => mret MOut
  | Some now =>
    match util_get_time_interval start now with
    | None => fail
    | Some (ret, interval) =>
      if decide (ret ≠ 0) then mret MOut else
      cfg ← the_config;
      mret (if decide (probe_interval cfg <= interval) then MDue start else MTop start)
    end
  end.

Definition do_monitor_default_end (start : types_timestamp) : HM monitor :=
  ret ← on_manager transfer_monitor_interval_timeout_status;
  mret (if decide (ret ≠ 0) then MOut else MTop start).

(** One step of [health_check_monitor]; [None] when the thread ends. *)
Definition health_check_monitor (e : monitor_env) (pc : monitor) : HM (option monitor) :=
  match pc with
  | MNew =>
    if negb (me_found e) then mret None else
    container_ref;;
    on_manager (set_monitor_exist_flag true);;
    mret (Some (match me_clock e with None => MOut | Some now => MTop now end))
  | MTop start =>
    st ← on_manager get_health_check_monitor_state;
    mret (Some (match st with MONITOR_STOP => MOut | MONITOR_INTERVAL => MProbe start | MONITOR_IDLE => MWait start end))
  | MProbe start => m ← do_monitor_interval e; mret (Some m)
  | MRan => m ← do_monitor_interval_end e; mret (Some m)
  | MWait start => m ← do_monitor_default e start; mret (Some m)
  | MDue start => m ← do_monitor_default_end start; mret (Some m)
  | MOut => set_health_status UNHEALTHY;; mret (Some MLeave)
  | MLeave => on_manager (set_monitor_exist_flag false);; container_unref;; mret None
  end.

(** Where the thread is that starts or stops the monitor: it holds the lock of the
    container, so there is one, and a reference from beginning to end, which is
    left out.  [true] when a monitor is to be started. *)
Inductive control := CIdle | CClose (start : bool) | CPoll (start : bool) | CFresh | CCreate.

Definition container_stop_health_checks : HM control := λ c,
  Some (match health (k_state c), k_manager c with Some _, Some _ => CClose false | _, _ => CIdle end, c).

Definition container_update_health_monitor (found : bool) : HM control :=
  if negb found then mret CIdle else
  c ← get;
  match health (k_state c) with
  | None => mret CIdle
  | Some _ =>
    probe ← get_probe;
    let want_running := container_is_running (k_state c) && negb (container_is_paused (k_state c)) && bool_decide (probe ≠ HEALTH_NONE) in
    match k_manager c with
    | None => if want_running then fail else mret CIdle
    | Some _ => mret (CClose want_running)
    end
  end.

(** The manager, made on first use; [false] when it cannot be. *)
Definition ensure_manager (mem mutex : bool) : HM bool := λ c,
  match k_manager c with
  | Some _ => Some (true, c)
  | None =>
    match health_check_manager_new mem mutex with
    | None => Some (false, c)
    | Some m => Some (true, mk_hcont (k_state c) (Some m) (k_config c) (k_refs c) (k_stops c))
    end
  end.

(** The health of a container that was started; [false] when it cannot be made. *)
Definition reset_health (mem : bool) : HM bool :=
  c ← get;
  match health (k_state c) with
  | Some _ =>
    set_health_status HEALTH_STARTING;;
    on_health (λ h, Some (tt, mk_health (h_status h) 0 (h_log h)));; mret true
  | None =>
    if negb mem then mret false else
    modify (λ c, mk_hcont (with_health (Some (mk_health None 0 [])) (k_state c)) (k_manager c) (k_config c) (k_refs c) (k_stops c));;
    set_health_status HEALTH_STARTING;; mret true
  end.

Definition container_init_health_monitor (found mem mutex mem_health : bool) : HM control :=
  if negb found then mret CIdle else
  c ← get;
  match k_config c with
  | None => mret CIdle
  | Some _ =>
    ok ← ensure_manager mem mutex;
    if negb ok then mret CIdle else
    probe ← get_probe;
    if decide (probe = HEALTH_NONE) then mret CIdle else
    ok ← reset_health mem_health;
    if negb ok then mret CIdle else container_update_health_monitor found
  end.

(** [close_health_check_monitor], a step at a time, and what
    [container_update_health_monitor] does after it; the second result is whether
    a monitor thread was created. *)
Definition control_step (create : Z) (pc : control) : HM (control * bool) :=
  match pc with
  | CIdle => fail
  | CClose w => on_manager set_monitor_stop_status;; mret (CPoll w, false)
  | CPoll w =>
    exist ← on_manager get_monitor_exist_flag;
    if (exist : bool) then mret (CPoll w, false)
    else if (w : bool) then mret (CFresh, false) else mret (CIdle, false)
  | CFresh => on_manager init_monitor_idle_status;; mret (CCreate, false)
  | CCreate => mret (CIdle, bool_decide (create = 0))
  end.

(** The container with its threads. *)
Record hsystem := mk_hsystem { hs_cont : hcont; hs_control : control; hs_monitors : list monitor }.

(** [prompt] says that a monitor thread has begun before the control thread ends
    its wait for it. *)
Inductive hstep (prompt : bool) : hsystem → hsystem → Prop :=
  | hs_init c ms found mem mutex mem_health pc c' :
      container_init_health_monitor found mem mutex mem_health c = Some (pc, c') →
      hstep prompt (mk_hsystem c CIdle ms) (mk_hsystem c' pc ms)
  | hs_update c ms found pc c' :
      container_update_health_monitor found c = Some (pc, c') → hstep prompt (mk_hsystem c CIdle ms) (mk_hsystem c' pc ms)
  | hs_stop c ms pc c' :
      container_stop_health_checks c = Some (pc, c') → hstep prompt (mk_hsystem c CIdle ms) (mk_hsystem c' pc ms)
  | hs_ctl c pc ms create pc' spawn c' :
      control_step create pc c = Some ((pc', spawn), c') → (prompt = true → ∀ w, pc = CPoll w → MNew ∉ ms) →
      hstep prompt (mk_hsystem c pc ms) (mk_hsystem c' pc' (if (spawn : bool) then ms ++ [MNew] else ms))
  | hs_monitor c pc ms i m e r c' :
      ms !! i = Some m → health_check_monitor e m c = Some (r, c') →
      hstep prompt (mk_hsystem c pc ms)
        (mk_hsystem c' pc (match r with Some m => <[i := m]> ms | None => delete i ms end))
  | hs_other c pc ms s :
      health s = health (k_state c) →
      hstep prompt (mk_hsystem c pc ms) (mk_hsystem (mk_hcont s (k_manager c) (k_config c) (k_refs c) (k_stops c)) pc ms).
End threads.

(** ** Results of probes *)
Definition last_entries {A} (n : nat) (l : list A) : list A := drop (length l - n) l.

Lemma shift_ok log r :
  length log = MAX_LOG_ENTRIES → shift_loop MAX_LOG_ENTRIES 0 r log = Some (tail log ++ [r]).
Proof. destruct log as [|a [|b [|c [|d [|e [|]]]]]]; try done. Qed.

Lemma append_log_ok r c h :
  health (k_state c) = Some h → (length (h_log h) ≤ MAX_LOG_ENTRIES)%nat →
  append_health_log true true r c =
  Some (0, mk_hcont (with_health (Some (mk_health (h_status h) (h_failing_streak h) (last_entries MAX_LOG_ENTRIES (h_log h ++ [r])))) (k_state c))
             (k_manager c) (k_config c) (k_refs c) (k_stops c)).
Proof.
  intros Hh Hl. unfold append_health_log, on_health. rewrite Hh. unfold last_entries. rewrite length_app. cbn [length].
  case_decide as E.
  - unfold shift_and_store_log_result. rewrite shift_ok by lia. cbn. rewrite decide_False by (intros Hz; by apply Hz). f_equal. f_equal. f_equal.
    assert (length (h_log h) = MAX_LOG_ENTRIES) as Hn by lia. rewrite Hn. cbn [Nat.add MAX_LOG_ENTRIES Nat.sub].
    destruct (h_log h) as [|x l]; [done|]. cbn [tail app drop]. rewrite drop_0, take_ge; [done|]. rewrite length_app. unfold MAX_LOG_ENTRIES in *. simpl in *. lia.
  - unfold append_last_log_result. cbn [negb]. unfold MAX_LOG_ENTRIES in *.
    rewrite (proj2 (Z.ltb_ge _ _)) by (change ((two64 - 1) / PTR_SIZE - 1) with 2305843009213693950; lia).
    assert (util_common_calloc_s true ((Z.of_nat (length (h_log h)) + 1) * PTR_SIZE) = true) as ->.
    { unfold util_common_calloc_s, PTR_SIZE, MAX_MEMORY_SIZE.
      destruct (Z.eqb_spec ((Z.of_nat (length (h_log h)) + 1) * 8) 0); [lia|]. cbn [orb].
      destruct (Z.ltb_spec 140737488355328 ((Z.of_nat (length (h_log h)) + 1) * 8)); [lia|done]. }
    cbn. rewrite decide_False by (intros Hz; by apply Hz). replace (length (h_log h) + 1 - 5)%nat with 0%nat by lia. by rewrite drop_0.
Qed.

Definition success (r : defs_health_log_element) : bool := bool_decide (hl_exit_code r = EXIT_STATUS_HEALTHY).

(** The health after one more result; [grace] says that a failure is not counted. *)
Definition health_after (retries : Z) (grace : bool) (h : defs_health) (r : defs_health_log_element) : defs_health :=
  let log := last_entries MAX_LOG_ENTRIES (h_log h ++ [r]) in
  if success r then mk_health (Some HEALTHY) 0 log else
  if grace then mk_health (h_status h) (h_failing_streak h) log else
  mk_health (if decide (retries <= h_failing_streak h + 1) then Some UNHEALTHY else h_status h) (h_failing_streak h + 1) log.

(** The threads started to stop the container after it. *)
Definition stops_after (cfg : health_config) (grace : bool) (h : defs_health) (r : defs_health_log_element) (k : nat) : nat :=
  if negb (success r) && negb grace && bool_decide (effective_retries cfg <= h_failing_streak h + 1) && hc_exit_on_unhealthy cfg then S k else k.

Definition grace_period (cfg : health_config) : Z := if decide (hc_start_period cfg = 0) then DEFAULT_START_PERIOD else hc_start_period cfg.

Section history.
Context (nanos_of : option string → option Z).

(** Whether a failure is not counted: the container has just been started. *)
Definition in_grace (c : hcont) (cfg : health_config) (h : defs_health) (r : defs_health_log_element) (grace : bool) : Prop :=
  if decide (h_status h = Some HEALTH_STARTING)
  then ∃ first last, nanos_of (started_at (k_state c)) = Some first ∧ nanos_of (hl_start r) = Some last ∧
         i64 (last - first) = last - first ∧ grace = bool_decide (last - first < grace_period cfg)
  else grace = false.

(** A container under health checks. *)
Record checked (c : hcont) (cfg : health_config) (h : defs_health) : Prop := {
  ck_health : health (k_state c) = Some h;
  ck_config : k_config c = Some cfg;
  ck_manager : ∃ m, k_manager c = Some m ∧ monitor_status m ≠ MONITOR_STOP;
  ck_status : ∃ st, h_status h = Some st ∧ st ≠ ""%string;
  ck_log : (length (h_log h) ≤ MAX_LOG_ENTRIES)%nat;
  ck_refs : 0 <= k_refs c < two64;
  ck_streak : 0 <= h_failing_streak h
}.

Definition result_cont (c : hcont) (cfg : health_config) (grace : bool) (h : defs_health) (r : defs_health_log_element) : hcont :=
  mk_hcont (with_health (Some (health_after (effective_retries cfg) grace h r)) (k_state c)) (k_manager c) (k_config c) (k_refs c)
    (stops_after cfg grace h r (k_stops c)).

Lemma unref_ref z : 0 <= z < two64 → u64 (u64 (z + 1) - 1) = z.
Proof.
  intros Hz. unfold u64. rewrite Zminus_mod_idemp_l. replace (z + 1 - 1) with z by lia. by apply Z.mod_small.
Qed.

Lemma increment_ok c cfg h k :
  health (k_state c) = Some h → k_config c = Some cfg → h_failing_streak h < INT_MAX →
  handle_increment_streak 0 k c =
  Some (0, mk_hcont (with_health (Some (mk_health (if decide (k <= h_failing_streak h + 1) then Some UNHEALTHY else h_status h)
                                          (h_failing_streak h + 1) (h_log h))) (k_state c)) (k_manager c) (k_config c) (k_refs c)
             (if bool_decide (k <= h_failing_streak h + 1) && hc_exit_on_unhealthy cfg then S (k_stops c) else k_stops c)).
Proof.
  intros Hh Hc Hs. unfold handle_increment_streak, incr_streak, set_health_status, on_health, the_config, mbind, M_bind. rewrite Hh.
  rewrite decide_False by lia. cbn. case_decide as Ek.
  - cbn. rewrite Hc, bool_decide_true by done. by destruct (hc_exit_on_unhealthy cfg).
  - cbn. by rewrite bool_decide_false by done.
Qed.

Lemma unhealthy_ok c cfg h r grace :
  checked c cfg h → h_failing_streak h < INT_MAX → in_grace c cfg h r grace →
  handle_unhealthy_case nanos_of 0 r (effective_retries cfg) c =
  if grace then Some (0, c) else handle_increment_streak 0 (effective_retries cfg) c.
Proof.
  intros [Hh Hc _ (st & Hst & Hne) _ _ _] Hs Hg. unfold handle_unhealthy_case, get_health_status, on_health, mbind, M_bind.
  rewrite Hh, Hst. rewrite (proj2 (String.eqb_neq _ _) Hne). unfold in_grace in Hg.
  assert (Hid : mk_hcont (with_health (Some h) (k_state c)) (k_manager c) (k_config c) (k_refs c) (k_stops c) = c).
  { rewrite <- Hh. destruct c as [[] ? ? ? ?]. done. }
  rewrite Hid. destruct (String.eqb_spec st HEALTH_STARTING) as [->|Hns].
  - rewrite decide_True in Hg by done. destruct Hg as (first & last & E1 & E2 & E3 & ->).
    unfold the_config, get. rewrite Hc, E1, E2, decide_False by (intros Hz; by apply Hz). fold (grace_period cfg).
    case_decide; [by rewrite bool_decide_true|by rewrite bool_decide_false].
  - rewrite decide_False in Hg by congruence. by subst.
Qed.

Lemma result_ok c cfg h r grace :
  checked c cfg h → h_failing_streak h < INT_MAX → in_grace c cfg h r grace →
  handle_probe_result nanos_of (mk_result_env true true true 0) r c = Some (0, result_cont c cfg grace h r).
Proof.
  intros Hck Hs Hg. pose proof Hck as [Hh Hc (m & Hm & Hms) (st & Hst & Hne) Hl Hr Hn].
  unfold handle_probe_result, on_manager, mbind, M_bind. cbn [negb rs_found rs_array rs_entry rs_create].
  unfold container_ref at 1, modify at 1. cbn beta iota. cbn [k_manager]. rewrite Hm. cbn [get_health_check_monitor_state].
  rewrite decide_False by done. unfold the_config. cbn [k_state k_manager k_config k_refs k_stops]. rewrite Hc.
  set (c1 := mk_hcont (k_state c) (Some m) (Some cfg) (u64 (k_refs c + 1)) (k_stops c)).
  assert (Hget : ∀ c' h', health (k_state c') = Some h' → ∃ x, get_health_status c' = Some (x, c')).
  { intros c' h' Hh'. unfold get_health_status, on_health. rewrite Hh'. eexists. f_equal. f_equal.
    rewrite <- Hh'. destruct c' as [[] ? ? ? ?]. done. }
  destruct (Hget c1 h Hh) as [x1 ->]. rewrite (append_log_ok r c1 h Hh Hl). rewrite decide_False by (intros Hz; by apply Hz).
  set (h2 := mk_health (h_status h) (h_failing_streak h) (last_entries MAX_LOG_ENTRIES (h_log h ++ [r]))).
  set (c2 := mk_hcont (with_health (Some h2) (k_state c1)) (k_manager c1) (k_config c1) (k_refs c1) (k_stops c1)).
  unfold result_cont, health_after, stops_after, success. case_decide as Ex.
  - rewrite bool_decide_true by done. cbn -[u64]. rewrite decide_False by (intros Hz; by apply Hz). cbn -[u64].
    rewrite unref_ref, Hm, Hc by done. done.
  - rewrite bool_decide_false by done. cbn [negb andb].
    assert (Hck2 : checked c2 cfg h2).
    { split; cbn; try done; [by exists m|by exists st|unfold last_entries; rewrite length_drop; lia|].
      unfold u64. apply Z.mod_pos_bound. done. }
    rewrite (unhealthy_ok c2 cfg h2 r grace Hck2 Hs) by done. destruct grace; cbn [negb andb].
    + rewrite decide_False by (intros Hz; by apply Hz). destruct (Hget c2 h2 eq_refl) as [x2 ->].
      unfold container_unref, modify. cbn -[u64]. rewrite unref_ref by done. by rewrite Hm, Hc.
    + rewrite (increment_ok c2 cfg h2 _ eq_refl eq_refl Hs). rewrite decide_False by (intros Hz; by apply Hz).
      match goal with |- context [get_health_status ?c'] => destruct (Hget c' _ eq_refl) as [x2 ->] end.
      unfold container_unref, modify. cbn -[u64]. rewrite unref_ref by done. by rewrite Hm, Hc.
Qed.

(** *** A history of results *)
Fixpoint probe_all (hist : list defs_health_log_element) : M hcont (list Z) :=
  match hist with
  | [] => mret []
  | r :: hist => z ← handle_probe_result nanos_of (mk_result_env true true true 0) r; zs ← probe_all hist; mret (z :: zs)
  end.

(** The failures since the last success, and the health that follows from them. *)
Definition streak (hist : list defs_health_log_element) : Z := foldl (λ n r, if success r then 0 else n + 1) 0 hist.
Definition status_after (retries : Z) (hist : list defs_health_log_element) : string :=
  if decide (retries <= streak hist) then UNHEALTHY else if existsb success hist then HEALTHY else HEALTH_STARTING.

(** How often a result leaves the container unhealthy. *)
Definition unhealthy_results (retries : Z) (hist : list defs_health_log_element) : nat :=
  length (filter (λ i, retries <= streak (take (S i) hist)) (seq 0 (length hist))).

Lemma probe_all_snoc hist r c zs c' z c'' :
  probe_all hist c = Some (zs, c') → handle_probe_result nanos_of (mk_result_env true true true 0) r c' = Some (z, c'') →
  probe_all (hist ++ [r]) c = Some (zs ++ [z], c'').
Proof.
  revert c zs. induction hist as [|x hist IH]; intros c zs Hp Hz; simpl in *; unfold mbind, M_bind in *.
  - injection Hp as <- <-. by rewrite Hz.
  - destruct (handle_probe_result _ _ x c) as [[y c1]|]; [|done]. destruct (probe_all hist c1) as [[ys c2]|] eqn:E; [|done].
    injection Hp as <- <-. by rewrite (IH c1 ys E Hz).
Qed.

Lemma last_entries_snoc {A} n (l : list A) r : (0 < n)%nat → last_entries n (last_entries n l ++ [r]) = last_entries n (l ++ [r]).
Proof.
  intros Hn. unfold last_entries. rewrite !length_app, length_drop. cbn [length].
  destruct (decide (length l ≤ n)%nat).
  - replace (length l - n)%nat with 0%nat by lia. by rewrite drop_0, Nat.sub_0_r.
  - replace (length l - (length l - n) + 1 - n)%nat with 1%nat by lia.
    rewrite <- drop_app_le by lia. rewrite drop_drop. f_equal. lia.
Qed.

Lemma streak_snoc hist r : streak (hist ++ [r]) = if success r then 0 else streak hist + 1.
Proof. unfold streak. by rewrite foldl_snoc. Qed.

Lemma streak_nonneg hist : 0 <= streak hist <= Z.of_nat (length hist).
Proof.
  induction hist as [|r hist IH] using rev_ind; [done|]. rewrite streak_snoc, length_app. cbn [length]. case_match; lia.
Qed.

Lemma filter_count_ext {A} (P Q : A → Prop) `{∀ x, Decision (P x), ∀ x, Decision (Q x)} l :
  (∀ x, x ∈ l → P x ↔ Q x) → length (filter P l) = length (filter Q l).
Proof.
  induction l as [|x l IH]; intros Hl; [done|]. pose proof (Hl x ltac:(left)) as Hx. rewrite !filter_cons.
  specialize (IH ltac:(intros y Hy; apply Hl; by right)). repeat case_decide; cbn; tauto || lia.
Qed.

Lemma unhealthy_results_snoc k hist r :
  unhealthy_results k (hist ++ [r]) = if decide (k <= streak (hist ++ [r])) then S (unhealthy_results k hist) else unhealthy_results k hist.
Proof.
  unfold unhealthy_results. rewrite length_app, Nat.add_1_r, seq_S, list.filter_app, length_app.
  rewrite (filter_count_ext _ (λ i, k <= streak (take (S i) hist)) (seq 0 (length hist))).
  2: { intros i Hi%elem_of_seq. by rewrite take_app_le by lia. }
  assert (E : take (S (0 + length hist)) (hist ++ [r]) = hist ++ [r]) by (apply take_ge; rewrite length_app; cbn; lia).
  case_decide as Ek; [rewrite filter_cons_True by (by rewrite E)|rewrite filter_cons_False by (by rewrite E)]; cbn; lia.
Qed.

Section run.
Context (c : hcont) (cfg : health_config) (first : Z).
Hypothesis Hfirst : nanos_of (started_at (k_state c)) = Some first.

(** The time since the start of the container, known for the results. *)
Definition elapsed (r : defs_health_log_element) : Z :=
  match nanos_of (hl_start r) with Some last => last - first | None => 0 end.
Definition timed (r : defs_health_log_element) : Prop := is_Some (nanos_of (hl_start r)) ∧ i64 (elapsed r) = elapsed r.
Definition early (r : defs_health_log_element) : Prop := elapsed r < grace_period cfg.

(** The health after the results [g] and [h], those of [g] not counted. *)
Definition history_health (g h : list defs_health_log_element) : defs_health :=
  mk_health (Some (status_after (effective_retries cfg) h)) (streak h) (last_entries MAX_LOG_ENTRIES (g ++ h)).
Definition history_cont (g h : list defs_health_log_element) : hcont :=
  mk_hcont (with_health (Some (history_health g h)) (k_state c)) (k_manager c) (k_config c) (k_refs c)
    (k_stops c + if hc_exit_on_unhealthy cfg then unhealthy_results (effective_retries cfg) h else 0).

Lemma retries_pos : 1 <= effective_retries cfg.
Proof. unfold effective_retries, DEFAULT_PROBE_RETRIES. case_decide; lia. Qed.

Lemma history_checked h0 g h : checked c cfg h0 → checked (history_cont g h) cfg (history_health g h).
Proof.
  intros [Hh Hc Hm _ _ Hr _]. split; cbn; try done.
  - eexists. split; [done|]. unfold status_after. by repeat case_match.
  - unfold last_entries. rewrite length_drop. lia.
  - apply streak_nonneg.
Qed.

Lemma history_grace g h r :
  timed r → in_grace (history_cont g h) cfg (history_health g h) r
              (bool_decide (status_after (effective_retries cfg) h = HEALTH_STARTING ∧ early r)).
Proof.
  intros [[last Hl] Ht]. unfold in_grace, early in *. cbn. unfold elapsed in *. rewrite Hl in *. case_decide as Es.
  - injection Es as Es. exists first, last. split_and!; [done|done|done|]. apply bool_decide_ext. naive_solver.
  - rewrite bool_decide_false; [done|]. intros [E _]. by rewrite E in Es.
Qed.

Lemma history_early g r : success r = false → result_cont (history_cont g []) cfg true (history_health g []) r = history_cont (g ++ [r]) [].
Proof.
  intros Hs. unfold result_cont, health_after, stops_after. rewrite Hs. cbn [negb andb]. unfold history_cont, history_health.
  cbn [h_log h_status h_failing_streak k_state k_manager k_config k_refs k_stops].
  by rewrite last_entries_snoc, !app_nil_r by (unfold MAX_LOG_ENTRIES; lia).
Qed.

Lemma history_counts g h r grace :
  success r = true ∨ grace = false → result_cont (history_cont g h) cfg grace (history_health g h) r = history_cont g (h ++ [r]).
Proof.
  intros Hg. pose proof retries_pos. unfold result_cont, health_after, stops_after, history_cont, history_health.
  rewrite app_assoc, <- (last_entries_snoc _ (g ++ h)) by (unfold MAX_LOG_ENTRIES; lia). cbn [h_log h_status h_failing_streak].
  unfold status_after. rewrite streak_snoc, existsb_app, unhealthy_results_snoc, streak_snoc. cbn [existsb]. rewrite orb_false_r.
  destruct (success r); cbn [negb andb].
  - rewrite orb_true_r, !(decide_False (P:=effective_retries cfg <= 0)) by lia. done.
  - destruct Hg as [?| ->]; [done|]. rewrite orb_false_r. cbn [negb andb].
    destruct (decide (effective_retries cfg <= streak h + 1)) as [Ek|Ek].
    + rewrite bool_decide_true by done. cbn. f_equal. destruct (hc_exit_on_unhealthy cfg); lia.
    + rewrite bool_decide_false by done. by rewrite decide_False by lia.
Qed.

Hypothesis Hck : checked c cfg (mk_health (Some HEALTH_STARTING) 0 []).

Lemma history_nil : history_cont [] [] = c.
Proof.
  unfold history_cont, history_health, status_after. cbn. rewrite decide_False by (pose proof retries_pos; lia).
  destruct Hck as [Hh _ _ _ _ _ _].
  destruct c as [[] ? ? ? ?]. cbn in *. subst. by destruct (hc_exit_on_unhealthy cfg); rewrite Nat.add_0_r.
Qed.

Lemma probe_early g :
  Forall timed g → Forall (λ r, success r = false ∧ early r) g → probe_all g c = Some (replicate (length g) 0, history_cont g []).
Proof.
  induction g as [|r g IH] using rev_ind; intros Ht Hf; [by rewrite history_nil|].
  apply Forall_app in Ht as [Ht Hr], Hf as [Hf Hs]. apply list.Forall_cons in Hr as [Hr _]. apply list.Forall_cons in Hs as [[Hs He] _].
  rewrite length_app, replicate_add. eapply probe_all_snoc; [by apply IH|]. rewrite <- history_early by done.
  pose proof (history_grace g [] r Hr) as Hg. unfold status_after in Hg. rewrite decide_False in Hg by (cbn; pose proof retries_pos; lia).
  cbn in Hg. rewrite bool_decide_true in Hg by done. apply result_ok; [by eapply history_checked|done|done].
Qed.

(** The first counted result is a success, or no result is early. *)
Definition counted (h : list defs_health_log_element) : Prop :=
  (∃ r rest, h = r :: rest ∧ success r = true) ∨ Forall (λ r, ¬ early r) h.

Lemma probe_counted g h :
  Forall timed (g ++ h) → Forall (λ r, success r = false ∧ early r) g → counted h → Z.of_nat (length h) <= INT_MAX →
  probe_all (g ++ h) c = Some (replicate (length (g ++ h)) 0, history_cont g h).
Proof.
  induction h as [|r h IH] using rev_ind; intros Ht Hf Hc Hl.
  { rewrite app_nil_r in *. by apply probe_early. }
  rewrite app_assoc in *. rewrite length_app in Hl |- *. cbn in Hl. rewrite replicate_add. apply Forall_app in Ht as [Ht Hr]. apply list.Forall_cons in Hr as [Hr _].
  assert (Hc' : counted h).
  { destruct Hc as [(x & rest & E & Hx)|Hn]; [|apply Forall_app in Hn as [Hn _]; by right].
    destruct h as [|y h]; [right; constructor|]. injection E as <- _. left. eauto. }
  eapply probe_all_snoc; [apply IH; [done|done|done|lia]|].
  assert (Hcase : success r = true ∨ bool_decide (status_after (effective_retries cfg) h = HEALTH_STARTING ∧ early r) = false).
  { destruct (success r) eqn:Es; [by left|right]. apply bool_decide_false. intros [Hst He]. destruct Hc as [(x & rest & E & Hx)|Hn].
    - destruct h as [|y h]; injection E as -> _; [congruence|]. unfold status_after in Hst. cbn [existsb] in Hst. rewrite Hx in Hst.
      by case_decide.
    - apply Forall_app in Hn as [_ Hn]. by apply list.Forall_cons in Hn as [Hn _]. }
  rewrite (result_ok _ cfg _ r _ (history_checked _ g h Hck) ltac:(cbn; pose proof (streak_nonneg h); lia) (history_grace g h r Hr)).
  by rewrite history_counts.
Qed.
End run.
End history.

(** ** The command and the output *)
Lemma write_cells_ok (l : list string) : ∀ pre rest,
  (length l ≤ length rest)%nat → write_cells (Z.of_nat (length pre)) (Some <$> l) (pre ++ rest) = Some (pre ++ (Some <$> l) ++ drop (length l) rest).
Proof.
  induction l as [|v l IH]; intros pre rest Hl; [done|]. destruct rest as [|x rest]; [simpl in Hl; lia|].
  rewrite fmap_cons. cbn [write_cells]. rewrite write_cell_app. cbn [mbind option_bind]. simpl in Hl.
  replace (Z.of_nat (length pre) + 1) with (Z.of_nat (length (pre ++ [Some v]))) by (rewrite length_app; simpl; lia).
  replace (pre ++ Some v :: rest) with ((pre ++ [Some v]) ++ rest) by (by rewrite <- app_assoc). rewrite IH by lia. by rewrite <- app_assoc.
Qed.

(** The command of a probe, [None] for want of memory: the shell and the test
    without its first word, with a final [NULL]. *)
Definition shell_command (test : list string) : list string := "/bin/sh"%string :: "-c"%string :: tail test.

Lemma get_shell_ok mem1 mem2 :
  get_shell mem1 mem2 = Some (if mem1 && mem2 then Some ((Some <$> ["/bin/sh"; "-c"]%string) ++ [None]) else None).
Proof. by destruct mem1, mem2. Qed.

Lemma health_check_cmds_ok mem1 mem2 mem test :
  test ≠ [] →
  health_check_cmds mem1 mem2 mem test = Some (if mem1 && mem2 && mem && bool_decide (Z.of_nat (length test) + 2 <= max_items)
    then Some ((Some <$> shell_command test) ++ [None]) else None).
Proof.
  intros Ht. unfold health_check_cmds. rewrite get_shell_ok. destruct (mem1 && mem2); [|done]. cbn [mbind option_bind andb].
  change (util_array_len (Some ((Some <$> ["/bin/sh"; "-c"]%string) ++ [None]))) with (Some 2). cbn [mbind option_bind].
  unfold util_smart_calloc_s. change (MAX_MEMORY_SIZE / PTR_SIZE) with max_items. change (PTR_SIZE =? 0) with false. cbn iota.
  rewrite (Z.add_comm 2). rewrite max_items_eq. case_bool_decide as Hl.
  2: { rewrite andb_false_r. destruct (Z.ltb_spec (two64 - 1 - 2) (Z.of_nat (length test))); [done|].
       by rewrite (proj2 (Z.ltb_lt _ _)) by lia. }
  rewrite (proj2 (Z.ltb_ge _ _)) by (unfold two64; lia). rewrite (proj2 (Z.ltb_ge _ _)) by lia.
  destruct mem; [|done]. cbn [negb andb]. destruct test as [|t test]; [done|]. unfold null_cells.
  replace (Z.to_nat (Z.of_nat (length (t :: test)) + 2)) with (2 + S (length test))%nat by (simpl; lia).
  pose proof (write_cells_ok ["/bin/sh"; "-c"]%string [] (replicate (2 + S (length test)) None) ltac:(simpl; lia)) as Hs.
  cbn [app length] in Hs. change (Z.of_nat 0) with 0 in Hs.
  change (take (Z.to_nat 2) ((Some <$> ["/bin/sh"; "-c"]%string) ++ [None])) with (Some <$> ["/bin/sh"; "-c"]%string). rewrite Hs.
  pose proof (write_cells_ok test (Some <$> ["/bin/sh"; "-c"]%string) (replicate (S (length test)) None)) as Hw.
  rewrite length_replicate in Hw. specialize (Hw ltac:(lia)). rewrite drop_replicate in Hw.
  replace (S (length test) - length test)%nat with 1%nat in Hw by lia. cbn in Hw |- *. change (Z.of_nat 2) with 2 in Hw. by rewrite Hw.
Qed.

(** The buffer of a probe always ends with a NUL byte. *)
Lemma write_to_string_ok data dst :
  length dst = REV_BUF_SIZE → list.last dst = Some NUL →
  length (write_to_string data dst) = REV_BUF_SIZE ∧ list.last (write_to_string data dst) = Some NUL.
Proof.
  intros Hl Hn. assert (4 ≤ REV_BUF_SIZE)%nat by (unfold REV_BUF_SIZE; lia).
  unfold write_to_string. case_decide as E0; [done|]. case_decide as Ed.
  - rewrite (drop_ge dst) by lia. split; [|by rewrite (app_assoc _ (chars_of "...")), last_snoc].
    rewrite length_app, length_take. change (length (chars_of "..." ++ [NUL])) with 4%nat. unfold strncpy.
    rewrite !length_app, length_take, length_replicate, length_drop. lia.
  - apply Nat.nle_gt in Ed. unfold strncpy. split.
    + rewrite !length_app, length_take, length_replicate, length_drop. lia.
    + apply last_Some in Hn as [l' ->]. rewrite length_app in Hl. simpl in Hl. rewrite (drop_app_le l') by lia. by rewrite !app_assoc, last_snoc.
Qed.

Lemma probe_output_ok writes : length (probe_output writes) = REV_BUF_SIZE ∧ list.last (probe_output writes) = Some NUL.
Proof.
  unfold probe_output. assert (Hb : length (replicate REV_BUF_SIZE NUL) = REV_BUF_SIZE ∧ list.last (replicate REV_BUF_SIZE NUL) = Some NUL).
  { split; [by rewrite length_replicate|by vm_compute]. }
  revert Hb. generalize (replicate REV_BUF_SIZE NUL). induction writes as [|w ws IH]; intros b [Hl Hn]; [done|]. simpl. apply IH.
  by apply write_to_string_ok.
Qed.

(** ** The threads *)

(** A computation that leaves the manager and the configuration alone, and does
    not take the health away. *)
Definition stable {A} (m : M hcont A) : Prop := ∀ c a c', m c = Some (a, c') →
  k_manager c' = k_manager c ∧ k_config c' = k_config c ∧ (is_Some (health (k_state c)) → is_Some (health (k_state c'))).

Lemma stable_ret {A} (a : A) : stable (mret a).
Proof. by intros c a' c' [= <- <-]. Qed.

Lemma stable_fail {A} : stable (fail (A:=A)).
Proof. done. Qed.

Lemma stable_get : stable get.
Proof. by intros c a' c' [= <- <-]. Qed.

Lemma stable_bind {A B} (m : M hcont A) (f : A → M hcont B) : stable m → (∀ a, stable (f a)) → stable (a ← m; f a).
Proof.
  intros Hm Hf c b c' H. unfold mbind, M_bind in H. destruct (m c) as [[a c1]|] eqn:E; [|done].
  destruct (Hm c a c1 E) as (H1 & H2 & H3), (Hf a c1 b c' H) as (H4 & H5 & H6). split_and!; [congruence|congruence|auto].
Qed.

Lemma stable_health {A} (f : defs_health → option (A * defs_health)) : stable (on_health f).
Proof.
  intros c a c' H. unfold on_health in H. destruct (health (k_state c)); [|done]. destruct (f d) as [[? ?]|]; [|done].
  injection H as <- <-. cbn. split_and!; [done|done|by eexists].
Qed.

Lemma stable_config : stable the_config.
Proof. intros c a c' H. unfold the_config in H. destruct (k_config c) eqn:E; [|done]. injection H as <- <-. by rewrite E. Qed.

Lemma stable_state : stable (on_manager get_health_check_monitor_state).
Proof. intros c a c' H. unfold on_manager in H. destruct (k_manager c) eqn:E; [|done]. by injection H as <- <-. Qed.

Lemma stable_modify f :
  (∀ c, k_manager (f c) = k_manager c ∧ k_config (f c) = k_config c ∧ k_state (f c) = k_state c) → stable (modify f).
Proof. intros Hf c a c' [= <- <-]. destruct (Hf c) as (-> & -> & ->). done. Qed.

Create HintDb stable.
#[local] Hint Resolve stable_ret stable_fail stable_get stable_health stable_config stable_state : stable.
#[local] Hint Extern 1 (stable (modify _)) => apply stable_modify; done : stable.
#[local] Hint Extern 2 (stable (mbind _ _)) => apply stable_bind; [|intros] : stable.
#[local] Hint Extern 3 (stable (if ?b then _ else _)) => destruct b : stable.
#[local] Hint Extern 3 (stable (match ?x with _ => _ end)) => destruct x : stable.

Lemma stable_probe_result nanos e r : stable (handle_probe_result nanos e r).
Proof.
  unfold handle_probe_result, append_health_log, handle_unhealthy_case, handle_increment_streak, incr_streak, get_health_status,
    set_health_status, container_ref, container_unref. auto 40 with stable.
Qed.
#[local] Hint Resolve stable_probe_result : stable.

Lemma stable_run nanos e : stable (health_check_run nanos e).
Proof. unfold health_check_run, container_ref, container_unref. auto 40 with stable. Qed.
#[local] Hint Resolve stable_run : stable.

Lemma stable_valid found : stable (valid_container_status_for_health_check found).
Proof. unfold valid_container_status_for_health_check, container_ref, container_unref. auto 20 with stable. Qed.
#[local] Hint Resolve stable_valid : stable.

Section invariant.
Context (nanos_of : option string → option Z).

Lemma stable_interval e : stable (do_monitor_interval nanos_of e).
Proof. unfold do_monitor_interval. auto 20 with stable. Qed.

Lemma stable_default e start : stable (do_monitor_default e start).
Proof. unfold do_monitor_default. auto 20 with stable. Qed.

(** What a step of a monitor does to the manager: it keeps a request to stop, and
    the flag says that the thread has begun and not ended. *)
Definition monitor_effect (m : monitor) (r : option monitor) (man man' : health_check_manager_t) : Prop :=
  (monitor_status man = MONITOR_STOP → monitor_status man' = MONITOR_STOP) ∧
  match r with
  | Some m' => m' ≠ MNew ∧ monitor_exist man' = match m with MNew => true | _ => monitor_exist man end
  | None => m = MNew ∧ man' = man ∨ m = MLeave ∧ monitor_exist man' = false
  end.

Lemma step_stable m c r c' man (f : M hcont monitor) :
  stable f → m ≠ MNew → k_manager c = Some man → (∀ m' c1, f c = Some (m', c1) → m' ≠ MNew) →
  (x ← f; mret (Some x)) c = Some (r, c') →
  ∃ man', k_manager c' = Some man' ∧ k_config c' = k_config c ∧ (is_Some (health (k_state c)) → is_Some (health (k_state c'))) ∧
    monitor_effect m r man man'.
Proof.
  intros Hf Hm Hman Hnew H. unfold mbind, M_bind in H. destruct (f c) as [[x c1]|] eqn:E; [|done]. injection H as <- <-.
  destruct (Hf c x c1 E) as (H1 & H2 & H3). exists man. split; [congruence|]. split; [done|]. split; [done|]. split; [done|]. split; [by eapply Hnew|by destruct m].
Qed.

Lemma monitor_step_ok e m c r c' man :
  k_manager c = Some man → health_check_monitor nanos_of e m c = Some (r, c') →
  ∃ man', k_manager c' = Some man' ∧ k_config c' = k_config c ∧ (is_Some (health (k_state c)) → is_Some (health (k_state c'))) ∧
    monitor_effect m r man man'.
Proof.
  intros Hman H. destruct m as [|start|start| |start|start| |].
  - unfold health_check_monitor in H. destruct (me_found e); cbn [negb] in H; [|injection H as <- <-; exists man; split; [done|]; split; [done|]; split; [done|]; split; [done|by left]].
    unfold container_ref, modify, on_manager, mbind, M_bind in H. cbn [k_manager] in H. rewrite Hman in H. injection H as <- <-.
    eexists. split; [done|]. split; [done|]. split; [done|]. split; [done|]. split; [by destruct (me_clock e)|done].
  - unfold health_check_monitor, on_manager, mbind, M_bind in H. rewrite Hman in H. injection H as <- <-.
    exists man. split; [done|]. split; [done|]. split; [done|]. split; [done|]. split; [|done]. by destruct (monitor_status man).
  - eapply step_stable; [apply (stable_interval e)|done|done| |exact H]. intros m' c1 E. unfold do_monitor_interval, mbind, M_bind in E.
    repeat case_match; try done; by injection E as <- _.
  - unfold health_check_monitor, do_monitor_interval_end, on_manager, transfer_monitor_idle_status, mbind, M_bind in H. rewrite Hman in H.
    case_decide as Es; injection H as <- <-; (eexists; split; [done|]; split; [done|]; split; [done|]; split; [by rewrite ?Es|]); (split; [|done]).
    + done.
    + by destruct (me_clock e).
  - eapply step_stable; [apply (stable_default e start)|done|done| |exact H]. intros m' c1 E. unfold do_monitor_default, mbind, M_bind in E.
    repeat case_match; try done; by injection E as <- _.
  - unfold health_check_monitor, do_monitor_default_end, on_manager, transfer_monitor_interval_timeout_status, mbind, M_bind in H. rewrite Hman in H.
    case_decide as Es; injection H as <- <-; (eexists; split; [done|]; split; [done|]; split; [done|]; split; [by rewrite ?Es|]); (split; [|done]).
    + done.
    + done.
  - unfold health_check_monitor, set_health_status, mbind, M_bind in H.
    destruct (on_health _ c) as [[u c1]|] eqn:E; [|done]. injection H as <- <-. destruct (stable_health _ _ _ _ E) as (H1 & H2 & H3).
    exists man. split; [congruence|]. done.
  - unfold health_check_monitor, on_manager, container_unref, modify, mbind, M_bind in H. rewrite Hman in H. injection H as <- <-.
    eexists. split; [done|]. split; [done|]. split; [done|]. split; [done|]. by right.
Qed.

(** A call that starts or stops the monitor, up to its wait. *)
Definition starts (c : hcont) (pc : control) (c' : hcont) : Prop :=
  (k_manager c' = k_manager c ∨ k_manager c = None ∧ ∃ man, k_manager c' = Some man ∧ monitor_exist man = false) ∧
  (is_Some (health (k_state c)) → is_Some (health (k_state c'))) ∧
  (pc = CIdle ∨ (∃ w, pc = CClose w) ∧ is_Some (k_manager c') ∧ is_Some (health (k_state c'))).

Lemma update_starts found c pc c' :
  container_update_health_monitor found c = Some (pc, c') → starts c pc c'.
Proof.
  unfold container_update_health_monitor, get_probe, get, mbind, M_bind. intros H. destruct found; cbn [negb] in H.
  2: { injection H as <- <-. by split; [left|split; [|left]]. }
  destruct (health (k_state c)) as [h|] eqn:Eh; [|injection H as <- <-; by split; [left|split; [|left]]].
  destruct (k_manager c) as [man|] eqn:Em.
  - injection H as <- <-. split; [by left|]. split; [done|]. right. rewrite Em, Eh. split; [by eexists|]. split; by eexists.
  - destruct (_ && _); [done|]. injection H as <- <-. by split; [left|split; [|left]].
Qed.

Lemma starts_via c c1 pc c' :
  (k_manager c1 = k_manager c ∨ k_manager c = None ∧ ∃ man, k_manager c1 = Some man ∧ monitor_exist man = false) →
  (is_Some (health (k_state c)) → is_Some (health (k_state c1))) → starts c1 pc c' → starts c pc c'.
Proof. intros Hm Hh (H1 & H2 & H3). split; [|split; [auto|done]]. 
  destruct Hm as [Hm|(Hn & man & Hs & He)], H1 as [H1|(Hn1 & H1)].
  - left. congruence.
  - right. split; [congruence|done].
  - right. split; [done|]. exists man. split; [congruence|done].
  - congruence.
Qed.

Lemma stop_starts c pc c' : container_stop_health_checks c = Some (pc, c') → starts c pc c'.
Proof.
  unfold container_stop_health_checks. intros [= <- <-]. split; [by left|]. split; [done|].
  destruct (health (k_state c)), (k_manager c); [right; split; [by eexists|split; by eexists]|by left..].
Qed.

Lemma idle_starts c : starts c CIdle c.
Proof. split; [by left|]. split; [done|by left]. Qed.

Lemma manager_starts mem mutex c ok c' :
  ensure_manager mem mutex c = Some (ok, c') →
  (k_manager c' = k_manager c ∨ k_manager c = None ∧ ∃ man, k_manager c' = Some man ∧ monitor_exist man = false) ∧ k_state c' = k_state c.
Proof.
  unfold ensure_manager. destruct (k_manager c) eqn:E; [intros [= <- <-]; split; [by left|done]|].
  unfold health_check_manager_new. destruct (mem && mutex); intros [= <- <-]; split; [right; eauto|done|by left|done].
Qed.

Lemma reset_starts mem c ok c' :
  reset_health mem c = Some (ok, c') → k_manager c' = k_manager c ∧ (is_Some (health (k_state c)) → is_Some (health (k_state c'))).
Proof.
  intros H. unfold reset_health, get in H. unfold mbind at 1, M_bind at 1 in H. destruct (health (k_state c)) as [h|] eqn:E.
  - assert (Hs : stable (set_health_status HEALTH_STARTING;; on_health (λ h, Some (tt, mk_health (h_status h) 0 (h_log h)));; mret true)).
    { unfold set_health_status. auto 10 with stable. }
    destruct (Hs c ok c' H) as (H1 & _ & H2). rewrite E in H2. done.
  - destruct mem; [|injection H as <- <-; by rewrite E]. injection H as <- <-. by split; [|eexists].
Qed.

Lemma init_starts found mem mutex mem_health c pc c' :
  container_init_health_monitor found mem mutex mem_health c = Some (pc, c') → starts c pc c'.
Proof.
  intros H. unfold container_init_health_monitor, get_probe, get, mbind, M_bind in H.
  destruct found; cbn [negb] in H; [|injection H as <- <-; apply idle_starts].
  destruct (k_config c); [|injection H as <- <-; apply idle_starts].
  destruct (ensure_manager mem mutex c) as [[ok c1]|] eqn:E1; [|done]. destruct (manager_starts _ _ _ _ _ E1) as [Hm Hs].
  apply (starts_via c c1); [done|by rewrite Hs|]. destruct ok; cbn [negb] in H; [|injection H as <- <-; apply idle_starts].
  case_decide; [injection H as <- <-; apply idle_starts|].
  destruct (reset_health mem_health c1) as [[ok c2]|] eqn:E2; [|done]. destruct (reset_starts _ _ _ _ E2) as [Hm2 Hh2].
  apply (starts_via c1 c2); [by left|done|]. destruct ok; cbn [negb] in H; [|injection H as <- <-; apply idle_starts].
  by eapply update_starts.
Qed.

Definition begun (m : monitor) : bool := match m with MNew => false | _ => true end.

(** There is at most one monitor; the flag says that it has begun; none is left
    when the control thread has waited; a request to stop stands while it waits. *)
Record hs_ok (s : hsystem) : Prop := {
  so_one : (length (hs_monitors s) ≤ 1)%nat;
  so_fresh : hs_control s = CFresh ∨ hs_control s = CCreate → hs_monitors s = [];
  so_none : k_manager (hs_cont s) = None → hs_monitors s = [] ∧ hs_control s = CIdle;
  so_flag man : k_manager (hs_cont s) = Some man → monitor_exist man = existsb begun (hs_monitors s);
  so_stop man w : k_manager (hs_cont s) = Some man → hs_control s = CPoll w → monitor_status man = MONITOR_STOP;
  so_health : hs_monitors s ≠ [] ∨ hs_control s ≠ CIdle → is_Some (health (k_state (hs_cont s)))
}.

Lemma starts_ok c ms pc c' : hs_ok (mk_hsystem c CIdle ms) → starts c pc c' → hs_ok (mk_hsystem c' pc ms).
Proof.
  intros [H1 H2 H3 H4 H5 H6] (Hm & Hh & Hpc). cbn in *.
  assert (Hms : k_manager c = None → ms = []) by (intros E; by destruct (H3 E)).
  split; cbn; [done| | | | |].
  - intros [->| ->]; destruct Hpc as [|([? ?] & _)]; done.
  - intros Hn. destruct Hpc as [->|(_ & [? ?] & _)]; [|congruence]. destruct Hm as [Hm|(_ & ? & ? & _)]; [|congruence].
    split; [|done]. apply Hms. congruence.
  - intros man Hman. destruct Hm as [Hm|(Hn & man' & Hs & He)]; [apply H4; congruence|].
    rewrite (Hms Hn). rewrite Hman in Hs. by injection Hs as ->.
  - intros man w _ ->. destruct Hpc as [|([? ?] & _)]; done.
  - intros [Hne|Hne]; [apply Hh, H6; by left|]. by destruct Hpc as [->|(_ & _ & ?)].
Qed.

Lemma control_ok create c pc ms pc' spawn c' :
  hs_ok (mk_hsystem c pc ms) → control_step create pc c = Some ((pc', spawn), c') → (∀ w, pc = CPoll w → MNew ∉ ms) →
  hs_ok (mk_hsystem c' pc' (if spawn then ms ++ [MNew] else ms)).
Proof.
  intros [H1 H2 H3 H4 H5 H6] H Hnew. cbn in *. destruct (k_manager c) as [man|] eqn:Em; [|destruct (H3 eq_refl) as [_ ->]; done].
  specialize (H4 man eq_refl). destruct pc as [|w|w| |]; [done|..].
  - unfold control_step, on_manager, mbind, M_bind in H. rewrite Em in H. injection H as <- <- <-. split; cbn; try naive_solver.
  - unfold control_step, on_manager, mbind, M_bind in H. rewrite Em in H. cbn in H. destruct (monitor_exist man) eqn:Ee.
    + injection H as <- <- <-. split; cbn; try naive_solver.
    + assert (Hms : ms = []).
      { destruct ms as [|m ms]; [done|]. destruct m; try done. by destruct (Hnew w eq_refl); left. }
      subst ms. destruct w; injection H as <- <- <-; split; cbn; naive_solver.
  - unfold control_step, on_manager, mbind, M_bind in H. rewrite Em in H. injection H as <- <- <-.
    rewrite H2 in * by auto. split; cbn; naive_solver.
  - injection H as <- <- <-. rewrite H2 in * by auto. case_bool_decide; split; cbn; try naive_solver; try lia.
Qed.

Lemma monitor_ok c pc ms i m e r c' :
  hs_ok (mk_hsystem c pc ms) → ms !! i = Some m → health_check_monitor nanos_of e m c = Some (r, c') →
  hs_ok (mk_hsystem c' pc (match r with Some m => <[i := m]> ms | None => delete i ms end)).
Proof.
  intros [H1 H2 H3 H4 H5 H6] Hi H. cbn in *. destruct (k_manager c) as [man|] eqn:Em; [|destruct (H3 eq_refl) as [-> _]; done].
  destruct (monitor_step_ok e m c r c' man Em H) as (man' & Em' & _ & Hh & Hst & Heff).
  assert (Hms : ms = [m] ∧ i = 0%nat).
  { destruct ms as [|x [|y ms]]; [done| |cbn in H1; lia]. destruct i; [by injection Hi as ->|done]. }
  destruct Hms as [-> ->]. specialize (H4 man eq_refl). cbn in H4.
  assert (Hpc : pc ≠ CFresh ∧ pc ≠ CCreate) by (split; intros ->; discriminate H2; auto).
  assert (Hhs : is_Some (health (k_state c'))) by (apply Hh, H6; by left).
  split; cbn.
  - destruct r; cbn; lia.
  - naive_solver.
  - congruence.
  - intros x Hx. rewrite Em' in Hx. injection Hx as <-. destruct r as [m'|]; cbn.
    + destruct Heff as [Hne ->]. assert (begun m' || false = true) as -> by (by destruct m'). by destruct m.
    + destruct Heff as [[-> ->]|[-> ->]]; done.
  - intros x w Hx ->. rewrite Em' in Hx. injection Hx as <-. eapply Hst, H5; done.
  - done.
Qed.

Lemma hstep_ok s s' : hs_ok s → hstep nanos_of true s s' → hs_ok s'.
Proof.
  intros Hok Hs. destruct Hs as [| | |c pc ms create pc' spawn c' H Hnew| |c pc ms st Hst].
  - eapply starts_ok; [done|by eapply init_starts].
  - eapply starts_ok; [done|by eapply update_starts].
  - eapply starts_ok; [done|by eapply stop_starts].
  - eapply control_ok; [exact Hok|exact H|exact (Hnew eq_refl)].
  - eapply monitor_ok; [exact Hok|eassumption|eassumption].
  - destruct Hok as [H1 H2 H3 H4 H5 H6]. split; cbn in *; try done. by rewrite Hst.
Qed.

Lemma hreach_ok s s' : hs_ok s → rtc (hstep nanos_of true) s s' → hs_ok s'.
Proof. intros Hok. induction 1; [done|]. eauto using hstep_ok. Qed.

(** The steps a monitor can still take once it is told to stop. *)
Definition work (m : monitor) : nat :=
  match m with
  | MLeave => 1 | MOut => 2 | MTop _ | MRan | MDue _ => 3 | MNew | MProbe _ | MWait _ => 4
  end.

(** The time between two readings of the clock fits in 64 bits. *)
Definition clock_ok (e : monitor_env) (m : monitor) : Prop :=
  match m, me_clock e with MWait start, Some now => is_Some (util_get_time_interval start now) | _, _ => True end.

Lemma result_ignored e r c man :
  k_manager c = Some man → monitor_status man = MONITOR_STOP →
  ∃ z c', handle_probe_result nanos_of e r c = Some (z, c').
Proof.
  intros Hm Hs. unfold handle_probe_result. destruct (rs_found e); cbn [negb]; [|by eexists _, _].
  unfold container_ref, modify, on_manager, mbind, M_bind. cbn [k_manager]. rewrite Hm. cbn. rewrite Hs. by eexists _, _.
Qed.

Lemma run_defined e c cfg man :
  k_config c = Some cfg → hc_test cfg ≠ [] → k_manager c = Some man → monitor_status man = MONITOR_STOP →
  ∃ r c', health_check_run nanos_of e c = Some (r, c').
Proof.
  intros Hc Ht Hm Hs. unfold health_check_run. destruct (pe_found e); cbn [negb]; [|by eexists _, _].
  unfold container_ref, modify, the_config, mbind, M_bind. cbn [k_config]. rewrite Hc, health_check_cmds_ok by done.
  destruct (_ && _ && _ && _); [|by eexists _, _]. destruct (negb (pe_req e && pe_res e)); [by eexists _, _|].
  rewrite (util_array_len_vector (Some _) (shell_command (hc_test cfg))) by (by exists []). destruct (negb (pe_mem e)); [by eexists _, _|].
  match goal with |- context [handle_probe_result nanos_of ?x ?y ?z] => destruct (result_ignored x y z man Hm Hs) as (v & c' & ->) end.
  by eexists _, _.
Qed.

Lemma valid_defined found c : ∃ b c', valid_container_status_for_health_check found c = Some (b, c') ∧ k_manager c' = k_manager c ∧ k_config c' = k_config c.
Proof. unfold valid_container_status_for_health_check. destruct found; by eexists _, _. Qed.

Lemma monitor_defined e m c cfg man :
  k_config c = Some cfg → hc_test cfg ≠ [] → k_manager c = Some man → monitor_status man = MONITOR_STOP →
  is_Some (health (k_state c)) → clock_ok e m →
  ∃ r c', health_check_monitor nanos_of e m c = Some (r, c') ∧ (from_option work 0 r < work m)%nat.
Proof.
  intros Hc Ht Hm Hs [h Hh] Hk. destruct m as [|start|start| |start|start| |]; unfold health_check_monitor.
  - destruct (me_found e); cbn [negb]; [|eexists _, _; split; [done|]; cbn; lia].
    unfold container_ref, modify, on_manager, mbind, M_bind. cbn [k_manager]. rewrite Hm. eexists _, _. split; [done|]. destruct (me_clock e); cbn; lia.
  - unfold on_manager, mbind, M_bind. rewrite Hm. cbn. rewrite Hs. eexists _, _. split; [done|]. cbn. lia.
  - unfold do_monitor_interval, mbind, M_bind. destruct (valid_defined (me_found e) c) as (b & c1 & -> & Hm1 & Hc1).
    destruct b; cbn [negb]; [|eexists _, _; split; [done|]; cbn; lia].
    destruct (run_defined (me_probe e) c1 cfg man) as (r & c2 & ->); [congruence|done|congruence|done|]. eexists _, _. split; [done|]. cbn. lia.
  - unfold do_monitor_interval_end, on_manager, transfer_monitor_idle_status, mbind, M_bind. rewrite Hm, decide_True by done.
    eexists _, _. split; [done|]. rewrite decide_True by done. cbn. lia.
  - unfold do_monitor_default, mbind, M_bind. destruct (valid_defined (me_found e) c) as (b & c1 & -> & Hm1 & Hc1).
    destruct b; cbn [negb]; [|eexists _, _; split; [done|]; cbn; lia]. cbn in Hk.
    destruct (me_clock e) as [now|]; [|eexists _, _; split; [done|]; cbn; lia]. destruct Hk as [[ret iv] ->].
    case_decide; [eexists _, _; split; [done|]; cbn; lia|]. unfold the_config. rewrite Hc1, Hc. eexists _, _. split; [done|].
    case_decide; cbn; lia.
  - unfold do_monitor_default_end, on_manager, transfer_monitor_interval_timeout_status, mbind, M_bind. rewrite Hm, decide_True by done.
    eexists _, _. split; [done|]. rewrite decide_True by done. cbn. lia.
  - unfold set_health_status, on_health, mbind, M_bind. rewrite Hh. eexists _, _. split; [done|]. cbn. lia.
  - unfold on_manager, mbind, M_bind. rewrite Hm. eexists _, _. split; [done|]. cbn. lia.
Qed.
End invariant.

(** ** The theorems *)
Section theorems.
Context (nanos_of : option string → option Z).

(** C23: The results of the probes of a container that was started, those of [g]
    failures within its start period: the status is unhealthy exactly when the
    last results are as many failures as there are retries, else healthy after a
    success and starting before one; the log holds the last five results; each
    result that leaves the container unhealthy starts a thread to stop it, if that
    is configured; no reference is kept. *)
Theorem probe_history c cfg first g h :
  checked c cfg (mk_health (Some HEALTH_STARTING) 0 []) → nanos_of (started_at (k_state c)) = Some first →
  Forall (timed nanos_of first) (g ++ h) → Forall (λ r, success r = false ∧ early nanos_of cfg first r) g → counted nanos_of cfg first h →
  Z.of_nat (length h) <= INT_MAX →
  ∃ c', probe_all nanos_of (g ++ h) c = Some (replicate (length (g ++ h)) 0, c') ∧
    health (k_state c') = Some (mk_health (Some (status_after (effective_retries cfg) h)) (streak h) (last_entries MAX_LOG_ENTRIES (g ++ h))) ∧
    k_stops c' = (k_stops c + if hc_exit_on_unhealthy cfg then unhealthy_results (effective_retries cfg) h else 0)%nat ∧
    k_refs c' = k_refs c.
Proof. intros Hck Hf Ht Hg Hc Hl. eexists. split; [by apply (probe_counted nanos_of c cfg first)|]. done. Qed.

(** If every monitor thread has begun when the next one is wanted, there is never
    more than one, its flag is up from its beginning to its end, and none is left
    when a new one is started. *)
Theorem health_monitor_unique c s :
  k_manager c = None → rtc (hstep nanos_of true) (mk_hsystem c CIdle []) s →
  (length (hs_monitors s) ≤ 1)%nat ∧ (hs_control s = CFresh ∨ hs_control s = CCreate → hs_monitors s = []) ∧
  ∀ man, k_manager (hs_cont s) = Some man → monitor_exist man = existsb begun (hs_monitors s).
Proof.
  intros Hc Hr. assert (Hok : hs_ok (mk_hsystem c CIdle [])) by (split; cbn; try done; [lia|congruence|naive_solver]).
  destruct (hreach_ok nanos_of _ _ Hok Hr). by split_and!.
Qed.

(** The wait for a monitor that has begun ends: whatever its probe gives, and if
    the times of its clock do not differ by more than 64 bits, each of its steps
    is defined and brings it closer to its end, at most four steps away, and
    without a monitor the wait is over. *)
Theorem health_monitor_stops c s w cfg :
  k_manager c = None → rtc (hstep nanos_of true) (mk_hsystem c CIdle []) s → hs_control s = CPoll w →
  k_config (hs_cont s) = Some cfg → hc_test cfg ≠ [] →
  (hs_monitors s = [] → ∀ create, ∃ c', control_step create (CPoll w) (hs_cont s) = Some ((if w then CFresh else CIdle, false), c')) ∧
  ∀ m, m ∈ hs_monitors s → (work m ≤ 4)%nat ∧ ∀ e, clock_ok e m →
    ∃ r c', health_check_monitor nanos_of e m (hs_cont s) = Some (r, c') ∧ (from_option work 0 r < work m)%nat.
Proof.
  intros Hc Hr Hw Hcfg Ht. assert (Hok : hs_ok (mk_hsystem c CIdle [])) by (split; cbn; try done; [lia|congruence|naive_solver]).
  destruct (hreach_ok nanos_of _ _ Hok Hr) as [H1 H2 H3 H4 H5 H6].
  destruct (k_manager (hs_cont s)) as [man|] eqn:Em; [|destruct (H3 eq_refl); congruence]. split.
  - intros Hms create. unfold control_step, on_manager, mbind, M_bind. rewrite Em. cbn. rewrite (H4 man eq_refl), Hms. cbn. destruct w; eauto.
  - intros m Hin. split; [destruct m; cbn; lia|]. intros e He. eapply monitor_defined; try done; [by eapply H5|apply H6; right; by rewrite Hw].
Qed.

(** The buffer that the output of a probe is copied to keeps its size and its
    final NUL byte, whatever the command writes. *)
Theorem probe_output_bounds writes : length (probe_output writes) = REV_BUF_SIZE ∧ list.last (probe_output writes) = Some NUL.
Proof. apply probe_output_ok. Qed.
End theorems.

(** ** What goes wrong *)

(** Only the last write of a command is kept, over what was there. *)
Example probe_output_overwritten : buf_str (probe_output [chars_of "disk full"; chars_of "ok"]) = "oksk full"%string.
Proof. by vm_compute. Qed.

Definition demo_config : health_config := mk_config ["CMD-SHELL"; "true"]%string 0 0 0 0 false.
Definition demo_running : container_state :=
  mk_state true false false false false false false false 7 0 0 0 0 0 None (Some defaultContainerTime) (Some defaultContainerTime) None.
Definition demo_hcont : hcont := mk_hcont demo_running None (Some demo_config) 1 0.
Definition at_second (n : Z) : types_timestamp := mk_ts true n true 0.
Definition demo_probe : probe_env :=
  mk_probe_env true true true true true true true "" "" 0 0 None [] (mk_result_env true true true 0).
Definition demo_env (n : Z) : monitor_env := mk_monitor_env true (Some (at_second n)) demo_probe.

(** The steps of the control thread that starts a monitor. *)
Ltac step_control := eapply rtc_l; [eapply (hs_ctl _ _ _ _ _ 0); [vm_compute; reflexivity|first [done|set_solver]]|]; cbv beta iota delta [app].
Ltac step_monitor i n := eapply rtc_l; [eapply (hs_monitor _ _ _ _ _ i _ (demo_env n)); [reflexivity|vm_compute; reflexivity]|]; cbv [insert list_insert delete list_delete].

Ltac start_monitor := eapply rtc_l; [eapply (hs_init _ _ _ _ true true true true); vm_compute; reflexivity|].

(** Two calls before the first monitor thread runs leave two monitors in their
    loops, although the comment says that there is never more than one. *)
Theorem two_health_monitors nanos_of :
  ∃ c, rtc (hstep nanos_of false) (mk_hsystem demo_hcont CIdle []) (mk_hsystem c CIdle [MTop (at_second 1); MTop (at_second 1)]) .
Proof.
  eexists. start_monitor. do 4 step_control.
  eapply rtc_l; [eapply (hs_update _ _ _ _ true); vm_compute; reflexivity|].
  do 4 step_control. step_monitor 0%nat 1. step_monitor 1%nat 1. apply rtc_refl.
Qed.

(** A container that is started again while a probe of its old monitor runs: its health is set to
    starting first, and then the monitor that ends sets it to unhealthy, so the
    new monitor finds an unhealthy container without a failure. *)
Theorem restart_during_probe nanos_of :
  ∃ c h, rtc (hstep nanos_of true) (mk_hsystem demo_hcont CIdle []) (mk_hsystem c CIdle [MNew]) ∧
    container_is_running (k_state c) = true ∧ health (k_state c) = Some h ∧ h_status h = Some UNHEALTHY ∧
    h_failing_streak h = 0 ∧ h_log h = [].
Proof.
  eexists _, _. split.
  - start_monitor. do 4 step_control.
    step_monitor 0%nat 0. step_monitor 0%nat 0. step_monitor 0%nat 60. step_monitor 0%nat 60. step_monitor 0%nat 60.
    start_monitor. do 1 step_control. do 4 step_monitor 0%nat 90. do 3 step_control. apply rtc_refl.
  - cbn. split_and!; reflexivity.
Qed.

(** ** Examples *)
Definition demo_nanos (t : option string) : option Z := match t with Some _ => Some 0 | None => None end.
Definition demo_result (code : Z) : defs_health_log_element := mk_health_log (Some "t"%string) (Some "t"%string) code None.
Definition patient_config : health_config := mk_config ["CMD-SHELL"; "true"]%string 0 0 10 2 true.
Definition demo_started : hcont :=
  mk_hcont (with_health (Some (mk_health (Some HEALTH_STARTING) 0 [])) demo_running) (Some (mk_manager MONITOR_IDLE true)) (Some patient_config) 1 0.

(** Two uncounted failures, a success, and two failures. *)
Lemma probe_history_witness :
  let g := [demo_result 1; demo_result 1] in
  let h := [demo_result 0; demo_result 1; demo_result 1] in
  ∃ c', probe_all demo_nanos (g ++ h) demo_started = Some (replicate 5 0, c') ∧
    health (k_state c') = Some (mk_health (Some UNHEALTHY) 2 (g ++ h)) ∧ k_stops c' = 1%nat ∧ k_refs c' = 1.
Proof.
  apply (probe_history demo_nanos demo_started patient_config 0 [demo_result 1; demo_result 1] [demo_result 0; demo_result 1; demo_result 1]).
  - split; try done; [by eexists|by eexists|cbn; lia].
  - reflexivity.
  - repeat constructor; by eexists.
  - by repeat constructor.
  - left. by eexists _, _.
  - vm_compute. discriminate.
Defined.

(** A monitor in its loop that is told to stop. *)
Lemma demo_stopping : ∃ c, rtc (hstep demo_nanos true) (mk_hsystem demo_hcont CIdle []) (mk_hsystem c (CPoll false) [MWait (at_second 0)]) ∧
  k_config c = Some demo_config.
Proof.
  eexists. split.
  - start_monitor. do 4 step_control. do 2 step_monitor 0%nat 0.
    eapply rtc_l; [eapply hs_stop; vm_compute; reflexivity|]. step_control. apply rtc_refl.
  - reflexivity.
Qed.

Lemma health_monitor_unique_witness :
  ∃ s, rtc (hstep demo_nanos true) (mk_hsystem demo_hcont CIdle []) s ∧ hs_monitors s = [MWait (at_second 0)] ∧ (length (hs_monitors s) ≤ 1)%nat.
Proof.
  destruct demo_stopping as (c & Hr & _). eexists. split; [exact Hr|]. split; [reflexivity|].
  exact (proj1 (health_monitor_unique demo_nanos demo_hcont _ eq_refl Hr)).
Defined.

Lemma health_monitor_stops_witness :
  ∃ s, hs_control s = CPoll false ∧ ∀ m, m ∈ hs_monitors s → (work m ≤ 4)%nat ∧ ∀ e, clock_ok e m →
    ∃ r c', health_check_monitor demo_nanos e m (hs_cont s) = Some (r, c') ∧ (from_option work 0 r < work m)%nat.
Proof.
  destruct demo_stopping as (c & Hr & Hc). exists (mk_hsystem c (CPoll false) [MWait (at_second 0)]). split; [reflexivity|].
  refine (proj2 (health_monitor_stops demo_nanos demo_hcont _ false demo_config eq_refl Hr eq_refl Hc _)). discriminate.
Defined.
