(* ===== verification/ContainersStore.v ===== *)
(** * The store of containers and the index of their names

    [src/daemon/modules/container/containers_store.c], with the reference
    counting of [container_unix.c] ([container_refinc], [container_unref]) and
    [src/utils/cutils/util_atomic.h].  The store maps container ids to
    containers and owns one reference to each of them: its destructor
    [memory_store_map_kvfree] drops it.  Every function holds the read-write
    lock of its map, so it is one atomic step.  The store and the index are
    string maps with the interface [StrMap]. *)
From stdpp Require Import base gmap list fin_maps numbers strings.
From Stdlib Require Import ZArith Lia.
From S2P Require Import Prelude CString Array RbTree Map StrMap.

Local Open Scope Z_scope.

(** The two globals, and the reference counts of the live containers: a
    container whose count has reached zero has been freed and has no entry. *)
Record cstore (MT NT : Type) := mk_cstore { cs_map : MT; cs_index : NT; cs_refs : gmap ptr Z }.
Arguments mk_cstore {MT NT} _ _ _.
Arguments cs_map {MT NT} _.
Arguments cs_index {MT NT} _.
Arguments cs_refs {MT NT} _.

(** Results of taking and releasing the lock. *)
Record lock_env := mk_lock { l_lock : bool; l_unlock : bool }.

Section containers_store.
Context {MT NT : Type} {SM : StrMap ptr MT} {NM : StrMap cstr NT}.
Let CM := M (cstore MT NT).

(** ** References *)
Definition container_refinc (cont : option ptr) : CM unit := λ s,
  match cont with
  | None => Some (tt, s)
  | Some p =>
    match cs_refs s !! p with
    | Some n => Some (tt, mk_cstore (cs_map s) (cs_index s) (<[p := u64 (n + 1)]> (cs_refs s)))
    | None => None
    end
  end.

Definition container_unref (cont : option ptr) : CM unit := λ s,
  match cont with
  | None => Some (tt, s)
  | Some p =>
    match cs_refs s !! p with
    | Some n =>
      let n := u64 (n - 1) in
      Some (tt, mk_cstore (cs_map s) (cs_index s)
                  (if n =? 0 then delete p (cs_refs s) else <[p := n]> (cs_refs s)))
    | None => None
    end
  end.

Fixpoint unref_all (l : list ptr) : CM unit :=
  match l with
  | [] => mret tt
  | p :: l => container_unref (Some p);; unref_all l
  end.

(** A call on the store's map; the values it hands to the destructor lose the
    store's reference. *)
Definition on_map {A} (f : M MT A) : CM A := λ s,
  match f (cs_map s) with
  | Some (a, m) =>
    (unref_all (drop (length (sm_dropped (cs_map s))) (sm_dropped m));; mret a)
      (mk_cstore m (cs_index s) (cs_refs s))
  | None => None
  end.
Definition on_index {A} (f : M NT A) : CM A := λ s,
  match f (cs_index s) with
  | Some (a, n) => Some (a, mk_cstore (cs_map s) n (cs_refs s))
  | None => None
  end.

(** ** The store *)

(** [memory_store_new] and [name_index_new]: the allocation of the object, the
    initialisation of its lock, and the three allocations of [map_new]. *)
Definition memory_store_new (mem lock mem_map mem_tree mem_nil : bool) : option MT :=
  if mem then if lock then sm_new mem_map mem_tree mem_nil else None else None.
Definition name_index_new (mem lock mem_map mem_tree mem_nil : bool) : option NT :=
  if mem then if lock then sm_new mem_map mem_tree mem_nil else None else None.

(** The return value and the new value of the global. *)
Definition containers_store_init (mem lock mem_map mem_tree mem_nil : bool) : Z * option MT :=
  let store := memory_store_new mem lock mem_map mem_tree mem_nil in
  (match store with None => -1 | Some _ => 0 end, store).
Definition container_name_index_init (mem lock mem_map mem_tree mem_nil : bool) : Z * option NT :=
  let indexs := name_index_new mem lock mem_map mem_tree mem_nil in
  (match indexs with None => -1 | Some _ => 0 end, indexs).

Definition containers_store_add (l : lock_env) (mem : map_mem) (id : cstr) (cont : ptr) : CM bool :=
  if l_lock l then
    ret ← on_map (sm_replace mem id cont);
    mret (if l_unlock l then ret else false)
  else mret false.

Definition containers_store_get_by_id (lock : bool) (id : option cstr) : CM (option ptr) :=
  match id with
  | None => mret None
  | Some id =>
    if lock then
      cont ← on_map (sm_search id);
      container_refinc cont;;
      mret cont
    else mret None
  end.

Definition container_name_index_get (lock : bool) (name : option cstr) : CM (option cstr) :=
  match name with
  | None => mret None
  | Some name => if lock then on_index (sm_search name) else mret None
  end.

Definition containers_store_get_by_name (lock1 lock2 : bool) (name : option cstr) : CM (option ptr) :=
  match name with
  | None => mret None
  | Some _ =>
    id ← container_name_index_get lock1 name;
    match id with
    | None => mret None
    | Some _ => containers_store_get_by_id lock2 id
    end
  end.

(** The loop of [containers_store_get_by_prefix]: [None] for a second match. *)
Fixpoint prefix_loop (prefix : string) (l : list (cstr * ptr)) (cont : option ptr) : option (option ptr) :=
  match l with
  | [] => Some cont
  | (k, v) :: l =>
    if String.prefix prefix (cstr_s k) then
      match cont with
      | Some _ => None
      | None => prefix_loop prefix l (Some v)
      end
    else prefix_loop prefix l cont
  end.

Definition containers_store_get_by_prefix (lock mem : bool) (prefix : option cstr) : CM (option ptr) :=
  match prefix with
  | None => mret None
  | Some prefix =>
    if lock then
      pairs ← on_map (sm_pairs mem);
      match pairs with
      | None => mret None
      | Some pairs =>
        match prefix_loop (cstr_s prefix) pairs None with
        | None => mret None
        | Some cont => container_refinc cont;; mret cont
        end
      end
    else mret None
  end.

(** The outcomes of the locks of the three lookups and of the iterator. *)
Record get_env := mk_get { g_id : bool; g_index : bool; g_by_name : bool; g_prefix : bool; g_itor : bool }.

Definition containers_store_get (e : get_env) (id_or_name : option cstr) : CM (option ptr) :=
  match id_or_name with
  | None => mret None
  | Some _ =>
    cont ← containers_store_get_by_id (g_id e) id_or_name;
    match cont with
    | Some _ => mret cont
    | None =>
      cont ← containers_store_get_by_name (g_index e) (g_by_name e) id_or_name;
      match cont with
      | Some _ => mret cont
      | None => containers_store_get_by_prefix (g_prefix e) (g_itor e) id_or_name
      end
    end
  end.

Fixpoint refinc_all (l : list ptr) : CM unit :=
  match l with
  | [] => mret tt
  | p :: l => container_refinc (Some p);; refinc_all l
  end.

(** The return value and the array stored through [out]. *)
Definition containers_store_list (lock mem_conts mem_itor : bool) : CM (Z * list ptr) :=
  if lock then
    size ← on_map sm_size;
    if size =? 0 then mret (0, []) else
    if mem_conts then
      pairs ← on_map (sm_pairs mem_itor);
      match pairs with
      | None => mret (-1, [])
      | Some pairs =>
        let conts := take (Z.to_nat size) pairs.*2 in
        refinc_all conts;;
        mret (0, conts)
      end
    else mret (-1, [])
  else mret (-1, []).

(** The loop of [containers_store_list_ids]. *)
Fixpoint ids_loop (mem : nat → bool) (ids : list cstr) (i : nat) (array : option (list (option string)))
    : option (option (option (list (option string)))) :=
  match ids with
  | [] => Some (Some array)
  | id :: ids =>
    '(ret, array) ← util_array_append (mem i) array (Some (cstr_s id));
    if negb (ret =? 0) then Some None else ids_loop mem ids (S i) array
  end.

Definition containers_store_list_ids (lock mem_itor : bool) (mem : nat → bool) : CM (option (list (option string))) :=
  if lock then
    size ← on_map sm_size;
    if size =? 0 then mret None else
    pairs ← on_map (sm_pairs mem_itor);
    match pairs with
    | None => mret None
    | Some pairs =>
      match ids_loop mem pairs.*1 0 None with
      | None => fail
      | Some None => mret None
      | Some (Some array) => mret array
      end
    end
  else mret None.

Definition containers_store_remove (l : lock_env) (id : cstr) : CM bool :=
  if l_lock l then
    ret ← on_map (sm_remove id);
    mret (if l_unlock l then ret else false)
  else mret false.

(** ** The index of names *)
Definition container_name_index_add (l : lock_env) (mem : map_mem) (name id : cstr) : CM bool :=
  if l_lock l then
    ret ← on_index (sm_insert mem name id);
    mret (if l_unlock l then ret else false)
  else mret false.

Definition container_name_index_rename (l : lock_env) (mem : map_mem) (new_name old_name id : cstr) : CM bool :=
  if l_lock l then
    ret ← on_index (sm_insert mem new_name id);
    ret ← (if (ret : bool) then on_index (sm_remove old_name) else mret false);
    mret (if l_unlock l then ret else false)
  else mret false.

Definition container_name_index_remove (l : lock_env) (name : cstr) : CM bool :=
  if l_lock l then
    ret ← on_index (sm_remove name);
    mret (if l_unlock l then ret else false)
  else mret false.

(** Inverting the index into a new map; [false] when an insertion fails. *)
Fixpoint invert_loop (mem : nat → map_mem) (l : list (cstr * cstr)) (i : nat) : M NT bool :=
  match l with
  | [] => mret true
  | (name, id) :: l =>
    ret ← sm_insert (mem i) id name;
    if (ret : bool) then invert_loop mem l (S i) else mret false
  end.

(** The new map of ids to names; [None] is [NULL]. *)
Definition container_name_index_get_all (mem_map mem_tree mem_nil lock mem_itor : bool) (mem : nat → map_mem)
    : CM (option NT) :=
  match sm_new mem_map mem_tree mem_nil with
  | None => mret None
  | Some m =>
    if lock then
      size ← on_index sm_size;
      if size =? 0 then mret (Some m) else
      pairs ← on_index (sm_pairs mem_itor);
      match pairs with
      | None => mret None
      | Some pairs =>
        match invert_loop mem pairs 0 m with
        | Some (true, m') => mret (Some m')
        | Some (false, _) => mret None
        | None => fail
        end
      end
    else mret None
  end.
End containers_store.

(** ** Accounting *)
Section counting.
Implicit Types (g : gmap cstr ptr) (p : ptr).

(** The references the store holds to a container: its number of entries. *)
Definition occ (p : ptr) (l : list ptr) : Z := Z.of_nat (length (filter (λ q, q = p) l)).
Definition stored g p : Z := occ p (map_to_list g).*2.

Definition one_if (v p : ptr) : Z := if decide (v = p) then 1 else 0.

Lemma occ_cons p v l : occ p (v :: l) = one_if v p + occ p l.
Proof. unfold occ, one_if. rewrite filter_cons. destruct (decide (v = p)); simpl; lia. Qed.

Lemma occ_perm p l l' : l ≡ₚ l' → occ p l = occ p l'.
Proof. unfold occ. by intros ->. Qed.

Lemma stored_insert g k v p : g !! k = None → stored (<[k:=v]> g) p = stored g p + one_if v p.
Proof.
  intros Hk. unfold stored. rewrite (occ_perm p _ ((k, v) :: map_to_list g).*2) by (by rewrite map_to_list_insert).
  rewrite fmap_cons, occ_cons. simpl. lia.
Qed.

Lemma stored_delete g k v p : g !! k = Some v → stored (delete k g) p = stored g p - one_if v p.
Proof.
  intros Hk. rewrite <- (insert_delete_id g k v Hk) at 2. rewrite stored_insert by apply lookup_delete_eq. lia.
Qed.

Lemma stored_replace g k v p :
  stored (<[k:=v]> g) p = stored g p + one_if v p - match g !! k with Some old => one_if old p | None => 0 end.
Proof.
  destruct (g !! k) as [old|] eqn:Hk; [|rewrite stored_insert by done; lia].
  rewrite <- insert_delete_eq, stored_insert by apply lookup_delete_eq. rewrite (stored_delete g k old p Hk). lia.
Qed.

Lemma occ_nonneg p l : 0 ≤ occ p l.
Proof. unfold occ. lia. Qed.

Lemma one_if_range v p : 0 ≤ one_if v p ≤ 1.
Proof. unfold one_if. case_decide; lia. Qed.

Lemma one_if_refl p : one_if p p = 1.
Proof. unfold one_if. by rewrite decide_True. Qed.

Lemma stored_pos g k p : g !! k = Some p → 0 < stored g p.
Proof.
  intros Hk. pose proof (stored_delete g k p p Hk) as Hd. rewrite one_if_refl in Hd.
  pose proof (occ_nonneg p (map_to_list (delete k g)).*2). unfold stored in *. lia.
Qed.

(** The counts in memory agree with [cnt]; a count of zero is a freed object. *)
Definition refs_ok (refs : gmap ptr Z) (cnt : ptr → Z) : Prop :=
  ∀ p, 0 ≤ cnt p < two64 ∧ refs !! p = if cnt p =? 0 then None else Some (cnt p).

Definition bump (cnt : ptr → Z) (p : ptr) (d : Z) : ptr → Z := λ q, cnt q + (if decide (p = q) then d else 0).

Lemma refs_ok_ext refs cnt cnt' : (∀ p, cnt' p = cnt p) → refs_ok refs cnt → refs_ok refs cnt'.
Proof. intros Hc Hr p. rewrite Hc. apply Hr. Qed.
End counting.

Section store_proofs.
Context {MT NT : Type} {SM : StrMap ptr MT} {NM : StrMap cstr NT}.
Implicit Types (s : cstore MT NT) (g : gmap cstr ptr) (ext : ptr → Z).

Lemma refinc_spec s cnt p :
  refs_ok (cs_refs s) cnt → 0 < cnt p < two64 - 1 →
  wp (container_refinc (Some p)) (λ _ s', cs_map s' = cs_map s ∧ cs_index s' = cs_index s ∧
    refs_ok (cs_refs s') (bump cnt p 1)) s.
Proof.
  intros Hr Hp. unfold wp, container_refinc. destruct (Hr p) as [_ ->]. rewrite (proj2 (Z.eqb_neq _ _)) by lia. simpl.
  split; [done|]. split; [done|]. rewrite u64_small by lia. intros q. unfold bump. destruct (Hr q) as [Hq Eq].
  destruct (decide (p = q)) as [<-|Hne].
  - rewrite lookup_insert_eq, (proj2 (Z.eqb_neq _ _)) by lia. split; [lia|done].
  - rewrite lookup_insert_ne, Z.add_0_r by done. done.
Qed.

Lemma unref_spec s cnt p :
  refs_ok (cs_refs s) cnt → 0 < cnt p →
  wp (container_unref (Some p)) (λ _ s', cs_map s' = cs_map s ∧ cs_index s' = cs_index s ∧
    refs_ok (cs_refs s') (bump cnt p (-1))) s.
Proof.
  intros Hr Hp. unfold wp, container_unref. destruct (Hr p) as [Hb ->]. rewrite (proj2 (Z.eqb_neq _ _)) by lia. simpl.
  split; [done|]. split; [done|]. rewrite u64_small by lia. intros q. unfold bump. destruct (Hr q) as [Hq Eq].
  destruct (decide (p = q)) as [<-|Hne].
  - split; [lia|]. change (cnt p + -1) with (cnt p - 1). destruct (cnt p - 1 =? 0); [apply lookup_delete_eq|apply lookup_insert_eq].
  - rewrite Z.add_0_r. split; [done|]. destruct (cnt p - 1 =? 0); [by rewrite lookup_delete_ne|by rewrite lookup_insert_ne].
Qed.

Lemma wp_on_map {A} (f : M MT A) (Q : A → cstore MT NT → Prop) s :
  wp f (λ a m, ∃ d, sm_dropped m = sm_dropped (cs_map s) ++ d ∧
    wp (unref_all d) (λ _ s', Q a s') (mk_cstore m (cs_index s) (cs_refs s))) (cs_map s) →
  wp (on_map f) Q s.
Proof.
  unfold wp at 1, on_map, wp at 2. destruct (f (cs_map s)) as [[a m]|]; [|done]. intros (d & -> & Hd).
  rewrite drop_app_length. by apply wp_bind.
Qed.

(** A call that only reads the map. *)
Lemma wp_on_map_read {A} (f : M MT A) (R : A → Prop) (Q : A → cstore MT NT → Prop) s :
  wp f (λ a m, m = cs_map s ∧ R a) (cs_map s) → (∀ a, R a → Q a s) → wp (on_map f) Q s.
Proof.
  intros Hf HQ. apply wp_on_map. eapply wp_mono; [exact Hf|]. intros a m [-> Ha]. exists []. rewrite app_nil_r.
  split; [done|]. apply wp_ret. destruct s. by apply HQ.
Qed.

Lemma wp_on_index {A} (f : M NT A) (Q : A → cstore MT NT → Prop) s :
  wp f (λ a n, Q a (mk_cstore (cs_map s) n (cs_refs s))) (cs_index s) → wp (on_index f) Q s.
Proof. unfold wp, on_index. by destruct (f (cs_index s)) as [[]|]. Qed.

(** [store_ok s g idx ext]: the store holds [g] and the index [idx], and the
    count of each container is its number of entries plus the number [ext] of
    references held by threads. *)
Record store_ok s g (idx : gmap cstr cstr) ext : Prop := {
  so_map : sm_models (cs_map s) g;
  so_index : sm_models (cs_index s) idx;
  so_refs : refs_ok (cs_refs s) (λ p, stored g p + ext p);
  so_ext p : 0 ≤ ext p
}.

Definition plus ext (r : option ptr) : ptr → Z := λ p, ext p + match r with Some q => one_if q p | None => 0 end.

Lemma bump_one (cnt : ptr → Z) p d q : bump cnt p d q = cnt q + d * one_if p q.
Proof. unfold bump, one_if. case_decide; lia. Qed.

(** Handing a reference of a container in the store to a thread. *)
Lemma refinc_ok s g idx ext r :
  store_ok s g idx ext → (∀ p, r = Some p → stored g p + ext p < two64 - 1) → (∀ p, r = Some p → 0 < stored g p) →
  wp (container_refinc r) (λ _ s', store_ok s' g idx (plus ext r)) s.
Proof.
  intros [Hm Hi Hr He] Hb Hp. destruct r as [p|].
  - pose proof (Hp p eq_refl). pose proof (He p). pose proof (Hb p eq_refl).
    eapply wp_mono; [apply refinc_spec; [exact Hr|lia]|].
    intros [] s' (E1 & E2 & Hr'). split; [by rewrite E1|by rewrite E2| |].
    + eapply refs_ok_ext; [|exact Hr']. intros q. rewrite bump_one. unfold plus. lia.
    + intros q. unfold plus. specialize (He q). pose proof (one_if_range p q). lia.
  - split; [done|done| |].
    + eapply refs_ok_ext; [|exact Hr]. intros q. unfold plus. lia.
    + intros q. unfold plus. specialize (He q). lia.
Qed.

(** Dropping a reference of the store, when an entry of the map has gone. *)
Lemma unref_dropped s g idx ext g' ext' r :
  sm_models (cs_map s) g' → sm_models (cs_index s) idx → refs_ok (cs_refs s) (λ p, stored g p + ext p) →
  (∀ p, 0 ≤ ext' p) → (∀ p, r = Some p → 0 < stored g p + ext p) →
  (∀ p, stored g' p + ext' p = stored g p + ext p - match r with Some q => one_if q p | None => 0 end) →
  wp (unref_all (option_list r)) (λ _ s', store_ok s' g' idx ext') s.
Proof.
  intros Hm Hi Hr He Hp Hc. destruct r as [p|]; simpl.
  - apply wp_bind. eapply wp_mono; [apply unref_spec; [exact Hr|by apply Hp]|]. intros [] s' (E1 & E2 & Hr').
    apply wp_ret. split; [by rewrite E1|by rewrite E2| |done].
    eapply refs_ok_ext; [|exact Hr']. intros q. rewrite bump_one, Hc. lia.
  - apply wp_ret. split; [done|done| |done]. eapply refs_ok_ext; [|exact Hr]. intros q. rewrite Hc. lia.
Qed.

Lemma get_by_id_ok s g idx ext id :
  store_ok s g idx ext → (∀ p, stored g p + ext p < two64 - 1) →
  wp (containers_store_get_by_id true (Some id)) (λ r s', r = g !! id ∧ store_ok s' g idx (plus ext r)) s.
Proof.
  intros Hok Hb. apply wp_bind. eapply wp_on_map_read; [by eapply sm_search_ok, Hok|]. intros r ->.
  apply wp_bind. eapply wp_mono; [eapply refinc_ok; [done|by intros; apply Hb|]|].
  - intros p Hp. by eapply stored_pos.
  - intros [] s' Hs'. by apply wp_ret.
Qed.

Lemma index_get_ok s g idx ext name :
  store_ok s g idx ext → wp (container_name_index_get true (Some name)) (λ r s', r = idx !! name ∧ s' = s) s.
Proof.
  intros [Hm Hi Hr He]. apply wp_on_index. eapply wp_mono; [by apply sm_search_ok|]. intros r n [-> ->]. by destruct s.
Qed.

(** ** Lookup by prefix *)
Definition has_prefix (prefix : string) (x : cstr * ptr) : Prop := String.prefix prefix (cstr_s x.1) = true.

#[local] Instance has_prefix_dec prefix x : Decision (has_prefix prefix x).
Proof. unfold has_prefix. apply _. Defined.

Lemma prefix_loop_some prefix l q :
  prefix_loop prefix l (Some q) = match filter (has_prefix prefix) l with [] => Some (Some q) | _ => None end.
Proof.
  induction l as [|[k v] l IH]; [done|]. rewrite filter_cons. cbn [prefix_loop].
  destruct (decide (has_prefix prefix (k, v))) as [Hp|Hp%not_true_is_false]; unfold has_prefix in Hp;
    cbn [fst] in Hp; by rewrite Hp.
Qed.

Lemma prefix_loop_none prefix l :
  prefix_loop prefix l None =
  match filter (has_prefix prefix) l with [] => Some None | [x] => Some (Some x.2) | _ => None end.
Proof.
  induction l as [|[k v] l IH]; [done|]. rewrite filter_cons. cbn [prefix_loop].
  destruct (decide (has_prefix prefix (k, v))) as [Hp|Hp%not_true_is_false]; unfold has_prefix in Hp;
    cbn [fst] in Hp; rewrite Hp; [|done]. rewrite prefix_loop_some. by destruct (filter (has_prefix prefix) l).
Qed.

(** The container whose id is the only one with the prefix. *)
Definition prefix_match g (prefix : string) : option ptr :=
  match filter (has_prefix prefix) (map_to_list g) with [x] => Some x.2 | _ => None end.

Lemma prefix_loop_match g prefix e :
  e ≡ₚ map_to_list g →
  match prefix_loop prefix e None with Some r => r | None => None end = prefix_match g prefix.
Proof.
  intros He. rewrite prefix_loop_none. unfold prefix_match.
  assert (Hp : filter (has_prefix prefix) e ≡ₚ filter (has_prefix prefix) (map_to_list g)) by (by rewrite He).
  destruct (filter (has_prefix prefix) e) as [|x [|y l]].
  - by apply Permutation_nil_l in Hp as <-.
  - by apply Permutation_singleton_l in Hp as <-.
  - apply Permutation_length in Hp. by destruct (filter (has_prefix prefix) (map_to_list g)) as [|? [|]].
Qed.

Lemma prefix_match_spec g prefix p :
  prefix_match g prefix = Some p ↔
  ∃ id, g !! id = Some p ∧ String.prefix prefix (cstr_s id) = true ∧
    ∀ id' p', g !! id' = Some p' → String.prefix prefix (cstr_s id') = true → id' = id.
Proof.
  unfold prefix_match.
  assert (Hin : ∀ id q, (id, q) ∈ filter (has_prefix prefix) (map_to_list g) ↔
    g !! id = Some q ∧ String.prefix prefix (cstr_s id) = true).
  { intros id q. rewrite list_elem_of_filter, elem_of_map_to_list. unfold has_prefix. simpl. tauto. }
  assert (Hnd : NoDup (filter (has_prefix prefix) (map_to_list g))) by apply NoDup_filter, NoDup_map_to_list.
  destruct (filter (has_prefix prefix) (map_to_list g)) as [|[id q] [|[id2 q2] l]].
  - split; [done|]. intros (id & H1 & H2 & _). destruct (not_elem_of_nil (id, p)). by apply Hin.
  - simpl. split.
    + intros [= <-]. exists id. destruct (proj1 (Hin id q)) as [H1 H2]; [by left|]. split_and!; [done|done|].
      intros id' p' H1' H2'. pose proof (proj2 (Hin id' p') (conj H1' H2')) as [= -> _]%list_elem_of_singleton. done.
    + intros (id' & H1 & H2 & _). by pose proof (proj2 (Hin id' p) (conj H1 H2)) as [= -> ->]%list_elem_of_singleton.
  - split; [done|]. intros (id' & H1 & H2 & Hu). exfalso.
    destruct (proj1 (Hin id q)) as [A1 A2]; [by left|]. destruct (proj1 (Hin id2 q2)) as [B1 B2]; [right; by left|].
    pose proof (Hu id q A1 A2). pose proof (Hu id2 q2 B1 B2). subst. rewrite A1 in B1. injection B1 as <-.
    apply list.NoDup_cons in Hnd as [Hn _]. apply Hn. by left.
Qed.

Lemma prefix_match_stored g prefix p : prefix_match g prefix = Some p → 0 < stored g p.
Proof. intros (id & Hid & _)%prefix_match_spec. by eapply stored_pos. Qed.

Lemma get_by_prefix_ok s g idx ext prefix :
  store_ok s g idx ext → (∀ p, stored g p + ext p < two64 - 1) →
  wp (containers_store_get_by_prefix true true (Some prefix)) (λ r s',
    r = prefix_match g (cstr_s prefix) ∧ store_ok s' g idx (plus ext r)) s.
Proof.
  intros Hok Hb. apply wp_bind. eapply wp_on_map_read; [by eapply (sm_pairs_ok true), Hok|].
  intros r (e & -> & He). pose proof (prefix_loop_match g (cstr_s prefix) e He) as Hl.
  destruct (prefix_loop (cstr_s prefix) e None) as [cont|].
  - apply wp_bind. eapply wp_mono; [eapply refinc_ok; [done|by intros; apply Hb|]|].
    + intros p ->. by eapply prefix_match_stored.
    + intros [] s' Hs'. by apply wp_ret.
  - apply wp_ret. split; [done|]. destruct Hok as [Hm Hi Hr Hx]. split; [done|done| |].
    + eapply refs_ok_ext; [|exact Hr]. intros q. unfold plus. lia.
    + intros q. unfold plus. specialize (Hx q). lia.
Qed.

(** What a name given by a client denotes: a full id first, then a name of the
    index whose id is in the store, then a prefix of exactly one id. *)
Definition resolve g (idx : gmap cstr cstr) (x : cstr) : option ptr :=
  match g !! x with
  | Some p => Some p
  | None =>
    match idx !! x ≫= λ id, g !! id with
    | Some p => Some p
    | None => prefix_match g (cstr_s x)
    end
  end.

Lemma store_ok_plus_none s g idx ext : store_ok s g idx (plus ext None) → store_ok s g idx ext.
Proof.
  intros [Hm Hi Hr Hx]. split; [done|done| |].
  - eapply refs_ok_ext; [|exact Hr]. intros q. unfold plus. lia.
  - intros q. specialize (Hx q). unfold plus in Hx. lia.
Qed.

(** C19: Lookup: [containers_store_get] returns the container that its argument
    denotes, and the caller holds one more reference to it. *)
Theorem containers_store_get_resolves s g idx ext x :
  store_ok s g idx ext → (∀ p, stored g p + ext p < two64 - 1) →
  wp (containers_store_get (mk_get true true true true true) (Some x)) (λ r s',
    r = resolve g idx x ∧ store_ok s' g idx (plus ext r)) s.
Proof.
  intros Hok Hb. unfold resolve. apply wp_bind. eapply wp_mono; [by eapply get_by_id_ok|].
  intros r1 s1 [-> Hs1]. destruct (g !! x) as [p|]; [by apply wp_ret|]. apply store_ok_plus_none in Hs1.
  apply wp_bind. simpl containers_store_get_by_name. apply wp_bind.
  eapply wp_mono; [by eapply index_get_ok|]. intros id s1' [-> ->]. destruct (idx !! x) as [id|]; simpl.
  - eapply wp_mono; [by eapply get_by_id_ok|]. intros r2 s2 [-> Hs2]. destruct (g !! id) as [p|]; [by apply wp_ret|].
    apply store_ok_plus_none in Hs2. by eapply get_by_prefix_ok.
  - apply wp_ret. by eapply get_by_prefix_ok.
Qed.

(** The prefix lookup: an id is found by a prefix exactly when no other id of
    the store has it. *)
Theorem containers_store_prefix_unique s g idx ext prefix p :
  store_ok s g idx ext → (∀ q, stored g q + ext q < two64 - 1) →
  (∃ s', containers_store_get_by_prefix true true (Some prefix) s = Some (Some p, s')) ↔
  ∃ id, g !! id = Some p ∧ String.prefix (cstr_s prefix) (cstr_s id) = true ∧
    ∀ id' p', g !! id' = Some p' → String.prefix (cstr_s prefix) (cstr_s id') = true → id' = id.
Proof.
  intros Hok Hb. rewrite <- prefix_match_spec.
  pose proof (get_by_prefix_ok s g idx ext prefix Hok Hb) as (r & s' & Hrun & -> & _)%wp_run. split.
  - intros (s'' & Hs). congruence.
  - intros Hp. exists s'. by rewrite Hrun, Hp.
Qed.

(** Adding: on success the store takes over the caller's reference, and a
    container that had the same id loses the store's reference; on failure
    nothing changes. *)
Theorem containers_store_add_ownership s g idx ext l mem id p :
  store_ok s g idx ext → 0 < ext p →
  wp (containers_store_add l mem id p) (λ b s',
    (store_ok s' (<[id:=p]> g) idx (λ q, ext q - one_if p q) ∧ b = l_unlock l) ∨
    (store_ok s' g idx ext ∧ b = false)) s.
Proof.
  intros [Hm Hi Hr Hx] Hp. unfold containers_store_add. destruct (l_lock l); [|by apply wp_ret; right].
  apply wp_bind, wp_on_map. eapply wp_mono; [by apply sm_replace_ok|]. intros b m (_ & _ & Hm' & Hd).
  destruct b; (eexists; split; [exact Hd|]).
  - eapply wp_mono; [eapply (unref_dropped _ g idx ext (<[id:=p]> g) (λ q, ext q - one_if p q) (g !! id)); try done|].
    + intros q. unfold one_if. specialize (Hx q). case_decide; subst; lia.
    + intros q Hq. pose proof (stored_pos g id q Hq). specialize (Hx q). lia.
    + intros q. rewrite stored_replace. destruct (g !! id); lia.
    + intros [] s' Hs'. apply wp_ret. left. split; [done|]. by destruct (l_unlock l).
  - apply wp_ret, wp_ret. right. split; [by split|]. by destruct (l_unlock l).
Qed.

(** Removing: the entry goes and with it the store's reference; a container
    that no thread refers to and that has no other entry is freed. *)
Theorem containers_store_remove_ownership s g idx ext l id :
  store_ok s g idx ext → l_lock l = true → l_unlock l = true →
  wp (containers_store_remove l id) (λ b s',
    b = bool_decide (is_Some (g !! id)) ∧ store_ok s' (delete id g) idx ext ∧
    ∀ p, g !! id = Some p → (cs_refs s' !! p = None ↔ stored g p = 1 ∧ ext p = 0)) s.
Proof.
  intros [Hm Hi Hr Hx] Hl Hu. unfold containers_store_remove. rewrite Hl, Hu.
  apply wp_bind, wp_on_map. eapply wp_mono; [by apply sm_remove_ok|]. intros b m (-> & Hm' & Hd).
  eexists; split; [exact Hd|].
  assert (Hs : ∀ q, stored (delete id g) q = stored g q - match g !! id with Some v => one_if v q | None => 0 end).
  { intros q. destruct (g !! id) as [v|] eqn:E; [by apply stored_delete|]. rewrite delete_id by done. lia. }
  eapply wp_mono; [eapply (unref_dropped _ g idx ext (delete id g) ext (g !! id)); try done|].
  - intros q Hq. pose proof (stored_pos g id q Hq). specialize (Hx q). lia.
  - intros q. rewrite Hs. lia.
  - intros [] s' Hs'. apply wp_ret. split; [done|]. split; [done|]. intros p Hp.
    destruct Hs' as [_ _ Hr' _]. destruct (Hr' p) as [Hb ->]. rewrite Hs, Hp, one_if_refl in *.
    pose proof (stored_pos g id p Hp). specialize (Hx p).
    destruct (Z.eqb_spec (stored g p - 1 + ext p) 0); split; try done; lia.
Qed.

Lemma refinc_all_ok l s g idx ext :
  store_ok s g idx ext → (∀ p, p ∈ l → 0 < stored g p) → (∀ p, stored g p + ext p + occ p l < two64) →
  wp (refinc_all l) (λ _ s', store_ok s' g idx (λ p, ext p + occ p l)) s.
Proof.
  revert s ext. induction l as [|q l IH]; intros s ext Hok Hp Hb.
  - apply wp_ret. destruct Hok as [Hm Hi Hr Hx]. split; [done|done| |].
    + eapply refs_ok_ext; [|exact Hr]. intros p. unfold occ. simpl. lia.
    + intros p. unfold occ. simpl. specialize (Hx p). lia.
  - apply wp_bind. eapply wp_mono; [eapply (refinc_ok _ _ _ _ (Some q)); [done| |]|].
    + intros p [= <-]. specialize (Hb q). rewrite occ_cons, one_if_refl in Hb. pose proof (occ_nonneg q l). lia.
    + intros p [= <-]. apply Hp. left.
    + intros [] s' Hs'. eapply wp_mono; [apply (IH s' (plus ext (Some q))); [done| |]|].
      * intros p Hin. apply Hp. by right.
      * intros p. specialize (Hb p). rewrite occ_cons in Hb. unfold plus. lia.
      * intros [] s'' [Hm Hi Hr Hx]. split; [done|done| |].
        -- eapply refs_ok_ext; [|exact Hr]. intros p. rewrite occ_cons. unfold plus. lia.
        -- intros p. rewrite occ_cons. specialize (Hx p). unfold plus in Hx. lia.
Qed.

Lemma elem_stored g p : p ∈ (map_to_list g).*2 → 0 < stored g p.
Proof.
  intros ([id q] & -> & Hin)%list_elem_of_fmap. simpl. apply elem_of_map_to_list in Hin. by eapply stored_pos.
Qed.

(** Listing: the array holds every container of the store, once per entry, and
    the caller holds a reference for each element. *)
Theorem containers_store_list_snapshot s g idx ext :
  store_ok s g idx ext → Z.of_nat (size g) < two64 → (∀ p, 2 * stored g p + ext p < two64) →
  wp (containers_store_list true true true) (λ r s',
    r.1 = 0 ∧ r.2 ≡ₚ (map_to_list g).*2 ∧ store_ok s' g idx (λ p, ext p + stored g p)) s.
Proof.
  intros Hok Hn Hb. apply wp_bind. eapply wp_on_map_read; [by eapply sm_size_ok, Hok|]. intros n ->.
  rewrite u64_small by lia. destruct (Z.eqb_spec (Z.of_nat (size g)) 0) as [E|E].
  - apply wp_ret. assert (g = ∅) as -> by (apply map_size_empty_inv; lia). rewrite map_to_list_empty.
    split; [done|]. split; [done|]. destruct Hok as [Hm Hi Hr Hx].
    assert (∀ p, stored ∅ p = 0) as Hz by (intros p; unfold stored; by rewrite map_to_list_empty).
    split; [done|done| |]; [eapply refs_ok_ext; [|exact Hr]|]; intros p; specialize (Hx p); cbn beta; rewrite ?Hz; lia.
  - apply wp_bind. eapply wp_on_map_read; [by eapply (sm_pairs_ok true), Hok|]. intros r (e & -> & He).
    assert (length e = size g) as Hl by (by rewrite He, length_map_to_list).
    rewrite Nat2Z.id, <- Hl, <- (length_fmap snd e), take_ge by done.
    assert (∀ p, occ p e.*2 = stored g p) as Ho by (intros p; apply occ_perm; by rewrite He).
    apply wp_bind. eapply wp_mono; [eapply refinc_all_ok; [done| |]|].
    + intros p. rewrite He. apply elem_stored.
    + intros p. rewrite Ho. specialize (Hb p). lia.
    + intros [] s' [Hm Hi Hr Hx]. apply wp_ret. split; [done|]. split; [simpl; by rewrite He|].
      split; [done|done| |]; [eapply refs_ok_ext; [|exact Hr]; intros p; cbn beta; by rewrite Ho|intros p; rewrite <- Ho; apply Hx].
Qed.

(** ** The index of names *)

(** Renaming: refused when the new name is taken; otherwise the new name is
    bound to the id and the old name goes.  When the old name is not bound the
    call reports a failure although the new name stays in the index. *)
Theorem container_name_index_rename_spec s g idx ext mem new_name old_name id :
  store_ok s g idx ext → sm_room (StrMap:=NM) mem = true →
  wp (container_name_index_rename (mk_lock true true) mem new_name old_name id) (λ b s',
    match idx !! new_name with
    | Some _ => b = false ∧ store_ok s' g idx ext
    | None => b = bool_decide (is_Some (<[new_name:=id]> idx !! old_name)) ∧
        store_ok s' g (delete old_name (<[new_name:=id]> idx)) ext
    end) s.
Proof.
  intros [Hm Hi Hr Hx] Hroom. apply wp_bind, wp_on_index. eapply wp_mono; [by apply sm_insert_ok|].
  intros b n (-> & Hn & _). rewrite Hroom in *. destruct (idx !! new_name) as [x|] eqn:E; simpl.
  - by apply wp_ret.
  - apply wp_bind, wp_on_index. eapply wp_mono; [apply sm_remove_ok; exact Hn|]. intros b n' (-> & Hn' & _).
    by apply wp_ret.
Qed.

(** The loop of [container_name_index_get_all] after the entries [done]. *)
Lemma invert_loop_ok mem l : ∀ i (m : NT) inv done,
  (∀ i, sm_room (StrMap:=NM) (mem i) = true) → sm_models m inv → NoDup (done ++ l).*1 →
  (∀ id name, inv !! id = Some name ↔ (name, id) ∈ done) →
  wp (invert_loop mem l i) (λ b m',
    if b then ∃ inv', sm_models m' inv' ∧ ∀ id name, inv' !! id = Some name ↔ (name, id) ∈ done ++ l
    else ∃ id n1 n2, n1 ≠ n2 ∧ (n1, id) ∈ done ++ l ∧ (n2, id) ∈ done ++ l) m.
Proof.
  induction l as [|[name id] l IH]; intros i m inv done Hroom Hm Hnd Hinv.
  - apply wp_ret. exists inv. split; [exact Hm|]. by rewrite app_nil_r.
  - apply wp_bind. eapply wp_mono; [by apply sm_insert_ok|]. intros b m' (-> & Hm' & _). rewrite Hroom in *.
    simpl in Hm' |- *. destruct (inv !! id) as [name'|] eqn:E; simpl in Hm' |- *.
    + apply wp_ret. exists id, name, name'. apply Hinv in E. split; [|set_solver].
      intros ->. rewrite fmap_app in Hnd. apply NoDup_app in Hnd as (_ & Hd & _). eapply (Hd name'); [|left].
      by apply (list_elem_of_fmap_2 fst) in E.
    + rewrite (cons_middle _ done l), app_assoc in Hnd |- *. eapply IH; [done|exact Hm'|done|].
      intros id' n'. rewrite elem_of_app, list_elem_of_singleton. destruct (decide (id = id')) as [<-|Hne].
      * rewrite lookup_insert_eq. split; [intros [= <-]; by right|]. intros [Hd|[= <-]]; [|done].
        apply Hinv in Hd. congruence.
      * rewrite lookup_insert_ne, Hinv by done. split; [by left|]. by intros [?|[= ]].
Qed.

(** [container_name_index_get_all] returns the inverse of the index, or [NULL]
    when two names have the same id; the index does not change. *)
Theorem container_name_index_get_all_inverse s g idx ext mem :
  store_ok s g idx ext → (∀ i, sm_room (StrMap:=NM) (mem i) = true) → Z.of_nat (size idx) < two64 →
  wp (container_name_index_get_all true true true true true mem) (λ r s', s' = s ∧
    match r with
    | Some m => ∃ inv : gmap cstr cstr, sm_models m inv ∧ ∀ id name, inv !! id = Some name ↔ idx !! name = Some id
    | None => ∃ id n1 n2, n1 ≠ n2 ∧ idx !! n1 = Some id ∧ idx !! n2 = Some id
    end) s.
Proof.
  intros [Hm Hi Hr Hx] Hroom Hn. unfold container_name_index_get_all.
  pose proof (sm_new_ok (StrMap:=NM) true true true) as Hnew. destruct (sm_new true true true) as [m|]; [|done].
  destruct Hnew as [Hnew _]. apply wp_bind, wp_on_index. eapply wp_mono; [by apply sm_size_ok|].
  intros n m1 [-> ->]. rewrite u64_small by lia. destruct s as [cm ci cr]. simpl in *.
  destruct (Z.eqb_spec (Z.of_nat (size idx)) 0) as [E|E].
  - apply wp_ret. assert (idx = ∅) as -> by (apply map_size_empty_inv; lia). split; [done|]. by exists ∅.
  - apply wp_bind, wp_on_index. eapply wp_mono; [by apply (sm_pairs_ok true)|]. intros r m1 (-> & e & -> & He).
    assert (∀ name id, (name, id) ∈ e ↔ idx !! name = Some id) as Hin
      by (intros; rewrite He; apply elem_of_map_to_list).
    assert (NoDup ([] ++ e).*1) as Hnd by (simpl; rewrite He; apply NoDup_fst_map_to_list).
    pose proof (invert_loop_ok mem e 0 m ∅ [] Hroom Hnew Hnd ltac:(intros; rewrite lookup_empty; set_solver))
      as (b & m' & -> & Hb)%wp_run. destruct b; apply wp_ret; (split; [done|]).
    + destruct Hb as (inv & Hinv & Hb). exists inv. split; [done|]. intros. by rewrite Hb, <- Hin.
    + destruct Hb as (id & n1 & n2 & Hne & H1 & H2). exists id, n1, n2. by rewrite <- !Hin.
Qed.
End store_proofs.

(** ** A store with one container and one name *)
Section examples.
Let SM : StrMap ptr (map_t ptr MAP_STR_PTR) := str_ptr_map true.
Let NM : StrMap cstr (map_t unit MAP_STR_STR) := str_str_map true.
#[local] Existing Instance SM.
#[local] Existing Instance NM.

Definition web_id : cstr := cstr_of "0a1b".
Definition web_name : cstr := cstr_of "web".
Definition web_ptr : ptr := 7%N.
Definition both_ok : lock_env := mk_lock true true.

Definition web_store : gmap cstr ptr := {[web_id := web_ptr]}.
Definition web_index : gmap cstr cstr := {[web_name := web_id]}.

Lemma web_stored p : stored web_store p = one_if web_ptr p.
Proof. unfold stored, web_store. rewrite map_to_list_singleton. simpl. rewrite occ_cons. unfold occ. simpl. lia. Qed.

(** One container that the store and one thread refer to. *)
Lemma sample_store : ∃ s : cstore (map_t ptr MAP_STR_PTR) (map_t unit MAP_STR_STR),
  store_ok s web_store web_index (one_if web_ptr).
Proof.
  destruct (one_entry (SM':=SM) web_id web_ptr) as [m Hm]. destruct (one_entry (SM':=NM) web_name web_id) as [n Hn].
  exists (mk_cstore m n {[web_ptr := 2]}). split; [exact Hm|exact Hn| |intros q; apply one_if_range].
  intros q. rewrite web_stored. unfold one_if. simpl cs_refs. case_decide as E; subst.
  - rewrite lookup_singleton_eq. by split.
  - by rewrite lookup_singleton_ne.
Qed.

Lemma web_bound p : 2 * stored web_store p + one_if web_ptr p < two64 - 1.
Proof. rewrite web_stored. pose proof (one_if_range web_ptr p). unfold two64. lia. Qed.

Lemma web_bound_one p : stored web_store p + one_if web_ptr p < two64 - 1.
Proof. pose proof (web_bound p). rewrite web_stored in *. pose proof (one_if_range web_ptr p). lia. Qed.

Lemma web_bound_list p : 2 * stored web_store p + one_if web_ptr p < two64.
Proof. pose proof (web_bound p). lia. Qed.

Lemma containers_store_get_resolves_witness :
  ∃ s : cstore (map_t ptr MAP_STR_PTR) (map_t unit MAP_STR_STR),
  wp (containers_store_get (mk_get true true true true true) (Some web_name)) (λ r s',
    r = resolve web_store web_index web_name ∧ store_ok s' web_store web_index (plus (one_if web_ptr) r)) s ∧
  resolve web_store web_index web_name = Some web_ptr.
Proof.
  destruct sample_store as (s & Hok). exists s. split; [|reflexivity].
  exact (containers_store_get_resolves s _ _ _ web_name Hok web_bound_one).
Defined.

Lemma containers_store_prefix_unique_witness :
  ∃ s : cstore (map_t ptr MAP_STR_PTR) (map_t unit MAP_STR_STR),
  (∃ s', containers_store_get_by_prefix true true (Some (cstr_of "0a")) s = Some (Some web_ptr, s')) ↔
  ∃ id, web_store !! id = Some web_ptr ∧ String.prefix "0a" (cstr_s id) = true ∧
    ∀ id' p', web_store !! id' = Some p' → String.prefix "0a" (cstr_s id') = true → id' = id.
Proof.
  destruct sample_store as (s & Hok). exists s.
  exact (containers_store_prefix_unique s _ _ _ (cstr_of "0a") web_ptr Hok web_bound_one).
Defined.

Lemma containers_store_add_ownership_witness :
  ∃ s : cstore (map_t ptr MAP_STR_PTR) (map_t unit MAP_STR_STR),
  wp (containers_store_add both_ok mem_ok (cstr_of "ff") web_ptr) (λ b s',
    (store_ok s' (<[cstr_of "ff" := web_ptr]> web_store) web_index (λ q, one_if web_ptr q - one_if web_ptr q) ∧ b = true) ∨
    (store_ok s' web_store web_index (one_if web_ptr) ∧ b = false)) s.
Proof.
  destruct sample_store as (s & Hok). exists s.
  exact (containers_store_add_ownership s _ _ _ both_ok mem_ok (cstr_of "ff") web_ptr Hok eq_refl).
Defined.

Lemma containers_store_remove_ownership_witness :
  ∃ s : cstore (map_t ptr MAP_STR_PTR) (map_t unit MAP_STR_STR),
  wp (containers_store_remove both_ok web_id) (λ b s',
    b = bool_decide (is_Some (web_store !! web_id)) ∧ store_ok s' (delete web_id web_store) web_index (one_if web_ptr) ∧
    ∀ p, web_store !! web_id = Some p → (cs_refs s' !! p = None ↔ stored web_store p = 1 ∧ one_if web_ptr p = 0)) s.
Proof.
  destruct sample_store as (s & Hok). exists s.
  exact (containers_store_remove_ownership s _ _ _ both_ok web_id Hok eq_refl eq_refl).
Defined.

Lemma containers_store_list_snapshot_witness :
  ∃ s : cstore (map_t ptr MAP_STR_PTR) (map_t unit MAP_STR_STR),
  wp (containers_store_list true true true) (λ r s',
    r.1 = 0 ∧ r.2 ≡ₚ (map_to_list web_store).*2 ∧ store_ok s' web_store web_index (λ p, one_if web_ptr p + stored web_store p)) s.
Proof.
  destruct sample_store as (s & Hok). exists s.
  exact (containers_store_list_snapshot s _ _ _ Hok eq_refl web_bound_list).
Defined.

Lemma container_name_index_rename_spec_witness :
  ∃ s : cstore (map_t ptr MAP_STR_PTR) (map_t unit MAP_STR_STR),
  wp (container_name_index_rename both_ok mem_ok (cstr_of "db") web_name web_id) (λ b s',
    b = bool_decide (is_Some (<[cstr_of "db" := web_id]> web_index !! web_name)) ∧
    store_ok s' web_store (delete web_name (<[cstr_of "db" := web_id]> web_index)) (one_if web_ptr)) s.
Proof.
  destruct sample_store as (s & Hok). exists s.
  exact (container_name_index_rename_spec s _ _ _ mem_ok (cstr_of "db") web_name web_id Hok eq_refl).
Defined.

Lemma container_name_index_get_all_inverse_witness :
  ∃ s : cstore (map_t ptr MAP_STR_PTR) (map_t unit MAP_STR_STR),
  wp (container_name_index_get_all true true true true true (λ _, mem_ok)) (λ r s', s' = s ∧
    match r with
    | Some m => ∃ inv : gmap cstr cstr, sm_models m inv ∧ ∀ id name, inv !! id = Some name ↔ web_index !! name = Some id
    | None => ∃ id n1 n2, n1 ≠ n2 ∧ web_index !! n1 = Some id ∧ web_index !! n2 = Some id
    end) s.
Proof.
  destruct sample_store as (s & Hok). exists s.
  exact (container_name_index_get_all_inverse s _ _ _ (λ _, mem_ok) Hok (λ _, eq_refl) eq_refl).
Defined.
End examples.
