(* ===== verification/ImageCorrect.v ===== *)
(** * The store of images implements its specification

    [rep]: the objects, lists and indices of [ImageStore] stand for a store of
    [ImageSpec].  Each function is proved to keep that, for every outcome of
    locks and files; memory suffices. *)
From stdpp Require Import base gmap list fin_maps numbers strings.
From Stdlib Require Import ZArith Lia Ascii.
From S2P Require Import Prelude CString Regex Array RbTree Map StrMap Convert StringUtil Verify Path SymlinkScope IdNameManager ImageName ImageStore ImageSpec ContainersStore.

Local Open Scope Z_scope.

(** ** Outcomes *)
Definition mem_all (w : world) : Prop := w_mem w = λ _, true.
Definition io_all (w : world) : Prop := w_io w = λ _, true.

Lemma mem_sub i w : mem_all w → mem_all (sub i w).
Proof. unfold mem_all. cbn. by intros ->. Qed.
Lemma io_sub i w : io_all w → io_all (sub i w).
Proof. unfold io_all. cbn. by intros ->. Qed.
Lemma alloc_ok w : mem_all w → alloc w = true.
Proof. unfold mem_all, alloc. by intros ->. Qed.
Lemma io_ok w : io_all w → io w = true.
Proof. unfold io_all, io. by intros ->. Qed.
Lemma map_room_ok w : mem_all w → map_room w = mem_ok.
Proof. unfold mem_all, map_room. by intros ->. Qed.
Create HintDb world.
#[export] Hint Resolve mem_sub io_sub alloc_ok io_ok : world.

(** ** The abstract store *)
Section abstract.
Context (bound : nat).
Implicit Types (a : astore) (imgs : gmap cstr storage_image).

Lemma owner_spec a n k : awf bound a → owner (a_imgs a) n = Some k ↔ ∃ i, a_imgs a !! k = Some i ∧ n ∈ si_names i.
Proof.
  intros Hw. unfold owner. split.
  - destruct (filter _ _) as [|x l] eqn:E; [done|]. cbn. intros [= <-]. assert (Hx : x ∈ filter (λ x, n ∈ si_names x.2) (map_to_list (a_imgs a))) by (rewrite E; by left).
    apply list_elem_of_filter in Hx as [Hn Hx]. destruct x as [k i]. apply elem_of_map_to_list in Hx. by exists i.
  - intros (i & Hk & Hn). destruct (filter _ _) as [|[k' i'] l] eqn:E.
    + exfalso. assert (Hx : (k, i) ∈ filter (λ x, n ∈ si_names x.2) (map_to_list (a_imgs a))) by (apply list_elem_of_filter; split; [done|by apply elem_of_map_to_list]).
      rewrite E in Hx. by apply not_elem_of_nil in Hx.
    + assert (Hx : (k', i') ∈ filter (λ x, n ∈ si_names x.2) (map_to_list (a_imgs a))) by (rewrite E; by left).
      apply list_elem_of_filter in Hx as [Hn' Hx%elem_of_map_to_list]. cbn in *. f_equal. by eapply (wf_owner bound a Hw).
Qed.

Lemma owner_none a n : awf bound a → owner (a_imgs a) n = None ↔ ∀ k i, a_imgs a !! k = Some i → n ∉ si_names i.
Proof.
  intros Hw. split.
  - intros Ho k i Hk Hn. assert (owner (a_imgs a) n = Some k) by (apply owner_spec; [done|by exists i]). congruence.
  - intros H. destruct (owner (a_imgs a) n) as [k|] eqn:E; [|done]. apply owner_spec in E as (i & Hk & Hn); [|done]. by destruct (H k i).
Qed.
End abstract.

(** ** Representation *)
Section rep.
Context {MT : Type} {SM : StrMap ptr MT}.
Implicit Types (s : image_state MT) (a : astore) (G N D : gmap cstr ptr).

(** [held] has the references that calls in progress have taken. *)
Record rep (held : list ptr) (G N D : gmap cstr ptr) s a : Prop := {
  rp_ready : is_ready s = true;
  rp_id : sm_models (is_byid s) G;
  rp_name : sm_models (is_byname s) N;
  rp_dig : sm_models (is_bydigest s) D;
  rp_dom : ∀ k, is_Some (a_imgs a !! k) → is_Some (G !! k);
  rp_obj : ∀ k p, G !! k = Some p → ∃ im i, is_imgs s !! p = Some im ∧ im_simage im = Some i ∧ a_imgs a !! k = Some i;
  rp_names : ∀ n p, N !! n = Some p ↔ ∃ k i, G !! k = Some p ∧ a_imgs a !! k = Some i ∧ n ∈ si_names i;
  rp_nodup : NoDup (is_list s);
  rp_list : ∀ p, p ∈ is_list s ↔ ∃ k, G !! k = Some p;
  rp_len : is_len s = u64 (Z.of_nat (length (is_list s)));
  rp_live : ∀ p, is_Some (is_imgs s !! p) ↔ p ∈ is_list s ∨ p ∈ held;
  rp_ref : ∀ p im, is_imgs s !! p = Some im → im_refcnt im = (if decide (p ∈ is_list s) then 1 else 0) + occ p held;
  rp_held : (length held < 8)%nat;
  rp_digs : ∀ d, match D !! d, a_digs a !! d with
                 | Some q, Some ks => ∃ l, is_digs s !! q = Some (mk_digest l (u64 (Z.of_nat (length l)))) ∧ Forall2 (λ k p, G !! k = Some p) ks l
                 | None, None => True
                 | _, _ => False
                 end;
  rp_dinj : ∀ d d' q, D !! d = Some q → D !! d' = Some q → d = d';
  rp_next : ∀ p, is_Some (is_imgs s !! p) ∨ is_Some (is_digs s !! p) → (p < is_next s)%N
}.

#[global] Arguments rp_ready {held G N D s a} _.
#[global] Arguments rp_id {held G N D s a} _.
#[global] Arguments rp_name {held G N D s a} _.
#[global] Arguments rp_dig {held G N D s a} _.
#[global] Arguments rp_dom {held G N D s a} _.
#[global] Arguments rp_obj {held G N D s a} _.
#[global] Arguments rp_names {held G N D s a} _.
#[global] Arguments rp_nodup {held G N D s a} _.
#[global] Arguments rp_list {held G N D s a} _.
#[global] Arguments rp_len {held G N D s a} _.
#[global] Arguments rp_live {held G N D s a} _.
#[global] Arguments rp_ref {held G N D s a} _.
#[global] Arguments rp_held {held G N D s a} _.
#[global] Arguments rp_digs {held G N D s a} _.
#[global] Arguments rp_dinj {held G N D s a} _.
#[global] Arguments rp_next {held G N D s a} _.

Lemma rep_empty s :
  is_ready s = true → is_list s = [] → is_len s = 0 → is_imgs s = ∅ → is_digs s = ∅ → sm_models (is_byid s) ∅ → sm_models (is_byname s) ∅ → sm_models (is_bydigest s) ∅ → rep [] ∅ ∅ ∅ s (mk_astore ∅ ∅).
Proof.
  intros Hrd Hl Hn Him Hdg H1 H2 H3. split; cbn; rewrite ?Hl, ?Hn, ?Him, ?Hdg; try done; try (intros; by rewrite ?lookup_empty in *); try apply NoDup_nil_2; try lia.
  - intros n p. rewrite lookup_empty. split; [done|]. by intros (k & i & Hk & _).
  - intros p. split; [intros H; by apply not_elem_of_nil in H|]. by intros [k Hk].
  - intros p. rewrite lookup_empty. split; [by intros [? [=]]|]. intros [H|H]; by apply not_elem_of_nil in H.
  - intros p. rewrite !lookup_empty. by intros [[? [=]]|[? [=]]].
Qed.

Definition calm s s' : Prop := is_lock s' = is_lock s ∧ is_disk s' = is_disk s.

Lemma calm_trans s1 s2 s3 : calm s1 s2 → calm s2 s3 → calm s1 s3.
Proof. unfold calm. intuition congruence. Qed.

Lemma rp_inj bound held G N D s a k k' p : rep held G N D s a → awf bound a → G !! k = Some p → G !! k' = Some p → k = k'.
Proof.
  intros Hr Hw Hk Hk'. destruct (rp_obj Hr k p Hk) as (im & i & Him & Hi & Ha). destruct (rp_obj Hr k' p Hk') as (im' & i' & Him' & Hi' & Ha').
  assert (i = i') as <- by congruence. by rewrite <- (wf_id bound a Hw k i Ha), <- (wf_id bound a Hw k' i Ha').
Qed.

(** *** Access *)
Lemma wp_byid {A} (f : M MT A) (Q : A → image_state MT → Prop) s : wp f (λ x m, Q x (set_byid m s)) (is_byid s) → wp (on_byid f) Q s.
Proof. unfold wp, on_byid. by destruct (f (is_byid s)) as [[]|]. Qed.
Lemma wp_byname {A} (f : M MT A) (Q : A → image_state MT → Prop) s : wp f (λ x m, Q x (set_byname m s)) (is_byname s) → wp (on_byname f) Q s.
Proof. unfold wp, on_byname. by destruct (f (is_byname s)) as [[]|]. Qed.
Lemma wp_bydigest {A} (f : M MT A) (Q : A → image_state MT → Prop) s :
  wp f (λ x m, Q x (set_digs (foldr delete (is_digs s) (drop (length (sm_dropped (is_bydigest s))) (sm_dropped m))) (set_bydigest m s))) (is_bydigest s) → wp (on_bydigest f) Q s.
Proof. unfold wp, on_bydigest. by destruct (f (is_bydigest s)) as [[]|]. Qed.

Lemma wp_byid_search G k (Q : option ptr → image_state MT → Prop) s : sm_models (is_byid s) G → Q (G !! k) s → wp (on_byid (sm_search k)) Q s.
Proof.
  intros Hm HQ. apply wp_byid. eapply wp_mono; [by apply sm_search_ok|]. cbn beta. intros v m [-> ->]. by destruct s.
Qed.
Lemma wp_byname_search N k (Q : option ptr → image_state MT → Prop) s : sm_models (is_byname s) N → Q (N !! k) s → wp (on_byname (sm_search k)) Q s.
Proof.
  intros Hm HQ. apply wp_byname. eapply wp_mono; [by apply sm_search_ok|]. cbn beta. intros v m [-> ->]. by destruct s.
Qed.
Lemma wp_bydigest_search D k (Q : option ptr → image_state MT → Prop) s : sm_models (is_bydigest s) D → Q (D !! k) s → wp (on_bydigest (sm_search k)) Q s.
Proof.
  intros Hm HQ. apply wp_bydigest. eapply wp_mono; [by apply sm_search_ok|]. cbn beta. intros v m [-> ->]. rewrite drop_all. by destruct s.
Qed.

Lemma wp_ld_img p im (Q : image_t → image_state MT → Prop) s : is_imgs s !! p = Some im → Q im s → wp (ld_img p) Q s.
Proof. unfold wp, ld_img. by intros ->. Qed.
Lemma wp_ld_simage p im i (Q : storage_image → image_state MT → Prop) s : is_imgs s !! p = Some im → im_simage im = Some i → Q i s → wp (ld_simage p) Q s.
Proof. intros Hp Hi HQ. apply wp_bind. eapply wp_ld_img; [exact Hp|]. rewrite Hi. by apply wp_ret. Qed.
Lemma wp_st_img p im f (Q : unit → image_state MT → Prop) s : is_imgs s !! p = Some im → Q tt (set_imgs (<[p := f im]> (is_imgs s)) s) → wp (st_img p f) Q s.
Proof. unfold wp, st_img. by intros ->. Qed.
Lemma wp_st_simage p im i f (Q : unit → image_state MT → Prop) s :
  is_imgs s !! p = Some im → im_simage im = Some i → Q tt (set_imgs (<[p := mk_image (Some (f i)) (im_spec im) (im_refcnt im)]> (is_imgs s)) s) → wp (st_simage p f) Q s.
Proof. intros Hp Hi HQ. apply wp_bind. eapply wp_ld_simage; [done..|]. eapply wp_st_img; [exact Hp|]. by rewrite Hi. Qed.
Lemma wp_ld_dig q d (Q : digest_image → image_state MT → Prop) s : is_digs s !! q = Some d → Q d s → wp (ld_dig q) Q s.
Proof. unfold wp, ld_dig. by intros ->. Qed.
Lemma wp_st_dig q d d0 (Q : unit → image_state MT → Prop) s : is_digs s !! q = Some d0 → Q tt (set_digs (<[q := d]> (is_digs s)) s) → wp (st_dig q d) Q s.
Proof. unfold wp, st_dig. by intros ->. Qed.

(** *** References *)
Lemma occ_le p (l : list ptr) : occ p l ≤ Z.of_nat (length l).
Proof. unfold occ. pose proof (length_filter (λ q, q = p) l). lia. Qed.

Lemma occ_pos p (l : list ptr) : p ∈ l → 1 ≤ occ p l.
Proof. induction 1 as [x l|x y l _ IH]; rewrite occ_cons; [rewrite one_if_refl; pose proof (occ_nonneg x l); lia|]. pose proof (one_if_range y x). lia. Qed.

Lemma occ_notin p (l : list ptr) : p ∉ l → occ p l = 0.
Proof.
  induction l as [|x l IH]; [done|]. rewrite not_elem_of_cons. intros [Hx Hl]. rewrite occ_cons, IH by done. unfold one_if. by rewrite decide_False by congruence.
Qed.

Lemma rp_ref_range held G N D s a p im : rep held G N D s a → is_imgs s !! p = Some im → 0 <= im_refcnt im < 9.
Proof.
  intros Hr Hp. rewrite (rp_ref Hr p im Hp). pose proof (occ_le p held). pose proof (occ_nonneg p held). pose proof (rp_held Hr). destruct (decide _); lia.
Qed.

(** The heap with another image at [p], under a store whose other images are the
    same. *)
Lemma rep_imgs held held' G N D s a a' p im im' :
  rep held G N D s a → is_imgs s !! p = Some im →
  im_refcnt im' = (if decide (p ∈ is_list s) then 1 else 0) + occ p held' → (∀ q, q ≠ p → (q ∈ held ↔ q ∈ held') ∧ occ q held' = occ q held) → (length held' < 8)%nat →
  (p ∈ is_list s ∨ p ∈ held') → a_digs a' = a_digs a →
  (∀ k, G !! k = Some p → ∃ i i', a_imgs a !! k = Some i ∧ im_simage im' = Some i' ∧ a_imgs a' = <[k := i']> (a_imgs a) ∧ (∀ n, n ∈ si_names i' ↔ n ∈ si_names i)) →
  ((∀ k, G !! k ≠ Some p) → a_imgs a' = a_imgs a) →
  (∀ k k', G !! k = Some p → G !! k' = Some p → k = k') →
  rep held' G N D (set_imgs (<[p := im']> (is_imgs s)) s) a'.
Proof.
  intros Hr Hp Href Hoth Hlen Hin Hdig HG HnG Hinj.
  assert (Hcase : (∃ k, G !! k = Some p) ∨ ∀ k, G !! k ≠ Some p).
  { destruct (decide (p ∈ is_list s)) as [H|H]; [left; by apply (rp_list Hr)|]. right. intros k Hk. apply H, (rp_list Hr). by exists k. }
  split; cbn; try apply Hr; try done.
  - destruct Hcase as [[k Hk]|Hn]; [|rewrite HnG by done; apply Hr]. destruct (HG k Hk) as (i & i' & Hi & _ & -> & _). intros k'. rewrite lookup_insert_is_Some'. intros [<-|H]; [by eexists|]. by apply (rp_dom Hr).
  - intros k q Hk. destruct (rp_obj Hr k q Hk) as (imq & iq & Hq & Hiq & Ha). destruct (decide (q = p)) as [->|Hne].
    + destruct (HG k Hk) as (i & i' & Hi & Hi' & -> & _). exists im', i'. by rewrite !lookup_insert_eq.
    + exists imq, iq. rewrite lookup_insert_ne by done. split_and!; [done..|]. destruct Hcase as [[k' Hk']|Hn]; [|by rewrite HnG].
      destruct (HG k' Hk') as (i & i' & Hi & _ & -> & _). rewrite lookup_insert_ne; [done|]. intros <-. congruence.
  - intros n q. rewrite (rp_names Hr). destruct Hcase as [[k' Hk']|Hn]; [|by rewrite HnG]. destruct (HG k' Hk') as (i & i' & Hi & _ & -> & Hnm). split.
    + intros (k & j & Hk & Hj & Hn). exists k. destruct (decide (k' = k)) as [<-|Hne]; [|exists j; by rewrite lookup_insert_ne].
      exists i'. rewrite lookup_insert_eq. split_and!; [done..|]. apply Hnm. congruence.
    + intros (k & j & Hk & Hj & Hn). exists k. destruct (decide (k' = k)) as [<-|Hne]; [|exists j; by rewrite lookup_insert_ne in Hj].
      rewrite lookup_insert_eq in Hj. injection Hj as <-. exists i. split_and!; [done..|]. by apply Hnm.
  - intros q. rewrite lookup_insert_is_Some'. rewrite (rp_live Hr). destruct (decide (q = p)) as [->|Hne]; [naive_solver|]. destruct (Hoth q Hne) as [He _]. naive_solver.
  - intros q imq. destruct (decide (q = p)) as [->|Hne]; [rewrite lookup_insert_eq; by intros [= <-]|]. rewrite lookup_insert_ne by done. intros Hq. destruct (Hoth q Hne) as [_ ->]. by apply (rp_ref Hr).
  - intros d. rewrite Hdig. apply (rp_digs Hr d).
  - intros q. rewrite lookup_insert_is_Some'. intros [[<-|H]|H]; apply (rp_next Hr); [left; by eexists|by left|by right].
Qed.

Lemma ref_inc_ok bound held G N D s a p :
  rep held G N D s a → awf bound a → p ∈ is_list s → (length held < 7)%nat →
  wp (image_ref_inc (Some p)) (λ _ s', rep (p :: held) G N D s' a ∧ calm s s') s.
Proof.
  intros Hr Hw Hp Hl. destruct (proj2 (rp_live Hr p) (or_introl Hp)) as [im Him]. eapply wp_st_img; [exact Him|]. split; [|done].
  destruct (proj1 (rp_list Hr p) Hp) as [k Hk]. pose proof (rp_ref_range _ _ _ _ _ _ _ _ Hr Him) as Hrange.
  eapply (rep_imgs held (p :: held) G N D s a a p im); [done|done| | | | |done| | |].
  - cbn [im_refcnt]. rewrite u64_small by (unfold two64; lia). rewrite (rp_ref Hr p im Him), occ_cons, one_if_refl. lia.
  - intros q Hq. rewrite elem_of_cons, occ_cons. unfold one_if. rewrite decide_False by congruence. split; [naive_solver|lia].
  - cbn. lia.
  - by left.
  - intros k' Hk'. destruct (rp_obj Hr k' p Hk') as (im' & i & Him' & Hi & Ha). assert (im' = im) as -> by congruence. exists i, i. cbn. rewrite insert_id by done. done.
  - done.
  - intros k1 k2 H1 H2. by eapply (rp_inj bound).
Qed.

(** An image that only one caller holds goes. *)
Lemma rep_forget held G N D s a p : rep (p :: held) G N D s a → p ∉ is_list s → p ∉ held → rep held G N D (set_imgs (delete p (is_imgs s)) s) a.
Proof.
  intros Hr Hnl Hnh. pose proof (rp_held Hr) as Hlen. cbn in Hlen. split; cbn; try apply Hr; try done; try lia.
  - intros k q Hk. destruct (rp_obj Hr k q Hk) as (imq & i & Hq & Hi & Ha). exists imq, i. rewrite lookup_delete_ne; [done|]. intros <-. apply Hnl, (rp_list Hr). by exists k.
  - intros q. rewrite lookup_delete_is_Some, (rp_live Hr), elem_of_cons. split; [naive_solver|]. intros Hq. assert (p ≠ q) by (intros ->; naive_solver). naive_solver.
  - intros q imq [Hne Hq]%lookup_delete_Some. rewrite (rp_ref Hr q imq Hq), occ_cons. unfold one_if. rewrite (decide_False (P := p = q)) by done. lia.
  - intros q Hq. apply (rp_next Hr). rewrite lookup_delete_is_Some in Hq. naive_solver.
Qed.

Lemma ref_dec_ok bound held G N D s a p :
  rep (p :: held) G N D s a → awf bound a →
  wp (image_ref_dec (Some p)) (λ _ s', rep held G N D s' a ∧ calm s s' ∧ ∀ im, is_imgs s !! p = Some im → p ∈ held → ∃ im', is_imgs s' !! p = Some im' ∧ im_simage im' = im_simage im) s.
Proof.
  intros Hr Hw. destruct (proj2 (rp_live Hr p)) as [im Him]; [right; by left|]. pose proof (rp_ref_range _ _ _ _ _ _ _ _ Hr Him) as Hrange. pose proof (rp_ref Hr p im Him) as Href.
  rewrite occ_cons, one_if_refl in Href. pose proof (occ_nonneg p held). pose proof (rp_held Hr) as Hlen. cbn in Hlen. apply wp_bind. eapply wp_st_img; [exact Him|]. apply wp_bind. eapply wp_ld_img; [apply lookup_insert_eq|]. cbn [im_refcnt].
  rewrite u64_small by (unfold two64; destruct (decide (p ∈ is_list s)); lia).
  destruct (Z.eqb_spec (im_refcnt im - 1) 0) as [Hz|Hz].
  - assert (Hnl : p ∉ is_list s) by (intros Hin; rewrite decide_True in Href by done; lia). rewrite decide_False in Href by done.
    assert (Hnh : p ∉ held) by (intros Hin%occ_pos; lia). apply wp_bind. eapply wp_ld_img; [apply lookup_insert_eq|]. apply wp_modify. split; [|split; [done|by intros]]. cbn. rewrite delete_insert_eq.
    by apply (rep_forget held G N D s a p).
  - apply wp_ret. split; [|split; [done|intros im0 Him0 _; eexists; split; [apply lookup_insert_eq|cbn; congruence]]]. eapply (rep_imgs (p :: held) held G N D s a a p im); [done|done| | | | |done| | |].
    + cbn. lia.
    + intros q Hq. rewrite elem_of_cons, occ_cons. unfold one_if. rewrite decide_False by congruence. split; [naive_solver|lia].
    + lia.
    + destruct (decide (p ∈ is_list s)) as [|Hnl]; [by left|]. right. destruct (decide (p ∈ held)); [done|]. rewrite occ_notin in Href by done. lia.
    + intros k' Hk'. destruct (rp_obj Hr k' p Hk') as (im' & i & Him' & Hi & Ha). assert (im' = im) as -> by congruence. exists i, i. cbn. rewrite insert_id by done. done.
    + done.
    + intros k1 k2 H1 H2. by eapply (rp_inj bound).
Qed.
End rep.

(** ** Finding an image *)
Section finding.
Context {MT : Type} {SM : StrMap ptr MT} (default_host : option string).
Implicit Types (s : image_state MT) (a : astore) (G N D : gmap cstr ptr).

Lemma prefix_loop_ok ref (l : list (cstr * ptr)) v :
  image_prefix_loop ref l v =
  match v, filter (λ x, String.prefix ref (cstr_s x.1) = true) l with
  | None, [] => (true, None)
  | None, [x] => (true, Some x.2)
  | None, x :: _ :: _ => (false, Some x.2)
  | Some _, [] => (true, v)
  | Some _, _ :: _ => (false, v)
  end.
Proof.
  revert v. induction l as [|[k p] l IH]; intros v; cbn [image_prefix_loop]; [by destruct v|]. rewrite filter_cons. cbn [fst]. destruct (String.prefix ref (cstr_s k)).
  - rewrite decide_True by done. destruct v; [done|]. rewrite IH. by destruct (filter _ l).
  - rewrite decide_False by done. apply IH.
Qed.

Lemma filter_fst (P : cstr → Prop) `{∀ k, Decision (P k)} (l : list (cstr * ptr)) : (filter (λ x, P x.1) l).*1 = filter P l.*1.
Proof. induction l as [|[k p] l IH]; [done|]. rewrite fmap_cons, !filter_cons. cbn [fst]. destruct (decide (P k)); [|done]. cbn. by rewrite IH. Qed.

Lemma same_keys held G N D s a : rep held G N D s a → (map_to_list (a_imgs a)).*1 ≡ₚ (map_to_list G).*1.
Proof.
  intros Hr. apply NoDup_Permutation; [apply NoDup_fst_map_to_list..|]. intros k. split.
  - intros ([k' i] & -> & Hi%elem_of_map_to_list)%list_elem_of_fmap. destruct (rp_dom Hr k' ltac:(by eexists)) as [p Hp]. apply list_elem_of_fmap. exists (k', p). split; [done|]. by apply elem_of_map_to_list.
  - intros ([k' p] & -> & Hp%elem_of_map_to_list)%list_elem_of_fmap. destruct (rp_obj Hr k' p Hp) as (im & i & _ & _ & Hi). apply list_elem_of_fmap. exists (k', i). split; [done|]. by apply elem_of_map_to_list.
Qed.

Lemma find_prefix_ok held G N D s a w ref :
  rep held G N D s a → mem_all w → wp (get_image_for_store_by_prefix w ref) (λ r s', s' = s ∧ r = by_prefix (a_imgs a) (cstr_s ref) ≫= (G !!.)) s.
Proof.
  intros Hr Hm. unfold get_image_for_store_by_prefix. apply wp_bind, wp_byid. rewrite alloc_ok by done. eapply wp_mono; [eapply sm_pairs_ok, (rp_id Hr)|]. cbn beta.
  intros l m (-> & e & -> & He). replace (set_byid (is_byid s) s) with s by (by destruct s). rewrite prefix_loop_ok.
  pose proof (filter_fst (λ k, String.prefix (cstr_s ref) (cstr_s k) = true) e) as Hf. set (fe := filter _ e) in Hf |- *.
  assert (Hp : filter (λ k, String.prefix (cstr_s ref) (cstr_s k) = true) (map_to_list (a_imgs a)).*1 ≡ₚ fe.*1) by (rewrite Hf, He; by rewrite (same_keys _ _ _ _ _ _ Hr)).
  assert (Hin : ∀ x, x ∈ fe → G !! x.1 = Some x.2) by (intros [k p] [_ Hx]%list_elem_of_filter; rewrite He in Hx; by apply elem_of_map_to_list in Hx).
  unfold by_prefix. set (fa := filter _ _) in Hp |- *. clearbody fa. pose proof (Permutation_length Hp) as Hl. rewrite length_fmap in Hl.
  destruct fe as [|x [|y fe']], fa as [|k [|k' ks]]; cbn in Hl; try lia; apply wp_ret; (split; [done|]); try done.
  cbn in Hp. apply Permutation_singleton_r in Hp. injection Hp as ->. cbn. symmetry. apply Hin. by left.
Qed.

Lemma by_digest_ok bound held G N D s a w ref :
  rep held G N D s a → awf bound a → mem_all w → wp (by_digest default_host w ref) (λ r s', s' = s ∧ r = by_repo_digest default_host a ref ≫= (G !!.)) s.
Proof.
  intros Hr Hw Hm. unfold by_digest, by_repo_digest, digest_ref. destruct (strrchr _ _) as [[before pos]|]; [|by apply wp_ret]. destruct (reg_ok _ _); cbn [negb]; [|by apply wp_ret].
  cbn [mbind option_bind]. apply wp_bind. eapply wp_bydigest_search; [apply (rp_dig Hr)|]. set (dg := to_str (tail pos)). pose proof (rp_digs Hr (cstr_of dg)) as Hd.
  destruct (D !! cstr_of dg) as [q|]; destruct (a_digs a !! cstr_of dg) as [ks|] eqn:Eks; try done. destruct Hd as (l & Hq & Hl).
  destruct (wf_digs bound a Hw _ _ Eks) as (Hne & _ & Hks). apply wp_bind. eapply wp_ld_dig; [exact Hq|]. cbn [di_list]. destruct Hl as [|k p ks l Hk Hl]; [done|]. cbn [head mbind option_bind].
  destruct (rp_obj Hr k p Hk) as (im & i & Him & Hi & Ha). rewrite Ha. cbn [mbind option_bind]. apply wp_bind. eapply wp_ld_simage; [exact Him|exact Hi|]. rewrite Hm.
  destruct (wf_names bound a Hw k i Ha) as (_ & Hns & _). destruct (consistent_ok default_host (cstr_s ref) (cstr_s <$> si_names i) dg) as [z Hz]; [by apply Forall_fmap|]. rewrite Hz.
  apply wp_ret. split; [done|]. destruct (decide (z ≠ 0)) as [Hz0|Hz0]; [rewrite decide_False by congruence|rewrite decide_True by (apply dec_stable in Hz0; congruence)]; cbn; [done|]. by rewrite Hk.
Qed.

Lemma by_prefix_Some imgs ref k : by_prefix imgs ref = Some k → is_Some (imgs !! k).
Proof.
  unfold by_prefix. destruct (filter _ _) as [|k' [|]] eqn:Ef; try done. intros [= ->].
  assert (Hin : k ∈ filter (λ k, String.prefix ref (cstr_s k) = true) (map_to_list imgs).*1) by (rewrite Ef; by left).
  apply list_elem_of_filter in Hin as [_ ([k' i] & -> & Hi%elem_of_map_to_list)%list_elem_of_fmap]. by eexists.
Qed.

Lemma find_ref_Some bound a ref k : awf bound a → find_ref default_host a ref = Some k → is_Some (a_imgs a !! k).
Proof.
  intros Hw. unfold find_ref. destruct (a_imgs a !! ref) eqn:E1; [intros [= <-]; by eexists|].
  destruct (owner (a_imgs a) ref) as [k'|] eqn:E2; [intros [= <-]; apply (owner_spec bound a ref k' Hw) in E2 as (i & Hi & _); by eexists|].
  destruct (by_prefix (a_imgs a) (cstr_s ref)) as [k'|] eqn:E3; [intros [= <-]; by eapply by_prefix_Some|].
  unfold by_repo_digest. destruct (digest_ref ref) as [d|]; [|done]. cbn. destruct (a_digs a !! cstr_of d) as [[|k' ks]|]; try done. cbn.
  destruct (a_imgs a !! k') as [i|] eqn:E4; [|done]. cbn. destruct (decide _); [|done]. intros [= <-]. by eexists.
Qed.

Lemma lookup_uncounted_ok bound held G N D s a w ref :
  rep held G N D s a → awf bound a → mem_all w → wp (lookup_uncounted default_host w ref) (λ r s', s' = s ∧ r = find_ref default_host a ref ≫= (G !!.)) s.
Proof.
  intros Hr Hw Hm. unfold lookup_uncounted, find_ref. apply wp_bind. eapply wp_byid_search; [apply (rp_id Hr)|]. destruct (G !! ref) as [p|] eqn:Ek.
  { destruct (rp_obj Hr ref p Ek) as (im & i & _ & _ & ->). apply wp_ret. split; [done|]. cbn. by rewrite Ek. }
  destruct (a_imgs a !! ref) as [i|] eqn:Ea; [destruct (rp_dom Hr ref ltac:(by eexists)); congruence|].
  apply wp_bind. eapply wp_byname_search; [apply (rp_name Hr)|]. destruct (N !! ref) as [p|] eqn:En.
  { apply (rp_names Hr) in En as (k & i & Hk & Hi & Hn). apply wp_ret. split; [done|]. rewrite (proj2 (owner_spec bound a ref k Hw)) by (by exists i). cbn. by rewrite Hk. }
  replace (owner (a_imgs a) ref) with (@None cstr).
  2:{ symmetry. apply (owner_none bound); [done|]. intros k i Hi Hn. destruct (rp_dom Hr k ltac:(by eexists)) as [p Hp]. assert (N !! ref = Some p) by (apply (rp_names Hr); by exists k, i). congruence. }
  apply wp_bind. eapply wp_mono; [eapply find_prefix_ok; [exact Hr|auto with world]|]. cbn beta. intros r s1 [-> ->]. destruct (by_prefix (a_imgs a) (cstr_s ref)) as [k|] eqn:Ep; cbn [mbind option_bind].
  - apply by_prefix_Some in Ep.
    destruct (rp_dom Hr k Ep) as [p Hp]. rewrite Hp. by apply wp_ret.
  - by eapply by_digest_ok; auto with world.
Qed.

Lemma image_lookup_ok bound held G N D s a w ref :
  rep held G N D s a → awf bound a → mem_all w → (length held < 7)%nat →
  wp (lookup default_host w (Some ref)) (λ r s', calm s s' ∧ match find_ref default_host a ref with
    | None => r = None ∧ s' = s
    | Some k => ∃ p, G !! k = Some p ∧ r = Some p ∧ rep (p :: held) G N D s' a
    end) s.
Proof.
  intros Hr Hw Hm Hl. apply wp_bind. eapply wp_mono; [by eapply lookup_uncounted_ok|]. cbn beta. intros r s1 [-> ->]. apply wp_bind.
  destruct (find_ref default_host a ref) as [k|] eqn:Ek; cbn [mbind option_bind]; [|by apply wp_ret].
  destruct (rp_dom Hr k (find_ref_Some bound a ref k Hw Ek)) as [p Hp]. rewrite Hp. eapply wp_mono; [eapply (ref_inc_ok bound); [done|done| |done]|].
  - apply (rp_list Hr). by exists k.
  - cbn beta. intros [] s' [Hr' Hc]. apply wp_ret. split; [done|]. by exists p.
Qed.
End finding.

(** ** The index by digest *)
Section digests.
Context {MT : Type} {SM : StrMap ptr MT}.
Implicit Types (s : image_state MT) (a : astore) (G N D : gmap cstr ptr) (ad : gmap cstr (list cstr)).

(** The lists of images stand for lists of ids. *)
Definition drep G D (digs : gmap ptr digest_image) ad : Prop :=
  (∀ d, match D !! d, ad !! d with
        | Some q, Some ks => ∃ l, digs !! q = Some (mk_digest l (u64 (Z.of_nat (length l)))) ∧ Forall2 (λ k p, G !! k = Some p) ks l
        | None, None => True
        | _, _ => False
        end) ∧ ∀ d d' q, D !! d = Some q → D !! d' = Some q → d = d'.

(** The images of [G] are there. *)
Definition has_images G s : Prop := ∀ k p, G !! k = Some p → ∃ im i, is_imgs s !! p = Some im ∧ im_simage im = Some i ∧ si_id i = k.

Lemma rep_drep held G N D s a : rep held G N D s a → drep G D (is_digs s) (a_digs a).
Proof. intros Hr. split; [apply (rp_digs Hr)|apply (rp_dinj Hr)]. Qed.

Lemma rep_images bound held G N D s a : rep held G N D s a → awf bound a → has_images G s.
Proof. intros Hr Hw k p Hk. destruct (rp_obj Hr k p Hk) as (im & i & Him & Hi & Ha). exists im, i. split_and!; [done..|]. by apply (wf_id bound a Hw). Qed.

Lemma wf_list_size bound a d ks : awf bound a → a_digs a !! d = Some ks → (length ks ≤ size (a_imgs a))%nat.
Proof.
  intros Hw Hd. destruct (wf_digs bound a Hw d ks Hd) as (Hne & Hnd & Hks).
  rewrite <- size_dom, <- (size_list_to_set (C:=gset cstr) ks) by done. apply subseteq_size. intros k Hk%elem_of_list_to_set. destruct (Hks k Hk) as (i & Hi & _). by apply elem_of_dom_2 in Hi.
Qed.

Lemma wf_list_length bound a d ks : awf bound a → a_digs a !! d = Some ks → Z.of_nat (length ks) < two64.
Proof. intros Hw Hd. destruct (wf_size bound a Hw) as [Hs Hb]. rewrite max_items_eq in Hb. pose proof (wf_list_size bound a d ks Hw Hd). unfold two64. lia. Qed.

Lemma without_loop_ok G s id ks l :
  has_images G s → Forall2 (λ k p, G !! k = Some p) ks l →
  wp (without_loop id l) (λ r s', s' = s ∧ Forall2 (λ k p, G !! k = Some p) (filter (λ x, x ≠ id) ks) r ∧ (length r ≤ length l)%nat) s.
Proof.
  intros HG. induction 1 as [|k p ks l Hk Hl IH]; cbn [without_loop]; [by apply wp_ret|]. destruct (HG k p Hk) as (im & i & Him & Hi & Hid).
  apply wp_bind. eapply wp_ld_simage; [done..|]. apply wp_bind. eapply wp_mono; [exact IH|]. cbn beta. intros r s1 (-> & Hf & Hle). apply wp_ret. split; [done|]. rewrite filter_cons, Hid.
  destruct (decide (k = id)) as [->|Hne]; [rewrite decide_False by (intros ?; done)|rewrite decide_True by done]; cbn [length]; (split; [|lia]); [done|by constructor].
Qed.

Lemma slice_ok G D ad s p im i d q ks :
  drep G D (is_digs s) ad → has_images G s → is_imgs s !! p = Some im → im_simage im = Some i → D !! d = Some q → ad !! d = Some ks →
  wp (digest_image_slice_without_value q p) (λ _ s', ∃ l, s' = set_digs (<[q := mk_digest l (u64 (Z.of_nat (length l)))]> (is_digs s)) s ∧ Forall2 (λ k p, G !! k = Some p) (filter (λ x, x ≠ si_id i) ks) l) s.
Proof.
  intros [Hd _] HG Hp Hi Hq Hks. specialize (Hd d). rewrite Hq, Hks in Hd. destruct Hd as (l & Hl & Hf). unfold digest_image_slice_without_value.
  apply wp_bind. eapply wp_ld_dig; [done|]. apply wp_bind. eapply wp_ld_simage; [done..|]. apply wp_bind. eapply wp_mono; [by eapply without_loop_ok|]. cbn beta. intros r s1 (-> & Hr & Hle).
  eapply wp_st_dig; [done|]. exists r. split; [|done]. cbn [di_list di_len].
  assert (u64 (u64 (Z.of_nat (length l)) - Z.of_nat (length l - length r)) = u64 (Z.of_nat (length r))) as ->; [|done].
  unfold u64. rewrite Zminus_mod_idemp_l. f_equal. cbn in Hle. lia.
Qed.

(** An update of one list. *)
Lemma drep_update G D digs ad d q l ks :
  drep G D digs ad → D !! d = Some q → Forall2 (λ k p, G !! k = Some p) ks l → drep G D (<[q := mk_digest l (u64 (Z.of_nat (length l)))]> digs) (<[d := ks]> ad).
Proof.
  intros [Hd Hi] Hq Hl. split; [|done]. intros d'. destruct (decide (d = d')) as [<-|Hne]; [rewrite Hq, lookup_insert_eq; exists l; by rewrite lookup_insert_eq|].
  rewrite lookup_insert_ne by done. specialize (Hd d'). destruct (D !! d') as [q'|] eqn:E; [|done]. destruct (ad !! d') as [ks'|]; [|done]. destruct Hd as (l' & Hl' & Hf).
  exists l'. rewrite lookup_insert_ne; [done|]. intros <-. apply Hne. by eapply Hi.
Qed.

Lemma drep_delete G D digs ad d q : drep G D digs ad → D !! d = Some q → drep G (delete d D) (delete q digs) (delete d ad).
Proof.
  intros [Hd Hi] Hq. split.
  - intros d'. destruct (decide (d = d')) as [<-|Hne]; [by rewrite !lookup_delete_eq|]. rewrite !lookup_delete_ne by done. specialize (Hd d'). destruct (D !! d') as [q'|] eqn:E; [|done].
    destruct (ad !! d') as [ks'|]; [|done]. destruct Hd as (l' & Hl' & Hf). exists l'. rewrite lookup_delete_ne; [done|]. intros <-. apply Hne. by eapply Hi.
  - intros d1 d2 q' [_ H1]%lookup_delete_Some [_ H2]%lookup_delete_Some. by eapply Hi.
Qed.

(** A removal touches the index by digest only. *)
Lemma digest_remove_ok G D ad s p im i d :
  sm_models (is_bydigest s) D → drep G D (is_digs s) ad → has_images G s → is_imgs s !! p = Some im → im_simage im = Some i →
  (∀ d ks, ad !! d = Some ks → Z.of_nat (length ks) < two64) →
  wp (remove_image_from_digest_index p d) (λ r s', r = 0 ∧ ∃ m D' digs', s' = set_digs digs' (set_bydigest m s) ∧ sm_models m D' ∧ drep G D' digs' (dig_remove (si_id i) d ad) ∧
    ∀ q, is_Some (digs' !! q) → is_Some (is_digs s !! q)) s.
Proof.
  intros Hm Hd HG Hp Hi Hlen.
  assert (Hno : ∃ m D' digs', s = set_digs digs' (set_bydigest m s) ∧ sm_models m D' ∧ drep G D' digs' ad ∧ ∀ q, is_Some (digs' !! q) → is_Some (is_digs s !! q)).
  { exists (is_bydigest s), D, (is_digs s). split; [by destruct s|done]. }
  unfold remove_image_from_digest_index, dig_remove. destruct d as [d|]; [|apply wp_ret; by split]. apply wp_bind. eapply wp_bydigest_search; [done|].
  pose proof (proj1 Hd d) as Hdd. destruct (D !! d) as [q|] eqn:Eq; destruct (ad !! d) as [ks|] eqn:Eks; try done. clear Hno.
  destruct Hdd as (l0 & Hl0 & _). apply wp_bind. eapply wp_mono; [by eapply slice_ok|]. cbn beta. intros [] s1 (l & -> & Hl). set (ks' := filter _ ks) in Hl |- *.
  pose proof (drep_update G D (is_digs s) ad d q l ks' Hd Eq Hl) as Hup. apply wp_bind. eapply wp_ld_dig; [apply lookup_insert_eq|]. cbn [di_len].
  assert (Hlk : length l = length ks') by (by rewrite (Forall2_length _ _ _ Hl)). assert (Hk' : (length ks' ≤ length ks)%nat) by apply length_filter. specialize (Hlen d ks Eks).
  rewrite u64_small in Hup |- * by lia. assert (Hsub : ∀ x q', is_Some (<[q := x]> (is_digs s) !! q') → is_Some (is_digs s !! q')).
  { intros x q'. rewrite lookup_insert_is_Some'. intros [<-|]; [by eexists|done]. }
  destruct (Z.eqb_spec (Z.of_nat (length l)) 0) as [Hz|Hz].
  - assert (ks' = []) as Hks' by (apply nil_length_inv; lia). rewrite decide_True by done. apply wp_bind, wp_bydigest. eapply wp_mono; [by apply sm_remove_ok|]. cbn beta. intros b m (-> & Hm' & Hdr).
    rewrite Eq in Hdr |- *. rewrite bool_decide_true by (by eexists). apply wp_ret. split; [done|]. cbn [is_bydigest set_digs] in *. rewrite Hdr, drop_app_length. cbn [option_list foldr].
    exists m, (delete d D). eexists. split; [done|]. split; [done|]. cbn. split.
    + pose proof (drep_delete _ _ _ _ d q Hup Eq) as Hdel. by rewrite (delete_insert_eq ad) in Hdel.
    + intros q'. rewrite lookup_delete_is_Some. intros [_ Hq']. by eapply Hsub.
  - rewrite decide_False by (intros Hn; rewrite Hn in Hlk; cbn in Hlk; lia). apply wp_ret. split; [done|]. exists (is_bydigest s), D. eexists. split; [by destruct s|]. split; [done|]. split; [done|]. intros q'. apply Hsub.
Qed.
End digests.
