(* ===== verification/ImageChange.v ===== *)
(** * Changing the store of images

    Critical sections, saving, deleting, creating, naming and the data of an
    image: each is proved to do to the state what [ImageSpec] says it does to
    the store it stands for. *)
From stdpp Require Import base gmap list fin_maps numbers strings.
From Stdlib Require Import ZArith Lia Ascii.
From S2P Require Import Prelude CString Regex Array RbTree Map StrMap Convert StringUtil Verify Path SymlinkScope IdNameManager ImageName ImageStore ImageSpec ContainersStore ImageCorrect.

Local Open Scope Z_scope.

(** ** Critical sections and saving *)
Section frames.
Context {MT : Type} {SM : StrMap ptr MT} (default_host : option string) (generate_json : storage_image → option string) (dir : string).
Implicit Types (s : image_state MT) (a : astore) (G N D : gmap cstr ptr).

Lemma rep_lock held G N D s a x : rep held G N D s a → rep held G N D (set_lock x s) a.
Proof. intros Hr. split; apply Hr. Qed.
Lemma rep_disk held G N D s a x : rep held G N D s a → rep held G N D (set_disk x s) a.
Proof. intros Hr. split; apply Hr. Qed.

Lemma wp_locked {A} (w : world) (exclusive : bool) (error : A) (f : M (image_state MT) A) (Q : A → image_state MT → Prop) s :
  is_ready s = true → is_lock s = Free → (¬ io_all w → Q error s) →
  (let held := if exclusive then Wr else Rd 1 in wp f (λ r s', is_lock s' = held ∧ Q r (set_lock Free s')) (set_lock held s)) →
  wp (locked w exclusive error f) Q s.
Proof.
  intros Hr Hf He Hq. cbn in Hq. unfold locked. apply wp_bind, wp_bind, wp_get, wp_ret. rewrite Hr. cbn [negb]. apply wp_bind. unfold image_store_lock, wp at 1. destruct (io w) eqn:Eio; cbn [negb].
  - rewrite Hf. destruct exclusive; cbn [negb]; apply wp_bind; (eapply wp_mono; [exact Hq|]); cbn beta; intros r s' [Hl HQ]; apply wp_bind; unfold image_store_unlock, wp at 1; rewrite Hl; by apply wp_ret.
  - apply wp_ret, He. intros Hall. rewrite io_ok in Eio by done. done.
Qed.

(** The file of an image with a text; an empty one is not written. *)
Definition put_text (name text : string) (files : gmap string string) : gmap string string := if String.eqb text "" then files else <[name := text]> files.
Definition put_file (id : cstr) (name text : string) (disk : gmap string (gmap string string)) : gmap string (gmap string string) :=
  <[cstr_s id := put_text name text (default ∅ (disk !! cstr_s id))]> disk.

Definition made (id : cstr) (disk : gmap string (gmap string string)) : gmap string (gmap string string) := <[cstr_s id := default ∅ (disk !! cstr_s id)]> disk.

Lemma put_made id name text disk : put_file id name text (made id disk) = put_file id name text disk.
Proof. unfold put_file, made. by rewrite lookup_insert_eq, insert_insert_eq. Qed.

Lemma make_dir_ok w k s : wp (make_dir w k) (λ r s', r = true ∧ s' = set_disk (made k (is_disk s)) s ∨ r = false ∧ s' = s ∧ ¬ io_all w) s.
Proof.
  unfold make_dir. destruct (io w) eqn:E; cbn [negb]; [apply wp_bind, wp_modify, wp_ret; by left|]. apply wp_ret. right. split_and!; [done..|]. intros Hio. by rewrite io_ok in E.
Qed.

(** Into a directory that was just made. *)
Lemma write_file_ok w k name text disk s :
  wp (write_file w k name text) (λ r s', r = true ∧ s' = set_disk (put_file k name text disk) s ∨ r = false ∧ s' = set_disk (made k disk) s ∧ ¬ io_all w) (set_disk (made k disk) s).
Proof.
  unfold write_file. rewrite <- (put_made k name text disk). destruct (String.eqb text "") eqn:Et.
  - apply wp_ret. left. split; [done|]. do 2 f_equal. unfold put_file, put_text. rewrite Et. unfold made. rewrite lookup_insert_eq. cbn [default]. by rewrite insert_insert_eq.
  - destruct (io w) eqn:E; cbn [negb]; [|apply wp_ret; right; split_and!; [done..|]; intros Hio; by rewrite io_ok in E]. apply wp_bind, wp_modify, wp_ret. left. split; [done|]. unfold put_file, put_text. by rewrite Et.
Qed.

Definition fits (id : cstr) : Prop := is_Some (get_image_path dir id).

Lemma save_image_ok w i s :
  wp (save_image generate_json dir w i) (λ r s', (r = 0 ∨ r = -1) ∧ (∃ d, s' = set_disk d s) ∧
    (r = 0 → ∃ text, generate_json i = Some text ∧ s' = set_disk (put_file (si_id i) IMAGE_JSON text (is_disk s)) s) ∧
    (io_all w → fits (si_id i) → is_Some (generate_json i) → r = 0)) s.
Proof.
  unfold save_image, fits. assert (Hsame : ∃ d, s = set_disk d s) by (exists (is_disk s); by destruct s).
  destruct (get_image_path dir (si_id i)) as [path|]; [|apply wp_ret; split_and!; [by right|done|done|by intros _ [? [=]]]].
  apply wp_bind. eapply wp_mono; [apply make_dir_ok|]. cbn beta. intros ok s1 [[-> ->]|(-> & -> & Hio)]; cbn [negb].
  2:{ apply wp_ret. split_and!; [by right|done|done|]. intros Hall. destruct Hio. auto with world. }
  destruct (generate_json i) as [text|]; [|apply wp_ret; split_and!; [by right|by eexists|done|by intros _ _ [? [=]]]].
  apply wp_bind. eapply wp_mono; [apply write_file_ok|]. cbn beta. intros ok s1 [[-> ->]|(-> & -> & Hio)]; apply wp_ret.
  - split_and!; [by left|by eexists| |done]. intros _. by exists text.
  - split_and!; [by right|by eexists|done|]. intros Hall. destruct Hio. auto with world.
Qed.

Lemma save_simage_ok w p im i s :
  is_imgs s !! p = Some im → im_simage im = Some i →
  wp (save_simage generate_json dir w p) (λ r s', (r = 0 ∨ r = -1) ∧ (∃ d, s' = set_disk d s) ∧
    (r = 0 → ∃ text, generate_json i = Some text ∧ s' = set_disk (put_file (si_id i) IMAGE_JSON text (is_disk s)) s) ∧
    (io_all w → fits (si_id i) → is_Some (generate_json i) → r = 0)) s.
Proof.
  intros Hp Hi. apply wp_bind. eapply wp_ld_simage; [done..|]. apply wp_bind. eapply wp_mono; [apply save_image_ok|]. cbn beta. intros r s' ([->| ->] & Hd & Hf & Hok); apply wp_ret.
  - rewrite decide_False by lia. naive_solver.
  - rewrite decide_True by lia. naive_solver.
Qed.

(** A function on the image that a reference leads to: it leaves a state that
    stands for a store, or at least the image it was called with. *)
Lemma wp_with_image {A} bound G N D s a w ref (error : A) f (Q : A → image_state MT → Prop) :
  rep [] G N D s a → awf bound a → mem_all w → (find_ref default_host a ref = None → Q error s) →
  (∀ k p s1, find_ref default_host a ref = Some k → G !! k = Some p → rep [p] G N D s1 a → calm s s1 →
    wp (f p) (λ r s2,
      (∃ G' N' D' a' bound', rep [p] G' N' D' s2 a' ∧ awf bound' a' ∧ ∀ s3, rep [] G' N' D' s3 a' → calm s2 s3 → Q r s3) ∨
      ((∃ im, is_imgs s2 !! p = Some im ∧ 1 < im_refcnt im < two64) ∧ ∀ s3, calm s2 s3 → is_ready s3 = is_ready s2 → Q r s3)) s1) →
  wp (with_image default_host w ref error f) Q s.
Proof.
  intros Hr Hw Hm Hnone Hf. apply wp_bind. eapply wp_mono; [eapply image_lookup_ok; [done..|cbn; lia]|]. cbn beta. intros img s1 [Hc H]. destruct (find_ref default_host a ref) as [k|] eqn:Ek.
  - destruct H as (p & Hp & -> & Hr1). apply wp_bind. eapply wp_mono; [by eapply Hf|]. cbn beta. intros r s2 [(G' & N' & D' & a' & bound' & Hr2 & Hw2 & HQ)|[(im & Him & Href) HQ]]; apply wp_bind.
    + eapply wp_mono; [by eapply ref_dec_ok|]. cbn beta. intros [] s3 (Hr3 & Hc3 & _). apply wp_ret. by apply HQ.
    + apply wp_bind. eapply wp_st_img; [exact Him|]. apply wp_bind. eapply wp_ld_img; [apply lookup_insert_eq|]. cbn [im_refcnt]. rewrite u64_small by lia.
      destruct (Z.eqb_spec (im_refcnt im - 1) 0); [lia|]. apply wp_ret, wp_ret. by apply HQ.
  - destruct H as [-> ->]. apply wp_bind, wp_ret, wp_bind, wp_ret, wp_ret. by apply Hnone.
Qed.
End frames.

(** ** Lists of ids by digest *)
Section digest_lists.
Implicit Types (ad : gmap cstr (list cstr)).

Lemma dig_remove_Some k d ad d' ks' :
  dig_remove k d ad !! d' = Some ks' → ∃ ks, ad !! d' = Some ks ∧ ks' = (if decide (d = Some d') then filter (λ x, x ≠ k) ks else ks) ∧ (ks ≠ [] → ks' ≠ []).
Proof.
  unfold dig_remove. destruct d as [d|]; [|intros H; exists ks'; by rewrite decide_False by done].
  destruct (decide (d = d')) as [<-|Hne].
  - destruct (ad !! d) as [ks|] eqn:E; [|congruence]. destruct (decide _) as [He|He]; [by rewrite lookup_delete_eq|]. rewrite lookup_insert_eq. intros [= <-]. exists ks. by rewrite decide_True by done.
  - intros H. exists ks'. rewrite decide_False by congruence. split; [|done]. destruct (ad !! d) as [ks|] eqn:E; [|done]. destruct (decide _); [by rewrite lookup_delete_ne in H|by rewrite lookup_insert_ne in H].
Qed.

Lemma dig_remove_short k d ad (n : Z) : (∀ d ks, ad !! d = Some ks → Z.of_nat (length ks) < n) → ∀ d' ks, dig_remove k d ad !! d' = Some ks → Z.of_nat (length ks) < n.
Proof.
  intros H d' ks (ks0 & H0 & -> & _)%dig_remove_Some. specialize (H d' ks0 H0). destruct (decide _); [|done]. pose proof (length_filter (λ x, x ≠ k) ks0). lia.
Qed.

Lemma digests_of_elem d i : d ∈ digests_of i ↔ si_digest i = Some d ∨ manifest_of i = Some d.
Proof. unfold digests_of. rewrite elem_of_app. destruct (si_digest i), (manifest_of i); cbn; rewrite ?list_elem_of_singleton, ?elem_of_nil; naive_solver. Qed.

(** What is left after an image has gone. *)
Lemma del_digs_Some bound a k i d ks :
  awf bound a → a_imgs a !! k = Some i → (a_digs (del_image k a)) !! d = Some ks →
  ∃ ks0, a_digs a !! d = Some ks0 ∧ ks ≠ [] ∧ NoDup ks ∧ k ∉ ks ∧ ∀ x, x ∈ ks → x ∈ ks0.
Proof.
  intros Hw Hi. unfold del_image. rewrite Hi. cbn [a_digs]. intros (ks1 & (ks0 & H0 & -> & Hne0)%dig_remove_Some & -> & Hne1)%dig_remove_Some.
  destruct (wf_digs bound a Hw d ks0 H0) as (Hne & Hnd & Hin). exists ks0. split; [done|]. split; [by apply Hne1, Hne0|].
  assert (Hk : k ∈ ks0 → Some d = si_digest i ∨ manifest_of i = Some d).
  { intros (i' & Hi' & Hd)%Hin. assert (i' = i) as -> by congruence. apply digests_of_elem in Hd. naive_solver. }
  split; [repeat destruct (decide _); by repeat apply NoDup_filter|]. split.
  - intros Hx. assert (Hx0 : k ∈ ks0) by (repeat destruct (decide _); rewrite ?list_elem_of_filter in Hx; naive_solver). specialize (Hk Hx0).
    repeat destruct (decide _); rewrite ?list_elem_of_filter in Hx; naive_solver.
  - intros x Hx. repeat destruct (decide _); rewrite ?list_elem_of_filter in Hx; naive_solver.
Qed.

Lemma awf_del bound a k : awf bound a → awf bound (del_image k a).
Proof.
  intros Hw. destruct (a_imgs a !! k) as [i|] eqn:Ei; [|unfold del_image; by rewrite Ei].
  assert (Him : ∀ k' i', a_imgs (del_image k a) !! k' = Some i' ↔ k ≠ k' ∧ a_imgs a !! k' = Some i') by (intros k' i'; unfold del_image; rewrite Ei; apply lookup_delete_Some).
  split.
  - destruct (wf_size bound a Hw). split; [|done]. unfold del_image. rewrite Ei. cbn [a_imgs]. rewrite map_size_delete, Ei. cbn. lia.
  - intros k' i' [_ H]%Him. by apply (wf_id bound a Hw).
  - intros k' i' [_ H]%Him. by apply (wf_names bound a Hw k').
  - intros k1 k2 i1 i2 n [_ H1]%Him [_ H2]%Him. by apply (wf_owner bound a Hw).
  - intros k' i' [_ H]%Him. by apply (wf_digest bound a Hw k').
  - intros d ks (ks0 & H0 & Hne & Hnd & Hk & Hsub)%(del_digs_Some bound a k i d ks Hw Ei). split_and!; [done..|]. intros x Hx.
    destruct (wf_digs bound a Hw d ks0 H0) as (_ & _ & Hin). destruct (Hin x (Hsub x Hx)) as (ix & Hix & Hd). exists ix. split; [|done]. apply Him. split; [|done]. by intros ->.
Qed.
(** The image is on no list. *)
Definition unlisted (k : cstr) (ad : gmap cstr (list cstr)) : Prop := ∀ d ks, ad !! d = Some ks → ks ≠ [] ∧ k ∉ ks.

Lemma filter_fresh (k : cstr) (ks : list cstr) : k ∉ ks → filter (λ x, x ≠ k) ks = ks.
Proof. induction ks as [|x ks IH]; [done|]. rewrite not_elem_of_cons. intros [Hx Hk]. rewrite filter_cons, decide_True, IH by congruence. done. Qed.

Lemma remove_add k d ad : unlisted k ad → dig_remove k (Some d) (dig_add k (Some d) ad) = ad.
Proof.
  intros Hf. unfold dig_add, dig_remove. rewrite lookup_insert_eq, list.filter_app. cbn. rewrite (decide_False (P := k ≠ k)) by (intros ?; done). rewrite app_nil_r.
  destruct (ad !! d) as [ks|] eqn:E; cbn.
  - destruct (Hf d ks E) as [Hne Hk]. rewrite filter_fresh by done. rewrite decide_False by done. rewrite insert_insert_eq. by apply insert_id.
  - rewrite decide_True by done. rewrite delete_insert_eq. by apply delete_id.
Qed.

Lemma awf_fresh bound a k : awf bound a → a_imgs a !! k = None → unlisted k (a_digs a).
Proof. intros Hw Hk d ks Hd. destruct (wf_digs bound a Hw d ks Hd) as (Hne & _ & Hin). split; [done|]. intros H%Hin. destruct H as (i & Hi & _). congruence. Qed.

Lemma del_add bound a i d : awf bound a → a_imgs a !! si_id i = None → si_digest i = Some d → si_data_digests i = None → del_image (si_id i) (add_image i a) = a.
Proof.
  intros Hw Hk Hd Hdd. unfold del_image, add_image. cbn [a_imgs a_digs]. rewrite lookup_insert_eq. unfold manifest_of, get_value_from_json_map_string_string. rewrite Hdd, Hd. cbn [mbind option_bind].
  change (dig_remove (si_id i) None ?x) with x. rewrite delete_insert_eq, delete_id by done. rewrite remove_add by (by eapply awf_fresh). by destruct a.
Qed.

Lemma awf_more bound bound' a : awf bound a → (bound ≤ bound')%nat → Z.of_nat bound' ≤ max_items → awf bound' a.
Proof.
  intros Hw Hb Hmax. split; try apply Hw; [|intros k i Hi; destruct (wf_names bound a Hw k i Hi) as (? & ? & ?); split_and!; [done..|lia]]. destruct (wf_size bound a Hw). split; [lia|done].
Qed.

Lemma awf_one i :
  (length (si_names i) ≤ 1)%nat → Forall (λ n, name_ok (cstr_s n)) (si_names i) → is_Some (si_digest i) → NoDup (default [] (si_data_digests i)).*1 → awf 1 (mk_astore {[si_id i := i]} ∅).
Proof.
  intros Hl Hn Hd Hk. assert (H : ∀ k i', ({[si_id i := i]} : gmap cstr storage_image) !! k = Some i' → k = si_id i ∧ i' = i) by (intros k i'; by intros [<- <-]%lookup_singleton_Some).
  split; cbn [a_imgs a_digs]; try (by intros k i' [-> ->]%H).
  - rewrite max_items_eq, map_size_singleton. lia.
  - intros k i' [-> ->]%H. split; [|done]. destruct (si_names i) as [|n [|]]; [apply NoDup_nil_2|apply NoDup_singleton|cbn in Hl; lia].
  - intros k1 k2 i1 i2 n [-> ->]%H [-> ->]%H. done.
  - done.
Qed.

Lemma awf_add bound a i :
  awf bound a → Z.of_nat (bound + S (length (si_names i))) ≤ max_items → a_imgs a !! si_id i = None → is_Some (si_digest i) → si_data_digests i = None → NoDup (si_names i) → Forall (λ n, name_ok (cstr_s n)) (si_names i) →
  (∀ n, n ∈ si_names i → owner (a_imgs a) n = None) → awf (bound + S (length (si_names i))) (add_image i a).
Proof.
  intros Hw Hb Hk [d Hd] Hdd Hnd Hok How. pose proof (awf_fresh bound a (si_id i) Hw Hk) as Hfr. assert (How' : ∀ n k' i', n ∈ si_names i → a_imgs a !! k' = Some i' → n ∈ si_names i' → False).
  { intros n k' i' Hn Hk' Hn'. specialize (How n Hn). by eapply (owner_none bound) in How. }
  split; unfold add_image; cbn [a_imgs a_digs].
  - destruct (wf_size bound a Hw). split; [|done]. rewrite map_size_insert, Hk. cbn. lia.
  - intros k' i' [[<- <-]|[Hne H]]%lookup_insert_Some; [done|]. by apply (wf_id bound a Hw).
  - intros k' i' [[<- <-]|[Hne H]]%lookup_insert_Some; [split_and!; [done..|lia]|]. destruct (wf_names bound a Hw k' i' H) as (? & ? & ?). split_and!; [done..|lia].
  - intros k1 k2 i1 i2 n [[<- <-]|[Hne1 H1]]%lookup_insert_Some [[<- <-]|[Hne2 H2]]%lookup_insert_Some Hn1 Hn2; [done|by destruct (How' n k2 i2)|by destruct (How' n k1 i1)|by eapply (wf_owner bound a Hw)].
  - intros k' i' [[<- <-]|[Hne H]]%lookup_insert_Some; [rewrite Hdd; split; [by exists d|constructor]|by apply (wf_digest bound a Hw k')].
  - rewrite Hd. cbn [dig_add]. intros d' ks [[<- <-]|[Hne H]]%lookup_insert_Some.
    + split; [by destruct (default [] _)|]. assert (Hold : ∀ ks, a_digs a !! d = Some ks → NoDup ks ∧ si_id i ∉ ks ∧ ∀ k, k ∈ ks → ∃ j, a_imgs a !! k = Some j ∧ d ∈ digests_of j).
      { intros ks Hks. destruct (wf_digs bound a Hw d ks Hks) as (_ & ? & ?). by destruct (Hfr d ks Hks). }
      destruct (a_digs a !! d) as [ks|]; cbn; [destruct (Hold ks eq_refl) as (Hn1 & Hn2 & Hin)|].
      * split; [apply NoDup_app; set_solver by apply NoDup_singleton|]. intros k. rewrite elem_of_app, list_elem_of_singleton. intros [Hk1| ->].
        -- destruct (Hin k Hk1) as (j & Hj & Hdj). exists j. rewrite lookup_insert_ne; [done|]. intros <-. done.
        -- exists i. rewrite lookup_insert_eq. split; [done|]. apply digests_of_elem. by left.
      * split; [apply NoDup_singleton|]. intros k. rewrite list_elem_of_singleton. intros ->. exists i. rewrite lookup_insert_eq. split; [done|]. apply digests_of_elem. by left.
    + destruct (wf_digs bound a Hw d' ks H) as (? & ? & Hin). split_and!; [done..|]. intros k Hk1. destruct (Hin k Hk1) as (j & Hj & Hdj). exists j. rewrite lookup_insert_ne; [done|]. intros <-. congruence.
Qed.
End digest_lists.

(** ** Deleting *)
Section deleting.
Context {MT : Type} {SM : StrMap ptr MT} (default_host : option string) (dir : string).
Implicit Types (s : image_state MT) (a : astore) (G N D : gmap cstr ptr).

Lemma remove_names_ok names N s :
  sm_models (is_byname s) N → NoDup names → (∀ n, n ∈ names → is_Some (N !! n)) →
  wp (remove_names names) (λ b s', b = true ∧ ∃ m N', s' = set_byname m s ∧ sm_models m N' ∧ ∀ n, N' !! n = if decide (n ∈ names) then None else N !! n) s.
Proof.
  revert N s. induction names as [|n names IH]; intros N s Hm Hnd Hin; cbn [remove_names].
  { apply wp_ret. split; [done|]. exists (is_byname s), N. split; [by destruct s|]. split; [done|]. intros n. rewrite decide_False; [done|]. apply not_elem_of_nil. }
  apply NoDup_cons in Hnd as [Hn Hnd]. apply wp_bind, wp_byname. eapply wp_mono; [by apply sm_remove_ok|]. cbn beta. intros b m (-> & Hm' & _). rewrite bool_decide_true by (apply Hin; by left). cbn [negb].
  eapply wp_mono; [apply (IH (delete n N)); [done|done|]|].
  - intros n' Hn'. rewrite lookup_delete_ne by (intros <-; done). apply Hin. by right.
  - cbn beta. intros b s' (-> & m' & N' & -> & Hm2 & HN'). split; [done|]. exists m', N'. split; [done|]. split; [done|]. intros n'. rewrite HN'. destruct (decide (n' = n)) as [->|Hne].
    + rewrite lookup_delete_eq. by repeat case_decide; set_solver.
    + rewrite lookup_delete_ne by done. by repeat case_decide; set_solver.
Qed.

Lemma take_image_ok G s p k l :
  has_images G s → (∀ q, q ∈ l → ∃ k, G !! k = Some q) → (∀ k', G !! k' = Some p → k' = k) → G !! k = Some p → p ∈ l →
  wp (take_image k l) (λ r s', s' = s ∧ ∃ l', r = (Some p, l') ∧ l ≡ₚ p :: l') s.
Proof.
  intros HG Hl Hinj Hk. induction l as [|q l IH]; intros Hin; [by apply not_elem_of_nil in Hin|]. cbn [take_image].
  destruct (Hl q (list_elem_of_here q l)) as [k' Hk']. destruct (HG k' q Hk') as (im & i & Him & Hi & Hid). apply wp_bind. eapply wp_ld_simage; [done..|]. rewrite Hid.
  destruct (decide (k' = k)) as [->|Hne].
  - rewrite decide_False by (intros ?; done). apply wp_ret. split; [done|]. assert (q = p) as -> by congruence. by exists l.
  - rewrite decide_True by done. apply elem_of_cons in Hin as [->|Hin]; [by specialize (Hinj k' Hk')|]. apply wp_bind. eapply wp_mono; [apply IH; [|done]|].
    + intros q' Hq'. apply Hl. by right.
    + cbn beta. intros r s' (-> & l' & -> & Hp). apply wp_ret. split; [done|]. exists (q :: l'). split; [done|]. rewrite Hp. apply perm_swap.
Qed.

Lemma drep_unlist G D digs (ad : gmap cstr (list cstr)) k : drep G D digs ad → (∀ d ks, ad !! d = Some ks → k ∉ ks) → drep (delete k G) D digs ad.
Proof.
  intros [Hd Hi] Hk. split; [|done]. intros d. specialize (Hd d). specialize (Hk d). destruct (D !! d), (ad !! d) as [ks|]; try done. destruct Hd as (l & Hl & Hf). exists l. split; [done|].
  specialize (Hk ks eq_refl). clear Hl. induction Hf as [|k' p ks l Hp Hf IH]; constructor; [|set_solver]. rewrite lookup_delete_ne; [done|]. set_solver.
Qed.

(** The state without the image under [k], of which references remain. *)
Lemma rep_removed bound held G N N' D D' s a k p im i m1 m2 m4 dg l :
  rep held G N D s a → awf bound a → G !! k = Some p → is_imgs s !! p = Some im → a_imgs a !! k = Some i → p ∈ held →
  sm_models m1 (delete k G) → sm_models m2 N' → (∀ n, N' !! n = if decide (n ∈ si_names i) then None else N !! n) →
  sm_models m4 D' → drep G D' dg (a_digs (del_image k a)) → (∀ q, is_Some (dg !! q) → is_Some (is_digs s !! q)) → is_list s ≡ₚ p :: l →
  rep held (delete k G) N' D'
    (set_imgs (<[p := mk_image (im_simage im) (im_spec im) (u64 (im_refcnt im - 1))]> (is_imgs s)) (set_images l (u64 (is_len s - 1)) (set_digs dg (set_bydigest m4 (set_byname m2 (set_byid m1 s)))))) (del_image k a).
Proof.
  intros Hr Hw Hk Hp Hi Hheld Hm1 Hm2 HN' Hm4 Hd Hdg Hl.
  assert (Him : ∀ k', a_imgs (del_image k a) !! k' = delete k (a_imgs a) !! k') by (intros k'; unfold del_image; by rewrite Hi).
  assert (Hinj : ∀ k', G !! k' = Some p → k' = k) by (intros k' Hk'; by eapply (rp_inj bound)).
  assert (Hnd : NoDup (p :: l)) by (rewrite <- Hl; apply Hr). apply NoDup_cons in Hnd as [Hpl Hnd].
  assert (Hd' : drep (delete k G) D' dg (a_digs (del_image k a))) by (apply drep_unlist; [done|]; intros d ks Hks; by destruct (del_digs_Some bound a k i d ks Hw Hi Hks) as (ks0 & ? & ? & ? & ? & ?)).
  assert (Hpin : p ∈ is_list s) by (rewrite Hl; by left). assert (Hlist : ∀ q, q ∈ l ↔ q ∈ is_list s ∧ q ≠ p) by (intros q; rewrite Hl; set_solver).
  split; cbn; try done; try apply Hr.
  - intros k'. rewrite Him, !lookup_delete_is_Some. intros [? ?]. split; [done|]. by apply (rp_dom Hr).
  - intros k' q [Hne Hk']%lookup_delete_Some. destruct (rp_obj Hr k' q Hk') as (imq & iq & Hq & Hiq & Ha). exists imq, iq. rewrite lookup_insert_ne by (intros <-; by apply Hne; symmetry; apply Hinj).
    split_and!; [done..|]. rewrite Him. by rewrite lookup_delete_ne.
  - intros n q. rewrite HN'. destruct (decide (n ∈ si_names i)) as [Hn|Hn].
    + split; [done|]. intros (k' & i' & [Hne Hk']%lookup_delete_Some & Hi' & Hn'). rewrite Him, lookup_delete_ne in Hi' by done. destruct Hne. by eapply (wf_owner bound a Hw).
    + rewrite (rp_names Hr). split; intros (k' & i' & Hk' & Hi' & Hn'); exists k', i'; rewrite Him in *.
      * assert (k ≠ k') by (intros <-; congruence). by rewrite !lookup_delete_ne.
      * apply lookup_delete_Some in Hk' as [? ?]. by rewrite lookup_delete_ne in Hi'.
  - intros q. rewrite Hlist, (rp_list Hr). split.
    + intros [[k' Hk'] Hne]. exists k'. rewrite lookup_delete_ne; [done|]. intros <-. congruence.
    + intros [k' [Hne Hk']%lookup_delete_Some]. split; [by exists k'|]. intros ->. apply Hne. symmetry. by apply Hinj.
  - rewrite (rp_len Hr), (Permutation_length Hl). unfold u64. rewrite Zminus_mod_idemp_l. f_equal. cbn. lia.
  - intros q. rewrite lookup_insert_is_Some', Hlist, (rp_live Hr). destruct (decide (p = q)) as [<-|]; naive_solver.
  - intros q imq. pose proof (occ_pos p held Hheld). pose proof (rp_ref_range _ _ _ _ _ _ _ _ Hr Hp). destruct (decide (p = q)) as [<-|Hne].
    + rewrite lookup_insert_eq. intros [= <-]. cbn. rewrite decide_False by done. rewrite u64_small by (rewrite (rp_ref Hr p im Hp), decide_True in * by done; unfold two64; lia). rewrite (rp_ref Hr p im Hp), decide_True by done. lia.
    + rewrite lookup_insert_ne by done. intros Hq. rewrite (rp_ref Hr q imq Hq). f_equal. repeat case_decide; naive_solver.
  - apply Hd'.
  - apply Hd'.
  - intros q Hq. apply (rp_next Hr). rewrite lookup_insert_is_Some' in Hq. destruct Hq as [[<-|]|]; naive_solver.
Qed.

Lemma do_remove_ok bound held G N D s a k p i :
  rep held G N D s a → awf bound a → G !! k = Some p → a_imgs a !! k = Some i → p ∈ held →
  wp (do_remove_image p k) (λ r s', r = 0 ∧ calm s s' ∧ (∃ im, is_imgs s' !! p = Some im ∧ im_simage im = Some i) ∧ ∃ N' D', rep held (delete k G) N' D' s' (del_image k a)) s.
Proof.
  intros Hr Hw Hk Hi Hheld. destruct (rp_obj Hr k p Hk) as (im & i' & Him & Hi' & Ha). assert (i' = i) as -> by congruence. pose proof (rep_images _ _ _ _ _ _ _ Hr Hw) as HG.
  assert (Hid : si_id i = k) by (by apply (wf_id bound a Hw)). destruct (wf_names bound a Hw k i Hi) as (Hnd & _ & _).
  unfold do_remove_image. apply wp_bind, wp_byid. eapply wp_mono; [by apply sm_remove_ok, (rp_id Hr)|]. cbn beta. intros b m1 (-> & Hm1 & _). rewrite bool_decide_true by (by eexists). cbn [negb].
  apply wp_bind. eapply wp_ld_simage; [done..|]. apply wp_bind. eapply wp_mono; [apply (remove_names_ok (si_names i) N); [apply (rp_name Hr)|done|]|].
  { intros n Hn. exists p. apply (rp_names Hr). by exists k, i. }
  cbn beta. intros b s2 (-> & m2 & N' & -> & Hm2 & HN'). cbn [negb]. assert (Hshort : ∀ d ks, a_digs a !! d = Some ks → Z.of_nat (length ks) < two64) by (intros d ks Hd; by eapply wf_list_length).
  apply wp_bind. eapply wp_mono; [eapply (digest_remove_ok G D (a_digs a) _ p im i); [apply (rp_dig Hr)|exact (rep_drep held G N D s a Hr)|exact HG|done..]|].
  cbn beta. intros r s3 (-> & m3 & D3 & dg3 & -> & Hm3 & Hd3 & Hs3). rewrite decide_False by lia. cbn [is_digs set_byname set_byid] in Hs3.
  apply wp_bind. eapply wp_mono; [eapply (digest_remove_ok G D3 (dig_remove (si_id i) (manifest_of i) (a_digs a)) _ p im i); [exact Hm3|exact Hd3|exact HG|done|done|by apply dig_remove_short]|].
  cbn beta. intros r s4 (-> & m4 & D4 & dg4 & -> & Hm4 & Hd4 & Hs4). rewrite decide_False by lia. cbn [is_digs set_digs] in Hs4.
  apply wp_bind, wp_get, wp_bind. eapply wp_mono; [eapply (take_image_ok G _ p k); [exact HG| |intros k' Hk'; by eapply (rp_inj bound)|done|]|].
  { intros q Hq. by apply (rp_list Hr). }
  { apply (rp_list Hr). by exists k. }
  cbn beta. intros r s5 (-> & l & -> & Hl). apply wp_bind, wp_modify, wp_bind, wp_bind. eapply wp_st_img; [exact Him|].
  assert (Hdel : a_digs (del_image k a) = dig_remove (si_id i) (si_digest i) (dig_remove (si_id i) (manifest_of i) (a_digs a))) by (unfold del_image; rewrite Hi, Hid; done).
  rewrite <- Hdel in Hd4. pose proof (rep_removed bound held G N N' D D4 s a k p im i m1 m2 m4 dg4 l Hr Hw Hk Him Hi Hheld Hm1 Hm2 HN' Hm4 Hd4 (λ q Hq, Hs3 q (Hs4 q Hq)) Hl) as Hend.
  apply wp_bind. eapply wp_ld_img; [apply lookup_insert_eq|]. cbn [im_refcnt]. pose proof (rp_ref Hend p _ (lookup_insert_eq _ _ _)) as Href. cbn [im_refcnt is_list set_imgs set_images] in Href.
  pose proof (occ_pos p held Hheld). destruct (Z.eqb_spec (u64 (im_refcnt im - 1)) 0) as [Hz|_]; [destruct (decide (p ∈ l)); lia|].
  do 2 apply wp_ret. split; [done|]. split; [done|]. split; [eexists; split; [apply lookup_insert_eq|done]|]. exists N', D4. exact Hend.
Qed.

Lemma image_dir_removed w id s :
  wp (remove_image_dir dir w id) (λ r s', (r = 0 ∨ r = -1) ∧ (∃ d, s' = set_disk d s ∧ ∀ x, x ≠ cstr_s id → d !! x = is_disk s !! x) ∧
    (r = 0 → is_disk s' = delete (cstr_s id) (is_disk s)) ∧ (io_all w → is_Some (get_data_dir dir id) → r = 0)) s.
Proof.
  unfold remove_image_dir. destruct (get_data_dir dir id); [destruct (io w) eqn:Eio|].
  - apply wp_bind, wp_modify, wp_ret. split; [by left|]. split; [|done]. eexists. split; [done|]. intros x Hx. by rewrite lookup_delete_ne.
  - apply wp_bind, wp_modify, wp_ret. split; [by right|]. split; [|split; [lia|intros Hio; rewrite io_ok in Eio; done]]. eexists. split; [done|]. intros x Hx. by rewrite lookup_alter_ne.
  - apply wp_ret. split; [by right|]. split; [exists (is_disk s); split; [by destruct s|done]|]. split; [lia|by intros _ [? [=]]].
Qed.

Lemma do_delete_ok bound G N D s a w ref :
  rep [] G N D s a → awf bound a → mem_all w →
  wp (do_delete_image_info default_host dir w ref) (λ r s', is_lock s' = is_lock s ∧ match find_ref default_host a ref with
    | None => r = 0 ∧ s' = s
    | Some k => (r = 0 ∨ r = -1) ∧ (∃ G' N' D', rep [] G' N' D' s' (del_image k a)) ∧ (∀ x, x ≠ cstr_s k → is_disk s' !! x = is_disk s !! x) ∧
        (r = 0 → is_disk s' = delete (cstr_s k) (is_disk s)) ∧ (io_all w → is_Some (get_data_dir dir k) → r = 0)
    end) s.
Proof.
  intros Hr Hw Hm. apply wp_bind. eapply wp_mono; [eapply image_lookup_ok; [done..|auto with world|cbn; lia]|]. cbn beta. intros img s1 [Hc1 H]. destruct (find_ref default_host a ref) as [k|] eqn:Ek; [|destruct H as [-> ->]; by apply wp_ret].
  destruct H as (p & Hp & -> & Hr1). destruct (rp_obj Hr1 k p Hp) as (im & i & Him & Hi & Ha). assert (Hid : si_id i = k) by (by apply (wf_id bound a Hw)).
  apply wp_bind. eapply wp_ld_simage; [done..|]. rewrite Hid. apply wp_bind. unfold remove_image_from_memory. apply wp_bind.
  eapply wp_mono; [eapply image_lookup_ok; [done..|auto with world|cbn; lia]|]. cbn beta. intros img s2 [Hc2 H]. unfold find_ref in H. rewrite Ha in H. destruct H as (p' & Hp' & -> & Hr2). assert (p' = p) as -> by congruence.
  apply wp_bind. eapply wp_mono; [eapply (do_remove_ok bound _ G N D s2 a k p i); [done..|by left]|]. cbn beta. intros r s3 (-> & Hc3 & (im3 & Him3 & Hi3) & N' & D' & Hr3).
  apply wp_bind. eapply wp_mono; [eapply ref_dec_ok; [exact Hr3|by apply awf_del]|]. cbn beta. intros [] s4 (Hr4 & Hc4 & Hkeep). apply wp_ret. rewrite decide_False by lia.
  destruct (Hkeep im3 Him3 (list_elem_of_here _ _)) as (im4 & Him4 & Hi4). apply wp_bind, wp_bind. eapply wp_ld_simage; [exact Him4|by rewrite Hi4|]. rewrite Hid.
  apply wp_bind. eapply wp_mono; [apply image_dir_removed|]. cbn beta. intros r s5 (Hr01 & (d & -> & Hd) & Hok & Hio). apply wp_ret, wp_bind.
  eapply wp_mono; [eapply ref_dec_ok; [by apply rep_disk|by apply awf_del]|]. cbn beta. intros [] s6 (Hr6 & [Hl6 Hd6] & _). apply wp_ret.
  destruct Hc1 as [Hl1 Hd1], Hc2 as [Hl2 Hd2], Hc3 as [Hl3 Hd3], Hc4 as [Hl4 Hd4]. cbn in Hl6, Hd6, Hok. split; [congruence|].
  assert (Hdisk : is_disk s4 = is_disk s) by congruence. rewrite Hd6, <- Hdisk. split; [destruct Hr01 as [->| ->]; rewrite ?(decide_False (P := 0 ≠ 0)), ?(decide_True (P := -1 ≠ 0)) by lia; naive_solver|].
  split; [by exists (delete k G), N', D'|]. split; [done|]. destruct Hr01 as [->| ->].
  - rewrite decide_False by lia. naive_solver.
  - rewrite decide_True by lia. split; [done|]. intros Hall Hf. exfalso. specialize (Hio ltac:(auto with world) Hf). lia.
Qed.
End deleting.

(** ** Creating *)
Section creating.
Context {MT : Type} {SM : StrMap ptr MT} (signed : bool) (default_host : option string) (dir : string).
Context (parse_spec : string → option oci_image_spec) (base64 : string → option string).
Implicit Types (s : image_state MT) (a : astore) (G N D : gmap cstr ptr).

Lemma the_names_ok w names s :
  mem_all w → Z.of_nat (length names) ≤ max_items →
  wp (unique_names signed w names) (λ r s', s' = s ∧ r = Some (the_names signed names)) s.
Proof.
  intros Hm Hl. unfold unique_names, the_names, map_room, sub. cbn. rewrite Hm.
  change (λ n : nat, mk_map_mem true true true) with (λ _ : nat, mem_ok).
  destruct names as [|n names]; [by apply wp_ret|].
  destruct (util_string_array_unique_correct signed (n :: names)) as (u & -> & _); [done|done|]. by apply wp_ret.
Qed.

Lemma the_names_spec names :
  Z.of_nat (length names) ≤ max_items → NoDup (the_names signed names) ∧ (∀ x, x ∈ the_names signed names ↔ x ∈ names) ∧ (length (the_names signed names) ≤ length names)%nat.
Proof.
  intros Hl. assert (Hu : NoDup (the_names signed names) ∧ ∀ x, x ∈ the_names signed names ↔ x ∈ names).
  { unfold the_names. destruct names as [|n names]; [split; [constructor|done]|]. destruct (util_string_array_unique_correct signed (n :: names)) as (u & -> & Hnd & Hin & _); [done|done|].
    replace (omap id (Some <$> u)) with u; [done|]. clear. induction u as [|x u IH]; [done|]. cbn. by f_equal. }
  destruct Hu as [Hnd Hin]. split_and!; [done..|]. apply submseteq_length, NoDup_submseteq; [done|]. intros x. apply Hin.
Qed.

Lemma random_id_ok G s a rand fuel i :
  sm_models (is_byid s) G → (∀ k, is_Some (a_imgs a !! k) ↔ is_Some (G !! k)) → wp (random_id_loop rand fuel i) (λ r s', s' = s ∧ r = random_id (a_imgs a) rand fuel i) s.
Proof.
  intros Hm Hdom. revert i. induction fuel as [|fuel IH]; intros i; cbn [random_id_loop random_id]; [by apply wp_ret|].
  destruct (util_generate_random_str (rand i) 64) as [id|]; [|by apply wp_ret]. apply wp_bind. eapply wp_byid_search; [done|].
  specialize (Hdom (cstr_of id)). destruct (G !! cstr_of id) as [p|], (a_imgs a !! cstr_of id) as [im|]; [apply IH| | |by apply wp_ret].
  - destruct (proj2 Hdom) as [? [=]]. by eexists.
  - destruct (proj1 Hdom) as [? [=]]. by eexists.
Qed.

(** The configuration of an image can be read. *)
Definition has_config (disk : gmap string (gmap string string)) (id : cstr) : Prop := ∃ key name text,
  util_full_digest (Some (cstr_s id)) = Some key ∧ make_big_data_base_name base64 true (Some key) = Some name ∧
  (String.length (dir +:+ String slash (cstr_s id) +:+ String slash name) ≤ PATH_MAX)%nat ∧ (disk !! cstr_s id ≫= λ files, files !! name) = Some text ∧ is_Some (parse_spec text).

Lemma try_fill_ok w p id im s :
  is_imgs s !! p = Some im → wp (try_fill_image_spec parse_spec base64 dir w p id)
    (λ _ s', ∃ sp, s' = set_imgs (<[p := mk_image (im_simage im) sp (im_refcnt im)]> (is_imgs s)) s ∧ (mem_all w → has_config (is_disk s) id → is_Some sp)) s.
Proof.
  intros Hp. assert (Hsame : (mem_all w → ¬ has_config (is_disk s) id) → ∃ sp, s = set_imgs (<[p := mk_image (im_simage im) sp (im_refcnt im)]> (is_imgs s)) s ∧ (mem_all w → has_config (is_disk s) id → is_Some sp)).
  { intros Hno. exists (im_spec im). split; [|by intros H1 H2%(Hno H1)]. rewrite insert_id; [by destruct s|]. rewrite Hp. by destruct im. }
  unfold try_fill_image_spec. destruct (util_full_digest _) as [key|] eqn:Ek; [|apply wp_ret, Hsame; intros _ (? & ? & ? & ? & _); congruence].
  destruct (base_name _ _ _) as [name|] eqn:En; [|apply wp_ret, Hsame; intros Hm (? & ? & ? & ? & Hn & _); unfold base_name in En; rewrite alloc_ok in En by done; congruence].
  assert (Hkn : ∀ key' name', mem_all w → Some key = Some key' → make_big_data_base_name base64 true (Some key') = Some name' → name' = name) by (intros key' name' Hm [= <-] Hn; unfold base_name in En; rewrite alloc_ok in En by done; congruence).
  destruct (decide _) as [Hl|Hl]; [apply wp_ret, Hsame; intros Hm (key' & name' & ? & H1 & H2 & H3 & _); rewrite (Hkn key' name' Hm) in H3 by congruence; lia|].
  apply wp_bind, wp_bind, wp_get, wp_ret. destruct (_ ≫= _) as [text|] eqn:Et; [|apply wp_ret, Hsame; intros Hm (key' & name' & ? & H1 & H2 & H3 & H4 & _); rewrite (Hkn key' name' Hm) in H4 by congruence; congruence].
  apply wp_bind. eapply wp_st_img; [exact Hp|]. apply wp_ret. eexists. split; [done|]. intros Hm (key' & name' & text' & H1 & H2 & H3 & H4 & H5). rewrite (Hkn key' name' Hm) in H4 by congruence. congruence.
Qed.

(** A new image is held by the function that makes it. *)
Lemma new_image_ok bound held G N D s a w i :
  rep held G N D s a → awf bound a → mem_all w → (length held < 7)%nat →
  wp (new_image parse_spec base64 dir w i) (λ r s', ∃ p im, r = Some p ∧ rep (p :: held) G N D s' a ∧ calm s s' ∧ p ∉ is_list s' ∧ p ∉ held ∧ is_imgs s' !! p = Some im ∧ im_simage im = Some i ∧
    is_imgs s' = <[p := im]> (is_imgs s) ∧ (has_config (is_disk s) (si_id i) → is_Some (im_spec im))) s.
Proof.
  intros Hr Hw Hm Hlen. unfold new_image. rewrite alloc_ok by auto with world. cbn [negb]. apply wp_bind, wp_get, wp_bind, wp_modify, wp_bind. eapply wp_mono; [eapply try_fill_ok, lookup_insert_eq|]. cbn beta.
  intros _ s' (sp & -> & Hsp). cbn [is_imgs set_next set_imgs im_simage im_refcnt]. rewrite insert_insert_eq. apply wp_bind. eapply wp_st_img; [apply lookup_insert_eq|].
  cbn [is_imgs set_imgs im_spec im_refcnt]. rewrite insert_insert_eq. apply wp_ret.
  set (p := is_next s). exists p. eexists. split; [done|]. assert (Hfree : is_imgs s !! p = None) by (apply eq_None_not_Some; intros Hs; pose proof (rp_next Hr p (or_introl Hs)); unfold p in *; lia).
  assert (Hnl : p ∉ is_list s ∧ p ∉ held) by (split; intros Hin; apply eq_None_not_Some in Hfree; apply Hfree, (rp_live Hr); [by left|by right]).
  split; [|split; [done|split_and!; [apply Hnl|apply Hnl|apply lookup_insert_eq|done|done|apply Hsp; auto with world]]]. split; cbn; try apply Hr; try lia.
  - intros k q Hk. destruct (rp_obj Hr k q Hk) as (im & i' & Him & Hi & Ha). exists im, i'. rewrite lookup_insert_ne; [done|]. intros <-. congruence.
  - intros q. rewrite lookup_insert_is_Some', elem_of_cons, (rp_live Hr). naive_solver.
  - intros q im. rewrite occ_cons. destruct (decide (p = q)) as [<-|Hne].
    + rewrite lookup_insert_eq, one_if_refl. intros [= <-]. cbn. rewrite decide_False by apply Hnl. rewrite occ_notin by apply Hnl. lia.
    + rewrite lookup_insert_ne by done. intros Hq. rewrite (rp_ref Hr q im Hq). unfold one_if. rewrite (decide_False (P := p = q)) by done. lia.
  - intros q. rewrite lookup_insert_is_Some'. intros [[<-|H]|H]; [unfold p; lia| |]; [pose proof (rp_next Hr q (or_introl H))|pose proof (rp_next Hr q (or_intror H))]; lia.
Qed.

(** An image that only the caller knows goes. *)
Lemma free_held_ok held G N D s a p :
  rep (p :: held) G N D s a → p ∉ is_list s → p ∉ held → wp (free_image_t (Some p)) (λ _ s', rep held G N D s' a ∧ calm s s') s.
Proof.
  intros Hr Hnl Hnh. destruct (proj2 (rp_live Hr p)) as [im Him]; [right; by left|]. apply wp_bind. eapply wp_ld_img; [exact Him|]. apply wp_modify. split; [|done]. by apply rep_forget.
Qed.

Lemma drep_weaken G G' D digs (ad : gmap cstr (list cstr)) : G ⊆ G' → drep G D digs ad → drep G' D digs ad.
Proof.
  intros Hsub [Hd Hi]. split; [|done]. intros d. specialize (Hd d). destruct (D !! d), (ad !! d) as [ks|]; try done. destruct Hd as (l & Hl & Hf). exists l. split; [done|].
  eapply Forall2_impl; [exact Hf|]. cbn beta. intros k p Hk. by eapply lookup_weaken.
Qed.

Lemma to_list_ok G D (ad : gmap cstr (list cstr)) s w p k d q ks :
  drep G D (is_digs s) ad → D !! d = Some q → ad !! d = Some ks → G !! k = Some p → mem_all w →
  wp (append_image_to_digest_images w q p) (λ r s', r = 0 ∧ ∃ l, s' = set_digs (<[q := mk_digest l (u64 (Z.of_nat (length l)))]> (is_digs s)) s ∧ Forall2 (λ k p, G !! k = Some p) (ks ++ [k]) l) s.
Proof.
  intros Hd Hq Hks Hk Hm. unfold append_image_to_digest_images. rewrite alloc_ok by done. cbn [negb]. pose proof (proj1 Hd d) as Hdd. rewrite Hq, Hks in Hdd. destruct Hdd as (l & Hl & Hf).
  apply wp_bind. eapply wp_ld_dig; [exact Hl|]. apply wp_bind. eapply wp_st_dig; [exact Hl|]. apply wp_ret. split; [done|]. cbn [di_list di_len]. exists (l ++ [p]).
  replace (u64 (u64 (Z.of_nat (length l)) + 1)) with (u64 (Z.of_nat (length (l ++ [p])))); [split; [done|]|].
  - apply Forall2_app; [done|]. by repeat constructor.
  - unfold u64. rewrite Zplus_mod_idemp_l, length_app. f_equal. cbn. lia.
Qed.

(** A new list. *)
Lemma drep_insert G D digs (ad : gmap cstr (list cstr)) d q k p :
  drep G D digs ad → D !! d = None → digs !! q = None → G !! k = Some p → drep G (<[d := q]> D) (<[q := mk_digest [p] (u64 1)]> digs) (<[d := [k]]> ad).
Proof.
  intros [Hd Hi] HD Hq Hk. assert (Hfresh : ∀ d', D !! d' ≠ Some q).
  { intros d' Hd'. specialize (Hd d'). rewrite Hd' in Hd. destruct (ad !! d') as [ks'|]; [|done]. destruct Hd as (l & Hl & _). congruence. }
  split.
  - intros d'. destruct (decide (d = d')) as [<-|Hne]; [rewrite !lookup_insert_eq; exists [p]; split; [done|by repeat constructor]|].
    rewrite !lookup_insert_ne by done. specialize (Hd d'). destruct (D !! d') as [q'|] eqn:E; [|done]. destruct (ad !! d') as [ks'|]; [|done]. destruct Hd as (l & Hl & Hf). exists l. rewrite lookup_insert_ne; [done|]. intros <-. by apply (Hfresh d').
  - intros d1 d2 q'. rewrite !lookup_insert_Some. intros [[<- <-]|[H1 H1']] [[<- H2]|[H2 H2']]; [done|by apply Hfresh in H2'|subst; by apply Hfresh in H1'|by eapply Hi].
Qed.

Lemma digest_add_ok G D (ad : gmap cstr (list cstr)) s w p k d :
  sm_models (is_bydigest s) D → drep G D (is_digs s) ad → G !! k = Some p → mem_all w → (∀ q, is_Some (is_digs s !! q) → (q < is_next s)%N) →
  wp (append_image_according_to_digest w (Some d) p) (λ r s', r = 0 ∧ ∃ m D' digs' next, s' = set_next next (set_digs digs' (set_bydigest m s)) ∧ (is_next s ≤ next)%N ∧ sm_models m D' ∧
    drep G D' digs' (dig_add k (Some d) ad) ∧ ∀ q, is_Some (digs' !! q) → (q < next)%N) s.
Proof.
  intros Hm Hd Hk Hw Hnx. unfold append_image_according_to_digest, dig_add. apply wp_bind. eapply wp_bydigest_search; [done|]. pose proof (proj1 Hd d) as Hdd. destruct (D !! d) as [q|] eqn:Eq.
  - destruct (ad !! d) as [ks|] eqn:Eks; [|done]. eapply wp_mono; [by eapply to_list_ok; auto with world|]. cbn beta. intros r s' (-> & l & -> & Hl). split; [done|].
    exists (is_bydigest s), D, (<[q := mk_digest l (u64 (Z.of_nat (length l)))]> (is_digs s)), (is_next s). split; [done|]. split; [lia|]. split; [done|]. split; [by apply drep_update|]. intros q'. rewrite lookup_insert_is_Some'. intros [<-|H]; [|by apply Hnx]. apply Hnx. destruct Hdd as (l' & -> & _). by eexists.
  - destruct (ad !! d) as [ks|] eqn:Eks; [done|]. unfold create_empty_digest_images. rewrite alloc_ok by auto with world. cbn [negb]. apply wp_bind, wp_bind, wp_get, wp_bind, wp_modify, wp_ret.
    unfold append_image_to_digest_images. rewrite alloc_ok by auto with world. cbn [negb]. set (q := is_next s).
    apply wp_bind, wp_bind. eapply wp_ld_dig; [apply lookup_insert_eq|]. apply wp_bind. eapply wp_st_dig; [apply lookup_insert_eq|]. apply wp_ret. rewrite decide_False by lia. apply wp_bind, wp_bydigest.
    eapply wp_mono; [by apply sm_insert_ok|]. cbn beta. intros b m (-> & Hm' & Hdr). rewrite map_room_ok, sm_room_ok, bool_decide_true in * by auto with world. cbn in Hdr. rewrite Hdr, drop_all. cbn [andb negb foldr] in *.
    apply wp_ret. split; [done|]. exists m, (<[d := q]> D), (<[q := mk_digest [p] (u64 1)]> (is_digs s)), (q + 1)%N. split; [unfold set_next, set_digs, set_bydigest; cbn; by rewrite insert_insert_eq|].
    split; [unfold q; lia|]. split; [done|]. split.
    + apply drep_insert; [done|done| |done]. apply eq_None_not_Some. intros H%Hnx. unfold q in H. lia.
    + intros q'. rewrite lookup_insert_is_Some'. intros [<-|H]; [lia|]. specialize (Hnx q' H). unfold q. lia.
Qed.

(** The names [pre] lead to [p]. *)
Definition names_to (pre : list cstr) (p : ptr) N N' : Prop := ∀ n, N' !! n = if decide (n ∈ pre) then Some p else N !! n.

Lemma insert_names_ok w p names dn N s :
  mem_all w → NoDup names → sm_models (is_byname s) N →
  wp (insert_names w p names dn) (λ r s', ∃ m N' pre, s' = set_byname m s ∧ sm_models m N' ∧ r.2 = dn ++ pre ∧ names_to pre p N N' ∧ (∀ n, n ∈ pre → N !! n = None) ∧
    if r.1 then pre = names else ∃ n, n ∈ names ∧ is_Some (N !! n)) s.
Proof.
  revert w dn N s. induction names as [|n names IH]; intros w dn N s Hw Hnd Hm; cbn [insert_names].
  { apply wp_ret. exists (is_byname s), N, []. split; [by destruct s|]. rewrite app_nil_r. split_and!; try done. intros n Hn. by apply not_elem_of_nil in Hn. }
  apply NoDup_cons in Hnd as [Hn Hnd]. apply wp_bind. eapply wp_byname_search; [done|]. destruct (N !! n) as [q|] eqn:En.
  - apply wp_ret. exists (is_byname s), N, []. split; [by destruct s|]. rewrite app_nil_r. split_and!; try done; [intros x Hx; by apply not_elem_of_nil in Hx|]. cbn. exists n. split; [by left|]. by eexists.
  - apply wp_bind, wp_byname. eapply wp_mono; [by apply sm_insert_ok|]. cbn beta. intros b m (-> & Hm' & _). rewrite map_room_ok, sm_room_ok, bool_decide_true in * by auto with world. cbn [andb negb] in *.
    eapply wp_mono; [apply (IH (sub 1 w) (dn ++ [n]) (<[n := p]> N)); [auto with world|done|done]|]. cbn beta. intros [ok dn'] s' (m' & N' & pre & -> & Hm2 & -> & HN' & Hpre & Hok).
    exists m', N', (n :: pre). split; [done|]. split; [done|]. split; [by rewrite <- app_assoc|]. split_and!.
    + intros x. rewrite HN'. destruct (decide (x = n)) as [->|Hne]; [rewrite lookup_insert_eq, (decide_True (P := n ∈ n :: pre)) by (by left); by case_decide|]. rewrite lookup_insert_ne by done. repeat case_decide; set_solver.
    + intros x [->|Hx]%elem_of_cons; [done|]. specialize (Hpre x Hx). by apply lookup_insert_None in Hpre as [? _].
    + cbn [fst] in *. destruct ok; [by rewrite Hok|]. destruct Hok as (x & Hx & Hs). exists x. split; [by right|]. rewrite lookup_insert_is_Some' in Hs. destruct Hs as [<-|Hs]; done.
Qed.

Lemma drop_names_ok names N s :
  sm_models (is_byname s) N → wp (drop_names names) (λ _ s', ∃ m N', s' = set_byname m s ∧ sm_models m N' ∧ ∀ n, N' !! n = if decide (n ∈ names) then None else N !! n) s.
Proof.
  revert N s. induction names as [|n names IH]; intros N s Hm; cbn [drop_names].
  { apply wp_ret. exists (is_byname s), N. split; [by destruct s|]. split; [done|]. intros n. rewrite decide_False; [done|]. apply not_elem_of_nil. }
  apply wp_bind, wp_byname. eapply wp_mono; [by apply sm_remove_ok|]. cbn beta. intros b m (_ & Hm' & _). eapply wp_mono; [by apply (IH (delete n N))|]. cbn beta. intros _ s' (m' & N' & -> & Hm2 & HN').
  exists m', N'. split; [done|]. split; [done|]. intros x. rewrite HN'. destruct (decide (x = n)) as [->|Hne]; [rewrite lookup_delete_eq|rewrite lookup_delete_ne by done]; by repeat case_decide; set_solver.
Qed.

(** *** Appending *)
Lemma named bound held G N D s a n : rep held G N D s a → awf bound a → is_Some (N !! n) ↔ is_Some (owner (a_imgs a) n).
Proof.
  intros Hr Hw. split.
  - intros [p (k & i & Hk & Hi & Hn)%(rp_names Hr)]. exists k. apply (owner_spec bound); [done|]. by exists i.
  - intros [k (i & Hi & Hn)%(owner_spec bound a n k Hw)]. destruct (rp_dom Hr k ltac:(by eexists)) as [p Hp]. exists p. apply (rp_names Hr). by exists k, i.
Qed.

Lemma unknown held G N D s a k : rep held G N D s a → a_imgs a !! k = None ↔ G !! k = None.
Proof.
  intros Hr. split; intros Hn; apply eq_None_not_Some; intros Hs.
  - destruct Hs as [p Hp]. destruct (rp_obj Hr k p Hp) as (? & ? & _ & _ & ?). congruence.
  - apply (rp_dom Hr) in Hs as [? ?]. congruence.
Qed.

(** Other objects behind the indices. *)
Lemma rep_indices held G N D D' s a m1 m2 m3 dg next :
  rep held G N D s a → sm_models m1 G → sm_models m2 N → sm_models m3 D' → drep G D' dg (a_digs a) → (is_next s ≤ next)%N → (∀ q, is_Some (dg !! q) → (q < next)%N) →
  rep held G N D' (set_next next (set_digs dg (set_bydigest m3 (set_byname m2 (set_byid m1 s))))) a.
Proof.
  intros Hr H1 H2 H3 [Hd Hi] Hnx Hdg. split; cbn; try apply Hr; try done. intros q [Hq|Hq]; [|by apply Hdg]. pose proof (rp_next Hr q (or_introl Hq)). lia.
Qed.

(** An image that is on the list and in the indices. *)
Lemma rep_appended bound G N N' D D' s a p im i m1 m2 m3 dg next (ad : gmap cstr (list cstr)) :
  rep [p] G N D s a → awf bound a → p ∉ is_list s → is_imgs s !! p = Some im → im_simage im = Some i → a_imgs a !! si_id i = None →
  sm_models m1 (<[si_id i := p]> G) → sm_models m2 N' → names_to (si_names i) p N N' → (∀ n, n ∈ si_names i → N !! n = None) →
  sm_models m3 D' → drep (<[si_id i := p]> G) D' dg ad → (is_next s ≤ next)%N → (∀ q, is_Some (dg !! q) → (q < next)%N) →
  rep [] (<[si_id i := p]> G) N' D' (set_byname m2 (set_next next (set_digs dg (set_bydigest m3 (set_byid m1 (set_images (is_list s ++ [p]) (u64 (is_len s + 1)) s)))))) (mk_astore (<[si_id i := i]> (a_imgs a)) ad).
Proof.
  clear dir parse_spec base64.
  intros Hr Hw Hnl Hp Hi Hk H1 H2 HN' Hfree H3 [Hd Hinj] Hnx Hdg. pose proof (proj1 (unknown _ _ _ _ _ _ _ Hr) Hk) as HG.
  assert (Hne : ∀ k, G !! k ≠ Some p) by (intros k Hk'; apply Hnl, (rp_list Hr); by exists k).
  split; cbn; try apply Hr; try done; try lia.
  - intros k. rewrite !lookup_insert_is_Some'. intros [->|H]; [by left|]. right. by apply (rp_dom Hr).
  - intros k q [[<- <-]|[Hne' Hq]]%lookup_insert_Some; [exists im, i; by rewrite lookup_insert_eq|]. destruct (rp_obj Hr k q Hq) as (im' & i' & ? & ? & ?). exists im', i'. by rewrite lookup_insert_ne.
  - intros n q. rewrite (HN' n). destruct (decide (n ∈ si_names i)) as [Hn|Hn].
    + split; [intros [= <-]; exists (si_id i), i; by rewrite !lookup_insert_eq|]. intros (k & i' & [[<- <-]|[Hk1 Hq]]%lookup_insert_Some & Hi' & Hn'); [done|]. rewrite lookup_insert_ne in Hi' by done.
      assert (N !! n = Some q) by (apply (rp_names Hr); by exists k, i'). rewrite Hfree in * by done. done.
    + rewrite (rp_names Hr). split; intros (k & i' & Hk1 & Hi' & Hn').
      * exists k, i'. rewrite !lookup_insert_ne by (intros <-; congruence). done.
      * apply lookup_insert_Some in Hk1 as [[<- <-]|[Hne' Hk1]]; [rewrite lookup_insert_eq in Hi'; by simplify_eq|]. rewrite lookup_insert_ne in Hi' by done. by exists k, i'.
  - apply NoDup_app. split; [apply Hr|]. split; [|apply NoDup_singleton]. intros q Hq. rewrite list_elem_of_singleton. by intros ->.
  - intros q. rewrite elem_of_app, list_elem_of_singleton, (rp_list Hr). split; [intros [[k Hk1]| ->]|].
    + exists k. rewrite lookup_insert_ne; [done|]. intros <-. congruence.
    + exists (si_id i). apply lookup_insert_eq.
    + intros [k [[<- <-]|[? ?]]%lookup_insert_Some]; [by right|left; by exists k].
  - rewrite (rp_len Hr), length_app. unfold u64. rewrite Zplus_mod_idemp_l. f_equal. cbn. lia.
  - intros q. rewrite (rp_live Hr), elem_of_app. set_solver.
  - intros q imq Hq. rewrite (rp_ref Hr q imq Hq), occ_cons. change (occ q []) with 0. unfold one_if. assert (Hin : q ∈ is_list s ++ [p] ↔ q ∈ is_list s ∨ q = p) by (by rewrite elem_of_app, list_elem_of_singleton).
    destruct (decide (p = q)) as [<-|Hpq].
    + rewrite (decide_False (P := p ∈ is_list s)), (decide_True (P := p ∈ is_list s ++ [p])) by naive_solver. lia.
    + rewrite (decide_ext (q ∈ is_list s ++ [p]) (q ∈ is_list s)) by naive_solver. destruct (decide (q ∈ is_list s)); lia.
  - intros q [Hq|Hq]; [|by apply Hdg]. pose proof (rp_next Hr q (or_introl Hq)). lia.
Qed.

Lemma take_append {A} (l : list A) x : take (length (l ++ [x]) - 1) (l ++ [x]) = l.
Proof. rewrite length_app. cbn. replace (length l + 1 - 1)%nat with (length l) by lia. apply take_app_length. Qed.

Lemma append_ok bound G N D s a w p im i d :
  rep [p] G N D s a → awf bound a → mem_all w → p ∉ is_list s → is_imgs s !! p = Some im → im_simage im = Some i →
  a_imgs a !! si_id i = None → si_digest i = Some d → NoDup (si_names i) →
  wp (image_store_append_image w (si_id i) (Some d) p) (λ r s', calm s s' ∧
    ((∀ n, n ∈ si_names i → owner (a_imgs a) n = None) ∧ r = 0 ∧ (∃ N' D', rep [] (<[si_id i := p]> G) N' D' s' (add_image i a)) ∨
     (∃ n, n ∈ si_names i ∧ is_Some (owner (a_imgs a) n)) ∧ r = -1 ∧ p ∉ is_list s' ∧ ∃ D', rep [p] G N D' s' a)) s.
Proof.
  intros Hr Hw Hm Hnl Hp Hi Hk Hd Hnd. pose proof (proj1 (unknown _ _ _ _ _ _ _ Hr) Hk) as HG. pose proof (rep_images _ _ _ _ _ _ _ Hr Hw) as HI.
  assert (Hsub : G ⊆ <[si_id i := p]> G) by (by apply insert_subseteq). pose proof (awf_fresh bound a _ Hw Hk) as Hfr.
  unfold image_store_append_image. rewrite alloc_ok by auto with world. cbn [negb]. apply wp_bind, wp_modify, wp_bind, wp_byid. eapply wp_mono; [by apply sm_insert_ok, (rp_id Hr)|]. cbn beta.
  intros b m1 (-> & Hm1 & _). rewrite map_room_ok, sm_room_ok, bool_decide_true in * by auto with world. cbn [andb negb] in *. apply wp_bind.
  eapply wp_mono; [apply (digest_add_ok (<[si_id i := p]> G) D (a_digs a) _ _ p (si_id i)); [apply (rp_dig Hr)|eapply drep_weaken; [exact Hsub|exact (rep_drep _ _ _ _ _ _ Hr)]|apply lookup_insert_eq|auto with world|]|].
  { intros q Hq. apply (rp_next Hr). by right. }
  cbn beta. intros r s2 (-> & m3 & D' & dg & nx & -> & Hnx & Hm3 & Hdr & Hdg). rewrite decide_False by lia. cbn [is_next set_byid set_images] in Hnx.
  apply wp_bind. eapply wp_ld_simage; [exact Hp|exact Hi|]. apply wp_bind. eapply wp_mono; [apply (insert_names_ok _ p (si_names i) [] N); [auto with world|done|apply (rp_name Hr)]|]. cbn beta.
  intros [ok dn] s3 (m2 & N' & pre & -> & Hm2 & Hdn & HN' & Hpre & Hok). cbn [fst snd] in Hok, Hdn. subst dn. rewrite app_nil_l. destruct ok.
  - subst pre. apply wp_ret. split; [done|]. left. split.
    { intros n Hn. apply eq_None_not_Some. rewrite <- (named bound _ _ _ _ _ _ n Hr Hw). apply eq_None_not_Some. by apply Hpre. }
    split; [done|]. exists N', D'. apply (rep_appended bound G N N' D D' s a p im i m1 m2 m3 dg nx (dig_add (si_id i) (si_digest i) (a_digs a))); try done. by rewrite Hd.
  - destruct Hok as (n & Hn & Hs). apply wp_bind. eapply wp_mono; [by apply (drop_names_ok pre N')|]. cbn beta. intros _ s4 (m4 & N4 & -> & Hm4 & HN4).
    assert (N4 = N) as -> by (apply map_eq; intros x; rewrite HN4, (HN' x); case_decide; [by rewrite Hpre|done]).
    apply wp_bind. eapply wp_mono; [apply (digest_remove_ok (<[si_id i := p]> G) D' (dig_add (si_id i) (Some d) (a_digs a)) _ p im i); [exact Hm3|exact Hdr| |exact Hp|exact Hi|]|].
    { intros k q [[<- <-]|[_ Hq]]%lookup_insert_Some; [by exists im, i|]. by apply HI. }
    { unfold dig_add. intros d' ks' [[<- <-]|[_ Hd']]%lookup_insert_Some; [|by eapply wf_list_length]. pose proof (wf_size bound a Hw) as [_ Hb]. rewrite max_items_eq in Hb. rewrite length_app.
      assert (Hlen : (length (default [] (a_digs a !! d)) ≤ size (a_imgs a))%nat) by (destruct (a_digs a !! d) as [ks|] eqn:E; cbn; [by eapply wf_list_size|lia]).
      pose proof (wf_size bound a Hw) as [Hsz _]. unfold two64. cbn [length]. lia. }
    cbn beta. intros _ s5 (_ & m5 & D5 & dg5 & -> & Hm5 & Hdr5 & Hsub5). rewrite remove_add in Hdr5 by done. cbn [is_digs set_digs set_byname set_next] in Hsub5.
    apply wp_bind, wp_byid. eapply wp_mono; [by apply sm_remove_ok|]. cbn beta. intros b m6 (_ & Hm6 & _). rewrite delete_insert_id in Hm6 by done.
    apply wp_bind, wp_modify, wp_ret. split; [done|]. right. split; [exists n; split; [done|]; by rewrite <- (named bound _ _ _ _ _ _ n Hr Hw)|]. split; [done|]. cbn [is_list set_images set_byid set_digs set_bydigest set_byname set_next]. rewrite take_append. split; [done|].
    exists D5. assert (Hlen : u64 (u64 (is_len s + 1) - 1) = is_len s).
    { rewrite (rp_len Hr). unfold u64. rewrite Zminus_mod_idemp_l. replace (Z.of_nat (length (is_list s)) mod two64 + 1 - 1) with (Z.of_nat (length (is_list s)) mod two64) by lia. by rewrite Zmod_mod. }
    cbn [is_len set_images set_byid set_digs set_bydigest set_byname set_next]. rewrite Hlen. eapply (rep_indices [p] G N D D5 s a m6 m4 m5 dg5 nx); try done.
    + rewrite <- (delete_insert_id G (si_id i) p HG). apply drep_unlist; [done|]. intros d' ks Hks. by apply (Hfr d' ks).
    + intros q Hq. by apply Hdg, Hsub5.
Qed.

Context (generate_json : storage_image → option string).

Lemma created_Some a rand id names layer metadata now time d i :
  created signed a rand id names layer metadata now time d = Some i →
  a_imgs a !! si_id i = None ∧ si_digest i = Some d ∧ si_data_digests i = None ∧ si_names i = the_names signed names ∧ ∀ n, n ∈ names → owner (a_imgs a) n = None.
Proof.
  unfold created. destruct (match id with Some k => Some k | None => _ end) as [k|]; [|done]. cbn. destruct (match time with None => Some now | Some t => t end) as [t|]; [|done]. cbn.
  destruct (decide _) as [[Hk Hn]|]; [|done]. intros [= <-]. cbn. split_and!; [done..|]. by rewrite list.Forall_forall in Hn.
Qed.

(** A new image in memory, from its record. *)
Lemma make_ok bound G N D s a w i d :
  rep [] G N D s a → awf bound a → mem_all w → a_imgs a !! si_id i = None → si_digest i = Some d → si_data_digests i = None → NoDup (si_names i) → Forall (λ n, name_ok (cstr_s n)) (si_names i) →
  Z.of_nat (bound + S (length (si_names i))) ≤ max_items →
  wp (img ← new_image parse_spec base64 dir (sub 3 w) i;
      match img with
      | None => mret None
      | Some p =>
        ret ← image_store_append_image (sub 4 w) (si_id i) (Some d) p;
        if decide (ret ≠ 0) then free_image_t img;; mret None else
        j ← ld_simage p;
        ret ← save_image generate_json dir (sub 5 w) j;
        if decide (ret ≠ 0) then do_delete_image_info default_host dir (sub 6 w) (si_id i);; mret None else
        mret (Some (si_id i))
      end) (λ r s', is_lock s' = is_lock s ∧
    ((∃ n, n ∈ si_names i ∧ is_Some (owner (a_imgs a) n)) ∧ r = None ∧ is_disk s' = is_disk s ∧ (∃ G' N' D', rep [] G' N' D' s' a) ∨
     (∀ n, n ∈ si_names i → owner (a_imgs a) n = None) ∧
       (r = Some (si_id i) ∧ (∃ G' N' D', rep [] G' N' D' s' (add_image i a)) ∧ (∃ text, generate_json i = Some text ∧ is_disk s' = put_file (si_id i) IMAGE_JSON text (is_disk s)) ∨
        r = None ∧ (∃ G' N' D', rep [] G' N' D' s' a) ∧ ¬ (io_all w ∧ fits dir (si_id i) ∧ is_Some (generate_json i))))) s.
Proof.
  intros Hr Hw Hm Hk Hd Hdd Hnd Hok Hb. apply wp_bind. eapply wp_mono; [eapply new_image_ok; [done..|auto with world|cbn; lia]|]. cbn beta. intros r s1 (p & im & -> & Hr1 & [Hl1 Hd1] & Hnl & Hnh & Hp & Hi & _).
  apply wp_bind. eapply wp_mono; [by eapply append_ok; auto with world|]. cbn beta. intros r s2 [[Hl2 Hd2] [(Hfree & -> & N2 & D2 & Hr2)|(Hsome & -> & Hnl2 & D2 & Hr2)]].
  - rewrite decide_False by lia. destruct (rp_obj Hr2 (si_id i) p (lookup_insert_eq _ _ _)) as (im2 & i2 & Hp2 & Hi2 & Ha2). unfold add_image in Ha2. cbn [a_imgs] in Ha2. rewrite lookup_insert_eq in Ha2. injection Ha2 as <-.
    apply wp_bind. eapply wp_ld_simage; [done..|]. apply wp_bind. eapply wp_mono; [apply save_image_ok|]. cbn beta. intros r s3 ([->| ->] & (dk & ->) & Hsv & Hio).
    + rewrite decide_False by lia. destruct (Hsv eq_refl) as (text & Htext & ->). apply wp_ret. cbn [is_lock is_disk set_disk]. split; [congruence|]. right. split; [done|]. left. split; [done|].
      split; [exists (<[si_id i := p]> G), N2, D2; by apply rep_disk|]. exists text. split; [done|]. congruence.
    + rewrite decide_True by lia. assert (Hwa : awf (bound + S (length (si_names i))) (add_image i a)) by (apply awf_add; [done..|by eexists|done|done|done|done]).
      apply wp_bind. eapply wp_mono; [eapply do_delete_ok; [by apply rep_disk|exact Hwa|auto with world]|]. cbn beta. intros r s4 [Hl4 H4]. apply wp_ret.
      replace (find_ref default_host (add_image i a) (si_id i)) with (Some (si_id i)) in H4 by (unfold find_ref, add_image; cbn [a_imgs]; by rewrite lookup_insert_eq).
      destruct H4 as (_ & (G4 & N4 & D4 & Hr4) & _ & _ & _). rewrite (del_add bound a i d) in Hr4 by done. cbn in Hl4. split; [congruence|]. right. split; [done|]. right. split; [done|].
      split; [by exists G4, N4, D4|]. intros (Hall & Hfit & Hg). specialize (Hio ltac:(auto with world) Hfit Hg). lia.
  - rewrite decide_True by lia. apply wp_bind. eapply wp_mono; [by eapply free_held_ok|]. cbn beta. intros [] s3 [Hr3 [Hl3 Hd3]]. apply wp_ret. split; [congruence|]. left. split; [done|]. split; [done|]. split; [congruence|]. by exists G, N, D2.
Qed.

Lemma new_record w k sd names now time layer metadata :
  mem_all w → new_storage_image w k sd names now time layer metadata =
    (λ t, mk_simage k sd names layer metadata (Some t) (Some now) 0 [] None None) <$> match time with None => Some now | Some t => t end.
Proof. intros Hm. unfold new_storage_image. rewrite alloc_ok by done. by destruct time as [[t|]|]. Qed.

Lemma do_create_ok bound G N D s a w rand id names layer metadata now time d :
  rep [] G N D s a → awf bound a → mem_all w → Z.of_nat (bound + S (length names)) ≤ max_items → Forall (λ n, name_ok (cstr_s n)) names →
  wp (do_create signed generate_json parse_spec base64 default_host dir w rand id names layer metadata now time (Some d)) (λ r s', is_lock s' = is_lock s ∧
    match created signed a rand id names layer metadata now time d with
    | None => r = None ∧ is_disk s' = is_disk s ∧ ∃ G' N' D', rep [] G' N' D' s' a
    | Some i =>
      r = Some (si_id i) ∧ (∃ G' N' D', rep [] G' N' D' s' (add_image i a)) ∧ (∃ text, generate_json i = Some text ∧ is_disk s' = put_file (si_id i) IMAGE_JSON text (is_disk s)) ∨
      r = None ∧ (∃ G' N' D', rep [] G' N' D' s' a) ∧ ¬ (io_all w ∧ fits dir (si_id i) ∧ is_Some (generate_json i))
    end) s.
Proof.
  intros Hr Hw Hm Hb Hok. destruct (the_names_spec names ltac:(lia)) as (Hnd & Hin & Hlen). unfold do_create, created.
  assert (Hsame : is_lock s = is_lock s ∧ @None cstr = None ∧ is_disk s = is_disk s ∧ ∃ G' N' D', rep [] G' N' D' s a) by (split_and!; [done..|by exists G, N, D]).
  apply wp_bind. eapply (wp_mono _ (λ r s', s' = s ∧ r = match id with Some k => Some k | None => random_id (a_imgs a) rand 5 0 end)).
  { destruct id as [k|]; [by apply wp_ret|]. unfold generate_random_image_id. rewrite alloc_ok by auto with world. cbn [negb]. apply (random_id_ok G); [apply (rp_id Hr)|]. intros k. pose proof (unknown _ _ _ _ _ _ k Hr) as Hu.
    rewrite <- !not_eq_None_Some, Hu. done. }
  intros dst s' [-> ->]. destruct (match id with Some k => Some k | None => _ end) as [k|]; [|by apply wp_ret]. cbn [mbind option_bind]. apply wp_bind. eapply wp_byid_search; [apply (rp_id Hr)|].
  destruct (G !! k) as [p|] eqn:EG.
  { apply wp_ret. destruct (match time with None => Some now | Some t => t end); [|done]. cbn. rewrite decide_False; [done|]. intros [Hn _]. rewrite (unknown _ _ _ _ _ _ k Hr) in Hn. congruence. }
  assert (Hk : a_imgs a !! k = None) by (by rewrite (unknown _ _ _ _ _ _ k Hr)).
  apply wp_bind. eapply wp_mono; [apply the_names_ok; [auto with world|lia]|]. cbn beta. intros r s' [-> ->]. cbn [mbind option_bind].
  rewrite new_record by auto with world. destruct (match time with None => Some now | Some t => t end) as [t|]; [|by apply wp_ret]. cbn [mbind option_bind fmap option_fmap option_map].
  set (i := mk_simage _ _ _ _ _ _ _ _ _ _ _). eapply wp_mono; [eapply (make_ok bound G N D s a w i d); try done|].
  - cbn. apply list.Forall_forall. intros n Hn%Hin. by rewrite list.Forall_forall in Hok; apply Hok.
  - cbn. lia.
  - cbn beta. intros r s' [Hl H]. split; [done|]. destruct H as [((n & Hn & Hs) & -> & Hd' & Hr')|[Hn H]].
    + rewrite decide_False; [done|]. intros [_ Hf]. rewrite list.Forall_forall in Hf. apply Hin in Hn. specialize (Hf n Hn). cbn in Hf. rewrite Hf in Hs. by destruct Hs.
    + rewrite decide_True; [done|]. split; [done|]. apply list.Forall_forall. intros n Hn'. apply Hn, Hin, Hn'.
Qed.
End creating.
