(* ===== verification/ImageUpdate.v ===== *)
(** * Updating images

    The names of images, their data and their simple fields: each function does
    to the state what [ImageSpec] says it does to the store. *)
From stdpp Require Import base gmap list fin_maps numbers strings.
From Stdlib Require Import ZArith Lia Ascii.
From S2P Require Import Prelude CString Regex Array RbTree Map StrMap Convert StringUtil Verify Path SymlinkScope IdNameManager ImageName ImageStore ImageSpec ContainersStore ImageCorrect ImageChange.

Local Open Scope Z_scope.

(** ** The abstract store *)
Section abstract.
Implicit Types (a : astore).

Lemma named_lookup a k u i k' :
  a_imgs a !! k = Some i → a_imgs (name_image k u a) !! k' = if decide (k' = k) then Some (with_names u i) else lose_names u <$> a_imgs a !! k'.
Proof.
  intros Hi. unfold name_image. cbn [a_imgs]. destruct (decide (k' = k)) as [->|Hne]; [by rewrite lookup_alter_eq, lookup_fmap, Hi|]. by rewrite lookup_alter_ne, lookup_fmap.
Qed.

Lemma named_Some a k u i k' i' :
  a_imgs a !! k = Some i → a_imgs (name_image k u a) !! k' = Some i' → ∃ j, a_imgs a !! k' = Some j ∧ i' = with_names (si_names i') j ∧ (k' = k ∧ si_names i' = u ∨ k' ≠ k ∧ i' = lose_names u j).
Proof.
  intros Hi. rewrite (named_lookup a k u i k' Hi). destruct (decide (k' = k)) as [->|Hne]; [intros [= <-]; exists i; naive_solver|]. intros (j & Hj & ->)%fmap_Some. exists j. naive_solver.
Qed.

Lemma awf_name bound bound' a k u i :
  awf bound a → a_imgs a !! k = Some i → NoDup u → Forall (λ n, name_ok (cstr_s n)) u → (length u ≤ bound')%nat → (bound ≤ bound')%nat → Z.of_nat bound' ≤ max_items → awf bound' (name_image k u a).
Proof.
  intros Hw Hi Hnd Hok Hlen Hb Hmax. split.
  - destruct (wf_size bound a Hw). unfold name_image. cbn [a_imgs]. rewrite <- size_dom, dom_alter_L, dom_fmap_L, size_dom. split; [lia|done].
  - intros k' i' (j & Hj & He & _)%(named_Some a k u i k' i' Hi). rewrite He. by apply (wf_id bound a Hw k' j).
  - intros k' i' (j & Hj & _ & [[-> ->]|[_ ->]])%(named_Some a k u i k' i' Hi); [done|]. destruct (wf_names bound a Hw k' j Hj) as (Hn & Hf & Hl). cbn. split_and!; [by apply NoDup_filter|rewrite list.Forall_forall in *; intros n [_ ?]%list_elem_of_filter; by apply Hf|].
    pose proof (length_filter (λ n, n ∉ u) (si_names j)). lia.
  - intros k1 k2 i1 i2 n (j1 & Hj1 & _ & H1)%(named_Some a k u i k1 i1 Hi) (j2 & Hj2 & _ & H2)%(named_Some a k u i k2 i2 Hi) Hn1 Hn2.
    destruct H1 as [[-> Hu1]|[Hk1 ->]], H2 as [[-> Hu2]|[Hk2 ->]]; [done|exfalso; cbn in Hn2; apply list_elem_of_filter in Hn2; naive_solver|exfalso; cbn in Hn1; apply list_elem_of_filter in Hn1; naive_solver|].
    cbn in Hn1, Hn2. apply list_elem_of_filter in Hn1 as [_ Hn1]. apply list_elem_of_filter in Hn2 as [_ Hn2]. by eapply (wf_owner bound a Hw).
  - intros k' i' (j & Hj & He & _)%(named_Some a k u i k' i' Hi). rewrite He. by apply (wf_digest bound a Hw k' j).
  - intros d ks Hd. destruct (wf_digs bound a Hw d ks Hd) as (Hne & Hn & Hin). split_and!; [done..|]. intros k' Hk'. destruct (Hin k' Hk') as (j & Hj & Hdj).
    rewrite (named_lookup a k u i k' Hi). destruct (decide (k' = k)) as [->|Hne']; [assert (j = i) as -> by congruence; by exists (with_names u i)|]. exists (lose_names u j). by rewrite Hj.
Qed.

Lemma lose_none u i : (∀ n, n ∈ si_names i → n ∉ u) → lose_names u i = i.
Proof.
  intros H. unfold lose_names. replace (filter (λ n, n ∉ u) (si_names i)) with (si_names i); [by destruct i|]. induction (si_names i) as [|x l IH]; [done|]. rewrite filter_cons, decide_True by (apply H; by left). f_equal. apply IH. intros n Hn. apply H. by right.
Qed.

(** No name is taken from another image. *)
Definition own_names a k (u : list cstr) : Prop := ∀ n k', n ∈ u → owner (a_imgs a) n = Some k' → k' = k.

Lemma named_own bound a k u k' i' : awf bound a → own_names a k u → k' ≠ k → a_imgs a !! k' = Some i' → lose_names u i' = i'.
Proof. intros Hw Hown Hne Ha. apply lose_none. intros n Hn Hu. apply Hne, (Hown n k' Hu), (owner_spec bound); [done|]. by exists i'. Qed.
End abstract.

(** ** Names *)
Section naming.
Context {MT : Type} {SM : StrMap ptr MT} (signed : bool) (generate_json : storage_image → option string) (dir : string).
Implicit Types (s st : image_state MT) (a : astore) (G N D : gmap cstr ptr).

Lemma count_le n names : (count_name n names ≤ length names)%nat.
Proof. induction names as [|x names IH]; cbn; [done|]. destruct (decide _); lia. Qed.

Lemma count_all n names : count_name n names = length names → filter (λ x, x ≠ n) names = [].
Proof.
  induction names as [|x names IH]; [done|]. cbn [count_name length]. pose proof (count_le n names). rewrite filter_cons. destruct (decide (x = n)) as [->|]; [|lia].
  rewrite decide_False by (intros ?; done). intros Hc. apply IH. lia.
Qed.

Lemma remove_name_ok w q im i n s :
  is_imgs s !! q = Some im → im_simage im = Some i → mem_all w →
  wp (remove_name w (Some q) (Some n)) (λ r s', r = 0 ∧ s' = set_imgs (<[q := mk_image (Some (with_names (filter (λ x, x ≠ n) (si_names i)) i)) (im_spec im) (im_refcnt im)]> (is_imgs s)) s) s.
Proof.
  intros Hq Hi Hm. unfold remove_name. apply wp_bind. eapply wp_ld_simage; [done..|]. destruct (decide _) as [Hc|Hc]; [|rewrite alloc_ok by done; cbn [negb]]; apply wp_bind; (eapply wp_st_simage; [done..|]); apply wp_ret; [|done].
  by rewrite count_all.
Qed.

(** The record of an image as its file has it; an empty text is not written. *)
Definition saved_as (i : storage_image) (disk : gmap string (gmap string string)) : Prop :=
  ∃ files text, disk !! cstr_s (si_id i) = Some files ∧ generate_json i = Some text ∧ (text ≠ EmptyString → files !! IMAGE_JSON = Some text).

Lemma saved_put i text disk : generate_json i = Some text → saved_as i (put_file (si_id i) IMAGE_JSON text disk).
Proof. intros Hg. unfold saved_as, put_file. eexists _, text. split_and!; [apply lookup_insert_eq|done|]. intros Ht. unfold put_text. rewrite (proj2 (String.eqb_neq _ _) Ht). apply lookup_insert_eq. Qed.

Lemma saved_put_ne i id name text disk : si_id i ≠ id → saved_as i disk → saved_as i (put_file id name text disk).
Proof. intros Hne (files & t & Hf & Hg & Ht). exists files, t. unfold put_file. rewrite lookup_insert_ne; [done|]. intros He. by apply Hne, (inj cstr_s). Qed.

Definition lose_img (u : list cstr) (im : image_t) : image_t := mk_image (lose_names u <$> im_simage im) (im_spec im) (im_refcnt im).

Lemma lose_same u n i : n ∉ si_names i → lose_names (u ++ [n]) i = lose_names u i.
Proof.
  intros Hn. unfold lose_names. f_equal. induction (si_names i) as [|x l IH]; [done|]. apply not_elem_of_cons in Hn as [Hx Hn]. rewrite !filter_cons.
  rewrite (decide_ext (x ∉ u ++ [n]) (x ∉ u)) by (rewrite elem_of_app, list_elem_of_singleton; naive_solver). by rewrite IH.
Qed.

Lemma lose_one u n i : with_names (filter (λ x, x ≠ n) (si_names (lose_names u i))) (lose_names u i) = lose_names (u ++ [n]) i.
Proof.
  unfold lose_names, with_names. cbn. f_equal. rewrite list_filter_filter. apply list_filter_iff. intros x. rewrite elem_of_app, list_elem_of_singleton. naive_solver.
Qed.

(** What a name that goes over leaves to the images other than [p]. *)
Lemma lose_step p (im : image_t) (imgs : gmap ptr image_t) u n (other : option ptr) :
  (∀ q imq, imgs !! q = Some imq → q ≠ p → ∃ iq, im_simage imq = Some iq ∧ (n ∈ si_names iq ↔ other = Some q)) → other ≠ Some p →
  match other with
  | None => <[p := im]> (lose_img u <$> imgs)
  | Some q => match imgs !! q with Some imq => <[q := lose_img (u ++ [n]) imq]> (<[p := im]> (lose_img u <$> imgs)) | None => <[p := im]> (lose_img u <$> imgs) end
  end = <[p := im]> (lose_img (u ++ [n]) <$> imgs).
Proof.
  intros Hothers Hne. assert (Hsame : ∀ q, q ≠ p → other ≠ Some q → (lose_img u <$> imgs) !! q = (lose_img (u ++ [n]) <$> imgs) !! q).
  { intros q Hq Ho. rewrite !lookup_fmap. destruct (imgs !! q) as [imq|] eqn:E; [|done]. cbn. f_equal. destruct (Hothers q imq E Hq) as (iq & Hi & Hn). unfold lose_img. rewrite Hi. cbn. rewrite lose_same; [done|]. naive_solver. }
  apply map_eq. intros x. destruct other as [q|]; [destruct (imgs !! q) as [imq|] eqn:E|].
  - destruct (decide (x = p)) as [->|Hx]; [rewrite lookup_insert_ne by congruence; by rewrite !lookup_insert_eq|]. rewrite (lookup_insert_ne _ p x) by done.
    destruct (decide (x = q)) as [->|Hxq]; [rewrite lookup_insert_eq, lookup_fmap, E; done|]. rewrite !lookup_insert_ne by done. apply Hsame; [done|]. congruence.
  - destruct (decide (x = p)) as [->|Hx]; [by rewrite !lookup_insert_eq|]. rewrite !lookup_insert_ne by done. destruct (decide (x = q)) as [->|Hxq]; [by rewrite !lookup_fmap, E|]. apply Hsame; [done|]. congruence.
  - destruct (decide (x = p)) as [->|Hx]; [by rewrite !lookup_insert_eq|]. rewrite !lookup_insert_ne by done. by apply Hsame.
Qed.

(** Every image is in its file, and there is no other directory. *)
Definition saved a (disk : gmap string (gmap string string)) : Prop := ∀ k i, a_imgs a !! k = Some i → saved_as i disk.
Definition tidy a (disk : gmap string (gmap string string)) : Prop := ∀ x, is_Some (disk !! x) → ∃ k, x = cstr_s k ∧ is_Some (a_imgs a !! k).

Lemma tidy_put a k name text disk : is_Some (a_imgs a !! k) → tidy a disk → tidy a (put_file k name text disk).
Proof. intros Hk Ht x. unfold put_file. rewrite lookup_insert_is_Some'. intros [<-|Hx]; [by exists k|by apply Ht]. Qed.

(** Files and locks work, and the paths of the images are short enough. *)
Definition ideal (w : world) a : Prop := io_all w ∧ (∀ k, is_Some (a_imgs a !! k) → fits dir k) ∧ ∀ i, is_Some (generate_json i).

Lemma ideal_sub n w a : ideal w a → ideal (sub n w) a.
Proof. intros (Hio & Hf & Hg). split; [auto with world|done]. Qed.

Section take_over.
Context (bound : nat) (G N D : gmap cstr ptr) (s : image_state MT) (a : astore) (p : ptr) (im : image_t) (i : storage_image) (k : cstr) (saves : bool).
Context (Hr : rep [p] G N D s a) (Hw : awf bound a) (Hk : G !! k = Some p) (Hp : is_imgs s !! p = Some im) (Hi : im_simage im = Some i) (Hik : a_imgs a !! k = Some i).

(** The names [dn] have come to [p]. *)
Definition staged (dn : list cstr) st : Prop := ∃ m N1 d,
  st = set_disk d (set_byname m (set_imgs (<[p := im]> (lose_img dn <$> is_imgs s)) s)) ∧ sm_models m N1 ∧
  (∀ n, N1 !! n = if decide (n ∈ dn) then Some p else if decide (n ∈ si_names i) then None else N !! n) ∧
  (saves = true → saved a (is_disk s) → ∀ k' i', k' ≠ k → a_imgs a !! k' = Some i' → saved_as (lose_names dn i') d) ∧ (tidy a (is_disk s) → tidy a d) ∧ (saves = false → d = is_disk s).

Lemma others q imq : is_imgs s !! q = Some imq → q ≠ p → ∃ k' iq, G !! k' = Some q ∧ im_simage imq = Some iq ∧ a_imgs a !! k' = Some iq ∧ k' ≠ k.
Proof.
  intros Hq Hne. assert (Hin : q ∈ is_list s ∨ q ∈ [p]) by (apply (rp_live Hr); by eexists). rewrite list_elem_of_singleton in Hin. destruct Hin as [Hin|]; [|done].
  apply (rp_list Hr) in Hin as [k' Hk']. destruct (rp_obj Hr k' q Hk') as (im' & iq & Hq' & Hiq & Ha). exists k', iq. split_and!; [done|congruence|done|]. intros ->. congruence.
Qed.

(** The image that has a name. *)
Lemma has_name q imq iq n : is_imgs s !! q = Some imq → q ≠ p → im_simage imq = Some iq → n ∈ si_names iq ↔ N !! n = Some q.
Proof.
  intros Hq Hne Hiq. destruct (others q imq Hq Hne) as (k' & iq' & Hk' & Hiq' & Ha & _). assert (iq' = iq) as -> by congruence. rewrite (rp_names Hr). split; [intros Hn; by exists k', iq|].
  intros (k2 & i2 & Hk2 & Ha2 & Hn). assert (k2 = k') as -> by (by eapply (rp_inj bound)). congruence.
Qed.

(** The owner of a name before it comes to [p]. *)
Lemma stage_owner n :
  let other := if decide (n ∈ si_names i) then None else N !! n in
  other ≠ Some p ∧ (∀ q imq, is_imgs s !! q = Some imq → q ≠ p → ∃ iq, im_simage imq = Some iq ∧ (n ∈ si_names iq ↔ other = Some q)) ∧
  ∀ q, other = Some q → ∃ k' imq iq, k' ≠ k ∧ is_imgs s !! q = Some imq ∧ im_simage imq = Some iq ∧ a_imgs a !! k' = Some iq ∧ owner (a_imgs a) n = Some k' ∧ n ∈ si_names iq.
Proof.
  intros other. assert (Hown : ∀ q imq, is_imgs s !! q = Some imq → q ≠ p → ∃ k' iq, im_simage imq = Some iq ∧ a_imgs a !! k' = Some iq ∧ k' ≠ k ∧ (n ∈ si_names iq ↔ other = Some q)).
  { intros q imq Hq Hne. destruct (others q imq Hq Hne) as (k' & iq & Hk' & Hiq & Ha & Hkk). exists k', iq. split_and!; [done..|]. rewrite (has_name q imq iq n Hq Hne Hiq). unfold other.
    case_decide as Hn; [|done]. split; [|done]. intros HN. destruct Hkk. eapply (wf_owner bound a Hw); [done..| |exact Hn]. by apply (has_name q imq iq n Hq Hne Hiq). }
  assert (Hnp : other ≠ Some p).
  { unfold other. case_decide as Hn; [done|]. intros (k' & i' & Hk' & Ha & Hn')%(rp_names Hr). assert (k' = k) as -> by (by eapply (rp_inj bound)). congruence. }
  split; [done|]. split; [intros q imq Hq Hne; destruct (Hown q imq Hq Hne) as (k' & iq & ? & ? & ? & ?); by exists iq|].
  intros q Hq. assert (HN : N !! n = Some q) by (unfold other in Hq; by case_decide). apply (rp_names Hr) in HN as (k' & i' & Hk' & Ha & Hn). destruct (rp_obj Hr k' q Hk') as (imq & iq & Him & Hiq & Ha').
  exists k', imq, iq. assert (i' = iq) as -> by congruence. split_and!; [|done..|apply (owner_spec bound); [done|]; by exists iq|done]. intros ->. congruence.
Qed.

(** The image that has lost a name is saved. *)
Lemma save_other (b : bool) w q imq iq X d m :
  X !! q = Some imq → im_simage imq = Some iq → is_Some (a_imgs a !! si_id iq) →
  wp (if b then save_simage generate_json dir w q else mret 0) (λ r s', (r = 0 ∨ r = -1 ∧ b = true ∧ ¬ ideal w a) ∧ ∃ d', s' = set_disk d' (set_byname m (set_imgs X s)) ∧
    (r = 0 → (b = true → ∃ text, generate_json iq = Some text ∧ d' = put_file (si_id iq) IMAGE_JSON text d) ∧ (b = false → d' = d))) (set_disk d (set_byname m (set_imgs X s))).
Proof.
  intros Hq Hiq Ha. destruct b; [|apply wp_ret; split; [by left|]; exists d; by split_and!]. eapply wp_mono; [by eapply save_simage_ok|]. cbn beta. intros r s' (Hr01 & (d' & ->) & H0 & Hid). split.
  - destruct Hr01 as [->| ->]; [by left|]. right. split_and!; [done..|]. intros (Hio & Hf & Hg). specialize (Hid Hio (Hf _ Ha) (Hg _)). lia.
  - exists d'. split; [done|]. intros ->. split; [|done]. intros _. destruct (H0 eq_refl) as (text & Ht & He). exists text. split; [done|]. by apply (f_equal is_disk) in He.
Qed.

(** One more name. *)
Lemma stage_next dn n N1 m d :
  sm_models m (<[n := p]> N1) → (∀ x, N1 !! x = if decide (x ∈ dn) then Some p else if decide (x ∈ si_names i) then None else N !! x) →
  (saves = true → saved a (is_disk s) → ∀ k' i', k' ≠ k → a_imgs a !! k' = Some i' → saved_as (lose_names (dn ++ [n]) i') d) → (tidy a (is_disk s) → tidy a d) → (saves = false → d = is_disk s) →
  staged (dn ++ [n]) (set_disk d (set_byname m (set_imgs (<[p := im]> (lose_img (dn ++ [n]) <$> is_imgs s)) s))).
Proof.
  intros Hm HN1 Hsv Htd Hns. exists m, (<[n := p]> N1), d. split_and!; [done|done| |done..]. intros x. destruct (decide (n = x)) as [<-|Hne].
  - rewrite lookup_insert_eq, decide_True; [done|]. rewrite elem_of_app, list_elem_of_singleton. by right.
  - rewrite lookup_insert_ne by done. rewrite (decide_ext (x ∈ dn ++ [n]) (x ∈ dn)) by (rewrite elem_of_app, list_elem_of_singleton; naive_solver). apply HN1.
Qed.

Lemma saved_next dn n : let other := if decide (n ∈ si_names i) then None else N !! n in
  ∀ d, (∀ k' i', k' ≠ k → a_imgs a !! k' = Some i' → saved_as (lose_names dn i') d) →
  ∀ k' i', k' ≠ k → a_imgs a !! k' = Some i' → (∃ q, G !! k' = Some q ∧ other ≠ Some q) → saved_as (lose_names (dn ++ [n]) i') d.
Proof.
  intros other d Hd k' i' Hne Ha (q' & Hq' & Ho). rewrite lose_same; [by apply (Hd k')|]. intros Hn. destruct (rp_obj Hr k' q' Hq') as (imq & iq & Him & Hiq & Ha'). assert (iq = i') as -> by congruence.
  assert (Hqp : q' ≠ p) by (intros ->; apply Hne; by eapply (rp_inj bound)). destruct (stage_owner n) as (_ & Hall & _). destruct (Hall q' imq Him Hqp) as (iq & Hiq' & Hiff). assert (iq = i') as -> by congruence. by apply Ho, Hiff.
Qed.

Lemma take_over_ok w dn todo st :
  mem_all w → NoDup (dn ++ todo) → staged dn st →
  wp (take_over generate_json dir w saves p todo) (λ r s', if r : bool then staged (dn ++ todo) s' else
    is_imgs s' !! p = Some im ∧ is_lock s' = is_lock s ∧ is_ready s' = is_ready s ∧ saves = true ∧ (∃ n k', n ∈ todo ∧ owner (a_imgs a) n = Some k' ∧ k' ≠ k) ∧ ¬ ideal w a) st.
Proof.
  revert w dn st. induction todo as [|n todo IH]; intros w dn st Hm Hnd Hst; cbn [take_over]; [apply wp_ret; by rewrite app_nil_r|].
  destruct Hst as (m & N1 & d & -> & Hmod & HN1 & Hsv & Htd & Hns). assert (Hn : n ∉ dn) by (apply NoDup_app in Hnd as (_ & H & _); intros Hx; apply (H n Hx); by left).
  apply wp_bind. eapply wp_byname_search; [exact Hmod|]. rewrite (HN1 n), decide_False by done. set (other := if decide (n ∈ si_names i) then None else N !! n).
  destruct (stage_owner n) as (Hnp & Hall & Hsome). fold other in Hnp, Hall, Hsome. pose proof (lose_step p im (is_imgs s) dn n other Hall Hnp) as Hstep. pose proof (saved_next dn n) as Hsn. cbn zeta in Hsn. fold other in Hsn.
  assert (Hrest : ∀ m' d' Q, sm_models m' N1 → (saves = true → saved a (is_disk s) → ∀ k' i', k' ≠ k → a_imgs a !! k' = Some i' → saved_as (lose_names (dn ++ [n]) i') d') → (tidy a (is_disk s) → tidy a d') → (saves = false → d' = is_disk s) →
    (∀ st', staged (dn ++ [n]) st' → wp (take_over generate_json dir (sub 3 w) saves p todo) Q st') →
    wp (ok ← on_byname (sm_replace (map_room (sub 2 w)) n p); if negb ok then mret false else take_over generate_json dir (sub 3 w) saves p todo) Q
      (set_disk d' (set_byname m' (set_imgs (<[p := im]> (lose_img (dn ++ [n]) <$> is_imgs s)) s)))).
  { intros m' d' Q Hm' Hsv' Htd' Hns' HQ. apply wp_bind, wp_byname. eapply wp_mono; [by apply sm_replace_ok|]. cbn beta. intros b m2 (Hb & _ & Hm2 & _). rewrite map_room_ok, sm_room_ok in Hb by auto with world.
    rewrite Hb in * by done. cbn [negb]. apply HQ. exact (stage_next dn n N1 m2 d' Hm2 HN1 Hsv' Htd' Hns'). }
  assert (Hgo : ∀ st', staged (dn ++ [n]) st' → wp (take_over generate_json dir (sub 3 w) saves p todo) (λ r s', if r : bool then staged (dn ++ n :: todo) s' else
    is_imgs s' !! p = Some im ∧ is_lock s' = is_lock s ∧ is_ready s' = is_ready s ∧ saves = true ∧ (∃ n' k', n' ∈ n :: todo ∧ owner (a_imgs a) n' = Some k' ∧ k' ≠ k) ∧ ¬ ideal w a) st').
  { intros st' Hst'. eapply wp_mono; [apply (IH (sub 3 w) (dn ++ [n])); [auto with world|by rewrite <- app_assoc|done]|]. cbn beta. intros [] s'; [by rewrite <- app_assoc|]. intros (H1 & H2 & H3 & H4 & (n' & k' & H5 & H6) & H7).
    split_and!; [done..| |by intros ?%(ideal_sub 3)]. exists n', k'. split; [by right|done]. }
  destruct other as [q|] eqn:Eo.
  - destruct (Hsome q eq_refl) as (k' & imq & iq & Hkk & Him & Hiq & Ha & Hown & Hnq). rewrite Him in Hstep. assert (Hq : <[p := im]> (lose_img dn <$> is_imgs s) !! q = Some (lose_img dn imq)).
    { rewrite lookup_insert_ne, lookup_fmap, Him by congruence. done. }
    apply wp_bind. eapply wp_mono; [eapply remove_name_ok; [exact Hq|unfold lose_img; cbn; by rewrite Hiq|auto with world]|]. cbn beta. intros r s1 [-> ->]. rewrite decide_False by lia. rewrite lose_one.
    cbn [im_spec im_refcnt lose_img is_imgs set_imgs set_byname set_disk]. replace (mk_image (Some (lose_names (dn ++ [n]) iq)) (im_spec imq) (im_refcnt imq)) with (lose_img (dn ++ [n]) imq) by (unfold lose_img; by rewrite Hiq). rewrite Hstep.
    set (X := <[p := im]> (lose_img (dn ++ [n]) <$> is_imgs s)). change (set_imgs X ?st) with (set_disk d (set_byname m (set_imgs X s))).
    assert (Hid : si_id iq = k') by (by apply (wf_id bound a Hw)). apply wp_bind. eapply wp_mono; [apply (save_other saves (sub 1 w) q (lose_img (dn ++ [n]) imq) (lose_names (dn ++ [n]) iq) X d m)|].
    { unfold X. rewrite lookup_insert_ne, lookup_fmap, Him by congruence. done. }
    { unfold lose_img. cbn. by rewrite Hiq. }
    { cbn. rewrite Hid. by eexists. }
    cbn beta. intros r s1 ([->|(-> & Hs & Hni)] & d' & -> & H0).
    + rewrite decide_False by lia. destruct (H0 eq_refl) as [Ht Hf]. clear H0. cbn [si_id lose_names with_names] in Ht. rewrite Hid in Ht. apply Hrest; [done| | |intros Hs; rewrite Hf by done; by apply Hns|done].
      * intros Hs Hs0 k2 i2 Hne2 Ha2. destruct (Ht Hs) as (text & Hg & ->). destruct (decide (k2 = k')) as [->|Hk2].
        -- assert (i2 = iq) as -> by congruence. rewrite <- Hid. by apply (saved_put (lose_names (dn ++ [n]) iq)).
        -- apply saved_put_ne; [cbn; by rewrite (wf_id bound a Hw k2 i2)|]. destruct (rp_dom Hr k2 ltac:(by eexists)) as [q2 Hq2]. eapply Hsn; [by apply Hsv|done|done|]. exists q2. split; [done|]. intros [= ->].
           destruct (rp_obj Hr k2 q2 Hq2) as (im2 & i2' & Him2 & Hi2 & Ha2'). assert (i2' = iq) as -> by congruence. apply Hk2. rewrite <- Hid. symmetry. by apply (wf_id bound a Hw).
      * intros Ht0. destruct saves; [|rewrite Hf by done; by apply Htd]. destruct (Ht eq_refl) as (text & _ & ->). apply tidy_put; [by eexists|by apply Htd].
    + rewrite decide_True by lia. apply wp_ret. split_and!; [apply lookup_insert_eq|done..| |by intros ?%(ideal_sub 1)]. exists n, k'. split; [by left|done].
  - apply wp_bind, wp_ret. rewrite decide_False by lia. apply wp_bind, wp_ret. rewrite decide_False by lia. rewrite Hstep. apply Hrest; try done.
    intros Hs1 Hs2 k' i' Hne Ha. eapply Hsn; [by apply Hsv|done|done|]. destruct (rp_dom Hr k' ltac:(by eexists)) as [q Hq]. by exists q.
Qed.
End take_over.

(** The state with the new names. *)
Lemma rep_named bound G N N' D s a p im i k u m :
  rep [p] G N D s a → awf bound a → G !! k = Some p → is_imgs s !! p = Some im → im_simage im = Some i → a_imgs a !! k = Some i →
  sm_models m N' → (∀ n, N' !! n = if decide (n ∈ u) then Some p else if decide (n ∈ si_names i) then None else N !! n) →
  rep [p] G N' D (set_byname m (set_imgs (<[p := mk_image (Some (with_names u i)) (im_spec im) (im_refcnt im)]> (lose_img u <$> is_imgs s)) s)) (name_image k u a).
Proof.
  intros Hr Hw Hk Hp Hi Ha Hm HN'. assert (Hinj : ∀ k', G !! k' = Some p → k' = k) by (intros k' Hk'; by eapply (rp_inj bound)). split; cbn; try apply Hr; try done.
  - intros k'. change (is_Some (a_imgs (name_image k u a) !! k') → is_Some (G !! k')). rewrite (named_lookup a k u i k' Ha). destruct (decide (k' = k)) as [->|Hne]; [by intros _; eexists|]. rewrite fmap_is_Some. apply (rp_dom Hr).
  - intros k' q Hk'. change (alter (with_names u) k (lose_names u <$> a_imgs a)) with (a_imgs (name_image k u a)). rewrite (named_lookup a k u i k' Ha). destruct (rp_obj Hr k' q Hk') as (imq & iq & Hq & Hiq & Hak).
    destruct (decide (k' = k)) as [->|Hne]; [assert (q = p) as -> by congruence; eexists _, _; rewrite lookup_insert_eq; by split_and!|].
    exists (lose_img u imq), (lose_names u iq). rewrite lookup_insert_ne, lookup_fmap, Hq, Hak by (intros <-; by apply Hne, Hinj). split_and!; [done| |done]. unfold lose_img. cbn. by rewrite Hiq.
  - intros n q. rewrite HN'. change (alter (with_names u) k (lose_names u <$> a_imgs a)) with (a_imgs (name_image k u a)). split.
    + destruct (decide (n ∈ u)) as [Hu|Hu]; [intros [= <-]; exists k, (with_names u i); rewrite (named_lookup a k u i k Ha), decide_True by done; done|]. destruct (decide (n ∈ si_names i)) as [|Hni]; [done|].
      intros (k' & j & Hk' & Hj & Hn)%(rp_names Hr). assert (Hne : k' ≠ k) by (intros ->; congruence). exists k', (lose_names u j). rewrite (named_lookup a k u i k' Ha), decide_False, Hj by done. split_and!; [done..|]. cbn. by apply list_elem_of_filter.
    + intros (k' & i' & Hk' & (j & Hj & _ & [[-> Hu]|[Hne ->]])%(named_Some a k u i k' i' Ha) & Hn).
      * rewrite decide_True by congruence. congruence.
      * cbn in Hn. apply list_elem_of_filter in Hn as [Hu Hn]. rewrite decide_False by done. rewrite decide_False; [apply (rp_names Hr); by exists k', j|]. intros Hni. apply Hne. by eapply (wf_owner bound a Hw).
  - intros q. rewrite lookup_insert_is_Some', lookup_fmap, fmap_is_Some, <- (rp_live Hr). split; [|tauto]. intros [<-|H]; [by eexists|done].
  - intros q imq. destruct (decide (p = q)) as [<-|Hne]; [rewrite lookup_insert_eq; intros [= <-]; exact (rp_ref Hr p im Hp)|]. rewrite lookup_insert_ne, lookup_fmap by done. intros (im0 & H0 & ->)%fmap_Some. exact (rp_ref Hr q im0 H0).
  - intros q. rewrite lookup_insert_is_Some', lookup_fmap, fmap_is_Some. intros [[<-|H]|H]; apply (rp_next Hr); [left; by eexists|by left|by right].
Qed.

Lemma staged_start bound G N N1 D s a p im i k saves m :
  rep [p] G N D s a → awf bound a → is_imgs s !! p = Some im → sm_models m N1 → (∀ n, N1 !! n = if decide (n ∈ si_names i) then None else N !! n) →
  staged N s a p im i k saves [] (set_byname m s).
Proof.
  intros Hr Hw Hp Hm HN1. exists m, N1, (is_disk s). split_and!; [|done| | |done|done].
  - replace (<[p := im]> (lose_img [] <$> is_imgs s)) with (is_imgs s); [by destruct s|]. apply map_eq. intros q. destruct (decide (p = q)) as [<-|Hne]; [by rewrite lookup_insert_eq|].
    rewrite lookup_insert_ne, lookup_fmap by done. destruct (is_imgs s !! q) as [[[iq|] sp c]|]; [|done..]. cbn. unfold lose_img. cbn. rewrite lose_none; [done|]. intros n _. apply not_elem_of_nil.
  - intros n. rewrite (decide_False (P := n ∈ [])) by apply not_elem_of_nil. apply HN1.
  - intros _ Hs k' i' _ Ha. rewrite lose_none; [by apply (Hs k')|]. intros n _. apply not_elem_of_nil.
Qed.

(** The result of naming an image: it has the names, or the names of another
    image could not be saved. *)
Lemma do_set_names_ok bound G N D s a p i k w saves names :
  rep [p] G N D s a → awf bound a → mem_all w → G !! k = Some p → a_imgs a !! k = Some i → Z.of_nat (length names) ≤ max_items →
  let u := the_names signed names in
  wp (do_set_names signed generate_json dir w saves names p) (λ r s', is_lock s' = is_lock s ∧
    ((∃ N', rep [p] G N' D s' (name_image k u a)) ∧ (r = 0 ∨ r = -1 ∧ ¬ ideal w a) ∧
       (r = 0 → saves = true ∨ own_names a k u → saved a (is_disk s) → saved (name_image k u a) (is_disk s')) ∧ (r = 0 → tidy a (is_disk s) → tidy (name_image k u a) (is_disk s')) ∨
     r = -1 ∧ saves = true ∧ ¬ ideal w a ∧ (∃ n k', n ∈ u ∧ owner (a_imgs a) n = Some k' ∧ k' ≠ k) ∧ is_ready s' = true ∧ ∃ im, is_imgs s' !! p = Some im ∧ 1 < im_refcnt im < two64)) s.
Proof.
  intros Hr Hw Hm Hk Ha Hlen u. destruct (rp_obj Hr k p Hk) as (im & i' & Hp & Hi & Ha'). assert (i' = i) as -> by congruence. clear Ha'. destruct (the_names_spec signed names Hlen) as (Hnd & _ & _). fold u in Hnd.
  assert (Hid : si_id i = k) by (by apply (wf_id bound a Hw)). destruct (wf_names bound a Hw k i Ha) as (Hndi & _ & _).
  unfold do_set_names. apply wp_bind. eapply wp_mono; [apply the_names_ok; [auto with world|done]|]. cbn beta. intros r s' [-> ->]. fold u. apply wp_bind. eapply wp_ld_simage; [done..|].
  apply wp_bind. eapply wp_mono; [apply (remove_names_ok (si_names i) N); [apply (rp_name Hr)|done|intros n Hn; exists p; apply (rp_names Hr); by exists k, i]|]. cbn beta. intros b s1 (-> & m & N1 & -> & Hm1 & HN1). cbn [negb].
  apply wp_bind. eapply wp_mono; [eapply (take_over_ok bound G N D s a p im i k saves Hr Hw Hk Ha (sub 1 w) [] u); [auto with world|done|by eapply staged_start]|]. cbn beta. rewrite app_nil_l. intros [] s2.
  - intros (m2 & N2 & d & -> & Hm2 & HN2 & Hsv & Htd & Hns). cbn [negb]. apply wp_bind. eapply wp_st_simage; [apply lookup_insert_eq|exact Hi|]. cbn [is_imgs set_disk set_byname set_imgs]. rewrite insert_insert_eq.
    pose proof (rep_named bound G N N2 D s a p im i k u m2 Hr Hw Hk Hp Hi Ha Hm2 HN2) as Hend. eapply wp_mono; [eapply save_simage_ok; [apply lookup_insert_eq|done]|]. cbn beta. intros r s3 (Hr01 & (d' & ->) & H0 & Hio).
    split; [done|]. left. split; [exists N2; exact (rep_disk _ _ _ _ _ _ d' Hend)|]. cbn [is_disk set_disk]. split.
    { destruct Hr01 as [->| ->]; [by left|]. right. split; [done|]. intros (H1 & H2 & H3). specialize (Hio ltac:(auto with world)). cbn [si_id with_names] in Hio. rewrite Hid in Hio. specialize (Hio (H2 k ltac:(by eexists)) (H3 _)). lia. }
    split; intros ->; destruct (H0 eq_refl) as (text & Ht & He); apply (f_equal is_disk) in He; cbn [is_disk set_disk set_imgs si_id with_names] in He; rewrite Hid in He; subst d'.
    + intros Hcase Hsa k' i' (j & Hj & He & [[-> Hu]|[Hne ->]])%(named_Some a k u i k' i' Ha).
      * assert (j = i) as -> by congruence. rewrite Hu in He. rewrite He, <- Hid. by apply (saved_put (with_names u i)).
      * apply saved_put_ne; [cbn; by rewrite (wf_id bound a Hw k' j)|]. destruct saves; [by eapply Hsv|]. rewrite Hns by done. destruct Hcase as [|Hown]; [done|]. rewrite (named_own bound a k u k' j) by done. by apply (Hsa k').
    + intros Ht0. assert (Hd : ∀ x, tidy a x → tidy (name_image k u a) x).
      { intros x Hx y Hy. destruct (Hx y Hy) as (k' & -> & j & Hj). exists k'. split; [done|]. rewrite (named_lookup a k u i k' Ha). case_decide; [by eexists|]. rewrite Hj. by eexists. }
      apply Hd, tidy_put; [by eexists|by apply Htd].
  - intros (Hp2 & Hl & Hrd & Hs & Hn & Hni). cbn [negb]. apply wp_ret. split; [done|]. right. split_and!; [done..|by intros ?%(ideal_sub 1)|done|by rewrite Hrd, (rp_ready Hr)|]. exists im. split; [done|].
    pose proof (rp_ref Hr p im Hp) as Href. rewrite decide_True in Href by (apply (rp_list Hr); by exists k). rewrite occ_cons, one_if_refl in Href. change (occ p []) with 0 in Href. unfold two64. lia.
Qed.
End naming.
