(* ===== verification/ImageData.v ===== *)
(** * The data of an image

    [image_store_set_big_data]: the file, the record of its size and digest, and
    the move of the image to the list of its new manifest. *)
From stdpp Require Import base gmap list fin_maps numbers strings.
From Stdlib Require Import ZArith Lia Ascii.
From S2P Require Import Prelude CString Regex Array RbTree Map StrMap Convert StringUtil Verify Path SymlinkScope IdNameManager ImageName ImageStore ImageSpec ContainersStore ImageCorrect ImageChange ImageUpdate.

Local Open Scope Z_scope.

(** ** JSON maps *)
Section json_maps.

Lemma assoc_app {V} (m : list (cstr * V)) key v key' : assoc m key = None → assoc (m ++ [(key, v)]) key' = if decide (key' = key) then Some v else assoc m key'.
Proof.
  induction m as [|[x y] m IH]; cbn [assoc app]; [done|]. destruct (decide (key = x)) as [->|Hx]; [done|]. intros Hn. rewrite IH by done. destruct (decide (key' = x)) as [->|]; [|done]. by rewrite decide_False.
Qed.

Lemma update_cons x y m key v : update_json_map_string_string ((x, y) :: m) key v = (x, if decide (key = x) then v else y) :: update_json_map_string_string m key v.
Proof. unfold update_json_map_string_string. cbn. by destruct (decide _). Qed.

Lemma assoc_update_string m key v key' :
  assoc (update_json_map_string_string m key v) key' = if decide (key' = key) then (λ _, v) <$> assoc m key else assoc m key'.
Proof.
  induction m as [|[x y] m IH]; [by destruct (decide _)|]. rewrite update_cons. cbn [assoc]. rewrite IH. destruct (decide (key = x)) as [->|Hx].
  - by destruct (decide (key' = x)).
  - destruct (decide (key' = key)) as [->|]; [by rewrite decide_False|done].
Qed.

Lemma assoc_None {V} (m : list (cstr * V)) key : assoc m key = None ↔ key ∉ m.*1.
Proof. induction m as [|[x y] m IH]; cbn [assoc fmap list_fmap fst]; [split; [intros _; apply not_elem_of_nil|done]|]. rewrite not_elem_of_cons, <- IH. destruct (decide (key = x)); naive_solver. Qed.

Lemma update_keys m key v : (update_json_map_string_string m key v).*1 = m.*1.
Proof. unfold update_json_map_string_string. rewrite <- list_fmap_compose. apply list_fmap_ext. intros _ [x y] _. cbn. by destruct (decide _). Qed.

Lemma update_absent m key v : key ∉ m.*1 → update_json_map_string_string m key v = m.
Proof. induction m as [|[x y] m IH]; [done|]. cbn [fmap list_fmap fst]. rewrite not_elem_of_cons. intros [Hx Hm]. by rewrite update_cons, decide_False, IH. Qed.

Lemma update_same_string m key v : NoDup m.*1 → assoc m key = Some v → update_json_map_string_string m key v = m.
Proof.
  intros Hnd. induction m as [|[x y] m IH]; [done|]. cbn in Hnd. apply NoDup_cons in Hnd as [Hx Hnd]. rewrite update_cons. cbn [assoc].
  destruct (decide (key = x)) as [->|Hne]; [intros [= ->]; by rewrite update_absent|intros H; by rewrite IH].
Qed.

Lemma update_same_int m key v : assoc m key = Some v → update_json_map_string_int64 m key v = m.
Proof. induction m as [|[x y] m IH]; [done|]. cbn. destruct (decide (key = x)) as [->|]; [by intros [= ->]|]. intros H. by rewrite IH. Qed.

Lemma set_digest_lookup m key d key' :
  get_value_from_json_map_string_string (set_data_digest m key d) key' = if decide (key' = key) then Some d else get_value_from_json_map_string_string m key'.
Proof.
  unfold get_value_from_json_map_string_string, set_data_digest. cbn. assert (Hm : m ≫= (λ m, assoc m key') = assoc (default [] m) key') by (by destruct m). rewrite Hm.
  destruct (assoc (default [] m) key) as [v|] eqn:E; [rewrite assoc_update_string, E; by case_decide|by apply assoc_app].
Qed.

Lemma set_digest_keys m key d : NoDup (default [] m).*1 → NoDup (default [] (set_data_digest m key d)).*1.
Proof.
  intros Hnd. unfold set_data_digest. cbn. destruct (assoc (default [] m) key) as [v|] eqn:E; [by rewrite update_keys|]. rewrite fmap_app. apply NoDup_app. split; [done|]. split; [|apply NoDup_singleton].
  intros x Hx. cbn. rewrite list_elem_of_singleton. intros ->. by apply assoc_None in E.
Qed.
End json_maps.

(** ** The abstract store *)
Section abstract.
Context (sha256_digest_str : string → cstr) (bound : nat).
Implicit Types (a : astore).

Lemma manifest_data key data i :
  manifest_of (data_image sha256_digest_str key data i) = if decide (key = IMAGE_DIGEST_BIG_DATA_KEY) then Some (data_digest sha256_digest_str data) else manifest_of i.
Proof. unfold manifest_of, data_image, with_data. cbn [si_data_digests]. rewrite set_digest_lookup. by rewrite (decide_ext (IMAGE_DIGEST_BIG_DATA_KEY = key) (key = IMAGE_DIGEST_BIG_DATA_KEY)). Qed.

(** The lists once the image has left that of its old manifest. *)
Definition left_old (k : cstr) (i : storage_image) (d : cstr) (ad : gmap cstr (list cstr)) : gmap cstr (list cstr) :=
  if decide (manifest_of i = Some d ∨ manifest_of i = si_digest i) then ad else dig_remove k (manifest_of i) ad.

Lemma left_old_Some a k i d d' ks :
  awf bound a → a_imgs a !! k = Some i → left_old k i d (a_digs a) !! d' = Some ks →
  ks ≠ [] ∧ NoDup ks ∧ (k ∈ ks → si_digest i = Some d' ∨ d' = d) ∧ ∀ x, x ∈ ks → ∃ j, a_imgs a !! x = Some j ∧ d' ∈ digests_of j.
Proof.
  intros Hw Hi. unfold left_old. destruct (decide _) as [Hc|Hc].
  - intros Hd. destruct (wf_digs bound a Hw d' ks Hd) as (Hne & Hnd & Hin). split_and!; [done..| |done]. intros (j & Hj & Hdj)%Hin. assert (j = i) as -> by congruence. apply digests_of_elem in Hdj as [Hs|Hm]; [by left|].
    destruct Hc as [Hc|Hc]; [right|left]; congruence.
  - intros (ks0 & Hd & -> & Hne)%dig_remove_Some. destruct (wf_digs bound a Hw d' ks0 Hd) as (Hne0 & Hnd & Hin). split; [by apply Hne|]. case_decide as Hm.
    + split_and!; [by apply NoDup_filter|intros [? _]%list_elem_of_filter; done|]. intros x [_ Hx]%list_elem_of_filter. by apply Hin.
    + split_and!; [done| |done]. intros (j & Hj & Hdj)%Hin. assert (j = i) as -> by congruence. apply digests_of_elem in Hdj as [Hs|Hs]; [by left|done].
Qed.

Lemma move_Some k i d ad d' ks :
  move_digest k i d ad !! d' = Some ks → (d' = d ∧ ∃ ks0, left_old k i d ad !! d = Some ks0 ∧ ks = filter (λ x, x ≠ k) ks0 ++ [k]) ∨ d' ≠ d ∧ left_old k i d ad !! d' = Some ks.
Proof.
  unfold move_digest. fold (left_old k i d ad). cbn zeta. destruct (left_old k i d ad !! d) as [ks0|] eqn:E.
  - intros [[<- <-]|[Hne H]]%lookup_insert_Some; [left; split; [done|]; by exists ks0|by right].
  - intros H. right. split; [|done]. intros ->. congruence.
Qed.

Lemma awf_data a k i key data : awf bound a → a_imgs a !! k = Some i → awf bound (data_added sha256_digest_str k key data a).
Proof.
  intros Hw Hi. unfold data_added. rewrite Hi. set (i' := data_image sha256_digest_str key data i). set (dd := data_digest sha256_digest_str data).
  assert (Hcase : ∀ k' j, <[k := i']> (a_imgs a) !! k' = Some j → ∃ j0, a_imgs a !! k' = Some j0 ∧ si_id j = si_id j0 ∧ si_names j = si_names j0 ∧ si_digest j = si_digest j0 ∧ NoDup (default [] (si_data_digests j)).*1).
  { intros k' j [[<- <-]|[_ H]]%lookup_insert_Some; [exists i; split_and!; [done..|]; apply set_digest_keys, (wf_digest bound a Hw k i Hi)|]. exists j. split_and!; [done..|]. by apply (wf_digest bound a Hw k'). }
  assert (Hdig : ∀ d x, (∃ j, a_imgs a !! x = Some j ∧ d ∈ digests_of j) → (x = k → si_digest i = Some d ∨ manifest_of i' = Some d) → ∃ j, <[k := i']> (a_imgs a) !! x = Some j ∧ d ∈ digests_of j).
  { intros d x (j & Hj & Hd) Hx. destruct (decide (x = k)) as [->|Hne]; [exists i'; rewrite lookup_insert_eq; split; [done|]; by apply digests_of_elem, Hx|]. exists j. by rewrite lookup_insert_ne. }
  pose proof (manifest_data key data i) as Hman. fold i' dd in Hman. split; cbn [a_imgs a_digs].
  - destruct (wf_size bound a Hw). rewrite map_size_insert, Hi. done.
  - intros k' j (j0 & H0 & -> & _)%Hcase. by apply (wf_id bound a Hw).
  - intros k' j (j0 & H0 & _ & -> & _)%Hcase. by apply (wf_names bound a Hw k').
  - intros k1 k2 j1 j2 n (x1 & H1 & _ & -> & _)%Hcase (x2 & H2 & _ & -> & _)%Hcase. by apply (wf_owner bound a Hw).
  - intros k' j (j0 & H0 & _ & _ & -> & Hnd)%Hcase. split; [by apply (wf_digest bound a Hw k' j0)|done].
  - intros d ks. destruct (decide (key = IMAGE_DIGEST_BIG_DATA_KEY)) as [Hk|Hk].
    + intros [(-> & ks0 & H0 & ->)|(Hne & H0)]%move_Some; destruct (left_old_Some a k i dd _ _ Hw Hi H0) as (Hne0 & Hnd & Hkk & Hin).
      * split; [by destruct (filter _ ks0)|]. split; [apply NoDup_app; split; [by apply NoDup_filter|]; split; [|apply NoDup_singleton]; intros x [Hx _]%list_elem_of_filter; by rewrite list_elem_of_singleton|].
        intros x. rewrite elem_of_app, list_elem_of_filter, list_elem_of_singleton. intros [[Hx Hx0]| ->]; [apply Hdig; [by apply Hin|done]|]. exists i'. rewrite lookup_insert_eq. split; [done|]. apply digests_of_elem. by right.
      * split_and!; [done..|]. intros x Hx. apply Hdig; [by apply Hin|]. intros ->. destruct (Hkk Hx) as [|]; [by left|done].
    + intros H. destruct (wf_digs bound a Hw d ks H) as (Hne & Hnd & Hin). split_and!; [done..|]. intros x Hx. apply Hdig; [by apply Hin|]. intros ->. destruct (Hin k Hx) as (j & Hj & Hd%digests_of_elem). assert (j = i) as -> by congruence. by rewrite Hman.
Qed.
End abstract.

(** ** Moving between lists *)
Section data.
Context {MT : Type} {SM : StrMap ptr MT} (generate_json : storage_image → option string) (parse_spec : string → option oci_image_spec) (dir : string).
Context (sha256_digest_str : string → cstr) (base64 : string → option string).
Context (append_json_map_string_int64 : list (cstr * Z) → cstr → Z → list (cstr * Z)).
Context (append_json_map_string_string : list (cstr * cstr) → cstr → cstr → list (cstr * cstr)).
Implicit Types (s : image_state MT) (a : astore) (G N D : gmap cstr ptr).

(** The generated code appends at the end, and a SHA-256 digest is short. *)
Context (Happ_int : ∀ m k v, append_json_map_string_int64 m k v = m ++ [(k, v)]).
Context (Happ_string : ∀ m k v, append_json_map_string_string m k v = m ++ [(k, v)]).
Context (Hsha : ∀ data, (String.length (cstr_s (sha256_digest_str data)) ≤ 64)%nat).

Lemma rep_digests held G N D D' s a m dg (ad : gmap cstr (list cstr)) :
  rep held G N D s a → sm_models m D' → drep G D' dg ad → (∀ q, is_Some (dg !! q) → is_Some (is_digs s !! q)) → rep held G N D' (set_digs dg (set_bydigest m s)) (mk_astore (a_imgs a) ad).
Proof. intros Hr Hm [Hd Hi] Hdg. split; cbn; try apply Hr; try done. intros q [Hq|Hq]; apply (rp_next Hr); [by left|right; by apply Hdg]. Qed.

(** From the list of the old digest to the list of the new one. *)
Lemma move_ok G D (ad : gmap cstr (list cstr)) s w p im i i0 d :
  sm_models (is_bydigest s) D → drep G D (is_digs s) ad → has_images G s → G !! si_id i = Some p → is_imgs s !! p = Some im → im_simage im = Some i → mem_all w →
  si_id i0 = si_id i → si_digest i0 = si_digest i → is_Some (si_digest i) → (∀ d ks, ad !! d = Some ks → Z.of_nat (length ks) < two64) →
  wp (update_manifest_digest w p (manifest_of i0) d) (λ r s', r = 0 ∧ ∃ m D' dg, s' = set_digs dg (set_bydigest m s) ∧ sm_models m D' ∧ drep G D' dg (move_digest (si_id i) i0 d ad) ∧
    ∀ q, is_Some (dg !! q) → is_Some (is_digs s !! q)) s.
Proof.
  intros Hm Hd HG Hk Hp Hi Hw Hid Hdi [sd Hsd] Hshort. unfold update_manifest_digest. apply wp_bind. eapply wp_ld_simage; [done..|].
  apply wp_bind. eapply (wp_mono _ (λ r s', r = 0 ∧ ∃ m D' dg, s' = set_digs dg (set_bydigest m s) ∧ sm_models m D' ∧ drep G D' dg (left_old (si_id i) i0 d ad) ∧ ∀ q, is_Some (dg !! q) → is_Some (is_digs s !! q))).
  { assert (Hsame : ∃ m D' dg, s = set_digs dg (set_bydigest m s) ∧ sm_models m D' ∧ drep G D' dg ad ∧ ∀ q, is_Some (dg !! q) → is_Some (is_digs s !! q)).
    { exists (is_bydigest s), D, (is_digs s). split; [by destruct s|done]. }
    unfold left_old. rewrite Hdi, Hsd. destruct (manifest_of i0) as [old|]; [|apply wp_ret; split; [done|]; by case_decide]. destruct (decide (old = d)) as [->|Hod]; [apply wp_ret; by rewrite decide_True by (by left)|].
    destruct (decide (old = sd)) as [->|Hos]; [apply wp_ret; by rewrite decide_True by (by right)|]. rewrite decide_False by naive_solver. by eapply digest_remove_ok. }
  cbn beta. intros r s1 (-> & m1 & D1 & dg1 & -> & Hm1 & Hd1 & Hs1). rewrite decide_False by lia. apply wp_bind. eapply wp_bydigest_search; [exact Hm1|].
  unfold move_digest. fold (left_old (si_id i) i0 d ad). cbn zeta. set (ad1 := left_old (si_id i) i0 d ad) in *. clearbody ad1. pose proof (proj1 Hd1 d) as Hdd. destruct (D1 !! d) as [q|] eqn:Eq.
  - destruct (ad1 !! d) as [ks|] eqn:Eks; [|done]. destruct Hdd as (l0 & Hl0 & _). apply wp_bind. eapply wp_mono; [by eapply (slice_ok G D1 ad1 (set_digs dg1 (set_bydigest m1 s)) p im i d q ks)|].
    cbn beta. intros [] s2 (l & -> & Hl). pose proof (drep_update G D1 dg1 ad1 d q l _ Hd1 Eq Hl) as Hd2. apply wp_bind.
    eapply wp_mono; [eapply (to_list_ok G D1 _ _ _ p (si_id i) d q); [exact Hd2|done|apply lookup_insert_eq|done|done]|]. cbn beta. intros r s3 (-> & l' & -> & Hl'). rewrite decide_False by lia. apply wp_ret. split; [done|].
    pose proof (drep_update G D1 _ _ d q l' _ Hd2 Eq Hl') as Hd3. rewrite (insert_insert_eq ad1) in Hd3. eexists m1, D1, _. split; [done|]. split; [done|]. split; [exact Hd3|]. cbn.
    intros q'. rewrite !lookup_insert_is_Some'. intros [<-|[<-|H]]; apply Hs1; [by eexists..|done].
  - destruct (ad1 !! d) as [ks|] eqn:Eks; [done|]. apply wp_ret. split; [done|]. by exists m1, D1, dg1.
Qed.

(** Another record at [p] with the same names. *)
Lemma rep_record bound G N D s a p im i i' k :
  rep [p] G N D s a → awf bound a → G !! k = Some p → is_imgs s !! p = Some im → a_imgs a !! k = Some i → si_names i' = si_names i →
  ∀ sp, rep [p] G N D (set_imgs (<[p := mk_image (Some i') sp (im_refcnt im)]> (is_imgs s)) s) (mk_astore (<[k := i']> (a_imgs a)) (a_digs a)).
Proof.
  intros Hr Hw Hk Hp Ha Hn sp. assert (Hinj : ∀ k1 k2, G !! k1 = Some p → G !! k2 = Some p → k1 = k2) by (intros k1 k2 H1 H2; by eapply (rp_inj bound)).
  eapply (rep_imgs [p] [p] G N D s a _ p im); try done; [apply (rp_ref Hr p im Hp)|cbn; lia|right; by left| |intros Hno; by destruct (Hno k)].
  intros k' Hk'. assert (k' = k) as -> by (by apply Hinj). exists i, i'. split_and!; try done. by rewrite Hn.
Qed.

Lemma full_digest_ok data : util_full_digest (Some (cstr_s (sha256_digest_str data))) = Some (SHA256_PREFIX +:+ cstr_s (sha256_digest_str data)).
Proof. unfold util_full_digest. rewrite decide_False; [done|]. change (String.length (SHA256_PREFIX +:+ ?x)) with (7 + String.length x)%nat. specialize (Hsha data). unfold PATH_MAX. lia. Qed.

Lemma update_data_ok bound G N D s a w p i k key data :
  rep [p] G N D s a → awf bound a → mem_all w → G !! k = Some p → a_imgs a !! k = Some i →
  wp (update_image_with_big_data sha256_digest_str append_json_map_string_int64 append_json_map_string_string w p key data) (λ r s', r.1 = 0 ∧ calm s s' ∧
    (∃ D', rep [p] G N D' s' (data_added sha256_digest_str k key data a)) ∧ (r.2 = false → data_image sha256_digest_str key data i = i)) s.
Proof.
  intros Hr Hw Hm Hk Ha. destruct (rp_obj Hr k p Hk) as (im & i0 & Hp & Hi & Ha0). assert (i0 = i) as -> by congruence. clear Ha0. assert (Hid : si_id i = k) by (by apply (wf_id bound a Hw)).
  set (i' := data_image sha256_digest_str key data i). set (dd := data_digest sha256_digest_str data).
  pose proof (rep_record bound G N D s a p im i i' k Hr Hw Hk Hp Ha eq_refl (im_spec im)) as Hr1. destruct (wf_digest bound a Hw k i Ha) as [Hsd Hkeys].
  unfold update_image_with_big_data. apply wp_bind. eapply wp_ld_simage; [done..|]. rewrite !alloc_ok by auto with world. cbn [negb]. rewrite !andb_false_r. rewrite full_digest_ok. fold dd.
  change (cstr_of (SHA256_PREFIX +:+ cstr_s (sha256_digest_str data))) with dd. apply wp_bind. eapply wp_st_simage; [done..|]. apply wp_bind. eapply wp_st_simage; [apply lookup_insert_eq|done|].
  cbn [is_imgs set_imgs]. rewrite insert_insert_eq. cbn [im_spec im_refcnt]. rewrite Happ_int, Happ_string.
  set (save := _ || _ || negb (bool_decide (key ∈ si_data_names i))). assert (Hsave : save = false → i' = i).
  { unfold save. rewrite !orb_false_iff, !negb_false_iff, !bool_decide_eq_true. intros [[Hs Hg] Hn]. unfold i', data_image, set_size, set_data_digest. fold dd. rewrite Hs, Hg, decide_True by done.
    rewrite update_same_int, update_same_string by done. destruct i as [? ? ? ? ? ? ? ? ? [] []]; cbn in *; by (done || discriminate). }
  clearbody save. apply wp_bind. eapply (wp_mono _ (λ r s', r = 0 ∧ s' = set_imgs (<[p := mk_image (Some i') (im_spec im) (im_refcnt im)]> (is_imgs s)) s)).
  { unfold i', data_image. destruct (decide (key ∈ si_data_names i)) as [Hn|Hn]; [by apply wp_ret|]. unfold append_big_data_name. rewrite alloc_ok by auto with world. cbn [negb].
    apply wp_bind. eapply wp_st_simage; [apply lookup_insert_eq|done|]. apply wp_ret. split; [done|]. cbn [is_imgs set_imgs]. by rewrite insert_insert_eq. }
  intros r s1 [-> ->]. rewrite decide_False by lia. set (s1 := set_imgs _ s) in *. unfold data_added. rewrite Ha. fold i' dd. destruct (decide (key = IMAGE_DIGEST_BIG_DATA_KEY)) as [->|Hkey].
  - apply wp_bind. assert (Hold : assoc (default [] (si_data_digests i)) IMAGE_DIGEST_BIG_DATA_KEY = manifest_of i) by (unfold manifest_of, get_value_from_json_map_string_string; by destruct (si_data_digests i)). rewrite Hold.
    assert (HG : has_images G s1).
    { intros k' q Hk'. destruct (rp_obj Hr1 k' q Hk') as (imq & iq & Hq & Hiq & Haq). exists imq, iq. split_and!; [done..|]. cbn [a_imgs] in Haq. apply lookup_insert_Some in Haq as [[<- <-]|[_ Haq]]; [done|by apply (wf_id bound a Hw)]. }
    eapply wp_mono; [eapply (move_ok G D (a_digs a) s1 (sub 3 w) p _ i' i dd); [apply (rp_dig Hr1)|exact (rep_drep _ _ _ _ _ _ Hr1)|done|by rewrite (Hid : si_id i' = k)|apply lookup_insert_eq|done|auto with world|done..|intros d ks Hd; by eapply wf_list_length]|].
    cbn beta. intros r s2 (-> & m & D' & dg & -> & Hm2 & Hd2 & Hdg). apply wp_ret. split_and!; try done. exists D'. pose proof (rep_digests _ _ _ _ _ _ _ _ _ _ Hr1 Hm2 Hd2 Hdg) as Hend. cbn [a_imgs] in Hend. by rewrite (Hid : si_id i' = k) in Hend.
  - apply wp_ret. split_and!; try done. by exists D.
Qed.

(** ** Storing data *)
Lemma fits_dir k : fits dir k → is_Some (get_data_dir dir k).
Proof.
  unfold fits, get_image_path, get_data_dir. cbn zeta. rewrite string_length_app. destruct (decide _) as [|H1]; [by intros [? [=]]|]. intros _. destruct (decide _) as [H2|]; [|by eexists]. lia.
Qed.

(** The file of data, when allocations succeed. *)
Definition data_file (k key : cstr) : option string := get_data_path base64 dir (mk_world (λ _, true) (λ _, true) (λ x, x)) k key.

(** What [image_store_big_data] reads. *)
Definition data_in (disk : gmap string (gmap string string)) (k key : cstr) (data : string) : Prop :=
  ∃ name files, data_file k key = Some name ∧ disk !! cstr_s k = Some files ∧ files !! name = Some data.

Lemma data_put k key name data disk : data_file k key = Some name → data ≠ EmptyString → data_in (put_file k name data disk) k key data.
Proof.
  intros Hn Hd. exists name. eexists. split; [done|]. split; [apply lookup_insert_eq|]. unfold put_text. rewrite (proj2 (String.eqb_neq _ _) Hd). apply lookup_insert_eq.
Qed.

Lemma data_put_json k key data text disk : data_file k key ≠ Some IMAGE_JSON → data_in disk k key data → data_in (put_file k IMAGE_JSON text disk) k key data.
Proof.
  intros Hn (name & files & Hf & Hk & Hd). exists name. eexists. split; [done|]. split; [apply lookup_insert_eq|]. rewrite Hk. unfold put_text. cbn [default]. destruct (String.eqb text ""); [done|].
  rewrite lookup_insert_ne; [done|]. congruence.
Qed.

Lemma data_file_ok w k key : mem_all w → get_data_path base64 dir w k key = data_file k key.
Proof. intros Hm. unfold data_file, get_data_path, base_name. by rewrite alloc_ok. Qed.

Lemma saved_data i name text disk : name ≠ IMAGE_JSON → saved_as generate_json i disk → saved_as generate_json i (put_file (si_id i) name text disk).
Proof.
  intros Hne (files & t & Hf & Hg & Ht). exists (put_text name text files), t. unfold put_file. rewrite Hf, lookup_insert_eq. split_and!; [done..|]. unfold put_text. destruct (String.eqb text ""); [done|]. by rewrite lookup_insert_ne.
Qed.

(** The specification of the image is read, and the image is saved. *)
Lemma finish_data bound G N D s a w p i k (save : bool) :
  rep [p] G N D s a → awf bound a → G !! k = Some p → a_imgs a !! k = Some i →
  wp (im ← ld_img p; match im_spec im with None => try_fill_image_spec parse_spec base64 dir (sub 4 w) p k | Some _ => mret 0 end;; if save then save_simage generate_json dir (sub 5 w) p else mret 0)
    (λ r s', is_lock s' = is_lock s ∧ rep [p] G N D s' a ∧ (r = 0 ∨ r = -1 ∧ ¬ ideal generate_json dir w a) ∧
      (r = 0 → if save then ∃ text, generate_json i = Some text ∧ is_disk s' = put_file k IMAGE_JSON text (is_disk s) else is_disk s' = is_disk s)) s.
Proof.
  intros Hr Hw Hk Ha. destruct (rp_obj Hr k p Hk) as (im & i0 & Hp & Hi & Ha0). assert (i0 = i) as -> by congruence. clear Ha0. assert (Hid : si_id i = k) by (by apply (wf_id bound a Hw)).
  apply wp_bind. eapply wp_ld_img; [done|]. apply wp_bind. eapply (wp_mono _ (λ _ s', ∃ sp, s' = set_imgs (<[p := mk_image (im_simage im) sp (im_refcnt im)]> (is_imgs s)) s)).
  { destruct (im_spec im) as [sp|] eqn:Esp; [|eapply wp_mono; [by apply try_fill_ok|]; intros r s1 (sp & -> & _); by exists sp]. apply wp_ret. exists (Some sp). rewrite insert_id; [by destruct s|]. rewrite Hp, <- Esp. by destruct im. }
  intros _ s1 (sp & ->). rewrite Hi. pose proof (rep_record bound G N D s a p im i i k Hr Hw Hk Hp Ha eq_refl sp) as Hr1. rewrite (insert_id (a_imgs a)) in Hr1 by done. replace (mk_astore (a_imgs a) (a_digs a)) with a in Hr1 by (by destruct a).
  destruct save; [|apply wp_ret; split_and!; [done..|by left|done]]. eapply wp_mono; [eapply save_simage_ok; [apply lookup_insert_eq|done]|]. cbn beta. intros r s2 (Hr01 & (d & ->) & H0 & Hio). rewrite Hid in Hio, H0.
  split_and!; [done|by apply rep_disk| |].
  - destruct Hr01 as [->| ->]; [by left|]. right. split; [done|]. intros (H1 & H2 & H3). specialize (Hio ltac:(auto with world) (H2 k ltac:(by eexists)) (H3 _)). lia.
  - intros ->. destruct (H0 eq_refl) as (text & Ht & He). exists text. split; [done|]. by apply (f_equal is_disk) in He.
Qed.

Lemma do_set_data_ok bound G N D s a w p i k key data :
  rep [p] G N D s a → awf bound a → mem_all w → G !! k = Some p → a_imgs a !! k = Some i →
  let a' := data_added sha256_digest_str k key data a in
  wp (do_set_big_data generate_json parse_spec sha256_digest_str base64 append_json_map_string_int64 append_json_map_string_string dir w key data p) (λ r s', is_lock s' = is_lock s ∧
    (r = -1 ∧ rep [p] G N D s' a ∧ ¬ (ideal generate_json dir w a ∧ is_Some (data_file k key)) ∨
     (∃ D', rep [p] G N D' s' a') ∧ (r = 0 ∨ r = -1 ∧ ¬ ideal generate_json dir w a) ∧
       (r = 0 → data_file k key ≠ Some IMAGE_JSON → saved generate_json a (is_disk s) → saved generate_json a' (is_disk s')) ∧ (r = 0 → tidy a (is_disk s) → tidy a' (is_disk s')) ∧
       (r = 0 → data ≠ EmptyString → data_file k key ≠ Some IMAGE_JSON → data_in (is_disk s') k key data))) s.
Proof.
  intros Hr Hw Hm Hk Ha a'. destruct (rp_obj Hr k p Hk) as (im & i0 & Hp & Hi & Ha0). assert (i0 = i) as -> by congruence. clear Ha0. assert (Hid : si_id i = k) by (by apply (wf_id bound a Hw)).
  unfold do_set_big_data. apply wp_bind. eapply wp_ld_simage; [done..|]. rewrite Hid. destruct (get_data_dir dir k) as [dd|] eqn:Edir.
  2:{ apply wp_ret. split; [done|]. left. split_and!; [done..|]. intros [(_ & Hf & _) _]. destruct (fits_dir k) as [? ?]; [apply Hf; by eexists|congruence]. }
  apply wp_bind. eapply wp_mono; [apply make_dir_ok|]. cbn beta. intros ok s1 [[-> ->]|(-> & -> & Hio)]; cbn [negb].
  2:{ apply wp_ret. split; [done|]. left. split_and!; [done..|]. intros [(Hall & _) _]. apply Hio. auto with world. }
  rewrite data_file_ok by auto with world. destruct (data_file k key) as [name|] eqn:Ename.
  2:{ apply wp_ret. split; [done|]. left. split_and!; [done|by apply rep_disk|]. by intros [_ [? [=]]]. }
  apply wp_bind. eapply wp_mono; [apply write_file_ok|]. cbn beta. intros ok s2 [[-> ->]|(-> & -> & Hio)]; cbn [negb].
  2:{ apply wp_ret. split; [done|]. left. split_and!; [done|by apply rep_disk|]. intros [(Hall & _) _]. apply Hio. auto with world. }
  set (s2 := set_disk _ _). assert (Hr2 : rep [p] G N D s2 a) by (by apply rep_disk). assert (Hl2 : is_lock s2 = is_lock s) by done. assert (Hd2 : is_disk s2 = put_file k name data (is_disk s)) by done. clearbody s2.
  apply wp_bind. eapply wp_mono; [by eapply update_data_ok; auto with world|]. cbn beta. intros [r save] s3 (Hr0 & [Hl3 Hd3] & (D' & Hr3) & Hsave). cbn [fst snd] in *. subst r. rewrite decide_False by lia. fold a' in Hr3.
  set (i' := data_image sha256_digest_str key data i) in *. assert (Ha' : a_imgs a' = <[k := i']> (a_imgs a)) by (unfold a', data_added; by rewrite Ha).
  assert (Hw' : awf bound a') by (by apply awf_data with i). eapply wp_mono; [eapply (finish_data bound G N D' s3 a' w p i' k save Hr3 Hw' Hk); by rewrite Ha', lookup_insert_eq|]. cbn beta. intros r s4 (Hl4 & Hr4 & Hr01 & H0).
  assert (Hdom : ∀ x, is_Some (a_imgs a' !! x) ↔ is_Some (a_imgs a !! x)) by (intros x; rewrite Ha', lookup_insert_is_Some'; split; [intros [<-|]; [by eexists|done]|by right]).
  split; [congruence|]. right. split; [by exists D'|]. split; [destruct Hr01 as [->|[-> Hni]]; [by left|right; split; [done|]]; intros (H1 & H2 & H3); apply Hni; split_and!; [done| |done]; intros x Hx; by apply H2, Hdom|].
  assert (Hd4 : r = 0 → is_disk s4 = put_file k name data (is_disk s) ∨ ∃ text, generate_json i' = Some text ∧ is_disk s4 = put_file k IMAGE_JSON text (put_file k name data (is_disk s))).
  { intros Hr0. specialize (H0 Hr0). rewrite Hd3, Hd2 in H0. destruct save; [by right|by left]. }
  split_and!; intros Hr0.
  - intros Hname Hs k' j. rewrite Ha'. intros Hj. specialize (H0 Hr0). rewrite Hd3, Hd2 in H0. apply lookup_insert_Some in Hj as [[<- <-]|[Hne Hj]].
    + destruct save; [destruct H0 as (text & Ht & ->); rewrite <- Hid; by apply (saved_put generate_json i')|]. rewrite H0, (Hsave eq_refl), <- Hid. apply saved_data; [congruence|]. by apply (Hs k).
    + assert (Hjd : saved_as generate_json j (put_file k name data (is_disk s))) by (apply saved_put_ne; [by rewrite (wf_id bound a Hw k' j)|by apply (Hs k')]).
      destruct save; [destruct H0 as (text & Ht & ->); apply saved_put_ne; [by rewrite (wf_id bound a Hw k' j)|done]|by rewrite H0].
  - intros Ht x Hx. assert (Hta : tidy a (is_disk s4)) by (destruct (Hd4 Hr0) as [->|(text & _ & ->)]; repeat apply tidy_put; [by eexists|done|by eexists|by eexists|done]).
    destruct (Hta x Hx) as (k' & -> & Hk'). exists k'. split; [done|]. by apply Hdom.
  - intros Hne Hname. rewrite <- Ename in Hname. pose proof (data_put k key name data (is_disk s) Ename Hne) as Hput. destruct (Hd4 Hr0) as [->|(text & _ & ->)]; [done|by apply data_put_json].
Qed.
End data.
