(* ===== verification/ImageHistory.v ===== *)
(** * Histories of the store of images

    The operations of [ImageStore] one after the other, against the outcomes
    that [ImageSpec] allows: whatever locks and files do, and with what they do
    when nothing fails. *)
From stdpp Require Import base gmap list fin_maps numbers strings.
From Stdlib Require Import ZArith Lia Ascii.
From S2P Require Import Prelude CString Regex Array RbTree Map StrMap Convert StringUtil Verify Path SymlinkScope IdNameManager ImageName ImageStore ImageSpec ContainersStore ImageCorrect ImageChange ImageUpdate ImageData.

Local Open Scope Z_scope.

Section history.
Context {MT : Type} {SM : StrMap ptr MT} (signed : bool).
Context (generate_json : storage_image → option string) (parse_spec : string → option oci_image_spec).
Context (sha256_digest_str : string → cstr) (base64 : string → option string).
Context (append_json_map_string_int64 : list (cstr * Z) → cstr → Z → list (cstr * Z)).
Context (append_json_map_string_string : list (cstr * cstr) → cstr → cstr → list (cstr * cstr)).
Context (default_host : option string) (dir : string).
Implicit Types (s : image_state MT) (a : astore) (w : world).

Definition iexec (w : world) (op : iop) : M (image_state MT) ires :=
  match op with
  | OCreate rand id names layer metadata now time digest =>
    r ← image_store_create signed generate_json parse_spec base64 default_host dir w rand id names layer metadata now time (Some digest); mret (RStr r)
  | ODelete ref => r ← image_store_delete default_host dir w (Some ref); mret (RZ r)
  | OLookup ref => r ← image_store_lookup default_host w (Some ref); mret (RStr r)
  | OExists ref => r ← image_store_exists default_host w (Some ref); mret (RBool r)
  | OAddName ref name => r ← image_store_add_name signed generate_json default_host dir w (Some ref) (Some name); mret (RZ r)
  | OSetNames ref names => r ← image_store_set_names signed generate_json default_host dir w (Some ref) names; mret (RZ r)
  | OGetNames ref => r ← image_store_get_names default_host w (Some ref); mret (RStrs r)
  | OSetMetadata ref metadata => r ← image_store_set_metadata generate_json default_host dir w (Some ref) (Some metadata); mret (RZ r)
  | OMetadata ref => r ← image_store_metadata default_host w (Some ref); mret (RStr r)
  | OSetLoadTime ref time => r ← image_store_set_load_time generate_json default_host dir w (Some ref) (Some (Some time)); mret (RZ r)
  | OSetSize ref size => r ← image_store_set_image_size generate_json default_host dir w (Some ref) size; mret (RZ r)
  | OTopLayer ref => r ← image_store_top_layer default_host w (Some ref); mret (RStr r)
  | OSetData ref key data =>
    r ← image_store_set_big_data generate_json parse_spec sha256_digest_str base64 append_json_map_string_int64 append_json_map_string_string default_host dir w (Some ref) (Some key) (Some data); mret (RZ r)
  | ODataNames ref => r ← image_store_big_data_names default_host w (Some ref); mret (RStrs r)
  | ONumber => r ← image_store_get_images_number w; mret (RZ r)
  end.

(** Names are short strings, and the key of data is not empty. *)
Definition op_ok (op : iop) : Prop :=
  match op with
  | OCreate _ _ names _ _ _ _ _ | OSetNames _ names => Forall (λ n, name_ok (cstr_s n)) names
  | OAddName _ name => name_ok (cstr_s name)
  | OSetData _ key _ => cstr_s key ≠ ""
  | _ => True
  end.

(** What an operation adds to the size of the store. *)
Definition weight (op : iop) : nat :=
  match op with OCreate _ _ names _ _ _ _ _ => S (length names) | OSetNames _ names => length names | OAddName _ _ => 1 | _ => 0 end.

(** Nothing fails. *)
Definition fine (w : world) a (op : iop) : Prop :=
  ideal generate_json dir w a ∧
  match op with
  | OCreate rand id names layer metadata now time digest => ∀ i, created signed a rand id names layer metadata now time digest = Some i → fits dir (si_id i)
  | OSetData ref key _ => ∀ k, find_ref default_host a ref = Some k → is_Some (data_file dir base64 k key)
  | _ => True
  end.

(** What the files have is what the store has. *)
Definition durable a (disk : gmap string (gmap string string)) : Prop := saved generate_json a disk ∧ tidy a disk.

(** [image_store_set_names] does not save the images whose names it takes, and
    data may go by the name of the file of the image. *)
Definition keeps a (op : iop) : Prop :=
  match op with
  | OSetNames ref names => ∀ k, find_ref default_host a ref = Some k → own_names a k (the_names signed names)
  | OSetData ref key _ => ∀ k, find_ref default_host a ref = Some k → data_file dir base64 k key ≠ Some IMAGE_JSON
  | _ => True
  end.

(** The store that a state stands for, between two operations. *)
Definition good s a : Prop := is_lock s = Free ∧ ∃ G N D, rep [] G N D s a.

Definition step_ok (bound : nat) s a w (op : iop) (r : ires) s' : Prop := ∃ a',
  (r, a') ∈ outcomes signed sha256_digest_str default_host a op ∧ awf (bound + weight op) a' ∧
  (fine w a op → head (outcomes signed sha256_digest_str default_host a op) = Some (r, a')) ∧
  (good s' a' ∧ (fine w a op → keeps a op → durable a (is_disk s) → durable a' (is_disk s')) ∨ torn default_host a op r ∧ ¬ fine w a op).

Context (Happ_int : ∀ m k v, append_json_map_string_int64 m k v = m ++ [(k, v)]).
Context (Happ_string : ∀ m k v, append_json_map_string_string m k v = m ++ [(k, v)]).
Context (Hsha : ∀ data, (String.length (cstr_s (sha256_digest_str data)) ≤ 64)%nat).

(** ** Single operations *)
Lemma wp_named {A} (f : M (image_state MT) A) (wrap : A → ires) (Q : ires → image_state MT → Prop) s : wp f (λ r, Q (wrap r)) s → wp (r ← f; mret (wrap r)) Q s.
Proof. intros H. apply wp_bind. eapply wp_mono; [exact H|]. intros r s' HQ. by apply wp_ret. Qed.

(** The state between lock and release. *)
Lemma good_unlock G N D s a : rep [] G N D s a → good (set_lock Free s) a.
Proof. intros Hr. split; [done|]. exists G, N, D. by apply rep_lock. Qed.

(** An operation that reads a field of an image. *)
Lemma reading_ok {A} bound s a w op ref (wrap : A → ires) error (get : storage_image → A) f :
  good s a → awf bound a → mem_all w → weight op = 0%nat → outcomes signed sha256_digest_str default_host a op = reading default_host a ref wrap error get →
  (∀ p im i s, is_imgs s !! p = Some im → im_simage im = Some i → wp (f p) (λ r s', r = get i ∧ s' = s) s) →
  wp (locked (sub 0 w) false error (with_image default_host (sub 1 w) ref error f)) (λ r s', step_ok bound s a w op (wrap r) s') s.
Proof.
  intros [Hl (G & N & D & Hr)] Hw Hm Hwt Ho Hf. unfold step_ok. rewrite Hwt, Nat.add_0_r, Ho. unfold reading. apply wp_locked; [apply (rp_ready Hr)|done| |].
  - intros Hio. exists a. split; [destruct (_ ≫= _); [right|]; by left|]. split; [done|]. split; [intros [(H & _) _]; by destruct Hio; auto with world|]. left. split; [split; [done|by exists G, N, D]|done].
  - cbn. eapply wp_with_image; [by apply rep_lock|done|auto with world| |].
    + intros Hn. rewrite Hn. split; [done|]. exists a. split; [by left|]. split; [done|]. split; [done|]. left. split; [eapply good_unlock, rep_lock, Hr|done].
    + intros k p s1 Hk HG Hr1 [Hl1 Hd1]. destruct (rp_obj Hr1 k p HG) as (im & i & Hp & Hi & Ha). rewrite Hk. cbn [mbind option_bind]. rewrite Ha. eapply wp_mono; [by eapply Hf|]. cbn beta. intros r s2 [-> ->]. left.
      exists G, N, D, a, bound. split; [done|]. split; [done|]. intros s3 Hr3 [Hl3 Hd3]. cbn in *. split; [congruence|]. exists a. split; [by left|]. split; [done|]. split; [done|]. left. split; [by eapply good_unlock|]. intros _ _. by rewrite Hd3, Hd1.
Qed.

(** What the body of an operation that changes an image does, when [a'] is the
    changed store. *)
Definition body_ok s a w (op : iop) a' p (r : Z) s' : Prop := is_lock s' = is_lock s ∧
  ((∃ G N D, rep [p] G N D s' a') ∧ (r = 0 ∨ r = -1 ∧ ¬ fine w a op) ∧ (r = 0 → keeps a op → durable a (is_disk s) → durable a' (is_disk s')) ∨
   r = -1 ∧ ¬ fine w a op ∧ (∃ G N D, rep [p] G N D s' a) ∨
   r = -1 ∧ ¬ fine w a op ∧ torn default_host a op (RZ (-1)) ∧ is_ready s' = true ∧ ∃ im, is_imgs s' !! p = Some im ∧ 1 < im_refcnt im < two64).

Lemma changing_ok bound s a w op ref F body :
  good s a → awf bound a → mem_all w → Z.of_nat (bound + weight op) ≤ max_items → outcomes signed sha256_digest_str default_host a op = saved_change default_host a ref F →
  (∀ k i, find_ref default_host a ref = Some k → a_imgs a !! k = Some i → awf (bound + weight op) (F k a)) →
  (∀ k i p G N D s1, find_ref default_host a ref = Some k → a_imgs a !! k = Some i → G !! k = Some p → rep [p] G N D s1 a → wp (body p) (body_ok s1 a w op (F k a) p) s1) →
  wp (locked (sub 0 w) true (-1) (with_image default_host (sub 1 w) ref (-1) body)) (λ r s', step_ok bound s a w op (RZ r) s') s.
Proof.
  intros [Hl (G & N & D & Hr)] Hw Hm Hb Ho HF Hbody. assert (Hwa : awf (bound + weight op) a) by (eapply awf_more; [done|lia|done]). unfold step_ok. rewrite Ho. unfold saved_change. apply wp_locked; [apply (rp_ready Hr)|done| |].
  - intros Hio. exists a. split; [destruct (find_ref _ _ _); [right|]; by left|]. split; [done|]. split; [intros [(H & _) _]; by destruct Hio; auto with world|]. left. split; [split; [done|by exists G, N, D]|]. by intros [(H & _) _].
  - cbn. eapply wp_with_image; [by apply rep_lock|done|auto with world| |].
    + intros Hn. rewrite Hn. split; [done|]. exists a. split; [by left|]. split; [done|]. split; [done|]. left. split; [eapply good_unlock, rep_lock, Hr|done].
    + intros k p s1 Hk HG Hr1 [Hl1 Hd1]. destruct (rp_obj Hr1 k p HG) as (im & i & Hp & Hi & Ha). rewrite Hk. eapply wp_mono; [by eapply Hbody|]. cbn beta. cbn in Hl1, Hd1.
      intros r s2 (Hl2 & [((G2 & N2 & D2 & Hr2) & Hr01 & Hdur)|[(-> & Hnf & G2 & N2 & D2 & Hr2)|(-> & Hnf & Ht & Hrd & Him)]]).
      * left. exists G2, N2, D2, (F k a), (bound + weight op)%nat. split; [done|]. split; [by eapply HF|]. intros s3 Hr3 [Hl3 Hd3]. split; [congruence|]. exists (F k a).
        split; [destruct Hr01 as [->|[-> _]]; [left|right; right; left]|]. split; [by eapply HF|]. split; [intros Hf; destruct Hr01 as [->|[_ Hnf]]; [done|by destruct Hnf]|].
        left. split; [by eapply good_unlock|]. cbn. intros Hf. rewrite Hd3, <- Hd1. destruct Hr01 as [->|[_ Hnf]]; [by apply Hdur|by destruct Hnf].
      * left. exists G2, N2, D2, a, bound. split; [done|]. split; [done|]. intros s3 Hr3 [Hl3 Hd3]. split; [congruence|]. exists a. split; [right; by left|]. split; [done|]. split; [by intros ?%Hnf|]. left. split; [by eapply good_unlock|]. by intros ?%Hnf.
      * right. split; [done|]. intros s3 [Hl3 Hd3] _. split; [congruence|]. exists a. split; [right; by left|]. split; [done|]. split; [by intros ?%Hnf|]. by right.
Qed.

(** Simple fields. *)
Lemma alter_at k g i (m : gmap cstr storage_image) : m !! k = Some i → alter g k m = <[k := g i]> m.
Proof. intros Hk. apply map_eq. intros x. destruct (decide (x = k)) as [->|]; [by rewrite lookup_alter_eq, lookup_insert_eq, Hk|by rewrite lookup_alter_ne, lookup_insert_ne]. Qed.

Lemma durable_put bound a a' k i' text disk :
  awf bound a → is_Some (a_imgs a !! k) → a_imgs a' = <[k := i']> (a_imgs a) → si_id i' = k → generate_json i' = Some text → durable a disk → durable a' (put_file k IMAGE_JSON text disk).
Proof.
  intros Hw Hk Ha' Hid Ht [Hs Htd]. split.
  - intros k' j. rewrite Ha'. intros [[<- <-]|[Hne Hj]]%lookup_insert_Some; [rewrite <- Hid; by apply saved_put|]. apply saved_put_ne; [by rewrite (wf_id bound a Hw k' j)|by apply (Hs k')].
  - intros x Hx. destruct (tidy_put a k IMAGE_JSON text disk Hk Htd x Hx) as (k' & -> & Hk'). exists k'. split; [done|]. rewrite Ha', lookup_insert_is_Some'. by right.
Qed.

Lemma update_awf bound a k g :
  awf bound a → (∀ i, si_id (g i) = si_id i ∧ si_names (g i) = si_names i ∧ si_digest (g i) = si_digest i ∧ si_data_digests (g i) = si_data_digests i) → awf bound (update k g a).
Proof.
  intros Hw Hg. assert (Hcase : ∀ k' j, a_imgs (update k g a) !! k' = Some j → ∃ j0, a_imgs a !! k' = Some j0 ∧ si_id j = si_id j0 ∧ si_names j = si_names j0 ∧ si_digest j = si_digest j0 ∧ si_data_digests j = si_data_digests j0).
  { intros k' j. unfold update. cbn [a_imgs]. intros [(-> & j0 & Hj & ->)|[_ Hj]]%lookup_alter_Some; [exists j0; split; [done|apply Hg]|by exists j]. }
  split.
  - destruct (wf_size bound a Hw). unfold update. cbn [a_imgs]. by rewrite <- size_dom, dom_alter_L, size_dom.
  - intros k' j (j0 & H0 & -> & _)%Hcase. by apply (wf_id bound a Hw).
  - intros k' j (j0 & H0 & _ & -> & _)%Hcase. by apply (wf_names bound a Hw k').
  - intros k1 k2 j1 j2 n (x1 & H1 & _ & -> & _)%Hcase (x2 & H2 & _ & -> & _)%Hcase. by apply (wf_owner bound a Hw).
  - intros k' j (j0 & H0 & _ & _ & -> & ->)%Hcase. by apply (wf_digest bound a Hw k').
  - intros d ks Hd. destruct (wf_digs bound a Hw d ks Hd) as (Hne & Hnd & Hin). split_and!; [done..|]. intros x Hx. destruct (Hin x Hx) as (j & Hj & Hdj). unfold update. cbn [a_imgs].
    destruct (decide (x = k)) as [->|Hne']; [exists (g j); rewrite lookup_alter_eq, Hj; split; [done|]|exists j; by rewrite lookup_alter_ne]. destruct (Hg j) as (_ & _ & E1 & E2). unfold digests_of, manifest_of in *. by rewrite E1, E2.
Qed.

Lemma field_ok bound s a w op ref g :
  good s a → awf bound a → mem_all w → weight op = 0%nat → outcomes signed sha256_digest_str default_host a op = saved_change default_host a ref (λ k, update k g) →
  (∀ i, si_id (g i) = si_id i ∧ si_names (g i) = si_names i ∧ si_digest (g i) = si_digest i ∧ si_data_digests (g i) = si_data_digests i) →
  wp (locked (sub 0 w) true (-1) (with_image default_host (sub 1 w) ref (-1) (λ p, st_simage p g;; save_simage generate_json dir (sub 2 w) p))) (λ r s', step_ok bound s a w op (RZ r) s') s.
Proof.
  intros Hs Hw Hm Hwt Ho Hg. assert (Hb : Z.of_nat (bound + weight op) ≤ max_items) by (rewrite Hwt, Nat.add_0_r; apply (wf_size bound a Hw)).
  eapply changing_ok; [done..| |].
  - intros k i _ _. rewrite Hwt, Nat.add_0_r. by apply update_awf.
  - intros k i p G N D s1 Hk Ha HG Hr1. destruct (rp_obj Hr1 k p HG) as (im & i0 & Hp & Hi & Ha0). assert (i0 = i) as -> by congruence. clear Ha0. assert (Hid : si_id (g i) = k) by (destruct (Hg i) as [-> _]; by apply (wf_id bound a Hw)).
    apply wp_bind. eapply wp_st_simage; [done..|]. assert (Hu : update k g a = mk_astore (<[k := g i]> (a_imgs a)) (a_digs a)) by (unfold update; by rewrite (alter_at k g i)).
    pose proof (rep_record bound G N D s1 a p im i (g i) k Hr1 Hw HG Hp Ha (proj1 (proj2 (Hg i))) (im_spec im)) as Hr2. rewrite <- Hu in Hr2.
    eapply wp_mono; [eapply save_simage_ok; [apply lookup_insert_eq|done]|]. cbn beta. intros r s2 (Hr01 & (d & ->) & H0 & Hio). rewrite Hid in H0, Hio. split; [done|]. left.
    split; [exists G, N, D; by apply rep_disk|]. split.
    + destruct Hr01 as [->| ->]; [by left|]. right. split; [done|]. intros [(H1 & H2 & H3) _]. specialize (Hio ltac:(auto with world) (H2 k ltac:(by eexists)) (H3 _)). lia.
    + intros -> _ Hd. destruct (H0 eq_refl) as (text & Ht & ->). eapply (durable_put bound a); [done|by eexists|by rewrite Hu|done..].
Qed.

(** Names. *)
Lemma names_body s a w op bound p i k G N D wn saves names :
  rep [p] G N D s a → awf bound a → mem_all wn → G !! k = Some p → a_imgs a !! k = Some i → Z.of_nat (length names) ≤ max_items → (fine w a op → ideal generate_json dir wn a) →
  (keeps a op → saves = true ∨ own_names a k (the_names signed names)) →
  ((∃ n k', n ∈ the_names signed names ∧ owner (a_imgs a) n = Some k' ∧ k' ≠ k) → saves = true → torn default_host a op (RZ (-1))) →
  wp (do_set_names signed generate_json dir wn saves names p) (body_ok s a w op (name_image k (the_names signed names) a) p) s.
Proof.
  intros Hr Hw Hm HG Ha Hlen Hfine Hkeeps Htorn. eapply wp_mono; [by eapply do_set_names_ok|]. cbn beta zeta. intros r s' [Hl [((N' & Hr') & Hr01 & Hsv & Htd)|(-> & Hs & Hni & Hn & Hrd & Him)]]; (split; [done|]).
  - left. split; [by exists G, N', D|]. split; [destruct Hr01 as [->|[-> Hni]]; [by left|right; split; [done|]; by intros ?%Hfine]|]. intros Hr0 Hk [Hd1 Hd2]. split; [apply Hsv; auto|by apply Htd].
  - right. right. split; [done|]. split; [by intros ?%Hfine|]. split; [by apply Htorn|]. done.
Qed.

Lemma set_names_ok bound s a w ref names :
  good s a → awf bound a → mem_all w → op_ok (OSetNames ref names) → Z.of_nat (bound + length names) ≤ max_items →
  wp (image_store_set_names signed generate_json default_host dir w (Some ref) names) (λ r s', step_ok bound s a w (OSetNames ref names) (RZ r) s') s.
Proof.
  intros Hs Hw Hm Hok Hb. unfold image_store_set_names. destruct (decide (names = [])) as [->|Hne].
  - rewrite bool_decide_true by done. apply wp_ret. exists a. cbn [length weight]. rewrite Nat.add_0_r. change (outcomes _ _ _ a (OSetNames ref [])) with [(RZ (-1), a)]. split_and!; [by left|done|done|]. by left.
  - rewrite bool_decide_false by done. destruct (the_names_spec signed names ltac:(lia)) as (Hnd & Hin & Hlen).
    eapply (changing_ok bound s a w (OSetNames ref names) ref (λ k, name_image k (the_names signed names))); [done..|cbn; by rewrite decide_False| |].
    + intros k i _ Ha. cbn. apply (awf_name bound) with i; [done..| |lia|lia|lia]. cbn in Hok. rewrite list.Forall_forall in *. intros n Hn%Hin. by apply Hok.
    + intros k i p G N D s1 Hk Ha HG Hr1. eapply names_body; [done..|auto with world|done|done|lia| | |done].
      * intros [Hi _]. by apply ideal_sub.
      * intros Hkeep. right. by apply Hkeep.
Qed.

Lemma add_name_ok bound s a w ref name :
  good s a → awf bound a → mem_all w → op_ok (OAddName ref name) → Z.of_nat (bound + 1) ≤ max_items →
  wp (image_store_add_name signed generate_json default_host dir w (Some ref) (Some name)) (λ r s', step_ok bound s a w (OAddName ref name) (RZ r) s') s.
Proof.
  intros Hs Hw Hm Hok Hb. unfold image_store_add_name. assert (Hlen : ∀ k i, a_imgs a !! k = Some i → (length (si_names i ++ [name]) ≤ bound + 1)%nat).
  { intros k i Ha. destruct (wf_names bound a Hw k i Ha) as (_ & _ & Hl). rewrite length_app. cbn. lia. }
  eapply (changing_ok bound s a w (OAddName ref name) ref (λ k a, match a_imgs a !! k with Some i => name_image k (the_names signed (si_names i ++ [name])) a | None => a end)); [done..| |].
  - intros k i _ Ha. rewrite Ha. cbn [weight]. specialize (Hlen k i Ha). destruct (the_names_spec signed (si_names i ++ [name]) ltac:(lia)) as (Hnd & Hin & Hl). apply (awf_name bound) with i; [done..| |lia|lia|lia].
    destruct (wf_names bound a Hw k i Ha) as (_ & Hf & _). rewrite list.Forall_forall in *. intros n Hn%Hin. rewrite elem_of_app, list_elem_of_singleton in Hn. destruct Hn as [Hn| ->]; [by apply Hf|done].
  - intros k i p G N D s1 Hk Ha HG Hr1. rewrite Ha. specialize (Hlen k i Ha). destruct (rp_obj Hr1 k p HG) as (im & i0 & Hp & Hi & Ha0). assert (i0 = i) as -> by congruence. clear Ha0.
    unfold do_add_name. apply wp_bind. eapply wp_ld_simage; [done..|]. rewrite !alloc_ok by auto with world. cbn [negb]. rewrite andb_false_r.
    eapply names_body; [done..|auto with world|done|done|lia| |by left|].
    + intros [Hi' _]. by do 2 apply ideal_sub.
    + intros (n & k' & Hn & Ho & Hne) _. split; [done|]. exists k, k'. split; [done|]. destruct (the_names_spec signed (si_names i ++ [name]) ltac:(lia)) as (_ & Hin & _).
      apply Hin in Hn. rewrite elem_of_app, list_elem_of_singleton in Hn. destruct Hn as [Hn| ->]; [|done]. destruct Hne. apply (owner_spec bound) in Ho as (j & Hj & Hnj); [|done]. by eapply (wf_owner bound a Hw).
Qed.

(** Data. *)
Lemma set_data_ok bound s a w ref key data :
  good s a → awf bound a → mem_all w → op_ok (OSetData ref key data) →
  wp (image_store_set_big_data generate_json parse_spec sha256_digest_str base64 append_json_map_string_int64 append_json_map_string_string default_host dir w (Some ref) (Some key) (Some data))
    (λ r s', step_ok bound s a w (OSetData ref key data) (RZ r) s') s.
Proof.
  intros Hs Hw Hm Hok. unfold image_store_set_big_data, nonempty_key. cbn [mbind option_bind]. destruct (String.eqb_spec (cstr_s key) "") as [He|_]; [done|].
  eapply (changing_ok bound s a w (OSetData ref key data) ref (λ k, data_added sha256_digest_str k key data)); [done|done|done|cbn; rewrite Nat.add_0_r; apply (wf_size bound a Hw)|done| |].
  - intros k i _ Ha. cbn. rewrite Nat.add_0_r. by apply awf_data with i.
  - intros k i p G N D s1 Hk Ha HG Hr1. eapply wp_mono; [by eapply do_set_data_ok; auto with world|]. cbn beta zeta. intros r s' [Hl [(-> & Hr' & Hn)|((D' & Hr') & Hr01 & Hsv & Htd)]]; (split; [done|]).
    + right. left. split; [done|]. split; [|by exists G, N, D]. intros [Hi Hf]. apply Hn. split; [by apply ideal_sub|by apply Hf].
    + left. split; [by exists G, N, D'|]. split; [destruct Hr01 as [->|[-> Hni]]; [by left|right; split; [done|]; intros [Hi _]; by apply Hni, ideal_sub]|]. intros Hr0 Hkeep [Hd1 Hd2]. split; [apply Hsv; [done|by apply Hkeep|done]|by apply Htd].
Qed.

(** Creating and deleting. *)
Lemma image_create_ok bound s a w rand id names layer metadata now time digest :
  let op := OCreate rand id names layer metadata now time digest in
  good s a → awf bound a → mem_all w → op_ok op → Z.of_nat (bound + weight op) ≤ max_items →
  wp (image_store_create signed generate_json parse_spec base64 default_host dir w rand id names layer metadata now time (Some digest)) (λ r s', step_ok bound s a w op (RStr r) s') s.
Proof.
  intros op [Hl (G & N & D & Hr)] Hw Hm Hok Hb. assert (Hwa : awf (bound + weight op) a) by (eapply awf_more; [done|lia|done]). unfold step_ok. cbn [outcomes op]. unfold fine. cbn [op].
  set (cr := created signed a rand id names layer metadata now time digest). unfold image_store_create. apply wp_locked; [apply (rp_ready Hr)|done| |].
  - intros Hio. exists a. split; [destruct cr; [right|]; by left|]. split; [done|]. split; [intros [(H & _) _]; by destruct Hio; auto with world|]. left. split; [split; [done|by exists G, N, D]|]. by intros [(H & _) _].
  - cbn zeta. eapply wp_mono; [eapply do_create_ok; [by apply rep_lock|exact Hw|auto with world|exact Hb|exact Hok]|]. cbn beta. fold cr. intros r s' [Hl' H]. split; [done|]. destruct cr as [i|] eqn:Ecr.
    + destruct (created_Some _ _ _ _ _ _ _ _ _ _ _ Ecr) as (Hk & Hd & Hdd & Hn & How). destruct (the_names_spec signed names ltac:(cbn in Hb; lia)) as (Hnd & Hin & Hlen).
      destruct H as [(-> & (G' & N' & D' & Hr') & text & Ht & Hdk)|(-> & (G' & N' & D' & Hr') & Hni)].
      * exists (add_image i a). split; [by left|]. split.
        { apply (awf_more (bound + S (length (si_names i)))); [|rewrite Hn; cbn; lia|done]. apply awf_add; [done|rewrite Hn; cbn in Hb; lia|done|by eexists|done|by rewrite Hn| |]; rewrite Hn.
          - cbn in Hok. rewrite list.Forall_forall in *. intros n Hx%Hin. by apply Hok.
          - intros n Hx%Hin. by apply How. }
        split; [done|]. left. split; [by eapply good_unlock|]. intros _ _ [Hs Htd]. cbn. rewrite Hdk. cbn. split.
        { intros k j. unfold add_image. cbn [a_imgs]. intros [[<- <-]|[Hne Hj]]%lookup_insert_Some; [by apply saved_put|]. apply saved_put_ne; [by rewrite (wf_id bound a Hw k j)|by apply (Hs k)]. }
        intros x. unfold put_file. rewrite lookup_insert_is_Some'. unfold add_image. cbn [a_imgs]. intros [<-|Hx]; [exists (si_id i); rewrite lookup_insert_eq; by split; [|eexists]|].
        destruct (Htd x Hx) as (k & -> & Hk'). exists k. split; [done|]. rewrite lookup_insert_is_Some'. by right.
      * assert (Hnf : ¬ (ideal generate_json dir w a ∧ ∀ j, Some i = Some j → fits dir (si_id j))) by (intros [(H1 & _ & H3) H2]; apply Hni; split_and!; [auto with world|by apply H2|done]).
        exists a. split; [right; by left|]. split; [done|]. split; [by intros ?%Hnf|]. left. split; [by eapply good_unlock|]. by intros ?%Hnf.
    + destruct H as (-> & Hdk & G' & N' & D' & Hr'). exists a. split; [by left|]. split; [done|]. split; [done|]. left. split; [by eapply good_unlock|]. intros _ _. cbn. by rewrite Hdk.
Qed.

Lemma durable_delete bound a k disk : awf bound a → is_Some (a_imgs a !! k) → durable a disk → durable (del_image k a) (delete (cstr_s k) disk).
Proof.
  intros Hw [i Hi] [Hs Ht]. assert (Him : a_imgs (del_image k a) = delete k (a_imgs a)) by (unfold del_image; by rewrite Hi). split.
  - intros k' j. rewrite Him. intros [Hne Hj]%lookup_delete_Some. destruct (Hs k' j Hj) as (files & text & Hf & Hg). exists files, text. rewrite lookup_delete_ne; [done|].
    rewrite (wf_id bound a Hw k' j Hj). intros He%(inj cstr_s). done.
  - intros x [Hne Hx]%lookup_delete_is_Some. destruct (Ht x Hx) as (k' & -> & Hk'). exists k'. split; [done|]. rewrite Him, lookup_delete_is_Some. split; [|done]. by intros ->.
Qed.

Lemma delete_ok bound s a w ref :
  good s a → awf bound a → mem_all w → wp (image_store_delete default_host dir w (Some ref)) (λ r s', step_ok bound s a w (ODelete ref) (RZ r) s') s.
Proof.
  intros [Hl (G & N & D & Hr)] Hw Hm. unfold step_ok. cbn [outcomes weight]. rewrite Nat.add_0_r. unfold image_store_delete. apply wp_locked; [apply (rp_ready Hr)|done| |].
  - intros Hio. exists a. split; [destruct (find_ref _ _ _); right; by left|]. split; [done|]. split; [intros [(H & _) _]; by destruct Hio; auto with world|]. left. split; [split; [done|by exists G, N, D]|]. by intros [(H & _) _].
  - cbn zeta. apply wp_bind. eapply wp_mono; [eapply do_delete_ok; [by apply rep_lock|done|auto with world]|]. cbn beta. intros r s' [Hl' H]. apply wp_ret. split; [done|].
    destruct (find_ref default_host a ref) as [k|] eqn:Ek.
    + destruct H as (Hr01 & (G' & N' & D' & Hr') & _ & H0 & Hio). assert (Hk : is_Some (a_imgs a !! k)) by (by eapply find_ref_Some). exists (del_image k a).
      assert (Hf : fine w a (ODelete ref) → r = 0) by (intros [(H1 & H2 & _) _]; apply Hio; [auto with world|by apply fits_dir, H2]).
      destruct Hr01 as [->| ->]; [rewrite decide_False by lia|rewrite decide_True by lia].
      * split; [by left|]. split; [by apply awf_del|]. split; [done|]. left. split; [by eapply good_unlock|]. intros _ _ Hd. cbn. rewrite H0 by done. cbn. by eapply durable_delete.
      * split; [right; right; by left|]. split; [by apply awf_del|]. split; [by intros ?%Hf|]. left. split; [by eapply good_unlock|]. by intros ?%Hf.
    + destruct H as [-> ->]. rewrite decide_False by lia. exists a. split; [by left|]. split; [done|]. split; [done|]. left. split; [by eapply good_unlock, rep_lock|done].
Qed.

(** The number of images. *)
Lemma rep_length bound held G N D s a : rep held G N D s a → awf bound a → length (is_list s) = size (a_imgs a).
Proof.
  intros Hr Hw. assert (Hk : size (a_imgs a) = size G) by (rewrite <- !length_map_to_list, <- (length_fmap fst (map_to_list (a_imgs a))), (same_keys _ _ _ _ _ _ Hr); by rewrite length_fmap).
  rewrite Hk, <- length_map_to_list, <- (length_fmap snd). apply Permutation_length, NoDup_Permutation; [apply Hr| |].
  - apply NoDup_fmap_2_strong; [|apply NoDup_map_to_list]. intros [k1 p1] [k2 p2] H1%elem_of_map_to_list H2%elem_of_map_to_list. cbn. intros <-. f_equal. by eapply (rp_inj bound).
  - intros p. rewrite (rp_list Hr), list_elem_of_fmap. split.
    + intros [k Hp]. exists (k, p). split; [done|]. by apply elem_of_map_to_list.
    + intros ([k p'] & -> & Hp%elem_of_map_to_list). by exists k.
Qed.

Lemma number_ok bound s a w : good s a → awf bound a → mem_all w → wp (image_store_get_images_number w) (λ r s', step_ok bound s a w ONumber (RZ r) s') s.
Proof.
  intros [Hl (G & N & D & Hr)] Hw Hm. unfold step_ok. cbn [outcomes weight]. rewrite Nat.add_0_r. unfold image_store_get_images_number. apply wp_locked; [apply (rp_ready Hr)|done| |].
  - intros Hio. exists a. split; [right; by left|]. split; [done|]. split; [intros [(H & _) _]; by destruct Hio|]. left. split; [split; [done|by exists G, N, D]|]. by intros [(H & _) _].
  - cbn zeta. apply wp_bind, wp_get, wp_ret. split; [done|]. exists a. cbn [is_len set_lock]. rewrite (rp_len Hr), (rep_length bound _ _ _ _ _ _ Hr Hw). split; [by left|]. split; [done|]. split; [done|]. left. split; [by eapply good_unlock, rep_lock|done].
Qed.

(** An operation has one of its outcomes, the first of them when nothing fails. *)
Lemma iexec_ok bound s a w op :
  good s a → awf bound a → mem_all w → op_ok op → Z.of_nat (bound + weight op) ≤ max_items → wp (iexec w op) (step_ok bound s a w op) s.
Proof.
  intros Hs Hw Hm Hok Hb. assert (Hrd : ∀ p im i (s : image_state MT), is_imgs s !! p = Some im → im_simage im = Some i → wp (ld_simage p) (λ r s', r = i ∧ s' = s) s) by (intros p im i s0 Hp Hi; by eapply wp_ld_simage).
  assert (Hget : ∀ A (get : storage_image → A) p im i (s : image_state MT), is_imgs s !! p = Some im → im_simage im = Some i → wp (i ← ld_simage p; mret (get i)) (λ r s', r = get i ∧ s' = s) s).
  { intros A get p im i s0 Hp Hi. apply wp_bind. eapply wp_mono; [by eapply Hrd|]. cbn beta. intros r s1 [-> ->]. by apply wp_ret. }
  destruct op; cbn [iexec]; apply wp_named.
  - by apply image_create_ok.
  - by apply delete_ok.
  - eapply (reading_ok bound s a w (OLookup ref) ref RStr None (λ i, Some (si_id i))); try done. apply Hget.
  - by eapply (reading_ok bound s a w (OExists ref) ref RBool false (λ _, true)).
  - by apply add_name_ok.
  - by apply set_names_ok.
  - eapply (reading_ok bound s a w (OGetNames ref) ref RStrs None (λ i, Some (si_names i))); try done. rewrite alloc_ok by auto with world. cbn [negb]. intros p im i s0 Hp Hi. eapply wp_mono; [by eapply Hget|]. cbn beta. intros r s1 [-> ->]. by rewrite andb_false_r.
  - by eapply (field_ok bound s a w (OSetMetadata ref metadata)).
  - eapply (reading_ok bound s a w (OMetadata ref) ref RStr None si_metadata); try done. apply Hget.
  - by eapply (field_ok bound s a w (OSetLoadTime ref time)).
  - by eapply (field_ok bound s a w (OSetSize ref size)).
  - eapply (reading_ok bound s a w (OTopLayer ref) ref RStr None si_layer); try done. apply Hget.
  - by apply set_data_ok.
  - eapply (reading_ok bound s a w (ODataNames ref) ref RStrs None (λ i, Some (si_data_names i))); try done. rewrite alloc_ok by auto with world. cbn [negb]. intros p im i s0 Hp Hi. eapply wp_mono; [by eapply Hget|]. cbn beta. intros r s1 [-> ->]. by rewrite andb_false_r.
  - by apply number_ok.
Qed.

(** ** Histories *)

(** A caller may stop after a result. *)
Fixpoint irun (stop : iop → ires → bool) (l : list (iop * world)) : M (image_state MT) (list ires) :=
  match l with
  | [] => mret []
  | (op, w) :: l => r ← iexec w op; if stop op r then mret [r] else rs ← irun stop l; mret (r :: rs)
  end.

(** The results that the outcomes allow; no store where the caller stops. *)
Inductive traces (stop : iop → ires → bool) : astore → list iop → list ires → option astore → Prop :=
| t_end a : traces stop a [] [] (Some a)
| t_step a op r a' ops rs e : (r, a') ∈ outcomes signed sha256_digest_str default_host a op → stop op r = false → traces stop a' ops rs e → traces stop a (op :: ops) (r :: rs) e
| t_stop a op r a' ops : (r, a') ∈ outcomes signed sha256_digest_str default_host a op → stop op r = true → traces stop a (op :: ops) [r] None.

Fixpoint weights (l : list (iop * world)) : nat := match l with [] => 0 | x :: l => weight x.1 + weights l end.


(** What a history does when nothing fails. *)
Fixpoint ideal_run a (l : list iop) : list ires * astore :=
  match l with
  | [] => ([], a)
  | op :: l => match head (outcomes signed sha256_digest_str default_host a op) with Some (r, a') => let '(rs, a2) := ideal_run a' l in (r :: rs, a2) | None => ([], a) end
  end.

(** Nothing fails, and the files can follow. *)
Fixpoint all_fine a (l : list (iop * world)) : Prop :=
  match l with
  | [] => True
  | (op, w) :: l => fine w a op ∧ keeps a op ∧ match head (outcomes signed sha256_digest_str default_host a op) with Some (_, a') => all_fine a' l | None => True end
  end.

End history.

(** ** Instances *)

(** The state of a store that has just started. *)
Definition start {MT} (m : MT) : image_state MT := mk_ist true Free [] 0 m m m true ∅ ∅ 1%N ∅.

Definition all_well : world := mk_world (λ _, true) (λ _, true) (λ files, files).

(** Only the lock works. *)
Definition no_files : world := mk_world (λ _, true) (λ n, Nat.eqb n 1) (λ files, files).

Section examples.
Implicit Types (a : astore).
Let run := irun (MT := map_t ptr MAP_STR_PTR) (SM := str_ptr_map true) true (λ _, Some "{}") (λ _, None) (λ _, cstr_of "0") (λ _, None) (λ m k v, m ++ [(k, v)]) (λ m k v, m ++ [(k, v)]) None "/images".
Let make (id name : string) : iop := OCreate (λ _, mk_urandom true (λ _, None)) (Some (cstr_of id)) [cstr_of name] None None "now" None (cstr_of "sha256:0").
Let sample : list (iop * world) := [(make "1a" "busybox", all_well); (make "2b" "alpine", all_well); (OAddName (cstr_of "1a") (cstr_of "alpine"), all_well); (OLookup (cstr_of "alpine"), all_well)].

Lemma start_good (m : map_t ptr MAP_STR_PTR) : sm_models (StrMap := str_ptr_map true) m ∅ → good (SM := str_ptr_map true) (start m) (mk_astore ∅ ∅).
Proof. intros Hm. split; [done|]. exists ∅, ∅, ∅. by apply rep_empty. Qed.


Lemma sample_ok : Forall (λ x, op_ok x.1 ∧ mem_all x.2) sample.
Proof.
  assert (Hn : ∀ n, nul_free n = true → (String.length n < 100)%nat → name_ok n) by (intros n H1 H2; split; [done|]; unfold short; rewrite max_items_eq; lia).
  repeat constructor; apply Hn; (done || (cbn; lia)).
Qed.

Lemma empty_awf : awf 0 (mk_astore ∅ ∅).
Proof. by split. Qed.


(** Nothing fails when ids are short. *)
Lemma sample_fits k : (String.length (cstr_s k) < 100)%nat → fits "/images" k.
Proof.
  intros Hk. unfold fits, get_image_path, image_dir. cbn zeta. rewrite decide_False; [by eexists|]. rewrite !string_length_app. change (String.length (String slash ?x)) with (S (String.length x)). change (String.length "/images") with 7%nat.
  change (String.length IMAGE_JSON) with 11%nat. unfold PATH_MAX. lia.
Qed.

Fixpoint short_ids a (l : list iop) : bool :=
  match l with
  | [] => true
  | op :: l =>
    bool_decide (map_Forall (λ k _, (String.length (cstr_s k) < 100)%nat) (a_imgs a)) &&
    match op with OCreate _ id _ _ _ _ _ _ => match id with Some id => bool_decide (String.length (cstr_s id) < 100)%nat | None => false end | OSetNames _ _ | OSetData _ _ _ => false | _ => true end &&
    match head (outcomes true (λ _, cstr_of "0") None a op) with Some (_, a') => short_ids a' l | None => true end
  end.

Lemma short_fine a l : short_ids a l = true → all_fine true (λ _, Some "{}") (λ _, cstr_of "0") (λ _, None) None "/images" a ((λ op, (op, all_well)) <$> l).
Proof.
  revert a. induction l as [|op l IH]; intros a; [done|]. rewrite fmap_cons. cbn [short_ids all_fine]. rewrite !andb_true_iff, bool_decide_eq_true. intros [[Hids Hop] Hl]. split; [|split; [by destruct op|]].
  - split; [split; [done|]; split; [|intros i; by eexists]; intros k [i Hi]; apply sample_fits; by apply (Hids k i)|]. destruct op; try done. destruct id as [id|]; [|done]. intros i. unfold created. cbn. destruct (match time with None => Some now | Some t => t end); [|done]. cbn.
    destruct (decide _); [|done]. intros [= <-]. apply sample_fits. by apply bool_decide_eq_true in Hop.
  - destruct (head _) as [[r a']|]; [|done]. by apply IH.
Qed.

End examples.
