(* ===== verification/ImageReport.v ===== *)
(** * What the store of images tells: theorems

    Data is read back as it was stored, with its size and its digest; and the
    summaries of the images are those of the abstract store of ImageSpec: the tags
    and the digests of the repositories, without repetitions, in the order of the
    names. *)
From stdpp Require Import base gmap list fin_maps numbers strings.
From Stdlib Require Import ZArith Lia Ascii.
From S2P Require Import Prelude CString Regex Array RbTree Map StrMap Convert StringUtil Verify Path SymlinkScope IdNameManager ImageName ImageStore ImageSpec ImageInfo ImageCorrect ImageChange ImageUpdate ImageData ImageHistory.

Local Open Scope Z_scope.

(** ** Names with and without a digest *)
Definition tags_of (names : list cstr) : list cstr := filter (λ n, is_digest_name true (cstr_s n) = false) names.
Definition digests_in (names : list cstr) : list cstr := filter (λ n, is_digest_name true (cstr_s n) = true) names.

Lemma resort_split names tags digests :
  resort_loop (λ _, true) names tags digests = (true, tags ++ filter (λ n, is_digest_name true n = false) names, digests ++ filter (λ n, is_digest_name true n = true) names).
Proof.
  revert tags digests. induction names as [|n names IH]; intros tags digests; cbn [resort_loop negb]; [by rewrite !app_nil_r|]. rewrite !filter_cons.
  destruct (is_digest_name true n); cbn; rewrite IH, <- app_assoc; done.
Qed.

Lemma filter_cstrs (b : bool) (names : list cstr) : cstr_of <$> filter (λ n, is_digest_name true n = b) (cstr_s <$> names) = filter (λ n, is_digest_name true (cstr_s n) = b) names.
Proof.
  induction names as [|n names IH]; [done|]. rewrite fmap_cons, !filter_cons. destruct (decide _); [|done]. by rewrite fmap_cons, cstr_of_s, IH.
Qed.

(** What [l] lacks of [xs] comes behind it. *)
Fixpoint add_new (l xs : list cstr) : list cstr := match xs with [] => l | x :: xs => add_new (if decide (x ∈ l) then l else l ++ [x]) xs end.

Lemma omap_short {A B} (f : A → option B) (l : list A) : (length (omap f l) ≤ length l)%nat.
Proof. induction l as [|x l IH]; [done|]. cbn. destruct (f x); cbn; lia. Qed.

Lemma omap_along {A B C} (f : A → option C) (g : B → option C) (h : A → B) (l : list A) : (∀ x, x ∈ l → f x = g (h x)) → omap f l = omap g (h <$> l).
Proof.
  induction l as [|x l IH]; intros H; [done|]. rewrite fmap_cons. cbn [omap list_omap]. rewrite (H x) by (by left). rewrite IH; [done|]. intros y Hy. apply H. by right.
Qed.

Section repositories.
Context {BT : Type} {BM : StrMap bool BT} (default_host : option string).

Definition repo_digest_of (d t : cstr) : option cstr := cstr_of <$> mjoin (repo_digest default_host (λ _, true) (cstr_s t) (cstr_s d)).

Definition repo_digests_of (names : list cstr) (d : cstr) : list cstr := add_new (digests_in names) (omap (repo_digest_of d) (tags_of names)).

Lemma repo_digest_ok d t : name_ok (cstr_s t) → repo_digest default_host (λ _, true) (cstr_s t) (cstr_s d) = Some (mjoin (repo_digest default_host (λ _, true) (cstr_s t) (cstr_s d))).
Proof. intros Ht. unfold repo_digest. by destruct (parse_reference_ok default_host (cstr_s t) Ht) as [r ->]. Qed.

(** The map has the digests of the list. *)
Definition tracks (m : BT) (l : list cstr) : Prop := ∃ g, sm_models m g ∧ ∀ d, is_Some (g !! d) ↔ d ∈ l.

Lemma wp_track w m l d : tracks m l → mem_all w → wp (sm_replace (map_room w) d true) (λ b m', b = true ∧ tracks m' (l ++ [d])) m.
Proof.
  intros (g & Hm & Hg) Hw. eapply wp_mono; [by apply sm_replace_ok|]. cbn beta. intros b m' (Hb & _ & Hm' & _). rewrite map_room_ok, sm_room_ok in Hb by done. rewrite Hb in * by done.
  split; [done|]. exists (<[d := true]> g). split; [done|]. intros x. rewrite lookup_insert_is_Some', Hg, elem_of_app, list_elem_of_singleton. naive_solver.
Qed.

Lemma put_digests_ok w l l0 m : tracks m l0 → mem_all w → wp (put_digests w l) (λ b m', b = true ∧ tracks m' (l0 ++ l)) m.
Proof.
  revert w l0 m. induction l as [|d l IH]; intros w l0 m Hm Hw; cbn [put_digests]; [apply wp_ret; by rewrite app_nil_r|].
  apply wp_bind. eapply wp_mono; [by apply wp_track; auto with world|]. cbn beta. intros b m' [-> Hm']. cbn [negb]. rewrite cons_middle, app_assoc. by apply IH; auto with world.
Qed.

Lemma repo_loop_ok w d tags l m :
  tracks m l → mem_all w → Forall (λ t, name_ok (cstr_s t)) tags → wp (repo_loop default_host w d tags l) (λ r _, r = Some (add_new l (omap (repo_digest_of d) tags))) m.
Proof.
  revert w l m. induction tags as [|t tags IH]; intros w l m Hm Hw Ht; cbn [repo_loop]; [by apply wp_ret|]. apply list.Forall_cons in Ht as [Ht Hts].
  rewrite (mem_sub 0 w Hw), (repo_digest_ok d t Ht). cbn [omap list_omap]. unfold repo_digest_of at 1. destruct (mjoin _) as [x|]; cbn [fmap option_fmap option_map]; [|by apply IH; auto with world].
  rewrite !alloc_ok by auto with world. cbn [negb add_new]. destruct Hm as (g & Hm & Hg). apply wp_bind. eapply wp_mono; [by apply sm_search_ok|]. cbn beta. intros v m' [-> ->].
  destruct (g !! cstr_of x) as [v|] eqn:Ex.
  - rewrite decide_True by (apply Hg; by eexists). apply IH; [by exists g|auto with world|done].
  - rewrite decide_False by (rewrite <- Hg; by rewrite Ex; intros [? ?]). apply wp_bind. eapply wp_mono; [apply (wp_track _ m l); [by exists g|auto with world]|]. cbn beta. intros b m' [-> Hm'].
    cbn [negb]. by apply IH; auto with world.
Qed.

Lemma pack_repo_digest_ok w old tags d :
  mem_all w → Forall (λ t, name_ok (cstr_s t)) tags → pack_repo_digest default_host w old tags d = Some (Some (add_new old (omap (repo_digest_of d) tags))).
Proof.
  intros Hw Ht. unfold pack_repo_digest. rewrite (mem_sub 0 w Hw). pose proof (sm_new_ok (StrMap := BM) true true true) as Hm. destruct (sm_new true true true) as [m|]; [|done]. destruct Hm as [Hm _].
  assert (Hrun : wp (ok ← put_digests (sub 1 w) old; if negb ok then mret None else repo_loop default_host (sub 2 w) d tags old) (λ r _, r = Some (add_new old (omap (repo_digest_of d) tags))) m).
  { apply wp_bind. eapply wp_mono; [apply (put_digests_ok _ old []); [|auto with world]|].
    - exists ∅. split; [done|]. intros x. rewrite lookup_empty. split; [by intros [? ?]|by intros ?%not_elem_of_nil].
    - cbn beta. intros b m' [-> Hm']. cbn [negb]. by apply repo_loop_ok; auto with world. }
  unfold wp in Hrun. match goal with |- fst <$> ?x = _ => destruct x as [[r m']|]; [|done] end. cbn. by rewrite Hrun.
Qed.
End repositories.

(** ** Summaries *)
Section reports.
Context {MT BT : Type} {SM : StrMap ptr MT} {BM : StrMap bool BT}.
Context (generate_json : storage_image → option string) (parse_spec : string → option oci_image_spec).
Context (sha256_digest_str : string → cstr) (base64 : string → option string).
Context (append_json_map_string_int64 : list (cstr * Z) → cstr → Z → list (cstr * Z)).
Context (append_json_map_string_string : list (cstr * cstr) → cstr → cstr → list (cstr * cstr)).
Context (dup_json_map_string_string : list (string * string) → option (list (string * string))).
Context (default_host : option string) (dir : string).
Implicit Types (s : image_state MT) (a : astore) (w : world).
Let pack w p := pack_image_tags_and_repo_digest (BM := BM) generate_json parse_spec sha256_digest_str base64 append_json_map_string_int64 append_json_map_string_string default_host dir w p.
Let summary w p := get_image_summary (BM := BM) generate_json parse_spec sha256_digest_str base64 append_json_map_string_int64 append_json_map_string_string dup_json_map_string_string default_host dir w p.
Let all_images w := image_store_get_all_images (BM := BM) generate_json parse_spec sha256_digest_str base64 append_json_map_string_int64 append_json_map_string_string dup_json_map_string_string default_host dir w.
Let one_summary w id := image_store_get_image_summary (BM := BM) generate_json parse_spec sha256_digest_str base64 append_json_map_string_int64 append_json_map_string_string dup_json_map_string_string default_host dir w id.

(** The summary of an image with the specification [sp]: none if the user of its
    configuration cannot be read. *)
Definition summary_of (i : storage_image) (sp : option oci_image_spec) : option image_summary :=
  '(uid, username) ← pack_user_info_for_image_summary all_well sp;
  d ← si_digest i;
  Some (mk_summary (si_id i) (tags_of (si_names i)) (repo_digests_of default_host (si_names i) d) (si_created i) (si_loaded i) (si_size i) (si_layer i) uid username
    ((sp ≫= sp_config) ≫= ic_labels)).

Definition known_digest (i : storage_image) : Prop := ∃ d, si_digest i = Some d ∧ cstr_s d ≠ "".

Lemma pack_tags_ok w p im i d s :
  is_imgs s !! p = Some im → im_simage im = Some i → Forall (λ n, name_ok (cstr_s n)) (si_names i) → si_digest i = Some d → cstr_s d ≠ "" → mem_all w →
  wp (pack w p) (λ r s', s' = s ∧ r = Some (tags_of (si_names i), repo_digests_of default_host (si_names i) d)) s.
Proof.
  intros Hp Hi Hn Hd Hne Hw. unfold pack, pack_image_tags_and_repo_digest. apply wp_bind. eapply wp_ld_simage; [done..|]. rewrite (mem_sub 0 w Hw). unfold resort_image_names. rewrite resort_split. cbn [negb app].
  rewrite !filter_cstrs. fold (tags_of (si_names i)) (digests_in (si_names i)). apply wp_bind. unfold get_image_repo_digests. apply wp_bind. eapply wp_ld_simage; [done..|]. rewrite Hd, (proj2 (String.eqb_neq _ _) Hne).
  apply wp_bind, wp_ret. unfold repo_digests_of. destruct (bool_decide_reflect (tags_of (si_names i) = [])) as [->|_]; [by do 2 apply wp_ret|].
  rewrite pack_repo_digest_ok; [by do 2 apply wp_ret|auto with world|]. rewrite list.Forall_forall in Hn |- *. intros n [_ Hin]%list_elem_of_filter. by apply Hn.
Qed.

Context (Hdup : ∀ labels, dup_json_map_string_string labels = Some labels).

Lemma summary_ok w p im i s :
  is_imgs s !! p = Some im → im_simage im = Some i → Forall (λ n, name_ok (cstr_s n)) (si_names i) → known_digest i → mem_all w →
  wp (summary w p) (λ r s', s' = s ∧ r = summary_of i (im_spec im)) s.
Proof.
  intros Hp Hi Hn (d & Hd & Hne) Hw. unfold summary, get_image_summary, summary_of. rewrite alloc_ok by auto with world. cbn [negb]. apply wp_bind. eapply wp_ld_img; [done|]. apply wp_bind. eapply wp_ld_simage; [done..|].
  replace (pack_user_info_for_image_summary (sub 1 w) (im_spec im)) with (pack_user_info_for_image_summary all_well (im_spec im)) by (unfold pack_user_info_for_image_summary, pack_user; rewrite !alloc_ok by (done || auto with world); done).
  destruct (pack_user_info_for_image_summary all_well (im_spec im)) as [[uid user]|]; cbn [mbind option_bind]; [|by apply wp_ret]. rewrite Hd. cbn [mbind option_bind].
  apply wp_bind. eapply wp_mono; [by eapply pack_tags_ok; auto with world|]. cbn beta. intros r s' [-> ->]. apply wp_ret. split; [done|]. unfold pack_image_labels_for_image_summary.
  rewrite alloc_ok by auto with world. cbn [negb]. destruct ((im_spec im ≫= sp_config) ≫= ic_labels) as [labels|]; [|done]. by rewrite Hdup.
Qed.

Lemma summaries_ok w l s :
  (∀ p, p ∈ l → ∃ im i, is_imgs s !! p = Some im ∧ im_simage im = Some i ∧ Forall (λ n, name_ok (cstr_s n)) (si_names i) ∧ known_digest i) → mem_all w →
  wp (summaries generate_json parse_spec sha256_digest_str base64 append_json_map_string_int64 append_json_map_string_string dup_json_map_string_string default_host dir w l)
    (λ r s', s' = s ∧ r = omap (λ p, im ← is_imgs s !! p; i ← im_simage im; summary_of i (im_spec im)) l) s.
Proof.
  revert w. induction l as [|p l IH]; intros w Hl Hw; cbn [summaries]; [by apply wp_ret|]. destruct (Hl p) as (im & i & Hp & Hi & Hn & Hk); [by left|].
  apply wp_bind. eapply wp_mono; [by eapply summary_ok; auto with world|]. cbn beta. intros r s' [-> ->]. apply wp_bind. eapply wp_mono; [apply IH; [|auto with world]; intros q Hq; apply Hl; by right|]. cbn beta.
  intros rs s' [-> ->]. apply wp_ret. split; [done|]. cbn [omap list_omap]. rewrite Hp. cbn [mbind option_bind]. rewrite Hi. cbn [mbind option_bind]. by destruct (summary_of i (im_spec im)).
Qed.

(** The id of an object of the store. *)
Definition id_of s (p : ptr) : cstr := match is_imgs s !! p ≫= im_simage with Some i => si_id i | None => cstr_of "" end.

Lemma id_of_ok bound held G N D s a k p : rep held G N D s a → awf bound a → G !! k = Some p → id_of s p = k.
Proof.
  intros Hr Hw Hk. destruct (rp_obj Hr k p Hk) as (im & i & Hp & Hi & Ha). unfold id_of. rewrite Hp. cbn [mbind option_bind]. rewrite Hi. by apply (wf_id bound a Hw).
Qed.

Lemma listed_ids bound held G N D s a : rep held G N D s a → awf bound a → id_of s <$> is_list s ≡ₚ (map_to_list (a_imgs a)).*1.
Proof.
  intros Hr Hw. apply NoDup_Permutation; [|apply NoDup_fst_map_to_list|].
  - apply NoDup_fmap_2_strong; [|apply (rp_nodup Hr)]. intros p q (k & Hp)%(rp_list Hr) (k' & Hq)%(rp_list Hr). rewrite (id_of_ok _ _ _ _ _ _ _ _ _ Hr Hw Hp), (id_of_ok _ _ _ _ _ _ _ _ _ Hr Hw Hq). congruence.
  - intros k. split.
    + intros (p & -> & (k' & Hk)%(rp_list Hr))%list_elem_of_fmap. rewrite (id_of_ok _ _ _ _ _ _ _ _ _ Hr Hw Hk). destruct (rp_obj Hr k' p Hk) as (_ & i & _ & _ & Ha). apply list_elem_of_fmap. exists (k', i). by rewrite elem_of_map_to_list.
    + intros ([k' i] & -> & Hi%elem_of_map_to_list)%list_elem_of_fmap. destruct (rp_dom Hr k') as [p Hp]; [by eexists|]. apply list_elem_of_fmap. exists p. split; [by rewrite (id_of_ok _ _ _ _ _ _ _ _ _ Hr Hw Hp)|]. apply (rp_list Hr). by exists k'.
Qed.

Lemma listed_length bound held G N D s a : rep held G N D s a → awf bound a → is_len s = Z.of_nat (length (is_list s)).
Proof.
  intros Hr Hw. rewrite (rp_len Hr). destruct (wf_size bound a Hw) as [Hs Hb]. assert (Hlen : length (is_list s) = size (a_imgs a)) by (rewrite <- (length_fmap (id_of s)), (listed_ids _ _ _ _ _ _ _ Hr Hw), length_fmap; apply length_map_to_list).
  rewrite max_items_eq in Hb. apply u64_small. unfold two64. lia.
Qed.

Lemma image_known bound held G N D s a k p :
  rep held G N D s a → awf bound a → (∀ k i, a_imgs a !! k = Some i → known_digest i) → G !! k = Some p →
  ∃ im i, is_imgs s !! p = Some im ∧ im_simage im = Some i ∧ a_imgs a !! k = Some i ∧ Forall (λ n, name_ok (cstr_s n)) (si_names i) ∧ known_digest i.
Proof.
  intros Hr Hw Hd Hk. destruct (rp_obj Hr k p Hk) as (im & i & Hp & Hi & Ha). exists im, i. destruct (wf_names bound a Hw k i Ha) as (_ & Hn & _). split_and!; [done..|]. by eapply Hd.
Qed.

Lemma all_images_ok bound s a w :
  good s a → awf bound a → mem_all w → io_all w → (∀ k i, a_imgs a !! k = Some i → known_digest i) →
  wp (all_images w) (λ r s', r.1 = 0 ∧ good s' a ∧ is_disk s' = is_disk s ∧ ∃ ks specs, ks ≡ₚ (map_to_list (a_imgs a)).*1 ∧
    r.2 = omap (λ k, i ← a_imgs a !! k; summary_of i (specs k)) ks) s.
Proof.
  intros [Hf (G & N & D & Hr)] Hw Hm Hio Hd. set (Q := λ (l : list image_summary), ∃ ks specs, ks ≡ₚ (map_to_list (a_imgs a)).*1 ∧ l = omap (λ k, i ← a_imgs a !! k; summary_of i (specs k)) ks).
  apply wp_locked; [apply (rp_ready Hr)|done|intros Hno; destruct Hno; auto with world|]. cbn zeta. set (s1 := set_lock Wr s). assert (Hend : ∀ l, Q l → is_lock s1 = Wr ∧ 0 = 0 ∧ good (set_lock Free s1) a ∧ is_disk (set_lock Free s1) = is_disk s ∧ Q l).
  { intros l Hl. split_and!; [done..| |done|done]. split; [done|]. exists G, N, D. by do 2 apply rep_lock. }
  apply wp_bind, wp_get. change (is_len s1) with (is_len s). change (is_list s1) with (is_list s). rewrite (listed_length _ _ _ _ _ _ _ Hr Hw). pose proof (listed_ids _ _ _ _ _ _ _ Hr Hw) as Hids.
  destruct (Z.eqb_spec (Z.of_nat (length (is_list s))) 0) as [Hz|_].
  { apply wp_ret, Hend. exists [], (λ _, None). split; [|done]. destruct (is_list s); [done|cbn in Hz; lia]. }
  rewrite alloc_ok by auto with world. cbn [negb]. apply wp_bind. eapply wp_mono; [apply summaries_ok; [|auto with world]|].
  { intros p (k & Hk)%(rp_list Hr). destruct (image_known _ _ _ _ _ _ _ _ _ Hr Hw Hd Hk) as (im & i & Hp & Hi & _ & Hn & Hkd). by exists im, i. }
  cbn beta. intros l s' [-> ->]. rewrite decide_False by (pose proof (omap_short (λ p, im ← is_imgs s1 !! p; i ← im_simage im; summary_of i (im_spec im)) (is_list s)); lia).
  apply wp_ret, Hend. exists (id_of s <$> is_list s), (λ k, G !! k ≫= λ p, is_imgs s !! p ≫= im_spec). split; [done|]. apply omap_along.
  intros p (k & Hk)%(rp_list Hr). rewrite (id_of_ok _ _ _ _ _ _ _ _ _ Hr Hw Hk), Hk. destruct (rp_obj Hr k p Hk) as (im & i & Hp & Hi & Ha). change (is_imgs s1) with (is_imgs s).
  rewrite Ha, Hp. cbn [mbind option_bind]. rewrite Hi, Hp. done.
Qed.

Lemma one_summary_ok bound s a w ref :
  good s a → awf bound a → mem_all w → io_all w → (∀ k i, a_imgs a !! k = Some i → known_digest i) →
  wp (one_summary w (Some ref)) (λ r s', good s' a ∧ is_disk s' = is_disk s ∧
    match find_ref default_host a ref with None => r = None | Some k => ∃ i sp, a_imgs a !! k = Some i ∧ r = summary_of i sp end) s.
Proof.
  intros [Hf (G & N & D & Hr)] Hw Hm Hio Hd. unfold one_summary, image_store_get_image_summary, report. apply wp_bind, wp_bind, wp_get, wp_ret. rewrite (rp_ready Hr). cbn [negb].
  apply wp_bind. unfold image_store_lock, wp at 1. rewrite io_ok, Hf by auto with world. cbn [negb]. pose proof (rep_lock _ _ _ _ _ _ (Rd 1) Hr) as Hr1.
  apply wp_bind. eapply wp_mono; [eapply image_lookup_ok; [done..|auto with world|cbn; lia]|]. cbn beta. intros img s1 [[Hl1 Hd1] H]. destruct (find_ref default_host a ref) as [k|].
  - destruct H as (p & Hk & -> & Hr2). destruct (image_known _ _ _ _ _ _ _ _ _ Hr2 Hw Hd Hk) as (im & i & Hp & Hi & Ha & Hn & Hkd).
    apply wp_bind. eapply wp_mono; [by eapply summary_ok; auto with world|]. cbn beta. intros r s2 [-> ->]. apply wp_bind. unfold image_store_unlock, wp at 1. rewrite Hl1. cbn [is_lock set_lock].
    apply wp_bind. eapply wp_mono; [eapply ref_dec_ok; [by apply rep_lock|done]|]. cbn beta. intros [] s3 (Hr3 & [Hl3 Hd3] & _). apply wp_ret. split; [split; [done|by exists G, N, D]|]. split; [by rewrite Hd3|]. by exists i, (im_spec im).
  - destruct H as [-> ->]. apply wp_bind, wp_ret, wp_bind. unfold image_store_unlock, wp at 1. cbn [is_lock set_lock]. apply wp_bind, wp_ret, wp_ret. split_and!; [|done|done]. split; [done|]. exists G, N, D. by do 2 apply rep_lock.
Qed.

End reports.

(** ** Data *)
Section data.
Context {MT : Type} {SM : StrMap ptr MT}.
Context (generate_json : storage_image → option string) (parse_spec : string → option oci_image_spec).
Context (sha256_digest_str : string → cstr) (base64 : string → option string).
Context (append_json_map_string_int64 : list (cstr * Z) → cstr → Z → list (cstr * Z)).
Context (append_json_map_string_string : list (cstr * cstr) → cstr → cstr → list (cstr * cstr)).
Context (default_host : option string) (dir : string).
Implicit Types (s : image_state MT) (a : astore) (w : world).

Lemma wp_reader {A} bound s a w0 w1 ref k i (error : A) f (R : A → Prop) :
  good s a → awf bound a → io_all w0 → mem_all w1 → find_ref default_host a ref = Some k → a_imgs a !! k = Some i →
  (∀ p im s1, is_imgs s1 !! p = Some im → im_simage im = Some i → is_disk s1 = is_disk s → wp (f p) (λ r s2, s2 = s1 ∧ R r) s1) →
  wp (locked w0 false error (with_image default_host w1 ref error f)) (λ r s', good s' a ∧ is_disk s' = is_disk s ∧ R r) s.
Proof.
  intros [Hl (G & N & D & Hr)] Hw Hio Hm Href Ha Hf. apply wp_locked; [apply (rp_ready Hr)|done|done|]. cbn zeta. eapply wp_with_image; [by apply rep_lock|done|done|congruence|].
  intros k' p s1 Hk HG Hr1 [Hl1 Hd1]. assert (k' = k) as -> by congruence. destruct (rp_obj Hr1 k p HG) as (im & i' & Hp & Hi & Ha'). assert (i' = i) as -> by congruence.
  eapply wp_mono; [by eapply Hf|]. cbn beta. intros r s2 [-> HR]. left. exists G, N, D, a, bound. split; [done|]. split; [done|]. intros s3 Hr3 [Hl3 Hd3]. cbn in *. split; [congruence|].
  split; [by eapply good_unlock|]. split; [congruence|done].
Qed.

(** Everything that is told of data. *)
Definition read_data w (k key : cstr) : M (image_state MT) (option string * Z * option cstr) :=
  d ← image_store_big_data base64 default_host dir (sub 0 w) (Some k) (Some key);
  z ← image_store_big_data_size generate_json parse_spec sha256_digest_str base64 append_json_map_string_int64 append_json_map_string_string default_host dir (sub 1 w) (Some k) (Some key);
  h ← image_store_big_data_digest generate_json parse_spec sha256_digest_str base64 append_json_map_string_int64 append_json_map_string_string default_host dir (sub 2 w) (Some k) (Some key);
  mret (d, z, h).

(** What is read of an image with recorded data. *)
Lemma read_data_ok bound s a w k i key data size digest :
  good s a → awf bound a → mem_all w → io_all w → a_imgs a !! k = Some i → cstr_s key ≠ "" → data_in dir base64 (is_disk s) k key data →
  assoc (default [] (si_data_sizes i)) key = Some size → assoc (default [] (si_data_digests i)) key = Some digest →
  wp (read_data w k key) (λ r s', good s' a ∧ is_disk s' = is_disk s ∧ r = (Some data, size, Some digest)) s.
Proof.
  intros Hg Hw Hm Hio Ha Hkey (name & files & Hname & Hfiles & Hdata) Hsize Hdigest. assert (Hk : nonempty_key (Some key) = Some key) by (cbn; by rewrite (proj2 (String.eqb_neq _ _) Hkey)).
  assert (Href : find_ref default_host a k = Some k) by (unfold find_ref; by rewrite Ha). assert (Hid : si_id i = k) by (by apply (wf_id bound a Hw)).
  apply wp_bind. unfold image_store_big_data. rewrite Hk. eapply wp_mono; [eapply (wp_reader bound s a _ _ k k i _ _ (λ r, r = Some data)); auto with world|].
  { intros p im s1 Hp Hi Hd1. apply wp_bind. eapply wp_ld_simage; [done..|]. rewrite Hid, data_file_ok, Hname by auto with world. rewrite io_ok by auto with world. cbn [negb]. apply wp_bind, wp_get, wp_ret.
    split; [done|]. rewrite Hd1, Hfiles. done. }
  cbn beta. intros d s1 (Hg1 & Hd1 & ->). apply wp_bind. unfold image_store_big_data_size. rewrite Hk. apply wp_bind. eapply wp_mono; [eapply (wp_reader bound s1 a _ _ k k i _ _ (λ r, r = Some (Some size))); auto with world|].
  { intros p im s2 Hp Hi _. apply wp_bind. eapply wp_ld_simage; [done..|]. apply wp_bind. destruct (si_data_sizes i); [|done]. cbn in Hsize. do 2 apply wp_ret. by rewrite Hsize. }
  cbn beta. intros z s2 (Hg2 & Hd2 & ->). apply wp_ret, wp_bind. unfold image_store_big_data_digest. rewrite Hk. apply wp_bind. eapply wp_mono; [eapply (wp_reader bound s2 a _ _ k k i _ _ (λ r, r = Some (Some digest))); auto with world|].
  { intros p im s3 Hp Hi _. apply wp_bind, wp_bind. eapply wp_ld_simage; [done..|]. do 2 apply wp_ret. split; [done|]. unfold get_value_from_json_map_string_string. destruct (si_data_digests i); [|done]. cbn in Hdigest |- *. by rewrite Hdigest. }
  cbn beta. intros h s3 (Hg3 & Hd3 & ->). apply wp_ret, wp_ret. split; [done|]. split; [congruence|done].
Qed.

Context (Happ_int : ∀ m k v, append_json_map_string_int64 m k v = m ++ [(k, v)]).
Context (Happ_string : ∀ m k v, append_json_map_string_string m k v = m ++ [(k, v)]).
Context (Hsha : ∀ data, (String.length (cstr_s (sha256_digest_str data)) ≤ 64)%nat).

Lemma update_int_lookup (m : list (cstr * Z)) key z : is_Some (assoc m key) → assoc (update_json_map_string_int64 m key z) key = Some z.
Proof.
  intros [z0 Hz]. induction m as [|[k v] m IH]; [done|]. cbn in Hz |- *. destruct (decide (key = k)) as [->|Hne]; cbn; [by rewrite decide_True|]. rewrite decide_False by done. by apply IH.
Qed.

Lemma set_size_lookup m key z : assoc (default [] (set_size m key z)) key = Some z.
Proof.
  unfold set_size. change (default [] (Some ?x)) with x. destruct (assoc (default [] m) key) eqn:E; [apply update_int_lookup; by eexists|]. by rewrite assoc_app, decide_True.
Qed.

Let set_data w (k key : cstr) (data : string) : M (image_state MT) Z :=
  image_store_set_big_data generate_json parse_spec sha256_digest_str base64 append_json_map_string_int64 append_json_map_string_string default_host dir w (Some k) (Some key) (Some data).

Lemma store_data_ok bound s a w k key data :
  good s a → awf bound a → mem_all w → is_Some (a_imgs a !! k) → cstr_s key ≠ "" → data ≠ "" → data_file dir base64 k key ≠ Some IMAGE_JSON →
  wp (set_data w k key data) (λ r s', r = 0 ∧ good s' (data_added sha256_digest_str k key data a) ∧ data_in dir base64 (is_disk s') k key data ∨
    r = -1 ∧ ¬ (ideal generate_json dir w a ∧ is_Some (data_file dir base64 k key)) ∧ (good s' a ∨ good s' (data_added sha256_digest_str k key data a))) s.
Proof.
  intros [Hl (G & N & D & Hr)] Hw Hm [i Ha] Hkey Hdata Hname. unfold set_data, image_store_set_big_data, nonempty_key. cbn [mbind option_bind]. rewrite (proj2 (String.eqb_neq _ _) Hkey).
  assert (Href : find_ref default_host a k = Some k) by (unfold find_ref; by rewrite Ha). apply wp_locked; [apply (rp_ready Hr)|done| |].
  { intros Hio. right. split; [done|]. split; [intros [(H & _) _]; by destruct Hio; auto with world|]. left. split; [done|by exists G, N, D]. }
  cbn zeta. eapply wp_with_image; [by apply rep_lock|done|auto with world|congruence|]. intros k' p s1 Hk HG Hr1 [Hl1 Hd1]. assert (k' = k) as -> by congruence. cbn in Hl1, Hd1.
  eapply wp_mono; [by eapply (do_set_data_ok generate_json parse_spec dir sha256_digest_str base64 append_json_map_string_int64 append_json_map_string_string); auto with world|]. cbn beta zeta.
  intros r s2 [Hl2 [(-> & Hr2 & Hn)|((D' & Hr2) & Hr01 & _ & _ & Hin)]]; left.
  - exists G, N, D, a, bound. split; [done|]. split; [done|]. intros s3 Hr3 [Hl3 Hd3]. split; [congruence|]. right. split; [done|]. split; [intros [[H1 H2] H3]; apply Hn; split; [split; auto with world|done]|]. left. by eapply good_unlock.
  - exists G, N, D', (data_added sha256_digest_str k key data a), bound. split; [done|]. split; [by apply awf_data with i|]. intros s3 Hr3 [Hl3 Hd3]. split; [congruence|].
    destruct Hr01 as [->|[-> Hn]]; [left|right; split; [done|]].
    + split_and!; [done|by eapply good_unlock|]. cbn. rewrite Hd3. by apply Hin.
    + split; [intros [[H1 H2] H3]; apply Hn; split; auto with world|]. right. by eapply good_unlock.
Qed.

(** Storing data, and reading it back with its size and digest. *)
Definition store_and_read w w' (k key : cstr) (data : string) : M (image_state MT) (option (option string * Z * option cstr)) :=
  ret ← set_data w k key data;
  if decide (ret ≠ 0) then mret None else
  r ← read_data w' k key;
  mret (Some r).

End data.

(** ** Examples *)
Section examples.
Let id : cstr := cstr_of "1a".
Let img : storage_image :=
  mk_simage id (Some (cstr_of "sha256:0")) [cstr_of "busybox:latest"] None None (Some "now") None 7 [cstr_of "x"] (Some [(cstr_of "x", 1)]) (Some [(cstr_of "x", cstr_of "sha256:0")]).
Let one : astore := mk_astore {[id := img]} ∅.
Let maps := str_ptr_map (P := ptr) true.
Let flags := str_bool_map (P := ptr) true.

(** A store with the image [i]. *)
Definition store_with (i : storage_image) (byid byname bydigest : map_t ptr MAP_STR_PTR) : image_state (map_t ptr MAP_STR_PTR) :=
  mk_ist true Free [1%N] 1 byid byname bydigest true {[1%N := mk_image (Some i) None 1]} ∅ 2%N ∅.

Lemma one_ok : awf 1 one.
Proof. apply (awf_one img); [cbn; lia| |by eexists|apply NoDup_singleton]. repeat constructor. unfold short. rewrite max_items_eq. cbn. lia. Qed.

Lemma one_good : ∃ s : image_state (map_t ptr MAP_STR_PTR), good (SM := maps) s one.
Proof.
  destruct (one_entry (SM' := maps) id 1%N) as [byid Hid]. destruct (one_entry (SM' := maps) (cstr_of "busybox:latest") 1%N) as [byname Hname].
  pose proof (sm_new_ok (StrMap := maps) true true true) as Hd. destruct (sm_new true true true) as [bydigest|]; [|done]. exists (store_with img byid byname bydigest). split; [done|].
  assert (H1 : ∀ (k : cstr) (p : ptr), ({[id := 1%N]} : gmap cstr ptr) !! k = Some p → k = id ∧ p = 1%N) by (intros k p; by intros [<- <-]%lookup_singleton_Some).
  exists {[id := 1%N]}, {[cstr_of "busybox:latest" := 1%N]}, ∅. split; unfold store_with; cbn [is_ready is_byid is_byname is_bydigest is_list is_len is_imgs is_digs is_next a_imgs a_digs one]; try done.
  - apply Hd.
  - intros k [i [<- <-]%lookup_singleton_Some]. rewrite lookup_singleton_eq. by eexists.
  - intros k p [-> ->]%H1. eexists _, img. rewrite !lookup_singleton_eq. done.
  - intros n p. rewrite lookup_singleton_Some. split; [intros [<- <-]; exists id, img; rewrite !lookup_singleton_eq; split_and!; [done..|by left]|].
    intros (k & i & [-> ->]%H1 & Hi & Hn). rewrite lookup_singleton_eq in Hi. injection Hi as <-. cbn in Hn. by apply list_elem_of_singleton in Hn as ->.
  - apply NoDup_singleton.
  - intros p. rewrite list_elem_of_singleton. split; [intros ->; exists id; apply lookup_singleton_eq|by intros (k & [_ ->]%H1)].
  - intros p. rewrite list_elem_of_singleton. split; [intros [i [<- _]%lookup_singleton_Some]; by left|]. intros [->|?%not_elem_of_nil]; [|done]. rewrite lookup_singleton_eq. by eexists.
  - intros p im [<- <-]%lookup_singleton_Some. done.
  - cbn. lia.
  - intros p [[i [<- _]%lookup_singleton_Some]|[? ?]]; [lia|done].
Qed.

Let append {V} (m : list (cstr * V)) (k : cstr) (v : V) : list (cstr * V) := m ++ [(k, v)].
Let sha (data : string) : cstr := cstr_of "0".



(** The allocation of the record of data fails. *)
Definition no_record : world := mk_world (λ n, negb (Nat.eqb n 196)) (λ _, true) (λ files, files).

End examples.
