(* ===== verification/ImageRestart.v ===== *)
(** * Restarting with a store of images

    What the files have is loaded: the images of a store whose files are up to
    date are there again after a restart, under the same names, and found by
    their digests. *)
From stdpp Require Import base gmap list fin_maps numbers strings.
From Stdlib Require Import ZArith Lia Ascii.
From S2P Require Import Prelude CString Regex Array RbTree Map StrMap Convert StringUtil Verify Path SymlinkScope IdNameManager ImageName ImageStore ImageSpec ImageLoad ContainersStore ImageCorrect ImageChange ImageUpdate ImageData ImageHistory.

Local Open Scope Z_scope.

(** ** The abstract store *)
Section spec.
Context (signed : bool) (default_host : option string).
Implicit Types (a b : astore).

(** An image as it is loaded. *)
Definition restore (i : storage_image) : storage_image := match default_host with None => i | Some _ => with_names (the_names signed (si_names i)) i end.

(** The lists with an image that is loaded. *)
Definition index_image (i : storage_image) (ad : gmap cstr (list cstr)) : gmap cstr (list cstr) :=
  match si_data_digests i with
  | None => ad
  | Some _ => let ad := dig_add (si_id i) (manifest_of i) ad in if decide (manifest_of i = si_digest i) then ad else dig_add (si_id i) (si_digest i) ad
  end.

(** The directories [dirs] of the images of [a] are loaded. *)
Definition reload_one a b (d : string) : astore :=
  match a_imgs a !! cstr_of d with
  | None => b
  | Some i => mk_astore (<[cstr_of d := restore i]> (a_imgs b)) (index_image (restore i) (a_digs b))
  end.
Definition reload a (dirs : list string) : astore := foldl (reload_one a) (mk_astore ∅ ∅) dirs.

Lemma restore_same i : si_id (restore i) = si_id i ∧ si_digest (restore i) = si_digest i ∧ si_data_digests (restore i) = si_data_digests i.
Proof. unfold restore. by destruct default_host. Qed.

Lemma restore_names bound a k i : awf bound a → a_imgs a !! k = Some i → NoDup (si_names (restore i)) ∧ (∀ n, n ∈ si_names (restore i) ↔ n ∈ si_names i) ∧ (length (si_names (restore i)) ≤ length (si_names i))%nat.
Proof.
  intros Hw Hi. destruct (wf_names bound a Hw k i Hi) as (Hnd & _ & Hl). destruct (wf_size bound a Hw) as [_ Hb]. unfold restore. destruct default_host; [|done]. apply the_names_spec. lia.
Qed.

Lemma index_Some i ad d ks : index_image i ad !! d = Some ks → ad !! d = Some ks ∨ d ∈ digests_of i ∧ ks = default [] (ad !! d) ++ [si_id i].
Proof.
  unfold index_image. destruct (si_data_digests i) as [x|]; [|by left]. cbn zeta. assert (Hadd : ∀ ad0 dd ks0, (dig_add (si_id i) dd ad0) !! d = Some ks0 → (ad0 !! d = Some ks0 ∧ dd ≠ Some d) ∨ (dd = Some d ∧ ks0 = default [] (ad0 !! d) ++ [si_id i])).
  { intros ad0 [dd|] ks0; cbn; [|by left]. intros [[-> <-]|[Hne H]]%lookup_insert_Some; [by right|]. left. split; [done|congruence]. }
  rewrite digests_of_elem. destruct (decide (manifest_of i = si_digest i)) as [He|Hne].
  - intros [[H _]|[Hd ->]]%Hadd; [by left|]. right. split; [by right|done].
  - intros [[[[H _]|[Hd ->]]%Hadd Hs]|[Hs Hks]]%Hadd; [by left|right; split; [by right|done]|]. right. split; [by left|]. rewrite Hks. destruct (manifest_of i) as [m|]; [|done]. cbn. by rewrite lookup_insert_ne by congruence.
Qed.

(** The directories are those of images of [a]. *)
Definition dirs_of a (dirs : list string) : Prop := NoDup dirs ∧ ∀ d, d ∈ dirs → ∃ k, d = cstr_s k ∧ is_Some (a_imgs a !! k).

Lemma reload_snoc a pre d : reload a (pre ++ [d]) = reload_one a (reload a pre) d.
Proof. unfold reload. by rewrite foldl_app. Qed.

Lemma reload_imgs a pre k i : dirs_of a pre → a_imgs (reload a pre) !! k = Some i ↔ cstr_s k ∈ pre ∧ ∃ i0, a_imgs a !! k = Some i0 ∧ i = restore i0.
Proof.
  induction pre as [|d pre IH] using rev_ind; [intros _; split; [done|intros [H _]; by apply not_elem_of_nil in H]|]. intros [Hnd Hd]. rewrite reload_snoc. apply NoDup_app in Hnd as (Hnd & _ & _).
  destruct (Hd d) as (kd & -> & id & Hid); [rewrite elem_of_app, list_elem_of_singleton; by right|]. assert (Hpre : dirs_of a pre) by (split; [done|]; intros d Hin; apply Hd; rewrite elem_of_app; by left). specialize (IH Hpre).
  unfold reload_one. rewrite cstr_of_s, Hid. cbn [a_imgs]. rewrite elem_of_app, list_elem_of_singleton, lookup_insert_Some, IH. split.
  - intros [[<- <-]|[Hne [Hin Hi]]]; [split; [by right|by exists id]|split; [by left|done]].
  - intros [[Hin|Hk] (i0 & Hi0 & ->)]; [|left; apply (inj cstr_s) in Hk; split; [done|congruence]]. destruct (decide (kd = k)) as [->|Hne]; [left; split; [done|congruence]|]. right. split; [done|]. split; [done|by exists i0].
Qed.

Lemma reload_digs bound a pre : awf bound a → dirs_of a pre → ∀ d ks, a_digs (reload a pre) !! d = Some ks → ks ≠ [] ∧ NoDup ks ∧ ∀ x, x ∈ ks → ∃ i, a_imgs (reload a pre) !! x = Some i ∧ d ∈ digests_of i.
Proof.
  intros Hw. induction pre as [|dd pre IH] using rev_ind; [done|]. intros Hdirs. pose proof Hdirs as [Hnd Hd]. apply NoDup_app in Hnd as (Hnd & Hfresh & _).
  destruct (Hd dd) as (kd & -> & id & Hid); [rewrite elem_of_app, list_elem_of_singleton; by right|]. assert (Hpre : dirs_of a pre) by (split; [done|]; intros d Hin; apply Hd; rewrite elem_of_app; by left). specialize (IH Hpre).
  assert (Hnew : a_imgs (reload a pre) !! kd = None) by (apply eq_None_not_Some; intros [x [Hin _]%(reload_imgs a pre kd x Hpre)]; apply (Hfresh _ Hin); by left).
  rewrite reload_snoc. unfold reload_one. rewrite cstr_of_s, Hid. cbn [a_imgs a_digs]. destruct (restore_same id) as (Hri & _). rewrite (wf_id bound a Hw kd id Hid) in Hri.
  assert (Hkeep : ∀ d x, (∃ i, a_imgs (reload a pre) !! x = Some i ∧ d ∈ digests_of i) → ∃ i, <[kd := restore id]> (a_imgs (reload a pre)) !! x = Some i ∧ d ∈ digests_of i) by (intros d x (i & Hi & Hdi); exists i; rewrite lookup_insert_ne; [done|]; intros <-; congruence).
  intros d ks [H|[Hdi ->]]%index_Some; [destruct (IH d ks H) as (? & ? & Hin); split_and!; [done..|]; intros x Hx; by apply Hkeep, Hin|]. rewrite Hri. split; [by destruct (default [] _)|].
  assert (Hold : NoDup (default [] (a_digs (reload a pre) !! d)) ∧ ∀ x, x ∈ default [] (a_digs (reload a pre) !! d) → ∃ i, a_imgs (reload a pre) !! x = Some i ∧ d ∈ digests_of i).
  { destruct (a_digs (reload a pre) !! d) as [ks|] eqn:E; cbn; [destruct (IH d ks E) as (_ & ? & ?); done|]. split; [constructor|]. intros x Hx. by apply not_elem_of_nil in Hx. }
  destruct Hold as [Hndo Hino]. split.
  - apply NoDup_app. split; [done|]. split; [|apply NoDup_singleton]. intros x (i & Hi & _)%Hino. rewrite list_elem_of_singleton. intros ->. congruence.
  - intros x. rewrite elem_of_app, list_elem_of_singleton. intros [Hx| ->]; [by apply Hkeep, Hino|]. exists (restore id). by rewrite lookup_insert_eq.
Qed.

Lemma awf_reload bound a pre : awf bound a → dirs_of a pre → awf bound (reload a pre).
Proof.
  intros Hw Hd. pose proof (λ k i, reload_imgs a pre k i Hd) as Him. split.
  - destruct (wf_size bound a Hw) as [Hs Hb]. split; [|done]. assert (size (a_imgs (reload a pre)) ≤ size (a_imgs a))%nat; [|lia]. rewrite <- !size_dom. apply subseteq_size. intros k [i [_ (i0 & Hi0 & _)]%Him]%elem_of_dom. by apply elem_of_dom_2 in Hi0.
  - intros k i [_ (i0 & Hi0 & ->)]%Him. destruct (restore_same i0) as [-> _]. by apply (wf_id bound a Hw).
  - intros k i [_ (i0 & Hi0 & ->)]%Him. destruct (restore_names bound a k i0 Hw Hi0) as (H1 & H2 & H3). destruct (wf_names bound a Hw k i0 Hi0) as (_ & Hf & Hl). split_and!; [done| |lia]. rewrite list.Forall_forall in *. intros n Hn%H2. by apply Hf.
  - intros k1 k2 i1 i2 n [_ (j1 & Hj1 & ->)]%Him [_ (j2 & Hj2 & ->)]%Him Hn1 Hn2. destruct (restore_names bound a k1 j1 Hw Hj1) as (_ & H1 & _). destruct (restore_names bound a k2 j2 Hw Hj2) as (_ & H2 & _).
    eapply (wf_owner bound a Hw); [exact Hj1|exact Hj2|by apply H1|by apply H2].
  - intros k i [_ (i0 & Hi0 & ->)]%Him. destruct (restore_same i0) as (_ & -> & ->). by apply (wf_digest bound a Hw k).
  - by eapply reload_digs.
Qed.
End spec.

(** ** Loading an image *)
Section loading.
Context {MT : Type} {SM : StrMap ptr MT} (signed : bool) (default_host : option string) (dir : string).
Context (generate_json : storage_image → option string) (parse_file : string → option storage_image) (parse_spec : string → option oci_image_spec).
Context (parse_manifest_v2 parse_manifest_oci : string → bool) (parse_manifest_v1 : string → option Z) (parse_config_v2 : string → bool) (base64 : string → option string).
Implicit Types (s : image_state MT) (a b : astore) (G N D : gmap cstr ptr).

Lemma load_names_ok w p im i N dn todo fuel s :
  is_imgs s !! p = Some im → im_simage im = Some i → si_names i = dn ++ todo → NoDup todo → (∀ n, n ∈ todo → N !! n = None) → sm_models (is_byname s) N → mem_all w → (length todo < fuel)%nat →
  wp (load_names w p fuel (length dn) false) (λ r s', r = Some false ∧ ∃ m N', s' = set_byname m s ∧ sm_models m N' ∧ names_to todo p N N') s.
Proof.
  revert w N dn fuel s. induction todo as [|n todo IH]; intros w N dn fuel s Hp Hi Hn Hnd Hfree Hm Hw Hfuel; (destruct fuel as [|fuel]; [cbn in Hfuel; lia|]); cbn [load_names]; apply wp_bind; (eapply wp_ld_simage; [done..|]); rewrite Hn.
  - rewrite app_nil_r, lookup_ge_None_2 by done. apply wp_ret. split; [done|]. exists (is_byname s), N. split; [by destruct s|]. split; [done|]. intros n. rewrite decide_False; [done|]. apply not_elem_of_nil.
  - rewrite list_lookup_middle by done. apply NoDup_cons in Hnd as [Hx Hnd]. apply wp_bind. eapply wp_byname_search; [done|]. rewrite (Hfree n) by (by left). cbn [remove_name]. apply wp_bind, wp_ret. rewrite decide_False by lia.
    apply wp_bind. eapply wp_ld_simage; [done..|]. rewrite Hn, list_lookup_middle by done. apply wp_bind, wp_byname. eapply wp_mono; [by apply sm_replace_ok|]. cbn beta. intros ok m (Hok & _ & Hm' & _).
    rewrite map_room_ok, sm_room_ok in Hok by auto with world. rewrite Hok in * by done. cbn [negb]. rewrite bool_decide_false by (by intros [? [=]]). cbn [orb].
    replace (S (length dn)) with (length (dn ++ [n])) by (rewrite length_app; cbn; lia). eapply wp_mono; [eapply (IH (sub 2 w) (<[n := p]> N) (dn ++ [n]) fuel); try done|].
    + by rewrite <- app_assoc.
    + intros x Hxt. rewrite lookup_insert_ne by (intros <-; done). apply Hfree. by right.
    + auto with world.
    + cbn in Hfuel. lia.
    + cbn beta. intros r s' (-> & m' & N' & -> & Hm2 & HN'). split; [done|]. exists m', N'. split; [done|]. split; [done|]. intros x. rewrite (HN' x). destruct (decide (x = n)) as [->|Hne].
      * rewrite lookup_insert_eq, (decide_True (P := n ∈ n :: todo)) by (by left). by case_decide.
      * rewrite lookup_insert_ne by done. rewrite (decide_ext (x ∈ n :: todo) (x ∈ todo)); [done|]. rewrite elem_of_cons. naive_solver.
Qed.

Lemma index_assoc (m : list (cstr * cstr)) key j :
  match get_index_by_key m.*1 key j with Some x => (j ≤ x)%nat ∧ m.*2 !! (x - j)%nat = assoc m key ∧ is_Some (assoc m key) | None => assoc m key = None end.
Proof.
  revert j. induction m as [|[k v] m IH]; intros j; [done|]. rewrite !fmap_cons. cbn [fst snd get_index_by_key assoc].
  destruct (decide (key = k)); [rewrite Nat.sub_diag; split_and!; [lia|done|by eexists]|]. specialize (IH (S j)). destruct (get_index_by_key m.*1 key (S j)) as [x|]; [|done]. destruct IH as (H1 & H2 & H3). split_and!; [lia| |done].
  destruct x as [|x]; [lia|]. replace (S x - j)%nat with (S (S x - S j)) by lia. done.
Qed.

Lemma index_manifest i digests : si_data_digests i = Some digests → (get_index_by_key digests.*1 IMAGE_DIGEST_BIG_DATA_KEY 0 ≫= λ x, digests.*2 !! x) = manifest_of i.
Proof.
  intros Hd. unfold manifest_of, get_value_from_json_map_string_string. rewrite Hd. cbn. pose proof (index_assoc digests IMAGE_DIGEST_BIG_DATA_KEY 0) as H. destruct (get_index_by_key _ _ _) as [x|]; cbn; [|done].
  destruct H as (_ & H & _). by rewrite Nat.sub_0_r in H.
Qed.

(** The index by digest stands for [ad], and nothing else has changed. *)
Definition indexed G s (ad : gmap cstr (list cstr)) s' : Prop := ∃ m D digs next, s' = set_next next (set_digs digs (set_bydigest m s)) ∧
  (is_next s ≤ next)%N ∧ sm_models m D ∧ drep G D digs ad ∧ ∀ q, is_Some (digs !! q) → (q < next)%N.

Lemma indexed_trans G s1 s2 s3 ad1 ad2 : indexed G s1 ad1 s2 → indexed G s2 ad2 s3 → indexed G s1 ad2 s3.
Proof.
  intros (m1 & D1 & g1 & n1 & -> & Hn1 & _) (m2 & D2 & g2 & n2 & -> & Hn2 & Hm2 & Hd2 & Hq2). exists m2, D2, g2, n2. split; [done|]. split; [cbn in Hn2; lia|done].
Qed.

Lemma add_indexed G s ad w p k d :
  indexed G s ad s → G !! k = Some p → mem_all w → wp (append_image_according_to_digest w d p) (λ r s', r = 0 ∧ indexed G s (dig_add k d ad) s') s.
Proof.
  intros Hs Hk Hw. destruct d as [d|]; [|by apply wp_ret]. destruct Hs as (m & D & digs & next & He & Hn & Hm & Hd & Hq).
  assert (Hm' : is_bydigest s = m) by (rewrite He; done). assert (Hd' : is_digs s = digs) by (rewrite He; done). assert (Hn' : is_next s = next) by (rewrite He; done). subst.
  by eapply digest_add_ok.
Qed.

Lemma indexed_self G s ad s' : indexed G s ad s' → indexed G s' ad s'.
Proof. intros (m & D & digs & next & -> & Hn & H). exists m, D, digs, next. split; [done|]. split; [done|done]. Qed.

Lemma implicit_ok G s ad w p im i :
  indexed G s ad s → G !! si_id i = Some p → is_imgs s !! p = Some im → im_simage im = Some i → mem_all w →
  wp (implicit_digest w p) (λ r s', r = 0 ∧ indexed G s (match si_data_digests i with None => ad | Some _ => dig_add (si_id i) (manifest_of i) ad end) s') s.
Proof.
  intros Hs Hk Hp Hi Hw. unfold implicit_digest. apply wp_bind. eapply wp_ld_simage; [done..|]. destruct (si_data_digests i) as [digests|] eqn:Ed; [|by apply wp_ret]. pose proof (index_manifest i digests Ed) as Hman.
  pose proof (index_assoc digests IMAGE_DIGEST_BIG_DATA_KEY 0) as Hx. destruct (get_index_by_key _ _ _) as [x|]; cbn in Hman; [|rewrite <- Hman; by apply wp_ret]. destruct Hx as (_ & Hx & v & Hv). rewrite Nat.sub_0_r, Hman, Hv in Hx.
  rewrite Hman, Hx. apply wp_bind. eapply wp_mono; [by eapply add_indexed|]. cbn beta. intros r s' [-> H]. apply wp_ret. by rewrite decide_False by lia.
Qed.

Lemma explicit_ok G s ad w p im i d :
  indexed G s ad s → G !! si_id i = Some p → is_imgs s !! p = Some im → im_simage im = Some i → mem_all w → si_digest i = Some d →
  wp (explicit_digest w p) (λ r s', r = 0 ∧ indexed G s (match si_data_digests i with None => ad | Some _ => if decide (manifest_of i = si_digest i) then ad else dig_add (si_id i) (si_digest i) ad end) s') s.
Proof.
  intros Hs Hk Hp Hi Hw Hd. unfold explicit_digest. apply wp_bind. eapply wp_ld_simage; [done..|]. destruct (si_data_digests i) as [digests|] eqn:Ed; [|by apply wp_ret]. rewrite (index_manifest i digests Ed), Hd.
  destruct (decide (manifest_of i = Some d)); [by apply wp_ret|]. apply wp_bind. eapply wp_mono; [by eapply add_indexed|]. cbn beta. intros r s' [-> H]. apply wp_ret. by rewrite decide_False by lia.
Qed.

(** Every image of the heap has its specification. *)
Definition specs s : Prop := ∀ p im, is_imgs s !! p = Some im → is_Some (im_spec im).

Lemma do_append_ok bound G N D s b w i d :
  rep [] G N D s b → awf bound b → mem_all w → a_imgs b !! si_id i = None → si_digest i = Some d → NoDup (si_names i) → (∀ n, n ∈ si_names i → owner (a_imgs b) n = None) →
  has_config dir parse_spec base64 (is_disk s) (si_id i) → specs s →
  wp (do_append_image generate_json parse_spec base64 dir w i) (λ r s', r.1 = 0 ∧ calm s s' ∧ specs s' ∧ ∃ G' N' D', rep [] G' N' D' s' (mk_astore (<[si_id i := i]> (a_imgs b)) (index_image i (a_digs b)))) s.
Proof.
  intros Hr Hw Hm Hk Hd Hnd Hfree Hcfg Hsp. unfold do_append_image. apply wp_bind. eapply wp_mono; [eapply new_image_ok; [done..|auto with world|cbn; lia]|]. cbn beta.
  intros r s1 (p & im & -> & Hr1 & [Hl1 Hd1] & Hnl & _ & Hp & Hi & Hheap & Hspec). specialize (Hspec Hcfg). rewrite alloc_ok by auto with world. cbn [negb].
  pose proof (proj1 (unknown _ _ _ _ _ _ _ Hr1) Hk) as HG. apply wp_bind, wp_modify, wp_bind. unfold load_image_to_store_field. apply wp_bind. eapply wp_ld_simage; [exact Hp|exact Hi|].
  apply wp_bind, wp_byid. eapply wp_mono; [by apply sm_replace_ok, (rp_id Hr1)|]. cbn beta. intros ok m1 (Hok & _ & Hm1 & _). rewrite map_room_ok, sm_room_ok in Hok by auto with world. rewrite Hok in * by done. cbn [negb].
  apply wp_bind. eapply wp_mono; [apply (load_names_ok _ p im i N [] (si_names i)); [exact Hp|done|done|done| |apply (rp_name Hr1)|auto with world|lia]|].
  { intros n Hn. apply eq_None_not_Some. rewrite (named bound _ _ _ _ _ _ n Hr1 Hw), (Hfree n Hn). by intros [? [=]]. }
  cbn beta. intros r s2 (-> & m2 & N' & -> & Hm2 & HN'). apply wp_bind, wp_ret. rewrite decide_False by lia. set (s2 := set_byname m2 _).
  assert (Hstart : indexed (<[si_id i := p]> G) s2 (a_digs b) s2).
  { exists (is_bydigest s2), D, (is_digs s2), (is_next s2). split; [by destruct s2|]. split; [done|]. split; [apply (rp_dig Hr1)|]. split; [|intros q Hq; apply (rp_next Hr1); by right].
    eapply drep_weaken; [by apply insert_subseteq|exact (rep_drep _ _ _ _ _ _ Hr1)]. }
  apply wp_bind. eapply wp_mono; [eapply implicit_ok; [exact Hstart|apply lookup_insert_eq|exact Hp|exact Hi|auto with world]|]. cbn beta. intros r s3 [-> H3]. rewrite decide_False by lia.
  assert (Hp3 : is_imgs s3 !! p = Some im) by (destruct H3 as (? & ? & ? & ? & -> & _); exact Hp).
  apply wp_bind. eapply wp_mono; [eapply explicit_ok; [exact (indexed_self _ _ _ _ H3)|apply lookup_insert_eq|exact Hp3|exact Hi|auto with world|done]|]. cbn beta. intros r s4 [-> H4]. do 2 apply wp_ret. rewrite !(decide_False (P := 0 ≠ 0)) by lia. split; [done|].
  destruct (indexed_trans _ _ _ _ _ _ H3 H4) as (m3 & D3 & dg & nx & -> & Hnx & Hm3 & Hd3 & Hdg). split; [split; [exact Hl1|exact Hd1]|]. split.
  { intros q imq. cbn [is_imgs set_next set_digs set_bydigest]. change (is_imgs s2) with (is_imgs s1). rewrite Hheap. intros [[<- <-]|[_ Hq]]%lookup_insert_Some; [done|by apply (Hsp q)]. }
  exists (<[si_id i := p]> G), N', D3. refine (rep_appended bound G N N' D D3 s1 b p im i m1 m2 m3 dg nx (index_image i (a_digs b)) _ _ _ _ _ _ _ _ _ _ _ _ _ _); try done.
  - intros n Hn. apply eq_None_not_Some. rewrite (named bound _ _ _ _ _ _ n Hr1 Hw), (Hfree n Hn). by intros [? [=]].
  - unfold index_image. by destruct (si_data_digests i).
Qed.

(** ** Directories *)

(** No name has a host or a library to lose. *)
Definition plain_names (i : storage_image) : Prop :=
  match default_host with
  | None => True
  | Some host => ∀ n, n ∈ si_names i → util_has_prefix (Some (cstr_s n)) (Some (host +:+ String slash EmptyString)) = false ∧ util_has_prefix (Some (cstr_s n)) (Some REPO_PREFIX_TO_STRIP) = false
  end.

Lemma strip_plain_names w host names :
  (∀ n, n ∈ names → util_has_prefix (Some (cstr_s n)) (Some host) = false ∧ util_has_prefix (Some (cstr_s n)) (Some REPO_PREFIX_TO_STRIP) = false) → strip_names default_host w host names = (names, false).
Proof.
  revert w. induction names as [|n names IH]; intros w Hn; [done|]. cbn [strip_names]. rewrite IH by (intros x Hx; apply Hn; by right). destruct (Hn n) as [-> ->]; [by left|]. done.
Qed.

Lemma strip_ok bound a k i w s :
  awf bound a → a_imgs a !! k = Some i → plain_names i → mem_all w →
  wp (strip_default_hostname signed generate_json default_host dir w i) (λ r s', r = Some (restore signed default_host i) ∧ s' = s) s.
Proof.
  intros Hw Hi Hp Hm. destruct (wf_names bound a Hw k i Hi) as (_ & _ & Hl). destruct (wf_size bound a Hw) as [_ Hb]. unfold strip_default_hostname, restore, plain_names in *. rewrite alloc_ok by auto with world.
  unfold get_hostname_to_strip. destruct default_host as [host|] eqn:Eh; [|by apply wp_ret]. cbn [negb]. rewrite <- Eh in *. rewrite strip_plain_names by done. unfold deduplicate_names. cbn [si_names with_names]. apply wp_bind.
  eapply (wp_mono _ (λ r s', r = Some (with_names (the_names signed (si_names i)) i) ∧ s' = s)); [|intros r s' [-> ->]; by apply wp_ret].
  destruct (decide (si_names i = [])) as [->|Hne]; [rewrite bool_decide_true by done; by apply wp_ret|]. rewrite bool_decide_false by done. apply wp_bind. eapply wp_mono; [apply the_names_ok; [auto with world|lia]|]. cbn beta. intros r s' [-> ->]. by apply wp_ret.
Qed.

(** The files of an image that can be loaded. *)
Definition complete (disk : gmap string (gmap string string)) (k : cstr) (i : storage_image) : Prop :=
  reg_ok IDENTIFIER_PATTERN (cstr_s k) = true ∧ fits dir k ∧ plain_names i ∧ has_config dir parse_spec base64 disk k ∧
  ∃ m, (disk !! cstr_s k ≫= λ files, files !! cstr_s IMAGE_DIGEST_BIG_DATA_KEY) = Some m ∧ parse_manifest_v2 m || parse_manifest_oci m = true.

Lemma fits_paths k : fits dir k → path_fits dir (cstr_s k) IMAGE_JSON = true ∧ path_fits dir (cstr_s k) (cstr_s IMAGE_DIGEST_BIG_DATA_KEY) = true ∧ ¬ (PATH_MAX ≤ String.length (dir +:+ String slash (cstr_s k)))%nat.
Proof.
  unfold fits, get_image_path, image_dir, path_fits. cbn zeta. destruct (decide _) as [|Hl]; [by intros [? [=]]|]. intros _. change (String.length IMAGE_JSON) with 11%nat in *.
  rewrite !string_length_app in *. cbn [String.length] in *. rewrite !string_length_app in *. cbn [String.length] in *. change (String.length IMAGE_JSON) with 11%nat in *. change (String.length (cstr_s IMAGE_DIGEST_BIG_DATA_KEY)) with 8%nat.
  split_and!; [apply bool_decide_eq_true; lia..|lia].
Qed.

Lemma validate_ok w k s m :
  fits dir k → (is_disk s !! cstr_s k ≫= λ files, files !! cstr_s IMAGE_DIGEST_BIG_DATA_KEY) = Some m → parse_manifest_v2 m || parse_manifest_oci m = true →
  wp (image_store_validate_manifest_schema_version_1 parse_file parse_manifest_v2 parse_manifest_oci parse_manifest_v1 parse_config_v2 base64 dir w (cstr_s k)) (λ r s', r = (0, false) ∧ s' = s) s.
Proof.
  intros Hf Hm Hp. destruct (fits_paths k Hf) as (_ & H2 & _). unfold image_store_validate_manifest_schema_version_1. rewrite H2. cbn [negb]. apply wp_bind, wp_bind, wp_get, wp_ret. rewrite Hm.
  apply orb_true_iff in Hp as [->| ->]; [by apply wp_ret|]. destruct (parse_manifest_v2 m); by apply wp_ret.
Qed.

(** A parser reads what the printer has written, which is never empty. *)
Context (Hround : ∀ i text, generate_json i = Some text → text ≠ EmptyString ∧ parse_file text = Some i).

Lemma append_dir_ok bound G N D s a pre w k i :
  rep [] G N D s (reload signed default_host a pre) → awf bound a → dirs_of a (pre ++ [cstr_s k]) → mem_all w → a_imgs a !! k = Some i → saved_as generate_json i (is_disk s) → complete (is_disk s) k i → specs s →
  wp (append_image_by_directory signed generate_json parse_file parse_spec base64 default_host dir w (cstr_s k)) (λ r s', r = 0 ∧ calm s s' ∧ specs s' ∧ ∃ G' N' D', rep [] G' N' D' s' (reload signed default_host a (pre ++ [cstr_s k]))) s.
Proof.
  intros Hr Hw Hdirs Hm Hi (files & text & Hf & Hg & Ht) (_ & Hfit & Hpl & Hcfg & _) Hsp. pose proof Hdirs as [Hnd Hd]. apply NoDup_app in Hnd as (Hnd & Hfresh & _).
  assert (Hpre : dirs_of a pre) by (split; [done|]; intros d Hin; apply Hd; rewrite elem_of_app; by left). pose proof (λ k i, reload_imgs signed default_host a pre k i Hpre) as Him.
  assert (Hid : si_id i = k) by (by apply (wf_id bound a Hw)). destruct (restore_same signed default_host i) as (Hri & Hrd & _). destruct (wf_digest bound a Hw k i Hi) as [[d Hdg] _].
  destruct (restore_names signed default_host bound a k i Hw Hi) as (Hrn & Hrin & _).
  unfold append_image_by_directory. destruct (fits_paths k Hfit) as (-> & _ & _). cbn [negb]. apply wp_bind, wp_bind, wp_get, wp_ret. rewrite <- Hid at 1. rewrite Hf. cbn [mbind option_bind]. destruct (Hround i text Hg) as [Hne Hpf]. rewrite (Ht Hne). cbn [mbind option_bind]. rewrite Hpf.
  apply wp_bind. eapply wp_mono; [eapply strip_ok; [done..|auto with world]|]. cbn beta. intros r s' [-> ->]. apply wp_bind.
  eapply wp_mono; [eapply (do_append_ok bound G N D s (reload signed default_host a pre) (sub 1 w) (restore signed default_host i) d); [done|by apply awf_reload|auto with world| |congruence|done| | |done]|].
  - rewrite Hri, Hid. apply eq_None_not_Some. intros [x [Hin _]%Him]. apply (Hfresh _ Hin). by left.
  - intros n Hn%Hrin. apply (owner_none bound); [by apply awf_reload|]. intros k' i' [Hin (j & Hj & ->)]%Him Hn'. destruct (restore_names signed default_host bound a k' j Hw Hj) as (_ & Hj' & _). apply Hj' in Hn'.
    assert (k' = k) as -> by (by eapply (wf_owner bound a Hw)). apply (Hfresh _ Hin). by left.
  - by rewrite Hri, Hid.
  - cbn beta. intros [r o] s' (Hr0 & Hc & Hsp' & G' & N' & D' & Hr'). cbn in Hr0. subst r. rewrite decide_False by lia. apply wp_ret. split_and!; [done..|]. exists G', N', D'. rewrite reload_snoc. unfold reload_one. rewrite cstr_of_s, Hi. by rewrite Hri, Hid in Hr'.
Qed.

Context (convert_to_v2_image_and_load : world → string → M (image_state MT) Z).
Let loop := load_loop signed generate_json parse_file parse_spec parse_manifest_v2 parse_manifest_oci parse_manifest_v1 parse_config_v2 base64 default_host dir convert_to_v2_image_and_load.

Lemma image_dirs_ok bound a w dirs pre s :
  awf bound a → dirs_of a (pre ++ dirs) → mem_all w → saved generate_json a (is_disk s) → (∀ k i, a_imgs a !! k = Some i → complete (is_disk s) k i) → specs s →
  (∃ G N D, rep [] G N D s (reload signed default_host a pre)) →
  wp (loop w dirs) (λ _ s', calm s s' ∧ specs s' ∧ ∃ G N D, rep [] G N D s' (reload signed default_host a (pre ++ dirs))) s.
Proof.
  revert w pre s. unfold loop. induction dirs as [|d dirs IH]; intros w pre s Hw Hdirs Hm Hsv Hcm Hsp (G & N & D & Hr); cbn [load_loop].
  { apply wp_ret. split_and!; [done..|]. exists G, N, D. by rewrite app_nil_r. }
  destruct (proj2 Hdirs d) as (k & -> & i & Hi); [rewrite elem_of_app; right; by left|]. destruct (Hcm k i Hi) as (Hreg & Hfit & Hpl & Hcfg & mf & Hmf & Hpm). destruct (fits_paths k Hfit) as (_ & _ & Hlen).
  assert (Hone : dirs_of a (pre ++ [cstr_s k])).
  { destruct Hdirs as [Hnd Hd]. rewrite cons_middle, app_assoc in Hnd, Hd. apply NoDup_app in Hnd as (Hnd & _ & _). split; [done|]. intros d Hin. apply Hd. rewrite elem_of_app. by left. }
  rewrite Hreg. cbn [negb]. rewrite decide_False by done. apply wp_bind, wp_bind. eapply wp_mono; [by eapply validate_ok|]. cbn beta. intros r s' [-> ->]. rewrite decide_False by lia. cbn [negb].
  apply wp_bind. eapply wp_mono; [eapply append_dir_ok; [exact Hr|done|exact Hone|auto with world|done|by eapply Hsv|by apply Hcm|done]|]. cbn beta. intros r s1 (_ & [Hl1 Hd1] & Hsp1 & Hr1). apply wp_ret.
  eapply wp_mono; [apply (IH (sub 2 w) (pre ++ [cstr_s k]) s1); [done|by rewrite <- app_assoc|auto with world|by rewrite Hd1|by rewrite Hd1|done|done]|]. cbn beta. intros _ s2 (Hc & Hsp2 & Hr2). rewrite <- app_assoc in Hr2. split_and!; [|done..]. by eapply calm_trans.
Qed.

Lemma check_loop_ok w l s : (∀ p, p ∈ l → is_Some (is_imgs s !! p)) → specs s → wp (check_loop default_host dir w l) (λ _ s', s' = s) s.
Proof.
  revert w. induction l as [|p l IH]; intros w Hl Hsp; cbn [check_loop]; [by apply wp_ret|]. destruct (Hl p) as [im Him]; [by left|]. destruct (Hsp p im Him) as [sp Hs].
  apply wp_bind. eapply wp_ld_img; [done|]. rewrite Hs. apply wp_bind, wp_ret. apply IH; [|done]. intros q Hq. apply Hl. by right.
Qed.

End loading.

(** ** Instance: one image *)
Section example.
#[local] Instance simage_eq : EqDecision storage_image.
Proof. solve_decision. Defined.

Let id : cstr := cstr_of "0123456789abcdef0123456789abcdef0123456789abcdef0123456789abcdef".
Let img : storage_image := mk_simage id (Some (cstr_of "sha256:1")) [cstr_of "busybox"] None None None None 0 [] None (Some [(IMAGE_DIGEST_BIG_DATA_KEY, cstr_of "sha256:2")]).
Let files : gmap string string := {[ IMAGE_JSON := "image"; "manifest" := "manifest"; "=c" := "config" ]}.
Let generate (i : storage_image) : option string := if decide (i = img) then Some "image" else None.
Let parse (text : string) : option storage_image := if String.eqb text "image" then Some img else None.
Let spec (text : string) : option oci_image_spec := if String.eqb text "config" then Some (mk_spec None) else None.
Let one : astore := mk_astore {[id := img]} ∅.
Let dead (m : map_t ptr MAP_STR_PTR) : image_state (map_t ptr MAP_STR_PTR) := mk_ist false Free [] 0 m m m false ∅ ∅ 1%N {[cstr_s id := files]}.

Lemma only_one k i : a_imgs one !! k = Some i → k = id ∧ i = img.
Proof. unfold one. cbn [a_imgs]. by intros [<- <-]%lookup_singleton_Some. Qed.

Lemma one_awf : awf 1 one.
Proof. apply (awf_one img); [cbn; lia| |by eexists|apply NoDup_singleton]. repeat constructor. unfold short. rewrite max_items_eq. cbn. lia. Qed.

End example.
